(* ===== verification/_CoqProject ===== *)
-Q . S2P
Prelude.v
WideMath.v
Types.v
Work.v
Effects.v
Conflict.v
Modes.v
Hbor.v
Numbers.v
Cells.v
Writes.v
Ledger.v
Store.v
Overlay.v
Commute.v
Groups.v
Capability.v
Outcomes.v
Rules.v
Values.v
Buckets.v
Supply.v
Session.v
Grants.v
Seals.v
Conservation.v
Receipt.v
Closing.v
Legs.v
Locality.v
Materialize.v
Dsl.v
Bounds.v
Executor.v
Walk.v
Pipeline.v
Contracts.v
Pool.v
Vaults.v
Lending.v
Merkle.v
Text.v
Tree.v
Evidence.v
Star.v
