(* ===== verification/Prelude.v ===== *)
(** * hyperscale-vm: a verification development

    hyperscale-vm executes batches of signed transactions on sharded state. A
    transaction declares, before it runs, every place it may touch and in which
    mode; the executor groups a batch by the conflicts between declarations, runs
    each group over one layered store, and folds what every transaction did into a
    receipt. This library models the kernel that does so, in the order the parts
    rest on each other, the admission of the trees of intents a transaction is, and
    the contract packages that run on the kernel, and proves the properties the
    design leans on. Paths below are under [src/crates/], guests under [src/].

    ** The parts and the files

    - [Prelude.v] (this file): [Result] as the monad [result]; machine integers as
      [Z] with [checked_*], [saturating_*] and [overflowing_*] at a width; bytes and
      their little- and big-endian values; the lexicographic order; the class
      [OrdKey] of keys a [BTreeMap] or [BTreeSet] is ordered by, with [map_iter]
      and [set_iter], their ascending walks; the rewriting and hint databases.
    - [WideMath.v], [types/src/math.rs]: 256- and 512-bit arithmetic on 64-bit
      limbs, every loop as the source has it. [mul_div], [geometric_mean],
      [fraction_compose], [fraction_cmp], [fixed_pow], [gcd] against the integers
      they compute, with their exact error conditions.
    - [Types.v], [types/src/{address,amount,mode,writes}.rs]: addresses, substate
      keys and their leaf bytes, amount cells, access modes, conflict classes,
      effect targets.
    - [Work.v], [types/src/{work,scheme}.rs]: declared work in its five dimensions,
      its price, the band a vote opens and the controller that steps the table.
    - [Effects.v], [types/src/effect.rs]: [EffectSet], the folding set of declared
      accesses: closed form and order-independence of the fold, byte pricing,
      self-conflict.
    - [Conflict.v], [kernel/src/{conflict,oracle}.rs]: overlap of targets, conflict
      of effects, and the trace-subset oracle: accesses covered by non-conflicting
      declarations are disjoint or of compatible modes.
    - [Modes.v], [kernel/src/modes.rs]: amounts, the delta fold, reservation
      verdicts.
    - [Ledger.v], [kernel/src/ledger.rs] and the traits of [store.rs]: the classes
      [Substates], [Baseline], [AmountLedger] and every derived ledger operation;
      [AbstractStore], what a store presents, and [LedgerLaws], what an
      implementation owes; what each operation does and the floor invariant are
      proved once, against the interface.
    - [Store.v], [kernel/src/store.rs]: [MemoryStore] satisfies the laws; the
      linearity oracle.
    - [Overlay.v], [kernel/src/overlay.rs]: [OverlayStore], a base under a committed
      and an active layer: it satisfies the laws, its three-way scan is the scan of
      the merged collection, merging keeps the view, discarding rolls back.
    - [Commute.v], [kernel/src/{store,overlay,ledger}.rs] and the table of
      [types/src/mode.rs]: the store operations of a transaction as one sequence,
      and why transactions with non-conflicting declarations run in either order.
    - [Groups.v], [kernel/src/executor.rs]: [conflict_groups]: union-find, point
      classes and the interval sweep compute the connected components of the
      pairwise conflict relation.
    - [Capability.v], [kernel/src/session/{materialize,grants,trap}.rs]: capability
      forms, the permission table, refusals, and the monad [M] of the session's
      operations: a state kept as the operation left it and an [outcome] that
      answers, traps or panics.
    - [Buckets.v], [kernel/src/session/{buckets,reach}.rs]: the bucket table:
      conservation, frame isolation, proportional splits.
    - [Supply.v], [kernel/src/{supply,escrow}.rs]: supply and escrow records.
    - [Session.v], [kernel/src/session.rs], [session/{value,ranges}.rs]: the kernel
      session: handles, frames, events, byte and value cells, reservations,
      issuance, crossings, intervals.
    - [Seals.v], [types/src/seeds.rs], [kernel/src/session/seal.rs]: sealed draws
      over the window of epoch seeds.
    - [Conservation.v], [kernel/src/session/receipt.rs]: the conservation account,
      the session's operations as one type of steps, and the theorem that every run
      of them keeps the account.
    - [Receipt.v], [kernel/src/session/receipt.rs]: finishing a session into a
      receipt and a store, or into a refusal and the store as it was found.
    - [Closing.v]: the account finishing weighs is the account a run keeps.
    - [Hbor.v], [crates/hbor]: the canonical encoding; [Cells.v],
      [effects/src/cells.rs]: the protocol's own cells; [Outcomes.v],
      [types/src/execution.rs]: outcomes, events, answers and the classification of
      refusals; [Rules.v], [effects/src/{rule,claim,auth,manifest}.rs]: authority
      rules and the cells they are stored in.
    - [Values.v], [effects/src/types.rs]: the values of the declaration language,
      their canonical bytes, and the derivations of keys, collections and addresses
      over an abstract hash; [Grants.v], [effects/src/{resource,vocabulary}.rs]:
      what a resource grants, declared and resolved, and the cells it has.
    - [Dsl.v], [effects/src/{dsl,instance,metadata}.rs]: the language a method
      declares its accesses in and its metered evaluator, from clauses to the
      declaration the kernel materializes; [Bounds.v],
      [effects/src/publish/bounds.rs]: the caps a published signature is held to.
    - [Writes.v], [types/src/writes.rs]: what a transaction says about state, and
      its settlement onto committed values.
    - [Legs.v], [kernel/src/escrow.rs]: which nodes and edges of a manifest one
      execution carries; [Locality.v], [kernel/src/locality.rs],
      [effects/src/footprint.rs]: an execution's share by owner, and its price.
    - [Materialize.v], [kernel/src/session/materialize.rs]: a declaration judged
      into the session a body runs in.
    - [Executor.v], [kernel/src/executor.rs]: a batch screened, judged, grouped, run
      and applied, over any guest runner.
    - [Walk.v], [kernel/src/walk.rs], [effects/src/invoke.rs]: the runner the kernel
      has: a lowered manifest walked node by node over any engine.
    - [Pipeline.v]: the executor with the walk as its runner, end to end.
    - [Tree.v], [effects/src/{graph,intent}.rs],
      [effects/src/admission/{tree,fill,order}.rs]: the tree of intents a
      transaction is: its walk and shape, what stands behind every socket and give,
      and the one order its nodes are interleaved into; [Evidence.v],
      [effects/src/admission/node.rs]: the claims a node presents, and the rules
      admission judges against them.
    - [Star.v], [effects/src/{star,route}.rs], [types/src/legs.rs]: the role every
      node of an admitted transaction takes against a placement, the value that
      crosses between shards, when the transaction divides, and its declaration
      projected per shard.
    - [Text.v], [types/src/address/text.rs]: addresses as bech32m text;
      [Merkle.v], [hbor/src/merkle.rs]: merkle roots and proofs over an abstract
      hash.
    - [Numbers.v], [sdk/src/{num,host,state}.rs]: the numbers a contract computes
      with, over the host's wide arithmetic, and their cells; [Contracts.v],
      [sdk/src/state.rs]: the monad of a method's body, with refusals and traps
      that undo it, and buckets, vaults and issuance as a body sees them.
    - [Pool.v], [guests/amm]; [Vaults.v], [guests/{shares,flashloan,payouts}];
      [Lending.v], [guests/{lending,peg}]: contract packages, method by method.

    ** How the code is represented

    A struct is a [Record], an enum an [Inductive] with the source's constructors
    (in a [Module] where the source's names clash). A method that changes its
    receiver takes the state and returns it, with the [Result] beside it; where an
    operation can fail after changing something the changed state is returned with
    the error. A fixed byte array is the integer its bytes spell big-endian, whose
    order is the array's order ([Types.be_val_lex]). [u32] handle numbers are [nat]:
    they are only compared and used as indices. A panic is a value ([None] or
    [Panicked]), never a missing case.

    ** Loops and fuel

    Every definition runs. Loops over lists, limbs and maps are structural.
    [WideMath.gcd_loop] runs on fuel 513, one more than the bits of its two
    operands together, each round removing a bit; [gcd_correct] shows that it never
    runs out. [WideMath.fixed_pow_loop] runs 32 rounds for a 32-bit exponent.
    [Groups.root_loop] gets [index + 1] rounds, enough because a parent never
    exceeds its child. [Overlay.merge_loop] gets one round per entry it can consume.
    [Hbor.encode_loop] has the four rounds a length field can take;
    [Rules.leaves_walk] and [count_walk] pop one vertex per round and get as many
    rounds as the tree has vertices, and so do [Values.visit] and
    [Values.depth_walk] over a value. [Values.value_at] has the 64 levels of the
    decoder's default cap, past which it is the decoder's own refusal;
    [Values.spill] has four rounds, a byte's carry having at most three digits.
    The evaluator of [Dsl.v] is structural on terms and clauses; its own limits are
    the source's, and [Dsl.effects_walk] has a round per clause. [Tree.walk_loop]
    numbers one intent per round and gets the size of the tree; [Tree.yielded]
    descends to a member and [Tree.fill] climbs to a composer, numbered above and
    below, so the number of intents is enough, which [tree_resolves] shows;
    [Tree.interleave_loop] emits a node per round. [Merkle.merkle_loop],
    [prove_loop] and [verify_loop] halve a level per round and get its width;
    [Text.drain] loses at least five bits per round and gets the bits held.

    ** What the theorems show

    - Arithmetic: the wide operations compute the rounded exact value or name why
      they cannot; [fixed_pow] keeps the requested side.
    - Declarations: folding is order-free and exact; conflict is overlap plus mode
      incompatibility; the schedule's groups are exactly the connected components;
      transactions whose declarations do not conflict, where both go through, give
      the same answers and leave the same state in either order.
    - Ledger: reservations stay covered through every sequence of operations, a
      commit of the queue asked to leave what is held; they settle for what they
      held and are judged greedily and order-free; commits are atomic.
    - Layers: over a base with nothing queued the overlay answers every sequence of
      ledger operations as the plain store it collapses to does; it scans exactly at
      every limit, and rolls back whole.
    - Value: the bucket table and the session's operations conserve every resource,
      whatever a body does; a frame cannot touch a bucket it was not lent.

    - Encoding: every codec is canonical, one byte string per value and one value
      per byte string, and with it the protocol's cells, stored rules, outcomes.
    - Values and grants: a value's bytes are the value; the grants a resource is
      declared with resolve to a typed set or a named refusal, never a panic.
    - Declarations, evaluated: the evaluator answers typed values and a declaration
      the kernel can be handed, within its meters and charged for; authority never
      depends on what the caller passes; a published signature is never refused for its structure.
    - Prices: a price covers the work and no more than rounding; the controller
      stays in its bounds and moves by at most an eighth.
    - Authority: rules are judged as thresholds over their leaves; a node's gate
      passes exactly when every rule it requires holds on committed state and the
      evidence presented, and no code runs behind a gate that does not.
    - Transactions: a materialized session starts from a zero account with every
      reservation held; a session finishes whole or not at all and its receipt
      balances; shards settling their own shares reach what one settlement would.
    - Batches: every transaction has one receipt, whatever order the batch came in;
      applying is all or nothing; no hold outlives the batch; and, end to end over
      any engine confined to the host's operations, value is conserved.
    - Admission: a tree held to its shape resolves without a panic and grants
      nothing its composer does not hold, and no node presents a claim its intent was
      not given; the interleave finds an order exactly when
      there is one; a placement settles a star, and a transaction that divides is
      covered: value crosses once, to the shards that need it, and everyone who must
      wait is waited on.
    - Identity: an address and its text name each other and a mistyped character is
      refused; a merkle proof that verifies is the tree's own proof of its leaf, or
      two of the inputs hashed collide.
    - Packages: the numbers are exact or panic where the source says; a pool's worth
      per claim and a vault's price per share never fall; a market rounds its own
      way; splits conserve.

    ** What is not modelled

    The engine itself is a parameter ([Walk.GuestBackend]), held in [Walk.Engine] to
    the operations [kernel/src/host.rs] offers; cryptographic hashes are parameters
    or the addresses they derive. Not modelled: the node-by-node lowering of an
    interleaved tree ([effects/src/admission/{node,edge,abi,inject}.rs] past the evidence, and what
    [admit_tree] does around it), which types each call against its signature and joins the
    declarations evaluated for it; the publish checks past the bounds
    ([effects/src/publish/{declaration,package}.rs]); the wire form of the
    declaration language; metering. The Wasm embedding, the authoring half of the
    SDK and its macros, the client-side builders, the test harnesses and the
    packages not named above are outside the library: they are bindings to
    third-party code, clients of the kernel, or more of the same kind. *)

From Stdlib Require Export ZArith Lia.
From Stdlib Require Export Strings.Byte.
From stdpp Require Export base numbers list gmap sorting.

Declare Scope vm_scope.
Delimit Scope vm_scope with vm.
Global Open Scope Z_scope.

(** ** Fallible computations

    Rust's [Result<A, E>]; the error type comes first so that [result E] is a
    monad, and [?] is the monadic bind. *)

Inductive result (E A : Type) : Type :=
  | Ok (a : A)
  | Err (e : E).
Arguments Ok {E A} a.
Arguments Err {E A} e.

#[global] Instance result_ret {E} : MRet (result E) := λ A a, Ok a.
#[global] Instance result_bind {E} : MBind (result E) := λ A B f m,
  match m with Ok a => f a | Err e => Err e end.
#[global] Instance result_fmap {E} : FMap (result E) := λ A B f m,
  match m with Ok a => Ok (f a) | Err e => Err e end.

#[global] Instance result_eq_dec {E A} `{EqDecision E, EqDecision A} :
  EqDecision (result E A).
Proof. solve_decision. Defined.

(** [Option::ok_or]. *)
Definition ok_or {E A} (o : option A) (e : E) : result E A :=
  match o with Some a => Ok a | None => Err e end.

Definition is_ok {E A} (r : result E A) : bool :=
  match r with Ok _ => true | Err _ => false end.

(** [Result::map_err]. *)
Definition map_err {E F A} (f : E → F) (r : result E A) : result F A :=
  match r with Ok a => Ok a | Err e => Err (f e) end.

Lemma result_bind_ok {E A B} (m : result E A) (f : A → result E B) b :
  (m ≫= f) = Ok b ↔ ∃ a, m = Ok a ∧ f a = Ok b.
Proof. destruct m; simpl; naive_solver. Qed.

Lemma result_bind_err {E A B} (m : result E A) (f : A → result E B) e :
  (m ≫= f) = Err e ↔ m = Err e ∨ ∃ a, m = Ok a ∧ f a = Err e.
Proof. destruct m; simpl; naive_solver. Qed.

Lemma ok_or_ok {E A} (o : option A) (e : E) a : ok_or o e = Ok a ↔ o = Some a.
Proof. destruct o; simpl; naive_solver. Qed.

Lemma ok_or_err {E A} (o : option A) (e e' : E) :
  ok_or o e = Err e' ↔ o = None ∧ e = e'.
Proof. destruct o; simpl; naive_solver. Qed.

(** ** Machine integers

    A [uN] is a [Z] together with the range fact [in_width N]; what Rust's
    operators do at the ends of the range is written out. *)

Definition width_max (w : Z) : Z := 2 ^ w - 1.
Definition in_width (w x : Z) : Prop := 0 ≤ x < 2 ^ w.

#[global] Instance in_width_dec w x : Decision (in_width w x).
Proof. unfold in_width. apply _. Defined.

Abbreviation u32_max := (width_max 32).
Abbreviation u64_max := (width_max 64).
Abbreviation u128_max := (width_max 128).

(** [checked_add], [checked_sub], [saturating_add], [saturating_sub],
    [saturating_mul] and [overflowing_*] at a width. *)
Definition checked_add (w a b : Z) : option Z :=
  if decide (a + b ≤ width_max w) then Some (a + b) else None.
Definition checked_sub (a b : Z) : option Z :=
  if decide (b ≤ a) then Some (a - b) else None.
Definition saturating_add (w a b : Z) : Z := Z.min (a + b) (width_max w).
Definition saturating_sub (a b : Z) : Z := Z.max (a - b) 0.
Definition saturating_mul (w a b : Z) : Z := Z.min (a * b) (width_max w).
Definition overflowing_add (w a b : Z) : Z * bool :=
  ((a + b) mod 2 ^ w, bool_decide (2 ^ w ≤ a + b)).
Definition overflowing_sub (w a b : Z) : Z * bool :=
  ((a - b) mod 2 ^ w, bool_decide (a < b)).

Lemma checked_add_Some w a b c :
  checked_add w a b = Some c ↔ c = a + b ∧ a + b ≤ width_max w.
Proof. unfold checked_add. case_decide; naive_solver. Qed.

Lemma checked_add_None w a b : checked_add w a b = None ↔ width_max w < a + b.
Proof. unfold checked_add. case_decide; split; intros; [done|lia|lia|done]. Qed.

Lemma checked_sub_Some a b c : checked_sub a b = Some c ↔ c = a - b ∧ b ≤ a.
Proof. unfold checked_sub. case_decide; naive_solver. Qed.

Lemma checked_sub_None a b : checked_sub a b = None ↔ a < b.
Proof. unfold checked_sub. case_decide; split; intros; [done|lia|lia|done]. Qed.

Lemma width_max_pow w : width_max w = 2 ^ w - 1.
Proof. done. Qed.

Lemma pow2_pos n : 0 ≤ n → 0 < 2 ^ n.
Proof. intros; apply Z.pow_pos_nonneg; lia. Qed.

Lemma lor_in_width w a b :
  0 ≤ w → in_width w a → in_width w b → in_width w (Z.lor a b).
Proof.
  unfold in_width. intros Hw Ha Hb.
  replace (Z.lor a b) with (Z.lor a b mod 2 ^ w).
  { apply Z.mod_pos_bound, pow2_pos. lia. }
  apply Z.bits_inj'. intros i Hi. destruct (decide (i < w)).
  - by rewrite Z.mod_pow2_bits_low by lia.
  - rewrite Z.mod_pow2_bits_high, Z.lor_spec by lia.
    rewrite <- (Z.mod_small a (2 ^ w)), <- (Z.mod_small b (2 ^ w)) by lia.
    by rewrite !Z.mod_pow2_bits_high by lia.
Qed.

(** Oring into bits that are clear adds. *)
Lemma lor_disjoint_add a b : Z.land a b = 0 → Z.lor a b = a + b.
Proof. intros H. rewrite <- Z.lxor_lor by done. symmetry. by apply Z.add_nocarry_lxor. Qed.

Lemma land_shifted_low x y k :
  0 ≤ k → 0 ≤ y < 2 ^ k → Z.land (x * 2 ^ k) y = 0.
Proof.
  intros Hk Hy. apply Z.bits_inj'. intros i Hi.
  rewrite Z.land_spec, Z.bits_0. destruct (decide (i < k)).
  - rewrite Z.mul_pow2_bits_low by lia. done.
  - rewrite <- (Z.mod_small y (2 ^ k)) by lia.
    rewrite Z.mod_pow2_bits_high by lia. apply andb_false_r.
Qed.

Lemma lor_shifted_low x y k :
  0 ≤ k → 0 ≤ y < 2 ^ k → Z.lor (x * 2 ^ k) y = x * 2 ^ k + y.
Proof. intros. by apply lor_disjoint_add, land_shifted_low. Qed.

Create HintDb vm.
#[export] Hint Resolve pow2_pos : vm.
#[export] Hint Extern 1 (0 ≤ _) => lia : vm.

(** Invert every successful step of a chain of [?]s and checked operations. *)
Ltac inv_result :=
  repeat match goal with
  | H : mbind _ _ = Ok _ |- _ => apply result_bind_ok in H as (? & ? & ?)
  | H : (_ ≫= _) = Ok _ |- _ => apply result_bind_ok in H as (? & ? & ?)
  | H : ok_or _ _ = Ok _ |- _ => apply ok_or_ok in H
  | H : ok_or _ _ = Err _ |- _ => apply ok_or_err in H as [? ?]
  | H : checked_add _ _ _ = Some _ |- _ => apply checked_add_Some in H as [? ?]
  | H : checked_add _ _ _ = None |- _ => apply checked_add_None in H
  | H : checked_sub _ _ = Some _ |- _ => apply checked_sub_Some in H as [? ?]
  | H : checked_sub _ _ = None |- _ => apply checked_sub_None in H
  | H : Ok _ = Ok _ |- _ => injection H as H
  | H : Err _ = Err _ |- _ => injection H as H
  | H : Ok _ = Err _ |- _ => discriminate H
  | H : Err _ = Ok _ |- _ => discriminate H
  | H : Some _ = Some _ |- _ => injection H as H
  | H : None = Some _ |- _ => discriminate H
  | H : Some _ = None |- _ => discriminate H
  end.

(** ** Bytes

    A [u8] is a [Byte.byte]; [u8_val] and [u8_of] are the casts from and to
    wider integers, the latter truncating. *)

#[global] Instance byte_eq_dec : EqDecision byte := Byte.byte_eq_dec.

Definition u8_val (b : byte) : Z := Z.of_N (Byte.to_N b).
Definition u8_of (x : Z) : byte := default x00 (Byte.of_N (Z.to_N (x mod 256))).

Lemma u8_val_bound b : 0 ≤ u8_val b < 256.
Proof. unfold u8_val. pose proof (Byte.to_N_bounded b). lia. Qed.

Lemma u8_of_val b : u8_of (u8_val b) = b.
Proof.
  unfold u8_of. rewrite Z.mod_small by apply u8_val_bound. unfold u8_val.
  by rewrite N2Z.id, Byte.of_to_N.
Qed.

Lemma u8_val_of x : u8_val (u8_of x) = x mod 256.
Proof.
  unfold u8_of, u8_val. pose proof (Z.mod_pos_bound x 256 ltac:(lia)).
  destruct (Byte.of_N (Z.to_N (x mod 256))) as [b|] eqn:E; simpl.
  - apply Byte.to_of_N in E. rewrite E. lia.
  - apply Byte.of_N_None_iff in E. lia.
Qed.

#[global] Instance u8_val_inj : Inj (=) (=) u8_val.
Proof. intros a b E. by rewrite <- (u8_of_val a), <- (u8_of_val b), E. Qed.

#[global] Instance byte_countable : Countable byte.
Proof. refine (inj_countable' u8_val u8_of _). apply u8_of_val. Defined.

(** [to_le_bytes] of an [8 * n]-bit integer, and [from_le_bytes]. *)
Fixpoint le_bytes (n : nat) (x : Z) : list byte :=
  match n with
  | O => []
  | S n' => u8_of x :: le_bytes n' (x / 256)
  end.

Fixpoint le_val (l : list byte) : Z :=
  match l with
  | [] => 0
  | b :: l' => u8_val b + 256 * le_val l'
  end.

(** [to_be_bytes] and [from_be_bytes]. *)
Definition be_bytes (n : nat) (x : Z) : list byte := reverse (le_bytes n x).
Definition be_val (l : list byte) : Z := le_val (reverse l).

Lemma length_le_bytes n x : length (le_bytes n x) = n.
Proof. revert x. induction n; intros; simpl; congruence. Qed.

Lemma length_be_bytes n x : length (be_bytes n x) = n.
Proof. unfold be_bytes. by rewrite length_reverse, length_le_bytes. Qed.

Lemma pow256_S n : 256 ^ Z.of_nat (S n) = 256 * 256 ^ Z.of_nat n.
Proof. rewrite Nat2Z.inj_succ, Z.pow_succ_r; lia. Qed.

Lemma le_val_bound l : 0 ≤ le_val l < 256 ^ Z.of_nat (length l).
Proof.
  induction l as [|b l IH]; [done|]. cbn [le_val length]. rewrite pow256_S.
  pose proof (u8_val_bound b). lia.
Qed.

Lemma le_val_bytes n x : 0 ≤ x < 256 ^ Z.of_nat n → le_val (le_bytes n x) = x.
Proof.
  revert x. induction n as [|n IH]; intros x Hx; [simpl in *; lia|].
  rewrite pow256_S in Hx. cbn [le_bytes le_val]. rewrite u8_val_of, IH.
  - pose proof (Z.div_mod x 256 ltac:(lia)). lia.
  - split; [apply Z.div_pos; lia|apply Z.div_lt_upper_bound; lia].
Qed.

Lemma le_bytes_val l : le_bytes (length l) (le_val l) = l.
Proof.
  induction l as [|b l IH]; [done|]. cbn [length le_bytes le_val].
  pose proof (u8_val_bound b). f_equal.
  - apply u8_val_inj. rewrite u8_val_of, (Z.mul_comm 256), Z.mod_add, Z.mod_small; lia.
  - rewrite (Z.mul_comm 256), Z.div_add, Z.div_small, Z.add_0_l by lia. done.
Qed.

Lemma be_val_bytes n x : 0 ≤ x < 256 ^ Z.of_nat n → be_val (be_bytes n x) = x.
Proof. intros. unfold be_val, be_bytes. rewrite reverse_involutive. by apply le_val_bytes. Qed.

Lemma be_bytes_val l : be_bytes (length l) (be_val l) = l.
Proof.
  unfold be_val, be_bytes. rewrite <- (length_reverse l), le_bytes_val. apply reverse_involutive.
Qed.

Lemma be_val_bound l : 0 ≤ be_val l < 256 ^ Z.of_nat (length l).
Proof. unfold be_val. rewrite <- (length_reverse l). apply le_val_bound. Qed.

(** ** Ordered keys

    A [BTreeMap] is a finite map walked in the order of its keys. Every key
    type of the program derives [Ord]: field by field, and by variant before
    fields, which is the lexicographic order of the integers [ord_key] lists. *)

Fixpoint lex_cmp (a b : list Z) : comparison :=
  match a, b with
  | [], [] => Eq
  | [], _ :: _ => Lt
  | _ :: _, [] => Gt
  | x :: a', y :: b' => match Z.compare x y with Eq => lex_cmp a' b' | c => c end
  end.

Definition lex_le (a b : list Z) : Prop := lex_cmp a b ≠ Gt.

#[global] Instance comparison_eq_dec : EqDecision comparison.
Proof. solve_decision. Defined.

#[global] Instance lex_le_dec : RelDecision lex_le.
Proof. intros a b. unfold lex_le. apply _. Defined.

Lemma lex_cmp_eq a b : lex_cmp a b = Eq ↔ a = b.
Proof.
  revert b. induction a as [|x a IH]; intros [|y b]; simpl; try done.
  destruct (Z.compare_spec x y); [subst; rewrite IH; naive_solver|split; [done|]..];
    intros [=]; lia.
Qed.

Lemma lex_cmp_antisym a b : lex_cmp b a = CompOpp (lex_cmp a b).
Proof.
  revert b. induction a as [|x a IH]; intros [|y b]; simpl; try done.
  rewrite (Z.compare_antisym x y). destruct (Z.compare x y); simpl; [apply IH|done..].
Qed.

#[global] Instance lex_le_trans : Transitive lex_le.
Proof.
  unfold lex_le. intros a. induction a as [|x a IH]; intros [|y b] [|z c]; simpl; try done.
  destruct (Z.compare_spec x y), (Z.compare_spec y z), (Z.compare_spec x z); try done; try lia.
  apply IH.
Qed.

#[global] Instance lex_le_refl : Reflexive lex_le.
Proof. intros a. unfold lex_le. by rewrite (proj2 (lex_cmp_eq a a) eq_refl). Qed.

#[global] Instance lex_le_total : Total lex_le.
Proof.
  intros a b. unfold lex_le. rewrite (lex_cmp_antisym a b).
  destruct (lex_cmp a b); simpl; [left|left|right]; done.
Qed.

#[global] Instance lex_le_antisym : AntiSymm (=) lex_le.
Proof.
  intros a b. unfold lex_le. rewrite (lex_cmp_antisym a b).
  destruct (lex_cmp a b) eqn:E; simpl; intros; [by apply lex_cmp_eq|done..].
Qed.

Class OrdKey (A : Type) := {
  ord_key : A → list Z;
  ord_key_inj :: Inj (=) (=) ord_key;
}.

#[global] Instance Z_ord_key : OrdKey Z.
Proof. refine {| ord_key x := [x] |}. Defined.

Definition key_le {A} `{OrdKey A} (a b : A) : Prop := lex_le (ord_key a) (ord_key b).

Section key_order.
Context {A : Type} `{OrdKey A}.

#[global] Instance key_le_dec : RelDecision (key_le (A := A)).
Proof. intros a b. unfold key_le. apply _. Defined.
#[global] Instance key_le_trans : Transitive (key_le (A := A)).
Proof. intros a b c. unfold key_le. apply transitivity. Qed.
#[global] Instance key_le_refl : Reflexive (key_le (A := A)).
Proof. intros a. unfold key_le. reflexivity. Qed.
#[global] Instance key_le_total : Total (key_le (A := A)).
Proof. intros a b. unfold key_le. apply total, _. Qed.
#[global] Instance key_le_antisym : AntiSymm (=) (key_le (A := A)).
Proof. intros a b H1 H2. apply (inj ord_key). by apply (anti_symm lex_le). Qed.
End key_order.

(** The walk of a [BTreeSet] and of a [BTreeMap]. *)
Definition set_iter {A} `{Countable A, OrdKey A} (s : gset A) : list A :=
  merge_sort key_le (elements s).

Definition pair_le {K V} `{OrdKey K} (x y : K * V) : Prop := key_le x.1 y.1.
#[global] Instance pair_le_dec {K V} `{OrdKey K} : RelDecision (pair_le (K := K) (V := V)).
Proof. intros x y. unfold pair_le. apply _. Defined.
#[global] Instance pair_le_trans {K V} `{OrdKey K} : Transitive (pair_le (K := K) (V := V)).
Proof. intros x y z. unfold pair_le. apply transitivity. Qed.
#[global] Instance pair_le_total {K V} `{OrdKey K} : Total (pair_le (K := K) (V := V)).
Proof. intros x y. unfold pair_le. apply total, _. Qed.

Definition map_iter {K V} `{Countable K, OrdKey K} (m : gmap K V) : list (K * V) :=
  merge_sort pair_le (map_to_list m).

Lemma set_iter_perm {A} `{Countable A, OrdKey A} (s : gset A) : set_iter s ≡ₚ elements s.
Proof. apply merge_sort_Permutation. Qed.

Lemma elem_of_set_iter {A} `{Countable A, OrdKey A} (s : gset A) x : x ∈ set_iter s ↔ x ∈ s.
Proof. by rewrite set_iter_perm, elem_of_elements. Qed.

Lemma map_iter_perm {K V} `{Countable K, OrdKey K} (m : gmap K V) : map_iter m ≡ₚ map_to_list m.
Proof. apply merge_sort_Permutation. Qed.

Lemma elem_of_map_iter {K V} `{Countable K, OrdKey K} (m : gmap K V) k v :
  (k, v) ∈ map_iter m ↔ m !! k = Some v.
Proof. by rewrite map_iter_perm, elem_of_map_to_list. Qed.

Lemma length_map_iter {K V} `{Countable K, OrdKey K} (m : gmap K V) : length (map_iter m) = size m.
Proof. by rewrite map_iter_perm, length_map_to_list. Qed.

Lemma NoDup_map_iter {K V} `{Countable K, OrdKey K} (m : gmap K V) : NoDup (map_iter m).*1.
Proof. rewrite map_iter_perm. apply NoDup_fst_map_to_list. Qed.

Lemma map_iter_sorted {K V} `{Countable K, OrdKey K} (m : gmap K V) :
  StronglySorted pair_le (map_iter m).
Proof. apply (StronglySorted_merge_sort _). Qed.

(** ** Filters *)

Lemma list_filter_all {A} (P : A → Prop) `{∀ x, Decision (P x)} (l : list A) :
  Forall P l → filter P l = l.
Proof. induction 1 as [|x l Hx _ IH]; [done|]. by rewrite filter_cons_True, IH. Qed.

Lemma list_filter_nil {A} (P : A → Prop) `{∀ x, Decision (P x)} (l : list A) :
  Forall (λ x, ¬ P x) l → filter P l = [].
Proof. induction 1 as [|x l Hx _ IH]; [done|]. by rewrite filter_cons_False. Qed.
