(* ===== verification/WideMath.v ===== *)
(** * Wide integer arithmetic ([crates/types/src/math.rs])

    [U256] and [U512] are arrays of 64-bit limbs, least significant first, and
    every operation is the limb algorithm of the source: ripple-carry addition
    and subtraction, schoolbook multiplication into a 512-bit product, binary
    long division, a base-four digit-by-digit square root and Stein's gcd.
    The reference semantics of a limb array is the integer [limbs_val] spells;
    the theorems relate each algorithm to [Z] arithmetic on those integers. *)

From S2P Require Import Prelude.
From Stdlib Require Import Znumtheory.

Abbreviation U256 := (list Z) (only parsing).
Abbreviation U512 := (list Z) (only parsing).

(** ** Data *)

Inductive Rounding := Down | Up.
#[global] Instance Rounding_eq_dec : EqDecision Rounding.
Proof. solve_decision. Defined.

Inductive MathError := DivideByZero | Overflow.
#[global] Instance MathError_eq_dec : EqDecision MathError.
Proof. solve_decision. Defined.

(** An array of [n] 64-bit limbs. *)
Definition limbs_ok (n : nat) (l : list Z) : Prop :=
  length l = n ∧ Forall (in_width 64) l.

#[global] Instance limbs_ok_dec n l : Decision (limbs_ok n l).
Proof. unfold limbs_ok. apply _. Defined.

(** Decide [limbs_ok] of a concrete array. *)
Ltac solve_limbs := apply (bool_decide_unpack _); vm_compute; exact I.

(** The integer a limb array spells, least significant limb first. *)
Fixpoint limbs_val (l : list Z) : Z :=
  match l with
  | [] => 0
  | x :: l' => x + 2 ^ 64 * limbs_val l'
  end.

Definition u256_zero : U256 := [0; 0; 0; 0].
Definition u256_one : U256 := [1; 0; 0; 0].
Definition u256_max : U256 := [u64_max; u64_max; u64_max; u64_max].
Definition u512_zero : U512 := [0; 0; 0; 0; 0; 0; 0; 0].

Definition from_u128 (n : Z) : U256 := [n mod 2 ^ 64; (n ≫ 64) mod 2 ^ 64; 0; 0].

Definition to_u128 (a : U256) : option Z :=
  if decide (a !!! 2%nat = 0 ∧ a !!! 3%nat = 0)
  then Some (Z.lor (a !!! 0%nat) ((a !!! 1%nat) ≪ 64))
  else None.

Definition fixed_scale : U256 := from_u128 (10 ^ 36).

Definition u256_is_zero (a : U256) : bool := bool_decide (a = u256_zero).

(** ** Limb loops *)

Fixpoint add_limbs_loop (a b : list Z) (carry : Z) : list Z * Z :=
  match a, b with
  | x :: a', y :: b' =>
      let '(partial, first) := overflowing_add 64 x y in
      let '(total, second) := overflowing_add 64 partial carry in
      let '(out, c) := add_limbs_loop a' b' (if first || second then 1 else 0) in
      (total :: out, c)
  | _, _ => ([], carry)
  end.

Definition add_limbs (a b : list Z) : list Z * bool :=
  let '(out, carry) := add_limbs_loop a b 0 in (out, bool_decide (carry ≠ 0)).

Fixpoint sub_limbs_loop (a b : list Z) (borrow : Z) : list Z * Z :=
  match a, b with
  | x :: a', y :: b' =>
      let '(partial, first) := overflowing_sub 64 x y in
      let '(total, second) := overflowing_sub 64 partial borrow in
      let '(out, c) := sub_limbs_loop a' b' (if first || second then 1 else 0) in
      (total :: out, c)
  | _, _ => ([], borrow)
  end.

Definition sub_limbs (a b : list Z) : list Z * bool :=
  let '(out, borrow) := sub_limbs_loop a b 0 in (out, bool_decide (borrow ≠ 0)).

(** The eight-limb instance of the same loop. *)
Definition sub_limbs_wide (a b : U512) : U512 * bool := sub_limbs a b.

(** One column of the schoolbook product: [out[i+j]] takes the low half of the
    128-bit total and the high half carries. *)
Definition mul_column (ai : Z) (b : U256) (i : nat) (st : U512 * Z) (j : nat) : U512 * Z :=
  let '(out, carry) := st in
  let total := ai * (b !!! j) + out !!! (i + j)%nat + carry in
  (<[(i + j)%nat := total mod 2 ^ 64]> out, total ≫ 64).

Definition mul_row (a b : U256) (out : U512) (i : nat) : U512 :=
  let '(out', carry) := foldl (mul_column (a !!! i) b i) (out, 0) (seq 0 4) in
  <[(i + 4)%nat := carry mod 2 ^ 64]> out'.

Definition mul_limbs (a b : U256) : U512 := foldl (mul_row a b) u512_zero (seq 0 4).

Fixpoint shl_one_loop (l : list Z) (carry : Z) : list Z :=
  match l with
  | [] => []
  | x :: l' => Z.lor ((x ≪ 1) mod 2 ^ 64) carry :: shl_one_loop l' (x ≫ 63)
  end.

Definition shl_one (l : list Z) : list Z := shl_one_loop l 0.

Definition shl_limbs (l : U256) (bits : Z) : U256 :=
  if decide (256 ≤ bits) then u256_zero else
  let whole := Z.to_nat (bits / 64) in
  let part := bits mod 64 in
  (λ i : nat,
    if decide (i < whole)%nat then 0 else
    let low := ((l !!! (i - whole)%nat) ≪ part) mod 2 ^ 64 in
    let high := if decide (part = 0 ∨ i = whole) then 0
                else (l !!! (i - whole - 1)%nat) ≫ (64 - part) in
    Z.lor low high) <$> seq 0 4.

Definition shr_limbs (l : U256) (bits : Z) : U256 :=
  if decide (256 ≤ bits) then u256_zero else
  let whole := Z.to_nat (bits / 64) in
  let part := bits mod 64 in
  (λ i : nat,
    if decide (i + whole < 4)%nat then
      let high := (l !!! (i + whole)%nat) ≫ part in
      let low := if decide (part = 0 ∨ (4 ≤ i + whole + 1)%nat) then 0
                 else ((l !!! (i + whole + 1)%nat) ≪ (64 - part)) mod 2 ^ 64 in
      Z.lor high low
    else 0) <$> seq 0 4.

(** [Ord for U256] and [Ord for U512]: most significant limb first. *)
Fixpoint cmp_msb (a b : list Z) : comparison :=
  match a, b with
  | x :: a', y :: b' =>
      match Z.compare x y with Eq => cmp_msb a' b' | unequal => unequal end
  | _, _ => Eq
  end.

Definition limbs_cmp (a b : list Z) : comparison := cmp_msb (reverse a) (reverse b).

Definition limbs_ge (a b : list Z) : bool :=
  match limbs_cmp a b with Lt => false | _ => true end.

(** ** [U256] and [U512] operations *)

Definition u256_checked_add (a b : U256) : option U256 :=
  let '(sum, carry) := add_limbs a b in if carry : bool then None else Some sum.

Definition u256_checked_sub (a b : U256) : option U256 :=
  let '(difference, borrow) := sub_limbs a b in
  if borrow : bool then None else Some difference.

Definition widening_mul (a b : U256) : U512 := mul_limbs a b.

(** [u64::trailing_zeros]: 64 at zero. *)
Fixpoint ctz (fuel : nat) (x : Z) : Z :=
  match fuel with
  | O => 0
  | S f => if Z.odd x then 0 else 1 + ctz f (x ≫ 1)
  end.
Definition u64_trailing_zeros (x : Z) : Z := ctz 64 x.

Fixpoint trailing_zeros_loop (l : list Z) (i : Z) : Z :=
  match l with
  | [] => 256
  | limb :: l' =>
      if decide (limb ≠ 0) then i * 64 + u64_trailing_zeros limb
      else trailing_zeros_loop l' (i + 1)
  end.
Definition trailing_zeros (a : U256) : Z := trailing_zeros_loop a 0.

Definition u256_shr (a : U256) (bits : Z) : U256 := shr_limbs a bits.

Definition from_u256 (n : U256) : U512 := n ++ [0; 0; 0; 0].

Definition u512_split (n : U512) : U256 * bool :=
  let high := Z.lor (Z.lor (Z.lor (n !!! 4%nat) (n !!! 5%nat)) (n !!! 6%nat)) (n !!! 7%nat) in
  (take 4 n, bool_decide (high ≠ 0)).

Definition narrow (n : U512) : option U256 :=
  match u512_split n with
  | (low, false) => Some low
  | (_, true) => None
  end.

Definition u512_bit (n : U512) (index : Z) : bool :=
  bool_decide (Z.land ((n !!! Z.to_nat (index / 64)) ≫ (index mod 64)) 1 = 1).

(** Set bit [index] of a limb array: [q[index / 64] |= 1 << (index % 64)]. *)
Definition or_bit (q : list Z) (index : Z) : list Z :=
  let k := Z.to_nat (index / 64) in
  <[k := Z.lor (q !!! k) (1 ≪ (index mod 64))]> q.

(** [x.0[0] |= v]. *)
Definition or_low (l : list Z) (v : Z) : list Z := <[0%nat := Z.lor (l !!! 0%nat) v]> l.

(** One step of the long division, at bit [index] of the dividend. *)
Definition div_step (n : U512) (d : U256) (index : Z) (st : U512 * U256) : U512 * U256 :=
  let '(quotient, remainder) := st in
  let carried := bool_decide ((remainder !!! 3%nat) ≫ 63 = 1) in
  let remainder := shl_one remainder in
  let remainder := if u512_bit n index then or_low remainder 1 else remainder in
  if carried || limbs_ge remainder d
  then (or_bit quotient index, (sub_limbs remainder d).1)
  else (quotient, remainder).

(** [for index in (0..count).rev()]. *)
Fixpoint div_loop (n : U512) (d : U256) (count : nat) (st : U512 * U256) : U512 * U256 :=
  match count with
  | O => st
  | S index => div_loop n d index (div_step n d (Z.of_nat index) st)
  end.

(** [None] is the panic of the zero-divisor assertion. *)
Definition div_rem (n : U512) (d : U256) : option (U512 * U256) :=
  if u256_is_zero d then None
  else Some (div_loop n d 512 (u512_zero, u256_zero)).

(** One digit of the square root, at the radicand's bits [shift + 1, shift]. *)
Definition isqrt_step (n : U512) (shift : Z) (st : U256 * U512) : U256 * U512 :=
  let '(root, remainder) := st in
  let remainder := shl_one (shl_one remainder) in
  let remainder := or_low remainder (Z.b2z (u512_bit n (shift + 1)) ≪ 1) in
  let remainder := or_low remainder (Z.b2z (u512_bit n shift)) in
  let root := shl_one root in
  let trial := or_low (shl_one (from_u256 root)) 1 in
  if limbs_ge remainder trial
  then (or_low root 1, (sub_limbs_wide remainder trial).1)
  else (root, remainder).

(** Step [256 - count] has [shift = 510 - 2 * step = 2 * (count - 1)]. *)
Fixpoint isqrt_loop (n : U512) (count : nat) (st : U256 * U512) : U256 * U512 :=
  match count with
  | O => st
  | S k => isqrt_loop n k (isqrt_step n (2 * Z.of_nat k) st)
  end.

Definition isqrt (n : U512) : U256 := (isqrt_loop n 256 (u256_zero, u512_zero)).1.

(** ** The interface *)

Definition mul_div (a b c : U256) (rounding : Rounding) : result MathError U256 :=
  if u256_is_zero c then Err DivideByZero else
  match div_rem (widening_mul a b) c with
  | None => Err DivideByZero
  | Some (quotient, remainder) =>
      quotient ← ok_or (narrow quotient) Overflow;
      match rounding with
      | Down => Ok quotient
      | Up => if u256_is_zero remainder then Ok quotient
              else ok_or (u256_checked_add quotient u256_one) Overflow
      end
  end.

Definition geometric_mean (a b : U256) : U256 := isqrt (widening_mul a b).

(** The loop of Stein's algorithm on two odd values: order the pair, subtract,
    shift out the trailing zeros. [None] is an exhausted fuel, which
    [gcd_loop_terminates] rules out at the fuel [gcd] passes. *)
Fixpoint gcd_loop (fuel : nat) (a b : U256) : option U256 :=
  match fuel with
  | O => None
  | S f =>
      let '(a, b) := match limbs_cmp a b with Gt => (b, a) | _ => (a, b) end in
      let b := (sub_limbs b a).1 in
      if u256_is_zero b then Some a
      else gcd_loop f a (u256_shr b (trailing_zeros b))
  end.

(** The product of the pair halves at every round and fits 512 bits. *)
Definition gcd_fuel : nat := 513.

Definition gcd (a b : U256) : U256 :=
  if u256_is_zero a then b else
  if u256_is_zero b then a else
  let shift := Z.min (trailing_zeros a) (trailing_zeros b) in
  let a := u256_shr a (trailing_zeros a) in
  let b := u256_shr b (trailing_zeros b) in
  match gcd_loop gcd_fuel a b with
  | Some g => shl_limbs g shift
  | None => u256_zero
  end.

Definition reduce_pair (a b : U256) : U256 * U256 :=
  let divisor := gcd a b in
  if u256_is_zero divisor || bool_decide (divisor = u256_one) then (a, b) else
  match div_rem (from_u256 a) divisor, div_rem (from_u256 b) divisor with
  | Some (a_reduced, _), Some (b_reduced, _) =>
      (default a (narrow a_reduced), default b (narrow b_reduced))
  | _, _ => (a, b)
  end.

Definition fraction_compose (an ad bn bd : U256) : result MathError (U256 * U256) :=
  if u256_is_zero ad || u256_is_zero bd then Err DivideByZero else
  match narrow (widening_mul an bn), narrow (widening_mul ad bd) with
  | Some num, Some den => Ok (num, den)
  | _, _ =>
      let '(an, bd) := reduce_pair an bd in
      let '(bn, ad) := reduce_pair bn ad in
      num ← ok_or (narrow (widening_mul an bn)) Overflow;
      den ← ok_or (narrow (widening_mul ad bd)) Overflow;
      Ok (num, den)
  end.

Definition fraction_cmp (an ad bn bd : U256) : result MathError comparison :=
  if u256_is_zero ad || u256_is_zero bd then Err DivideByZero
  else Ok (limbs_cmp (widening_mul an bd) (widening_mul bn ad)).

(** The squaring loop; [remaining] is a [u32], so 32 rounds empty it. *)
Fixpoint fixed_pow_loop (fuel : nat) (acc factor : U256) (remaining : Z)
    (rounding : Rounding) : result MathError U256 :=
  match fuel with
  | O => Ok acc
  | S f =>
      if decide (0 < remaining) then
        acc' ← (if decide (Z.land remaining 1 = 1)
                   then mul_div acc factor fixed_scale rounding
                   else Ok acc);
        let remaining := remaining ≫ 1 in
        factor' ← (if decide (0 < remaining)
                   then mul_div factor factor fixed_scale rounding
                   else Ok factor);
        fixed_pow_loop f acc' factor' remaining rounding
      else Ok acc
  end.

Definition fixed_pow (base : U256) (exp : Z) (rounding : Rounding) : result MathError U256 :=
  fixed_pow_loop 32 fixed_scale base exp rounding.

(** ** Limb arrays as integers *)

Lemma limbs_ok_nil n : limbs_ok n [] → n = 0%nat.
Proof. by intros [<- _]. Qed.

Lemma limbs_ok_cons n x l : limbs_ok (S n) (x :: l) ↔ in_width 64 x ∧ limbs_ok n l.
Proof. unfold limbs_ok. rewrite Forall_cons; simpl. naive_solver lia. Qed.

Lemma pow64_S n : 2 ^ (64 * Z.of_nat (S n)) = 2 ^ 64 * 2 ^ (64 * Z.of_nat n).
Proof. rewrite <- Z.pow_add_r by lia. f_equal. lia. Qed.

Lemma limbs_val_bound n l : limbs_ok n l → 0 ≤ limbs_val l < 2 ^ (64 * Z.of_nat n).
Proof.
  revert n. induction l as [|x l IH]; intros n Hok.
  - apply limbs_ok_nil in Hok as ->. simpl. lia.
  - destruct n as [|n]; [by destruct Hok|].
    apply limbs_ok_cons in Hok as [Hx Hl]. apply IH in Hl.
    rewrite pow64_S. unfold in_width in Hx. simpl limbs_val. nia.
Qed.

Lemma limbs_val_app l1 l2 :
  limbs_val (l1 ++ l2) = limbs_val l1 + 2 ^ (64 * Z.of_nat (length l1)) * limbs_val l2.
Proof.
  induction l1 as [|x l1 IH]; [simpl; lia|].
  cbn [app limbs_val]. rewrite IH. cbn [length]. rewrite pow64_S. ring.
Qed.

Lemma limbs_val_insert l k x :
  (k < length l)%nat →
  limbs_val (<[k := x]> l) = limbs_val l + (x - l !!! k) * 2 ^ (64 * Z.of_nat k).
Proof.
  revert k. induction l as [|y l IH]; intros k Hk; [simpl in Hk; lia|].
  destruct k as [|k].
  - change (<[0%nat := x]> (y :: l)) with (x :: l). change ((y :: l) !!! 0%nat) with y.
    cbn [limbs_val]. rewrite Z.mul_0_r, Z.pow_0_r. ring.
  - change (<[S k := x]> (y :: l)) with (y :: <[k := x]> l).
    change ((y :: l) !!! S k) with (l !!! k). simpl in Hk.
    cbn [limbs_val]. rewrite IH by lia. rewrite pow64_S. ring.
Qed.

Lemma limbs_val_inj n a b :
  limbs_ok n a → limbs_ok n b → limbs_val a = limbs_val b → a = b.
Proof.
  revert a b. induction n as [|n IH]; intros a b Ha Hb Hv.
  - destruct Ha as [Ha _], Hb as [Hb _]. by destruct a, b.
  - destruct a as [|x a]; [by destruct Ha|]. destruct b as [|y b]; [by destruct Hb|].
    apply limbs_ok_cons in Ha as [Hx Ha], Hb as [Hy Hb].
    unfold in_width in *. simpl in Hv. f_equal; [|apply IH; auto]; nia.
Qed.

Lemma limbs_ok_insert n l k x :
  limbs_ok n l → in_width 64 x → limbs_ok n (<[k := x]> l).
Proof.
  intros [Hn Hl] Hx. split; [by rewrite length_insert|]. by apply Forall_insert.
Qed.

Lemma limbs_ok_lookup n l k : limbs_ok n l → (k < n)%nat → in_width 64 (l !!! k).
Proof.
  intros [Hn Hl] Hk. rewrite Forall_lookup in Hl. apply (Hl k).
  apply list_lookup_lookup_total_lt. lia.
Qed.

Lemma limb_of_val n l k :
  limbs_ok n l → (k < n)%nat →
  l !!! k = (limbs_val l / 2 ^ (64 * Z.of_nat k)) mod 2 ^ 64.
Proof.
  revert n k. induction l as [|x l IH]; intros n k Hok Hk.
  { apply limbs_ok_nil in Hok. lia. }
  destruct n as [|n]; [by destruct Hok|]. apply limbs_ok_cons in Hok as [Hx Hl].
  pose proof (limbs_val_bound _ _ Hl). unfold in_width in Hx.
  destruct k as [|k]; cbn [limbs_val].
  - change ((x :: l) !!! 0%nat) with x. rewrite Z.mul_0_r, Z.pow_0_r, Z.div_1_r, (Z.mul_comm (2 ^ 64)), Z.mod_add by lia.
    symmetry. by apply Z.mod_small.
  - change ((x :: l) !!! S k) with (l !!! k). rewrite (IH n k Hl) by lia.
    rewrite pow64_S, <- Z.div_div by (try apply pow2_pos; lia).
    rewrite (Z.mul_comm (2 ^ 64)), Z.div_add by lia.
    rewrite (Z.div_small x) by lia. done.
Qed.

Lemma limbs_val_testbit n l i :
  limbs_ok n l → 0 ≤ i < 64 * Z.of_nat n →
  Z.testbit (l !!! Z.to_nat (i / 64)) (i mod 64) = Z.testbit (limbs_val l) i.
Proof.
  intros Hok Hi. pose proof (Z.div_mod i 64 ltac:(lia)).
  pose proof (Z.mod_pos_bound i 64 ltac:(lia)).
  assert (0 ≤ i / 64 < Z.of_nat n).
  { split; [apply Z.div_pos; lia|]. apply Z.div_lt_upper_bound; lia. }
  rewrite (limb_of_val n) by (done || lia). rewrite Z2Nat.id by lia.
  rewrite Z.mod_pow2_bits_low by lia. rewrite Z.div_pow2_bits by lia.
  f_equal. lia.
Qed.

#[export] Hint Resolve limbs_ok_insert : vm.

(** ** Addition and subtraction *)

Lemma overflowing_add_spec x y r o :
  in_width 64 x → in_width 64 y → overflowing_add 64 x y = (r, o) →
  in_width 64 r ∧ r + 2 ^ 64 * Z.b2z o = x + y.
Proof.
  unfold overflowing_add, in_width. intros Hx Hy [= <- <-].
  split; [apply Z.mod_pos_bound; lia|].
  case_bool_decide; simpl Z.b2z.
  - rewrite <- (Z.mod_add _ (-1)) by lia. rewrite Z.mod_small; lia.
  - rewrite Z.mod_small; lia.
Qed.

Lemma overflowing_sub_spec x y r o :
  in_width 64 x → in_width 64 y → overflowing_sub 64 x y = (r, o) →
  in_width 64 r ∧ r - 2 ^ 64 * Z.b2z o = x - y.
Proof.
  unfold overflowing_sub, in_width. intros Hx Hy [= <- <-].
  split; [apply Z.mod_pos_bound; lia|].
  case_bool_decide; simpl Z.b2z.
  - rewrite <- (Z.mod_add _ 1) by lia. rewrite Z.mod_small; lia.
  - rewrite Z.mod_small; lia.
Qed.

Lemma add_limbs_loop_spec n a b c out c' :
  limbs_ok n a → limbs_ok n b → (c = 0 ∨ c = 1) →
  add_limbs_loop a b c = (out, c') →
  limbs_ok n out ∧ (c' = 0 ∨ c' = 1) ∧
  limbs_val out + 2 ^ (64 * Z.of_nat n) * c' = limbs_val a + limbs_val b + c.
Proof.
  revert a b c out c'. induction n as [|n IH]; intros a b c out c' Ha Hb Hc.
  { destruct Ha as [Ha%nil_length_inv _], Hb as [Hb%nil_length_inv _]. subst.
    intros [= <- <-]. simpl. split; [done|]. lia. }
  destruct a as [|x a]; [by destruct Ha|]. destruct b as [|y b]; [by destruct Hb|].
  apply limbs_ok_cons in Ha as [Hx Ha], Hb as [Hy Hb]. cbn [add_limbs_loop].
  destruct (overflowing_add 64 x y) as [p first] eqn:E1.
  apply overflowing_add_spec in E1 as [Hp E1]; [|done..].
  destruct (overflowing_add 64 p c) as [t second] eqn:E2.
  apply overflowing_add_spec in E2 as [Ht E2]; [|done|unfold in_width in *; lia].
  destruct (add_limbs_loop a b _) as [out1 c1] eqn:E3. intros [= <- <-].
  apply IH in E3 as (Hok & Hc1 & E3); [|done..|destruct (first || second); auto].
  split; [by apply limbs_ok_cons|]. split; [done|].
  rewrite pow64_S. cbn [limbs_val].
  unfold in_width in *. destruct first, second; simpl in *; nia.
Qed.

Lemma sub_limbs_loop_spec n a b c out c' :
  limbs_ok n a → limbs_ok n b → (c = 0 ∨ c = 1) →
  sub_limbs_loop a b c = (out, c') →
  limbs_ok n out ∧ (c' = 0 ∨ c' = 1) ∧
  limbs_val out - 2 ^ (64 * Z.of_nat n) * c' = limbs_val a - limbs_val b - c.
Proof.
  revert a b c out c'. induction n as [|n IH]; intros a b c out c' Ha Hb Hc.
  { destruct Ha as [Ha%nil_length_inv _], Hb as [Hb%nil_length_inv _]. subst.
    intros [= <- <-]. simpl. split; [done|]. lia. }
  destruct a as [|x a]; [by destruct Ha|]. destruct b as [|y b]; [by destruct Hb|].
  apply limbs_ok_cons in Ha as [Hx Ha], Hb as [Hy Hb]. cbn [sub_limbs_loop].
  destruct (overflowing_sub 64 x y) as [p first] eqn:E1.
  apply overflowing_sub_spec in E1 as [Hp E1]; [|done..].
  destruct (overflowing_sub 64 p c) as [t second] eqn:E2.
  apply overflowing_sub_spec in E2 as [Ht E2]; [|done|unfold in_width in *; lia].
  destruct (sub_limbs_loop a b _) as [out1 c1] eqn:E3. intros [= <- <-].
  apply IH in E3 as (Hok & Hc1 & E3); [|done..|destruct (first || second); auto].
  split; [by apply limbs_ok_cons|]. split; [done|].
  rewrite pow64_S. cbn [limbs_val].
  unfold in_width in *. destruct first, second; simpl in *; nia.
Qed.

Lemma sub_limbs_spec n a b :
  limbs_ok n a → limbs_ok n b →
  limbs_ok n (sub_limbs a b).1 ∧
  limbs_val (sub_limbs a b).1 = (limbs_val a - limbs_val b) mod 2 ^ (64 * Z.of_nat n) ∧
  (sub_limbs a b).2 = bool_decide (limbs_val a < limbs_val b).
Proof.
  intros Ha Hb. unfold sub_limbs. destruct (sub_limbs_loop a b 0) as [out c] eqn:E.
  apply (sub_limbs_loop_spec n) in E as (Hok & Hc & E); [|auto..]. cbn [fst snd].
  pose proof (limbs_val_bound _ _ Ha). pose proof (limbs_val_bound _ _ Hb).
  pose proof (limbs_val_bound _ _ Hok). split; [done|]. split.
  - rewrite <- (Z.mod_add _ c) by lia. rewrite Z.mod_small; lia.
  - apply bool_decide_ext. destruct Hc as [-> | ->]; lia.
Qed.

Lemma add_limbs_spec n a b :
  limbs_ok n a → limbs_ok n b →
  limbs_ok n (add_limbs a b).1 ∧
  limbs_val (add_limbs a b).1 = (limbs_val a + limbs_val b) mod 2 ^ (64 * Z.of_nat n) ∧
  (add_limbs a b).2 = bool_decide (2 ^ (64 * Z.of_nat n) ≤ limbs_val a + limbs_val b).
Proof.
  intros Ha Hb. unfold add_limbs. destruct (add_limbs_loop a b 0) as [out c] eqn:E.
  apply (add_limbs_loop_spec n) in E as (Hok & Hc & E); [|auto..]. cbn [fst snd].
  pose proof (limbs_val_bound _ _ Ha). pose proof (limbs_val_bound _ _ Hb).
  pose proof (limbs_val_bound _ _ Hok). split; [done|]. split.
  - rewrite <- (Z.mod_add _ (- c)) by lia. rewrite Z.mod_small; lia.
  - apply bool_decide_ext. destruct Hc as [-> | ->]; lia.
Qed.

(** ** Comparison *)

Lemma cmp_msb_app a b x y :
  length a = length b →
  cmp_msb (a ++ [x]) (b ++ [y]) =
    match cmp_msb a b with Eq => Z.compare x y | unequal => unequal end.
Proof.
  revert b. induction a as [|u a IH]; intros [|v b] Hl; simpl in *; try lia.
  - by destruct (Z.compare x y).
  - injection Hl as Hl. rewrite IH by done. by destruct (Z.compare u v).
Qed.

Lemma limbs_cmp_spec n a b :
  limbs_ok n a → limbs_ok n b → limbs_cmp a b = Z.compare (limbs_val a) (limbs_val b).
Proof.
  unfold limbs_cmp. revert a b. induction n as [|n IH]; intros a b Ha Hb.
  { destruct Ha as [Ha%nil_length_inv _], Hb as [Hb%nil_length_inv _]. by subst. }
  destruct a as [|x a]; [by destruct Ha|]. destruct b as [|y b]; [by destruct Hb|].
  apply limbs_ok_cons in Ha as [Hx Ha], Hb as [Hy Hb].
  rewrite !reverse_cons, cmp_msb_app, IH; [|done..|].
  2: { rewrite !length_reverse. by destruct Ha as [-> _], Hb as [-> _]. }
  cbn [limbs_val]. unfold in_width in *. destruct (Z.compare_spec (limbs_val a) (limbs_val b)).
  - destruct (Z.compare_spec x y); symmetry;
      [apply Z.compare_eq_iff|apply Z.compare_lt_iff|apply Z.compare_gt_iff]; nia.
  - symmetry. apply Z.compare_lt_iff. nia.
  - symmetry. apply Z.compare_gt_iff. nia.
Qed.

Lemma limbs_ge_spec n a b :
  limbs_ok n a → limbs_ok n b → limbs_ge a b = bool_decide (limbs_val b ≤ limbs_val a).
Proof.
  intros Ha Hb. unfold limbs_ge. rewrite (limbs_cmp_spec n) by done.
  destruct (Z.compare_spec (limbs_val a) (limbs_val b)); case_bool_decide; (done || lia).
Qed.

Lemma u256_is_zero_spec a :
  limbs_ok 4 a → u256_is_zero a = bool_decide (limbs_val a = 0).
Proof.
  intros Ha. unfold u256_is_zero. apply bool_decide_ext. split; [by intros ->|].
  intros Hv. apply (limbs_val_inj 4); [done|by repeat constructor|by rewrite Hv].
Qed.

(** ** Shifts and bit updates *)

Lemma shl_one_loop_spec n l c :
  limbs_ok n l → (c = 0 ∨ c = 1) →
  limbs_ok n (shl_one_loop l c) ∧
  limbs_val (shl_one_loop l c) = (2 * limbs_val l + c) mod 2 ^ (64 * Z.of_nat n).
Proof.
  revert l c. induction n as [|n IH]; intros l c Hl Hc.
  { destruct Hl as [Hl%nil_length_inv _]. subst. split; [done|]. simpl. by rewrite Z.mod_1_r. }
  destruct l as [|x l]; [by destruct Hl|]. apply limbs_ok_cons in Hl as [Hx Hl].
  unfold in_width in Hx. cbn [shl_one_loop].
  assert (Hx63 : x ≫ 63 = x / 2 ^ 63) by (apply Z.shiftr_div_pow2; lia).
  assert (0 ≤ x / 2 ^ 63 < 2) as Hc'.
  { split; [apply Z.div_pos; lia|]. apply Z.div_lt_upper_bound; lia. }
  assert (Hlo : Z.lor ((x ≪ 1) mod 2 ^ 64) c = 2 * x + c - 2 ^ 64 * (x / 2 ^ 63)).
  { rewrite Z.shiftl_mul_pow2 by lia. pose proof (Z.div_mod x (2 ^ 63) ltac:(lia)).
    pose proof (Z.mod_pos_bound x (2 ^ 63) ltac:(lia)).
    replace ((x * 2 ^ 1) mod 2 ^ 64) with ((x mod 2 ^ 63) * 2 ^ 1).
    - rewrite lor_shifted_low by lia. lia.
    - change (2 ^ 64) with (2 ^ 63 * 2 ^ 1). by rewrite Z.mul_mod_distr_r by lia. }
  destruct (IH l (x ≫ 63)) as [Hok Hv]; [done|rewrite Hx63; lia|].
  split.
  - apply limbs_ok_cons. split; [|done]. rewrite Hlo. unfold in_width.
    pose proof (Z.div_mod x (2 ^ 63) ltac:(lia)).
    pose proof (Z.mod_pos_bound x (2 ^ 63) ltac:(lia)). lia.
  - cbn [limbs_val]. rewrite Hlo, Hv, Hx63, pow64_S.
    set (m := 2 ^ (64 * Z.of_nat n)). assert (0 < m) by (apply pow2_pos; lia).
    set (q := x / 2 ^ 63) in *. set (v := limbs_val l).
    pose proof (Z.div_mod (2 * v + q) m ltac:(lia)).
    pose proof (Z.mod_pos_bound (2 * v + q) m ltac:(lia)).
    apply Z.mod_unique with (q := (2 * v + q) / m); [|nia].
    left. pose proof (Z.div_mod x (2 ^ 63) ltac:(lia)).
    pose proof (Z.mod_pos_bound x (2 ^ 63) ltac:(lia)). subst q. nia.
Qed.

Lemma shl_one_spec n l :
  limbs_ok n l →
  limbs_ok n (shl_one l) ∧
  limbs_val (shl_one l) = (2 * limbs_val l) mod 2 ^ (64 * Z.of_nat n).
Proof.
  intros Hl. destruct (shl_one_loop_spec n l 0 Hl) as [Hok Hv]; [auto|].
  rewrite Z.add_0_r in Hv. done.
Qed.

(** Oring [v < 2^k] into a value divisible by [2^k] adds it. *)
Lemma or_low_spec n l k v :
  limbs_ok (S n) l → 0 ≤ k ≤ 64 → 0 ≤ v < 2 ^ k → (2 ^ k | limbs_val l) →
  limbs_ok (S n) (or_low l v) ∧ limbs_val (or_low l v) = limbs_val l + v.
Proof.
  intros Hl Hk Hv [w Hw]. destruct l as [|x l]; [by destruct Hl|].
  apply limbs_ok_cons in Hl as [Hx Hl]. unfold in_width in Hx. cbn [limbs_val] in Hw.
  unfold or_low. change ((x :: l) !!! 0%nat) with x.
  change (<[0%nat := ?y]> (x :: l)) with (y :: l).
  assert (x = (w - 2 ^ (64 - k) * limbs_val l) * 2 ^ k) as Hxk.
  { replace (2 ^ 64) with (2 ^ (64 - k) * 2 ^ k) in Hw; [lia|].
    rewrite <- Z.pow_add_r by lia. f_equal. lia. }
  set (y := w - _) in Hxk.
  assert (Z.lor x v = x + v) as -> by (rewrite Hxk; apply lor_shifted_low; lia).
  assert (x + v < 2 ^ 64).
  { assert (2 ^ 64 = 2 ^ (64 - k) * 2 ^ k) as H64.
    { rewrite <- Z.pow_add_r by lia. f_equal. lia. }
    rewrite H64 in *. assert (y < 2 ^ (64 - k)) by nia. nia. }
  split; [|cbn [limbs_val]; lia].
  apply limbs_ok_cons. split; [unfold in_width; lia|done].
Qed.

(** Setting a bit above which everything below is clear adds its weight. *)
Lemma or_bit_spec n l i :
  limbs_ok n l → 0 ≤ i < 64 * Z.of_nat n → Z.testbit (limbs_val l) i = false →
  limbs_ok n (or_bit l i) ∧ limbs_val (or_bit l i) = limbs_val l + 2 ^ i.
Proof.
  intros Hl Hi Hbit. unfold or_bit. set (k := Z.to_nat (i / 64)).
  pose proof (Z.div_mod i 64 ltac:(lia)). pose proof (Z.mod_pos_bound i 64 ltac:(lia)).
  assert (0 ≤ i / 64 < Z.of_nat n).
  { split; [apply Z.div_pos; lia|]. apply Z.div_lt_upper_bound; lia. }
  assert (k < n)%nat by lia.
  rewrite <- (limbs_val_testbit n) in Hbit by done. fold k in Hbit.
  pose proof (limbs_ok_lookup _ _ _ Hl ltac:(done) : in_width 64 (l !!! k)) as Hx.
  assert (Hor : Z.lor (l !!! k) (1 ≪ (i mod 64)) = l !!! k + 2 ^ (i mod 64)).
  { rewrite Z.shiftl_1_l. apply lor_disjoint_add, Z.bits_inj'. intros j Hj.
    rewrite Z.land_spec, Z.bits_0, Z.pow2_bits_eqb by lia.
    destruct (Z.eqb_spec (i mod 64) j) as [<-|]; [by rewrite Hbit|apply andb_false_r]. }
  assert (in_width 64 (l !!! k + 2 ^ (i mod 64))) as Hy.
  { rewrite <- Hor. apply lor_in_width; [lia|done|]. rewrite Z.shiftl_1_l.
    unfold in_width. split; [apply Z.lt_le_incl, pow2_pos; lia|]. apply Z.pow_lt_mono_r; lia. }
  rewrite Hor. split; [by apply limbs_ok_insert|].
  rewrite limbs_val_insert by (destruct Hl; lia).
  rewrite Z.add_simpl_l, <- Z.pow_add_r by lia. f_equal. f_equal. lia.
Qed.

(** ** Multiplication *)

Lemma limbs_val_take_S l j :
  (j < length l)%nat →
  limbs_val (take (S j) l) = limbs_val (take j l) + (l !!! j) * 2 ^ (64 * Z.of_nat j).
Proof.
  intros Hj. rewrite (take_S_r _ _ (l !!! j)) by by apply list_lookup_lookup_total_lt.
  rewrite limbs_val_app, length_take_le by lia. cbn [limbs_val]. ring.
Qed.

Lemma foldl_seq_S {A} (f : A → nat → A) a n :
  foldl f a (seq 0 (S n)) = f (foldl f a (seq 0 n)) n.
Proof. by rewrite seq_S, foldl_app. Qed.

Lemma mul_columns_spec ai b i out j out' carry :
  in_width 64 ai → limbs_ok 4 b → limbs_ok 8 out → (i + 4 ≤ 8)%nat → (j ≤ 4)%nat →
  foldl (mul_column ai b i) (out, 0) (seq 0 j) = (out', carry) →
  limbs_ok 8 out' ∧ in_width 64 carry ∧
  (∀ k, (i + j ≤ k)%nat → out' !!! k = out !!! k) ∧
  limbs_val out' + carry * 2 ^ (64 * Z.of_nat (i + j)) =
    limbs_val out + ai * 2 ^ (64 * Z.of_nat i) * limbs_val (take j b).
Proof.
  intros Hai Hb Hout Hi. revert out' carry. induction j as [|j IH]; intros out' carry Hj.
  { intros [= <- <-]. split; [done|]. split; [unfold in_width; lia|]. split; [done|].
    simpl. lia. }
  rewrite foldl_seq_S. destruct (foldl _ _ _) as [o c] eqn:E.
  destruct (IH o c ltac:(lia) eq_refl) as (Ho & Hc & Hrest & Hv). unfold mul_column.
  pose proof (limbs_ok_lookup _ _ j Hb ltac:(lia)) as Hbj.
  pose proof (limbs_ok_lookup _ _ (i + j)%nat Ho ltac:(lia)) as Hoj.
  set (total := ai * b !!! j + o !!! (i + j)%nat + c). intros [= <- <-].
  assert (0 ≤ total < 2 ^ 128) by (subst total; unfold in_width in *; nia).
  rewrite Z.shiftr_div_pow2 by lia.
  pose proof (Z.div_mod total (2 ^ 64) ltac:(lia)).
  pose proof (Z.mod_pos_bound total (2 ^ 64) ltac:(lia)).
  split; [by apply limbs_ok_insert|]. split.
  { split; [apply Z.div_pos; lia|]. apply Z.div_lt_upper_bound; lia. }
  split.
  { intros k Hk. rewrite list_lookup_total_insert_ne by lia. apply Hrest. lia. }
  rewrite limbs_val_insert by (destruct Ho; lia).
  rewrite limbs_val_take_S by (destruct Hb; lia).
  replace (i + S j)%nat with (S (i + j)) by lia. rewrite pow64_S.
  set (q := total / 2 ^ 64) in *. set (r := total mod 2 ^ 64) in *.
  set (P := 2 ^ (64 * Z.of_nat (i + j))) in *.
  assert (2 ^ (64 * Z.of_nat i) * 2 ^ (64 * Z.of_nat j) = P) as HP.
  { subst P. rewrite <- Z.pow_add_r by lia. f_equal. lia. }
  rewrite Z.mul_add_distr_l, <- (Z.mul_assoc ai (2 ^ _) (b !!! j * _)).
  replace (2 ^ (64 * Z.of_nat i) * (b !!! j * 2 ^ (64 * Z.of_nat j)))
    with (b !!! j * P) by (rewrite <- HP; ring).
  subst total. nia.
Qed.

Lemma mul_row_spec a b out i :
  limbs_ok 4 a → limbs_ok 4 b → limbs_ok 8 out → (i < 4)%nat →
  (∀ k, (i + 4 ≤ k < 8)%nat → out !!! k = 0) →
  limbs_ok 8 (mul_row a b out i) ∧
  (∀ k, (S i + 4 ≤ k < 8)%nat → mul_row a b out i !!! k = 0) ∧
  limbs_val (mul_row a b out i) =
    limbs_val out + (a !!! i) * 2 ^ (64 * Z.of_nat i) * limbs_val b.
Proof.
  intros Ha Hb Hout Hi Hz. unfold mul_row.
  destruct (foldl _ _ _) as [o c] eqn:E.
  apply mul_columns_spec in E as (Ho & Hc & Hrest & Hv);
    [|by eapply limbs_ok_lookup|done|done|lia|lia].
  unfold in_width in Hc. rewrite Z.mod_small by lia.
  split; [by apply limbs_ok_insert|]. split.
  { intros k Hk. rewrite list_lookup_total_insert_ne by lia. rewrite Hrest by lia.
    apply Hz. lia. }
  rewrite limbs_val_insert by (destruct Ho; lia).
  rewrite Hrest, Hz by lia. rewrite take_ge in Hv by (destruct Hb; lia). lia.
Qed.

Lemma mul_rows_spec a b i :
  limbs_ok 4 a → limbs_ok 4 b → (i ≤ 4)%nat →
  let out := foldl (mul_row a b) u512_zero (seq 0 i) in
  limbs_ok 8 out ∧ (∀ k, (i + 4 ≤ k < 8)%nat → out !!! k = 0) ∧
  limbs_val out = limbs_val (take i a) * limbs_val b.
Proof.
  intros Ha Hb. induction i as [|i IH]; intros Hi out.
  { split; [by repeat constructor|]. split; [|done].
    intros k Hk. subst out. simpl. do 8 (destruct k as [|k]; [done|]). lia. }
  subst out. rewrite foldl_seq_S. destruct IH as (Ho & Hz & Hv); [lia|].
  destruct (mul_row_spec a b _ i Ha Hb Ho ltac:(lia) Hz) as (Ho' & Hz' & Hv').
  split; [done|]. split; [done|]. rewrite Hv', Hv.
  rewrite limbs_val_take_S by (destruct Ha; lia). ring.
Qed.

Lemma widening_mul_spec a b :
  limbs_ok 4 a → limbs_ok 4 b →
  limbs_ok 8 (widening_mul a b) ∧
  limbs_val (widening_mul a b) = limbs_val a * limbs_val b.
Proof.
  intros Ha Hb. destruct (mul_rows_spec a b 4 Ha Hb ltac:(lia)) as (Ho & _ & Hv).
  rewrite take_ge in Hv by (destruct Ha; lia). done.
Qed.

(** ** Narrowing *)

Lemma lor_eq_0 a b : Z.lor a b = 0 ↔ a = 0 ∧ b = 0.
Proof. split; [apply Z.lor_eq_0_iff|]. by intros [-> ->]. Qed.

Lemma narrow_spec n :
  limbs_ok 8 n →
  narrow n = if decide (limbs_val n < 2 ^ 256) then Some (take 4 n) else None.
Proof.
  intros Hn. unfold narrow, u512_split.
  assert (Hhi : bool_decide (Z.lor (Z.lor (Z.lor (n !!! 4%nat) (n !!! 5%nat)) (n !!! 6%nat))
                 (n !!! 7%nat) ≠ 0) = negb (bool_decide (limbs_val n < 2 ^ 256))).
  { destruct Hn as [Hlen Hn]. do 8 (destruct n as [|? n]; [discriminate|]).
    destruct n; [|discriminate]. cbn -[Z.mul Z.pow Z.lor].
    rewrite <- bool_decide_not. apply bool_decide_ext. rewrite !lor_eq_0.
    repeat match goal with H : Forall _ (_ :: _) |- _ => apply Forall_cons in H as [? H] end.
    unfold in_width in *. simpl. split; lia. }
  rewrite Hhi. destruct (decide (limbs_val n < 2 ^ 256)); [rewrite bool_decide_true by done|rewrite bool_decide_false by done]; done.
Qed.

Lemma narrow_Some n m :
  limbs_ok 8 n → narrow n = Some m →
  limbs_ok 4 m ∧ limbs_val m = limbs_val n.
Proof.
  intros Hn. rewrite narrow_spec by done. case_decide as Hlt; [|done]. intros [= <-].
  assert (Hok : limbs_ok 4 (take 4 n)).
  { destruct Hn as [Hlen Hn]. split; [rewrite length_take; lia|by apply Forall_take]. }
  assert (Hok' : limbs_ok 4 (drop 4 n)).
  { destruct Hn as [Hlen Hn]. split; [rewrite length_drop; lia|by apply Forall_drop]. }
  split; [done|]. pose proof (limbs_val_bound _ _ Hok). pose proof (limbs_val_bound _ _ Hok').
  assert (Hv : limbs_val n = limbs_val (take 4 n) + 2 ^ 256 * limbs_val (drop 4 n)).
  { rewrite <- (take_drop 4 n) at 1. rewrite limbs_val_app. by destruct Hok as [-> _]. }
  change (64 * Z.of_nat 4) with 256 in *.
  assert (limbs_val (drop 4 n) = 0); nia.
Qed.

Lemma narrow_None n : limbs_ok 8 n → narrow n = None ↔ 2 ^ 256 ≤ limbs_val n.
Proof. intros Hn. rewrite narrow_spec by done. case_decide; split; (done || lia). Qed.

(** ** Division *)

Lemma u512_bit_spec n l i :
  limbs_ok n l → 0 ≤ i < 64 * Z.of_nat n → u512_bit l i = Z.testbit (limbs_val l) i.
Proof.
  intros Hl Hi. unfold u512_bit. rewrite <- (limbs_val_testbit n) by done.
  rewrite Z.testbit_odd. set (y := _ ≫ _).
  assert (Z.land y 1 = y mod 2) as -> by exact (Z.land_ones y 1 ltac:(lia)).
  rewrite Zmod_odd. by destruct (Z.odd y).
Qed.

Lemma top_bit_spec r :
  limbs_ok 4 r → bool_decide ((r !!! 3%nat) ≫ 63 = 1) = bool_decide (2 ^ 255 ≤ limbs_val r).
Proof.
  intros [Hl Hr]. do 4 (destruct r as [|? r]; [discriminate|]). destruct r; [|discriminate].
  repeat match goal with H : Forall _ (_ :: _) |- _ => apply Forall_cons in H as [? H] end.
  unfold in_width in *. apply bool_decide_ext. cbn [limbs_val].
  change ([z; z0; z1; z2] !!! 3%nat) with z2. rewrite Z.shiftr_div_pow2 by lia.
  pose proof (Z.div_mod z2 (2 ^ 63) ltac:(lia)).
  pose proof (Z.mod_pos_bound z2 (2 ^ 63) ltac:(lia)). split; nia.
Qed.

Definition div_inv (n : U512) (d : U256) (count : Z) (st : U512 * U256) : Prop :=
  limbs_ok 8 st.1 ∧ limbs_ok 4 st.2 ∧
  limbs_val st.1 = (limbs_val n / 2 ^ count / limbs_val d) * 2 ^ count ∧
  limbs_val st.2 = (limbs_val n / 2 ^ count) mod limbs_val d.

Lemma div_pow2_step N i :
  0 ≤ i → N / 2 ^ i = 2 * (N / 2 ^ (i + 1)) + Z.b2z (Z.testbit N i).
Proof.
  intros Hi. rewrite Z.pow_add_r by lia. rewrite <- Z.div_div by (try apply pow2_pos; lia).
  pose proof (Z.testbit_spec' N i Hi) as Hb. rewrite Z.pow_1_r.
  pose proof (Z.div_mod (N / 2 ^ i) 2 ltac:(lia)). lia.
Qed.

(** The remainder before the comparison: [2r + bit], less the carried bit. *)
Lemma shift_in_bit r (bit : bool) :
  limbs_ok 4 r →
  let r' := if bit then or_low (shl_one r) 1 else shl_one r in
  limbs_ok 4 r' ∧
  limbs_val r' = 2 * limbs_val r + Z.b2z bit
    - 2 ^ 256 * Z.b2z (bool_decide (2 ^ 255 ≤ limbs_val r)).
Proof.
  intros Hr. pose proof (limbs_val_bound _ _ Hr) as Hb.
  destruct (shl_one_spec 4 r Hr) as [Hs Hv].
  change (64 * Z.of_nat 4) with 256 in *.
  assert (Hv' : limbs_val (shl_one r) =
    2 * limbs_val r - 2 ^ 256 * Z.b2z (bool_decide (2 ^ 255 ≤ limbs_val r))).
  { rewrite Hv. case_bool_decide; simpl Z.b2z.
    - rewrite <- (Z.mod_add _ (-1)) by lia. rewrite Z.mod_small; lia.
    - rewrite Z.mod_small; lia. }
  destruct bit; simpl; [|split; [done|lia]].
  destruct (or_low_spec 3 (shl_one r) 1 1 Hs) as [Ho Hv'']; [lia|lia| |split; [done|lia]].
  rewrite Hv'. exists (limbs_val r - 2 ^ 255 * Z.b2z (bool_decide (2 ^ 255 ≤ limbs_val r))). lia.
Qed.

Lemma testbit_shifted_low x k i : 0 ≤ i < k → Z.testbit (x * 2 ^ k) i = false.
Proof. intros. apply Z.mul_pow2_bits_low. lia. Qed.

Lemma div_step_inv n d i st :
  limbs_ok 8 n → limbs_ok 4 d → limbs_val d ≠ 0 → 0 ≤ i < 512 →
  div_inv n d (i + 1) st → div_inv n d i (div_step n d i st).
Proof.
  intros Hn Hd Hd0 Hi (Hq & Hr & Hqv & Hrv). destruct st as [q r]. cbn [fst snd] in *.
  pose proof (limbs_val_bound _ _ Hd) as HdB. change (64 * Z.of_nat 4) with 256 in HdB.
  unfold div_step. rewrite top_bit_spec, (u512_bit_spec 8) by (done || lia).
  set (bit := Z.testbit (limbs_val n) i).
  destruct (shift_in_bit r bit Hr) as [Hr' Hv'].
  set (r' := if bit then _ else _) in *.
  rewrite (limbs_ge_spec 4) by done.
  pose proof (div_pow2_step (limbs_val n) i ltac:(lia)) as Hstep. fold bit in Hstep.
  set (M := limbs_val n / 2 ^ (i + 1)) in *. set (D := limbs_val d) in *.
  pose proof (Z.mod_pos_bound M D ltac:(lia)) as HrB.
  pose proof (Z.div_mod M D ltac:(lia)) as HM.
  assert (0 ≤ Z.b2z bit ≤ 1) by (destruct bit; simpl; lia).
  assert (Hp : 2 ^ (i + 1) = 2 * 2 ^ i) by (rewrite Z.pow_add_r by lia; lia).
  assert (Hbit : Z.testbit (limbs_val q) i = false).
  { rewrite Hqv. apply testbit_shifted_low. lia. }
  destruct (decide (D ≤ 2 * limbs_val r + Z.b2z bit)) as [Hge|Hlt].
  - assert (bool_decide (2 ^ 255 ≤ limbs_val r) || bool_decide (D ≤ limbs_val r') = true) as ->.
    { destruct (decide (2 ^ 255 ≤ limbs_val r)).
      - by rewrite bool_decide_true.
      - rewrite (bool_decide_true (D ≤ _)); [apply orb_true_r|].
        rewrite bool_decide_false in Hv' by done. simpl in Hv'. lia. }
    destruct (sub_limbs_spec 4 r' d Hr' Hd) as (Hs & Hsv & _).
    destruct (or_bit_spec 8 q i Hq ltac:(lia) Hbit) as [Ho Hov].
    unfold div_inv; cbn [fst snd]; fold D. split; [done|]. split; [done|].
    change (64 * Z.of_nat 4) with 256 in Hsv. fold D in Hsv. rewrite Hstep.
    assert (Hdiv : (2 * M + Z.b2z bit) / D = 2 * (M / D) + 1).
    { symmetry. apply Z.div_unique with (r := 2 * (M mod D) + Z.b2z bit - D); lia. }
    split.
    + rewrite Hov, Hqv, Hdiv, Hp. ring.
    + rewrite Hsv, Hv'. set (c := Z.b2z (bool_decide _)).
      replace (2 * limbs_val r + Z.b2z bit - 2 ^ 256 * c - D)
        with ((2 * limbs_val r + Z.b2z bit - D) + (- c) * 2 ^ 256) by ring.
      rewrite Z.mod_add, Z.mod_small by lia.
      apply Z.mod_unique with (q := 2 * (M / D) + 1); lia.
  - assert (bool_decide (2 ^ 255 ≤ limbs_val r) || bool_decide (D ≤ limbs_val r') = false) as ->.
    { rewrite bool_decide_false in Hv' by lia. simpl in Hv'.
      rewrite !bool_decide_false by lia. done. }
    rewrite bool_decide_false in Hv' by lia. simpl in Hv'.
    unfold div_inv; cbn [fst snd]; fold D. split; [done|]. split; [done|]. rewrite Hstep.
    assert (Hdiv : (2 * M + Z.b2z bit) / D = 2 * (M / D)).
    { symmetry. apply Z.div_unique with (r := 2 * (M mod D) + Z.b2z bit); lia. }
    split; [rewrite Hqv, Hdiv, Hp; ring|].
    rewrite Hv'. apply Z.mod_unique with (q := 2 * (M / D)); lia.
Qed.

Lemma div_loop_inv n d count st :
  limbs_ok 8 n → limbs_ok 4 d → limbs_val d ≠ 0 → (count ≤ 512)%nat →
  div_inv n d (Z.of_nat count) st → div_inv n d 0 (div_loop n d count st).
Proof.
  intros Hn Hd Hd0. revert st. induction count as [|k IH]; intros st Hc Hinv; [done|].
  apply IH; [lia|]. apply div_step_inv; try done; [lia|].
  by replace (Z.of_nat k + 1) with (Z.of_nat (S k)) by lia.
Qed.

Lemma div_rem_spec n d :
  limbs_ok 8 n → limbs_ok 4 d → limbs_val d ≠ 0 →
  ∃ q r, div_rem n d = Some (q, r) ∧ limbs_ok 8 q ∧ limbs_ok 4 r ∧
    limbs_val q = limbs_val n / limbs_val d ∧ limbs_val r = limbs_val n mod limbs_val d.
Proof.
  intros Hn Hd Hd0. unfold div_rem. rewrite u256_is_zero_spec, bool_decide_false by done.
  destruct (div_loop _ _ _ _) as [q r] eqn:E. exists q, r. split; [done|].
  assert (Hinv : div_inv n d 0 (q, r)).
  { rewrite <- E. apply div_loop_inv; [done..|]. pose proof (limbs_val_bound _ _ Hn) as Hb.
    unfold div_inv. cbn [fst snd]. change (Z.of_nat 512) with 512.
    change (64 * Z.of_nat 8) with 512 in Hb. rewrite (Z.div_small _ (2 ^ 512)) by done.
    split; [by repeat constructor|]. split; [by repeat constructor|].
    rewrite Z.div_0_l, Z.mod_0_l by done. done. }
  destruct Hinv as (Hq & Hr & Hqv & Hrv). cbn [fst snd] in *.
  rewrite Z.pow_0_r, Z.div_1_r, ?Z.mul_1_r in *. done.
Qed.

(** ** The square root *)

Lemma from_u256_spec a :
  limbs_ok 4 a → limbs_ok 8 (from_u256 a) ∧ limbs_val (from_u256 a) = limbs_val a.
Proof.
  intros [Hl Ha]. unfold from_u256. split.
  - split; [rewrite length_app, Hl; done|]. apply Forall_app. split; [done|].
    by repeat constructor.
  - rewrite limbs_val_app. cbn [limbs_val]. ring.
Qed.

Definition isqrt_inv (n : U512) (k : Z) (st : U256 * U512) : Prop :=
  limbs_ok 4 st.1 ∧ limbs_ok 8 st.2 ∧
  limbs_val st.1 * limbs_val st.1 + limbs_val st.2 = limbs_val n / 2 ^ (2 * k) ∧
  limbs_val st.2 ≤ 2 * limbs_val st.1.

Lemma shl_one_small n l :
  limbs_ok n l → 2 * limbs_val l < 2 ^ (64 * Z.of_nat n) →
  limbs_ok n (shl_one l) ∧ limbs_val (shl_one l) = 2 * limbs_val l.
Proof.
  intros Hl Hlt. pose proof (limbs_val_bound _ _ Hl).
  destruct (shl_one_spec n l Hl) as [Ho Hv]. split; [done|]. rewrite Hv, Z.mod_small; lia.
Qed.

Lemma root_bound n k r rem :
  limbs_ok 8 n → 0 ≤ k < 256 → 0 ≤ r → 0 ≤ rem →
  r * r + rem = limbs_val n / 2 ^ (2 * (k + 1)) → r < 2 ^ 255.
Proof.
  intros Hn Hk Hr Hrem Heq. pose proof (limbs_val_bound _ _ Hn) as Hb.
  change (64 * Z.of_nat 8) with 512 in Hb.
  assert (limbs_val n / 2 ^ (2 * (k + 1)) < 2 ^ 255 * 2 ^ 255).
  { apply Z.div_lt_upper_bound; [apply pow2_pos; lia|].
    assert (2 ^ 2 ≤ 2 ^ (2 * (k + 1))) by (apply Z.pow_le_mono_r; lia). lia. }
  nia.
Qed.

(** The remainder with the radicand's next two bits shifted in. *)
Lemma shift_in_pair rem (b1 b0 : bool) :
  limbs_ok 8 rem → limbs_val rem < 2 ^ 500 →
  let r := or_low (or_low (shl_one (shl_one rem)) (Z.b2z b1 ≪ 1)) (Z.b2z b0) in
  limbs_ok 8 r ∧ limbs_val r = 4 * limbs_val rem + 2 * Z.b2z b1 + Z.b2z b0.
Proof.
  intros Hr Hlt. pose proof (limbs_val_bound _ _ Hr).
  destruct (shl_one_small 8 rem Hr) as [H1 V1]; [change (64 * Z.of_nat 8) with 512; lia|].
  destruct (shl_one_small 8 _ H1) as [H2 V2]; [change (64 * Z.of_nat 8) with 512; lia|].
  assert (Hb1 : Z.b2z b1 ≪ 1 = 2 * Z.b2z b1) by (by destruct b1).
  destruct (or_low_spec 7 (shl_one (shl_one rem)) 2 (Z.b2z b1 ≪ 1) H2) as [H3 V3].
  { lia. } { rewrite Hb1. destruct b1; simpl; lia. }
  { rewrite V2, V1. exists (limbs_val rem). lia. }
  destruct (or_low_spec 7 _ 1 (Z.b2z b0) H3) as [H4 V4].
  { lia. } { destruct b0; simpl; lia. }
  { rewrite V3, V2, V1, Hb1. exists (2 * limbs_val rem + Z.b2z b1). lia. }
  split; [done|]. rewrite V4, V3, V2, V1, Hb1. lia.
Qed.

Lemma trial_spec root :
  limbs_ok 4 root →
  let t := or_low (shl_one (from_u256 root)) 1 in
  limbs_ok 8 t ∧ limbs_val t = 2 * limbs_val root + 1.
Proof.
  intros Hr. pose proof (limbs_val_bound _ _ Hr) as Hb.
  change (64 * Z.of_nat 4) with 256 in Hb. destruct (from_u256_spec root Hr) as [H1 V1].
  destruct (shl_one_small 8 _ H1) as [H2 V2]; [change (64 * Z.of_nat 8) with 512; lia|].
  destruct (or_low_spec 7 _ 1 1 H2) as [H3 V3]; [lia|lia| |].
  { rewrite V2. exists (limbs_val (from_u256 root)). lia. }
  split; [done|]. rewrite V3, V2, V1. lia.
Qed.

Lemma isqrt_step_inv n k st :
  limbs_ok 8 n → 0 ≤ k < 256 →
  isqrt_inv n (k + 1) st → isqrt_inv n k (isqrt_step n (2 * k) st).
Proof.
  intros Hn Hk (Hroot & Hrem & Heq & Hle). destruct st as [root rem]. cbn [fst snd] in *.
  pose proof (limbs_val_bound _ _ Hroot) as HB. pose proof (limbs_val_bound _ _ Hrem) as HB'.
  pose proof (root_bound n k (limbs_val root) (limbs_val rem) Hn Hk ltac:(lia) ltac:(lia) Heq) as Hrb.
  unfold isqrt_step. rewrite !(u512_bit_spec 8) by (done || lia).
  set (b1 := Z.testbit (limbs_val n) (2 * k + 1)).
  set (b0 := Z.testbit (limbs_val n) (2 * k)).
  destruct (shift_in_pair rem b1 b0 Hrem ltac:(lia)) as [Hr Vr].
  set (r := or_low (or_low _ _) _) in *.
  destruct (shl_one_small 4 root Hroot) as [H1 V1]; [change (64 * Z.of_nat 4) with 256; lia|].
  destruct (trial_spec _ H1) as [Ht Vt]. set (t := or_low (shl_one (from_u256 _)) 1) in *.
  rewrite (limbs_ge_spec 8) by done.
  assert (HN : limbs_val n / 2 ^ (2 * k)
    = 4 * (limbs_val n / 2 ^ (2 * (k + 1))) + 2 * Z.b2z b1 + Z.b2z b0).
  { rewrite (div_pow2_step _ (2 * k)), (div_pow2_step _ (2 * k + 1)) by lia.
    fold b1 b0. replace (2 * k + 1 + 1) with (2 * (k + 1)) by lia. lia. }
  unfold isqrt_inv. case_bool_decide as Hge; cbn [fst snd]; rewrite HN, <- Heq.
  - destruct (sub_limbs_spec 8 r t Hr Ht) as (Hs & Hsv & _).
    destruct (or_low_spec 3 (shl_one root) 1 1 H1) as [H2 V2]; [lia|lia| |].
    { rewrite V1. exists (limbs_val root). lia. }
    pose proof (limbs_val_bound _ _ Hr). pose proof (limbs_val_bound _ _ Ht).
    rewrite Z.mod_small in Hsv by lia. unfold sub_limbs_wide.
    assert (Z.b2z b1 ≤ 1 ∧ Z.b2z b0 ≤ 1) by (destruct b1, b0; simpl; lia).
    split; [done|]. split; [done|]. rewrite V2, Hsv, Vt, Vr, V1. split; lia.
  - split; [done|]. split; [done|]. rewrite V1, Vr. split; lia.
Qed.

Lemma isqrt_loop_inv n k st :
  limbs_ok 8 n → (k ≤ 256)%nat →
  isqrt_inv n (Z.of_nat k) st → isqrt_inv n 0 (isqrt_loop n k st).
Proof.
  intros Hn. revert st. induction k as [|k IH]; intros st Hk Hinv; [done|].
  apply IH; [lia|]. apply isqrt_step_inv; [done|lia|].
  by replace (Z.of_nat k + 1) with (Z.of_nat (S k)) by lia.
Qed.

Lemma isqrt_spec n :
  limbs_ok 8 n → limbs_ok 4 (isqrt n) ∧ limbs_val (isqrt n) = Z.sqrt (limbs_val n).
Proof.
  intros Hn. unfold isqrt. pose proof (limbs_val_bound _ _ Hn) as Hb.
  destruct (isqrt_loop_inv n 256 (u256_zero, u512_zero) Hn ltac:(lia)) as (H1 & H2 & Heq & Hle).
  { unfold isqrt_inv. cbn [fst snd]. split; [by repeat constructor|].
    split; [by repeat constructor|]. change (2 * Z.of_nat 256) with 512.
    change (64 * Z.of_nat 8) with 512 in Hb. rewrite Z.div_small by done. done. }
  destruct (isqrt_loop _ _ _) as [root rem]. cbn [fst snd] in *. split; [done|].
  pose proof (limbs_val_bound _ _ H1). pose proof (limbs_val_bound _ _ H2).
  rewrite Z.mul_0_r, Z.pow_0_r, Z.div_1_r in Heq.
  symmetry. apply Z.sqrt_unique. lia.
Qed.

(** ** Shifts by any amount *)

Lemma limb_testbit n l k m :
  limbs_ok n l → (k < n)%nat → 0 ≤ m < 64 →
  Z.testbit (l !!! k) m = Z.testbit (limbs_val l) (64 * Z.of_nat k + m).
Proof.
  intros Hl Hk Hm. rewrite <- (limbs_val_testbit n) by (done || lia).
  rewrite (Z.mul_comm 64), (Z.add_comm (_ * 64)), Z.div_add, Z.div_small, Z.add_0_l by lia.
  rewrite Z.mod_add, Z.mod_small, Nat2Z.id by lia. done.
Qed.

Lemma testbit_high w x i : in_width w x → 0 ≤ w ≤ i → Z.testbit x i = false.
Proof.
  intros Hx Hi. unfold in_width in Hx. rewrite <- (Z.mod_small x (2 ^ w)) by lia.
  apply Z.mod_pow2_bits_high. lia.
Qed.

Lemma val_testbit_high n l i :
  limbs_ok n l → 64 * Z.of_nat n ≤ i → Z.testbit (limbs_val l) i = false.
Proof.
  intros Hl Hi. apply (testbit_high (64 * Z.of_nat n)); [|lia]. by apply limbs_val_bound.
Qed.

(** Reading off the limbs of an integer spells it back. *)
Lemma limbs_of_val V (f : nat → Z) n :
  0 ≤ V → (∀ i, (i < n)%nat → f i = (V / 2 ^ (64 * Z.of_nat i)) mod 2 ^ 64) →
  limbs_ok n (f <$> seq 0 n) ∧ limbs_val (f <$> seq 0 n) = V mod 2 ^ (64 * Z.of_nat n).
Proof.
  intros HV. induction n as [|n IH]; intros Hf.
  { split; [done|]. simpl. by rewrite Z.mod_1_r. }
  destruct IH as [[Hl Ha] Hv]; [intros; apply Hf; lia|].
  rewrite seq_S, fmap_app. simpl (f <$> [_]). specialize (Hf n ltac:(lia)).
  split.
  - split; [rewrite length_app, Hl; simpl; lia|].
    apply Forall_app. split; [done|]. constructor; [|done]. rewrite Hf.
    apply Z.mod_pos_bound. lia.
  - rewrite limbs_val_app, Hl, Hv, Hf. cbn [limbs_val]. rewrite Z.mul_0_r, Z.add_0_r.
    rewrite (Z.mul_comm (2 ^ (64 * Z.of_nat n))). replace (64 * Z.of_nat (S n)) with (64 * Z.of_nat n + 64) by lia.
    rewrite Z.pow_add_r by lia. rewrite Z.rem_mul_r; [ring|apply Z.pow_nonzero; lia|lia].
Qed.

Lemma limbs_of_small V (f : nat → Z) n :
  0 ≤ V < 2 ^ (64 * Z.of_nat n) →
  (∀ i, (i < n)%nat → f i = (V / 2 ^ (64 * Z.of_nat i)) mod 2 ^ 64) →
  limbs_ok n (f <$> seq 0 n) ∧ limbs_val (f <$> seq 0 n) = V.
Proof.
  intros HV Hf. destruct (limbs_of_val V f n) as [Hok Hv]; [lia|done|].
  split; [done|]. by rewrite Hv, Z.mod_small.
Qed.

Lemma shr_limbs_spec l bits :
  limbs_ok 4 l → 0 ≤ bits < 256 →
  limbs_ok 4 (shr_limbs l bits) ∧ limbs_val (shr_limbs l bits) = limbs_val l / 2 ^ bits.
Proof.
  intros Hl Hb. unfold shr_limbs. rewrite decide_False by lia.
  set (whole := Z.to_nat (bits / 64)). set (part := bits mod 64).
  pose proof (Z.div_mod bits 64 ltac:(lia)). pose proof (Z.mod_pos_bound bits 64 ltac:(lia)).
  assert (Hw : 0 ≤ bits / 64 < 4) by (split; [apply Z.div_pos; lia|apply Z.div_lt_upper_bound; lia]).
  assert (Hbits : bits = 64 * Z.of_nat whole + part) by (subst whole part; lia).
  pose proof (limbs_val_bound _ _ Hl) as HB. change (64 * Z.of_nat 4) with 256 in HB.
  assert (0 ≤ limbs_val l / 2 ^ bits) by (apply Z.div_pos; [lia|apply pow2_pos; lia]).
  apply limbs_of_small.
  { split; [done|]. apply Z.div_lt_upper_bound; [apply pow2_pos; lia|].
    pose proof (pow2_pos bits). change (64 * Z.of_nat 4) with 256. nia. }
  intros i Hi. cbv beta. apply Z.bits_inj'. intros j Hj.
  assert (Hrhs : Z.testbit ((limbs_val l / 2 ^ bits / 2 ^ (64 * Z.of_nat i)) mod 2 ^ 64) j
    = if decide (j < 64) then Z.testbit (limbs_val l) (j + 64 * Z.of_nat i + bits) else false).
  { destruct (decide (j < 64)); [|apply Z.mod_pow2_bits_high; lia].
    rewrite Z.mod_pow2_bits_low, !Z.div_pow2_bits by lia. done. }
  rewrite Hrhs. clear Hrhs.
  assert (Hlimb : ∀ k, (k < 4)%nat → in_width 64 (l !!! k)) by (intros; by eapply limbs_ok_lookup).
  destruct (decide (i + whole < 4)%nat) as [Hiw|Hiw].
  - rewrite Z.lor_spec, Z.shiftr_spec by lia.
    destruct (decide (j < 64)) as [Hj64|Hj64].
    + destruct (decide (j + part < 64)) as [Hlow|Hhigh].
      * rewrite (limb_testbit 4) by (done || lia).
        assert (Z.testbit (if decide (part = 0 ∨ (4 ≤ i + whole + 1)%nat) then 0
          else ((l !!! (i + whole + 1)%nat) ≪ (64 - part)) mod 2 ^ 64) j = false) as ->.
        { case_decide; [apply Z.bits_0|].
          rewrite Z.mod_pow2_bits_low, Z.shiftl_spec_low by lia. done. }
        rewrite orb_false_r. f_equal. lia.
      * rewrite (testbit_high 64 (l !!! (i + whole)%nat)) by (try apply Hlimb; lia).
        rewrite orb_false_l. case_decide as Hc.
        { rewrite Z.bits_0. symmetry. apply (val_testbit_high 4); [done|lia]. }
        rewrite Z.mod_pow2_bits_low, Z.shiftl_spec by lia.
        rewrite (limb_testbit 4) by (done || lia). f_equal. lia.
    + rewrite (testbit_high 64 (l !!! (i + whole)%nat)) by (try apply Hlimb; lia).
      rewrite orb_false_l. case_decide; [apply Z.bits_0|]. apply Z.mod_pow2_bits_high. lia.
  - rewrite Z.bits_0. case_decide; [|done]. symmetry. apply (val_testbit_high 4); [done|lia].
Qed.

Lemma shl_limbs_spec l bits :
  limbs_ok 4 l → 0 ≤ bits < 256 → limbs_val l * 2 ^ bits < 2 ^ 256 →
  limbs_ok 4 (shl_limbs l bits) ∧ limbs_val (shl_limbs l bits) = limbs_val l * 2 ^ bits.
Proof.
  intros Hl Hb Hfit. unfold shl_limbs. rewrite decide_False by lia.
  set (whole := Z.to_nat (bits / 64)). set (part := bits mod 64).
  pose proof (Z.div_mod bits 64 ltac:(lia)). pose proof (Z.mod_pos_bound bits 64 ltac:(lia)).
  assert (Hw : 0 ≤ bits / 64 < 4) by (split; [apply Z.div_pos; lia|apply Z.div_lt_upper_bound; lia]).
  assert (Hbits : bits = 64 * Z.of_nat whole + part) by (subst whole part; lia).
  pose proof (limbs_val_bound _ _ Hl) as HB.
  assert (0 ≤ limbs_val l * 2 ^ bits) by (pose proof (pow2_pos bits); nia).
  apply limbs_of_small; [done|].
  intros i Hi. cbv beta. apply Z.bits_inj'. intros j Hj.
  assert (Hrhs : Z.testbit ((limbs_val l * 2 ^ bits / 2 ^ (64 * Z.of_nat i)) mod 2 ^ 64) j
    = if decide (j < 64) then Z.testbit (limbs_val l) (j + 64 * Z.of_nat i - bits) else false).
  { destruct (decide (j < 64)); [|apply Z.mod_pow2_bits_high; lia].
    rewrite Z.mod_pow2_bits_low, Z.div_pow2_bits, Z.mul_pow2_bits by lia. done. }
  rewrite Hrhs. clear Hrhs.
  assert (Hlimb : ∀ k, (k < 4)%nat → in_width 64 (l !!! k)) by (intros; by eapply limbs_ok_lookup).
  destruct (decide (i < whole)%nat) as [Hiw|Hiw].
  { rewrite Z.bits_0. case_decide; [|done]. symmetry. apply Z.testbit_neg_r. lia. }
  rewrite Z.lor_spec. destruct (decide (j < 64)) as [Hj64|Hj64].
  - rewrite Z.mod_pow2_bits_low by lia. destruct (decide (j < part)) as [Hlow|Hhigh].
    + rewrite Z.shiftl_spec_low by lia. rewrite orb_false_l. case_decide as Hc.
      { rewrite Z.bits_0. symmetry. apply Z.testbit_neg_r. lia. }
      rewrite Z.shiftr_spec, (limb_testbit 4) by (done || lia). f_equal. lia.
    + rewrite Z.shiftl_spec, (limb_testbit 4) by (done || lia).
      assert (Z.testbit (if decide (part = 0 ∨ i = whole) then 0
        else (l !!! (i - whole - 1)%nat) ≫ (64 - part)) j = false) as ->.
      { case_decide; [apply Z.bits_0|]. rewrite Z.shiftr_spec by lia.
        apply (testbit_high 64); [apply Hlimb; lia|lia]. }
      rewrite orb_false_r. f_equal. lia.
  - rewrite Z.mod_pow2_bits_high by lia. rewrite orb_false_l.
    case_decide; [apply Z.bits_0|]. rewrite Z.shiftr_spec by lia.
    apply (testbit_high 64); [apply Hlimb; lia|lia].
Qed.

(** ** The greatest common divisor *)

Lemma ctz_spec fuel x :
  0 < x < 2 ^ Z.of_nat fuel →
  0 ≤ ctz fuel x < Z.of_nat fuel ∧ ∃ m, x = m * 2 ^ ctz fuel x ∧ Z.odd m = true.
Proof.
  revert x. induction fuel as [|f IH]; intros x Hx; [simpl in Hx; lia|].
  cbn [ctz]. destruct (Z.odd x) eqn:Hodd.
  { split; [lia|]. exists x. split; [|done]. rewrite Z.pow_0_r. lia. }
  assert (Hx2 : x = 2 * (x / 2)).
  { pose proof (Z.div_mod x 2 ltac:(lia)). rewrite Zmod_odd, Hodd in *. lia. }
  rewrite Z.shiftr_div_pow2, Z.pow_1_r by lia.
  rewrite Nat2Z.inj_succ, Z.pow_succ_r in Hx by lia.
  destruct (IH (x / 2)) as [Hb (m & Hm & Hodd')]; [lia|].
  split; [lia|]. exists m. split; [|done]. rewrite Z.pow_add_r, Z.pow_1_r by lia. lia.
Qed.

Lemma trailing_zeros_loop_spec n l i :
  limbs_ok n l → limbs_val l ≠ 0 →
  let t := trailing_zeros_loop l i - 64 * i in
  0 ≤ t < 64 * Z.of_nat n ∧ ∃ m, limbs_val l = m * 2 ^ t ∧ Z.odd m = true.
Proof.
  revert n i. induction l as [|x l IH]; intros n i Hl Hv; [done|].
  destruct n as [|n]; [by destruct Hl|]. apply limbs_ok_cons in Hl as [Hx Hl].
  unfold in_width in Hx. cbn [trailing_zeros_loop limbs_val] in *.
  destruct (decide (x ≠ 0)) as [Hx0|Hx0%dec_stable].
  - destruct (ctz_spec 64 x) as [Hb (m & Hm & Hodd)]; [simpl; lia|].
    unfold u64_trailing_zeros. change (Z.of_nat 64) with 64 in Hb.
    set (t := ctz 64 x) in *. replace (i * 64 + t - 64 * i) with t by lia.
    split; [lia|]. exists (m + 2 ^ (64 - t) * limbs_val l). split.
    + rewrite Z.mul_add_distr_r. rewrite <- Hm. f_equal.
      rewrite <- Z.mul_assoc, (Z.mul_comm (limbs_val l)), Z.mul_assoc, <- Z.pow_add_r by lia.
      by replace (64 - t + t) with 64 by lia.
    + rewrite Z.odd_add, Hodd, Z.odd_mul, Z.odd_pow by lia. done.
  - subst x. destruct (IH n (i + 1) Hl) as [Hb (m & Hm & Hodd)]; [lia|].
    set (t := trailing_zeros_loop l (i + 1)) in *. split; [lia|].
    exists m. split; [|done]. rewrite Hm.
    replace (t - 64 * i) with (64 + (t - 64 * (i + 1))) by lia.
    rewrite Z.pow_add_r by lia. ring.
Qed.

Lemma trailing_zeros_spec a :
  limbs_ok 4 a → limbs_val a ≠ 0 →
  0 ≤ trailing_zeros a < 256 ∧
  ∃ m, limbs_val a = m * 2 ^ trailing_zeros a ∧ Z.odd m = true.
Proof.
  intros Ha Hv. destruct (trailing_zeros_loop_spec 4 a 0 Ha Hv) as [Hb Hm].
  rewrite Z.mul_0_r, Z.sub_0_r in *. done.
Qed.

(** Shifting the trailing zeros out leaves the odd part. *)
Lemma shr_trailing_zeros a :
  limbs_ok 4 a → limbs_val a ≠ 0 →
  let m := limbs_val (u256_shr a (trailing_zeros a)) in
  limbs_ok 4 (u256_shr a (trailing_zeros a)) ∧ 0 < m ∧ Z.odd m = true ∧
  limbs_val a = m * 2 ^ trailing_zeros a.
Proof.
  intros Ha Hv. destruct (trailing_zeros_spec a Ha Hv) as [Hb (m & Hm & Hodd)].
  pose proof (limbs_val_bound _ _ Ha).
  destruct (shr_limbs_spec a (trailing_zeros a) Ha Hb) as [Hok Hsv].
  unfold u256_shr. pose proof (pow2_pos (trailing_zeros a) ltac:(lia)).
  assert (Hq : limbs_val (shr_limbs a (trailing_zeros a)) = m).
  { rewrite Hsv, Hm, Z.div_mul by lia. done. }
  rewrite Hq. split; [done|]. split; [nia|]. done.
Qed.

Lemma gcd_odd_pow2 a t : 0 ≤ t → Z.odd a = true → Z.gcd a (2 ^ t) = 1.
Proof.
  intros Ht Ha. revert t Ht. apply natlike_ind.
  - by rewrite Z.pow_0_r, Z.gcd_1_r.
  - intros k Hk IH. rewrite Z.pow_succ_r by done.
    assert (H2 : Z.gcd a 2 = 1).
    { pose proof (Z.gcd_divide_l a 2) as Hl. pose proof (Z.gcd_divide_r a 2) as Hr.
      pose proof (Z.gcd_nonneg a 2). apply Z.divide_pos_le in Hr as Hle; [|lia].
      destruct (decide (Z.gcd a 2 = 2)) as [E|]; [|destruct (decide (Z.gcd a 2 = 0)) as [E|]; [|lia]].
      - rewrite E in Hl. destruct Hl as [q ->]. by rewrite Z.odd_mul, andb_comm in Ha.
      - by apply Z.gcd_eq_0_r in E. }
    rewrite Zgcd_1_rel_prime in *. by apply rel_prime_mult.
Qed.

Lemma gcd_strip_pow2 a m t :
  0 ≤ t → Z.odd a = true → Z.gcd a (m * 2 ^ t) = Z.gcd a m.
Proof.
  intros Ht Ha. apply Z.gcd_unique; [apply Z.gcd_nonneg|apply Z.gcd_divide_l| |].
  - apply Z.divide_mul_l, Z.gcd_divide_r.
  - intros q Hqa Hqm. apply Z.gcd_greatest; [done|].
    rewrite Z.mul_comm in Hqm. apply (Z.gauss _ _ _ Hqm).
    apply Zgcd_1_rel_prime. apply rel_prime_div with a; [|done].
    apply Zgcd_1_rel_prime. by apply gcd_odd_pow2.
Qed.

Definition odd_pair (a b : U256) : Prop :=
  limbs_ok 4 a ∧ limbs_ok 4 b ∧ 0 < limbs_val a ∧ 0 < limbs_val b ∧
  Z.odd (limbs_val a) = true ∧ Z.odd (limbs_val b) = true.

Lemma gcd_loop_ordered fuel a b :
  odd_pair a b → limbs_val a ≤ limbs_val b →
  limbs_val a * limbs_val b < 2 ^ Z.of_nat (S fuel) →
  (∀ b', odd_pair a b' → limbs_val a * limbs_val b' < 2 ^ Z.of_nat fuel →
    ∃ g, gcd_loop (S fuel) a b' = Some g ∧ limbs_ok 4 g ∧
         limbs_val g = Z.gcd (limbs_val a) (limbs_val b')) →
  ∃ g, (if u256_is_zero (sub_limbs b a).1 then Some a
        else gcd_loop (S fuel) a
          (u256_shr (sub_limbs b a).1 (trailing_zeros (sub_limbs b a).1))) = Some g ∧
       limbs_ok 4 g ∧ limbs_val g = Z.gcd (limbs_val a) (limbs_val b).
Proof.
  intros (Ha & Hb & Ha0 & Hb0 & Hao & Hbo) Hle Hlt IH.
  pose proof (limbs_val_bound _ _ Ha). pose proof (limbs_val_bound _ _ Hb).
  destruct (sub_limbs_spec 4 b a Hb Ha) as (Hs & Hsv & _).
  rewrite Z.mod_small in Hsv by lia. set (d := (sub_limbs b a).1) in *.
  rewrite u256_is_zero_spec by done. case_bool_decide as Hd0.
  { exists a. split; [done|]. split; [done|].
    replace (limbs_val b) with (limbs_val a) by lia. rewrite Z.gcd_diag. lia. }
  destruct (shr_trailing_zeros d Hs Hd0) as (Hok & Hpos & Hodd & Hdm).
  destruct (trailing_zeros_spec d Hs Hd0) as [Htb _].
  set (b' := u256_shr d (trailing_zeros d)) in *.
  assert (Hhalf : 2 * limbs_val b' ≤ limbs_val d).
  { assert (trailing_zeros d ≠ 0) as Ht0.
    { intros Ht0. rewrite Ht0, Z.pow_0_r, Z.mul_1_r in Hdm. rewrite <- Hdm, Hsv in Hodd.
      by rewrite Z.odd_sub, Hao, Hbo in Hodd. }
    rewrite Hdm. assert (2 ^ 1 ≤ 2 ^ trailing_zeros d) by (apply Z.pow_le_mono_r; lia). nia. }
  destruct (IH b') as (g & Hg & Hgok & Hgv).
  { repeat split; try done; by destruct Ha, Hok. }
  { rewrite Nat2Z.inj_succ, Z.pow_succ_r in Hlt by lia. nia. }
  exists g. split; [done|]. split; [done|]. rewrite Hgv.
  rewrite <- (gcd_strip_pow2 _ _ (trailing_zeros d)) by (done || lia).
  rewrite <- Hdm, Hsv. apply Z.gcd_sub_diag_r.
Qed.

(** The loop ends: the product of the pair halves each round. *)
Lemma gcd_loop_spec fuel a b :
  odd_pair a b → limbs_val a * limbs_val b < 2 ^ Z.of_nat fuel →
  ∃ g, gcd_loop (S fuel) a b = Some g ∧ limbs_ok 4 g ∧
       limbs_val g = Z.gcd (limbs_val a) (limbs_val b).
Proof.
  revert a b. induction fuel as [|fuel IH]; intros a b Hp Hlt.
  { destruct Hp as (_ & _ & ? & ? & _). simpl in Hlt. nia. }
  pose proof Hp as (Ha & Hb & Ha0 & Hb0 & Hao & Hbo).
  cbn [gcd_loop]. rewrite (limbs_cmp_spec 4) by done.
  destruct (Z.compare_spec (limbs_val a) (limbs_val b)).
  - apply (gcd_loop_ordered fuel); [done|lia|done|eauto].
  - apply (gcd_loop_ordered fuel); [done|lia|done|eauto].
  - rewrite Z.gcd_comm. apply (gcd_loop_ordered fuel); [|lia|lia|eauto].
    by repeat split; try done; destruct Ha, Hb.
Qed.

Lemma gcd_odd_parts_le m m' t t' :
  0 ≤ t ≤ t' → Z.odd m = true → Z.gcd (m * 2 ^ t) (m' * 2 ^ t') = Z.gcd m m' * 2 ^ t.
Proof.
  intros Ht Hm. replace t' with ((t' - t) + t) by lia.
  rewrite Z.pow_add_r, Z.mul_assoc by lia.
  rewrite Z.gcd_mul_mono_r_nonneg by (apply Z.pow_nonneg; lia).
  by rewrite gcd_strip_pow2 by (done || lia).
Qed.

Lemma gcd_odd_parts m m' t t' :
  0 ≤ t → 0 ≤ t' → Z.odd m = true → Z.odd m' = true →
  Z.gcd (m * 2 ^ t) (m' * 2 ^ t') = Z.gcd m m' * 2 ^ Z.min t t'.
Proof.
  intros Ht Ht' Hm Hm'. destruct (decide (t ≤ t')).
  - rewrite Z.min_l by lia. by apply gcd_odd_parts_le.
  - rewrite Z.min_r, Z.gcd_comm, (Z.gcd_comm m) by lia. apply gcd_odd_parts_le; [lia|done].
Qed.

Lemma gcd_spec a b :
  limbs_ok 4 a → limbs_ok 4 b →
  limbs_ok 4 (gcd a b) ∧ limbs_val (gcd a b) = Z.gcd (limbs_val a) (limbs_val b).
Proof.
  intros Ha Hb. unfold gcd. rewrite !u256_is_zero_spec by done.
  pose proof (limbs_val_bound _ _ Ha) as HaB. pose proof (limbs_val_bound _ _ Hb) as HbB.
  case_bool_decide as Ha0.
  { split; [done|]. rewrite Ha0, Z.gcd_0_l. lia. }
  case_bool_decide as Hb0.
  { split; [done|]. rewrite Hb0, Z.gcd_0_r. lia. }
  destruct (shr_trailing_zeros a Ha Ha0) as (Haok & Hapos & Haodd & Ham).
  destruct (shr_trailing_zeros b Hb Hb0) as (Hbok & Hbpos & Hbodd & Hbm).
  destruct (trailing_zeros_spec a Ha Ha0) as [Hta _].
  destruct (trailing_zeros_spec b Hb Hb0) as [Htb _].
  set (ta := trailing_zeros a) in *. set (tb := trailing_zeros b) in *.
  set (a' := u256_shr a ta) in *. set (b' := u256_shr b tb) in *.
  change (64 * Z.of_nat 4) with 256 in *.
  destruct (gcd_loop_spec 512 a' b') as (g & Hg & Hgok & Hgv).
  { repeat split; try done; by destruct Haok, Hbok. }
  { pose proof (limbs_val_bound _ _ Haok). pose proof (limbs_val_bound _ _ Hbok).
    change (64 * Z.of_nat 4) with 256 in *. change (2 ^ Z.of_nat 512) with (2 ^ 256 * 2 ^ 256). nia. }
  change gcd_fuel with 513%nat. rewrite Hg.
  assert (Hgcd : limbs_val g * 2 ^ Z.min ta tb = Z.gcd (limbs_val a) (limbs_val b)).
  { rewrite Ham, Hbm, gcd_odd_parts by (done || lia). by rewrite Hgv. }
  assert (limbs_val g * 2 ^ Z.min ta tb < 2 ^ 256).
  { rewrite Hgcd. pose proof (Z.gcd_divide_l (limbs_val a) (limbs_val b)) as Hdiv.
    apply Z.divide_pos_le in Hdiv; lia. }
  destruct (shl_limbs_spec g (Z.min ta tb) Hgok ltac:(lia) ltac:(lia)) as [Hok Hv].
  split; [done|]. by rewrite Hv.
Qed.

Lemma from_u128_spec n : in_width 128 n → limbs_ok 4 (from_u128 n) ∧ limbs_val (from_u128 n) = n.
Proof.
  intros [H0 H1]. unfold from_u128. rewrite Z.shiftr_div_pow2 by lia.
  assert (Hd : 0 ≤ n / 2 ^ 64 < 2 ^ 64) by (split; [apply Z.div_pos; lia|apply Z.div_lt_upper_bound; lia]).
  rewrite (Z.mod_small (n / 2 ^ 64)) by lia. pose proof (Z.mod_pos_bound n (2 ^ 64) ltac:(lia)).
  split; [|cbn [limbs_val]; pose proof (Z.div_mod n (2 ^ 64) ltac:(lia)); lia].
  unfold limbs_ok. split; [done|]. repeat constructor; unfold in_width; lia.
Qed.

Lemma to_u128_spec a :
  limbs_ok 4 a → to_u128 a = if decide (limbs_val a ≤ u128_max) then Some (limbs_val a) else None.
Proof.
  intros [Hlen Hall]. destruct a as [|a0 [|a1 [|a2 [|a3 [|]]]]]; try done. unfold to_u128.
  apply Forall_cons in Hall as [H0 Hall]. apply Forall_cons in Hall as [H1 Hall].
  apply Forall_cons in Hall as [H2 Hall]. apply Forall_cons in Hall as [H3 _]. unfold in_width in *.
  cbn [limbs_val]. unfold width_max. change ([a0; a1; a2; a3] !!! 0%nat) with a0.
  change ([a0; a1; a2; a3] !!! 1%nat) with a1. change ([a0; a1; a2; a3] !!! 2%nat) with a2.
  change ([a0; a1; a2; a3] !!! 3%nat) with a3.
  destruct (decide (a2 = 0 ∧ a3 = 0)) as [[-> ->]|Hne].
  - rewrite decide_True by lia. f_equal.
    rewrite Z.lor_comm, Z.shiftl_mul_pow2, lor_shifted_low by lia. lia.
  - rewrite decide_False; [done|]. intros Hle. apply Hne. lia.
Qed.

(** ** The interface *)

(** Floor or ceiling of a quotient. *)
Definition div_round (rounding : Rounding) (x y : Z) : Z :=
  match rounding with Down => x / y | Up => - (- x / y) end.

Lemma div_ceil x y : 0 < y → - (- x / y) = if decide (x mod y = 0) then x / y else x / y + 1.
Proof.
  intros Hy. pose proof (Z.div_mod x y ltac:(lia)). pose proof (Z.mod_pos_bound x y Hy).
  case_decide.
  - assert (- x / y = - (x / y)); [|lia]. symmetry. apply Z.div_unique with (r := 0); lia.
  - assert (- x / y = - (x / y) - 1); [|lia].
    symmetry. apply Z.div_unique with (r := y - x mod y); lia.
Qed.

(** What [mul_div] must answer: the rounded quotient of the whole product, or
    the error that names why there is none. *)
Definition mul_div_post (A B C : Z) (rounding : Rounding) (r : result MathError U256) : Prop :=
  match r with
  | Ok r => limbs_ok 4 r ∧ C ≠ 0 ∧ limbs_val r = div_round rounding (A * B) C
  | Err DivideByZero => C = 0
  | Err Overflow => C ≠ 0 ∧ 2 ^ 256 ≤ div_round rounding (A * B) C
  end.

Lemma mul_div_spec a b c rounding :
  limbs_ok 4 a → limbs_ok 4 b → limbs_ok 4 c →
  mul_div_post (limbs_val a) (limbs_val b) (limbs_val c) rounding (mul_div a b c rounding).
Proof.
  intros Ha Hb Hc. unfold mul_div, mul_div_post, div_round. rewrite u256_is_zero_spec by done.
  case_bool_decide as Hc0; [done|].
  destruct (widening_mul_spec a b Ha Hb) as [Hp Vp].
  pose proof (limbs_val_bound _ _ Hc). pose proof (limbs_val_bound _ _ Ha).
  pose proof (limbs_val_bound _ _ Hb).
  destruct (div_rem_spec (widening_mul a b) c Hp Hc Hc0) as (q & r & -> & Hq & Hr & Vq & Vr).
  rewrite Vp in Vq, Vr. set (X := limbs_val a * limbs_val b) in *.
  pose proof (div_ceil X (limbs_val c) ltac:(lia)) as Hceil.
  destruct (narrow q) as [q'|] eqn:En; cbn.
  - apply narrow_Some in En as [Hq' Vq']; [|done].
    destruct rounding; [by split_and!; [|done|rewrite Vq', Vq]|].
    rewrite u256_is_zero_spec by done. cbn. rewrite Hceil, <- Vr.
    case_bool_decide as Hr0.
    + rewrite decide_True by done. split_and!; [done..|by rewrite Vq', Vq].
    + rewrite decide_False by done. unfold u256_checked_add.
      destruct (add_limbs_spec 4 q' u256_one Hq' ltac:(by repeat constructor)) as (Hs & Hsv & Hsc).
      destruct (add_limbs q' u256_one) as [s k]. cbn [fst snd] in *. subst k.
      change (64 * Z.of_nat 4) with 256 in *. change (limbs_val u256_one) with 1 in *.
      case_bool_decide as Hov; cbn.
      * split; [done|lia].
      * pose proof (limbs_val_bound _ _ Hq'). rewrite Z.mod_small in Hsv by lia.
        split_and!; [done..|lia].
  - apply narrow_None in En; [|done]. split; [done|].
    destruct rounding; cbn; [lia|]. rewrite Hceil. case_decide; lia.
Qed.

(** C21: the complete behaviour of [mul_div]. A success is the quotient of the
    whole 512-bit product, rounded once in the requested direction; the errors
    are raised exactly at a zero divisor and at a quotient past 256 bits. *)
Theorem mul_div_correct a b c rounding :
  limbs_ok 4 a → limbs_ok 4 b → limbs_ok 4 c →
  mul_div_post (limbs_val a) (limbs_val b) (limbs_val c) rounding (mul_div a b c rounding).
Proof. apply mul_div_spec. Qed.

(** [geometric_mean] is the integer square root of the whole product, so
    it never overflows and is exact at perfect squares. *)
Theorem geometric_mean_correct a b :
  limbs_ok 4 a → limbs_ok 4 b →
  limbs_ok 4 (geometric_mean a b) ∧
  limbs_val (geometric_mean a b) = Z.sqrt (limbs_val a * limbs_val b).
Proof.
  intros Ha Hb. destruct (widening_mul_spec a b Ha Hb) as [Hp Vp].
  destruct (isqrt_spec _ Hp) as [Hok Hv]. split; [done|].
  unfold geometric_mean. by rewrite Hv, Vp.
Qed.

(** C22: Stein's algorithm terminates within its fuel on every pair of odd
    values and [gcd] is the greatest common divisor for all inputs. *)
Theorem gcd_correct a b :
  limbs_ok 4 a → limbs_ok 4 b →
  (limbs_val a ≠ 0 → limbs_val b ≠ 0 →
     is_Some (gcd_loop gcd_fuel (u256_shr a (trailing_zeros a))
                                (u256_shr b (trailing_zeros b)))) ∧
  limbs_ok 4 (gcd a b) ∧
  limbs_val (gcd a b) = Z.gcd (limbs_val a) (limbs_val b).
Proof.
  intros Ha Hb. split; [|by apply gcd_spec]. intros Ha0 Hb0.
  destruct (shr_trailing_zeros a Ha Ha0) as (Haok & Hapos & Haodd & Ham).
  destruct (shr_trailing_zeros b Hb Hb0) as (Hbok & Hbpos & Hbodd & Hbm).
  destruct (gcd_loop_spec 512 (u256_shr a (trailing_zeros a)) (u256_shr b (trailing_zeros b)))
    as (g & Hg & _); [|  |by exists g].
  { repeat split; try done; by destruct Haok, Hbok. }
  pose proof (limbs_val_bound _ _ Haok). pose proof (limbs_val_bound _ _ Hbok).
  change (64 * Z.of_nat 4) with 256 in *. change (2 ^ Z.of_nat 512) with (2 ^ 256 * 2 ^ 256). nia.
Qed.

Lemma reduce_pair_spec a b :
  limbs_ok 4 a → limbs_ok 4 b → limbs_val b ≠ 0 →
  let g := Z.gcd (limbs_val a) (limbs_val b) in
  limbs_ok 4 (reduce_pair a b).1 ∧ limbs_ok 4 (reduce_pair a b).2 ∧ 0 < g ∧
  limbs_val (reduce_pair a b).1 = limbs_val a / g ∧
  limbs_val (reduce_pair a b).2 = limbs_val b / g ∧
  limbs_val a = g * limbs_val (reduce_pair a b).1 ∧
  limbs_val b = g * limbs_val (reduce_pair a b).2.
Proof.
  intros Ha Hb Hb0 g. destruct (gcd_spec a b Ha Hb) as [Hg Vg]. fold g in Vg.
  pose proof (limbs_val_bound _ _ Ha) as HaB. pose proof (limbs_val_bound _ _ Hb) as HbB.
  assert (0 < g) as Hgp.
  { pose proof (Z.gcd_nonneg (limbs_val a) (limbs_val b)).
    destruct (decide (g = 0)) as [E|]; [|subst g; lia]. by apply Z.gcd_eq_0_r in E. }
  assert (Hda : limbs_val a = g * (limbs_val a / g)).
  { apply Z_div_exact_full_2; [lia|]. apply Z.mod_divide; [lia|]. apply Z.gcd_divide_l. }
  assert (Hdb : limbs_val b = g * (limbs_val b / g)).
  { apply Z_div_exact_full_2; [lia|]. apply Z.mod_divide; [lia|]. apply Z.gcd_divide_r. }
  unfold reduce_pair. rewrite u256_is_zero_spec, bool_decide_false by (done || lia).
  cbn [orb]. case_bool_decide as H1.
  { assert (g = 1) as Hg1 by (rewrite <- Vg, H1; done). cbn [fst snd].
    rewrite Hg1, !Z.div_1_r in *. split_and!; (done || lia). }
  destruct (from_u256_spec a Ha) as [Hfa Vfa]. destruct (from_u256_spec b Hb) as [Hfb Vfb].
  destruct (div_rem_spec (from_u256 a) (gcd a b) Hfa Hg ltac:(lia)) as (qa & ra & -> & Hqa & _ & Vqa & _).
  destruct (div_rem_spec (from_u256 b) (gcd a b) Hfb Hg ltac:(lia)) as (qb & rb & -> & Hqb & _ & Vqb & _).
  rewrite Vfa, Vg in Vqa. rewrite Vfb, Vg in Vqb.
  change (64 * Z.of_nat 4) with 256 in *.
  destruct (narrow qa) as [na|] eqn:Ena; [|apply narrow_None in Ena; [|done]; nia].
  destruct (narrow qb) as [nb|] eqn:Enb; [|apply narrow_None in Enb; [|done]; nia].
  apply narrow_Some in Ena as [Hna Vna]; [|done]. apply narrow_Some in Enb as [Hnb Vnb]; [|done].
  cbn. rewrite Vna, Vnb, Vqa, Vqb. split_and!; done.
Qed.

(** What composing [AN/AD] with [BN/BD] must answer: the value of the product,
    multiplied across where both terms fit; the overflow error says that a term
    of the cross-reduced product leaves 256 bits. *)
Definition compose_post (AN AD BN BD : Z) (r : result MathError (U256 * U256)) : Prop :=
  match r with
  | Ok (num, den) =>
      limbs_ok 4 num ∧ limbs_ok 4 den ∧ limbs_val den ≠ 0 ∧
      limbs_val num * (AD * BD) = limbs_val den * (AN * BN) ∧
      (AN * BN < 2 ^ 256 → AD * BD < 2 ^ 256 →
         limbs_val num = AN * BN ∧ limbs_val den = AD * BD)
  | Err DivideByZero => AD = 0 ∨ BD = 0
  | Err Overflow =>
      AD ≠ 0 ∧ BD ≠ 0 ∧
      (2 ^ 256 ≤ (AN / Z.gcd AN BD) * (BN / Z.gcd BN AD) ∨
       2 ^ 256 ≤ (AD / Z.gcd BN AD) * (BD / Z.gcd AN BD))
  end.

Lemma cross_reduced_spec an ad bn bd :
  limbs_ok 4 an → limbs_ok 4 ad → limbs_ok 4 bn → limbs_ok 4 bd →
  limbs_val ad ≠ 0 → limbs_val bd ≠ 0 →
  2 ^ 256 ≤ limbs_val an * limbs_val bn ∨ 2 ^ 256 ≤ limbs_val ad * limbs_val bd →
  compose_post (limbs_val an) (limbs_val ad) (limbs_val bn) (limbs_val bd)
    (let '(an, bd) := reduce_pair an bd in
     let '(bn, ad) := reduce_pair bn ad in
     num ← ok_or (narrow (widening_mul an bn)) Overflow;
     den ← ok_or (narrow (widening_mul ad bd)) Overflow;
     Ok (num, den)).
Proof.
  intros Han Had Hbn Hbd Had0 Hbd0 Hbig.
  destruct (reduce_pair_spec an bd Han Hbd Hbd0) as (H1 & H2 & Hg & D1 & D2 & M1 & M2).
  destruct (reduce_pair_spec bn ad Hbn Had Had0) as (H3 & H4 & Hg' & D3 & D4 & M3 & M4).
  destruct (reduce_pair an bd) as [an' bd'], (reduce_pair bn ad) as [bn' ad']. cbn [fst snd] in *.
  destruct (widening_mul_spec an' bn' H1 H3) as [Hn Vn].
  destruct (widening_mul_spec ad' bd' H4 H2) as [Hd Vd].
  destruct (narrow (widening_mul an' bn')) as [num|] eqn:En,
    (narrow (widening_mul ad' bd')) as [den|] eqn:Ed; cbn.
  2,3,4: split; [done|]; split; [done|].
  2: right; apply narrow_None in Ed; [by rewrite <- D2, <- D4, <- Vd|done].
  2,3: left; apply narrow_None in En; [by rewrite <- D1, <- D3, <- Vn|done].
  apply narrow_Some in En as [Hnum Vnum]; [|done]. apply narrow_Some in Ed as [Hden Vden]; [|done].
  rewrite Vn in Vnum. rewrite Vd in Vden. split; [done|]. split; [done|]. split; [|split].
  - rewrite Vden. intros [E|E]%Z.mul_eq_0; rewrite E, Z.mul_0_r in *; done.
  - rewrite Vnum, Vden. clear D1 D2 D3 D4.
    set (g := Z.gcd (limbs_val an) _) in *. set (g' := Z.gcd (limbs_val bn) _) in *.
    clearbody g g'. rewrite M1, M2, M3, M4. ring.
  - lia.
Qed.

(** The complete behaviour of [fraction_compose]. The result is the value
    of the product of the two fractions; it is the product multiplied across
    where both terms fit; the errors are a zero denominator and a term of the
    cross-reduced product past 256 bits. *)
Theorem fraction_compose_correct an ad bn bd :
  limbs_ok 4 an → limbs_ok 4 ad → limbs_ok 4 bn → limbs_ok 4 bd →
  compose_post (limbs_val an) (limbs_val ad) (limbs_val bn) (limbs_val bd)
    (fraction_compose an ad bn bd).
Proof.
  intros Han Had Hbn Hbd. unfold fraction_compose. rewrite !u256_is_zero_spec by done.
  case_bool_decide as Had0; cbn [orb]; [by left|]. case_bool_decide as Hbd0; [by right|].
  destruct (widening_mul_spec an bn Han Hbn) as [Hpn Vpn].
  destruct (widening_mul_spec ad bd Had Hbd) as [Hpd Vpd].
  destruct (narrow (widening_mul an bn)) as [num|] eqn:En; cycle 1.
  { apply narrow_None in En; [|done]. apply cross_reduced_spec; (done || lia). }
  destruct (narrow (widening_mul ad bd)) as [den|] eqn:Ed; cycle 1.
  { apply narrow_None in Ed; [|done]. apply cross_reduced_spec; (done || lia). }
  apply narrow_Some in En as [Hnum Vnum]; [|done]. apply narrow_Some in Ed as [Hden Vden]; [|done].
  rewrite Vpn in Vnum. rewrite Vpd in Vden. cbn. split; [done|]. split; [done|].
  split; [lia|]. split; [rewrite Vnum, Vden; ring|done].
Qed.

(** The rate comparison is exact: the order of the two fractions, by
    cross-multiplication at full width, for every pair of denominators. *)
Theorem fraction_cmp_correct an ad bn bd :
  limbs_ok 4 an → limbs_ok 4 ad → limbs_ok 4 bn → limbs_ok 4 bd →
  fraction_cmp an ad bn bd =
    if decide (limbs_val ad = 0 ∨ limbs_val bd = 0) then Err DivideByZero
    else Ok (Z.compare (limbs_val an * limbs_val bd) (limbs_val bn * limbs_val ad)).
Proof.
  intros Han Had Hbn Hbd. unfold fraction_cmp. rewrite !u256_is_zero_spec by done.
  destruct (widening_mul_spec an bd Han Hbd) as [Hp Vp].
  destruct (widening_mul_spec bn ad Hbn Had) as [Hp' Vp'].
  rewrite (limbs_cmp_spec 8) by done. rewrite Vp, Vp'.
  destruct (decide (limbs_val ad = 0 ∨ limbs_val bd = 0)) as [Hz|Hz].
  - assert (bool_decide (limbs_val ad = 0) || bool_decide (limbs_val bd = 0) = true) as ->; [|done].
    rewrite <- bool_decide_or. by apply bool_decide_true.
  - assert (bool_decide (limbs_val ad = 0) || bool_decide (limbs_val bd = 0) = false) as ->; [|done].
    rewrite <- bool_decide_or. by apply bool_decide_false.
Qed.

(** ** Powers at the fixed scale *)

Lemma fixed_scale_val : limbs_val fixed_scale = 10 ^ 36.
Proof. reflexivity. Qed.

Lemma fixed_scale_ok : limbs_ok 4 fixed_scale.
Proof. solve_limbs. Qed.

(** What rounding down keeps below and rounding up keeps above. *)
Definition rounds (rounding : Rounding) (approx exact : Z) : Prop :=
  match rounding with Down => approx ≤ exact | Up => exact ≤ approx end.

Lemma rounds_mul r x y z w :
  0 ≤ x → 0 ≤ y → 0 ≤ z → 0 ≤ w → rounds r x y → rounds r z w → rounds r (x * z) (y * w).
Proof. destruct r; simpl; intros; nia. Qed.

Lemma rounds_pow r x y n :
  0 ≤ x → 0 ≤ y → rounds r x y → rounds r (x ^ n) (y ^ n).
Proof. destruct r; simpl; intros; apply Z.pow_le_mono_l; lia. Qed.

Lemma rounds_trans r x y z : rounds r x y → rounds r y z → rounds r x z.
Proof. destruct r; simpl; lia. Qed.

Lemma rounds_refl r x : rounds r x x.
Proof. destruct r; simpl; lia. Qed.

Lemma mul_scale_rounds a b r x :
  limbs_ok 4 a → limbs_ok 4 b → mul_div a b fixed_scale r = Ok x →
  limbs_ok 4 x ∧ rounds r (limbs_val x * 10 ^ 36) (limbs_val a * limbs_val b).
Proof.
  intros Ha Hb Hx. pose proof (mul_div_spec a b fixed_scale r Ha Hb fixed_scale_ok) as H.
  rewrite Hx in H. destruct H as (Hok & _ & Hv). split; [done|]. rewrite fixed_scale_val in Hv.
  set (X := limbs_val a * limbs_val b) in *. set (S := 10 ^ 36) in *.
  assert (0 < S) by (subst S; lia). destruct r; simpl in *.
  - pose proof (Z.div_mod X S ltac:(lia)). pose proof (Z.mod_pos_bound X S ltac:(lia)). lia.
  - pose proof (Z.div_mod (- X) S ltac:(lia)). pose proof (Z.mod_pos_bound (- X) S ltac:(lia)). lia.
Qed.

Lemma halve_u32 e : 0 ≤ e → e = 2 * (e ≫ 1) + Z.b2z (bool_decide (Z.land e 1 = 1)).
Proof.
  intros He. rewrite Z.shiftr_div_pow2, Z.pow_1_r by lia.
  assert (Z.land e 1 = e mod 2) as -> by exact (Z.land_ones e 1 ltac:(lia)).
  pose proof (Z.div_mod e 2 ltac:(lia)). pose proof (Z.mod_pos_bound e 2 ltac:(lia)).
  case_bool_decide; simpl; lia.
Qed.

Local Opaque mul_div fixed_scale.

(** One round of the squaring loop, with [e'] the halved exponent: the powers it
    leaves to compute, rescaled by the [S ^ (e - e')] it consumed, round the
    powers it was given. *)
Lemma fixed_pow_round r acc factor e acc' factor' :
  limbs_ok 4 acc → limbs_ok 4 factor → 0 < e →
  (if decide (Z.land e 1 = 1) then mul_div acc factor fixed_scale r else Ok acc) = Ok acc' →
  (if decide (0 < e ≫ 1) then mul_div factor factor fixed_scale r else Ok factor) = Ok factor' →
  limbs_ok 4 acc' ∧ limbs_ok 4 factor' ∧ 0 ≤ e ≫ 1 ∧ 2 * (e ≫ 1) ≤ e ∧
  ∃ k, 0 ≤ k ∧ (10 ^ 36) ^ e = (10 ^ 36) ^ (e ≫ 1) * k ∧
    rounds r (limbs_val acc' * limbs_val factor' ^ (e ≫ 1) * k) (limbs_val acc * limbs_val factor ^ e).
Proof.
  intros Ha Hf He Hacc Hfac. pose proof (halve_u32 e ltac:(lia)) as Hhalf. set (e' := e ≫ 1) in *.
  set (b := Z.b2z (bool_decide (Z.land e 1 = 1))) in *.
  assert (Hb : 0 ≤ b ≤ 1) by (subst b; case_bool_decide; simpl; lia).
  set (S := 10 ^ 36) in *. assert (0 < S) as HS by (subst S; lia).
  assert (Hacc' : limbs_ok 4 acc' ∧ rounds r (limbs_val acc' * S ^ b) (limbs_val acc * limbs_val factor ^ b)).
  { subst b. destruct (decide (Z.land e 1 = 1)) as [Hodd|Hodd].
    - rewrite (bool_decide_true _ Hodd). cbn [Z.b2z]. rewrite !Z.pow_1_r.
      exact (mul_scale_rounds _ _ _ _ Ha Hf Hacc).
    - injection Hacc as ->. rewrite (bool_decide_false _ Hodd). cbn [Z.b2z].
      rewrite !Z.pow_0_r. split; [done|]. apply rounds_refl. }
  assert (Hfac' : limbs_ok 4 factor' ∧
    rounds r ((limbs_val factor' * S) ^ e') ((limbs_val factor * limbs_val factor) ^ e')).
  { destruct (decide (0 < e')) as [Hp|Hp].
    - destruct (mul_scale_rounds _ _ _ _ Hf Hf Hfac) as [Hok Hr]. split; [exact Hok|].
      pose proof (limbs_val_bound _ _ Hok). pose proof (limbs_val_bound _ _ Hf).
      apply rounds_pow; [nia|nia|exact Hr].
    - injection Hfac as ->. split; [done|]. assert (e' = 0) as -> by lia.
      rewrite !Z.pow_0_r. apply rounds_refl. }
  destruct Hacc' as [Ha' Ra], Hfac' as [Hf' Rf].
  pose proof (limbs_val_bound _ _ Ha'). pose proof (limbs_val_bound _ _ Hf').
  pose proof (limbs_val_bound _ _ Ha). pose proof (limbs_val_bound _ _ Hf).
  assert (Hpe : ∀ z, z ^ e = (z * z) ^ e' * z ^ b).
  { intros z. rewrite Hhalf at 1. rewrite Z.pow_add_r, Z.pow_mul_r by lia. by rewrite Z.pow_2_r. }
  assert (0 ≤ S ^ e') by (apply Z.pow_nonneg; lia).
  assert (0 ≤ S ^ b) by (apply Z.pow_nonneg; lia).
  split; [done|]. split; [done|]. split; [lia|]. split; [lia|].
  exists (S ^ e' * S ^ b). split; [nia|]. split; [rewrite (Hpe S), Z.pow_mul_l; ring|].
  rewrite (Hpe (limbs_val factor)).
  replace (limbs_val acc' * limbs_val factor' ^ e' * (S ^ e' * S ^ b))
    with ((limbs_val acc' * S ^ b) * (limbs_val factor' * S) ^ e') by (rewrite Z.pow_mul_l; ring).
  replace (limbs_val acc * ((limbs_val factor * limbs_val factor) ^ e' * limbs_val factor ^ b))
    with ((limbs_val acc * limbs_val factor ^ b) * (limbs_val factor * limbs_val factor) ^ e') by ring.
  apply rounds_mul; [nia|apply Z.mul_nonneg_nonneg; [lia|apply Z.pow_nonneg; lia]| | |done|done];
    apply Z.pow_nonneg; nia.
Qed.

Lemma fixed_pow_loop_rounds r fuel acc factor e x :
  limbs_ok 4 acc → limbs_ok 4 factor → 0 ≤ e < 2 ^ Z.of_nat fuel →
  fixed_pow_loop fuel acc factor e r = Ok x →
  limbs_ok 4 x ∧
  rounds r (limbs_val x * (10 ^ 36) ^ e) (limbs_val acc * limbs_val factor ^ e).
Proof.
  revert acc factor e. induction fuel as [|fuel IH]; intros acc factor e Ha Hf He Hx.
  { simpl in *. assert (e = 0) as -> by lia. injection Hx as ->.
    rewrite !Z.pow_0_r. split; [done|]. apply rounds_refl. }
  cbn [fixed_pow_loop] in Hx. destruct (decide (0 < e)) as [He0|He0].
  2: { assert (e = 0) as -> by lia. injection Hx as ->. rewrite !Z.pow_0_r.
       split; [done|]. apply rounds_refl. }
  apply result_bind_ok in Hx as (acc' & Hacc & Hx).
  apply result_bind_ok in Hx as (factor' & Hfac & Hx).
  destruct (fixed_pow_round r acc factor e acc' factor' Ha Hf He0 Hacc Hfac)
    as (Ha' & Hf' & He' & Hhalf & k & Hk & HS & Hr).
  rewrite Nat2Z.inj_succ, Z.pow_succ_r in He by lia.
  destruct (IH acc' factor' (e ≫ 1) Ha' Hf' ltac:(lia) Hx) as [Hok Rx]. split; [exact Hok|].
  pose proof (limbs_val_bound _ _ Ha'). pose proof (limbs_val_bound _ _ Hf').
  pose proof (limbs_val_bound _ _ Hok). eapply rounds_trans; [|exact Hr].
  rewrite HS, Z.mul_assoc. apply rounds_mul; [| |lia|lia|exact Rx|apply rounds_refl].
  - apply Z.mul_nonneg_nonneg; [lia|apply Z.pow_nonneg; lia].
  - apply Z.mul_nonneg_nonneg; [lia|apply Z.pow_nonneg; lia].
Qed.

(** A product at the scale fails only by overflowing. *)
Lemma mul_scale_overflow a b r err :
  limbs_ok 4 a → limbs_ok 4 b → mul_div a b fixed_scale r = Err err →
  err = Overflow ∧ (r = Down → 2 ^ 256 * 10 ^ 36 ≤ limbs_val a * limbs_val b).
Proof.
  intros Ha Hb Hx. pose proof (mul_div_spec a b fixed_scale r Ha Hb fixed_scale_ok) as H.
  rewrite Hx in H. rewrite fixed_scale_val in H. destruct err; [discriminate H|].
  destruct H as [_ H]. split; [done|]. intros ->. cbn [div_round] in H.
  set (X := limbs_val a * limbs_val b) in *. set (S := 10 ^ 36) in *.
  assert (0 < S) by (subst S; lia). pose proof (Z.mul_div_le X S ltac:(lia)). nia.
Qed.

(** What keeps an overflow honest when rounding down: the factor and the
    accumulator stay on the same side of one. *)
Definition same_side (acc factor : Z) : Prop :=
  10 ^ 36 ≤ acc ∧ 10 ^ 36 ≤ factor ∨ acc ≤ 10 ^ 36 ∧ factor ≤ 10 ^ 36.

Lemma mul_scale_down_side a b x :
  limbs_ok 4 a → limbs_ok 4 b → mul_div a b fixed_scale Down = Ok x →
  (10 ^ 36 ≤ limbs_val a ∧ 10 ^ 36 ≤ limbs_val b → 10 ^ 36 ≤ limbs_val x) ∧
  (limbs_val a ≤ 10 ^ 36 ∧ limbs_val b ≤ 10 ^ 36 → limbs_val x ≤ 10 ^ 36).
Proof.
  intros Ha Hb Hx. pose proof (mul_div_spec a b fixed_scale Down Ha Hb fixed_scale_ok) as H.
  rewrite Hx in H. destruct H as (_ & _ & Hv). rewrite fixed_scale_val in Hv.
  cbn [div_round] in Hv. set (S := 10 ^ 36) in *. assert (0 < S) by (subst S; lia).
  pose proof (limbs_val_bound _ _ Ha). pose proof (limbs_val_bound _ _ Hb).
  rewrite Hv. split; intros [Hx1 Hx2].
  - apply Z.div_le_lower_bound; nia.
  - apply Z.div_le_upper_bound; nia.
Qed.

Lemma fixed_pow_loop_overflow r fuel acc factor e err :
  limbs_ok 4 acc → limbs_ok 4 factor → 0 ≤ e < 2 ^ Z.of_nat fuel →
  fixed_pow_loop fuel acc factor e r = Err err →
  err = Overflow ∧
  (r = Down → same_side (limbs_val acc) (limbs_val factor) →
     2 ^ 256 * (10 ^ 36) ^ e ≤ limbs_val acc * limbs_val factor ^ e).
Proof.
  revert acc factor e. induction fuel as [|fuel IH]; intros acc factor e Ha Hf He Hx.
  { discriminate Hx. }
  cbn [fixed_pow_loop] in Hx. destruct (decide (0 < e)) as [He0|He0]; [|discriminate Hx].
  pose proof (limbs_val_bound _ _ Ha) as Ba. pose proof (limbs_val_bound _ _ Hf) as Bf.
  assert (Hsq : ∀ y n, 0 ≤ n → 10 ^ 36 ≤ y → (10 ^ 36) ^ n ≤ y ^ n)
    by (intros; apply Z.pow_le_mono_l; lia).
  apply result_bind_err in Hx as [Hx|(acc' & Hacc & Hx)].
  { destruct (decide (Z.land e 1 = 1)); [|discriminate Hx].
    destruct (mul_scale_overflow _ _ _ _ Ha Hf Hx) as [-> Hov]. split; [done|].
    intros -> [[H1 H2]|[H1 H2]]; specialize (Hov eq_refl); [|set (S := 10 ^ 36) in *; nia].
    pose proof (Hsq (limbs_val factor) (e - 1) ltac:(lia) H2) as Hp.
    replace e with (Z.succ (e - 1)) by lia. rewrite !Z.pow_succ_r by lia.
    set (S := 10 ^ 36) in *. assert (0 < S) by (subst S; lia).
    assert (0 ≤ S ^ (e - 1)) by (apply Z.pow_nonneg; lia).
    set (P := S ^ (e - 1)) in *. set (Q := limbs_val factor ^ (e - 1)) in *.
    replace (limbs_val acc * (limbs_val factor * Q)) with ((limbs_val acc * limbs_val factor) * Q) by ring.
    rewrite Z.mul_assoc. apply Z.mul_le_mono_nonneg; lia. }
  apply result_bind_err in Hx as [Hx|(factor' & Hfac & Hx)].
  { destruct (decide (0 < e ≫ 1)) as [Hp|]; [|discriminate Hx].
    destruct (mul_scale_overflow _ _ _ _ Hf Hf Hx) as [-> Hov]. split; [done|].
    intros -> [[H1 H2]|[H1 H2]]; specialize (Hov eq_refl); [|set (S := 10 ^ 36) in *; nia].
    pose proof (halve_u32 e ltac:(lia)) as Hhalf.
    assert (2 ≤ e) by (destruct (bool_decide _) in Hhalf; cbn in Hhalf; lia).
    pose proof (Hsq (limbs_val factor) (e - 2) ltac:(lia) H2) as Hq.
    replace e with (Z.succ (Z.succ (e - 2))) by lia. rewrite !Z.pow_succ_r by lia.
    set (S := 10 ^ 36) in *. assert (0 < S) by (subst S; lia).
    assert (0 ≤ S ^ (e - 2)) by (apply Z.pow_nonneg; lia).
    set (P := S ^ (e - 2)) in *. set (Q := limbs_val factor ^ (e - 2)) in *.
    replace (limbs_val acc * (limbs_val factor * (limbs_val factor * Q)))
      with (limbs_val factor * limbs_val factor * (limbs_val acc * Q)) by ring.
    replace (2 ^ 256 * (S * (S * P))) with (2 ^ 256 * S * (S * P)) by ring.
    apply Z.mul_le_mono_nonneg; nia. }
  destruct (fixed_pow_round r acc factor e acc' factor' Ha Hf He0 Hacc Hfac)
    as (Ha' & Hf' & He' & Hhalf & k & Hk & HS & Hr).
  rewrite Nat2Z.inj_succ, Z.pow_succ_r in He by lia.
  destruct (IH acc' factor' (e ≫ 1) Ha' Hf' ltac:(lia) Hx) as [-> Hov]. split; [done|].
  intros -> Hside. cbn [rounds] in Hr. etransitivity; [|exact Hr].
  rewrite HS, Z.mul_assoc. apply Z.mul_le_mono_nonneg_r; [lia|]. apply Hov; [done|].
  assert (Hs1 : same_side (limbs_val acc') (limbs_val factor) ∧
                (10 ^ 36 ≤ limbs_val acc ∧ 10 ^ 36 ≤ limbs_val factor → 10 ^ 36 ≤ limbs_val acc') ∧
                (limbs_val acc ≤ 10 ^ 36 ∧ limbs_val factor ≤ 10 ^ 36 → limbs_val acc' ≤ 10 ^ 36)).
  { destruct (decide (Z.land e 1 = 1)) in Hacc.
    - destruct (mul_scale_down_side _ _ _ Ha Hf Hacc). unfold same_side in *. tauto.
    - injection Hacc as ->. tauto. }
  destruct (decide (0 < e ≫ 1)) in Hfac.
  - destruct (mul_scale_down_side _ _ _ Hf Hf Hfac). unfold same_side in *. tauto.
  - injection Hfac as ->. tauto.
Qed.

Local Transparent mul_div fixed_scale.

(** What a fixed-scale power must answer (stated without division): a success is
    on the requested side of the exact [base^exp / scale^(exp-1)]; the only error
    is an overflow, which rounding down reports only where the exact power
    itself leaves 256 bits. *)
Definition fixed_pow_post (base exp : Z) (rounding : Rounding) (r : result MathError U256) : Prop :=
  match r with
  | Ok x => limbs_ok 4 x ∧ rounds rounding (limbs_val x * (10 ^ 36) ^ exp) (10 ^ 36 * base ^ exp)
  | Err err => err = Overflow ∧
      (rounding = Down → 2 ^ 256 * (10 ^ 36) ^ exp ≤ 10 ^ 36 * base ^ exp)
  end.

Lemma fixed_pow_spec base exp rounding :
  limbs_ok 4 base → in_width 32 exp →
  fixed_pow_post (limbs_val base) exp rounding (fixed_pow base exp rounding).
Proof.
  intros Hb He. unfold fixed_pow_post. rewrite <- fixed_scale_val.
  destruct (fixed_pow base exp rounding) as [x|err] eqn:Hx; rewrite fixed_scale_val at 1.
  - pose proof (fixed_pow_loop_rounds rounding 32 fixed_scale base exp x fixed_scale_ok Hb He Hx) as H.
    exact H.
  - destruct (fixed_pow_loop_overflow rounding 32 fixed_scale base exp err fixed_scale_ok Hb He Hx)
      as [-> H]. split; [done|]. intros ->. apply H; [done|].
    unfold same_side. rewrite fixed_scale_val. lia.
Qed.

(** A fixed-scale power rounded down is never above, and rounded up never
    below, the exact power; it fails only by overflowing, and rounding down
    never reports an overflow the exact power does not have. *)
Theorem fixed_pow_rounds base exp rounding :
  limbs_ok 4 base → in_width 32 exp →
  fixed_pow_post (limbs_val base) exp rounding (fixed_pow base exp rounding).
Proof. apply fixed_pow_spec. Qed.

(** The accumulated error of [fixed_pow] is not bounded by one unit per
    multiplication: cubing [1000 + (10^18 - 1) / 10^36] rounded down loses more
    than 999 units in the last place over its three multiplications, because
    each truncation is amplified by the factors that follow it. *)
Theorem fixed_pow_error_amplifies :
  let base := 1000 * 10 ^ 36 + (10 ^ 18 - 1) in
  ∃ x, fixed_pow (from_u128 base) 3 Down = Ok x ∧
       (limbs_val x + 999) * (10 ^ 36) ^ 2 < base ^ 3.
Proof. eexists. split; [vm_compute; reflexivity|]. vm_compute. reflexivity. Qed.

(** Composing [2^255 / 2^255] with [3 / 1] reports an overflow, although
    the product is the fraction [3 / 1]: the cross reduction removes no factor
    shared inside one operand. *)
Theorem fraction_compose_misses_shared_factor :
  let big := [0; 0; 0; 2 ^ 63] in
  fraction_compose big big (from_u128 3) u256_one = Err Overflow ∧
  limbs_val (from_u128 3) * (limbs_val big * limbs_val u256_one)
    = limbs_val u256_one * (limbs_val big * limbs_val (from_u128 3)).
Proof. split; vm_compute; reflexivity. Qed.

(** ** Witnesses *)

Lemma mul_div_correct_witness :
  mul_div u256_max (from_u128 3) (from_u128 6) Down
    = Ok [u64_max; u64_max; u64_max; 2 ^ 63 - 1] ∧
  mul_div_post (limbs_val u256_max) (limbs_val (from_u128 3)) (limbs_val (from_u128 6)) Down
    (mul_div u256_max (from_u128 3) (from_u128 6) Down).
Proof. split; [vm_compute; reflexivity|]. apply mul_div_correct; solve_limbs. Defined.

Lemma geometric_mean_correct_witness :
  geometric_mean u256_max u256_max = u256_max ∧
  limbs_ok 4 (geometric_mean u256_max u256_max) ∧
  limbs_val (geometric_mean u256_max u256_max) = Z.sqrt (limbs_val u256_max * limbs_val u256_max).
Proof. split; [vm_compute; reflexivity|]. apply geometric_mean_correct; solve_limbs. Defined.

Lemma gcd_correct_witness :
  gcd (from_u128 48) (from_u128 36) = from_u128 12 ∧
  limbs_val (gcd (from_u128 48) (from_u128 36))
    = Z.gcd (limbs_val (from_u128 48)) (limbs_val (from_u128 36)).
Proof.
  split; [vm_compute; reflexivity|].
  apply (gcd_correct (from_u128 48) (from_u128 36)); solve_limbs.
Defined.

Lemma fraction_compose_correct_witness :
  fraction_compose u256_max (from_u128 2) (from_u128 2) u256_max = Ok (u256_one, u256_one) ∧
  compose_post (limbs_val u256_max) (limbs_val (from_u128 2)) (limbs_val (from_u128 2))
    (limbs_val u256_max) (fraction_compose u256_max (from_u128 2) (from_u128 2) u256_max).
Proof. split; [vm_compute; reflexivity|]. apply fraction_compose_correct; solve_limbs. Defined.

Lemma fraction_cmp_correct_witness :
  fraction_cmp (from_u128 1) (from_u128 3) (from_u128 333) (from_u128 1000) = Ok Gt ∧
  fraction_cmp (from_u128 1) (from_u128 3) (from_u128 333) (from_u128 1000)
    = if decide (limbs_val (from_u128 3) = 0 ∨ limbs_val (from_u128 1000) = 0) then Err DivideByZero
      else Ok (Z.compare (limbs_val (from_u128 1) * limbs_val (from_u128 1000))
                         (limbs_val (from_u128 333) * limbs_val (from_u128 3))).
Proof. split; [vm_compute; reflexivity|]. apply fraction_cmp_correct; solve_limbs. Defined.

Lemma fixed_pow_rounds_witness :
  fixed_pow (from_u128 (3 * 10 ^ 36)) 4 Up = Ok (from_u128 (81 * 10 ^ 36)) ∧
  fixed_pow_post (limbs_val (from_u128 (3 * 10 ^ 36))) 4 Up (fixed_pow (from_u128 (3 * 10 ^ 36)) 4 Up).
Proof.
  split; [vm_compute; reflexivity|]. apply fixed_pow_rounds; [solve_limbs|unfold in_width; lia].
Defined.
