(* ===== verification/Types.v ===== *)
(** * Wire vocabulary ([crates/types/src/{address,amount,mode,effect}.rs])

    Addresses and substate keys, the amount cell, the access modes, the targets
    a declaration names, and [EffectSet], the folding set of declared accesses.
    A fixed byte array ([Address], [LocalKey], [CollectionId], [TxHash]) is the
    integer its bytes spell big-endian: [be_val_lex] shows that the order the
    source derives on the arrays is the order of these integers. *)

From S2P Require Import Prelude.

(** The lexicographic order of equally long arrays is the order of the integers
    they spell big-endian. *)
Lemma be_val_cons b l : be_val (b :: l) = u8_val b * 256 ^ Z.of_nat (length l) + be_val l.
Proof.
  unfold be_val. rewrite reverse_cons, <- (length_reverse l). generalize (reverse l). clear l.
  induction l as [|c l IH]; [simpl; lia|].
  cbn [app le_val length]. rewrite IH, pow256_S. ring.
Qed.

Lemma be_val_lex a b :
  length a = length b →
  lex_cmp (u8_val <$> a) (u8_val <$> b) = Z.compare (be_val a) (be_val b).
Proof.
  revert b. induction a as [|x a IH]; intros [|y b]; [done..|]. intros [= Hlen].
  cbn [fmap list_fmap lex_cmp]. rewrite !be_val_cons, <- Hlen.
  pose proof (be_val_bound a). pose proof (be_val_bound b). rewrite <- Hlen in *.
  set (p := 256 ^ Z.of_nat (length a)) in *.
  pose proof (u8_val_bound x). pose proof (u8_val_bound y).
  destruct (Z.compare_spec (u8_val x) (u8_val y)) as [E|Hlt|Hgt].
  - rewrite E, IH by done. destruct (Z.compare_spec (be_val a) (be_val b)) as [E'|?|?].
    + symmetry. apply Z.compare_eq_iff. lia.
    + symmetry. apply Z.compare_lt_iff. lia.
    + symmetry. apply Z.compare_gt_iff. lia.
  - symmetry. apply Z.compare_lt_iff. nia.
  - symmetry. apply Z.compare_gt_iff. nia.
Qed.

(** ** Addresses and keys *)

Inductive AddressClass := Principal | Component | Package | Resource | Native | Restricted.
#[global] Instance AddressClass_eq_dec : EqDecision AddressClass.
Proof. solve_decision. Defined.

Definition class_tag (c : AddressClass) : Z :=
  match c with
  | Principal => 1 | Component => 2 | Package => 3
  | Resource => 4 | Native => 5 | Restricted => 6
  end.

Definition from_tag (tag : Z) : option AddressClass :=
  match tag with
  | 1 => Some Principal | 2 => Some Component | 3 => Some Package
  | 4 => Some Resource | 5 => Some Native | 6 => Some Restricted
  | _ => None
  end.

Record InvalidAddress := { invalid_tag : Z }.

Abbreviation Address := Z (only parsing).
Abbreviation LocalKey := Z (only parsing).
Abbreviation CollectionId := Z (only parsing).
Abbreviation TxHash := Z (only parsing).
Abbreviation ResourceAddr := Z (only parsing).
Abbreviation bytes := (list byte).

(** Every constructed address carries an assigned tag in its last byte. *)
Definition address_ok (a : Address) : Prop := in_width 256 a ∧ is_Some (from_tag (a mod 256)).

Definition address_new (body : Z) (class : AddressClass) : Address := body * 256 + class_tag class.
(** [None] is the panic of [expect]. *)
Definition address_class (a : Address) : option AddressClass := from_tag (a mod 256).
Definition address_body (a : Address) : Z := a / 256.
Definition address_to_bytes (a : Address) : bytes := be_bytes 32 a.
Definition address_from_bytes (b : bytes) : result InvalidAddress Address :=
  let tag := be_val b mod 256 in
  match from_tag tag with
  | Some _ => Ok (be_val b)
  | None => Err {| invalid_tag := tag |}
  end.

Record SubstateKey := { owner : Address; local : LocalKey }.
#[global] Instance SubstateKey_eq_dec : EqDecision SubstateKey.
Proof. solve_decision. Defined.
#[global] Instance SubstateKey_countable : Countable SubstateKey.
Proof.
  refine (inj_countable' (λ k, (owner k, local k)) (λ p, {| owner := p.1; local := p.2 |}) _).
  by intros [].
Defined.
#[global] Instance SubstateKey_ord : OrdKey SubstateKey.
Proof.
  refine {| ord_key k := [owner k; local k] |}. intros [] [] [=]. by subst.
Defined.

Definition substate_key_ok (k : SubstateKey) : Prop :=
  address_ok (owner k) ∧ in_width 128 (local k).

Definition key_to_bytes (k : SubstateKey) : bytes :=
  address_to_bytes (owner k) ++ be_bytes 16 (local k).
Definition key_from_bytes (b : bytes) : result InvalidAddress SubstateKey :=
  o ← address_from_bytes (take 32 b);
  Ok {| owner := o; local := be_val (drop 32 b) |}.

(** The expiry bucket a sweepable cell sorts into. *)
Definition SWEEP_BUCKET_SHIFT : Z := 16.
Definition bucket_of (expiry_ms : Z) : Z :=
  let b := expiry_ms ≫ SWEEP_BUCKET_SHIFT in
  if decide (b ≤ u32_max) then b else u32_max.
Definition bucket_to_bytes (b : Z) : bytes := be_bytes 4 b.
Definition bucket_claimed_by (l : LocalKey) : Z := be_val (take 4 (be_bytes 16 l)).

Record EntryKey := { entry_owner : Address; entry_collection : CollectionId; entry_order : Z }.
#[global] Instance EntryKey_eq_dec : EqDecision EntryKey.
Proof. solve_decision. Defined.

(** ** Amount cells *)

Definition AMOUNT_CELL_BYTES : nat := 16.
Definition encode_amount (amount : Z) : bytes := le_bytes AMOUNT_CELL_BYTES amount.
Definition amount_cell (amount : Z) : option bytes :=
  if decide (amount ≠ 0) then Some (encode_amount amount) else None.
Definition read_amount (cell : bytes) : option Z :=
  if decide (length cell = AMOUNT_CELL_BYTES) then Some (le_val cell) else None.

(** ** Modes *)

Inductive Moves := In | Out | Both.
#[global] Instance Moves_eq_dec : EqDecision Moves.
Proof. solve_decision. Defined.
Definition moves_credits (m : Moves) : bool := match m with In | Both => true | Out => false end.
Definition moves_debits (m : Moves) : bool := match m with Out | Both => true | In => false end.
Definition moves_ord (m : Moves) : Z := match m with In => 0 | Out => 1 | Both => 2 end.

Inductive Mode := MRead | MDelta (moves : Moves) | MReserve (amount : Z) | MWrite (moves : Moves).
#[global] Instance Mode_eq_dec : EqDecision Mode.
Proof. solve_decision. Defined.

Inductive ModeKind := KRead | KDelta | KReserve | KWrite.
#[global] Instance ModeKind_eq_dec : EqDecision ModeKind.
Proof. solve_decision. Defined.

Definition mode_moves (m : Mode) : option Moves :=
  match m with
  | MRead => None
  | MDelta moves | MWrite moves => Some moves
  | MReserve _ => Some Out
  end.

Definition kind (m : Mode) : ModeKind :=
  match m with
  | MRead => KRead
  | MDelta _ => KDelta
  | MReserve _ => KReserve
  | MWrite _ => KWrite
  end.

Inductive Presence := Either | Absent | Present.
#[global] Instance Presence_eq_dec : EqDecision Presence.
Proof. solve_decision. Defined.
Definition presence_meet (a b : Presence) : option Presence :=
  match a, b with
  | Either, met | met, Either => Some met
  | Absent, Absent => Some Absent
  | Present, Present => Some Present
  | Absent, Present | Present, Absent => None
  end.

Definition compatible (a b : ModeKind) : bool :=
  match a, b with
  | KRead, KRead => true
  | (KDelta | KReserve), (KDelta | KReserve) => true
  | _, _ => false
  end.

Inductive ConflictClass := CRead | CMovement | CWrite.
#[global] Instance ConflictClass_eq_dec : EqDecision ConflictClass.
Proof. solve_decision. Defined.
Definition class_all : list ConflictClass := [CRead; CMovement; CWrite].
Definition class_representative (c : ConflictClass) : ModeKind :=
  match c with CRead => KRead | CMovement => KDelta | CWrite => KWrite end.
Definition class_conflicts_with (a b : ConflictClass) : bool :=
  negb (compatible (class_representative a) (class_representative b)).
Definition conflict_class (k : ModeKind) : ConflictClass :=
  match k with KRead => CRead | KDelta | KReserve => CMovement | KWrite => CWrite end.

Definition mode_key (m : Mode) : list Z :=
  match m with
  | MRead => [0]
  | MDelta moves => [1; moves_ord moves]
  | MReserve amount => [2; amount]
  | MWrite moves => [3; moves_ord moves]
  end.
Definition mode_unkey (l : list Z) : Mode :=
  let moves x := match x with 0 => In | 1 => Out | _ => Both end in
  match l with
  | [1; m] => MDelta (moves m)
  | [2; a] => MReserve a
  | [3; m] => MWrite (moves m)
  | _ => MRead
  end.
Lemma mode_unkey_key m : mode_unkey (mode_key m) = m.
Proof. by destruct m as [|[]| |[]]. Qed.
#[global] Instance Mode_countable : Countable Mode := inj_countable' _ _ mode_unkey_key.
#[global] Instance Mode_ord : OrdKey Mode.
Proof. refine {| ord_key := mode_key |}. intros a b E. by rewrite <- (mode_unkey_key a), E, mode_unkey_key. Defined.

(** ** Targets *)

Inductive EffectTarget :=
  | Point (key : SubstateKey)
  | Entry (owner : Address) (collection : CollectionId) (order : Z)
  | Range (owner : Address) (collection : CollectionId) (lo hi cap : Z).
#[global] Instance EffectTarget_eq_dec : EqDecision EffectTarget.
Proof. solve_decision. Defined.

Definition target_owner (t : EffectTarget) : Address :=
  match t with Point key => owner key | Entry o _ _ | Range o _ _ _ _ => o end.

Definition target_key (t : EffectTarget) : list Z :=
  match t with
  | Point k => [0; owner k; local k]
  | Entry o c x => [1; o; c; x]
  | Range o c lo hi cap => [2; o; c; lo; hi; cap]
  end.
Definition target_unkey (l : list Z) : EffectTarget :=
  match l with
  | [1; o; c; x] => Entry o c x
  | [2; o; c; lo; hi; cap] => Range o c lo hi cap
  | [_; o; k] => Point {| owner := o; local := k |}
  | _ => Point {| owner := 0; local := 0 |}
  end.
Lemma target_unkey_key t : target_unkey (target_key t) = t.
Proof. by destruct t as [[]| |]. Qed.
#[global] Instance EffectTarget_countable : Countable EffectTarget := inj_countable' _ _ target_unkey_key.
#[global] Instance EffectTarget_ord : OrdKey EffectTarget.
Proof. refine {| ord_key := target_key |}. intros a b E. by rewrite <- (target_unkey_key a), E, target_unkey_key. Defined.

Record Effect := { target : EffectTarget; mode : Mode }.
#[global] Instance Effect_eq_dec : EqDecision Effect.
Proof. solve_decision. Defined.

(** Scheduling may forget everything about a mode but its class: two modes
    conflict exactly when their classes do, and every mode that can carry value
    out of a cell other than an exclusive write is in the movement class. *)
Theorem conflict_class_exact a b :
  class_conflicts_with (conflict_class (kind a)) (conflict_class (kind b))
    = negb (compatible (kind a) (kind b)) ∧
  (conflict_class (kind a) = CMovement ↔ kind a ≠ KWrite ∧ is_Some (mode_moves a)).
Proof. split; destruct a, b; done || naive_solver. Qed.

(** ** Keys and their bytes *)

Lemma pow256_32 : 256 ^ Z.of_nat 32 = 2 ^ 256.
Proof. reflexivity. Qed.
Lemma pow256_16 : 256 ^ Z.of_nat 16 = 2 ^ 128.
Proof. reflexivity. Qed.

Lemma address_bytes_val a : address_ok a → be_val (address_to_bytes a) = a.
Proof. intros [Ha _]. apply be_val_bytes. rewrite pow256_32. exact Ha. Qed.

Lemma local_bytes_val l : in_width 128 l → be_val (be_bytes 16 l) = l.
Proof. intros Hl. apply be_val_bytes. rewrite pow256_16. exact Hl. Qed.

Lemma key_bytes_split k :
  take 32 (key_to_bytes k) = address_to_bytes (owner k) ∧
  drop 32 (key_to_bytes k) = be_bytes 16 (local k).
Proof.
  unfold key_to_bytes. split; [apply take_app_length'|apply drop_app_length'];
    symmetry; apply length_be_bytes.
Qed.

Lemma key_from_to_bytes k : substate_key_ok k → key_from_bytes (key_to_bytes k) = Ok k.
Proof.
  intros [Ha Hl]. unfold key_from_bytes. destruct (key_bytes_split k) as [-> ->].
  unfold address_from_bytes. rewrite address_bytes_val, local_bytes_val by done.
  destruct Ha as [_ [c ->]]. by destruct k.
Qed.

Lemma key_to_from_bytes b k :
  length b = 48%nat → key_from_bytes b = Ok k → substate_key_ok k ∧ key_to_bytes k = b.
Proof.
  intros Hlen Hk. unfold key_from_bytes, address_from_bytes in Hk.
  assert (length (take 32 b) = 32%nat) as H32 by (rewrite length_take; lia).
  assert (length (drop 32 b) = 16%nat) as H16 by (rewrite length_drop; lia).
  destruct (from_tag (be_val (take 32 b) mod 256)) as [c|] eqn:Hc; [|done]. injection Hk as <-.
  pose proof (be_val_bound (take 32 b)) as Hb. pose proof (be_val_bound (drop 32 b)) as Hb'.
  rewrite H32, pow256_32 in Hb. rewrite H16, pow256_16 in Hb'. split.
  - split; [split; [exact Hb|by exists c]|exact Hb'].
  - unfold key_to_bytes, address_to_bytes. cbn [owner local].
    pose proof (be_bytes_val (take 32 b)) as E. pose proof (be_bytes_val (drop 32 b)) as E'.
    rewrite H32 in E. rewrite H16 in E'. rewrite E, E'. apply take_drop.
Qed.

(** A substate key and its 48 leaf bytes determine each other: every key
    survives the round trip, and bytes that parse are the bytes of the key they
    parse to. *)
Theorem substate_key_roundtrip :
  (∀ k, substate_key_ok k → key_from_bytes (key_to_bytes k) = Ok k) ∧
  (∀ b k, length b = 48%nat → key_from_bytes b = Ok k → substate_key_ok k ∧ key_to_bytes k = b).
Proof. split; [apply key_from_to_bytes|apply key_to_from_bytes]. Qed.

Lemma lex_cmp_app a b c d :
  length a = length c →
  lex_cmp (a ++ b) (c ++ d) = match lex_cmp a c with Eq => lex_cmp b d | r => r end.
Proof.
  revert c. induction a as [|x a IH]; intros [|y c]; [done..|]. intros [= Hlen]. cbn.
  destruct (Z.compare x y); [by apply IH|done..].
Qed.

Lemma key_order_lex k k' :
  substate_key_ok k → substate_key_ok k' →
  lex_cmp (u8_val <$> key_to_bytes k) (u8_val <$> key_to_bytes k') = lex_cmp (ord_key k) (ord_key k').
Proof.
  intros [Ha Hl] [Ha' Hl']. unfold key_to_bytes. rewrite !fmap_app, lex_cmp_app.
  2: { rewrite !length_fmap. unfold address_to_bytes. by rewrite !length_be_bytes. }
  rewrite !be_val_lex by (unfold address_to_bytes; by rewrite !length_be_bytes).
  rewrite !address_bytes_val, !local_bytes_val by done. cbn.
  destruct (Z.compare (owner k) (owner k')); [|done..]. by destruct (Z.compare (local k) (local k')).
Qed.

(** The derived order on keys is the byte order of their leaf keys, so one
    owner's cells are contiguous in the tree, and within the owner one sweep
    bucket's cells are: the bucket a local half claims is monotone in the local
    half, and a later expiry never lands in an earlier bucket. *)
Theorem key_order_is_leaf_order :
  (∀ k k', substate_key_ok k → substate_key_ok k' →
     lex_cmp (u8_val <$> key_to_bytes k) (u8_val <$> key_to_bytes k')
       = lex_cmp (ord_key k) (ord_key k')) ∧
  (∀ l l', in_width 128 l → in_width 128 l' → l ≤ l' → bucket_claimed_by l ≤ bucket_claimed_by l') ∧
  (∀ e e', in_width 64 e → in_width 64 e' → e ≤ e' → bucket_of e ≤ bucket_of e' ≤ u32_max).
Proof.
  split; [apply key_order_lex|]. split.
  - assert (H : ∀ l, in_width 128 l → bucket_claimed_by l = l / 2 ^ 96).
    { intros l Hl. unfold bucket_claimed_by. set (b := be_bytes 16 l).
      assert (length b = 16%nat) by apply length_be_bytes.
      assert (Hv : be_val b = l) by (by apply local_bytes_val).
      rewrite <- (take_drop 4 b) in Hv.
      assert (Happ : ∀ p q, be_val (p ++ q) = be_val p * 256 ^ Z.of_nat (length q) + be_val q).
      { intros p q. induction p as [|x p IH]; [done|]. rewrite <- app_comm_cons, !be_val_cons, IH.
        rewrite length_app, Nat2Z.inj_add, Z.pow_add_r by lia. ring. }
      rewrite Happ in Hv. pose proof (be_val_bound (drop 4 b)) as Hb.
      rewrite length_drop in *. replace (length b - 4)%nat with 12%nat in * by lia.
      change (256 ^ Z.of_nat 12) with (2 ^ 96) in *. rewrite <- Hv.
      rewrite Z.div_add_l, Z.div_small by lia. lia. }
    intros l l' Hl Hl' Hle. rewrite !H by done. by apply Z.div_le_mono.
  - intros e e' He He' Hle. unfold bucket_of, SWEEP_BUCKET_SHIFT. rewrite !Z.shiftr_div_pow2 by lia.
    pose proof (Z.div_le_mono e e' (2 ^ 16) ltac:(lia) Hle).
    repeat case_decide; lia.
Qed.

Lemma substate_key_roundtrip_witness :
  let k := {| owner := 258; local := 7 |} in key_from_bytes (key_to_bytes k) = Ok k.
Proof. apply (proj1 substate_key_roundtrip). split; [split|]; vm_compute; naive_solver. Defined.

Lemma key_order_is_leaf_order_witness :
  let k := {| owner := 258; local := 7 |} in let k' := {| owner := 258; local := 9 |} in
  lex_cmp (u8_val <$> key_to_bytes k) (u8_val <$> key_to_bytes k') = lex_cmp (ord_key k) (ord_key k').
Proof.
  apply (proj1 key_order_is_leaf_order); (split; [split|]); vm_compute; naive_solver.
Defined.
