(* ===== verification/Work.v ===== *)
(** * Declared work and its price ([crates/types/src/work.rs], [scheme.rs])

    What a transaction declares it may consume, in five dimensions, the table that
    weighs the vector into a fee, the bounds a vote opens for the table and the
    controller that moves it inside them once per epoch. *)

From S2P Require Import Prelude Types.

(** ** Signature schemes *)

Definition SchemeId : Type := Z.
Definition scheme_NONE : SchemeId := 0.
Definition ED25519 : SchemeId := 1.
Definition SECP256K1 : SchemeId := 2.
Definition ML_DSA_65 : SchemeId := 3.
Record SchemeSpec := { key_len : nat; sig_len : nat; verify_weight : Z }.
Definition REGISTRY : list (SchemeId * SchemeSpec) := [
  (ED25519, {| key_len := 32; sig_len := 64; verify_weight := 1 |});
  (SECP256K1, {| key_len := 33; sig_len := 64; verify_weight := 2 |});
  (ML_DSA_65, {| key_len := 1952; sig_len := 3309; verify_weight := 3 |})].
Fixpoint spec_in (registry : list (SchemeId * SchemeSpec)) (scheme : SchemeId) : option SchemeSpec :=
  match registry with
  | [] => None
  | (id, spec) :: registry => if decide (id = scheme) then Some spec else spec_in registry scheme
  end.
Definition scheme_spec (scheme : SchemeId) : option SchemeSpec := spec_in REGISTRY scheme.
Fixpoint widest_in (registry : list (SchemeId * SchemeSpec)) (keys : bool) (widest : nat) : nat :=
  match registry with
  | [] => widest
  | (_, spec) :: registry =>
      let width := if keys then key_len spec else sig_len spec in
      widest_in registry keys (if decide (widest < width)%nat then width else widest)
  end.
Definition widest (keys : bool) : nat := widest_in REGISTRY keys 0.
Definition MAX_KEY_BYTES : nat := widest true.
Definition MAX_SIG_BYTES : nat := widest false.
Definition admits_key (spec : SchemeSpec) (key : bytes) : bool := bool_decide (length key = key_len spec).
Definition admits (spec : SchemeSpec) (key signature : bytes) : bool :=
  admits_key spec key && bool_decide (length signature = sig_len spec).

Definition VERIFY_WEIGHT : Z := 100000.
Definition signature_compute (scheme : SchemeId) : Z :=
  match scheme_spec scheme with Some spec => saturating_mul 64 VERIFY_WEIGHT (verify_weight spec) | None => 0 end.
Definition signature_bytes (scheme : SchemeId) : Z :=
  match scheme_spec scheme with Some spec => Z.of_nat (key_len spec + sig_len spec) | None => 0 end.

(** ** Five dimensions

    The three structs of the source have the same five rows; they are one record
    here, of work, of weights and of readings. *)

Record Five (A : Type) := { w_compute : A; w_read : A; w_write : A; w_footprint : A; w_retention : A }.
#[global] Arguments w_compute {A} _.
#[global] Arguments w_read {A} _.
#[global] Arguments w_write {A} _.
#[global] Arguments w_footprint {A} _.
#[global] Arguments w_retention {A} _.
#[global] Instance Five_eq_dec {A} `{EqDecision A} : EqDecision (Five A).
Proof. solve_decision. Defined.
Definition DeclaredWork : Type := Five Z.
Definition PriceTable : Type := Five Z.

Definition work_ZERO : DeclaredWork := {| w_compute := 0; w_read := 0; w_write := 0; w_footprint := 0; w_retention := 0 |}.
Definition work_add (a b : DeclaredWork) : DeclaredWork := {|
  w_compute := saturating_add 64 (w_compute a) (w_compute b);
  w_read := saturating_add 64 (w_read a) (w_read b);
  w_write := saturating_add 64 (w_write a) (w_write b);
  w_footprint := saturating_add 64 (w_footprint a) (w_footprint b);
  w_retention := saturating_add 64 (w_retention a) (w_retention b) |}.
Definition work_fits (work caps : DeclaredWork) : bool :=
  bool_decide (w_compute work ≤ w_compute caps) && bool_decide (w_read work ≤ w_read caps) &&
  bool_decide (w_write work ≤ w_write caps) && bool_decide (w_footprint work ≤ w_footprint caps) &&
  bool_decide (w_retention work ≤ w_retention caps).
Definition work_signature (scheme : SchemeId) : DeclaredWork := {|
  w_compute := signature_compute scheme; w_retention := signature_bytes scheme;
  w_read := 0; w_write := 0; w_footprint := 0 |}.

(** ** The price *)

Definition BASIS_POINTS : Z := 10000.
Definition PRICE_RESOLUTION : Z := 1000.
Definition WORK_PER_QUANTUM : Z := 100000 * PRICE_RESOLUTION.
Definition table_GENESIS : PriceTable := {|
  w_compute := PRICE_RESOLUTION; w_read := 10 * PRICE_RESOLUTION; w_write := 50 * PRICE_RESOLUTION;
  w_footprint := 1000 * PRICE_RESOLUTION; w_retention := 20 * PRICE_RESOLUTION |}.
(** [u128::div_ceil]. *)
Definition u128_div_ceil (a b : Z) : Z := if decide (a mod b = 0) then a / b else a / b + 1.
(** A product of two [u64] fits [u128]; [None] is an addition past it. *)
Definition weighted (table : PriceTable) (work : DeclaredWork) : option Z :=
  sum ← checked_add 128 (w_compute table * w_compute work) (w_read table * w_read work);
  sum ← checked_add 128 sum (w_write table * w_write work);
  sum ← checked_add 128 sum (w_footprint table * w_footprint work);
  checked_add 128 sum (w_retention table * w_retention work).
Definition price (table : PriceTable) (work : DeclaredWork) (priority_bp : Z) : option Z :=
  weight ← weighted table work;
  let raised := saturating_mul 128 weight (BASIS_POINTS + priority_bp) in
  Some (u128_div_ceil raised (WORK_PER_QUANTUM * BASIS_POINTS)).

(** ** Bounds *)

Record PriceBounds := { pb_floor : PriceTable; pb_ceiling : PriceTable }.
#[global] Instance PriceBounds_eq_dec : EqDecision PriceBounds.
Proof. solve_decision. Defined.

Definition narrow_u64 (x : Z) : Z := if decide (width_max 64 < x) then width_max 64 else x.
Definition scaled_row (level bp : Z) : Z := narrow_u64 (level * bp / BASIS_POINTS).
Definition scaled (bp : Z) : PriceTable := {|
  w_compute := scaled_row (w_compute table_GENESIS) bp;
  w_read := scaled_row (w_read table_GENESIS) bp;
  w_write := scaled_row (w_write table_GENESIS) bp;
  w_footprint := scaled_row (w_footprint table_GENESIS) bp;
  w_retention := scaled_row (w_retention table_GENESIS) bp |}.
Definition band (floor_bp ceiling_bp : Z) : PriceBounds := {| pb_floor := scaled floor_bp; pb_ceiling := scaled ceiling_bp |}.
Definition bounds_GENESIS : PriceBounds := band BASIS_POINTS BASIS_POINTS.
Definition bounds_well_formed (b : PriceBounds) : bool :=
  let floor := pb_floor b in let ceiling := pb_ceiling b in
  bool_decide (0 < w_compute floor) && bool_decide (0 < w_read floor) && bool_decide (0 < w_write floor) &&
  bool_decide (0 < w_footprint floor) && bool_decide (0 < w_retention floor) &&
  bool_decide (w_compute floor ≤ w_compute ceiling) && bool_decide (w_read floor ≤ w_read ceiling) &&
  bool_decide (w_write floor ≤ w_write ceiling) && bool_decide (w_footprint floor ≤ w_footprint ceiling) &&
  bool_decide (w_retention floor ≤ w_retention ceiling).
Definition PER_BP : Z := w_footprint table_GENESIS / BASIS_POINTS.
Definition band_of (table : PriceTable) : option Z :=
  if decide (w_footprint table mod PER_BP = 0) then
    let bp := w_footprint table / PER_BP in
    if decide (bp ≤ width_max 32) then Some bp else None
  else None.
Definition as_band (b : PriceBounds) : option (Z * Z) :=
  floor_bp ← band_of (pb_floor b);
  ceiling_bp ← band_of (pb_ceiling b);
  if decide (band floor_bp ceiling_bp = b) then Some (floor_bp, ceiling_bp) else None.
Definition clamp_row (level floor ceiling : Z) : Z :=
  if decide (level < floor) then floor else if decide (ceiling < level) then ceiling else level.
Definition inside (b : PriceBounds) (table : PriceTable) : PriceTable :=
  let floor := pb_floor b in let ceiling := pb_ceiling b in {|
  w_compute := clamp_row (w_compute table) (w_compute floor) (w_compute ceiling);
  w_read := clamp_row (w_read table) (w_read floor) (w_read ceiling);
  w_write := clamp_row (w_write table) (w_write floor) (w_write ceiling);
  w_footprint := clamp_row (w_footprint table) (w_footprint floor) (w_footprint ceiling);
  w_retention := clamp_row (w_retention table) (w_retention floor) (w_retention ceiling) |}.

(** ** The controller *)

Record Utilization := { u_used : Z; u_capacity : Z }.
Definition FiveWay : Type := Five Utilization.
Definition stepped_row (prev : Z) (u : Utilization) : Z :=
  if decide (u_capacity u = 0) then prev else
  let cap := u_capacity u in
  let used := if decide (cap < u_used u) then cap else u_used u in
  let numerator := saturating_mul 128 prev
    (saturating_add 128 (saturating_mul 128 cap 7) (saturating_mul 128 used 2)) in
  let denominator := saturating_mul 128 cap 8 in
  let next := if decide (cap ≤ saturating_mul 128 used 2) then u128_div_ceil numerator denominator else numerator / denominator in
  narrow_u64 next.
Definition stepped (table : PriceTable) (u : FiveWay) (b : PriceBounds) : PriceTable :=
  inside b {|
    w_compute := stepped_row (w_compute table) (w_compute u);
    w_read := stepped_row (w_read table) (w_read u);
    w_write := stepped_row (w_write table) (w_write u);
    w_footprint := stepped_row (w_footprint table) (w_footprint u);
    w_retention := stepped_row (w_retention table) (w_retention u) |}.

(** ** Rounding *)

Lemma div_ceil_bounds a b : 0 < b → (u128_div_ceil a b - 1) * b < a ≤ u128_div_ceil a b * b.
Proof.
  intros Hb. unfold u128_div_ceil. pose proof (Z.div_mod a b) as E. pose proof (Z.mod_pos_bound a b Hb) as Hm. case_decide; nia.
Qed.
Lemma div_ceil_least a b n : 0 < b → (u128_div_ceil a b ≤ n ↔ a ≤ n * b).
Proof. intros Hb. pose proof (div_ceil_bounds a b Hb). split; intros; nia. Qed.
Lemma div_ceil_mono a a' b : 0 < b → a ≤ a' → u128_div_ceil a b ≤ u128_div_ceil a' b.
Proof. intros Hb Ha. apply div_ceil_least; [done|]. pose proof (div_ceil_bounds a' b Hb). lia. Qed.
Lemma div_ceil_add a a' b : 0 < b → u128_div_ceil (a + a') b ≤ u128_div_ceil a b + u128_div_ceil a' b.
Proof. intros Hb. apply div_ceil_least; [done|]. pose proof (div_ceil_bounds a b Hb). pose proof (div_ceil_bounds a' b Hb). lia. Qed.
Lemma div_ceil_pos a b : 0 < b → 0 < a → 0 < u128_div_ceil a b.
Proof. intros Hb Ha. pose proof (div_ceil_bounds a b Hb). nia. Qed.

(** ** What a price promises *)

Inductive Dim := Compute | Reads | Writes | Footprint | Retention.
Definition at_dim {A} (d : Dim) (f : Five A) : A :=
  match d with
  | Compute => w_compute f | Reads => w_read f | Writes => w_write f | Footprint => w_footprint f | Retention => w_retention f
  end.
Definition weight_of (table work : Five Z) : Z :=
  w_compute table * w_compute work + w_read table * w_read work + w_write table * w_write work +
  w_footprint table * w_footprint work + w_retention table * w_retention work.
Definition row_sum (table : Five Z) : Z :=
  w_compute table + w_read table + w_write table + w_footprint table + w_retention table.
Definition five_u64 (f : Five Z) : Prop := ∀ d, in_width 64 (at_dim d f).
Definition five_le (f g : Five Z) : Prop := ∀ d, at_dim d f ≤ at_dim d g.

Lemma five_all (P : Dim → Prop) : (∀ d, P d) ↔ P Compute ∧ P Reads ∧ P Writes ∧ P Footprint ∧ P Retention.
Proof. split; [intros H; split_and!; apply H|]. intros (? & ? & ? & ? & ?) []; done. Qed.
(** What every row satisfies, row by row. *)
Ltac by_rows := unfold five_u64, five_le, in_width in *; rewrite ?five_all in *; cbn [at_dim] in *; destruct_and?.

Lemma weighted_exact table work :
  five_u64 table → five_u64 work → row_sum table ≤ 2 ^ 64 → weighted table work = Some (weight_of table work).
Proof.
  intros Ht Hw Hs. assert (Hrow : ∀ d, 0 ≤ at_dim d table * at_dim d work ≤ at_dim d table * (2 ^ 64 - 1)).
  { intros d. specialize (Ht d). specialize (Hw d). unfold in_width in *. split; [apply Z.mul_nonneg_nonneg; lia|apply Z.mul_le_mono_nonneg_l; lia]. }
  rewrite five_all in Hrow. cbn [at_dim] in Hrow. destruct_and! Hrow.
  unfold row_sum, weighted, weight_of, checked_add, width_max in *.
  repeat (rewrite decide_True by lia; cbn [mbind option_bind]). done.
Qed.
Lemma weight_nonneg table work : five_u64 table → five_u64 work → 0 ≤ weight_of table work.
Proof. intros Ht Hw. by_rows. unfold weight_of. nia. Qed.
Lemma weight_mono table work work' : five_u64 table → five_le work work' → weight_of table work ≤ weight_of table work'.
Proof.
  intros Ht Hw. by_rows. unfold weight_of. repeat apply Z.add_le_mono; apply Z.mul_le_mono_nonneg_l; lia.
Qed.
Lemma work_add_le a b d : at_dim d (work_add a b) = saturating_add 64 (at_dim d a) (at_dim d b).
Proof. by destruct d. Qed.
Lemma work_add_u64 a b : five_u64 a → five_u64 b → five_u64 (work_add a b).
Proof.
  intros Ha Hb d. rewrite work_add_le. specialize (Ha d). specialize (Hb d). unfold saturating_add, in_width, width_max in *. lia.
Qed.
Lemma weight_add table a b : five_u64 table → weight_of table (work_add a b) ≤ weight_of table a + weight_of table b.
Proof.
  intros Ht. trans (weight_of table {| w_compute := w_compute a + w_compute b; w_read := w_read a + w_read b;
    w_write := w_write a + w_write b; w_footprint := w_footprint a + w_footprint b; w_retention := w_retention a + w_retention b |}).
  - apply weight_mono; [done|]. intros d. rewrite work_add_le. unfold saturating_add. destruct d; cbn; lia.
  - unfold weight_of. cbn. lia.
Qed.
Lemma work_add_grows a b : five_u64 a → five_u64 b → five_le a (work_add a b).
Proof. intros Ha Hb d. rewrite work_add_le. specialize (Ha d). specialize (Hb d). unfold saturating_add, in_width, width_max in *. lia. Qed.

Section prices.
Context (priority_bp : Z) (Hbp : 0 ≤ priority_bp ≤ width_max 32).

Definition quoted (weight : Z) : Z :=
  u128_div_ceil (saturating_mul 128 weight (BASIS_POINTS + priority_bp)) (WORK_PER_QUANTUM * BASIS_POINTS).
Lemma price_quotes table work : five_u64 table → row_sum table ≤ 2 ^ 64 → five_u64 work → price table work priority_bp = Some (quoted (weight_of table work)).
Proof. intros Ht Hs Hw. unfold price. by rewrite weighted_exact. Qed.
Lemma quoted_mono w w' : w ≤ w' → quoted w ≤ quoted w'.
Proof. intros Hw. apply div_ceil_mono; [done|]. unfold saturating_mul, BASIS_POINTS in *. nia. Qed.
Lemma quoted_add w w' : 0 ≤ w → 0 ≤ w' → quoted (w + w') ≤ quoted w + quoted w'.
Proof.
  intros Hw Hw'. unfold quoted. rewrite <- div_ceil_add by done. apply div_ceil_mono; [done|].
  unfold saturating_mul, BASIS_POINTS in *. set (k := 10000 + priority_bp). assert (0 ≤ w * k) by (apply Z.mul_nonneg_nonneg; lia).
  assert (0 ≤ w' * k) by (apply Z.mul_nonneg_nonneg; lia). rewrite Z.mul_add_distr_r. assert (0 < width_max 128) by done. lia.
Qed.
Lemma quoted_pos w : 0 < w → 0 < quoted w.
Proof. intros Hw. apply div_ceil_pos; [done|]. unfold saturating_mul, BASIS_POINTS in *. assert (0 < width_max 128) by done. nia. Qed.
Lemma quoted_exact w n : 0 ≤ w → w * (BASIS_POINTS + priority_bp) ≤ width_max 128 →
  (quoted w ≤ n ↔ w * (BASIS_POINTS + priority_bp) ≤ n * (WORK_PER_QUANTUM * BASIS_POINTS)).
Proof. intros Hw Hm. unfold quoted. rewrite div_ceil_least by done. unfold saturating_mul. by rewrite Z.min_l. Qed.
End prices.

(** The price of declared work. Under any table of affordable rows every declaration has a price; it is the least
    whole number of quanta that covers the weighted work at its priority, so nothing declared is carried for nothing;
    declaring more never costs less, and declaring the same work in two parts never costs less than declaring it at
    once. *)
Theorem price_fair table priority_bp work more :
  five_u64 table → row_sum table ≤ 2 ^ 64 → 0 ≤ priority_bp ≤ width_max 32 → five_u64 work → five_u64 more →
  ∃ p pm pt, price table work priority_bp = Some p ∧ price table more priority_bp = Some pm ∧
    price table (work_add work more) priority_bp = Some pt ∧
    p ≤ pt ≤ p + pm ∧ (0 < weight_of table work → 0 < p) ∧
    (weight_of table work * (BASIS_POINTS + priority_bp) ≤ width_max 128 →
      ∀ n, p ≤ n ↔ weight_of table work * (BASIS_POINTS + priority_bp) ≤ n * (WORK_PER_QUANTUM * BASIS_POINTS)).
Proof.
  intros Ht Hs Hbp Hw Hm. pose proof (weight_nonneg table work Ht Hw). pose proof (weight_nonneg table more Ht Hm).
  exists (quoted priority_bp (weight_of table work)), (quoted priority_bp (weight_of table more)), (quoted priority_bp (weight_of table (work_add work more))).
  split_and!.
  - by apply price_quotes.
  - by apply price_quotes.
  - apply price_quotes; [done..|by apply work_add_u64].
  - apply quoted_mono; [done|]. apply weight_mono; [done|]. by apply work_add_grows.
  - rewrite <- quoted_add by done. apply quoted_mono; [done|]. by apply weight_add.
  - by apply quoted_pos.
  - intros Hf n. by apply quoted_exact.
Qed.

(** ** Bounds as a band *)

Definition in_u32 (bp : Z) : Prop := 0 ≤ bp ≤ width_max 32.
#[global] Instance in_u32_dec bp : Decision (in_u32 bp).
Proof. unfold in_u32. apply _. Defined.

Lemma scaled_row_exact level bp : in_u32 bp → 0 ≤ level ≤ 1000000 → scaled_row level bp = level * bp / BASIS_POINTS.
Proof.
  intros Hbp Hl. unfold in_u32, width_max in Hbp. assert (0 ≤ level * bp ≤ 1000000 * 2 ^ 32) by nia.
  unfold scaled_row, narrow_u64. apply decide_False, Z.le_ngt, Z.div_le_upper_bound; [done|]. unfold BASIS_POINTS, width_max. lia.
Qed.
Lemma footprint_scaled bp : in_u32 bp → w_footprint (scaled bp) = 100 * bp.
Proof.
  intros Hbp. cbn [scaled w_footprint]. rewrite scaled_row_exact by (done || cbn; lia). change (w_footprint table_GENESIS) with 1000000. unfold BASIS_POINTS.
  replace (1000000 * bp) with (100 * bp * 10000) by lia. by rewrite Z.div_mul.
Qed.
Lemma band_of_scaled bp : in_u32 bp → band_of (scaled bp) = Some bp.
Proof.
  intros Hbp. unfold band_of. rewrite footprint_scaled by done. change PER_BP with 100.
  rewrite Z.mul_comm, Z.mod_mul, decide_True by done. rewrite Z.div_mul, decide_True by (done || apply Hbp). done.
Qed.
Lemma as_band_inv b f c : as_band b = Some (f, c) → b = band f c.
Proof. unfold as_band. intros (x & _ & (y & _ & E)%bind_Some)%bind_Some. case_decide as Hd; [|done]. by injection E as <- <-. Qed.
Lemma scaled_row_mono level bp bp' : 0 ≤ level → bp ≤ bp' → scaled_row level bp ≤ scaled_row level bp'.
Proof.
  intros Hl Hb. unfold scaled_row, narrow_u64. assert (level * bp / BASIS_POINTS ≤ level * bp' / BASIS_POINTS)
    by (apply Z.div_le_mono; [done|]; nia). repeat case_decide; lia.
Qed.
Lemma scaled_row_pos level bp : 1000 ≤ level → 10 ≤ bp → 0 < scaled_row level bp.
Proof.
  intros Hl Hb. unfold scaled_row, narrow_u64. assert (1 ≤ level * bp / BASIS_POINTS) by (apply Z.div_le_lower_bound; unfold BASIS_POINTS; nia).
  case_decide; [done|lia].
Qed.

(** A band states itself back. The bounds a vote opens at two figures of basis points read back as exactly those
    figures and nothing else reads as them, whatever the figures; and the bounds so opened admit a level in every row
    exactly when the floor is at least ten basis points and the ceiling is not below it. *)
Theorem band_roundtrip f c b :
  in_u32 f → in_u32 c →
  (as_band b = Some (f, c) ↔ b = band f c) ∧ (bounds_well_formed (band f c) = true ↔ 10 ≤ f ≤ c).
Proof.
  intros Hf Hc. split; [split; [apply as_band_inv|intros ->]|split].
  - unfold as_band. cbn [band pb_floor pb_ceiling]. rewrite !band_of_scaled by done. cbn [mbind option_bind]. by rewrite decide_True.
  - unfold bounds_well_formed. rewrite !andb_true_iff, !bool_decide_eq_true. cbn [band pb_floor pb_ceiling].
    intros (((((((((H1 & _) & _) & _) & _) & _) & _) & _) & H9) & _). rewrite !footprint_scaled in H9 by done. split; [|lia].
    cbn [scaled w_compute] in H1. rewrite scaled_row_exact in H1 by (done || cbn; lia). change (w_compute table_GENESIS) with 1000 in H1. unfold BASIS_POINTS in H1.
    apply Z.nlt_ge. intros Hlt. rewrite Z.div_small in H1; [lia|]. unfold in_u32 in *. lia.
  - intros [H10 Hle]. unfold bounds_well_formed. cbn [band pb_floor pb_ceiling scaled w_compute w_read w_write w_footprint w_retention].
    rewrite !andb_true_iff, !bool_decide_eq_true. split_and!; (apply scaled_row_pos; [by vm_compute|done]) || (apply scaled_row_mono; [by vm_compute|lia]).
Qed.

(** ** What the controller promises *)

(** A reading the controller's [u128] arithmetic computes on without saturating. *)
Definition readable (prev : Z) (u : Utilization) : Prop :=
  0 ≤ prev ≤ 2 ^ 60 ∧ 0 ≤ u_used u ∧ 0 < u_capacity u ∧ 9 * u_capacity u ≤ width_max 128 ∧ 9 * u_capacity u * prev ≤ width_max 128.

Lemma clamp_between level floor ceiling : floor ≤ ceiling → floor ≤ clamp_row level floor ceiling ≤ ceiling.
Proof. intros Hb. unfold clamp_row. repeat case_decide; lia. Qed.
(** The row stepped exactly: eighths of the reading over the half, rounded away. *)
Lemma stepped_row_exact prev u : readable prev u →
  let over := 7 * u_capacity u + 2 * Z.min (u_used u) (u_capacity u) in
  stepped_row prev u = if decide (u_capacity u ≤ 2 * u_used u) then u128_div_ceil (prev * over) (8 * u_capacity u)
                       else prev * over / (8 * u_capacity u).
Proof.
  intros (Hp & Hu & Hc & H9' & H9) over. unfold stepped_row. rewrite decide_False by lia. cbv zeta.
  replace (if decide (u_capacity u < u_used u) then u_capacity u else u_used u) with (Z.min (u_used u) (u_capacity u)) by (case_decide; lia).
  unfold saturating_mul, saturating_add. set (m := Z.min (u_used u) (u_capacity u)) in *.
  rewrite (Z.min_l (u_capacity u * 7)), (Z.min_l (m * 2)), (Z.min_l (u_capacity u * 7 + m * 2)), (Z.min_l (u_capacity u * 8)) by lia.
  rewrite Z.min_l by nia. replace (prev * (u_capacity u * 7 + m * 2)) with (prev * over) by lia. rewrite (Z.mul_comm (u_capacity u) 8).
  assert (Hm : prev * over ≤ 9 * prev * u_capacity u) by (unfold over; nia).
  rewrite (decide_ext (u_capacity u ≤ m * 2) (u_capacity u ≤ 2 * u_used u)) by lia.
  unfold narrow_u64, width_max in *. destruct (decide (u_capacity u ≤ 2 * u_used u)).
  - apply decide_False, Z.le_ngt. apply div_ceil_least; [lia|]. nia.
  - apply decide_False, Z.le_ngt. apply Z.div_le_upper_bound; [lia|]. nia.
Qed.
Lemma stepped_row_moves prev u : readable prev u →
  (2 * u_used u = u_capacity u → stepped_row prev u = prev) ∧
  (u_capacity u < 2 * u_used u → 0 < prev → prev < stepped_row prev u ∧ 8 * stepped_row prev u < 9 * prev + 8) ∧
  (2 * u_used u < u_capacity u → 0 < prev → stepped_row prev u < prev ∧ 7 * prev < 8 * stepped_row prev u + 8).
Proof.
  intros Hr. rewrite stepped_row_exact by done. destruct Hr as (Hp & Hu & Hc & _). cbv zeta.
  set (over := 7 * u_capacity u + 2 * Z.min (u_used u) (u_capacity u)). split_and!.
  - intros E. rewrite decide_True by lia. replace over with (8 * u_capacity u) by lia. unfold u128_div_ceil.
    rewrite Z.mod_mul, decide_True by lia. apply Z.div_mul. lia.
  - intros Hlt Hpos. rewrite decide_True by lia. pose proof (div_ceil_bounds (prev * over) (8 * u_capacity u)) as Hb.
    assert (8 * u_capacity u < over ≤ 9 * u_capacity u) by lia. nia.
  - intros Hlt Hpos. rewrite decide_False by lia. assert (7 * u_capacity u ≤ over < 8 * u_capacity u) by lia.
    pose proof (Z.div_mod (prev * over) (8 * u_capacity u)) as E. pose proof (Z.mod_pos_bound (prev * over) (8 * u_capacity u)) as Hm. nia.
Qed.
Lemma stepped_at table u b d :
  at_dim d (stepped table u b) = clamp_row (stepped_row (at_dim d table) (at_dim d u)) (at_dim d (pb_floor b)) (at_dim d (pb_ceiling b)).
Proof. by destruct d. Qed.
Lemma well_formed_rows b d : bounds_well_formed b = true → 0 < at_dim d (pb_floor b) ≤ at_dim d (pb_ceiling b).
Proof. unfold bounds_well_formed. rewrite !andb_true_iff, !bool_decide_eq_true. intros. destruct_and!. by destruct d. Qed.

(** C40: the controller stays in its bounds and answers every reading. Whatever table it starts from and whatever the
    network declared, each row lands inside the bounds a vote opened; a row that was inside and is read without
    saturating stands still at the half-full point, rises above it by at least a unit and at most an eighth, rounded up,
    or to its ceiling, and falls below it likewise or to its floor; and a row whose dimension had no capacity is not
    read as idle. *)
Theorem controller_correct table u b d :
  bounds_well_formed b = true →
  let floor := at_dim d (pb_floor b) in let ceiling := at_dim d (pb_ceiling b) in
  let prev := at_dim d table in let next := at_dim d (stepped table u b) in
  let used := u_used (at_dim d u) in let cap := u_capacity (at_dim d u) in
  floor ≤ next ≤ ceiling ∧
  (floor ≤ prev ≤ ceiling →
    (cap = 0 → next = prev) ∧
    (readable prev (at_dim d u) →
      (2 * used = cap → next = prev) ∧
      (cap < 2 * used → prev < next ∧ 8 * next < 9 * prev + 8 ∨ next = ceiling) ∧
      (2 * used < cap → next < prev ∧ 7 * prev < 8 * next + 8 ∨ next = floor))).
Proof.
  intros Hwf. cbv zeta. destruct (well_formed_rows b d Hwf) as [H0 Hfc]. rewrite stepped_at. split; [by apply clamp_between|].
  intros Hin. split.
  - intros E. unfold stepped_row. rewrite decide_True by done. unfold clamp_row. repeat case_decide; lia.
  - intros Hr. destruct (stepped_row_moves _ _ Hr) as (Hs & Hup & Hdown). unfold clamp_row. split_and!; intros Hlt.
    + specialize (Hs Hlt). repeat case_decide; lia.
    + specialize (Hup Hlt). repeat case_decide; lia.
    + specialize (Hdown Hlt). repeat case_decide; lia.
Qed.

(** The floor, not the ceiling, wins a pair that crosses where the level is below it. *)
Lemma crossing_floor_wins level floor ceiling : ceiling < floor → level < floor → clamp_row level floor ceiling = floor.
Proof. intros _ Hl. unfold clamp_row. by rewrite decide_True. Qed.

(** Registered material fits the wire bounds, and nothing is registered at zero. *)
Lemma registered_fits scheme spec key signature :
  scheme_spec scheme = Some spec → admits spec key signature = true →
  scheme ≠ scheme_NONE ∧ (length key ≤ MAX_KEY_BYTES)%nat ∧ (length signature ≤ MAX_SIG_BYTES)%nat ∧
  Z.of_nat (length key + length signature) = signature_bytes scheme.
Proof.
  intros Hs. unfold admits, admits_key. rewrite andb_true_iff, !bool_decide_eq_true. intros [-> ->].
  unfold signature_bytes. rewrite Hs. unfold scheme_spec, REGISTRY in Hs. cbn [spec_in] in Hs.
  repeat case_decide; simplify_eq; split_and!; try done; by apply (bool_decide_unpack _); vm_compute.
Qed.

(** ** Examples *)

Definition sample_work : DeclaredWork := {| w_compute := 250000; w_read := 128; w_write := 64; w_footprint := 3; w_retention := 700 |}.
Lemma price_fair_witness :
  price table_GENESIS sample_work 0 = Some 3 ∧
  ∃ pt, price table_GENESIS (work_add sample_work (work_signature ED25519)) 0 = Some pt ∧ pt ≤ 3 + 2.
Proof.
  split; [vm_compute; reflexivity|].
  destruct (price_fair table_GENESIS 0 sample_work (work_signature ED25519)) as (p & pm & pt & Hp & Hpm & Hpt & Hle & _).
  - intros []; vm_compute; split; congruence.
  - vm_compute. discriminate.
  - vm_compute. split; discriminate.
  - intros []; vm_compute; split; congruence.
  - intros []; vm_compute; split; congruence.
  - exists pt. split; [exact Hpt|]. vm_compute in Hp, Hpm. injection Hp as <-. injection Hpm as <-. lia.
Defined.
Lemma band_roundtrip_witness :
  as_band (band 1250 80000) = Some (1250, 80000) ∧ bounds_well_formed (band 1250 80000) = true.
Proof.
  destruct (band_roundtrip 1250 80000 (band 1250 80000)) as [H1 H2].
  - vm_compute. split; discriminate.
  - vm_compute. split; discriminate.
  - split; [by apply H1|]. apply H2. lia.
Defined.
Lemma controller_correct_witness :
  let busy := {| u_used := 900; u_capacity := 1000 |} in
  let u := {| w_compute := busy; w_read := busy; w_write := busy; w_footprint := busy; w_retention := busy |} in
  w_read (stepped table_GENESIS u (band 1250 80000)) = 11000 ∧ 10000 < w_read (stepped table_GENESIS u (band 1250 80000)).
Proof.
  cbv zeta. split; [vm_compute; reflexivity|].
  match goal with |- context [stepped _ ?u _] => destruct (controller_correct table_GENESIS u (band 1250 80000) Reads) as [_ H] end.
  - vm_compute. reflexivity.
  - cbv zeta in H. destruct H as [_ H]; [vm_compute; split; discriminate|]. destruct H as (_ & H & _).
    + split_and!; (by vm_compute) || (vm_compute; discriminate).
    + destruct H as [[H _]|H]; [by vm_compute|exact H|]. revert H. vm_compute. discriminate.
Defined.
