(* ===== verification/Effects.v ===== *)
(** * Declared accesses ([crates/types/src/effect.rs])

    [EffectSet] keeps, per target, the declared modes and the width of the
    leaves the target reaches. [insert_bounded] is the fold every declaration
    goes through; the theorems give the set built from any list of effects in
    closed form, so that the order in which clauses are folded cannot matter. *)

From S2P Require Import Prelude Types.

(** ** The set *)

Definition MAX_SLOT_WIDTH : Z := 16 * 1024.

Inductive EffectConflict := ReserveOverflow.
#[global] Instance EffectConflict_eq_dec : EqDecision EffectConflict.
Proof. solve_decision. Defined.

Record Declared := { modes : gset Mode; width : Z }.
#[global] Instance Declared_eq_dec : EqDecision Declared.
Proof. solve_decision. Defined.

Abbreviation EffectSet := (gmap EffectTarget Declared).
Definition effects_new : EffectSet := ∅.

(** [modes.iter().find_map(...)]: the reserve the target already carries. *)
Definition reserve_amount (m : Mode) : option Z :=
  match m with MReserve amount => Some amount | _ => None end.
Definition prior_reserve (s : EffectSet) (t : EffectTarget) : option Z :=
  declared ← s !! t; head (omap reserve_amount (set_iter (modes declared))).

Definition insert_bounded (s : EffectSet) (e : Effect) (w : Z) :
    EffectSet * result EffectConflict bool :=
  let folded :=
    match mode e with
    | MReserve amount =>
        match prior_reserve s (target e) with
        | Some prior =>
            total ← ok_or (checked_add 128 prior amount) ReserveOverflow;
            Ok (Some (prior, total))
        | None => Ok None
        end
    | _ => Ok None
    end in
  match folded with
  | Err err => (s, Err err)
  | Ok folded =>
      let declared := default {| modes := ∅; width := MAX_SLOT_WIDTH |} (s !! target e) in
      let narrowed := bool_decide (w < width declared) in
      let w' := Z.min (width declared) w in
      match folded with
      | Some (prior, total) =>
          let ms := {[MReserve total]} ∪ (modes declared ∖ {[MReserve prior]}) in
          (<[target e := {| modes := ms; width := w' |}]> s, Ok true)
      | None =>
          let ms := {[mode e]} ∪ modes declared in
          (<[target e := {| modes := ms; width := w' |}]> s,
           Ok (bool_decide (mode e ∉ modes declared) || narrowed))
      end
  end.

Definition width_of (s : EffectSet) (t : EffectTarget) : Z :=
  match s !! t with Some declared => width declared | None => MAX_SLOT_WIDTH end.

Definition insert_from (s : EffectSet) (e : Effect) (source : EffectSet) :
    EffectSet * result EffectConflict bool :=
  insert_bounded s e (width_of source (target e)).

Definition insert_at_cap (s : EffectSet) (e : Effect) : EffectSet * result EffectConflict bool :=
  insert_bounded s e MAX_SLOT_WIDTH.

(** ** Pricing *)

Definition ENTRY_LEAF_BYTES : Z := 35.
Definition WRITE_LEAF_BYTES : Z := 2048.

Definition leaves_read (t : EffectTarget) : Z :=
  match t with
  | Point _ | Entry _ _ _ => 1
  | Range _ _ _ _ cap => saturating_add 64 cap 1
  end.
Definition leaves_written (t : EffectTarget) : Z :=
  match t with Point _ | Entry _ _ _ => 1 | Range _ _ _ _ cap => cap end.
Definition entry_leaf_bytes (w : Z) : Z := saturating_add 64 ENTRY_LEAF_BYTES w.
Definition leaf_bytes (t : EffectTarget) (w : Z) : Z :=
  match t with Point _ => w | Entry _ _ _ | Range _ _ _ _ _ => entry_leaf_bytes w end.
Definition target_read_bytes (t : EffectTarget) (w : Z) : Z :=
  saturating_mul 64 (leaves_read t) (leaf_bytes t w).
Definition written_leaf (leaf : Z) : Z := saturating_add 64 WRITE_LEAF_BYTES leaf.
Definition mode_write_bytes (t : EffectTarget) (m : Mode) (w : Z) : Z :=
  match m with
  | MRead => 0
  | MDelta _ | MReserve _ | MWrite _ =>
      saturating_mul 64 (leaves_written t) (written_leaf (leaf_bytes t w))
  end.
Definition mode_retained_bytes (t : EffectTarget) (m : Mode) (w : Z) : Z :=
  match m with
  | MRead => 0
  | MDelta _ | MReserve _ | MWrite _ => saturating_mul 64 (leaves_written t) (leaf_bytes t w)
  end.

(** [Iterator::max] over the modes, or zero. *)
Definition max_over (f : Mode → Z) (ms : gset Mode) : Z :=
  foldl (λ acc m, Z.max acc (f m)) 0 (set_iter ms).

Definition read_bytes (s : EffectSet) : Z :=
  foldl (λ total p, saturating_add 64 total (target_read_bytes p.1 (width p.2))) 0 (map_iter s).

Definition write_bytes_of (s : EffectSet) (t : EffectTarget) : Z :=
  match s !! t with
  | Some declared => max_over (λ m, mode_write_bytes t m (width declared)) (modes declared)
  | None => 0
  end.
Definition write_bytes (s : EffectSet) : Z :=
  foldl (λ total p, saturating_add 64 total (write_bytes_of s p.1)) 0 (map_iter s).

Definition retained_bytes_of (s : EffectSet) (t : EffectTarget) : Z :=
  match s !! t with
  | Some declared => max_over (λ m, mode_retained_bytes t m (width declared)) (modes declared)
  | None => 0
  end.
Definition retained_bytes (s : EffectSet) : Z :=
  foldl (λ total p, saturating_add 64 total (retained_bytes_of s p.1)) 0 (map_iter s).

(** ** Views *)

Definition effects_iter (s : EffectSet) : list Effect :=
  map_iter s ≫= λ p, (λ m, {| target := p.1; mode := m |}) <$> set_iter (modes p.2).
Definition effects_targets (s : EffectSet) : list EffectTarget := (map_iter s).*1.
Definition effects_len (s : EffectSet) : nat :=
  foldl (λ n p, n + size (modes p.2))%nat 0%nat (map_iter s).
Definition provision_targets (s : EffectSet) : gset EffectTarget :=
  list_to_set (omap (λ p : EffectTarget * Declared,
    if existsb (λ m, match kind m with KRead | KWrite => true | _ => false end) (set_iter (modes p.2))
    then Some p.1 else None) (map_iter s)).
Definition effects_contains (s : EffectSet) (e : Effect) : bool :=
  match s !! target e with Some declared => bool_decide (mode e ∈ modes declared) | None => false end.

Definition claims (declared : Declared) (class : ConflictClass) : bool :=
  existsb (λ m, bool_decide (conflict_class (kind m) = class)) (set_iter (modes declared)).
Definition self_conflict_at (p : EffectTarget * Declared) : option SubstateKey :=
  match p.1 with
  | Point key => if claims p.2 CWrite && claims p.2 CMovement then Some key else None
  | _ => None
  end.
Definition self_conflicting (s : EffectSet) : option SubstateKey :=
  head (omap self_conflict_at (map_iter s)).

(** ** The reserve a mode set carries *)

(** At most one reserve per target: what the fold keeps true. *)
Definition one_reserve (ms : gset Mode) : Prop :=
  ∀ a b, MReserve a ∈ ms → MReserve b ∈ ms → a = b.

Lemma head_omap_Some {A B} (f : A → option B) l b :
  head (omap f l) = Some b → ∃ a, a ∈ l ∧ f a = Some b.
Proof.
  induction l as [|x l IH]; simpl; [done|]. destruct (f x) as [y|] eqn:E; simpl.
  - intros [= ->]. exists x. split; [constructor|done].
  - intros (a & Ha & Hf)%IH. exists a. split; [by constructor|done].
Qed.

Lemma head_omap_None {A B} (f : A → option B) l :
  head (omap f l) = None → ∀ a, a ∈ l → f a = None.
Proof.
  induction l as [|x l IH]; simpl; [by intros _ a ?%elem_of_nil|].
  destruct (f x) as [y|] eqn:E; [done|]. intros H a [->|Ha]%elem_of_cons; auto.
Qed.

Lemma reserve_of_Some ms a :
  one_reserve ms → MReserve a ∈ ms → head (omap reserve_amount (set_iter ms)) = Some a.
Proof.
  intros H1 Ha. destruct (head _) as [b|] eqn:E.
  - apply head_omap_Some in E as (m & Hm%elem_of_set_iter & Hf). destruct m; try done.
    injection Hf as ->. by rewrite (H1 _ _ Ha Hm).
  - by apply elem_of_set_iter, (head_omap_None _ _ E) in Ha.
Qed.

Lemma reserve_of_None ms :
  (∀ a, MReserve a ∉ ms) → head (omap reserve_amount (set_iter ms)) = None.
Proof.
  intros H. destruct (head _) as [b|] eqn:E; [|done].
  apply head_omap_Some in E as (m & Hm%elem_of_set_iter & Hf). destruct m; naive_solver.
Qed.

(** ** The closed form of a fold

    [insert_all] folds a list of clauses, each an effect at a width, the way a
    declaration is built. Its closed form reads the clauses on a target all at
    once: the other modes as a set, the reserves summed, the narrowest width. *)

Abbreviation clause := (Effect * Z)%type.

Definition insert_all (l : list clause) : result EffectConflict EffectSet :=
  foldl (λ acc c, s ← acc; match insert_bounded s c.1 c.2 with
                           | (s', Ok _) => Ok s'
                           | (_, Err err) => Err err
                           end) (Ok effects_new) l.

Definition clauses_on (t : EffectTarget) (l : list clause) : list clause :=
  filter (λ c, target c.1 = t) l.
Definition reserves (cs : list clause) : list Z := omap (λ c, reserve_amount (mode c.1)) cs.
Definition sum_Z (l : list Z) : Z := foldr Z.add 0 l.
Definition plain_modes (cs : list clause) : list Mode :=
  omap (λ c, match mode c.1 with MReserve _ => None | m => Some m end) cs.

Definition fold_modes (cs : list clause) : gset Mode :=
  list_to_set (plain_modes cs) ∪
  (if decide (reserves cs = []) then ∅ else {[MReserve (sum_Z (reserves cs))]}).
Definition fold_width (cs : list clause) : Z := foldr Z.min MAX_SLOT_WIDTH cs.*2.
Definition fold_declared (cs : list clause) : option Declared :=
  if decide (cs = []) then None
  else Some {| modes := fold_modes cs; width := fold_width cs |}.

(** Reserve amounts are [u128]s. *)
Definition clause_ok (c : clause) : Prop :=
  match mode c.1 with MReserve a => in_width 128 a | _ => True end.

#[global] Instance clause_ok_dec c : Decision (clause_ok c).
Proof. unfold clause_ok. destruct (mode c.1); apply _. Defined.

Definition folds (s : EffectSet) (l : list clause) : Prop :=
  ∀ t, s !! t = fold_declared (clauses_on t l).

Lemma sum_Z_cons x l : sum_Z (x :: l) = x + sum_Z l.
Proof. done. Qed.

Lemma sum_Z_app a b : sum_Z (a ++ b) = sum_Z a + sum_Z b.
Proof. induction a; simpl; lia. Qed.

Lemma sum_Z_perm a b : a ≡ₚ b → sum_Z a = sum_Z b.
Proof. induction 1; simpl; lia. Qed.

Lemma reserves_app a b : reserves (a ++ b) = reserves a ++ reserves b.
Proof. apply omap_app. Qed.

Lemma fold_modes_reserve cs a :
  MReserve a ∈ fold_modes cs ↔ reserves cs ≠ [] ∧ a = sum_Z (reserves cs).
Proof.
  unfold fold_modes. rewrite elem_of_union, elem_of_list_to_set.
  assert (MReserve a ∈ plain_modes cs ↔ False) as ->.
  { split; [|done]. intros (c & _ & Hc)%list_elem_of_omap. by destruct (mode c.1). }
  case_decide; set_solver.
Qed.

Lemma fold_modes_plain cs m :
  reserve_amount m = None → m ∈ fold_modes cs ↔ m ∈ plain_modes cs.
Proof.
  intros Hm. unfold fold_modes. rewrite elem_of_union, elem_of_list_to_set.
  case_decide; [set_solver|]. rewrite elem_of_singleton. destruct m; naive_solver.
Qed.

Lemma fold_modes_one_reserve cs : one_reserve (fold_modes cs).
Proof. intros a b [_ ->]%fold_modes_reserve [_ ->]%fold_modes_reserve. done. Qed.

Lemma prior_reserve_fold s l t :
  folds s l →
  prior_reserve s t =
    let rs := reserves (clauses_on t l) in if decide (rs = []) then None else Some (sum_Z rs).
Proof.
  intros Hs. unfold prior_reserve. rewrite Hs. unfold fold_declared.
  case_decide as Hc; [by rewrite Hc|]. cbn -[reserve_amount set_iter omap head].
  case_decide as Hr.
  - apply reserve_of_None. intros a. rewrite fold_modes_reserve. naive_solver.
  - apply reserve_of_Some; [apply fold_modes_one_reserve|]. by apply fold_modes_reserve.
Qed.

Lemma fold_width_app cs c : fold_width (cs ++ [c]) = Z.min (fold_width cs) c.2.
Proof.
  unfold fold_width. rewrite fmap_app. cbn [fmap list_fmap].
  induction (cs.*2) as [|x xs IH]; simpl in *; [lia|]. rewrite IH. lia.
Qed.

Lemma clauses_on_app t l c :
  clauses_on t (l ++ [c]) =
    if decide (target c.1 = t) then clauses_on t l ++ [c] else clauses_on t l.
Proof.
  unfold clauses_on. rewrite filter_app. cbn. case_decide; [done|]. by rewrite app_nil_r.
Qed.

Lemma fold_declared_app cs c :
  fold_declared (cs ++ [c])
    = Some {| modes := fold_modes (cs ++ [c]); width := fold_width (cs ++ [c]) |}.
Proof. unfold fold_declared. rewrite decide_False; [done|]. by destruct cs. Qed.

Lemma default_fold cs :
  default {| modes := ∅; width := MAX_SLOT_WIDTH |} (fold_declared cs)
    = {| modes := fold_modes cs; width := fold_width cs |}.
Proof. unfold fold_declared. case_decide as H; [by subst|done]. Qed.

Lemma fold_modes_add_plain cs c :
  reserve_amount (mode c.1) = None → fold_modes (cs ++ [c]) = {[mode c.1]} ∪ fold_modes cs.
Proof.
  intros Hm. unfold fold_modes. rewrite reserves_app. unfold reserves at 2 4. cbn. rewrite Hm, app_nil_r.
  unfold plain_modes. rewrite omap_app, list_to_set_app_L. cbn.
  destruct (mode c.1); [set_solver..|done|set_solver].
Qed.

Lemma fold_modes_add_reserve cs c a :
  mode c.1 = MReserve a →
  fold_modes (cs ++ [c]) =
    {[MReserve (sum_Z (reserves cs) + a)]} ∪ (fold_modes cs ∖ {[MReserve (sum_Z (reserves cs))]}).
Proof.
  intros Hm. unfold fold_modes. rewrite reserves_app. unfold reserves at 2 4. cbn. rewrite Hm. cbn.
  unfold plain_modes. rewrite omap_app, list_to_set_app_L. cbn. rewrite Hm. cbn.
  rewrite decide_False by (by destruct (reserves cs)).
  rewrite sum_Z_app. cbn. rewrite Z.add_0_r.
  set (p := list_to_set _ : gset Mode).
  assert (∀ x, MReserve x ∉ p).
  { intros x. subst p. rewrite elem_of_list_to_set.
    intros (d & _ & Hd)%list_elem_of_omap. by destruct (mode d.1). }
  case_decide; set_solver.
Qed.

(** What one clause may add: nothing past [u128::MAX] on its target. *)
Definition reserve_fits (l : list clause) (c : clause) : Prop :=
  match mode c.1 with
  | MReserve a =>
      let rs := reserves (clauses_on (target c.1) l) in rs = [] ∨ sum_Z rs + a ≤ u128_max
  | _ => True
  end.
#[global] Instance reserve_fits_dec l c : Decision (reserve_fits l c).
Proof. unfold reserve_fits. destruct (mode c.1); apply _. Defined.

Lemma folds_insert s l c d :
  folds s l → fold_declared (clauses_on (target c.1) l ++ [c]) = Some d →
  folds (<[target c.1 := d]> s) (l ++ [c]).
Proof.
  intros Hs Hd t. rewrite clauses_on_app. destruct (decide (target c.1 = t)) as [<-|Ht].
  - by rewrite Hd, lookup_insert_eq.
  - rewrite lookup_insert_ne by done. apply Hs.
Qed.

Lemma insert_bounded_folds s l c :
  folds s l →
  match insert_bounded s c.1 c.2 with
  | (s', Ok _) => reserve_fits l c ∧ folds s' (l ++ [c])
  | (s', Err err) => ¬ reserve_fits l c ∧ s' = s ∧ err = ReserveOverflow
  end.
Proof.
  intros Hs. unfold insert_bounded, reserve_fits.
  rewrite (prior_reserve_fold s l (target c.1) Hs), (Hs (target c.1)), default_fold.
  set (cs := clauses_on (target c.1) l).
  destruct (mode c.1) as [|m|a|m] eqn:Hm; cbn [modes width].
  1,2,4: split; [done|]; apply folds_insert; [done|];
    rewrite fold_declared_app, fold_width_app, (fold_modes_add_plain _ c) by (by rewrite Hm);
    by rewrite Hm.
  cbv zeta. destruct (decide (reserves cs = [])) as [Hr|Hr]; cbn [modes width].
  - split; [by left|]. apply folds_insert; [done|].
    rewrite fold_declared_app, fold_width_app, (fold_modes_add_reserve _ c a) by done. fold cs.
    assert (fold_modes cs ∖ {[MReserve (sum_Z (reserves cs))]} = fold_modes cs) as ->;
      [|by rewrite Hr].
    apply difference_disjoint_L, disjoint_singleton_r. rewrite fold_modes_reserve. naive_solver.
  - unfold checked_add. destruct (decide (sum_Z (reserves cs) + a ≤ u128_max)) as [Hle|Hle];
      cbn -[width_max difference union].
    + split; [by right|]. apply folds_insert; [done|].
      by rewrite fold_declared_app, fold_width_app, (fold_modes_add_reserve _ c a) by done.
    + split; [intros [?|?]; [done|lia]|done].
Qed.

(** The reserve totals every target must respect. *)
Definition totals_fit (l : list clause) : Prop :=
  ∀ t, sum_Z (reserves (clauses_on t l)) ≤ u128_max.

Lemma sum_reserves_nonneg l : Forall clause_ok l → 0 ≤ sum_Z (reserves l).
Proof.
  induction 1 as [|c l Hc _ IH]; [done|].
  assert (reserves (c :: l) = option_list (reserve_amount (mode c.1)) ++ reserves l) as ->.
  { unfold reserves. cbn. by destruct (reserve_amount _). }
  rewrite sum_Z_app. unfold clause_ok in Hc. destruct (mode c.1); cbn; [lia..| |lia].
  destruct Hc. lia.
Qed.

Lemma clauses_on_ok t l : Forall clause_ok l → Forall clause_ok (clauses_on t l).
Proof. intros H. apply Forall_forall. intros c [_ Hc]%list_elem_of_filter.
  by apply (proj1 (Forall_forall _ _) H). Qed.

Lemma totals_fit_app l c :
  Forall clause_ok (l ++ [c]) → totals_fit (l ++ [c]) ↔ totals_fit l ∧ reserve_fits l c.
Proof.
  intros [Hl Hc]%Forall_app. apply Forall_cons_1 in Hc as [Hc _].
  assert (Hsum : ∀ t, sum_Z (reserves (clauses_on t (l ++ [c])))
    = sum_Z (reserves (clauses_on t l)) +
      (if decide (target c.1 = t) then default 0 (reserve_amount (mode c.1)) else 0)).
  { intros t. rewrite clauses_on_app. case_decide; [|lia]. rewrite reserves_app, sum_Z_app.
    unfold reserves at 2. cbn. destruct (mode c.1); cbn; lia. }
  assert (0 ≤ default 0 (reserve_amount (mode c.1)) ≤ u128_max).
  { unfold clause_ok in Hc. destruct (mode c.1); cbn [reserve_amount from_option id];
    unfold in_width, width_max in *; lia. }
  unfold totals_fit, reserve_fits. split.
  - intros H'. split.
    + intros t. specialize (H' t). rewrite Hsum in H'. case_decide; lia.
    + specialize (H' (target c.1)). rewrite Hsum, decide_True in H' by done.
      destruct (mode c.1); try done. right. cbn in *. lia.
  - intros [H1 H2] t. rewrite Hsum. specialize (H1 t). case_decide; [|lia]. subst t.
    destruct (mode c.1) as [| |a|]; cbn in *; [lia..| |lia].
    destruct H2 as [->|?]; cbn; lia.
Qed.

Lemma folds_unique s s' l : folds s l → folds s' l → s = s'.
Proof. intros H1 H2. apply map_eq. intros t. by rewrite H1, H2. Qed.

Lemma insert_all_app l c :
  insert_all (l ++ [c]) =
    s ← insert_all l; match insert_bounded s c.1 c.2 with
                      | (s', Ok _) => Ok s' | (_, Err err) => Err err end.
Proof. unfold insert_all. by rewrite foldl_app. Qed.

Lemma insert_all_folds l :
  Forall clause_ok l →
  match insert_all l with
  | Ok s => totals_fit l ∧ folds s l
  | Err err => err = ReserveOverflow ∧ ¬ totals_fit l
  end.
Proof.
  induction l as [|c l IH] using rev_ind; intros Hok.
  { split; [by intros t; vm_compute|]. intros t. done. }
  rewrite insert_all_app. specialize (IH (proj1 (proj1 (Forall_app _ _ _) Hok))).
  pose proof (totals_fit_app _ _ Hok) as Ht.
  destruct (insert_all l) as [s|err]; cbn; [|naive_solver].
  destruct IH as [Hfit Hs]. pose proof (insert_bounded_folds s l c Hs) as Hi.
  destruct (insert_bounded s c.1 c.2) as [s' [b|err]]; tauto.
Qed.

(** The set a list of clauses folds to, in closed form. The fold fails
    exactly when some target's declared reserves sum past [u128::MAX];
    otherwise every target carries its plain modes once each, one reserve of
    the summed amount, and the narrowest stated width. *)
Theorem insert_all_correct l :
  Forall clause_ok l →
  match insert_all l with
  | Ok s => totals_fit l ∧ ∀ t, s !! t = fold_declared (clauses_on t l)
  | Err err => err = ReserveOverflow ∧ ¬ totals_fit l
  end.
Proof. apply insert_all_folds. Qed.

#[global] Instance reserves_Proper : Proper ((≡ₚ) ==> (≡ₚ)) reserves.
Proof. intros a b H. unfold reserves. by rewrite H. Qed.
#[global] Instance clauses_on_Proper t : Proper ((≡ₚ) ==> (≡ₚ)) (clauses_on t).
Proof. intros a b H. unfold clauses_on. by rewrite H. Qed.

Lemma fold_width_perm a b : a ≡ₚ b → fold_width a = fold_width b.
Proof. unfold fold_width. induction 1; cbn [fmap list_fmap foldr]; lia. Qed.

Lemma fold_declared_perm a b : a ≡ₚ b → fold_declared a = fold_declared b.
Proof.
  intros H. unfold fold_declared, fold_modes.
  assert (a = [] ↔ b = []) as Hn
    by (split; intros ->; [apply Permutation_nil|symmetry in H; apply Permutation_nil]; done).
  destruct (decide (a = [])) as [Ha|Ha], (decide (b = [])) as [Hb|Hb]; [done|tauto..|].
  pose proof (reserves_Proper _ _ H) as Hr.
  assert (reserves a = [] ↔ reserves b = []) as Hrn.
  { split; intros E; rewrite E in Hr; [by apply Permutation_nil|].
    symmetry in Hr. by apply Permutation_nil. }
  assert (list_to_set (plain_modes a) = (list_to_set (plain_modes b) : gset Mode)) as Hp.
  { apply list_to_set_perm_L. unfold plain_modes. by rewrite H. }
  rewrite Hp, (fold_width_perm _ _ H), (sum_Z_perm _ _ Hr). do 3 f_equal.
  destruct (decide (reserves a = [])), (decide (reserves b = [])); tauto.
Qed.

(** Folding clauses is order independent: any permutation of the clauses
    of a declaration builds the same set, or fails the same way. *)
Theorem insert_all_perm l l' :
  Forall clause_ok l → l ≡ₚ l' → insert_all l = insert_all l'.
Proof.
  intros Hok Hp. assert (Hok' : Forall clause_ok l') by (by rewrite <- Hp).
  pose proof (insert_all_folds l Hok) as H1. pose proof (insert_all_folds l' Hok') as H2.
  assert (totals_fit l ↔ totals_fit l') as Ht.
  { unfold totals_fit. apply forall_proper. intros t.
    rewrite (sum_Z_perm (reserves (clauses_on t l)) (reserves (clauses_on t l'))); [done|by rewrite Hp]. }
  destruct (insert_all l) as [s|e], (insert_all l') as [s'|e']; [|naive_solver..].
  f_equal. apply map_eq. intros t. destruct H1 as [_ H1], H2 as [_ H2].
  rewrite H1, H2. apply fold_declared_perm. by rewrite Hp.
Qed.

(** What [insert_bounded] answers. A refusal leaves the set alone; [false]
    means the set did not move; and [true] means it did, except for a reserve
    of zero beside a standing reserve, which is folded without a change. *)
Theorem insert_bounded_moved s e w :
  match insert_bounded s e w with
  | (s', Ok moved) =>
      moved = true ↔ s' ≠ s ∨ (mode e = MReserve 0 ∧ is_Some (prior_reserve s (target e)))
  | (s', Err _) => s' = s ∧ ∃ a prior,
      mode e = MReserve a ∧ prior_reserve s (target e) = Some prior ∧ u128_max < prior + a
  end.
Proof.
  unfold insert_bounded. set (d := default _ (s !! target e)).
  assert (Hplain : ∀ m, (bool_decide (m ∉ modes d) || bool_decide (w < width d)) = true ↔
    <[target e := {| modes := {[m]} ∪ modes d; width := Z.min (width d) w |}]> s ≠ s).
  { intros m. rewrite orb_true_iff, !bool_decide_eq_true. split.
    - intros Hm Heq. apply (f_equal (lookup (target e))) in Heq. rewrite lookup_insert_eq in Heq.
      subst d. rewrite <- Heq in Hm. cbn in Hm. destruct Hm as [Hm|Hm]; [set_solver|lia].
    - intros Hne. destruct (decide (m ∈ modes d)) as [Hm|Hm]; [|by left]. right.
      destruct (decide (w < width d)); [done|]. destruct Hne. apply insert_id. subst d.
      destruct (s !! target e) as [[ms w']|]; cbn in *; [|set_solver]. do 2 f_equal; [set_solver|lia]. }
  destruct (mode e) as [|m|a|m] eqn:Hm; [rewrite Hplain; naive_solver..| |rewrite Hplain; naive_solver].
  destruct (prior_reserve s (target e)) as [prior|] eqn:Hp.
  2: { rewrite Hplain. split; [by left|]. intros [?|[_ [? ?]]]; done. }
  unfold checked_add. destruct (decide (prior + a ≤ u128_max)) as [Hle|Hgt]; cbn -[width_max].
  2: { split; [done|]. exists a, prior. split_and!; [done..|lia]. }
  split; [|done]. intros _. destruct (decide (a = 0)) as [->|Ha]; [right; by split|left].
  intros Heq. apply (f_equal (lookup (target e))) in Heq. rewrite lookup_insert_eq in Heq.
  unfold prior_reserve in Hp. rewrite <- Heq in Hp. cbn -[set_iter omap head union difference] in Hp.
  apply head_omap_Some in Hp as (m & Hin%elem_of_set_iter & Hr).
  destruct m; [done..| |done]. injection Hr as ->. cbn in Hin.
  apply elem_of_union in Hin as [Hin|Hin]; [|set_solver].
  apply elem_of_singleton in Hin as [= ?]. lia.
Qed.

(** ** Pricing a set *)

(** A declared set as routing builds it: widths and caps are unsigned. *)
Definition effects_ok (s : EffectSet) : Prop :=
  map_Forall (λ t d, 0 ≤ width d ∧ match t with Range _ _ _ _ cap => 0 ≤ cap | _ => True end) s.

#[global] Instance effects_ok_dec s : Decision (effects_ok s).
Proof.
  unfold effects_ok. apply map_Forall_dec. intros t d.
  apply and_dec; [apply _|]. destruct t; apply _.
Defined.

Lemma saturating_fold {A} (f : A → Z) l acc :
  Forall (λ x, 0 ≤ f x) l → 0 ≤ acc →
  foldl (λ total x, saturating_add 64 total (f x)) (Z.min acc u64_max) l
    = Z.min (acc + sum_Z (f <$> l)) u64_max.
Proof.
  intros Hl. revert acc. induction Hl as [|x l Hx Hl IH]; intros acc Hacc; cbn [foldl].
  { cbn. f_equal. lia. }
  assert (saturating_add 64 (Z.min acc u64_max) (f x) = Z.min (acc + f x) u64_max) as ->.
  { unfold saturating_add, width_max. lia. }
  rewrite IH, fmap_cons, sum_Z_cons by lia. f_equal. lia.
Qed.

Lemma max_over_const f c ms :
  0 ≤ c → (∀ m, f m = if decide (m = MRead) then 0 else c) →
  max_over f ms = if decide (set_Exists (.≠ MRead) ms) then c else 0.
Proof.
  intros Hc Hf. unfold max_over.
  assert (H : ∀ l acc, acc = 0 ∨ acc = c →
    foldl (λ acc m, Z.max acc (f m)) acc l = if decide (Exists (.≠ MRead) l) then c else acc).
  { induction l as [|m l IH]; intros acc Hacc; cbn.
    - rewrite decide_False; [done|]. by intros ?%Exists_nil.
    - rewrite IH by (rewrite Hf; destruct (decide (m = MRead)); lia). rewrite Hf.
      destruct (decide (Exists _ l)) as [Hl|Hl], (decide (Exists _ (m :: l))) as [Hm|Hm].
      + done.
      + destruct Hm. by apply Exists_cons_tl.
      + apply Exists_cons in Hm as [Hm|?]; [|done]. rewrite decide_False by done. lia.
      + rewrite decide_True; [lia|]. apply dec_stable. intros ?. destruct Hm. by constructor. }
  rewrite H by lia. apply decide_ext. rewrite Exists_exists. unfold set_Exists.
  split; intros (m & Hm & ?); exists m; (split; [|done]); by apply elem_of_set_iter.
Qed.

Lemma sat_nonneg t w :
  0 ≤ w → match t with Range _ _ _ _ cap => 0 ≤ cap | _ => True end →
  0 ≤ mode_retained_bytes t (MWrite Both) w ≤ mode_write_bytes t (MWrite Both) w.
Proof.
  intros Hw Ht. unfold mode_retained_bytes, mode_write_bytes, written_leaf, saturating_mul.
  assert (0 ≤ leaves_written t) by (by destruct t).
  assert (Hb : 0 ≤ leaf_bytes t w).
  { destruct t; unfold leaf_bytes, entry_leaf_bytes, saturating_add, ENTRY_LEAF_BYTES, width_max; lia. }
  unfold WRITE_LEAF_BYTES, saturating_add, width_max. split; [nia|].
  destruct (decide (2048 + leaf_bytes t w ≤ 2 ^ 64 - 1)); [nia|].
  rewrite (Z.min_r (2048 + _)) by lia. destruct (decide (leaves_written t = 0)) as [->|]; [lia|]. nia.
Qed.

Lemma write_bytes_of_declared s t d :
  effects_ok s → s !! t = Some d →
  write_bytes_of s t = (if decide (set_Exists (.≠ MRead) (modes d))
                        then mode_write_bytes t (MWrite Both) (width d) else 0) ∧
  retained_bytes_of s t = (if decide (set_Exists (.≠ MRead) (modes d))
                           then mode_retained_bytes t (MWrite Both) (width d) else 0).
Proof.
  intros Hs Hd. destruct (Hs t d Hd) as [Hw Ht]. pose proof (sat_nonneg t (width d) Hw Ht).
  unfold write_bytes_of, retained_bytes_of. rewrite Hd.
  split; apply max_over_const; try lia; by intros [].
Qed.

Lemma retained_le_write_of s t : effects_ok s → 0 ≤ retained_bytes_of s t ≤ write_bytes_of s t.
Proof.
  intros Hs. destruct (s !! t) as [d|] eqn:Hd.
  - destruct (write_bytes_of_declared s t d Hs Hd) as [-> ->]. destruct (Hs t d Hd) as [Hw Ht].
    pose proof (sat_nonneg t (width d) Hw Ht). case_decide; lia.
  - unfold write_bytes_of, retained_bytes_of. by rewrite Hd.
Qed.

(** The write dimension prices a leaf once, however many modes are declared
    on it: the whole-set figure is the saturated sum, over the targets with a
    mode other than a read, of one write of the leaves the target reaches, and
    what the set retains never exceeds what it writes. *)
Theorem write_bytes_priced_once s :
  effects_ok s →
  write_bytes s = Z.min (sum_Z ((λ p : EffectTarget * Declared,
    if decide (set_Exists (.≠ MRead) (modes p.2))
    then mode_write_bytes p.1 (MWrite Both) (width p.2) else 0) <$> map_iter s)) u64_max ∧
  retained_bytes s ≤ write_bytes s.
Proof.
  intros Hs.
  assert (Hw : write_bytes s = Z.min (sum_Z ((λ p, write_bytes_of s p.1) <$> map_iter s)) u64_max).
  { unfold write_bytes.
    pose proof (saturating_fold (λ p, write_bytes_of s p.1) (map_iter s) 0) as H. apply H; [|lia].
    apply Forall_forall. intros p _. pose proof (retained_le_write_of s p.1 Hs). lia. }
  assert (Hr : retained_bytes s = Z.min (sum_Z ((λ p, retained_bytes_of s p.1) <$> map_iter s)) u64_max).
  { unfold retained_bytes.
    pose proof (saturating_fold (λ p, retained_bytes_of s p.1) (map_iter s) 0) as H. apply H; [|lia].
    apply Forall_forall. intros p _. pose proof (retained_le_write_of s p.1 Hs). lia. }
  rewrite Hw, Hr. split.
  - do 2 f_equal. apply list_fmap_ext. intros i [t d] Hi.
    apply list_elem_of_lookup_2, elem_of_map_iter in Hi.
    cbn [fst snd]. by destruct (write_bytes_of_declared s t d Hs Hi) as [-> _].
  - apply Z.min_le_compat_r. clear Hw Hr. induction (map_iter s) as [|p l IH]; [done|].
    rewrite !fmap_cons, !sum_Z_cons.
    pose proof (retained_le_write_of s p.1 Hs). lia.
Qed.

Lemma claims_spec d c : claims d c = true ↔ ∃ m, m ∈ modes d ∧ conflict_class (kind m) = c.
Proof.
  unfold claims. rewrite existsb_exists. split; intros (m & Hm & Hc); exists m.
  - apply bool_decide_eq_true in Hc. split; [|done]. by apply elem_of_set_iter, list_elem_of_In.
  - split; [|by apply bool_decide_eq_true]. by apply list_elem_of_In, elem_of_set_iter.
Qed.

(** [self_conflicting] decides whether some cell is claimed both
    exclusively and commutatively, and names such a cell. *)
Theorem self_conflicting_correct s :
  let torn key := ∃ d m m', s !! Point key = Some d ∧ m ∈ modes d ∧ m' ∈ modes d ∧
    kind m = KWrite ∧ (kind m' = KDelta ∨ kind m' = KReserve) in
  match self_conflicting s with
  | Some key => torn key
  | None => ∀ key, ¬ torn key
  end.
Proof.
  cbv zeta. unfold self_conflicting. destruct (head _) as [key|] eqn:E.
  - apply head_omap_Some in E as ([t d] & Hp%elem_of_map_iter & Hc). unfold self_conflict_at in Hc.
    destruct t as [k| |]; [|done..]. cbn [fst snd] in Hc.
    destruct (claims d CWrite) eqn:Hw; [|done]. destruct (claims d CMovement) eqn:Hm; [|done].
    injection Hc as ->. apply claims_spec in Hw as (m & Hm1 & Hk), Hm as (m' & Hm2 & Hk').
    exists d, m, m'. split_and!; [done..| |].
    + by destruct (kind m).
    + destruct (kind m'); naive_solver.
  - intros key (d & m & m' & Hd & Hm & Hm' & Hk & Hk').
    apply elem_of_map_iter in Hd. apply (head_omap_None _ _ E) in Hd.
    unfold self_conflict_at in Hd. cbn [fst snd] in Hd.
    rewrite (proj2 (claims_spec d CWrite)), (proj2 (claims_spec d CMovement)) in Hd; [done| |].
    + exists m'. split; [done|]. by destruct Hk' as [-> | ->].
    + exists m. split; [done|]. by rewrite Hk.
Qed.

(** ** Witnesses *)

Definition sample_key : SubstateKey := {| owner := 258; local := 7 |}.
Definition sample_clauses : list clause :=
  [({| target := Point sample_key; mode := MReserve 40 |}, 16);
   ({| target := Point sample_key; mode := MDelta In |}, 64);
   ({| target := Point sample_key; mode := MReserve 2 |}, 32)].

Lemma insert_all_correct_witness :
  is_ok (insert_all sample_clauses) = true ∧
  match insert_all sample_clauses with
  | Ok s => totals_fit sample_clauses ∧ ∀ t, s !! t = fold_declared (clauses_on t sample_clauses)
  | Err err => err = ReserveOverflow ∧ ¬ totals_fit sample_clauses
  end.
Proof.
  split; [vm_compute; reflexivity|]. apply insert_all_correct.
  apply (bool_decide_unpack _). vm_compute. exact I.
Defined.

Lemma insert_all_perm_witness : insert_all sample_clauses = insert_all (reverse sample_clauses).
Proof.
  apply insert_all_perm; [apply (bool_decide_unpack _); vm_compute; exact I|].
  symmetry. apply reverse_Permutation.
Defined.

Definition sample_set : EffectSet :=
  match insert_all sample_clauses with Ok s => s | Err _ => ∅ end.

Lemma write_bytes_priced_once_witness :
  write_bytes sample_set = 2064 ∧ retained_bytes sample_set ≤ write_bytes sample_set.
Proof.
  split; [vm_compute; reflexivity|]. apply write_bytes_priced_once.
  apply (bool_decide_unpack _). vm_compute. exact I.
Defined.
