(* ===== verification/Conflict.v ===== *)
(** * Conflict and coverage ([crates/kernel/src/{conflict,oracle}.rs])

    Two declared effects conflict when their targets overlap and their modes are
    incompatible; an access is covered when some declared effect includes its
    target and permits its mode. The semantics both stand on is the set of
    state locations a target names; what the two together buy, that transactions
    whose declarations do not conflict can be run in either order, is in
    [Commute.v]. *)

From S2P Require Import Prelude Types Effects.

(** ** Conflict *)

Definition targets_overlap (a b : EffectTarget) : bool :=
  match a, b with
  | Point lk, Point rk => bool_decide (lk = rk)
  | Entry lo lc lx, Entry ro rc rx =>
      bool_decide (lo = ro) && bool_decide (lc = rc) && bool_decide (lx = rx)
  | Entry eo ec order, Range ro rc lo hi _ | Range ro rc lo hi _, Entry eo ec order =>
      bool_decide (eo = ro) && bool_decide (ec = rc) &&
      (bool_decide (lo ≤ order) && bool_decide (order ≤ hi))
  | Range lo lc llo lhi _, Range ro rc rlo rhi _ =>
      bool_decide (llo ≤ lhi) && bool_decide (rlo ≤ rhi) &&
      bool_decide (lo = ro) && bool_decide (lc = rc) &&
      bool_decide (llo ≤ rhi) && bool_decide (rlo ≤ lhi)
  | Point _, _ | _, Point _ => false
  end.

Definition conflicts (a b : Effect) : bool :=
  targets_overlap (target a) (target b) && negb (compatible (kind (mode a)) (kind (mode b))).

(** ** Coverage *)

Record Access := { access_target : EffectTarget; access_kind : ModeKind }.
#[global] Instance Access_eq_dec : EqDecision Access.
Proof. solve_decision. Defined.

Definition permits (declared access : ModeKind) : bool :=
  match declared, access with
  | KWrite, (KRead | KWrite) => true
  | KRead, KRead => true
  | KDelta, KDelta => true
  | KReserve, KReserve => true
  | _, _ => false
  end.

Definition target_covers (declared accessed : EffectTarget) : bool :=
  match declared, accessed with
  | Point dk, Point ak => bool_decide (dk = ak)
  | Entry d_o dc dx, Entry ao ac ax =>
      bool_decide (d_o = ao) && bool_decide (dc = ac) && bool_decide (dx = ax)
  | Range d_o dc lo hi _, Entry ao ac order =>
      bool_decide (d_o = ao) && bool_decide (dc = ac) &&
      (bool_decide (lo ≤ order) && bool_decide (order ≤ hi))
  | Entry d_o dc order, Range ao ac lo hi cap =>
      bool_decide (d_o = ao) && bool_decide (dc = ac) &&
      bool_decide (lo = order) && bool_decide (hi = order) && bool_decide (cap ≤ 1)
  | Range d_o dc dlo dhi dcap, Range ao ac alo ahi acap =>
      bool_decide (d_o = ao) && bool_decide (dc = ac) &&
      bool_decide (dlo ≤ alo) && bool_decide (ahi ≤ dhi) && bool_decide (acap ≤ dcap)
  | _, _ => false
  end.

Definition is_point (t : EffectTarget) : bool := match t with Point _ => true | _ => false end.

Definition exclusive_movement (declared : Effect) (access : Access) : bool :=
  is_point (target declared) &&
  bool_decide (kind (mode declared) = KWrite) && bool_decide (access_kind access = KDelta).

Definition covered (access : Access) (declared : EffectSet) : bool :=
  existsb (λ effect,
    target_covers (target effect) (access_target access) &&
    (permits (kind (mode effect)) (access_kind access) || exclusive_movement effect access))
    (effects_iter declared).

Definition undeclared_accesses (trace : list Access) (declared : EffectSet) : list Access :=
  filter (λ access, covered access declared = false) trace.

(** ** What a target names *)

Inductive location :=
  | CellAt (key : SubstateKey)
  | EntryAt (owner : Address) (collection : CollectionId) (order : Z).

Definition names (t : EffectTarget) (l : location) : Prop :=
  match t, l with
  | Point k, CellAt k' => k = k'
  | Entry o c x, EntryAt o' c' x' => o = o' ∧ c = c' ∧ x = x'
  | Range o c lo hi _, EntryAt o' c' x => o = o' ∧ c = c' ∧ lo ≤ x ≤ hi
  | _, _ => False
  end.

(** Turn boolean conjunctions of decided facts into facts. *)
Ltac unbool := repeat rewrite ?andb_true_iff, ?bool_decide_eq_true in *.

Lemma targets_overlap_names a b : targets_overlap a b = true ↔ ∃ l, names a l ∧ names b l.
Proof.
  destruct a as [k|o c x|o c lo hi cap], b as [k'|o' c' x'|o' c' lo' hi' cap'];
    cbn [targets_overlap]; unbool;
    (split; [|intros ([l|lo1 lc lx] & Ha & Hb); cbn in Ha, Hb; naive_solver (lia || done)]);
    try done.
  - intros ->. by exists (CellAt k').
  - intros [[-> ->] ->]. exists (EntryAt o' c' x'). done.
  - intros [[-> ->] ?]. exists (EntryAt o' c' x). done.
  - intros [[-> ->] ?]. exists (EntryAt o c x'). done.
  - intros [[[[[? ?] ->] ->] ?] ?]. exists (EntryAt o' c' (Z.max lo lo')). cbn. lia.
Qed.

(** Two targets overlap exactly when some state location is named by both,
    whatever their caps; in particular an inverted interval overlaps nothing. *)
Theorem targets_overlap_correct a b :
  targets_overlap a b = true ↔ ∃ l, names a l ∧ names b l.
Proof. apply targets_overlap_names. Qed.

Lemma target_covers_names d a l : target_covers d a = true → names a l → names d l.
Proof.
  destruct d, a, l; cbn [target_covers names]; unbool; try done; naive_solver lia.
Qed.

Lemma permits_incompatible d k k' :
  permits d k = true ∨ (d = KWrite ∧ k = KDelta) → compatible k k' = false → compatible d k' = false.
Proof. destruct d, k, k'; naive_solver. Qed.

Lemma compatible_sym a b : compatible a b = compatible b a.
Proof. by destruct a, b. Qed.

Lemma targets_overlap_sym a b : targets_overlap a b = targets_overlap b a.
Proof. apply eq_true_iff_eq. rewrite !targets_overlap_names. naive_solver. Qed.

Lemma conflicts_sym a b : conflicts a b = conflicts b a.
Proof. unfold conflicts. by rewrite targets_overlap_sym, compatible_sym. Qed.

(** A covered access is included in a declared effect whose mode is at least as
    exclusive. *)
Lemma covered_inv access D :
  covered access D = true →
  ∃ e, e ∈ effects_iter D ∧ (∀ l, names (access_target access) l → names (target e) l) ∧
    ∀ k, compatible (access_kind access) k = false → compatible (kind (mode e)) k = false.
Proof.
  unfold covered. rewrite existsb_exists. intros (e & He & Hc). apply andb_true_iff in Hc as [Ht Hm].
  exists e. split; [by apply list_elem_of_In|]. split; [intros l; by apply target_covers_names|].
  intros k. apply permits_incompatible. apply orb_true_iff in Hm as [Hm|Hm]; [by left|right].
  unfold exclusive_movement in Hm. unbool. naive_solver.
Qed.

Lemma undeclared_nil trace D :
  undeclared_accesses trace D = [] ↔ Forall (λ a, covered a D = true) trace.
Proof.
  unfold undeclared_accesses. induction trace as [|a trace IH]; cbn; [done|].
  rewrite Forall_cons. case_decide as Hc; [|rewrite IH; split; [|tauto]].
  - split; [done|]. intros [? _]. congruence.
  - intros. split; [|done]. by apply not_false_is_true.
Qed.

(** If neither of two traces escapes its declaration and no pair of declared
    effects conflicts, then any two accesses of the two traces either touch
    disjoint state or are of compatible modes. *)
Lemma declared_disjoint_compatible trace1 trace2 D1 D2 :
  undeclared_accesses trace1 D1 = [] → undeclared_accesses trace2 D2 = [] →
  (∀ e1 e2, e1 ∈ effects_iter D1 → e2 ∈ effects_iter D2 → conflicts e1 e2 = false) →
  ∀ a1 a2, a1 ∈ trace1 → a2 ∈ trace2 →
    (∀ l, names (access_target a1) l → names (access_target a2) l → False) ∨
    compatible (access_kind a1) (access_kind a2) = true.
Proof.
  intros H1%undeclared_nil H2%undeclared_nil Hfree a1 a2 Ha1 Ha2.
  rewrite Forall_forall in H1, H2. apply H1, covered_inv in Ha1 as (e1 & He1 & Hn1 & Hk1).
  apply H2, covered_inv in Ha2 as (e2 & He2 & Hn2 & Hk2).
  destruct (compatible (access_kind a1) (access_kind a2)) eqn:Hc; [by right|left].
  intros l Hl1 Hl2. specialize (Hfree e1 e2 He1 He2). unfold conflicts in Hfree.
  rewrite (proj2 (targets_overlap_names _ _)) in Hfree by eauto. cbn in Hfree.
  apply negb_false_iff in Hfree. apply Hk1 in Hc. rewrite compatible_sym in Hc.
  apply Hk2 in Hc. rewrite compatible_sym in Hc. congruence.
Qed.
