(* ===== verification/Modes.v ===== *)
(** * The commutative modes ([crates/kernel/src/modes.rs])

    The amount cell, the delta fold and reservation feasibility: pure functions
    whose outcome cannot depend on scheduling. The theorems say so: the delta
    fold and the verdicts are the same for every order of their inputs, and
    both are given in closed form. *)

From S2P Require Import Prelude Types Effects.

(** ** Data and operations *)

Inductive ModeError :=
  | BadAmountCell (len : nat)
  | DeltaOverflow
  | CellOverflow
  | CellUnderflow
  | SupplyOutOfBounds
  | EscrowOverflow.
#[global] Instance ModeError_eq_dec : EqDecision ModeError.
Proof. solve_decision. Defined.

Definition decode_amount (cell : bytes) : result ModeError Z :=
  ok_or (read_amount cell) (BadAmountCell (length cell)).

Inductive DeltaOp := Add (amount : Z) | Sub (amount : Z).
#[global] Instance DeltaOp_eq_dec : EqDecision DeltaOp.
Proof. solve_decision. Defined.

Definition delta_step (acc : result ModeError (Z * Z)) (op : DeltaOp) : result ModeError (Z * Z) :=
  p ← acc;
  match op with
  | Add amount => credit ← ok_or (checked_add 128 p.1 amount) DeltaOverflow; Ok (credit, p.2)
  | Sub amount => debit ← ok_or (checked_add 128 p.2 amount) DeltaOverflow; Ok (p.1, debit)
  end.
Definition delta_totals (ops : list DeltaOp) : result ModeError (Z * Z) :=
  foldl delta_step (Ok (0, 0)) ops.

Definition fold_deltas (committed : Z) (ops : list DeltaOp) : result ModeError Z :=
  p ← delta_totals ops;
  credited ← ok_or (checked_add 128 committed p.1) CellOverflow;
  ok_or (checked_sub credited p.2) CellUnderflow.

Record Movement := { m_resource : Address; m_credit : Z; m_debit : Z; m_unjudged_debit : Z }.

Definition total_movement (ops : list DeltaOp) (resource : Address) : result ModeError Movement :=
  p ← delta_totals ops;
  Ok {| m_resource := resource; m_credit := p.1; m_debit := p.2; m_unjudged_debit := 0 |}.

Inductive Feasibility := Feasible | Infeasible.
#[global] Instance Feasibility_eq_dec : EqDecision Feasibility.
Proof. solve_decision. Defined.
Definition is_feasible (f : Feasibility) : bool := match f with Feasible => true | Infeasible => false end.

(** The order [sort_unstable] sorts a request by. *)
Definition request_le (a b : TxHash * Z) : Prop := lex_le [a.1; a.2] [b.1; b.2].
#[global] Instance request_le_dec : RelDecision request_le.
Proof. intros a b. unfold request_le. apply _. Defined.

(** The walk of [judge] over the ordered requests, [remaining] in hand. *)
Fixpoint judge_walk (remaining : Z) (ordered : list (TxHash * Z)) : list (TxHash * Feasibility) :=
  match ordered with
  | [] => []
  | (tx, amount) :: rest =>
      if decide (amount ≤ remaining) then (tx, Feasible) :: judge_walk (remaining - amount) rest
      else (tx, Infeasible) :: judge_walk remaining rest
  end.
Definition judge (available : Z) (requests : list (TxHash * Z)) : list (TxHash * Feasibility) :=
  judge_walk available (merge_sort request_le requests).

(** ** Amount cells *)

Lemma encode_amount_length a : length (encode_amount a) = AMOUNT_CELL_BYTES.
Proof. apply length_le_bytes. Qed.

Lemma decode_encode a : in_width 128 a → decode_amount (encode_amount a) = Ok a.
Proof.
  intros Ha. unfold decode_amount, read_amount. rewrite encode_amount_length, decide_True by done.
  cbn [ok_or]. f_equal. apply le_val_bytes. exact Ha.
Qed.

Lemma decode_amount_bound cell a : decode_amount cell = Ok a → in_width 128 a.
Proof.
  unfold decode_amount, read_amount. case_decide as Hl; cbn; [|done]. intros [= <-].
  pose proof (le_val_bound cell) as H. rewrite Hl in H. exact H.
Qed.

(** An amount survives its cell, a cell of any other width is refused
    naming its length, and a decoded cell re-encodes to itself. *)
Theorem amount_cell_roundtrip :
  (∀ a, in_width 128 a → decode_amount (encode_amount a) = Ok a) ∧
  (∀ cell, decode_amount cell =
     if decide (length cell = 16%nat) then Ok (le_val cell) else Err (BadAmountCell (length cell))) ∧
  (∀ cell a, decode_amount cell = Ok a → in_width 128 a ∧ encode_amount a = cell).
Proof.
  split; [apply decode_encode|]. split.
  - intros cell. unfold decode_amount, read_amount, AMOUNT_CELL_BYTES. by destruct (decide _).
  - intros cell a H. split; [by eapply decode_amount_bound|].
    unfold decode_amount, read_amount in H. case_decide as Hl; [|done]. injection H as <-.
    unfold encode_amount. rewrite <- Hl. apply le_bytes_val.
Qed.

(** ** The delta fold *)

Definition op_credit (op : DeltaOp) : Z := match op with Add a => a | Sub _ => 0 end.
Definition op_debit (op : DeltaOp) : Z := match op with Add _ => 0 | Sub a => a end.
Definition op_ok (op : DeltaOp) : Prop := match op with Add a | Sub a => in_width 128 a end.
#[global] Instance op_ok_dec op : Decision (op_ok op).
Proof. destruct op; apply _. Defined.
Definition credits (ops : list DeltaOp) : Z := sum_Z (op_credit <$> ops).
Definition debits (ops : list DeltaOp) : Z := sum_Z (op_debit <$> ops).

Lemma credits_app a b : credits (a ++ b) = credits a + credits b.
Proof. unfold credits. by rewrite fmap_app, sum_Z_app. Qed.
Lemma debits_app a b : debits (a ++ b) = debits a + debits b.
Proof. unfold debits. by rewrite fmap_app, sum_Z_app. Qed.
#[global] Instance credits_perm : Proper ((≡ₚ) ==> (=)) credits.
Proof. intros a b H. unfold credits. apply sum_Z_perm. by rewrite H. Qed.
#[global] Instance debits_perm : Proper ((≡ₚ) ==> (=)) debits.
Proof. intros a b H. unfold debits. apply sum_Z_perm. by rewrite H. Qed.

Lemma delta_totals_spec ops :
  Forall op_ok ops →
  0 ≤ credits ops ∧ 0 ≤ debits ops ∧
  delta_totals ops =
    if decide (credits ops ≤ u128_max ∧ debits ops ≤ u128_max)
    then Ok (credits ops, debits ops) else Err DeltaOverflow.
Proof.
  induction ops as [|op ops IH] using rev_ind; [done|]. intros [Hops Hop]%Forall_app.
  apply Forall_cons_1 in Hop as [Hop _]. destruct (IH Hops) as (Hc & Hd & IHe).
  unfold delta_totals in *. rewrite foldl_app, IHe, credits_app, debits_app. cbn [foldl].
  assert (Hs : credits [op] = op_credit op ∧ debits [op] = op_debit op)
    by (unfold credits, debits; cbn; lia).
  destruct Hs as [-> ->]. unfold delta_step, checked_add, in_width in *.
  destruct op as [a|a]; cbn [op_credit op_debit op_ok] in *; unfold in_width in Hop;
    (split; [lia|]); (split; [lia|]);
    set (C := credits ops) in *; set (D := debits ops) in *;
    destruct (decide (C ≤ u128_max ∧ D ≤ u128_max)) as [H|H]; cbn [mbind result_bind fst snd];
    try (rewrite decide_False; [done|lia]).
  - destruct (decide (C + a ≤ u128_max)); cbn [ok_or mbind result_bind].
    + rewrite decide_True by lia. do 2 f_equal; lia.
    + by rewrite decide_False by lia.
  - destruct (decide (D + a ≤ u128_max)); cbn [ok_or mbind result_bind].
    + rewrite decide_True by lia. do 2 f_equal; lia.
    + by rewrite decide_False by lia.
Qed.

(** The closed form of a fold. *)
Definition folded (committed : Z) (ops : list DeltaOp) : result ModeError Z :=
  if decide (credits ops ≤ u128_max ∧ debits ops ≤ u128_max) then
    if decide (committed + credits ops ≤ u128_max) then
      if decide (debits ops ≤ committed + credits ops)
      then Ok (committed + credits ops - debits ops) else Err CellUnderflow
    else Err CellOverflow
  else Err DeltaOverflow.

Lemma fold_deltas_folded committed ops :
  Forall op_ok ops → fold_deltas committed ops = folded committed ops.
Proof.
  intros H. unfold fold_deltas, folded. destruct (delta_totals_spec ops H) as (_ & _ & ->).
  case_decide; [|done]. unfold checked_add, checked_sub. cbn [mbind result_bind fst snd].
  case_decide; [|done]. cbn [ok_or mbind result_bind]. by case_decide.
Qed.

(** The delta fold in closed form: one addition and one subtraction of the
    summed movements, each overflow and the underflow reported as such; so the
    outcome is the same for every order of the queued operations. *)
Theorem fold_deltas_order_free committed ops ops' :
  Forall op_ok ops → ops ≡ₚ ops' →
  fold_deltas committed ops = folded committed ops ∧
  fold_deltas committed ops' = fold_deltas committed ops.
Proof.
  intros H Hp. assert (H' : Forall op_ok ops') by (by rewrite <- Hp).
  rewrite !fold_deltas_folded by done. split; [done|]. unfold folded.
  by rewrite (credits_perm _ _ Hp), (debits_perm _ _ Hp).
Qed.

(** ** Feasibility *)

#[global] Instance request_le_trans : Transitive request_le.
Proof. intros a b c. unfold request_le. apply transitivity. Qed.
#[global] Instance request_le_total : Total request_le.
Proof. intros a b. unfold request_le. apply total, _. Qed.
#[global] Instance request_le_antisym : AntiSymm (=) request_le.
Proof.
  intros [a x] [b y] H1 H2. unfold request_le in *.
  assert ([a; x] = [b; y]) as [= -> ->] by (by apply (anti_symm lex_le)). done.
Qed.

(** The amounts granted by a walk. *)
Fixpoint granted (ordered : list (TxHash * Z)) (verdicts : list (TxHash * Feasibility)) : Z :=
  match ordered, verdicts with
  | (_, amount) :: o, (_, Feasible) :: v => amount + granted o v
  | _ :: o, _ :: v => granted o v
  | _, _ => 0
  end.

Lemma judge_walk_spec available ordered :
  0 ≤ available → Forall (λ r, 0 ≤ r.2) ordered →
  (judge_walk available ordered).*1 = ordered.*1 ∧
  0 ≤ granted ordered (judge_walk available ordered) ≤ available ∧
  ∀ i tx amount, ordered !! i = Some (tx, amount) →
    judge_walk available ordered !! i = Some (tx,
      if decide (granted (take i ordered) (take i (judge_walk available ordered)) + amount ≤ available)
      then Feasible else Infeasible).
Proof.
  intros Ha H. revert available Ha. induction H as [|[tx a] ordered Hr _ IH]; intros available Ha; [done|].
  cbn [judge_walk snd] in *. destruct (decide (a ≤ available)) as [Hle|Hgt].
  - destruct (IH (available - a) ltac:(lia)) as (H1 & H2 & H3). cbn.
    split; [by rewrite H1|]. split; [lia|]. intros [|i] tx' a' Hi; cbn in Hi |- *.
    + injection Hi as <- <-. by rewrite decide_True by lia.
    + etransitivity; [exact (H3 i tx' a' Hi)|]. do 2 f_equal. apply decide_ext. lia.
  - destruct (IH available Ha) as (H1 & H2 & H3). cbn.
    split; [by rewrite H1|]. split; [lia|]. intros [|i] tx' a' Hi; cbn in Hi |- *.
    + injection Hi as <- <-. by rewrite decide_False by lia.
    + apply (H3 i tx' a' Hi).
Qed.

Lemma judge_perm available requests requests' :
  requests ≡ₚ requests' → judge available requests = judge available requests'.
Proof.
  intros Hp. unfold judge. f_equal.
  apply (StronglySorted_unique request_le); [apply (StronglySorted_merge_sort _)..|].
  by rewrite !merge_sort_Permutation.
Qed.

(** Reservation verdicts do not depend on the order requests arrive in, and
    they are the greedy ones in hash order: each request is granted exactly
    when what was granted before it leaves room for it, so the grants never
    exceed what is available. *)
Theorem judge_correct available requests requests' :
  0 ≤ available → Forall (λ r, 0 ≤ r.2) requests → requests ≡ₚ requests' →
  judge available requests' = judge available requests ∧
  ∃ ordered, ordered ≡ₚ requests ∧ StronglySorted request_le ordered ∧
    let verdicts := judge available requests in
    verdicts.*1 = ordered.*1 ∧ granted ordered verdicts ≤ available ∧
    ∀ i tx amount, ordered !! i = Some (tx, amount) →
      verdicts !! i = Some (tx,
        if decide (granted (take i ordered) (take i verdicts) + amount ≤ available)
        then Feasible else Infeasible).
Proof.
  intros Ha Hr Hp. split; [symmetry; by apply judge_perm|].
  exists (merge_sort request_le requests). split; [apply merge_sort_Permutation|].
  split; [apply (StronglySorted_merge_sort _)|]. cbv zeta. unfold judge.
  destruct (judge_walk_spec available (merge_sort request_le requests) Ha) as (H1 & H2 & H3);
    [by rewrite merge_sort_Permutation|]. split; [done|]. split; [lia|done].
Qed.

(** ** Witnesses *)

Lemma amount_cell_roundtrip_witness : decode_amount (encode_amount (7 * 10 ^ 21)) = Ok (7 * 10 ^ 21).
Proof. apply (proj1 amount_cell_roundtrip). unfold in_width. lia. Defined.

Lemma fold_deltas_order_free_witness :
  fold_deltas 100 [Add 50; Sub 30; Add 10] = Ok 130 ∧
  fold_deltas 100 [Add 10; Sub 30; Add 50] = fold_deltas 100 [Add 50; Sub 30; Add 10].
Proof.
  split; [vm_compute; reflexivity|]. apply fold_deltas_order_free.
  - apply (bool_decide_unpack _). vm_compute. exact I.
  - apply (reverse_Permutation [Add 10; Sub 30; Add 50]).
Defined.

Lemma judge_correct_witness :
  judge 100 [(9, 60); (1, 60)] = [(1, Feasible); (9, Infeasible)] ∧
  judge 100 [(1, 60); (9, 60)] = judge 100 [(9, 60); (1, 60)].
Proof.
  split; [vm_compute; reflexivity|]. apply judge_correct.
  - lia.
  - apply (bool_decide_unpack _). vm_compute. exact I.
  - apply perm_swap.
Defined.
