(* ===== verification/Hbor.v ===== *)
(** * The canonical encoding ([crates/hbor])

    One byte string per value, one value per byte string: the length field, the
    encoder and decoder with their nesting caps, and the codec of every shape a
    type is built from (scalars, byte arrays, options, tuples and derived structs,
    derived enums, sequences, ordered sets and maps, capped runs). A codec is a
    record of its two directions; the class [Canonical] states what the crate
    promises of one, and every combinator keeps it. *)

From S2P Require Import Prelude Types.

(** ** Errors *)

Module EncErr.
Inductive EncodeError :=
  | LengthTooLarge (actual max : Z)
  | BoundExceeded (actual max : nat)
  | DepthExceeded (max : nat).
End EncErr.
Abbreviation EncodeError := EncErr.EncodeError.

Module DecErr.
Inductive DecodeError :=
  | UnexpectedEof (needed remaining : nat)
  | TrailingBytes (remaining : nat)
  | NonMinimalLength
  | LengthTooLarge
  | LengthExceedsInput (claimed capacity : nat)
  | BoundExceeded (max actual : nat)
  | DepthExceeded (max : nat)
  | InvalidBool (b : byte)
  | InvalidDiscriminant (b : byte)
  | InvalidUtf8
  | FailedValidation
  | UnsortedKeys.
End DecErr.
Abbreviation DecodeError := DecErr.DecodeError.

(** ** The length field *)

Module Varint.

Definition MAX_LENGTH : Z := 0x0FFFFFFF.

(** One round per seven bits. The check of [encode] keeps a value within four
    rounds, so the fuel of four is never used up ([encode_spec]). *)
Fixpoint encode_loop (fuel : nat) (out : bytes) (len : nat) (rest : Z) : bytes * nat :=
  match fuel with
  | O => (out, len)
  | S fuel =>
      let seven := Z.land rest 0x7F in
      let rest := Z.shiftr rest 7 in
      let out := <[len := u8_of (if decide (rest = 0) then seven else Z.lor seven 0x80)]> out in
      let len := S len in
      if decide (rest = 0) then (out, len) else encode_loop fuel out len rest
  end.
Definition encode (value : Z) : result EncodeError (bytes * nat) :=
  if decide (MAX_LENGTH < value) then Err (EncErr.LengthTooLarge value MAX_LENGTH)
  else Ok (encode_loop 4 (replicate 4 x00) 0 value).

Fixpoint read_loop (input : bytes) (value shift : Z) (consumed : nat) : result DecodeError (Z * nat) :=
  match input with
  | [] => Err (DecErr.UnexpectedEof 1 0)
  | b :: input =>
      let consumed := S consumed in
      let value := Z.lor value (Z.shiftl (Z.land (u8_val b) 0x7F) shift) in
      if decide (u8_val b < 0x80) then
        if decide (u8_val b = 0 ∧ shift ≠ 0) then Err DecErr.NonMinimalLength else Ok (value, consumed)
      else
        let shift := shift + 7 in
        if decide (28 ≤ shift) then Err DecErr.LengthTooLarge else read_loop input value shift consumed
  end.
Definition read (input : bytes) : result DecodeError (Z * nat) := read_loop input 0 0 0.

(** The field a value is written as: seven bits at a time, low end first. *)
Fixpoint field (n : nat) (value : Z) : bytes :=
  match n with
  | O => []
  | S n => if decide (value < 128) then [u8_of value] else u8_of (value mod 128 + 128) :: field n (value / 128)
  end.

Lemma land_7 x : Z.land x 0x7F = x mod 128.
Proof. change 0x7F with (Z.ones 7). by rewrite Z.land_ones. Qed.

Lemma lor_80 x : 0 ≤ x < 128 → Z.lor x 0x80 = x + 128.
Proof.
  intros Hx. rewrite Z.lor_comm. change 0x80 with (1 * 2 ^ 7). rewrite lor_shifted_low by lia. lia.
Qed.

Lemma encode_loop_spec n fuel out len rest :
  0 ≤ rest < 128 ^ Z.of_nat n → (n ≤ fuel)%nat → (0 < n)%nat → (len + n ≤ length out)%nat →
  ∃ pad, encode_loop fuel out len rest =
    (take len out ++ field n rest ++ pad, (len + length (field n rest))%nat).
Proof.
  revert fuel out len rest. induction n as [|n IH]; intros fuel out len rest Hr Hf Hn Hl; [lia|].
  destruct fuel as [|fuel]; [lia|]. cbn [encode_loop field].
  rewrite land_7, Z.shiftr_div_pow2 by lia. change (2 ^ 7) with 128.
  pose proof (Z.mod_pos_bound rest 128 ltac:(lia)) as Hm. pose proof (Z.div_mod rest 128 ltac:(lia)) as Hd.
  assert (Hlt : (len < length out)%nat) by lia.
  destruct (decide (rest / 128 = 0)) as [E0|E0].
  - rewrite decide_True by lia. assert (rest mod 128 = rest) as -> by lia.
    exists (drop (S len) out). cbn [length]. f_equal; [|lia].
    rewrite (insert_take_drop out) by done. done.
  - rewrite decide_False by (intros ?; apply E0; apply Z.div_small; lia).
    rewrite lor_80 by lia.
    assert (Hq : 0 ≤ rest / 128 < 128 ^ Z.of_nat n).
    { split; [apply Z.div_pos; lia|]. apply Z.div_lt_upper_bound; [lia|].
      rewrite <- Z.pow_succ_r by lia. rewrite <- Nat2Z.inj_succ. lia. }
    assert (0 < n)%nat by (destruct n; [cbn in Hq; lia|lia]).
    destruct (IH fuel (<[len := u8_of (rest mod 128 + 128)]> out) (S len) (rest / 128)) as [pad Hpad];
      [done|lia|done|rewrite length_insert; lia|].
    rewrite Hpad. exists pad. f_equal; [|cbn [length]; lia].
    rewrite (take_S_r _ _ (u8_of (rest mod 128 + 128))) by (by apply list_lookup_insert_eq).
    rewrite take_insert_ge by lia. by rewrite <- app_assoc.
Qed.

Lemma field_length n value : (length (field n value) ≤ n)%nat.
Proof. revert value. induction n as [|n IH]; intros value; cbn [field]; [done|].
  destruct (decide _); cbn [length]; [lia|]. specialize (IH (value / 128)). lia. Qed.

Lemma encode_spec value :
  0 ≤ value ≤ MAX_LENGTH → ∃ pad, encode value = Ok (field 4 value ++ pad, length (field 4 value)).
Proof.
  intros Hv. unfold encode, MAX_LENGTH in *. rewrite decide_False by lia.
  destruct (encode_loop_spec 4 4 (replicate 4 x00) 0 value) as [pad ->]; [|lia|lia|done|by exists pad].
  change (128 ^ Z.of_nat 4) with (0x0FFFFFFF + 1). lia.
Qed.

(** Reading a field back, in the middle of a value. *)
Lemma read_loop_field n value shift acc consumed rest :
  (0 < n)%nat → 0 ≤ shift → shift + 7 * Z.of_nat n ≤ 28 → 0 ≤ acc < 2 ^ shift →
  0 ≤ value < 128 ^ Z.of_nat n → (shift ≠ 0 → value ≠ 0) →
  read_loop (field n value ++ rest) acc shift consumed =
    Ok (acc + value * 2 ^ shift, (consumed + length (field n value))%nat).
Proof.
  revert value shift acc consumed. induction n as [|n IH]; intros value shift acc consumed Hn Hs Hb Ha Hv Hz; [lia|].
  assert (Hlor : ∀ x, 0 ≤ x → Z.lor acc (Z.shiftl x shift) = acc + x * 2 ^ shift).
  { intros x Hx. rewrite Z.shiftl_mul_pow2, Z.lor_comm, lor_shifted_low by lia. lia. }
  cbn [field]. destruct (decide (value < 128)) as [Hlt|Hge]; cbn [app read_loop].
  - rewrite u8_val_of, Z.mod_small, land_7, Z.mod_small by lia.
    rewrite decide_True by lia. rewrite decide_False by (intros [? ?]; lia).
    rewrite Hlor by lia. cbn [length]. do 2 f_equal. lia.
  - pose proof (Z.mod_pos_bound value 128 ltac:(lia)) as Hm. pose proof (Z.div_mod value 128 ltac:(lia)) as Hd.
    rewrite u8_val_of, Z.mod_small, land_7 by lia. rewrite decide_False by lia.
    assert (Hmod : (value mod 128 + 128) mod 128 = value mod 128).
    { rewrite <- Z.add_mod_idemp_r by lia. rewrite Z.mod_same by lia. rewrite Z.add_0_r. by apply Z.mod_small. }
    rewrite Hmod, Hlor by lia.
    assert (Hq : 0 ≤ value / 128 < 128 ^ Z.of_nat n).
    { split; [apply Z.div_pos; lia|]. apply Z.div_lt_upper_bound; [lia|].
      rewrite <- Z.pow_succ_r by lia. rewrite <- Nat2Z.inj_succ. lia. }
    assert (0 < n)%nat by (destruct n; [cbn in Hq; lia|lia]).
    rewrite decide_False by lia. rewrite IH; [|lia..| |done|lia].
    + cbn [length]. rewrite Z.pow_add_r by lia. change (2 ^ 7) with 128. f_equal. f_equal; lia.
    + rewrite Z.pow_add_r by lia. change (2 ^ 7) with 128. pose proof (pow2_pos shift Hs). nia.
Qed.

(** Whatever reads as a length is the field of that length. *)
Lemma read_loop_canonical n input shift acc consumed value used :
  shift + 7 * Z.of_nat n = 28 → (0 < n)%nat → 0 ≤ shift → 0 ≤ acc < 2 ^ shift →
  read_loop input acc shift consumed = Ok (value, used) →
  ∃ v rest, 0 ≤ v < 128 ^ Z.of_nat n ∧ (shift ≠ 0 → v ≠ 0) ∧ value = acc + v * 2 ^ shift ∧
    input = field n v ++ rest ∧ used = (consumed + length (field n v))%nat.
Proof.
  revert input shift acc consumed. induction n as [|n IH]; intros input shift acc consumed Hb Hn Hs Ha Hr; [lia|].
  destruct input as [|b input]; [done|]. cbn [read_loop] in Hr. pose proof (u8_val_bound b) as Hbb.
  assert (Hlor : ∀ x, 0 ≤ x → Z.lor acc (Z.shiftl x shift) = acc + x * 2 ^ shift).
  { intros x Hx. rewrite Z.shiftl_mul_pow2, Z.lor_comm, lor_shifted_low by lia. lia. }
  rewrite land_7 in Hr. pose proof (pow2_pos shift Hs) as Hp.
  assert (Hpow : 0 < 128 ^ Z.of_nat n) by (apply Z.pow_pos_nonneg; lia).
  destruct (decide (u8_val b < 0x80)) as [Hlt|Hge].
  - destruct (decide (u8_val b = 0 ∧ shift ≠ 0)) as [|Hnz]; [done|]. injection Hr as <- <-.
    rewrite Z.mod_small, Hlor by lia. exists (u8_val b), input. cbn [field].
    rewrite (decide_True _ _ Hlt), u8_of_val. rewrite Nat2Z.inj_succ, Z.pow_succ_r by lia.
    split; [nia|]. split; [intros ? ?; by apply Hnz|]. split; [done|]. split; [done|]. cbn [length]. lia.
  - destruct (decide (28 ≤ shift + 7)) as [|Hsh]; [done|]. rewrite Hlor in Hr by (apply Z.mod_pos_bound; lia).
    pose proof (Z.mod_pos_bound (u8_val b) 128 ltac:(lia)) as Hm.
    assert (Hbv : u8_val b = u8_val b mod 128 + 128).
    { pose proof (Z.div_mod (u8_val b) 128 ltac:(lia)). assert (u8_val b / 128 = 1); [|lia].
      symmetry. apply (Z.div_unique _ _ _ (u8_val b - 128)); lia. }
    apply IH in Hr as (v & rest & Hv & Hvz & Hval & Hin & Hu); [|lia|lia|lia|].
    2: { rewrite Z.pow_add_r by lia. change (2 ^ 7) with 128. nia. }
    set (w := v * 128 + u8_val b mod 128).
    assert (Hw1 : w mod 128 = u8_val b mod 128) by (unfold w; rewrite Z.add_comm, Z.mod_add by lia; by apply Z.mod_mod).
    assert (Hw2 : w / 128 = v) by (unfold w; rewrite Z.div_add_l by lia; rewrite Z.div_small; lia).
    assert (v ≠ 0) by (apply Hvz; lia). exists w, rest. cbn [field].
    rewrite decide_False by (unfold w; lia). rewrite Hw1, Hw2, <- Hbv, u8_of_val.
    rewrite Nat2Z.inj_succ, Z.pow_succ_r by lia. split; [unfold w; nia|]. split; [unfold w; lia|].
    split. { rewrite Hval, Z.pow_add_r by lia. change (2 ^ 7) with 128. unfold w. lia. }
    split; [by rewrite Hin|]. cbn [length]. lia.
Qed.

Lemma read_field value rest :
  0 ≤ value ≤ MAX_LENGTH → read (field 4 value ++ rest) = Ok (value, length (field 4 value)).
Proof.
  intros Hv. unfold read, MAX_LENGTH in *. rewrite read_loop_field; try lia.
  do 2 f_equal. lia.
Qed.

Lemma read_canonical input value used :
  read input = Ok (value, used) →
  0 ≤ value ≤ MAX_LENGTH ∧ used = length (field 4 value) ∧ ∃ rest, input = field 4 value ++ rest.
Proof.
  unfold read. intros Hr. apply (read_loop_canonical 4) in Hr as (v & rest & Hv & _ & Hval & Hin & Hu); try lia.
  assert (value = v) as -> by (cbn in Hval; lia). change (128 ^ Z.of_nat 4) with (0x0FFFFFFF + 1) in Hv.
  unfold MAX_LENGTH. split; [lia|]. split; [done|]. by exists rest.
Qed.

Lemma field_nonempty n value : (0 < n)%nat → (0 < length (field n value))%nat.
Proof. destruct n; [lia|]. cbn [field]. destruct (decide _); cbn [length]; lia. Qed.

End Varint.

(** ** The encoder and the decoder *)

(** An encoder over a growing buffer. A failed write abandons the encoder, so an
    error carries none. *)
Record Encoder := { out : bytes; enc_depth : nat; enc_max : nat }.
Record Decoder := { input : bytes; cursor : nat; dec_depth : nat; dec_max : nat }.

Definition write_fixed (b : bytes) (e : Encoder) : Encoder :=
  {| out := out e ++ b; enc_depth := enc_depth e; enc_max := enc_max e |}.
Definition write_u8 (b : byte) (e : Encoder) : Encoder := write_fixed [b] e.
Definition write_len (len : nat) (e : Encoder) : result EncodeError Encoder :=
  '(field, written) ← Varint.encode (Z.of_nat len);
  Ok (if decide (written ≤ length field)%nat then write_fixed (take written field) e else e).
Definition enc_descend (write : Encoder → result EncodeError Encoder) (e : Encoder) : result EncodeError Encoder :=
  if decide (enc_max e ≤ enc_depth e)%nat then Err (EncErr.DepthExceeded (enc_max e)) else
  e' ← write {| out := out e; enc_depth := S (enc_depth e); enc_max := enc_max e |};
  Ok {| out := out e'; enc_depth := pred (enc_depth e'); enc_max := enc_max e' |}.

Definition remaining (d : Decoder) : nat := length (input d) - cursor d.
Definition advance (n : nat) (d : Decoder) : Decoder :=
  {| input := input d; cursor := cursor d + n; dec_depth := dec_depth d; dec_max := dec_max d |}.
Definition read_u8 (d : Decoder) : result DecodeError (byte * Decoder) :=
  match input d !! cursor d with
  | Some b => Ok (b, advance 1 d)
  | None => Err (DecErr.UnexpectedEof 1 0)
  end.
Definition read_slice (len : nat) (d : Decoder) : result DecodeError (bytes * Decoder) :=
  if decide (remaining d < len)%nat then Err (DecErr.UnexpectedEof len (remaining d))
  else Ok (take len (drop (cursor d) (input d)), advance len d).
(** The claimed length, bounded by what the rest of the input can hold. The
    assertion that the width is not zero is the codec's, where a sequence is
    built. *)
Definition read_len (min_element_len : nat) (d : Decoder) : result DecodeError (nat * Decoder) :=
  '(value, consumed) ← Varint.read (drop (cursor d) (input d));
  let d := advance consumed d in
  let capacity := (remaining d / min_element_len)%nat in
  if decide (Z.of_nat capacity < value) then Err (DecErr.LengthExceedsInput (Z.to_nat value) capacity)
  else Ok (Z.to_nat value, d).
Definition dec_descend {A} (read : Decoder → result DecodeError (A * Decoder)) (d : Decoder) :
    result DecodeError (A * Decoder) :=
  if decide (dec_max d ≤ dec_depth d)%nat then Err (DecErr.DepthExceeded (dec_max d)) else
  '(a, d') ← read {| input := input d; cursor := cursor d; dec_depth := S (dec_depth d); dec_max := dec_max d |};
  Ok (a, {| input := input d'; cursor := cursor d'; dec_depth := pred (dec_depth d'); dec_max := dec_max d' |}).
Definition dec_finish (d : Decoder) : result DecodeError () :=
  if decide (0 < remaining d)%nat then Err (DecErr.TrailingBytes (remaining d)) else Ok ().

(** ** Codecs *)

(** [HborWidth], [HborEncode] and [HborDecode] of a type. *)
Record Codec (A : Type) := {
  MIN_ENCODED_LEN : nat;
  encode : A → Encoder → result EncodeError Encoder;
  decode : Decoder → result DecodeError (A * Decoder);
}.
Arguments MIN_ENCODED_LEN {A} _.
Arguments encode {A} _ _ _.
Arguments decode {A} _ _.

Definition DEFAULT_MAX_DEPTH : nat := 64.
Definition to_vec_with_depth {A} (c : Codec A) (value : A) (max_depth : nat) : result EncodeError bytes :=
  e ← encode c value {| out := []; enc_depth := 0; enc_max := max_depth |}; Ok (out e).
Definition to_vec {A} (c : Codec A) (value : A) : result EncodeError bytes := to_vec_with_depth c value DEFAULT_MAX_DEPTH.
Definition from_slice_with_depth {A} (c : Codec A) (b : bytes) (max_depth : nat) : result DecodeError A :=
  '(value, d) ← decode c {| input := b; cursor := 0; dec_depth := 0; dec_max := max_depth |};
  _ ← dec_finish d; Ok value.
Definition from_slice {A} (c : Codec A) (b : bytes) : result DecodeError A := from_slice_with_depth c b DEFAULT_MAX_DEPTH.

(** *** Scalars and fixed-width arrays *)

Definition array (n : nat) : Codec bytes := {|
  MIN_ENCODED_LEN := n;
  encode b e := Ok (write_fixed b e);
  decode := read_slice n;
|}.

(** A type carried by another: [f] to its carrier, [g] back, refusing. A derived
    struct is carried by its fields, a [transparent] wrapper by its one field, a
    narrowed address by the address. *)
Definition carried {A B} (f : A → B) (g : B → result DecodeError A) (c : Codec B) : Codec A := {|
  MIN_ENCODED_LEN := MIN_ENCODED_LEN c;
  encode a := encode c (f a);
  decode d := '(b, d) ← decode c d; a ← g b; Ok (a, d);
|}.

(** [u8] to [u128], and the signed integers in two's complement. *)
Definition uint (n : nat) : Codec Z := carried (le_bytes n) (λ b, Ok (le_val b)) (array n).
Definition to_signed (n : nat) (x : Z) : Z :=
  if decide (2 * x < 256 ^ Z.of_nat n) then x else x - 256 ^ Z.of_nat n.
Definition sint (n : nat) : Codec Z :=
  carried (λ x, x mod 256 ^ Z.of_nat n) (λ x, Ok (to_signed n x)) (uint n).
(** A byte array kept as the integer it spells. *)
Definition uint_be (n : nat) : Codec Z := carried (be_bytes n) (λ b, Ok (be_val b)) (array n).

(** [u8] as the byte it is. *)
Definition u8 : Codec byte := {| MIN_ENCODED_LEN := 1; encode b e := Ok (write_u8 b e); decode := read_u8 |}.
Definition bool_codec : Codec bool := {|
  MIN_ENCODED_LEN := 1;
  encode (b : bool) e := Ok (write_u8 (if b then x01 else x00) e);
  decode d := '(b, d) ← read_u8 d;
    match b with x00 => Ok (false, d) | x01 => Ok (true, d) | other => Err (DecErr.InvalidBool other) end;
|}.
Definition unit_codec : Codec () := {|
  MIN_ENCODED_LEN := 0; encode _ e := Ok e; decode d := Ok ((), d);
|}.

(** *** Composition *)

(** A value one level down, and two one after the other. A tuple and the fields
    of a derived struct are [nested] values one after the other. *)
Definition nested {A} (c : Codec A) : Codec A := {|
  MIN_ENCODED_LEN := MIN_ENCODED_LEN c;
  encode a := enc_descend (encode c a);
  decode := dec_descend (decode c);
|}.
Definition both {A B} (ca : Codec A) (cb : Codec B) : Codec (A * B) := {|
  MIN_ENCODED_LEN := MIN_ENCODED_LEN ca + MIN_ENCODED_LEN cb;
  encode p e := e ← encode ca p.1 e; encode cb p.2 e;
  decode d := '(a, d) ← decode ca d; '(b, d) ← decode cb d; Ok ((a, b), d);
|}.

Definition option_codec {A} (c : Codec A) : Codec (option A) := {|
  MIN_ENCODED_LEN := 1;
  encode o e := match o with
    | None => Ok (write_u8 x00 e)
    | Some a => encode (nested c) a (write_u8 x01 e)
    end;
  decode d := '(tag, d) ← read_u8 d;
    match tag with
    | x00 => Ok (None, d)
    | x01 => '(a, d) ← decode (nested c) d; Ok (Some a, d)
    | other => Err (DecErr.InvalidDiscriminant other)
    end;
|}.

(** A variant of a derived enum: its tag, its fields, and the constructor with
    its pattern. *)
Record Variant (A : Type) := {
  fields : Type;
  tag : byte;
  body : Codec fields;
  construct : fields → A;
  pattern : A → option fields;
}.
Arguments fields {A} _.
Arguments tag {A} _.
Arguments body {A} _.
Arguments construct {A} _ _.
Arguments pattern {A} _ _.

Fixpoint encode_variant {A} (vs : list (Variant A)) (a : A) (e : Encoder) : result EncodeError Encoder :=
  match vs with
  | [] => Ok e
  | v :: vs => match pattern v a with
               | Some x => encode (body v) x (write_u8 (tag v) e)
               | None => encode_variant vs a e
               end
  end.
Fixpoint decode_variant {A} (vs : list (Variant A)) (t : byte) (d : Decoder) : result DecodeError (A * Decoder) :=
  match vs with
  | [] => Err (DecErr.InvalidDiscriminant t)
  | v :: vs => if decide (t = tag v) then '(x, d) ← decode (body v) d; Ok (construct v x, d)
               else decode_variant vs t d
  end.
Fixpoint lightest {A} (vs : list (Variant A)) : nat :=
  match vs with
  | [] => 0
  | [v] => MIN_ENCODED_LEN (body v)
  | v :: vs => Nat.min (MIN_ENCODED_LEN (body v)) (lightest vs)
  end.
Definition enum {A} (vs : list (Variant A)) : Codec A := {|
  MIN_ENCODED_LEN := 1 + lightest vs;
  encode := encode_variant vs;
  decode d := '(t, d) ← read_u8 d; decode_variant vs t d;
|}.

(** *** Sequences *)

Fixpoint encode_all {A} (c : Codec A) (l : list A) (e : Encoder) : result EncodeError Encoder :=
  match l with [] => Ok e | a :: l => e ← encode c a e; encode_all c l e end.
Fixpoint decode_all {A} (c : Codec A) (n : nat) (d : Decoder) : result DecodeError (list A * Decoder) :=
  match n with
  | O => Ok ([], d)
  | S n => '(a, d) ← decode c d; '(l, d) ← decode_all c n d; Ok (a :: l, d)
  end.
Definition vec {A} (c : Codec A) : Codec (list A) := {|
  MIN_ENCODED_LEN := 1;
  encode l e := e ← write_len (length l) e; enc_descend (encode_all c l) e;
  decode d := '(len, d) ← read_len (MIN_ENCODED_LEN c) d; dec_descend (decode_all c len) d;
|}.

(** The loop of the ordered collections: each key above the last one kept. *)
Definition above {A} `{OrdKey A} (l : option A) (a : A) : Prop :=
  match l with Some b => ¬ key_le a b | None => True end.
#[global] Instance above_dec {A} `{OrdKey A} (l : option A) a : Decision (above l a).
Proof. destruct l; apply _. Defined.

Fixpoint decode_set {A} `{Countable A, OrdKey A} (c : Codec A) (n : nat) (kept : gset A) (d : Decoder) :
    result DecodeError (gset A * Decoder) :=
  match n with
  | O => Ok (kept, d)
  | S n => '(a, d) ← decode c d;
           if decide (above (last (set_iter kept)) a) then decode_set c n ({[a]} ∪ kept) d
           else Err DecErr.UnsortedKeys
  end.
Definition btree_set {A} `{Countable A, OrdKey A} (c : Codec A) : Codec (gset A) := {|
  MIN_ENCODED_LEN := 1;
  encode s e := e ← write_len (size s) e; enc_descend (encode_all c (set_iter s)) e;
  decode d := '(len, d) ← read_len (MIN_ENCODED_LEN c) d; dec_descend (decode_set c len ∅) d;
|}.

Fixpoint decode_map {K V} `{Countable K, OrdKey K} (ck : Codec K) (cv : Codec V) (n : nat) (kept : gmap K V)
    (d : Decoder) : result DecodeError (gmap K V * Decoder) :=
  match n with
  | O => Ok (kept, d)
  | S n => '(k, d) ← decode ck d; '(v, d) ← decode cv d;
           if decide (above (fst <$> last (map_iter kept)) k) then decode_map ck cv n (<[k := v]> kept) d
           else Err DecErr.UnsortedKeys
  end.
Definition btree_map {K V} `{Countable K, OrdKey K} (ck : Codec K) (cv : Codec V) : Codec (gmap K V) := {|
  MIN_ENCODED_LEN := 1;
  encode m e := e ← write_len (size m) e; enc_descend (encode_all (both ck cv) (map_iter m)) e;
  decode d := '(len, d) ← read_len (MIN_ENCODED_LEN ck + MIN_ENCODED_LEN cv) d;
    dec_descend (decode_map ck cv len ∅) d;
|}.

(** *** Capped runs and the byte fast path *)

Definition check (claimed max : nat) : result DecodeError nat :=
  if decide (max < claimed)%nat then Err (DecErr.BoundExceeded max claimed) else Ok claimed.
Definition decode_bounded_vec {A} (max : nat) (c : Codec A) (d : Decoder) : result DecodeError (list A * Decoder) :=
  '(len, d) ← read_len (MIN_ENCODED_LEN c) d; len ← check len max; dec_descend (decode_all c len) d.
Definition decode_bounded_btree_set {A} `{Countable A, OrdKey A} (max : nat) (c : Codec A) (d : Decoder) :
    result DecodeError (gset A * Decoder) :=
  '(len, d) ← read_len (MIN_ENCODED_LEN c) d; len ← check len max; dec_descend (decode_set c len ∅) d.
Definition decode_bounded_btree_map {K V} `{Countable K, OrdKey K} (max : nat) (ck : Codec K) (cv : Codec V)
    (d : Decoder) : result DecodeError (gmap K V * Decoder) :=
  '(len, d) ← read_len (MIN_ENCODED_LEN ck + MIN_ENCODED_LEN cv) d; len ← check len max;
  dec_descend (decode_map ck cv len ∅) d.
(** [Capped<C, N>]: the collection's own encoding, and a read that refuses a
    claimed length past the cap. *)
Definition capped {C} (c : Codec C) (decode_capped : Decoder → result DecodeError (C * Decoder)) : Codec C := {|
  MIN_ENCODED_LEN := 1; encode := encode c; decode := decode_capped;
|}.
Definition capped_vec {A} (max : nat) (c : Codec A) : Codec (list A) := capped (vec c) (decode_bounded_vec max c).
Definition capped_set {A} `{Countable A, OrdKey A} (max : nat) (c : Codec A) : Codec (gset A) :=
  capped (btree_set c) (decode_bounded_btree_set max c).
Definition capped_map {K V} `{Countable K, OrdKey K} (max : nat) (ck : Codec K) (cv : Codec V) : Codec (gmap K V) :=
  capped (btree_map ck cv) (decode_bounded_btree_map max ck cv).
Definition encode_bytes (b : bytes) (e : Encoder) : result EncodeError Encoder :=
  e ← write_len (length b) e; enc_descend (λ e, Ok (write_fixed b e)) e.
Definition decode_bytes (d : Decoder) : result DecodeError (bytes * Decoder) :=
  '(len, d) ← read_len 1 d; dec_descend (read_slice len) d.
Definition decode_bounded_bytes (max : nat) (d : Decoder) : result DecodeError (bytes * Decoder) :=
  '(len, d) ← read_len 1 d; len ← check len max; dec_descend (read_slice len) d.
(** A [Vec<u8>] field as the derive writes it, and [Bytes<N>]. *)
Definition bytes_codec : Codec bytes := {| MIN_ENCODED_LEN := 1; encode := encode_bytes; decode := decode_bytes |}.
Definition capped_bytes (max : nat) : Codec bytes := {|
  MIN_ENCODED_LEN := 1; encode := encode_bytes; decode := decode_bounded_bytes max;
|}.

(** ** What a codec promises *)

(** A write that puts down exactly [b], whatever is in the buffer, at a depth. *)
Definition puts (f : Encoder → result EncodeError Encoder) (d m : nat) (b : bytes) : Prop :=
  ∀ o, f {| out := o; enc_depth := d; enc_max := m |} = Ok {| out := o ++ b; enc_depth := d; enc_max := m |}.
(** A write that only appends, and appends the same wherever it is. *)
Definition appends (f : Encoder → result EncodeError Encoder) : Prop :=
  ∀ e e', f e = Ok e' → ∃ b, e' = write_fixed b e ∧ puts f (enc_depth e) (enc_max e) b.
(** What the decoder has in front of it. *)
Definition ahead (d : Decoder) (l : bytes) : Prop := drop (cursor d) (input d) = l.

Class Canonical {A} (c : Codec A) (ok : A → Prop) : Prop := {
  can_appends v : ok v → appends (encode c v);
  can_width v d m b : ok v → puts (encode c v) d m b → (MIN_ENCODED_LEN c ≤ length b)%nat;
  can_round v d b rest : ok v → puts (encode c v) (dec_depth d) (dec_max d) b → ahead d (b ++ rest) →
    decode c d = Ok (v, advance (length b) d);
  can_canon v d d' : decode c d = Ok (v, d') →
    ok v ∧ ∃ b rest, ahead d (b ++ rest) ∧ d' = advance (length b) d ∧ puts (encode c v) (dec_depth d) (dec_max d) b;
}.

(** A type whose encoding carries no length: with [levels] to descend, nothing
    can refuse it. *)
Class LengthFree {A} (c : Codec A) (ok : A → Prop) (levels : nat) : Prop :=
  length_free v d m : ok v → (d + levels ≤ m)%nat → ∃ b, puts (encode c v) d m b.

(** *** Writes *)

Lemma puts_inj f d m b b' : puts f d m b → puts f d m b' → b = b'.
Proof. intros H1 H2. specialize (H1 []). rewrite (H2 []) in H1. by injection H1. Qed.

Lemma puts_bind f g d m b1 b2 : puts f d m b1 → puts g d m b2 → puts (λ e, f e ≫= g) d m (b1 ++ b2).
Proof. intros H1 H2 o. cbn. rewrite H1. cbn. rewrite H2. by rewrite app_assoc. Qed.

Lemma puts_bind_inv f g d m b :
  appends f → appends g → puts (λ e, f e ≫= g) d m b →
  ∃ b1 b2, b = b1 ++ b2 ∧ puts f d m b1 ∧ puts g d m b2.
Proof.
  intros Hf Hg Hp. specialize (Hp []) as E. apply result_bind_ok in E as (e1 & E1 & E2).
  destruct (Hf _ _ E1) as (b1 & -> & P1). destruct (Hg _ _ E2) as (b2 & _ & P2). cbn in P1, P2.
  exists b1, b2. split; [|done]. by apply (puts_inj (λ e, f e ≫= g) d m); [|apply puts_bind].
Qed.

Lemma appends_bind f g : appends f → appends g → appends (λ e, f e ≫= g).
Proof.
  intros Hf Hg e e' E. apply result_bind_ok in E as (e1 & E1 & E2).
  destruct (Hf _ _ E1) as (b1 & -> & P1). destruct (Hg _ _ E2) as (b2 & -> & P2).
  exists (b1 ++ b2). split; [|by apply puts_bind]. unfold write_fixed. cbn. by rewrite app_assoc.
Qed.

Lemma appends_fixed b : appends (λ e, Ok (write_fixed b e)).
Proof. intros e e' [= <-]. exists b. split; [done|]. by intros o. Qed.
Lemma puts_fixed b d m : puts (λ e, Ok (write_fixed b e)) d m b.
Proof. by intros o. Qed.
Lemma puts_fixed_inv b d m b' : puts (λ e, Ok (write_fixed b e)) d m b' → b' = b.
Proof. intros H. eapply puts_inj; [exact H|apply puts_fixed]. Qed.

Lemma appends_then b g : appends g → appends (λ e, g (write_fixed b e)).
Proof. intros Hg. apply (appends_bind (λ e, Ok (write_fixed b e)) g); [apply appends_fixed|done]. Qed.
Lemma puts_then b g d m b' : puts g d m b' → puts (λ e, g (write_fixed b e)) d m (b ++ b').
Proof. intros Hg. apply (puts_bind (λ e, Ok (write_fixed b e)) g); [apply puts_fixed|done]. Qed.
Lemma puts_then_inv b g d m b' :
  appends g → puts (λ e, g (write_fixed b e)) d m b' → ∃ b2, b' = b ++ b2 ∧ puts g d m b2.
Proof.
  intros Hg Hp. destruct (puts_bind_inv (λ e, Ok (write_fixed b e)) g d m b') as (b1 & b2 & -> & P1 & P2);
    [apply appends_fixed|done|exact Hp|]. apply puts_fixed_inv in P1 as ->. by exists b2.
Qed.

Lemma appends_descend f : appends f → appends (enc_descend f).
Proof.
  intros Hf e e'. unfold enc_descend. destruct (decide _) as [|Hd]; [done|].
  intros (e1 & E1 & E2)%result_bind_ok. injection E2 as <-. destruct (Hf _ _ E1) as (b & -> & P). cbn in *.
  exists b. split; [done|]. intros o. cbn. rewrite decide_False by done. by rewrite P.
Qed.
Lemma puts_descend f d m b : (d < m)%nat → puts f (S d) m b → puts (enc_descend f) d m b.
Proof. intros Hd Hp o. unfold enc_descend. cbn. rewrite decide_False by lia. by rewrite Hp. Qed.
Lemma puts_descend_inv f d m b : appends f → puts (enc_descend f) d m b → (d < m)%nat ∧ puts f (S d) m b.
Proof.
  intros Hf Hp. specialize (Hp []) as E. unfold enc_descend in E. cbn in E. destruct (decide _) as [|Hd]; [done|].
  apply result_bind_ok in E as (e1 & E1 & E2). destruct (Hf _ _ E1) as (b1 & -> & P). cbn in *.
  split; [lia|]. injection E2 as ->. done.
Qed.

Lemma write_len_ok len e :
  Z.of_nat len ≤ Varint.MAX_LENGTH → write_len len e = Ok (write_fixed (Varint.field 4 (Z.of_nat len)) e).
Proof.
  intros Hl. unfold write_len. destruct (Varint.encode_spec (Z.of_nat len)) as [pad ->]; [lia|]. cbn.
  rewrite decide_True by (rewrite length_app; lia). by rewrite take_app_length.
Qed.
Lemma write_len_err len e :
  Varint.MAX_LENGTH < Z.of_nat len → write_len len e = Err (EncErr.LengthTooLarge (Z.of_nat len) Varint.MAX_LENGTH).
Proof. intros Hl. unfold write_len, Varint.encode. by rewrite decide_True. Qed.
Lemma appends_len len : appends (write_len len).
Proof.
  intros e e'. destruct (decide (Z.of_nat len ≤ Varint.MAX_LENGTH)) as [Hl|Hl].
  - rewrite write_len_ok by done. intros [= <-]. eexists. split; [done|]. intros o. by apply write_len_ok.
  - by rewrite write_len_err by lia.
Qed.
Lemma puts_len_inv len d m b :
  puts (write_len len) d m b → Z.of_nat len ≤ Varint.MAX_LENGTH ∧ b = Varint.field 4 (Z.of_nat len).
Proof.
  intros Hp. destruct (decide (Z.of_nat len ≤ Varint.MAX_LENGTH)) as [Hl|Hl].
  - split; [done|]. eapply puts_inj; [exact Hp|]. intros o. by apply write_len_ok.
  - specialize (Hp []). by rewrite write_len_err in Hp by lia.
Qed.
Lemma puts_len len d m :
  Z.of_nat len ≤ Varint.MAX_LENGTH → puts (write_len len) d m (Varint.field 4 (Z.of_nat len)).
Proof. intros Hl o. by apply write_len_ok. Qed.

(** *** Reads *)

Lemma ahead_app d b rest : ahead d (b ++ rest) → ahead (advance (length b) d) rest.
Proof. unfold ahead, advance. cbn. intros E. by rewrite <- drop_drop, E, drop_app_length. Qed.

Lemma ahead_length d l : ahead d l → remaining d = length l.
Proof. unfold ahead, remaining. intros <-. by rewrite length_drop. Qed.

Lemma advance_advance n k d : advance k (advance n d) = advance (n + k) d.
Proof. unfold advance. cbn. by rewrite Nat.add_assoc. Qed.

Lemma read_u8_ok d b rest : ahead d ([b] ++ rest) → read_u8 d = Ok (b, advance 1 d).
Proof.
  intros Ha. unfold read_u8. assert (E : input d !! cursor d = Some b); [|by rewrite E].
  rewrite <- (Nat.add_0_r (cursor d)), <- lookup_drop. by rewrite Ha.
Qed.
Lemma read_u8_inv d b d' : read_u8 d = Ok (b, d') → d' = advance 1 d ∧ ∃ rest, ahead d ([b] ++ rest).
Proof.
  unfold read_u8. destruct (input d !! cursor d) as [b'|] eqn:E; [|done]. intros [= -> <-]. split; [done|].
  exists (drop (S (cursor d)) (input d)). by apply drop_S.
Qed.
Lemma read_slice_ok d b rest : ahead d (b ++ rest) → read_slice (length b) d = Ok (b, advance (length b) d).
Proof.
  intros Ha. unfold read_slice. rewrite (ahead_length d _ Ha), length_app. rewrite decide_False by lia.
  by rewrite Ha, take_app_length.
Qed.
Lemma read_slice_inv n d b d' :
  read_slice n d = Ok (b, d') → length b = n ∧ d' = advance n d ∧ ∃ rest, ahead d (b ++ rest).
Proof.
  unfold read_slice, remaining. destruct (decide _) as [|Hn]; [done|]. intros [= <- <-].
  split; [rewrite length_take, length_drop; lia|]. split; [done|]. exists (drop n (drop (cursor d) (input d))).
  unfold ahead. by rewrite take_drop.
Qed.

Lemma read_len_ok d min n rest :
  (0 < min)%nat → Z.of_nat n ≤ Varint.MAX_LENGTH → (n * min ≤ length rest)%nat →
  ahead d (Varint.field 4 (Z.of_nat n) ++ rest) →
  read_len min d = Ok (n, advance (length (Varint.field 4 (Z.of_nat n))) d).
Proof.
  intros Hm Hn Hr Ha. unfold read_len. unfold ahead in Ha. rewrite Ha, Varint.read_field by lia. cbn [mbind result_bind]. cbv zeta.
  pose proof (ahead_length _ _ (ahead_app d _ _ Ha)) as ->. rewrite Nat2Z.id.
  rewrite decide_False; [done|]. rewrite Nat.mul_comm in Hr. pose proof (Nat.div_le_lower_bound (length rest) min n ltac:(lia) Hr). lia.
Qed.
Lemma read_len_inv d min n d' :
  read_len min d = Ok (n, d') →
  Z.of_nat n ≤ Varint.MAX_LENGTH ∧ d' = advance (length (Varint.field 4 (Z.of_nat n))) d ∧
  ∃ rest, ahead d (Varint.field 4 (Z.of_nat n) ++ rest).
Proof.
  unfold read_len. intros ([value consumed] & Hr & E)%result_bind_ok. cbn in E.
  apply Varint.read_canonical in Hr as (Hv & -> & rest & Hin). destruct (decide _); [done|]. injection E as <- <-.
  rewrite Z2Nat.id by lia. split; [lia|]. split; [done|]. by exists rest.
Qed.

Lemma dec_descend_ok {A} (f : Decoder → result DecodeError (A * Decoder)) d a n :
  (dec_depth d < dec_max d)%nat →
  f {| input := input d; cursor := cursor d; dec_depth := S (dec_depth d); dec_max := dec_max d |} =
    Ok (a, advance n {| input := input d; cursor := cursor d; dec_depth := S (dec_depth d); dec_max := dec_max d |}) →
  dec_descend f d = Ok (a, advance n d).
Proof. intros Hd Hf. unfold dec_descend. rewrite decide_False by lia. by rewrite Hf. Qed.
Lemma dec_descend_inv {A} (f : Decoder → result DecodeError (A * Decoder)) d a d' :
  dec_descend f d = Ok (a, d') →
  (dec_depth d < dec_max d)%nat ∧ ∃ d1,
    f {| input := input d; cursor := cursor d; dec_depth := S (dec_depth d); dec_max := dec_max d |} = Ok (a, d1) ∧
    d' = {| input := input d1; cursor := cursor d1; dec_depth := pred (dec_depth d1); dec_max := dec_max d1 |}.
Proof.
  unfold dec_descend. destruct (decide _) as [|Hd]; [done|]. intros ([a1 d1] & Hf & [= -> <-])%result_bind_ok.
  split; [lia|]. by exists d1.
Qed.

(** *** Scalars *)

Definition width_ok (n : nat) (x : Z) : Prop := 0 ≤ x < 256 ^ Z.of_nat n.
Definition any {A} (a : A) : Prop := True.

#[global] Instance array_canonical n : Canonical (array n) (λ b, length b = n).
Proof.
  split; cbn.
  - intros b _. apply appends_fixed.
  - intros b d m b' <- Hp. by apply puts_fixed_inv in Hp as ->.
  - intros b d b' rest <- Hp Ha. apply puts_fixed_inv in Hp as ->. by eapply read_slice_ok.
  - intros b d d' (Hl & -> & rest & Ha)%read_slice_inv. split; [done|]. exists b, rest.
    rewrite Hl. split; [done|]. split; [done|apply puts_fixed].
Qed.

Lemma carried_canonical {A B} (f : A → B) g c (okA : A → Prop) (okB : B → Prop) :
  Canonical c okB → (∀ a, okA a → okB (f a) ∧ g (f a) = Ok a) →
  (∀ b a, okB b → g b = Ok a → okA a ∧ f a = b) → Canonical (carried f g c) okA.
Proof.
  intros Hc Hf Hg. split; cbn.
  - intros a [Ha _]%Hf. by apply can_appends.
  - intros a d m b [Ha _]%Hf Hp. by eapply can_width.
  - intros a d b rest [Ha Hga]%Hf Hp Hahead. rewrite (can_round _ _ _ _ Ha Hp Hahead). cbn. by rewrite Hga.
  - intros a d d' ([b d1] & Hd & E)%result_bind_ok. cbn in E. apply result_bind_ok in E as (a' & Hga & [= -> <-]).
    apply can_canon in Hd as (Hb & Hd). destruct (Hg b a Hb Hga) as [Ha <-]. done.
Qed.

#[global] Instance uint_canonical n : Canonical (uint n) (width_ok n).
Proof.
  eapply carried_canonical; [apply array_canonical| |].
  - intros x Hx. split; [apply length_le_bytes|]. by rewrite le_val_bytes.
  - intros b x <- [= <-]. split; [apply le_val_bound|apply le_bytes_val].
Qed.
#[global] Instance uint_be_canonical n : Canonical (uint_be n) (width_ok n).
Proof.
  eapply carried_canonical; [apply array_canonical| |].
  - intros x Hx. split; [apply length_be_bytes|]. by rewrite be_val_bytes.
  - intros b x <- [= <-]. split; [apply be_val_bound|apply be_bytes_val].
Qed.

Definition signed_ok (n : nat) (x : Z) : Prop := - 256 ^ Z.of_nat n ≤ 2 * x < 256 ^ Z.of_nat n.
#[global] Instance sint_canonical n : (0 < n)%nat → Canonical (sint n) (signed_ok n).
Proof.
  intros Hn. assert (Hp : 0 < 256 ^ Z.of_nat n) by (apply Z.pow_pos_nonneg; lia).
  eapply carried_canonical; [apply uint_canonical| |]; unfold width_ok, signed_ok, to_signed.
  - intros x Hx. split; [by apply Z.mod_pos_bound|]. f_equal. destruct (decide (0 ≤ x)).
    + rewrite Z.mod_small by lia. rewrite decide_True; lia.
    + assert (x mod 256 ^ Z.of_nat n = x + 256 ^ Z.of_nat n) as ->; [|rewrite decide_False; lia].
      symmetry. apply (Z.mod_unique_pos _ _ (-1)); lia.
  - intros y x Hy [= <-]. destruct (decide _); (split; [lia|]).
    + by rewrite Z.mod_small by lia.
    + symmetry. apply (Z.mod_unique_pos _ _ (-1)); lia.
Qed.

#[global] Instance unit_canonical : Canonical unit_codec any.
Proof.
  assert (H0 : ∀ d m, puts (encode unit_codec ()) d m []) by (intros d m o; cbn; by rewrite app_nil_r).
  split; cbn [decode unit_codec MIN_ENCODED_LEN].
  - intros [] _ e e' [= <-]. exists []. split; [|apply H0]. unfold write_fixed. rewrite app_nil_r. by destruct e.
  - intros [] d m b _ _. lia.
  - intros [] d b rest _ Hp _. rewrite (puts_inj _ _ _ _ _ Hp (H0 _ _)). unfold advance. cbn. rewrite Nat.add_0_r.
    by destruct d.
  - intros [] d d' [= <-]. split; [done|]. exists [], (drop (cursor d) (input d)). split; [done|].
    split; [|apply H0]. unfold advance. cbn. rewrite Nat.add_0_r. by destruct d.
Qed.

#[global] Instance bool_canonical : Canonical bool_codec any.
Proof.
  split; cbn.
  - intros b _. apply appends_fixed.
  - intros b d m b' _ Hp. by apply puts_fixed_inv in Hp as ->.
  - intros b d b' rest _ Hp Ha. apply puts_fixed_inv in Hp as ->. rewrite (read_u8_ok _ _ _ Ha). by destruct b.
  - intros b d d' ([t d1] & Hr & E)%result_bind_ok. apply read_u8_inv in Hr as (-> & rest & Ha).
    split; [done|]. exists [t], rest. split; [done|]. cbn in E.
    destruct t; try done; injection E as <- <-; (split; [done|apply puts_fixed]).
Qed.

(** *** Composition *)

Section composition.
Context {A B : Type} (ca : Codec A) (cb : Codec B) (okA : A → Prop) (okB : B → Prop).
Context `{!Canonical ca okA, !Canonical cb okB}.

#[global] Instance nested_canonical : Canonical (nested ca) okA.
Proof.
  split; cbn.
  - intros a Ha. by apply appends_descend, can_appends.
  - intros a d m b Ha [_ Hp]%puts_descend_inv; [by eapply can_width|by apply can_appends].
  - intros a d b rest Ha Hp Hah. apply puts_descend_inv in Hp as [Hd Hp]; [|by apply can_appends].
    apply dec_descend_ok; [done|]. by eapply can_round.
  - intros a d d' (Hd & d1 & Hr & ->)%dec_descend_inv. apply can_canon in Hr as (Ha & b & rest & Hah & -> & Hp).
    split; [done|]. exists b, rest. split; [done|]. split; [done|]. by apply puts_descend.
Qed.

#[global] Instance both_canonical : Canonical (both ca cb) (λ p, okA p.1 ∧ okB p.2).
Proof.
  split; cbn.
  - intros [a b] [Ha Hb]. by apply appends_bind; apply can_appends.
  - intros [a b] d m l [Ha Hb] Hp. apply puts_bind_inv in Hp as (b1 & b2 & -> & P1 & P2); [|by apply can_appends..].
    rewrite length_app. pose proof (can_width _ _ _ _ Ha P1). pose proof (can_width _ _ _ _ Hb P2). lia.
  - intros [a b] d l rest [Ha Hb] Hp Hah.
    apply puts_bind_inv in Hp as (b1 & b2 & -> & P1 & P2); [|by apply can_appends..].
    rewrite <- app_assoc in Hah. cbn in Ha, Hb, P1, P2. rewrite (can_round _ _ _ _ Ha P1 Hah). cbn.
    rewrite (can_round b (advance (length b1) d) b2 rest Hb P2) by (by apply ahead_app). cbn. by rewrite advance_advance, length_app.
  - intros [a b] d d' ([a1 d1] & Hr1 & E)%result_bind_ok. apply result_bind_ok in E as ([b1 d2] & Hr2 & [= -> -> <-]).
    apply can_canon in Hr1 as (Ha & l1 & rest1 & Hah1 & -> & P1).
    apply can_canon in Hr2 as (Hb & l2 & rest2 & Hah2 & -> & P2). split; [done|].
    pose proof (ahead_app _ _ _ Hah1) as Hrest. unfold ahead in Hrest, Hah2. rewrite Hah2 in Hrest. subst rest1.
    exists (l1 ++ l2), rest2. rewrite <- app_assoc. split; [done|].
    split; [by rewrite advance_advance, length_app|by apply puts_bind].
Qed.

#[global] Instance option_canonical : Canonical (option_codec ca) (from_option okA True).
Proof.
  pose proof nested_canonical as Hn. split; cbn [encode decode option_codec MIN_ENCODED_LEN].
  - intros [a|] Ha; [|apply appends_fixed]. apply appends_then. by apply (can_appends (c := nested ca)).
  - intros [a|] d m b Ha Hp; [|by apply puts_fixed_inv in Hp as ->].
    apply puts_then_inv in Hp as (b2 & -> & _); [rewrite length_app; cbn; lia|by apply (can_appends (c := nested ca))].
  - intros [a|] d b rest Ha Hp Hah.
    + apply puts_then_inv in Hp as (b2 & -> & P); [|by apply (can_appends (c := nested ca))].
      rewrite <- app_assoc in Hah. rewrite (read_u8_ok _ _ _ Hah). cbn [mbind result_bind].
      rewrite (can_round (c := nested ca) a (advance 1 d) b2 rest Ha P) by (by apply (ahead_app d [x01])).
      cbn [mbind result_bind]. by rewrite advance_advance, length_app.
    + apply puts_fixed_inv in Hp as ->. by rewrite (read_u8_ok _ _ _ Hah).
  - intros o d d' ([t d1] & Hr & E)%result_bind_ok. apply read_u8_inv in Hr as (-> & rest & Hah). cbn [mbind result_bind] in E.
    destruct t; try done.
    + injection E as <- <-. split; [done|]. exists [x00], rest. split; [done|]. split; [done|apply puts_fixed].
    + apply result_bind_ok in E as ([a d2] & Hd & [= <- <-]).
      apply (can_canon (c := nested ca)) in Hd as (Ha & b & rest2 & Hah2 & -> & P). split; [done|].
      pose proof (ahead_app _ _ _ Hah) as Hrest. unfold ahead in Hrest, Hah2. cbn [length] in Hrest.
      rewrite Hah2 in Hrest. subst rest. exists ([x01] ++ b), rest2. rewrite <- app_assoc. split; [done|].
      split; [by rewrite advance_advance|by apply puts_then].
Qed.

End composition.

(** *** Enums *)

(** A derived enum: patterns invert their constructors, tags and variants are
    distinct, and every value is of some variant. *)
Record enum_laws {A} (vs : list (Variant A)) (ok : A → Prop) : Prop := {
  en_pattern v x : v ∈ vs → pattern v (construct v x) = Some x;
  en_construct v a x : v ∈ vs → pattern v a = Some x → construct v x = a;
  en_distinct v w x : v ∈ vs → w ∈ vs → is_Some (pattern w (construct v x)) → tag w = tag v;
  en_tags : NoDup (tag <$> vs);
  en_total a : ok a → ∃ v, v ∈ vs ∧ is_Some (pattern v a);
}.

Section enums.
Context {A : Type} (vs : list (Variant A)) (ok : A → Prop) (L : enum_laws vs ok).

Lemma same_tag v w : v ∈ vs → w ∈ vs → tag v = tag w → v = w.
Proof.
  intros [i Hi]%list_elem_of_lookup [j Hj]%list_elem_of_lookup E.
  assert (i = j) as ->; [|by simplify_eq].
  apply (proj1 (NoDup_alt _) (en_tags _ _ L) i j (tag v)).
  - by rewrite list_lookup_fmap, Hi.
  - by rewrite list_lookup_fmap, Hj, E.
Qed.

Lemma encode_variant_eq v x e :
  v ∈ vs → encode_variant vs (construct v x) e = encode (body v) x (write_u8 (tag v) e).
Proof.
  cut (∀ l, v ∈ l → (∀ w, w ∈ l → w ∈ vs) →
    encode_variant l (construct v x) e = encode (body v) x (write_u8 (tag v) e)); [intros Hl Hv; by apply Hl|].
  intros l Hv Hsub. induction l as [|w l IH]; [by apply not_elem_of_nil in Hv|].
  cbn [encode_variant]. destruct (pattern w (construct v x)) as [y|] eqn:E.
  - assert (w = v) as ->.
    { apply same_tag; [apply Hsub; by constructor|by apply Hsub|].
      eapply (en_distinct _ _ L); [by apply Hsub|apply Hsub; by constructor|by exists y]. }
    rewrite (en_pattern _ _ L) in E by (by apply Hsub). by injection E as ->.
  - apply elem_of_cons in Hv as [->|Hv].
    + by rewrite (en_pattern _ _ L) in E by (apply Hsub; constructor).
    + apply IH; [done|]. intros u Hu. apply Hsub. by constructor.
Qed.

Lemma decode_variant_tag v d :
  v ∈ vs → decode_variant vs (tag v) d = ('(x, d) ← decode (body v) d; Ok (construct v x, d)).
Proof.
  cut (∀ l, v ∈ l → (∀ w, w ∈ l → w ∈ vs) →
    decode_variant l (tag v) d = ('(x, d) ← decode (body v) d; Ok (construct v x, d))); [intros Hl Hv; by apply Hl|].
  intros l Hv Hsub. induction l as [|w l IH]; [by apply not_elem_of_nil in Hv|].
  cbn [decode_variant]. destruct (decide (tag v = tag w)) as [E|E].
  - assert (w = v) as ->; [|done]. apply same_tag; [apply Hsub; by constructor|by apply Hsub|done].
  - apply elem_of_cons in Hv as [->|Hv]; [done|]. apply IH; [done|]. intros u Hu. apply Hsub. by constructor.
Qed.

Lemma decode_variant_inv t d a d' :
  decode_variant vs t d = Ok (a, d') →
  ∃ v x, v ∈ vs ∧ t = tag v ∧ decode (body v) d = Ok (x, d') ∧ a = construct v x.
Proof.
  generalize vs. intros l. induction l as [|w l IH]; [done|]. cbn [decode_variant]. destruct (decide (t = tag w)) as [->|Hne].
  - intros ([x d1] & Hd & [= <- <-])%result_bind_ok. exists w, x. repeat split; try done. constructor.
  - intros (v & x & Hv & R)%IH. exists v, x. split; [by constructor|done].
Qed.

Lemma lightest_le v : v ∈ vs → (lightest vs ≤ MIN_ENCODED_LEN (body v))%nat.
Proof.
  clear L. induction vs as [|w l IH]; [by intros ?%not_elem_of_nil|]. intros [->|Hv]%elem_of_cons; cbn [lightest].
  - destruct l; [done|]. apply Nat.le_min_l.
  - destruct l as [|w' l']; [by apply not_elem_of_nil in Hv|]. etrans; [apply Nat.le_min_r|by apply IH].
Qed.

Lemma of_variant a : ok a → ∃ v x, v ∈ vs ∧ a = construct v x ∧ ok (construct v x).
Proof.
  intros Ha. destruct (en_total _ _ L a Ha) as (v & Hv & [x Hx]). exists v, x. split; [done|].
  by rewrite (en_construct _ _ L v a x Hv Hx).
Qed.

Lemma enum_puts v x d m b :
  v ∈ vs → puts (encode (enum vs) (construct v x)) d m b ↔ puts (λ e, encode (body v) x (write_u8 (tag v) e)) d m b.
Proof. intros Hv. unfold puts. cbn. split; intros Hp o; specialize (Hp o); by rewrite encode_variant_eq in *. Qed.

Lemma enum_canonical :
  (∀ v, v ∈ vs → Canonical (body v) (λ x, ok (construct v x))) → Canonical (enum vs) ok.
Proof.
  intros Hbody. split; cbn [decode enum MIN_ENCODED_LEN].
  - intros a (v & x & Hv & -> & Hx)%of_variant e e' E. cbn in E. rewrite encode_variant_eq in E by done.
    pose proof (Hbody v Hv) as Hc. destruct (appends_then [tag v] (encode (body v) x)) with e e' as (b & Hb & Hp);
      [by apply can_appends|exact E|]. exists b. split; [done|]. by apply enum_puts.
  - intros a d m b (v & x & Hv & -> & Hx)%of_variant Hp. apply enum_puts in Hp; [|done].
    pose proof (Hbody v Hv) as Hc. apply puts_then_inv in Hp as (b2 & -> & P); [|by apply can_appends].
    pose proof (can_width _ _ _ _ Hx P). pose proof (lightest_le v Hv). rewrite length_app. cbn [length]. lia.
  - intros a d b rest (v & x & Hv & -> & Hx)%of_variant Hp Hah. apply enum_puts in Hp; [|done].
    pose proof (Hbody v Hv) as Hc. apply puts_then_inv in Hp as (b2 & -> & P); [|by apply can_appends].
    rewrite <- app_assoc in Hah. rewrite (read_u8_ok _ _ _ Hah). cbn [mbind result_bind].
    rewrite decode_variant_tag by done.
    rewrite (can_round x (advance 1 d) b2 rest Hx P) by (by apply (ahead_app d [tag v])). cbn [mbind result_bind].
    by rewrite advance_advance, length_app.
  - intros a d d' ([t d1] & Hr & E)%result_bind_ok. apply read_u8_inv in Hr as (-> & rest & Hah).
    apply decode_variant_inv in E as (v & x & Hv & -> & Hd & ->). pose proof (Hbody v Hv) as Hc.
    apply can_canon in Hd as (Hx & b & rest2 & Hah2 & -> & P). split; [done|].
    pose proof (ahead_app _ _ _ Hah) as Hrest. unfold ahead in Hrest, Hah2. cbn [length] in Hrest.
    rewrite Hah2 in Hrest. subst rest. exists ([tag v] ++ b), rest2. rewrite <- app_assoc. split; [done|].
    split; [by rewrite advance_advance|]. apply enum_puts; [done|]. by apply puts_then.
Qed.

End enums.

(** *** Sequences *)

Section sequences.
Context {A : Type} (c : Codec A) (ok : A → Prop) `{!Canonical c ok}.

Lemma all_appends l : Forall ok l → appends (encode_all c l).
Proof.
  induction 1 as [|a l Ha _ IH].
  - intros e e' [= <-]. exists []. split.
    + unfold write_fixed. rewrite app_nil_r. by destruct e.
    + intros o. cbn. by rewrite app_nil_r.
  - cbn [encode_all]. apply appends_bind; [by apply can_appends|done].
Qed.

Lemma all_puts_nil d m b : puts (encode_all c []) d m b → b = [].
Proof. intros Hp. apply (puts_inj _ _ _ _ _ Hp). intros o. cbn. by rewrite app_nil_r. Qed.

Lemma all_puts_cons a l d m b :
  ok a → Forall ok l → puts (encode_all c (a :: l)) d m b →
  ∃ b1 b2, b = b1 ++ b2 ∧ puts (encode c a) d m b1 ∧ puts (encode_all c l) d m b2.
Proof. intros Ha Hl Hp. apply (puts_bind_inv (encode c a)); [by apply can_appends|by apply all_appends|done]. Qed.

Lemma all_width l d m b : Forall ok l → puts (encode_all c l) d m b → (length l * MIN_ENCODED_LEN c ≤ length b)%nat.
Proof.
  intros Hl. revert b. induction Hl as [|a l Ha Hl IH]; intros b Hp; [cbn; lia|].
  apply all_puts_cons in Hp as (b1 & b2 & -> & P1 & P2); [|done..]. apply IH in P2.
  pose proof (can_width (c := c) a d m b1 Ha P1). rewrite length_app. cbn [length]. rewrite Nat.mul_succ_l. lia.
Qed.

Lemma all_round l d b rest :
  Forall ok l → puts (encode_all c l) (dec_depth d) (dec_max d) b → ahead d (b ++ rest) →
  decode_all c (length l) d = Ok (l, advance (length b) d).
Proof.
  intros Hl. revert d b. induction Hl as [|a l Ha Hl IH]; intros d b Hp Hah.
  { apply all_puts_nil in Hp as ->. cbn. unfold advance. cbn. rewrite Nat.add_0_r. by destruct d. }
  apply all_puts_cons in Hp as (b1 & b2 & -> & P1 & P2); [|done..]. rewrite <- app_assoc in Hah.
  cbn [length decode_all]. rewrite (can_round _ _ _ _ Ha P1 Hah). cbn [mbind result_bind].
  rewrite (IH (advance (length b1) d) b2 P2) by (by apply ahead_app). cbn [mbind result_bind].
  by rewrite advance_advance, length_app.
Qed.

Lemma all_canon n d l d' :
  decode_all c n d = Ok (l, d') →
  length l = n ∧ Forall ok l ∧ ∃ b rest, ahead d (b ++ rest) ∧ d' = advance (length b) d ∧
    puts (encode_all c l) (dec_depth d) (dec_max d) b.
Proof.
  revert d l. induction n as [|n IH]; intros d l; cbn [decode_all].
  { intros [= <- <-]. split; [done|]. split; [done|]. exists [], (drop (cursor d) (input d)). split; [done|].
    split; [unfold advance; cbn; rewrite Nat.add_0_r; by destruct d|]. intros o. cbn. by rewrite app_nil_r. }
  intros ([a d1] & Hd & E)%result_bind_ok. apply result_bind_ok in E as ([l1 d2] & Hl & [= <- <-]).
  apply can_canon in Hd as (Ha & b1 & rest1 & Hah1 & -> & P1).
  apply IH in Hl as (Hn & Hl & b2 & rest2 & Hah2 & -> & P2). split; [cbn; lia|]. split; [by constructor|].
  pose proof (ahead_app _ _ _ Hah1) as Hrest. unfold ahead in Hrest, Hah2. rewrite Hah2 in Hrest. subst rest1.
  exists (b1 ++ b2), rest2. rewrite <- app_assoc. split; [done|].
  split; [by rewrite advance_advance, length_app|]. by apply (puts_bind (encode c a)).
Qed.

(** A run of elements under a length field: [items] of the value are written, and
    [collect] reads exactly the values those elements are the items of, among the
    lengths [fits] admits. *)
Lemma sequence_canonical {T} (s : Codec T) (items : T → list A) (fits : nat → Prop)
    (collect : nat → Decoder → result DecodeError (T * Decoder)) :
  (0 < MIN_ENCODED_LEN c)%nat → MIN_ENCODED_LEN s = 1%nat →
  (∀ t e, encode s t e = (e ← write_len (length (items t)) e; enc_descend (encode_all c (items t)) e)) →
  (∀ d t d', decode s d = Ok (t, d') ↔
     ∃ n d1, read_len (MIN_ENCODED_LEN c) d = Ok (n, d1) ∧ fits n ∧ dec_descend (collect n) d1 = Ok (t, d')) →
  (∀ n d t d', collect n d = Ok (t, d') ↔ decode_all c n d = Ok (items t, d')) →
  Canonical s (λ t, Forall ok (items t) ∧ fits (length (items t))).
Proof.
  intros Hmin Hw Henc Hdec Hcol.
  assert (Happ : ∀ t, Forall ok (items t) → appends (λ e, write_len (length (items t)) e ≫= enc_descend (encode_all c (items t)))).
  { intros t Ht. apply appends_bind; [apply appends_len|by apply appends_descend, all_appends]. }
  assert (Heq : ∀ t d m b, puts (encode s t) d m b ↔
    puts (λ e, write_len (length (items t)) e ≫= enc_descend (encode_all c (items t))) d m b).
  { intros t d m b. unfold puts. split; intros Hp o; specialize (Hp o); rewrite Henc in *; done. }
  assert (Hinv : ∀ t d m b, Forall ok (items t) → puts (encode s t) d m b →
    ∃ b2, b = Varint.field 4 (Z.of_nat (length (items t))) ++ b2 ∧ Z.of_nat (length (items t)) ≤ Varint.MAX_LENGTH ∧
      (d < m)%nat ∧ puts (encode_all c (items t)) (S d) m b2).
  { intros t d m b Ht Hp. apply Heq in Hp. apply puts_bind_inv in Hp as (b1 & b2 & -> & P1 & P2);
      [|apply appends_len|by apply appends_descend, all_appends].
    apply puts_len_inv in P1 as [Hn ->]. apply puts_descend_inv in P2 as [Hd P2]; [|by apply all_appends]. by exists b2. }
  split.
  - intros t [Ht _] e e' E. rewrite Henc in E. destruct (Happ t Ht e e' E) as (b & Hb & Hp). exists b.
    split; [done|]. by apply Heq.
  - intros t d m b [Ht _] Hp. destruct (Hinv t d m b Ht Hp) as (b2 & -> & _). rewrite Hw, length_app.
    pose proof (Varint.field_nonempty 4 (Z.of_nat (length (items t))) ltac:(lia)). lia.
  - intros t d b rest [Ht Hf] Hp Hah. destruct (Hinv t _ _ b Ht Hp) as (b2 & -> & Hn & Hd & P).
    rewrite <- app_assoc in Hah. apply Hdec. eexists _, _.
    split; [apply (read_len_ok d (MIN_ENCODED_LEN c) (length (items t)) (b2 ++ rest)); try done|].
    { rewrite length_app. pose proof (all_width _ _ _ _ Ht P). lia. }
    split; [done|]. rewrite length_app, <- advance_advance. apply dec_descend_ok; [done|].
    apply Hcol. apply (all_round _ _ _ rest); [done|exact P|]. by apply (ahead_app d).
  - intros t d d' (n & d1 & Hr & Hf & Hc)%Hdec. apply read_len_inv in Hr as (Hn & -> & rest & Hah).
    apply dec_descend_inv in Hc as (Hd & d2 & Hc & ->). apply Hcol in Hc.
    apply all_canon in Hc as (Hl & Ht & b & rest2 & Hah2 & -> & P). rewrite Hl. split; [done|].
    pose proof (ahead_app _ _ _ Hah) as Hrest. unfold ahead in Hrest, Hah2. cbn [input cursor advance] in Hrest, Hah2.
    rewrite Hah2 in Hrest. subst rest. exists (Varint.field 4 (Z.of_nat n) ++ b), rest2.
    rewrite <- app_assoc. split; [done|]. split.
    + unfold advance. cbn. by rewrite length_app, Nat.add_assoc.
    + apply Heq. rewrite Hl. apply puts_bind; [by apply puts_len|by apply puts_descend].
Qed.

End sequences.

Lemma decode_sized {T} (f : nat → Decoder → result DecodeError (T * Decoder)) min d t d' :
  ('(len, d) ← read_len min d; dec_descend (f len) d) = Ok (t, d') ↔
  ∃ n d1, read_len min d = Ok (n, d1) ∧ True ∧ dec_descend (f n) d1 = Ok (t, d').
Proof.
  rewrite result_bind_ok. split; [intros ([n d1] & H1 & H2)|intros (n & d1 & H1 & _ & H2)]; [by eexists _, _|].
  by exists (n, d1).
Qed.

#[global] Instance vec_canonical {A} (c : Codec A) ok `{!Canonical c ok} :
  (0 < MIN_ENCODED_LEN c)%nat → Canonical (vec c) (λ l, Forall ok l ∧ True).
Proof.
  intros Hm. apply (sequence_canonical c ok (vec c) (λ l, l) (λ _, True) (decode_all c)); try done.
  intros d t d'. apply decode_sized.
Qed.

Lemma decode_bounded {T} (f : nat → Decoder → result DecodeError (T * Decoder)) min max d t d' :
  ('(len, d) ← read_len min d; len ← check len max; dec_descend (f len) d) = Ok (t, d') ↔
  ∃ n d1, read_len min d = Ok (n, d1) ∧ (n ≤ max)%nat ∧ dec_descend (f n) d1 = Ok (t, d').
Proof.
  rewrite result_bind_ok. unfold check. split.
  - intros ([n d1] & H1 & H2). exists n, d1. destruct (decide _); [done|]. split; [done|]. split; [lia|done].
  - intros (n & d1 & H1 & Hn & H2). exists (n, d1). rewrite decide_False by lia. done.
Qed.

#[global] Instance capped_vec_canonical {A} max (c : Codec A) ok `{!Canonical c ok} :
  (0 < MIN_ENCODED_LEN c)%nat → Canonical (capped_vec max c) (λ l, Forall ok l ∧ (length l ≤ max)%nat).
Proof.
  intros Hm. apply (sequence_canonical c ok (capped_vec max c) (λ l, l) (λ n, n ≤ max)%nat (decode_all c)); try done.
  intros d t d'. apply decode_bounded.
Qed.

(** *** Ordered sets and maps *)

Section sets.
Context {A : Type} `{Countable A, OrdKey A}.

Lemma set_iter_sorted (s : gset A) : StronglySorted key_le (set_iter s).
Proof. apply (StronglySorted_merge_sort _). Qed.
Lemma set_iter_nodup (s : gset A) : NoDup (set_iter s).
Proof. rewrite set_iter_perm. apply NoDup_elements. Qed.
Lemma length_set_iter (s : gset A) : length (set_iter s) = size s.
Proof. by rewrite (Permutation_length (set_iter_perm s)). Qed.

#[global] Instance set_iter_inj : Inj (=) (=) (set_iter (A := A)).
Proof. intros s t E. apply set_eq. intros x. by rewrite <- !elem_of_set_iter, E. Qed.

(** A list in strictly ascending order is the walk of the set of its elements. *)
Lemma sorted_set_iter (s : gset A) l :
  StronglySorted key_le l → NoDup l → (∀ x, x ∈ l ↔ x ∈ s) → set_iter s = l.
Proof.
  intros Hs Hn Hm. apply (StronglySorted_unique key_le); [apply set_iter_sorted|done|].
  apply NoDup_Permutation; [apply set_iter_nodup|done|]. intros x. by rewrite elem_of_set_iter, Hm.
Qed.

Lemma above_all (s : gset A) a : above (last (set_iter s)) a ↔ ∀ x, x ∈ s → key_le x a ∧ x ≠ a.
Proof.
  split.
  - intros Ha x Hx. apply elem_of_set_iter in Hx. destruct (last (set_iter s)) as [y|] eqn:E.
    2: { apply last_None in E. rewrite E in Hx. by apply not_elem_of_nil in Hx. }
    apply last_Some in E as [l E]. pose proof (set_iter_sorted s) as Hs. rewrite E in Hs, Hx. cbn in Ha.
    assert (Hxy : key_le x y).
    { apply elem_of_app in Hx as [Hx|Hx]; [|apply list_elem_of_singleton in Hx as ->; reflexivity].
      apply list_elem_of_split in Hx as (l1 & l2 & ->). rewrite <- app_assoc in Hs. apply StronglySorted_app in Hs as (_ & _ & Hs).
      inversion Hs as [|? ? _ Hf]. eapply Forall_forall; [exact Hf|]. apply elem_of_app. right. by apply list_elem_of_singleton. }
    destruct (total key_le y a) as [Hya|]; [|done]. split; [by transitivity y|]. by intros ->.
  - intros Hall. destruct (last (set_iter s)) as [y|] eqn:E; [|done]. cbn. apply last_Some in E as [l E].
    destruct (Hall y) as [Hle Hne]. { apply elem_of_set_iter. rewrite E. apply elem_of_app. right. by apply list_elem_of_singleton. }
    intros Hge. apply Hne. by apply (anti_symm key_le).
Qed.

Lemma set_iter_snoc (s : gset A) a : above (last (set_iter s)) a → set_iter ({[a]} ∪ s) = set_iter s ++ [a].
Proof.
  rewrite above_all. intros Ha. apply sorted_set_iter.
  - apply StronglySorted_app. split; [|split; [apply set_iter_sorted|repeat constructor]].
    intros x y Hx ->%list_elem_of_singleton. apply Ha. by apply elem_of_set_iter.
  - apply NoDup_app. split; [apply set_iter_nodup|]. split; [|apply NoDup_singleton].
    intros x Hx ->%list_elem_of_singleton. apply elem_of_set_iter in Hx. by apply (Ha a).
  - intros x. rewrite elem_of_app, elem_of_set_iter, list_elem_of_singleton. set_solver.
Qed.

(** An element of a walk is above whatever set walks as the part before it. *)
Lemma walk_above (s kept : gset A) a l :
  set_iter s = set_iter kept ++ a :: l → above (last (set_iter kept)) a.
Proof.
  intros E. apply above_all. intros x Hx. apply elem_of_set_iter in Hx.
  pose proof (set_iter_sorted s) as Hs. pose proof (set_iter_nodup s) as Hn. rewrite E in Hs, Hn. split.
  - eapply (StronglySorted_app_1_elem_of key_le); [exact Hs|done|constructor].
  - apply NoDup_app in Hn as (_ & Hn & _). intros ->. apply (Hn a Hx). constructor.
Qed.

Context (c : Codec A).

Lemma decode_set_spec n kept d s d' :
  decode_set c n kept d = Ok (s, d') ↔ ∃ l, decode_all c n d = Ok (l, d') ∧ set_iter s = set_iter kept ++ l.
Proof.
  revert kept d. induction n as [|n IH]; intros kept d; cbn [decode_set decode_all].
  { split.
    - intros [= -> ->]. exists []. by rewrite app_nil_r.
    - intros (l & [= <- <-] & E). rewrite app_nil_r in E. by apply (inj set_iter) in E as ->. }
  rewrite result_bind_ok. split.
  - intros ([a d1] & Ha & E). destruct (decide _) as [Hab|]; [|done]. apply IH in E as (l & El & Es).
    exists (a :: l). rewrite Ha. cbn. rewrite El. split; [done|]. by rewrite Es, set_iter_snoc, <- app_assoc.
  - intros (l & E & Es). apply result_bind_ok in E as ([a d1] & Ha & E).
    apply result_bind_ok in E as ([l1 d2] & El & [= <- <-]). exists (a, d1). split; [done|].
    pose proof (walk_above _ _ _ _ Es) as Hab. rewrite decide_True by done. apply IH. exists l1. split; [done|].
    by rewrite Es, set_iter_snoc, <- app_assoc.
Qed.

Lemma decode_set_walk n d s d' : decode_set c n ∅ d = Ok (s, d') ↔ decode_all c n d = Ok (set_iter s, d').
Proof.
  rewrite decode_set_spec. split.
  - by intros (l & E & ->).
  - intros E. by exists (set_iter s).
Qed.

#[global] Instance btree_set_canonical ok `{!Canonical c ok} :
  (0 < MIN_ENCODED_LEN c)%nat → Canonical (btree_set c) (λ s, Forall ok (set_iter s) ∧ True).
Proof.
  intros Hm. apply (sequence_canonical c ok (btree_set c) set_iter (λ _, True) (λ n, decode_set c n ∅)); try done.
  - intros s e. cbn. by rewrite length_set_iter.
  - intros d s d'. apply (decode_sized (λ n, decode_set c n ∅)).
  - apply decode_set_walk.
Qed.

#[global] Instance capped_set_canonical max ok `{!Canonical c ok} :
  (0 < MIN_ENCODED_LEN c)%nat → Canonical (capped_set max c) (λ s, Forall ok (set_iter s) ∧ (length (set_iter s) ≤ max)%nat).
Proof.
  intros Hm.
  apply (sequence_canonical c ok (capped_set max c) set_iter (λ n, n ≤ max)%nat (λ n, decode_set c n ∅)); try done.
  - intros s e. cbn. by rewrite length_set_iter.
  - intros d s d'. apply (decode_bounded (λ n, decode_set c n ∅)).
  - apply decode_set_walk.
Qed.

End sets.

Section maps.
Context {K V : Type} `{Countable K, OrdKey K}.

Lemma map_iter_keys (m : gmap K V) : (map_iter m).*1 = set_iter (dom m).
Proof.
  symmetry. apply sorted_set_iter.
  - pose proof (map_iter_sorted m) as Hs. induction Hs as [|p l _ IH Hf]; cbn; constructor; [done|].
    apply Forall_fmap. exact Hf.
  - apply NoDup_map_iter.
  - intros k. rewrite list_elem_of_fmap, elem_of_dom. split.
    + intros ([k' v] & -> & Hv). apply elem_of_map_iter in Hv. by exists v.
    + intros [v Hv]. exists (k, v). by rewrite elem_of_map_iter.
Qed.

#[global] Instance map_iter_inj : Inj (=) (=) (map_iter (K := K) (V := V)).
Proof. intros m1 m2 E. apply map_eq. intros k. apply option_eq. intros v. by rewrite <- !elem_of_map_iter, E. Qed.

(** Lists of bindings with the same distinct keys in the same order. *)
Lemma bindings_eq (l1 l2 : list (K * V)) : l1.*1 = l2.*1 → NoDup l1.*1 → (∀ p, p ∈ l1 → p ∈ l2) → l1 = l2.
Proof.
  revert l2. induction l1 as [|[k v] l1 IH]; intros [|[k2 v2] l2] E Hn Hin; try done. cbn in E, Hn.
  injection E as <- E. apply NoDup_cons in Hn as [Hk Hn].
  assert (v2 = v) as ->.
  { assert (Hc : (k, v) ∈ (k, v2) :: l2) by (apply Hin; constructor).
    apply elem_of_cons in Hc as [Hc|Hc]; [by injection Hc|].
    destruct Hk. rewrite E. by apply (list_elem_of_fmap_2 fst) in Hc. }
  f_equal. apply IH; [done|done|]. intros p Hp. specialize (Hin p). rewrite !elem_of_cons in Hin.
  destruct Hin as [->|Hin]; [by right| |done]. destruct Hk. by apply (list_elem_of_fmap_2 fst) in Hp.
Qed.

Lemma map_iter_snoc (m : gmap K V) k v :
  above (fst <$> last (map_iter m)) k → map_iter (<[k := v]> m) = map_iter m ++ [(k, v)].
Proof.
  intros Ha. rewrite <- fmap_last, map_iter_keys in Ha.
  assert (Hk : m !! k = None).
  { destruct (m !! k) as [w|] eqn:E; [|done]. destruct (proj1 (above_all _ _) Ha k) as [_ []]; [|done].
    apply elem_of_dom. by exists w. }
  apply bindings_eq.
  - by rewrite fmap_app, !map_iter_keys, dom_insert_L, set_iter_snoc.
  - apply NoDup_map_iter.
  - intros [k' v']. rewrite elem_of_map_iter, elem_of_app, elem_of_map_iter, list_elem_of_singleton.
    intros [[-> ->]|[Hne Hv]]%lookup_insert_Some; [by right|by left].
Qed.

Context (ck : Codec K) (cv : Codec V).

Lemma decode_map_spec n kept d m d' :
  decode_map ck cv n kept d = Ok (m, d') ↔
  ∃ l, decode_all (both ck cv) n d = Ok (l, d') ∧ map_iter m = map_iter kept ++ l.
Proof.
  revert kept d. induction n as [|n IH]; intros kept d; cbn [decode_map decode_all].
  { split.
    - intros [= -> ->]. exists []. by rewrite app_nil_r.
    - intros (l & [= <- <-] & E). rewrite app_nil_r in E. by apply (inj map_iter) in E as ->. }
  rewrite result_bind_ok. cbn [decode both]. split.
  - intros ([k d1] & Hk & E). apply result_bind_ok in E as ([v d2] & Hv & E).
    destruct (decide _) as [Hab|]; [|done]. apply IH in E as (l & El & Es).
    exists ((k, v) :: l). rewrite Hk. cbn. rewrite Hv. cbn. rewrite El. split; [done|].
    by rewrite Es, map_iter_snoc, <- app_assoc.
  - intros (l & E & Es). apply result_bind_ok in E as ([[k v] d1] & Hb & E).
    apply result_bind_ok in E as ([l1 d2] & El & [= <- <-]).
    apply result_bind_ok in Hb as ([k' dk] & Hk & Hb). apply result_bind_ok in Hb as ([v' dv] & Hv & [= -> -> ->]).
    exists (k, dk). split; [done|]. apply result_bind_ok. exists (v, d1). split; [done|].
    assert (Hab : above (fst <$> last (map_iter kept)) k).
    { rewrite <- fmap_last, map_iter_keys. apply (walk_above (dom m) (dom kept) k l1.*1).
      by rewrite <- !map_iter_keys, Es, fmap_app. }
    rewrite decide_True by done. apply IH. exists l1. split; [done|]. by rewrite Es, map_iter_snoc, <- app_assoc.
Qed.

Lemma decode_map_walk n d m d' :
  decode_map ck cv n ∅ d = Ok (m, d') ↔ decode_all (both ck cv) n d = Ok (map_iter m, d').
Proof.
  rewrite decode_map_spec. split.
  - by intros (l & E & ->).
  - intros E. by exists (map_iter m).
Qed.

#[global] Instance btree_map_canonical okK okV `{!Canonical ck okK, !Canonical cv okV} :
  (0 < MIN_ENCODED_LEN ck + MIN_ENCODED_LEN cv)%nat →
  Canonical (btree_map ck cv) (λ m, Forall (λ p, okK p.1 ∧ okV p.2) (map_iter m) ∧ True).
Proof.
  intros Hm. apply (sequence_canonical (both ck cv) _ (btree_map ck cv) map_iter (λ _, True) (λ n, decode_map ck cv n ∅)); try done.
  - intros m e. cbn. by rewrite length_map_iter.
  - intros d m d'. apply (decode_sized (λ n, decode_map ck cv n ∅)).
  - apply decode_map_walk.
Qed.

#[global] Instance capped_map_canonical max okK okV `{!Canonical ck okK, !Canonical cv okV} :
  (0 < MIN_ENCODED_LEN ck + MIN_ENCODED_LEN cv)%nat →
  Canonical (capped_map max ck cv)
    (λ m, Forall (λ p, okK p.1 ∧ okV p.2) (map_iter m) ∧ (length (map_iter m) ≤ max)%nat).
Proof.
  intros Hm. apply (sequence_canonical (both ck cv) _ (capped_map max ck cv) map_iter (λ n, n ≤ max)%nat
    (λ n, decode_map ck cv n ∅)); try done.
  - intros m e. cbn. by rewrite length_map_iter.
  - intros d m d'. apply (decode_bounded (λ n, decode_map ck cv n ∅)).
  - apply decode_map_walk.
Qed.

End maps.

(** *** Bytes in one copy *)

#[global] Instance u8_canonical : Canonical u8 any.
Proof.
  split; cbn.
  - intros b _. apply appends_fixed.
  - intros b d m b' _ Hp. by apply puts_fixed_inv in Hp as ->.
  - intros b d b' rest _ Hp Ha. apply puts_fixed_inv in Hp as ->. by apply (read_u8_ok _ _ _ Ha).
  - intros b d d' (-> & rest & Ha)%read_u8_inv. split; [done|]. exists [b], rest. split; [done|]. split; [done|apply puts_fixed].
Qed.

Lemma encode_all_u8 b e : encode_all u8 b e = Ok (write_fixed b e).
Proof.
  revert e. induction b as [|x b IH]; intros e; cbn.
  - unfold write_fixed. rewrite app_nil_r. by destruct e.
  - rewrite IH. unfold write_u8, write_fixed. cbn. by rewrite <- app_assoc.
Qed.

Lemma decode_all_u8 n d : (n ≤ remaining d)%nat → decode_all u8 n d = read_slice n d.
Proof.
  intros Hn. unfold remaining in Hn.
  assert (Hsplit : ahead d (take n (drop (cursor d) (input d)) ++ drop n (drop (cursor d) (input d)))).
  { unfold ahead. by rewrite take_drop. }
  set (b := take n _) in Hsplit. assert (Hb : length b = n) by (unfold b; rewrite length_take, length_drop; lia).
  rewrite <- Hb, (read_slice_ok _ _ _ Hsplit).
  eapply (all_round u8 any); [by apply Forall_true| |exact Hsplit]. intros o. apply encode_all_u8.
Qed.

(** A claimed length is within the input, so both ways of reading it succeed. *)
Lemma read_len_copy d n d1 :
  read_len 1 d = Ok (n, d1) → dec_descend (read_slice n) d1 = dec_descend (decode_all u8 n) d1.
Proof.
  intros Hr. unfold read_len in Hr. apply result_bind_ok in Hr as ([value used] & _ & E). cbn [mbind] in E.
  destruct (decide _) as [|Hn]; [done|]. injection E as <- <-. rewrite Nat.div_1_r in Hn.
  unfold dec_descend. destruct (decide _); [done|]. rewrite decode_all_u8; [done|]. unfold remaining in *. cbn in *. lia.
Qed.
Lemma bytes_copy_encode b e : encode bytes_codec b e = encode (vec u8) b e.
Proof.
  cbn. unfold encode_bytes. destruct (write_len (length b) e) as [e'|]; [|done]. cbn.
  unfold enc_descend. destruct (decide _); [done|]. by rewrite encode_all_u8.
Qed.
Lemma bytes_copy_decode d : decode bytes_codec d = decode (vec u8) d.
Proof.
  cbn. unfold decode_bytes. destruct (read_len 1 d) as [[n d1]|] eqn:E; [|done]. cbn. by eapply read_len_copy.
Qed.
Lemma bytes_copy_capped max d : decode (capped_bytes max) d = decode (capped_vec max u8) d.
Proof.
  cbn [decode capped_bytes capped_vec capped]. unfold decode_bounded_bytes, decode_bounded_vec.
  change (MIN_ENCODED_LEN u8) with 1%nat. destruct (read_len 1 d) as [[n d1]|] eqn:E; [|done]. cbn.
  unfold check. destruct (decide _); [done|]. cbn. by eapply read_len_copy.
Qed.

(** The byte fast path is the generic encoding. A byte run written and read in
    one copy gives, on every input, at every depth and with the same refusals,
    what writing and reading it element by element gives. *)
Theorem bytes_fast_path :
  (∀ b e, encode bytes_codec b e = encode (vec u8) b e) ∧ (∀ d, decode bytes_codec d = decode (vec u8) d) ∧
  (∀ max d, decode (capped_bytes max) d = decode (capped_vec max u8) d).
Proof.
  split; [|split]; [apply bytes_copy_encode|apply bytes_copy_decode|apply bytes_copy_capped].
Qed.

(** ** The codec *)

(** The codecs the crate builds, with the values of their types. *)
Inductive built : ∀ A : Type, Codec A → (A → Prop) → Prop :=
  | built_array n : built bytes (array n) (λ b, length b = n)
  | built_uint n : built Z (uint n) (width_ok n)
  | built_sint n : (0 < n)%nat → built Z (sint n) (signed_ok n)
  | built_uint_be n : built Z (uint_be n) (width_ok n)
  | built_u8 : built byte u8 any
  | built_bool : built bool bool_codec any
  | built_unit : built () unit_codec any
  | built_bytes : built bytes bytes_codec any
  | built_capped_bytes max : built bytes (capped_bytes max) (λ b, length b ≤ max)%nat
  | built_carried A B (f : A → B) g c (okA : A → Prop) (okB : B → Prop) :
      built B c okB → (∀ a, okA a → okB (f a) ∧ g (f a) = Ok a) →
      (∀ b a, okB b → g b = Ok a → okA a ∧ f a = b) → built A (carried f g c) okA
  | built_nested A c ok : built A c ok → built A (nested c) ok
  | built_both A B ca cb okA okB :
      built A ca okA → built B cb okB → built (A * B) (both ca cb) (λ p, okA p.1 ∧ okB p.2)
  | built_option A c ok : built A c ok → built (option A) (option_codec c) (from_option ok True)
  | built_enum A (vs : list (Variant A)) ok :
      enum_laws vs ok → (∀ v, v ∈ vs → built (fields v) (body v) (λ x, ok (construct v x))) → built A (enum vs) ok
  | built_vec A c ok : built A c ok → (0 < MIN_ENCODED_LEN c)%nat → built (list A) (vec c) (Forall ok)
  | built_capped_vec A max c ok : built A c ok → (0 < MIN_ENCODED_LEN c)%nat →
      built (list A) (capped_vec max c) (λ l, Forall ok l ∧ (length l ≤ max)%nat)
  | built_set A `{Countable A, OrdKey A} c ok : built A c ok → (0 < MIN_ENCODED_LEN c)%nat →
      built (gset A) (btree_set c) (λ s, Forall ok (set_iter s))
  | built_map K V `{Countable K, OrdKey K} ck cv okK okV : built K ck okK → built V cv okV →
      (0 < MIN_ENCODED_LEN ck + MIN_ENCODED_LEN cv)%nat →
      built (gmap K V) (btree_map ck cv) (λ m, Forall (λ p, okK p.1 ∧ okV p.2) (map_iter m))
  | built_capped_set A `{Countable A, OrdKey A} max c ok : built A c ok → (0 < MIN_ENCODED_LEN c)%nat →
      built (gset A) (capped_set max c) (λ s, Forall ok (set_iter s) ∧ (length (set_iter s) ≤ max)%nat)
  | built_capped_map K V `{Countable K, OrdKey K} max ck cv okK okV : built K ck okK → built V cv okV →
      (0 < MIN_ENCODED_LEN ck + MIN_ENCODED_LEN cv)%nat →
      built (gmap K V) (capped_map max ck cv)
        (λ m, Forall (λ p, okK p.1 ∧ okV p.2) (map_iter m) ∧ (length (map_iter m) ≤ max)%nat).
Arguments built {A} _ _.

Lemma canonical_ext {A} (c c' : Codec A) (ok ok' : A → Prop) :
  Canonical c ok → (∀ v, ok v ↔ ok' v) → MIN_ENCODED_LEN c' = MIN_ENCODED_LEN c →
  (∀ v e, encode c' v e = encode c v e) → (∀ d, decode c' d = decode c d) → Canonical c' ok'.
Proof.
  intros Hc Hok Hw He Hd.
  assert (Hp : ∀ v d m b, puts (encode c' v) d m b ↔ puts (encode c v) d m b).
  { intros v d m b. unfold puts. split; intros H o; specialize (H o); rewrite He in *; done. }
  split.
  - intros v Hv%Hok e e' E. rewrite He in E. destruct (can_appends v Hv e e' E) as (b & -> & P). exists b. by rewrite Hp.
  - intros v d m b Hv%Hok P%Hp. rewrite Hw. by eapply can_width.
  - intros v d b rest Hv%Hok P%Hp Ha. rewrite Hd. by eapply can_round.
  - intros v d d' E. rewrite Hd in E. apply can_canon in E as (Hv & b & rest & Ha & -> & P). split; [by apply Hok|].
    exists b, rest. by rewrite Hp.
Qed.

Lemma built_canonical {A} (c : Codec A) ok : built c ok → Canonical c ok.
Proof.
  induction 1; try apply _.
  - by apply sint_canonical.
  - eapply canonical_ext; [apply (vec_canonical u8 any); cbn; lia| |done|apply bytes_copy_encode|apply bytes_copy_decode].
    intros b. split; [done|]. split; [by apply Forall_true|done].
  - eapply canonical_ext; [apply (capped_vec_canonical max u8 any); cbn; lia| |done|apply bytes_copy_encode|apply bytes_copy_capped].
    intros b. split; [by intros [_ ?]|]. split; [by apply Forall_true|done].
  - by eapply carried_canonical.
  - by apply enum_canonical.
  - eapply canonical_ext; [by apply vec_canonical| |done..]. intros l. naive_solver.
  - by apply capped_vec_canonical.
  - eapply canonical_ext; [by apply btree_set_canonical| |done..]. intros l. naive_solver.
  - eapply canonical_ext; [by apply btree_map_canonical| |done..]. intros l. naive_solver.
  - by apply capped_set_canonical.
  - by apply capped_map_canonical.
Qed.

Lemma canonical_iff {A} (c : Codec A) (ok : A → Prop) (max_depth : nat) (b : bytes) (v : A) :
  Canonical c ok →
  from_slice_with_depth c b max_depth = Ok v ↔ ok v ∧ to_vec_with_depth c v max_depth = Ok b.
Proof.
  intros Hc. unfold from_slice_with_depth, to_vec_with_depth. rewrite !result_bind_ok. split.
  - intros ([v' d'] & Hd & E). apply result_bind_ok in E as ([] & Hf & [= ->]).
    apply can_canon in Hd as (Hv & b' & rest & Hah & -> & Hp). split; [done|].
    unfold ahead in Hah. cbn in Hah. rewrite drop_0 in Hah. subst b.
    unfold dec_finish, remaining, advance in Hf. cbn in Hf. rewrite length_app in Hf. destruct (decide _); [done|].
    assert (rest = []) as -> by (destruct rest; cbn in *; [done|lia]). rewrite app_nil_r.
    eexists. split; [apply Hp|done].
  - intros [Hv (e & He & [= <-])]. destruct (can_appends v Hv _ _ He) as (b & -> & Hp). cbn in Hp |- *.
    exists (v, advance (length b) {| input := b; cursor := 0; dec_depth := 0; dec_max := max_depth |}). split.
    + apply (can_round v {| input := b; cursor := 0; dec_depth := 0; dec_max := max_depth |} b [] Hv Hp). unfold ahead. cbn. by rewrite drop_0, app_nil_r.
    + unfold dec_finish, remaining. cbn. rewrite decide_False by lia. done.
Qed.

(** C28: canonicity, in both directions at once. For a codec built from the
    combinators of this file, a byte string decodes to a value exactly when the
    value is one of its type and that byte string is its encoding, at every
    nesting cap: what is encoded is read back, and no other byte string (a longer
    length field, a shuffled map, another boolean, trailing bytes) is read as it. *)
Theorem hbor_canonical {A} (c : Codec A) (ok : A → Prop) (max_depth : nat) (b : bytes) (v : A) :
  built c ok →
  from_slice_with_depth c b max_depth = Ok v ↔ ok v ∧ to_vec_with_depth c v max_depth = Ok b.
Proof. intros Hc. by apply canonical_iff, built_canonical. Qed.

(** A list of pairs of a number and perhaps a map of flags. *)
Definition sample_codec : Codec (list (Z * option (gmap Z bool))) :=
  vec (both (nested (uint 4)) (nested (option_codec (btree_map (uint 2) bool_codec)))).
Definition sample_value : list (Z * option (gmap Z bool)) :=
  [(70000, Some {[ 300 := true; 2 := false ]}); (1, None)].

Lemma hbor_canonical_witness :
  to_vec_with_depth sample_codec sample_value 8 =
    Ok [x02; x70; x11; x01; x00; x01; x02; x02; x00; x00; x2c; x01; x01; x01; x00; x00; x00; x00] ∧
  from_slice_with_depth sample_codec
    [x02; x70; x11; x01; x00; x01; x02; x02; x00; x00; x2c; x01; x01; x01; x00; x00; x00; x00] 8 = Ok sample_value ∧
  from_slice_with_depth sample_codec [x01; x01; x00; x00; x00; x02] 8 = Err (DecErr.InvalidDiscriminant x02).
Proof.
  assert (Hc : built sample_codec (Forall (λ p, width_ok 4 p.1 ∧ from_option
    (λ m, Forall (λ q, width_ok 2 q.1 ∧ any q.2) (map_iter m)) True p.2))).
  { apply built_vec; [|cbn; lia]. apply (built_both Z (option (gmap Z bool))); [apply built_nested, built_uint|].
    apply built_nested, built_option. apply built_map; [apply built_uint|apply built_bool|cbn; lia]. }
  split; [vm_compute; reflexivity|]. split; [|vm_compute; reflexivity].
  apply (hbor_canonical sample_codec _ 8 _ sample_value Hc). split; [|vm_compute; reflexivity].
  repeat constructor; vm_compute; done.
Defined.

(** ** Types without a length *)

#[global] Instance array_free n : LengthFree (array n) (λ b, length b = n) 0.
Proof. intros b d m _ _. exists b. apply puts_fixed. Qed.
Lemma carried_free {A B} (f : A → B) g c (okA : A → Prop) (okB : B → Prop) n :
  LengthFree c okB n → (∀ a, okA a → okB (f a)) → LengthFree (carried f g c) okA n.
Proof. intros Hc Hf a d m Ha Hd. by apply Hc; [apply Hf|]. Qed.
#[global] Instance uint_free n : LengthFree (uint n) (width_ok n) 0.
Proof. eapply carried_free; [apply array_free|]. intros x _. apply length_le_bytes. Qed.
#[global] Instance uint_be_free n : LengthFree (uint_be n) (width_ok n) 0.
Proof. eapply carried_free; [apply array_free|]. intros x _. apply length_be_bytes. Qed.
#[global] Instance bool_free : LengthFree bool_codec any 0.
Proof. intros b d m _ _. eexists. apply puts_fixed. Qed.
#[global] Instance unit_free : LengthFree unit_codec any 0.
Proof. intros [] d m _ _. exists []. intros o. cbn. by rewrite app_nil_r. Qed.
#[global] Instance nested_free {A} (c : Codec A) ok n : LengthFree c ok n → LengthFree (nested c) ok (S n).
Proof.
  intros Hc a d m Ha Hd. destruct (Hc a (S d) m Ha) as [b Hb]; [lia|]. exists b. apply puts_descend; [lia|done].
Qed.
#[global] Instance both_free {A B} (ca : Codec A) (cb : Codec B) okA okB n k :
  LengthFree ca okA n → LengthFree cb okB k → LengthFree (both ca cb) (λ p, okA p.1 ∧ okB p.2) (Nat.max n k).
Proof.
  intros Ha Hb [a b] d m [Hoa Hob] Hd. destruct (Ha a d m Hoa) as [l1 P1]; [lia|].
  destruct (Hb b d m Hob) as [l2 P2]; [lia|]. exists (l1 ++ l2). by apply puts_bind.
Qed.
Lemma enum_free {A} (vs : list (Variant A)) ok n :
  enum_laws vs ok → (∀ v, v ∈ vs → LengthFree (body v) (λ x, ok (construct v x)) n) → LengthFree (enum vs) ok n.
Proof.
  intros L Hfree a d m Ha Hd. destruct (of_variant vs ok L a Ha) as (v & x & Hv & -> & Hx).
  destruct (Hfree v Hv x d m Hx Hd) as [b Hb]. exists ([tag v] ++ b). apply (enum_puts vs ok L); [done|].
  by apply puts_then.
Qed.

(** Encoding a length-free type at a cap it fits under always answers. *)
Lemma length_free_to_vec {A} (c : Codec A) ok n v m :
  LengthFree c ok n → ok v → (n ≤ m)%nat → ∃ b, to_vec_with_depth c v m = Ok b.
Proof.
  intros Hc Hv Hm. destruct (Hc v 0%nat m Hv) as [b Hb]; [lia|]. exists b. unfold to_vec_with_depth. by rewrite Hb.
Qed.
