(* ===== verification/Numbers.v ===== *)
(** * The numbers a contract computes in ([crates/sdk/src/num.rs], [crates/sdk/src/host.rs], [crates/sdk/src/state.rs])

    The SDK's numeric vocabulary over the host arithmetic of [WideMath]: a [Quantity] is an amount of one resource,
    closed under addition and subtraction alone; a [Ratio] is an unevaluated fraction, applied with one rounding; a
    [Rate] is the same fraction with a dimension on each term, here as in the source a phantom pair of types; a
    [Fixed] is a rate quantized at [10^36] for storage; a [SignedFixed] is one that may point either way, as two's
    complement in the same four limbs; a [UnitFixed] is a stored number from nothing to one. The second half is the
    byte form each takes in a cell ([Cellular]).

    A panic is a value: every [expect] and [assert!] of the source is a constructor of [Panic], so a function that may
    panic answers a [result Panic]. The constructors' own refusals stay the source's [NumError]. *)

From S2P Require Import Prelude Types WideMath Hbor.

(** ** Refusals and panics *)

Inductive NumError := ZeroDenominator | OutOfRange.
#[global] Instance NumError_eq_dec : EqDecision NumError.
Proof. solve_decision. Defined.

(** The messages the vocabulary's panics carry, in the order the source states them. *)
Inductive Panic :=
  | PastAmountWidth          (* a wide value past the amount width *)
  | QuantizationPastWidth    (* a quantization within the amount width *)
  | ShareAboveOne            (* a partition by a share of at most one *)
  | TotalPastWidth           (* a total within the amount width *)
  | BelowZero                (* a difference at or above zero *)
  | RatePastWidth            (* a stored rate within the width *)
  | NotMonotone              (* a monotone accumulator *)
  | NoOpposite               (* a signed rate at the bottom of its range has no opposite *)
  | SignedPastRange          (* a signed rate within the range *)
  | WideMultiplication       (* a well-formed wide multiplication *)
  | FractionComposition      (* a well-formed fraction composition *)
  | FractionComparison       (* a well-formed fraction comparison *)
  | Exponentiation           (* a well-formed exponentiation *)
  | CellWidth                (* a cell of another width than its type's *)
  | BoundedCell              (* a bounded configuration cell *)
  | AddressCell              (* an address cell names a class *)
  | RecordCell               (* a well-formed record cell *)
  | RecordPastCap.           (* a record within its own cap *)
#[global] Instance Panic_eq_dec : EqDecision Panic.
Proof. solve_decision. Defined.

(** [Result::expect]. *)
Definition expect {E A} (r : result E A) (p : Panic) : result Panic A := map_err (λ _, p) r.
(** [assert!]. *)
Definition assert_ (b : bool) (p : Panic) : result Panic () := if b then Ok () else Err p.

Definition FIXED_SCALE : Z := 10 ^ 36.
Definition UNIT_SCALE : Z := 10 ^ 18.

(** ** Wide values *)

Record Wide := from_limbs { limbs : list Z }.
#[global] Instance Wide_eq_dec : EqDecision Wide.
Proof. solve_decision. Defined.

Definition wide_ZERO : Wide := from_limbs [0; 0; 0; 0].
Definition wide_ONE : Wide := from_limbs [1; 0; 0; 0].
Definition wide_from_u128 (n : Z) : Wide := from_limbs [n mod 2 ^ 64; (n ≫ 64) mod 2 ^ 64; 0; 0].
Definition wide_is_zero (w : Wide) : bool := bool_decide (limbs w = [0; 0; 0; 0]).

(** One turn of the loops over the limbs: the output array so far, and the carry or the borrow. *)
Definition limb_add_step (a b : list Z) (st : list Z * Z) (i : nat) : list Z * Z :=
  let '(out, carry) := st in
  let '(partial, first) := overflowing_add 64 (a !!! i) (b !!! i) in
  let '(total, second) := overflowing_add 64 partial carry in
  (<[i := total]> out, if first || second then 1 else 0).
Definition limb_add (a b : list Z) : list Z * bool :=
  let '(out, carry) := foldl (limb_add_step a b) ([0; 0; 0; 0], 0) (seq 0 4) in (out, bool_decide (carry ≠ 0)).
Definition limb_sub_step (a b : list Z) (st : list Z * Z) (i : nat) : list Z * Z :=
  let '(out, borrow) := st in
  let '(partial, first) := overflowing_sub 64 (a !!! i) (b !!! i) in
  let '(total, second) := overflowing_sub 64 partial borrow in
  (<[i := total]> out, if first || second then 1 else 0).
Definition limb_sub (a b : list Z) : list Z * bool :=
  let '(out, borrow) := foldl (limb_sub_step a b) ([0; 0; 0; 0], 0) (seq 0 4) in (out, bool_decide (borrow ≠ 0)).

Definition wide_checked_add (w other : Wide) : option Wide :=
  let '(sum, carry) := limb_add (limbs w) (limbs other) in if carry : bool then None else Some (from_limbs sum).
Definition wide_checked_sub (w other : Wide) : option Wide :=
  let '(difference, borrow) := limb_sub (limbs w) (limbs other) in if borrow : bool then None else Some (from_limbs difference).
Definition wide_wrapping_add (w other : Wide) : Wide := from_limbs (limb_add (limbs w) (limbs other)).1.
(** [!limb]: every bit of a [u64] flipped. *)
Definition u64_not (x : Z) : Z := Z.lnot x mod 2 ^ 64.
Definition wide_wrapping_neg (w : Wide) : Wide :=
  let flipped := (λ limb, u64_not (limbs w !!! limb)) <$> seq 0 4 in
  from_limbs (limb_add flipped [1; 0; 0; 0]).1.
Definition wide_top_bit (w : Wide) : bool := bool_decide ((limbs w !!! 3%nat) ≫ 63 = 1).
Definition wide_to_le_bytes (w : Wide) : bytes := concat ((λ limb, le_bytes 8 (limbs w !!! limb)) <$> seq 0 4).
Definition wide_from_le_bytes (b : bytes) : Wide :=
  from_limbs ((λ limb : nat, le_val (take 8 (drop (limb * 8) b))) <$> seq 0 4).
Definition wide_try_to_u128 (w : Wide) : option Z :=
  if decide (limbs w !!! 2%nat = 0 ∧ limbs w !!! 3%nat = 0)
  then Some (Z.lor (limbs w !!! 0%nat) ((limbs w !!! 1%nat) ≪ 64)) else None.
Definition wide_to_u128 (w : Wide) : result Panic Z :=
  _ ← assert_ (bool_decide (limbs w !!! 2%nat = 0 ∧ limbs w !!! 3%nat = 0)) PastAmountWidth;
  Ok (Z.lor (limbs w !!! 0%nat) ((limbs w !!! 1%nat) ≪ 64)).
(** [Ord for Wide]: the first limb from the top at which the two differ. *)
Fixpoint wide_cmp_from (a b : list Z) (indices : list nat) : comparison :=
  match indices with
  | [] => Eq
  | i :: rest => match Z.compare (a !!! i) (b !!! i) with Eq => wide_cmp_from a b rest | unequal => unequal end
  end.
Definition wide_cmp (w other : Wide) : comparison := wide_cmp_from (limbs w) (limbs other) (reverse (seq 0 4)).

(** ** The host's arithmetic *)

Definition widened (w : Wide) : list Z := limbs w.
Definition narrowed (l : list Z) : Wide := from_limbs l.
Definition host_mul_div (a b c : Wide) (rounding : Rounding) : result Panic Wide :=
  r ← expect (mul_div (widened a) (widened b) (widened c) rounding) WideMultiplication; Ok (narrowed r).
Definition host_geometric_mean (a b : Wide) : Wide := narrowed (geometric_mean (widened a) (widened b)).
Definition host_fraction_compose (an ad bn bd : Wide) : result Panic (Wide * Wide) :=
  '(num, den) ← expect (fraction_compose (widened an) (widened ad) (widened bn) (widened bd)) FractionComposition;
  Ok (narrowed num, narrowed den).
Definition host_fraction_cmp (an ad bn bd : Wide) : result Panic comparison :=
  expect (fraction_cmp (widened an) (widened ad) (widened bn) (widened bd)) FractionComparison.
Definition host_fixed_pow (base : Wide) (exp : Z) (rounding : Rounding) : result Panic Wide :=
  r ← expect (fixed_pow (widened base) exp rounding) Exponentiation; Ok (narrowed r).

(** ** Fractions *)

Record Ratio := { num : Wide; den : Wide }.
#[global] Instance Ratio_eq_dec : EqDecision Ratio.
Proof. solve_decision. Defined.

Definition ratio_ONE : Ratio := {| num := wide_ONE; den := wide_ONE |}.
Definition ratio_ZERO : Ratio := {| num := wide_ZERO; den := wide_ONE |}.
Definition ratio_of (n d : Z) : result NumError Ratio :=
  if decide (d = 0) then Err ZeroDenominator else Ok {| num := wide_from_u128 n; den := wide_from_u128 d |}.
Definition ratio_bps (bps : Z) : result NumError Ratio :=
  if decide (10000 < bps) then Err OutOfRange else ratio_of bps 10000.
Definition ratio_percent (percent : Z) : result NumError Ratio :=
  if decide (100 < percent) then Err OutOfRange else ratio_of percent 100.
Definition ratio_terms (r : Ratio) : Wide * Wide := (num r, den r).
Definition ratio_is_zero (r : Ratio) : bool := wide_is_zero (num r).
Definition ratio_recip (r : Ratio) : result NumError Ratio :=
  if wide_is_zero (num r) then Err ZeroDenominator else Ok {| num := den r; den := num r |}.
Definition ratio_compose (r other : Ratio) : result Panic Ratio :=
  '(n, d) ← host_fraction_compose (num r) (den r) (num other) (den other); Ok {| num := n; den := d |}.
Definition ratio_cmp_with (r other : Ratio) : result Panic comparison :=
  host_fraction_cmp (num r) (den r) (num other) (den other).
Definition ratio_min (r other : Ratio) : result Panic Ratio :=
  order ← ratio_cmp_with r other; Ok (match order with Gt => other | _ => r end).
Definition ratio_max (r other : Ratio) : result Panic Ratio :=
  order ← ratio_cmp_with r other; Ok (match order with Lt => other | _ => r end).

(** ** Rates and their stored forms

    The dimensions are phantoms: they are parameters of the types and no field holds one. *)

Record Rate (A B : Type) := { rate_ratio : Ratio }.
Arguments rate_ratio {A B} r.
Arguments Build_Rate {A B} rate_ratio.
Record Fixed (A B : Type) := from_scaled { scaled : Wide }.
Arguments scaled {A B} f.
Arguments from_scaled {A B} scaled.
Record SignedFixed (A B : Type) := from_bits { bits : Wide }.
Arguments bits {A B} s.
Arguments from_bits {A B} bits.
Inductive Sign := Positive | Negative.
#[global] Instance Rate_eq_dec A B : EqDecision (Rate A B).
Proof. solve_decision. Defined.
#[global] Instance Fixed_eq_dec A B : EqDecision (Fixed A B).
Proof. solve_decision. Defined.
#[global] Instance SignedFixed_eq_dec A B : EqDecision (SignedFixed A B).
Proof. solve_decision. Defined.
#[global] Instance Sign_eq_dec : EqDecision Sign.
Proof. solve_decision. Defined.

Definition ratio_quantize_as {A B} (r : Ratio) (rounding : Rounding) : result Panic (Fixed A B) :=
  w ← host_mul_div (num r) (wide_from_u128 FIXED_SCALE) (den r) rounding; Ok (from_scaled w).

Definition rate_compose {A B C} (r : Rate A B) (other : Rate B C) : result Panic (Rate A C) :=
  ratio ← ratio_compose (rate_ratio r) (rate_ratio other); Ok (Build_Rate ratio).
Definition rate_per_unit {A B} (count : Z) : Rate A B := Build_Rate {| num := wide_from_u128 count; den := wide_ONE |}.
Definition rate_recip {A B} (r : Rate A B) : result NumError (Rate B A) :=
  ratio ← ratio_recip (rate_ratio r); Ok (Build_Rate ratio).
Definition rate_quantize {A B} (r : Rate A B) (rounding : Rounding) : result Panic (Fixed A B) :=
  w ← host_mul_div (num (rate_ratio r)) (wide_from_u128 FIXED_SCALE) (den (rate_ratio r)) rounding; Ok (from_scaled w).

Definition fixed_ZERO {A B} : Fixed A B := from_scaled wide_ZERO.
Definition fixed_ONE {A B} : Fixed A B := from_scaled (wide_from_u128 FIXED_SCALE).
Definition fixed_cmp {A B} (f other : Fixed A B) : comparison := wide_cmp (scaled f) (scaled other).
Definition fixed_to_le_bytes {A B} (f : Fixed A B) : bytes := wide_to_le_bytes (scaled f).
Definition fixed_from_le_bytes {A B} (b : bytes) : Fixed A B := from_scaled (wide_from_le_bytes b).
Definition fixed_is_zero {A B} (f : Fixed A B) : bool := wide_is_zero (scaled f).
Definition fixed_rate {A B} (f : Fixed A B) : Rate A B :=
  Build_Rate {| num := scaled f; den := wide_from_u128 FIXED_SCALE |}.
Definition fixed_recip_rate {A B} (f : Fixed A B) : result NumError (Rate B A) := rate_recip (fixed_rate f).
Definition fixed_pow_int {A B} (f : Fixed A B) (exp : Z) (rounding : Rounding) : result Panic (Fixed A B) :=
  w ← host_fixed_pow (scaled f) exp rounding; Ok (from_scaled w).
Definition fixed_add {A B} (f other : Fixed A B) : result Panic (Fixed A B) :=
  w ← ok_or (wide_checked_add (scaled f) (scaled other)) RatePastWidth; Ok (from_scaled w).
Definition fixed_sub {A B} (f other : Fixed A B) : result Panic (Fixed A B) :=
  w ← ok_or (wide_checked_sub (scaled f) (scaled other)) NotMonotone; Ok (from_scaled w).

(** *** Signed *)

Definition signed_ZERO {A B} : SignedFixed A B := from_bits wide_ZERO.
Definition signed_ONE {A B} : SignedFixed A B := from_bits (wide_from_u128 FIXED_SCALE).
Definition signed_is_zero {A B} (s : SignedFixed A B) : bool := wide_is_zero (bits s).
Definition signed_is_negative {A B} (s : SignedFixed A B) : bool := wide_top_bit (bits s).
Definition signed_cmp {A B} (s other : SignedFixed A B) : comparison :=
  match wide_top_bit (bits s), wide_top_bit (bits other) with
  | true, false => Lt
  | false, true => Gt
  | _, _ => wide_cmp (bits s) (bits other)
  end.
Definition signed_split {A B} (s : SignedFixed A B) : Fixed A B * Sign :=
  if signed_is_negative s then (from_scaled (wide_wrapping_neg (bits s)), Negative) else (from_scaled (bits s), Positive).
Definition signed_to_le_bytes {A B} (s : SignedFixed A B) : bytes := wide_to_le_bytes (bits s).
Definition signed_from_le_bytes {A B} (b : bytes) : SignedFixed A B := from_bits (wide_from_le_bytes b).
Definition signed_negate {A B} (s : SignedFixed A B) : result Panic (SignedFixed A B) :=
  let negated := wide_wrapping_neg (bits s) in
  _ ← assert_ (negb (signed_is_negative s && wide_top_bit negated)) NoOpposite;
  Ok (from_bits negated).
Definition fixed_signed {A B} (f : Fixed A B) (sign : Sign) : result NumError (SignedFixed A B) :=
  let bits := match sign with Positive => scaled f | Negative => wide_wrapping_neg (scaled f) end in
  let fits := wide_is_zero (scaled f) ||
              match sign with Positive => negb (wide_top_bit bits) | Negative => wide_top_bit bits end in
  if fits then Ok (from_bits bits) else Err OutOfRange.
Definition signed_add {A B} (s other : SignedFixed A B) : result Panic (SignedFixed A B) :=
  let sum := from_bits (wide_wrapping_add (bits s) (bits other)) : SignedFixed A B in
  _ ← assert_ (negb (eqb (signed_is_negative s) (signed_is_negative other)) || eqb (signed_is_negative sum) (signed_is_negative s)) SignedPastRange;
  Ok sum.
Definition signed_sub {A B} (s other : SignedFixed A B) : result Panic (SignedFixed A B) :=
  let difference := from_bits (wide_wrapping_add (bits s) (wide_wrapping_neg (bits other))) : SignedFixed A B in
  _ ← assert_ (eqb (signed_is_negative s) (signed_is_negative other) || eqb (signed_is_negative difference) (signed_is_negative s)) SignedPastRange;
  Ok difference.

(** [rate_hbor!]: thirty-two bytes on the wire, at both types. *)
Definition fixed_codec {A B} : Codec (Fixed A B) := carried fixed_to_le_bytes (λ b, Ok (fixed_from_le_bytes b)) (array 32).
Definition signed_codec {A B} : Codec (SignedFixed A B) := carried signed_to_le_bytes (λ b, Ok (signed_from_le_bytes b)) (array 32).

(** ** Bounded configuration numbers *)

Record UnitFixed := { unit_scaled : Z }.
#[global] Instance UnitFixed_eq_dec : EqDecision UnitFixed.
Proof. solve_decision. Defined.
Definition unit_ZERO : UnitFixed := {| unit_scaled := 0 |}.
Definition unit_ONE : UnitFixed := {| unit_scaled := UNIT_SCALE |}.
Definition unit_new (scaled : Z) : result NumError UnitFixed :=
  if decide (UNIT_SCALE < scaled) then Err OutOfRange else Ok {| unit_scaled := scaled |}.
Definition unit_bps (bps : Z) : result NumError UnitFixed :=
  if decide (10000 < bps) then Err OutOfRange else Ok {| unit_scaled := bps * (UNIT_SCALE / 10000) |}.
Definition unit_percent (percent : Z) : result NumError UnitFixed :=
  if decide (100 < percent) then Err OutOfRange else Ok {| unit_scaled := percent * (UNIT_SCALE / 100) |}.
Definition unit_ratio (u : UnitFixed) : Ratio := {| num := wide_from_u128 (unit_scaled u); den := wide_from_u128 UNIT_SCALE |}.
(** The subtraction cannot wrap on a value the constructors admitted ([unit_ok]). *)
Definition unit_complement (u : UnitFixed) : UnitFixed := {| unit_scaled := UNIT_SCALE - unit_scaled u |}.

(** ** Quantities *)

Record Quantity := from_subunits { subunits : Z }.
#[global] Instance Quantity_eq_dec : EqDecision Quantity.
Proof. solve_decision. Defined.
Definition quantity_ZERO : Quantity := from_subunits 0.
Definition quantity_is_zero (q : Quantity) : bool := bool_decide (subunits q = 0).
Definition quantity_try_sub (q other : Quantity) : option Quantity :=
  match checked_sub (subunits q) (subunits other) with Some difference => Some (from_subunits difference) | None => None end.
Definition quantity_saturating_sub (q other : Quantity) : Quantity := from_subunits (saturating_sub (subunits q) (subunits other)).
Definition quantity_min (q other : Quantity) : Quantity := if decide (subunits q ≤ subunits other) then q else other.
Definition quantity_max (q other : Quantity) : Quantity := if decide (subunits other ≤ subunits q) then q else other.
Definition quantity_is_multiple_of (q step : Quantity) : bool :=
  bool_decide (subunits step ≠ 0) && bool_decide (subunits q mod subunits step = 0).
Definition quantity_round_to_multiple (q step : Quantity) (rounding : Rounding) : result Panic Quantity :=
  if decide (subunits step = 0) then Ok q
  else
    let floor := subunits q - subunits q mod subunits step in
    match rounding with
    | Down => Ok (from_subunits floor)
    | Up => if decide (floor = subunits q) then Ok q
            else r ← ok_or (checked_add 128 floor (subunits step)) QuantizationPastWidth; Ok (from_subunits r)
    end.
Definition quantity_sqrt (q : Quantity) : result Panic Quantity :=
  r ← wide_to_u128 (host_geometric_mean (wide_from_u128 (subunits q)) wide_ONE); Ok (from_subunits r).
Definition quantity_geometric_mean (q other : Quantity) : result Panic Quantity :=
  r ← wide_to_u128 (host_geometric_mean (wide_from_u128 (subunits q)) (wide_from_u128 (subunits other))); Ok (from_subunits r).
Definition quantity_ratio_to (q other : Quantity) : result NumError Ratio := ratio_of (subunits q) (subunits other).
Definition quantity_per {A B} (q other : Quantity) : result NumError (Rate A B) :=
  match ratio_of (subunits q) (subunits other) with Ok ratio => Ok (Build_Rate ratio) | Err error => Err error end.
Definition quantity_scale (q : Quantity) (share : Ratio) (rounding : Rounding) : result Panic Quantity :=
  w ← host_mul_div (wide_from_u128 (subunits q)) (num share) (den share) rounding;
  r ← wide_to_u128 w; Ok (from_subunits r).
Definition quantity_divide (q : Quantity) (share : Ratio) : result Panic (Quantity * Quantity) :=
  part ← quantity_scale q share Down;
  rest ← ok_or (quantity_try_sub q part) ShareAboveOne;
  Ok (part, rest).
Definition quantity_exceeds (q other : Quantity) (share : Ratio) : result Panic bool :=
  match ratio_of (subunits q) (subunits other) with
  | Err _ => Ok (negb (quantity_is_zero q))
  | Ok ratio => order ← ratio_cmp_with ratio share; Ok (match order with Gt => true | _ => false end)
  end.
Definition quantity_convert {A B} (q : Quantity) (rate : Rate A B) (rounding : Rounding) : result Panic Quantity :=
  quantity_scale q (rate_ratio rate) rounding.
Definition quantity_add (q other : Quantity) : result Panic Quantity :=
  r ← ok_or (checked_add 128 (subunits q) (subunits other)) TotalPastWidth; Ok (from_subunits r).
Definition quantity_sub (q other : Quantity) : result Panic Quantity :=
  r ← ok_or (checked_sub (subunits q) (subunits other)) BelowZero; Ok (from_subunits r).

(** ** The bytes a cell holds *)

(** [packed]: sixteen little-endian bytes, or nothing for zero. *)
Definition packed (cell : bytes) : result Panic Z :=
  if decide (cell = []) then Ok 0
  else if decide (length cell = 16%nat) then Ok (le_val cell) else Err CellWidth.

(** What one Rust value is in a cell. *)
Record Cellular (A : Type) := { from_cell : bytes → result Panic A; to_cell : A → bytes }.
Arguments from_cell {A} c cell.
Arguments to_cell {A} c a.

Definition cell_u128 : Cellular Z := {| from_cell := packed; to_cell := le_bytes 16 |}.
(** An order key is its bits, so its cell is the packed integer's. *)
Definition cell_order_key : Cellular Z := {| from_cell := packed; to_cell := le_bytes 16 |}.
Definition cell_quantity : Cellular Quantity :=
  {| from_cell cell := n ← packed cell; Ok (from_subunits n); to_cell q := le_bytes 16 (subunits q) |}.
Definition cell_fixed {A B} : Cellular (Fixed A B) := {|
  from_cell cell := if decide (cell = []) then Ok (from_scaled wide_ZERO)
                    else if decide (length cell = 32%nat) then Ok (fixed_from_le_bytes cell) else Err CellWidth;
  to_cell f := fixed_to_le_bytes f |}.
Definition cell_signed {A B} : Cellular (SignedFixed A B) := {|
  from_cell cell := f ← from_cell (@cell_fixed A B) cell; Ok (from_bits (scaled f));
  to_cell s := to_cell (@cell_fixed A B) (from_scaled (bits s)) |}.
Definition cell_unit_fixed : Cellular UnitFixed := {|
  from_cell cell := if decide (cell = []) then Ok unit_ZERO
                    else if decide (length cell = 16%nat) then expect (unit_new (le_val cell)) BoundedCell else Err CellWidth;
  to_cell u := le_bytes 16 (unit_scaled u) |}.
Definition cell_u64 : Cellular Z := {|
  from_cell cell := if decide (cell = []) then Ok 0
                    else if decide (length cell = 8%nat) then Ok (le_val cell) else Err CellWidth;
  to_cell := le_bytes 8 |}.
Definition cell_bool : Cellular bool := {|
  from_cell cell := Ok (match cell with byte :: _ => bool_decide (byte ≠ x00) | [] => false end);
  to_cell b := [if b : bool then x01 else x00] |}.
Definition cell_address : Cellular Address := {|
  from_cell cell := if decide (length cell = 32%nat) then expect (address_from_bytes cell) AddressCell else Err CellWidth;
  to_cell := address_to_bytes |}.
Definition cell_unit : Cellular () := {| from_cell _ := Ok (); to_cell _ := [] |}.
Definition cell_array (n : nat) : Cellular bytes := {|
  from_cell cell := if decide (cell = []) then Ok (replicate n x00)
                    else if decide (length cell = n) then Ok cell else Err CellWidth;
  to_cell b := b |}.
Definition cell_vec : Cellular bytes := {| from_cell cell := Ok cell; to_cell b := b |}.

(** [Word]: the width every draw and digest carries. *)
Definition WORD_BYTES : nat := 32.
Definition Word : Type := bytes.
Definition word_from_protocol (b : bytes) : result Panic Word := if decide (length b = WORD_BYTES) then Ok b else Err CellWidth.
Definition word_low_u128 (w : Word) : Z := le_val (take 16 w).
Definition cell_word : Cellular Word := {| from_cell := word_from_protocol; to_cell w := w |}.

(** A record's cell: its encoding under the depth its shape nests, or no bytes at all. Writing one may panic too. *)
Definition option_from_cell {A} (c : Codec A) (wire_depth : nat) (cell : bytes) : result Panic (option A) :=
  if decide (cell = []) then Ok None else r ← expect (from_slice_with_depth c cell wire_depth) RecordCell; Ok (Some r).
Definition option_to_cell {A} (c : Codec A) (wire_depth : nat) (o : option A) : result Panic bytes :=
  match o with None => Ok [] | Some record => expect (to_vec_with_depth c record wire_depth) RecordPastCap end.

(** ** Wide values are integers below [2^256] *)

Definition wide_ok (w : Wide) : Prop := limbs_ok 4 (limbs w).
Definition wide_val (w : Wide) : Z := limbs_val (limbs w).
#[global] Instance wide_ok_dec w : Decision (wide_ok w).
Proof. unfold wide_ok. apply _. Defined.

Lemma wide_val_bound w : wide_ok w → 0 ≤ wide_val w < 2 ^ 256.
Proof. exact (limbs_val_bound 4 (limbs w)). Qed.
Lemma wide_val_inj w w' : wide_ok w → wide_ok w' → wide_val w = wide_val w' → w = w'.
Proof. destruct w, w'; intros Hw Hw' E. f_equal. exact (limbs_val_inj 4 _ _ Hw Hw' E). Qed.

(** Four limbs, named. *)
Lemma four_limbs l : limbs_ok 4 l → ∃ a b c d, l = [a; b; c; d] ∧ in_width 64 a ∧ in_width 64 b ∧ in_width 64 c ∧ in_width 64 d.
Proof.
  intros [Hl H]. destruct l as [|a [|b [|c [|d [|]]]]]; try done. exists a, b, c, d.
  apply Forall_cons in H as [Ha H]. apply Forall_cons in H as [Hb H]. apply Forall_cons in H as [Hc H].
  apply Forall_cons in H as [Hd _]. done.
Qed.

(** The vocabulary's limb loops and the host's are one function. *)
Lemma limb_add_host a b : length a = 4%nat → length b = 4%nat → limb_add a b = add_limbs a b.
Proof.
  intros Ha Hb. destruct a as [|a0 [|a1 [|a2 [|a3 [|]]]]]; try discriminate Ha. destruct b as [|b0 [|b1 [|b2 [|b3 [|]]]]]; try discriminate Hb.
  reflexivity.
Qed.
Lemma limb_sub_host a b : length a = 4%nat → length b = 4%nat → limb_sub a b = sub_limbs a b.
Proof.
  intros Ha Hb. destruct a as [|a0 [|a1 [|a2 [|a3 [|]]]]]; try discriminate Ha. destruct b as [|b0 [|b1 [|b2 [|b3 [|]]]]]; try discriminate Hb.
  reflexivity.
Qed.
Lemma limb_add_spec a b : limbs_ok 4 a → limbs_ok 4 b →
  limbs_ok 4 (limb_add a b).1 ∧ limbs_val (limb_add a b).1 = (limbs_val a + limbs_val b) mod 2 ^ 256 ∧
  (limb_add a b).2 = bool_decide (2 ^ 256 ≤ limbs_val a + limbs_val b).
Proof. intros Ha Hb. rewrite limb_add_host by apply Ha || apply Hb. exact (add_limbs_spec 4 a b Ha Hb). Qed.
Lemma limb_sub_spec a b : limbs_ok 4 a → limbs_ok 4 b →
  limbs_ok 4 (limb_sub a b).1 ∧ limbs_val (limb_sub a b).1 = (limbs_val a - limbs_val b) mod 2 ^ 256 ∧
  (limb_sub a b).2 = bool_decide (limbs_val a < limbs_val b).
Proof. intros Ha Hb. rewrite limb_sub_host by apply Ha || apply Hb. exact (sub_limbs_spec 4 a b Ha Hb). Qed.

Lemma wide_checked_add_spec w o : wide_ok w → wide_ok o →
  match wide_checked_add w o with
  | Some s => wide_ok s ∧ wide_val s = wide_val w + wide_val o
  | None => 2 ^ 256 ≤ wide_val w + wide_val o
  end.
Proof.
  intros Hw Ho. unfold wide_checked_add. destruct (limb_add_spec _ _ Hw Ho) as (Hok & Hv & Hc).
  destruct (limb_add (limbs w) (limbs o)) as [s c]. cbn in *. subst c. pose proof (wide_val_bound w Hw). pose proof (wide_val_bound o Ho).
  fold (wide_val w) (wide_val o) in *. case_bool_decide; [done|]. split; [done|]. unfold wide_val at 1. cbn. rewrite Hv. apply Z.mod_small. lia.
Qed.
Lemma wide_checked_sub_spec w o : wide_ok w → wide_ok o →
  match wide_checked_sub w o with
  | Some s => wide_ok s ∧ wide_val s = wide_val w - wide_val o
  | None => wide_val w < wide_val o
  end.
Proof.
  intros Hw Ho. unfold wide_checked_sub. destruct (limb_sub_spec _ _ Hw Ho) as (Hok & Hv & Hc).
  destruct (limb_sub (limbs w) (limbs o)) as [s c]. cbn in *. subst c. pose proof (wide_val_bound w Hw). pose proof (wide_val_bound o Ho).
  fold (wide_val w) (wide_val o) in *. case_bool_decide; [done|]. split; [done|]. unfold wide_val at 1. cbn. rewrite Hv. apply Z.mod_small. lia.
Qed.
Lemma wide_wrapping_add_spec w o : wide_ok w → wide_ok o →
  wide_ok (wide_wrapping_add w o) ∧ wide_val (wide_wrapping_add w o) = (wide_val w + wide_val o) mod 2 ^ 256.
Proof. intros Hw Ho. destruct (limb_add_spec _ _ Hw Ho) as (Hok & Hv & _). done. Qed.
Lemma u64_not_val x : in_width 64 x → u64_not x = 2 ^ 64 - 1 - x.
Proof.
  intros Hx. unfold u64_not, in_width, Z.lnot in *. rewrite <- (Z.mod_add _ 1) by lia. rewrite Z.mod_small; lia.
Qed.
Lemma wide_wrapping_neg_spec w : wide_ok w →
  wide_ok (wide_wrapping_neg w) ∧ wide_val (wide_wrapping_neg w) = (- wide_val w) mod 2 ^ 256.
Proof.
  intros Hw. destruct (four_limbs _ Hw) as (a & b & c & d & E & Ha & Hb & Hc & Hd).
  unfold wide_wrapping_neg, wide_val. rewrite E. cbn [fmap list_fmap seq lookup_total list_lookup_total].
  rewrite !u64_not_val by done. unfold in_width in *.
  set (f := [_; _; _; _]). assert (Hf : limbs_ok 4 f) by (split; [done|]; repeat constructor; unfold in_width; lia).
  destruct (limb_add_spec f [1; 0; 0; 0] Hf) as (Hok & Hv & _); [by split; [|repeat constructor]|].
  split; [exact Hok|]. cbn [limbs]. rewrite Hv. subst f. cbn [limbs_val].
  rewrite <- (Z.mod_add (- _) 1) by lia. f_equal. lia.
Qed.
Lemma wide_top_bit_spec w : wide_ok w → wide_top_bit w = bool_decide (2 ^ 255 ≤ wide_val w).
Proof.
  intros Hw. destruct (four_limbs _ Hw) as (a & b & c & d & E & Ha & Hb & Hc & Hd). unfold wide_top_bit, wide_val. rewrite E.
  cbn [lookup_total list_lookup_total limbs_val]. unfold in_width in *. apply bool_decide_ext. rewrite Z.shiftr_div_pow2 by lia.
  pose proof (Z.div_mod d (2 ^ 63) ltac:(lia)). pose proof (Z.mod_pos_bound d (2 ^ 63) ltac:(lia)).
  assert (0 ≤ d / 2 ^ 63 < 2) by (split; [apply Z.div_pos; lia|apply Z.div_lt_upper_bound; lia]). lia.
Qed.
Lemma wide_is_zero_spec w : wide_ok w → wide_is_zero w = bool_decide (wide_val w = 0).
Proof. intros Hw. exact (u256_is_zero_spec (limbs w) Hw). Qed.
Lemma wide_cmp_spec w o : wide_ok w → wide_ok o → wide_cmp w o = Z.compare (wide_val w) (wide_val o).
Proof.
  intros Hw Ho. unfold wide_val. rewrite <- (limbs_cmp_spec 4) by done.
  destruct (four_limbs _ Hw) as (a & b & c & d & E & _). destruct (four_limbs _ Ho) as (a' & b' & c' & d' & E' & _).
  unfold wide_cmp, limbs_cmp. rewrite E, E'. reflexivity.
Qed.
Lemma wide_from_u128_spec n : in_width 128 n → wide_ok (wide_from_u128 n) ∧ wide_val (wide_from_u128 n) = n.
Proof. exact (from_u128_spec n). Qed.
Lemma wide_to_u128_spec w : wide_ok w →
  wide_to_u128 w = if decide (wide_val w ≤ u128_max) then Ok (wide_val w) else Err PastAmountWidth.
Proof.
  intros Hw. pose proof (to_u128_spec (limbs w) Hw) as H. unfold to_u128 in H. unfold wide_to_u128, assert_. fold (wide_val w) in H.
  destruct (decide (_ ∧ _)) as [Hz|Hz].
  - rewrite bool_decide_true by done. cbn. destruct (decide (_ ≤ _)); [by injection H as ->|done].
  - rewrite bool_decide_false by done. cbn. by destruct (decide (_ ≤ _)).
Qed.
Lemma wide_try_to_u128_spec w : wide_ok w →
  wide_try_to_u128 w = if decide (wide_val w ≤ u128_max) then Some (wide_val w) else None.
Proof. exact (to_u128_spec (limbs w)). Qed.

(** The byte form is the little-endian form of the integer, so every thirty-two bytes name exactly one value. *)
Lemma le_val_app a b : le_val (a ++ b) = le_val a + 256 ^ Z.of_nat (length a) * le_val b.
Proof.
  induction a as [|x a IH]; cbn [app le_val length]; [rewrite Z.pow_0_r; lia|]. rewrite IH, pow256_S. ring.
Qed.
Lemma le_bytes_in_width x : in_width 64 x → le_val (le_bytes 8 x) = x.
Proof. intros Hx. apply le_val_bytes. change (256 ^ Z.of_nat 8) with (2 ^ 64). exact Hx. Qed.
Lemma wide_bytes w : wide_ok w → length (wide_to_le_bytes w) = 32%nat ∧ le_val (wide_to_le_bytes w) = wide_val w.
Proof.
  intros Hw. destruct (four_limbs _ Hw) as (a & b & c & d & E & Ha & Hb & Hc & Hd). unfold wide_to_le_bytes, wide_val. rewrite E.
  cbn [fmap list_fmap seq lookup_total list_lookup_total concat limbs_val]. split.
  - rewrite !length_app, !length_le_bytes. done.
  - rewrite !le_val_app, !length_le_bytes, !le_bytes_in_width by done. change (256 ^ Z.of_nat 8) with (2 ^ 64). cbn [le_val]. lia.
Qed.
Lemma chunk_ok b i : length b = 32%nat → (i < 4)%nat → in_width 64 (le_val (take 8 (drop (i * 8) b))).
Proof.
  intros Hl Hi. pose proof (le_val_bound (take 8 (drop (i * 8) b))) as H. rewrite length_take, length_drop, Hl in H.
  replace (8 `min` (32 - i * 8))%nat with 8%nat in H by lia. exact H.
Qed.
Lemma wide_of_bytes b : length b = 32%nat → wide_ok (wide_from_le_bytes b) ∧ wide_val (wide_from_le_bytes b) = le_val b.
Proof.
  intros Hl. split.
  - split; [done|]. apply Forall_fmap, Forall_forall. intros i Hi%elem_of_seq. cbn. apply chunk_ok; [done|lia].
  - unfold wide_from_le_bytes, wide_val. cbn [fmap list_fmap seq limbs limbs_val].
    assert (Hs : ∀ l, (8 ≤ length l)%nat → le_val l = le_val (take 8 l) + 2 ^ 64 * le_val (drop 8 l)).
    { intros l H8. rewrite <- (take_drop 8 l) at 1. rewrite le_val_app, length_take, Nat.min_l by done. done. }
    rewrite (Hs b), (Hs (drop 8 b)), (Hs (drop 8 (drop 8 b))), (Hs (drop 8 (drop 8 (drop 8 b)))) by (rewrite ?length_drop; lia).
    rewrite !drop_drop. cbn [Nat.mul Nat.add]. rewrite drop_0, (drop_ge b 32) by lia. cbn [le_val]. lia.
Qed.
Lemma wide_bytes_round w : wide_ok w → wide_from_le_bytes (wide_to_le_bytes w) = w.
Proof.
  intros Hw. destruct (wide_bytes w Hw) as [Hl Hv]. destruct (wide_of_bytes _ Hl) as [Hok Hv'].
  apply wide_val_inj; [done..|congruence].
Qed.
Lemma le_val_inj a b : length a = length b → le_val a = le_val b → a = b.
Proof. intros Hl E. rewrite <- (le_bytes_val a), <- (le_bytes_val b). congruence. Qed.
Lemma wide_bytes_canon b : length b = 32%nat → wide_to_le_bytes (wide_from_le_bytes b) = b.
Proof.
  intros Hl. destruct (wide_of_bytes b Hl) as [Hok Hv]. destruct (wide_bytes _ Hok) as [Hl' Hv']. apply le_val_inj; congruence.
Qed.

(** ** What the types admit

    A fraction's denominator is never nothing, a bounded number never passes one, a quantity is an amount's width. *)

Definition quantity_ok (q : Quantity) : Prop := in_width 128 (subunits q).
Definition ratio_ok (r : Ratio) : Prop := wide_ok (num r) ∧ wide_ok (den r) ∧ wide_val (den r) ≠ 0.
Definition rate_ok {A B} (r : Rate A B) : Prop := ratio_ok (rate_ratio r).
Definition fixed_ok {A B} (f : Fixed A B) : Prop := wide_ok (scaled f).
Definition signed_ok {A B} (s : SignedFixed A B) : Prop := wide_ok (bits s).
Definition unit_ok (u : UnitFixed) : Prop := 0 ≤ unit_scaled u ≤ UNIT_SCALE.

Lemma wide_ONE_ok : wide_ok wide_ONE ∧ wide_val wide_ONE = 1.
Proof. split; [solve_limbs|reflexivity]. Qed.
Lemma wide_ZERO_ok : wide_ok wide_ZERO ∧ wide_val wide_ZERO = 0.
Proof. split; [solve_limbs|reflexivity]. Qed.
Lemma scale_ok : wide_ok (wide_from_u128 FIXED_SCALE) ∧ wide_val (wide_from_u128 FIXED_SCALE) = 10 ^ 36.
Proof. split; [solve_limbs|reflexivity]. Qed.
Lemma unit_scale_ok : wide_ok (wide_from_u128 UNIT_SCALE) ∧ wide_val (wide_from_u128 UNIT_SCALE) = 10 ^ 18.
Proof. split; [solve_limbs|reflexivity]. Qed.
Lemma ratio_of_spec n d : in_width 128 n → in_width 128 d →
  match ratio_of n d with
  | Ok r => ratio_ok r ∧ wide_val (num r) = n ∧ wide_val (den r) = d
  | Err e => e = ZeroDenominator ∧ d = 0
  end.
Proof.
  intros Hn Hd. unfold ratio_of. destruct (wide_from_u128_spec n Hn), (wide_from_u128_spec d Hd). case_decide; [done|].
  unfold ratio_ok. cbn [num den]. split_and!; (done || congruence).
Qed.
Lemma ratio_recip_spec r : ratio_ok r →
  match ratio_recip r with
  | Ok s => ratio_ok s ∧ num s = den r ∧ den s = num r
  | Err e => e = ZeroDenominator ∧ wide_val (num r) = 0
  end.
Proof.
  intros (Hn & Hd & H0). unfold ratio_recip. rewrite wide_is_zero_spec by done. case_bool_decide; [done|]. unfold ratio_ok. cbn. done.
Qed.
Lemma fixed_rate_ok {A B} (f : Fixed A B) : fixed_ok f → rate_ok (fixed_rate f).
Proof. intros Hf. destruct scale_ok as [Hs Hv]. unfold rate_ok, ratio_ok, fixed_rate. cbn [rate_ratio num den]. rewrite Hv.
  split; [exact Hf|]. split; [exact Hs|]. discriminate.
Qed.
Lemma unit_ratio_ok u : unit_ok u → ratio_ok (unit_ratio u) ∧ wide_val (num (unit_ratio u)) = unit_scaled u ∧ wide_val (den (unit_ratio u)) = UNIT_SCALE.
Proof.
  intros Hu. destruct unit_scale_ok as [Hs Hv]. destruct (wide_from_u128_spec (unit_scaled u)) as [Hw Hwv]; [unfold unit_ok, UNIT_SCALE, in_width in *; lia|]. unfold ratio_ok, unit_ratio. cbn [num den].
  split; [split; [exact Hw|split; [exact Hs|rewrite Hv; discriminate]]|]. split; [exact Hwv|exact Hv].
Qed.

(** ** Applying a fraction *)

Lemma host_mul_div_spec a b c r : wide_ok a → wide_ok b → wide_ok c → wide_val c ≠ 0 →
  let v := div_round r (wide_val a * wide_val b) (wide_val c) in
  match host_mul_div a b c r with
  | Ok w => wide_ok w ∧ wide_val w = v
  | Err p => p = WideMultiplication ∧ 2 ^ 256 ≤ v
  end.
Proof.
  intros Ha Hb Hc H0 v. unfold host_mul_div, widened, narrowed. pose proof (mul_div_spec _ _ _ r Ha Hb Hc) as H.
  destruct (mul_div _ _ _ _) as [w|[]]; cbn in *; fold (wide_val a) (wide_val b) (wide_val c) in H; [|done|].
  - destruct H as (Hok & _ & Hv). done.
  - by destruct H.
Qed.
(** The whole of [scale]: the exact product over the denominator, rounded once, where that is an amount. *)
Lemma quantity_scale_spec q s r : quantity_ok q → ratio_ok s →
  let v := div_round r (subunits q * wide_val (num s)) (wide_val (den s)) in
  quantity_scale q s r = if decide (v ≤ u128_max) then Ok (from_subunits v)
                         else Err (if decide (v < 2 ^ 256) then PastAmountWidth else WideMultiplication).
Proof.
  intros Hq (Hn & Hd & H0) v. destruct (wide_from_u128_spec _ Hq) as [Hw Hv]. unfold quantity_scale.
  pose proof (host_mul_div_spec _ _ _ r Hw Hn Hd H0) as H. rewrite Hv in H. fold v in H. cbn zeta in H.
  destruct (host_mul_div _ _ _ _) as [w|p]; cbn.
  - destruct H as [Hok E]. rewrite wide_to_u128_spec, E by done. pose proof (wide_val_bound w Hok).
    destruct (decide (v ≤ _)); cbn; [done|]. rewrite decide_True by lia. done.
  - destruct H as [-> H]. rewrite !decide_False; [done|lia|unfold width_max; lia].
Qed.

Lemma div_round_bounds r x y : 0 < y →
  match r with Down => div_round r x y * y ≤ x < (div_round r x y + 1) * y | Up => (div_round r x y - 1) * y < x ≤ div_round r x y * y end.
Proof.
  intros Hy. destruct r; cbn.
  - pose proof (Z.div_mod x y ltac:(lia)). pose proof (Z.mod_pos_bound x y Hy). lia.
  - pose proof (Z.div_mod (- x) y ltac:(lia)). pose proof (Z.mod_pos_bound (- x) y Hy). lia.
Qed.
Lemma div_round_nonneg r x y : 0 ≤ x → 0 < y → 0 ≤ div_round r x y.
Proof. intros Hx Hy. pose proof (div_round_bounds r x y Hy). destruct r; nia. Qed.
(** A fraction of at most one takes at most the whole, whichever way it rounds. *)
Lemma div_round_share r q n d : 0 ≤ q → 0 ≤ n ≤ d → 0 < d → div_round r (q * n) d ≤ q.
Proof. intros Hq Hn Hd. pose proof (div_round_bounds r (q * n) d Hd). destruct r; nia. Qed.

Lemma ratio_bounds s : ratio_ok s → 0 ≤ wide_val (num s) < 2 ^ 256 ∧ 0 < wide_val (den s) < 2 ^ 256.
Proof. intros (Hn & Hd & H0). pose proof (wide_val_bound _ Hn). pose proof (wide_val_bound _ Hd). lia. Qed.

Lemma quantity_scale_ok q s r q' : quantity_ok q → ratio_ok s → quantity_scale q s r = Ok q' →
  quantity_ok q' ∧ subunits q' = div_round r (subunits q * wide_val (num s)) (wide_val (den s)).
Proof.
  intros Hq Hs. rewrite (quantity_scale_spec q s r Hq Hs). cbv zeta. destruct (decide (_ ≤ _)) as [H|]; [|done]. intros [= <-].
  destruct (ratio_bounds s Hs) as [Hn Hd]. unfold quantity_ok, in_width, width_max in *. cbn [subunits].
  pose proof (div_round_nonneg r (subunits q * wide_val (num s)) (wide_val (den s)) ltac:(nia) ltac:(lia)). lia.
Qed.
(** A share of at most one always applies. *)
Lemma quantity_scale_share q s r : quantity_ok q → ratio_ok s → wide_val (num s) ≤ wide_val (den s) →
  quantity_scale q s r = Ok (from_subunits (div_round r (subunits q * wide_val (num s)) (wide_val (den s)))).
Proof.
  intros Hq Hs Hle. rewrite (quantity_scale_spec q s r Hq Hs). cbv zeta. destruct (ratio_bounds s Hs) as [Hn Hd].
  unfold quantity_ok, in_width in Hq. rewrite decide_True; [done|]. unfold width_max.
  pose proof (div_round_share r (subunits q) (wide_val (num s)) (wide_val (den s)) ltac:(lia) ltac:(lia) ltac:(lia)). lia.
Qed.

Lemma quantity_divide_spec q s : quantity_ok q → ratio_ok s →
  match quantity_divide q s with
  | Ok (part, rest) => quantity_ok part ∧ quantity_ok rest ∧
      subunits part = subunits q * wide_val (num s) / wide_val (den s) ∧ subunits part + subunits rest = subunits q
  | Err _ => (subunits q + 1) * wide_val (den s) ≤ subunits q * wide_val (num s)
  end.
Proof.
  intros Hq Hs. unfold quantity_divide. pose proof (quantity_scale_ok q s Down) as Hok. pose proof (quantity_scale_spec q s Down Hq Hs) as E.
  destruct (ratio_bounds s Hs) as [Hn Hd]. cbv zeta in E. set (X := subunits q * wide_val (num s)) in *. set (D := wide_val (den s)) in *.
  pose proof (div_round_bounds Down X D ltac:(lia)) as Hb. cbn in Hb. unfold quantity_ok, in_width in Hq.
  destruct (quantity_scale q s Down) as [part|p]; cbn.
  - destruct (Hok part Hq Hs eq_refl) as [Hp Hv]. fold X D in Hv. cbn in Hv. unfold quantity_try_sub.
    destruct (checked_sub _ _) as [rest|] eqn:Ec; inv_result; cbn.
    + unfold quantity_ok, in_width in *. cbn. subst rest. split_and!; (done || lia).
    + nia.
  - destruct (decide (_ ≤ u128_max)) as [|Hgt]; [discriminate E|]. cbn in Hgt. unfold width_max in Hgt. nia.
Qed.

Lemma host_fraction_cmp_spec an ad bn bd : wide_ok an → wide_ok ad → wide_ok bn → wide_ok bd → wide_val ad ≠ 0 → wide_val bd ≠ 0 →
  host_fraction_cmp an ad bn bd = Ok (Z.compare (wide_val an * wide_val bd) (wide_val bn * wide_val ad)).
Proof.
  intros Han Had Hbn Hbd Ha0 Hb0. unfold host_fraction_cmp, widened.
  rewrite (fraction_cmp_correct (limbs an) (limbs ad) (limbs bn) (limbs bd) Han Had Hbn Hbd), decide_False by (intros [|]; done). done.
Qed.
Lemma ratio_cmp_with_spec r s : ratio_ok r → ratio_ok s →
  ratio_cmp_with r s = Ok (Z.compare (wide_val (num r) * wide_val (den s)) (wide_val (num s) * wide_val (den r))).
Proof. intros (? & ? & ?) (? & ? & ?). by apply host_fraction_cmp_spec. Qed.
Lemma quantity_exceeds_spec q o s : quantity_ok q → quantity_ok o → ratio_ok s →
  quantity_exceeds q o s = Ok (bool_decide (subunits o * wide_val (num s) < subunits q * wide_val (den s))).
Proof.
  intros Hq Ho Hs. unfold quantity_exceeds. pose proof (ratio_of_spec _ _ Hq Ho) as H. destruct (ratio_bounds s Hs) as [Hn Hd].
  unfold quantity_ok, in_width in *. destruct (ratio_of _ _) as [r|e].
  - destruct H as (Hr & En & Ed). rewrite (ratio_cmp_with_spec r s Hr Hs). cbn. rewrite En, Ed. f_equal.
    destruct (Z.compare_spec (subunits q * wide_val (den s)) (wide_val (num s) * subunits o)); symmetry;
      (apply bool_decide_eq_true_2 || apply bool_decide_eq_false_2); lia.
  - destruct H as [_ H0]. f_equal. unfold quantity_is_zero. rewrite <- bool_decide_not. apply bool_decide_ext. rewrite H0. nia.
Qed.

(** ** Signed rates are the integers of their range *)

(** The integer two's complement bits name. *)
Definition signed_val {A B} (s : SignedFixed A B) : Z :=
  let v := wide_val (bits s) in if decide (v < 2 ^ 255) then v else v - 2 ^ 256.
Definition signed_range (x : Z) : Prop := - 2 ^ 255 ≤ x < 2 ^ 255.

Lemma signed_val_range {A B} (s : SignedFixed A B) : signed_ok s → signed_range (signed_val s).
Proof. intros Hs. pose proof (wide_val_bound _ Hs). unfold signed_val, signed_range. case_decide; lia. Qed.
Lemma signed_val_mod {A B} (s : SignedFixed A B) : signed_ok s → wide_val (bits s) = signed_val s mod 2 ^ 256.
Proof.
  intros Hs. pose proof (wide_val_bound _ Hs). unfold signed_val. case_decide; [by rewrite Z.mod_small|].
  rewrite <- (Z.mod_add _ 1) by lia. rewrite Z.mod_small; lia.
Qed.
Lemma signed_negative {A B} (s : SignedFixed A B) : signed_ok s → signed_is_negative s = bool_decide (signed_val s < 0).
Proof.
  intros Hs. pose proof (wide_val_bound _ Hs). unfold signed_is_negative. rewrite wide_top_bit_spec by done. unfold signed_val.
  apply bool_decide_ext. case_decide; lia.
Qed.
(** Bits congruent to an integer name it, give or take one turn. *)
Lemma signed_val_turn {A B} (s : SignedFixed A B) x : signed_ok s → wide_val (bits s) = x mod 2 ^ 256 → - 2 ^ 256 ≤ x < 2 ^ 256 →
  (signed_range x → signed_val s = x) ∧ (2 ^ 255 ≤ x → signed_val s = x - 2 ^ 256) ∧ (x < - 2 ^ 255 → signed_val s = x + 2 ^ 256).
Proof.
  intros Hs E Hx. unfold signed_val, signed_range. rewrite E. destruct (decide (0 ≤ x)).
  - rewrite Z.mod_small by lia. case_decide; lia.
  - rewrite <- (Z.mod_add _ 1), Z.mod_small by lia. case_decide; lia.
Qed.
Lemma signed_sum_bits {A B} (s t : SignedFixed A B) : signed_ok s → signed_ok t →
  wide_ok (wide_wrapping_add (bits s) (bits t)) ∧ wide_val (wide_wrapping_add (bits s) (bits t)) = (signed_val s + signed_val t) mod 2 ^ 256.
Proof.
  intros Hs Ht. destruct (wide_wrapping_add_spec _ _ Hs Ht) as [Hok Hv]. split; [done|].
  rewrite Hv, (signed_val_mod s), (signed_val_mod t) by done. by rewrite <- Zplus_mod.
Qed.
Lemma signed_neg_bits {A B} (s : SignedFixed A B) : signed_ok s →
  wide_ok (wide_wrapping_neg (bits s)) ∧ wide_val (wide_wrapping_neg (bits s)) = (- signed_val s) mod 2 ^ 256.
Proof.
  intros Hs. destruct (wide_wrapping_neg_spec _ Hs) as [Hok Hv]. split; [done|]. rewrite Hv, signed_val_mod by done.
  rewrite <- !(Z.sub_0_l). by rewrite Zminus_mod_idemp_r.
Qed.
Lemma signed_difference_bits {A B} (s t : SignedFixed A B) : signed_ok s → signed_ok t →
  let w := wide_wrapping_add (bits s) (wide_wrapping_neg (bits t)) in wide_ok w ∧ wide_val w = (signed_val s - signed_val t) mod 2 ^ 256.
Proof.
  intros Hs Ht w. destruct (signed_neg_bits t Ht) as [Hn Hnv]. destruct (wide_wrapping_add_spec _ _ Hs Hn) as [Hok Hv]. split; [done|].
  subst w. rewrite Hv, Hnv, (signed_val_mod s) by done. by rewrite <- Zplus_mod.
Qed.

(** What an exact signed operation must answer for the integer it names. *)
Definition signed_answers {A B} (p : Panic) (x : Z) (r : result Panic (SignedFixed A B)) : Prop :=
  match r with
  | Ok u => signed_ok u ∧ signed_range x ∧ signed_val u = x
  | Err e => e = p ∧ ¬ signed_range x
  end.

Lemma signed_add_spec {A B} (s t : SignedFixed A B) : signed_ok s → signed_ok t →
  signed_answers SignedPastRange (signed_val s + signed_val t) (signed_add s t).
Proof.
  intros Hs Ht. destruct (signed_sum_bits s t Hs Ht) as [Hok Hv]. pose proof (signed_val_range s Hs). pose proof (signed_val_range t Ht).
  unfold signed_add, signed_answers. set (u := from_bits _ : SignedFixed A B) in *. assert (Hu : signed_ok u) by exact Hok.
  unfold signed_range in *. destruct (signed_val_turn u (signed_val s + signed_val t) Hu Hv ltac:(lia)) as (H1 & H2 & H3). unfold signed_range in H1.
  rewrite !signed_negative by done. unfold assert_. repeat case_bool_decide; cbn; (split; [done|lia]).
Qed.
Lemma signed_sub_spec {A B} (s t : SignedFixed A B) : signed_ok s → signed_ok t →
  signed_answers SignedPastRange (signed_val s - signed_val t) (signed_sub s t).
Proof.
  intros Hs Ht. destruct (signed_difference_bits s t Hs Ht) as [Hok Hv]. pose proof (signed_val_range s Hs). pose proof (signed_val_range t Ht).
  unfold signed_sub, signed_answers. set (u := from_bits _ : SignedFixed A B) in *. assert (Hu : signed_ok u) by exact Hok.
  unfold signed_range in *. destruct (signed_val_turn u (signed_val s - signed_val t) Hu Hv ltac:(lia)) as (H1 & H2 & H3). unfold signed_range in H1.
  rewrite !signed_negative by done. unfold assert_. repeat case_bool_decide; cbn; (split; [done|lia]).
Qed.
Lemma signed_negate_spec {A B} (s : SignedFixed A B) : signed_ok s → signed_answers NoOpposite (- signed_val s) (signed_negate s).
Proof.
  intros Hs. destruct (signed_neg_bits s Hs) as [Hok Hv]. pose proof (signed_val_range s Hs). unfold signed_negate, signed_answers.
  set (u := from_bits (wide_wrapping_neg (bits s)) : SignedFixed A B). assert (Hu : signed_ok u) by exact Hok.
  change (wide_top_bit (wide_wrapping_neg (bits s))) with (signed_is_negative u).
  unfold signed_range in *. destruct (signed_val_turn u (- signed_val s) Hu Hv ltac:(lia)) as (H1 & H2 & H3). unfold signed_range in H1.
  rewrite !signed_negative by done. unfold assert_. repeat case_bool_decide; cbn; (split; [done|lia]).
Qed.
Lemma signed_cmp_spec {A B} (s t : SignedFixed A B) : signed_ok s → signed_ok t → signed_cmp s t = Z.compare (signed_val s) (signed_val t).
Proof.
  intros Hs Ht. pose proof (wide_val_bound _ Hs). pose proof (wide_val_bound _ Ht). unfold signed_cmp.
  rewrite !wide_top_bit_spec, wide_cmp_spec by done. unfold signed_val.
  repeat case_bool_decide; repeat case_decide; try lia;
    repeat match goal with |- context [Z.compare ?x ?y] => destruct (Z.compare_spec x y) end; (done || lia).
Qed.
(** A magnitude and a sign make a signed rate exactly where the integer is in range. *)
Definition signed_by (sign : Sign) (x : Z) : Z := match sign with Positive => x | Negative => - x end.
Lemma fixed_signed_spec {A B} (f : Fixed A B) sign : fixed_ok f →
  match fixed_signed f sign with
  | Ok s => signed_ok s ∧ signed_val s = signed_by sign (wide_val (scaled f))
  | Err e => e = OutOfRange ∧ ¬ signed_range (signed_by sign (wide_val (scaled f)))
  end.
Proof.
  intros Hf. pose proof (wide_val_bound _ Hf). unfold fixed_signed. rewrite wide_is_zero_spec by done. unfold signed_range.
  destruct sign; cbn [signed_by].
  - rewrite wide_top_bit_spec by done. unfold signed_val. repeat case_bool_decide; cbn; (split; [done|]); try lia; case_decide; lia.
  - destruct (wide_wrapping_neg_spec _ Hf) as [Hok Hv]. rewrite wide_top_bit_spec by done.
    assert (wide_val (wide_wrapping_neg (scaled f)) = if decide (wide_val (scaled f) = 0) then 0 else 2 ^ 256 - wide_val (scaled f)) as E.
    { rewrite Hv. case_decide as H0; [by rewrite H0|]. symmetry. apply (Z.mod_unique_pos _ _ (-1)); lia. }
    set (w := wide_wrapping_neg (scaled f)) in *. clearbody w. unfold signed_val. cbn [bits].
    revert E. destruct (decide (wide_val (scaled f) = 0)); intros E; repeat case_bool_decide; cbn; (split; [done|]); try case_decide; lia.
Qed.
Lemma signed_split_spec {A B} (s : SignedFixed A B) : signed_ok s →
  fixed_ok (signed_split s).1 ∧ wide_val (scaled (signed_split s).1) = Z.abs (signed_val s) ∧
  (signed_split s).2 = (if decide (signed_val s < 0) then Negative else Positive) ∧
  fixed_signed (signed_split s).1 (signed_split s).2 = Ok s.
Proof.
  intros Hs. pose proof (signed_val_range s Hs) as Hr. unfold signed_range in Hr. unfold signed_split. rewrite signed_negative by done.
  destruct (signed_neg_bits s Hs) as [Hn Hnv]. case_bool_decide as Hneg; cbn [fst snd].
  - rewrite decide_True by done. assert (Hv : wide_val (wide_wrapping_neg (bits s)) = - signed_val s) by (rewrite Hnv, Z.mod_small; lia).
    split; [exact Hn|]. split; [cbn [scaled]; lia|]. split; [done|].
    pose proof (fixed_signed_spec (from_scaled (wide_wrapping_neg (bits s)) : Fixed A B) Negative Hn) as H.
    destruct (fixed_signed _ _) as [t|e]; cbn [signed_by scaled] in H; [|destruct H as [_ []]; unfold signed_range; lia].
    destruct H as [Ht E]. f_equal. destruct s, t. f_equal. apply wide_val_inj; [exact Ht|exact Hs|].
    change (wide_val bits1) with (wide_val (bits (from_bits bits1 : SignedFixed A B))).
    change (wide_val bits0) with (wide_val (bits (from_bits bits0 : SignedFixed A B))). rewrite !signed_val_mod by done. f_equal. lia.
  - rewrite decide_False by done. assert (Hv : wide_val (bits s) = signed_val s) by (rewrite signed_val_mod, Z.mod_small by (done || lia); done).
    split; [exact Hs|]. split; [cbn [scaled]; lia|]. split; [done|].
    unfold fixed_signed. cbn [scaled]. rewrite wide_top_bit_spec, Hv, bool_decide_false by (done || lia). rewrite orb_true_r. by destruct s.
Qed.

(** ** What a cell promises a body

    A value written is the value read; an unwritten cell is the type's zero; and a written cell that reads at all is the one
    form of what it reads as. *)
Class CellLaws {A} (c : Cellular A) (ok : A → Prop) (zero : A) : Prop := {
  cell_round a : ok a → from_cell c (to_cell c a) = Ok a;
  cell_absent : from_cell c [] = Ok zero;
  cell_canon b a : b ≠ [] → from_cell c b = Ok a → ok a ∧ to_cell c a = b
}.

Lemma nonempty_length {A} (l : list A) n : length l = S n → l ≠ [].
Proof. by destruct l. Qed.
Lemma le_bytes_nonempty n x : le_bytes (S n) x ≠ [].
Proof. done. Qed.
Lemma packed_written b : b ≠ [] → packed b = if decide (length b = 16%nat) then Ok (le_val b) else Err CellWidth.
Proof. intros Hb. unfold packed. by rewrite decide_False by done. Qed.
Lemma packed_round x : in_width 128 x → packed (le_bytes 16 x) = Ok x.
Proof.
  intros Hx. rewrite packed_written by apply le_bytes_nonempty. rewrite decide_True by apply length_le_bytes. f_equal. by apply le_val_bytes.
Qed.
Lemma packed_canon b x : b ≠ [] → packed b = Ok x → in_width 128 x ∧ le_bytes 16 x = b.
Proof.
  intros Hb. rewrite packed_written by done. case_decide as Hl; [|done]. intros [= <-].
  split; [|by rewrite <- Hl, le_bytes_val]. pose proof (le_val_bound b) as H. rewrite Hl in H. exact H.
Qed.

#[global] Instance cell_u128_laws : CellLaws cell_u128 (in_width 128) 0.
Proof. split; [apply packed_round|done|apply packed_canon]. Qed.
#[global] Instance cell_order_key_laws : CellLaws cell_order_key (in_width 128) 0.
Proof. split; [apply packed_round|done|apply packed_canon]. Qed.
#[global] Instance cell_quantity_laws : CellLaws cell_quantity quantity_ok quantity_ZERO.
Proof.
  split.
  - intros [q] Hq. cbn [from_cell to_cell cell_quantity subunits]. by rewrite (packed_round q Hq).
  - done.
  - intros b q Hb (x & Hx & [= <-])%result_bind_ok. by apply packed_canon.
Qed.
#[global] Instance cell_fixed_laws {A B} : CellLaws (@cell_fixed A B) fixed_ok fixed_ZERO.
Proof.
  split.
  - intros [w] Hw. cbn [from_cell to_cell cell_fixed]. unfold fixed_to_le_bytes, fixed_from_le_bytes. cbn [scaled].
    destruct (wide_bytes w Hw) as [Hl _]. rewrite decide_False by (by eapply nonempty_length). rewrite decide_True by done.
    by rewrite (wide_bytes_round w Hw).
  - done.
  - intros b f Hb. cbn [from_cell to_cell cell_fixed]. rewrite decide_False by done. case_decide as Hl; [|done]. intros [= <-].
    split; [by apply wide_of_bytes|by apply wide_bytes_canon].
Qed.
#[global] Instance cell_signed_laws {A B} : CellLaws (@cell_signed A B) signed_ok signed_ZERO.
Proof.
  split.
  - intros [w] Hw. pose proof (cell_round (from_scaled w : Fixed A B) Hw) as H. unfold cell_signed. cbn [from_cell to_cell bits].
    by rewrite H.
  - done.
  - intros b s Hb H. cbn [from_cell cell_signed] in H. apply result_bind_ok in H as ([w] & Hf & [= <-]).
    exact (cell_canon (c := @cell_fixed A B) (ok := fixed_ok) b (from_scaled w) Hb Hf).
Qed.
#[global] Instance cell_unit_fixed_laws : CellLaws cell_unit_fixed unit_ok unit_ZERO.
Proof.
  split.
  - intros [u] Hu. cbn [from_cell to_cell cell_unit_fixed unit_scaled]. rewrite decide_False by apply le_bytes_nonempty.
    rewrite decide_True by apply length_le_bytes. unfold unit_ok, UNIT_SCALE in Hu. cbn [unit_scaled] in Hu.
    rewrite le_val_bytes by (change (256 ^ Z.of_nat 16) with (2 ^ 128); lia). unfold unit_new, UNIT_SCALE. by rewrite decide_False by lia.
  - done.
  - intros b u Hb. cbn [from_cell to_cell cell_unit_fixed]. rewrite decide_False by done. case_decide as Hl; [|done]. unfold unit_new.
    case_decide as Hr; [done|]. intros [= <-]. cbn [unit_scaled]. split; [|by rewrite <- Hl, le_bytes_val].
    pose proof (le_val_bound b). unfold unit_ok. cbn [unit_scaled]. lia.
Qed.
#[global] Instance cell_u64_laws : CellLaws cell_u64 (in_width 64) 0.
Proof.
  split.
  - intros x Hx. cbn [from_cell to_cell cell_u64]. rewrite decide_False by apply le_bytes_nonempty.
    rewrite decide_True by apply length_le_bytes. f_equal. by apply le_bytes_in_width.
  - done.
  - intros b x Hb. cbn [from_cell to_cell cell_u64]. rewrite decide_False by done. case_decide as Hl; [|done]. intros [= <-].
    split; [|by rewrite <- Hl, le_bytes_val]. pose proof (le_val_bound b) as H. rewrite Hl in H. exact H.
Qed.
#[global] Instance cell_array_laws n : CellLaws (cell_array n) (λ b, length b = n) (replicate n x00).
Proof.
  split.
  - intros b Hb. cbn [from_cell to_cell cell_array]. case_decide as He; [|by rewrite decide_True]. subst. done.
  - done.
  - intros b a Hb. cbn [from_cell to_cell cell_array]. rewrite decide_False by done. case_decide; [|done]. by intros [= <-].
Qed.
#[global] Instance cell_vec_laws : CellLaws cell_vec any [].
Proof. split; [done|done|]. intros b a _ [= <-]. done. Qed.

(** The wire form is as canonical as the cell's. *)
#[global] Instance fixed_codec_canonical {A B} : Canonical (@fixed_codec A B) fixed_ok.
Proof.
  eapply carried_canonical; [apply array_canonical| |].
  - intros [w] Hw. split; [by apply wide_bytes|]. unfold fixed_from_le_bytes, fixed_to_le_bytes. cbn [scaled]. by rewrite (wide_bytes_round w Hw).
  - intros b f Hb [= <-]. split; [by apply wide_of_bytes|by apply wide_bytes_canon].
Qed.
#[global] Instance signed_codec_canonical {A B} : Canonical (@signed_codec A B) signed_ok.
Proof.
  eapply carried_canonical; [apply array_canonical| |].
  - intros [w] Hw. split; [by apply wide_bytes|]. unfold signed_from_le_bytes, signed_to_le_bytes. cbn [bits]. by rewrite (wide_bytes_round w Hw).
  - intros b f Hb [= <-]. split; [by apply wide_of_bytes|by apply wide_bytes_canon].
Qed.
(** A stored record reads back, unless its encoding is no bytes at all: then it reads as the absence it cannot be told from. *)
Lemma option_cell_round {A} (c : Codec A) ok depth r b : Canonical c ok → ok r → option_to_cell c depth (Some r) = Ok b →
  option_from_cell c depth b = Ok (if decide (b = []) then None else Some r).
Proof.
  intros Hc Hr. unfold option_to_cell, option_from_cell. destruct (to_vec_with_depth c r depth) as [b'|] eqn:E; [|done]. intros [= <-].
  case_decide; [done|]. assert (from_slice_with_depth c b' depth = Ok r) as ->; [|done]. by apply (canonical_iff c ok).
Qed.

(** ** The rest of the vocabulary *)

Lemma quantity_add_spec q o : quantity_ok q → quantity_ok o →
  match quantity_add q o with
  | Ok s => quantity_ok s ∧ subunits s = subunits q + subunits o
  | Err p => p = TotalPastWidth ∧ u128_max < subunits q + subunits o
  end.
Proof.
  intros Hq Ho. unfold quantity_add. destruct (checked_add _ _ _) eqn:E; inv_result; cbn; unfold quantity_ok, in_width, width_max in *; cbn; split; (done || lia).
Qed.
Lemma quantity_sub_spec q o : quantity_ok q → quantity_ok o →
  match quantity_sub q o with
  | Ok s => quantity_ok s ∧ subunits s = subunits q - subunits o
  | Err p => p = BelowZero ∧ subunits q < subunits o
  end.
Proof.
  intros Hq Ho. unfold quantity_sub. destruct (checked_sub _ _) eqn:E; inv_result; cbn; unfold quantity_ok, in_width in *; cbn; split; (done || lia).
Qed.
Lemma quantity_try_sub_spec q o : quantity_ok q → quantity_ok o →
  match quantity_try_sub q o with
  | Some s => quantity_ok s ∧ subunits s = subunits q - subunits o
  | None => subunits q < subunits o
  end.
Proof.
  intros Hq Ho. unfold quantity_try_sub. destruct (checked_sub _ _) eqn:E; inv_result; unfold quantity_ok, in_width in *; cbn; first [lia|split; (done || lia)].
Qed.
Lemma quantity_min_spec q o : quantity_ok q → quantity_ok o →
  quantity_ok (quantity_min q o) ∧ subunits (quantity_min q o) = Z.min (subunits q) (subunits o).
Proof. intros Hq Ho. unfold quantity_min. case_decide; (split; [done|lia]). Qed.
Lemma quantity_max_spec q o : quantity_ok q → quantity_ok o →
  quantity_ok (quantity_max q o) ∧ subunits (quantity_max q o) = Z.max (subunits q) (subunits o).
Proof. intros Hq Ho. unfold quantity_max. case_decide; (split; [done|lia]). Qed.

(** A quantization lands on the nearest multiple the rounding names, and refuses only one past the amount width. *)
Lemma quantity_round_spec q step r : quantity_ok q → quantity_ok step → subunits step ≠ 0 →
  let v := subunits step * div_round r (subunits q) (subunits step) in
  match quantity_round_to_multiple q step r with
  | Ok m => quantity_ok m ∧ subunits m = v ∧ quantity_is_multiple_of m step = true
  | Err p => p = QuantizationPastWidth ∧ r = Up ∧ u128_max < v
  end.
Proof.
  intros Hq Hs H0 v. unfold quantity_round_to_multiple. rewrite decide_False by done.
  assert (Hm : ∀ k, quantity_is_multiple_of (from_subunits (subunits step * k)) step = true).
  { intros k. unfold quantity_is_multiple_of. cbn [subunits]. rewrite bool_decide_true by done. rewrite Z.mul_comm, Z.mod_mul by done. by rewrite bool_decide_true. }
  unfold quantity_ok, in_width in *. set (Q := subunits q) in *. set (S := subunits step) in *.
  pose proof (Z.div_mod Q S ltac:(lia)) as E. pose proof (Z.mod_pos_bound Q S ltac:(lia)) as B.
  assert (Ef : Q - Q mod S = S * (Q / S)) by lia. pose proof (Z.mod_le Q S ltac:(lia) ltac:(lia)).
  pose proof (div_ceil Q S ltac:(lia)) as Hc. subst v. destruct r; cbn [div_round].
  - rewrite Ef. split; [cbn [subunits]; lia|]. split; [done|apply Hm].
  - rewrite Ef. destruct (decide (S * (Q / S) = Q)) as [Hx|Hx].
    + rewrite Hc, decide_True by lia. rewrite Hx. split; [done|]. split; [done|]. specialize (Hm (Q / S)). rewrite Hx in Hm. by destruct q.
    + rewrite Hc, decide_False by lia. destruct (checked_add _ _ _) as [m|] eqn:Ea; inv_result; cbn [mbind result_bind ok_or].
      * replace m with (S * (Q / S + 1)) by lia. split; [cbn [subunits]; unfold width_max in *; lia|]. split; [done|apply Hm].
      * split; [done|]. split; [done|lia].
Qed.

Lemma amount_mean_spec a b : in_width 128 a → in_width 128 b →
  wide_to_u128 (host_geometric_mean (wide_from_u128 a) (wide_from_u128 b)) = Ok (Z.sqrt (a * b)) ∧ in_width 128 (Z.sqrt (a * b)).
Proof.
  intros Ha Hb. destruct (wide_from_u128_spec _ Ha) as [Hwa Va]. destruct (wide_from_u128_spec _ Hb) as [Hwb Vb].
  destruct (geometric_mean_correct _ _ Hwa Hwb) as [Hg Vg]. fold (wide_val (wide_from_u128 a)) (wide_val (wide_from_u128 b)) in Vg.
  rewrite Va, Vb in Vg. set (w := host_geometric_mean _ _). assert (Hw : wide_ok w) by exact Hg.
  assert (Ew : wide_val w = Z.sqrt (a * b)) by exact Vg. rewrite (wide_to_u128_spec w Hw), Ew. unfold in_width in *.
  assert (Z.sqrt (a * b) < 2 ^ 128) by (apply Z.sqrt_lt_square; [nia|lia|nia]).
  pose proof (Z.sqrt_nonneg (a * b)). rewrite decide_True by (unfold width_max; lia). split; [done|lia].
Qed.
Lemma quantity_geometric_mean_spec q o : quantity_ok q → quantity_ok o →
  quantity_geometric_mean q o = Ok (from_subunits (Z.sqrt (subunits q * subunits o))) ∧
  quantity_ok (from_subunits (Z.sqrt (subunits q * subunits o))).
Proof. intros Hq Ho. destruct (amount_mean_spec _ _ Hq Ho) as [E H]. unfold quantity_geometric_mean. rewrite E. done. Qed.
Lemma wide_one : wide_from_u128 1 = wide_ONE.
Proof. vm_compute. reflexivity. Qed.
Lemma quantity_sqrt_spec q : quantity_ok q → quantity_sqrt q = Ok (from_subunits (Z.sqrt (subunits q))).
Proof.
  intros Hq. unfold quantity_sqrt. rewrite <- wide_one. assert (H1 : in_width 128 1) by (unfold in_width; lia).
  destruct (amount_mean_spec _ 1 Hq H1) as [E _]. rewrite E, Z.mul_1_r. done.
Qed.

(** *** Bounded numbers *)

Lemma unit_new_spec x : 0 ≤ x → match unit_new x with Ok u => unit_ok u ∧ unit_scaled u = x | Err e => e = OutOfRange ∧ UNIT_SCALE < x end.
Proof. intros Hx. unfold unit_new, unit_ok. case_decide; cbn [unit_scaled]; split; (done || lia). Qed.
Lemma unit_bps_ok b u : 0 ≤ b → unit_bps b = Ok u → unit_ok u ∧ unit_scaled u * 10000 = b * UNIT_SCALE.
Proof. intros Hb. unfold unit_bps, unit_ok, UNIT_SCALE. case_decide; [done|]. intros [= <-]. cbn [unit_scaled].
  change (10 ^ 18 / 10000) with (10 ^ 14). lia. Qed.
Lemma unit_percent_ok b u : 0 ≤ b → unit_percent b = Ok u → unit_ok u ∧ unit_scaled u * 100 = b * UNIT_SCALE.
Proof. intros Hb. unfold unit_percent, unit_ok, UNIT_SCALE. case_decide; [done|]. intros [= <-]. cbn [unit_scaled].
  change (10 ^ 18 / 100) with (10 ^ 16). lia. Qed.
Lemma unit_complement_ok u : unit_ok u → unit_ok (unit_complement u) ∧ unit_complement (unit_complement u) = u.
Proof. destruct u as [x]. unfold unit_ok, unit_complement. cbn. intros Hu. split; [lia|]. f_equal. lia. Qed.

(** *** Fractions *)

Lemma ratio_compose_spec r s : ratio_ok r → ratio_ok s →
  match ratio_compose r s with
  | Ok t => ratio_ok t ∧
      wide_val (num t) * (wide_val (den r) * wide_val (den s)) = wide_val (den t) * (wide_val (num r) * wide_val (num s))
  | Err p => p = FractionComposition ∧
      (2 ^ 256 ≤ wide_val (num r) * wide_val (num s) ∨ 2 ^ 256 ≤ wide_val (den r) * wide_val (den s))
  end.
Proof.
  intros (Hn & Hd & H0) (Hn' & Hd' & H0'). unfold ratio_compose, host_fraction_compose, widened.
  pose proof (fraction_compose_correct _ _ _ _ Hn Hd Hn' Hd') as H.
  fold (wide_val (num r)) (wide_val (den r)) (wide_val (num s)) (wide_val (den s)) in H.
  destruct (fraction_compose _ _ _ _) as [[n d]|[]]; cbn in *.
  - destruct H as (H1 & H2 & H3 & H4 & _). done.
  - by destruct H.
  - destruct H as (_ & _ & H). split; [done|]. pose proof (wide_val_bound _ Hn). pose proof (wide_val_bound _ Hd).
    pose proof (wide_val_bound _ Hn'). pose proof (wide_val_bound _ Hd').
    assert (Hle : ∀ x y, 0 ≤ x → 0 ≤ x / Z.gcd x y ≤ x).
    { intros x y Hx. destruct (decide (Z.gcd x y = 0)) as [E|E]; [rewrite E, Zdiv_0_r; lia|].
      pose proof (Z.gcd_nonneg x y). split; [apply Z.div_pos; lia|]. apply Z.div_le_upper_bound; nia. }
    pose proof (Hle (wide_val (num r)) (wide_val (den s)) ltac:(lia)). pose proof (Hle (wide_val (num s)) (wide_val (den r)) ltac:(lia)).
    pose proof (Hle (wide_val (den r)) (wide_val (num s)) ltac:(lia)) as Hx. pose proof (Hle (wide_val (den s)) (wide_val (num r)) ltac:(lia)) as Hy.
    rewrite Z.gcd_comm in Hx. rewrite Z.gcd_comm in Hy. destruct H as [H|H]; [left|right]; nia.
Qed.
(** A stored rate quantized back is the stored rate, whichever way it rounds. *)
Lemma div_round_exact r x y : 0 < y → div_round r (x * y) y = x.
Proof. intros Hy. destruct r; cbn; [by rewrite Z.div_mul by lia|]. rewrite <- Z.mul_opp_l, Z.div_mul by lia. lia. Qed.
Lemma quantize_rate {A B} (f : Fixed A B) r : fixed_ok f → rate_quantize (fixed_rate f) r = Ok f.
Proof.
  intros Hf. destruct scale_ok as [Hs Hv]. unfold rate_quantize, fixed_rate. cbn [rate_ratio num den].
  pose proof (host_mul_div_spec (scaled f) _ _ r Hf Hs Hs) as H. rewrite Hv in H. specialize (H ltac:(done)). cbv zeta in H.
  rewrite div_round_exact in H by lia. pose proof (wide_val_bound _ Hf).
  destruct (host_mul_div _ _ _ _) as [w|p]; [|lia]. cbn. destruct H as [Hw E]. destruct f as [x]. do 2 f_equal. by apply wide_val_inj.
Qed.
(** Converting there and back never gains where it rounds down, and never loses where it rounds up. *)
Lemma convert_back {A B} (rate : Rate A B) back q a b r : rate_ok rate → quantity_ok q → rate_recip rate = Ok back →
  quantity_convert q rate r = Ok a → quantity_convert a back r = Ok b → rounds r (subunits b) (subunits q).
Proof.
  intros Hr Hq Hb Ha Hbk. unfold quantity_convert in *. apply result_bind_ok in Hb as (s & Hs & [= <-]).
  pose proof (ratio_recip_spec _ Hr) as H. rewrite Hs in H. destruct H as (Hok & En & Ed).
  destruct (quantity_scale_ok _ _ _ _ Hq Hr Ha) as [Hqa Va]. destruct (quantity_scale_ok _ _ _ _ Hqa Hok Hbk) as [Hqb Vb].
  cbn [rate_ratio] in *. rewrite En, Ed in Vb. destruct (ratio_bounds _ Hr) as [Hn Hd]. destruct (ratio_bounds _ Hok) as [Hn' Hd'].
  rewrite Ed in Hd'. pose proof (div_round_bounds r (subunits q * wide_val (num (rate_ratio rate))) (wide_val (den (rate_ratio rate))) ltac:(lia)) as B1.
  pose proof (div_round_bounds r (subunits a * wide_val (den (rate_ratio rate))) (wide_val (num (rate_ratio rate))) ltac:(lia)) as B2.
  rewrite <- Va in B1. rewrite <- Vb in B2. destruct r; cbn; nia.
Qed.
Lemma fixed_pow_int_spec {A B} (f : Fixed A B) exp r : fixed_ok f → in_width 32 exp →
  match fixed_pow_int f exp r with
  | Ok g => fixed_ok g ∧ rounds r (wide_val (scaled g) * (10 ^ 36) ^ exp) (10 ^ 36 * wide_val (scaled f) ^ exp)
  | Err p => p = Exponentiation
  end.
Proof.
  intros Hf He. unfold fixed_pow_int, host_fixed_pow, widened. pose proof (fixed_pow_spec _ exp r Hf He) as H.
  destruct (fixed_pow _ _ _); cbn in *; done.
Qed.

(** ** What the vocabulary promises *)

(** A partition conserves. Dividing an amount by a fraction gives the floor of the exact share and a rest that, with it,
    is the amount, whatever is rounded; the division panics only where the share is worth more than the whole amount, so
    never by a fraction of at most one, and in particular never by a bounded number or by its complement. *)
Theorem partition_conserves q s u : quantity_ok q → ratio_ok s → unit_ok u →
  match quantity_divide q s with
  | Ok (part, rest) => quantity_ok part ∧ quantity_ok rest ∧
      subunits part = subunits q * wide_val (num s) / wide_val (den s) ∧ subunits part + subunits rest = subunits q
  | Err _ => (subunits q + 1) * wide_val (den s) ≤ subunits q * wide_val (num s)
  end ∧
  (wide_val (num s) ≤ wide_val (den s) → is_ok (quantity_divide q s) = true) ∧
  is_ok (quantity_divide q (unit_ratio u)) = true ∧ is_ok (quantity_divide q (unit_ratio (unit_complement u))) = true.
Proof.
  intros Hq Hs Hu.
  assert (H1 : ∀ s, ratio_ok s → wide_val (num s) ≤ wide_val (den s) → is_ok (quantity_divide q s) = true).
  { intros t Ht Hle. pose proof (quantity_divide_spec q t Hq Ht) as H. destruct (ratio_bounds t Ht). unfold quantity_ok, in_width in Hq.
    destruct (quantity_divide q t); [done|nia]. }
  destruct (unit_ratio_ok u Hu) as (Hr & En & Ed). destruct (unit_complement_ok u Hu) as [Hu' _].
  destruct (unit_ratio_ok _ Hu') as (Hr' & En' & Ed'). unfold unit_ok in *.
  split; [by apply quantity_divide_spec|]. split; [by apply H1|]. split; apply H1; [exact Hr|lia|exact Hr'|lia].
Qed.
Lemma partition_conserves_witness : 
  let q := from_subunits 10 in let s := {| num := wide_from_u128 1; den := wide_from_u128 3 |} in let u := {| unit_scaled := 3 * 10 ^ 15 |} in
  (quantity_ok q ∧ ratio_ok s ∧ unit_ok u) ∧ is_ok (quantity_divide q (unit_ratio u)) = true.
Proof.
  intros q s u. assert (H1 : quantity_ok q) by (split; cbn; lia).
  assert (H2 : ratio_ok s) by (split; [solve_limbs|split; [solve_limbs|discriminate]]).
  assert (H3 : unit_ok u) by (unfold u, unit_ok, UNIT_SCALE; cbn [unit_scaled]; lia). split; [done|].
  destruct (partition_conserves q s u H1 H2 H3) as (_ & _ & H & _). exact H.
Defined.

(** C34: a signed rate is an integer of its range. Sum, difference and opposite are the integers' own and panic exactly where
    the answer leaves the range; the order is the integers'; a value splits into its magnitude and sign, and the two make
    it again; a magnitude and a sign make a value exactly where the range holds it. *)
Theorem signed_rates_exact {A B} (s t : SignedFixed A B) (f : Fixed A B) sign : signed_ok s → signed_ok t → fixed_ok f →
  signed_answers SignedPastRange (signed_val s + signed_val t) (signed_add s t) ∧
  signed_answers SignedPastRange (signed_val s - signed_val t) (signed_sub s t) ∧
  signed_answers NoOpposite (- signed_val s) (signed_negate s) ∧
  signed_cmp s t = Z.compare (signed_val s) (signed_val t) ∧
  (let '(magnitude, way) := signed_split s in
   wide_val (scaled magnitude) = Z.abs (signed_val s) ∧ way = (if decide (signed_val s < 0) then Negative else Positive) ∧
   fixed_signed magnitude way = Ok s) ∧
  match fixed_signed f sign with
  | Ok u => signed_ok u ∧ signed_val u = signed_by sign (wide_val (scaled f))
  | Err e => e = OutOfRange ∧ ¬ signed_range (signed_by sign (wide_val (scaled f)))
  end.
Proof.
  intros Hs Ht Hf. split; [by apply signed_add_spec|]. split; [by apply signed_sub_spec|]. split; [by apply signed_negate_spec|].
  split; [by apply signed_cmp_spec|]. split; [|by apply fixed_signed_spec].
  pose proof (signed_split_spec s Hs) as (_ & H1 & H2 & H3). destruct (signed_split s). done.
Qed.
(** At the bottom of the range: no opposite, and yet [-1] less it is a difference that fits. *)
Definition lowest : SignedFixed () () := from_bits (from_limbs [0; 0; 0; 2 ^ 63]).
Definition minus_one : SignedFixed () () := from_bits (from_limbs [u64_max; u64_max; u64_max; u64_max]).
Lemma signed_rates_exact_witness :
  (signed_ok minus_one ∧ signed_ok lowest ∧ fixed_ok (@fixed_ONE () ())) ∧
  signed_negate lowest = Err NoOpposite ∧
  signed_sub minus_one lowest = Ok (from_bits (from_limbs [u64_max; u64_max; u64_max; 2 ^ 63 - 1])) ∧
  signed_answers SignedPastRange (signed_val minus_one - signed_val lowest) (signed_sub minus_one lowest).
Proof.
  assert (H1 : signed_ok minus_one) by solve_limbs. assert (H2 : signed_ok lowest) by solve_limbs.
  assert (H3 : fixed_ok (@fixed_ONE () ())) by solve_limbs. split; [done|].
  destruct (signed_rates_exact minus_one lowest fixed_ONE Negative H1 H2 H3) as (_ & H & _).
  split; [vm_compute; reflexivity|]. split; [vm_compute; reflexivity|exact H].
Defined.

(** C35: what a body stores is what it reads. For every number of the vocabulary, packed integers, order keys and exact-width
    bytes, a value written to a cell is the value read from it, an unwritten cell reads as the type's zero, and a written
    cell either panics or is the one byte form of the value it reads as; both kinds of rate have one wire form too. *)
Theorem numbers_in_cells :
  CellLaws cell_quantity quantity_ok quantity_ZERO ∧ CellLaws (@cell_fixed () ()) fixed_ok fixed_ZERO ∧
  CellLaws (@cell_signed () ()) signed_ok signed_ZERO ∧ CellLaws cell_unit_fixed unit_ok unit_ZERO ∧
  CellLaws cell_u128 (in_width 128) 0 ∧ CellLaws cell_u64 (in_width 64) 0 ∧ CellLaws cell_order_key (in_width 128) 0 ∧
  (∀ n, CellLaws (cell_array n) (λ b, length b = n) (replicate n x00)) ∧
  Canonical (@fixed_codec () ()) fixed_ok ∧ Canonical (@signed_codec () ()) signed_ok.
Proof. split_and!; apply _. Qed.

(** A share above one need not panic: half as much again of one subunit is one subunit and nothing left. *)
Theorem share_above_one_answers :
  quantity_divide (from_subunits 1) {| num := wide_from_u128 3; den := wide_from_u128 2 |} = Ok (from_subunits 1, from_subunits 0).
Proof. vm_compute. reflexivity. Qed.
(** A stored record with no fields reads back as a cell nothing was stored in. *)
Theorem fieldless_record_reads_absent depth :
  option_to_cell unit_codec depth (Some ()) = Ok [] ∧ option_from_cell unit_codec depth [] = Ok None.
Proof. done. Qed.
