(* ===== verification/Cells.v ===== *)
(** * The cells the protocol writes ([crates/effects/src/cells.rs])

    The records a session leaves in state that no guest writes: spend and commit
    markers, crossing records and their answers, fee holds. Each is a value with
    its canonical bytes; a reader of the leaf gets back exactly what was written,
    and an answer's bytes say whose answer it is. *)

From S2P Require Import Prelude Types Modes Hbor.

(** ** Records *)

Abbreviation IntentHash := Z (only parsing).
Definition ARTIFACT_GRACE_MS : Z := 144000.
Definition COMMITTED_GRACE_MS : Z := 264000.

Inductive Marked := Spent (intent : IntentHash) | Committed.
Record Marker := { m_tx : TxHash; m_expiry_ms : Z; m_marks : Marked }.
Definition marked_expiry_ms (m : Marked) (validity_end_ms : Z) : Z :=
  saturating_add 64 validity_end_ms match m with Spent _ => ARTIFACT_GRACE_MS | Committed => COMMITTED_GRACE_MS end.
Definition marker_of (tx : TxHash) (validity_end_ms : Z) (marks : Marked) : Marker :=
  {| m_tx := tx; m_expiry_ms := marked_expiry_ms marks validity_end_ms; m_marks := marks |}.

Record CrossingId := { x_producer : Address; x_consumer : Address; x_intent : IntentHash; x_local : Z; x_output : Z }.
Inductive Kind := Escrowed | Owed.
#[global] Instance Kind_eq_dec : EqDecision Kind.
Proof. solve_decision. Defined.
Record Crossing := { crossing_id : CrossingId; crossing_kind : Kind }.
Inductive Terms := TermsEscrowed (credit : SubstateKey) | TermsOwed.
Definition terms_kind (t : Terms) : Kind := match t with TermsEscrowed _ => Escrowed | TermsOwed => Owed end.
Inductive Answered := Taken | Never.
Record CrossingCell := {
  cc_resource : ResourceAddr; cc_amount : Z; cc_intent : IntentHash; cc_local : Z; cc_output : Z;
  cc_validity_end_ms : Z; cc_tx : TxHash; cc_consumer : Address; cc_terms : Terms;
}.
Record CrossingAnswer := {
  ca_tx : TxHash; ca_intent : IntentHash; ca_local : Z; ca_output : Z; ca_producer : Address;
  ca_answered : Answered; ca_validity_end_ms : Z; ca_seen : bool;
}.
Record FeeHold := { fh_vault : LocalKey; fh_tx : TxHash; fh_fee : Z }.

Definition of_record (o : Address) (c : CrossingCell) : CrossingId := {|
  x_producer := o; x_consumer := cc_consumer c; x_intent := cc_intent c; x_local := cc_local c; x_output := cc_output c |}.
Definition of_answer (o : Address) (a : CrossingAnswer) : CrossingId := {|
  x_producer := ca_producer a; x_consumer := o; x_intent := ca_intent a; x_local := ca_local a; x_output := ca_output a |}.
Definition crossing_cell (i : CrossingId) (tx : TxHash) (resource : ResourceAddr) (amt validity_end_ms : Z)
    (terms : Terms) : CrossingCell := {|
  cc_resource := resource; cc_amount := amt; cc_intent := x_intent i; cc_local := x_local i;
  cc_output := x_output i; cc_validity_end_ms := validity_end_ms; cc_tx := tx;
  cc_consumer := x_consumer i; cc_terms := terms |}.
Definition crossing_answer (i : CrossingId) (tx : TxHash) (answered : Answered) (validity_end_ms : Z) :
    CrossingAnswer := {|
  ca_tx := tx; ca_intent := x_intent i; ca_local := x_local i; ca_output := x_output i;
  ca_producer := x_producer i; ca_answered := answered; ca_validity_end_ms := validity_end_ms;
  ca_seen := true |}.
Definition unseen_never (i : CrossingId) (tx : TxHash) (validity_end_ms : Z) : CrossingAnswer :=
  let a := crossing_answer i tx Never validity_end_ms in {|
  ca_tx := ca_tx a; ca_intent := ca_intent a; ca_local := ca_local a; ca_output := ca_output a;
  ca_producer := ca_producer a; ca_answered := ca_answered a; ca_validity_end_ms := ca_validity_end_ms a;
  ca_seen := false |}.
Definition seen_now (a : CrossingAnswer) : CrossingAnswer := {|
  ca_tx := ca_tx a; ca_intent := ca_intent a; ca_local := ca_local a; ca_output := ca_output a;
  ca_producer := ca_producer a; ca_answered := ca_answered a; ca_validity_end_ms := ca_validity_end_ms a;
  ca_seen := true |}.
Definition fee_hold_vault (h : FeeHold) (o : Address) : SubstateKey := {| owner := o; local := fh_vault h |}.

(** ** Their encoding *)

Definition hash32 : Codec Z := uint_be 32.
Definition local_key : Codec LocalKey := uint_be 16.
Definition address : Codec Address :=
  carried address_to_bytes
    (λ b, match address_from_bytes b with
          | Ok a => Ok a
          | Err e => Err (DecErr.InvalidDiscriminant (u8_of (invalid_tag e)))
          end) (array 32).
(** [class_addr!] for [ResourceAddr]: either resource class. *)
Definition resource_admits (c : AddressClass) : bool :=
  match c with Resource | Restricted => true | _ => false end.
Definition resource_addr : Codec ResourceAddr :=
  carried (λ a, a)
    (λ a, match address_class a with
          | Some c => if resource_admits c then Ok a else Err (DecErr.InvalidDiscriminant (u8_of (class_tag c)))
          | None => Err (DecErr.InvalidDiscriminant (u8_of (a mod 256)))
          end) address.
Definition substate_key : Codec SubstateKey :=
  carried (λ k, (owner k, local k)) (λ p, Ok {| owner := p.1; local := p.2 |})
    (both (nested address) (nested local_key)).

Definition marked_variants : list (Variant Marked) := [
  {| tag := x00; body := nested hash32; construct := Spent;
     pattern m := match m with Spent i => Some i | _ => None end |};
  {| tag := x01; body := unit_codec; construct _ := Committed;
     pattern m := match m with Committed => Some () | _ => None end |}].
Definition marked : Codec Marked := enum marked_variants.
Definition marker : Codec Marker :=
  carried (λ m, (m_tx m, (m_expiry_ms m, m_marks m)))
    (λ '(t, (x, k)), Ok {| m_tx := t; m_expiry_ms := x; m_marks := k |})
    (both (nested hash32) (both (nested (uint 8)) (nested marked))).

Definition terms_variants : list (Variant Terms) := [
  {| tag := x00; body := nested substate_key; construct := TermsEscrowed;
     pattern t := match t with TermsEscrowed k => Some k | _ => None end |};
  {| tag := x01; body := unit_codec; construct _ := TermsOwed;
     pattern t := match t with TermsOwed => Some () | _ => None end |}].
Definition terms : Codec Terms := enum terms_variants.
Definition crossing_cell_codec : Codec CrossingCell :=
  carried
    (λ c, (cc_resource c, (cc_amount c, (cc_intent c, (cc_local c, (cc_output c,
          (cc_validity_end_ms c, (cc_tx c, (cc_consumer c, cc_terms c)))))))))
    (λ '(r, (a, (i, (l, (o, (v, (t, (c, k)))))))), Ok {|
       cc_resource := r; cc_amount := a; cc_intent := i; cc_local := l; cc_output := o;
       cc_validity_end_ms := v; cc_tx := t; cc_consumer := c; cc_terms := k |})
    (both (nested resource_addr) (both (nested (uint 16)) (both (nested hash32) (both (nested (uint 4))
      (both (nested (uint 4)) (both (nested (uint 8)) (both (nested hash32) (both (nested address) (nested terms))))))))).

Definition answered_variants : list (Variant Answered) := [
  {| tag := x00; body := unit_codec; construct _ := Taken;
     pattern a := match a with Taken => Some () | _ => None end |};
  {| tag := x01; body := unit_codec; construct _ := Never;
     pattern a := match a with Never => Some () | _ => None end |}].
Definition answered_codec : Codec Answered := enum answered_variants.
Definition crossing_answer_codec : Codec CrossingAnswer :=
  carried
    (λ a, (ca_tx a, (ca_intent a, (ca_local a, (ca_output a, (ca_producer a, (ca_answered a,
          (ca_validity_end_ms a, ca_seen a))))))))
    (λ '(t, (i, (l, (o, (p, (w, (v, s))))))), Ok {|
       ca_tx := t; ca_intent := i; ca_local := l; ca_output := o; ca_producer := p; ca_answered := w;
       ca_validity_end_ms := v; ca_seen := s |})
    (both (nested hash32) (both (nested hash32) (both (nested (uint 4)) (both (nested (uint 4))
      (both (nested address) (both (nested answered_codec) (both (nested (uint 8)) (nested bool_codec)))))))).
Definition fee_hold : Codec FeeHold :=
  carried (λ h, (fh_vault h, (fh_tx h, fh_fee h)))
    (λ '(v, (t, f)), Ok {| fh_vault := v; fh_tx := t; fh_fee := f |})
    (both (nested local_key) (both (nested hash32) (nested (uint 16)))).

(** [to_bytes], whose [expect] is a [None], and [from_bytes]. *)
Definition cell_to_bytes {A} (c : Codec A) (v : A) : option bytes :=
  match to_vec c v with Ok b => Some b | Err _ => None end.
Definition cell_from_bytes {A} (c : Codec A) (b : bytes) : option A :=
  match from_slice c b with Ok v => Some v | Err _ => None end.

(** The values an answer of a transaction stands as, and whether a cell holds one. *)
Definition answer_values (i : CrossingId) (tx : TxHash) (validity_end_ms : Z) (answered : Answered) :
    option (list bytes) :=
  seen ← cell_to_bytes crossing_answer_codec (crossing_answer i tx answered validity_end_ms);
  match answered with
  | Taken => Some [seen]
  | Never => unseen ← cell_to_bytes crossing_answer_codec (unseen_never i tx validity_end_ms); Some [seen; unseen]
  end.
Definition answered_by (i : CrossingId) (tx : TxHash) (validity_end_ms : Z) (answered : Answered) (value : bytes) :
    option bool :=
  held ← answer_values i tx validity_end_ms answered; Some (bool_decide (value ∈ held)).

(** ** Canonicity *)

Definition resource_ok (a : ResourceAddr) : Prop :=
  address_ok a ∧ ∃ c, address_class a = Some c ∧ resource_admits c = true.
Definition key_ok (k : SubstateKey) : Prop := address_ok (owner k) ∧ width_ok 16 (local k).
Definition marked_ok (m : Marked) : Prop := match m with Spent i => width_ok 32 i | Committed => True end.
Definition marker_ok (m : Marker) : Prop := width_ok 32 (m_tx m) ∧ width_ok 8 (m_expiry_ms m) ∧ marked_ok (m_marks m).
Definition terms_ok (t : Terms) : Prop := match t with TermsEscrowed k => key_ok k | TermsOwed => True end.
Definition crossing_cell_ok (c : CrossingCell) : Prop :=
  resource_ok (cc_resource c) ∧ width_ok 16 (cc_amount c) ∧ width_ok 32 (cc_intent c) ∧ width_ok 4 (cc_local c) ∧
  width_ok 4 (cc_output c) ∧ width_ok 8 (cc_validity_end_ms c) ∧ width_ok 32 (cc_tx c) ∧ address_ok (cc_consumer c) ∧
  terms_ok (cc_terms c).
Definition answer_ok (a : CrossingAnswer) : Prop :=
  width_ok 32 (ca_tx a) ∧ width_ok 32 (ca_intent a) ∧ width_ok 4 (ca_local a) ∧ width_ok 4 (ca_output a) ∧
  address_ok (ca_producer a) ∧ any (ca_answered a) ∧ width_ok 8 (ca_validity_end_ms a) ∧ any (ca_seen a).
Definition fee_hold_ok (h : FeeHold) : Prop := width_ok 16 (fh_vault h) ∧ width_ok 32 (fh_tx h) ∧ width_ok 16 (fh_fee h).

Lemma built_address : built address address_ok.
Proof.
  eapply built_carried; [apply built_array| |].
  - intros a Ha. split; [apply length_be_bytes|]. unfold address_from_bytes.
    rewrite address_bytes_val by done. destruct Ha as [_ [c ->]]. done.
  - intros b a Hl. unfold address_from_bytes. destruct (from_tag _) as [c|] eqn:E; [|done]. intros [= <-].
    pose proof (be_val_bound b) as Hb. rewrite Hl in Hb. split.
    + split; [unfold in_width; rewrite pow256_32 in Hb; exact Hb|by rewrite E].
    + unfold address_to_bytes. rewrite <- Hl. apply be_bytes_val.
Qed.
Lemma built_resource_addr : built resource_addr resource_ok.
Proof.
  eapply built_carried; [apply built_address| |].
  - intros a (Ha & c & Hc & Hadm). split; [done|]. by rewrite Hc, Hadm.
  - intros b a Hb. destruct (address_class b) as [c|] eqn:E; [|done]. destruct (resource_admits c) eqn:E'; [|done].
    intros [= <-]. split; [split; [done|by exists c]|done].
Qed.
Lemma built_hash32 : built hash32 (width_ok 32).
Proof. apply built_uint_be. Qed.
Lemma built_substate_key : built substate_key key_ok.
Proof.
  eapply built_carried; [apply built_both; apply built_nested; [apply built_address|apply built_uint_be]| |].
  - by intros [].
  - by intros [] ? ? [= <-].
Qed.

(** The laws of an enum with a listed set of variants. *)
Ltac solve_enum :=
  unfold marked_variants, terms_variants, answered_variants; split;
  [ intros v x; rewrite !elem_of_cons; intros [->|[->|[]%not_elem_of_nil]]; try done; by destruct x
  | intros v [] x; rewrite !elem_of_cons; intros [->|[->|[]%not_elem_of_nil]]; cbn; intros [=]; by subst
  | intros v w x; rewrite !elem_of_cons; intros [->|[->|[]%not_elem_of_nil]] [->|[->|[]%not_elem_of_nil]] []; done
  | apply (bool_decide_unpack _); vm_compute; exact I
  | intros [] _; first [ by eexists; split; [apply list_elem_of_here|eexists]
                       | by eexists; split; [apply list_elem_of_further, list_elem_of_here|eexists] ] ].

Lemma marked_laws : enum_laws marked_variants marked_ok.
Proof. solve_enum. Qed.
Lemma terms_laws : enum_laws terms_variants terms_ok.
Proof. solve_enum. Qed.
Lemma answered_laws : enum_laws answered_variants any.
Proof. solve_enum. Qed.

(** Every variant's fields, one goal per variant. *)
Ltac each_variant := intros v; unfold marked_variants, terms_variants, answered_variants; rewrite !elem_of_cons;
  intros [->|[->|[]%not_elem_of_nil]].

Lemma built_marked : built marked marked_ok.
Proof.
  apply built_enum; [apply marked_laws|]. each_variant; [apply built_nested, built_hash32|apply built_unit].
Qed.
Lemma built_terms : built terms terms_ok.
Proof.
  apply built_enum; [apply terms_laws|]. each_variant; [apply built_nested, built_substate_key|apply built_unit].
Qed.
Lemma built_answered : built answered_codec any.
Proof. apply built_enum; [apply answered_laws|]. each_variant; apply built_unit. Qed.

Create HintDb codec.
#[export] Hint Resolve built_hash32 built_substate_key built_address built_resource_addr built_marked built_terms
  built_answered built_uint built_uint_be built_bool built_nested built_both : codec.

Lemma built_marker : built marker marker_ok.
Proof.
  eapply built_carried; [eauto 10 with codec|by intros []|]. by intros (? & ? & ?) ? Hok [= <-].
Qed.
Lemma built_crossing_cell : built crossing_cell_codec crossing_cell_ok.
Proof.
  eapply built_carried; [eauto 20 with codec|by intros []|].
  by intros (? & ? & ? & ? & ? & ? & ? & ? & ?) ? Hok [= <-].
Qed.
Lemma built_crossing_answer : built crossing_answer_codec answer_ok.
Proof.
  eapply built_carried; [eauto 20 with codec|by intros []|].
  by intros (? & ? & ? & ? & ? & ? & ? & ?) ? Hok [= <-].
Qed.
Lemma built_fee_hold : built fee_hold fee_hold_ok.
Proof.
  eapply built_carried; [unfold local_key; eauto 10 with codec|by intros []|]. by intros (? & ? & ?) ? Hok [= <-].
Qed.

(** *** None of them carries a length *)

Lemma address_free : LengthFree address address_ok 0.
Proof. eapply carried_free; [apply array_free|]. intros a _. apply length_be_bytes. Qed.
Lemma resource_addr_free : LengthFree resource_addr resource_ok 0.
Proof. eapply carried_free; [apply address_free|]. by intros a [Ha _]. Qed.
Lemma substate_key_free : LengthFree substate_key key_ok 1.
Proof.
  eapply carried_free; [eapply (both_free _ _ _ _ 1 1); apply nested_free; [apply address_free|apply uint_be_free]|].
  by intros [].
Qed.
Lemma free_weaken {A} (c : Codec A) ok n k : LengthFree c ok n → (n ≤ k)%nat → LengthFree c ok k.
Proof. intros Hc Hk v d m Hv Hd. apply Hc; [done|lia]. Qed.
Lemma marked_free : LengthFree marked marked_ok 1.
Proof.
  apply enum_free; [apply marked_laws|].
  each_variant; [apply nested_free, uint_be_free|eapply free_weaken; [apply unit_free|lia]].
Qed.
Lemma terms_free : LengthFree terms terms_ok 2.
Proof.
  apply enum_free; [apply terms_laws|].
  each_variant; [apply nested_free, substate_key_free|eapply free_weaken; [apply unit_free|lia]].
Qed.
Lemma answered_free : LengthFree answered_codec any 0.
Proof. apply enum_free; [apply answered_laws|]. each_variant; apply unit_free. Qed.
#[export] Hint Resolve address_free substate_key_free marked_free terms_free answered_free
  uint_be_free uint_free bool_free nested_free both_free : codec.

Lemma marker_free : LengthFree marker marker_ok 2.
Proof.
  eapply carried_free; [eapply (both_free _ _ _ _ 1 2); [|eapply (both_free _ _ _ _ 1 2)]; unfold hash32; eauto with codec|].
  by intros [].
Qed.
Lemma fee_hold_free : LengthFree fee_hold fee_hold_ok 1.
Proof.
  eapply carried_free; [eapply (both_free _ _ _ _ 1 1); [|eapply (both_free _ _ _ _ 1 1)]; unfold hash32, local_key; eauto with codec|].
  by intros [].
Qed.
Lemma crossing_cell_free : LengthFree crossing_cell_codec crossing_cell_ok 3.
Proof.
  eapply carried_free;
    [eapply (both_free _ _ _ _ 1 3); [apply nested_free, resource_addr_free|]; unfold hash32;
     do 7 (eapply (both_free _ _ _ _ 1 3); [by eauto with codec|]); by eauto with codec|intros [] Hok; exact Hok].
Qed.
Lemma crossing_answer_free : LengthFree crossing_answer_codec answer_ok 1.
Proof.
  eapply carried_free;
    [unfold hash32; do 7 (eapply (both_free _ _ _ _ 1 1); [by eauto with codec|]); by eauto with codec|intros [] Hok; exact Hok].
Qed.

(** ** What a reader of a leaf gets *)

(** A record is written without a panic and read back, and nothing else reads as it. *)
Definition leaf_faithful {A} (c : Codec A) (ok : A → Prop) : Prop :=
  (∀ v, ok v → ∃ b, cell_to_bytes c v = Some b ∧ cell_from_bytes c b = Some v) ∧
  (∀ b v, cell_from_bytes c b = Some v → ok v ∧ cell_to_bytes c v = Some b).

Lemma leaf_faithful_of {A} (c : Codec A) ok n :
  built c ok → LengthFree c ok n → (n ≤ DEFAULT_MAX_DEPTH)%nat → leaf_faithful c ok.
Proof.
  intros Hb Hf Hn. pose proof (built_canonical _ _ Hb) as Hc. unfold leaf_faithful, cell_to_bytes, cell_from_bytes. split.
  - intros v Hv. destruct (length_free_to_vec c ok n v DEFAULT_MAX_DEPTH Hf Hv Hn) as [b E].
    exists b. unfold to_vec, from_slice. rewrite E. split; [done|].
    rewrite (proj2 (canonical_iff c ok DEFAULT_MAX_DEPTH b v Hc)) by done. done.
  - intros b v. unfold to_vec, from_slice. destruct (from_slice_with_depth c b DEFAULT_MAX_DEPTH) as [v'|] eqn:E; [|done].
    intros [= ->]. apply (canonical_iff c ok DEFAULT_MAX_DEPTH b v Hc) in E as [Hv ->]. done.
Qed.

(** The protocol's own cells round trip. A marker, a crossing record, a
    crossing answer and a fee hold built from values of their types are encoded
    without a panic, read back from their bytes as themselves, and any bytes that
    read as one of them are that record's own encoding. *)
Theorem protocol_cells_roundtrip :
  leaf_faithful marker marker_ok ∧ leaf_faithful crossing_cell_codec crossing_cell_ok ∧
  leaf_faithful crossing_answer_codec answer_ok ∧ leaf_faithful fee_hold fee_hold_ok.
Proof.
  split; [|split; [|split]].
  - eapply leaf_faithful_of; [apply built_marker|apply marker_free|unfold DEFAULT_MAX_DEPTH; lia].
  - eapply leaf_faithful_of; [apply built_crossing_cell|apply crossing_cell_free|unfold DEFAULT_MAX_DEPTH; lia].
  - eapply leaf_faithful_of; [apply built_crossing_answer|apply crossing_answer_free|unfold DEFAULT_MAX_DEPTH; lia].
  - eapply leaf_faithful_of; [apply built_fee_hold|apply fee_hold_free|unfold DEFAULT_MAX_DEPTH; lia].
Qed.

Definition crossing_id_ok (i : CrossingId) : Prop :=
  address_ok (x_producer i) ∧ width_ok 32 (x_intent i) ∧ width_ok 4 (x_local i) ∧ width_ok 4 (x_output i).

Lemma answer_bytes_inj a a' b :
  answer_ok a → answer_ok a' → cell_to_bytes crossing_answer_codec a = Some b →
  cell_to_bytes crossing_answer_codec a' = Some b → a = a'.
Proof.
  intros Ha Ha' E E'.
  assert (Hf : leaf_faithful crossing_answer_codec answer_ok)
    by (eapply leaf_faithful_of; [apply built_crossing_answer|apply crossing_answer_free|unfold DEFAULT_MAX_DEPTH; lia]).
  destruct Hf as [Hr _]. destruct (Hr a Ha) as (b1 & E1 & D1). destruct (Hr a' Ha') as (b2 & E2 & D2). congruence.
Qed.

Lemma answered_by_inv i tx v w value :
  answered_by i tx v w value = Some true →
  ∃ a, cell_to_bytes crossing_answer_codec a = Some value ∧
    (a = crossing_answer i tx w v ∨ w = Never ∧ a = unseen_never i tx v).
Proof.
  unfold answered_by, answer_values. destruct (cell_to_bytes _ (crossing_answer i tx w v)) as [seen|] eqn:E; [|done].
  destruct w; cbn.
  - intros [= H]. apply bool_decide_eq_true in H. apply list_elem_of_singleton in H as ->. eauto.
  - destruct (cell_to_bytes _ (unseen_never i tx v)) as [unseen|] eqn:E'; [|done]. cbn.
    intros [= H]. apply bool_decide_eq_true in H. apply elem_of_cons in H as [->|H%list_elem_of_singleton]; [eauto|].
    subst. eauto 6.
Qed.

(** An answer's bytes say whose answer it is. When one cell answers two
    crossings of one consumer, each for some transaction, the crossings are the
    same edge of the same intent and producer, and the transaction, its validity
    end and the verdict agree: the key names no transaction, and the value does. *)
Theorem answer_identifies i tx v w i' tx' v' w' value :
  crossing_id_ok i → crossing_id_ok i' → x_consumer i = x_consumer i' →
  width_ok 32 tx → width_ok 32 tx' → width_ok 8 v → width_ok 8 v' →
  answered_by i tx v w value = Some true → answered_by i' tx' v' w' value = Some true →
  i = i' ∧ tx = tx' ∧ v = v' ∧ w = w'.
Proof.
  intros (P & I & L & O) (P' & I' & L' & O') Hcons Ht Ht' Hv Hv' (a & Ea & Ha)%answered_by_inv (a' & Ea' & Ha')%answered_by_inv.
  assert (Hok : answer_ok a) by (destruct Ha as [->|[_ ->]]; unfold answer_ok, any; cbn; tauto).
  assert (Hok' : answer_ok a') by (destruct Ha' as [->|[_ ->]]; unfold answer_ok, any; cbn; tauto).
  pose proof (answer_bytes_inj a a' value Hok Hok' Ea Ea') as ->.
  clear Ea Ea' Hok Hok' P I L O P' I' L' O' Ht Ht' Hv Hv'. destruct i, i'. cbn in Hcons. subst.
  destruct Ha as [->|[-> ->]], Ha' as [E|[-> E]]; injection E; intros; subst; split_and!; reflexivity.
Qed.

Definition sample_edge : CrossingId :=
  {| x_producer := 258; x_consumer := 514; x_intent := 7; x_local := 0; x_output := 1 |}.

Lemma sample_edge_ok : crossing_id_ok sample_edge.
Proof.
  split; [split; [split; [discriminate|reflexivity]|eexists; vm_compute; reflexivity]|].
  split; [|split]; (split; [discriminate|vm_compute; reflexivity]).
Qed.

Lemma answer_identifies_witness :
  ∃ value, answered_by sample_edge 9 1000 Never value = Some true ∧
    (sample_edge = sample_edge ∧ 9 = 9 ∧ 1000 = 1000 ∧ Never = Never) ∧
    answered_by sample_edge 10 1000 Never value = Some false.
Proof.
  exists (default [] (cell_to_bytes crossing_answer_codec (unseen_never sample_edge 9 1000))).
  assert (E : answered_by sample_edge 9 1000 Never
    (default [] (cell_to_bytes crossing_answer_codec (unseen_never sample_edge 9 1000))) = Some true) by (vm_compute; reflexivity).
  assert (Ht : width_ok 32 9) by (split; [discriminate|vm_compute; reflexivity]).
  assert (Hv : width_ok 8 1000) by (split; [discriminate|vm_compute; reflexivity]).
  split; [exact E|]. split; [|vm_compute; reflexivity].
  exact (answer_identifies sample_edge 9 1000 Never sample_edge 9 1000 Never _ sample_edge_ok sample_edge_ok
    eq_refl Ht Ht Hv Hv E E).
Defined.
