(* ===== verification/Writes.v ===== *)
(** * State writes and settlement ([crates/types/src/writes.rs])

    What one transaction says about state: absolute values for byte cells and
    entries, movements for amount cells. A movement names what was moved, not where
    the cell ended, so two of them on one cell compose in any order; [resolve] folds
    them onto whatever the cell holds when the change lands. *)

From S2P Require Import Prelude Types Effects Modes Hbor Cells.

#[global] Instance EntryKey_countable : Countable EntryKey.
Proof.
  refine (inj_countable' (λ k, (entry_owner k, entry_collection k, entry_order k))
    (λ p, {| entry_owner := p.1.1; entry_collection := p.1.2; entry_order := p.2 |}) _).
  by intros [].
Defined.
#[global] Instance EntryKey_ord : OrdKey EntryKey.
Proof.
  refine {| ord_key k := [entry_owner k; entry_collection k; entry_order k] |}. intros [] [] [=]. by subst.
Defined.
#[global] Instance Movement_eq_dec : EqDecision Movement.
Proof. solve_decision. Defined.

Definition MAX_CELL_VALUE_LEN : Z := 256 * 1024.

(** ** Movements *)

Module Compose.
Inductive Compose := Denomination | Overflow.
End Compose.
Abbreviation Compose := Compose.Compose.

Definition movement_none (r : ResourceAddr) : Movement :=
  {| m_resource := r; m_credit := 0; m_debit := 0; m_unjudged_debit := 0 |}.
Definition movement_debit (r : ResourceAddr) (amount : Z) : Movement :=
  {| m_resource := r; m_credit := 0; m_debit := amount; m_unjudged_debit := 0 |}.
Definition movement_unjudged (r : ResourceAddr) (amount : Z) : Movement :=
  {| m_resource := r; m_credit := 0; m_debit := 0; m_unjudged_debit := amount |}.

Definition movement_then (m next : Movement) : result Compose Movement :=
  if decide (m_resource m ≠ m_resource next) then Err Compose.Denomination else
  credit ← ok_or (checked_add 128 (m_credit m) (m_credit next)) Compose.Overflow;
  debit ← ok_or (checked_add 128 (m_debit m) (m_debit next)) Compose.Overflow;
  unjudged ← ok_or (checked_add 128 (m_unjudged_debit m) (m_unjudged_debit next)) Compose.Overflow;
  Ok {| m_resource := m_resource m; m_credit := credit; m_debit := debit; m_unjudged_debit := unjudged |}.

Definition movement_land (m : Movement) (before : Z) : option (Z * Z) :=
  if decide (m_debit m ≤ m_credit m) then
    let net := m_credit m - m_debit m in
    let room := width_max 128 - before in
    if decide (room < net) then Some (width_max 128, net - room) else Some (before + net, 0)
  else match checked_sub before (m_debit m - m_credit m) with
       | Some after => Some (after, 0)
       | None => None
       end.
Definition movement_apply (m : Movement) (before : Z) : option Z :=
  match movement_land m before with
  | Some (after, _) => Some (saturating_sub after (m_unjudged_debit m))
  | None => None
  end.
Definition movement_burned (m : Movement) (before : Z) : Z :=
  match movement_land m before with Some (_, b) => b | None => 0 end.

(** ** Writes *)

Record StateWrites := {
  sw_cells : gmap SubstateKey (option bytes);
  sw_movements : gmap SubstateKey Movement;
  sw_entries : gmap EntryKey (option bytes);
}.
Record SettledWrites := {
  settled_cells : gmap SubstateKey (option bytes);
  settled_entries : gmap EntryKey (option bytes);
}.
Record OverDebit := { od_key : SubstateKey; od_held : Z; od_debit : Z }.

Definition writes_default : StateWrites := {| sw_cells := ∅; sw_movements := ∅; sw_entries := ∅ |}.
Definition writes_is_empty (w : StateWrites) : bool :=
  bool_decide (sw_cells w = ∅) && bool_decide (sw_movements w = ∅) && bool_decide (sw_entries w = ∅).

(** What a movement lands on: this receipt's own write of the cell where there is
    one, what the state holds otherwise; bytes that are no amount read as zero. *)
Definition settles_over (prior : SubstateKey → option bytes) (cells : gmap SubstateKey (option bytes))
    (key : SubstateKey) : Z :=
  default 0 (default (prior key) (cells !! key) ≫= read_amount).
Fixpoint resolve_loop (prior : SubstateKey → option bytes) (movements : list (SubstateKey * Movement))
    (cells : gmap SubstateKey (option bytes)) : result OverDebit (gmap SubstateKey (option bytes)) :=
  match movements with
  | [] => Ok cells
  | (key, movement) :: movements =>
      let before := settles_over prior cells key in
      after ← ok_or (movement_apply movement before)
        {| od_key := key; od_held := before; od_debit := saturating_sub (m_debit movement) (m_credit movement) |};
      resolve_loop prior movements (<[key := amount_cell after]> cells)
  end.
Definition resolve (prior : SubstateKey → option bytes) (w : StateWrites) : result OverDebit SettledWrites :=
  cells ← resolve_loop prior (map_iter (sw_movements w)) (sw_cells w);
  Ok {| settled_cells := cells; settled_entries := sw_entries w |}.

Definition from_absolutes (cells : gmap SubstateKey (option bytes)) : SettledWrites :=
  {| settled_cells := cells; settled_entries := ∅ |}.
Definition settled_is_empty (s : SettledWrites) : bool :=
  bool_decide (settled_cells s = ∅) && bool_decide (settled_entries s = ∅).
(** [From<SettledWrites> for StateWrites]. *)
Definition from_settled (s : SettledWrites) : StateWrites :=
  {| sw_cells := settled_cells s; sw_movements := ∅; sw_entries := settled_entries s |}.

(** ** Their encoding *)

Definition value_fits (v : option bytes) : Prop := from_option (λ b : bytes, Z.of_nat (length b) ≤ MAX_CELL_VALUE_LEN) True v.
#[global] Instance value_fits_dec v : Decision (value_fits v).
Proof. destruct v; cbn; apply _. Defined.
Definition cell_values_fit (w : StateWrites) : bool :=
  forallb (λ v, bool_decide (value_fits v)) ((map_iter (sw_cells w)).*2 ++ (map_iter (sw_entries w)).*2).

Definition entry_key : Codec EntryKey :=
  carried (λ k, (entry_owner k, (entry_collection k, entry_order k)))
    (λ '(o, (c, x)), Ok {| entry_owner := o; entry_collection := c; entry_order := x |})
    (both (nested address) (both (nested (uint_be 16)) (nested (uint 16)))).
Definition movement_codec : Codec Movement :=
  carried (λ m, (m_resource m, (m_credit m, (m_debit m, m_unjudged_debit m))))
    (λ '(r, (c, (d, u))), Ok {| m_resource := r; m_credit := c; m_debit := d; m_unjudged_debit := u |})
    (both (nested resource_addr) (both (nested (uint 16)) (both (nested (uint 16)) (nested (uint 16))))).
Definition value_codec : Codec (option bytes) := option_codec (vec u8).
Definition state_writes : Codec StateWrites :=
  carried (λ w, (sw_cells w, (sw_movements w, sw_entries w)))
    (λ '(c, (m, e)),
       let w := {| sw_cells := c; sw_movements := m; sw_entries := e |} in
       if cell_values_fit w then Ok w else Err DecErr.FailedValidation)
    (both (nested (btree_map substate_key value_codec))
      (both (nested (btree_map substate_key movement_codec)) (nested (btree_map entry_key value_codec)))).
(** [StateWrites::root]: the hash of the canonical bytes, a [None] where [expect] panics. *)
Definition writes_root {H} (hash_fn : bytes → H) (w : StateWrites) : option H :=
  hash_fn <$> cell_to_bytes state_writes w.

(** ** What a movement does to a cell *)

Definition movement_ok (m : Movement) : Prop :=
  in_width 128 (m_credit m) ∧ in_width 128 (m_debit m) ∧ in_width 128 (m_unjudged_debit m).
#[global] Instance movement_ok_dec m : Decision (movement_ok m).
Proof. apply _. Defined.

(** The net of the judged sides. *)
Definition net (m : Movement) : Z := m_credit m - m_debit m.

Lemma land_spec m before :
  movement_ok m → in_width 128 before →
  movement_land m before =
    if decide (before + net m < 0) then None
    else Some (Z.min (before + net m) (width_max 128), Z.max (before + net m - width_max 128) 0).
Proof.
  intros (Hc & Hd & _) Hb. unfold movement_land, net, checked_sub, in_width, width_max in *.
  repeat (destruct (decide _) || case_decide); try lia; do 2 f_equal; lia.
Qed.

Lemma apply_spec m before :
  movement_ok m → in_width 128 before →
  movement_apply m before =
    if decide (before + net m < 0) then None
    else Some (Z.max (Z.min (before + net m) (width_max 128) - m_unjudged_debit m) 0).
Proof.
  intros Hm Hb. unfold movement_apply. rewrite land_spec by done. by destruct (decide _).
Qed.

Lemma apply_bound m before after :
  movement_ok m → in_width 128 before → movement_apply m before = Some after → in_width 128 after.
Proof.
  intros Hm Hb. rewrite apply_spec by done. destruct Hm as (_ & _ & Hu). destruct (decide _); [done|].
  intros [= <-]. unfold in_width, width_max in *. lia.
Qed.

(** ** Composition *)

Lemma then_ok m n o :
  movement_then m n = Ok o ↔
    m_resource m = m_resource n ∧ m_credit m + m_credit n ≤ width_max 128 ∧
    m_debit m + m_debit n ≤ width_max 128 ∧ m_unjudged_debit m + m_unjudged_debit n ≤ width_max 128 ∧
    o = {| m_resource := m_resource m; m_credit := m_credit m + m_credit n; m_debit := m_debit m + m_debit n;
           m_unjudged_debit := m_unjudged_debit m + m_unjudged_debit n |}.
Proof.
  unfold movement_then, checked_add. destruct (decide _) as [|Hr%dec_stable]; [naive_solver|].
  repeat (case_decide; cbn [ok_or mbind result_bind]); split; intros; naive_solver lia.
Qed.

Lemma then_err m n e : m_resource m = m_resource n → movement_then m n = Err e → e = Compose.Overflow.
Proof.
  intros Hr. unfold movement_then. rewrite decide_False by (by intros []).
  intros [H%ok_or_err|(c & _ & [H%ok_or_err|(d & _ & [H%ok_or_err|(u & _ & H)]%result_bind_err)]%result_bind_err)]%result_bind_err;
    naive_solver.
Qed.

Lemma then_comm m n : movement_then m n = movement_then n m.
Proof.
  unfold movement_then.
  assert (Hc : ∀ x y, checked_add 128 x y = checked_add 128 y x) by (intros; unfold checked_add; by rewrite Z.add_comm).
  rewrite (Hc (m_credit m)), (Hc (m_debit m)), (Hc (m_unjudged_debit m)).
  destruct (decide (m_resource m = m_resource n)) as [Hr|Hr].
  - rewrite Hr. done.
  - by rewrite !decide_True by naive_solver.
Qed.

(** Composing a whole sequence onto a movement. *)
Definition then_all (m : Movement) (ms : list Movement) : result Compose Movement :=
  foldl (λ acc n, m ← acc; movement_then m n) (Ok m) ms.
(** Landing a sequence one at a time. *)
Definition apply_all (ms : list Movement) (before : Z) : option Z :=
  foldl (λ acc m, b ← acc; movement_apply m b) (Some before) ms.

Definition credits_of (ms : list Movement) : Z := sum_Z (m_credit <$> ms).
Definition debits_of (ms : list Movement) : Z := sum_Z (m_debit <$> ms).
Definition unjudged_of (ms : list Movement) : Z := sum_Z (m_unjudged_debit <$> ms).
Definition totals_of (r : ResourceAddr) (ms : list Movement) : Movement :=
  {| m_resource := r; m_credit := credits_of ms; m_debit := debits_of ms; m_unjudged_debit := unjudged_of ms |}.
Definition totals_fit (ms : list Movement) : Prop :=
  credits_of ms ≤ width_max 128 ∧ debits_of ms ≤ width_max 128 ∧ unjudged_of ms ≤ width_max 128.
(** Movements a kernel may record of one cell. *)
Definition of_cell (r : ResourceAddr) (m : Movement) : Prop := movement_ok m ∧ m_resource m = r.

#[global] Instance totals_fit_dec ms : Decision (totals_fit ms).
Proof. apply _. Defined.
#[global] Instance of_cell_dec r m : Decision (of_cell r m).
Proof. apply _. Defined.

Lemma totals_snoc r ms m :
  totals_of r (ms ++ [m]) =
    {| m_resource := r; m_credit := credits_of ms + m_credit m; m_debit := debits_of ms + m_debit m;
       m_unjudged_debit := unjudged_of ms + m_unjudged_debit m |}.
Proof.
  unfold totals_of, credits_of, debits_of, unjudged_of. by rewrite !fmap_app, !sum_Z_app, !fmap_cons, !sum_Z_cons, !Z.add_0_r.
Qed.

Lemma then_all_snoc m ms n : then_all m (ms ++ [n]) = x ← then_all m ms; movement_then x n.
Proof. unfold then_all. by rewrite foldl_app. Qed.
Lemma apply_all_snoc ms m before : apply_all (ms ++ [m]) before = b ← apply_all ms before; movement_apply m b.
Proof. unfold apply_all. by rewrite foldl_app. Qed.

(** The closed form of a composition. *)
Lemma then_all_spec r ms :
  Forall (of_cell r) ms →
  then_all (movement_none r) ms = if decide (totals_fit ms) then Ok (totals_of r ms) else Err Compose.Overflow.
Proof.
  induction ms as [|m ms IH] using rev_ind; [done|]. rewrite Forall_app, Forall_singleton.
  intros [Hms ((Hc & Hd & Hu) & Hr)]. rewrite then_all_snoc, IH by done. clear IH.
  pose proof (totals_snoc r ms m) as Ht. rewrite Ht.
  assert (Hf : totals_fit (ms ++ [m]) ↔ credits_of ms + m_credit m ≤ width_max 128 ∧
      debits_of ms + m_debit m ≤ width_max 128 ∧ unjudged_of ms + m_unjudged_debit m ≤ width_max 128)
    by (unfold totals_fit; unfold totals_of in Ht; injection Ht as -> -> ->; done).
  clear Ht. unfold in_width in *. destruct (decide (totals_fit ms)) as [Hfit|Hno].
  - cbn [mbind result_bind]. destruct (decide (totals_fit (ms ++ [m]))) as [Hfit'|Hno'].
    + apply then_ok. cbn [totals_of m_resource m_credit m_debit m_unjudged_debit].
      apply Hf in Hfit' as (? & ? & ?). by rewrite Hr.
    + destruct (movement_then _ m) as [o|e] eqn:E; [apply then_ok in E as (_ & ? & ? & ? & _); by destruct Hno'; apply Hf|].
      by rewrite (then_err (totals_of r ms) m e (eq_sym Hr) E).
  - rewrite decide_False; [done|]. rewrite Hf. unfold totals_fit in Hno. lia.
Qed.

Lemma totals_perm r ms ms' : ms ≡ₚ ms' → totals_of r ms = totals_of r ms'.
Proof.
  intros Hp. unfold totals_of, credits_of, debits_of, unjudged_of. f_equal; apply sum_Z_perm; by rewrite Hp.
Qed.

Lemma then_all_perm r ms ms' :
  Forall (of_cell r) ms → ms ≡ₚ ms' → then_all (movement_none r) ms = then_all (movement_none r) ms'.
Proof.
  intros Hms Hp. rewrite !then_all_spec by (done || by rewrite <- Hp).
  pose proof (totals_perm r ms ms' Hp) as E. rewrite E.
  assert (Hf : totals_fit ms ↔ totals_fit ms') by (unfold totals_fit; by injection E as -> -> ->).
  destruct (decide (totals_fit ms)); [rewrite decide_True by tauto|rewrite decide_False by tauto]; done.
Qed.

Lemma totals_nonneg r ms :
  Forall (of_cell r) ms → 0 ≤ credits_of ms ∧ 0 ≤ debits_of ms ∧ 0 ≤ unjudged_of ms.
Proof.
  unfold credits_of, debits_of, unjudged_of. induction 1 as [|m ms [(Hc & Hd & Hu) _] _ IH]; [done|].
  rewrite !fmap_cons, !sum_Z_cons. unfold in_width in *. lia.
Qed.

Lemma unjudged_zero r ms :
  Forall (of_cell r) ms → unjudged_of ms = 0 → Forall (λ m, of_cell r m ∧ m_unjudged_debit m = 0) ms.
Proof.
  induction 1 as [|m ms Hm Hms IH]; [done|]. unfold unjudged_of. rewrite fmap_cons, sum_Z_cons.
  change (sum_Z _) with (unjudged_of ms). intros Hu. pose proof (totals_nonneg r ms Hms).
  pose proof Hm as [(_ & _ & Hmu) _]. unfold in_width in Hmu. constructor; [split; [done|lia]|apply IH; lia].
Qed.

(** Judged movements landed one after the other end where their sum lands. *)
Lemma apply_all_spec r ms before after :
  Forall (λ m, of_cell r m ∧ m_unjudged_debit m = 0) ms → in_width 128 before →
  before + credits_of ms ≤ width_max 128 → apply_all ms before = Some after →
  after = before + credits_of ms - debits_of ms ∧ in_width 128 after.
Proof.
  revert after. induction ms as [|m ms IH] using rev_ind; intros after.
  { intros _ Hb _ [= <-]. split; [cbn; lia|done]. }
  rewrite Forall_app, Forall_singleton. intros [Hms [[Hok _] Hu]] Hb.
  pose proof (totals_snoc r ms m) as Ht. injection Ht as -> -> _. intros Hfit. rewrite apply_all_snoc. intros (b & Hpre & Happ)%bind_Some.
  pose proof Hok as (Hc & Hd & _).
  destruct (totals_nonneg r ms) as (_ & Hd0 & _); [by eapply Forall_impl; [done|]; intros ? [? _]|].
  destruct (IH b) as [-> Hb']; [done|done|unfold in_width in *; lia|done|]. split.
  - rewrite apply_spec in Happ by done. destruct (decide _); [done|]. injection Happ as <-.
    unfold net, in_width, width_max in *. lia.
  - by eapply apply_bound.
Qed.

Lemma totals_ok r ms : Forall (of_cell r) ms → totals_fit ms → of_cell r (totals_of r ms).
Proof.
  intros Hms Hfit. destruct (totals_nonneg r ms Hms) as (? & ? & ?).
  destruct Hfit as (? & ? & ?). unfold of_cell, movement_ok, in_width, width_max in *. cbn. lia.
Qed.

(** Movements on one cell compose in any order. Composing the movements a
    batch recorded on a cell succeeds exactly when the gross totals fit a [u128],
    gives those totals whatever the order, and where the credits cannot run past
    the width, landing the judged movements one at a time, in whatever order they
    land at all, ends where the single composed movement ends. *)
Theorem movements_compose r ms ms' before :
  Forall (of_cell r) ms → ms ≡ₚ ms' → in_width 128 before →
  then_all (movement_none r) ms = (if decide (totals_fit ms) then Ok (totals_of r ms) else Err Compose.Overflow) ∧
  then_all (movement_none r) ms' = then_all (movement_none r) ms ∧
  (unjudged_of ms = 0 → before + credits_of ms ≤ width_max 128 → ∀ after, apply_all ms' before = Some after →
     debits_of ms ≤ width_max 128 → ∃ m, then_all (movement_none r) ms = Ok m ∧ movement_apply m before = Some after).
Proof.
  intros Hms Hp Hb. split; [by apply then_all_spec|]. split; [symmetry; by apply then_all_perm|].
  intros Hu Hfit after Ha Hdeb. pose proof (totals_perm r ms ms' Hp) as Ht. injection Ht as Hc Hd _.
  pose proof (unjudged_zero r ms Hms Hu) as Hz.
  assert (Htf : totals_fit ms) by (unfold totals_fit, in_width, width_max in *; lia).
  exists (totals_of r ms). rewrite then_all_spec, decide_True by done. split; [done|].
  destruct (apply_all_spec r ms' before after) as [-> Hin]; [by rewrite <- Hp|done|by rewrite <- Hc|done|].
  destruct (totals_ok r ms Hms Htf) as [Hok _]. rewrite apply_spec by done.
  unfold net, totals_of, in_width, width_max in *. cbn [m_credit m_debit m_unjudged_debit].
  rewrite decide_False by lia. f_equal. lia.
Qed.

(** ** What settlement leaves *)

Definition writes_ok (w : StateWrites) : Prop := map_Forall (λ _, movement_ok) (sw_movements w).

Lemma read_amount_bound v : in_width 128 (default 0 (v ≫= read_amount)).
Proof.
  destruct v as [b|]; cbn; [|done]. unfold read_amount. destruct (decide _) as [Hl|]; cbn; [|done].
  pose proof (le_val_bound b) as Hb. rewrite Hl in Hb. exact Hb.
Qed.

Definition lands (prior : SubstateKey → option bytes) (cells : gmap SubstateKey (option bytes))
    (p : SubstateKey * Movement) : Prop := 0 ≤ settles_over prior cells p.1 + net p.2.
Definition landed (prior : SubstateKey → option bytes) (cells : gmap SubstateKey (option bytes))
    (key : SubstateKey) (m : Movement) : option bytes :=
  amount_cell (Z.max (Z.min (settles_over prior cells key + net m) (width_max 128) - m_unjudged_debit m) 0).

Lemma settles_over_insert prior cells k k' v :
  k ≠ k' → settles_over prior (<[k := v]> cells) k' = settles_over prior cells k'.
Proof. intros Hk. unfold settles_over. by rewrite lookup_insert_ne. Qed.

(** The loop on every branch: the first cell a debit overruns, or every moved cell
    landed and the others as they were. *)
Lemma resolve_loop_spec prior ms cells :
  NoDup ms.*1 → Forall (λ p, movement_ok p.2) ms →
  match resolve_loop prior ms cells with
  | Ok cells' =>
      Forall (lands prior cells) ms ∧ (∀ key m, (key, m) ∈ ms → cells' !! key = Some (landed prior cells key m)) ∧
      (∀ key, key ∉ ms.*1 → cells' !! key = cells !! key)
  | Err e => ∃ pre m post, ms = pre ++ (od_key e, m) :: post ∧ Forall (lands prior cells) pre ∧
      od_held e = settles_over prior cells (od_key e) ∧ od_debit e = m_debit m - m_credit m ∧ od_held e < od_debit e
  end.
Proof.
  revert cells. induction ms as [|[k m] ms IH]; intros cells Hnd Hok.
  { cbn. split_and!; [done|by intros ? ? []%not_elem_of_nil|done]. }
  apply NoDup_cons in Hnd as [Hk Hnd]. apply Forall_cons in Hok as [Hm Hok]. cbn [fst snd] in *.
  assert (Hin : in_width 128 (settles_over prior cells k)) by apply read_amount_bound.
  assert (Hne : ∀ k' m', (k', m') ∈ ms → k ≠ k').
  { intros k' m' Hin' <-. apply Hk. by apply (list_elem_of_fmap_2 fst _ (k, m')). }
  cbn [resolve_loop]. cbv zeta. rewrite apply_spec by done.
  destruct (decide (settles_over prior cells k + net m < 0)) as [Hlt|Hge]; cbn [ok_or mbind result_bind].
  { exists [], m, ms. cbn. unfold saturating_sub, net in *. pose proof Hin as Hin'. unfold in_width in Hin'.
    split_and!; [done..|lia|lia]. }
  set (cells1 := <[k := _]> cells). specialize (IH cells1 Hnd Hok).
  assert (Hsame : ∀ k' m', (k', m') ∈ ms → settles_over prior cells1 k' = settles_over prior cells k')
    by (intros k' m' Hin'; by apply settles_over_insert; eapply Hne).
  assert (Hlands : ∀ l, (∀ p, p ∈ l → p ∈ ms) → Forall (lands prior cells1) l → Forall (lands prior cells) l).
  { intros l Hsub Hl. apply Forall_forall. intros [k' m'] Hp. rewrite Forall_forall in Hl. specialize (Hl _ Hp).
    unfold lands in *. cbn in *. by rewrite <- (Hsame k' m') by eauto. }
  destruct (resolve_loop prior ms cells1) as [cells'|e].
  - destruct IH as (Hl & Hmoved & Hrest). split_and!.
    + constructor; [unfold lands; cbn; lia|by apply Hlands].
    + intros k' m' [[= -> ->]|Hin']%elem_of_cons.
      * rewrite Hrest by done. unfold cells1. by rewrite lookup_insert_eq.
      * rewrite (Hmoved k' m') by done. unfold landed. by rewrite (Hsame k' m').
    + intros k' Hk'. rewrite fmap_cons, not_elem_of_cons in Hk'. destruct Hk' as [Hne' Hk'].
      rewrite Hrest by done. unfold cells1. by rewrite lookup_insert_ne by (intros ->; by apply Hne').
  - destruct IH as (pre & m' & post & -> & Hpre & Hheld & Hdeb & Hlt').
    exists ((k, m) :: pre), m', post. split; [done|]. split.
    + constructor; [unfold lands; cbn; lia|]. apply Hlands; [|done]. intros p Hp. apply elem_of_app. by left.
    + rewrite Hheld, Hdeb in *. rewrite (Hsame (od_key e) m') in * by (apply elem_of_app; right; apply list_elem_of_here).
      done.
Qed.

Lemma resolve_closed prior w :
  writes_ok w →
  match resolve prior w with
  | Ok s =>
      settled_entries s = sw_entries w ∧
      ∀ key, settled_cells s !! key =
        match sw_movements w !! key with
        | Some m => Some (landed prior (sw_cells w) key m)
        | None => sw_cells w !! key
        end
  | Err e => ∃ m, sw_movements w !! od_key e = Some m ∧ od_held e = settles_over prior (sw_cells w) (od_key e) ∧
      od_debit e = m_debit m - m_credit m ∧ od_held e < od_debit e ∧
      ∀ key m', sw_movements w !! key = Some m' → ¬ key_le (od_key e) key → lands prior (sw_cells w) (key, m')
  end ∧
  (is_ok (resolve prior w) = true ↔ map_Forall (λ key m, lands prior (sw_cells w) (key, m)) (sw_movements w)).
Proof.
  intros Hok. pose proof (NoDup_map_iter (sw_movements w)) as Hnd.
  assert (Hm : Forall (λ p, movement_ok p.2) (map_iter (sw_movements w))).
  { apply Forall_forall. intros [k m] Hin. apply elem_of_map_iter in Hin. by apply (Hok k). }
  pose proof (resolve_loop_spec prior _ (sw_cells w) Hnd Hm) as Hs. unfold resolve.
  destruct (resolve_loop prior _ _) as [cells|e]; cbn [mbind result_bind].
  - destruct Hs as (Hl & Hmoved & Hrest). split; [split; [done|]|split; [|done]].
    + intros key. cbn. destruct (sw_movements w !! key) as [m|] eqn:Hkey.
      * apply Hmoved, elem_of_map_iter, Hkey.
      * apply Hrest. intros ([k m] & -> & Hin%elem_of_map_iter)%list_elem_of_fmap. cbn in Hkey. by rewrite Hkey in Hin.
    + intros _ key m Hkey. rewrite Forall_forall in Hl. by apply Hl, elem_of_map_iter.
  - destruct Hs as (pre & m & post & Heq & Hpre & Hheld & Hdeb & Hlt).
    assert (Hin : sw_movements w !! od_key e = Some m).
    { apply elem_of_map_iter. rewrite Heq, elem_of_app. right. apply list_elem_of_here. }
    split; [exists m; split_and!; try done|].
    + intros key m' Hkey%elem_of_map_iter Hle. rewrite Forall_forall in Hpre. apply Hpre.
      pose proof (map_iter_sorted (sw_movements w)) as Hsort. rewrite Heq in Hkey, Hsort.
      apply elem_of_app in Hkey as [|[[= -> ->]|Hpost]%elem_of_cons]; [done|by destruct Hle|].
      apply StronglySorted_app in Hsort as (_ & _ & Hsort). apply StronglySorted_inv in Hsort as [_ Hsort].
      rewrite Forall_forall in Hsort. by destruct Hle; apply (Hsort (key, m')).
    + split; [done|]. intros Hall. specialize (Hall _ _ Hin). unfold lands, net in Hall. cbn in Hall. lia.
Qed.

(** C29: settlement lands every movement exactly, or names the first cell it cannot.
    Over whatever the state holds, [resolve] leaves each moved cell at its balance
    plus the movement's net, what runs past [u128] burned and the unjudged debit
    taken as far as it goes, a drained cell a removal; every other cell and every
    entry is the receipt's own write. It refuses exactly where a judged net debit is
    past what its cell holds, with that cell's figures, and the cells before it in
    key order all cover theirs. *)
Theorem resolve_settles prior w :
  writes_ok w →
  match resolve prior w with
  | Ok s =>
      settled_entries s = sw_entries w ∧
      ∀ key, settled_cells s !! key =
        match sw_movements w !! key with
        | Some m => Some (landed prior (sw_cells w) key m)
        | None => sw_cells w !! key
        end
  | Err e => ∃ m, sw_movements w !! od_key e = Some m ∧ od_held e = settles_over prior (sw_cells w) (od_key e) ∧
      od_debit e = m_debit m - m_credit m ∧ od_held e < od_debit e ∧
      ∀ key m', sw_movements w !! key = Some m' → ¬ key_le (od_key e) key → lands prior (sw_cells w) (key, m')
  end ∧
  (is_ok (resolve prior w) = true ↔ map_Forall (λ key m, lands prior (sw_cells w) (key, m)) (sw_movements w)).
Proof. apply resolve_closed. Qed.

(** ** Canonical writes *)

Definition entry_key_ok (k : EntryKey) : Prop :=
  address_ok (entry_owner k) ∧ width_ok 16 (entry_collection k) ∧ width_ok 16 (entry_order k).
Definition movement_wf (m : Movement) : Prop :=
  resource_ok (m_resource m) ∧ width_ok 16 (m_credit m) ∧ width_ok 16 (m_debit m) ∧ width_ok 16 (m_unjudged_debit m).
Definition state_writes_ok (w : StateWrites) : Prop :=
  Forall (λ p, key_ok p.1 ∧ value_fits p.2) (map_iter (sw_cells w)) ∧
  Forall (λ p, key_ok p.1 ∧ movement_wf p.2) (map_iter (sw_movements w)) ∧
  Forall (λ p, entry_key_ok p.1 ∧ value_fits p.2) (map_iter (sw_entries w)).

Lemma built_entry_key : built entry_key entry_key_ok.
Proof. eapply built_carried; [eauto 10 with codec|by intros []|]. by intros (? & ? & ?) ? Hok [= <-]. Qed.
Lemma built_movement : built movement_codec movement_wf.
Proof. eapply built_carried; [eauto 10 with codec|by intros []|]. by intros (? & ? & ? & ?) ? Hok [= <-]. Qed.
Lemma built_value : built value_codec (from_option (Forall any) True).
Proof. apply built_option, built_vec; [apply built_u8|cbn; lia]. Qed.
#[export] Hint Resolve built_entry_key built_movement built_value : codec.

Lemma any_value (v : option bytes) : from_option (Forall any) True v.
Proof. destruct v as [b|]; [|done]. cbn. by apply Forall_true. Qed.

Lemma cell_values_fit_spec w :
  cell_values_fit w = true ↔
    Forall (λ p, value_fits p.2) (map_iter (sw_cells w)) ∧ Forall (λ p, value_fits p.2) (map_iter (sw_entries w)).
Proof.
  unfold cell_values_fit. rewrite forallb_app, andb_true_iff, <- !Is_true_true, !forallb_True, !Forall_fmap.
  rewrite !Forall_forall. unfold compose. setoid_rewrite bool_decide_spec. done.
Qed.

Lemma built_state_writes : built state_writes state_writes_ok.
Proof.
  eapply built_carried.
  - repeat apply built_both; apply built_nested, built_map; eauto with codec; cbn; lia.
  - intros w (Hc & Hm & He). cbn [fst snd]. split.
    + split_and!; [|done|]; (eapply Forall_impl; [done|]; intros [k v] [Hk _]; split; [done|apply any_value]).
    + replace (cell_values_fit _) with true; [by destruct w|]. symmetry. apply cell_values_fit_spec. cbn.
      split; (eapply Forall_impl; [done|]; by intros [k v] [_ Hv]).
  - intros (c & m & e) w (Hc & Hm & He). cbn zeta.
    destruct (cell_values_fit {| sw_cells := c; sw_movements := m; sw_entries := e |}) eqn:E; [|done]. intros [= <-].
    apply cell_values_fit_spec in E as [Hfc Hfe]. cbn in *. split; [|done]. unfold state_writes_ok. cbn.
    rewrite !Forall_forall in *. split_and!; intros p Hp; split; try (by apply Hfc || by apply Hfe);
      by first [apply (Hc p Hp)|apply (Hm p Hp)|apply (He p Hp)].
Qed.

(** ** Samples *)

Definition sample_vault : SubstateKey := {| owner := 258; local := 7 |}.
Definition sample_writes : StateWrites := {|
  sw_cells := {[ {| owner := 258; local := 8 |} := Some [x07] ]};
  sw_movements := {[ sample_vault := {| m_resource := 260; m_credit := 5; m_debit := 20; m_unjudged_debit := 90 |} ]};
  sw_entries := ∅;
|}.
Definition sample_prior (held : Z) (key : SubstateKey) : option bytes :=
  if decide (key = sample_vault) then Some (encode_amount held) else None.

Lemma movements_compose_witness :
  let credit := {| m_resource := 260; m_credit := 30; m_debit := 0; m_unjudged_debit := 0 |} in
  let debit := movement_debit 260 12 in
  ∃ m, then_all (movement_none 260) [debit; credit] = Ok m ∧ movement_apply m 0 = Some 18 ∧
    apply_all [debit; credit] 0 = None.
Proof.
  intros credit debit.
  destruct (movements_compose 260 [debit; credit] [credit; debit] 0) as (_ & _ & H);
    [apply (bool_decide_unpack _); vm_compute; exact I|by constructor|by split|].
  destruct (H eq_refl) with (after := 18) as (m & Hm & Ha); [vm_compute; discriminate|reflexivity|vm_compute; discriminate|].
  exists m. split; [exact Hm|]. split; [exact Ha|reflexivity].
Defined.

Lemma resolve_settles_witness :
  is_ok (resolve (sample_prior 100) sample_writes) = true ∧
  is_ok (resolve (sample_prior 3) sample_writes) = false ∧
  landed (sample_prior 100) (sw_cells sample_writes) sample_vault
    {| m_resource := 260; m_credit := 5; m_debit := 20; m_unjudged_debit := 90 |} = None.
Proof.
  assert (Hok : writes_ok sample_writes).
  { apply map_Forall_singleton. apply (bool_decide_unpack _). vm_compute. exact I. }
  pose proof (resolve_settles (sample_prior 100) sample_writes Hok) as [_ [_ Hl]].
  split; [apply Hl; apply map_Forall_singleton; vm_compute; discriminate|]. split; vm_compute; reflexivity.
Defined.
