(* ===== verification/Ledger.v ===== *)
(** * The amount ledger ([crates/kernel/src/ledger.rs], the traits of
    [crates/kernel/src/store.rs])

    [Substates], [Baseline] and [AmountLedger] are type classes, as they are
    traits in the source: a store supplies its view and seven primitive
    operations, and the arithmetic of reservations, movements and folds is
    derived once, here. [AbstractStore] is the specification of a store: its
    contents as functions. [agree] says that a store presents the view of an
    abstract one, [LedgerLaws] that its primitives keep doing so; what the derived
    operations do is then proved on the abstract store and holds of every lawful
    one. *)

From S2P Require Import Prelude Types Effects Conflict Modes.

(** ** Errors and records *)

Inductive StoreError :=
  | MissingReservation (tx : TxHash) (key : SubstateKey)
  | HeldExceedsCommitted (key : SubstateKey)
  | DuplicateRequest (tx : TxHash) (key : SubstateKey)
  | StoreMode (error : ModeError).
#[global] Instance StoreError_eq_dec : EqDecision StoreError.
Proof. solve_decision. Defined.

Inductive Fault := Floor | Declaration (error : ModeError) | Defect.
Definition store_fault (e : StoreError) : Fault :=
  match e with
  | StoreMode CellUnderflow | StoreMode CellOverflow | HeldExceedsCommitted _ => Floor
  | StoreMode (BadAmountCell n) => Declaration (BadAmountCell n)
  | _ => Defect
  end.

Record FeeHolds := { fee_members : gmap TxHash Z; fee_rest : Z }.
#[global] Instance FeeHolds_eq_dec : EqDecision FeeHolds.
Proof. solve_decision. Defined.
Definition fee_default : FeeHolds := {| fee_members := ∅; fee_rest := 0 |}.
Definition fee_total (f : FeeHolds) : Z :=
  foldl (λ total p, saturating_add 128 total p.2) (fee_rest f) (map_iter (fee_members f)).

Record WithheldCredits := { withheld_members : gmap TxHash Z }.
#[global] Instance WithheldCredits_eq_dec : EqDecision WithheldCredits.
Proof. solve_decision. Defined.
Definition withheld_default : WithheldCredits := {| withheld_members := ∅ |}.
Definition withheld_total (w : WithheldCredits) : Z :=
  foldl (λ total p, saturating_add 128 total p.2) 0 (map_iter (withheld_members w)).
Definition kept_from (w : WithheldCredits) (tx : TxHash) : Z :=
  foldl (λ total p, saturating_add 128 total p.2) 0
    (filter (λ p : TxHash * Z, p.1 ≠ tx) (map_iter (withheld_members w))).

Record AppliedDelta := { applied_key : SubstateKey; applied_before : Z; applied_after : Z }.

(** [amount_bytes]: a zero amount is an absent leaf. *)
Definition amount_bytes (amount : Z) : option bytes := amount_cell amount.

(** ** The traits *)

Class Substates (S : Type) := {
  cell : S → SubstateKey → option bytes;
  entries_in_range : S → Address → CollectionId → Z → Z → Z → list (Z * bytes);
}.

Class Baseline (S : Type) `{Substates S} := {
  holds : S → SubstateKey → gmap TxHash Z;
  fee_holds : S → SubstateKey → FeeHolds;
  withheld_credits : S → SubstateKey → WithheldCredits;
  held_reservation : S → SubstateKey → TxHash → option Z;
}.

Class AmountLedger (S : Type) `{Baseline S} := {
  set_amount : S → SubstateKey → Z → S;
  set_hold : S → SubstateKey → TxHash → option Z → S;
  set_fee_hold : S → SubstateKey → TxHash → option Z → S;
  withhold_credit : S → SubstateKey → TxHash → Z → S;
  note : S → EffectTarget → ModeKind → S;
  queued : S → gmap SubstateKey (list DeltaOp);
  clear_queued : S → S;
}.

(** ** Derived operations *)

Section derived.
Context {S : Type} `{AmountLedger S}.

Definition reduce_hold (s : S) (key : SubstateKey) (tx : TxHash) (amount : Z) : S :=
  let standing := default 0 (held_reservation s key tx) in
  set_hold s key tx (Some (Z.min amount standing)).

Definition amount (s : S) (key : SubstateKey) : result StoreError Z :=
  match cell s key with
  | Some c => map_err StoreMode (decode_amount c)
  | None => Ok 0
  end.

Definition with_queued (s : S) (key : SubstateKey) (committed : Z) : result StoreError Z :=
  match queued s !! key with
  | Some ops => map_err StoreMode (fold_deltas committed ops)
  | None => Ok committed
  end.

(** [try_fold] of the held amounts with [checked_add]. *)
Definition held_total (s : S) (key : SubstateKey) : result StoreError Z :=
  ok_or (foldl (λ total p, t ← total; checked_add 128 t p.2) (Some 0) (map_iter (holds s key)))
    (HeldExceedsCommitted key).

Definition check_reserve_target (s : S) (key : SubstateKey) : result StoreError unit :=
  _ ← amount s key; Ok tt.

Definition unpromised (s : S) (key : SubstateKey) (standing withheld : Z) : result StoreError Z :=
  held ← held_total s key;
  free ← ok_or (checked_sub standing held) (HeldExceedsCommitted key);
  Ok (saturating_sub (saturating_sub free (fee_total (fee_holds s key))) withheld).

Definition spendable (s : S) (key : SubstateKey) (tx : TxHash) (credit : Z) : result StoreError Z :=
  a ← amount s key;
  credited ← ok_or (checked_add 128 a credit) (StoreMode CellOverflow);
  unpromised s key credited (kept_from (withheld_credits s key) tx).

Definition judge_movement (s : S) (key : SubstateKey) (tx : TxHash) (credit debit : Z) :
    result StoreError Z :=
  a ← amount s key;
  credited ← ok_or (checked_add 128 a credit) (StoreMode CellOverflow);
  free ← unpromised s key credited (kept_from (withheld_credits s key) tx);
  if decide (free < debit) then Err (StoreMode CellUnderflow) else Ok (credited - debit).

Definition apply_movement (s : S) (key : SubstateKey) (tx : TxHash) (credit debit : Z) :
    S * result StoreError Z :=
  match judge_movement s key tx credit debit with
  | Err e => (s, Err e)
  | Ok after => (set_amount s key after, Ok after)
  end.

Abbreviation batch := (list (TxHash * Z)).
Abbreviation verdicts := (gmap (TxHash * SubstateKey) Feasibility).

(** The first loop of [judge_and_hold]: refuse a repeated pair, record the
    access, group the requests by cell. *)
Fixpoint gather (s : S) (requests : list (TxHash * SubstateKey * Z))
    (seen : gset (TxHash * SubstateKey)) (by_key : gmap SubstateKey batch) :
    S * result StoreError (gmap SubstateKey batch) :=
  match requests with
  | [] => (s, Ok by_key)
  | (tx, key, amt) :: rest =>
      if decide ((tx, key) ∈ seen) then (s, Err (DuplicateRequest tx key)) else
      gather (note s (Point key) KReserve) rest ({[(tx, key)]} ∪ seen)
        (<[key := default [] (by_key !! key) ++ [(tx, amt)]]> by_key)
  end.

(** [batch.iter().find(...).map_or(0, ...)]. *)
Definition requested (b : batch) (tx : TxHash) : Z :=
  match list_find (λ r, r.1 = tx) b with Some (_, r) => r.2 | None => 0 end.

Definition hold_verdict (key : SubstateKey) (b : batch) (st : S * verdicts)
    (v : TxHash * Feasibility) : S * verdicts :=
  let s := if is_feasible v.2 then set_hold st.1 key v.1 (Some (requested b v.1)) else st.1 in
  (s, <[(v.1, key) := v.2]> st.2).

Fixpoint judge_batches (s : S) (vs : verdicts) (batches : list (SubstateKey * batch)) :
    S * result StoreError verdicts :=
  match batches with
  | [] => (s, Ok vs)
  | (key, b) :: rest =>
      match (a ← amount s key; unpromised s key a (withheld_total (withheld_credits s key))) with
      | Err e => (s, Err e)
      | Ok available =>
          let st := foldl (hold_verdict key b) (s, vs) (judge available b) in
          judge_batches st.1 st.2 rest
      end
  end.

Definition judge_and_hold (s : S) (requests : list (TxHash * SubstateKey * Z)) :
    S * result StoreError verdicts :=
  match gather s requests ∅ ∅ with
  | (s, Err e) => (s, Err e)
  | (s, Ok by_key) => judge_batches s ∅ (map_iter by_key)
  end.

Definition settle (s : S) (key : SubstateKey) (tx : TxHash) : S * result StoreError Z :=
  match (amt ← ok_or (held_reservation s key tx) (MissingReservation tx key);
         a ← amount s key;
         after ← ok_or (checked_sub a amt) (HeldExceedsCommitted key);
         Ok (amt, after)) with
  | Err e => (s, Err e)
  | Ok (amt, after) => (set_amount (set_hold s key tx None) key after, Ok amt)
  end.

Definition release (s : S) (key : SubstateKey) (tx : TxHash) : S * result StoreError Z :=
  match ok_or (held_reservation s key tx) (MissingReservation tx key) with
  | Err e => (s, Err e)
  | Ok amt => (set_hold s key tx None, Ok amt)
  end.

(** The fold of one queued cell. *)
Definition fold_queued (s : S) (p : SubstateKey * list DeltaOp) : result StoreError AppliedDelta :=
  before ← amount s p.1;
  after ← map_err StoreMode (fold_deltas before p.2);
  Ok {| applied_key := p.1; applied_before := before; applied_after := after |}.

Fixpoint fold_all (s : S) (l : list (SubstateKey * list DeltaOp)) :
    result StoreError (list AppliedDelta) :=
  match l with
  | [] => Ok []
  | p :: rest => d ← fold_queued s p; ds ← fold_all s rest; Ok (d :: ds)
  end.

Definition commit_deltas (s : S) : S * result StoreError (list AppliedDelta) :=
  match fold_all s (map_iter (queued s)) with
  | Err e => (s, Err e)
  | Ok applied =>
      (clear_queued (foldl (λ s d, set_amount s (applied_key d) (applied_after d)) s applied), Ok applied)
  end.

End derived.

(** ** The abstract store *)

(** [take] at a [usize] limit. *)
Definition takeZ {A} (n : Z) (l : list A) : list A :=
  if decide (Z.of_nat (length l) ≤ n) then l else take (Z.to_nat n) l.

(** [BTreeMap::range(lo..=hi)]. *)
Definition range_list {A} (lo hi : Z) (m : gmap Z A) : list (Z * A) :=
  filter (λ p, lo ≤ p.1 ≤ hi) (map_iter m).

Record AbstractStore := {
  a_cell : SubstateKey → option bytes;
  a_entries : Address → CollectionId → gmap Z bytes;
  a_holds : SubstateKey → gmap TxHash Z;
  a_fee : SubstateKey → FeeHolds;
  a_withheld : SubstateKey → WithheldCredits;
  a_queued : gmap SubstateKey (list DeltaOp);
}.

(** Update a function at one key. *)
Definition upd {A} (f : SubstateKey → A) (k : SubstateKey) (a : A) : SubstateKey → A :=
  λ k', if decide (k = k') then a else f k'.

Definition hold_change (m : gmap TxHash Z) (tx : TxHash) (o : option Z) : gmap TxHash Z :=
  match o with Some a => <[tx := a]> m | None => delete tx m end.

#[global] Instance abstract_substates : Substates AbstractStore := {|
  cell := a_cell;
  entries_in_range a o c lo hi limit := takeZ limit (range_list lo hi (a_entries a o c));
|}.
#[global] Instance abstract_baseline : Baseline AbstractStore := {|
  holds := a_holds;
  fee_holds := a_fee;
  withheld_credits := a_withheld;
  held_reservation a k tx := a_holds a k !! tx;
|}.
#[global] Instance abstract_ledger : AmountLedger AbstractStore := {|
  set_amount a k amt :=
    {| a_cell := upd (a_cell a) k (amount_cell amt); a_entries := a_entries a; a_holds := a_holds a;
       a_fee := a_fee a; a_withheld := a_withheld a; a_queued := a_queued a |};
  set_hold a k tx o :=
    {| a_cell := a_cell a; a_entries := a_entries a;
       a_holds := upd (a_holds a) k (hold_change (a_holds a k) tx o);
       a_fee := a_fee a; a_withheld := a_withheld a; a_queued := a_queued a |};
  set_fee_hold a k tx o :=
    {| a_cell := a_cell a; a_entries := a_entries a; a_holds := a_holds a;
       a_fee := upd (a_fee a) k {| fee_members := hold_change (fee_members (a_fee a k)) tx o;
                                   fee_rest := fee_rest (a_fee a k) |};
       a_withheld := a_withheld a; a_queued := a_queued a |};
  withhold_credit a k tx amt :=
    {| a_cell := a_cell a; a_entries := a_entries a; a_holds := a_holds a; a_fee := a_fee a;
       a_withheld := upd (a_withheld a) k
         {| withheld_members := <[tx := amt]> (withheld_members (a_withheld a k)) |};
       a_queued := a_queued a |};
  note a _ _ := a;
  queued := a_queued;
  clear_queued a :=
    {| a_cell := a_cell a; a_entries := a_entries a; a_holds := a_holds a; a_fee := a_fee a;
       a_withheld := a_withheld a; a_queued := ∅ |};
|}.

(** A store presents the view of an abstract one. *)
Record agree {S} `{AmountLedger S} (s : S) (a : AbstractStore) : Prop := {
  agree_cell : ∀ k, cell s k = cell a k;
  agree_entries : ∀ o c lo hi limit, 0 ≤ limit ≤ u64_max →
    entries_in_range s o c lo hi limit = entries_in_range a o c lo hi limit;
  agree_holds : ∀ k, holds s k = holds a k;
  agree_fee : ∀ k, fee_holds s k = fee_holds a k;
  agree_withheld : ∀ k, withheld_credits s k = withheld_credits a k;
  agree_reservation : ∀ k tx, held_reservation s k tx = held_reservation a k tx;
  agree_queued : queued s = queued a;
}.

(** What a store promises the ledger: its primitives are the abstract ones. *)
Class LedgerLaws (S : Type) `{AmountLedger S} := {
  law_set_amount : ∀ (s : S) a k x, agree s a → agree (set_amount s k x) (set_amount a k x);
  law_set_hold : ∀ (s : S) a k tx o, agree s a → agree (set_hold s k tx o) (set_hold a k tx o);
  law_set_fee_hold : ∀ (s : S) a k tx o,
    agree s a → agree (set_fee_hold s k tx o) (set_fee_hold a k tx o);
  law_withhold : ∀ (s : S) a k tx x,
    agree s a → agree (withhold_credit s k tx x) (withhold_credit a k tx x);
  law_note : ∀ (s : S) a t m, agree s a → agree (note s t m) (note a t m);
  law_clear : ∀ (s : S) a, agree s a → agree (clear_queued s) (clear_queued a);
}.

Create HintDb ledger.
#[export] Hint Resolve law_set_amount law_set_hold law_set_fee_hold law_withhold law_note law_clear : ledger.

(** ** Simulation

    Outcomes: the same answer, and stores that still agree. *)
Definition simulates {S A} `{AmountLedger S} (p : S * A) (q : AbstractStore * A) : Prop :=
  agree p.1 q.1 ∧ p.2 = q.2.

Section simulation.
Context {S : Type} `{LedgerLaws S}.
Implicit Types (s : S) (a : AbstractStore).

Lemma sim_amount s a k : agree s a → amount s k = amount a k.
Proof. intros Ha. unfold amount. by rewrite (agree_cell s a Ha). Qed.

Lemma sim_with_queued s a k x : agree s a → with_queued s k x = with_queued a k x.
Proof. intros Ha. unfold with_queued. by rewrite (agree_queued s a Ha). Qed.

Lemma sim_unpromised s a k x w : agree s a → unpromised s k x w = unpromised a k x w.
Proof.
  intros Ha. unfold unpromised, held_total. by rewrite (agree_holds s a Ha), (agree_fee s a Ha).
Qed.

Lemma sim_spendable s a k tx x : agree s a → spendable s k tx x = spendable a k tx x.
Proof.
  intros Ha. unfold spendable. rewrite (sim_amount s a k Ha), (agree_withheld s a Ha).
  destruct (amount a k); [|done]. cbn. destruct (ok_or _ _); [|done]. cbn. by apply sim_unpromised.
Qed.

Lemma sim_judge_movement s a k tx c d :
  agree s a → judge_movement s k tx c d = judge_movement a k tx c d.
Proof.
  intros Ha. unfold judge_movement. rewrite (sim_amount s a k Ha), (agree_withheld s a Ha).
  destruct (amount a k); [|done]. cbn. destruct (ok_or _ _); [|done]. cbn.
  by rewrite (sim_unpromised s a) by done.
Qed.

Lemma sim_apply_movement s a k tx c d :
  agree s a → simulates (apply_movement s k tx c d) (apply_movement a k tx c d).
Proof.
  intros Ha. unfold apply_movement. rewrite (sim_judge_movement s a) by done.
  destruct (judge_movement a k tx c d); split; cbn [fst snd]; auto with ledger.
Qed.

Lemma sim_reduce_hold s a k tx x : agree s a → agree (reduce_hold s k tx x) (reduce_hold a k tx x).
Proof.
  intros Ha. unfold reduce_hold. rewrite (agree_reservation s a Ha). auto with ledger.
Qed.

Lemma sim_settle s a k tx : agree s a → simulates (settle s k tx) (settle a k tx).
Proof.
  intros Ha. unfold settle. rewrite (agree_reservation s a Ha), (sim_amount s a k Ha).
  destruct (_ ← ok_or _ _; _) as [[amt after]|e]; split; cbn [fst snd]; auto with ledger.
Qed.

Lemma sim_release s a k tx : agree s a → simulates (release s k tx) (release a k tx).
Proof.
  intros Ha. unfold release. rewrite (agree_reservation s a Ha).
  destruct (ok_or _ _); split; cbn [fst snd]; auto with ledger.
Qed.

Lemma sim_gather s a reqs seen by_key :
  agree s a → simulates (gather s reqs seen by_key) (gather a reqs seen by_key).
Proof.
  revert s a seen by_key. induction reqs as [|[[tx k] x] reqs IH]; intros s a seen by_key Ha; [done|].
  cbn [gather]. destruct (decide _); [done|]. apply IH. auto with ledger.
Qed.

Lemma sim_hold_verdicts s a k b vs l :
  agree s a →
  simulates (foldl (hold_verdict k b) (s, vs) l) (foldl (hold_verdict k b) (a, vs) l).
Proof.
  revert s a vs. induction l as [|v l IH]; intros s a vs Ha; [done|]. cbn [foldl].
  apply IH. unfold hold_verdict. cbn [fst snd]. destruct (is_feasible v.2); auto with ledger.
Qed.

Lemma sim_judge_batches s a vs l :
  agree s a → simulates (judge_batches s vs l) (judge_batches a vs l).
Proof.
  revert s a vs. induction l as [|[k b] l IH]; intros s a vs Ha; [done|]. cbn [judge_batches].
  rewrite (sim_amount s a k Ha), (agree_withheld s a Ha).
  destruct (amount a k) as [x|e]; [cbn [mbind result_bind]|done].
  rewrite (sim_unpromised s a) by done. destruct (unpromised a k x _) as [av|e]; [|done].
  destruct (sim_hold_verdicts s a k b vs (judge av b) Ha) as [Hs Hv].
  destruct (foldl _ (s, vs) _) as [s' vs'], (foldl _ (a, vs) _) as [a' vs'']. cbn [fst snd] in *.
  subst. by apply IH.
Qed.

Lemma sim_judge_and_hold s a reqs :
  agree s a → simulates (judge_and_hold s reqs) (judge_and_hold a reqs).
Proof.
  intros Ha. unfold judge_and_hold. destruct (sim_gather s a reqs ∅ ∅ Ha) as [Hs Hr].
  destruct (gather s reqs ∅ ∅) as [s' r], (gather a reqs ∅ ∅) as [a' r']. cbn [fst snd] in *. subst.
  destruct r' as [by_key|e]; [|done]. by apply sim_judge_batches.
Qed.

Lemma sim_fold_all s a l : agree s a → fold_all s l = fold_all a l.
Proof.
  intros Ha. induction l as [|p l IH]; [done|]. cbn [fold_all]. unfold fold_queued.
  by rewrite (sim_amount s a p.1 Ha), IH.
Qed.

Lemma sim_set_amounts s a (ds : list AppliedDelta) :
  agree s a →
  agree (foldl (λ st d, set_amount st (applied_key d) (applied_after d)) s ds)
        (foldl (λ st d, set_amount st (applied_key d) (applied_after d)) a ds).
Proof.
  revert s a. induction ds as [|d ds IH]; intros s a Ha; [done|]. cbn [foldl]. auto with ledger.
Qed.

Lemma sim_commit_deltas s a : agree s a → simulates (commit_deltas s) (commit_deltas a).
Proof.
  intros Ha. unfold commit_deltas. rewrite (agree_queued s a Ha), (sim_fold_all s a) by done.
  destruct (fold_all a _); split; cbn [fst snd]; auto using sim_set_amounts with ledger.
Qed.

(** One operation of the ledger, with what it is called with, and its answer. *)
Inductive LedgerOp :=
  | OpCell (k : SubstateKey)
  | OpReservation (k : SubstateKey) (tx : TxHash)
  | OpAmount (k : SubstateKey)
  | OpWithQueued (k : SubstateKey) (x : Z)
  | OpHeldTotal (k : SubstateKey)
  | OpCheckTarget (k : SubstateKey)
  | OpSpendable (k : SubstateKey) (tx : TxHash) (credit : Z)
  | OpJudgeMovement (k : SubstateKey) (tx : TxHash) (credit debit : Z)
  | OpMovement (k : SubstateKey) (tx : TxHash) (credit debit : Z)
  | OpJudgeAndHold (reqs : list (TxHash * SubstateKey * Z))
  | OpSettle (k : SubstateKey) (tx : TxHash)
  | OpRelease (k : SubstateKey) (tx : TxHash)
  | OpReduceHold (k : SubstateKey) (tx : TxHash) (x : Z)
  | OpSetAmount (k : SubstateKey) (x : Z)
  | OpSetHold (k : SubstateKey) (tx : TxHash) (o : option Z)
  | OpSetFeeHold (k : SubstateKey) (tx : TxHash) (o : option Z)
  | OpWithholdCredit (k : SubstateKey) (tx : TxHash) (x : Z)
  | OpNote (t : EffectTarget) (m : ModeKind)
  | OpQueued
  | OpClearQueued
  | OpCommitDeltas.

Inductive LedgerAnswer :=
  | AnsNothing
  | AnsCell (c : option bytes)
  | AnsHeld (x : option Z)
  | AnsUnit (r : result StoreError unit)
  | AnsAmount (r : result StoreError Z)
  | AnsVerdicts (r : result StoreError (gmap (TxHash * SubstateKey) Feasibility))
  | AnsQueued (q : gmap SubstateKey (list DeltaOp))
  | AnsApplied (r : result StoreError (list AppliedDelta)).

Definition ledger_op {T} `{AmountLedger T} (s : T) (op : LedgerOp) : T * LedgerAnswer :=
  match op with
  | OpCell k => (s, AnsCell (cell s k))
  | OpReservation k tx => (s, AnsHeld (held_reservation s k tx))
  | OpAmount k => (s, AnsAmount (amount s k))
  | OpWithQueued k x => (s, AnsAmount (with_queued s k x))
  | OpHeldTotal k => (s, AnsAmount (held_total s k))
  | OpCheckTarget k => (s, AnsUnit (check_reserve_target s k))
  | OpSpendable k tx c => (s, AnsAmount (spendable s k tx c))
  | OpJudgeMovement k tx c d => (s, AnsAmount (judge_movement s k tx c d))
  | OpMovement k tx c d => prod_map id AnsAmount (apply_movement s k tx c d)
  | OpJudgeAndHold reqs => prod_map id AnsVerdicts (judge_and_hold s reqs)
  | OpSettle k tx => prod_map id AnsAmount (settle s k tx)
  | OpRelease k tx => prod_map id AnsAmount (release s k tx)
  | OpReduceHold k tx x => (reduce_hold s k tx x, AnsNothing)
  | OpSetAmount k x => (set_amount s k x, AnsNothing)
  | OpSetHold k tx o => (set_hold s k tx o, AnsNothing)
  | OpSetFeeHold k tx o => (set_fee_hold s k tx o, AnsNothing)
  | OpWithholdCredit k tx x => (withhold_credit s k tx x, AnsNothing)
  | OpNote t m => (note s t m, AnsNothing)
  | OpQueued => (s, AnsQueued (queued s))
  | OpClearQueued => (clear_queued s, AnsNothing)
  | OpCommitDeltas => prod_map id AnsApplied (commit_deltas s)
  end.

(** A sequence of them, with the answers in order. *)
Fixpoint ledger_run {T} `{AmountLedger T} (s : T) (ops : list LedgerOp) : T * list LedgerAnswer :=
  match ops with
  | [] => (s, [])
  | op :: ops =>
      let r := ledger_op s op in
      let rest := ledger_run r.1 ops in
      (rest.1, r.2 :: rest.2)
  end.

Lemma sim_prod_map {A B} (f : A → B) (p : S * A) q :
  simulates p q → simulates (prod_map id f p) (prod_map id f q).
Proof.
  destruct p as [s x], q as [a y]. intros [Ha Hr]. cbn in Ha, Hr. subst y. by split.
Qed.

Lemma sim_ledger_op s a op : agree s a → simulates (ledger_op s op) (ledger_op a op).
Proof.
  intros Ha. destruct op; cbn [ledger_op];
    try (apply sim_prod_map; eauto using sim_apply_movement, sim_judge_and_hold, sim_settle, sim_release,
           sim_commit_deltas; fail);
    (split; cbn [fst snd]; [eauto using sim_reduce_hold with ledger|try done]).
  - by rewrite (agree_cell s a Ha).
  - by rewrite (agree_reservation s a Ha).
  - by rewrite (sim_amount s a k Ha).
  - by rewrite (sim_with_queued s a k x Ha).
  - unfold held_total. by rewrite (agree_holds s a Ha).
  - unfold check_reserve_target. by rewrite (sim_amount s a k Ha).
  - by rewrite (sim_spendable s a k tx credit Ha).
  - by rewrite (sim_judge_movement s a k tx credit debit Ha).
  - by rewrite (agree_queued s a Ha).
Qed.

Lemma sim_ledger_run s a ops : agree s a → simulates (ledger_run s ops) (ledger_run a ops).
Proof.
  revert s a. induction ops as [|op ops IH]; intros s a Ha; [by split|]. cbn [ledger_run].
  destruct (sim_ledger_op s a op Ha) as [Hs Hr]. destruct (IH _ _ Hs) as [Hs' Hr'].
  split; cbn [fst snd]; [exact Hs'|]. by rewrite Hr, Hr'.
Qed.

End simulation.

(** ** Sums of holds *)

Definition hold_sum (m : gmap TxHash Z) : Z := sum_Z (map_to_list m).*2.
Definition amounts_ok (m : gmap TxHash Z) : Prop := map_Forall (λ _ x, in_width 128 x) m.

Lemma hold_sum_empty : hold_sum ∅ = 0.
Proof. done. Qed.

Lemma hold_sum_insert_fresh m tx x : m !! tx = None → hold_sum (<[tx := x]> m) = x + hold_sum m.
Proof.
  intros Hm. unfold hold_sum. rewrite (sum_Z_perm _ ((tx, x) :: map_to_list m).*2); [done|].
  apply Permutation_map. by apply map_to_list_insert.
Qed.

Lemma hold_sum_delete m tx : hold_sum m = default 0 (m !! tx) + hold_sum (delete tx m).
Proof.
  destruct (m !! tx) as [x|] eqn:E; cbn [from_option id].
  - rewrite <- (insert_delete_id m tx x E) at 1. apply hold_sum_insert_fresh, lookup_delete_eq.
  - by rewrite delete_id.
Qed.

Lemma hold_sum_insert m tx x : hold_sum (<[tx := x]> m) = x + hold_sum (delete tx m).
Proof. rewrite <- insert_delete_eq. apply hold_sum_insert_fresh, lookup_delete_eq. Qed.

Lemma hold_sum_nonneg m : amounts_ok m → 0 ≤ hold_sum m.
Proof.
  intros Hm. induction m as [|tx x m Hn IH] using map_ind; [done|].
  rewrite hold_sum_insert_fresh by done. apply map_Forall_insert in Hm as [[? _] Hm]; [|done].
  specialize (IH Hm). lia.
Qed.

Lemma amounts_ok_delete m tx : amounts_ok m → amounts_ok (delete tx m).
Proof. intros Hm. by apply map_Forall_delete. Qed.

Lemma amounts_ok_insert m tx x : in_width 128 x → amounts_ok m → amounts_ok (<[tx := x]> m).
Proof. intros. by apply map_Forall_insert_2. Qed.

Lemma hold_sum_iter m : hold_sum m = sum_Z (map_iter m).*2.
Proof. unfold hold_sum. apply sum_Z_perm, Permutation_map. symmetry. apply map_iter_perm. Qed.

Lemma try_sum_none l :
  foldl (λ (total : option Z) (p : TxHash * Z), t ← total; checked_add 128 t p.2) None l = None.
Proof. by induction l. Qed.

Lemma try_sum_spec l acc :
  Forall (λ p : TxHash * Z, 0 ≤ p.2) l → 0 ≤ acc ≤ u128_max →
  foldl (λ (total : option Z) p, t ← total; checked_add 128 t p.2) (Some acc) l
    = if decide (acc + sum_Z l.*2 ≤ u128_max) then Some (acc + sum_Z l.*2) else None.
Proof.
  intros Hl. revert acc. induction Hl as [|p l Hp Hl IH]; intros acc Hacc; cbn [foldl].
  - cbn [fmap list_fmap sum_Z foldr]. rewrite Z.add_0_r, decide_True by lia. done.
  - assert (0 ≤ sum_Z l.*2).
    { clear -Hl. induction Hl as [|q l Hq _ IH]; [done|]. rewrite fmap_cons, sum_Z_cons. lia. }
    rewrite fmap_cons, sum_Z_cons. cbn [mbind option_bind]. unfold checked_add at 2.
    destruct (decide (acc + p.2 ≤ u128_max)).
    + rewrite IH by lia. by rewrite Z.add_assoc.
    + rewrite try_sum_none, decide_False by lia. done.
Qed.

Lemma amounts_iter_nonneg m : amounts_ok m → Forall (λ p : TxHash * Z, 0 ≤ p.2) (map_iter m).
Proof.
  intros Hm. apply Forall_forall. intros [tx x] Hx%elem_of_map_iter. by destruct (Hm tx x Hx).
Qed.

Lemma saturating_sum_nonneg l acc :
  0 ≤ acc → Forall (λ p : TxHash * Z, 0 ≤ p.2) l →
  0 ≤ foldl (λ total p, saturating_add 128 total p.2) acc l.
Proof.
  intros Hacc Hl. revert acc Hacc. induction Hl as [|p l Hp Hl IH]; intros acc Hacc; [done|].
  apply IH. unfold saturating_add, width_max. lia.
Qed.

Definition fees_ok (f : FeeHolds) : Prop := amounts_ok (fee_members f) ∧ in_width 128 (fee_rest f).

Lemma fee_total_nonneg f : fees_ok f → 0 ≤ fee_total f.
Proof. intros [Hm [? _]]. by apply saturating_sum_nonneg, amounts_iter_nonneg. Qed.

Lemma kept_from_nonneg w tx : amounts_ok (withheld_members w) → 0 ≤ kept_from w tx.
Proof.
  intros Hm. apply saturating_sum_nonneg; [done|]. apply Forall_forall.
  intros p [_ Hp]%list_elem_of_filter. apply amounts_iter_nonneg in Hm.
  by apply (proj1 (Forall_forall _ _) Hm).
Qed.

Lemma withheld_total_nonneg w : amounts_ok (withheld_members w) → 0 ≤ withheld_total w.
Proof. intros Hm. by apply saturating_sum_nonneg, amounts_iter_nonneg. Qed.

(** ** The floor *)

(** Every reservation on a cell is covered by what the cell holds. *)
Record cell_backed {S} `{AmountLedger S} (s : S) (k : SubstateKey) : Prop := {
  backed_holds : amounts_ok (holds s k);
  backed_fees : fees_ok (fee_holds s k);
  backed_withheld : amounts_ok (withheld_members (withheld_credits s k));
  backed_floor : holds s k = ∅ ∨ ∃ x, amount s k = Ok x ∧ hold_sum (holds s k) ≤ x;
}.
Definition ledger_ok {S} `{AmountLedger S} (s : S) : Prop := ∀ k, cell_backed s k.

Lemma cell_backed_agree {S} `{AmountLedger S} (s : S) a k :
  agree s a → cell_backed s k ↔ cell_backed a k.
Proof.
  intros Ha. pose proof (agree_holds s a Ha k) as E1. pose proof (agree_fee s a Ha k) as E2.
  pose proof (agree_withheld s a Ha k) as E3.
  assert (amount s k = amount a k) as E4 by (unfold amount; by rewrite (agree_cell s a Ha)).
  split; intros [B1 B2 B3 B4]; split; rewrite ?E1, ?E2, ?E3, ?E4 in *; done.
Qed.

Section floor.
Implicit Types (a : AbstractStore).

Lemma amount_width a k x : amount a k = Ok x → in_width 128 x.
Proof.
  unfold amount. destruct (cell a k) as [c|]; [|by intros [= <-]].
  destruct (decode_amount c) eqn:E; [|done]. intros [= <-]. by eapply decode_amount_bound.
Qed.

Lemma amount_set_amount a k x :
  in_width 128 x → amount (set_amount a k x) k = Ok x.
Proof.
  intros Hx. unfold amount. cbn [cell abstract_substates set_amount abstract_ledger a_cell].
  unfold upd, amount_cell. rewrite decide_True by done. destruct (decide (x ≠ 0)) as [Hne|Heq].
  - by rewrite decode_encode.
  - by destruct (decide (x = 0)) as [->|].
Qed.

Lemma amount_set_amount_ne a k k' x : k ≠ k' → amount (set_amount a k x) k' = amount a k'.
Proof.
  intros Hne. unfold amount. cbn [cell abstract_substates set_amount abstract_ledger a_cell].
  unfold upd. by rewrite decide_False.
Qed.

Lemma unpromised_spec a k standing withheld :
  amounts_ok (holds a k) → standing ≤ u128_max →
  unpromised a k standing withheld =
    if decide (hold_sum (holds a k) ≤ standing)
    then Ok (Z.max (Z.max (standing - hold_sum (holds a k) - fee_total (fee_holds a k)) 0 - withheld) 0)
    else Err (HeldExceedsCommitted k).
Proof.
  intros Hm Hst. unfold unpromised, held_total.
  rewrite try_sum_spec; [|by apply amounts_iter_nonneg|unfold width_max; lia].
  rewrite Z.add_0_l, <- hold_sum_iter. unfold checked_sub, saturating_sub.
  destruct (decide (hold_sum (holds a k) ≤ standing)) as [Hle|Hgt].
  - rewrite decide_True by lia. cbn [ok_or mbind result_bind]. by rewrite decide_True by lia.
  - destruct (decide (hold_sum (holds a k) ≤ u128_max)); cbn [ok_or mbind result_bind]; [|done].
    by rewrite decide_False by lia.
Qed.

Lemma hold_sum_change m tx o :
  hold_sum (hold_change m tx o) = default 0 o + hold_sum (delete tx m).
Proof. destruct o; cbn [hold_change from_option id]; [apply hold_sum_insert|lia]. Qed.

Lemma upd_eq {A} (f : SubstateKey → A) k x : upd f k x k = x.
Proof. unfold upd. by rewrite decide_True. Qed.

Lemma upd_ne {A} (f : SubstateKey → A) k k' x : k ≠ k' → upd f k x k' = f k'.
Proof. intros. unfold upd. by rewrite decide_False. Qed.

Lemma set_amount_backed a k x :
  ledger_ok a → in_width 128 x → hold_sum (holds a k) ≤ x → ledger_ok (set_amount a k x).
Proof.
  intros Hok Hx Hsum k'. destruct (Hok k') as [H1 H2 H3 H4]. split; [done..|].
  destruct (decide (k = k')) as [<-|Hne].
  - right. exists x. split; [by apply amount_set_amount|done].
  - by rewrite amount_set_amount_ne.
Qed.

Lemma set_hold_backed a k tx o :
  ledger_ok a → (∀ x, o = Some x → in_width 128 x) →
  (o = None ∧ holds a k = ∅ ∨
   ∃ y, amount a k = Ok y ∧ default 0 o + hold_sum (delete tx (holds a k)) ≤ y) →
  ledger_ok (set_hold a k tx o).
Proof.
  intros Hok Ho Hsum k'. destruct (Hok k') as [H1 H2 H3 H4].
  assert (holds (set_hold a k tx o) k' = upd (a_holds a) k (hold_change (a_holds a k) tx o) k') as Hh
    by done.
  destruct (decide (k = k')) as [<-|Hne].
  - rewrite upd_eq in Hh. split; [rewrite Hh; clear Hh|done|done|rewrite Hh; clear Hh].
    + destruct o as [x|]; [by apply amounts_ok_insert; [apply Ho|]|by apply amounts_ok_delete].
    + destruct Hsum as [[-> E]|(y & Hy & Hle)].
      * left. cbn [holds abstract_baseline] in E. cbn [hold_change]. by rewrite E, delete_empty.
      * right. exists y. split; [exact Hy|]. by rewrite hold_sum_change.
  - rewrite upd_ne in Hh by done. split; [by rewrite Hh|done|done|by rewrite Hh].
Qed.

(** What a movement needs and does, on every branch. *)
Definition movement_post {S} `{AmountLedger S} (s : S) k tx credit debit
    (out : S * result StoreError Z) : Prop :=
  match out with
  | (s', Ok after) =>
      ∃ x, amount s k = Ok x ∧ after = x + credit - debit ∧ amount s' k = Ok after ∧
        (∀ k', k' ≠ k → cell s' k' = cell s k') ∧ (∀ k', holds s' k' = holds s k') ∧
        hold_sum (holds s k) ≤ after ∧
        (0 < debit →
         hold_sum (holds s k) + fee_total (fee_holds s k) + kept_from (withheld_credits s k) tx ≤ after)
  | (s', Err e) =>
      s' = s ∧
      (amount s k = Err e ∨
       ∃ x, amount s k = Ok x ∧
         (e = StoreMode CellOverflow ∧ u128_max < x + credit ∨
          e = StoreMode CellUnderflow ∧
            x + credit < debit + hold_sum (holds s k) + fee_total (fee_holds s k)
                         + kept_from (withheld_credits s k) tx))
  end.

Lemma abstract_movement a k tx credit debit :
  ledger_ok a → in_width 128 credit → in_width 128 debit →
  movement_post a k tx credit debit (apply_movement a k tx credit debit).
Proof.
  intros Hok Hc Hd. destruct (Hok k) as [H1 H2 H3 H4]. unfold apply_movement, judge_movement.
  destruct (amount a k) as [x|e] eqn:Hx; cbn [mbind result_bind movement_post]; [|by split; [|left]].
  assert (Hs : hold_sum (holds a k) ≤ x).
  { destruct H4 as [->|(y & Hy & Hle)]; [|congruence].
    pose proof (amount_width a k x Hx) as [? _]. by rewrite hold_sum_empty. }
  pose proof (hold_sum_nonneg _ H1). pose proof (fee_total_nonneg _ H2).
  pose proof (kept_from_nonneg _ tx H3). pose proof (amount_width a k x Hx) as Hxw.
  unfold in_width in *. unfold checked_add.
  destruct (decide (x + credit ≤ u128_max)) as [Hov|Hov]; cbn [ok_or mbind result_bind].
  2: { split; [done|]. right. exists x. split; [done|]. left. split; [done|lia]. }
  rewrite unpromised_spec by (done || lia). rewrite decide_True by lia. cbn [mbind result_bind].
  case_decide as Hf.
  { split; [done|]. right. exists x. split; [done|]. right. split; [done|]. lia. }
  exists x. split; [done|]. split; [done|]. unfold width_max in Hov.
  split; [apply amount_set_amount; unfold in_width; lia|].
  split; [intros k' Hk'; cbn; by rewrite upd_ne|]. split; [done|]. split; lia.
Qed.

Lemma abstract_movement_ok a k tx credit debit :
  ledger_ok a → in_width 128 credit → in_width 128 debit →
  ledger_ok (apply_movement a k tx credit debit).1.
Proof.
  intros Hok Hc Hd. pose proof (abstract_movement a k tx credit debit Hok Hc Hd) as H.
  unfold apply_movement in *. destruct (judge_movement a k tx credit debit) as [after|e]; [|done].
  cbn [movement_post fst] in *. destruct H as (x & Hx & Haf & Ham & _ & _ & Hle & _).
  apply set_amount_backed; [done| |done]. by eapply amount_width.
Qed.

(** A reservation that is held can always be settled. *)
Lemma abstract_settle a k tx amt :
  ledger_ok a → held_reservation a k tx = Some amt →
  ∃ x, amount a k = Ok x ∧ amt ≤ x ∧ 
    settle a k tx = (set_amount (set_hold a k tx None) k (x - amt), Ok amt).
Proof.
  intros Hok Hr. destruct (Hok k) as [H1 H2 H3 H4].
  assert (Hamt : holds a k !! tx = Some amt) by exact Hr.
  destruct H4 as [E|(x & Hx & Hle)]; [by rewrite E in Hamt|].
  pose proof (hold_sum_delete (holds a k) tx) as Hsum. rewrite Hamt in Hsum. cbn [from_option id] in Hsum.
  pose proof (hold_sum_nonneg _ (amounts_ok_delete _ tx H1)).
  exists x. split; [done|]. split; [lia|]. unfold settle. rewrite Hr, Hx.
  cbn [ok_or mbind result_bind]. unfold checked_sub. by rewrite decide_True by lia.
Qed.

Lemma settle_none a k tx :
  held_reservation a k tx = None → settle a k tx = (a, Err (MissingReservation tx k)).
Proof. intros Hr. unfold settle. by rewrite Hr. Qed.

Lemma abstract_settle_ok a k tx : ledger_ok a → ledger_ok (settle a k tx).1.
Proof.
  intros Hok. destruct (held_reservation a k tx) as [amt|] eqn:Hr; [|by rewrite settle_none].
  destruct (abstract_settle a k tx amt Hok Hr) as (x & Hx & Hle & ->). cbn [fst].
  destruct (Hok k) as [H1 H2 H3 H4].
  assert (Hamt : holds a k !! tx = Some amt) by exact Hr.
  destruct H4 as [E|(y & Hy & Hsum)]; [by rewrite E in Hamt|]. rewrite Hx in Hy. injection Hy as <-.
  pose proof (hold_sum_delete (holds a k) tx) as Hs. rewrite Hamt in Hs. cbn [from_option id] in Hs.
  pose proof (hold_sum_nonneg _ (amounts_ok_delete _ tx H1)).
  destruct (H1 tx amt Hamt) as [Ha0 _]. pose proof (amount_width a k x Hx) as [? ?].
  apply set_amount_backed; [|unfold in_width; lia|].
  - apply set_hold_backed; [done|done|]. right. exists x. split; [done|]. cbn [from_option id]. lia.
  - cbn [holds abstract_baseline set_hold abstract_ledger a_holds]. rewrite upd_eq.
    rewrite hold_sum_change. cbn [from_option id]. cbn [holds abstract_baseline] in *. lia.
Qed.

Lemma abstract_release_ok a k tx : ledger_ok a → ledger_ok (release a k tx).1.
Proof.
  intros Hok. unfold release. destruct (held_reservation a k tx) as [amt|] eqn:Hr; [|done].
  cbn [ok_or fst]. destruct (Hok k) as [H1 H2 H3 H4].
  assert (Hamt : holds a k !! tx = Some amt) by exact Hr.
  destruct H4 as [E|(y & Hy & Hsum)]; [by rewrite E in Hamt|].
  pose proof (hold_sum_delete (holds a k) tx) as Hs. rewrite Hamt in Hs. cbn [from_option id] in Hs.
  destruct (H1 tx amt Hamt) as [Ha0 _].
  apply set_hold_backed; [done|done|]. right. exists y. split; [done|]. cbn [from_option id]. lia.
Qed.

Lemma abstract_reduce_ok a k tx x :
  ledger_ok a → in_width 128 x → is_Some (held_reservation a k tx) ∨ is_ok (amount a k) = true →
  ledger_ok (reduce_hold a k tx x).
Proof.
  intros Hok Hx Hst. unfold reduce_hold. destruct (held_reservation a k tx) as [amt|] eqn:Hr.
  2: { destruct Hst as [[? ?]|Hst]; [done|]. destruct (amount a k) as [y|] eqn:Hy; [|done].
       pose proof (amount_width a k y Hy) as [Hy0 _]. destruct (Hok k) as [H1 H2 H3 H4].
       cbn [from_option id]. destruct Hx as [Hx0 _]. rewrite Z.min_r by done.
       apply set_hold_backed; [done|by intros z [= <-]|]. right. exists y. split; [done|].
       cbn [from_option id]. rewrite delete_id by exact Hr.
       destruct H4 as [->|(y' & Hy' & Hle)]; [by rewrite hold_sum_empty|]. rewrite Hy in Hy'.
       injection Hy' as <-. lia. }
  clear Hst. cbn [from_option id].
  destruct (Hok k) as [H1 H2 H3 H4]. assert (Hamt : holds a k !! tx = Some amt) by exact Hr.
  pose proof (hold_sum_delete (holds a k) tx) as Hs. rewrite Hamt in Hs. cbn [from_option id] in Hs.
  pose proof (H1 tx amt Hamt) as [Ha0 Ha1]. destruct Hx as [Hx0 Hx1].
  destruct H4 as [E|(y & Hy & Hsum)]; [by rewrite E in Hamt|].
  apply set_hold_backed; [done| |].
  - intros z [= <-]. unfold in_width. lia.
  - right. exists y. split; [done|]. cbn [from_option id]. lia.
Qed.

(** ** Judging a batch of reservations *)

Definition requests_on (k : SubstateKey) (reqs : list (TxHash * SubstateKey * Z)) : list (TxHash * Z) :=
  omap (λ r, if decide (r.1.2 = k) then Some (r.1.1, r.2) else None) reqs.

Lemma requests_on_cons k tx k' x reqs :
  requests_on k ((tx, k', x) :: reqs)
    = if decide (k' = k) then (tx, x) :: requests_on k reqs else requests_on k reqs.
Proof. unfold requests_on. cbn. by destruct (decide (k' = k)). Qed.

Lemma gather_spec a reqs seen by_key :
  NoDup reqs.*1 → (∀ p, p ∈ reqs.*1 → p ∉ seen) →
  ∃ m, gather a reqs seen by_key = (a, Ok m) ∧
    ∀ k, m !! k = if decide (requests_on k reqs = []) then by_key !! k
                  else Some (default [] (by_key !! k) ++ requests_on k reqs).
Proof.
  revert seen by_key. induction reqs as [|[[tx k] x] reqs IH]; intros seen by_key Hnd Hseen.
  { exists by_key. split; [done|]. intros k. by rewrite decide_True. }
  rewrite fmap_cons in Hnd. apply NoDup_cons in Hnd as [Hnin Hnd]. cbn [gather].
  rewrite decide_False by (apply Hseen; constructor).
  change (note a (Point k) KReserve) with a.
  destruct (IH ({[(tx, k)]} ∪ seen) (<[k := default [] (by_key !! k) ++ [(tx, x)]]> by_key) Hnd)
    as (m & -> & Hm).
  { intros p Hp [->%elem_of_singleton|Hs]%elem_of_union; [done|].
    apply (Hseen p); [by constructor|done]. }
  exists m. split; [done|]. intros k'. rewrite Hm.
  rewrite requests_on_cons. destruct (decide (k = k')) as [<-|Hne].
  - rewrite lookup_insert_eq. cbn [from_option id]. rewrite (decide_False (P := (_ :: _) = [])) by done.
    destruct (decide (requests_on k reqs = [])) as [->|Hr]; [done|]. by rewrite <- app_assoc.
  - by rewrite lookup_insert_ne.
Qed.

(** The verdict a list of verdicts gives a transaction. *)
Definition verdict_of (vl : list (TxHash * Feasibility)) (tx : TxHash) : option Feasibility :=
  (list_to_map vl : gmap TxHash Feasibility) !! tx.

(** The store a batch leaves: only holds on its own cell change, and exactly
    those of the feasible requests. *)
Record batch_done a (k : SubstateKey) (b : list (TxHash * Z)) (vl : list (TxHash * Feasibility))
    (vs : gmap (TxHash * SubstateKey) Feasibility) a' (vs' : gmap (TxHash * SubstateKey) Feasibility) :
    Prop := {
  batch_cell : a_cell a' = a_cell a;
  batch_fee : a_fee a' = a_fee a;
  batch_withheld : a_withheld a' = a_withheld a;
  batch_other : ∀ k', k ≠ k' → holds a' k' = holds a k';
  batch_holds : ∀ tx, holds a' k !! tx =
    match verdict_of vl tx with Some Feasible => Some (requested b tx) | _ => holds a k !! tx end;
  batch_verdicts : ∀ tx k', vs' !! (tx, k') =
    if decide (k = k')
    then match verdict_of vl tx with Some v => Some v | None => vs !! (tx, k') end
    else vs !! (tx, k');
}.

Lemma verdict_of_cons tx v vl tx' :
  verdict_of ((tx, v) :: vl) tx' = if decide (tx = tx') then Some v else verdict_of vl tx'.
Proof.
  unfold verdict_of. cbn [list_to_map foldr]. destruct (decide (tx = tx')) as [<-|].
  - apply lookup_insert_eq.
  - by apply lookup_insert_ne.
Qed.

Lemma verdict_of_notin vl tx : tx ∉ vl.*1 → verdict_of vl tx = None.
Proof. apply not_elem_of_list_to_map_1. Qed.

Lemma hold_verdicts_done a k b vl vs :
  NoDup vl.*1 →
  batch_done a k b vl vs (foldl (hold_verdict k b) (a, vs) vl).1 (foldl (hold_verdict k b) (a, vs) vl).2.
Proof.
  revert a vs. induction vl as [|[tx v] vl IH]; intros a vs Hnd.
  { split; try done. intros tx k'. by destruct (decide (k = k')). }
  rewrite fmap_cons in Hnd. apply NoDup_cons in Hnd as [Hnin Hnd]. cbn [foldl].
  unfold hold_verdict at 2 4. cbn [fst snd].
  set (a1 := if is_feasible v then _ else a). set (vs1 := <[_ := v]> vs).
  destruct (IH a1 vs1 Hnd) as [I1 I2 I3 I4 I5 I6].
  assert (Ha1 : a_cell a1 = a_cell a ∧ a_fee a1 = a_fee a ∧ a_withheld a1 = a_withheld a ∧
    (∀ k', k ≠ k' → holds a1 k' = holds a k') ∧
    ∀ tx', holds a1 k !! tx' = if decide (tx = tx') then
      (if is_feasible v then Some (requested b tx) else holds a k !! tx') else holds a k !! tx').
  { subst a1. destruct v; cbn [is_feasible].
    - split_and!; try done.
      + intros k' Hk'. cbn. by rewrite upd_ne.
      + intros tx'. cbn [holds abstract_baseline set_hold abstract_ledger a_holds hold_change].
        rewrite upd_eq. destruct (decide (tx = tx')) as [<-|].
        * by rewrite lookup_insert_eq.
        * by rewrite lookup_insert_ne.
    - split_and!; try done. intros tx'. by destruct (decide (tx = tx')). }
  destruct Ha1 as (C1 & C2 & C3 & C4 & C5). split.
  - by rewrite I1.
  - by rewrite I2.
  - by rewrite I3.
  - intros k' Hk'. by rewrite I4, C4.
  - intros tx'. rewrite I5, verdict_of_cons, C5. destruct (decide (tx = tx')) as [<-|]; [|done].
    rewrite verdict_of_notin by done. by destruct v.
  - intros tx' k'. rewrite I6, verdict_of_cons. subst vs1.
    destruct (decide (k = k')) as [<-|].
    + destruct (decide (tx = tx')) as [<-|].
      * by rewrite verdict_of_notin, lookup_insert_eq.
      * destruct (verdict_of vl tx'); [done|]. rewrite lookup_insert_ne; [done|congruence].
    + rewrite lookup_insert_ne; [done|congruence].
Qed.

Lemma requested_in b tx x : NoDup b.*1 → (tx, x) ∈ b → requested b tx = x.
Proof.
  intros Hnd Hin. unfold requested. induction b as [|[t y] b IH]; [by apply not_elem_of_nil in Hin|].
  rewrite fmap_cons in Hnd. apply NoDup_cons in Hnd as [Hnin Hnd]. cbn [list_find fst snd].
  apply elem_of_cons in Hin as [[= <- <-]|Hin].
  - by destruct (decide (tx = tx)).
  - destruct (decide (t = tx)) as [->|Hne].
    + destruct Hnin. apply list_elem_of_fmap. by exists (tx, x).
    + specialize (IH Hnd Hin). by destruct (list_find _ b) as [[i r]|].
Qed.

(** Holding the feasible requests keeps the cell backed. *)
Lemma hold_walk_ok a k b o remaining vs y :
  NoDup b.*1 → (∀ r, r ∈ o → r ∈ b ∧ in_width 128 r.2) →
  ledger_ok a → amount a k = Ok y → 0 ≤ remaining → hold_sum (holds a k) + remaining ≤ y →
  ledger_ok (foldl (hold_verdict k b) (a, vs) (judge_walk remaining o)).1.
Proof.
  intros Hnd. revert a remaining vs.
  induction o as [|[tx x] o IH]; intros a remaining vs Ho Hok Hy Hr Hle; [done|].
  destruct (Ho (tx, x)) as [Hin Hx]; [constructor|]. cbn [snd] in Hx. cbn [judge_walk].
  assert (Ho' : ∀ r, r ∈ o → r ∈ b ∧ in_width 128 r.2) by (intros; apply Ho; by constructor).
  destruct (decide (x ≤ remaining)) as [Hfit|Hfit]; cbn [foldl].
  2: { by apply IH. }
  unfold hold_verdict at 2. cbn [fst snd is_feasible]. rewrite (requested_in b tx x Hnd Hin).
  pose proof (Hok k) as [B1 B2 B3 B4].
  pose proof (hold_sum_delete (holds a k) tx) as Hs.
  assert (0 ≤ default 0 (holds a k !! tx)).
  { destruct (holds a k !! tx) as [z|] eqn:E; [|done]. by destruct (B1 tx z E). }
  apply IH; [done| |done|destruct Hx; lia|].
  - apply set_hold_backed; [done|by intros z [= <-]|]. right. exists y. split; [done|].
    cbn [from_option id]. lia.
  - cbn [holds abstract_baseline set_hold abstract_ledger a_holds]. rewrite upd_eq, hold_sum_change.
    cbn [from_option id]. cbn [holds abstract_baseline] in *. lia.
Qed.

Lemma judge_fst available b : (judge available b).*1 ≡ₚ b.*1.
Proof.
  unfold judge. assert (∀ r o, (judge_walk r o).*1 = o.*1) as ->.
  { intros r o. revert r. induction o as [|[tx x] o IH]; intros r; [done|]. cbn [judge_walk].
    destruct (decide (x ≤ r)); rewrite !fmap_cons, IH; done. }
  by rewrite merge_sort_Permutation.
Qed.

(** What is free on a cell for new reservations. *)
Definition available {S} `{AmountLedger S} (s : S) (k : SubstateKey) : result StoreError Z :=
  x ← amount s k; unpromised s k x (withheld_total (withheld_credits s k)).

Lemma available_spec a k y :
  ledger_ok a → amount a k = Ok y →
  ∃ av, available a k = Ok av ∧ 0 ≤ av ∧ hold_sum (holds a k) + av ≤ y.
Proof.
  intros Hok Hy. destruct (Hok k) as [H1 H2 H3 H4]. pose proof (amount_width a k y Hy) as [? Hmax].
  assert (Hs : hold_sum (holds a k) ≤ y).
  { destruct H4 as [->|(z & Hz & Hle)]; [by rewrite hold_sum_empty|congruence]. }
  pose proof (hold_sum_nonneg _ H1). pose proof (fee_total_nonneg _ H2).
  pose proof (withheld_total_nonneg _ H3).
  unfold available. rewrite Hy. cbn [mbind result_bind].
  rewrite unpromised_spec, decide_True by (done || unfold width_max; lia).
  eexists. split; [done|]. lia.
Qed.

Lemma judge_batch_ok a k b vs y av :
  NoDup b.*1 → Forall (λ r, in_width 128 r.2) b →
  ledger_ok a → amount a k = Ok y → available a k = Ok av →
  ledger_ok (foldl (hold_verdict k b) (a, vs) (judge av b)).1.
Proof.
  intros Hnd Hb Hok Hy Hav. destruct (available_spec a k y Hok Hy) as (av' & Hav' & H0 & Hle).
  rewrite Hav in Hav'. injection Hav' as <-. unfold judge. eapply hold_walk_ok; try done.
  intros r Hr. rewrite merge_sort_Permutation in Hr. split; [done|].
  by apply (proj1 (Forall_forall _ _) Hb).
Qed.

(** The whole batch: what every cell's verdicts and holds become. *)
Record batches_done {S} `{AmountLedger S} (s : S) (on : SubstateKey → list (TxHash * Z))
    (s' : S) (vs' : gmap (TxHash * SubstateKey) Feasibility) : Prop := {
  done_cell : ∀ k, cell s' k = cell s k;
  done_verdicts : ∀ tx k, vs' !! (tx, k) =
    match available s k with Ok av => verdict_of (judge av (on k)) tx | Err _ => None end;
  done_holds : ∀ tx k, holds s' k !! tx =
    match vs' !! (tx, k) with Some Feasible => Some (requested (on k) tx) | _ => holds s k !! tx end;
}.

Lemma judge_batches_spec l a vs :
  NoDup l.*1 → ledger_ok a →
  Forall (λ p, NoDup p.2.*1 ∧ Forall (λ r, in_width 128 r.2) p.2 ∧ is_ok (amount a p.1) = true) l →
  (∀ tx k, k ∈ l.*1 → vs !! (tx, k) = None) →
  ∃ a' vs', judge_batches a vs l = (a', Ok vs') ∧ ledger_ok a' ∧ a_cell a' = a_cell a ∧
    (∀ k, k ∉ l.*1 → holds a' k = holds a k ∧ available a' k = available a k ∧
                     ∀ tx, vs' !! (tx, k) = vs !! (tx, k)) ∧
    (∀ k b tx, (k, b) ∈ l →
       vs' !! (tx, k) = match available a k with Ok av => verdict_of (judge av b) tx | Err _ => None end ∧
       holds a' k !! tx = match vs' !! (tx, k) with Some Feasible => Some (requested b tx)
                          | _ => holds a k !! tx end).
Proof.
  revert a vs. induction l as [|[k b] l IH]; intros a vs Hnd Hok Hl Hvs.
  { exists a, vs. split; [done|]. split; [done|]. split; [done|]. split; [done|].
    by intros k b tx ?%not_elem_of_nil. }
  rewrite fmap_cons in Hnd, Hvs. apply NoDup_cons in Hnd as [Hnin Hnd]. cbn [fst] in *.
  apply Forall_cons in Hl as [(Hb1 & Hb2 & Hb3) Hl]. cbn [fst snd] in *.
  destruct (amount a k) as [y|] eqn:Hy; [|done]. clear Hb3.
  destruct (available_spec a k y Hok Hy) as (av & Hav & _ & _). cbn [judge_batches].
  unfold available in Hav. rewrite Hav. fold (available a k) in Hav.
  pose proof (judge_batch_ok a k b vs y av Hb1 Hb2 Hok Hy Hav) as Hok1.
  assert (Hndv : NoDup (judge av b).*1) by (by rewrite judge_fst).
  pose proof (hold_verdicts_done a k b (judge av b) vs Hndv) as Hd.
  set (st := foldl (hold_verdict k b) (a, vs) (judge av b)) in *. destruct Hd as [D1 D2 D3 D4 D5 D6].
  assert (Ham : ∀ k', amount st.1 k' = amount a k')
    by (intros k'; unfold amount; cbn [cell abstract_substates]; by rewrite D1).
  destruct (IH st.1 st.2 Hnd Hok1) as (a' & vs' & -> & Hok' & C1 & C2 & C3).
  { eapply Forall_impl; [exact Hl|]. intros p (? & ? & ?). rewrite Ham. done. }
  { intros tx k' Hk'. rewrite D6, decide_False by (by intros ->). apply Hvs. by constructor. }
  assert (Hav1 : ∀ k', k ≠ k' → available st.1 k' = available a k').
  { intros k' Hk'. unfold available, unpromised, held_total. rewrite Ham, (D4 k' Hk').
    cbn [fee_holds withheld_credits abstract_baseline]. by rewrite D2, D3. }
  exists a', vs'. split; [done|]. split; [done|]. split; [by rewrite C1|]. split.
  - intros k' [Hne Hk']%not_elem_of_cons. destruct (C2 k' Hk') as (E1 & E2 & E3).
    split; [by rewrite E1, D4|]. split; [by rewrite E2, Hav1|].
    intros tx. by rewrite E3, D6, decide_False.
  - intros k' b' tx [[= -> ->]|Hin]%elem_of_cons.
    + destruct (C2 k Hnin) as (E1 & E2 & E3). rewrite Hav.
      assert (Hv : vs' !! (tx, k) = verdict_of (judge av b) tx).
      { rewrite E3, D6, decide_True by done. destruct (verdict_of (judge av b) tx); [done|].
        apply Hvs. constructor. }
      split; [done|]. by rewrite Hv, E1, D5.
    + destruct (C3 k' b' tx Hin) as [F1 F2].
      assert (k ≠ k') by (intros ->; destruct Hnin; apply list_elem_of_fmap; by exists (k', b')).
      rewrite Hav1 in F1 by done. split; [done|]. by rewrite F2, D4.
Qed.

(** The requests of a batch: each pair once, amounts in [u128], on cells that
    hold amounts. *)
Definition requests_ok {S} `{AmountLedger S} (s : S) (reqs : list (TxHash * SubstateKey * Z)) : Prop :=
  NoDup reqs.*1 ∧ Forall (λ r, in_width 128 r.2 ∧ is_ok (amount s r.1.2) = true) reqs.

Lemma elem_of_requests_on k reqs tx x : (tx, x) ∈ requests_on k reqs ↔ (tx, k, x) ∈ reqs.
Proof.
  unfold requests_on. rewrite list_elem_of_omap. split.
  - intros ([[t k'] y] & Hin & Hf). cbn [fst snd] in Hf. destruct (decide (k' = k)) as [->|]; [|done].
    by injection Hf as <- <-.
  - intros Hin. exists (tx, k, x). split; [done|]. cbn [fst snd]. by rewrite decide_True.
Qed.

Lemma NoDup_requests_on k reqs : NoDup reqs.*1 → NoDup (requests_on k reqs).*1.
Proof.
  induction reqs as [|[[tx k'] x] reqs IH]; [constructor|]. rewrite fmap_cons.
  intros [Hnin Hnd]%NoDup_cons. rewrite requests_on_cons.
  destruct (decide (k' = k)) as [->|]; [|auto]. rewrite fmap_cons. constructor; [|auto].
  intros ([t y] & Ht & Hin)%list_elem_of_fmap. cbn in Ht. subst t. apply elem_of_requests_on in Hin.
  apply Hnin. apply list_elem_of_fmap. by exists (tx, k, y).
Qed.

Lemma judge_nil av tx : verdict_of (judge av []) tx = None.
Proof. done. Qed.

Lemma abstract_judge_and_hold a reqs :
  ledger_ok a → requests_ok a reqs →
  ∃ a' vs, judge_and_hold a reqs = (a', Ok vs) ∧ ledger_ok a' ∧
    batches_done a (λ k, requests_on k reqs) a' vs.
Proof.
  intros Hok [Hnd Hreq]. unfold judge_and_hold.
  destruct (gather_spec a reqs ∅ ∅ Hnd) as (m & -> & Hm); [set_solver|].
  assert (Hm' : ∀ k, m !! k = if decide (requests_on k reqs = []) then None else Some (requests_on k reqs)).
  { intros k. by rewrite Hm, lookup_empty. }
  assert (Hin : ∀ k b, (k, b) ∈ map_iter m ↔ b = requests_on k reqs ∧ b ≠ []).
  { intros k b. rewrite elem_of_map_iter, Hm'. destruct (decide (requests_on k reqs = [])); naive_solver. }
  destruct (judge_batches_spec (map_iter m) a ∅) as (a' & vs & -> & Hok' & C1 & C2 & C3); try done.
  - apply NoDup_map_iter.
  - apply Forall_forall. intros [k b] [-> Hne]%Hin. cbn [fst snd].
    split; [by apply NoDup_requests_on|]. rewrite Forall_forall in Hreq. split.
    + apply Forall_forall. intros [tx x] Hx%elem_of_requests_on. by apply Hreq in Hx as [? _].
    + destruct (requests_on k reqs) as [|[tx x] b'] eqn:E; [done|].
      assert (Hx : (tx, x) ∈ requests_on k reqs) by (rewrite E; constructor).
      apply elem_of_requests_on, Hreq in Hx as [_ ?]. done.
  - exists a', vs. split; [done|]. split; [done|].
    assert (Hout : ∀ k, requests_on k reqs = [] → k ∉ (map_iter m).*1).
    { intros k Hk ([k' b] & -> & [-> Hne]%Hin)%list_elem_of_fmap. done. }
    split.
    + intros k. cbn [cell abstract_substates]. by rewrite C1.
    + intros tx k. destruct (decide (requests_on k reqs = [])) as [E|Hne].
      * destruct (C2 k (Hout k E)) as (_ & _ & ->). rewrite lookup_empty, E.
        by destruct (available a k).
      * by destruct (C3 k (requests_on k reqs) tx) as [-> _]; [by apply Hin|].
    + intros tx k. destruct (decide (requests_on k reqs = [])) as [E|Hne].
      * destruct (C2 k (Hout k E)) as (-> & _ & ->). by rewrite lookup_empty.
      * by destruct (C3 k (requests_on k reqs) tx) as [_ ->]; [by apply Hin|].
Qed.

Lemma gather_ok_NoDup a reqs seen by_key m :
  (gather a reqs seen by_key).2 = Ok m → NoDup reqs.*1 ∧ ∀ p, p ∈ reqs.*1 → p ∉ seen.
Proof.
  revert seen by_key. induction reqs as [|[[tx k] x] reqs IH]; intros seen by_key Hg.
  { split; [constructor|]. by intros p ?%not_elem_of_nil. }
  cbn [gather] in Hg. destruct (decide ((tx, k) ∈ seen)) as [|Hns]; [done|].
  apply IH in Hg as [Hnd Hdis]. rewrite fmap_cons. split.
  - constructor; [|done]. intros Hin. apply (Hdis _ Hin). set_solver.
  - intros p [->|Hp]%elem_of_cons; [done|]. specialize (Hdis p Hp). set_solver.
Qed.

Lemma gather_store a reqs seen by_key : (gather a reqs seen by_key).1 = a.
Proof.
  revert seen by_key. induction reqs as [|[[tx k] x] reqs IH]; intros seen by_key; [done|].
  cbn [gather]. destruct (decide _); [done|]. apply IH.
Qed.

Lemma judge_batches_ok l a vs :
  ledger_ok a → Forall (λ p, NoDup p.2.*1 ∧ Forall (λ r, in_width 128 r.2) p.2) l →
  ledger_ok (judge_batches a vs l).1.
Proof.
  revert a vs. induction l as [|[k b] l IH]; intros a vs Hok Hl; [done|].
  apply Forall_cons in Hl as [[Hb1 Hb2] Hl]. cbn [judge_batches fst snd] in *.
  destruct (amount a k) as [y|e] eqn:Hy; cbn [mbind result_bind]; [|done].
  destruct (unpromised a k y _) as [av|e] eqn:Hav; [|done]. apply IH; [|done].
  eapply judge_batch_ok; try done. unfold available. by rewrite Hy.
Qed.

Lemma abstract_judge_ok a reqs :
  ledger_ok a → Forall (λ r, in_width 128 r.2) reqs → ledger_ok (judge_and_hold a reqs).1.
Proof.
  intros Hok Hreq. unfold judge_and_hold. pose proof (gather_store a reqs ∅ ∅) as Hs.
  destruct (gather a reqs ∅ ∅) as [a' [m|e]] eqn:Hg; cbn [fst] in Hs; subst a'; [|done].
  assert (Hg2 : (gather a reqs ∅ ∅).2 = Ok m) by (by rewrite Hg).
  apply gather_ok_NoDup in Hg2 as [Hnd Hdis].
  destruct (gather_spec a reqs ∅ ∅ Hnd Hdis) as (m' & Hg' & Hm). rewrite Hg in Hg'. injection Hg' as <-.
  apply judge_batches_ok; [done|]. apply Forall_forall. intros [k b] Hkb%elem_of_map_iter.
  rewrite Hm, lookup_empty in Hkb. destruct (decide _) as [|Hne]; [done|]. injection Hkb as <-.
  cbn [fst snd from_option id app]. split; [by apply NoDup_requests_on|]. apply Forall_forall.
  intros [tx x] Hx%elem_of_requests_on. rewrite Forall_forall in Hreq. by apply Hreq in Hx.
Qed.

End floor.

(** ** Theorems about every lawful store *)

Section lawful.
Context {S : Type} `{LedgerLaws S}.
Implicit Types (s : S) (a : AbstractStore).

Lemma ledger_ok_agree s a : agree s a → ledger_ok s ↔ ledger_ok a.
Proof. intros Ha. apply forall_proper. intros k. by apply cell_backed_agree. Qed.

(** A movement respects the floor. Applied, it moves exactly its credit and
    debit on its own cell, leaves every reservation covered, and a debit leaves
    untouched what reservations, fee holds and credits withheld from the mover
    stand on; refused, it changes nothing, and the refusal says which bound it
    met. *)
Theorem movement_respects_floor s a k tx credit debit :
  agree s a → ledger_ok s → in_width 128 credit → in_width 128 debit →
  movement_post s k tx credit debit (apply_movement s k tx credit debit).
Proof.
  intros Ha Hok Hc Hd. pose proof (proj1 (ledger_ok_agree s a Ha) Hok) as Hok'.
  pose proof (abstract_movement a k tx credit debit Hok' Hc Hd) as Hp.
  pose proof (sim_apply_movement s a k tx credit debit Ha) as [Hs Hr].
  unfold apply_movement in *. rewrite (sim_judge_movement s a) in * by done.
  destruct (judge_movement a k tx credit debit) as [after|e]; cbn [movement_post fst snd] in *.
  - destruct Hp as (x & P1 & P2 & P3 & P4 & P5 & P6 & P7). exists x.
    rewrite (sim_amount s a k Ha), (agree_holds s a Ha k), (agree_fee s a Ha k),
      (agree_withheld s a Ha k), (sim_amount _ _ k Hs). split_and!; try done.
    + intros k' Hk'. rewrite (agree_cell _ _ Hs), (agree_cell s a Ha). by apply P4.
    + intros k'. by rewrite (agree_holds _ _ Hs), (agree_holds s a Ha), P5.
  - destruct Hp as [_ Hp]. split; [done|].
    by rewrite (sim_amount s a k Ha), (agree_holds s a Ha k), (agree_fee s a Ha k),
      (agree_withheld s a Ha k).
Qed.

(** A promise can be kept. On a ledger that adds up, settling a held
    reservation always succeeds: it takes exactly the amount held from the cell,
    drops that hold and no other, and leaves every other cell alone. *)
Theorem held_reservation_settles s a k tx amt :
  agree s a → ledger_ok s → held_reservation s k tx = Some amt →
  ∃ x s', amount s k = Ok x ∧ settle s k tx = (s', Ok amt) ∧
    amount s' k = Ok (x - amt) ∧ holds s' k = delete tx (holds s k) ∧
    ∀ k', k' ≠ k → cell s' k' = cell s k' ∧ holds s' k' = holds s k'.
Proof.
  intros Ha Hok Hr. pose proof (proj1 (ledger_ok_agree s a Ha) Hok) as Hok'.
  rewrite (agree_reservation s a Ha) in Hr.
  destruct (abstract_settle a k tx amt Hok' Hr) as (x & Hx & Hle & Hset).
  destruct (sim_settle s a k tx Ha) as [Hs Hres]. rewrite Hset in Hs, Hres. cbn [fst snd] in Hs, Hres.
  destruct (settle s k tx) as [s' r]. cbn [fst snd] in *. subst r. exists x, s'.
  split; [by rewrite (sim_amount s a k Ha)|]. split; [done|].
  pose proof (amount_width a k x Hx) as [? ?].
  assert (0 ≤ amt) by (destruct (Hok' k) as [B1 _ _ _]; by destruct (B1 tx amt Hr)).
  split; [|split].
  - rewrite (sim_amount _ _ k Hs). apply amount_set_amount. unfold in_width. lia.
  - rewrite (agree_holds _ _ Hs), (agree_holds s a Ha).
    cbn [holds abstract_baseline set_amount set_hold abstract_ledger a_holds]. by rewrite upd_eq.
  - intros k' Hk'. rewrite (agree_holds _ _ Hs), (agree_holds s a Ha), (agree_cell _ _ Hs), (agree_cell s a Ha).
    cbn. by rewrite !upd_ne.
Qed.

(** The verdicts of a batch. On a ledger that adds up, a batch of distinct
    requests on amount cells is always judged; each cell's requests get the
    greedy verdicts of [judge] over what the cell has free; exactly the feasible
    ones are held; no cell changes; and the verdicts are the same for every
    order of the batch. *)
Theorem judge_and_hold_correct s a reqs reqs' :
  agree s a → ledger_ok s → requests_ok s reqs → reqs ≡ₚ reqs' →
  ∃ s' vs, judge_and_hold s reqs = (s', Ok vs) ∧ ledger_ok s' ∧
    batches_done s (λ k, requests_on k reqs) s' vs ∧
    (judge_and_hold s reqs').2 = Ok vs.
Proof.
  intros Ha Hok Hreq Hp. pose proof (proj1 (ledger_ok_agree s a Ha) Hok) as Hok'.
  assert (Hreq1 : requests_ok a reqs).
  { destruct Hreq as [Hnd Hf]. split; [done|]. eapply Forall_impl; [exact Hf|].
    intros r [? ?]. by rewrite <- (sim_amount s a). }
  assert (Hreq2 : requests_ok a reqs').
  { destruct Hreq1 as [Hnd Hf]. split; by rewrite <- Hp. }
  destruct (abstract_judge_and_hold a reqs Hok' Hreq1) as (a1 & vs1 & E1 & Hok1 & [D1 D2 D3]).
  destruct (abstract_judge_and_hold a reqs' Hok' Hreq2) as (a2 & vs2 & E2 & _ & [_ F2 _]).
  destruct (sim_judge_and_hold s a reqs Ha) as [Hs1 Hr1].
  destruct (sim_judge_and_hold s a reqs' Ha) as [_ Hr2].
  rewrite E1 in Hs1, Hr1. rewrite E2 in Hr2. cbn [fst snd] in *.
  destruct (judge_and_hold s reqs) as [s' r] eqn:E. cbn [fst snd] in *. subst r.
  exists s', vs1. split; [done|]. split; [by apply (ledger_ok_agree s' a1)|].
  assert (Hav : ∀ k, available s k = available a k).
  { intros k. unfold available. rewrite (sim_amount s a k Ha), (agree_withheld s a Ha).
    destruct (amount a k); [|done]. by apply sim_unpromised. }
  split.
  - split.
    + intros k. by rewrite (agree_cell _ _ Hs1), (agree_cell s a Ha), D1.
    + intros tx k. by rewrite D2, Hav.
    + intros tx k. by rewrite (agree_holds _ _ Hs1), (agree_holds s a Ha), D3.
  - rewrite Hr2. f_equal. apply map_eq. intros [tx k]. rewrite D2, F2.
    destruct (available a k) as [av|]; [|done]. unfold verdict_of. do 2 f_equal.
    apply judge_perm. unfold requests_on. by rewrite Hp.
Qed.

(** ** Committing queued deltas *)

Definition queue_ok (q : gmap SubstateKey (list DeltaOp)) : Prop := map_Forall (λ _ ops, Forall op_ok ops) q.

(** What a commit does, on both branches. *)
Definition commit_post s (out : S * result StoreError (list AppliedDelta)) : Prop :=
  match out with
  | (s', Ok applied) =>
      queued s' = ∅ ∧ applied_key <$> applied = (map_iter (queued s)).*1 ∧
      ∀ k, holds s' k = holds s k ∧
        match queued s !! k with
        | Some ops => ∃ x y, amount s k = Ok x ∧ fold_deltas x ops = Ok y ∧ amount s' k = Ok y
        | None => cell s' k = cell s k
        end
  | (s', Err e) =>
      s' = s ∧ ∃ k ops, queued s !! k = Some ops ∧
        (amount s k = Err e ∨
         ∃ x e', amount s k = Ok x ∧ fold_deltas x ops = Err e' ∧ e = StoreMode e')
  end.

Lemma fold_all_ok a l ds :
  fold_all a l = Ok ds →
  Forall2 (λ p d, applied_key d = p.1 ∧ ∃ x, amount a p.1 = Ok x ∧
                  fold_deltas x p.2 = Ok (applied_after d)) l ds.
Proof.
  revert ds. induction l as [|[k ops] l IH]; intros ds Hf; [injection Hf as <-; constructor|].
  cbn [fold_all] in Hf. apply result_bind_ok in Hf as (d & Hd & Hf).
  apply result_bind_ok in Hf as (ds' & Hds & Hf). injection Hf as <-. constructor; [|by apply IH].
  unfold fold_queued in Hd. cbn [fst snd] in *.
  apply result_bind_ok in Hd as (x & Hx & Hd). apply result_bind_ok in Hd as (y & Hy & Hd).
  injection Hd as <-. split; [done|]. exists x. split; [done|]. cbn [applied_after].
  by destruct (fold_deltas x ops); [injection Hy as <-|].
Qed.

Lemma fold_all_err a l e :
  fold_all a l = Err e → ∃ k ops, (k, ops) ∈ l ∧
    (amount a k = Err e ∨ ∃ x e', amount a k = Ok x ∧ fold_deltas x ops = Err e' ∧ e = StoreMode e').
Proof.
  induction l as [|[k ops] l IH]; intros Hf; [done|]. cbn [fold_all] in Hf.
  apply result_bind_err in Hf as [Hd|(d & Hd & Hf)].
  - exists k, ops. split; [constructor|]. unfold fold_queued in Hd. cbn [fst snd] in Hd.
    apply result_bind_err in Hd as [Hd|(x & Hx & Hd)]; [by left|right].
    apply result_bind_err in Hd as [Hd|(y & Hy & Hd)]; [|done].
    destruct (fold_deltas x ops) as [|e'] eqn:E; [done|]. injection Hd as <-. by exists x, e'.
  - apply result_bind_err in Hf as [Hf|(ds & Hds & Hf)]; [|done].
    destruct (IH Hf) as (k' & ops' & Hin & Hc). exists k', ops'. split; [by constructor|done].
Qed.

Lemma set_amounts_spec ds a :
  NoDup (applied_key <$> ds) →
  let a' := foldl (λ st d, set_amount st (applied_key d) (applied_after d)) a ds in
  a_holds a' = a_holds a ∧
  (∀ k, k ∉ applied_key <$> ds → a_cell a' k = a_cell a k) ∧
  (∀ d, d ∈ ds → in_width 128 (applied_after d) → amount a' (applied_key d) = Ok (applied_after d)).
Proof.
  revert a. induction ds as [|d ds IH]; intros a Hnd.
  { cbn [foldl]. split; [done|]. split; [done|]. by intros d ?%not_elem_of_nil. }
  rewrite fmap_cons in *. apply NoDup_cons in Hnd as [Hnin Hnd]. cbn [foldl].
  destruct (IH (set_amount a (applied_key d) (applied_after d)) Hnd) as (E1 & E2 & E3).
  set (a' := foldl _ _ ds) in *. cbv zeta. split; [by rewrite E1|]. split.
  - intros k [Hne Hk]%not_elem_of_cons. rewrite E2 by done. cbn. by rewrite upd_ne.
  - intros d' [->|Hin]%elem_of_cons Hw; [|by apply E3]. unfold amount.
    cbn [cell abstract_substates]. rewrite E2 by done.
    fold (cell (set_amount a (applied_key d) (applied_after d)) (applied_key d)).
    by apply amount_set_amount.
Qed.

Lemma set_amounts_promises ds a :
  let a' := foldl (λ st d, set_amount st (applied_key d) (applied_after d)) a ds in
  a_fee a' = a_fee a ∧ a_withheld a' = a_withheld a.
Proof.
  revert a. induction ds as [|d ds IH]; intros a; [done|]. cbn [foldl].
  destruct (IH (set_amount a (applied_key d) (applied_after d))) as [-> ->]. done.
Qed.

Lemma fold_deltas_width x ops y :
  in_width 128 x → Forall op_ok ops → fold_deltas x ops = Ok y → in_width 128 y.
Proof.
  intros Hx Hops. rewrite fold_deltas_folded by done. unfold folded.
  destruct (delta_totals_spec ops Hops) as (Hc & Hd & _). unfold in_width, width_max in *.
  repeat case_decide; try done. intros [= <-]. lia.
Qed.

Lemma abstract_commit a : queue_ok (a_queued a) →
  match commit_deltas a with
  | (a', Ok applied) =>
      a_queued a' = ∅ ∧ applied_key <$> applied = (map_iter (a_queued a)).*1 ∧
      ∀ k, a_holds a' k = a_holds a k ∧
        match a_queued a !! k with
        | Some ops => ∃ x y, amount a k = Ok x ∧ fold_deltas x ops = Ok y ∧ amount a' k = Ok y
        | None => a_cell a' k = a_cell a k
        end
  | (a', Err e) => ∃ k ops, a_queued a !! k = Some ops ∧
        (amount a k = Err e ∨
         ∃ x e', amount a k = Ok x ∧ fold_deltas x ops = Err e' ∧ e = StoreMode e')
  end.
Proof.
  intros Hq. unfold commit_deltas. cbn [queued abstract_ledger].
  destruct (fold_all a (map_iter (a_queued a))) as [ds|e] eqn:Hf.
  2: { apply fold_all_err in Hf as (k & ops & Hin%elem_of_map_iter & Hc). by exists k, ops. }
  apply fold_all_ok in Hf as HF.
  assert (Hkeys : applied_key <$> ds = (map_iter (a_queued a)).*1).
  { clear -HF. induction HF as [|p d l ds [E _] _ IH]; [done|]. rewrite !fmap_cons. by rewrite E, IH. }
  assert (Hnd : NoDup (applied_key <$> ds)) by (rewrite Hkeys; apply NoDup_map_iter).
  destruct (set_amounts_spec ds a Hnd) as (E1 & E2 & E3). set (a' := foldl _ _ ds) in *.
  split; [done|]. split; [done|]. intros k. split; [cbn; by rewrite E1|].
  destruct (a_queued a !! k) as [ops|] eqn:Hk.
  - assert (Hin : (k, ops) ∈ map_iter (a_queued a)) by (by apply elem_of_map_iter).
    apply list_elem_of_lookup in Hin as [i Hi].
    destruct (Forall2_lookup_l _ _ _ _ _ HF Hi) as (d & Hd & Hdk & x & Hx & Hy). cbn [fst snd] in *.
    exists x, (applied_after d). split; [done|]. split; [done|].
    assert (Hin : d ∈ ds) by (apply list_elem_of_lookup; by exists i).
    specialize (E3 d Hin). rewrite Hdk in E3. apply E3.
    eapply fold_deltas_width; [by eapply amount_width|by apply (Hq k)|done].
  - cbn. apply E2. rewrite Hkeys. intros ([k' ops] & -> & Hin%elem_of_map_iter)%list_elem_of_fmap.
    cbn [fst] in Hk. congruence.
Qed.

(** What the queue leaves covers what is held. *)
Definition queue_covered {S} `{AmountLedger S} (s : S) : Prop :=
  queue_ok (queued s) ∧
  ∀ k ops x y, queued s !! k = Some ops → amount s k = Ok x → fold_deltas x ops = Ok y →
    hold_sum (holds s k) ≤ y.

Lemma abstract_commit_ok a : ledger_ok a → queue_covered a → ledger_ok (commit_deltas a).1.
Proof.
  intros Hok [Hq Hc]. pose proof (abstract_commit a Hq) as Hp. revert Hp. unfold commit_deltas.
  destruct (fold_all a (map_iter (queued a))) as [ds|e]; [|done]. intros (_ & _ & Hp) k.
  destruct (set_amounts_promises ds a) as [E1 E2]. destruct (Hok k) as [B1 B2 B3 B4].
  destruct (Hp k) as [Hh Hk]. cbn [fst] in *. set (a' := clear_queued _) in *. split.
  - cbn [holds abstract_baseline]. by rewrite Hh.
  - subst a'. cbn [fee_holds abstract_baseline clear_queued abstract_ledger a_fee]. by rewrite E1.
  - subst a'. cbn [withheld_credits abstract_baseline clear_queued abstract_ledger a_withheld]. by rewrite E2.
  - cbn [holds abstract_baseline] in *. rewrite Hh. destruct (a_queued a !! k) as [ops|] eqn:Hl.
    + destruct Hk as (x & y & Hx & Hy & Hxy). right. exists y. split; [done|]. by eapply Hc.
    + destruct B4 as [B4|(x & Hx & Hle)]; [by left|right]. exists x. split; [|done].
      unfold amount in *. cbn [cell abstract_substates] in *. by rewrite Hk.
Qed.

(** An abstract store with another queue. *)
Definition with_queue a (q : gmap SubstateKey (list DeltaOp)) : AbstractStore :=
  {| a_cell := a_cell a; a_entries := a_entries a; a_holds := a_holds a; a_fee := a_fee a;
     a_withheld := a_withheld a; a_queued := q |}.

(** The operations of the ledger, refused or not, and a store queueing
    movements of its own. Two of them ask something of the caller: reducing a
    hold asks for a hold that stands, or for a cell that holds an amount, and
    committing the queue asks that what it leaves in a cell covers what is held
    there, which the fold itself does not check. *)
Inductive ledger_step : S → S → Prop :=
  | step_move s k tx credit debit :
      in_width 128 credit → in_width 128 debit →
      ledger_step s (apply_movement s k tx credit debit).1
  | step_judge s reqs :
      Forall (λ r, in_width 128 r.2) reqs → ledger_step s (judge_and_hold s reqs).1
  | step_settle s k tx : ledger_step s (settle s k tx).1
  | step_release s k tx : ledger_step s (release s k tx).1
  | step_reduce s k tx x :
      in_width 128 x → is_Some (held_reservation s k tx) ∨ is_ok (amount s k) = true →
      ledger_step s (reduce_hold s k tx x)
  | step_fee s k tx o :
      (∀ x, o = Some x → in_width 128 x) → ledger_step s (set_fee_hold s k tx o)
  | step_withhold s k tx x : in_width 128 x → ledger_step s (withhold_credit s k tx x)
  | step_note s t m : ledger_step s (note s t m)
  | step_queue s s' q : (∀ a, agree s a → agree s' (with_queue a q)) → ledger_step s s'
  | step_commit s : queue_covered s → ledger_step s (commit_deltas s).1.

Lemma set_fee_hold_ok a k tx o :
  ledger_ok a → (∀ x, o = Some x → in_width 128 x) → ledger_ok (set_fee_hold a k tx o).
Proof.
  intros Hok Ho k'. destruct (Hok k') as [B1 [B2 B2'] B3 B4]. split; [done| |done|exact B4].
  cbn [fee_holds abstract_baseline set_fee_hold abstract_ledger a_fee].
  destruct (decide (k = k')) as [<-|Hne]; [rewrite upd_eq|by rewrite upd_ne].
  split; [cbn [fee_members]|exact B2']. destruct o as [x|]; cbn [hold_change].
  - apply amounts_ok_insert; [by apply Ho|exact B2].
  - apply amounts_ok_delete, B2.
Qed.

Lemma withhold_credit_ok a k tx x :
  ledger_ok a → in_width 128 x → ledger_ok (withhold_credit a k tx x).
Proof.
  intros Hok Hx k'. destruct (Hok k') as [B1 B2 B3 B4]. split; [done|done| |exact B4].
  cbn [withheld_credits abstract_baseline withhold_credit abstract_ledger a_withheld].
  destruct (decide (k = k')) as [<-|Hne]; [rewrite upd_eq|by rewrite upd_ne].
  cbn [withheld_members]. by apply amounts_ok_insert.
Qed.

Lemma step_agree s s' a :
  ledger_step s s' → agree s a → ledger_ok a → ∃ a', agree s' a' ∧ ledger_ok a'.
Proof.
  intros Hstep Ha Hok. destruct Hstep.
  - exists (apply_movement a k tx credit debit).1.
    split; [by apply sim_apply_movement|by apply abstract_movement_ok].
  - exists (judge_and_hold a reqs).1. split; [by apply sim_judge_and_hold|by apply abstract_judge_ok].
  - exists (settle a k tx).1. split; [by apply sim_settle|by apply abstract_settle_ok].
  - exists (release a k tx).1. split; [by apply sim_release|by apply abstract_release_ok].
  - exists (reduce_hold a k tx x). split; [by apply sim_reduce_hold|].
    apply abstract_reduce_ok; [done..|].
    by rewrite <- (agree_reservation s a Ha), <- (sim_amount s a k Ha).
  - exists (set_fee_hold a k tx o). split; [by apply law_set_fee_hold|by apply set_fee_hold_ok].
  - exists (withhold_credit a k tx x). split; [by apply law_withhold|by apply withhold_credit_ok].
  - exists a. split; [exact (law_note s a t m Ha)|done].
  - exists (with_queue a q). split; [by auto|]. intros k. by destruct (Hok k) as [B1 B2 B3 B4].
  - exists (commit_deltas a).1. split; [by apply sim_commit_deltas|].
    apply abstract_commit_ok; [done|]. destruct H3 as [Hq Hc]. split; [by rewrite <- (agree_queued s a Ha)|].
    intros k ops x y. rewrite <- (agree_queued s a Ha), <- (sim_amount s a k Ha), <- (agree_holds s a Ha).
    apply Hc.
Qed.

(** C26: the ledger keeps adding up. Through any sequence of movements, batches of
    reservations, settlements, releases, reductions, fee holds, withheld credits,
    queued movements and commits of the queue, refused ones included, the
    reservations on every cell stay covered by what the cell holds; a reduction is
    of a standing hold or on a cell that holds an amount, and a commit is of a
    queue that leaves what is held covered. *)
Theorem floor_invariant s a s' :
  agree s a → ledger_ok s → rtc ledger_step s s' → ledger_ok s'.
Proof.
  intros Ha Hok Hsteps. apply (ledger_ok_agree s a Ha) in Hok. revert a Ha Hok.
  induction Hsteps as [s|s s1 s' Hstep _ IH]; intros a Ha Hok; [by apply (ledger_ok_agree s a)|].
  destruct (step_agree s s1 a Hstep Ha Hok) as (a1 & Ha1 & Hok1). by apply (IH a1).
Qed.

(** Committing the queue is atomic and complete. A refusal changes nothing
    and names a cell whose fold fails; a success folds every queued cell's
    operations onto what the cell held, touches no other cell and no hold, and
    leaves an empty queue. *)
Theorem commit_deltas_atomic s a :
  agree s a → queue_ok (queued s) → commit_post s (commit_deltas s).
Proof.
  intros Ha Hq. rewrite (agree_queued s a Ha) in Hq. pose proof (abstract_commit a Hq) as Hp.
  destruct (sim_commit_deltas s a Ha) as [Hs Hr]. unfold commit_post.
  destruct (commit_deltas a) as [a' ra], (commit_deltas s) as [s' rs] eqn:Hc. cbn [fst snd] in *.
  subst rs. rewrite (agree_queued s a Ha). cbn [queued abstract_ledger]. destruct ra as [ds|e].
  - destruct Hp as (P1 & P2 & P3). split; [rewrite (agree_queued _ _ Hs); exact P1|].
    split; [done|]. intros k. destruct (P3 k) as [Q1 Q2].
    rewrite (agree_holds _ _ Hs), (agree_holds s a Ha), (sim_amount _ _ k Hs), (sim_amount s a k Ha),
      (agree_cell _ _ Hs), (agree_cell s a Ha). split; [exact Q1|].
    destruct (a_queued a !! k); exact Q2.
  - split.
    + unfold commit_deltas in Hc. destruct (fold_all s _); [done|]. by injection Hc as <- _.
    + destruct Hp as (k & ops & P1 & P2). exists k, ops. split; [done|].
      by rewrite (sim_amount s a k Ha).
Qed.

End lawful.

(** ** The abstract store is lawful, and a concrete one *)

#[global] Instance abstract_laws : LedgerLaws AbstractStore.
Proof.
  split; intros s a; intros; destruct H as [A1 A2 A3 A4 A5 A6 A7]; cbn in *;
    (split; [try done..]); cbn; intros; unfold upd; rewrite ?A1, ?A3, ?A4, ?A5, ?A6, ?A7; try done.
Qed.

Lemma agree_refl (a : AbstractStore) : agree a a.
Proof. by split. Qed.

Definition vault : SubstateKey := {| owner := 258; local := 9 |}.

(** Sixty in a vault, fifty of it reserved by transaction 1, and a queued credit. *)
Definition sample_store : AbstractStore := {|
  a_cell := upd (λ _, None) vault (Some (encode_amount 60));
  a_entries := λ _ _, ∅;
  a_holds := upd (λ _, ∅) vault {[1 := 50]};
  a_fee := λ _, fee_default;
  a_withheld := λ _, withheld_default;
  a_queued := {[vault := [Add 5; Sub 3]]};
|}.

Lemma sample_ok : ledger_ok sample_store.
Proof.
  intros k. split.
  - cbn. unfold upd. destruct (decide (vault = k)); apply (bool_decide_unpack _); vm_compute; exact I.
  - split; [done|by vm_compute].
  - done.
  - cbn [holds abstract_baseline sample_store a_holds]. unfold upd.
    destruct (decide (vault = k)) as [<-|]; [right|by left]. exists 60.
    split; [vm_compute; reflexivity|]. vm_compute. discriminate.
Qed.

Lemma movement_respects_floor_witness :
  (apply_movement sample_store vault 9 5 15).2 = Ok 50 ∧
  movement_post sample_store vault 9 5 15 (apply_movement sample_store vault 9 5 15).
Proof.
  split; [vm_compute; reflexivity|]. apply (movement_respects_floor sample_store sample_store).
  - apply agree_refl.
  - apply sample_ok.
  - by vm_compute.
  - by vm_compute.
Defined.

Lemma held_reservation_settles_witness :
  ∃ x s', amount sample_store vault = Ok x ∧ settle sample_store vault 1 = (s', Ok 50) ∧
    amount s' vault = Ok (x - 50) ∧ holds s' vault = delete 1 (holds sample_store vault) ∧
    ∀ k', k' ≠ vault → cell s' k' = cell sample_store k' ∧ holds s' k' = holds sample_store k'.
Proof.
  apply (held_reservation_settles sample_store sample_store vault 1 50).
  - apply agree_refl.
  - apply sample_ok.
  - vm_compute. reflexivity.
Defined.

Lemma judge_and_hold_correct_witness :
  ∃ s' vs, judge_and_hold sample_store [(3, vault, 8); (2, vault, 4)] = (s', Ok vs) ∧ ledger_ok s' ∧
    batches_done sample_store (λ k, requests_on k [(3, vault, 8); (2, vault, 4)]) s' vs ∧
    (judge_and_hold sample_store [(2, vault, 4); (3, vault, 8)]).2 = Ok vs.
Proof.
  apply (judge_and_hold_correct sample_store sample_store).
  - apply agree_refl.
  - apply sample_ok.
  - split; apply (bool_decide_unpack _); vm_compute; exact I.
  - apply perm_swap.
Defined.

Lemma floor_invariant_witness :
  let s := (commit_deltas (settle sample_store vault 1).1).1 in
  amount s vault = Ok 12 ∧ ledger_ok s.
Proof.
  intros s. split; [vm_compute; reflexivity|].
  apply (floor_invariant sample_store sample_store).
  - apply agree_refl.
  - apply sample_ok.
  - eapply rtc_l; [apply (step_settle sample_store vault 1)|]. apply rtc_once. apply step_commit.
    split; [apply (bool_decide_unpack _); vm_compute; exact I|]. intros k ops x y Hk.
    change (({[vault := [Add 5; Sub 3]]} : gmap SubstateKey (list DeltaOp)) !! k = Some ops) in Hk.
    assert (k = vault) as ->.
    { destruct (decide (k = vault)) as [|Hne]; [done|]. by rewrite lookup_singleton_ne in Hk. }
    rewrite lookup_singleton_eq in Hk. injection Hk as <-. intros Hx. vm_compute in Hx. injection Hx as <-.
    intros Hy. vm_compute in Hy. injection Hy as <-. vm_compute. discriminate.
Defined.

Lemma commit_deltas_atomic_witness :
  is_ok (commit_deltas sample_store).2 = true ∧ commit_post sample_store (commit_deltas sample_store).
Proof.
  split; [vm_compute; reflexivity|]. apply (commit_deltas_atomic sample_store sample_store).
  - apply agree_refl.
  - apply (bool_decide_unpack _). vm_compute. exact I.
Defined.
