(* ===== verification/Store.v ===== *)
(** * The plain store ([MemoryStore] of [crates/kernel/src/store.rs])

    Cells and ordered-collection entries with the reservations, fee holds,
    withheld credits and queued deltas standing over them, each a map. The store
    presents the view of [memory_abs] and keeps the ledger's laws, so every
    theorem of the ledger holds of it. *)

From S2P Require Import Prelude Types Effects Conflict Modes Ledger.

(** ** Data and operations *)

Abbreviation EntryMap := (gmap (Address * CollectionId) (gmap Z bytes)).

Record MemoryStore := {
  cells : gmap SubstateKey bytes;
  entries : EntryMap;
  pending_deltas : gmap SubstateKey (list DeltaOp);
  held : gmap SubstateKey (gmap TxHash Z);
  fee_held : gmap SubstateKey FeeHolds;
  withheld : gmap SubstateKey WithheldCredits;
}.

Definition memory_new : MemoryStore := {|
  cells := ∅; entries := ∅; pending_deltas := ∅; held := ∅; fee_held := ∅; withheld := ∅ |}.

Definition memory_cell (m : MemoryStore) (key : SubstateKey) : option bytes := cells m !! key.

Definition memory_entries_in_range (m : MemoryStore) (o : Address) (c : CollectionId) (lo hi limit : Z) :
    list (Z * bytes) :=
  if decide (hi < lo) then [] else
  match entries m !! (o, c) with
  | Some es => takeZ limit (range_list lo hi es)
  | None => []
  end.

Definition memory_held_reservation (m : MemoryStore) (key : SubstateKey) (tx : TxHash) : option Z :=
  hs ← held m !! key; hs !! tx.

Definition memory_set_cells (m : MemoryStore) cs : MemoryStore :=
  {| cells := cs; entries := entries m; pending_deltas := pending_deltas m; held := held m;
     fee_held := fee_held m; withheld := withheld m |}.
Definition memory_set_entries (m : MemoryStore) es : MemoryStore :=
  {| cells := cells m; entries := es; pending_deltas := pending_deltas m; held := held m;
     fee_held := fee_held m; withheld := withheld m |}.
Definition memory_set_pending (m : MemoryStore) ps : MemoryStore :=
  {| cells := cells m; entries := entries m; pending_deltas := ps; held := held m;
     fee_held := fee_held m; withheld := withheld m |}.
Definition memory_set_held (m : MemoryStore) hs : MemoryStore :=
  {| cells := cells m; entries := entries m; pending_deltas := pending_deltas m; held := hs;
     fee_held := fee_held m; withheld := withheld m |}.
Definition memory_set_fees (m : MemoryStore) fs : MemoryStore :=
  {| cells := cells m; entries := entries m; pending_deltas := pending_deltas m; held := held m;
     fee_held := fs; withheld := withheld m |}.
Definition memory_set_withheld (m : MemoryStore) ws : MemoryStore :=
  {| cells := cells m; entries := entries m; pending_deltas := pending_deltas m; held := held m;
     fee_held := fee_held m; withheld := ws |}.

Definition memory_set_amount (m : MemoryStore) (key : SubstateKey) (amt : Z) : MemoryStore :=
  memory_set_cells m (match amount_bytes amt with
                      | Some c => <[key := c]> (cells m)
                      | None => delete key (cells m)
                      end).

Definition memory_set_hold (m : MemoryStore) (key : SubstateKey) (tx : TxHash) (amt : option Z) :
    MemoryStore :=
  match amt with
  | Some x => memory_set_held m (<[key := <[tx := x]> (default ∅ (held m !! key))]> (held m))
  | None =>
      match held m !! key with
      | Some hs => memory_set_held m (<[key := delete tx hs]> (held m))
      | None => m
      end
  end.

Definition memory_set_fee_hold (m : MemoryStore) (key : SubstateKey) (tx : TxHash) (amt : option Z) :
    MemoryStore :=
  match amt with
  | Some x =>
      let f := default fee_default (fee_held m !! key) in
      memory_set_fees m (<[key := {| fee_members := <[tx := x]> (fee_members f);
                                     fee_rest := fee_rest f |}]> (fee_held m))
  | None =>
      match fee_held m !! key with
      | Some f => memory_set_fees m (<[key := {| fee_members := delete tx (fee_members f);
                                                 fee_rest := fee_rest f |}]> (fee_held m))
      | None => m
      end
  end.

Definition memory_withhold_credit (m : MemoryStore) (key : SubstateKey) (tx : TxHash) (amt : Z) :
    MemoryStore :=
  let w := default withheld_default (withheld m !! key) in
  memory_set_withheld m
    (<[key := {| withheld_members := <[tx := amt]> (withheld_members w) |}]> (withheld m)).

Definition memory_write (m : MemoryStore) (key : SubstateKey) (value : bytes) : MemoryStore :=
  memory_set_cells m (<[key := value]> (cells m)).

Definition memory_entry_write (m : MemoryStore) (o : Address) (c : CollectionId) (order : Z)
    (value : bytes) : MemoryStore :=
  memory_set_entries m
    (<[(o, c) := <[order := value]> (default ∅ (entries m !! (o, c)))]> (entries m)).

Definition memory_hold_fees (m : MemoryStore) (key : SubstateKey) (fees : FeeHolds) : MemoryStore :=
  memory_set_fees m (<[key := fees]> (fee_held m)).

#[global] Instance EntryCollection_ord : OrdKey (Address * CollectionId).
Proof. refine {| ord_key p := [p.1; p.2] |}. intros [] [] [=]. by subst. Defined.

Definition memory_collection_entries (m : MemoryStore) : list (EntryKey * bytes) :=
  map_iter (entries m) ≫= λ p,
    (λ e, ({| entry_owner := p.1.1; entry_collection := p.1.2; entry_order := e.1 |}, e.2)) <$> map_iter p.2.

#[global] Instance memory_substates : Substates MemoryStore := {|
  cell := memory_cell;
  entries_in_range := memory_entries_in_range;
|}.
#[global] Instance memory_baseline : Baseline MemoryStore := {|
  holds m key := default ∅ (held m !! key);
  fee_holds m key := default fee_default (fee_held m !! key);
  withheld_credits m key := default withheld_default (withheld m !! key);
  held_reservation := memory_held_reservation;
|}.
#[global] Instance memory_ledger : AmountLedger MemoryStore := {|
  set_amount := memory_set_amount;
  set_hold := memory_set_hold;
  set_fee_hold := memory_set_fee_hold;
  withhold_credit := memory_withhold_credit;
  note m _ _ := m;
  queued := pending_deltas;
  clear_queued m := memory_set_pending m ∅;
|}.

(** [multiply_held_ids] of [oracle.rs]: the ids more than one holding carries. *)
Definition multiply_held_ids {St} `{Substates St} (s : St) (holdings : list (Address * CollectionId)) :
    list Z :=
  let scan h := entries_in_range s h.1 h.2 0 u128_max u64_max in
  let count holders (e : Z * bytes) := <[e.1 := S (default O (holders !! e.1))]> holders in
  let holders : gmap Z nat := foldl count ∅ (holdings ≫= scan) in
  (filter (λ p : Z * nat, (1 < p.2)%nat) (map_iter holders)).*1.

(** ** The view *)

Definition memory_abs (m : MemoryStore) : AbstractStore := {|
  a_cell key := cells m !! key;
  a_entries o c := default ∅ (entries m !! (o, c));
  a_holds key := default ∅ (held m !! key);
  a_fee key := default fee_default (fee_held m !! key);
  a_withheld key := default withheld_default (withheld m !! key);
  a_queued := pending_deltas m;
|}.

Lemma takeZ_nil {A} n : takeZ n (@nil A) = [].
Proof. unfold takeZ. case_decide; [done|]. apply take_nil. Qed.

Lemma range_list_inverted {A} lo hi (m : gmap Z A) : hi < lo → range_list lo hi m = [].
Proof.
  intros Hlt. unfold range_list. induction (map_iter m) as [|p l IH]; [done|].
  rewrite filter_cons_False by lia. done.
Qed.

Lemma range_list_empty {A} lo hi : range_list lo hi (∅ : gmap Z A) = [].
Proof. done. Qed.

Lemma memory_agree m : agree m (memory_abs m).
Proof.
  split; try done.
  - intros o c lo hi limit Hl. cbn. unfold memory_entries_in_range.
    destruct (decide (hi < lo)); [by rewrite range_list_inverted, takeZ_nil by done|].
    destruct (entries m !! (o, c)); [done|]. cbn [from_option id].
    by rewrite range_list_empty, takeZ_nil.
  - intros k tx. cbn. unfold memory_held_reservation. by destruct (held m !! k).
Qed.

(** An agreement is with [memory_abs] up to the view. *)
Lemma agree_view {S} `{AmountLedger S} (s : S) a a' :
  agree s a → agree a a' → agree s a'.
Proof.
  intros [A1 A2 A3 A4 A5 A6 A7] [B1 B2 B3 B4 B5 B6 B7]. split; intros;
    [rewrite A1, B1|rewrite A2, B2|rewrite A3, B3|rewrite A4, B4|rewrite A5, B5|rewrite A6, B6
    |rewrite A7, B7]; done.
Qed.

Lemma agree_view_sym {S} `{AmountLedger S} (s : S) a a' : agree s a → agree s a' → agree a a'.
Proof.
  intros [A1 A2 A3 A4 A5 A6 A7] [B1 B2 B3 B4 B5 B6 B7].
  split; intros; [rewrite <- A1, B1|rewrite <- A2, B2|rewrite <- A3, B3|rewrite <- A4, B4
    |rewrite <- A5, B5|rewrite <- A6, B6|rewrite <- A7, B7]; done.
Qed.

Ltac memory_fields := split; try done; intros; cbn; unfold upd, memory_held_reservation.

Lemma memory_set_amount_abs m k x : agree (memory_abs (memory_set_amount m k x)) (set_amount (memory_abs m) k x).
Proof.
  memory_fields. unfold memory_set_amount, amount_bytes. destruct (amount_cell x); cbn.
  - destruct (decide (k = k0)) as [<-|]; [by rewrite lookup_insert_eq|by rewrite lookup_insert_ne].
  - destruct (decide (k = k0)) as [<-|]; [by rewrite lookup_delete_eq|by rewrite lookup_delete_ne].
Qed.

Lemma memory_set_hold_lookup m k tx o k' :
  default ∅ (held (memory_set_hold m k tx o) !! k')
    = if decide (k = k') then hold_change (default ∅ (held m !! k)) tx o else default ∅ (held m !! k').
Proof.
  unfold memory_set_hold. destruct o as [x|]; [|destruct (held m !! k) as [hs|] eqn:E]; cbn.
  - destruct (decide (k = k')) as [<-|]; [by rewrite lookup_insert_eq|by rewrite lookup_insert_ne].
  - destruct (decide (k = k')) as [<-|]; [by rewrite lookup_insert_eq|by rewrite lookup_insert_ne].
  - destruct (decide (k = k')) as [<-|]; [rewrite E; cbn; by rewrite delete_empty|done].
Qed.

Lemma memory_set_hold_abs m k tx o : agree (memory_abs (memory_set_hold m k tx o)) (set_hold (memory_abs m) k tx o).
Proof.
  assert (E : cells (memory_set_hold m k tx o) = cells m ∧ entries (memory_set_hold m k tx o) = entries m ∧
    fee_held (memory_set_hold m k tx o) = fee_held m ∧ withheld (memory_set_hold m k tx o) = withheld m ∧
    pending_deltas (memory_set_hold m k tx o) = pending_deltas m)
    by (unfold memory_set_hold; destruct o; [done|by destruct (held m !! k)]).
  destruct E as (E1 & E2 & E3 & E4 & E5). split; intros; cbn; rewrite ?E1, ?E2, ?E3, ?E4, ?E5; try done.
  - rewrite memory_set_hold_lookup. unfold upd. done.
  - rewrite memory_set_hold_lookup. unfold upd. done.
Qed.

Lemma memory_set_fee_lookup m k tx o k' :
  default fee_default (fee_held (memory_set_fee_hold m k tx o) !! k')
    = if decide (k = k')
      then {| fee_members := hold_change (fee_members (default fee_default (fee_held m !! k))) tx o;
              fee_rest := fee_rest (default fee_default (fee_held m !! k)) |}
      else default fee_default (fee_held m !! k').
Proof.
  unfold memory_set_fee_hold. destruct o as [x|]; [|destruct (fee_held m !! k) as [f|] eqn:E]; cbn.
  - destruct (decide (k = k')) as [<-|]; [by rewrite lookup_insert_eq|by rewrite lookup_insert_ne].
  - destruct (decide (k = k')) as [<-|]; [by rewrite lookup_insert_eq|by rewrite lookup_insert_ne].
  - destruct (decide (k = k')) as [<-|]; [rewrite E; cbn; by rewrite delete_empty|done].
Qed.

Lemma memory_set_fee_abs m k tx o :
  agree (memory_abs (memory_set_fee_hold m k tx o)) (set_fee_hold (memory_abs m) k tx o).
Proof.
  assert (E : cells (memory_set_fee_hold m k tx o) = cells m ∧ entries (memory_set_fee_hold m k tx o) = entries m ∧
    held (memory_set_fee_hold m k tx o) = held m ∧ withheld (memory_set_fee_hold m k tx o) = withheld m ∧
    pending_deltas (memory_set_fee_hold m k tx o) = pending_deltas m)
    by (unfold memory_set_fee_hold; destruct o; [done|by destruct (fee_held m !! k)]).
  destruct E as (E1 & E2 & E3 & E4 & E5). split; intros; cbn; rewrite ?E1, ?E2, ?E3, ?E4, ?E5; try done.
  rewrite memory_set_fee_lookup. unfold upd. done.
Qed.

Lemma memory_withhold_abs m k tx x :
  agree (memory_abs (memory_withhold_credit m k tx x)) (withhold_credit (memory_abs m) k tx x).
Proof.
  memory_fields. destruct (decide (k = k0)) as [<-|]; [by rewrite lookup_insert_eq|by rewrite lookup_insert_ne].
Qed.

#[global] Instance memory_laws : LedgerLaws MemoryStore.
Proof.
  assert (Hview : ∀ (m : MemoryStore) a, agree m a → agree (memory_abs m) a)
    by (intros m a Ha; eapply agree_view_sym; [apply memory_agree|done]).
  assert (Hlift : ∀ (m : MemoryStore) a' v, agree (memory_abs m) v → agree v a' → agree m a')
    by (intros; eapply agree_view; [apply memory_agree|by eapply agree_view]).
  split; intros m a; intros.
  - eapply Hlift; [apply memory_set_amount_abs|]. apply law_set_amount. auto.
  - eapply Hlift; [apply memory_set_hold_abs|]. apply law_set_hold. auto.
  - eapply Hlift; [apply memory_set_fee_abs|]. apply law_set_fee_hold. auto.
  - eapply Hlift; [apply memory_withhold_abs|]. apply law_withhold. auto.
  - done.
  - eapply Hlift; [|apply law_clear, Hview; eassumption]. by split.
Qed.

(** ** Ids held twice *)

Lemma range_list_all {A} lo hi (m : gmap Z A) :
  (∀ k, is_Some (m !! k) → lo ≤ k ≤ hi) → range_list lo hi m = map_iter m.
Proof.
  intros Hm. unfold range_list. apply list_filter_all. apply Forall_forall.
  intros [k v] Hk%elem_of_map_iter. apply Hm. by exists v.
Qed.

Lemma takeZ_all {A} n (l : list A) : Z.of_nat (length l) ≤ n → takeZ n l = l.
Proof. intros. unfold takeZ. by rewrite decide_True. Qed.

Lemma filter_key_map_iter {A} (m : gmap Z A) id :
  length (filter (λ e : Z * A, e.1 = id) (map_iter m)) = if decide (is_Some (m !! id)) then 1%nat else 0%nat.
Proof.
  pose proof (NoDup_map_iter m) as Hnd. destruct (decide (is_Some (m !! id))) as [[v Hv]|Hn].
  - apply elem_of_map_iter in Hv. induction (map_iter m) as [|[k w] l IH]; [by apply not_elem_of_nil in Hv|].
    rewrite fmap_cons in Hnd. apply NoDup_cons in Hnd as [Hnin Hnd]. cbn [fst] in *.
    apply elem_of_cons in Hv as [[= <- <-]|Hv].
    + rewrite filter_cons_True by done. cbn [length]. f_equal.
      assert (filter (λ e : Z * A, e.1 = id) l = []) as ->; [|done].
      apply list_filter_nil. apply Forall_forall. intros e He E. apply Hnin, list_elem_of_fmap. by exists e.
    + rewrite filter_cons_False; [by apply IH|]. cbn. intros ->. apply Hnin, list_elem_of_fmap. by exists (id, v).
  - assert (filter (λ e : Z * A, e.1 = id) (map_iter m) = []) as ->; [|done].
    apply list_filter_nil. apply Forall_forall. intros [k v] Hk%elem_of_map_iter E. cbn in E. subst.
    apply Hn. by exists v.
Qed.

Definition count_holder (holders : gmap Z nat) (e : Z * bytes) : gmap Z nat :=
  <[e.1 := S (default O (holders !! e.1))]> holders.

Lemma count_holders_spec l (m : gmap Z nat) id :
  default O (foldl count_holder m l !! id)
    = (default O (m !! id) + length (filter (λ e : Z * bytes, e.1 = id) l))%nat.
Proof.
  revert m. induction l as [|e l IH]; intros m; cbn [foldl]; [cbn; lia|]. rewrite IH.
  unfold count_holder. destruct (decide (e.1 = id)) as [<-|Hne].
  - rewrite lookup_insert_eq, filter_cons_True by done. cbn. lia.
  - by rewrite lookup_insert_ne, filter_cons_False.
Qed.

(** [multiply_held_ids] names exactly the ids that more than one of the
    listed holdings carries. *)
Theorem multiply_held_ids_exact m holdings nft :
  (∀ h, h ∈ holdings → let es := a_entries (memory_abs m) h.1 h.2 in
     Z.of_nat (size es) ≤ u64_max ∧ ∀ order, is_Some (es !! order) → in_width 128 order) →
  nft ∈ multiply_held_ids m holdings ↔
    (1 < length (filter (λ h, is_Some (a_entries (memory_abs m) h.1 h.2 !! nft)) holdings))%nat.
Proof.
  intros Hh. unfold multiply_held_ids. cbv zeta. rewrite list_elem_of_fmap.
  set (l := holdings ≫= _).
  assert (Hcount : length (filter (λ e : Z * bytes, e.1 = nft) l)
    = length (filter (λ h, is_Some (a_entries (memory_abs m) h.1 h.2 !! nft)) holdings)).
  { subst l. induction holdings as [|h hs IH]; [done|]. cbn [mbind list_bind].
    rewrite filter_app, length_app, IH by (intros; apply Hh; by constructor).
    destruct (Hh h) as [Hsz Hw]; [constructor|].
    rewrite (agree_entries m (memory_abs m) (memory_agree m)) by (unfold width_max; lia).
    cbn [entries_in_range abstract_substates]. rewrite range_list_all.
    2: { intros k Hk. destruct (Hw k Hk). unfold width_max. lia. }
    rewrite takeZ_all by (by rewrite length_map_iter). rewrite filter_key_map_iter, filter_cons.
    case_decide; done. }
  rewrite <- Hcount. pose proof (count_holders_spec l ∅ nft) as Hc. unfold count_holder in Hc.
  rewrite lookup_empty in Hc. cbn [from_option id] in Hc. rewrite Nat.add_0_l in Hc. rewrite <- Hc.
  set (holders := foldl _ _ l). split.
  - intros ([k n] & -> & [Hn Hk]%list_elem_of_filter). apply elem_of_map_iter in Hk. cbn [fst snd] in *.
    rewrite Hk. done.
  - intros Hn. destruct (holders !! nft) as [n|] eqn:E; cbn [from_option] in Hn; [|lia].
    exists (nft, n). split; [done|]. apply list_elem_of_filter. split; [done|]. by apply elem_of_map_iter.
Qed.

(** ** Witnesses *)

Definition two_holdings : MemoryStore :=
  memory_entry_write (memory_entry_write memory_new 258 1 7 [x01]) 514 1 7 [x01].

Definition sample_holdings : list (Address * CollectionId) := [(258, 1); (514, 1)].

Lemma multiply_held_ids_exact_witness :
  multiply_held_ids two_holdings sample_holdings = [7] ∧
  (7 ∈ multiply_held_ids two_holdings sample_holdings ↔
    (1 < length (filter (λ h, is_Some (a_entries (memory_abs two_holdings) h.1 h.2 !! 7%Z))
                        sample_holdings))%nat).
Proof.
  split; [vm_compute; reflexivity|]. apply multiply_held_ids_exact. intros h Hh.
  assert (a_entries (memory_abs two_holdings) h.1 h.2 = {[7 := [x01]]}) as ->.
  { apply elem_of_cons in Hh as [->|Hh]; [vm_compute; reflexivity|].
    apply list_elem_of_singleton in Hh as ->. vm_compute. reflexivity. }
  split; [by vm_compute|]. intros order [v Hv]. apply lookup_singleton_Some in Hv as [<- _].
  unfold in_width. lia.
Defined.
