(* ===== verification/Overlay.v ===== *)
(** * The overlay store ([crates/kernel/src/overlay.rs])

    An immutable base under two layers of changes: [committed], what earlier
    transactions of the group threaded, and [active], the running transaction's.
    A layer records removals as tombstones. The theorems relate the layered
    store to the plain one it stands for: every lookup falls through to the
    right layer, a scan merges the three ordered sources without missing an
    entry at its limit, merging and discarding the active layer do what commit
    and rollback must, and collapsing the layers gives the plain store on which
    every ledger operation answers the same. *)

From S2P Require Import Prelude Types Effects Conflict Modes Ledger Store.

(** ** Data *)

Abbreviation EntryChanges := (gmap Z (option bytes)).

Record Layer := {
  l_cells : gmap SubstateKey (option bytes);
  l_entries : gmap (Address * CollectionId) EntryChanges;
  l_pending : gmap SubstateKey (list DeltaOp);
  l_held : gmap SubstateKey (gmap TxHash (option Z));
  l_fee_held : gmap SubstateKey (gmap TxHash (option Z));
  l_withheld : gmap SubstateKey (gmap TxHash Z);
}.
Definition layer_default : Layer := {|
  l_cells := ∅; l_entries := ∅; l_pending := ∅; l_held := ∅; l_fee_held := ∅; l_withheld := ∅ |}.

Record OverlayStore (B : Type) := {
  base : B;
  committed : Layer;
  active : Layer;
  log : list Access;
}.
Arguments base {B} _.
Arguments committed {B} _.
Arguments active {B} _.
Arguments log {B} _.

(** ** Maps of changes *)

(** [for (key, change) in changes]: insert or remove. *)
Definition apply_change {K A} `{Countable K} (m : gmap K A) (p : K * option A) : gmap K A :=
  match p.2 with Some v => <[p.1 := v]> m | None => delete p.1 m end.
Definition apply_hold_changes {K A} `{Countable K, OrdKey K} (m : gmap K A) (changes : gmap K (option A)) :
    gmap K A :=
  foldl apply_change m (map_iter changes).

(** [for (key, value) in source]: [entry(key).or_default()] extended by [f]. *)
Definition extend_entries {K A B} `{Countable K, OrdKey K} (f : option B → A → B) (m : gmap K B)
    (source : gmap K A) : gmap K B :=
  foldl (λ m p, <[p.1 := f (m !! p.1) p.2]> m) m (map_iter source).

(** [BTreeMap::extend] and [Vec::extend] into an entry that may be absent. *)
Definition extend_map {K A} `{Countable K} (old : option (gmap K A)) (new : gmap K A) : gmap K A :=
  new ∪ default ∅ old.
Definition extend_list {A} (old : option (list A)) (new : list A) : list A := default [] old ++ new.

Definition layer_changes (l : Layer) (o : Address) (c : CollectionId) : EntryChanges :=
  default ∅ (l_entries l !! (o, c)).
Definition layer_range (l : Layer) (o : Address) (c : CollectionId) (lo hi : Z) :
    list (Z * option bytes) :=
  range_list lo hi (layer_changes l o c).

Definition set_l_cells (l : Layer) x : Layer := {|
  l_cells := x; l_entries := l_entries l; l_pending := l_pending l; l_held := l_held l;
  l_fee_held := l_fee_held l; l_withheld := l_withheld l |}.
Definition set_l_entries (l : Layer) x : Layer := {|
  l_cells := l_cells l; l_entries := x; l_pending := l_pending l; l_held := l_held l;
  l_fee_held := l_fee_held l; l_withheld := l_withheld l |}.
Definition set_l_pending (l : Layer) x : Layer := {|
  l_cells := l_cells l; l_entries := l_entries l; l_pending := x; l_held := l_held l;
  l_fee_held := l_fee_held l; l_withheld := l_withheld l |}.
Definition set_l_held (l : Layer) x : Layer := {|
  l_cells := l_cells l; l_entries := l_entries l; l_pending := l_pending l; l_held := x;
  l_fee_held := l_fee_held l; l_withheld := l_withheld l |}.
Definition set_l_fee_held (l : Layer) x : Layer := {|
  l_cells := l_cells l; l_entries := l_entries l; l_pending := l_pending l; l_held := l_held l;
  l_fee_held := x; l_withheld := l_withheld l |}.
Definition set_l_withheld (l : Layer) x : Layer := {|
  l_cells := l_cells l; l_entries := l_entries l; l_pending := l_pending l; l_held := l_held l;
  l_fee_held := l_fee_held l; l_withheld := x |}.

(** [self.<map>.entry(key).or_default().insert(tx, x)]. *)
Definition nested_insert {K T A} `{Countable K, Countable T} (m : gmap K (gmap T A)) (k : K) (t : T) (x : A) :
    gmap K (gmap T A) :=
  <[k := <[t := x]> (default ∅ (m !! k))]> m.

(** ** The three-way merge of a scan *)

Definition peek {A} (l : list (Z * A)) : option Z := fst <$> head l.
Definition opt_min (a b : option Z) : option Z :=
  match a, b with
  | Some x, Some y => Some (Z.min x y)
  | Some x, None | None, Some x => Some x
  | None, None => None
  end.
(** [Peekable::next_if] on the key. *)
Definition next_if {A} (order : Z) (l : list (Z * A)) : option A * list (Z * A) :=
  match l with
  | (k, v) :: rest => if decide (k = order) then (Some v, rest) else (None, l)
  | [] => (None, [])
  end.

(** [while hits.len() < limit]; every round consumes an entry, so the number of
    entries bounds the rounds. *)
Fixpoint merge_loop (rounds : nat) (limit : Z) (hits : list (Z * bytes))
    (act com : list (Z * option bytes)) (bas : list (Z * bytes)) : list (Z * bytes) :=
  match rounds with
  | O => hits
  | S n =>
      if decide (Z.of_nat (length hits) < limit) then
        match opt_min (peek act) (opt_min (peek com) (peek bas)) with
        | None => hits
        | Some order =>
            let '(active_hit, act) := next_if order act in
            let '(committed_hit, com) := next_if order com in
            let '(base_hit, bas) := next_if order bas in
            let change := match active_hit with Some c => Some c | None => committed_hit end in
            match default base_hit change with
            | Some value => merge_loop n limit (hits ++ [(order, value)]) act com bas
            | None => merge_loop n limit hits act com bas
            end
        end
      else hits
  end.

Definition is_tombstone (p : Z * option bytes) : Prop := p.2 = None.
#[global] Instance is_tombstone_dec p : Decision (is_tombstone p).
Proof. unfold is_tombstone. apply _. Defined.

(** [for (key, changes) in map { for (inner, change) in changes { ... } }]. *)
Definition nested_fold {M K T A} `{Countable K, OrdKey K, Countable T, OrdKey T}
    (op : M → K → T → A → M) (store : M) (m : gmap K (gmap T A)) : M :=
  foldl (λ st p, foldl (λ st e, op st p.1 e.1 e.2) st (map_iter p.2)) store (map_iter m).

(** One entry change collapsed onto a plain store. *)
Definition collapse_entry (st : MemoryStore) (collection : Address * CollectionId) (order : Z)
    (change : option bytes) : MemoryStore :=
  match change with
  | Some value => memory_entry_write st collection.1 collection.2 order value
  | None =>
      match entries st !! collection with
      | Some existing => memory_set_entries st (<[collection := delete order existing]> (entries st))
      | None => st
      end
  end.

(** ** Operations *)

Section overlay.
Context {B : Type} `{Baseline B}.
Implicit Types (o : OverlayStore B).

Definition overlay_new (b : B) : OverlayStore B :=
  {| base := b; committed := layer_default; active := layer_default; log := [] |}.

Definition set_active o (l : Layer) : OverlayStore B :=
  {| base := base o; committed := committed o; active := l; log := log o |}.
Definition set_committed o (l : Layer) : OverlayStore B :=
  {| base := base o; committed := l; active := active o; log := log o |}.
Definition clear_log o : OverlayStore B :=
  {| base := base o; committed := committed o; active := active o; log := [] |}.
Definition record o (t : EffectTarget) (m : ModeKind) : OverlayStore B :=
  {| base := base o; committed := committed o; active := active o;
     log := log o ++ [{| access_target := t; access_kind := m |}] |}.

Definition pre_active_cell o (key : SubstateKey) : option bytes :=
  match l_cells (committed o) !! key with
  | Some change => change
  | None => cell (base o) key
  end.
Definition cell_value o (key : SubstateKey) : option bytes :=
  match l_cells (active o) !! key with
  | Some change => change
  | None =>
      match l_cells (committed o) !! key with
      | Some change => change
      | None => cell (base o) key
      end
  end.

Definition pre_active_entry o (ow : Address) (c : CollectionId) (order : Z) : option bytes :=
  match l_entries (committed o) !! (ow, c) ≫= (.!! order) with
  | Some change => change
  | None => snd <$> head (entries_in_range (base o) ow c order order 1)
  end.
Definition entry_value o (ow : Address) (c : CollectionId) (order : Z) : option bytes :=
  match l_entries (active o) !! (ow, c) ≫= (.!! order) with
  | Some change => change
  | None => pre_active_entry o ow c order
  end.

(** [if let Some(changes) = layer.held.get(&key) { apply_hold_changes(...) }]. *)
Definition changed_holds (m : gmap TxHash Z) (layer : gmap SubstateKey (gmap TxHash (option Z)))
    (key : SubstateKey) : gmap TxHash Z :=
  match layer !! key with Some changes => apply_hold_changes m changes | None => m end.

Definition effective_holds o (key : SubstateKey) : gmap TxHash Z :=
  changed_holds (changed_holds (holds (base o) key) (l_held (committed o)) key) (l_held (active o)) key.

Definition effective_fee_holds o (key : SubstateKey) : FeeHolds :=
  let f := fee_holds (base o) key in
  {| fee_members := changed_holds (changed_holds (fee_members f) (l_fee_held (committed o)) key)
                      (l_fee_held (active o)) key;
     fee_rest := fee_rest f |}.

Definition extended_credits (m : gmap TxHash Z) (layer : gmap SubstateKey (gmap TxHash Z))
    (key : SubstateKey) : gmap TxHash Z :=
  match layer !! key with Some credits => credits ∪ m | None => m end.
Definition effective_withheld_credits o (key : SubstateKey) : WithheldCredits :=
  {| withheld_members :=
       extended_credits (extended_credits (withheld_members (withheld_credits (base o) key))
                           (l_withheld (committed o)) key) (l_withheld (active o)) key |}.

Definition overlay_held_reservation o (key : SubstateKey) (tx : TxHash) : option Z :=
  match l_held (active o) !! key ≫= (.!! tx) with
  | Some change => change
  | None =>
      match l_held (committed o) !! key ≫= (.!! tx) with
      | Some change => change
      | None => held_reservation (base o) key tx
      end
  end.

Definition pending_map o : gmap SubstateKey (list DeltaOp) :=
  extend_entries extend_list (l_pending (committed o)) (l_pending (active o)).

Definition hold_unjudged o (key : SubstateKey) (tx : TxHash) (amt : Z) : OverlayStore B :=
  let o := record o (Point key) KReserve in
  set_active o (set_l_held (active o) (nested_insert (l_held (active o)) key tx (Some amt))).

Definition retain_pending_deltas o (keep : SubstateKey → bool) : OverlayStore B :=
  let kept (m : gmap SubstateKey (list DeltaOp)) :=
    filter (λ p : SubstateKey * list DeltaOp, keep p.1 = true) m in
  let o := set_active o (set_l_pending (active o) (kept (l_pending (active o)))) in
  set_committed o (set_l_pending (committed o) (kept (l_pending (committed o)))).

Definition merged_entries o (ow : Address) (c : CollectionId) (lo hi limit : Z) : list (Z * bytes) :=
  if decide (hi < lo ∨ limit = 0) then [] else
  let com := layer_range (committed o) ow c lo hi in
  let act := layer_range (active o) ow c lo hi in
  let tombstones := Z.of_nat (length (filter is_tombstone (com ++ act))) in
  let bas := entries_in_range (base o) ow c lo hi (saturating_add 64 limit tombstones) in
  merge_loop (length act + length com + length bas) limit [] act com bas.

Definition merge_active o : OverlayStore B :=
  let com := committed o in
  let act := active o in
  {| base := base o;
     committed := {|
       l_cells := l_cells act ∪ l_cells com;
       l_entries := extend_entries extend_map (l_entries com) (l_entries act);
       l_pending := extend_entries extend_list (l_pending com) (l_pending act);
       l_held := extend_entries extend_map (l_held com) (l_held act);
       l_fee_held := extend_entries extend_map (l_fee_held com) (l_fee_held act);
       l_withheld := extend_entries extend_map (l_withheld com) (l_withheld act);
     |};
     active := layer_default;
     log := log o |}.

Definition discard_active o : OverlayStore B := set_active o layer_default.

Definition has_layered_cells o : bool :=
  negb (bool_decide (l_cells (active o) = ∅)) || negb (bool_decide (l_cells (committed o) = ∅)).
Definition layered_cell o (key : SubstateKey) : bool :=
  match l_cells (active o) !! key with
  | Some change => bool_decide (is_Some change)
  | None => match l_cells (committed o) !! key with
            | Some change => bool_decide (is_Some change)
            | None => false
            end
  end.

(** One layer of [collapse_onto]. *)
Definition collapse_layer (l : Layer) (store : MemoryStore) : MemoryStore :=
  let store := memory_set_cells store (apply_hold_changes (cells store) (l_cells l)) in
  let store := nested_fold collapse_entry store (l_entries l) in
  let store := memory_set_pending store
                 (extend_entries extend_list (pending_deltas store) (l_pending l)) in
  let store := nested_fold memory_set_hold store (l_held l) in
  let store := nested_fold memory_set_fee_hold store (l_fee_held l) in
  nested_fold memory_withhold_credit store (l_withheld l).
Definition collapse_onto o (store : MemoryStore) : MemoryStore :=
  collapse_layer (active o) (collapse_layer (committed o) store).

(** The [WorkingStore] a body's handles drive. *)
Definition read o (key : SubstateKey) : OverlayStore B * result StoreError (option bytes) :=
  (record o (Point key) KRead, Ok (cell_value o key)).
Definition write o (key : SubstateKey) (value : bytes) : OverlayStore B * result StoreError unit :=
  let o := record o (Point key) KWrite in
  (set_active o (set_l_cells (active o) (<[key := Some value]> (l_cells (active o)))), Ok tt).
Definition remove o (key : SubstateKey) : OverlayStore B * result StoreError (option bytes) :=
  let o := record o (Point key) KWrite in
  (set_active o (set_l_cells (active o) (<[key := None]> (l_cells (active o)))), Ok (cell_value o key)).
Definition queue_delta o (key : SubstateKey) (op : DeltaOp) : OverlayStore B * result StoreError unit :=
  let o := record o (Point key) KDelta in
  (set_active o (set_l_pending (active o)
     (<[key := default [] (l_pending (active o) !! key) ++ [op]]> (l_pending (active o)))), Ok tt).
Definition entry_write o (ow : Address) (c : CollectionId) (order : Z) (value : bytes) :
    OverlayStore B * result StoreError unit :=
  let o := record o (Entry ow c order) KWrite in
  (set_active o (set_l_entries (active o)
     (nested_insert (l_entries (active o)) (ow, c) order (Some value))), Ok tt).
Definition entry_remove o (ow : Address) (c : CollectionId) (order : Z) :
    OverlayStore B * result StoreError (option bytes) :=
  let o := record o (Entry ow c order) KWrite in
  (set_active o (set_l_entries (active o)
     (nested_insert (l_entries (active o)) (ow, c) order None)), Ok (entry_value o ow c order)).
Definition scan_entries o (ow : Address) (c : CollectionId) (lo hi cap : Z) :
    OverlayStore B * result StoreError (list (Z * bytes)) :=
  (record o (Range ow c lo hi cap) KRead, Ok (merged_entries o ow c lo hi cap)).

#[global] Instance overlay_substates : Substates (OverlayStore B) := {|
  cell := cell_value;
  entries_in_range := merged_entries;
|}.
#[global] Instance overlay_baseline : Baseline (OverlayStore B) := {|
  holds := effective_holds;
  fee_holds := effective_fee_holds;
  withheld_credits := effective_withheld_credits;
  held_reservation := overlay_held_reservation;
|}.
#[global] Instance overlay_ledger : AmountLedger (OverlayStore B) := {|
  set_amount o key amt :=
    set_active o (set_l_cells (active o) (<[key := amount_bytes amt]> (l_cells (active o))));
  set_hold o key tx amt :=
    set_active o (set_l_held (active o) (nested_insert (l_held (active o)) key tx amt));
  set_fee_hold o key tx amt :=
    set_active o (set_l_fee_held (active o) (nested_insert (l_fee_held (active o)) key tx amt));
  withhold_credit o key tx amt :=
    set_active o (set_l_withheld (active o) (nested_insert (l_withheld (active o)) key tx amt));
  note := record;
  queued := pending_map;
  clear_queued o :=
    set_committed (set_active o (set_l_pending (active o) ∅)) (set_l_pending (committed o) ∅);
|}.

End overlay.

(** ** Changes as functions *)

Lemma apply_changes_list {K A} `{Countable K} (l : list (K * option A)) (m : gmap K A) k :
  NoDup l.*1 →
  foldl apply_change m l !! k =
    match (list_to_map l : gmap K (option A)) !! k with Some c => c | None => m !! k end.
Proof.
  revert m. induction l as [|[k' c] l IH]; intros m Hnd; [done|].
  rewrite fmap_cons in Hnd. apply NoDup_cons in Hnd as [Hnin Hnd]. cbn [foldl list_to_map foldr fst snd].
  rewrite IH by done. destruct (decide (k' = k)) as [->|Hne].
  - rewrite lookup_insert_eq, not_elem_of_list_to_map_1 by done. unfold apply_change. cbn [fst snd].
    destruct c; [apply lookup_insert_eq|apply lookup_delete_eq].
  - rewrite lookup_insert_ne by done. unfold apply_change. cbn [fst snd].
    destruct c; [by rewrite lookup_insert_ne|by rewrite lookup_delete_ne].
Qed.

Lemma list_to_map_iter {K A} `{Countable K, OrdKey K} (m : gmap K A) : list_to_map (map_iter m) = m.
Proof.
  rewrite (list_to_map_proper _ (map_to_list m)); [apply list_to_map_to_list|apply NoDup_map_iter|].
  apply map_iter_perm.
Qed.

Lemma lookup_apply_changes {K A} `{Countable K, OrdKey K} (m : gmap K A) changes k :
  apply_hold_changes m changes !! k = match changes !! k with Some c => c | None => m !! k end.
Proof.
  unfold apply_hold_changes. rewrite apply_changes_list by apply NoDup_map_iter.
  by rewrite list_to_map_iter.
Qed.

Lemma extend_entries_list {K A B} `{Countable K} (f : option B → A → B) (l : list (K * A)) (m : gmap K B) k :
  NoDup l.*1 →
  foldl (λ m p, <[p.1 := f (m !! p.1) p.2]> m) m l !! k =
    match (list_to_map l : gmap K A) !! k with Some a => Some (f (m !! k) a) | None => m !! k end.
Proof.
  revert m. induction l as [|[k' a] l IH]; intros m Hnd; [done|].
  rewrite fmap_cons in Hnd. apply NoDup_cons in Hnd as [Hnin Hnd]. cbn [foldl list_to_map foldr fst snd].
  rewrite IH by done. destruct (decide (k' = k)) as [->|Hne].
  - rewrite lookup_insert_eq, not_elem_of_list_to_map_1 by done. by rewrite lookup_insert_eq.
  - by rewrite !lookup_insert_ne by done.
Qed.

Lemma lookup_extend_entries {K A B} `{Countable K, OrdKey K} (f : option B → A → B) (m : gmap K B)
    (source : gmap K A) k :
  extend_entries f m source !! k =
    match source !! k with Some a => Some (f (m !! k) a) | None => m !! k end.
Proof.
  unfold extend_entries. rewrite extend_entries_list by apply NoDup_map_iter.
  by rewrite list_to_map_iter.
Qed.

(** What a key's changes are, a layer holding none standing for no change. *)
Lemma apply_no_changes {K A} `{Countable K, OrdKey K} (m : gmap K A) : apply_hold_changes m ∅ = m.
Proof. apply map_eq. intros k. by rewrite lookup_apply_changes, lookup_empty. Qed.

Lemma apply_changes_twice {K A} `{Countable K, OrdKey K} (m : gmap K A) c1 c2 :
  apply_hold_changes (apply_hold_changes m c1) c2 = apply_hold_changes m (c2 ∪ c1).
Proof.
  apply map_eq. intros k. rewrite !lookup_apply_changes, lookup_union.
  destruct (c2 !! k), (c1 !! k); done.
Qed.

Lemma apply_changes_insert {K A} `{Countable K, OrdKey K} (m : gmap K A) changes k c :
  apply_hold_changes m (<[k := c]> changes) = apply_change (apply_hold_changes m changes) (k, c).
Proof.
  apply map_eq. intros k'. rewrite lookup_apply_changes. unfold apply_change. cbn [fst snd].
  destruct (decide (k = k')) as [<-|Hne].
  - rewrite lookup_insert_eq. destruct c; [by rewrite lookup_insert_eq|by rewrite lookup_delete_eq].
  - rewrite lookup_insert_ne by done.
    destruct c; [rewrite lookup_insert_ne by done|rewrite lookup_delete_ne by done];
      by rewrite lookup_apply_changes.
Qed.

Lemma changed_holds_default m (layer : gmap SubstateKey (gmap TxHash (option Z))) key :
  changed_holds m layer key = apply_hold_changes m (default ∅ (layer !! key)).
Proof. unfold changed_holds. destruct (layer !! key); [done|]. cbn [from_option]. by rewrite apply_no_changes. Qed.

Lemma extended_credits_default m (layer : gmap SubstateKey (gmap TxHash Z)) key :
  extended_credits m layer key = default ∅ (layer !! key) ∪ m.
Proof. unfold extended_credits. destruct (layer !! key); [done|]. cbn. by rewrite (left_id_L ∅ (∪)). Qed.

Lemma nested_lookup {K T A} `{Countable K, Countable T} (m : gmap K (gmap T A)) k t x k' :
  default ∅ (nested_insert m k t x !! k')
    = if decide (k = k') then <[t := x]> (default ∅ (m !! k)) else default ∅ (m !! k').
Proof.
  unfold nested_insert. destruct (decide (k = k')) as [<-|]; [by rewrite lookup_insert_eq|].
  by rewrite lookup_insert_ne.
Qed.

Lemma bind_lookup_default {K T A} `{Countable K, Countable T} (m : gmap K (gmap T A)) k t :
  (m !! k ≫= (.!! t)) = default ∅ (m !! k) !! t.
Proof. destruct (m !! k); [done|]. cbn. by rewrite lookup_empty. Qed.

(** ** Sorted association lists *)

Definition sorted_keys {A} (l : list (Z * A)) : Prop := StronglySorted Z.lt l.*1.

Lemma key_le_Z (x y : Z) : key_le x y ↔ x ≤ y.
Proof. unfold key_le, lex_le. cbn. destruct (Z.compare_spec x y); split; try done; lia. Qed.

Lemma sorted_keys_cons {A} k (v : A) l :
  sorted_keys ((k, v) :: l) ↔ sorted_keys l ∧ ∀ p, p ∈ l → k < p.1.
Proof.
  unfold sorted_keys. rewrite fmap_cons. split.
  - intros Hs. inversion Hs as [|? ? Hl Hk]; subst. split; [done|]. intros p Hp.
    rewrite Forall_forall in Hk. apply Hk, list_elem_of_fmap. by exists p.
  - intros [Hl Hk]. constructor; [done|]. apply Forall_forall.
    intros x (p & -> & Hp)%list_elem_of_fmap. by apply Hk.
Qed.

Lemma map_iter_sorted_keys {A} (m : gmap Z A) : sorted_keys (map_iter m).
Proof.
  pose proof (map_iter_sorted m) as Hs. pose proof (NoDup_map_iter m) as Hnd.
  induction Hs as [|[k v] l Hs IH Hk]; [constructor|]. rewrite fmap_cons in Hnd.
  apply NoDup_cons in Hnd as [Hnin Hnd]. apply sorted_keys_cons. split; [by apply IH|].
  intros p Hp. rewrite Forall_forall in Hk. specialize (Hk p Hp). unfold pair_le in Hk. cbn in Hk.
  apply key_le_Z in Hk. assert (k ≠ p.1); [|lia].
  intros ->. apply Hnin, list_elem_of_fmap. by exists p.
Qed.

Lemma filter_sorted_keys {A} (P : Z * A → Prop) `{∀ x, Decision (P x)} l :
  sorted_keys l → sorted_keys (filter P l).
Proof.
  induction l as [|[k v] l IH]; [done|]. intros [Hl Hk]%sorted_keys_cons. rewrite filter_cons.
  case_decide; [|by apply IH]. apply sorted_keys_cons. split; [by apply IH|].
  intros p [_ Hp]%list_elem_of_filter. by apply Hk.
Qed.

Lemma range_list_sorted {A} lo hi (m : gmap Z A) : sorted_keys (range_list lo hi m).
Proof. apply filter_sorted_keys, map_iter_sorted_keys. Qed.

Lemma elem_of_range_list {A} lo hi (m : gmap Z A) k v :
  (k, v) ∈ range_list lo hi m ↔ lo ≤ k ≤ hi ∧ m !! k = Some v.
Proof. unfold range_list. by rewrite list_elem_of_filter, elem_of_map_iter. Qed.

Lemma sorted_keys_ext {A} (l1 l2 : list (Z * A)) :
  sorted_keys l1 → sorted_keys l2 → (∀ p, p ∈ l1 ↔ p ∈ l2) → l1 = l2.
Proof.
  revert l2. induction l1 as [|[k v] l1 IH]; intros [|[k' v'] l2] H1 H2 Hin; [done|..].
  - exfalso. apply (not_elem_of_nil (k', v')), Hin. constructor.
  - exfalso. apply (not_elem_of_nil (k, v)), Hin. constructor.
  - apply sorted_keys_cons in H1 as [H1 Hk1], H2 as [H2 Hk2].
    assert ((k, v) = (k', v')) as [= <- <-].
    { destruct (proj1 (elem_of_cons _ _ _) (proj1 (Hin (k, v)) ltac:(constructor))) as [?|Hb]; [done|].
      destruct (proj1 (elem_of_cons _ _ _) (proj2 (Hin (k', v')) ltac:(constructor))) as [?|Ha]; [done|].
      apply Hk2 in Hb. apply Hk1 in Ha. cbn in *. lia. }
    f_equal. apply IH; [done..|]. intros p. specialize (Hin p). rewrite !elem_of_cons in Hin.
    split; intros Hp.
    + destruct (proj1 Hin (or_intror Hp)) as [->|?]; [|done]. apply Hk1 in Hp. cbn in Hp. lia.
    + destruct (proj2 Hin (or_intror Hp)) as [->|?]; [|done]. apply Hk2 in Hp. cbn in Hp. lia.
Qed.

(** ** The merge *)

Definition lookup_in {A} (l : list (Z * A)) (k : Z) : option A := (list_to_map l : gmap Z A) !! k.

Lemma sorted_keys_NoDup {A} (l : list (Z * A)) : sorted_keys l → NoDup l.*1.
Proof.
  induction l as [|[k v] l IH]; [constructor|]. intros [Hl Hk]%sorted_keys_cons. rewrite fmap_cons.
  constructor; [|by apply IH]. intros (p & Hp & Hin)%list_elem_of_fmap. apply Hk in Hin. cbn in *. lia.
Qed.

Lemma lookup_in_elem {A} (l : list (Z * A)) k v :
  sorted_keys l → lookup_in l k = Some v ↔ (k, v) ∈ l.
Proof. intros Hl. symmetry. by apply elem_of_list_to_map, sorted_keys_NoDup. Qed.

Lemma lookup_in_none {A} (l : list (Z * A)) k : k ∉ l.*1 → lookup_in l k = None.
Proof. apply not_elem_of_list_to_map_1. Qed.

Lemma lookup_in_cons {A} k (v : A) l k' :
  lookup_in ((k, v) :: l) k' = if decide (k = k') then Some v else lookup_in l k'.
Proof.
  unfold lookup_in. cbn [list_to_map foldr fst snd]. destruct (decide (k = k')) as [<-|].
  - apply lookup_insert_eq.
  - by apply lookup_insert_ne.
Qed.

(** What a source looks like once the order in hand is taken off it. *)
Record advanced {A} (order : Z) (l l' : list (Z * A)) : Prop := {
  adv_sorted : sorted_keys l';
  adv_above : ∀ p, p ∈ l' → order < p.1;
  adv_lookup : ∀ k, k ≠ order → lookup_in l' k = lookup_in l k;
  adv_length : (length l' ≤ length l)%nat;
  adv_progress : peek l = Some order → (length l' < length l)%nat;
}.

Lemma next_if_spec {A} order (l : list (Z * A)) :
  sorted_keys l → (∀ p, p ∈ l → order ≤ p.1) →
  (next_if order l).1 = lookup_in l order ∧ advanced order l (next_if order l).2.
Proof.
  destruct l as [|[k v] l]; intros Hs Hmin.
  { split; [done|]. split; try done. by intros p ?%not_elem_of_nil. }
  apply sorted_keys_cons in Hs as [Hl Hk]. cbn [next_if]. rewrite lookup_in_cons.
  destruct (decide (k = order)) as [->|Hne]; cbn [fst snd].
  - split; [done|]. split; [done|done| |cbn; lia|cbn; lia].
    intros k' Hk'. by rewrite lookup_in_cons, decide_False.
  - assert (order < k) by (specialize (Hmin (k, v) ltac:(constructor)); cbn in Hmin; lia). split.
    + symmetry. apply lookup_in_none. intros (p & -> & Hp)%list_elem_of_fmap.
      apply Hk in Hp. lia.
    + split; [by apply sorted_keys_cons| |done|done|intros [= ->]; lia].
      intros p [->|Hp]%elem_of_cons; [done|]. apply Hk in Hp. lia.
Qed.

Lemma peek_le {A} (l : list (Z * A)) k : sorted_keys l → peek l = Some k → ∀ p, p ∈ l → k ≤ p.1.
Proof.
  destruct l as [|[k' v] l]; [done|]. intros [_ Hk]%sorted_keys_cons [= <-] p [->|Hp]%elem_of_cons; [done|].
  apply Hk in Hp. lia.
Qed.

Lemma peek_none {A} (l : list (Z * A)) : peek l = None → l = [].
Proof. by destruct l as [|[]]. Qed.

Lemma opt_min_le {A} (l : list (Z * A)) x k :
  sorted_keys l → opt_min (peek l) x = Some k ∨ opt_min x (peek l) = Some k → ∀ p, p ∈ l → k ≤ p.1.
Proof.
  intros Hs Hk p Hp. destruct (peek l) as [y|] eqn:E.
  - pose proof (peek_le l y Hs E p Hp). destruct x; cbn in Hk; naive_solver lia.
  - apply peek_none in E as ->. by apply not_elem_of_nil in Hp.
Qed.

Lemma opt_min_cases x y k : opt_min x y = Some k → x = Some k ∨ y = Some k.
Proof.
  destruct x as [x|], y as [y|]; cbn; intros E; [|auto..]. injection E as <-.
  destruct (Z.min_spec x y) as [[_ ->]|[_ ->]]; auto.
Qed.

Section merge.
Implicit Types (act com : list (Z * option bytes)) (bas : list (Z * bytes)).

(** What the layers make of a key. *)
Definition effective act com bas (k : Z) : option bytes :=
  match lookup_in act k with
  | Some c => c
  | None => match lookup_in com k with Some c => c | None => lookup_in bas k end
  end.

(** The merge with no limit. *)
Fixpoint merge_all (n : nat) act com bas : list (Z * bytes) :=
  match n with
  | O => []
  | S n =>
      match opt_min (peek act) (opt_min (peek com) (peek bas)) with
      | None => []
      | Some order =>
          let a := next_if order act in
          let c := next_if order com in
          let b := next_if order bas in
          let rest := merge_all n a.2 c.2 b.2 in
          match default b.1 (match a.1 with Some x => Some x | None => c.1 end) with
          | Some value => (order, value) :: rest
          | None => rest
          end
      end
  end.

Lemma merge_loop_all n limit hits act com bas :
  0 ≤ limit →
  Z.of_nat (length hits) ≤ limit →
  merge_loop n limit hits act com bas
    = hits ++ takeZ (limit - Z.of_nat (length hits)) (merge_all n act com bas).
Proof.
  intros Hlim. revert hits act com bas. induction n as [|n IH]; intros hits act com bas Hh.
  { cbn [merge_loop merge_all]. by rewrite takeZ_nil, app_nil_r. }
  cbn [merge_loop merge_all]. destruct (decide (Z.of_nat (length hits) < limit)) as [Hlt|Hge].
  2: { assert (limit - Z.of_nat (length hits) = 0) as -> by lia. unfold takeZ.
       destruct (decide _) as [E|]; [|cbn; by rewrite app_nil_r].
       match goal with |- _ = _ ++ ?l => destruct l end; [by rewrite app_nil_r|cbn in E; lia]. }
  destruct (opt_min _ _) as [order|]; [|by rewrite takeZ_nil, app_nil_r].
  destruct (next_if order act) as [ah act'], (next_if order com) as [ch com'],
    (next_if order bas) as [bh bas']. cbn [fst snd]. destruct (default bh _) as [value|].
  - rewrite IH by (rewrite length_app; cbn; lia). rewrite <- app_assoc. f_equal. cbn [app].
    rewrite length_app. cbn [length]. set (rest := merge_all n act' com' bas').
    unfold takeZ. cbn [length]. set (r := limit - Z.of_nat (length hits)).
    assert (0 < r) by (subst r; lia).
    replace (limit - Z.of_nat (length hits + 1)) with (r - 1) by lia.
    destruct (decide (Z.of_nat (length rest) ≤ r - 1)), (decide (Z.of_nat (S (length rest)) ≤ r));
      [done|lia|lia|]. replace (Z.to_nat r) with (S (Z.to_nat (r - 1))) by lia. done.
  - by apply IH.
Qed.

Lemma effective_above act com bas order k v :
  (∀ p, p ∈ act → order < p.1) → (∀ p, p ∈ com → order < p.1) → (∀ p, p ∈ bas → order < p.1) →
  effective act com bas k = Some v → order < k.
Proof.
  intros Ha Hc Hb He. destruct (decide (order < k)); [done|].
  assert (∀ A (l : list (Z * A)), (∀ p, p ∈ l → order < p.1) → lookup_in l k = None) as Hn.
  { intros A l Hl. apply lookup_in_none. intros (p & -> & Hp)%list_elem_of_fmap. apply Hl in Hp. lia. }
  unfold effective in He. rewrite !Hn in He by done. done.
Qed.

Lemma merge_all_spec n act com bas :
  sorted_keys act → sorted_keys com → sorted_keys bas →
  (length act + length com + length bas ≤ n)%nat →
  sorted_keys (merge_all n act com bas) ∧
  ∀ k v, (k, v) ∈ merge_all n act com bas ↔ effective act com bas k = Some v.
Proof.
  revert act com bas. induction n as [|n IH]; intros act com bas Ha Hc Hb Hn.
  { destruct act, com, bas; cbn in Hn; try lia. split; [constructor|]. intros k v.
    cbn. split; [by intros ?%not_elem_of_nil|done]. }
  cbn [merge_all]. destruct (opt_min _ _) as [order|] eqn:Hmin.
  2: { assert (peek act = None ∧ peek com = None ∧ peek bas = None) as (->%peek_none & ->%peek_none & ->%peek_none)
         by (destruct (peek act), (peek com), (peek bas); done).
       split; [constructor|]. intros k v. split; [by intros ?%not_elem_of_nil|done]. }
  assert (La : ∀ p, p ∈ act → order ≤ p.1) by (eapply opt_min_le; [done|by left]).
  assert (Lc : ∀ p, p ∈ com → order ≤ p.1).
  { destruct (opt_min (peek com) (peek bas)) as [y|] eqn:E.
    - intros p Hp. pose proof (opt_min_le com _ y Hc (or_introl E) p Hp).
      destruct (peek act); cbn in Hmin; naive_solver lia.
    - destruct (peek com) eqn:Ec; [by destruct (peek bas)|]. apply peek_none in Ec as ->.
      by intros p ?%not_elem_of_nil. }
  assert (Lb : ∀ p, p ∈ bas → order ≤ p.1).
  { destruct (opt_min (peek com) (peek bas)) as [y|] eqn:E.
    - intros p Hp. pose proof (opt_min_le bas _ y Hb (or_intror E) p Hp).
      destruct (peek act); cbn in Hmin; naive_solver lia.
    - destruct (peek bas) eqn:Ec; [by destruct (peek com)|]. apply peek_none in Ec as ->.
      by intros p ?%not_elem_of_nil. }
  assert (Hprog : peek act = Some order ∨ peek com = Some order ∨ peek bas = Some order).
  { apply opt_min_cases in Hmin as [?|Hmin]; [by left|right]. by apply opt_min_cases. }
  destruct (next_if_spec order act Ha La) as [Ea [A1 A2 A3 A4 A5]].
  destruct (next_if_spec order com Hc Lc) as [Ec [C1 C2 C3 C4 C5]].
  destruct (next_if_spec order bas Hb Lb) as [Eb [B1 B2 B3 B4 B5]].
  rewrite Ea, Ec, Eb.
  destruct (next_if order act) as [ah act'], (next_if order com) as [ch com'],
    (next_if order bas) as [bh bas']. cbn [fst snd] in *.
  destruct (IH act' com' bas' A1 C1 B1) as [IHs IHe].
  { destruct Hprog as [Hp|[Hp|Hp]]; [apply A5 in Hp|apply C5 in Hp|apply B5 in Hp]; lia. }
  assert (Hother : ∀ k, k ≠ order → effective act' com' bas' k = effective act com bas k)
    by (intros k Hk; unfold effective; by rewrite A3, C3, B3).
  assert (Habove : ∀ k v, effective act' com' bas' k = Some v → order < k)
    by (intros k v; by apply effective_above).
  assert (Hhere : default (lookup_in bas order)
    (match lookup_in act order with Some x => Some x | None => lookup_in com order end)
      = effective act com bas order)
    by (unfold effective; by destruct (lookup_in act order), (lookup_in com order)).
  rewrite Hhere. destruct (effective act com bas order) as [value|] eqn:Heff.
  - split.
    + apply sorted_keys_cons. split; [done|]. intros [k v] Hp%IHe. cbn. by apply Habove in Hp.
    + intros k v. rewrite elem_of_cons, IHe. split.
      * intros [[= -> ->]|Hk]; [done|]. rewrite <- Hother; [done|]. apply Habove in Hk. lia.
      * intros Hk. destruct (decide (k = order)) as [->|Hne]; [left; congruence|right]. by rewrite Hother.
  - split; [done|]. intros k v. rewrite IHe. split; intros Hk.
    + rewrite <- Hother; [done|]. apply Habove in Hk. lia.
    + destruct (decide (k = order)) as [->|Hne]; [congruence|]. by rewrite Hother.
Qed.

End merge.

(** ** A bounded base fetch is enough *)

Lemma sorted_keys_app {A} (a b : list (Z * A)) :
  sorted_keys (a ++ b) ↔ sorted_keys a ∧ sorted_keys b ∧ ∀ p q, p ∈ a → q ∈ b → p.1 < q.1.
Proof.
  induction a as [|[k v] a IH].
  { cbn [app]. split; [intros Hb; split_and!; [constructor|done|]|naive_solver].
    by intros p q ?%not_elem_of_nil. }
  cbn [app]. rewrite !sorted_keys_cons, IH. split.
  - intros ((Ha & Hb & Hab) & Hk). split_and!; [done| |done|].
    + intros p Hp. apply Hk, elem_of_app. by left.
    + intros p q [->|Hp]%elem_of_cons Hq; [|by apply Hab]. cbn. apply Hk, elem_of_app. by right.
  - intros ([Ha Hk] & Hb & Hab). split_and!; [done|done| |].
    + intros p q Hp Hq. apply Hab; [by constructor|done].
    + intros p [Hp|Hp]%elem_of_app; [by apply Hk|]. apply (Hab (k, v) p); [constructor|done].
Qed.

Lemma take_threshold {A} n (l : list (Z * A)) :
  sorted_keys l → take n l ≠ [] →
  ∃ z, (∀ p, p ∈ take n l → p.1 ≤ z) ∧ ∀ p, p ∈ drop n l → z < p.1.
Proof.
  intros Hs Hne. rewrite <- (take_drop n l) in Hs.
  destruct (take n l) as [|x a _] using rev_ind; [done|]. exists x.1.
  apply sorted_keys_app in Hs as (Ha & _ & Hab). apply sorted_keys_app in Ha as (_ & _ & Hax). split.
  - intros p [Hp|Hp%list_elem_of_singleton]%elem_of_app; [|by subst].
    specialize (Hax p x Hp ltac:(by apply list_elem_of_singleton)). lia.
  - intros p Hp. apply (Hab x p); [apply elem_of_app; right; by apply list_elem_of_singleton|done].
Qed.

Lemma lookup_in_take {A} n (l : list (Z * A)) z k :
  sorted_keys l → (∀ p, p ∈ drop n l → z < p.1) → k ≤ z → lookup_in (take n l) k = lookup_in l k.
Proof.
  intros Hs Hz Hk. apply option_eq. intros v. rewrite !lookup_in_elem.
  - rewrite <- (take_drop n l) at 2. rewrite elem_of_app. split; [by left|]. intros [?|Hd]; [done|].
    apply Hz in Hd. cbn in Hd. lia.
  - done.
  - rewrite <- (take_drop n l) in Hs. by apply sorted_keys_app in Hs as (? & _ & _).
Qed.

Lemma sorted_split {A} (l : list (Z * A)) z :
  sorted_keys l → l = filter (λ p, p.1 ≤ z) l ++ filter (λ p, ¬ p.1 ≤ z) l.
Proof.
  induction l as [|[k v] l IH]; [done|]. intros [Hl Hk]%sorted_keys_cons. rewrite !filter_cons. cbn [fst].
  destruct (decide (k ≤ z)) as [Hle|Hgt].
  - destruct (decide (¬ k ≤ z)); [done|]. cbn. f_equal. by apply IH.
  - destruct (decide (¬ k ≤ z)); [|done]. rewrite (list_filter_nil (λ p : Z * A, p.1 ≤ z) l).
    + cbn. f_equal. symmetry. apply list_filter_all. apply Forall_forall. intros p Hp. apply Hk in Hp. lia.
    + apply Forall_forall. intros p Hp. apply Hk in Hp. lia.
Qed.

Lemma takeZ_take {A} n (l : list A) : 0 ≤ n → takeZ n l = take (Z.to_nat n) l.
Proof.
  intros Hn. unfold takeZ. destruct (decide (Z.of_nat (length l) ≤ n)); [|done].
  symmetry. apply take_ge. lia.
Qed.

Lemma take_prefix {A} (l : list (Z * A)) z n :
  sorted_keys l → (n ≤ length (filter (λ p : Z * A, (p.1 ≤ z)%Z) l))%nat →
  take n l = take n (filter (λ p : Z * A, (p.1 ≤ z)%Z) l).
Proof. intros Hs Hn. rewrite (sorted_split l z Hs) at 1. by rewrite take_app_le. Qed.

Lemma lookup_in_range {A} lo hi (m : gmap Z A) k :
  lookup_in (range_list lo hi m) k = if decide (lo ≤ k ≤ hi) then m !! k else None.
Proof.
  apply option_eq. intros v. rewrite lookup_in_elem by apply range_list_sorted.
  rewrite elem_of_range_list. case_decide; naive_solver.
Qed.

Section scan.
Context (lo hi : Z) (bm : gmap Z bytes) (cc ac : EntryChanges).

Let full := range_list lo hi bm.
Let act := range_list lo hi ac.
Let com := range_list lo hi cc.
Let layered := apply_hold_changes (apply_hold_changes bm cc) ac.

Lemma effective_full k :
  effective act com full k = if decide (lo ≤ k ≤ hi) then layered !! k else None.
Proof.
  unfold effective, act, com, full, layered. rewrite !lookup_in_range, !lookup_apply_changes.
  by case_decide.
Qed.

Lemma merge_full n :
  (length act + length com + length full ≤ n)%nat → merge_all n act com full = range_list lo hi layered.
Proof.
  intros Hn. destruct (merge_all_spec n act com full) as [Hs He]; try apply range_list_sorted; [done|].
  apply sorted_keys_ext; [done|apply range_list_sorted|]. intros [k v].
  rewrite He, elem_of_range_list, effective_full. case_decide; naive_solver.
Qed.

(** The base entries a scan fetches yield an entry each, but for those a
    tombstone removes. *)
Lemma merge_count n bas z :
  sorted_keys bas → (length act + length com + length bas ≤ n)%nat → (∀ p, p ∈ bas → p.1 ≤ z) →
  (length bas ≤ length (filter (λ p : Z * bytes, (p.1 ≤ z)%Z) (merge_all n act com bas))
                + length (filter is_tombstone (com ++ act)))%nat.
Proof.
  intros Hb Hn Hz.
  destruct (merge_all_spec n act com bas) as [Hs He]; try apply range_list_sorted; [done..|].
  rewrite <- (length_fmap fst bas), <- (length_fmap fst (filter is_tombstone _)),
    <- (length_fmap fst (filter (λ p : Z * bytes, (p.1 ≤ z)%Z) _)), <- length_app.
  apply submseteq_length, NoDup_submseteq; [by apply sorted_keys_NoDup|].
  intros k (p & -> & Hp)%list_elem_of_fmap. destruct p as [k v]. cbn [fst].
  pose proof (Hz _ Hp) as Hkz. cbn in Hkz. apply elem_of_app.
  destruct (effective act com bas k) as [w|] eqn:E.
  - left. apply list_elem_of_fmap. exists (k, w). split; [done|]. apply list_elem_of_filter.
    split; [done|]. by apply He.
  - right. apply list_elem_of_fmap. exists (k, None). split; [done|]. apply list_elem_of_filter.
    split; [done|]. apply elem_of_app. unfold effective in E.
    destruct (lookup_in act k) as [c|] eqn:Ea.
    + subst c. right. apply lookup_in_elem; [apply range_list_sorted|done].
    + left. destruct (lookup_in com k) as [c|] eqn:Ec.
      * subst c. apply lookup_in_elem; [apply range_list_sorted|done].
      * apply (lookup_in_elem bas) in Hp; [|done]. congruence.
Qed.

Lemma merge_bounded n limit fetched :
  0 < limit → let T := Z.of_nat (length (filter is_tombstone (com ++ act))) in
  fetched = limit + T ∨ Z.of_nat (length full) ≤ fetched → 0 ≤ fetched →
  let bas := takeZ fetched full in
  (length act + length com + length bas ≤ n)%nat →
  takeZ limit (merge_all n act com bas) = takeZ limit (range_list lo hi layered).
Proof.
  intros Hlim T Hf Hf0 bas Hn. assert (Hdef : bas = takeZ fetched full) by done. clearbody bas.
  destruct (decide (Z.of_nat (length full) ≤ fetched)) as [Hall|Hcut].
  { rewrite takeZ_all in Hdef by done. subst bas. by rewrite merge_full. }
  destruct Hf as [Hf|]; [|done]. assert (Hbas : bas = take (Z.to_nat fetched) full).
  { rewrite Hdef. by apply takeZ_take. }
  assert (Hlen : length bas = Z.to_nat fetched) by (rewrite Hbas, length_take; lia).
  assert (Hfs : sorted_keys full) by apply range_list_sorted.
  destruct (take_threshold (Z.to_nat fetched) full Hfs) as (z & Hz1 & Hz2).
  { rewrite <- Hbas. intros E. rewrite E in Hlen. cbn in Hlen. lia. }
  rewrite <- Hbas in Hz1.
  assert (Hbs : sorted_keys bas).
  { rewrite Hbas. rewrite <- (take_drop (Z.to_nat fetched) full) in Hfs.
    by apply sorted_keys_app in Hfs as (? & _ & _). }
  pose proof (merge_count n bas z Hbs Hn Hz1) as Hcount.
  destruct (merge_all_spec n act com bas) as [Hs He]; try apply range_list_sorted; [done..|].
  assert (Hsame : filter (λ p : Z * bytes, p.1 ≤ z) (merge_all n act com bas)
    = filter (λ p : Z * bytes, p.1 ≤ z) (range_list lo hi layered)).
  { apply sorted_keys_ext; [by apply filter_sorted_keys|apply filter_sorted_keys, range_list_sorted|].
    intros [k v]. rewrite !list_elem_of_filter, He, elem_of_range_list. cbn [fst].
    assert (k ≤ z → effective act com bas k = effective act com full k) as Heq.
    { intros Hk. unfold effective. rewrite Hbas, (lookup_in_take _ _ z); done. }
    split; intros [Hk Hv]; (split; [done|]).
    - rewrite (Heq Hk), effective_full in Hv. case_decide; naive_solver.
    - rewrite (Heq Hk), effective_full, decide_True; naive_solver. }
  rewrite !takeZ_take by lia.
  rewrite (take_prefix (merge_all n act com bas) z); [|done|lia].
  rewrite (take_prefix (range_list lo hi layered) z);
    [by rewrite Hsame|apply range_list_sorted|rewrite <- Hsame; lia].
Qed.

End scan.

(** ** The view of an overlay *)

(** What a base presents: [agree] without a queue of its own. *)
Record base_agree {B} `{Baseline B} (b : B) (a : AbstractStore) : Prop := {
  base_cell : ∀ k, cell b k = a_cell a k;
  base_entries : ∀ ow c lo hi limit, 0 ≤ limit ≤ u64_max →
    entries_in_range b ow c lo hi limit = takeZ limit (range_list lo hi (a_entries a ow c));
  base_holds : ∀ k, holds b k = a_holds a k;
  base_fee : ∀ k, fee_holds b k = a_fee a k;
  base_withheld : ∀ k, withheld_credits b k = a_withheld a k;
  base_reservation : ∀ k tx, held_reservation b k tx = a_holds a k !! tx;
}.

(** A collection never outgrows a [usize]. *)
Definition small_collections (a : AbstractStore) : Prop :=
  ∀ ow c, Z.of_nat (size (a_entries a ow c)) ≤ u64_max.

Definition overlay_abs {B} (o : OverlayStore B) (a : AbstractStore) : AbstractStore := {|
  a_cell k :=
    match l_cells (active o) !! k with
    | Some c => c
    | None => match l_cells (committed o) !! k with Some c => c | None => a_cell a k end
    end;
  a_entries ow c :=
    apply_hold_changes (apply_hold_changes (a_entries a ow c) (layer_changes (committed o) ow c))
      (layer_changes (active o) ow c);
  a_holds k :=
    apply_hold_changes (apply_hold_changes (a_holds a k) (default ∅ (l_held (committed o) !! k)))
      (default ∅ (l_held (active o) !! k));
  a_fee k := {|
    fee_members :=
      apply_hold_changes (apply_hold_changes (fee_members (a_fee a k))
        (default ∅ (l_fee_held (committed o) !! k))) (default ∅ (l_fee_held (active o) !! k));
    fee_rest := fee_rest (a_fee a k) |};
  a_withheld k := {|
    withheld_members := default ∅ (l_withheld (active o) !! k) ∪
      (default ∅ (l_withheld (committed o) !! k) ∪ withheld_members (a_withheld a k)) |};
  a_queued := pending_map o;
|}.

Section view.
Context {B : Type} `{Baseline B}.
Implicit Types (o : OverlayStore B) (a : AbstractStore).

Lemma range_list_length {A} lo hi (m : gmap Z A) : (length (range_list lo hi m) ≤ size m)%nat.
Proof. rewrite <- length_map_iter. unfold range_list. apply length_filter. Qed.

Lemma overlay_scan o a ow c lo hi limit :
  base_agree (base o) a → small_collections a → 0 ≤ limit ≤ u64_max →
  merged_entries o ow c lo hi limit = takeZ limit (range_list lo hi (a_entries (overlay_abs o a) ow c)).
Proof.
  intros Hb Hsmall Hlim. unfold merged_entries, layer_range.
  destruct (decide (hi < lo ∨ limit = 0)) as [Hnone|Hsome].
  { destruct Hnone as [Hinv| ->]; [by rewrite range_list_inverted, takeZ_nil|].
    rewrite takeZ_take by lia. done. }
  set (T := Z.of_nat (length (filter is_tombstone _))).
  assert (0 ≤ T) by (subst T; lia).
  assert (Hfetch : 0 ≤ saturating_add 64 limit T ≤ u64_max) by (unfold saturating_add, width_max in *; lia).
  rewrite (base_entries (base o) a Hb) by done.
  rewrite merge_loop_all by (cbn; lia). cbn [app length]. rewrite Z.sub_0_r.
  cbn [overlay_abs a_entries]. apply merge_bounded; [lia| |lia|done].
  pose proof (range_list_length lo hi (a_entries a ow c)). pose proof (Hsmall ow c).
  fold T. unfold saturating_add. destruct (decide (limit + T ≤ u64_max)); [left|right]; lia.
Qed.

Lemma overlay_agree o a : base_agree (base o) a → small_collections a → agree o (overlay_abs o a).
Proof.
  intros Hb Hsmall. split.
  - intros k. cbn. unfold cell_value. by rewrite (base_cell (base o) a Hb).
  - intros ow c lo hi limit Hl. cbn [entries_in_range overlay_substates abstract_substates].
    by apply overlay_scan.
  - intros k. cbn. unfold effective_holds. by rewrite !changed_holds_default, (base_holds (base o) a Hb).
  - intros k. cbn. unfold effective_fee_holds. by rewrite !changed_holds_default, (base_fee (base o) a Hb).
  - intros k. cbn. unfold effective_withheld_credits.
    by rewrite !extended_credits_default, (base_withheld (base o) a Hb).
  - intros k tx. cbn. unfold overlay_held_reservation.
    rewrite !bind_lookup_default, !lookup_apply_changes, (base_reservation (base o) a Hb).
    by destruct (default ∅ (l_held (active o) !! k) !! tx).
  - done.
Qed.

Lemma entry_value_spec o a ow c order :
  base_agree (base o) a → entry_value o ow c order = a_entries (overlay_abs o a) ow c !! order.
Proof.
  intros Hb. unfold entry_value, pre_active_entry. cbn [overlay_abs a_entries].
  rewrite !lookup_apply_changes, !bind_lookup_default. unfold layer_changes.
  destruct (default ∅ (l_entries (active o) !! (ow, c)) !! order); [done|].
  destruct (default ∅ (l_entries (committed o) !! (ow, c)) !! order); [done|].
  rewrite (base_entries (base o) a Hb) by (unfold width_max; lia).
  assert (range_list order order (a_entries a ow c)
    = option_list ((order,.) <$> a_entries a ow c !! order)) as ->.
  { apply sorted_keys_ext; [apply range_list_sorted| |].
    - destruct (a_entries a ow c !! order); repeat constructor.
    - intros [k v]. rewrite elem_of_range_list.
      destruct (a_entries a ow c !! order) as [w|] eqn:E; cbn.
      + rewrite list_elem_of_singleton. split.
        * intros [Hk Hv]. assert (k = order) as -> by lia. congruence.
        * intros [= -> ->]. split; [lia|done].
      + split; [|by intros ?%not_elem_of_nil]. intros [Hk Hv].
        assert (k = order) as -> by lia. congruence. }
  rewrite takeZ_take by lia. by destruct (a_entries a ow c !! order).
Qed.

(** The overlay's primitives keep the ledger's laws. *)
#[global] Instance overlay_laws : LedgerLaws (OverlayStore B).
Proof.
  split; intros o a.
  - intros k x [A1 A2 A3 A4 A5 A6 A7]. split; try done. intros k'. specialize (A1 k'). cbn in A1 |- *.
    unfold cell_value, upd in *. cbn. destruct (decide (k = k')) as [<-|].
    + by rewrite lookup_insert_eq.
    + by rewrite lookup_insert_ne.
  - intros k tx x [A1 A2 A3 A4 A5 A6 A7]. split; try done.
    + intros k'. cbn. specialize (A3 k') as A3'. cbn in A3'. unfold upd, effective_holds in *.
      rewrite !changed_holds_default in *. cbn. rewrite nested_lookup.
      destruct (decide (k = k')) as [<-|]; [|exact A3']. rewrite apply_changes_insert, A3'. done.
    + intros k' tx'. specialize (A6 k' tx'). cbn in A6 |- *. unfold upd, overlay_held_reservation in *.
      rewrite !bind_lookup_default in *. cbn. rewrite nested_lookup.
      destruct (decide (k = k')) as [<-|]; [|exact A6]. destruct (decide (tx = tx')) as [<-|Hne].
      * rewrite lookup_insert_eq. destruct x; cbn; [by rewrite lookup_insert_eq|by rewrite lookup_delete_eq].
      * rewrite lookup_insert_ne, A6 by done.
        destruct x; cbn; [by rewrite lookup_insert_ne|by rewrite lookup_delete_ne].
  - intros k tx x [A1 A2 A3 A4 A5 A6 A7]. split; try done. intros k'. cbn.
    specialize (A4 k') as A4'. cbn in A4'. unfold upd, effective_fee_holds in *.
    rewrite !changed_holds_default in *. cbn. rewrite nested_lookup.
    destruct (decide (k = k')) as [<-|]; [|exact A4']. rewrite apply_changes_insert, <- A4'. done.
  - intros k tx x [A1 A2 A3 A4 A5 A6 A7]. split; try done. intros k'. cbn.
    specialize (A5 k') as A5'. cbn in A5'. unfold upd, effective_withheld_credits in *.
    rewrite !extended_credits_default in *. cbn. rewrite nested_lookup.
    destruct (decide (k = k')) as [<-|]; [|exact A5']. rewrite <- A5'. cbn. by rewrite insert_union_l.
  - intros t m [A1 A2 A3 A4 A5 A6 A7]. by split.
  - intros [A1 A2 A3 A4 A5 A6 A7]. split; try done.
Qed.

End view.

(** ** Merging, discarding, collapsing *)

Lemma default_extend {K T A} `{Countable K, OrdKey K, Countable T} (com act : gmap K (gmap T A)) k :
  default ∅ (extend_entries extend_map com act !! k) = default ∅ (act !! k) ∪ default ∅ (com !! k).
Proof.
  rewrite lookup_extend_entries. destruct (act !! k); [done|]. cbn. by rewrite (left_id_L ∅ (∪)).
Qed.

Lemma default_empty {K T A} `{Countable K, Countable T} k :
  default ∅ ((∅ : gmap K (gmap T A)) !! k) = ∅.
Proof. by rewrite lookup_empty. Qed.

Section merging.
Context {B : Type} `{Baseline B}.
Implicit Types (o : OverlayStore B) (a : AbstractStore).

Lemma merge_active_abs o a : agree (overlay_abs (merge_active o) a) (overlay_abs o a).
Proof.
  assert (He : ∀ ow c, a_entries (overlay_abs (merge_active o) a) ow c = a_entries (overlay_abs o a) ow c).
  { intros ow c. cbn. unfold layer_changes. cbn [merge_active committed active l_entries layer_default].
    by rewrite default_extend, default_empty, apply_no_changes, apply_changes_twice. }
  assert (Hh : ∀ k, a_holds (overlay_abs (merge_active o) a) k = a_holds (overlay_abs o a) k).
  { intros k. cbn. by rewrite default_extend, default_empty, apply_no_changes, apply_changes_twice. }
  split.
  - intros k. cbn. rewrite lookup_empty, lookup_union.
    by destruct (l_cells (active o) !! k), (l_cells (committed o) !! k).
  - intros ow c lo hi limit _. cbn [entries_in_range abstract_substates]. by rewrite He.
  - exact Hh.
  - intros k. cbn. by rewrite default_extend, default_empty, apply_no_changes, apply_changes_twice.
  - intros k. cbn. by rewrite default_extend, default_empty, (left_id_L ∅ (∪)), (assoc_L (∪)).
  - intros k tx. cbn [held_reservation abstract_baseline]. by rewrite Hh.
  - cbn. unfold pending_map. apply map_eq. intros k. cbn [merge_active committed active l_pending layer_default].
    rewrite !lookup_extend_entries, lookup_empty. done.
Qed.

(** Committing the active layer changes no observation: a store that
    presented a view still presents it after [merge_active], with nothing left
    active. *)
Theorem merge_active_keeps_view o a a' :
  base_agree (base o) a → small_collections a → agree o a' →
  agree (merge_active o) a' ∧ active (merge_active o) = layer_default.
Proof.
  intros Hb Hs Ha'. split; [|done]. pose proof (overlay_agree o a Hb Hs) as Ha.
  pose proof (overlay_agree (merge_active o) a Hb Hs) as Hm.
  eapply agree_view; [exact Hm|]. eapply agree_view; [apply merge_active_abs|]. exact (agree_view_sym o _ _ Ha Ha').
Qed.

(** What a transaction's body and its settlement do to the store before the
    layer is merged or discarded. *)
Inductive tx_step : OverlayStore B → OverlayStore B → Prop :=
  | tx_read o k : tx_step o (read o k).1
  | tx_write o k v : tx_step o (write o k v).1
  | tx_remove o k : tx_step o (remove o k).1
  | tx_queue o k op : tx_step o (queue_delta o k op).1
  | tx_entry_write o ow c x v : tx_step o (entry_write o ow c x v).1
  | tx_entry_remove o ow c x : tx_step o (entry_remove o ow c x).1
  | tx_scan o ow c lo hi cap : tx_step o (scan_entries o ow c lo hi cap).1
  | tx_hold_unjudged o k tx x : tx_step o (hold_unjudged o k tx x)
  | tx_movement o k tx c d : tx_step o (apply_movement o k tx c d).1
  | tx_settle o k tx : tx_step o (settle o k tx).1
  | tx_release o k tx : tx_step o (release o k tx).1
  | tx_reduce o k tx x : tx_step o (reduce_hold o k tx x)
  | tx_fee o k tx x : tx_step o (set_fee_hold o k tx x)
  | tx_withhold o k tx x : tx_step o (withhold_credit o k tx x).

Lemma tx_step_below o o' : tx_step o o' → base o' = base o ∧ committed o' = committed o.
Proof.
  destruct 1; try done.
  - unfold apply_movement. by destruct (judge_movement o k tx c d).
  - unfold settle. by destruct (_ ← ok_or _ _; _) as [[]|].
  - unfold release. by destruct (ok_or _ _).
Qed.

(** Rollback. Whatever a transaction did to its layer, discarding the layer
    leaves the store as it was when the layer was empty, the access log aside. *)
Theorem discard_active_rolls_back o o' :
  active o = layer_default → rtc tx_step o o' →
  discard_active o' = {| base := base o; committed := committed o; active := active o; log := log o' |}.
Proof.
  intros Ha Hsteps. assert (base o' = base o ∧ committed o' = committed o) as [Eb Ec].
  { clear Ha. induction Hsteps as [|o1 o2 o3 Hstep _ IH]; [done|].
    apply tx_step_below in Hstep as [<- <-]. done. }
  unfold discard_active, set_active. by rewrite Eb, Ec, Ha.
Qed.

End merging.

(** A nested walk that updates one key's inner map at a time. *)
Section nested.
Context {M K T A C : Type} `{Countable K, OrdKey K, Countable T, OrdKey T}.
Context (op : M → K → T → C → M).

Lemma nested_fold_inv {P} (h : M → P) st m :
  (∀ st k t c, h (op st k t c) = h st) → h (nested_fold op st m) = h st.
Proof.
  intros Hop. unfold nested_fold. generalize (map_iter m). intros l. revert st.
  induction l as [|[k ch] l IH]; intros st; [done|]. cbn [foldl fst snd]. rewrite IH.
  generalize (map_iter ch). intros es. revert st. induction es as [|e es IHe]; intros st; [done|].
  cbn [foldl]. by rewrite IHe, Hop.
Qed.

Context (g : M → K → gmap T A) (f : gmap T A → T → C → gmap T A).
Hypothesis g_op : ∀ st k t c k', g (op st k t c) k' = if decide (k = k') then f (g st k) t c else g st k'.

Lemma inner_fold_view st k es k' :
  g (foldl (λ st e, op st k e.1 e.2) st es) k'
    = if decide (k = k') then foldl (λ m e, f m e.1 e.2) (g st k) es else g st k'.
Proof.
  revert st. induction es as [|e es IH]; intros st; cbn [foldl].
  - by destruct (decide (k = k')) as [<-|].
  - rewrite IH, !g_op. destruct (decide (k = k')) as [<-|]; [by rewrite decide_True|done].
Qed.

Lemma nested_fold_view st (m : gmap K (gmap T C)) k :
  g (nested_fold op st m) k
    = foldl (λ m e, f m e.1 e.2) (g st k) (map_iter (default ∅ (m !! k))).
Proof.
  unfold nested_fold.
  assert (Hl : ∀ l st, NoDup l.*1 →
    g (foldl (λ st p, foldl (λ st e, op st p.1 e.1 e.2) st (map_iter p.2)) st l) k
      = foldl (λ m e, f m e.1 e.2) (g st k)
          (map_iter (default ∅ ((list_to_map l : gmap K (gmap T C)) !! k)))).
  { clear st m. induction l as [|[k' ch] l IH]; intros st Hnd; [done|].
    rewrite fmap_cons in Hnd. apply NoDup_cons in Hnd as [Hnin Hnd]. cbn [foldl fst snd].
    rewrite IH by done. rewrite inner_fold_view. cbn [list_to_map foldr fst snd].
    destruct (decide (k' = k)) as [->|Hne].
    - rewrite lookup_insert_eq, not_elem_of_list_to_map_1 by done. done.
    - by rewrite lookup_insert_ne. }
  rewrite Hl by apply NoDup_map_iter. by rewrite list_to_map_iter.
Qed.

End nested.

Lemma foldl_insert_union {K A} `{Countable K, OrdKey K} (m new : gmap K A) :
  foldl (λ m e, <[e.1 := e.2]> m) m (map_iter new) = new ∪ m.
Proof.
  apply map_eq. intros k. rewrite lookup_union.
  pose proof (extend_entries_list (λ _ a, a) (map_iter new) m k (NoDup_map_iter new)) as E.
  rewrite list_to_map_iter in E. cbn beta in E.
  etransitivity; [exact E|]. by destruct (new !! k), (m !! k).
Qed.

(** ** The plain store an overlay stands for *)

(** The per-key views a collapse updates. *)
Definition view_entries (m : MemoryStore) (p : Address * CollectionId) := default ∅ (entries m !! p).
Definition view_holds (m : MemoryStore) (k : SubstateKey) := default ∅ (held m !! k).
Definition view_fees (m : MemoryStore) (k : SubstateKey) :=
  fee_members (default fee_default (fee_held m !! k)).
Definition view_rest (m : MemoryStore) (k : SubstateKey) :=
  fee_rest (default fee_default (fee_held m !! k)).
Definition view_withheld (m : MemoryStore) (k : SubstateKey) :=
  withheld_members (default withheld_default (withheld m !! k)).

Lemma collapse_entry_view st p x c p' :
  view_entries (collapse_entry st p x c) p'
    = if decide (p = p') then apply_change (view_entries st p) (x, c) else view_entries st p'.
Proof.
  unfold view_entries, collapse_entry. destruct p as [ow col].
  destruct c as [v|]; [|destruct (entries st !! (ow, col)) as [es|] eqn:E]; cbn.
  - destruct (decide _) as [<-|]; [by rewrite lookup_insert_eq|by rewrite lookup_insert_ne].
  - destruct (decide _) as [<-|]; [rewrite lookup_insert_eq; done|by rewrite lookup_insert_ne].
  - destruct (decide _) as [<-|]; [|done]. rewrite E. unfold apply_change. cbn. by rewrite delete_empty.
Qed.

Lemma set_hold_view st k tx o k' :
  view_holds (memory_set_hold st k tx o) k'
    = if decide (k = k') then apply_change (view_holds st k) (tx, o) else view_holds st k'.
Proof. unfold view_holds. rewrite memory_set_hold_lookup. by destruct o. Qed.

Lemma set_fee_view st k tx o k' :
  view_fees (memory_set_fee_hold st k tx o) k'
    = if decide (k = k') then apply_change (view_fees st k) (tx, o) else view_fees st k'.
Proof.
  unfold view_fees. rewrite memory_set_fee_lookup. destruct (decide (k = k')); [|done]. by destruct o.
Qed.

Lemma set_fee_rest st k tx o k' : view_rest (memory_set_fee_hold st k tx o) k' = view_rest st k'.
Proof.
  unfold view_rest. rewrite memory_set_fee_lookup. by destruct (decide (k = k')) as [<-|].
Qed.

Lemma withhold_view st k tx x k' :
  view_withheld (memory_withhold_credit st k tx x) k'
    = if decide (k = k') then <[tx := x]> (view_withheld st k) else view_withheld st k'.
Proof.
  unfold view_withheld. cbn. destruct (decide (k = k')) as [<-|].
  - by rewrite lookup_insert_eq.
  - by rewrite lookup_insert_ne.
Qed.

Lemma set_hold_frame st k tx o :
  cells (memory_set_hold st k tx o) = cells st ∧ entries (memory_set_hold st k tx o) = entries st ∧
  pending_deltas (memory_set_hold st k tx o) = pending_deltas st ∧
  fee_held (memory_set_hold st k tx o) = fee_held st ∧
  withheld (memory_set_hold st k tx o) = withheld st.
Proof. unfold memory_set_hold. destruct o; [done|]. by destruct (held st !! k). Qed.

Lemma set_fee_frame st k tx o :
  cells (memory_set_fee_hold st k tx o) = cells st ∧ entries (memory_set_fee_hold st k tx o) = entries st ∧
  pending_deltas (memory_set_fee_hold st k tx o) = pending_deltas st ∧
  held (memory_set_fee_hold st k tx o) = held st ∧
  withheld (memory_set_fee_hold st k tx o) = withheld st.
Proof. unfold memory_set_fee_hold. destruct o; [done|]. by destruct (fee_held st !! k). Qed.

Lemma collapse_entry_frame st p x c :
  cells (collapse_entry st p x c) = cells st ∧
  pending_deltas (collapse_entry st p x c) = pending_deltas st ∧
  held (collapse_entry st p x c) = held st ∧ fee_held (collapse_entry st p x c) = fee_held st ∧
  withheld (collapse_entry st p x c) = withheld st.
Proof. unfold collapse_entry. destruct c; [done|]. by destruct (entries st !! p). Qed.

(** What collapsing one layer does to each view. *)
Record layer_collapsed (l : Layer) (m m' : MemoryStore) : Prop := {
  lc_cells : cells m' = apply_hold_changes (cells m) (l_cells l);
  lc_entries : ∀ p, view_entries m' p = apply_hold_changes (view_entries m p) (default ∅ (l_entries l !! p));
  lc_holds : ∀ k, view_holds m' k = apply_hold_changes (view_holds m k) (default ∅ (l_held l !! k));
  lc_fees : ∀ k, view_fees m' k = apply_hold_changes (view_fees m k) (default ∅ (l_fee_held l !! k));
  lc_rest : ∀ k, view_rest m' k = view_rest m k;
  lc_withheld : ∀ k, view_withheld m' k = default ∅ (l_withheld l !! k) ∪ view_withheld m k;
  lc_pending : pending_deltas m' = extend_entries extend_list (pending_deltas m) (l_pending l);
}.

Lemma collapse_layer_spec l m : layer_collapsed l m (collapse_layer l m).
Proof.
  unfold collapse_layer. cbv zeta. set (m1 := memory_set_cells m _).
  set (m2 := nested_fold collapse_entry m1 _). set (m3 := memory_set_pending m2 _).
  set (m4 := nested_fold memory_set_hold m3 _). set (m5 := nested_fold memory_set_fee_hold m4 _).
  set (m6 := nested_fold memory_withhold_credit m5 _).
  assert (F2 : cells m2 = cells m1 ∧ pending_deltas m2 = pending_deltas m1 ∧ held m2 = held m1 ∧
    fee_held m2 = fee_held m1 ∧ withheld m2 = withheld m1)
    by (split_and!; apply nested_fold_inv; intros; apply collapse_entry_frame).
  assert (F4 : cells m4 = cells m3 ∧ entries m4 = entries m3 ∧ pending_deltas m4 = pending_deltas m3 ∧
    fee_held m4 = fee_held m3 ∧ withheld m4 = withheld m3)
    by (split_and!; apply nested_fold_inv; intros; apply set_hold_frame).
  assert (F5 : cells m5 = cells m4 ∧ entries m5 = entries m4 ∧ pending_deltas m5 = pending_deltas m4 ∧
    held m5 = held m4 ∧ withheld m5 = withheld m4)
    by (split_and!; apply nested_fold_inv; intros; apply set_fee_frame).
  assert (F6 : cells m6 = cells m5 ∧ entries m6 = entries m5 ∧ pending_deltas m6 = pending_deltas m5 ∧
    held m6 = held m5 ∧ fee_held m6 = fee_held m5)
    by (split_and!; by apply nested_fold_inv).
  destruct F2 as (F21 & F22 & F23 & F24 & F25), F4 as (F41 & F42 & F43 & F44 & F45),
    F5 as (F51 & F52 & F53 & F54 & F55), F6 as (F61 & F62 & F63 & F64 & F65). split.
  - rewrite F61, F51, F41. change (cells m3) with (cells m2). by rewrite F21.
  - intros p. unfold view_entries at 1. rewrite F62, F52, F42. change (entries m3) with (entries m2).
    fold (view_entries m2 p).
    exact (nested_fold_view _ view_entries (λ m t c, apply_change m (t, c)) collapse_entry_view m1 _ p).
  - intros k. unfold view_holds at 1. rewrite F64, F54. fold (view_holds m4 k).
    etransitivity; [exact (nested_fold_view _ view_holds (λ m t c, apply_change m (t, c)) set_hold_view m3 _ k)|].
    unfold view_holds. change (held m3) with (held m2). by rewrite F23.
  - intros k. unfold view_fees at 1. rewrite F65. fold (view_fees m5 k).
    etransitivity; [exact (nested_fold_view _ view_fees (λ m t c, apply_change m (t, c)) set_fee_view m4 _ k)|].
    unfold view_fees. rewrite F44. change (fee_held m3) with (fee_held m2). by rewrite F24.
  - intros k. unfold view_rest at 1. rewrite F65. fold (view_rest m5 k).
    etransitivity; [apply (nested_fold_inv _ (λ st, view_rest st k)); intros; apply set_fee_rest|].
    unfold view_rest. rewrite F44. change (fee_held m3) with (fee_held m2). by rewrite F24.
  - intros k.
    etransitivity; [exact (nested_fold_view _ view_withheld (λ m t c, <[t := c]> m) withhold_view m5 _ k)|].
    etransitivity; [apply foldl_insert_union|]. unfold view_withheld. rewrite F55, F45.
    change (withheld m3) with (withheld m2). by rewrite F25.
  - rewrite F63, F53, F43. subst m3. cbn [memory_set_pending pending_deltas]. by rewrite F22.
Qed.

Lemma collapse_agree (o : OverlayStore MemoryStore) :
  pending_deltas (base o) = ∅ →
  agree (collapse_onto o (base o)) (overlay_abs o (memory_abs (base o))).
Proof.
  intros Hp. unfold collapse_onto. set (m := base o) in *.
  destruct (collapse_layer_spec (committed o) m) as [A1 A2 A3 A4 A5 A6 A7].
  set (m1 := collapse_layer (committed o) m) in *.
  destruct (collapse_layer_spec (active o) m1) as [B1 B2 B3 B4 B5 B6 B7].
  set (m2 := collapse_layer (active o) m1) in *.
  assert (Hh : ∀ k, a_holds (memory_abs m2) k = a_holds (overlay_abs o (memory_abs m)) k).
  { intros k. cbn. fold (view_holds m2 k) (view_holds m k). by rewrite B3, A3. }
  eapply agree_view; [apply memory_agree|]. split.
  - intros k. cbn. by rewrite B1, lookup_apply_changes, A1, lookup_apply_changes.
  - intros ow c lo hi limit _. cbn [entries_in_range abstract_substates]. do 2 f_equal. cbn.
    fold (view_entries m2 (ow, c)) (view_entries m (ow, c)). by rewrite B2, A2.
  - exact Hh.
  - intros k. cbn. fold (view_fees m k) (view_rest m k). rewrite <- A4, <- B4, <- A5, <- B5.
    by destruct (default fee_default (fee_held m2 !! k)) eqn:E; unfold view_fees, view_rest; rewrite E.
  - intros k. cbn. fold (view_withheld m k). rewrite <- A6, <- B6.
    by destruct (default withheld_default (withheld m2 !! k)) eqn:E; unfold view_withheld; rewrite E.
  - intros k tx. cbn [held_reservation abstract_baseline]. by rewrite Hh.
  - cbn. rewrite B7, A7, Hp. unfold pending_map. f_equal. apply map_eq. intros k.
    rewrite lookup_extend_entries, lookup_empty. by destruct (l_pending (committed o) !! k).
Qed.

Lemma memory_base_agree (m : MemoryStore) : base_agree m (memory_abs m).
Proof.
  destruct (memory_agree m) as [A1 A2 A3 A4 A5 A6 A7]. split; [done| |done..].
  intros ow c lo hi limit Hl. by rewrite A2.
Qed.

(** Two stores answer an operation alike and go on presenting one view. *)
Definition alike {S1 S2 A} `{AmountLedger S1, AmountLedger S2} (p : S1 * A) (q : S2 * A) : Prop :=
  p.2 = q.2 ∧ ∃ a, agree p.1 a ∧ agree q.1 a.

Lemma simulates_alike {S1 S2 A} `{AmountLedger S1, AmountLedger S2} (p : S1 * A) (q : S2 * A) r :
  simulates p r → simulates q r → alike p q.
Proof. intros [A1 R1] [A2 R2]. split; [congruence|]. by exists r.1. Qed.

(** C27: an overlay stands for the plain store it collapses to. Over a base with
    nothing queued, whose collections fit a [usize], the two present the same
    view, and any sequence of ledger operations, the primitives and the derived
    ones, is answered alike on both, answer by answer, and leaves them presenting
    the same view. *)
Theorem overlay_refines_plain (o : OverlayStore MemoryStore) (ops : list LedgerOp) :
  small_collections (memory_abs (base o)) → pending_deltas (base o) = ∅ →
  let plain := collapse_onto o (base o) in
  (∃ a, agree o a ∧ agree plain a) ∧
  alike (ledger_run o ops) (ledger_run plain ops).
Proof.
  intros Hs Hp plain. pose proof (overlay_agree o _ (memory_base_agree (base o)) Hs) as Ho.
  pose proof (collapse_agree o Hp) as Hc. fold plain in Hc.
  split; [eauto|]. eapply simulates_alike; by apply sim_ledger_run.
Qed.

Section working.
Context {B : Type} `{Baseline B}.
Implicit Types (o : OverlayStore B) (a : AbstractStore).

(** A scan through the layers is the first [limit] entries of the collection
    as the layers leave it, in order: the base entries it fetches, the limit
    plus the layers' tombstones, are always enough. *)
Theorem merged_entries_correct o a ow c lo hi limit :
  base_agree (base o) a → small_collections a → 0 ≤ limit ≤ u64_max →
  merged_entries o ow c lo hi limit =
    takeZ limit (range_list lo hi
      (apply_hold_changes (apply_hold_changes (a_entries a ow c) (layer_changes (committed o) ow c))
                          (layer_changes (active o) ow c))).
Proof. apply overlay_scan. Qed.

(** The abstract effect of a write through a handle. *)
Definition put_cell a (k : SubstateKey) (v : option bytes) : AbstractStore := {|
  a_cell := upd (a_cell a) k v; a_entries := a_entries a; a_holds := a_holds a; a_fee := a_fee a;
  a_withheld := a_withheld a; a_queued := a_queued a |}.
Definition put_entry a (ow : Address) (c : CollectionId) (x : Z) (v : option bytes) : AbstractStore := {|
  a_cell := a_cell a;
  a_entries ow' c' := if decide ((ow, c) = (ow', c')) then apply_change (a_entries a ow c) (x, v)
                      else a_entries a ow' c';
  a_holds := a_holds a; a_fee := a_fee a; a_withheld := a_withheld a; a_queued := a_queued a |}.
Definition put_delta a (k : SubstateKey) (op : DeltaOp) : AbstractStore := {|
  a_cell := a_cell a; a_entries := a_entries a; a_holds := a_holds a; a_fee := a_fee a;
  a_withheld := a_withheld a;
  a_queued := <[k := default [] (a_queued a !! k) ++ [op]]> (a_queued a) |}.

Definition accessed o o' (t : EffectTarget) (m : ModeKind) : Prop :=
  log o' = log o ++ [{| access_target := t; access_kind := m |}].

Lemma nested_changes (m : gmap (Address * CollectionId) EntryChanges) p x v p' :
  default ∅ (nested_insert m p x v !! p') =
    if decide (p = p') then <[x := v]> (default ∅ (m !! p)) else default ∅ (m !! p').
Proof. apply nested_lookup. Qed.

Lemma put_entry_abs o a ow c x v t m :
  let o' := record o t m in
  agree (overlay_abs (set_active o' (set_l_entries (active o')
           (nested_insert (l_entries (active o')) (ow, c) x v))) a)
        (put_entry (overlay_abs o a) ow c x v).
Proof.
  split; try done. intros ow' c' lo hi limit _. cbn [entries_in_range abstract_substates]. do 2 f_equal.
  cbn. unfold layer_changes. cbn. rewrite nested_changes.
  destruct (decide ((ow, c) = (ow', c'))) as [[= <- <-]|]; [|done]. apply apply_changes_insert.
Qed.

(** The handles a body drives do what they say on the view the layers
    present, and every one of them records its access: reads answer the view's
    value, writes and removals change exactly their cell or entry, a removal
    answers what was there, a queued delta joins its cell's queue, and a scan
    answers the view's entries. *)
Theorem working_store_correct o a :
  base_agree (base o) a → small_collections a →
  let v := overlay_abs o a in
  (∀ k, (read o k).2 = Ok (a_cell v k) ∧ agree (read o k).1 v ∧ accessed o (read o k).1 (Point k) KRead) ∧
  (∀ k x, agree (write o k x).1 (put_cell v k (Some x)) ∧ accessed o (write o k x).1 (Point k) KWrite) ∧
  (∀ k, (remove o k).2 = Ok (a_cell v k) ∧ agree (remove o k).1 (put_cell v k None) ∧
        accessed o (remove o k).1 (Point k) KWrite) ∧
  (∀ k op, agree (queue_delta o k op).1 (put_delta v k op) ∧
           accessed o (queue_delta o k op).1 (Point k) KDelta) ∧
  (∀ ow c x y, agree (entry_write o ow c x y).1 (put_entry v ow c x (Some y)) ∧
               accessed o (entry_write o ow c x y).1 (Entry ow c x) KWrite) ∧
  (∀ ow c x, (entry_remove o ow c x).2 = Ok (a_entries v ow c !! x) ∧
             agree (entry_remove o ow c x).1 (put_entry v ow c x None) ∧
             accessed o (entry_remove o ow c x).1 (Entry ow c x) KWrite) ∧
  (∀ ow c lo hi cap, in_width 32 cap →
     (scan_entries o ow c lo hi cap).2 = Ok (takeZ cap (range_list lo hi (a_entries v ow c))) ∧
     agree (scan_entries o ow c lo hi cap).1 v ∧
     accessed o (scan_entries o ow c lo hi cap).1 (Range ow c lo hi cap) KRead).
Proof.
  intros Hb Hs v. pose proof (overlay_agree o a Hb Hs) as Ha.
  assert (Hcell : ∀ k, cell_value o k = a_cell v k) by (intros k; exact (agree_cell o v Ha k)).
  assert (Hput : ∀ o' a', base o' = base o → agree (overlay_abs o' a) a' → agree o' a').
  { intros o' a' E Hv. eapply agree_view; [|exact Hv]. apply overlay_agree; [by rewrite E|done]. }
  assert (Hcells : ∀ k x t m, let o' := record o t m in
    agree (set_active o' (set_l_cells (active o') (<[k := x]> (l_cells (active o'))))) (put_cell v k x)).
  { intros k x t m o'. apply Hput; [done|]. split; try done. intros k'. cbn. unfold upd.
    destruct (decide (k = k')) as [<-|]; [by rewrite lookup_insert_eq|by rewrite lookup_insert_ne]. }
  split_and!.
  - intros k. split; [cbn; by rewrite Hcell|]. split; [exact (law_note o v (Point k) KRead Ha)|done].
  - intros k x. split; [apply Hcells|done].
  - intros k. split; [cbn; f_equal; exact (Hcell k)|]. split; [apply Hcells|done].
  - intros k op. split; [|done]. apply Hput; [done|]. split; try done. cbn. unfold pending_map. cbn.
    apply map_eq. intros k'. rewrite lookup_extend_entries. destruct (decide (k = k')) as [<-|].
    + rewrite !lookup_insert_eq, lookup_extend_entries. unfold extend_list.
      destruct (l_pending (active o) !! k); cbn; [by rewrite app_assoc|done].
    + by rewrite !lookup_insert_ne, lookup_extend_entries by done.
  - intros ow c x y. split; [apply Hput; [done|apply put_entry_abs]|done].
  - intros ow c x. split; [|split; [apply Hput; [done|apply put_entry_abs]|done]].
    cbn. f_equal. exact (entry_value_spec o a ow c x Hb).
  - intros ow c lo hi cap [Hc0 Hc1]. split; [|split; [exact (law_note o v (Range ow c lo hi cap) KRead Ha)|done]].
    cbn [scan_entries snd]. f_equal. apply overlay_scan; [done..|unfold width_max; lia].
Qed.

End working.

(** ** Witnesses *)

(** A base with two entries; the active layer removes the first and adds a third. *)
Definition sample_base : MemoryStore :=
  memory_entry_write (memory_entry_write (memory_write memory_new vault (encode_amount 60))
    258 1 5 [x01]) 258 1 7 [x02].
Definition sample_overlay : OverlayStore MemoryStore :=
  (entry_write (entry_remove (overlay_new sample_base) 258 1 5).1 258 1 9 [x03]).1.

Lemma sample_small : small_collections (memory_abs sample_base).
Proof.
  intros ow c. cbn [memory_abs a_entries]. destruct (entries sample_base !! (ow, c)) as [es|] eqn:E.
  - assert (map_Forall (λ _ es, Z.of_nat (size es) ≤ u64_max) (entries sample_base)) as Hall
      by (apply (bool_decide_unpack _); vm_compute; exact I).
    exact (Hall _ _ E).
  - by vm_compute.
Qed.

(** A movement, a reservation, a fee hold, a withheld credit and a part settlement. *)
Definition sample_ops : list LedgerOp :=
  [OpMovement vault 9 0 10; OpJudgeAndHold [(3, vault, 20)]; OpSetFeeHold vault 4 (Some 5);
   OpWithholdCredit vault 5 7; OpReduceHold vault 3 12; OpSpendable vault 9 0; OpSettle vault 3].

Lemma overlay_refines_plain_witness :
  let plain := collapse_onto sample_overlay (base sample_overlay) in
  (ledger_run sample_overlay sample_ops).2 !! 5%nat = Some (AnsAmount (Ok 26)) ∧
  alike (ledger_run sample_overlay sample_ops) (ledger_run plain sample_ops).
Proof.
  split; [vm_compute; reflexivity|].
  destruct (overlay_refines_plain sample_overlay sample_ops sample_small) as (_ & Hrun);
    [vm_compute; reflexivity|]. exact Hrun.
Defined.

Lemma merged_entries_correct_witness :
  merged_entries sample_overlay 258 1 0 100 1 = [(7, [x02])] ∧
  merged_entries sample_overlay 258 1 0 100 1 =
    takeZ 1 (range_list 0 100
      (apply_hold_changes (apply_hold_changes (a_entries (memory_abs sample_base) 258 1)
         (layer_changes (committed sample_overlay) 258 1)) (layer_changes (active sample_overlay) 258 1))).
Proof.
  split; [vm_compute; reflexivity|]. apply merged_entries_correct.
  - apply memory_base_agree.
  - apply sample_small.
  - unfold width_max. lia.
Defined.

Lemma working_store_correct_witness :
  let v := overlay_abs sample_overlay (memory_abs sample_base) in
  (read sample_overlay vault).2 = Ok (a_cell v vault) ∧ agree (read sample_overlay vault).1 v ∧
  accessed sample_overlay (read sample_overlay vault).1 (Point vault) KRead.
Proof.
  destruct (working_store_correct sample_overlay (memory_abs sample_base)
    (memory_base_agree sample_base) sample_small) as [Hread _]. exact (Hread vault).
Defined.

Lemma merge_active_keeps_view_witness :
  agree (merge_active sample_overlay) (overlay_abs sample_overlay (memory_abs sample_base)) ∧
  active (merge_active sample_overlay) = layer_default.
Proof.
  apply (merge_active_keeps_view sample_overlay (memory_abs sample_base)).
  - apply memory_base_agree.
  - apply sample_small.
  - apply overlay_agree; [apply memory_base_agree|apply sample_small].
Defined.

Lemma discard_active_rolls_back_witness :
  let o := overlay_new sample_base in
  discard_active (write o vault [x00]).1
    = {| base := base o; committed := committed o; active := active o; log := log (write o vault [x00]).1 |}.
Proof.
  apply (discard_active_rolls_back (overlay_new sample_base)).
  - reflexivity.
  - apply rtc_once. constructor.
Defined.
