(* ===== verification/Commute.v ===== *)
(** * What non-conflicting declarations buy ([crates/types/src/mode.rs],
    [crates/kernel/src/{conflict,oracle,overlay,ledger}.rs])

    [Conflict.v] decides when two declarations conflict from a table of modes. This
    file says what the table is for: two transactions whose accesses stay inside
    declarations that do not conflict can be run in either order. A transaction is
    the sequence of working-store operations its body and its settlement make,
    followed by the fold of the movements it queued; a read observes a cell or a
    span of entries, a movement adds to a cell without observing it, a settlement
    takes from the transaction's own hold, and a write does as it likes. *)

From S2P Require Import Prelude Types Effects Conflict Modes Ledger Store Overlay.

(** ** A transaction's operations on the store *)

Inductive WorkOp :=
  | WRead (k : SubstateKey)
  | WBalance (k : SubstateKey)
  | WWrite (k : SubstateKey) (x : bytes)
  | WRemove (k : SubstateKey)
  | WQueue (k : SubstateKey) (op : DeltaOp)
  | WSettle (k : SubstateKey) (taken : Z)
  | WEntryWrite (ow : Address) (c : CollectionId) (x : Z) (y : bytes)
  | WEntryRemove (ow : Address) (c : CollectionId) (x : Z)
  | WScan (ow : Address) (c : CollectionId) (lo hi cap : Z).

Inductive WorkAnswer :=
  | WDone
  | WBytes (b : option bytes)
  | WAmount (r : result StoreError Z)
  | WTaken (x : Z)
  | WEntries (l : list (Z * bytes)).
#[global] Instance WorkAnswer_eq_dec : EqDecision WorkAnswer.
Proof. solve_decision. Defined.

(** The access an operation makes, as the oracle's trace has it; a settlement's was
    recorded when its reservation was judged. *)
Definition op_access (op : WorkOp) : Access :=
  match op with
  | WRead k | WBalance k => {| access_target := Point k; access_kind := KRead |}
  | WWrite k _ | WRemove k => {| access_target := Point k; access_kind := KWrite |}
  | WQueue k _ => {| access_target := Point k; access_kind := KDelta |}
  | WSettle k _ => {| access_target := Point k; access_kind := KReserve |}
  | WEntryWrite ow c x _ | WEntryRemove ow c x => {| access_target := Entry ow c x; access_kind := KWrite |}
  | WScan ow c lo hi cap => {| access_target := Range ow c lo hi cap; access_kind := KRead |}
  end.

(** The numbers of an operation fit their types. *)
Definition op_typed (op : WorkOp) : Prop :=
  match op with
  | WQueue _ d => op_ok d
  | WSettle _ taken => in_width 128 taken
  | WScan _ _ _ _ cap => in_width 32 cap
  | _ => True
  end.
#[global] Instance op_typed_dec op : Decision (op_typed op).
Proof. destruct op; apply _. Defined.

(** [amount_cell]: a cell's contents as an amount, as the transaction has left it;
    an absent or an empty cell is zero. *)
Definition balance {S} `{AmountLedger S} (s : S) (k : SubstateKey) (c : option bytes) : result StoreError Z :=
  committed ← match default [] c with [] => Ok 0 | c => map_err StoreMode (decode_amount c) end;
  with_queued s k committed.

(** How closing settles one reservation on a cell its shard applies: all of it
    released where nothing was taken against it, and otherwise what was taken, the
    hold reduced to it first. *)
Definition settle_taken {S} `{AmountLedger S} (s : S) (k : SubstateKey) (tx : TxHash) (taken : Z) :
    S * result StoreError Z :=
  if decide (taken = 0) then release s k tx else settle (reduce_hold s k tx taken) k tx.

Section working_store.
Context {B : Type} `{Baseline B}.
Implicit Types (o : OverlayStore B).

(** One operation, [None] where it refuses. *)
Definition work_op (tx : TxHash) (op : WorkOp) o : option (OverlayStore B * WorkAnswer) :=
  match op with
  | WRead k => Some ((read o k).1, WBytes (cell_value o k))
  | WBalance k => Some ((read o k).1, WAmount (balance (read o k).1 k (cell_value o k)))
  | WWrite k x => Some ((write o k x).1, WDone)
  | WRemove k => Some ((remove o k).1, WBytes (cell_value o k))
  | WQueue k d => Some ((queue_delta o k d).1, WDone)
  | WSettle k taken =>
      match settle_taken o k tx taken with (o', Ok x) => Some (o', WTaken x) | (_, Err _) => None end
  | WEntryWrite ow c x y => Some ((entry_write o ow c x y).1, WDone)
  | WEntryRemove ow c x => Some ((entry_remove o ow c x).1, WBytes (entry_value o ow c x))
  | WScan ow c lo hi cap => Some ((scan_entries o ow c lo hi cap).1, WEntries (merged_entries o ow c lo hi cap))
  end.
Fixpoint work_ops (tx : TxHash) (ops : list WorkOp) o : option (OverlayStore B * list WorkAnswer) :=
  match ops with
  | [] => Some (o, [])
  | op :: ops =>
      r ← work_op tx op o;
      rest ← work_ops tx ops r.1;
      Some (rest.1, r.2 :: rest.2)
  end.
(** A transaction: its operations, and the fold of what it queued. *)
Definition work_run (tx : TxHash) (ops : list WorkOp) o : option (OverlayStore B * list WorkAnswer) :=
  r ← work_ops tx ops o;
  match commit_deltas r.1 with (o', Ok _) => Some (o', r.2) | (_, Err _) => None end.
End working_store.

(** ** The same on what the store presents *)

Record same_view (v w : AbstractStore) : Prop := {
  sv_cell : ∀ k, a_cell v k = a_cell w k;
  sv_entries : ∀ ow c, a_entries v ow c = a_entries w ow c;
  sv_holds : ∀ k, a_holds v k = a_holds w k;
  sv_fee : ∀ k, a_fee v k = a_fee w k;
  sv_withheld : ∀ k, a_withheld v k = a_withheld w k;
  sv_queued : a_queued v = a_queued w;
}.
#[global] Instance same_view_equiv : Equivalence same_view.
Proof.
  split.
  - by intros v.
  - by intros v w [].
  - intros u v w [A1 A2 A3 A4 A5 A6] [B1 B2 B3 B4 B5 B6]. split; intros; congruence.
Qed.

Definition view_op (tx : TxHash) (op : WorkOp) (v : AbstractStore) : option (AbstractStore * WorkAnswer) :=
  match op with
  | WRead k => Some (v, WBytes (a_cell v k))
  | WBalance k => Some (v, WAmount (balance v k (a_cell v k)))
  | WWrite k x => Some (put_cell v k (Some x), WDone)
  | WRemove k => Some (put_cell v k None, WBytes (a_cell v k))
  | WQueue k d => Some (put_delta v k d, WDone)
  | WSettle k taken =>
      match settle_taken v k tx taken with (v', Ok x) => Some (v', WTaken x) | (_, Err _) => None end
  | WEntryWrite ow c x y => Some (put_entry v ow c x (Some y), WDone)
  | WEntryRemove ow c x => Some (put_entry v ow c x None, WBytes (a_entries v ow c !! x))
  | WScan ow c lo hi cap => Some (v, WEntries (takeZ cap (range_list lo hi (a_entries v ow c))))
  end.

Inductive view_ops (tx : TxHash) : list WorkOp → AbstractStore → AbstractStore → list WorkAnswer → Prop :=
  | view_ops_nil v : view_ops tx [] v v []
  | view_ops_cons op ops v v1 v1' v2 ans anss :
      view_op tx op v = Some (v1, ans) → same_view v1' v1 → view_ops tx ops v1' v2 anss →
      view_ops tx (op :: ops) v v2 (ans :: anss).
Definition view_run (tx : TxHash) (ops : list WorkOp) (v v' : AbstractStore) (anss : list WorkAnswer) : Prop :=
  ∃ u u' ds, view_ops tx ops v u anss ∧ commit_deltas u = (u', Ok ds) ∧ same_view v' u'.

(** *** Every run of the store is a run of its view *)

Section lift.
Context {B : Type} `{Baseline B}.
Implicit Types (o : OverlayStore B) (a : AbstractStore).

Lemma sim_settle_taken o a k tx taken :
  agree o a → simulates (settle_taken o k tx taken) (settle_taken a k tx taken).
Proof.
  intros Ha. unfold settle_taken. destruct (decide (taken = 0)); [by apply sim_release|].
  by apply sim_settle, sim_reduce_hold.
Qed.

(** What a ledger operation does not touch: the base and the entries. *)
Definition entries_kept o o' : Prop :=
  base o' = base o ∧ l_entries (active o') = l_entries (active o) ∧ l_entries (committed o') = l_entries (committed o).

Lemma settle_taken_entries o k tx taken : entries_kept o (settle_taken o k tx taken).1.
Proof.
  unfold settle_taken, release, settle. destruct (decide (taken = 0)).
  - by destruct (ok_or _ _).
  - by destruct (_ ≫= _) as [[]|].
Qed.
Lemma commit_entries o : entries_kept o (commit_deltas o).1.
Proof.
  unfold commit_deltas. destruct (fold_all _ _) as [ds|]; [|done]. cbn [fst].
  enough (∀ o', entries_kept o' (foldl (λ s d, set_amount s (applied_key d) (applied_after d)) o' ds)) as Hk.
  { destruct (Hk o) as (? & ? & ?). done. }
  induction ds as [|d ds IH]; intros o'; [done|]. cbn [foldl].
  destruct (IH (set_amount o' (applied_key d) (applied_after d))) as (? & ? & ?). done.
Qed.

Lemma ledger_view o o' a v' :
  base_agree (base o) a → small_collections a → entries_kept o o' → agree o' v' →
  (∀ ow c, a_entries v' ow c = a_entries (overlay_abs o a) ow c) → same_view (overlay_abs o' a) v'.
Proof.
  intros Hb Hs (K1 & K2 & K3) Hv He. assert (Ho : agree o' (overlay_abs o' a)) by (apply overlay_agree; [by rewrite K1|done]).
  split.
  - intros k. exact (eq_trans (eq_sym (agree_cell _ _ Ho k)) (agree_cell _ _ Hv k)).
  - intros ow c. rewrite He. cbn. unfold layer_changes. by rewrite K2, K3.
  - intros k. exact (eq_trans (eq_sym (agree_holds _ _ Ho k)) (agree_holds _ _ Hv k)).
  - intros k. exact (eq_trans (eq_sym (agree_fee _ _ Ho k)) (agree_fee _ _ Hv k)).
  - intros k. exact (eq_trans (eq_sym (agree_withheld _ _ Ho k)) (agree_withheld _ _ Hv k)).
  - exact (eq_trans (eq_sym (agree_queued _ _ Ho)) (agree_queued _ _ Hv)).
Qed.
Lemma settle_taken_view a k tx taken : a_entries (settle_taken a k tx taken).1 = a_entries a.
Proof.
  unfold settle_taken, release, settle. destruct (decide (taken = 0)).
  - by destruct (ok_or _ _).
  - by destruct (_ ≫= _) as [[]|].
Qed.
Lemma set_amounts_entries (ds : list AppliedDelta) a :
  a_entries (foldl (λ s d, set_amount s (applied_key d) (applied_after d)) a ds) = a_entries a.
Proof. revert a. induction ds as [|d ds IH]; intros a; [done|]. cbn [foldl]. by rewrite IH. Qed.
Lemma commit_view a : a_entries (commit_deltas a).1 = a_entries a.
Proof. unfold commit_deltas. destruct (fold_all _ _); [|done]. cbn [fst]. apply set_amounts_entries. Qed.

Lemma put_entry_view o a ow c x y t m :
  let o' := record o t m in
  same_view (overlay_abs (set_active o' (set_l_entries (active o') (nested_insert (l_entries (active o')) (ow, c) x y))) a)
    (put_entry (overlay_abs o a) ow c x y).
Proof.
  split; try done. intros ow' c'. cbn. unfold layer_changes. cbn. rewrite nested_changes.
  destruct (decide ((ow, c) = (ow', c'))) as [[= <- <-]|]; [|done]. apply apply_changes_insert.
Qed.
Lemma put_cell_view o a k x t m :
  let o' := record o t m in
  same_view (overlay_abs (set_active o' (set_l_cells (active o') (<[k := x]> (l_cells (active o'))))) a)
    (put_cell (overlay_abs o a) k x).
Proof.
  split; try done. intros k'. cbn. unfold upd.
  destruct (decide (k = k')) as [<-|]; [by rewrite lookup_insert_eq|by rewrite lookup_insert_ne].
Qed.

Lemma work_op_view tx op o o' a ans :
  base_agree (base o) a → small_collections a → op_typed op → work_op tx op o = Some (o', ans) →
  base o' = base o ∧ ∃ v', view_op tx op (overlay_abs o a) = Some (v', ans) ∧ same_view (overlay_abs o' a) v'.
Proof.
  intros Hb Hs Ht E. pose proof (overlay_agree o a Hb Hs) as Ha.
  assert (Hcell : ∀ k, cell_value o k = a_cell (overlay_abs o a) k) by (intros k; exact (agree_cell _ _ Ha k)).
  destruct op; cbn [work_op view_op op_typed] in *.
  - injection E as <- <-. rewrite Hcell. split; [done|]. by eexists.
  - injection E as <- <-. rewrite Hcell. split; [done|]. by eexists.
  - injection E as <- <-. split; [done|]. eexists. split; [done|]. apply put_cell_view.
  - injection E as <- <-. rewrite Hcell. split; [done|]. eexists. split; [done|]. apply put_cell_view.
  - injection E as <- <-. split; [done|]. eexists. split; [done|]. split; try done. cbn. unfold pending_map. cbn.
    apply map_eq. intros k'. rewrite lookup_extend_entries. destruct (decide (k = k')) as [<-|].
    + rewrite !lookup_insert_eq, lookup_extend_entries. unfold extend_list.
      destruct (l_pending (active o) !! k); cbn; [by rewrite app_assoc|done].
    + by rewrite !lookup_insert_ne, lookup_extend_entries by done.
  - destruct (sim_settle_taken o _ k tx taken Ha) as [Hs' Hr]. pose proof (settle_taken_entries o k tx taken) as Hk.
    pose proof (settle_taken_view (overlay_abs o a) k tx taken) as He.
    destruct (settle_taken o k tx taken) as [o1 r1], (settle_taken (overlay_abs o a) k tx taken) as [v1 r2].
    cbn [fst snd] in *. subst r2. destruct r1; [|done]. injection E as <- <-. split; [apply Hk|]. eexists. split; [done|].
    eapply (ledger_view o); try done. intros. by rewrite He.
  - injection E as <- <-. split; [done|]. eexists. split; [done|]. apply put_entry_view.
  - injection E as <- <-. rewrite (entry_value_spec o a ow c x Hb). split; [done|]. eexists. split; [done|]. apply put_entry_view.
  - injection E as <- <-. split; [done|]. eexists. split; [|done]. do 3 f_equal. symmetry.
    apply overlay_scan; [done..|]. unfold in_width, width_max in *. lia.
Qed.

Lemma work_ops_view tx ops o o' a anss :
  base_agree (base o) a → small_collections a → Forall op_typed ops → work_ops tx ops o = Some (o', anss) →
  base o' = base o ∧ view_ops tx ops (overlay_abs o a) (overlay_abs o' a) anss.
Proof.
  intros Hb Hs Ht. revert o o' anss Hb. induction Ht as [|op ops Hop _ IH]; intros o o' anss Hb E.
  - injection E as <- <-. split; [done|]. constructor.
  - cbn [work_ops] in E. apply bind_Some in E as ([o1 ans] & E1 & E). apply bind_Some in E as ([o2 rest] & E2 & [= <- <-]).
    cbn [fst snd] in *. destruct (work_op_view tx op o o1 a ans Hb Hs Hop E1) as (Hbase & v' & Hv & Hsame).
    rewrite <- Hbase in Hb. destruct (IH o1 o2 rest Hb E2) as [Hb2 Hops]. split; [congruence|]. by econstructor.
Qed.
Lemma work_run_view tx ops o o' a anss :
  base_agree (base o) a → small_collections a → Forall op_typed ops → work_run tx ops o = Some (o', anss) →
  base o' = base o ∧ view_run tx ops (overlay_abs o a) (overlay_abs o' a) anss.
Proof.
  intros Hb Hs Ht E. unfold work_run in E. apply bind_Some in E as ([o1 anss1] & E1 & E). cbn [fst snd] in E.
  destruct (work_ops_view tx ops o o1 a anss1 Hb Hs Ht E1) as [Hbase Hops]. rewrite <- Hbase in Hb.
  pose proof (overlay_agree o1 a Hb Hs) as Ha. destruct (sim_commit_deltas o1 _ Ha) as [Hs' Hr].
  pose proof (commit_entries o1) as Hk. pose proof (commit_view (overlay_abs o1 a)) as He.
  destruct (commit_deltas o1) as [o2 r1], (commit_deltas (overlay_abs o1 a)) as [v2 r2] eqn:Ec. cbn [fst snd] in *. subst r2.
  destruct r1 as [ds|]; [|done]. injection E as <- <-. split; [destruct Hk; congruence|].
  exists (overlay_abs o1 a), v2, ds. split; [done|]. split; [done|]. eapply (ledger_view o1); try done. intros. by rewrite He.
Qed.
End lift.

(** ** Footprints *)

(** A movement of a cell, which adds without observing. *)
Definition op_moves (k : SubstateKey) (op : WorkOp) : Prop :=
  match op with WQueue k' _ => k' = k | WSettle k' taken => k' = k ∧ taken ≠ 0 | _ => False end.
Definition op_writes (l : location) (op : WorkOp) : Prop :=
  match op with
  | WWrite k _ | WRemove k => l = CellAt k
  | WEntryWrite ow c x _ | WEntryRemove ow c x => l = EntryAt ow c x
  | _ => False
  end.
Definition op_reads (l : location) (op : WorkOp) : Prop :=
  match op with
  | WRead k | WBalance k => l = CellAt k
  | WScan ow c lo hi _ => match l with EntryAt ow' c' x => ow' = ow ∧ c' = c ∧ lo ≤ x ≤ hi | CellAt _ => False end
  | _ => False
  end.
#[global] Instance location_eq_dec : EqDecision location.
Proof. solve_decision. Defined.
#[global] Instance op_moves_dec k op : Decision (op_moves k op).
Proof. destruct op; unfold op_moves; apply _. Defined.
#[global] Instance op_writes_dec l op : Decision (op_writes l op).
Proof. destruct op; unfold op_writes; apply _. Defined.

Definition moved (ops : list WorkOp) (k : SubstateKey) : Prop := Exists (op_moves k) ops.
Definition written (ops : list WorkOp) (l : location) : Prop := Exists (op_writes l) ops.
Definition observed (ops : list WorkOp) (l : location) : Prop := Exists (λ op, op_reads l op ∨ op_writes l op) ops.

Lemma written_observed ops l : written ops l → observed ops l.
Proof. intros Hw. eapply Exists_impl; [exact Hw|]. by right. Qed.

(** *** What one settlement does *)

Lemma settle_taken_spec (v v' : AbstractStore) k tx taken x :
  settle_taken v k tx taken = (v', Ok x) →
  (∀ k', a_holds v' k' = if decide (k = k') then delete tx (a_holds v k) else a_holds v k') ∧
  a_entries v' = a_entries v ∧ a_fee v' = a_fee v ∧ a_withheld v' = a_withheld v ∧ a_queued v' = a_queued v ∧
  if decide (taken = 0) then a_holds v k !! tx = Some x ∧ a_cell v' = a_cell v
  else x = Z.min taken (default 0 (a_holds v k !! tx)) ∧
    ∃ y, amount v k = Ok y ∧ x ≤ y ∧ a_cell v' = upd (a_cell v) k (amount_cell (y - x)).
Proof.
  unfold settle_taken. destruct (decide (taken = 0)) as [->|Hne].
  - unfold release. cbn [held_reservation abstract_baseline]. destruct (a_holds v k !! tx) as [h|] eqn:Hh; [|done].
    by intros [= <- <-].
  - unfold settle, reduce_hold. cbn [held_reservation abstract_baseline set_hold abstract_ledger a_holds]. rewrite upd_eq.
    cbn [hold_change]. rewrite lookup_insert_eq. cbn [ok_or mbind result_bind].
    change (amount _ k) with (amount v k) at 1. destruct (amount v k) as [y|] eqn:Hy; [|done]. cbn [mbind result_bind].
    unfold checked_sub. destruct (decide _) as [Hle|]; [|done]. cbn [ok_or mbind result_bind]. intros [= <- <-].
    split; [|split_and!; try done; by exists y]. intros k'. cbn.
    destruct (decide (k = k')) as [<-|]; [|by rewrite !upd_ne]. rewrite !upd_eq. apply map_eq. intros tx'.
    destruct (decide (tx = tx')) as [<-|]; [by rewrite !lookup_delete_eq|by rewrite !lookup_delete_ne, lookup_insert_ne].
Qed.

(** *** What the fold does *)

Lemma set_amounts_cells (ds : list AppliedDelta) (a : AbstractStore) :
  NoDup (applied_key <$> ds) → ∀ d, d ∈ ds →
  a_cell (foldl (λ s d, set_amount s (applied_key d) (applied_after d)) a ds) (applied_key d) = amount_cell (applied_after d).
Proof.
  revert a. induction ds as [|d0 ds IH]; intros a Hnd d Hd; [by apply not_elem_of_nil in Hd|].
  rewrite fmap_cons in Hnd. apply NoDup_cons in Hnd as [Hnin Hnd]. cbn [foldl].
  apply elem_of_cons in Hd as [->|Hd]; [|by apply IH].
  destruct (set_amounts_spec ds (set_amount a (applied_key d0) (applied_after d0)) Hnd) as (_ & E & _).
  rewrite E by done. cbn. by rewrite upd_eq.
Qed.
Lemma commit_spec (v v' : AbstractStore) ds :
  queue_ok (a_queued v) → commit_deltas v = (v', Ok ds) →
  a_queued v' = ∅ ∧ a_holds v' = a_holds v ∧ a_entries v' = a_entries v ∧ a_fee v' = a_fee v ∧ a_withheld v' = a_withheld v ∧
  ∀ k, match a_queued v !! k with
       | Some ops => ∃ x y, amount v k = Ok x ∧ fold_deltas x ops = Ok y ∧ in_width 128 y ∧ a_cell v' k = amount_cell y
       | None => a_cell v' k = a_cell v k
       end.
Proof.
  intros Hq Hc. pose proof (commit_view v) as He. rewrite Hc in He. cbn [fst] in He. unfold commit_deltas in Hc.
  cbn [queued abstract_ledger] in Hc. destruct (fold_all v _) as [ds'|] eqn:Hf; [|done]. injection Hc as <- ->.
  apply fold_all_ok in Hf as HF.
  assert (Hkeys : applied_key <$> ds = (map_iter (a_queued v)).*1).
  { clear -HF. induction HF as [|p d l ds [E _] _ IH]; [done|]. rewrite !fmap_cons. by rewrite E, IH. }
  assert (Hnd : NoDup (applied_key <$> ds)) by (rewrite Hkeys; apply NoDup_map_iter).
  destruct (set_amounts_spec ds v Hnd) as (E1 & E2 & _). destruct (set_amounts_promises ds v) as [E3 E4].
  pose proof (set_amounts_cells ds v Hnd) as E5. cbn [abstract_ledger clear_queued a_queued a_holds a_cell a_fee a_withheld].
  split_and!; try done. intros k. destruct (a_queued v !! k) as [ops|] eqn:Hk.
  - assert (Hin : (k, ops) ∈ map_iter (a_queued v)) by (by apply elem_of_map_iter).
    apply list_elem_of_lookup in Hin as [i Hi].
    destruct (Forall2_lookup_l _ _ _ _ _ HF Hi) as (d & Hd & Hdk & x & Hx & Hy). cbn [fst snd] in *.
    exists x, (applied_after d). split; [done|]. split; [done|].
    split; [eapply fold_deltas_width; [by eapply amount_width|by apply (Hq k)|done]|].
    assert (Hin : d ∈ ds) by (apply list_elem_of_lookup; by exists i). specialize (E5 d Hin). by rewrite Hdk in E5.
  - apply E2. rewrite Hkeys. intros ([k' ops] & -> & Hin%elem_of_map_iter)%list_elem_of_fmap. cbn [fst] in Hk. congruence.
Qed.

Lemma amount_cell_amount (v : AbstractStore) k y : in_width 128 y → a_cell v k = amount_cell y → amount v k = Ok y.
Proof.
  intros Hy E. unfold amount. cbn [cell abstract_substates]. rewrite E. unfold amount_cell. destruct (decide (y ≠ 0)) as [Hne|Heq].
  - by rewrite decode_encode.
  - by destruct (decide (y = 0)) as [->|].
Qed.
Lemma amount_same (v w : AbstractStore) k : a_cell v k = a_cell w k → amount v k = amount w k.
Proof. intros E. unfold amount. cbn [cell abstract_substates]. by rewrite E. Qed.

(** ** The frame *)

(** The transaction's holds are amounts. *)
Definition holds_typed (tx : TxHash) (v : AbstractStore) : Prop := ∀ k h, a_holds v k !! tx = Some h → in_width 128 h.

Record framed (tx : TxHash) (ops : list WorkOp) (v v' : AbstractStore) : Prop := {
  fr_cell : ∀ k, ¬ moved ops k → ¬ written ops (CellAt k) → a_cell v' k = a_cell v k;
  fr_entries : ∀ ow c x, ¬ written ops (EntryAt ow c x) → a_entries v' ow c !! x = a_entries v ow c !! x;
  fr_holds : ∀ k tx', tx' ≠ tx → a_holds v' k !! tx' = a_holds v k !! tx';
  fr_own : ∀ k h, a_holds v' k !! tx = Some h → a_holds v k !! tx = Some h;
  fr_fee : ∀ k, a_fee v' k = a_fee v k;
  fr_withheld : ∀ k, a_withheld v' k = a_withheld v k;
}.
Lemma framed_typed tx ops v v' : framed tx ops v v' → holds_typed tx v → holds_typed tx v'.
Proof. intros Hf Hv k h Hh. by eapply Hv, (fr_own _ _ _ _ Hf). Qed.
Lemma framed_nil tx v : framed tx [] v v.
Proof. by split. Qed.
Lemma framed_same tx ops v v' u : framed tx ops v u → same_view v' u → framed tx ops v v'.
Proof.
  intros [A1 A2 A3 A4 A5 A6] [B1 B2 B3 B4 B5 B6]. split.
  - intros. rewrite B1. auto.
  - intros. rewrite B2. auto.
  - intros. rewrite B3. auto.
  - intros k h. rewrite B3. auto.
  - intros. rewrite B4. auto.
  - intros. rewrite B5. auto.
Qed.
Lemma framed_app tx ops1 ops2 u v w : framed tx ops1 u v → framed tx ops2 v w → framed tx (ops1 ++ ops2) u w.
Proof.
  intros [A1 A2 A3 A4 A5 A6] [B1 B2 B3 B4 B5 B6]. split; unfold moved, written in *.
  - intros k. rewrite !Exists_app. intros Hm Hw. rewrite B1, A1; tauto.
  - intros ow c x. rewrite !Exists_app. intros Hw. rewrite B2, A2; tauto.
  - intros. rewrite B3, A3; done.
  - auto.
  - intros. by rewrite B5, A5.
  - intros. by rewrite B6, A6.
Qed.
Lemma view_op_framed tx op v v' ans : view_op tx op v = Some (v', ans) → framed tx [op] v v'.
Proof.
  destruct op; cbn [view_op]; intros E; try (injection E as <- <-); try (by split).
  - split; try done. intros k' Hm Hw. cbn. rewrite upd_ne; [done|]. intros ->. apply Hw. by constructor.
  - split; try done. intros k' Hm Hw. cbn. rewrite upd_ne; [done|]. intros ->. apply Hw. by constructor.
  - destruct (settle_taken v k tx taken) as [v1 [x|]] eqn:Es; [|done]. injection E as <- <-.
    apply settle_taken_spec in Es as (S1 & S2 & S3 & S4 & S5 & S6). split.
    + intros k' Hm _. destruct (decide (taken = 0)) as [|Hne]; [by destruct S6 as [_ ->]|].
      destruct S6 as (_ & y & _ & _ & ->). apply upd_ne. intros ->. apply Hm. by constructor.
    + intros. by rewrite S2.
    + intros k' tx' Hne. rewrite S1. destruct (decide (k = k')) as [<-|]; [by rewrite lookup_delete_ne|done].
    + intros k' h. rewrite S1. destruct (decide (k = k')) as [<-|]; [by rewrite lookup_delete_eq|done].
    + intros. by rewrite S3.
    + intros. by rewrite S4.
  - split; try done. intros ow' c' x' Hw. cbn. destruct (decide _) as [[= <- <-]|]; [|done]. cbn. rewrite lookup_insert_ne; [done|].
    intros ->. apply Hw. by constructor.
  - split; try done. intros ow' c' x' Hw. cbn. destruct (decide _) as [[= <- <-]|]; [|done]. cbn. rewrite lookup_delete_ne; [done|].
    intros ->. apply Hw. by constructor.
Qed.

(** *** Movements *)

Definition queue_in (p : list WorkOp) (v : AbstractStore) : Prop :=
  map_Forall (λ k q, Forall op_ok q ∧ moved p k) (a_queued v).
Lemma queue_in_ok p v : queue_in p v → queue_ok (a_queued v).
Proof. intros Hq k q Hk. apply (Hq k q Hk). Qed.
Lemma view_op_queue tx p op v v' ans :
  op ∈ p → op_typed op → queue_in p v → view_op tx op v = Some (v', ans) → queue_in p v'.
Proof.
  intros Hp Ht Hq. destruct op; cbn [view_op]; intros E; try (injection E as <- <-; exact Hq).
  - injection E as <- <-. intros k' q. cbn. intros [[<- <-]|[_ Hk]]%lookup_insert_Some; [|by apply Hq].
    split; [|apply Exists_exists; by exists (WQueue k op)]. apply Forall_app. split; [|by constructor].
    destruct (a_queued v !! k) as [q|] eqn:Hk; [|done]. apply (Hq k q Hk).
  - destruct (settle_taken v k tx taken) as [v1 [x|]] eqn:Es; [|done]. injection E as <- <-.
    apply settle_taken_spec in Es as (_ & _ & _ & _ & S5 & _). unfold queue_in. by rewrite S5.
Qed.

(** A cell holding an amount as an amount is written. *)
Definition canonical (v : AbstractStore) (k : SubstateKey) : Prop := ∃ y, in_width 128 y ∧ a_cell v k = amount_cell y.
Lemma settled_width (v : AbstractStore) k y x : amount v k = Ok y → 0 ≤ x ≤ y → in_width 128 (y - x).
Proof. intros [? ?]%amount_width ?. unfold in_width. lia. Qed.
Lemma view_op_canonical tx op v v' ans k :
  op_typed op → holds_typed tx v → ¬ op_writes (CellAt k) op → view_op tx op v = Some (v', ans) →
  op_moves k op ∨ is_Some (a_queued v !! k) ∨ canonical v k → is_Some (a_queued v' !! k) ∨ canonical v' k.
Proof.
  intros Ht Hh Hw. destruct op; cbn [view_op op_moves op_writes op_typed] in *; intros E; try (injection E as <- <-); try tauto.
  - intros [[]|Hc]. destruct Hc as [Hc|(y & Hy & Hc)]; [by left|right]. exists y. split; [done|]. cbn. rewrite upd_ne; congruence.
  - intros [[]|Hc]. destruct Hc as [Hc|(y & Hy & Hc)]; [by left|right]. exists y. split; [done|]. cbn. rewrite upd_ne; congruence.
  - cbn. intros [->|[Hc|Hc]]; [by left; rewrite lookup_insert_eq| |by right].
    left. destruct (decide (k0 = k)) as [->|]; [by rewrite lookup_insert_eq|by rewrite lookup_insert_ne].
  - destruct (settle_taken v k0 tx taken) as [v1 [x|]] eqn:Es; [|done]. injection E as <- <-.
    apply settle_taken_spec in Es as (_ & _ & _ & _ & S5 & S6). intros Hc. rewrite S5. destruct (decide (taken = 0)) as [|Hne].
    + destruct S6 as [_ S6]. unfold canonical in *. rewrite S6. tauto.
    + destruct S6 as (Hx & y & Hy & Hle & S6). destruct (decide (k0 = k)) as [->|Hne'].
      * right. exists (y - x). split; [|by rewrite S6, upd_eq]. eapply settled_width; [done|]. split; [|done].
        destruct Ht as [Ht0 _]. destruct (a_holds v k !! tx) as [h|] eqn:Hk; cbn in Hx; [destruct (Hh k h Hk)|]; lia.
      * unfold canonical in *. rewrite S6, upd_ne by done. tauto.
Qed.
Lemma view_op_decodable tx op v v' ans k :
  ¬ op_writes (CellAt k) op → view_op tx op v = Some (v', ans) → is_ok (amount v' k) = true → is_ok (amount v k) = true.
Proof.
  intros Hw E. pose proof (view_op_framed tx op v v' ans E) as Hf. destruct (decide (op_moves k op)) as [Hm|Hm].
  - destruct op; cbn [op_moves] in Hm; try done; cbn [view_op] in E.
    + by injection E as <- <-.
    + destruct Hm as [-> Hne]. destruct (settle_taken v k tx taken) as [v1 [x|]] eqn:Es; [|done].
      apply settle_taken_spec in Es as (_ & _ & _ & _ & _ & S6). rewrite decide_False in S6 by done.
      by destruct S6 as (_ & y & -> & _).
  - intros Hok. erewrite amount_same; [exact Hok|]. symmetry. apply (fr_cell _ _ _ _ Hf); by intros [?|?%Exists_nil]%Exists_cons.
Qed.

(** *** A whole transaction's frame *)

Lemma view_ops_facts tx p ops v u anss :
  ops ⊆ p → Forall op_typed ops → holds_typed tx v → queue_in p v → view_ops tx ops v u anss →
  framed tx ops v u ∧ queue_in p u ∧
  ∀ k, ¬ written ops (CellAt k) →
    (moved ops k ∨ is_Some (a_queued v !! k) ∨ canonical v k → is_Some (a_queued u !! k) ∨ canonical u k) ∧
    (is_ok (amount u k) = true → is_ok (amount v k) = true).
Proof.
  intros Hp Ht Hh Hq Hv. induction Hv as [v|op ops v v1 v1' v2 ans anss E Hs _ IH].
  { split; [apply framed_nil|]. split; [done|]. intros k _. split; [|done]. by intros [[]%Exists_nil|Hc]. }
  apply Forall_cons in Ht as [Hop Ht]. pose proof (framed_same _ _ _ _ _ (view_op_framed _ _ _ _ _ E) Hs) as Hf.
  assert (Hq1 : queue_in p v1').
  { unfold queue_in. rewrite (sv_queued _ _ Hs). eapply view_op_queue; [|exact Hop|exact Hq|exact E]. apply Hp. by constructor. }
  destruct IH as (F & Q & C); [set_solver|done|by eapply framed_typed|done|].
  split; [exact (framed_app tx [op] ops _ _ _ Hf F)|]. split; [done|]. intros k Hw. unfold written, moved in *.
  rewrite Exists_cons in Hw. rewrite Exists_cons. apply Decidable.not_or in Hw as [Hw1 Hw2]. destruct (C k Hw2) as [C1 C2].
  assert (Ham : amount v1' k = amount v1 k) by (apply amount_same, Hs). split.
  - intros Hc. apply C1. destruct (decide (Exists (op_moves k) ops)) as [|Hm]; [by left|right].
    assert (Hc' : is_Some (a_queued v1 !! k) ∨ canonical v1 k) by (eapply view_op_canonical; [done..|tauto]).
    unfold canonical in *. by rewrite (sv_queued _ _ Hs), (sv_cell _ _ Hs).
  - intros Hok. specialize (C2 Hok). rewrite Ham in C2. by eapply view_op_decodable.
Qed.
Lemma view_run_facts tx p v v' anss :
  Forall op_typed p → holds_typed tx v → a_queued v = ∅ → view_run tx p v v' anss →
  framed tx p v v' ∧ a_queued v' = ∅ ∧
  ∀ k, moved p k → ¬ written p (CellAt k) → is_ok (amount v k) = true ∧ canonical v' k.
Proof.
  intros Ht Hh Hq (u & u' & ds & Hv & Hc & Hs).
  destruct (view_ops_facts tx p p v u anss) as (F & Q & C); [done..|unfold queue_in; rewrite Hq; by apply map_Forall_empty|done|].
  destruct (commit_spec u u' ds (queue_in_ok _ _ Q) Hc) as (C1 & C2 & C3 & C4 & C5 & C6).
  split; [|split].
  - eapply framed_same; [|exact Hs]. destruct F as [F1 F2 F3 F4 F5 F6]. split.
    + intros k Hm Hw. specialize (C6 k). destruct (a_queued u !! k) as [q|] eqn:Hk; [by destruct (Q k q Hk)|].
      rewrite C6. by apply F1.
    + intros. rewrite C3. auto.
    + intros. rewrite C2. auto.
    + intros k h. rewrite C2. auto.
    + intros. rewrite C4. auto.
    + intros. rewrite C5. auto.
  - by rewrite (sv_queued _ _ Hs).
  - intros k Hm Hw. destruct (C k Hw) as [D1 D2]. specialize (C6 k). destruct (a_queued u !! k) as [q|] eqn:Hk.
    + destruct C6 as (x & y & Hx & _ & Hy & E). split; [apply D2; by rewrite Hx|]. exists y. by rewrite (sv_cell _ _ Hs).
    + destruct D1 as [[? ?]|(y & Hy & E)]; [by left|congruence|]. split; [apply D2; by rewrite (amount_cell_amount u k y)|].
      exists y. by rewrite (sv_cell _ _ Hs), C6.
Qed.

(** ** One transaction over two stores

    The stores agree on everything the transaction observes, on its own holds and
    on its queue; a cell it only moves may stand shifted by some amount. *)

Definition touched (p : list WorkOp) (k : SubstateKey) : Prop := moved p k ∨ observed p (CellAt k).
Definition cell_matched (p : list WorkOp) (e : option Z) (v w : AbstractStore) (k : SubstateKey) : Prop :=
  match e with
  | None => a_cell w k = a_cell v k
  | Some d => ¬ observed p (CellAt k) ∧ ∃ x, amount v k = Ok x ∧ amount w k = Ok (x + d)
  end.
Record matched (p : list WorkOp) (tx : TxHash) (e : SubstateKey → option Z) (v w : AbstractStore) : Prop := {
  mt_cell : ∀ k, touched p k → cell_matched p (e k) v w k;
  mt_entries : ∀ ow c x, observed p (EntryAt ow c x) → a_entries w ow c !! x = a_entries v ow c !! x;
  mt_holds : ∀ k, a_holds w k !! tx = a_holds v k !! tx;
  mt_queue : a_queued w = a_queued v;
}.
Lemma cell_matched_same p e v w v' w' k :
  a_cell v' k = a_cell v k → a_cell w' k = a_cell w k → cell_matched p e v w k → cell_matched p e v' w' k.
Proof.
  intros Hv Hw. unfold cell_matched. destruct e; [|congruence]. by rewrite (amount_same v' v k Hv), (amount_same w' w k Hw).
Qed.
Lemma matched_same p tx e v w v' w' : matched p tx e v w → same_view v' v → same_view w' w → matched p tx e v' w'.
Proof.
  intros [M1 M2 M3 M4] [A1 A2 A3 _ _ A6] [B1 B2 B3 _ _ B6]. split.
  - intros k Hk. eapply cell_matched_same; [apply A1|apply B1|by apply M1].
  - intros ow c x Hx. rewrite A2, B2. by apply M2.
  - intros k. by rewrite A3, B3.
  - congruence.
Qed.
Lemma matched_seen p tx e v w k : matched p tx e v w → observed p (CellAt k) → e k = None ∧ a_cell w k = a_cell v k.
Proof.
  intros Hm Hk. pose proof (mt_cell _ _ _ _ _ Hm k (or_intror Hk)) as Hc. unfold cell_matched in Hc.
  destruct (e k); [|done]. by destruct Hc.
Qed.
Lemma op_observed p l op : op ∈ p → op_reads l op ∨ op_writes l op → observed p l.
Proof. intros Hp Ho. apply Exists_exists. by exists op. Qed.
Lemma range_list_ext {A} lo hi (m m' : gmap Z A) :
  (∀ x, lo ≤ x ≤ hi → m !! x = m' !! x) → range_list lo hi m = range_list lo hi m'.
Proof.
  intros Hm. apply sorted_keys_ext; [apply range_list_sorted..|]. intros [x y]. rewrite !elem_of_range_list.
  split; intros [Hx Hy]; (split; [done|]); [rewrite <- Hm|rewrite Hm]; done.
Qed.
Lemma put_cell_matched p tx e v w k x :
  matched p tx e v w → observed p (CellAt k) → matched p tx e (put_cell v k x) (put_cell w k x).
Proof.
  intros Hm Hk. destruct (matched_seen _ _ _ _ _ k Hm Hk) as [He _]. destruct Hm as [M1 M2 M3 M4]. split; try done.
  intros k' Ht. destruct (decide (k = k')) as [<-|].
  - rewrite He. cbn. by rewrite !upd_eq.
  - eapply cell_matched_same; [cbn; by rewrite upd_ne..|by apply M1].
Qed.
Lemma put_entry_matched p tx e v w ow c x y :
  matched p tx e v w → observed p (EntryAt ow c x) → matched p tx e (put_entry v ow c x y) (put_entry w ow c x y).
Proof.
  intros [M1 M2 M3 M4] Hx. split; try done. intros ow' c' x' Hx'. cbn. destruct (decide _) as [[= <- <-]|]; [|by apply M2].
  unfold apply_change. cbn. destruct (decide (x = x')) as [<-|].
  - destruct y; [by rewrite !lookup_insert_eq|by rewrite !lookup_delete_eq].
  - destruct y; [rewrite !lookup_insert_ne by done|rewrite !lookup_delete_ne by done]; by apply M2.
Qed.
Lemma settle_matched p tx e v w k taken v1 w1 x x' :
  (taken ≠ 0 → touched p k) → in_width 128 taken → holds_typed tx v → matched p tx e v w →
  settle_taken v k tx taken = (v1, Ok x) → settle_taken w k tx taken = (w1, Ok x') → x = x' ∧ matched p tx e v1 w1.
Proof.
  intros Hk [Ht0 _] Hh [M1 M2 M3 M4] (S1 & S2 & S3 & S4 & S5 & S6)%settle_taken_spec (R1 & R2 & R3 & R4 & R5 & R6)%settle_taken_spec.
  assert (Hx : x = x') by (rewrite M3 in R6; destruct (decide (taken = 0)); [destruct S6, R6; congruence|destruct S6, R6; congruence]).
  split; [done|]. subst x'. split.
  - intros k' Ht. destruct (decide (taken = 0)) as [|Hne].
    { destruct S6 as [_ S6], R6 as [_ R6]. eapply cell_matched_same; [by rewrite S6|by rewrite R6|by apply M1]. }
    destruct S6 as (Hx & y & Hy & Hle & S6), R6 as (_ & y' & Hy' & Hle' & R6). specialize (Hk Hne).
    destruct (decide (k = k')) as [<-|Hkk]; [|eapply cell_matched_same; [by rewrite S6, upd_ne|by rewrite R6, upd_ne|by apply M1]].
    assert (0 ≤ x).
    { destruct (a_holds v k !! tx) as [h|] eqn:Ehk; cbn in Hx; [destruct (Hh k h Ehk)|]; lia. }
    specialize (M1 k Hk). unfold cell_matched in *. destruct (e k) as [d|].
    + destruct M1 as (Ho & z & Hz & Hz'). split; [done|]. rewrite Hz in Hy. injection Hy as <-. rewrite Hz' in Hy'. injection Hy' as <-.
      exists (z - x). replace (z - x + d) with (z + d - x) by lia.
      split; (apply amount_cell_amount; [by eapply settled_width; [|split]|]); [by rewrite S6, upd_eq|by rewrite R6, upd_eq].
    + rewrite S6, R6, !upd_eq. rewrite (amount_same w v k M1) in Hy'. congruence.
  - intros. rewrite S2, R2. by apply M2.
  - intros k'. rewrite S1, R1. destruct (decide (k = k')); [by rewrite !lookup_delete_eq|apply M3].
  - congruence.
Qed.
Lemma view_op_matched p tx e op v w v1 w1 ans ans' :
  op ∈ p → op_typed op → holds_typed tx v → matched p tx e v w →
  view_op tx op v = Some (v1, ans) → view_op tx op w = Some (w1, ans') → ans = ans' ∧ matched p tx e v1 w1.
Proof.
  intros Hp Ht Hh Hm. pose proof (λ l, op_observed p l op Hp) as Hob.
  destruct op; cbn [view_op op_reads op_writes op_typed] in *; intros Ev Ew;
    try (injection Ev as <- <-; injection Ew as <- <-).
  - destruct (matched_seen _ _ _ _ _ k Hm) as [_ Hc]; [by apply Hob; left|]. by rewrite Hc.
  - destruct (matched_seen _ _ _ _ _ k Hm) as [_ Hc]; [by apply Hob; left|]. unfold balance, with_queued.
    cbn [queued abstract_ledger]. by rewrite Hc, (mt_queue _ _ _ _ _ Hm).
  - split; [done|]. apply put_cell_matched; [done|]. by apply Hob; right.
  - destruct (matched_seen _ _ _ _ _ k Hm) as [_ Hc]; [by apply Hob; right|]. rewrite Hc. split; [done|].
    apply put_cell_matched; [done|]. by apply Hob; right.
  - split; [done|]. destruct Hm as [M1 M2 M3 M4]. split; [exact M1|exact M2|exact M3|]. cbn. by rewrite M4.
  - destruct (settle_taken v k tx taken) as [v2 [x|]] eqn:E1; [|done]. destruct (settle_taken w k tx taken) as [w2 [x'|]] eqn:E2; [|done].
    injection Ev as <- <-. injection Ew as <- <-.
    destruct (settle_matched p tx e v w k taken v2 w2 x x') as [-> ?]; [|done..]. intros Hne. left. apply Exists_exists. by exists (WSettle k taken).
  - split; [done|]. apply put_entry_matched; [done|]. by apply Hob; right.
  - rewrite (mt_entries _ _ _ _ _ Hm ow c x) by (by apply Hob; right). split; [done|]. apply put_entry_matched; [done|]. by apply Hob; right.
  - split; [|done]. do 2 f_equal. apply range_list_ext. intros x Hx. symmetry. apply (mt_entries _ _ _ _ _ Hm). apply Hob. by left.
Qed.
Lemma view_ops_matched p tx e ops v w u z anss anss' :
  ops ⊆ p → Forall op_typed ops → holds_typed tx v → matched p tx e v w →
  view_ops tx ops v u anss → view_ops tx ops w z anss' → anss = anss' ∧ matched p tx e u z.
Proof.
  intros Hp Ht Hh Hm Hv. revert w anss' Hm. induction Hv as [v|op ops v v1 v1' v2 ans anss E Hs _ IH]; intros w anss' Hm Hw.
  { inversion Hw. by subst. }
  inversion Hw as [|? ? ? w1 w1' ? ans' anss1 E' Hs' Hw']; subst. apply Forall_cons in Ht as [Hop Ht].
  destruct (view_op_matched p tx e op v w v1 w1 ans ans') as [-> Hm1]; [apply Hp; by constructor|done..|].
  assert (Hh1 : holds_typed tx v1') by (eapply framed_typed; [eapply framed_same; [eapply view_op_framed, E|exact Hs]|done]).
  destruct (IH) with (w := w1') (anss' := anss1) as [-> ?]; [set_solver|done|done|by eapply matched_same|done|done].
Qed.
(** A shifted cell folds to a shifted cell. *)
Lemma fold_deltas_shift x d q y y' :
  Forall op_ok q → fold_deltas x q = Ok y → fold_deltas (x + d) q = Ok y' → y' = y + d.
Proof.
  intros Hq. rewrite !fold_deltas_folded by done. unfold folded. repeat case_decide; try done. intros [= <-] [= <-]. lia.
Qed.
Lemma view_run_matched p tx e v w v' w' anss anss' :
  Forall op_typed p → holds_typed tx v → a_queued v = ∅ → matched p tx e v w →
  view_run tx p v v' anss → view_run tx p w w' anss' → anss = anss' ∧ matched p tx e v' w'.
Proof.
  intros Ht Hh Hq Hm (u & u' & ds & Hv & Hc & Hs) (z & z' & ds' & Hw & Hc' & Hs').
  destruct (view_ops_matched p tx e p v w u z anss anss') as [-> Hm1]; [done..|]. split; [done|].
  eapply matched_same; [|exact Hs|exact Hs'].
  destruct (view_ops_facts tx p p v u anss') as (_ & Q & _); [done..|unfold queue_in; rewrite Hq; by apply map_Forall_empty|done|].
  destruct Hm1 as [M1 M2 M3 M4]. assert (Q' : queue_in p z) by (unfold queue_in; by rewrite M4).
  destruct (commit_spec u u' ds (queue_in_ok _ _ Q) Hc) as (C1 & C2 & C3 & _ & _ & C6).
  destruct (commit_spec z z' ds' (queue_in_ok _ _ Q') Hc') as (D1 & D2 & D3 & _ & _ & D6). split.
  - intros k Hk. specialize (C6 k). specialize (D6 k). rewrite M4 in D6. specialize (M1 k Hk).
    destruct (a_queued u !! k) as [q|] eqn:Eq; [|by eapply cell_matched_same].
    destruct C6 as (x & y & Hx & Hy & Hw1 & E1), D6 as (x' & y' & Hx' & Hy' & Hw2 & E2). unfold cell_matched in *.
    destruct (e k) as [d|].
    + destruct M1 as (Ho & x0 & Hx0 & Hx0'). split; [done|]. rewrite Hx0 in Hx. injection Hx as <-. rewrite Hx0' in Hx'. injection Hx' as <-.
      destruct (Q k q Eq) as [Hok _]. pose proof (fold_deltas_shift _ _ _ _ _ Hok Hy Hy') as ->.
      exists y. split; by apply amount_cell_amount.
    + rewrite E1, E2. rewrite (amount_same z u k M1) in Hx'. congruence.
  - intros. rewrite C3, D3. by apply M2.
  - intros. rewrite C2, D2. apply M3.
  - congruence.
Qed.

(** ** Two transactions *)

(** No access of one conflicts with an access of the other. *)
Definition apart (p1 p2 : list WorkOp) : Prop :=
  ∀ op1 op2 l, op1 ∈ p1 → op2 ∈ p2 → names (access_target (op_access op1)) l → names (access_target (op_access op2)) l →
    compatible (access_kind (op_access op1)) (access_kind (op_access op2)) = true.
Lemma apart_sym p1 p2 : apart p1 p2 → apart p2 p1.
Proof. intros Ha op1 op2 l H1 H2 N1 N2. rewrite compatible_sym. by apply (Ha op2 op1 l). Qed.
Lemma op_moves_access k op : op_moves k op →
  names (access_target (op_access op)) (CellAt k) ∧ (access_kind (op_access op) = KDelta ∨ access_kind (op_access op) = KReserve).
Proof. destruct op; cbn; naive_solver. Qed.
Lemma op_writes_access l op : op_writes l op → names (access_target (op_access op)) l ∧ access_kind (op_access op) = KWrite.
Proof. destruct op; cbn; try done; intros ->; done. Qed.
Lemma op_observes_access l op : op_reads l op ∨ op_writes l op →
  names (access_target (op_access op)) l ∧ (access_kind (op_access op) = KRead ∨ access_kind (op_access op) = KWrite).
Proof.
  intros [Hr|[? ->]%op_writes_access]; [|by auto]. destruct op; cbn in *; try done; try (subst; by auto). destruct l; naive_solver.
Qed.
Lemma apart_observed p1 p2 l : apart p1 p2 → written p1 l → ¬ observed p2 l.
Proof.
  intros Ha (op1 & H1 & [N1 K1]%op_writes_access)%Exists_exists (op2 & H2 & [N2 K2]%op_observes_access)%Exists_exists.
  specialize (Ha op1 op2 l H1 H2 N1 N2). rewrite K1 in Ha. done.
Qed.
Lemma apart_moved p1 p2 k : apart p1 p2 → moved p1 k → ¬ observed p2 (CellAt k).
Proof.
  intros Ha (op1 & H1 & [N1 K1]%op_moves_access)%Exists_exists (op2 & H2 & [N2 K2]%op_observes_access)%Exists_exists.
  specialize (Ha op1 op2 _ H1 H2 N1 N2). by destruct K1 as [K1|K1], K2 as [K2|K2]; rewrite K1, K2 in Ha.
Qed.
Lemma apart_written p1 p2 k : apart p1 p2 → moved p2 k → ¬ written p1 (CellAt k).
Proof. intros Ha Hm Hw. by eapply (apart_moved p2 p1); [apply apart_sym| |apply written_observed]. Qed.

Definition value_of (r : result StoreError Z) : Z := match r with Ok x => x | Err _ => 0 end.
(** How far a run shifted a cell, where it changed it. *)
Definition shift (v v1 : AbstractStore) (k : SubstateKey) : option Z :=
  if decide (a_cell v1 k = a_cell v k) then None else Some (value_of (amount v1 k) - value_of (amount v k)).

(** After one of two such transactions, the other finds what it would have found. *)
Lemma run_leaves_matched p1 p2 tx1 tx2 v v1 anss :
  tx1 ≠ tx2 → apart p1 p2 → Forall op_typed p1 → holds_typed tx1 v → a_queued v = ∅ →
  view_run tx1 p1 v v1 anss → matched p2 tx2 (shift v v1) v v1.
Proof.
  intros Htx Ha Ht Hh Hq Hr. destruct (view_run_facts _ _ _ _ _ Ht Hh Hq Hr) as ([F1 F2 F3 F4 F5 F6] & Q & C). split.
  - intros k Hk. unfold shift, cell_matched. destruct (decide (a_cell v1 k = a_cell v k)) as [E|Hne]; [done|].
    assert (Hw : ¬ written p1 (CellAt k)).
    { intros Hw. destruct Hk as [Hk|Hk]; [by eapply apart_written|by eapply apart_observed]. }
    destruct (decide (moved p1 k)) as [Hm|Hm]; [|by destruct Hne; apply F1].
    destruct (C k Hm Hw) as [Hok (y & Hy & E)]. split; [by eapply apart_moved|]. destruct (amount v k) as [x|]; [|done].
    exists x. split; [done|]. rewrite (amount_cell_amount v1 k y Hy E). cbn. f_equal. lia.
  - intros ow c x Hx. apply F2. intros Hw. by eapply apart_observed.
  - intros k. by apply F3.
  - congruence.
Qed.

Lemma matched_amount p (v v1 v2 v12 : AbstractStore) k x y1 y2 :
  cell_matched p (shift v v1 k) v2 v12 k → amount v k = Ok x → amount v1 k = Ok y1 → amount v2 k = Ok y2 →
  amount v12 k = Ok (y2 + (y1 - x)).
Proof.
  unfold shift, cell_matched. intros Hm Hx Hy1 Hy2. destruct (decide _) as [E|_].
  - rewrite (amount_same v12 v2 k Hm). rewrite (amount_same v1 v k E), Hx in Hy1. injection Hy1 as <-. rewrite Hy2. f_equal. lia.
  - destruct Hm as (_ & z & Hz & ->). rewrite Hz in Hy2. injection Hy2 as <-. by rewrite Hx, Hy1.
Qed.
Lemma canonical_amount (v : AbstractStore) k : canonical v k → ∃ y, amount v k = Ok y ∧ a_cell v k = amount_cell y.
Proof. intros (y & Hy & E). exists y. split; [by apply amount_cell_amount|done]. Qed.

Section both_orders.
Context (p1 p2 : list WorkOp) (tx1 tx2 : TxHash) (v v1 v2 v12 v21 : AbstractStore) (a1 a1' a2 a2' : list WorkAnswer).
Context (Htx : tx1 ≠ tx2) (Ha : apart p1 p2) (Ht1 : Forall op_typed p1) (Ht2 : Forall op_typed p2).
Context (Hh1 : holds_typed tx1 v) (Hh2 : holds_typed tx2 v) (Hq : a_queued v = ∅).
Context (R1 : view_run tx1 p1 v v1 a1) (R12 : view_run tx2 p2 v1 v12 a2).
Context (R2 : view_run tx2 p2 v v2 a2') (R21 : view_run tx1 p1 v2 v21 a1').

Lemma hold_typed_after : holds_typed tx2 v1 ∧ holds_typed tx1 v2.
Proof using Type*.
  destruct (view_run_facts _ _ _ _ _ Ht1 Hh1 Hq R1) as ([_ _ F3 _ _ _] & _ & _).
  destruct (view_run_facts _ _ _ _ _ Ht2 Hh2 Hq R2) as ([_ _ G3 _ _ _] & _ & _).
  split; intros k h; [rewrite F3 by done; apply Hh2|rewrite G3 by done; apply Hh1].
Qed.

Lemma orders_agree : a2' = a2 ∧ a1 = a1' ∧ same_view v12 v21.
Proof using Type*.
  destruct hold_typed_after as [Hh2' Hh1']. pose proof (apart_sym _ _ Ha) as Ha'.
  pose proof (run_leaves_matched p1 p2 tx1 tx2 v v1 a1 Htx Ha Ht1 Hh1 Hq R1) as M2.
  pose proof (run_leaves_matched p2 p1 tx2 tx1 v v2 a2' (not_eq_sym Htx) Ha' Ht2 Hh2 Hq R2) as M1.
  destruct (view_run_facts _ _ _ _ _ Ht1 Hh1 Hq R1) as ([F1 F2 F3 _ F5 F6] & Q1 & C1).
  destruct (view_run_facts _ _ _ _ _ Ht2 Hh2 Hq R2) as ([G1 G2 G3 _ G5 G6] & Q2 & C2).
  destruct (view_run_facts _ _ _ _ _ Ht2 Hh2' Q1 R12) as ([I1 I2 I3 _ I5 I6] & Q12 & C12).
  destruct (view_run_facts _ _ _ _ _ Ht1 Hh1' Q2 R21) as ([J1 J2 J3 _ J5 J6] & Q21 & C21).
  destruct (view_run_matched p2 tx2 _ v v1 v2 v12 a2' a2 Ht2 Hh2 Hq M2 R2 R12) as [-> N2].
  destruct (view_run_matched p1 tx1 _ v v2 v1 v21 a1 a1' Ht1 Hh1 Hq M1 R1 R21) as [-> N1].
  split; [done|]. split; [done|]. split.
  - intros k. destruct (decide (moved p1 k ∨ written p1 (CellAt k))) as [H1|H1], (decide (moved p2 k ∨ written p2 (CellAt k))) as [H2|H2].
    + assert (W1 : ¬ written p1 (CellAt k)).
      { intros Hw. destruct H2 as [H2|H2%written_observed]; [by eapply (apart_written p1 p2)|by eapply (apart_observed p1 p2)]. }
      assert (W2 : ¬ written p2 (CellAt k)).
      { intros Hw. destruct H1 as [H1|H1%written_observed]; [by eapply (apart_written p2 p1)|by eapply (apart_observed p2 p1)]. }
      destruct H1 as [H1|]; [|done]. destruct H2 as [H2|]; [|done].
      destruct (C1 k H1 W1) as [Hok (y1 & Hy1 & _)%canonical_amount]. destruct (C2 k H2 W2) as [_ (y2 & Hy2 & _)%canonical_amount].
      destruct (C12 k H2 W2) as [_ (y12 & Hy12 & E12)%canonical_amount]. destruct (C21 k H1 W1) as [_ (y21 & Hy21 & E21)%canonical_amount].
      destruct (amount v k) as [x|] eqn:Hx; [|done].
      pose proof (matched_amount _ _ _ _ _ k x y1 y2 (mt_cell _ _ _ _ _ N2 k (or_introl H2)) Hx Hy1 Hy2) as D1.
      pose proof (matched_amount _ _ _ _ _ k x y2 y1 (mt_cell _ _ _ _ _ N1 k (or_introl H1)) Hx Hy2 Hy1) as D2.
      rewrite Hy12 in D1. rewrite Hy21 in D2. injection D1 as ->. injection D2 as ->. rewrite E12, E21. f_equal. lia.
    + assert (a_cell v2 k = a_cell v k) as E by (apply G1; tauto). rewrite (I1 k) by tauto.
      pose proof (mt_cell _ _ _ _ _ N1 k) as Hm. unfold shift in Hm. rewrite decide_True in Hm by done. symmetry. apply Hm.
      destruct H1 as [|?%written_observed]; [by left|by right].
    + assert (a_cell v1 k = a_cell v k) as E by (apply F1; tauto). rewrite (J1 k) by tauto.
      pose proof (mt_cell _ _ _ _ _ N2 k) as Hm. unfold shift in Hm. rewrite decide_True in Hm by done. apply Hm.
      destruct H2 as [|?%written_observed]; [by left|by right].
    + rewrite (I1 k), (J1 k), (F1 k), (G1 k) by tauto. done.
  - intros ow c. apply map_eq. intros x.
    destruct (decide (written p1 (EntryAt ow c x))) as [H1|H1].
    + rewrite I2 by (intros Hw%written_observed; exact (apart_observed p1 p2 _ Ha H1 Hw)). symmetry. by apply (mt_entries _ _ _ _ _ N1), written_observed.
    + rewrite J2 by done. destruct (decide (written p2 (EntryAt ow c x))) as [H2|H2].
      * by apply (mt_entries _ _ _ _ _ N2), written_observed.
      * by rewrite I2, F2, G2.
  - intros k. apply map_eq. intros tx. destruct (decide (tx = tx1)) as [->|Hn1].
    + rewrite I3 by done. symmetry. apply (mt_holds _ _ _ _ _ N1).
    + rewrite J3 by done. destruct (decide (tx = tx2)) as [->|Hn2]; [apply (mt_holds _ _ _ _ _ N2)|]. by rewrite I3, F3, G3.
  - intros k. by rewrite I5, F5, J5, G5.
  - intros k. by rewrite I6, F6, J6, G6.
  - congruence.
Qed.
End both_orders.

(** The trace: every operation but a settlement records its access. *)
Lemma work_op_logged {B} `{Baseline B} tx op (o o' : OverlayStore B) ans :
  access_kind (op_access op) ≠ KReserve → work_op tx op o = Some (o', ans) → log o' = log o ++ [op_access op].
Proof. intros Hk. destruct op; cbn in *; try done; by intros [= <- _]. Qed.


(** ** A witness

    One transaction credits the vault and writes an entry; the other settles part of
    its reservation on the same vault and scans a span beside that entry. *)

Definition shared_vault : OverlayStore MemoryStore := (judge_and_hold (overlay_new sample_base) [(2, vault, 10)]).1.
Definition crediting : list WorkOp := [WQueue vault (Add 5); WEntryWrite 258 1 9 [x03]; WScan 258 1 8 20 4].
Definition settling : list WorkOp := [WScan 258 1 0 7 4; WSettle vault 4].
Definition crediting_declares : EffectSet :=
  <[Point vault := {| modes := {[MDelta In]}; width := 16 |}]>
  {[Range 258 1 8 20 4 := {| modes := {[MWrite Both]}; width := 16 |}]}.
Definition settling_declares : EffectSet :=
  <[Point vault := {| modes := {[MReserve 10]}; width := 16 |}]>
  {[Range 258 1 0 7 4 := {| modes := {[MRead]}; width := 16 |}]}.

Definition both_orders (o : OverlayStore MemoryStore) : bool :=
  match work_run 1 crediting o, work_run 2 settling o with
  | Some (o1, a1), Some (o2, a2) =>
      match work_run 2 settling o1, work_run 1 crediting o2 with
      | Some (o12, _), Some (o21, _) =>
          bool_decide (amount o12 vault = Ok 61 ∧ a1 !! 2%nat = Some (WEntries [(9, [x03])]) ∧ a2 !! 1%nat = Some (WTaken 4))
      | _, _ => false
      end
  | _, _ => false
  end.

Lemma shared_vault_orders : both_orders shared_vault = true.
Proof. vm_compute. reflexivity. Qed.
Lemma shared_vault_holds k : amounts_ok (holds shared_vault k).
Proof.
  destruct (decide (k = vault)) as [->|Hne]; [apply (bool_decide_unpack _); vm_compute; exact I|].
  assert (l_held (active shared_vault) = {[vault := {[2 := Some 10]}]}) as E by (vm_compute; reflexivity).
  assert (l_held (committed shared_vault) = ∅) as E' by (vm_compute; reflexivity).
  assert (base shared_vault = sample_base) as E'' by (vm_compute; reflexivity).
  cbn [holds overlay_baseline]. unfold effective_holds. rewrite E'', !changed_holds_default, E, E', lookup_singleton_ne by done.
  rewrite lookup_empty. unfold amounts_ok. cbn. apply map_Forall_empty.
Qed.
