(* ===== verification/Groups.v ===== *)
(** * Conflict groups ([crates/kernel/src/executor.rs], [conflict_groups])

    A batch is scheduled by the connected components of the conflict relation
    between its transactions. The code never compares pairs: point keys are
    joined through one anchor per key, collections by one ordered sweep over
    interval claims, and the components live in a union-find array with path
    halving. The theorem says that this computes exactly the components of the
    pairwise relation [conflicts]. *)

From S2P Require Import Prelude Types Effects Conflict.

(** ** Declared reservations *)

Definition reservation_of (e : Effect) : option (SubstateKey * Z) :=
  match target e, mode e with
  | Point key, MReserve amt => Some (key, amt)
  | _, _ => None
  end.
Definition declared_reservations (declared : EffectSet) : list (SubstateKey * Z) :=
  omap reservation_of (effects_iter declared).

(** ** Union-find *)

(** The walk to the root, halving the path; a parent never exceeds its child, so
    [S index] rounds reach the root. *)
Fixpoint root_loop (rounds : nat) (component : list nat) (index : nat) : list nat * nat :=
  match rounds with
  | O => (component, index)
  | S n =>
      if decide (component !!! index = index) then (component, index) else
      let component := <[index := component !!! (component !!! index)]> component in
      root_loop n component (component !!! index)
  end.
Definition root (component : list nat) (index : nat) : list nat * nat :=
  root_loop (S index) component index.

Definition merge (component : list nat) (left right : nat) : list nat :=
  let '(component, a) := root component left in
  let '(component, b) := root component right in
  <[(a `max` b)%nat := (a `min` b)%nat]> component.

(** ** The sweep over one collection's claims *)

Record CollectionClaim := { claim_tx : nat; claim_lo : Z; claim_hi : Z; claim_class : ConflictClass }.

Definition claim_interval (t : EffectTarget) : option (Z * Z) :=
  match t with
  | Entry _ _ order => Some (order, order)
  | Range _ _ lo hi _ => if decide (lo ≤ hi) then Some (lo, hi) else None
  | Point _ => None
  end.

Abbreviation Active := (list (Z * nat)).

Definition absorb_step (claim : nat) (lo : Z) (st : list nat * option Z) (entry : Z * nat) :
    list nat * option Z :=
  let '(component, reach) := st in
  let '(hi, representative) := entry in
  if decide (hi < lo) then st
  else (merge component claim representative,
        Some (match reach with None => hi | Some far => Z.max far hi end)).
(** The active list is taken, so the class is left empty. *)
Definition absorb (active : Active) (component : list nat) (claim : nat) (lo : Z) :
    list nat * option Z :=
  foldl (absorb_step claim lo) (component, None) active.

(** The three active lists, indexed by class. *)
Record Actives := { act_read : Active; act_movement : Active; act_write : Active }.
Definition actives_new : Actives := {| act_read := []; act_movement := []; act_write := [] |}.
Definition active_of (a : Actives) (c : ConflictClass) : Active :=
  match c with CRead => act_read a | CMovement => act_movement a | CWrite => act_write a end.
Definition set_active_of (a : Actives) (c : ConflictClass) (l : Active) : Actives :=
  match c with
  | CRead => {| act_read := l; act_movement := act_movement a; act_write := act_write a |}
  | CMovement => {| act_read := act_read a; act_movement := l; act_write := act_write a |}
  | CWrite => {| act_read := act_read a; act_movement := act_movement a; act_write := l |}
  end.

(** The inner loop over the classes a claim conflicts with. *)
Definition sweep_class (claim : CollectionClaim) (st : Actives * list nat * Z) (class : ConflictClass) :
    Actives * list nat * Z :=
  let '(active, component, reach) := st in
  if negb (class_conflicts_with (claim_class claim) class) then st else
  let '(component, found) := absorb (active_of active class) component (claim_tx claim) (claim_lo claim) in
  let active := set_active_of active class [] in
  match found with
  | None => (active, component, reach)
  | Some far =>
      if decide (class = claim_class claim) then (active, component, Z.max reach far)
      else (set_active_of active class [(far, claim_tx claim)], component, reach)
  end.

Definition sweep_claim (st : Actives * list nat) (claim : CollectionClaim) : Actives * list nat :=
  let '(active, component, reach) := foldl (sweep_class claim) (st.1, st.2, claim_hi claim) class_all in
  (set_active_of active (claim_class claim)
     (active_of active (claim_class claim) ++ [(reach, claim_tx claim)]), component).

Definition claim_key (c : CollectionClaim) : list Z := [claim_lo c; claim_hi c; Z.of_nat (claim_tx c)].
Definition claim_le (a b : CollectionClaim) : Prop := lex_le (claim_key a) (claim_key b).
#[global] Instance claim_le_dec : RelDecision claim_le.
Proof. intros a b. unfold claim_le. apply _. Defined.

Definition sweep_collection (claims : list CollectionClaim) (component : list nat) : list nat :=
  (foldl sweep_claim (actives_new, component) (merge_sort claim_le claims)).2.

(** ** Point keys *)

Record PointClasses := { reads : list nat; commutative : list nat; writes : list nat }.
Definition point_classes_default : PointClasses := {| reads := []; commutative := []; writes := [] |}.

Definition point_push (p : PointClasses) (index : nat) (k : ModeKind) : PointClasses :=
  match conflict_class k with
  | CRead => {| reads := reads p ++ [index]; commutative := commutative p; writes := writes p |}
  | CMovement => {| reads := reads p; commutative := commutative p ++ [index]; writes := writes p |}
  | CWrite => {| reads := reads p; commutative := commutative p; writes := writes p ++ [index] |}
  end.

Definition point_anchor (p : PointClasses) : option nat :=
  match head (writes p) with
  | Some w => Some w
  | None => match reads p, commutative p with
            | [], _ | _, [] => None
            | r :: _, _ :: _ => Some r
            end
  end.

Definition merge_into (p : PointClasses) (component : list nat) : list nat :=
  match point_anchor p with
  | None => component
  | Some anchor => foldl (λ c index, merge c anchor index) component
                     (reads p ++ commutative p ++ writes p)
  end.

(** ** The groups *)

#[global] Instance nat_ord_key : OrdKey nat.
Proof. refine {| ord_key n := [Z.of_nat n] |}. intros x y [=]. lia. Defined.
#[global] Instance collection_ord_key : OrdKey (Address * CollectionId).
Proof. refine {| ord_key p := [p.1; p.2] |}. intros [] [] [=]. by subst. Defined.

Abbreviation Points := (gmap SubstateKey PointClasses).
Abbreviation Collections := (gmap (Address * CollectionId) (list CollectionClaim)).

(** One declared effect filed under the key space it can alias. *)
Definition file_effect (index : nat) (st : Points * Collections) (e : Effect) : Points * Collections :=
  let '(points, collections) := st in
  let k := kind (mode e) in
  match target e with
  | Point key =>
      (<[key := point_push (default point_classes_default (points !! key)) index k]> points, collections)
  | Entry o c _ | Range o c _ _ _ =>
      match claim_interval (target e) with
      | None => st
      | Some (lo, hi) =>
          let claim := {| claim_tx := index; claim_lo := lo; claim_hi := hi;
                          claim_class := conflict_class k |} in
          (points, <[(o, c) := default [] (collections !! (o, c)) ++ [claim]]> collections)
      end
  end.

Definition file_batch (batch : list EffectSet) : Points * Collections :=
  foldl (λ st p, foldl (file_effect p.1) st (effects_iter p.2)) (∅, ∅) (imap pair batch).

Definition components (batch : list EffectSet) : list nat :=
  let '(points, collections) := file_batch batch in
  let component := seq 0 (length batch) in
  let component := foldl (λ c p, merge_into p.2 c) component (map_iter points) in
  foldl (λ c p, sweep_collection p.2 c) component (map_iter collections).

(** [groups.entry(root(...)).or_default().push(index)]. *)
Definition group_step (st : list nat * gmap nat (list nat)) (index : nat) :
    list nat * gmap nat (list nat) :=
  let '(component, r) := root st.1 index in
  (component, <[r := default [] (st.2 !! r) ++ [index]]> st.2).

Definition conflict_groups (batch : list EffectSet) : list (list nat) :=
  (map_iter (foldl group_step (components batch, ∅) (seq 0 (length batch))).2).*2.

(** ** Representatives *)

(** Parents never exceed their children and stay in range. *)
Definition forest (c : list nat) : Prop := ∀ i, (i < length c)%nat → (c !!! i ≤ i)%nat.

Fixpoint rep_walk (n : nat) (c : list nat) (i : nat) : nat :=
  match n with
  | O => i
  | S n => if decide (c !!! i = i) then i else rep_walk n c (c !!! i)
  end.
(** The root of [i], without compression. *)
Definition rep (c : list nat) (i : nat) : nat := rep_walk (S i) c i.

Lemma rep_walk_fuel n m c i :
  forest c → (i < length c)%nat → (i < n)%nat → (i < m)%nat → rep_walk n c i = rep_walk m c i.
Proof.
  intros Hf. revert m i. induction n as [|n IH]; intros [|m] i Hi Hn Hm; [lia..|]. cbn [rep_walk].
  destruct (decide (c !!! i = i)) as [|Hne]; [done|]. pose proof (Hf i Hi). apply IH; lia.
Qed.

Lemma rep_unfold c i :
  forest c → (i < length c)%nat → rep c i = if decide (c !!! i = i) then i else rep c (c !!! i).
Proof.
  intros Hf Hi. unfold rep at 1. cbn [rep_walk]. destruct (decide (c !!! i = i)); [done|].
  pose proof (Hf i Hi). apply rep_walk_fuel; [done|lia..].
Qed.

Lemma rep_props c i :
  forest c → (i < length c)%nat → (rep c i ≤ i)%nat ∧ c !!! rep c i = rep c i.
Proof.
  intros Hf. induction i as [i IH] using lt_wf_ind. intros Hi. rewrite rep_unfold by done.
  destruct (decide (c !!! i = i)) as [|Hne]; [done|]. pose proof (Hf i Hi).
  destruct (IH (c !!! i)) as [? ?]; [lia..|]. split; [lia|done].
Qed.

Lemma rep_rep c i : forest c → (i < length c)%nat → rep c (rep c i) = rep c i.
Proof.
  intros Hf Hi. destruct (rep_props c i Hf Hi) as [Hle Hr].
  rewrite rep_unfold by (done || lia). by rewrite decide_True.
Qed.

Lemma total_insert (c : list nat) i x k :
  (i < length c)%nat → <[i := x]> c !!! k = if decide (i = k) then x else c !!! k.
Proof.
  intros Hi. destruct (decide (i = k)) as [<-|Hne].
  - by apply list_lookup_total_insert_eq.
  - by apply list_lookup_total_insert_ne.
Qed.

Lemma halve_forest c i :
  forest c → (i < length c)%nat → forest (<[i := c !!! (c !!! i)]> c).
Proof.
  intros Hf Hi k Hk. rewrite length_insert in Hk. rewrite total_insert by done.
  pose proof (Hf i Hi). destruct (decide (i = k)) as [<-|]; [|by apply Hf].
  pose proof (Hf (c !!! i) ltac:(lia)). lia.
Qed.

Lemma halve_rep c i k :
  forest c → (i < length c)%nat → (k < length c)%nat → rep (<[i := c !!! (c !!! i)]> c) k = rep c k.
Proof.
  intros Hf Hi. pose proof (halve_forest c i Hf Hi) as Hf'.
  induction k as [k IH] using lt_wf_ind. intros Hk. pose proof (Hf k Hk) as Hpk.
  rewrite rep_unfold by (done || by rewrite length_insert). rewrite total_insert by done.
  rewrite (rep_unfold c k) by done. destruct (decide (i = k)) as [<-|Hne].
  - pose proof (Hf (c !!! i) ltac:(lia)) as Hg. destruct (decide (c !!! i = i)) as [E|Hne].
    + rewrite E, decide_True by done. done.
    + rewrite decide_False by lia. rewrite IH by lia. rewrite (rep_unfold c (c !!! i)) by (done || lia).
      destruct (decide (c !!! (c !!! i) = c !!! i)) as [E|]; [|done].
      rewrite E, rep_unfold by (done || lia). by rewrite decide_True.
  - destruct (decide (c !!! k = k)); [done|]. apply IH; lia.
Qed.

(** What a walk to the root leaves: the same representatives, and the root. *)
Record same_forest (c c' : list nat) : Prop := {
  same_forest_ok : forest c';
  same_forest_length : length c' = length c;
  same_forest_rep : ∀ k, (k < length c)%nat → rep c' k = rep c k;
}.

Lemma same_forest_refl c : forest c → same_forest c c.
Proof. by split. Qed.

Lemma same_forest_trans c1 c2 c3 : same_forest c1 c2 → same_forest c2 c3 → same_forest c1 c3.
Proof. intros [A1 A2 A3] [B1 B2 B3]. split; [done|lia|]. intros k Hk. rewrite B3, A3; lia. Qed.

Lemma root_loop_spec n c i :
  forest c → (i < length c)%nat → (i < n)%nat →
  same_forest c (root_loop n c i).1 ∧ (root_loop n c i).2 = rep c i.
Proof.
  revert c i. induction n as [|n IH]; intros c i Hf Hi Hn; [lia|]. cbn [root_loop].
  rewrite rep_unfold by done. destruct (decide (c !!! i = i)) as [E|Hne].
  { split; [by apply same_forest_refl|done]. }
  pose proof (Hf i Hi). pose proof (Hf (c !!! i) ltac:(lia)).
  set (c' := <[i := c !!! (c !!! i)]> c).
  assert (Hc' : same_forest c c').
  { split; [by apply halve_forest|by apply length_insert|]. intros k Hk. by apply halve_rep. }
  assert (Hx : c' !!! i = c !!! (c !!! i)) by (subst c'; rewrite total_insert, decide_True by done; done).
  rewrite Hx. destruct Hc' as [F1 F2 F3].
  destruct (IH c' (c !!! (c !!! i))) as [Hs Hr]; [done|lia|lia|].
  split; [by eapply same_forest_trans|]. rewrite Hr, F3 by lia.
  rewrite (rep_unfold c (c !!! i)) by (done || lia).
  destruct (decide (c !!! (c !!! i) = c !!! i)) as [E|]; [|done].
  rewrite E, rep_unfold by (done || lia). by rewrite decide_True.
Qed.

Lemma root_spec c i :
  forest c → (i < length c)%nat → same_forest c (root c i).1 ∧ (root c i).2 = rep c i.
Proof. intros. apply root_loop_spec; [done..|lia]. Qed.

(** Linking the larger root under the smaller. *)
Lemma link_spec c a b :
  forest c → (a < length c)%nat → (b < length c)%nat → c !!! a = a → c !!! b = b →
  let c' := <[(a `max` b)%nat := (a `min` b)%nat]> c in
  forest c' ∧ length c' = length c ∧
  ∀ k, (k < length c)%nat → rep c' k = if decide (rep c k = (a `max` b)%nat) then (a `min` b)%nat else rep c k.
Proof.
  intros Hf Ha Hb Ra Rb. set (hi := (a `max` b)%nat). set (lo := (a `min` b)%nat). intros c'.
  assert (Hhi : (hi < length c)%nat) by lia. assert (Rhi : c !!! hi = hi) by (subst hi; destruct (Nat.max_spec a b) as [[_ ->]|[_ ->]]; done).
  assert (Rlo : c !!! lo = lo) by (subst lo; destruct (Nat.min_spec a b) as [[_ ->]|[_ ->]]; done).
  assert (Hf' : forest c').
  { intros k Hk. subst c'. rewrite length_insert in Hk. rewrite total_insert by done.
    destruct (decide (hi = k)) as [<-|]; [lia|by apply Hf]. }
  split; [done|]. split; [by apply length_insert|]. intros k.
  assert (Hlo : rep c' lo = lo).
  { rewrite rep_unfold by (done || subst c'; rewrite length_insert; lia). subst c'. rewrite total_insert by done.
    destruct (decide (hi = lo)); [by rewrite decide_True|]. by rewrite decide_True. }
  induction k as [k IH] using lt_wf_ind. intros Hk.
  rewrite rep_unfold by (done || subst c'; by rewrite length_insert). subst c'. rewrite total_insert by done.
  rewrite (rep_unfold c k) by done. pose proof (Hf k Hk).
  destruct (decide (hi = k)) as [<-|Hne].
  - rewrite (decide_True (P := c !!! hi = hi)) by done. rewrite (decide_True (P := hi = hi)) by done.
    destruct (decide (lo = hi)) as [E|]; [lia|done].
  - destruct (decide (c !!! k = k)) as [|Hp]; [by rewrite decide_False|]. rewrite IH by lia. done.
Qed.

(** Two indices in one component. *)
Definition same (c : list nat) (i j : nat) : Prop := rep c i = rep c j.

(** [merge] adds one pair and nothing else. *)
Lemma merge_spec c l r :
  forest c → (l < length c)%nat → (r < length c)%nat →
  forest (merge c l r) ∧ length (merge c l r) = length c ∧ same (merge c l r) l r ∧
  (∀ i j, (i < length c)%nat → (j < length c)%nat → same c i j → same (merge c l r) i j) ∧
  (∀ i j, (i < length c)%nat → (j < length c)%nat → same (merge c l r) i j →
     same c i j ∨ same c i l ∧ same c r j ∨ same c i r ∧ same c l j).
Proof.
  intros Hf Hl Hr. unfold merge. destruct (root_spec c l Hf Hl) as [[A1 A2 A3] Ea].
  destruct (root c l) as [c1 a]. cbn [fst snd] in *.
  destruct (root_spec c1 r A1 ltac:(lia)) as [[B1 B2 B3] Eb].
  destruct (root c1 r) as [c2 b]. cbn [fst snd] in *. rewrite A3 in Eb by done.
  assert (Hrep : ∀ k, (k < length c)%nat → rep c2 k = rep c k) by (intros; rewrite B3, A3; lia).
  destruct (rep_props c l Hf Hl) as [La _]. destruct (rep_props c r Hf Hr) as [Lb _].
  assert (Hroot : ∀ k, (k < length c)%nat → c2 !!! rep c k = rep c k).
  { intros k Hk. rewrite <- (Hrep k Hk). apply rep_props; [done|lia]. }
  subst a b. destruct (link_spec c2 (rep c l) (rep c r)) as (F1 & F2 & F3); try done; try lia.
  { by apply Hroot. } { by apply Hroot. }
  set (c' := <[_ := _]> c2) in *. set (hi := (rep c l `max` rep c r)%nat) in *.
  set (lo := (rep c l `min` rep c r)%nat) in *.
  assert (Hc' : ∀ k, (k < length c)%nat → rep c' k = if decide (rep c k = hi) then lo else rep c k)
    by (intros k Hk; rewrite F3, Hrep; lia || done).
  split; [done|]. split; [lia|]. unfold same. split_and!.
  - rewrite !Hc' by done. repeat case_decide; lia.
  - intros i j Hi Hj E. by rewrite !Hc', E by done.
  - intros i j Hi Hj. rewrite !Hc' by done. repeat case_decide; intros; lia.
Qed.

(** ** Components against a relation *)

Section components.
Context (n : nat) (Q : nat → nat → Prop) `{!Equivalence Q}.

(** Everything joined so far is related. *)
Record comp_ok (c : list nat) : Prop := {
  comp_forest : forest c;
  comp_length : length c = n;
  comp_sound : ∀ i j, (i < n)%nat → (j < n)%nat → same c i j → Q i j;
}.

Definition grows (c c' : list nat) : Prop :=
  ∀ i j, (i < n)%nat → (j < n)%nat → same c i j → same c' i j.

#[global] Instance grows_refl : Reflexive grows.
Proof. by intros c i j. Qed.
#[global] Instance grows_trans : Transitive grows.
Proof. intros a b c H1 H2 i j Hi Hj Hs. auto. Qed.
#[global] Instance same_equiv c : Equivalence (same c).
Proof. unfold same. split; [done|by intros ??|]. intros ??? -> . done. Qed.

Lemma comp_merge c l r :
  comp_ok c → (l < n)%nat → (r < n)%nat → Q l r →
  comp_ok (merge c l r) ∧ grows c (merge c l r) ∧ same (merge c l r) l r.
Proof.
  intros [Hf Hlen Hs] Hl Hr HQ.
  destruct (merge_spec c l r Hf ltac:(lia) ltac:(lia)) as (M1 & M2 & M3 & M4 & M5). rewrite Hlen in *.
  split; [split; [done|lia|]|done]. intros i j Hi Hj Hij.
  destruct (M5 i j Hi Hj Hij) as [E|[[E1 E2]|[E1 E2]]].
  - by apply Hs.
  - transitivity l; [by apply Hs|]. transitivity r; [done|by apply Hs].
  - transitivity r; [by apply Hs|]. transitivity l; [by symmetry|by apply Hs].
Qed.

Lemma fold_merge anchor l c :
  comp_ok c → (anchor < n)%nat → (∀ x, x ∈ l → (x < n)%nat ∧ Q anchor x) →
  let c' := foldl (λ c i, merge c anchor i) c l in
  comp_ok c' ∧ grows c c' ∧ ∀ x, x ∈ l → same c' anchor x.
Proof.
  intros Hc Ha. revert c Hc. induction l as [|y l IH]; intros c Hc Hl; cbn [foldl].
  { split; [done|]. split; [done|]. by intros x ?%not_elem_of_nil. }
  destruct (Hl y) as [Hy HQ]; [constructor|]. destruct (comp_merge c anchor y Hc Ha Hy HQ) as (C1 & C2 & C3).
  destruct (IH (merge c anchor y) C1) as (D1 & D2 & D3); [intros; apply Hl; by constructor|].
  cbv zeta. split; [done|]. split; [by transitivity (merge c anchor y)|].
  intros x [->|Hx]%elem_of_cons; [by apply D2|by apply D3].
Qed.

(** ** Point keys *)

Definition class_list (p : PointClasses) (k : ConflictClass) : list nat :=
  match k with CRead => reads p | CMovement => commutative p | CWrite => writes p end.

Lemma merge_into_spec p c :
  comp_ok c →
  (∀ k x, x ∈ class_list p k → (x < n)%nat) →
  (∀ k k' x y, class_conflicts_with k k' = true → x ∈ class_list p k → y ∈ class_list p k' → Q x y) →
  comp_ok (merge_into p c) ∧ grows c (merge_into p c) ∧
  ∀ k k' x y, class_conflicts_with k k' = true → x ∈ class_list p k → y ∈ class_list p k' →
    same (merge_into p c) x y.
Proof.
  intros Hc Hn HQ. unfold merge_into.
  assert (Hin : ∀ k x, x ∈ class_list p k → x ∈ reads p ++ commutative p ++ writes p)
    by (intros [] x Hx; rewrite !elem_of_app; cbn in Hx; auto).
  assert (Hout : ∀ x, x ∈ reads p ++ commutative p ++ writes p → ∃ k, x ∈ class_list p k).
  { intros x. rewrite !elem_of_app. intros [Hx|[Hx|Hx]]; [by exists CRead|by exists CMovement|by exists CWrite]. }
  destruct (point_anchor p) as [anchor|] eqn:Ha.
  - assert (Hanc : (anchor < n)%nat ∧ ∀ k x, x ∈ class_list p k → Q anchor x).
    { unfold point_anchor in Ha. destruct (writes p) as [|w ws] eqn:Ew; cbn [head] in Ha.
      - destruct (reads p) as [|r rs] eqn:Er; [done|]. destruct (commutative p) as [|m ms] eqn:Em; [done|].
        injection Ha as <-. assert (Hr : r ∈ class_list p CRead) by (cbn; rewrite Er; constructor).
        assert (Hm : m ∈ class_list p CMovement) by (cbn; rewrite Em; constructor).
        split; [by apply (Hn CRead)|]. intros [] x Hx.
        + transitivity m; [by apply (HQ CRead CMovement)|by apply (HQ CMovement CRead)].
        + by apply (HQ CRead CMovement).
        + cbn in Hx. rewrite Ew in Hx. by apply not_elem_of_nil in Hx.
      - injection Ha as <-. assert (Hw : w ∈ class_list p CWrite) by (cbn; rewrite Ew; constructor).
        split; [by apply (Hn CWrite)|]. intros k x Hx. by apply (HQ CWrite k); [destruct k|..]. }
    destruct Hanc as [Han HancQ].
    destruct (fold_merge anchor (reads p ++ commutative p ++ writes p) c Hc Han) as (D1 & D2 & D3).
    { intros x (k & Hx)%Hout. split; [by apply (Hn k)|by apply (HancQ k)]. }
    split; [done|]. split; [done|]. intros k k' x y _ Hx Hy.
    transitivity anchor; [symmetry|]; apply D3; by eapply Hin.
  - split; [done|]. split; [done|]. intros k k' x y Hk Hx Hy. exfalso.
    unfold point_anchor in Ha. destruct (writes p) as [|w ws] eqn:Ew; [|done]. cbn [head] in Ha.
    destruct k, k'; try done; cbn in Hx, Hy; rewrite ?Ew in *;
      try (by apply not_elem_of_nil in Hx); try (by apply not_elem_of_nil in Hy);
      destruct (reads p) as [|r rs]; try (by apply not_elem_of_nil in Hx); try (by apply not_elem_of_nil in Hy);
      destruct (commutative p); done || (by apply not_elem_of_nil in Hx) || (by apply not_elem_of_nil in Hy).
Qed.

(** ** The sweep *)

Lemma absorb_spec l c cl lo :
  comp_ok c → (cl < n)%nat → (∀ h r, (h, r) ∈ l → (r < n)%nat ∧ (lo ≤ h → Q cl r)) →
  let out := absorb l c cl lo in
  comp_ok out.1 ∧ grows c out.1 ∧
  (∀ h r, (h, r) ∈ l → lo ≤ h → same out.1 cl r ∧ ∃ far, out.2 = Some far ∧ h ≤ far) ∧
  (∀ far, out.2 = Some far → ∃ r, (far, r) ∈ l ∧ lo ≤ far).
Proof.
  intros Hc Hcl Hl. unfold absorb.
  induction l as [|[h r] l IH] using rev_ind.
  { cbn. split; [done|]. split; [done|]. split; [by intros h r ?%not_elem_of_nil|done]. }
  rewrite foldl_app. cbn [foldl].
  destruct IH as (I1 & I2 & I3 & I4). { intros; apply Hl, elem_of_app; by left. }
  destruct (foldl (absorb_step cl lo) (c, None) l) as [c1 found]. cbn [fst snd absorb_step] in *.
  destruct (Hl h r) as [Hr HQ]; [apply elem_of_app; right; by apply list_elem_of_singleton|].
  destruct (decide (h < lo)) as [Hexp|Hlive]; cbn [fst snd].
  - split; [done|]. split; [done|]. split.
    + intros h' r' [Hin|Hin]%elem_of_app Hle; [by apply I3|].
      apply list_elem_of_singleton in Hin as [= -> ->]. lia.
    + intros far Hfar. destruct (I4 far Hfar) as (r' & Hin & Hle). exists r'. split; [|done].
      apply elem_of_app. by left.
  - destruct (comp_merge c1 cl r I1 Hcl Hr (HQ ltac:(lia))) as (M1 & M2 & M3).
    split; [done|]. split; [by transitivity c1|]. split.
    + intros h' r' [Hin|Hin]%elem_of_app Hle.
      * destruct (I3 h' r' Hin Hle) as [Hs (far & Hfar & Hle')]. split.
        { apply M2; [done| |done]. apply (Hl h' r'), elem_of_app. by left. }
        rewrite Hfar. eexists. split; [done|]. lia.
      * apply list_elem_of_singleton in Hin as [= -> ->]. split; [done|]. eexists. split; [done|].
        destruct found; lia.
    + intros far [= <-]. destruct found as [far|].
      * destruct (I4 far eq_refl) as (r' & Hin & Hle). destruct (Z.max_spec far h) as [[? ->]|[? ->]].
        -- exists r. split; [apply elem_of_app; right; by apply list_elem_of_singleton|lia].
        -- exists r'. split; [apply elem_of_app; by left|lia].
      * exists r. split; [apply elem_of_app; right; by apply list_elem_of_singleton|lia].
Qed.

Lemma active_of_set a k l k' :
  active_of (set_active_of a k l) k' = if decide (k = k') then l else active_of a k'.
Proof. by destruct k, k'. Qed.

(** What the class loop has done to a class it has visited: every live entry
    joined the claim; another class keeps one entry reaching as far; the claim's
    own class is emptied. *)
Definition class_done (cl : CollectionClaim) (act0 act : Actives) (c : list nat) (k : ConflictClass) : Prop :=
  (∀ h r, (h, r) ∈ active_of act0 k → claim_lo cl ≤ h → same c (claim_tx cl) r) ∧
  (k ≠ claim_class cl →
     (∀ h r, (h, r) ∈ active_of act0 k → claim_lo cl ≤ h →
        ∃ far, (far, claim_tx cl) ∈ active_of act k ∧ h ≤ far) ∧
     (∀ far r, (far, r) ∈ active_of act k →
        r = claim_tx cl ∧ ∃ r', (far, r') ∈ active_of act0 k ∧ claim_lo cl ≤ far)) ∧
  (k = claim_class cl → active_of act k = []).

Record loop_inv (cl : CollectionClaim) (act0 : Actives) (c0 : list nat) (visited : list ConflictClass)
    (st : Actives * list nat * Z) : Prop := {
  li_comp : comp_ok st.1.2;
  li_grows : grows c0 st.1.2;
  li_done : ∀ k, k ∈ visited → class_conflicts_with (claim_class cl) k = true →
    class_done cl act0 st.1.1 st.1.2 k;
  li_kept : ∀ k, k ∉ visited ∨ class_conflicts_with (claim_class cl) k = false →
    active_of st.1.1 k = active_of act0 k;
  li_reach_own : claim_hi cl ≤ st.2;
  li_reach_all : claim_class cl ∈ visited → class_conflicts_with (claim_class cl) (claim_class cl) = true →
    ∀ h r, (h, r) ∈ active_of act0 (claim_class cl) → claim_lo cl ≤ h → h ≤ st.2;
  li_reach_src : st.2 = claim_hi cl ∨
    (class_conflicts_with (claim_class cl) (claim_class cl) = true ∧
     ∃ r, (st.2, r) ∈ active_of act0 (claim_class cl) ∧ claim_lo cl ≤ st.2);
}.

Lemma sweep_class_inv cl act0 c0 visited st k :
  (claim_tx cl < n)%nat → k ∉ visited →
  (∀ k h r, (h, r) ∈ active_of act0 k → (r < n)%nat ∧
     (claim_lo cl ≤ h → class_conflicts_with (claim_class cl) k = true → Q (claim_tx cl) r)) →
  loop_inv cl act0 c0 visited st → loop_inv cl act0 c0 (k :: visited) (sweep_class cl st k).
Proof.
  intros Htx Hk Hact [L1 L2 L3 L4 L5 L6 L7]. destruct st as [[act c] reach]. cbn [fst snd] in *.
  unfold sweep_class. destruct (class_conflicts_with (claim_class cl) k) eqn:Hconf; cbn [negb].
  2: { split; cbn [fst snd]; try done.
       - intros k' [->|Hk']%elem_of_cons Hc'; [congruence|by apply L3].
       - intros k' Hk'. apply L4. rewrite not_elem_of_cons in Hk'. tauto.
       - intros [E|Hv]%elem_of_cons Hc'; [congruence|by apply L6]. }
  assert (Hsame : active_of act k = active_of act0 k) by (apply L4; by left).
  destruct (absorb_spec (active_of act k) c (claim_tx cl) (claim_lo cl) L1 Htx) as (A1 & A2 & A3 & A4).
  { rewrite Hsame. intros h r Hin. destruct (Hact k h r Hin) as [? ?]. auto. }
  destruct (absorb (active_of act k) c (claim_tx cl) (claim_lo cl)) as [c' found]. cbn [fst snd] in *.
  rewrite Hsame in A3, A4.
  assert (Hgrow : ∀ h r k', (h, r) ∈ active_of act0 k' → same c (claim_tx cl) r → same c' (claim_tx cl) r).
  { intros h r k' Hin Hs. apply A2; [done| |done]. by apply (Hact k' h r). }
  assert (Hold : ∀ k' act', k' ≠ k → active_of act' k' = active_of act k' →
    class_done cl act0 act c k' → class_done cl act0 act' c' k').
  { intros k' act' Hne E (D1 & D2 & D3). unfold class_done. rewrite E. split; [|done].
    intros h r Hin Hle. eapply Hgrow; [done|]. by eapply D1. }
  destruct found as [far|].
  - destruct (A4 far eq_refl) as (r0 & Hr0 & Hle0).
    destruct (decide (k = claim_class cl)) as [->|Hne].
    + split; cbn [fst snd]; try done.
      * by transitivity c.
      * intros k' [->|Hk']%elem_of_cons Hc'.
        -- split; [intros h r Hin Hle; by apply A3 with (h := h)|]. split; [done|].
           intros _. by rewrite active_of_set, decide_True.
        -- apply Hold; [by intros ->|rewrite active_of_set, decide_False; [done|intros E; by subst]|by apply L3].
      * intros k' Hk'. rewrite active_of_set, decide_False; [apply L4|];
          rewrite not_elem_of_cons in Hk'; naive_solver congruence.
      * lia.
      * intros _ _ h r Hin Hle. destruct (A3 h r Hin Hle) as [_ (f & [= <-] & ?)]. lia.
      * destruct (Z.max_spec reach far) as [[? ->]|[? ->]]; [right|done]. split; [done|]. by exists r0.
    + split; cbn [fst snd]; try done.
      * by transitivity c.
      * intros k' [->|Hk']%elem_of_cons Hc'.
        -- split; [intros h r Hin Hle; by apply A3 with (h := h)|]. split; [|done].
           intros _. rewrite active_of_set, decide_True by done. split.
           ++ intros h r Hin Hle. destruct (A3 h r Hin Hle) as [_ (f & [= <-] & ?)].
              exists far. split; [by apply list_elem_of_singleton|done].
           ++ intros f r [= -> ->]%list_elem_of_singleton. split; [done|]. by exists r0.
        -- apply Hold; [by intros ->| |by apply L3].
           rewrite active_of_set, decide_False, active_of_set, decide_False; [done|intros E; by subst..].
      * intros k' Hk'. rewrite active_of_set, decide_False, active_of_set, decide_False;
          [apply L4|..]; rewrite not_elem_of_cons in Hk'; naive_solver congruence.
      * intros [E|Hv]%elem_of_cons Hc'; [congruence|by apply L6].
  - assert (Hnone : ∀ h r, (h, r) ∈ active_of act0 k → claim_lo cl ≤ h → False).
    { intros h r Hin Hle. by destruct (A3 h r Hin Hle) as [_ (f & ? & _)]. }
    split; cbn [fst snd]; try done.
    + by transitivity c.
    + intros k' [->|Hk']%elem_of_cons Hc'.
      * split; [intros h r Hin Hle; by destruct (Hnone h r)|].
        split; [|by intros _; rewrite active_of_set, decide_True].
        intros _. rewrite active_of_set, decide_True by done.
        split; [intros h r Hin Hle; by destruct (Hnone h r)|]. by intros f r ?%not_elem_of_nil.
      * apply Hold; [by intros ->|rewrite active_of_set, decide_False; [done|intros E; by subst]|by apply L3].
    + intros k' Hk'. rewrite active_of_set, decide_False; [apply L4|];
        rewrite not_elem_of_cons in Hk'; naive_solver congruence.
    + intros [E|Hv]%elem_of_cons Hc' h r Hin Hle; [|by eapply L6].
      subst k. by destruct (Hnone h r).
Qed.

Lemma sweep_classes_inv cl act0 c0 :
  comp_ok c0 → (claim_tx cl < n)%nat →
  (∀ k h r, (h, r) ∈ active_of act0 k → (r < n)%nat ∧
     (claim_lo cl ≤ h → class_conflicts_with (claim_class cl) k = true → Q (claim_tx cl) r)) →
  loop_inv cl act0 c0 [CWrite; CMovement; CRead]
    (foldl (sweep_class cl) (act0, c0, claim_hi cl) class_all).
Proof.
  intros Hc Htx Hact. unfold class_all. cbn [foldl].
  apply sweep_class_inv; [done|set_solver|done|]. apply sweep_class_inv; [done|set_solver|done|].
  apply sweep_class_inv; [done|set_solver|done|]. split; cbn [fst snd]; try done.
  - by intros k ?%not_elem_of_nil.
  - by intros ?%not_elem_of_nil.
  - by left.
Qed.

(** What the sweep keeps over the claims it has passed, at the sweep point [lo]. *)
Record sweep_inv (passed : list CollectionClaim) (lo : Z) (st : Actives * list nat) : Prop := {
  si_comp : comp_ok st.2;
  si_complete : ∀ a b, a ∈ passed → b ∈ passed →
    class_conflicts_with (claim_class a) (claim_class b) = true →
    claim_lo a ≤ claim_hi b → claim_lo b ≤ claim_hi a → same st.2 (claim_tx a) (claim_tx b);
  si_cover : ∀ q, q ∈ passed → lo ≤ claim_hi q →
    ∃ h r, (h, r) ∈ active_of st.1 (claim_class q) ∧ claim_hi q ≤ h ∧ same st.2 (claim_tx q) r;
  si_active : ∀ k h r, (h, r) ∈ active_of st.1 k →
    ∃ q, q ∈ passed ∧ claim_class q = k ∧ claim_hi q = h ∧ same st.2 (claim_tx q) r ∧ (r < n)%nat;
}.

Lemma class_conflicts_sym a b : class_conflicts_with a b = class_conflicts_with b a.
Proof. by destruct a, b. Qed.

Lemma sweep_claim_inv passed lo st cl :
  sweep_inv passed lo st → lo ≤ claim_lo cl → claim_lo cl ≤ claim_hi cl →
  (∀ q, q ∈ cl :: passed → (claim_tx q < n)%nat ∧ claim_lo q ≤ claim_lo cl) →
  (∀ q, q ∈ passed → class_conflicts_with (claim_class cl) (claim_class q) = true →
     claim_lo cl ≤ claim_hi q → Q (claim_tx cl) (claim_tx q)) →
  sweep_inv (cl :: passed) (claim_lo cl) (sweep_claim st cl) ∧ grows st.2 (sweep_claim st cl).2.
Proof.
  intros [S1 S2 S3 S4] Hlo Hlh Hn HQ. unfold sweep_claim. destruct st as [act0 c0]. cbn [fst snd] in *.
  destruct (Hn cl) as [Htx _]; [constructor|].
  assert (Hact : ∀ k h r, (h, r) ∈ active_of act0 k → (r < n)%nat ∧
     (claim_lo cl ≤ h → class_conflicts_with (claim_class cl) k = true → Q (claim_tx cl) r)).
  { intros k h r Hin. destruct (S4 k h r Hin) as (q & Hq & <- & <- & Hs & Hr). split; [done|].
    intros Hle Hk. transitivity (claim_tx q); [by apply HQ|]. apply (comp_sound c0 S1); [|done|done].
    apply (Hn q). by constructor. }
  pose proof (sweep_classes_inv cl act0 c0 S1 Htx Hact) as [L1 L2 L3 L4 L5 L6 L7].
  destruct (foldl (sweep_class cl) (act0, c0, claim_hi cl) class_all) as [[act c] reach].
  cbn [fst snd] in *. assert (Hall : ∀ k, k ∈ [CWrite; CMovement; CRead]) by (intros []; set_solver).
  assert (Htxq : ∀ q, q ∈ passed → (claim_tx q < n)%nat) by (intros q Hq; apply (Hn q); by constructor).
  assert (Hjoin : ∀ q, q ∈ passed → class_conflicts_with (claim_class cl) (claim_class q) = true →
    claim_lo cl ≤ claim_hi q → same c (claim_tx cl) (claim_tx q)).
  { intros q Hq Hk Hle. destruct (S3 q Hq ltac:(lia)) as (h & r & Hin & Hh & Hs).
    destruct (L3 _ (Hall (claim_class q)) Hk) as (D1 & _).
    transitivity r; [apply (D1 h r Hin); lia|]. symmetry.
    apply L2; [by apply Htxq|by apply (Hact _ _ _ Hin)|done]. }
  assert (Hself : (∀ h r, (h, r) ∈ active_of act (claim_class cl) →
      class_conflicts_with (claim_class cl) (claim_class cl) = false ∧ (h, r) ∈ active_of act0 (claim_class cl))).
  { intros h r Hin. destruct (class_conflicts_with (claim_class cl) (claim_class cl)) eqn:Hc.
    - destruct (L3 _ (Hall _) Hc) as (_ & _ & D3). rewrite D3 in Hin by done. by apply not_elem_of_nil in Hin.
    - rewrite L4 in Hin by (by right). done. }
  split; [|done]. split; cbn [fst snd].
  - done.
  - intros a b [->|Ha]%elem_of_cons [->|Hb]%elem_of_cons Hk H1 H2.
    + done.
    + by apply Hjoin.
    + symmetry. apply Hjoin; [done| |done]. by rewrite class_conflicts_sym.
    + apply L2; [by apply Htxq|by apply Htxq|]. by apply S2.
  - intros q Hq Hle. rewrite active_of_set. apply elem_of_cons in Hq as [->|Hq].
    { rewrite decide_True by done. exists reach, (claim_tx cl). split; [|done].
      apply elem_of_app. right. by apply list_elem_of_singleton. }
    destruct (S3 q Hq ltac:(lia)) as (h & r & Hin & Hh & Hs).
    assert (Hr : (r < n)%nat) by (by apply (Hact _ _ _ Hin)).
    assert (Hs' : same c (claim_tx q) r) by (apply L2; [by apply Htxq|done|done]).
    destruct (class_conflicts_with (claim_class cl) (claim_class q)) eqn:Hk.
    + assert (Hj : same c (claim_tx q) (claim_tx cl)) by (symmetry; by apply Hjoin).
      destruct (L3 _ (Hall (claim_class q)) Hk) as (_ & D2 & D3).
      destruct (decide (claim_class cl = claim_class q)) as [E|Hne].
      * exists reach, (claim_tx cl). split; [apply elem_of_app; right; by apply list_elem_of_singleton|].
        split; [|done]. rewrite <- E in Hin, Hk. specialize (L6 (Hall _) Hk h r Hin ltac:(lia)). lia.
      * destruct (D2 (not_eq_sym Hne)) as [D2a _]. destruct (D2a h r Hin ltac:(lia)) as (far & Hf & Hle').
        exists far, (claim_tx cl). split; [done|]. split; [lia|done].
    + rewrite <- (L4 (claim_class q)) in Hin by (by right).
      exists h, r. split; [|done]. destruct (decide (claim_class cl = claim_class q)) as [E|]; [|done].
      rewrite E. apply elem_of_app. by left.
  - intros k h r Hin. rewrite active_of_set in Hin. destruct (decide (claim_class cl = k)) as [<-|Hne].
    + apply elem_of_app in Hin as [Hin|Hin].
      * destruct (Hself h r Hin) as [_ Hin0]. destruct (S4 _ h r Hin0) as (q & Hq & E1 & E2 & Hs & Hr).
        exists q. split; [by constructor|]. split; [done|]. split; [done|]. split; [|done].
        apply L2; [by apply Htxq|done|done].
      * apply list_elem_of_singleton in Hin as [= -> ->]. destruct L7 as [->|(Hc & r & Hin & Hle)].
        -- exists cl. split; [constructor|done].
        -- destruct (S4 _ _ _ Hin) as (q & Hq & E1 & E2 & Hs & Hr). exists q.
           split; [by constructor|]. split; [done|]. split; [done|]. split; [|done].
           symmetry. apply Hjoin; [done|by rewrite E1|lia].
    + destruct (class_conflicts_with (claim_class cl) k) eqn:Hk.
      * destruct (L3 k (Hall k) Hk) as (_ & D2 & _). destruct (D2 (not_eq_sym Hne)) as [_ D2b].
        destruct (D2b h r Hin) as [-> (r' & Hin0 & Hle)].
        destruct (S4 k h r' Hin0) as (q & Hq & E1 & E2 & Hs & Hr). exists q.
        split; [by constructor|]. split; [done|]. split; [done|]. split; [|done].
        symmetry. apply Hjoin; [done|by rewrite E1|lia].
      * rewrite L4 in Hin by (by right). destruct (S4 k h r Hin) as (q & Hq & E1 & E2 & Hs & Hr).
        exists q. split; [by constructor|]. split; [done|]. split; [done|]. split; [|done].
        apply L2; [by apply Htxq|done|done].
Qed.

#[local] Instance claim_le_trans : Transitive claim_le.
Proof. intros a b c. unfold claim_le. apply transitivity. Qed.
#[local] Instance claim_le_total : Total claim_le.
Proof. intros a b. unfold claim_le. apply total, _. Qed.

Lemma claim_le_lo a b : claim_le a b → claim_lo a ≤ claim_lo b.
Proof.
  unfold claim_le, lex_le, claim_key. cbn [lex_cmp].
  destruct (Z.compare_spec (claim_lo a) (claim_lo b)); try lia. done.
Qed.

(** The claims one collection carries. *)
Definition claims_ok (l : list CollectionClaim) : Prop :=
  (∀ q, q ∈ l → (claim_tx q < n)%nat ∧ claim_lo q ≤ claim_hi q) ∧
  (∀ a b, a ∈ l → b ∈ l → class_conflicts_with (claim_class a) (claim_class b) = true →
     claim_lo a ≤ claim_hi b → claim_lo b ≤ claim_hi a → Q (claim_tx a) (claim_tx b)).

Lemma sweep_list_inv l passed lo st :
  sweep_inv passed lo st → StronglySorted claim_le l →
  (∀ q cl, q ∈ passed → cl ∈ l → claim_lo q ≤ claim_lo cl) → (∀ cl, cl ∈ l → lo ≤ claim_lo cl) →
  claims_ok (l ++ passed) →
  ∃ lo', sweep_inv (reverse l ++ passed) lo' (foldl sweep_claim st l) ∧ grows st.2 (foldl sweep_claim st l).2.
Proof.
  revert passed lo st. induction l as [|cl l IH]; intros passed lo st Hinv Hsort Hpl Hlo Hok.
  { exists lo. split; [done|]. by cbn. }
  apply StronglySorted_inv in Hsort as [Hsort Hcl]. rewrite Forall_forall in Hcl.
  destruct Hok as [Hok1 Hok2].
  destruct (sweep_claim_inv passed lo st cl Hinv) as [Hinv' Hg].
  - apply Hlo. constructor.
  - apply Hok1. rewrite <- app_comm_cons. constructor.
  - intros q [->|Hq]%elem_of_cons.
    + split; [|lia]. apply Hok1. constructor.
    + split; [apply Hok1; rewrite elem_of_app; by right|]. apply Hpl; [done|constructor].
  - intros q Hq Hk Hle. apply Hok2; [rewrite <- app_comm_cons; constructor|rewrite elem_of_app; by right|done|done|].
    assert (claim_lo q ≤ claim_lo cl) by (apply Hpl; [done|constructor]).
    destruct (Hok1 cl) as [_ ?]; [rewrite <- app_comm_cons; constructor|]. lia.
  - destruct (IH (cl :: passed) (claim_lo cl) (sweep_claim st cl) Hinv' Hsort) as (lo' & Hi & Hg').
    + intros q c' [->|Hq]%elem_of_cons Hc'; [by apply claim_le_lo, Hcl|]. apply Hpl; [done|by constructor].
    + intros c' Hc'. by apply claim_le_lo, Hcl.
    + assert (Hp : ∀ q, q ∈ l ++ cl :: passed ↔ q ∈ (cl :: l) ++ passed)
        by (intros q; rewrite !elem_of_app, !elem_of_cons; tauto).
      split; [intros q Hq%Hp; by apply Hok1|]. intros a b Ha%Hp Hb%Hp. by apply Hok2.
    + exists lo'. cbn [foldl]. rewrite reverse_cons, <- app_assoc. split; [done|]. by transitivity (sweep_claim st cl).2.
Qed.

Lemma sweep_collection_spec claims c :
  comp_ok c → claims_ok claims →
  comp_ok (sweep_collection claims c) ∧ grows c (sweep_collection claims c) ∧
  ∀ a b, a ∈ claims → b ∈ claims → class_conflicts_with (claim_class a) (claim_class b) = true →
    claim_lo a ≤ claim_hi b → claim_lo b ≤ claim_hi a →
    same (sweep_collection claims c) (claim_tx a) (claim_tx b).
Proof.
  intros Hc Hok. unfold sweep_collection. set (l := merge_sort claim_le claims).
  assert (Hl : ∀ q, q ∈ l ↔ q ∈ claims) by (intros q; subst l; by rewrite merge_sort_Permutation).
  assert (Hsort : StronglySorted claim_le l) by (apply (StronglySorted_merge_sort _)).
  set (lo0 := match l with [] => 0 | q :: _ => claim_lo q end).
  destruct (sweep_list_inv l [] lo0 (actives_new, c)) as (lo' & [I1 I2 _ _] & Hg).
  - split; cbn [fst snd]; try done; try (by intros ? ?%not_elem_of_nil).
    + by intros a b ?%not_elem_of_nil.
    + intros [] h r ?%not_elem_of_nil; done.
  - done.
  - by intros q cl ?%not_elem_of_nil.
  - intros cl Hcl. subst lo0. destruct l as [|q l']; [by apply not_elem_of_nil in Hcl|].
    apply elem_of_cons in Hcl as [->|Hcl]; [lia|]. apply StronglySorted_inv in Hsort as [_ Hf].
    rewrite Forall_forall in Hf. by apply claim_le_lo, Hf.
  - rewrite app_nil_r. destruct Hok as [O1 O2].
    split; [intros q Hq%Hl; by apply O1|]. intros a b Ha%Hl Hb%Hl. by apply O2.
  - cbn [snd] in Hg. split; [done|]. split; [done|]. intros a b Ha Hb. apply I2;
      rewrite app_nil_r, elem_of_reverse; by apply Hl.
Qed.

(** Folding a step over a list, each step complete for its own item. *)
Lemma fold_components {A} (step : A → list nat → list nat) (good : A → Prop) (joined : A → nat → nat → Prop) l c :
  (∀ a c, good a → comp_ok c → comp_ok (step a c) ∧ grows c (step a c) ∧
     ∀ x y, joined a x y → (x < n)%nat ∧ (y < n)%nat ∧ same (step a c) x y) →
  Forall good l → comp_ok c →
  let c' := foldl (λ c a, step a c) c l in
  comp_ok c' ∧ grows c c' ∧ ∀ a x y, a ∈ l → joined a x y → (x < n)%nat ∧ (y < n)%nat ∧ same c' x y.
Proof.
  intros Hstep Hl. revert c. induction Hl as [|a l Ha _ IH]; intros c Hc; cbn [foldl].
  { split; [done|]. split; [done|]. by intros a x y ?%not_elem_of_nil. }
  destruct (Hstep a c Ha Hc) as (S1 & S2 & S3). destruct (IH (step a c) S1) as (I1 & I2 & I3).
  cbv zeta. split; [done|]. split; [by transitivity (step a c)|].
  intros b x y [->|Hb]%elem_of_cons Hj; [|by apply (I3 b)].
  destruct (S3 x y Hj) as (Hx & Hy & Hs). split; [done|]. split; [done|]. by apply I2.
Qed.

End components.

(** ** Filing *)

(** The declared effects of a batch, each with its transaction's index. *)
Definition flat (batch : list EffectSet) : list (nat * Effect) :=
  imap pair batch ≫= λ p, (p.1,.) <$> effects_iter p.2.

Lemma elem_of_flat batch i e :
  (i, e) ∈ flat batch ↔ ∃ D, batch !! i = Some D ∧ e ∈ effects_iter D.
Proof.
  unfold flat. rewrite list_elem_of_bind. split.
  - intros ([j D] & Hin & Hj). apply list_elem_of_fmap in Hin as (e' & [= -> ->] & He). cbn [fst snd] in *.
    apply elem_of_lookup_imap in Hj as (k & x & [= -> ->] & Hk). by exists x.
  - intros (D & HD & He). exists (i, D). split; [apply list_elem_of_fmap; by exists e|].
    apply elem_of_lookup_imap. by exists i, D.
Qed.

Lemma file_batch_flat batch :
  file_batch batch = foldl (λ st p, file_effect p.1 st p.2) (∅, ∅) (flat batch).
Proof.
  unfold file_batch, flat. generalize (imap pair batch) (∅ : Points, ∅ : Collections).
  intros l. induction l as [|[i D] l IH]; intros st; [done|]. cbn [foldl mbind list_bind fst snd].
  rewrite foldl_app, <- IH. f_equal. generalize (effects_iter D). intros es. revert st.
  induction es as [|e es IHe]; intros st; [done|]. cbn [foldl fmap list_fmap fst snd]. apply IHe.
Qed.

Definition coll_of (t : EffectTarget) : option (Address * CollectionId) :=
  match t with Point _ => None | Entry o c _ | Range o c _ _ _ => Some (o, c) end.

Definition effect_class (e : Effect) : ConflictClass := conflict_class (kind (mode e)).

(** The claim an effect files. *)
Definition claim_of (i : nat) (e : Effect) (lo hi : Z) : CollectionClaim :=
  {| claim_tx := i; claim_lo := lo; claim_hi := hi; claim_class := effect_class e |}.

Lemma point_push_list p i k c x :
  x ∈ class_list (point_push p i k) c ↔ x ∈ class_list p c ∨ x = i ∧ conflict_class k = c.
Proof.
  unfold point_push. destruct (conflict_class k) eqn:E, c; cbn;
    rewrite ?elem_of_app, ?list_elem_of_singleton; naive_solver.
Qed.

Lemma file_points L key c x :
  x ∈ class_list (default point_classes_default
        ((foldl (λ st p, file_effect p.1 st p.2) (∅, ∅) L).1 !! key)) c ↔
  ∃ e, (x, e) ∈ L ∧ target e = Point key ∧ effect_class e = c.
Proof.
  induction L as [|[i e] L IH] using rev_ind.
  { cbn. rewrite lookup_empty. split; [|by intros (e & ?%not_elem_of_nil & _)].
    destruct c; by intros ?%not_elem_of_nil. }
  rewrite foldl_app. cbn [foldl fst snd].
  assert (Hsplit : (∃ e0, (x, e0) ∈ L ++ [(i, e)] ∧ target e0 = Point key ∧ effect_class e0 = c) ↔
    (∃ e0, (x, e0) ∈ L ∧ target e0 = Point key ∧ effect_class e0 = c) ∨
    x = i ∧ target e = Point key ∧ effect_class e = c).
  { setoid_rewrite elem_of_app. setoid_rewrite list_elem_of_singleton. clear IH. split.
    - intros (e0 & [Hin|[= -> ->]] & He0); [left; by exists e0|by right].
    - intros [(e0 & Hin & He0)|[-> He0]]; [exists e0|exists e]; auto. }
  rewrite Hsplit, <- IH. clear Hsplit IH. destruct (foldl _ _ L) as [pts cols]. cbn [fst]. unfold file_effect.
  destruct (target e) as [k|o cc y|o cc lo hi cap] eqn:Et; cbn [claim_interval].
  - cbn [fst]. destruct (decide (k = key)) as [->|Hne].
    + rewrite lookup_insert_eq. cbn [from_option id]. rewrite point_push_list. unfold effect_class. naive_solver.
    + rewrite lookup_insert_ne by done. naive_solver.
  - cbn [fst]. naive_solver.
  - destruct (decide (lo ≤ hi)); cbn [fst]; naive_solver.
Qed.

Lemma file_effect_collections i st e :
  (file_effect i st e).2 =
    match coll_of (target e), claim_interval (target e) with
    | Some p, Some (lo, hi) => <[p := default [] (st.2 !! p) ++ [claim_of i e lo hi]]> st.2
    | _, _ => st.2
    end.
Proof.
  unfold file_effect. destruct st as [pts cols], (target e) as [k|o c y|o c lo hi cap]; cbn [coll_of claim_interval snd]; [done..|].
  by destruct (decide (lo ≤ hi)).
Qed.

Lemma file_collections L p cl :
  cl ∈ default [] ((foldl (λ st p, file_effect p.1 st p.2) (∅, ∅) L).2 !! p) ↔
  ∃ i e lo hi, (i, e) ∈ L ∧ coll_of (target e) = Some p ∧ claim_interval (target e) = Some (lo, hi) ∧
    cl = claim_of i e lo hi.
Proof.
  induction L as [|[i e] L IH] using rev_ind.
  { cbn. rewrite lookup_empty. split; [by intros ?%not_elem_of_nil|by intros (? & ? & ? & ? & ?%not_elem_of_nil & _)]. }
  rewrite foldl_app. cbn [foldl fst snd]. rewrite file_effect_collections.
  assert (Hsplit : (∃ j e0 lo hi, (j, e0) ∈ L ++ [(i, e)] ∧ coll_of (target e0) = Some p ∧
      claim_interval (target e0) = Some (lo, hi) ∧ cl = claim_of j e0 lo hi) ↔
    (∃ j e0 lo hi, (j, e0) ∈ L ∧ coll_of (target e0) = Some p ∧
      claim_interval (target e0) = Some (lo, hi) ∧ cl = claim_of j e0 lo hi) ∨
    ∃ lo hi, coll_of (target e) = Some p ∧ claim_interval (target e) = Some (lo, hi) ∧ cl = claim_of i e lo hi).
  { setoid_rewrite elem_of_app. setoid_rewrite list_elem_of_singleton. clear IH. split.
    - intros (j & e0 & lo & hi & [Hin|[= -> ->]] & He0); [left; by exists j, e0, lo, hi|right; by exists lo, hi].
    - intros [(j & e0 & lo & hi & Hin & He0)|(lo & hi & He0)]; [exists j, e0, lo, hi|exists i, e, lo, hi]; auto. }
  rewrite Hsplit, <- IH. clear Hsplit IH. destruct (foldl _ _ L) as [pts cols]. cbn [snd].
  destruct (coll_of (target e)) as [q|] eqn:Eq.
  2: { split; [by left|]. by intros [?|(? & ? & ? & _)]. }
  destruct (claim_interval (target e)) as [[lo hi]|] eqn:Ei.
  2: { split; [by left|]. by intros [?|(? & ? & _ & ? & _)]. }
  destruct (decide (q = p)) as [->|Hne].
  - rewrite lookup_insert_eq. cbn [from_option id]. rewrite elem_of_app, list_elem_of_singleton. split.
    + intros [?| ->]; [by left|right; by exists lo, hi].
    + intros [?|(? & ? & _ & [= <- <-] & ->)]; [by left|by right].
  - rewrite lookup_insert_ne by done. split; [by left|]. intros [?|(? & ? & [= ?] & _)]; done.
Qed.

Lemma class_conflicts_kinds k k' :
  class_conflicts_with (conflict_class k) (conflict_class k') = negb (compatible k k').
Proof. by destruct k, k'. Qed.

(** A conflict is met either at a point key or inside one collection. *)
Lemma conflicts_cases a b :
  conflicts a b = true ↔
  class_conflicts_with (effect_class a) (effect_class b) = true ∧
  ((∃ k, target a = Point k ∧ target b = Point k) ∨
   ∃ p lo hi lo' hi', coll_of (target a) = Some p ∧ coll_of (target b) = Some p ∧
     claim_interval (target a) = Some (lo, hi) ∧ claim_interval (target b) = Some (lo', hi') ∧
     lo ≤ hi' ∧ lo' ≤ hi).
Proof.
  unfold conflicts, effect_class. rewrite class_conflicts_kinds, andb_true_iff.
  assert (targets_overlap (target a) (target b) = true ↔
    ((∃ k, target a = Point k ∧ target b = Point k) ∨
     ∃ p lo hi lo' hi', coll_of (target a) = Some p ∧ coll_of (target b) = Some p ∧
       claim_interval (target a) = Some (lo, hi) ∧ claim_interval (target b) = Some (lo', hi') ∧
       lo ≤ hi' ∧ lo' ≤ hi)) as ->; [|tauto].
  destruct (target a) as [k|o c x|o c lo hi cap], (target b) as [k'|o' c' x'|o' c' lo' hi' cap'];
    cbn [targets_overlap coll_of claim_interval]; unbool.
  - naive_solver.
  - naive_solver.
  - naive_solver.
  - naive_solver.
  - split.
    + intros [[-> ->] ->]. right. exists (o', c'), x', x', x', x'. split_and!; done || lia.
    + intros [?|(p & lo & hi & lo' & hi' & E1 & E2 & E3 & E4 & ? & ?)]; [naive_solver|].
      simplify_eq. split; [done|lia].
  - split.
    + intros [[-> ->] ?]. right. exists (o', c'), x, x, lo', hi'. rewrite decide_True by lia. split_and!; done || lia.
    + intros [?|(p & lo & hi & lo2 & hi2 & E1 & E2 & E3 & E4 & ? & ?)]; [naive_solver|].
      destruct (decide (lo' ≤ hi')); simplify_eq. split; [done|lia].
  - naive_solver.
  - split.
    + intros [[-> ->] ?]. right. exists (o, c), lo, hi, x', x'. rewrite decide_True by lia. split_and!; done || lia.
    + intros [?|(p & l1 & h1 & lo2 & hi2 & E1 & E2 & E3 & E4 & ? & ?)]; [naive_solver|].
      destruct (decide (lo ≤ hi)); simplify_eq. split; [done|lia].
  - split.
    + intros [[[[[? ?] ->] ->] ?] ?]. right. exists (o', c'), lo, hi, lo', hi'.
      rewrite !decide_True by lia. split_and!; done || lia.
    + intros [?|(p & l1 & h1 & lo2 & hi2 & E1 & E2 & E3 & E4 & ? & ?)]; [naive_solver|].
      destruct (decide (lo ≤ hi)), (decide (lo' ≤ hi')); simplify_eq. split_and!; done || lia.
Qed.

(** ** The components of the batch *)

(** Two transactions of the batch declare conflicting effects. *)
Definition tx_conflict (batch : list EffectSet) (i j : nat) : Prop :=
  ∃ D1 D2 e1 e2, batch !! i = Some D1 ∧ batch !! j = Some D2 ∧
    e1 ∈ effects_iter D1 ∧ e2 ∈ effects_iter D2 ∧ conflicts e1 e2 = true.

#[global] Instance tx_conflict_sym batch : Symmetric (tx_conflict batch).
Proof.
  intros i j (D1 & D2 & e1 & e2 & H1 & H2 & H3 & H4 & H5). exists D2, D1, e2, e1.
  by rewrite conflicts_sym.
Qed.

Section batch.
Context (batch : list EffectSet).
Let n := length batch.
Let Q := rtc (tx_conflict batch).
#[local] Instance Q_equiv : Equivalence Q.
Proof. apply rtc_equivalence, _. Qed.

Lemma flat_lt i e : (i, e) ∈ flat batch → (i < n)%nat.
Proof. rewrite elem_of_flat. intros (D & HD & _). by eapply lookup_lt_Some. Qed.

Lemma flat_conflict i j e e' :
  (i, e) ∈ flat batch → (j, e') ∈ flat batch → conflicts e e' = true → tx_conflict batch i j.
Proof. rewrite !elem_of_flat. intros (D & ? & ?) (D' & ? & ?) ?. by exists D, D', e, e'. Qed.

Lemma initial_comp : comp_ok n Q (seq 0 n).
Proof.
  assert (Hs : ∀ i, (i < n)%nat → seq 0 n !!! i = i) by (intros; by rewrite lookup_total_seq_lt).
  assert (Hf : forest (seq 0 n)). { intros i. rewrite length_seq. intros Hi. by rewrite Hs. }
  assert (Hr : ∀ i, (i < n)%nat → rep (seq 0 n) i = i).
  { intros i Hi. rewrite rep_unfold by (done || by rewrite length_seq). by rewrite decide_True by auto. }
  split; [done|by rewrite length_seq|]. intros i j Hi Hj. unfold same. rewrite !Hr by done. intros ->. reflexivity.
Qed.

Lemma point_item_ok key p :
  (file_batch batch).1 !! key = Some p → ∀ c,
  comp_ok n Q c →
  comp_ok n Q (merge_into p c) ∧ grows n c (merge_into p c) ∧
  ∀ k k' x y, class_conflicts_with k k' = true → x ∈ class_list p k → y ∈ class_list p k' →
    same (merge_into p c) x y.
Proof.
  intros Hp c Hc. assert (Hcl : ∀ k x, x ∈ class_list p k →
    ∃ e, (x, e) ∈ flat batch ∧ target e = Point key ∧ effect_class e = k).
  { intros k x Hx. apply file_points. rewrite <- file_batch_flat, Hp. done. }
  apply merge_into_spec; [apply _|done|..].
  - intros k x (e & He & _)%Hcl. by eapply flat_lt.
  - intros k k' x y Hk (e & He & Ht & <-)%Hcl (e' & He' & Ht' & <-)%Hcl. apply rtc_once.
    eapply flat_conflict; [done..|]. apply conflicts_cases. split; [done|]. left. by exists key.
Qed.

Lemma collection_item_ok p claims :
  (file_batch batch).2 !! p = Some claims → claims_ok n Q claims.
Proof.
  intros Hp. assert (Hcl : ∀ q, q ∈ claims → ∃ i e lo hi, (i, e) ∈ flat batch ∧ coll_of (target e) = Some p ∧
    claim_interval (target e) = Some (lo, hi) ∧ q = claim_of i e lo hi).
  { intros q Hq. apply file_collections. by rewrite <- file_batch_flat, Hp. }
  split.
  - intros q (i & e & lo & hi & He & _ & Hi & ->)%Hcl. cbn. split; [by eapply flat_lt|].
    destruct (target e) as [|? ? x|? ? l h ?]; cbn in Hi; [done|by simplify_eq|].
    destruct (decide (l ≤ h)); by simplify_eq.
  - intros a b (i & e & lo & hi & He & Hc & Hi & ->)%Hcl (i' & e' & lo' & hi' & He' & Hc' & Hi' & ->)%Hcl Hk H1 H2.
    cbn in *. apply rtc_once. eapply flat_conflict; [done..|]. apply conflicts_cases.
    split; [done|]. right. by exists p, lo, hi, lo', hi'.
Qed.

(** Which pairs each pass joins. *)
Definition point_joined (p : SubstateKey * PointClasses) (x y : nat) : Prop :=
  ∃ k k', class_conflicts_with k k' = true ∧ x ∈ class_list p.2 k ∧ y ∈ class_list p.2 k'.
Definition claim_joined (p : (Address * CollectionId) * list CollectionClaim) (x y : nat) : Prop :=
  ∃ a b, a ∈ p.2 ∧ b ∈ p.2 ∧ class_conflicts_with (claim_class a) (claim_class b) = true ∧
    claim_lo a ≤ claim_hi b ∧ claim_lo b ≤ claim_hi a ∧ x = claim_tx a ∧ y = claim_tx b.

Lemma points_pass c :
  comp_ok n Q c →
  let c' := foldl (λ c p, merge_into p.2 c) c (map_iter (file_batch batch).1) in
  comp_ok n Q c' ∧ grows n c c' ∧
  ∀ p x y, p ∈ map_iter (file_batch batch).1 → point_joined p x y → (x < n)%nat ∧ (y < n)%nat ∧ same c' x y.
Proof.
  intros Hc. apply (fold_components n Q (λ p c, merge_into p.2 c)
    (λ p, (file_batch batch).1 !! p.1 = Some p.2)); [| |done].
  - intros [key p] c0 Hp Hc0. cbn [fst snd] in *. destruct (point_item_ok key p Hp c0 Hc0) as (A & B & C).
    split; [done|]. split; [done|]. intros x y (k & k' & Hk & Hx & Hy).
    assert (Hlt : ∀ k x, x ∈ class_list p k → (x < n)%nat).
    { intros k1 x1 Hx1. assert (∃ e, (x1, e) ∈ flat batch ∧ target e = Point key ∧ effect_class e = k1) as (e & He & _).
      { apply file_points. by rewrite <- file_batch_flat, Hp. } by eapply flat_lt. }
    split; [by eapply Hlt|]. split; [by eapply Hlt|]. by eapply C.
  - apply Forall_forall. intros [key p]. by rewrite elem_of_map_iter.
Qed.

Lemma collections_pass c :
  comp_ok n Q c →
  let c' := foldl (λ c p, sweep_collection p.2 c) c (map_iter (file_batch batch).2) in
  comp_ok n Q c' ∧ grows n c c' ∧
  ∀ p x y, p ∈ map_iter (file_batch batch).2 → claim_joined p x y → (x < n)%nat ∧ (y < n)%nat ∧ same c' x y.
Proof.
  intros Hc. apply (fold_components n Q (λ p c, sweep_collection p.2 c) (λ p, claims_ok n Q p.2)); [| |done].
  - intros [key p] c0 Hp Hc0. cbn [fst snd] in *. destruct (sweep_collection_spec n Q p c0 Hc0 Hp) as (A & B & C).
    split; [done|]. split; [done|]. intros x y (a & b & Ha & Hb & Hk & H1 & H2 & -> & ->).
    destruct Hp as [Hp _]. split; [by apply Hp|]. split; [by apply Hp|]. by apply C.
  - apply Forall_forall. intros [key p]. rewrite elem_of_map_iter. apply collection_item_ok.
Qed.

(** A conflicting pair is met by one of the two passes. *)
Lemma conflict_joined i j :
  tx_conflict batch i j →
  (∃ p, p ∈ map_iter (file_batch batch).1 ∧ point_joined p i j) ∨
  (∃ p, p ∈ map_iter (file_batch batch).2 ∧ claim_joined p i j).
Proof.
  intros (D1 & D2 & e1 & e2 & H1 & H2 & He1 & He2 & Hc).
  assert (F1 : (i, e1) ∈ flat batch) by (apply elem_of_flat; by exists D1).
  assert (F2 : (j, e2) ∈ flat batch) by (apply elem_of_flat; by exists D2).
  apply conflicts_cases in Hc as [Hk [(k & T1 & T2)|(p & lo & hi & lo' & hi' & C1 & C2 & I1 & I2 & L1 & L2)]].
  - left. assert (P1 := proj2 (file_points (flat batch) k (effect_class e1) i) (ex_intro _ e1 (conj F1 (conj T1 eq_refl)))).
    assert (P2 := proj2 (file_points (flat batch) k (effect_class e2) j) (ex_intro _ e2 (conj F2 (conj T2 eq_refl)))).
    rewrite <- file_batch_flat in P1, P2. destruct ((file_batch batch).1 !! k) as [pc|] eqn:E.
    + exists (k, pc). rewrite elem_of_map_iter. split; [done|]. by exists (effect_class e1), (effect_class e2).
    + cbn in P1. by destruct (effect_class e1); apply not_elem_of_nil in P1.
  - right. assert (P1 : claim_of i e1 lo hi ∈ default [] ((file_batch batch).2 !! p)).
    { rewrite file_batch_flat. apply file_collections. by exists i, e1, lo, hi. }
    assert (P2 : claim_of j e2 lo' hi' ∈ default [] ((file_batch batch).2 !! p)).
    { rewrite file_batch_flat. apply file_collections. by exists j, e2, lo', hi'. }
    destruct ((file_batch batch).2 !! p) as [cs|] eqn:E; [|by apply not_elem_of_nil in P1].
    exists (p, cs). rewrite elem_of_map_iter. split; [done|].
    by exists (claim_of i e1 lo hi), (claim_of j e2 lo' hi').
Qed.

Lemma components_spec :
  comp_ok n Q (components batch) ∧
  ∀ i j, (i < n)%nat → (j < n)%nat → same (components batch) i j ↔ Q i j.
Proof.
  destruct (points_pass _ initial_comp) as (P1 & P2 & P3).
  destruct (collections_pass _ P1) as (C1 & C2 & C3).
  assert (Hcomp : components batch = foldl (λ c p, sweep_collection p.2 c)
    (foldl (λ c p, merge_into p.2 c) (seq 0 n) (map_iter (file_batch batch).1)) (map_iter (file_batch batch).2))
    by (unfold components; by destruct (file_batch batch)).
  rewrite Hcomp. split; [done|]. intros i j Hi Hj. split; [by apply C1|].
  intros HQ. revert Hi Hj. induction HQ as [i|i k j Hik _ IH]; intros Hi Hj; [done|].
  assert (Hs : (k < n)%nat ∧ same (foldl (λ c p, sweep_collection p.2 c)
    (foldl (λ c p, merge_into p.2 c) (seq 0 n) (map_iter (file_batch batch).1)) (map_iter (file_batch batch).2)) i k).
  { destruct (conflict_joined i k Hik) as [(p & Hp & Hj')|(p & Hp & Hj')].
    - destruct (P3 p i k Hp Hj') as (? & ? & ?). split; [done|]. by apply C2.
    - by destruct (C3 p i k Hp Hj') as (? & ? & ?). }
  destruct Hs as [Hk Hs]. unfold same in *. rewrite Hs. by apply IH.
Qed.

End batch.

(** ** Collecting the groups *)

Lemma group_fold c k :
  forest c → (k ≤ length c)%nat →
  let st := foldl group_step (c, ∅) (seq 0 k) in
  same_forest c st.1 ∧
  ∀ r, st.2 !! r = match filter (λ i, rep c i = r) (seq 0 k) with [] => None | g => Some g end.
Proof.
  intros Hf. induction k as [|k IH]; intros Hk.
  { cbn. split; [by apply same_forest_refl|]. intros r. apply lookup_empty. }
  rewrite seq_S, foldl_app. cbn [foldl Nat.add]. destruct IH as [S1 S2]; [lia|].
  destruct (foldl group_step (c, ∅) (seq 0 k)) as [c1 m]. cbn [fst snd] in *. unfold group_step. cbn [fst snd].
  pose proof S1 as [F1 F2 F3]. destruct (root_spec c1 k F1 ltac:(lia)) as [R1 R2].
  destruct (root c1 k) as [c2 r0]. cbn [fst snd] in *. rewrite F3 in R2 by lia. subst r0.
  split; [by eapply same_forest_trans|]. intros r. rewrite filter_app. cbn [filter list_filter].
  destruct (decide (rep c k = r)) as [<-|Hne].
  - rewrite lookup_insert_eq, S2. by destruct (filter _ (seq 0 k)).
  - by rewrite lookup_insert_ne, S2, app_nil_r by done.
Qed.

Lemma elem_of_groups batch g :
  g ∈ conflict_groups batch ↔
  ∃ r, g = filter (λ i, rep (components batch) i = r) (seq 0 (length batch)) ∧ g ≠ [].
Proof.
  destruct (components_spec batch) as [[Hf Hl _] _].
  destruct (group_fold (components batch) (length batch) Hf ltac:(lia)) as [_ Hm].
  unfold conflict_groups. rewrite list_elem_of_fmap. split.
  - intros ([r g'] & -> & Hin). rewrite elem_of_map_iter, Hm in Hin. cbn [snd]. exists r.
    destruct (filter _ _); by simplify_eq.
  - intros (r & -> & Hne). exists (r, filter (λ i, rep (components batch) i = r) (seq 0 (length batch))).
    split; [done|]. rewrite elem_of_map_iter, Hm. by destruct (filter _ _).
Qed.

Definition first_lt (g h : list nat) : Prop :=
  ∃ x y, head g = Some x ∧ head h = Some y ∧ (x < y)%nat.

Lemma filter_seq_sorted (P : nat → Prop) `{∀ i, Decision (P i)} k m :
  StronglySorted lt (filter P (seq k m)).
Proof.
  revert k. induction m as [|m IH]; intros k; [constructor|]. cbn [seq]. rewrite filter_cons.
  destruct (decide (P k)); [|done]. constructor; [done|]. apply Forall_forall. intros x.
  rewrite list_elem_of_filter, elem_of_seq. lia.
Qed.

(** A group is filed under its smallest member. *)
Lemma group_head c r :
  forest c → filter (λ i, rep c i = r) (seq 0 (length c)) ≠ [] →
  head (filter (λ i, rep c i = r) (seq 0 (length c))) = Some r.
Proof.
  intros Hf Hne. set (g := filter _ _) in *.
  assert (Hg : ∀ i, i ∈ g ↔ (i < length c)%nat ∧ rep c i = r).
  { intros i. subst g. rewrite list_elem_of_filter, elem_of_seq. split; intros; split; lia || tauto. }
  assert (Hsort : StronglySorted lt g) by apply filter_seq_sorted.
  destruct g as [|x g]; [done|]. cbn [head]. f_equal.
  destruct (proj1 (Hg x)) as [Hx Hr]; [constructor|]. destruct (rep_props c x Hf Hx) as [Hle _].
  pose proof (rep_rep c x Hf Hx) as Hrr. rewrite Hr in Hle, Hrr.
  assert (Hin : r ∈ x :: g) by (apply Hg; split; [lia|done]).
  apply elem_of_cons in Hin as [->|Hin]; [done|]. apply StronglySorted_inv in Hsort as [_ Hall].
  rewrite Forall_forall in Hall. specialize (Hall r Hin). lia.
Qed.

Lemma sorted_values (l : list (nat * list nat)) :
  StronglySorted pair_le l → NoDup l.*1 → Forall (λ p, head p.2 = Some p.1) l → StronglySorted first_lt l.*2.
Proof.
  induction l as [|[r g] l IH]; intros Hs Hn Hh; [constructor|]. apply StronglySorted_inv in Hs as [Hs Hall].
  apply NoDup_cons in Hn as [Hr Hn]. apply Forall_cons in Hh as [Hg Hh]. cbn [fmap list_fmap fst snd] in *.
  constructor; [by apply IH|]. rewrite Forall_forall in Hall, Hh. apply Forall_forall. intros h ([r' h'] & -> & Hin)%list_elem_of_fmap.
  exists r, r'. split; [done|]. split; [by apply (Hh (r', h'))|]. specialize (Hall _ Hin).
  assert (Hne : r ≠ r') by (intros ->; apply Hr, list_elem_of_fmap; by exists (r', h')).
  unfold pair_le, key_le, lex_le in Hall. cbn in Hall.
  destruct (Z.compare_spec (Z.of_nat r) (Z.of_nat r')); done || lia.
Qed.

Lemma groups_ordered batch : StronglySorted first_lt (conflict_groups batch).
Proof.
  destruct (components_spec batch) as [[Hf Hl _] _].
  destruct (group_fold (components batch) (length batch) Hf ltac:(lia)) as [_ Hm].
  apply sorted_values; [apply map_iter_sorted|apply NoDup_map_iter|]. apply Forall_forall.
  intros [r g]. rewrite elem_of_map_iter, Hm. cbn [fst snd]. intros Hg.
  rewrite <- Hl in Hg. pose proof (group_head (components batch) r Hf) as Hh.
  destruct (filter _ _) as [|x g']; [done|]. injection Hg as <-. by apply Hh.
Qed.

Lemma conflict_groups_partition (batch : list EffectSet) :
  (∀ i, (i < length batch)%nat → ∃ g, g ∈ conflict_groups batch ∧ i ∈ g) ∧
  (∀ g, g ∈ conflict_groups batch → g ≠ [] ∧ StronglySorted lt g ∧
     ∀ i j, i ∈ g → j ∈ g ↔ (j < length batch)%nat ∧ rtc (tx_conflict batch) i j) ∧
  StronglySorted first_lt (conflict_groups batch).
Proof.
  destruct (components_spec batch) as [_ Hsame].
  split; [|split]; [| |apply groups_ordered].
  - intros i Hi. exists (filter (λ j, rep (components batch) j = rep (components batch) i) (seq 0 (length batch))).
    assert (Hin : i ∈ filter (λ j, rep (components batch) j = rep (components batch) i) (seq 0 (length batch)))
      by (rewrite list_elem_of_filter, elem_of_seq; split; [done|lia]).
    split; [|done]. apply elem_of_groups. eexists. split; [done|]. intros E. rewrite E in Hin.
    by apply not_elem_of_nil in Hin.
  - intros g (r & -> & Hne)%elem_of_groups. split; [done|]. split; [apply filter_seq_sorted|].
    intros i j. rewrite !list_elem_of_filter, !elem_of_seq. intros [<- [_ Hi]]. cbn in Hi. split.
    + intros [E [_ Hj]]. split; [done|]. by apply Hsame.
    + intros [Hj HQ]. split; [|lia]. symmetry. by apply Hsame.
Qed.

(** C23: [conflict_groups] partitions the batch into the connected components of
    the pairwise conflict relation. Every index of the batch is in some group;
    every group lists, in ascending order, exactly the indices reachable from any
    of its members through transactions whose declarations conflict; and the
    groups come ordered by their first member, so no index is in two of them. *)
Theorem conflict_groups_correct (batch : list EffectSet) :
  (∀ i, (i < length batch)%nat → ∃ g, g ∈ conflict_groups batch ∧ i ∈ g) ∧
  (∀ g, g ∈ conflict_groups batch → g ≠ [] ∧ StronglySorted lt g ∧
     ∀ i j, i ∈ g → j ∈ g ↔ (j < length batch)%nat ∧ rtc (tx_conflict batch) i j) ∧
  StronglySorted first_lt (conflict_groups batch).
Proof. apply conflict_groups_partition. Qed.
