(* ===== verification/Capability.v ===== *)
(** * Capabilities and refusals ([crates/kernel/src/session/{materialize,grants,trap}.rs])

    The forms a materialized capability takes, the one table that says which
    operation each grants, the refusals a session answers with, and the monad the
    session's operations are written in: a state that is kept as the operation
    left it, whether it answered, trapped or panicked. *)

From S2P Require Import Prelude WideMath Types Effects Conflict Modes Ledger.

(** A [u32] handle number. Reps are only compared and used as indices. *)
Abbreviation Rep := nat (only parsing).

(** ** Capability forms *)

Record Interval := {
  iv_width : Z;
  iv_owner : Address;
  iv_collection : CollectionId;
  iv_lo : Z;
  iv_hi : Z;
  iv_cap : Z;
}.
#[global] Instance Interval_eq_dec : EqDecision Interval.
Proof. solve_decision. Defined.

Definition interval_holds (i : Interval) (order : Z) : bool :=
  bool_decide (iv_lo i ≤ order) && bool_decide (order ≤ iv_hi i).

Module Cap.
Inductive Capability :=
  | Read (key : SubstateKey)
  | Write (key : SubstateKey)
  | Amount (key : SubstateKey) (moves : Moves)
  | AmountRead (key : SubstateKey)
  | Delta (key : SubstateKey) (moves : Moves)
  | Reserve (key : SubstateKey) (amount : Z)
  | RangeRead (interval : Interval)
  | RangeWrite (interval : Interval)
  | Instances (interval : Interval) (moves : Moves).
#[global] Instance Capability_eq_dec : EqDecision Capability.
Proof. solve_decision. Defined.
End Cap.
Abbreviation Capability := Cap.Capability.

Inductive Settlement := Immediate (key : SubstateKey) | Queued (key : SubstateKey).

Definition cap_key (c : Capability) : option SubstateKey :=
  match c with
  | Cap.Read key | Cap.Write key | Cap.Amount key _ | Cap.AmountRead key
  | Cap.Delta key _ | Cap.Reserve key _ => Some key
  | Cap.RangeRead _ | Cap.RangeWrite _ | Cap.Instances _ _ => None
  end.

Definition cap_owner (c : Capability) : Address :=
  match c with
  | Cap.Read key | Cap.Write key | Cap.Amount key _ | Cap.AmountRead key
  | Cap.Delta key _ | Cap.Reserve key _ => owner key
  | Cap.RangeRead i | Cap.RangeWrite i | Cap.Instances i _ => iv_owner i
  end.

Definition cap_interval (c : Capability) : option Interval :=
  match c with
  | Cap.RangeRead i | Cap.RangeWrite i | Cap.Instances i _ => Some i
  | Cap.Read _ | Cap.Write _ | Cap.Amount _ _ | Cap.AmountRead _
  | Cap.Delta _ _ | Cap.Reserve _ _ => None
  end.

Definition settlement (c : Capability) : option Settlement :=
  match c with
  | Cap.Amount key _ => Some (Immediate key)
  | Cap.Delta key _ => Some (Queued key)
  | Cap.Read _ | Cap.Write _ | Cap.AmountRead _ | Cap.Reserve _ _
  | Cap.RangeRead _ | Cap.RangeWrite _ | Cap.Instances _ _ => None
  end.

(** ** The permission table *)

Module Op.
Inductive Op :=
  | Read | Write | Clear | Seal | OpenSeal | Balance | Take | Put | ReservedAmount
  | TakeReserved | ReadEntries | WriteEntries | FileInstances | TakeInstances.
#[global] Instance Op_eq_dec : EqDecision Op.
Proof. solve_decision. Defined.
Definition ALL : list Op :=
  [Read; Write; Clear; Seal; OpenSeal; Balance; Take; Put; ReservedAmount;
   TakeReserved; ReadEntries; WriteEntries; FileInstances; TakeInstances].
End Op.

Definition grants (held : Capability) (op : Op.Op) : bool :=
  match op with
  | Op.Read => match held with Cap.Read _ | Cap.Write _ => true | _ => false end
  | Op.Write | Op.Clear | Op.Seal | Op.OpenSeal => match held with Cap.Write _ => true | _ => false end
  | Op.Balance => match held with Cap.Amount _ _ | Cap.AmountRead _ => true | _ => false end
  | Op.Take => match held with
               | Cap.Amount _ moves | Cap.Delta _ moves => moves_debits moves
               | _ => false
               end
  | Op.Put => match held with
              | Cap.Amount _ moves | Cap.Delta _ moves => moves_credits moves
              | _ => false
              end
  | Op.ReservedAmount | Op.TakeReserved => match held with Cap.Reserve _ _ => true | _ => false end
  | Op.ReadEntries => match held with
                      | Cap.RangeRead _ | Cap.RangeWrite _ | Cap.Instances _ _ => true
                      | _ => false
                      end
  | Op.WriteEntries => match held with Cap.RangeWrite _ => true | _ => false end
  | Op.FileInstances => match held with Cap.Instances _ moves => moves_credits moves | _ => false end
  | Op.TakeInstances => match held with Cap.Instances _ moves => moves_debits moves | _ => false end
  end.

(** ** Refusals *)

Module Trap.
Inductive SessionTrap :=
  | UnknownHandle (rep : Rep)
  | OutsideFrame (rep : Rep)
  | Ungranted (site element : Rep) (held : Capability) (attempted : Op.Op)
  | OutsideScope (site element : Rep) (held : Capability)
  | SealStanding (rep : Rep)
  | NotASeal (rep : Rep)
  | UndeclaredBranch
  | WrongResource (cell carried : ResourceAddr)
  | BytesAsValue (site element : Rep)
  | IndexOutOfBounds (index : Rep) (count : nat)
  | OrderOutsideInterval
  | WriteCapExceeded (cap order : Z)
  | ReservationMissing
  | ReservationTaken
  | IssuanceUngranted
  | WrongIssuanceKind
  | BucketUnderflow (amount held : Z)
  | BucketOverflow
  | WrongEdgeKind
  | InstanceHeldTwice (id : Z)
  | InstanceNotHeld (id : Z)
  | MalformedIdSet
  | BadAmountCell (key : SubstateKey)
  | CellUnderflow
  | CellOverflow (key : SubstateKey) (amount : Z)
  | NoInvocation
  | EventTypeOutOfRange (event_type : Z)
  | TooManyEvents
  | EventPayloadTooLarge (len : nat)
  | EventBytesExceeded (bound : Z)
  | CellValueTooLarge (len : nat) (width : Z)
  | ShareAboveOne
  | Math (e : MathError)
  | Store (e : StoreError)
  | Supply (e : ModeError)
  | CrossingKeyRepeated (key : SubstateKey)
  | CrossingWithoutRecourse (key : SubstateKey)
  | OwedArrival (key : SubstateKey).
#[global] Instance SessionTrap_eq_dec : EqDecision SessionTrap.
Proof. solve_decision. Defined.
End Trap.
Abbreviation SessionTrap := Trap.SessionTrap.

(** ** What an operation comes to *)

Inductive outcome (A : Type) : Type :=
  | Done (a : A)
  | Trapped (t : SessionTrap)
  | Panicked.
Arguments Done {A} a.
Arguments Trapped {A} t.
Arguments Panicked {A}.

#[global] Instance outcome_ret : MRet outcome := λ A a, Done a.
#[global] Instance outcome_bind : MBind outcome := λ A B f m,
  match m with Done a => f a | Trapped t => Trapped t | Panicked => Panicked end.

(** [?] on a [Result] whose error converts into a trap by [f]. *)
Definition lift {E A} (f : E → SessionTrap) (r : result E A) : outcome A :=
  match r with Ok a => Done a | Err e => Trapped (f e) end.
(** [expect] of a value that must be there. *)
Definition expect {A} (o : option A) : outcome A := match o with Some a => Done a | None => Panicked end.
Definition some_or {A} (o : option A) (t : SessionTrap) : outcome A :=
  match o with Some a => Done a | None => Trapped t end.

(** An operation over a state: the state is what the operation left, also where it
    did not answer. *)
Definition M (S A : Type) : Type := S → S * outcome A.
#[global] Instance M_ret {S} : MRet (M S) := λ A a s, (s, Done a).
#[global] Instance M_bind {S} : MBind (M S) := λ A B f m s,
  match m s with
  | (s', Done a) => f a s'
  | (s', Trapped t) => (s', Trapped t)
  | (s', Panicked) => (s', Panicked)
  end.
Definition asks {S A} (f : S → outcome A) : M S A := λ s, (s, f s).
Definition gets {S A} (f : S → A) : M S A := λ s, (s, Done (f s)).
Definition modify {S} (f : S → S) : M S () := λ s, (f s, Done ()).
Definition trap {S A} (t : SessionTrap) : M S A := λ s, (s, Trapped t).

Lemma M_bind_done {S A B} (m : M S A) (f : A → M S B) s s' b :
  (m ≫= f) s = (s', Done b) ↔ ∃ s1 a, m s = (s1, Done a) ∧ f a s1 = (s', Done b).
Proof. unfold mbind, M_bind. destruct (m s) as [s1 [a|t|]]; naive_solver. Qed.

Lemma outcome_bind_done {A B} (m : outcome A) (f : A → outcome B) b :
  (m ≫= f) = Done b ↔ ∃ a, m = Done a ∧ f a = Done b.
Proof. destruct m; cbn; naive_solver. Qed.

Lemma some_or_done {A} (o : option A) t a : some_or o t = Done a ↔ o = Some a.
Proof. destruct o; cbn; naive_solver. Qed.

Lemma lift_done {E A} (f : E → SessionTrap) (r : result E A) a : lift f r = Done a ↔ r = Ok a.
Proof. destruct r; cbn; naive_solver. Qed.
