(* ===== verification/Outcomes.v ===== *)
(** * Outcomes ([crates/types/src/execution.rs])

    How an execution ended: the closed vocabulary of abort reasons, the outcome a
    receipt records, events and answers, with their canonical encodings, and the
    classification of every refusal the kernel's parts answer with into that
    vocabulary. *)

From S2P Require Import Prelude WideMath Types Effects Conflict Modes Hbor Cells Writes Ledger Capability.

Definition MAX_MANIFEST_NODES : nat := 4096.
Definition MAX_EVENT_PAYLOAD_BYTES : nat := 4096.
Definition EVENT_FRAME_BYTES : Z := 38.
Definition MAX_ANSWER_BYTES : nat := MAX_EVENT_PAYLOAD_BYTES.

(** ** Abort reasons *)

Module Abort.
Inductive AbortReason :=
  | Unreachable | IntegerDivideByZero | IntegerOverflow | MemoryOutOfBounds | TableOutOfBounds
  | IndirectCallToNull | IndirectCallSignature | StackExhausted | OutOfGas | TrapOutsideProfile | AbiViolation
  | HandleUnknown | HandleWrongMode | UndeclaredBranch | MalformedAmountCell | EntryIndexOutOfBounds
  | OrderOutsideInterval | IntervalWriteCapExceeded | ReservationMissing | ReservationAlreadyTaken
  | IssuanceUngranted | BucketUnderflow | BucketOverflow | WrongEdgeKind | InstanceHeldTwice | InstanceNotHeld
  | ValueDropped | EmissionOutsideInvocation | EventTypeOutOfRange | ErrorCodeOutOfRange | EventCountExceeded
  | EventPayloadTooLarge | DuplicateReservationRequest | LedgerInvariant | DeltaTotalOverflow | CellOverflow
  | CellUnderflow | SupplyOutOfBounds | MathDivideByZero | MathOverflow | ShareAboveOne | WrongResource
  | BytesAsValue | UndenominatedMovement | MixedContents | EffectUnsupported | SelfConflictingModes
  | ReservationMismatch | CapabilityOutOfRange | MissingProducerEdge | MalformedEdgeCell
  | AuthorityCellUnreadable | BadReturnShape | ExportMissing | InstantiationFailed | CodeUnavailable
  | WrongIssuanceKind | WrongMintedIds | AnswerTooLarge | MalformedSeal | SealStanding | ValueNotConserved
  | CellValueTooLarge | EscrowOverflow | ConditionStraddlesScope | OutsideScope | CrossingKeyRepeated
  | HandleOutsideFrame | MissingCeiling | EventBytesExceeded | CrossingWithoutRecourse | OwedArrival
  | DepositUnbound.
#[global] Instance AbortReason_eq_dec : EqDecision AbortReason.
Proof. solve_decision. Defined.
(** Each class with its wire byte. *)
Definition classes : list (byte * AbortReason) := [
  (x00, Unreachable); (x01, IntegerDivideByZero); (x02, IntegerOverflow); (x03, MemoryOutOfBounds);
  (x04, TableOutOfBounds); (x05, IndirectCallToNull); (x06, IndirectCallSignature); (x07, StackExhausted);
  (x08, OutOfGas); (x09, TrapOutsideProfile); (x0a, AbiViolation); (x0b, HandleUnknown);
  (x0c, HandleWrongMode); (x0d, UndeclaredBranch); (x0e, MalformedAmountCell); (x0f, EntryIndexOutOfBounds);
  (x10, OrderOutsideInterval); (x11, IntervalWriteCapExceeded); (x12, ReservationMissing);
  (x13, ReservationAlreadyTaken); (x14, IssuanceUngranted); (x15, BucketUnderflow); (x16, BucketOverflow);
  (x17, WrongEdgeKind); (x18, InstanceHeldTwice); (x19, InstanceNotHeld); (x1a, ValueDropped);
  (x1b, EmissionOutsideInvocation); (x1c, EventTypeOutOfRange); (x1d, ErrorCodeOutOfRange);
  (x1e, EventCountExceeded); (x1f, EventPayloadTooLarge); (x21, DuplicateReservationRequest);
  (x22, LedgerInvariant); (x23, DeltaTotalOverflow); (x24, CellOverflow); (x25, CellUnderflow);
  (x26, SupplyOutOfBounds); (x27, MathDivideByZero); (x28, MathOverflow); (x29, ShareAboveOne);
  (x2a, WrongResource); (x2b, BytesAsValue); (x2c, UndenominatedMovement); (x2d, MixedContents);
  (x2e, EffectUnsupported); (x31, SelfConflictingModes); (x32, ReservationMismatch);
  (x33, CapabilityOutOfRange); (x34, MissingProducerEdge); (x35, MalformedEdgeCell);
  (x36, AuthorityCellUnreadable); (x37, BadReturnShape); (x38, ExportMissing); (x39, InstantiationFailed);
  (x3a, CodeUnavailable); (x3b, WrongIssuanceKind); (x3c, WrongMintedIds); (x3d, AnswerTooLarge);
  (x3e, MalformedSeal); (x3f, SealStanding); (x40, ValueNotConserved); (x41, CellValueTooLarge);
  (x42, EscrowOverflow); (x43, ConditionStraddlesScope); (x46, OutsideScope); (x47, CrossingKeyRepeated);
  (x48, HandleOutsideFrame); (x49, MissingCeiling); (x4a, EventBytesExceeded); (x4b, CrossingWithoutRecourse);
  (x4c, OwedArrival); (x4d, DepositUnbound)].
End Abort.
Abbreviation AbortReason := Abort.AbortReason.

(** ** Outcomes *)

Record Event := { emitter : Address; event_type : Z; payload : bytes }.
Record Answer := { a_node : Z; a_value : bytes }.

Module Unmet.
Inductive UnmetCondition :=
  | Holds (target : EffectTarget) (required : Presence) (node : option Z)
  | Satisfies (node : Z)
  | SignedIn (account : Address)
  | Unanswerable (node : option Z).
End Unmet.
Abbreviation UnmetCondition := Unmet.UnmetCondition.

Module Outcome.
Inductive Outcome :=
  | Completed (answers : list Answer)
  | UserError (reason : AbortReason)
  | Infeasible (key : SubstateKey) (amount : Z)
  | ConstraintUnmet (node param amount : Z)
  | Declined (node code : Z)
  | NullifierSpent (key : SubstateKey)
  | ProtocolError (reason : AbortReason)
  | ConditionUnmet (condition : UnmetCondition)
  | BaselineDiscarded (flipped : TxHash)
  | EscrowAlreadyClaimed (key : SubstateKey)
  | EscrowAlreadyIssued (key : SubstateKey).
End Outcome.
Abbreviation Outcome := Outcome.Outcome.

(** ** Refusals, classified *)

Definition math_reason (e : MathError) : AbortReason :=
  match e with DivideByZero => Abort.MathDivideByZero | Overflow => Abort.MathOverflow end.
Definition mode_reason (e : ModeError) : AbortReason :=
  match e with
  | BadAmountCell _ => Abort.MalformedAmountCell
  | DeltaOverflow => Abort.DeltaTotalOverflow
  | CellOverflow => Abort.CellOverflow
  | CellUnderflow => Abort.CellUnderflow
  | SupplyOutOfBounds => Abort.SupplyOutOfBounds
  | EscrowOverflow => Abort.EscrowOverflow
  end.
Definition store_reason (e : StoreError) : AbortReason :=
  match e with
  | MissingReservation _ _ => Abort.ReservationMissing
  | HeldExceedsCommitted _ => Abort.LedgerInvariant
  | DuplicateRequest _ _ => Abort.DuplicateReservationRequest
  | StoreMode mode => mode_reason mode
  end.
Definition trap_reason (t : SessionTrap) : AbortReason :=
  match t with
  | Trap.UnknownHandle _ => Abort.HandleUnknown
  | Trap.OutsideFrame _ => Abort.HandleOutsideFrame
  | Trap.Ungranted _ _ _ _ => Abort.HandleWrongMode
  | Trap.OutsideScope _ _ _ => Abort.OutsideScope
  | Trap.NotASeal _ => Abort.MalformedSeal
  | Trap.SealStanding _ => Abort.SealStanding
  | Trap.UndeclaredBranch => Abort.UndeclaredBranch
  | Trap.IndexOutOfBounds _ _ => Abort.EntryIndexOutOfBounds
  | Trap.OrderOutsideInterval => Abort.OrderOutsideInterval
  | Trap.WriteCapExceeded _ _ => Abort.IntervalWriteCapExceeded
  | Trap.ReservationMissing => Abort.ReservationMissing
  | Trap.ReservationTaken => Abort.ReservationAlreadyTaken
  | Trap.IssuanceUngranted => Abort.IssuanceUngranted
  | Trap.WrongIssuanceKind => Abort.WrongIssuanceKind
  | Trap.BucketUnderflow _ _ => Abort.BucketUnderflow
  | Trap.BucketOverflow => Abort.BucketOverflow
  | Trap.WrongEdgeKind => Abort.WrongEdgeKind
  | Trap.InstanceHeldTwice _ => Abort.InstanceHeldTwice
  | Trap.InstanceNotHeld _ => Abort.InstanceNotHeld
  | Trap.MalformedIdSet => Abort.MalformedEdgeCell
  | Trap.BadAmountCell _ => Abort.MalformedAmountCell
  | Trap.CellUnderflow => Abort.CellUnderflow
  | Trap.CellOverflow _ _ => Abort.CellOverflow
  | Trap.NoInvocation => Abort.EmissionOutsideInvocation
  | Trap.EventTypeOutOfRange _ => Abort.EventTypeOutOfRange
  | Trap.TooManyEvents => Abort.EventCountExceeded
  | Trap.EventPayloadTooLarge _ => Abort.EventPayloadTooLarge
  | Trap.EventBytesExceeded _ => Abort.EventBytesExceeded
  | Trap.CellValueTooLarge _ _ => Abort.CellValueTooLarge
  | Trap.ShareAboveOne => Abort.ShareAboveOne
  | Trap.WrongResource _ _ => Abort.WrongResource
  | Trap.BytesAsValue _ _ => Abort.BytesAsValue
  | Trap.Math error => math_reason error
  | Trap.Supply error => mode_reason error
  | Trap.Store store => store_reason store
  | Trap.CrossingKeyRepeated _ => Abort.CrossingKeyRepeated
  | Trap.CrossingWithoutRecourse _ => Abort.CrossingWithoutRecourse
  | Trap.OwedArrival _ => Abort.OwedArrival
  end.

(** ** Encodings *)

(** A variant with no fields. *)
Definition unit_variant {A} `{EqDecision A} (t : byte) (a : A) : Variant A :=
  {| tag := t; body := unit_codec; construct _ := a; pattern b := if decide (b = a) then Some () else None |}.
Definition unit_enum {A} `{EqDecision A} (table : list (byte * A)) : list (Variant A) :=
  (λ p, unit_variant p.1 p.2) <$> table.

Definition abort_reason : Codec AbortReason := enum (unit_enum Abort.classes).
Definition presence : Codec Presence := enum (unit_enum [(x00, Either); (x01, Absent); (x02, Present)]).
Definition target_variants : list (Variant EffectTarget) := [
  {| tag := x00; body := nested substate_key; construct := Point;
     pattern t := match t with Point k => Some k | _ => None end |};
  {| tag := x01; body := both (nested address) (both (nested (uint_be 16)) (nested (uint 16)));
     construct f := Entry f.1 f.2.1 f.2.2;
     pattern t := match t with Entry o c x => Some (o, (c, x)) | _ => None end |};
  {| tag := x02;
     body := both (nested address) (both (nested (uint_be 16)) (both (nested (uint 16)) (both (nested (uint 16)) (nested (uint 4)))));
     construct f := Range f.1 f.2.1 f.2.2.1 f.2.2.2.1 f.2.2.2.2;
     pattern t := match t with Range o c lo hi cap => Some (o, (c, (lo, (hi, cap)))) | _ => None end |}].
Definition effect_target : Codec EffectTarget := enum target_variants.
Definition unmet_variants : list (Variant UnmetCondition) := [
  {| tag := x00; body := both (nested effect_target) (both (nested presence) (nested (option_codec (uint 4))));
     construct f := Unmet.Holds f.1 f.2.1 f.2.2;
     pattern u := match u with Unmet.Holds t p n => Some (t, (p, n)) | _ => None end |};
  {| tag := x01; body := nested (uint 4); construct := Unmet.Satisfies;
     pattern u := match u with Unmet.Satisfies n => Some n | _ => None end |};
  {| tag := x02; body := nested address; construct := Unmet.SignedIn;
     pattern u := match u with Unmet.SignedIn a => Some a | _ => None end |};
  {| tag := x03; body := nested (option_codec (uint 4)); construct := Unmet.Unanswerable;
     pattern u := match u with Unmet.Unanswerable n => Some n | _ => None end |}].
Definition unmet_condition : Codec UnmetCondition := enum unmet_variants.
Definition event : Codec Event :=
  carried (λ v, (emitter v, (event_type v, payload v)))
    (λ '(a, (t, p)), Ok {| emitter := a; event_type := t; payload := p |})
    (both (nested address) (both (nested (uint 4)) (nested (capped_bytes MAX_EVENT_PAYLOAD_BYTES)))).
Definition answer : Codec Answer :=
  carried (λ a, (a_node a, a_value a)) (λ '(n, v), Ok {| a_node := n; a_value := v |})
    (both (nested (uint 4)) (nested (capped_bytes MAX_ANSWER_BYTES))).
Definition outcome_variants : list (Variant Outcome) := [
  {| tag := x00; body := nested (capped_vec MAX_MANIFEST_NODES answer); construct := Outcome.Completed;
     pattern o := match o with Outcome.Completed a => Some a | _ => None end |};
  {| tag := x01; body := nested abort_reason; construct := Outcome.UserError;
     pattern o := match o with Outcome.UserError r => Some r | _ => None end |};
  {| tag := x02; body := both (nested substate_key) (nested (uint 16)); construct f := Outcome.Infeasible f.1 f.2;
     pattern o := match o with Outcome.Infeasible k a => Some (k, a) | _ => None end |};
  {| tag := x03; body := both (nested (uint 4)) (both (nested (uint 4)) (nested (uint 16)));
     construct f := Outcome.ConstraintUnmet f.1 f.2.1 f.2.2;
     pattern o := match o with Outcome.ConstraintUnmet n p a => Some (n, (p, a)) | _ => None end |};
  {| tag := x04; body := both (nested (uint 4)) (nested (uint 4)); construct f := Outcome.Declined f.1 f.2;
     pattern o := match o with Outcome.Declined n c => Some (n, c) | _ => None end |};
  {| tag := x07; body := nested substate_key; construct := Outcome.NullifierSpent;
     pattern o := match o with Outcome.NullifierSpent k => Some k | _ => None end |};
  {| tag := x08; body := nested abort_reason; construct := Outcome.ProtocolError;
     pattern o := match o with Outcome.ProtocolError r => Some r | _ => None end |};
  {| tag := x09; body := nested unmet_condition; construct := Outcome.ConditionUnmet;
     pattern o := match o with Outcome.ConditionUnmet c => Some c | _ => None end |};
  {| tag := x0a; body := nested hash32; construct := Outcome.BaselineDiscarded;
     pattern o := match o with Outcome.BaselineDiscarded t => Some t | _ => None end |};
  {| tag := x0b; body := nested substate_key; construct := Outcome.EscrowAlreadyClaimed;
     pattern o := match o with Outcome.EscrowAlreadyClaimed k => Some k | _ => None end |};
  {| tag := x0c; body := nested substate_key; construct := Outcome.EscrowAlreadyIssued;
     pattern o := match o with Outcome.EscrowAlreadyIssued k => Some k | _ => None end |}].
Definition outcome_codec : Codec Outcome := enum outcome_variants.

(** ** Canonicity *)

Section unit_enums.
Context {A : Type} `{EqDecision A} (table : list (byte * A)).
Hypothesis Htags : NoDup table.*1.
Hypothesis Hvalues : NoDup table.*2.
Hypothesis Htotal : ∀ a, a ∈ table.*2.

Lemma elem_of_unit_enum v : v ∈ unit_enum table ↔ ∃ t a, (t, a) ∈ table ∧ v = unit_variant t a.
Proof. unfold unit_enum. rewrite list_elem_of_fmap. split.
  - intros ([t a] & -> & Hin). by exists t, a.
  - intros (t & a & Hin & ->). by exists (t, a).
Qed.

Lemma unit_enum_laws : enum_laws (unit_enum table) any.
Proof using All.
  split.
  - intros v x (t & a & _ & ->)%elem_of_unit_enum. cbn in *. rewrite decide_True by done. by destruct x.
  - intros v b x (t & a & _ & ->)%elem_of_unit_enum. cbn in *. by destruct (decide _).
  - intros v w x (t & a & Hv & ->)%elem_of_unit_enum (t' & a' & Hw & ->)%elem_of_unit_enum. cbn.
    destruct (decide _) as [<-|]; [|by intros []]. intros _.
    apply list_elem_of_lookup in Hv as [i Hi]. apply list_elem_of_lookup in Hw as [j Hj].
    assert (i = j) as ->; [|by simplify_eq].
    apply (proj1 (NoDup_alt _) Hvalues i j a); by rewrite list_lookup_fmap, ?Hi, ?Hj.
  - unfold unit_enum. rewrite <- list_fmap_compose. exact Htags.
  - intros a _. specialize (Htotal a). apply list_elem_of_fmap in Htotal as ([t a'] & -> & Hin).
    exists (unit_variant t a'). split; [apply elem_of_unit_enum; eauto|]. cbn. by rewrite decide_True.
Qed.
Lemma built_unit_enum : built (enum (unit_enum table)) any.
Proof using All.
  apply built_enum; [apply unit_enum_laws|]. intros v (t & a & _ & ->)%elem_of_unit_enum. apply built_unit.
Qed.
Lemma unit_enum_free : LengthFree (enum (unit_enum table)) any 0.
Proof using All.
  apply enum_free; [apply unit_enum_laws|]. intros v (t & a & _ & ->)%elem_of_unit_enum. apply unit_free.
Qed.
End unit_enums.

Lemma total_here {A} (v : Variant A) vs a : is_Some (pattern v a) → ∃ w, w ∈ v :: vs ∧ is_Some (pattern w a).
Proof. intros Ha. exists v. split; [apply list_elem_of_here|done]. Qed.
Lemma total_there {A} (v : Variant A) vs a :
  (∃ w, w ∈ vs ∧ is_Some (pattern w a)) → ∃ w, w ∈ v :: vs ∧ is_Some (pattern w a).
Proof. intros (w & Hw & Ha). exists w. split; [by apply list_elem_of_further|done]. Qed.

(** One goal per variant of a listed enum. *)
Ltac each_of H :=
  repeat (apply elem_of_cons in H as [->|H]); [..|by apply not_elem_of_nil in H].
(** The laws of a listed enum. *)
Ltac listed_laws :=
  split;
  [ intros v x Hv; each_of Hv; by repeat destruct x as [? x]
  | intros v a x Hv; each_of Hv; destruct a; cbn; intros [=]; by subst
  | intros v w x Hv Hw; each_of Hv; each_of Hw; repeat destruct x as [? x]; by intros []
  | apply (bool_decide_unpack _); vm_compute; exact I
  | intros a _; destruct a;
    repeat first [apply total_here; cbn; eexists; reflexivity|apply total_there] ].
Ltac listed_enum vs := unfold vs; listed_laws.

Definition target_ok (t : EffectTarget) : Prop :=
  match t with
  | Point k => key_ok k
  | Entry o c x => address_ok o ∧ width_ok 16 c ∧ width_ok 16 x
  | Range o c lo hi cap => address_ok o ∧ width_ok 16 c ∧ width_ok 16 lo ∧ width_ok 16 hi ∧ width_ok 4 cap
  end.
Definition node_ok (n : option Z) : Prop := from_option (width_ok 4) True n.
Definition unmet_ok (u : UnmetCondition) : Prop :=
  match u with
  | Unmet.Holds t _ n => target_ok t ∧ True ∧ node_ok n
  | Unmet.Satisfies n => width_ok 4 n
  | Unmet.SignedIn a => address_ok a
  | Unmet.Unanswerable n => node_ok n
  end.
Definition event_ok (e : Event) : Prop :=
  address_ok (emitter e) ∧ width_ok 4 (event_type e) ∧ (length (payload e) ≤ MAX_EVENT_PAYLOAD_BYTES)%nat.
Definition node_answer_ok (a : Answer) : Prop := width_ok 4 (a_node a) ∧ (length (a_value a) ≤ MAX_ANSWER_BYTES)%nat.
Definition outcome_ok (o : Outcome) : Prop :=
  match o with
  | Outcome.Completed answers => Forall node_answer_ok answers ∧ (length answers ≤ MAX_MANIFEST_NODES)%nat
  | Outcome.UserError _ | Outcome.ProtocolError _ => True
  | Outcome.Infeasible k a => key_ok k ∧ width_ok 16 a
  | Outcome.ConstraintUnmet n p a => width_ok 4 n ∧ width_ok 4 p ∧ width_ok 16 a
  | Outcome.Declined n c => width_ok 4 n ∧ width_ok 4 c
  | Outcome.NullifierSpent k | Outcome.EscrowAlreadyClaimed k | Outcome.EscrowAlreadyIssued k => key_ok k
  | Outcome.ConditionUnmet u => unmet_ok u
  | Outcome.BaselineDiscarded t => width_ok 32 t
  end.

Lemma built_abort_reason : built abort_reason any.
Proof.
  apply built_unit_enum; [apply (bool_decide_unpack _); vm_compute; exact I..|].
  intros a. apply (bool_decide_unpack _). destruct a; vm_compute; exact I.
Qed.
Lemma built_presence : built presence any.
Proof.
  apply built_unit_enum; [apply (bool_decide_unpack _); vm_compute; exact I..|].
  intros a. apply (bool_decide_unpack _). destruct a; vm_compute; exact I.
Qed.

Lemma target_laws : enum_laws target_variants target_ok.
Proof. listed_enum target_variants. Qed.
Lemma unmet_laws : enum_laws unmet_variants unmet_ok.
Proof. listed_enum unmet_variants. Qed.
Lemma outcome_laws : enum_laws outcome_variants outcome_ok.
Proof. listed_enum outcome_variants. Qed.

#[export] Hint Resolve built_abort_reason built_presence built_option built_capped_bytes : codec.

(** The fields of a variant, spelled out: their predicates are read off them. *)
Local Infix "⊗" := (built_both _ _ _ _ _ _) (at level 45, right associativity).
Local Notation nest := (built_nested _ _ _).
Ltac built_fields t := let H := fresh in pose proof t as H; exact H.

Lemma built_target : built effect_target target_ok.
Proof.
  apply built_enum; [apply target_laws|]. intros v Hv. unfold target_variants in Hv. each_of Hv; cbn.
  - apply built_nested, built_substate_key.
  - built_fields (nest built_address ⊗ nest (built_uint_be 16) ⊗ nest (built_uint 16)).
  - built_fields (nest built_address ⊗ nest (built_uint_be 16) ⊗ nest (built_uint 16) ⊗ nest (built_uint 16) ⊗ nest (built_uint 4)).
Qed.
#[export] Hint Resolve built_target : codec.
Lemma built_unmet : built unmet_condition unmet_ok.
Proof.
  apply built_enum; [apply unmet_laws|]. intros v Hv. unfold unmet_variants in Hv. each_of Hv; cbn.
  - built_fields (nest built_target ⊗ nest built_presence ⊗ nest (built_option _ _ _ (built_uint 4))).
  - apply built_nested, built_uint.
  - apply built_nested, built_address.
  - apply built_nested, built_option, built_uint.
Qed.
Lemma built_event : built event event_ok.
Proof.
  eapply built_carried; [repeat apply built_both; apply built_nested; [apply built_address|apply built_uint|apply built_capped_bytes]|by intros []|].
  by intros (? & ? & ?) ? Hok [= <-].
Qed.
Lemma built_answer : built answer node_answer_ok.
Proof.
  eapply built_carried; [apply built_both; apply built_nested; [apply built_uint|apply built_capped_bytes]|by intros []|].
  by intros (? & ?) ? Hok [= <-].
Qed.
Lemma built_outcome : built outcome_codec outcome_ok.
Proof.
  apply built_enum; [apply outcome_laws|]. intros v Hv. unfold outcome_variants in Hv. each_of Hv; cbn.
  - apply built_nested, built_capped_vec; [apply built_answer|cbn; lia].
  - apply built_nested, built_abort_reason.
  - built_fields (nest built_substate_key ⊗ nest (built_uint 16)).
  - built_fields (nest (built_uint 4) ⊗ nest (built_uint 4) ⊗ nest (built_uint 16)).
  - built_fields (nest (built_uint 4) ⊗ nest (built_uint 4)).
  - apply built_nested, built_substate_key.
  - apply built_nested, built_abort_reason.
  - apply built_nested, built_unmet.
  - apply built_nested, built_hash32.
  - apply built_nested, built_substate_key.
  - apply built_nested, built_substate_key.
Qed.

(** A codec whose bytes and values determine each other at the default depth. *)
Definition wire_canonical {A} (c : Codec A) (ok : A → Prop) : Prop :=
  ∀ b v, from_slice c b = Ok v ↔ ok v ∧ to_vec c v = Ok b.

(** What a receipt carries has one encoding. The outcome with its abort class,
    an event, an answer and the state writes decode from exactly the bytes their
    value encodes to: every variant has a wire byte of its own, the answer, event
    and payload caps and the cell-width validation hold of everything decoded, and
    a value within them survives the round trip. *)
Theorem receipt_contents_canonical :
  wire_canonical outcome_codec outcome_ok ∧ wire_canonical event event_ok ∧
  wire_canonical answer node_answer_ok ∧ wire_canonical state_writes state_writes_ok.
Proof.
  unfold wire_canonical, from_slice, to_vec.
  split_and!; intros b v; apply canonical_iff, built_canonical;
    [apply built_outcome|apply built_event|apply built_answer|apply built_state_writes].
Qed.

(** ** What an event puts on the wire *)

Lemma event_bytes e :
  (length (payload e) ≤ MAX_EVENT_PAYLOAD_BYTES)%nat →
  to_vec event e = Ok (address_to_bytes (emitter e) ++ le_bytes 4 (event_type e) ++
    Varint.field 4 (Z.of_nat (length (payload e))) ++ payload e).
Proof.
  intros Hl. unfold to_vec, to_vec_with_depth.
  assert (Hp : puts (encode event e) 0 DEFAULT_MAX_DEPTH (address_to_bytes (emitter e) ++ le_bytes 4 (event_type e) ++
    Varint.field 4 (Z.of_nat (length (payload e))) ++ payload e)).
  { unfold DEFAULT_MAX_DEPTH. apply puts_bind; [|apply puts_bind]; (apply puts_descend; [lia|]); [apply puts_fixed..|].
    apply puts_bind; [|apply puts_descend; [lia|apply puts_fixed]].
    apply puts_len. unfold Varint.MAX_LENGTH, MAX_EVENT_PAYLOAD_BYTES in *. cbn in *. lia. }
  by rewrite Hp.
Qed.

(** The price of an event's framing bounds what the wire carries of it. An
    event within the payload cap encodes to at most its payload and
    [EVENT_FRAME_BYTES], and a payload past 127 bytes costs exactly that. *)
Theorem event_frame_bounds e :
  event_ok e →
  ∃ b, to_vec event e = Ok b ∧ Z.of_nat (length b) ≤ Z.of_nat (length (payload e)) + EVENT_FRAME_BYTES ∧
    (128 ≤ Z.of_nat (length (payload e)) → Z.of_nat (length b) = Z.of_nat (length (payload e)) + EVENT_FRAME_BYTES).
Proof.
  intros (_ & _ & Hl). eexists. split; [by apply event_bytes|].
  rewrite !length_app. unfold address_to_bytes. rewrite length_be_bytes, length_le_bytes.
  set (n := Z.of_nat (length (payload e))) in *. assert (0 ≤ n ≤ 4096) by (unfold MAX_EVENT_PAYLOAD_BYTES in *; cbn in *; lia).
  assert (Hd : n / 128 < 128) by (apply Z.div_lt_upper_bound; lia).
  unfold EVENT_FRAME_BYTES. cbn [Varint.field]. destruct (decide (n < 128)); cbn [length].
  - lia.
  - rewrite decide_True by done. cbn [length]. lia.
Qed.

Lemma event_frame_bounds_witness :
  let e := {| emitter := 258; event_type := 3; payload := replicate 200 x07 |} in
  ∃ b, to_vec event e = Ok b ∧ Z.of_nat (length b) = 238.
Proof.
  intros e. destruct (event_frame_bounds e) as (b & Hb & _ & Heq).
  - split; [split; [split; [discriminate|reflexivity]|eexists; vm_compute; reflexivity]|].
    split; [split; [discriminate|vm_compute; reflexivity]|vm_compute; lia].
  - exists b. split; [exact Hb|]. rewrite Heq; [reflexivity|vm_compute; discriminate].
Defined.
