(* ===== verification/Rules.v ===== *)
(** * The authority rule vocabulary ([crates/effects/src/{rule,claim,auth,manifest}.rs])

    A rule is a threshold over leaves. The tree, its caps and its walk are one
    implementation for every kind of leaf: the claims a caller presents, the
    leaves a rule is sealed with, and the leaves a transaction is judged on. The
    file also has the bytes a stored rule travels as and the record an account's
    governing cell holds, with the judgment made of it. *)

From S2P Require Import Prelude Types Hbor Cells Outcomes.

(** ** Claims *)

Record Claim := { subject : Address; instance : option Z }.
#[global] Instance Claim_eq_dec : EqDecision Claim.
Proof. solve_decision. Defined.

Definition claim_of_subject (a : Address) : Claim := {| subject := a; instance := None |}.
Definition claim_of_instance (badge : ResourceAddr) (id : Z) : Claim := {| subject := badge; instance := Some id |}.
Definition widened (c : Claim) : option Claim :=
  match instance c with Some _ => Some (claim_of_subject (subject c)) | None => None end.
(** [ResourceAddr::try_from] and [CallTarget::try_from], by the class they admit. *)
Definition call_admits (c : AddressClass) : bool := match c with Principal | Component => true | _ => false end.
Definition narrowed (admits : AddressClass → bool) (a : Address) : option Address :=
  match address_class a with Some c => if admits c then Some a else None | None => None end.
Definition claim_badge (c : Claim) : option ResourceAddr := narrowed resource_admits (subject c).
Definition claim_callable (c : Claim) : option Address := narrowed call_admits (subject c).
Definition claim_of_address (a : Address) : option Claim :=
  match narrowed resource_admits a, narrowed call_admits a with
  | None, None => None
  | _, _ => Some (claim_of_subject a)
  end.

(** ** Rules *)

Inductive Rule (L : Type) : Type :=
  | Require (leaf : L)
  | CountOf (count : Z) (rules : list (Rule L)).
Arguments Require {L} leaf.
Arguments CountOf {L} count rules.

Definition MAX_RULE_DEPTH : nat := 4.
Definition MAX_RULE_BRANCHES : nat := 16.
Definition MAX_RULE_LEAVES : nat := 64.
Definition MAX_RULE_WIRE_DEPTH : nat := 2 * MAX_RULE_DEPTH + 1.

Section tree.
Context {L : Type}.
Implicit Types r : Rule L.

Lemma rule_tree_ind (P : Rule L → Prop) :
  (∀ l, P (Require l)) → (∀ n rs, Forall P rs → P (CountOf n rs)) → ∀ r, P r.
Proof.
  intros Hl Hc. fix IH 1. intros [l|n rs]; [apply Hl|]. apply Hc.
  induction rs as [|r rs IHrs]; constructor; [apply IH|exact IHrs].
Qed.

Fixpoint rule_size r : nat :=
  match r with Require _ => 1 | CountOf _ rs => S (sum_list_with rule_size rs) end.
(** [Rule::leaves] and the counter [leaves]: a stack of rules still to visit, its
    top at the head. A visit pops one rule and pushes its branches, so the nodes
    of the tree are fuel enough. *)
Fixpoint leaves_walk (fuel : nat) (stack : list (Rule L)) : list L :=
  match fuel, stack with
  | S fuel, Require leaf :: stack => leaf :: leaves_walk fuel stack
  | S fuel, CountOf _ rules :: stack => leaves_walk fuel (rules ++ stack)
  | _, _ => []
  end.
Definition leaves r : list L := leaves_walk (rule_size r) [r].
Fixpoint count_walk (fuel : nat) (stack : list (Rule L)) (total : nat) : nat :=
  match fuel, stack with
  | S fuel, Require _ :: stack => count_walk fuel stack (S total)
  | S fuel, CountOf _ rules :: stack => count_walk fuel (rev rules ++ stack) total
  | _, _ => total
  end.
Definition count_leaves r : nat := count_walk (rule_size r) [r] 0.

Inductive Malformed := ConstantCount | ConstantBranch | EmptyThreshold | CountPastBranches | TooManyLeaves.
Definition constant r : bool := match r with CountOf _ [] => true | _ => false end.
Definition well_formed r : result Malformed () :=
  match r with
  | Require _ => Ok ()
  | CountOf count [] => if decide (1 < count) then Err ConstantCount else Ok ()
  | CountOf count rules =>
      if existsb constant rules then Err ConstantBranch
      else if decide (count = 0) then Err EmptyThreshold
      else if decide (Z.of_nat (length rules) < count) then Err CountPastBranches
      else if decide (MAX_RULE_LEAVES < count_leaves r)%nat then Err TooManyLeaves
      else Ok ()
  end.

Definition always : Rule L := CountOf 0 [].
Definition never : Rule L := CountOf 1 [].

Fixpoint within_caps r (depth : nat) : bool :=
  if decide (MAX_RULE_DEPTH ≤ depth)%nat then false else
  match r with
  | Require _ => true
  | CountOf _ rules => is_ok (well_formed r) && forallb (λ rule, within_caps rule (S depth)) rules
  end.

Fixpoint map_leaves {T E} (f : L → result E T) r : result E (Rule T) :=
  match r with
  | Require leaf => t ← f leaf; Ok (Require t)
  | CountOf count rules =>
      rules ← (fix go (rs : list (Rule L)) : result E (list (Rule T)) :=
                 match rs with
                 | [] => Ok []
                 | r :: rs => r ← map_leaves f r; rs ← go rs; Ok (r :: rs)
                 end) rules;
      Ok (CountOf count rules)
  end.
End tree.
Arguments always {L}.
Arguments never {L}.

Definition NOBODY_BYTES : bytes := [x01; x01; x00].
Definition ANYBODY_BYTES : bytes := [x01; x00; x00].

Fixpoint satisfied_by (r : Rule Claim) (presented : list Claim) : bool :=
  match r with
  | Require claim => bool_decide (claim ∈ presented)
  | CountOf count rules => bool_decide (count ≤ Z.of_nat (length (List.filter (λ rule, satisfied_by rule presented) rules)))
  end.

(** ** Where a rule is judged *)

Inductive Judged := AtAdmission | AtMaterialization | InTheLeg.
#[global] Instance Judged_eq_dec : EqDecision Judged.
Proof. solve_decision. Defined.
Definition before_any_leg (j : Judged) : bool := match j with InTheLeg => false | _ => true end.
Class Leaf (L : Type) := leaf_judged : L → Judged.
Definition leaf_reads_state_only {L} `{Leaf L} (l : L) : bool :=
  match leaf_judged l with AtMaterialization => true | _ => false end.

Fixpoint judged_fold {L} `{Leaf L} (ls : list L) (state evidence : bool) : Judged :=
  match ls with
  | [] => match state, evidence with
          | true, true => InTheLeg
          | true, false => AtMaterialization
          | false, _ => AtAdmission
          end
  | l :: ls => match leaf_judged l with
               | InTheLeg => InTheLeg
               | AtMaterialization => judged_fold ls true evidence
               | AtAdmission => judged_fold ls state true
               end
  end.
Definition rule_judged {L} `{Leaf L} (r : Rule L) : Judged := judged_fold (leaves r) false false.
Definition rule_reads_state_only {L} `{Leaf L} (r : Rule L) : bool := forallb leaf_reads_state_only (leaves r).

Inductive Holding := Balance | AnyInstance | Instance (id : Z).
Module Sealed.
Inductive SealedLeaf := Claimed (c : Claim) | Held (badge : ResourceAddr) (holding : Holding).
End Sealed.
Abbreviation SealedLeaf := Sealed.SealedLeaf.
#[global] Instance sealed_judged : Leaf SealedLeaf := λ l,
  match l with Sealed.Claimed _ => AtAdmission | Sealed.Held _ _ => AtMaterialization end.
Abbreviation StoredRule := (Rule SealedLeaf).
Definition stored_claim (c : Claim) : StoredRule := Require (Sealed.Claimed c).
Definition stored_held (badge : ResourceAddr) (h : Holding) : StoredRule := Require (Sealed.Held badge h).

Module JudgedLeaf.
Inductive JudgedLeaf :=
  | Claimed (c : Claim)
  | Stored (cell : SubstateKey)
  | IfPresence (target : EffectTarget) (expect : Presence)
  | Signed (cell : SubstateKey) (keys : list Claim).
End JudgedLeaf.
#[global] Instance judged_judged : Leaf JudgedLeaf.JudgedLeaf := λ l,
  match l with
  | JudgedLeaf.Claimed _ => AtAdmission
  | JudgedLeaf.Stored _ => InTheLeg
  | JudgedLeaf.IfPresence _ _ | JudgedLeaf.Signed _ _ => AtMaterialization
  end.

Definition claims_only (r : StoredRule) : option (Rule Claim) :=
  match map_leaves (λ l, match l with Sealed.Claimed c => Ok c | Sealed.Held _ _ => Err () end) r with
  | Ok r => Some r
  | Err _ => None
  end.

(** ** Their bytes *)

Definition claim : Codec Claim :=
  carried (λ c, (subject c, instance c)) (λ p, Ok {| subject := p.1; instance := p.2 |})
    (both (nested address) (nested (option_codec (uint 8)))).
Definition holding_variants : list (Variant Holding) := [
  {| tag := x00; body := unit_codec; construct _ := Balance;
     pattern h := match h with Balance => Some () | _ => None end |};
  {| tag := x01; body := unit_codec; construct _ := AnyInstance;
     pattern h := match h with AnyInstance => Some () | _ => None end |};
  {| tag := x02; body := nested (uint 8); construct := Instance;
     pattern h := match h with Instance id => Some id | _ => None end |}].
Definition holding : Codec Holding := enum holding_variants.
Definition sealed_variants : list (Variant SealedLeaf) := [
  {| tag := x00; body := nested claim; construct := Sealed.Claimed;
     pattern l := match l with Sealed.Claimed c => Some c | _ => None end |};
  {| tag := x01; body := both (nested resource_addr) (nested holding);
     construct p := Sealed.Held p.1 p.2;
     pattern l := match l with Sealed.Held b h => Some (b, h) | _ => None end |}].
Definition sealed_leaf : Codec SealedLeaf := enum sealed_variants.

(** The recursive codec, unrolled [fuel] times: a branch is two levels down, so
    past half the levels a cap leaves the recursion is refused before it is
    reached ([rule_levels_height], [rule_writes]). *)
Definition rule_stop {L} (width : nat) : Codec (Rule L) := {|
  MIN_ENCODED_LEN := width;
  encode _ e := Err (EncErr.DepthExceeded (enc_max e));
  decode d := Err (DecErr.DepthExceeded (dec_max d));
|}.
Definition rule_variants {L} (leaf : Codec L) (branch : Codec (Rule L)) : list (Variant (Rule L)) := [
  {| tag := x00; body := nested leaf; construct := Require;
     pattern r := match r with Require l => Some l | _ => None end |};
  {| tag := x01; body := both (nested (uint 1)) (nested (capped_vec MAX_RULE_BRANCHES branch));
     construct p := CountOf p.1 p.2;
     pattern r := match r with CountOf n rs => Some (n, rs) | _ => None end |}].
Definition validated {L} (r : Rule L) : result DecodeError (Rule L) :=
  match well_formed r with Ok _ => Ok r | Err _ => Err DecErr.FailedValidation end.
Fixpoint rule_at {L} (leaf : Codec L) (fuel : nat) : Codec (Rule L) :=
  match fuel with
  | O => rule_stop (1 + Nat.min (MIN_ENCODED_LEN leaf) 2)
  | S fuel => carried (λ r, r) validated (enum (rule_variants leaf (rule_at leaf fuel)))
  end.
Definition stored_rule : Codec StoredRule := rule_at sealed_leaf MAX_RULE_WIRE_DEPTH.
Definition stored_to_bytes (r : StoredRule) : result EncodeError bytes := to_vec_with_depth stored_rule r MAX_RULE_WIRE_DEPTH.
Definition stored_from_slice (b : bytes) : result DecodeError StoredRule := from_slice_with_depth stored_rule b MAX_RULE_WIRE_DEPTH.

(** ** Stored rules and the governing cell *)

Definition MAX_VALUE_BYTES : nat := 4096.
Definition RuleBytes : Type := bytes.
Definition rule_bytes : Codec RuleBytes := capped_bytes MAX_VALUE_BYTES.
Definition rule_decode (b : RuleBytes) : result DecodeError StoredRule := stored_from_slice b.
Definition rule_in_cell (cell : bytes) : result DecodeError StoredRule := b ← from_slice rule_bytes cell; rule_decode b.
Definition rule_bytes_in_cell (b : RuleBytes) : option bytes := match to_vec rule_bytes b with Ok c => Some c | Err _ => None end.
(** [TryFrom<&StoredRule> for RuleBytes]. *)
Definition rule_try_from (r : StoredRule) : result EncodeError RuleBytes :=
  b ← stored_to_bytes r;
  if decide (length b ≤ MAX_VALUE_BYTES)%nat then Ok b else Err (EncErr.BoundExceeded (length b) MAX_VALUE_BYTES).

Record Authority := { primary : RuleBytes; confirmation : RuleBytes }.
Definition authority : Codec Authority :=
  carried (λ a, (primary a, confirmation a)) (λ p, Ok {| primary := p.1; confirmation := p.2 |})
    (both (nested rule_bytes) (nested rule_bytes)).
(** The levels the record's shape nests: a field, and the run inside it. *)
Definition CELL_DEPTH : nat := 2.
Definition primary_only (p : RuleBytes) : Authority := {| primary := p; confirmation := ANYBODY_BYTES |}.
Definition authority_in_cell (a : Authority) : option bytes :=
  match to_vec_with_depth authority a CELL_DEPTH with Ok c => Some c | Err _ => None end.
Definition authority_from_cell (cell : bytes) : result DecodeError Authority := from_slice_with_depth authority cell CELL_DEPTH.

Definition admitted_by (r : StoredRule) (keys : list Claim) : bool :=
  match claims_only r with Some claims => satisfied_by claims keys | None => false end.
Definition rule_admits (b : RuleBytes) (keys : list Claim) : bool :=
  match rule_decode b with Ok r => admitted_by r keys | Err _ => false end.
Definition auth_cell_admits (owner : Address) (cell : option bytes) (keys : list Claim) : bool :=
  match cell with
  | None | Some [] => admitted_by (stored_claim (claim_of_subject owner)) keys
  | Some b => match authority_from_cell b with
              | Ok a => rule_admits (primary a) keys && rule_admits (confirmation a) keys
              | Err _ => false
              end
  end.

(** ** The walk visits the leaves in preorder *)

Section preorder.
Context {L : Type}.
Implicit Types r : Rule L.

Fixpoint preorder r : list L :=
  match r with Require l => [l] | CountOf _ rs => rs ≫= preorder end.
Definition stack_size (stack : list (Rule L)) : nat := sum_list_with rule_size stack.

Lemma stack_size_app s t : stack_size (s ++ t) = (stack_size s + stack_size t)%nat.
Proof. apply sum_list_with_app. Qed.
Lemma rule_size_count n (rs : list (Rule L)) : rule_size (CountOf n rs) = S (stack_size rs).
Proof. done. Qed.

Lemma leaves_walk_spec fuel stack : (stack_size stack ≤ fuel)%nat → leaves_walk fuel stack = stack ≫= preorder.
Proof.
  revert stack. induction fuel as [|fuel IH]; intros [|[l|n rs] stack]; try done.
  - unfold stack_size. cbn. lia.
  - unfold stack_size. cbn. lia.
  - intros Hs. cbn. f_equal. apply IH. unfold stack_size in *. cbn in Hs. lia.
  - intros Hs. change (stack_size (CountOf n rs :: stack)) with (rule_size (CountOf n rs) + stack_size stack)%nat in Hs.
    rewrite rule_size_count in Hs. cbn [leaves_walk]. rewrite IH by (rewrite stack_size_app; lia). apply bind_app.
Qed.
Lemma leaves_preorder r : leaves r = preorder r.
Proof.
  unfold leaves. rewrite leaves_walk_spec by (unfold stack_size; cbn; lia). cbn. apply app_nil_r.
Qed.

Lemma count_walk_spec fuel stack total :
  (stack_size stack ≤ fuel)%nat → count_walk fuel stack total = (total + length (stack ≫= preorder))%nat.
Proof.
  revert stack total. induction fuel as [|fuel IH]; intros [|[l|n rs] stack] total Hs; try (cbn; lia);
    try (unfold stack_size in Hs; cbn in Hs; lia).
  - cbn. rewrite IH by (unfold stack_size in *; cbn in Hs; lia). lia.
  - change (stack_size (CountOf n rs :: stack)) with (rule_size (CountOf n rs) + stack_size stack)%nat in Hs.
    rewrite rule_size_count in Hs. cbn [count_walk].
    assert (Hrev : stack_size (rev rs) = stack_size rs).
    { unfold stack_size. rewrite rev_alt. apply sum_list_with_reverse. }
    rewrite IH by (rewrite stack_size_app; lia). f_equal. rewrite bind_app, length_app.
    cbn. rewrite length_app. f_equal. apply Permutation_length. by rewrite <- Permutation_rev.
Qed.
Lemma count_leaves_spec r : count_leaves r = length (leaves r).
Proof.
  rewrite leaves_preorder. unfold count_leaves. rewrite count_walk_spec by (unfold stack_size; cbn; lia).
  cbn. by rewrite app_nil_r.
Qed.

(** Every node of a rule has a count of one byte and at most sixteen branches, as
    the type holds it; and every node is well formed. *)
Fixpoint typed (P : L → Prop) r : Prop :=
  match r with
  | Require l => P l
  | CountOf n rs => width_ok 1 n ∧ (length rs ≤ MAX_RULE_BRANCHES)%nat ∧ foldr (λ r, and (typed P r)) True rs
  end.
Fixpoint deeply_formed r : Prop :=
  match r with
  | Require _ => True
  | CountOf n rs => well_formed r = Ok () ∧ foldr (λ r, and (deeply_formed r)) True rs
  end.
Lemma foldr_and (P : Rule L → Prop) rs : foldr (λ r, and (P r)) True rs ↔ Forall P rs.
Proof. induction rs as [|r rs IH]; cbn; [by rewrite Forall_nil|by rewrite Forall_cons, IH]. Qed.

Lemma within_caps_formed r depth : within_caps r depth = true → deeply_formed r.
Proof.
  revert depth. induction r as [l|n rs IH] using rule_tree_ind; intros depth; [done|].
  cbn [within_caps deeply_formed]. destruct (decide _); [done|]. intros [Hw Hall]%andb_true_iff. split.
  - by destruct (well_formed _) as [[]|].
  - rewrite foldr_and, Forall_forall. rewrite Forall_forall in IH. rewrite forallb_forall in Hall.
    intros r Hr. apply (IH r Hr (S depth)), Hall. by apply list_elem_of_In.
Qed.

Lemma well_formed_threshold n r rs :
  well_formed (CountOf n (r :: rs)) = Ok () →
  Forall (λ r, constant r = false) (r :: rs) ∧ n ≠ 0 ∧ n ≤ Z.of_nat (length (r :: rs)) ∧
  (length (leaves (CountOf n (r :: rs))) ≤ MAX_RULE_LEAVES)%nat.
Proof.
  unfold well_formed. destruct (existsb _ _) eqn:E; [done|]. destruct (decide (n = 0)); [done|].
  destruct (decide _) as [|Hn]; [done|]. destruct (decide _) as [|Hl]; [done|]. intros _. rewrite count_leaves_spec in Hl.
  split; [|split; [done|lia]]. rewrite Forall_forall. intros x Hx. destruct (constant x) eqn:Hc; [|done].
  assert (existsb constant (r :: rs) = true); [|congruence]. apply existsb_exists. exists x. split; [by apply list_elem_of_In|done].
Qed.
End preorder.

(** ** What a rule admits *)

Lemma filter_length_mono {A} (f g : A → bool) l :
  (∀ x, x ∈ l → f x = true → g x = true) → (length (List.filter f l) ≤ length (List.filter g l))%nat.
Proof.
  induction l as [|x l IH]; intros H; cbn; [lia|].
  assert (IHl : (length (List.filter f l) ≤ length (List.filter g l))%nat) by (apply IH; intros; apply H; [by right|done]).
  pose proof (H x (list_elem_of_here _ _)) as Hx. destruct (f x), (g x); cbn; [lia| |lia..]. by specialize (Hx eq_refl).
Qed.
Lemma filter_none {A} (f : A → bool) l : (∀ x, x ∈ l → f x = false) → List.filter f l = [].
Proof.
  induction l as [|x l IH]; intros H; cbn; [done|]. rewrite (H x) by apply list_elem_of_here. apply IH. intros y Hy. apply H. by right.
Qed.
Lemma filter_whole {A} (f : A → bool) l : (∀ x, x ∈ l → f x = true) → List.filter f l = l.
Proof.
  induction l as [|x l IH]; intros H; cbn; [done|]. rewrite (H x) by apply list_elem_of_here. f_equal. apply IH. intros y Hy. apply H. by right.
Qed.

Lemma satisfied_mono (r : Rule Claim) ps ps' : ps ⊆ ps' → satisfied_by r ps = true → satisfied_by r ps' = true.
Proof.
  intros Hs. induction r as [c|n rs IH] using rule_tree_ind; cbn [satisfied_by]; rewrite !bool_decide_eq_true; [apply Hs|].
  rewrite Forall_forall in IH. intros Hn. etrans; [exact Hn|]. apply Nat2Z.inj_le, filter_length_mono. exact IH.
Qed.

(** A rule that is not one of the constants asks for something, and for nothing
    beyond its leaves. *)
Lemma satisfied_by_nobody (r : Rule Claim) :
  typed any r → deeply_formed r → constant r = false → satisfied_by r [] = false.
Proof.
  induction r as [c|n rs IH] using rule_tree_ind; cbn [typed deeply_formed satisfied_by]; rewrite ?foldr_and; intros Ht Hd Hc.
  { by apply bool_decide_eq_false, not_elem_of_nil. }
  destruct rs as [|r rs]; [done|]. destruct Hd as [Hw Hd]. apply well_formed_threshold in Hw as (Hcs & Hn & _).
  destruct Ht as (Hn8 & _ & Ht). rewrite filter_none; [apply bool_decide_eq_false; cbn; unfold width_ok in Hn8; lia|].
  rewrite !Forall_forall in *. intros x Hx. by apply IH; [|apply Ht|apply Hd|apply Hcs].
Qed.
Lemma satisfied_by_leaves (r : Rule Claim) ps :
  typed any r → deeply_formed r → constant r = false → leaves r ⊆ ps → satisfied_by r ps = true.
Proof.
  rewrite leaves_preorder.
  induction r as [c|n rs IH] using rule_tree_ind; cbn [typed deeply_formed satisfied_by preorder]; rewrite ?foldr_and; intros Ht Hd Hc Hs.
  { apply bool_decide_eq_true, Hs. apply list_elem_of_here. }
  destruct rs as [|r rs]; [done|]. destruct Hd as [Hw Hd]. apply well_formed_threshold in Hw as (Hcs & _ & Hn & _).
  destruct Ht as (_ & _ & Ht). rewrite filter_whole; [by apply bool_decide_eq_true|].
  rewrite !Forall_forall in *. intros x Hx. apply IH; [done|by apply Ht|by apply Hd|by apply Hcs|].
  intros l Hl. apply Hs. rewrite list_elem_of_bind. by exists x.
Qed.
Lemma constant_rules {L} (r : Rule L) : typed any r → deeply_formed r → constant r = true → r = always ∨ r = never.
Proof.
  destruct r as [|n [|]]; try done. cbn. intros ([? _] & _) [Hw _] _. destruct (decide (1 < n)); [done|].
  assert (n = 0 ∨ n = 1) as [-> | ->] by lia; [by left|by right].
Qed.

(** What a rule the caps admit asks for. Presenting more never turns a rule
    down; only [always] is met by nobody's claims; and only [never] is not met by
    all of its own leaves, so every other rule the vocabulary lets anyone write is
    one somebody must, and somebody can, answer. *)
Theorem rule_asks r ps ps' :
  typed any r → within_caps r 0 = true → ps ⊆ ps' →
  (satisfied_by r ps = true → satisfied_by r ps' = true) ∧
  (satisfied_by r [] = true ↔ r = always) ∧
  (satisfied_by r (leaves r) = true ↔ r ≠ never).
Proof.
  intros Ht Hd%within_caps_formed Hs. split; [by apply satisfied_mono|].
  destruct (constant r) eqn:Hc.
  - destruct (constant_rules r Ht Hd Hc) as [-> | ->]; by split.
  - rewrite (satisfied_by_nobody r Ht Hd Hc), (satisfied_by_leaves r (leaves r) Ht Hd Hc) by done.
    split; split; [done|by intros ->|by intros _ ->|done].
Qed.

(** Two of three keys, or one guardian. *)
Definition sample_claim (n : Z) : Claim := claim_of_subject (address_new n Principal).
Definition sample_rule : Rule Claim :=
  CountOf 1 [CountOf 2 [Require (sample_claim 1); Require (sample_claim 2); Require (sample_claim 3)]; Require (sample_claim 4)].
Lemma rule_asks_witness :
  satisfied_by sample_rule [sample_claim 1; sample_claim 3; sample_claim 9] = true ∧ satisfied_by sample_rule [] = false.
Proof.
  destruct (rule_asks sample_rule [sample_claim 1; sample_claim 3] [sample_claim 1; sample_claim 3; sample_claim 9]) as (H1 & H2 & _).
  - cbn; unfold width_ok, MAX_RULE_BRANCHES; repeat split; cbn; try lia; exact I.
  - vm_compute; reflexivity.
  - set_solver.
  - split; [apply H1; vm_compute; reflexivity|]. apply not_true_is_false. intros E.
    apply H2 in E. discriminate E.
Defined.

(** ** Where it is judged *)

Lemma judged_fold_spec {L} `{Leaf L} (ls : list L) st ev :
  judged_fold ls st ev =
    if bool_decide (InTheLeg ∈ leaf_judged <$> ls) then InTheLeg else
    match st || bool_decide (AtMaterialization ∈ leaf_judged <$> ls), ev || bool_decide (AtAdmission ∈ leaf_judged <$> ls) with
    | true, true => InTheLeg
    | true, false => AtMaterialization
    | false, _ => AtAdmission
    end.
Proof.
  revert st ev. induction ls as [|l ls IH]; intros st ev.
  { cbn. rewrite !bool_decide_eq_false_2 by apply not_elem_of_nil. by destruct st, ev. }
  cbn [judged_fold]. rewrite fmap_cons. destruct (leaf_judged l) eqn:E; rewrite ?IH;
    rewrite ?(bool_decide_ext _ _ (elem_of_cons (leaf_judged <$> ls) _ _));
    repeat case_bool_decide; destruct st, ev; try done; naive_solver.
Qed.

(** A rule is judged at the earliest stage that can answer all of its leaves:
    in the leg exactly where a leaf needs the leg or evidence and state are asked
    together, at materialization exactly where every leaf reads state and there is
    one, and at admission exactly where every leaf reads evidence; a rule that turns
    no caller away is one judged before any leg runs. *)
Theorem rule_placement {L} `{Leaf L} (r : Rule L) :
  (rule_judged r = AtAdmission ↔ Forall (λ l, leaf_judged l = AtAdmission) (leaves r)) ∧
  (rule_judged r = AtMaterialization ↔ leaves r ≠ [] ∧ Forall (λ l, leaf_judged l = AtMaterialization) (leaves r)) ∧
  (rule_judged r = InTheLeg ↔
     (∃ l, l ∈ leaves r ∧ leaf_judged l = InTheLeg) ∨
     (∃ l l', l ∈ leaves r ∧ l' ∈ leaves r ∧ leaf_judged l = AtMaterialization ∧ leaf_judged l' = AtAdmission)) ∧
  (rule_reads_state_only r = true → before_any_leg (rule_judged r) = true).
Proof.
  unfold rule_judged, rule_reads_state_only. generalize (leaves r). intros ls.
  rewrite judged_fold_spec. cbn [orb].
  assert (Hin : ∀ j, bool_decide (j ∈ leaf_judged <$> ls) = true ↔ ∃ l, l ∈ ls ∧ leaf_judged l = j).
  { intros j. rewrite bool_decide_eq_true, list_elem_of_fmap. naive_solver. }
  assert (Hout : ∀ j, bool_decide (j ∈ leaf_judged <$> ls) = false → ∀ l, l ∈ ls → leaf_judged l ≠ j).
  { intros j E l Hl <-. assert (bool_decide (leaf_judged l ∈ leaf_judged <$> ls) = true) by (apply Hin; eauto). congruence. }
  assert (Hst : forallb leaf_reads_state_only ls = true → ∀ l, l ∈ ls → leaf_judged l = AtMaterialization).
  { intros Hf l Hl. rewrite forallb_forall in Hf. specialize (Hf l (proj1 (list_elem_of_In _ _) Hl)).
    unfold leaf_reads_state_only in Hf. by destruct (leaf_judged l). }
  assert (Hne : ls ≠ [] → ∃ l, l ∈ ls) by (destruct ls as [|l ?]; [done|]; exists l; apply list_elem_of_here).
  rewrite !Forall_forall. destruct (bool_decide (InTheLeg ∈ leaf_judged <$> ls)) eqn:E1.
  { apply Hin in E1 as (l1 & Hl1 & E1). split_and!; [split|split|split|]; try done.
    - intros Hall. specialize (Hall l1 Hl1). congruence.
    - intros [_ Hall]. specialize (Hall l1 Hl1). congruence.
    - intros _. left. by exists l1.
    - intros Hf. specialize (Hst Hf l1 Hl1). congruence. }
  pose proof (Hout _ E1) as N1. destruct (bool_decide (AtMaterialization ∈ leaf_judged <$> ls)) eqn:E2.
  2: { pose proof (Hout _ E2) as N2. split_and!; [split|split|split|]; try done.
       - intros _ l Hl. specialize (N1 l Hl). specialize (N2 l Hl). by destruct (leaf_judged l).
       - intros [[l Hl]%Hne Hall]. by destruct (N2 l Hl), (Hall l Hl).
       - intros [(l & Hl & E)|(l & l' & Hl & _ & E & _)]; [by destruct (N1 l Hl)|by destruct (N2 l Hl)]. }
  apply Hin in E2 as (l2 & Hl2 & E2). destruct (bool_decide (AtAdmission ∈ leaf_judged <$> ls)) eqn:E3.
  - apply Hin in E3 as (l3 & Hl3 & E3). split_and!; [split|split|split|]; try done.
    + intros Hall. specialize (Hall l2 Hl2). congruence.
    + intros [_ Hall]. specialize (Hall l3 Hl3). congruence.
    + intros _. right. by exists l2, l3.
    + intros Hf. specialize (Hst Hf l3 Hl3). congruence.
  - pose proof (Hout _ E3) as N3. split_and!; [split|split|split|]; try done.
    + intros Hall. specialize (Hall l2 Hl2). congruence.
    + intros _. split; [by intros ->; apply not_elem_of_nil in Hl2|]. intros l Hl.
      specialize (N1 l Hl). specialize (N3 l Hl). by destruct (leaf_judged l).
    + intros [(l & Hl & E)|(l & l' & _ & Hl & _ & E)]; [by destruct (N1 l Hl)|by destruct (N3 l' Hl)].
Qed.

(** ** The levels an encoding takes *)

(** A codec that writes [v] at depth [d] under the cap [m] exactly where [fits]. *)
Definition writes {A} (c : Codec A) (ok : A → Prop) (fits : A → nat → nat → Prop) : Prop :=
  ∀ v, ok v → appends (encode c v) ∧ ∀ d m, (d ≤ m)%nat → (∃ b, puts (encode c v) d m b) ↔ fits v d m.

Lemma writes_ext {A} (c : Codec A) ok (fits fits' : A → nat → nat → Prop) :
  writes c ok fits → (∀ v d m, ok v → (d ≤ m)%nat → fits v d m ↔ fits' v d m) → writes c ok fits'.
Proof. intros Hw Hf v Hv. destruct (Hw v Hv) as [Ha Hp]. split; [done|]. intros d m Hd. by rewrite Hp, Hf. Qed.
Lemma writes_free {A} (c : Codec A) ok : Canonical c ok → LengthFree c ok 0 → writes c ok (λ _ _ _, True).
Proof.
  intros Hc Hf v Hv. split; [by apply can_appends|]. intros d m Hd. split; [done|]. intros _. apply Hf; [done|lia].
Qed.
Lemma writes_carried {A B} (f : A → B) g c (okA : A → Prop) (okB : B → Prop) fits :
  writes c okB fits → (∀ a, okA a → okB (f a)) → writes (carried f g c) okA (λ a, fits (f a)).
Proof. intros Hw Hf a Ha. exact (Hw (f a) (Hf a Ha)). Qed.
Lemma writes_nested {A} (c : Codec A) ok fits : writes c ok fits → writes (nested c) ok (λ v d m, (d < m)%nat ∧ fits v (S d) m).
Proof.
  intros Hw v Hv. destruct (Hw v Hv) as [Ha Hp]. split; [by apply appends_descend|]. intros d m Hd. cbn [encode nested]. split.
  - intros [b [Hlt Hb]%puts_descend_inv]; [|done]. split; [done|]. apply Hp; [lia|eauto].
  - intros [Hlt [b Hb]%Hp]; [|lia]. exists b. by apply puts_descend.
Qed.
Lemma writes_both {A B} (ca : Codec A) (cb : Codec B) okA okB fa fb :
  writes ca okA fa → writes cb okB fb →
  writes (both ca cb) (λ p, okA p.1 ∧ okB p.2) (λ p d m, fa p.1 d m ∧ fb p.2 d m).
Proof.
  intros Ha Hb [a b] [Hoa Hob]. cbn in *. destruct (Ha a Hoa) as [Aa Pa]. destruct (Hb b Hob) as [Ab Pb].
  split; [by apply appends_bind|]. intros d m Hd. rewrite <- Pa, <- Pb by done. split.
  - intros [l (b1 & b2 & _ & P1 & P2)%puts_bind_inv]; [|done..]. eauto.
  - intros [[b1 P1] [b2 P2]]. exists (b1 ++ b2). by apply puts_bind.
Qed.
Lemma writes_option {A} (c : Codec A) ok fits :
  writes c ok fits →
  writes (option_codec c) (from_option ok True) (λ o d m, from_option (λ v, (d < m)%nat ∧ fits v (S d) m) True o).
Proof.
  intros Hw [v|] Hv; cbn in Hv.
  - destruct (writes_nested c ok fits Hw v Hv) as [Ha Hp]. split; [by apply (appends_then [x01])|]. intros d m Hd.
    cbn [from_option]. rewrite <- Hp by done. split.
    + intros [b (b2 & _ & P)%(puts_then_inv [x01])]; [|done]. eauto.
    + intros [b P]. eexists. by apply (puts_then [x01]).
  - split; [apply appends_fixed|]. intros d m _. split; [done|]. intros _. eexists. apply puts_fixed.
Qed.
Lemma writes_enum {A} (vs : list (Variant A)) ok fits :
  enum_laws vs ok → (∀ v, v ∈ vs → writes (body v) (λ x, ok (construct v x)) (λ x, fits (construct v x))) →
  writes (enum vs) ok fits.
Proof.
  intros Hl Hw a Ha. destruct (of_variant vs ok Hl a Ha) as (v & x & Hv & -> & Hx). destruct (Hw v Hv x Hx) as [Hap Hp].
  split.
  - intros e e' E. cbn in E. rewrite (encode_variant_eq vs ok Hl) in E by done.
    destruct (appends_then [tag v] (encode (body v) x) Hap e e' E) as (b & Hb & P). exists b. split; [done|].
    by apply (enum_puts vs ok Hl).
  - intros d m Hd. rewrite <- Hp by done. split.
    + intros [b P]. apply (enum_puts vs ok Hl) in P; [|done]. apply (puts_then_inv [tag v]) in P as (b2 & _ & P); [|done]. eauto.
    + intros [b P]. exists ([tag v] ++ b). apply (enum_puts vs ok Hl); [done|]. by apply puts_then.
Qed.
Lemma writes_all {A} (c : Codec A) ok fits l :
  writes c ok fits → Forall ok l → appends (encode_all c l) ∧
  ∀ d m, (d ≤ m)%nat → (∃ b, puts (encode_all c l) d m b) ↔ Forall (λ v, fits v d m) l.
Proof.
  intros Hw. induction 1 as [|a l Ha _ [IHa IHp]].
  { split.
    - intros e e' [= <-]. exists []. split; [unfold write_fixed; rewrite app_nil_r; by destruct e|]. intros o. cbn. by rewrite app_nil_r.
    - intros d m _. split; [by constructor|]. intros _. exists []. intros o. cbn. by rewrite app_nil_r. }
  destruct (Hw a Ha) as [Aa Pa]. cbn [encode_all]. split; [by apply appends_bind|]. intros d m Hd.
  rewrite Forall_cons, <- Pa, <- IHp by done. split.
  - intros [b (b1 & b2 & _ & P1 & P2)%puts_bind_inv]; [|done..]. eauto.
  - intros [[b1 P1] [b2 P2]]. exists (b1 ++ b2). by apply puts_bind.
Qed.
Lemma writes_vec {A} (c : Codec A) ok fits max :
  writes c ok fits → Z.of_nat max ≤ Varint.MAX_LENGTH →
  writes (vec c) (λ l, Forall ok l ∧ (length l ≤ max)%nat) (λ l d m, (d < m)%nat ∧ Forall (λ v, fits v (S d) m) l).
Proof.
  intros Hw Hmax l [Hl Hlen]. destruct (writes_all c ok fits l Hw Hl) as [Ha Hp].
  assert (Hd : appends (enc_descend (encode_all c l))) by (by apply appends_descend).
  split; [apply appends_bind; [apply appends_len|done]|]. intros d m Hdm. cbn [encode vec]. split.
  - intros [b (b1 & b2 & _ & _ & P)%(puts_bind_inv (write_len (length l)))]; [|apply appends_len|done].
    apply puts_descend_inv in P as [Hlt P]; [|done]. split; [done|]. apply Hp; [lia|eauto].
  - intros [Hlt [b P]%Hp]; [|lia]. eexists. apply (puts_bind (write_len (length l))); [apply puts_len; lia|by apply puts_descend].
Qed.

(** ** The stored rule's codec *)

Section rule_codec.
Context {L : Type} (leaf : Codec L) (ok : L → Prop) `{!Canonical leaf ok}.
Implicit Types r : Rule L.

Fixpoint height r : nat := match r with Require _ => 1 | CountOf _ rs => S (max_list (height <$> rs)) end.
Definition rule_ok (n : nat) r : Prop := typed ok r ∧ deeply_formed r ∧ (height r ≤ n)%nat.
(** A rule before its own node is judged. *)
Definition branching (n : nat) r : Prop :=
  match r with
  | Require l => ok l
  | CountOf count rs => width_ok 1 count ∧ Forall (rule_ok n) rs ∧ (length rs ≤ MAX_RULE_BRANCHES)%nat
  end.

Lemma max_list_le (l : list nat) n : (max_list l ≤ n)%nat ↔ Forall (λ x, x ≤ n)%nat l.
Proof.
  induction l as [|x l IH]; cbn; [split; [by constructor|lia]|]. rewrite Forall_cons, <- IH. lia.
Qed.
Lemma rule_ok_branching n r : rule_ok (S n) r ↔ branching n r ∧ well_formed r = Ok ().
Proof.
  unfold rule_ok. destruct r as [l|count rs]; cbn [typed deeply_formed height branching]; [naive_solver lia|].
  rewrite !foldr_and. assert (Hh : (S (max_list (height <$> rs)) ≤ S n)%nat ↔ Forall (λ r, height r ≤ n)%nat rs).
  { rewrite <- Nat.succ_le_mono, max_list_le, Forall_fmap. done. }
  rewrite Hh. unfold rule_ok. rewrite !Forall_and. naive_solver.
Qed.

Lemma rule_variants_laws branch (P : Rule L → Prop) : enum_laws (rule_variants leaf branch) P.
Proof. unfold rule_variants; listed_laws. Qed.
Lemma rule_width n : MIN_ENCODED_LEN (rule_at leaf n) = (1 + Nat.min (MIN_ENCODED_LEN leaf) 2)%nat.
Proof. destruct n; [done|]. cbn. lia. Qed.

Lemma rule_canonical n : Canonical (rule_at leaf n) (rule_ok n).
Proof using Type*.
  induction n as [|n IH].
  { assert (Hn : ∀ r, ¬ rule_ok 0 r) by (intros [] (_ & _ & Hh); cbn in Hh; lia).
    split; [intros v Hv|intros v d m b Hv|intros v d b rest Hv|done]; by destruct (Hn v Hv). }
  cbn [rule_at]. eapply (carried_canonical _ _ _ _ (branching n)).
  - apply enum_canonical; [apply rule_variants_laws|]. intros v Hv. unfold rule_variants in Hv. each_of Hv; cbn [body construct].
    + exact (nested_canonical leaf ok).
    + assert (Hv : Canonical (capped_vec MAX_RULE_BRANCHES (rule_at leaf n)) (λ l, Forall (rule_ok n) l ∧ (length l ≤ MAX_RULE_BRANCHES)%nat))
        by (apply capped_vec_canonical; [apply IH|rewrite rule_width; lia]).
      exact (both_canonical (nested (uint 1)) (nested (capped_vec MAX_RULE_BRANCHES (rule_at leaf n))) (width_ok 1) _).
  - intros r Hr%rule_ok_branching. destruct Hr as [Hr Hw]. split; [done|]. unfold validated. by rewrite Hw.
  - intros r r' Hr. unfold validated. destruct (well_formed r) as [[]|] eqn:Hw; [|done]. intros [= <-].
    split; [by apply rule_ok_branching|done].
Qed.

Context (levels : L → nat).
Fixpoint rule_levels r : nat :=
  match r with Require l => S (levels l) | CountOf _ rs => 2 + max_list (rule_levels <$> rs) end.
Lemma rule_levels_height r : (2 * height r ≤ S (rule_levels r))%nat.
Proof.
  induction r as [l|n rs IH] using rule_tree_ind; cbn [height rule_levels]; [lia|].
  assert (2 * max_list (height <$> rs) ≤ S (max_list (rule_levels <$> rs)))%nat; [|lia].
  assert (Hm : ∀ rs, Forall (λ r, 2 * height r ≤ S (rule_levels r))%nat rs → (2 * max_list (height <$> rs) ≤ S (max_list (rule_levels <$> rs)))%nat).
  { clear. induction 1; cbn; lia. }
  by apply Hm.
Qed.

Lemma rule_writes n :
  writes leaf ok (λ l d m, d + levels l ≤ m)%nat →
  writes (rule_at leaf n) (typed ok) (λ r d m, height r ≤ n ∧ d + rule_levels r ≤ m)%nat.
Proof using Type*.
  intros Hw. induction n as [|n IH].
  { intros r Ht. split; [by intros e e'|]. intros d m _. split.
    - intros [b P]. by specialize (P []).
    - intros [Hh _]. destruct r; cbn in Hh; lia. }
  cbn [rule_at]. eapply (writes_carried _ _ _ _ (typed ok)); [|done].
  eapply writes_enum; [apply rule_variants_laws|]. intros v Hin. unfold rule_variants in Hin. each_of Hin; cbn [body construct].
  - eapply writes_ext; [apply writes_nested, Hw|]. intros l d m _ Hd. cbn. lia.
  - intros [count rs] Ht. cbn [typed fst snd] in Ht. rewrite foldr_and in Ht.
    pose proof (writes_nested _ _ _ (writes_free (uint 1) (width_ok 1) _ _)) as Hcount.
    pose proof (writes_nested _ _ _ (writes_vec _ _ _ MAX_RULE_BRANCHES IH ltac:(by vm_compute))) as Hrules.
    pose proof (writes_both _ _ _ _ _ _ Hcount Hrules) as Hv.
    destruct (Hv (count, rs)) as [Ha Hp]; [cbn; naive_solver|]. split; [exact Ha|]. intros d m Hd. rewrite Hp by done. cbn.
    rewrite <- (Nat.succ_le_mono _ n), !max_list_le. rewrite Forall_and.
    assert (Hl : (d + S (S (max_list (rule_levels <$> rs))) ≤ m)%nat ↔ (S d < m)%nat ∧ Forall (λ r, S (S d) + rule_levels r ≤ m)%nat rs).
    { assert (Hm : ∀ l, (d + S (S (max_list l)) ≤ m)%nat ↔ (S d < m)%nat ∧ Forall (λ x, S (S d) + x ≤ m)%nat l).
      { clear. induction l as [|x l IH]; cbn; [rewrite Forall_nil; lia|]. rewrite Forall_cons.
        assert ((d + S (S (x `max` max_list l)) ≤ m)%nat ↔ (d + S (S (max_list l)) ≤ m)%nat ∧ (S (S d) + x ≤ m)%nat) as -> by lia.
        rewrite IH. tauto. }
      by rewrite Hm, Forall_fmap. }
    rewrite Hl, Forall_fmap. unfold compose. naive_solver lia.
Qed.
End rule_codec.

(** *** Its leaves *)

Definition claim_ok (c : Claim) : Prop := address_ok (subject c) ∧ from_option (width_ok 8) True (instance c).
Definition holding_ok (h : Holding) : Prop := match h with Instance id => width_ok 8 id | _ => True end.
Definition sealed_ok (l : SealedLeaf) : Prop :=
  match l with Sealed.Claimed c => claim_ok c | Sealed.Held b h => resource_ok b ∧ holding_ok h end.

Lemma built_claim : built claim claim_ok.
Proof.
  eapply built_carried; [apply built_both; apply built_nested; [apply built_address|apply built_option, built_uint]|by intros []|].
  by intros [] ? Hok [= <-].
Qed.
Lemma holding_laws : enum_laws holding_variants holding_ok.
Proof. listed_enum holding_variants. Qed.
Lemma built_holding : built holding holding_ok.
Proof.
  apply built_enum; [apply holding_laws|]. intros v Hv. unfold holding_variants in Hv. each_of Hv; cbn.
  - apply built_unit.
  - apply built_unit.
  - apply built_nested, built_uint.
Qed.
Lemma sealed_laws : enum_laws sealed_variants sealed_ok.
Proof. listed_enum sealed_variants. Qed.
Lemma built_sealed : built sealed_leaf sealed_ok.
Proof.
  apply built_enum; [apply sealed_laws|]. intros v Hv. unfold sealed_variants in Hv. each_of Hv; cbn.
  - apply built_nested, built_claim.
  - apply (built_both _ _ _ _ resource_ok holding_ok); apply built_nested; [apply built_resource_addr|apply built_holding].
Qed.
#[global] Instance sealed_canonical : Canonical sealed_leaf sealed_ok.
Proof. apply built_canonical, built_sealed. Qed.

Definition claim_levels (c : Claim) : nat := match instance c with Some _ => 2 | None => 1 end.
Definition sealed_levels (l : SealedLeaf) : nat :=
  match l with
  | Sealed.Claimed c => S (claim_levels c)
  | Sealed.Held _ (Instance _) => 2
  | Sealed.Held _ _ => 1
  end.
Lemma claim_writes : writes claim claim_ok (λ c d m, d + claim_levels c ≤ m)%nat.
Proof.
  pose proof (writes_nested _ _ _ (writes_free address address_ok (built_canonical _ _ built_address) address_free)) as Ha.
  pose proof (writes_nested _ _ _ (writes_option _ _ _ (writes_free (uint 8) (width_ok 8) _ _))) as Hi.
  eapply writes_ext; [eapply (writes_carried _ _ _ _ _ _ (writes_both _ _ _ _ _ _ Ha Hi)); by intros []|].
  intros [a [i|]] d m _ _; unfold claim_levels; cbn; lia.
Qed.
Lemma sealed_writes : writes sealed_leaf sealed_ok (λ l d m, d + sealed_levels l ≤ m)%nat.
Proof.
  pose proof (writes_nested _ _ _ (writes_free resource_addr resource_ok (built_canonical _ _ built_resource_addr) resource_addr_free)) as Hb.
  assert (Hh : writes holding holding_ok (λ h d m, match h with Instance _ => (d < m)%nat | _ => True end)).
  { apply writes_enum; [apply holding_laws|]. intros v Hv. unfold holding_variants in Hv. each_of Hv; cbn [body construct].
    - exact (writes_free unit_codec any _ _).
    - exact (writes_free unit_codec any _ _).
    - eapply writes_ext; [exact (writes_nested _ _ _ (writes_free (uint 8) (width_ok 8) _ _))|]. intros. cbn. lia. }
  apply writes_enum; [apply sealed_laws|]. intros v Hv. unfold sealed_variants in Hv. each_of Hv; cbn [body construct].
  - eapply writes_ext; [exact (writes_nested _ _ _ claim_writes)|]. intros. cbn. lia.
  - eapply writes_ext; [exact (writes_both _ _ _ _ _ _ Hb (writes_nested _ _ _ Hh))|]. intros [b []] d m _ _; cbn; lia.
Qed.

(** *** The wire and the caps *)

Definition stored_levels (r : StoredRule) : nat := rule_levels sealed_levels r.
Lemma stored_levels_height (r : StoredRule) : (2 * height r ≤ stored_levels r)%nat.
Proof.
  unfold stored_levels. induction r as [l|n rs IH] using rule_tree_ind; cbn [height rule_levels].
  { destruct l as [c|b []]; cbn; unfold claim_levels; try lia. }
  assert (Hm : ∀ rs : list StoredRule, Forall (λ r, 2 * height r ≤ rule_levels sealed_levels r)%nat rs →
    (2 * max_list (height <$> rs) ≤ max_list (rule_levels sealed_levels <$> rs))%nat) by (induction 1; cbn; lia).
  specialize (Hm rs IH). lia.
Qed.
Lemma formed_within_caps {L} (r : Rule L) depth :
  deeply_formed r → (depth + height r ≤ MAX_RULE_DEPTH)%nat → within_caps r depth = true.
Proof.
  revert depth. induction r as [l|n rs IH] using rule_tree_ind; intros depth; cbn [deeply_formed height within_caps].
  { intros _ Hd. by rewrite decide_False by lia. }
  rewrite foldr_and. intros [Hw Hrs] Hd. rewrite decide_False by lia. rewrite Hw. cbn. apply forallb_forall. intros r Hr%list_elem_of_In.
  rewrite !Forall_forall in *. apply IH; [done|by apply Hrs|].
  assert (height r ≤ max_list (height <$> rs))%nat; [|lia]. apply max_list_elem_of_le. by apply list_elem_of_fmap_2.
Qed.

Lemma stored_encodes (r : StoredRule) :
  typed sealed_ok r → (∃ b, stored_to_bytes r = Ok b) ↔ (stored_levels r ≤ MAX_RULE_WIRE_DEPTH)%nat.
Proof.
  intros Ht. destruct (rule_writes sealed_leaf sealed_ok sealed_levels MAX_RULE_WIRE_DEPTH sealed_writes r Ht) as [Ha Hp].
  specialize (Hp 0%nat MAX_RULE_WIRE_DEPTH (Nat.le_0_l _)). unfold stored_to_bytes, to_vec_with_depth. split.
  - intros [b (e & E & _)%result_bind_ok]. destruct (Ha _ _ E) as (b' & _ & P). apply Hp. eauto.
  - intros Hl. destruct (proj2 Hp) as [b P].
    { split; [|exact Hl]. pose proof (stored_levels_height r). lia. }
    exists b. by rewrite P.
Qed.

Lemma stored_decodes b (r : StoredRule) :
  stored_from_slice b = Ok r ↔ typed sealed_ok r ∧ deeply_formed r ∧ stored_to_bytes r = Ok b.
Proof.
  unfold stored_from_slice. rewrite (canonical_iff _ _ _ _ _ (rule_canonical sealed_leaf sealed_ok MAX_RULE_WIRE_DEPTH)).
  unfold rule_ok. split; [naive_solver|]. intros (Ht & Hd & He). split_and!; try done.
  pose proof (proj1 (stored_encodes r Ht) (ex_intro _ b He)). pose proof (stored_levels_height r).
  unfold MAX_RULE_WIRE_DEPTH, MAX_RULE_DEPTH in *. lia.
Qed.

(** The wire of a stored rule. Bytes decode to a rule exactly when they are its
    encoding and every node of it is well formed, and what decodes is within the
    caps a signature is held to; a rule encodes exactly where the levels it nests,
    two a threshold, one for the leaf and the leaf's own, are within the cap. *)
Theorem stored_rule_wire b (r : StoredRule) :
  (stored_from_slice b = Ok r ↔ typed sealed_ok r ∧ deeply_formed r ∧ stored_to_bytes r = Ok b) ∧
  (stored_from_slice b = Ok r → within_caps r 0 = true) ∧
  (typed sealed_ok r → (∃ b', stored_to_bytes r = Ok b') ↔ (stored_levels r ≤ MAX_RULE_WIRE_DEPTH)%nat).
Proof.
  split; [apply stored_decodes|]. split; [|apply stored_encodes].
  intros (Ht & Hd & He)%stored_decodes. apply formed_within_caps; [done|].
  pose proof (proj1 (stored_encodes r Ht) (ex_intro _ b He)). pose proof (stored_levels_height r).
  unfold MAX_RULE_WIRE_DEPTH, MAX_RULE_DEPTH in *. lia.
Qed.

(** Four levels deep over one claim, and over one that names an instance. *)
Definition chain (c : Claim) : StoredRule := CountOf 1 [CountOf 1 [CountOf 1 [stored_claim c]]].
Definition instance_claim : Claim := claim_of_instance (address_new 5 Resource) 3.

Lemma chain_typed c : claim_ok c → typed sealed_ok (chain c).
Proof.
  intros Hc. assert (width_ok 1 1) by (unfold width_ok; cbn; lia).
  cbn [chain typed foldr length]. unfold MAX_RULE_BRANCHES. split_and!; try done; try lia.
Qed.
Lemma chain_claims_ok : claim_ok instance_claim ∧ claim_ok (sample_claim 1).
Proof.
  split; (split; [split; [unfold in_width; split; [by vm_compute|by vm_compute]|eexists; vm_compute; reflexivity]|]).
  - split; by vm_compute.
  - exact I.
Qed.

(** The wire cap is one level short of the rule caps. A rule at the deepest
    nesting the caps admit whose claim names one instance of a badge is within the
    caps and well formed, and its encoding is refused, so it cannot be stored; the
    same rule over a claim about a whole subject is stored and read back. *)
Theorem deepest_instance_rule_unstorable :
  within_caps (chain instance_claim) 0 = true ∧ typed sealed_ok (chain instance_claim) ∧
  rule_try_from (chain instance_claim) = Err (EncErr.DepthExceeded MAX_RULE_WIRE_DEPTH) ∧
  (∃ b, rule_try_from (chain (sample_claim 1)) = Ok b ∧ rule_decode b = Ok (chain (sample_claim 1))).
Proof.
  split; [by vm_compute|]. split; [apply chain_typed, chain_claims_ok|].
  split; [by vm_compute|]. eexists. split; [vm_compute; reflexivity|vm_compute; reflexivity].
Qed.

Lemma stored_rule_wire_witness :
  ∃ b, stored_to_bytes (chain (sample_claim 1)) = Ok b ∧ (stored_levels (chain (sample_claim 1)) ≤ MAX_RULE_WIRE_DEPTH)%nat.
Proof.
  eexists. split; [vm_compute; reflexivity|].
  apply (stored_rule_wire [] (chain (sample_claim 1))).
  - apply chain_typed, chain_claims_ok.
  - eexists. vm_compute. reflexivity.
Defined.

(** ** The governing cell *)

Definition authority_ok (a : Authority) : Prop :=
  (length (primary a) ≤ MAX_VALUE_BYTES)%nat ∧ (length (confirmation a) ≤ MAX_VALUE_BYTES)%nat.
Lemma built_authority : built authority authority_ok.
Proof.
  eapply built_carried; [apply built_both; apply built_nested, built_capped_bytes|by intros []|]. by intros [] ? Hok [= <-].
Qed.
Lemma authority_from_cell_iff b a : authority_from_cell b = Ok a ↔ authority_ok a ∧ authority_in_cell a = Some b.
Proof.
  unfold authority_from_cell, authority_in_cell. rewrite (canonical_iff _ _ _ _ _ (built_canonical _ _ built_authority)).
  destruct (to_vec_with_depth authority a CELL_DEPTH); naive_solver.
Qed.

(** A rule of claims, leaf for leaf. *)
Lemma claims_only_count n rs cs :
  claims_only (CountOf n rs) = Some cs ↔ ∃ cs', cs = CountOf n cs' ∧ Forall2 (λ r c, claims_only r = Some c) rs cs'.
Proof.
  unfold claims_only. cbn [map_leaves]. set (f := λ l, match l with Sealed.Claimed c => Ok c | Sealed.Held _ _ => Err () end : result () Claim).
  set (go := fix go (rs : list StoredRule) : result () (list (Rule Claim)) := _).
  assert (Hgo : ∀ rs cs', go rs = Ok cs' ↔ Forall2 (λ r c, match map_leaves f r with Ok r => Some r | Err _ => None end = Some c) rs cs').
  { clear. intros rs. induction rs as [|r rs IH]; intros cs'.
    - cbn. split; [by intros [= <-]|by intros ->%Forall2_nil_inv_l].
    - cbn [go]. fold go. rewrite result_bind_ok. split.
      + intros (r' & E & (rs' & E' & [= <-])%result_bind_ok). constructor; [by rewrite E|by apply IH].
      + intros (r' & rs' & E & E' & ->)%Forall2_cons_inv_l. destruct (map_leaves f r); [|done]. injection E as ->.
        exists r'. split; [done|]. apply result_bind_ok. exists rs'. split; [by apply IH|done]. }
  destruct (go rs) as [cs'|e] eqn:E.
  - cbn. split.
    + intros [= <-]. exists cs'. split; [done|]. by apply Hgo.
    + intros (cs2 & -> & H%Hgo). congruence.
  - cbn. split; [done|]. intros (cs2 & _ & H%Hgo). congruence.
Qed.
Lemma claims_only_nobody (r : StoredRule) cs :
  typed any r → deeply_formed r → claims_only r = Some cs → satisfied_by cs [] = true → r = always.
Proof.
  intros Ht Hd Hcs Hsat. destruct (constant r) eqn:Hc.
  { destruct (constant_rules r Ht Hd Hc) as [-> | ->]; [done|]. apply claims_only_count in Hcs as (cs' & -> & ->%Forall2_nil_inv_l). done. }
  exfalso. assert (Hno : satisfied_by cs [] = false); [|congruence]. clear Hsat. revert cs Hcs.
  induction r as [l|n rs IH] using rule_tree_ind; intros cs.
  { destruct l; [|done]. intros [= <-]. cbn. by apply bool_decide_eq_false, not_elem_of_nil. }
  intros (cs' & -> & Hall)%claims_only_count. destruct rs as [|r rs]; [done|]. cbn [typed deeply_formed] in Ht, Hd.
  rewrite foldr_and in Ht, Hd. destruct Hd as [Hw Hd]. apply well_formed_threshold in Hw as (Hcs & Hn & _). destruct Ht as (Hn8 & _ & Ht).
  cbn [satisfied_by]. rewrite filter_none; [apply bool_decide_eq_false; unfold width_ok in Hn8; cbn; lia|].
  intros c [i Hi]%list_elem_of_lookup. destruct (Forall2_lookup_r _ _ _ _ _ Hall Hi) as (x & Hx & E).
  rewrite Forall_lookup in IH, Ht, Hd, Hcs. by apply (IH i x Hx); [apply (Ht i)|apply (Hd i)|apply (Hcs i)|].
Qed.
Lemma typed_weaken {L} (P Q : L → Prop) (r : Rule L) : (∀ l, P l → Q l) → typed P r → typed Q r.
Proof.
  intros HPQ. induction r as [l|n rs IH] using rule_tree_ind; cbn [typed]; [apply HPQ|]. rewrite !foldr_and.
  intros (? & ? & Hrs). split_and!; try done. rewrite !Forall_forall in *. intros r Hr. by apply IH; [|apply Hrs].
Qed.

(** What it is for stored bytes to admit a set of keys. *)
Definition admits_keys (b : RuleBytes) (keys : list Claim) : Prop :=
  ∃ (r : StoredRule) cs, typed sealed_ok r ∧ deeply_formed r ∧ stored_to_bytes r = Ok b ∧ claims_only r = Some cs ∧ satisfied_by cs keys = true.
Lemma rule_admits_iff b keys : rule_admits b keys = true ↔ admits_keys b keys.
Proof.
  unfold rule_admits, rule_decode, admitted_by, admits_keys.
  assert (Hw : ∀ r, stored_from_slice b = Ok r ↔ typed sealed_ok r ∧ deeply_formed r ∧ stored_to_bytes r = Ok b) by (intros r; apply stored_decodes).
  destruct (stored_from_slice b) as [r|e] eqn:E.
  - destruct (proj1 (Hw r) eq_refl) as (? & ? & ?). split.
    + destruct (claims_only r) as [cs|] eqn:Ec; [|done]. intros Hsat. by exists r, cs.
    + intros (r' & cs & Ht & Hd & Eb & Ec & Hsat). assert (Ok r = Ok r') as [= ->] by (by apply Hw). by rewrite Ec.
  - split; [done|]. intros (r & cs & Ht & Hd & Eb & _). assert (Err e = Ok r) by (by apply Hw). done.
Qed.

(** Who may act as an account. An account whose governing cell was never
    written answers to the principal its address names and to no one else; one
    whose cell was written answers to a set of keys exactly where the bytes are a
    record of two stored rules about claims alone and the keys meet both, so bytes
    that are no record, or hold no rule, or a rule about a holding, admit nobody.
    More keys never lock anyone out, and no keys at all open an account only where
    both its rules are the one everybody meets. *)
Theorem governing_cell_admits owner cell keys :
  (auth_cell_admits owner cell keys = true ↔
     match cell with
     | None | Some [] => claim_of_subject owner ∈ keys
     | Some b => ∃ a, authority_ok a ∧ authority_in_cell a = Some b ∧ admits_keys (primary a) keys ∧ admits_keys (confirmation a) keys
     end) ∧
  (∀ keys', keys ⊆ keys' → auth_cell_admits owner cell keys = true → auth_cell_admits owner cell keys' = true) ∧
  (auth_cell_admits owner cell [] = true →
     ∃ b a, cell = Some b ∧ authority_in_cell a = Some b ∧
       stored_to_bytes always = Ok (primary a) ∧ stored_to_bytes always = Ok (confirmation a)).
Proof.
  assert (Hiff : ∀ keys, auth_cell_admits owner cell keys = true ↔
     match cell with
     | None | Some [] => claim_of_subject owner ∈ keys
     | Some b => ∃ a, authority_ok a ∧ authority_in_cell a = Some b ∧ admits_keys (primary a) keys ∧ admits_keys (confirmation a) keys
     end).
  { clear keys. intros keys. destruct cell as [[|x b]|]; cbn [auth_cell_admits]; [apply bool_decide_eq_true| |apply bool_decide_eq_true].
    pose proof (authority_from_cell_iff (x :: b)) as Ha. destruct (authority_from_cell (x :: b)) as [a|e].
    - rewrite andb_true_iff, !rule_admits_iff. destruct (proj1 (Ha a) eq_refl) as [Ho Hc]. split; [intros [? ?]; by exists a|].
      intros (a' & Ho' & Hc' & ?). assert (Ok a = Ok a') as [= ->] by (by apply Ha). done.
    - split; [done|]. intros (a & Ho & Hc & _). assert (Err e = Ok a) by (by apply Ha). done. }
  split; [apply Hiff|]. split.
  - intros keys' Hs. rewrite !Hiff. destruct cell as [[|x b]|]; [apply Hs| |apply Hs].
    intros (a & Ho & Hc & (r & cs & Hr) & (r' & cs' & Hr')). exists a. split_and!; try done; [exists r, cs|exists r', cs'];
      (split_and!; try apply Hr; try apply Hr'; eapply satisfied_mono; [exact Hs|]); [apply Hr|apply Hr'].
  - rewrite Hiff. destruct cell as [[|x b]|]; [by intros ?%not_elem_of_nil| |by intros ?%not_elem_of_nil].
    intros (a & Ho & Hc & (r & cs & Ht & Hd & Eb & Ec & Hsat) & (r' & cs' & Ht' & Hd' & Eb' & Ec' & Hsat')).
    exists (x :: b), a. pose proof (typed_weaken _ any r (λ _ _, I) Ht). pose proof (typed_weaken _ any r' (λ _ _, I) Ht').
    rewrite <- (claims_only_nobody r cs) at 1 by done. rewrite <- (claims_only_nobody r' cs') by done. done.
Qed.
