(* ===== verification/Values.v ===== *)
(** * Values and derivations ([crates/effects/src/types.rs])

    The typed values a declaration evaluates over, their canonical bytes and the
    walks that measure them, and the derivations that turn an owner, a slot and
    material into a key, a collection or an address. The hash is the embedder's
    ([Hasher]) and is a parameter: domain-separated, over framed parts, its digest
    the 256-bit integer its bytes spell big-endian. *)

From S2P Require Import Prelude Types Hbor Cells Outcomes Rules.

(** ** Values *)

Definition MAX_IDS_PER_EDGE : nat := 64.
Module EdgeContent.
Inductive EdgeContent := Fungible | NonFungible (ids : list Z).
End EdgeContent.
Abbreviation EdgeContent := EdgeContent.EdgeContent.
#[global] Instance EdgeContent_eq_dec : EqDecision EdgeContent.
Proof. solve_decision. Defined.

Module Val.
Inductive Value :=
  | Bool (b : bool)
  | U64 (v : Z)
  | U128 (v : Z)
  | U256 (v : Z)
  | Bytes (b : bytes)
  | Address (a : Types.Address)
  | Key (k : SubstateKey)
  | Tuple (fields : list Value)
  | List (items : list Value)
  | Bucket (resource : ResourceAddr) (content : EdgeContent).
End Val.
Abbreviation Value := Val.Value.

Lemma value_tree_ind (P : Value → Prop) :
  (∀ v, (∀ vs, v ≠ Val.Tuple vs ∧ v ≠ Val.List vs) → P v) →
  (∀ vs, Forall P vs → P (Val.Tuple vs)) → (∀ vs, Forall P vs → P (Val.List vs)) → ∀ v, P v.
Proof.
  intros Hs Ht Hl. fix IH 1. intros [b|x|x|x|b|a|k|vs|vs|r c]; try (apply Hs; by split).
  - apply Ht. induction vs; constructor; [apply IH|done].
  - apply Hl. induction vs; constructor; [apply IH|done].
Qed.
Fixpoint value_eqb (v w : Value) : bool :=
  let all := fix all (vs ws : list Value) : bool :=
    match vs, ws with
    | [], [] => true
    | v :: vs, w :: ws => value_eqb v w && all vs ws
    | _, _ => false
    end in
  match v, w with
  | Val.Bool x, Val.Bool y => bool_decide (x = y)
  | Val.U64 x, Val.U64 y | Val.U128 x, Val.U128 y | Val.U256 x, Val.U256 y | Val.Address x, Val.Address y => bool_decide (x = y)
  | Val.Bytes x, Val.Bytes y => bool_decide (x = y)
  | Val.Key x, Val.Key y => bool_decide (x = y)
  | Val.Tuple x, Val.Tuple y | Val.List x, Val.List y => all x y
  | Val.Bucket r x, Val.Bucket q y => bool_decide (r = q) && bool_decide (x = y)
  | _, _ => false
  end.
Lemma value_eqb_spec v w : value_eqb v w = true ↔ v = w.
Proof.
  assert (all : ∀ vs, Forall (λ v, ∀ w, value_eqb v w = true ↔ v = w) vs → ∀ ws,
    (fix all (vs ws : list Value) : bool :=
      match vs, ws with [], [] => true | v :: vs, w :: ws => value_eqb v w && all vs ws | _, _ => false end) vs ws = true ↔ vs = ws).
  { induction 1 as [|x vs Hx _ IH]; intros [|y ws]; [done..|]. rewrite andb_true_iff, Hx, IH. naive_solver. }
  revert w. induction v as [v Hv|vs IH|vs IH] using value_tree_ind; intros w.
  - destruct v, w; cbn; rewrite ?andb_true_iff, ?bool_decide_eq_true; try naive_solver; by destruct (Hv fields) || destruct (Hv items).
  - destruct w; cbn; try done. rewrite (all _ IH). naive_solver.
  - destruct w; cbn; try done. rewrite (all _ IH). naive_solver.
Qed.
#[global] Instance Value_eq_dec : EqDecision Value.
Proof. intros v w. destruct (value_eqb v w) eqn:E; [left; by apply value_eqb_spec|right; intros ->; by rewrite (proj2 (value_eqb_spec w w) eq_refl) in E]. Defined.

Inductive ValueKind := KBool | KU64 | KU128 | KU256 | KBytes | KAddress | KKey | KTuple | KList | KBucket.
#[global] Instance ValueKind_eq_dec : EqDecision ValueKind.
Proof. solve_decision. Defined.
Definition value_kind (v : Value) : ValueKind :=
  match v with
  | Val.Bool _ => KBool | Val.U64 _ => KU64 | Val.U128 _ => KU128 | Val.U256 _ => KU256 | Val.Bytes _ => KBytes
  | Val.Address _ => KAddress | Val.Key _ => KKey | Val.Tuple _ => KTuple | Val.List _ => KList | Val.Bucket _ _ => KBucket
  end.

Definition MAX_VALUE_DEPTH : nat := 16.
Definition MAX_VALUE_ITEMS : nat := 1024.
Definition MAX_VALUE_WIRE_DEPTH : nat := 2 * MAX_VALUE_DEPTH.

(** The elements a walk pushes. *)
Definition children (v : Value) : list Value := match v with Val.Tuple vs | Val.List vs => vs | _ => [] end.
Fixpoint value_size (v : Value) : nat :=
  match v with Val.Tuple vs | Val.List vs => S (sum_list_with value_size vs) | _ => 1 end.
(** A walk over an explicit stack, its top at the head: one value popped and its
    elements pushed, the last of them on top. The values of the tree are fuel
    enough ([visited_subvalues]). *)
Fixpoint visit (fuel : nat) (stack : list Value) : list Value :=
  match fuel, stack with
  | S fuel, v :: stack => v :: visit fuel (reverse (children v) ++ stack)
  | _, _ => []
  end.
Definition visited (v : Value) : list Value := visit (value_size v) [v].

Inductive WidthFault := BytesTooWide | ItemsTooMany.
Definition width_fault (v : Value) : option WidthFault :=
  match v with
  | Val.Bytes b => if decide (MAX_VALUE_BYTES < length b)%nat then Some BytesTooWide else None
  | Val.Tuple items | Val.List items => if decide (MAX_VALUE_ITEMS < length items)%nat then Some ItemsTooMany else None
  | _ => None
  end.
Definition value_within_width (v : Value) : result WidthFault () :=
  match head (omap width_fault (visited v)) with Some fault => Err fault | None => Ok () end.
(** The deepest level a stack of values with their levels reaches. *)
Fixpoint depth_walk (fuel : nat) (stack : list (Value * nat)) (deepest : nat) : nat :=
  match fuel, stack with
  | S fuel, (v, depth) :: stack =>
      depth_walk fuel (reverse ((λ child, (child, S depth)) <$> children v) ++ stack) (Nat.max deepest depth)
  | _, _ => deepest
  end.
Definition value_depth (v : Value) : nat := depth_walk (value_size v) [(v, 1%nat)] 0.

(** ** Their bytes *)

Definition edge_content_variants : list (Variant EdgeContent) := [
  {| tag := x00; body := unit_codec; construct _ := EdgeContent.Fungible;
     pattern c := match c with EdgeContent.Fungible => Some () | _ => None end |};
  {| tag := x01; body := nested (capped_vec MAX_IDS_PER_EDGE (uint 8)); construct := EdgeContent.NonFungible;
     pattern c := match c with EdgeContent.NonFungible ids => Some ids | _ => None end |}].
Definition edge_content : Codec EdgeContent := enum edge_content_variants.
Definition value_variants (element : Codec Value) : list (Variant Value) := [
  {| tag := x00; body := nested bool_codec; construct := Val.Bool; pattern v := match v with Val.Bool b => Some b | _ => None end |};
  {| tag := x01; body := nested (uint 8); construct := Val.U64; pattern v := match v with Val.U64 x => Some x | _ => None end |};
  {| tag := x02; body := nested (uint 16); construct := Val.U128; pattern v := match v with Val.U128 x => Some x | _ => None end |};
  {| tag := x03; body := nested (uint_be 32); construct := Val.U256; pattern v := match v with Val.U256 x => Some x | _ => None end |};
  {| tag := x04; body := nested bytes_codec; construct := Val.Bytes; pattern v := match v with Val.Bytes b => Some b | _ => None end |};
  {| tag := x05; body := nested address; construct := Val.Address; pattern v := match v with Val.Address a => Some a | _ => None end |};
  {| tag := x06; body := nested substate_key; construct := Val.Key; pattern v := match v with Val.Key k => Some k | _ => None end |};
  {| tag := x07; body := nested (vec element); construct := Val.Tuple; pattern v := match v with Val.Tuple vs => Some vs | _ => None end |};
  {| tag := x08; body := nested (vec element); construct := Val.List; pattern v := match v with Val.List vs => Some vs | _ => None end |};
  {| tag := x09; body := both (nested resource_addr) (nested edge_content); construct p := Val.Bucket p.1 p.2;
     pattern v := match v with Val.Bucket r c => Some (r, c) | _ => None end |}].
Definition value_validated (v : Value) : result DecodeError Value :=
  match value_within_width v with Ok _ => Ok v | Err _ => Err DecErr.FailedValidation end.
(** The recursive codec unrolled; an element is two levels down, so under the
    default cap the recursion is refused before the fuel is ([value_writes]). *)
Definition value_stop : Codec Value := {|
  MIN_ENCODED_LEN := 2;
  encode _ e := Err (EncErr.DepthExceeded (enc_max e));
  decode d := Err (DecErr.DepthExceeded (dec_max d));
|}.
Fixpoint value_at (fuel : nat) : Codec Value :=
  match fuel with
  | O => value_stop
  | S fuel => carried (λ v, v) value_validated (enum (value_variants (value_at fuel)))
  end.
Definition dsl_value : Codec Value := value_at DEFAULT_MAX_DEPTH.
(** [None] is the panic of [expect]. *)
Definition canonical_bytes (v : Value) : option bytes :=
  match to_vec dsl_value v with Ok b => Some b | Err _ => None end.

(** ** A 256-bit literal's decimal

    [None] is an index past the seventy-eight digits. *)

Definition DIGITS : nat := 78.
(** One byte folded into the digits in use: each times 256 plus the carry. *)
Fixpoint fold_digits (digits : list Z) (used : nat) (carry : Z) : list Z * Z :=
  match used, digits with
  | S used, digit :: digits =>
      let value := digit * 256 + carry in
      let '(rest, carry) := fold_digits digits used (value / 10) in
      (value mod 10 :: rest, carry)
  | _, _ => (digits, carry)
  end.
(** The carry is at most 255, so three rounds end it. *)
Fixpoint spill (fuel : nat) (digits : list Z) (used : nat) (carry : Z) : option (list Z * nat) :=
  match fuel with
  | O => Some (digits, used)
  | S fuel =>
      if decide (0 < carry) then
        if decide (used < length digits)%nat then spill fuel (<[used := carry mod 10]> digits) (S used) (carry / 10) else None
      else Some (digits, used)
  end.
Fixpoint decimal_bytes (b : bytes) (digits : list Z) (used : nat) : option (list Z * nat) :=
  match b with
  | [] => Some (digits, used)
  | byte :: b =>
      let '(digits, carry) := fold_digits digits used (u8_val byte) in
      st ← spill 4 digits used carry;
      decimal_bytes b st.1 st.2
  end.
Definition u256_decimal (scaled : bytes) : option (list Z) :=
  st ← decimal_bytes (reverse scaled) (replicate DIGITS 0) 1;
  Some (reverse (take st.2 st.1)).

(** ** Slots *)

Definition SlotId : Type := Z.
Definition PACKAGE_SLOT_BASE : Z := 16.
Definition KERNEL_SLOT_BASE : Z := 0xFFF5.
(** [None] is an addition past [u16]. *)
Definition package_slot (n : Z) : option SlotId := checked_add 16 PACKAGE_SLOT_BASE n.

(** ** Derivations *)

Definition DOMAIN_CHILD : bytes := (* hyperscale-vm/child-key *)
  [x68; x79; x70; x65; x72; x73; x63; x61; x6c; x65; x2d; x76; x6d; x2f; x63; x68; x69; x6c; x64; x2d; x6b; x65; x79].
Definition DOMAIN_COLLECTION : bytes := (* hyperscale-vm/collection-id *)
  [x68; x79; x70; x65; x72; x73; x63; x61; x6c; x65; x2d; x76; x6d; x2f; x63; x6f; x6c; x6c; x65; x63; x74; x69; x6f; x6e; x2d; x69; x64].
Definition DOMAIN_ORDER : bytes := (* hyperscale-vm/order-key *)
  [x68; x79; x70; x65; x72; x73; x63; x61; x6c; x65; x2d; x76; x6d; x2f; x6f; x72; x64; x65; x72; x2d; x6b; x65; x79].
Definition DOMAIN_PRINCIPAL : bytes := (* hyperscale-vm/principal-address *)
  [x68; x79; x70; x65; x72; x73; x63; x61; x6c; x65; x2d; x76; x6d; x2f; x70; x72; x69; x6e; x63; x69; x70; x61; x6c; x2d; x61; x64; x64; x72; x65; x73; x73].
Definition DOMAIN_COMPONENT : bytes := (* hyperscale-vm/component-address *)
  [x68; x79; x70; x65; x72; x73; x63; x61; x6c; x65; x2d; x76; x6d; x2f; x63; x6f; x6d; x70; x6f; x6e; x65; x6e; x74; x2d; x61; x64; x64; x72; x65; x73; x73].
Definition DOMAIN_PACKAGE_ADDRESS : bytes := (* hyperscale-vm/package-address *)
  [x68; x79; x70; x65; x72; x73; x63; x61; x6c; x65; x2d; x76; x6d; x2f; x70; x61; x63; x6b; x61; x67; x65; x2d; x61; x64; x64; x72; x65; x73; x73].
Definition DOMAIN_RESOURCE : bytes := (* hyperscale-vm/resource-address *)
  [x68; x79; x70; x65; x72; x73; x63; x61; x6c; x65; x2d; x76; x6d; x2f; x72; x65; x73; x6f; x75; x72; x63; x65; x2d; x61; x64; x64; x72; x65; x73; x73].
Definition DOMAIN_GENESIS_PUBLISHER : bytes := (* hyperscale-vm/genesis-publisher *)
  [x68; x79; x70; x65; x72; x73; x63; x61; x6c; x65; x2d; x76; x6d; x2f; x67; x65; x6e; x65; x73; x69; x73; x2d; x70; x75; x62; x6c; x69; x73; x68; x65; x72].
Definition DOMAIN_INSTANCE_CONFIG : bytes := (* hyperscale-vm/instance-config *)
  [x68; x79; x70; x65; x72; x73; x63; x61; x6c; x65; x2d; x76; x6d; x2f; x69; x6e; x73; x74; x61; x6e; x63; x65; x2d; x63; x6f; x6e; x66; x69; x67].

Section derivations.
Context (hash : bytes → list bytes → Z).

(** The leading sixteen bytes of a digest, and the leading thirty-one. *)
Definition digest_half (digest : Z) : Z := digest / 2 ^ 128.
Definition digest_body (digest : Z) : Z := digest / 256.
Definition slot_parts (owner : Address) (slot : SlotId) (material : list bytes) : list bytes :=
  address_to_bytes owner :: le_bytes 2 slot :: material.
Definition child_key (owner : Address) (slot : SlotId) (material : list bytes) : SubstateKey :=
  {| owner := owner; local := digest_half (hash DOMAIN_CHILD (slot_parts owner slot material)) |}.
Definition bucketed_child_key (owner : Address) (slot : SlotId) (bucket : Z) (material : list bytes) : SubstateKey :=
  let key := child_key owner slot material in
  {| owner := Types.owner key; local := be_val (bucket_to_bytes bucket ++ drop 4 (be_bytes 16 (local key))) |}.
Definition collection_id (owner : Address) (slot : SlotId) (material : list bytes) : CollectionId :=
  digest_half (hash DOMAIN_COLLECTION (slot_parts owner slot material)).
Definition order_key (owner : Address) (slot : SlotId) (material : list bytes) : Z :=
  digest_half (hash DOMAIN_ORDER (slot_parts owner slot material)).
Definition principal_address (scheme : Z) (public_key : bytes) : Address :=
  address_new (digest_body (hash DOMAIN_PRINCIPAL [le_bytes 2 scheme; public_key])) Principal.
Definition component_address (package config salt : Z) : Address :=
  address_new (digest_body (hash DOMAIN_COMPONENT [be_bytes 32 package; be_bytes 32 config; be_bytes 32 salt])) Component.
Definition package_address (package : Z) : Address :=
  address_new (digest_body (hash DOMAIN_PACKAGE_ADDRESS [be_bytes 32 package])) Package.
Definition genesis_publisher : Address := address_new (digest_body (hash DOMAIN_GENESIS_PUBLISHER [])) Native.
Definition config_hash (config_leaf : bytes) : Z := hash DOMAIN_INSTANCE_CONFIG [config_leaf].
End derivations.

(** ** The claim a value names ([Claim::of]) *)

Definition claim_of_value (v : Value) : option Claim :=
  match v with
  | Val.Address a => claim_of_address a
  | Val.Tuple [Val.Address resource; Val.U64 id] => badge ← narrowed resource_admits resource; Some (claim_of_instance badge id)
  | _ => None
  end.

(** ** What the walks visit *)

Fixpoint subvalues (v : Value) : list Value :=
  v :: match v with Val.Tuple vs | Val.List vs => concat (subvalues <$> vs) | _ => [] end.
Fixpoint value_height (v : Value) : nat :=
  match v with Val.Tuple vs | Val.List vs => S (max_list (value_height <$> vs)) | _ => 1 end.

Lemma subvalues_children v : subvalues v = v :: concat (subvalues <$> children v).
Proof. by destruct v. Qed.
Lemma value_height_children v : value_height v = S (max_list (value_height <$> children v)).
Proof. by destruct v. Qed.
Lemma value_size_children v : value_size v = S (sum_list_with value_size (children v)).
Proof. by destruct v. Qed.
Lemma value_children_ind (P : Value → Prop) : (∀ v, Forall P (children v) → P v) → ∀ v, P v.
Proof.
  intros Hc v. induction v as [v Hv|vs IH|vs IH] using value_tree_ind; apply Hc; [|done..].
  destruct v; try constructor; [by destruct (Hv fields)|by destruct (Hv items)].
Qed.
Lemma sum_list_reverse {A} (f : A → nat) l : sum_list_with f (reverse l) = sum_list_with f l.
Proof. induction l as [|x l IH]; [done|]. rewrite reverse_cons, sum_list_with_app. cbn. lia. Qed.

Lemma visit_subvalues fuel stack :
  (sum_list_with value_size stack ≤ fuel)%nat → visit fuel stack ≡ₚ concat (subvalues <$> stack).
Proof.
  revert stack. induction fuel as [|fuel IH]; intros [|v stack] Hf; [done| |done|].
  { cbn in Hf. rewrite value_size_children in Hf. lia. }
  cbn [visit fmap list_fmap concat]. rewrite subvalues_children. cbn [app]. constructor. cbn [sum_list_with] in Hf. rewrite value_size_children in Hf.
  rewrite IH by (rewrite sum_list_with_app, sum_list_reverse; lia). rewrite fmap_app, concat_app. apply Permutation_app; [|done].
  by rewrite fmap_reverse, reverse_Permutation.
Qed.
Lemma visited_subvalues v : visited v ≡ₚ subvalues v.
Proof. unfold visited. rewrite visit_subvalues by (cbn; lia). cbn. by rewrite app_nil_r. Qed.

Definition narrow_value (v : Value) : Prop := Forall (λ x, width_fault x = None) (subvalues v).
Lemma omap_head_none {A B} (f : A → option B) l : head (omap f l) = None ↔ Forall (λ x, f x = None) l.
Proof.
  induction l as [|x l IH]; [done|]. rewrite Forall_cons, <- IH. cbn. destruct (f x); [by split; [|intros [? _]]|naive_solver].
Qed.
Lemma within_width_iff v : value_within_width v = Ok () ↔ narrow_value v.
Proof.
  unfold value_within_width, narrow_value. rewrite <- visited_subvalues, <- omap_head_none. by destruct (head _).
Qed.
Lemma narrow_children v : narrow_value v ↔ width_fault v = None ∧ Forall narrow_value (children v).
Proof.
  unfold narrow_value. rewrite subvalues_children, Forall_cons, Forall_concat, Forall_fmap. done.
Qed.

Lemma depth_walk_max fuel stack deepest :
  (sum_list_with (λ p, value_size p.1) stack ≤ fuel)%nat →
  depth_walk fuel stack deepest = Nat.max deepest (max_list ((λ p, (p.2 + value_height p.1 - 1)%nat) <$> stack)).
Proof.
  assert (Hpos : ∀ v, (0 < value_height v)%nat) by (intros v; rewrite value_height_children; lia).
  assert (Happ : ∀ l k, max_list (l ++ k) = Nat.max (max_list l) (max_list k)) by (induction l; intros; cbn; [done|]; rewrite IHl; lia).
  revert stack deepest. induction fuel as [|fuel IH]; intros [|[v d] stack] deepest Hf; [cbn; lia| |cbn; lia|].
  { cbn in Hf. rewrite value_size_children in Hf. lia. }
  cbn [depth_walk fmap list_fmap max_list fst snd] in *. cbn [sum_list_with fst] in Hf. rewrite value_size_children in Hf.
  rewrite IH.
  2: { rewrite sum_list_with_app, sum_list_reverse. replace (sum_list_with (λ p : Value * nat, value_size p.1) ((λ child, (child, S d)) <$> children v))
    with (sum_list_with value_size (children v)); [lia|]. clear. induction (children v); cbn; [done|]. congruence. }
  rewrite fmap_app, fmap_reverse, <- list_fmap_compose, Happ, (value_height_children v).
  replace (max_list (reverse _)) with (match children v with [] => 0 | _ => d + max_list (value_height <$> children v) end)%nat; [destruct (children v); cbn; lia|].
  rewrite reverse_Permutation. unfold compose. cbn [fst snd]. clear IH Hf.
  induction (children v) as [|c cs IHc]; [done|]. cbn [fmap list_fmap max_list]. rewrite <- IHc. specialize (Hpos c). destruct cs; cbn; lia.
Qed.
Lemma value_depth_height v : value_depth v = value_height v.
Proof. unfold value_depth. rewrite depth_walk_max by (cbn; lia). cbn. lia. Qed.

(** ** The codec of a value *)

Definition content_ok (c : EdgeContent) : Prop :=
  match c with EdgeContent.Fungible => True | EdgeContent.NonFungible ids => Forall (width_ok 8) ids ∧ (length ids ≤ MAX_IDS_PER_EDGE)%nat end.
(** One node's own machine widths. *)
Definition node_typed (v : Value) : Prop :=
  match v with
  | Val.U64 x => width_ok 8 x
  | Val.U128 x => width_ok 16 x
  | Val.U256 x => width_ok 32 x
  | Val.Address a => address_ok a
  | Val.Key k => key_ok k
  | Val.Bucket r c => resource_ok r ∧ content_ok c
  | _ => True
  end.
Definition value_typed (v : Value) : Prop := Forall node_typed (subvalues v).
Lemma typed_children v : value_typed v ↔ node_typed v ∧ Forall value_typed (children v).
Proof. unfold value_typed. rewrite subvalues_children, Forall_cons, Forall_concat, Forall_fmap. done. Qed.
Definition value_ok (n : nat) (v : Value) : Prop := value_typed v ∧ narrow_value v ∧ (value_height v ≤ n)%nat.
(** A value before its own width is judged. *)
Definition value_branching (n : nat) (v : Value) : Prop := node_typed v ∧ Forall (value_ok n) (children v).

Lemma value_ok_branching n v : value_ok (S n) v ↔ value_branching n v ∧ narrow_value v.
Proof.
  unfold value_ok, value_branching. rewrite typed_children, narrow_children, value_height_children, <- Nat.succ_le_mono, max_list_le, Forall_fmap.
  unfold value_ok. rewrite !Forall_and. naive_solver.
Qed.

Lemma content_laws : enum_laws edge_content_variants content_ok.
Proof. listed_enum edge_content_variants. Qed.
Lemma built_content : built edge_content content_ok.
Proof.
  apply built_enum; [apply content_laws|]. intros v Hv. unfold edge_content_variants in Hv. each_of Hv; cbn.
  - apply built_unit.
  - apply built_nested, built_capped_vec; [apply built_uint|cbn; lia].
Qed.
Lemma value_variants_laws element (P : Value → Prop) : enum_laws (value_variants element) P.
Proof. unfold value_variants; listed_laws. Qed.
Lemma value_width n : MIN_ENCODED_LEN (value_at n) = 2%nat.
Proof. by destruct n. Qed.

Lemma canonical_weaken {A} (c : Codec A) (ok ok' : A → Prop) : Canonical c ok → (∀ v, ok v ↔ ok' v) → Canonical c ok'.
Proof. intros Hc Hok. by eapply canonical_ext. Qed.
Lemma leaf_canonical {A} (c : Codec A) ok (ok' : A → Prop) : built c ok → (∀ v, ok v ↔ ok' v) → Canonical (nested c) ok'.
Proof. intros Hc Hok. eapply canonical_weaken; [by apply nested_canonical, built_canonical|done]. Qed.
Lemma value_canonical_at n : Canonical (value_at n) (value_ok n).
Proof.
  induction n as [|n IH].
  { assert (Hn : ∀ v, ¬ value_ok 0 v) by (intros v (_ & _ & Hh); rewrite value_height_children in Hh; lia).
    split; [intros v Hv|intros v d m b Hv|intros v d b rest Hv|done]; by destruct (Hn v Hv). }
  cbn [value_at]. eapply (carried_canonical _ _ _ _ (value_branching n)).
  - assert (Hl : Canonical (nested (vec (value_at n))) (Forall (value_ok n))).
    { apply nested_canonical. eapply canonical_ext; [apply (vec_canonical (value_at n) (value_ok n)); rewrite value_width; lia| |done..].
      naive_solver. }
    apply enum_canonical; [apply value_variants_laws|]. intros v Hv. unfold value_variants in Hv. each_of Hv; cbn [body construct];
      unfold value_branching; cbn [node_typed children].
    1-7: eapply leaf_canonical; [first [apply built_bool|apply built_uint|apply built_uint_be|apply built_bytes|apply built_address|apply built_substate_key]|].
    1-7: intros x; rewrite Forall_nil; unfold any; naive_solver.
    1-2: eapply canonical_weaken; [exact Hl|]; naive_solver.
    assert (Hr : Canonical (nested resource_addr) resource_ok) by (by eapply leaf_canonical; [apply built_resource_addr|]).
    assert (Hc : Canonical (nested edge_content) content_ok) by (by eapply leaf_canonical; [apply built_content|]).
    eapply canonical_weaken; [exact (both_canonical (nested resource_addr) (nested edge_content) resource_ok content_ok)|].
    intros [r c]. cbn. rewrite Forall_nil. naive_solver.
  - intros v [Hb Hw]%value_ok_branching. split; [done|]. unfold value_validated. by rewrite (proj2 (within_width_iff v) Hw).
  - intros v v' Hv. unfold value_validated. destruct (value_within_width v) as [[]|] eqn:Hw; [|done]. intros [= <-].
    split; [|done]. apply value_ok_branching. split; [done|]. by apply within_width_iff.
Qed.

(** The encoder levels a value takes: two per product, and the leaf's own. *)
Definition leaf_levels (v : Value) : nat :=
  match v with
  | Val.Bytes _ | Val.Key _ => 2
  | Val.Bucket _ (EdgeContent.NonFungible _) => 3
  | _ => 1
  end.
Fixpoint value_levels (v : Value) : nat :=
  match v with Val.Tuple vs | Val.List vs => 2 + max_list (value_levels <$> vs) | _ => leaf_levels v end.

Lemma value_levels_children v :
  value_levels v = match v with Val.Tuple _ | Val.List _ => (2 + max_list (value_levels <$> children v))%nat | _ => leaf_levels v end.
Proof. by destruct v. Qed.
(** Twice the height, less one for a leaf that takes one level and more for one that takes three. *)
Lemma value_levels_height v : (2 * value_height v ≤ S (value_levels v) ∧ value_levels v ≤ 2 * value_height v + 1)%nat.
Proof.
  assert (Hm : ∀ vs, Forall (λ v, 2 * value_height v ≤ S (value_levels v) ∧ value_levels v ≤ 2 * value_height v + 1)%nat vs →
    (2 * max_list (value_height <$> vs) ≤ S (max_list (value_levels <$> vs)) ∧ max_list (value_levels <$> vs) ≤ 2 * max_list (value_height <$> vs) + 1)%nat).
  { induction 1; cbn; lia. }
  induction v as [v IH] using value_children_ind. specialize (Hm _ IH).
  destruct v as [| | | | | | |vs|vs|r []]; cbn in *; lia.
Qed.
Lemma levels_fit (l : list nat) d m :
  (d + S (S (max_list l)) ≤ m)%nat ↔ (S d < m)%nat ∧ Forall (λ x, S (S d) + x ≤ m)%nat l.
Proof.
  induction l as [|x l IH]; cbn; [rewrite Forall_nil; lia|]. rewrite Forall_cons.
  assert ((d + S (S (x `max` max_list l)) ≤ m)%nat ↔ (d + S (S (max_list l)) ≤ m)%nat ∧ (S (S d) + x ≤ m)%nat) as -> by lia.
  rewrite IH. tauto.
Qed.
Lemma nested_writes {A} (c : Codec A) ok : Canonical c ok → LengthFree c ok 0 → writes (nested c) ok (λ _ d m, d < m)%nat.
Proof. intros Hc Hf. eapply writes_ext; [apply writes_nested, writes_free; done|]. intros. cbn. lia. Qed.
Lemma bytes_writes : writes bytes_codec (λ b, (length b ≤ MAX_VALUE_BYTES)%nat) (λ _ d m, d < m)%nat.
Proof.
  assert (Hw : writes u8 any (λ _ _ _, True)) by (apply writes_free; [apply built_canonical, built_u8|intros b d m _ _; eexists; apply puts_fixed]).
  pose proof (writes_vec u8 any (λ _ _ _, True) MAX_VALUE_BYTES Hw ltac:(by vm_compute)) as Hv.
  intros b Hb. destruct (Hv b) as [Ha Hp]; [split; [by apply Forall_true|done]|].
  assert (He : ∀ e, encode bytes_codec b e = encode (vec u8) b e) by (intros e; apply bytes_copy_encode).
  split.
  - intros e e' E. rewrite He in E. destruct (Ha e e' E) as (x & -> & P). exists x. split; [done|]. intros o. by rewrite He.
  - intros d m Hd. assert (Hx : (∃ x, puts (encode bytes_codec b) d m x) ↔ ∃ x, puts (encode (vec u8) b) d m x).
    { split; intros [x P]; exists x; intros o; [by rewrite <- He|by rewrite He]. }
    rewrite Hx, Hp by done. split; [by intros [? _]|]. intros. split; [done|]. by apply Forall_true.
Qed.
Lemma key_writes : writes substate_key key_ok (λ _ d m, d < m)%nat.
Proof.
  pose proof (writes_nested _ _ _ (writes_free address address_ok (built_canonical _ _ built_address) address_free)) as Ka.
  pose proof (writes_nested _ _ _ (writes_free local_key (width_ok 16) (built_canonical _ _ (built_uint_be 16)) (uint_be_free 16))) as Kl.
  eapply writes_ext; [eapply (writes_carried _ _ _ _ _ _ (writes_both _ _ _ _ _ _ Ka Kl)); by intros []|]. intros k d m _ _. cbn. lia.
Qed.
Lemma content_writes : writes edge_content content_ok
  (λ c d m, match c with EdgeContent.Fungible => True | EdgeContent.NonFungible _ => (S d < m)%nat end).
Proof.
  apply writes_enum; [apply content_laws|]. intros v Hv. unfold edge_content_variants in Hv. each_of Hv; cbn [body construct].
  - exact (writes_free unit_codec any _ _).
  - pose proof (writes_nested _ _ _ (writes_vec (uint 8) (width_ok 8) (λ _ _ _, True) MAX_IDS_PER_EDGE (writes_free _ _ _ _) ltac:(by vm_compute))) as Hv.
    eapply writes_ext; [exact Hv|]. intros ids d m _ _. cbn. split; [lia|]. intros. split; [lia|]. split; [lia|by apply Forall_true].
Qed.
(** Two bounds on one depth. *)
Ltac fits := clear; split; [intros; destruct_and?; split; lia|intros; destruct_and?; repeat split; lia].
Lemma value_writes n :
  writes (value_at n) (λ v, value_typed v ∧ narrow_value v) (λ v d m, value_height v ≤ n ∧ d + value_levels v ≤ m)%nat.
Proof.
  induction n as [|n IH].
  { intros v Ht. split; [by intros e e'|]. intros d m _. split; [intros [b P]; by specialize (P [])|].
    intros [Hh _]. rewrite value_height_children in Hh. lia. }
  cbn [value_at]. eapply (writes_carried _ _ _ _ (λ v, value_typed v ∧ narrow_value v)); [|done].
  assert (Hl : writes (nested (vec (value_at n))) (λ vs, Forall (λ v, value_typed v ∧ narrow_value v) vs ∧ (length vs ≤ MAX_VALUE_ITEMS)%nat)
    (λ vs d m, max_list (value_height <$> vs) ≤ n ∧ d + (2 + max_list (value_levels <$> vs)) ≤ m)%nat).
  { eapply writes_ext; [exact (writes_nested _ _ _ (writes_vec _ _ _ MAX_VALUE_ITEMS IH ltac:(by vm_compute)))|].
    intros vs d m _ Hd. cbn. rewrite levels_fit, max_list_le, !Forall_fmap. setoid_rewrite Forall_and. unfold compose. naive_solver lia. }
  apply writes_enum; [apply value_variants_laws|]. intros v Hin. unfold value_variants in Hin. each_of Hin; cbn [body construct].
  1-7: intros x Hx; assert (Hn := proj1 (proj1 (typed_children _) (proj1 Hx))); assert (Hw := proj1 (proj1 (narrow_children _) (proj2 Hx))); cbn [node_typed width_fault] in *.
  - destruct (nested_writes bool_codec any _ _ x I) as [Ha Hp]. split; [done|]. intros d m Hd. rewrite Hp by done. cbn. fits.
  - destruct (nested_writes (uint 8) (width_ok 8) _ _ x Hn) as [Ha Hp]. split; [done|]. intros d m Hd. rewrite Hp by done. cbn. fits.
  - destruct (nested_writes (uint 16) (width_ok 16) _ _ x Hn) as [Ha Hp]. split; [done|]. intros d m Hd. rewrite Hp by done. cbn. fits.
  - destruct (nested_writes (uint_be 32) (width_ok 32) _ _ x Hn) as [Ha Hp]. split; [done|]. intros d m Hd. rewrite Hp by done. cbn. fits.
  - destruct (decide _) as [|Hlen]; [done|]. destruct (writes_nested _ _ _ bytes_writes x (proj1 (Nat.nlt_ge _ _) Hlen)) as [Ha Hp]. split; [done|]. intros d m Hd. rewrite Hp by done. cbn. fits.
  - destruct (nested_writes address address_ok (built_canonical _ _ built_address) address_free x Hn) as [Ha Hp]. split; [done|]. intros d m Hd. rewrite Hp by done. cbn. fits.
  - destruct (writes_nested _ _ _ key_writes x Hn) as [Ha Hp]. split; [done|]. intros d m Hd. rewrite Hp by done. cbn. fits.
  - intros vs [Ht Hw]. apply typed_children in Ht as [_ Ht]. apply narrow_children in Hw as [Hf Hw]. cbn in Hf. destruct (decide _) as [|Hlen]; [done|].
    destruct (Hl vs) as [Ha Hp]; [split; [by apply Forall_and|exact (proj1 (Nat.nlt_ge _ _) Hlen)]|]. split; [done|]. intros d m Hd. rewrite Hp by done. cbn. fits.
  - intros vs [Ht Hw]. apply typed_children in Ht as [_ Ht]. apply narrow_children in Hw as [Hf Hw]. cbn in Hf. destruct (decide _) as [|Hlen]; [done|].
    destruct (Hl vs) as [Ha Hp]; [split; [by apply Forall_and|exact (proj1 (Nat.nlt_ge _ _) Hlen)]|]. split; [done|]. intros d m Hd. rewrite Hp by done. cbn. fits.
  - pose proof (nested_writes resource_addr resource_ok (built_canonical _ _ built_resource_addr) resource_addr_free) as Hr.
    pose proof (writes_nested _ _ _ content_writes) as Hc. pose proof (writes_both _ _ _ _ _ _ Hr Hc) as Hb.
    intros [r c] [Ht _]. apply typed_children in Ht as [Ht _]. destruct (Hb (r, c) Ht) as [Ha Hp]. split; [done|]. intros d m Hd. rewrite Hp by done.
    destruct c; cbn; fits.
Qed.

Lemma value_encodes v m :
  value_typed v → narrow_value v → (m ≤ DEFAULT_MAX_DEPTH)%nat →
  (∃ b, to_vec_with_depth dsl_value v m = Ok b) ↔ (value_levels v ≤ m)%nat.
Proof.
  intros Ht Hw Hm. destruct (value_writes DEFAULT_MAX_DEPTH v (conj Ht Hw)) as [Ha Hp]. specialize (Hp 0%nat m (Nat.le_0_l _)).
  unfold to_vec_with_depth. split.
  - intros [b (e & E & _)%result_bind_ok]. destruct (Ha _ _ E) as (b' & _ & P). cbn in P. apply Hp. by exists b'.
  - intros Hl. destruct (proj2 Hp) as [b P]; [|exists b; by rewrite P].
    split; [|exact Hl]. destruct (value_levels_height v). unfold DEFAULT_MAX_DEPTH in *. lia.
Qed.
Lemma value_decodes v b :
  from_slice dsl_value b = Ok v ↔ value_typed v ∧ narrow_value v ∧ to_vec dsl_value v = Ok b.
Proof.
  unfold from_slice, to_vec. rewrite (canonical_iff _ _ _ _ _ (value_canonical_at DEFAULT_MAX_DEPTH)). unfold value_ok. split; [naive_solver|].
  intros (Ht & Hw & He). split_and!; try done.
  assert (value_levels v ≤ DEFAULT_MAX_DEPTH)%nat by (apply (value_encodes v); [done..|by exists b]).
  destruct (value_levels_height v). unfold DEFAULT_MAX_DEPTH in *. lia.
Qed.
Lemma admissible_encodes v :
  value_typed v → narrow_value v → (value_depth v ≤ MAX_VALUE_DEPTH)%nat → ∃ b, canonical_bytes v = Some b.
Proof.
  intros Ht Hw Hd. rewrite value_depth_height in Hd. destruct (proj2 (value_encodes v DEFAULT_MAX_DEPTH Ht Hw (le_n _))) as [b E].
  - destruct (value_levels_height v). unfold MAX_VALUE_DEPTH, DEFAULT_MAX_DEPTH in *. lia.
  - exists b. unfold canonical_bytes, to_vec. by rewrite E.
Qed.

(** The canonical bytes of a value. A byte string is read as a value exactly when it is that value's encoding and the
    value is within the width caps, so hashing the bytes is hashing the value: two values with the same bytes are one
    value, and nothing else reads as it. Every value of admissible depth has canonical bytes, whatever it nests, so no
    derivation over a value that passed the depth gate panics. *)
Theorem value_canonical v w b :
  value_typed v → narrow_value v →
  (from_slice dsl_value b = Ok v ↔ canonical_bytes v = Some b) ∧
  ((value_depth v ≤ MAX_VALUE_DEPTH)%nat → is_Some (canonical_bytes v)) ∧
  (value_typed w → narrow_value w → canonical_bytes v = Some b → canonical_bytes w = Some b → v = w).
Proof.
  intros Ht Hw. assert (Hc : ∀ v, canonical_bytes v = Some b ↔ to_vec dsl_value v = Ok b).
  { intros x. unfold canonical_bytes. destruct (to_vec dsl_value x); naive_solver. }
  split; [|split].
  - rewrite value_decodes, Hc. naive_solver.
  - intros Hd. destruct (admissible_encodes v Ht Hw Hd) as [x ->]. by exists x.
  - intros Ht' Hw' E1 E2. rewrite Hc in E1, E2. assert (from_slice dsl_value b = Ok v) as F1 by (by apply value_decodes).
    assert (from_slice dsl_value b = Ok w) as F2 by (by apply value_decodes). congruence.
Qed.
#[global] Instance address_ok_dec a : Decision (address_ok a).
Proof. unfold address_ok. apply _. Defined.
#[global] Instance resource_ok_dec a : Decision (resource_ok a).
Proof.
  destruct (decide (address_ok a)) as [Ha|Hn]; [|right; by intros [? _]]. destruct (address_class a) as [c|] eqn:E.
  - destruct (decide (resource_admits c = true)) as [Hc|Hc]; [left; split; [done|by exists c]|right; intros (_ & c' & E' & Hc'); congruence].
  - right. intros (_ & c' & E' & _). congruence.
Defined.
#[global] Instance node_typed_dec v : Decision (node_typed v).
Proof. destruct v as [| | | | | | | | |r []]; cbn; unfold width_ok, key_ok, content_ok, width_ok; apply _. Defined.
#[global] Instance value_typed_dec v : Decision (value_typed v).
Proof. unfold value_typed. apply _. Defined.
Definition sample_tuple : Value :=
  Val.Tuple [Val.U64 7; Val.List [Val.Bool true; Val.Bytes [x61; x62]]; Val.Bucket (address_new 5 Resource) (EdgeContent.NonFungible [3; 9])].
Lemma value_canonical_witness :
  is_Some (canonical_bytes sample_tuple) ∧ value_depth sample_tuple = 3%nat ∧
  from_slice dsl_value [x07; x01; x00; x01] = Ok (Val.Tuple [Val.Bool true]).
Proof.
  split; [|split; [vm_compute; reflexivity|]].
  - apply (value_canonical sample_tuple sample_tuple []).
    + apply (bool_decide_unpack _). vm_compute. exact I.
    + repeat constructor.
    + vm_compute. lia.
  - apply (value_canonical (Val.Tuple [Val.Bool true]) sample_tuple).
    + repeat constructor.
    + repeat constructor.
    + vm_compute. reflexivity.
Defined.

(** Fifteen tuples around a bucket that names an instance: of admissible depth,
    and one encoder level past what the cap on admissible values allows. *)
Fixpoint wrapped (n : nat) (v : Value) : Value := match n with O => v | S n => Val.Tuple [wrapped n v] end.
Lemma bucket_past_wire_depth :
  let v := wrapped 15 (Val.Bucket (address_new 5 Resource) (EdgeContent.NonFungible [3])) in
  value_depth v = MAX_VALUE_DEPTH ∧ value_levels v = S MAX_VALUE_WIRE_DEPTH ∧
  is_ok (to_vec_with_depth dsl_value v MAX_VALUE_WIRE_DEPTH) = false.
Proof. vm_compute. auto. Qed.

(** ** The decimal is the number *)

Fixpoint dec_val (digits : list Z) : Z := match digits with [] => 0 | d :: ds => d + 10 * dec_val ds end.
Definition digit (d : Z) : Prop := 0 ≤ d < 10.
(** The digits of a number, least first, [used] of them in use and none of those above it set. *)
Record renders (digits : list Z) (used : nat) (n : Z) : Prop := {
  rd_length : length digits = DIGITS;
  rd_used : (1 ≤ used ≤ DIGITS)%nat;
  rd_digits : Forall digit digits;
  rd_value : dec_val (take used digits) = n;
  rd_leading : (used = 1)%nat ∨ 10 ^ Z.of_nat (pred used) ≤ n;
}.

Lemma dec_val_bound ds : Forall digit ds → 0 ≤ dec_val ds < 10 ^ Z.of_nat (length ds).
Proof.
  induction 1 as [|d ds Hd _ IH]; [done|]. cbn [dec_val length]. unfold digit in Hd. rewrite Nat2Z.inj_succ, Z.pow_succ_r by lia. lia.
Qed.
Lemma dec_val_app ds es : dec_val (ds ++ es) = dec_val ds + 10 ^ Z.of_nat (length ds) * dec_val es.
Proof.
  induction ds as [|d ds IH]; [cbn; lia|]. cbn [dec_val app length]. rewrite IH, Nat2Z.inj_succ, Z.pow_succ_r by lia. lia.
Qed.
Lemma fold_digits_spec digits used carry :
  Forall digit digits → (used ≤ length digits)%nat → 0 ≤ carry < 256 →
  let '(ds, c) := fold_digits digits used carry in
  length ds = length digits ∧ Forall digit ds ∧ 0 ≤ c < 256 ∧
  dec_val (take used ds) + 10 ^ Z.of_nat used * c = 256 * dec_val (take used digits) + carry.
Proof.
  intros Hd. revert used carry. induction Hd as [|d digits Hd Hds IH]; intros [|used] carry Hu Hc; cbn [fold_digits length] in *;
    [split_and!; [done|constructor|lia|lia|cbn; lia]|lia|split_and!; [done|by constructor|lia|lia|cbn; lia]|].
  unfold digit in Hd. specialize (IH used ((d * 256 + carry) / 10)). destruct (fold_digits digits used _) as [ds c].
  destruct IH as (H1 & H2 & H3 & H4); [lia|split; [apply Z.div_pos; lia|apply Z.div_lt_upper_bound; lia]|]. cbn [take dec_val length].
  split_and!; [lia|constructor; [apply Z.mod_pos_bound; lia|done]|lia|lia|].
  rewrite Nat2Z.inj_succ, Z.pow_succ_r by lia. pose proof (Z.div_mod (d * 256 + carry) 10). lia.
Qed.
Lemma take_insert_end (digits : list Z) used x :
  (used < length digits)%nat → take (S used) (<[used := x]> digits) = take used digits ++ [x].
Proof.
  intros Hu. rewrite (take_S_r _ _ x) by (by apply list_lookup_insert_eq). by rewrite take_insert_ge by lia.
Qed.
(** A carry spilled over the digits in use: it fits as long as the number does. *)
Lemma spill_spec fuel digits used carry n :
  length digits = DIGITS → (1 ≤ used ≤ DIGITS)%nat → Forall digit digits → 0 ≤ carry < 10 ^ Z.of_nat fuel →
  dec_val (take used digits) + 10 ^ Z.of_nat used * carry = n → n < 10 ^ Z.of_nat DIGITS →
  ((used = 1)%nat ∨ 10 ^ Z.of_nat (pred used) ≤ n) →
  ∃ ds u, spill fuel digits used carry = Some (ds, u) ∧ renders ds u n.
Proof.
  revert digits used carry. induction fuel as [|fuel IH]; intros digits used carry Hl Hu Hd Hc Hn Hmax Hlead.
  { exists digits, used. split; [done|]. assert (carry = 0) by (cbn in Hc; lia). split; [done..|lia|done]. }
  cbn [spill]. destruct (decide (0 < carry)) as [Hpos|Hz].
  2: { exists digits, used. split; [done|]. split; [done..|lia|done]. }
  assert (Ht : 0 ≤ dec_val (take used digits)) by (apply dec_val_bound; by apply Forall_take).
  assert (Hlow : 10 ^ Z.of_nat used ≤ n) by nia.
  assert (Hlt : (used < DIGITS)%nat).
  { apply Nat.nle_gt. intros Hge. assert (10 ^ Z.of_nat DIGITS ≤ 10 ^ Z.of_nat used) by (apply Z.pow_le_mono_r; lia). lia. }
  rewrite decide_True by lia. rewrite Nat2Z.inj_succ, Z.pow_succ_r in Hc by lia.
  pose proof (Z.div_mod carry 10) as Hdm. pose proof (Z.mod_pos_bound carry 10) as Hm.
  apply IH; [by rewrite length_insert|lia|apply Forall_insert; [done|unfold digit; lia]|split; [apply Z.div_pos; lia|apply Z.div_lt_upper_bound; lia]| |done|right; exact Hlow].
  rewrite take_insert_end by lia. rewrite dec_val_app, length_take, Nat.min_l by lia. cbn [dec_val].
  rewrite Nat2Z.inj_succ, Z.pow_succ_r by lia. nia.
Qed.
Lemma decimal_bytes_spec b digits used n :
  renders digits used n → n * 256 ^ Z.of_nat (length b) + be_val b < 10 ^ Z.of_nat DIGITS →
  ∃ ds u, decimal_bytes b digits used = Some (ds, u) ∧ renders ds u (n * 256 ^ Z.of_nat (length b) + be_val b).
Proof.
  revert digits used n. induction b as [|x b IH]; intros digits used n Hr Hmax.
  { exists digits, used. split; [done|]. replace (n * 256 ^ Z.of_nat (length []) + be_val []) with n by (cbn; lia). done. }
  destruct Hr as [Hl Hu Hd Hv Hlead]. cbn [decimal_bytes]. pose proof (u8_val_bound x) as Hx.
  pose proof (fold_digits_spec digits used (u8_val x) Hd ltac:(lia) Hx) as Hf. destruct (fold_digits digits used (u8_val x)) as [ds c].
  destruct Hf as (F1 & F2 & F3 & F4). rewrite Hv in F4. rewrite be_val_cons in Hmax |- *. cbn [length] in *.
  pose proof (be_val_bound b) as Hb. rewrite Nat2Z.inj_succ, Z.pow_succ_r in * by lia.
  assert (Hn0 : 0 ≤ n) by (rewrite <- Hv; apply dec_val_bound; by apply Forall_take).
  set (p := 256 ^ Z.of_nat (length b)) in *.
  destruct (spill_spec 4 ds used c (256 * n + u8_val x)) as (ds' & u' & -> & Hr'); [lia|done|done|lia|lia|nia|destruct Hlead; [by left|right; lia]|].
  cbn [mbind option_bind fst snd]. replace (n * (256 * p) + (u8_val x * p + be_val b)) with ((256 * n + u8_val x) * p + be_val b) in * by lia.
  by apply IH.
Qed.
(** The digits printed, most significant first. *)
Definition decimal (ds : list Z) : Z := dec_val (reverse ds).

(** A 256-bit literal prints as its decimal. The division never indexes past its seventy-eight digits, and what comes
    out are decimal digits that spell exactly the number the little-endian bytes are, with no leading zero but for zero
    itself. *)
Theorem u256_decimal_correct scaled :
  length scaled = 32%nat →
  ∃ ds, u256_decimal scaled = Some ds ∧ decimal ds = le_val scaled ∧ Forall digit ds ∧
    (ds = [0] ∧ le_val scaled = 0 ∨ ∃ d rest, ds = d :: rest ∧ d ≠ 0).
Proof.
  intros Hlen. assert (Hbe : be_val (reverse scaled) = le_val scaled) by (unfold be_val; by rewrite reverse_involutive).
  pose proof (be_val_bound (reverse scaled)) as Hb. rewrite length_reverse, Hlen in Hb.
  destruct (decimal_bytes_spec (reverse scaled) (replicate DIGITS 0) 1 0) as (digits & used & E & Hr).
  - split; [done|unfold DIGITS; lia|by apply (bool_decide_unpack _); vm_compute|done|by left].
  - rewrite Z.mul_0_l, Z.add_0_l. apply (Z.lt_le_trans _ (256 ^ 32)); [apply Hb|by vm_compute].
  - unfold u256_decimal. rewrite E. cbn [mbind option_bind fst snd]. rewrite Z.mul_0_l, Z.add_0_l, Hbe in Hr. destruct Hr as [Hl Hu Hd Hv Hlead].
    exists (reverse (take used digits)). unfold decimal. rewrite reverse_involutive. split_and!; [done|done|by apply Forall_reverse, Forall_take|].
    destruct used as [|used]; [lia|]. destruct (lookup_lt_is_Some_2 digits used) as [d Hd']; [lia|].
    rewrite (take_S_r _ _ d Hd') in *. rewrite reverse_app. cbn. rewrite dec_val_app, length_take, Nat.min_l in Hv by lia. cbn in Hv.
    destruct (decide (d = 0)) as [->|Hnz]; [|right; by exists d, (reverse (take used digits))]. left.
    pose proof (dec_val_bound (take used digits) (Forall_take _ _ _ Hd)) as Ht. rewrite length_take, Nat.min_l in Ht by lia. cbn in Hlead.
    destruct Hlead as [[= ->]|Hlead]; [|lia]. split; [done|]. cbn in Hv. lia.
Qed.
Lemma u256_decimal_sample : u256_decimal (le_bytes 32 10203) = Some [1; 0; 2; 0; 3] ∧ u256_decimal (le_bytes 32 0) = Some [0].
Proof. vm_compute. auto. Qed.
