(* ===== verification/Buckets.v ===== *)
(** * The bucket table ([crates/kernel/src/session/{buckets,reach}.rs])

    Value in flight between a producer and a consumer, indexed by the rep a
    guest's handle names, with the frame's reach as the fence every resolution of
    a rep passes. The theorems: the table neither makes nor loses value whatever
    sequence of operations runs on it, and a frame leaves every bucket it was not
    lent as it found it. *)

From S2P Require Import Prelude WideMath Types Effects Conflict Modes Ledger Capability.

(** ** Reach *)

Record Reach := { lent : option (gset nat) }.
Definition reach_default : Reach := {| lent := None |}.
Definition reach_enter (_ : Reach) : Reach := {| lent := Some ∅ |}.
Definition reach_leave (_ : Reach) : Reach := {| lent := None |}.
Definition reach_lend (rep : Rep) (r : Reach) : Reach :=
  match lent r with Some l => {| lent := Some ({[rep]} ∪ l) |} | None => r end.
Definition reach_holds (r : Reach) (rep : Rep) : bool :=
  match lent r with None => true | Some l => bool_decide (rep ∈ l) end.

(** ** Held value *)

Inductive Held := HAmount (amount : Z) | HInstances (ids : gset Z).
#[global] Instance Held_eq_dec : EqDecision Held.
Proof. solve_decision. Defined.

Definition quantity (h : Held) : Z :=
  match h with HAmount a => a | HInstances ids => Z.of_nat (size ids) end.
Definition held_is_empty (h : Held) : bool := bool_decide (quantity h = 0).

(** ** The table *)

Record Buckets := {
  slots : list (option Held);
  resources : list ResourceAddr;
  origins : list (option SubstateKey);
  b_reach : Reach;
}.
Definition buckets_default : Buckets :=
  {| slots := []; resources := []; origins := []; b_reach := reach_default |}.

Definition with_slots (f : list (option Held) → list (option Held)) (b : Buckets) : Buckets :=
  {| slots := f (slots b); resources := resources b; origins := origins b; b_reach := b_reach b |}.
Definition with_origins (f : list (option SubstateKey) → list (option SubstateKey)) (b : Buckets) : Buckets :=
  {| slots := slots b; resources := resources b; origins := f (origins b); b_reach := b_reach b |}.
Definition with_reach (f : Reach → Reach) (b : Buckets) : Buckets :=
  {| slots := slots b; resources := resources b; origins := origins b; b_reach := f (b_reach b) |}.

Definition b_enter_frame : Buckets → Buckets := with_reach reach_enter.
Definition b_leave_frame : Buckets → Buckets := with_reach reach_leave.
Definition b_lend (rep : Rep) : Buckets → Buckets := with_reach (reach_lend rep).

(** [expect] on the rep is the panic past [u32] buckets. *)
Definition b_open (held : Held) (resource : ResourceAddr) (origin : option SubstateKey) : M Buckets Rep :=
  λ b, let rep := length (slots b) in
    if decide (Z.of_nat rep ≤ u32_max) then
      (b_lend rep {| slots := slots b ++ [Some held]; resources := resources b ++ [resource];
                   origins := origins b ++ [origin]; b_reach := b_reach b |}, Done rep)
    else (b, Panicked).

Definition origin_of (b : Buckets) (rep : Rep) : option SubstateKey :=
  default None (origins b !! rep).

Definition b_live (b : Buckets) (rep : Rep) : outcome nat :=
  match slots b !! rep with
  | Some (Some _) => if reach_holds (b_reach b) rep then Done rep else Trapped (Trap.OutsideFrame rep)
  | _ => Trapped (Trap.UnknownHandle rep)
  end.

Definition b_get (b : Buckets) (rep : Rep) : outcome Held :=
  index ← b_live b rep;
  match slots b !! index with
  | None => Panicked
  | Some held => some_or held (Trap.UnknownHandle rep)
  end.

Definition b_amount (b : Buckets) (rep : Rep) : outcome Z :=
  held ← b_get b rep;
  match held with HAmount a => Done a | HInstances _ => Trapped Trap.WrongEdgeKind end.

Definition resource_of (b : Buckets) (rep : Rep) : outcome ResourceAddr :=
  resource ← some_or (resources b !! rep) (Trap.UnknownHandle rep);
  if reach_holds (b_reach b) rep then Done resource else Trapped (Trap.OutsideFrame rep).

Definition b_take (rep : Rep) : M Buckets Held :=
  index ← asks (λ b, b_live b rep);
  held ← asks (λ b, match slots b !! index with None => Panicked | Some held => Done held end);
  _ ← modify (with_slots (<[index := None]>));
  asks (λ _, some_or held (Trap.UnknownHandle rep)).

Definition b_set (rep : Rep) (held : Held) : M Buckets () := modify (with_slots (<[rep := Some held]>)).

Definition b_split (rep : Rep) (amt : Z) : M Buckets Rep :=
  held ← asks (λ b, b_amount b rep);
  resource ← asks (λ b, resource_of b rep);
  left ← asks (λ _, some_or (checked_sub held amt) (Trap.BucketUnderflow amt held));
  origin ← gets (λ b, origin_of b rep);
  _ ← b_set rep (HAmount left);
  b_open (HAmount amt) resource origin.

Definition b_split_share (rep : Rep) (num den : U256) : M Buckets Rep :=
  held ← asks (λ b, b_amount b rep);
  if u256_is_zero den then trap (Trap.Math DivideByZero) else
  if bool_decide (limbs_cmp num den = Gt) then trap Trap.ShareAboveOne else
  wide ← asks (λ _, lift Trap.Math (mul_div (from_u128 held) num den Down));
  share ← asks (λ _, some_or (to_u128 wide) (Trap.Math Overflow));
  resource ← asks (λ b, resource_of b rep);
  left ← asks (λ _, some_or (checked_sub held share) (Trap.BucketUnderflow share held));
  origin ← gets (λ b, origin_of b rep);
  _ ← b_set rep (HAmount left);
  b_open (HAmount share) resource origin.

(** The union of two instance sets, refusing the first id in both. *)
Definition file_id (held : outcome (gset Z)) (i : Z) : outcome (gset Z) :=
  h ← held; if decide (i ∈ h) then Trapped (Trap.InstanceHeldTwice i) else Done ({[i]} ∪ h).
Definition merge_held (held added : Held) : outcome Held :=
  match held, added with
  | HAmount h, HAmount a =>
      total ← some_or (checked_add 128 h a) Trap.BucketOverflow; Done (HAmount total)
  | HInstances h, HInstances a =>
      ids ← foldl file_id (Done h) (set_iter a); Done (HInstances ids)
  | _, _ => Trapped Trap.WrongEdgeKind
  end.

Definition b_merge (rep other : Rep) : M Buckets () :=
  into ← asks (λ b, resource_of b rep);
  carried ← asks (λ b, resource_of b other);
  if decide (into ≠ carried) then trap (Trap.WrongResource into carried) else
  mine ← gets (λ b, origin_of b rep);
  theirs ← gets (λ b, origin_of b other);
  _ ← modify (λ b, if decide (mine ≠ theirs) then with_origins (<[rep := None]>) b else b);
  added ← b_take other;
  held ← asks (λ b, b_get b rep);
  merged ← asks (λ _, merge_held held added);
  b_set rep merged.

Definition b_drop (rep : Rep) : M Buckets () :=
  held ← asks (λ b, b_get b rep);
  if held_is_empty held then _ ← b_take rep; mret () else mret ().

Definition carries_value (b : Buckets) : bool :=
  existsb (λ s, match s with Some held => negb (held_is_empty held) | None => false end) (slots b).

(** ** Running operations *)

Inductive BucketOp :=
  | OEnter | OLeave | OLend (rep : Rep)
  | OOpen (held : Held) (resource : ResourceAddr) (origin : option SubstateKey)
  | OTake (rep : Rep) | OSplit (rep : Rep) (amt : Z) | OShare (rep : Rep) (num den : U256)
  | OMerge (rep other : Rep) | ODrop (rep : Rep).

(** What left the table: the resource and the value of a bucket the kernel took back. *)
Abbreviation TakenOut := (list (ResourceAddr * Held)).
Definition run_op (op : BucketOp) : M Buckets TakenOut :=
  match op with
  | OEnter => _ ← modify b_enter_frame; mret []
  | OLeave => _ ← modify b_leave_frame; mret []
  | OLend rep => _ ← modify (b_lend rep); mret []
  | OOpen held resource origin => _ ← b_open held resource origin; mret []
  | OTake rep => held ← b_take rep;
                 gets (λ b, match resources b !! rep with Some r => [(r, held)] | None => [] end)
  | OSplit rep amt => _ ← b_split rep amt; mret []
  | OShare rep num den => _ ← b_split_share rep num den; mret []
  | OMerge rep other => _ ← b_merge rep other; mret []
  | ODrop rep => _ ← b_drop rep; mret []
  end.
Fixpoint run_ops (ops : list BucketOp) : M Buckets TakenOut :=
  match ops with
  | [] => mret []
  | op :: ops => a ← run_op op; b ← run_ops ops; mret (a ++ b)
  end.

(** ** Well-formed tables *)

Definition held_ok (h : Held) : Prop := match h with HAmount a => in_width 128 a | HInstances _ => True end.
Record table_ok (b : Buckets) : Prop := {
  ok_resources : length (resources b) = length (slots b);
  ok_origins : length (origins b) = length (slots b);
  ok_held : ∀ rep h, slots b !! rep = Some (Some h) → held_ok h;
}.
Definition op_ok (op : BucketOp) : Prop :=
  match op with
  | OOpen held _ _ => held_ok held
  | OSplit _ amt => in_width 128 amt
  | OShare _ num den => limbs_ok 4 num ∧ limbs_ok 4 den
  | _ => True
  end.

(** ** Closed forms *)

Lemma b_get_done b rep h :
  b_get b rep = Done h ↔ slots b !! rep = Some (Some h) ∧ reach_holds (b_reach b) rep = true.
Proof.
  unfold b_get, b_live. destruct (slots b !! rep) as [[h'|]|] eqn:E; cbn; try naive_solver.
  destruct (reach_holds _ _); cbn; [|naive_solver]. rewrite E. cbn. naive_solver.
Qed.

Lemma b_amount_done b rep a :
  b_amount b rep = Done a ↔ slots b !! rep = Some (Some (HAmount a)) ∧ reach_holds (b_reach b) rep = true.
Proof.
  unfold b_amount. rewrite outcome_bind_done. setoid_rewrite b_get_done. split.
  - intros ([a'|ids] & ? & ?); naive_solver.
  - intros [? ?]. by exists (HAmount a).
Qed.

Lemma resource_of_done b rep r :
  resource_of b rep = Done r ↔ resources b !! rep = Some r ∧ reach_holds (b_reach b) rep = true.
Proof.
  unfold resource_of. rewrite outcome_bind_done. setoid_rewrite some_or_done.
  destruct (reach_holds _ _); naive_solver.
Qed.

Lemma b_take_eq rep b :
  b_take rep b = match b_get b rep with
                 | Done h => (with_slots (<[rep := None]>) b, Done h)
                 | Trapped t => (b, Trapped t)
                 | Panicked => (b, Panicked)
                 end.
Proof.
  unfold b_take, b_get, b_live. unfold mbind, M_bind, asks, modify. destruct (slots b !! rep) as [[h|]|] eqn:E; try done.
  destruct (reach_holds _ _); [|done]. cbn. by rewrite E.
Qed.

(** A split: [amt] comes off the bucket at [rep] as the new bucket [new]. *)
Record split_off (b : Buckets) (rep : Rep) (held amt : Z) (b' : Buckets) (new : Rep) : Prop := {
  so_held : slots b !! rep = Some (Some (HAmount held));
  so_reach : reach_holds (b_reach b) rep = true;
  so_le : amt ≤ held;
  so_new : new = length (slots b);
  so_slots : slots b' = <[rep := Some (HAmount (held - amt))]> (slots b) ++ [Some (HAmount amt)];
  so_resources : ∃ r, resources b !! rep = Some r ∧ resources b' = resources b ++ [r];
  so_origins : origins b' = origins b ++ [origin_of b rep];
  so_reach' : b_reach b' = reach_lend new (b_reach b);
}.

(** The tail the two splits share, once the amount is known. *)
Definition split_tail (rep : Rep) (held amt : Z) : M Buckets Rep :=
  left ← asks (λ _, some_or (checked_sub held amt) (Trap.BucketUnderflow amt held));
  origin ← gets (λ b, origin_of b rep);
  resource ← asks (λ b, resource_of b rep);
  _ ← b_set rep (HAmount left);
  b_open (HAmount amt) resource origin.

Definition room (b : Buckets) : Prop := Z.of_nat (length (slots b)) ≤ u32_max.

Lemma split_tail_spec rep held amt b :
  slots b !! rep = Some (Some (HAmount held)) → reach_holds (b_reach b) rep = true →
  length (resources b) = length (slots b) →
  match split_tail rep held amt b with
  | (b', Done new) => split_off b rep held amt b' new ∧ room b
  | (b', Trapped t) => b' = b ∧ held < amt ∧ t = Trap.BucketUnderflow amt held
  | (b', Panicked) => b' = with_slots (<[rep := Some (HAmount (held - amt))]>) b ∧ amt ≤ held ∧ ¬ room b
  end.
Proof.
  intros Hs Hr Hlen. unfold split_tail, mbind, M_bind, asks, gets, b_set, modify.
  destruct (checked_sub held amt) as [left|] eqn:Hsub; cbn.
  2: { apply checked_sub_None in Hsub. done. }
  apply checked_sub_Some in Hsub as [-> Hle].
  assert (is_Some (resources b !! rep)) as [r Er].
  { apply lookup_lt_is_Some. apply lookup_lt_Some in Hs. lia. }
  assert (resource_of b rep = Done r) as -> by (by apply resource_of_done).
  unfold b_open. cbn. rewrite length_insert. unfold room. destruct (decide (Z.of_nat (length (slots b)) ≤ u32_max)).
  - split; [|done]. split; cbn; try done. by exists r.
  - done.
Qed.

Lemma b_split_eq rep amt b :
  b_split rep amt b =
    match b_amount b rep with
    | Done held => match resource_of b rep with
                   | Done _ => split_tail rep held amt b
                   | Trapped t => (b, Trapped t)
                   | Panicked => (b, Panicked)
                   end
    | Trapped t => (b, Trapped t)
    | Panicked => (b, Panicked)
    end.
Proof.
  unfold b_split, split_tail, mbind, M_bind, asks, gets.
  destruct (b_amount b rep) as [held| |]; [|done..]. destruct (resource_of b rep) as [r| |] eqn:E; [|done..].
  destruct (checked_sub held amt); cbn; [|done]. done.
Qed.

(** The share of a ratio at most one is at most the whole, so neither the
    narrowing nor the subtraction in [split_share] refuses. *)
Lemma share_fits held num den :
  in_width 128 held → limbs_ok 4 num → limbs_ok 4 den → limbs_val den ≠ 0 →
  limbs_val num ≤ limbs_val den →
  let share := held * limbs_val num / limbs_val den in
  ∃ wide, mul_div (from_u128 held) num den Down = Ok wide ∧ to_u128 wide = Some share ∧ 0 ≤ share ≤ held.
Proof.
  intros Hh Hn Hd Hnz Hle share. destruct (from_u128_spec held Hh) as [Hok Hv].
  pose proof (limbs_val_bound _ _ Hn) as [Hn0 _]. pose proof (limbs_val_bound _ _ Hd) as [Hd0 _].
  assert (Hshare : 0 ≤ share ≤ held).
  { destruct Hh. subst share. split; [apply Z.div_pos; nia|]. apply Z.div_le_upper_bound; nia. }
  assert (Hw : share < 2 ^ 128) by (destruct Hh; lia).
  pose proof (mul_div_spec (from_u128 held) num den Down Hok Hn Hd) as Hm. rewrite Hv in Hm.
  destruct (mul_div (from_u128 held) num den Down) as [wide|[]]; cbn [mul_div_post div_round] in Hm.
  - destruct Hm as (Hwok & _ & Hwv). exists wide. split; [done|]. split; [|done].
    rewrite to_u128_spec by done. rewrite Hwv. apply decide_True. unfold width_max. lia.
  - by destruct (Hnz Hm).
  - destruct Hm as [_ Hm]. fold share in Hm. lia.
Qed.

Lemma b_split_share_eq rep num den b :
  table_ok b → limbs_ok 4 num → limbs_ok 4 den →
  b_split_share rep num den b =
    match b_amount b rep with
    | Done held =>
        if decide (limbs_val den = 0) then (b, Trapped (Trap.Math DivideByZero)) else
        if decide (limbs_val den < limbs_val num) then (b, Trapped Trap.ShareAboveOne) else
        split_tail rep held (held * limbs_val num / limbs_val den) b
    | Trapped t => (b, Trapped t)
    | Panicked => (b, Panicked)
    end.
Proof.
  intros Hb Hn Hd. unfold b_split_share. unfold mbind at 1, M_bind at 1, asks at 1.
  destruct (b_amount b rep) as [held|t|] eqn:Ea; [|done..].
  rewrite u256_is_zero_spec by done. destruct (decide (limbs_val den = 0)) as [Hz|Hz].
  { rewrite bool_decide_eq_true_2 by done. done. }
  rewrite (bool_decide_eq_false_2 (limbs_val den = 0)) by done. rewrite (limbs_cmp_spec 4) by done.
  destruct (decide (limbs_val den < limbs_val num)) as [Hgt|Hle].
  { rewrite bool_decide_eq_true_2 by (by apply Z.compare_gt_iff). done. }
  rewrite bool_decide_eq_false_2 by (rewrite Z.compare_gt_iff; lia).
  apply b_amount_done in Ea as [Es Er].
  assert (Hh : in_width 128 held) by apply (ok_held b Hb rep (HAmount held) Es).
  destruct (share_fits held num den Hh Hn Hd Hz ltac:(lia)) as (wide & Em & Et & Hs).
  unfold mbind, M_bind, asks. rewrite Em. cbn [lift]. rewrite Et. cbn [some_or].
  unfold split_tail, mbind, M_bind, asks, gets.
  destruct (checked_sub held (held * limbs_val num / limbs_val den)) as [left|] eqn:Hc;
    [|apply checked_sub_None in Hc; lia]. cbn [some_or].
  by destruct (resource_of b rep).
Qed.

(** What [merge] did when it answered. *)
Record merged_into (b : Buckets) (rep other : Rep) (b' : Buckets) : Prop := {
  mi_distinct : rep ≠ other;
  mi_reach_rep : reach_holds (b_reach b) rep = true;
  mi_reach_other : reach_holds (b_reach b) other = true;
  mi_resource : ∃ r, resources b !! rep = Some r ∧ resources b !! other = Some r;
  mi_slots : ∃ h a m, slots b !! rep = Some (Some h) ∧ slots b !! other = Some (Some a) ∧
    merge_held h a = Done m ∧ slots b' = <[rep := Some m]> (<[other := None]> (slots b));
  mi_resources : resources b' = resources b;
  mi_origins : origins b' = if decide (origin_of b rep = origin_of b other) then origins b
                            else <[rep := None]> (origins b);
  mi_reach : b_reach b' = b_reach b;
}.

(** Where a refused merge can have left the table: as it was, or with [other]
    consumed and the origin of [rep] forgotten. *)
Record merge_refused (b : Buckets) (rep other : Rep) (b' : Buckets) : Prop := {
  mr_slots : slots b' = slots b ∨
    reach_holds (b_reach b) other = true ∧ slots b' = <[other := None]> (slots b);
  mr_resources : resources b' = resources b;
  mr_origins : origins b' = origins b ∨
    reach_holds (b_reach b) rep = true ∧ origins b' = <[rep := None]> (origins b);
  mr_reach : b_reach b' = b_reach b;
}.

Lemma b_merge_spec rep other b :
  match b_merge rep other b with
  | (b', Done _) => merged_into b rep other b'
  | (b', _) => merge_refused b rep other b'
  end.
Proof.
  unfold b_merge. unfold mbind, M_bind, asks, gets, modify, trap, b_set, modify.
  destruct (resource_of b rep) as [into|t|] eqn:E1; [|by split; auto..].
  destruct (resource_of b other) as [carried|t|] eqn:E2; [|by split; auto..].
  apply resource_of_done in E1 as [E1 R1]. apply resource_of_done in E2 as [E2 R2].
  destruct (decide (into ≠ carried)) as [Hne|Heq]; [by split; auto|]. apply dec_stable in Heq as <-.
  set (b1 := if decide (origin_of b rep ≠ origin_of b other) then _ else _).
  assert (B : slots b1 = slots b ∧ resources b1 = resources b ∧ b_reach b1 = b_reach b ∧
    origins b1 = if decide (origin_of b rep = origin_of b other) then origins b else <[rep := None]> (origins b)).
  { subst b1. destruct (decide (origin_of b rep = origin_of b other)) as [E|E].
    - rewrite decide_False by tauto. done.
    - rewrite decide_True by done. done. }
  destruct B as (B1 & B2 & B3 & B4). clearbody b1.
  assert (O1 : origins b1 = origins b ∨ reach_holds (b_reach b) rep = true ∧ origins b1 = <[rep := None]> (origins b)).
  { rewrite B4. destruct (decide _); auto. }
  rewrite b_take_eq. destruct (b_get b1 other) as [added|t|] eqn:G1; [|by split; rewrite ?B1; auto..].
  apply b_get_done in G1 as [G1 _]. rewrite B1 in G1. cbn [fst snd].
  destruct (b_get (with_slots (<[other := None]>) b1) rep) as [held|t|] eqn:G2;
    [|split; cbn; rewrite ?B1; auto..].
  apply b_get_done in G2 as [G2 _]. cbn in G2. rewrite B1 in G2.
  assert (Hne : rep ≠ other).
  { intros ->. rewrite list_lookup_insert_eq in G2 by (by eapply lookup_lt_Some). done. }
  rewrite list_lookup_insert_ne in G2 by done.
  destruct (merge_held held added) as [m|t|] eqn:Em; [|split; cbn; rewrite ?B1; auto..].
  split; try done; cbn; rewrite ?B1; eauto 10.
Qed.

(** ** Measures of value *)

(** A measure that adds up over splits and merges. *)
Class Additive (m : Held → Z) : Prop := {
  add_amount a b : m (HAmount (a + b)) = m (HAmount a) + m (HAmount b);
  add_instances X Y : X ## Y → m (HInstances (X ∪ Y)) = m (HInstances X) + m (HInstances Y);
  add_nonneg h : held_ok h → 0 ≤ m h;
}.

(** The three measures of the table: the amount of a fungible edge, whether an
    instance is in it, and the quantity a bound is judged over. *)
Definition amount_in (h : Held) : Z := match h with HAmount a => a | HInstances _ => 0 end.
Definition id_in (i : Z) (h : Held) : Z :=
  match h with HAmount _ => 0 | HInstances ids => if decide (i ∈ ids) then 1 else 0 end.

#[global] Instance amount_in_additive : Additive amount_in.
Proof. split; [done..|]. intros [a|ids]; cbn; [unfold in_width|]; lia. Qed.
#[global] Instance id_in_additive i : Additive (id_in i).
Proof.
  split; [done| |].
  - intros X Y HXY. cbn. destruct (decide (i ∈ X)), (decide (i ∈ Y)), (decide (i ∈ X ∪ Y)); set_solver.
  - intros [a|ids]; cbn; [lia|]. destruct (decide _); lia.
Qed.
#[global] Instance quantity_additive : Additive quantity.
Proof.
  split; [done| |].
  - intros X Y HXY. cbn. rewrite size_union by done. lia.
  - intros [a|ids]; cbn; [unfold in_width|]; lia.
Qed.

Definition weight (m : Held → Z) (r x : ResourceAddr) (s : option Held) : Z :=
  if decide (x = r) then match s with Some h => m h | None => 0 end else 0.
Fixpoint tally_slots (m : Held → Z) (r : ResourceAddr) (ss : list (option Held)) (rs : list ResourceAddr) : Z :=
  match ss, rs with
  | s :: ss, x :: rs => weight m r x s + tally_slots m r ss rs
  | _, _ => 0
  end.
(** What the live buckets of a resource carry, by a measure. *)
Definition tally (m : Held → Z) (r : ResourceAddr) (b : Buckets) : Z := tally_slots m r (slots b) (resources b).

Lemma tally_insert m r ss rs i s s' x :
  ss !! i = Some s → rs !! i = Some x →
  tally_slots m r (<[i := s']> ss) rs = tally_slots m r ss rs - weight m r x s + weight m r x s'.
Proof.
  revert rs i. induction ss as [|s0 ss IH]; intros [|x0 rs] [|i]; try done; cbn; intros Hs Hx.
  - simplify_eq. lia.
  - rewrite IH by done. lia.
Qed.

Lemma tally_snoc m r ss rs s x :
  length ss = length rs →
  tally_slots m r (ss ++ [s]) (rs ++ [x]) = tally_slots m r ss rs + weight m r x s.
Proof.
  revert rs. induction ss as [|s0 ss IH]; intros [|x0 rs]; try done; cbn; intros Hlen; [lia|].
  rewrite IH by lia. lia.
Qed.

Lemma file_ids_trapped l t : foldl file_id (Trapped t) l = Trapped t.
Proof. by induction l. Qed.
Lemma file_ids_done l h h' :
  NoDup l → foldl file_id (Done h) l = Done h' → (∀ i, i ∈ l → i ∉ h) ∧ h' = h ∪ list_to_set l.
Proof.
  revert h. induction l as [|i l IH]; intros h Hnd H; cbn [foldl] in H.
  { injection H as <-. split; [by intros i ?%not_elem_of_nil|set_solver]. }
  apply NoDup_cons in Hnd as [Hi Hnd]. unfold file_id at 2 in H. cbn in H.
  destruct (decide (i ∈ h)) as [Hin|Hin]; [by rewrite file_ids_trapped in H|].
  apply IH in H as [H1 ->]; [|done]. split; [|set_solver].
  intros j [->|Hj]%elem_of_cons; [done|]. specialize (H1 j Hj). set_solver.
Qed.

Lemma merge_held_adds m h a h' : Additive m → merge_held h a = Done h' → m h' = m h + m a.
Proof.
  intros Hm. destruct h as [x|X], a as [y|Y]; cbn [merge_held]; try done; intros (v & Hv & [= <-])%outcome_bind_done.
  - apply some_or_done, checked_add_Some in Hv as [-> _]. apply add_amount.
  - apply file_ids_done in Hv as [Hd ->]; [|rewrite set_iter_perm; apply NoDup_elements].
    assert (list_to_set (set_iter Y) = Y) as -> by (apply set_eq; intros i; by rewrite elem_of_list_to_set, elem_of_set_iter).
    apply add_instances. intros i Hx Hy. apply (Hd i); [by apply elem_of_set_iter|done].
Qed.

Lemma merge_held_ok h a h' : held_ok h → held_ok a → merge_held h a = Done h' → held_ok h'.
Proof.
  destruct h as [x|X], a as [y|Y]; cbn [merge_held]; try done; intros H1 H2 (v & Hv & [= <-])%outcome_bind_done; [|done].
  apply some_or_done, checked_add_Some in Hv as [-> ?]. cbn in *. unfold in_width, width_max in *. lia.
Qed.

(** What the operations brought in, and what they took out, of a resource. *)
Fixpoint opened (m : Held → Z) (r : ResourceAddr) (ops : list BucketOp) : Z :=
  match ops with
  | OOpen held x _ :: ops => weight m r x (Some held) + opened m r ops
  | _ :: ops => opened m r ops
  | [] => 0
  end.
Definition taken_out (m : Held → Z) (r : ResourceAddr) (out : TakenOut) : Z :=
  sum_Z ((λ p, weight m r p.1 (Some p.2)) <$> out).

(** ** One operation *)

(** What one operation may do to a table: it keeps it well formed, balances the
    account when it answers and can only lose when it does not, and works inside
    the reach [L] of the frame. *)
Record op_effect (m : Held → Z) (r : ResourceAddr) (brought : Z) (b b' : Buckets) (o : outcome TakenOut) : Prop := {
  oe_ok : table_ok b';
  oe_balance : match o with
               | Done out => tally m r b' + taken_out m r out = tally m r b + brought
               | _ => tally m r b' ≤ tally m r b + brought
               end;
}.

Lemma split_off_tally m r b rep held amt b' new :
  Additive m → table_ok b → split_off b rep held amt b' new → 0 ≤ amt →
  table_ok b' ∧ tally m r b' = tally m r b.
Proof.
  intros Hm [T1 T2 T3] [S1 S2 S3 S4 S5 (x & S6 & S7) S8 S9] H0.
  assert (Hh : in_width 128 held) by apply (T3 _ _ S1).
  split.
  - split.
    + rewrite S7, S5, !length_app, length_insert. cbn. lia.
    + rewrite S8, S5, !length_app, length_insert. cbn. lia.
    + intros i h. rewrite S5. intros Hi. apply lookup_app_Some in Hi as [Hi|[_ Hi]].
      * destruct (decide (i = rep)) as [->|Hne].
        -- rewrite list_lookup_insert_eq in Hi by (by eapply lookup_lt_Some). injection Hi as <-.
           cbn. unfold in_width in *. lia.
        -- rewrite list_lookup_insert_ne in Hi by done. by eapply T3.
      * apply list_lookup_singleton_Some in Hi as [_ [= <-]]. cbn. unfold in_width in *. lia.
  - unfold tally. rewrite S5, S7, tally_snoc by (rewrite length_insert; lia).
    rewrite (tally_insert m r _ _ _ _ _ x S1 S6). unfold weight. destruct (decide (x = r)); [|lia].
    assert (m (HAmount held) = m (HAmount (held - amt)) + m (HAmount amt)); [|lia].
    rewrite <- add_amount. f_equal. f_equal. lia.
Qed.

Lemma merged_into_tally m r b rep other b' :
  Additive m → table_ok b → merged_into b rep other b' → table_ok b' ∧ tally m r b' = tally m r b.
Proof.
  intros Hm [T1 T2 T3] [M1 _ _ (x & M4 & M5) (h & a & h' & M6 & M7 & M8 & M9) M10 M11 _].
  split.
  - split.
    + rewrite M10, M9, !length_insert. lia.
    + rewrite M11, M9, !length_insert. destruct (decide _); rewrite ?length_insert; lia.
    + intros i g. rewrite M9. destruct (decide (i = rep)) as [->|Hne].
      * rewrite list_lookup_insert_eq by (rewrite length_insert; by eapply lookup_lt_Some).
        intros [= <-]. apply (merge_held_ok h a); [by eapply T3|by eapply T3|done].
      * rewrite list_lookup_insert_ne by done. destruct (decide (i = other)) as [->|Hne'].
        -- rewrite list_lookup_insert_eq by (by eapply lookup_lt_Some). done.
        -- rewrite list_lookup_insert_ne by done. apply T3.
  - unfold tally. rewrite M9, M10.
    rewrite (tally_insert m r _ _ rep (Some h) _ x); [|by rewrite list_lookup_insert_ne|done].
    rewrite (tally_insert m r _ _ other _ _ x M7 M5).
    unfold weight. destruct (decide (x = r)); [|lia]. rewrite (merge_held_adds m h a h') by done. lia.
Qed.

Lemma tally_clear m r b rep h :
  Additive m → table_ok b → slots b !! rep = Some (Some h) →
  table_ok (with_slots (<[rep := None]>) b) ∧
  ∃ x, resources b !! rep = Some x ∧
  tally m r (with_slots (<[rep := None]>) b) + weight m r x (Some h) = tally m r b.
Proof.
  intros Hm [T1 T2 T3] Hs. split.
  - split; cbn; rewrite ?length_insert; [done..|]. intros i g. destruct (decide (i = rep)) as [->|Hne].
    + rewrite list_lookup_insert_eq by (by eapply lookup_lt_Some). done.
    + rewrite list_lookup_insert_ne by done. apply T3.
  - assert (is_Some (resources b !! rep)) as [x Ex].
    { apply lookup_lt_is_Some. apply lookup_lt_Some in Hs. lia. }
    exists x. split; [done|]. unfold tally. cbn. rewrite (tally_insert m r _ _ _ _ _ x Hs Ex).
    unfold weight. destruct (decide (x = r)); lia.
Qed.

Lemma op_effect_idle m r b (o : outcome TakenOut) :
  table_ok b → match o with Done out => out = [] | _ => True end → op_effect m r 0 b b o.
Proof. intros Hb Ho. split; [done|]. destruct o as [out|t|]; [subst out; unfold taken_out; cbn|..]; lia. Qed.

(** An operation whose answer is not part of the account. *)
Definition silent {A} (o : outcome A) : outcome TakenOut :=
  match o with Done _ => Done [] | Trapped t => Trapped t | Panicked => Panicked end.

Lemma silent_bind {A} (f : M Buckets A) b : (f ≫= λ _, mret []) b = ((f b).1, silent (f b).2).
Proof. unfold mbind, M_bind. by destruct (f b) as [b' [a|t|]]. Qed.

Lemma split_tail_effect m r b rep held amt :
  Additive m → table_ok b → 0 ≤ amt →
  slots b !! rep = Some (Some (HAmount held)) → reach_holds (b_reach b) rep = true →
  op_effect m r 0 b (split_tail rep held amt b).1 (silent (split_tail rep held amt b).2).
Proof.
  intros Hm Hb H0 Es Er. pose proof (split_tail_spec rep held amt b Es Er (ok_resources b Hb)) as H.
  destruct (split_tail rep held amt b) as [b' [new|t|]]; cbn [fst snd silent].
  - destruct H as [H _]. destruct (split_off_tally m r _ _ _ _ _ _ Hm Hb H H0) as [T Ht].
    split; [done|]. unfold taken_out. cbn. lia.
  - destruct H as (-> & _). by apply op_effect_idle.
  - destruct H as (-> & Hle & _). destruct Hb as [T1 T2 T3].
    assert (Hh : in_width 128 held) by apply (T3 _ _ Es). split.
    + split; cbn; rewrite ?length_insert; [done..|]. intros i g. destruct (decide (i = rep)) as [->|Hne].
      * rewrite list_lookup_insert_eq by (by eapply lookup_lt_Some). intros [= <-]. cbn. unfold in_width in *. lia.
      * rewrite list_lookup_insert_ne by done. apply T3.
    + assert (is_Some (resources b !! rep)) as [x Ex].
      { apply lookup_lt_is_Some. apply lookup_lt_Some in Es. lia. }
      unfold tally. cbn. rewrite (tally_insert m r _ _ _ _ _ x Es Ex). unfold weight.
      destruct (decide (x = r)); [|lia].
      assert (Hsum : m (HAmount held) = m (HAmount (held - amt)) + m (HAmount amt))
        by (rewrite <- add_amount; do 2 f_equal; lia).
      assert (0 ≤ m (HAmount amt)); [|lia]. apply add_nonneg. cbn. unfold in_width in *. lia.
Qed.

Lemma merge_effect m r b rep other :
  Additive m → table_ok b →
  op_effect m r 0 b (b_merge rep other b).1 (silent (b_merge rep other b).2).
Proof.
  intros Hm Hb. pose proof (b_merge_spec rep other b) as H.
  assert (Hbad : ∀ b', merge_refused b rep other b' → table_ok b' ∧ tally m r b' ≤ tally m r b).
  { intros b' [R1 R2 R3 R4]. destruct Hb as [T1 T2 T3].
    assert (Hl : length (origins b') = length (origins b))
      by (destruct R3 as [->|[_ ->]]; by rewrite ?length_insert).
    destruct R1 as [R1|[_ R1]].
    - split; [|unfold tally; rewrite R1, R2; lia]. split; rewrite ?R1, ?R2, ?Hl; done.
    - split; [split|].
      + rewrite R1, R2, length_insert. done.
      + rewrite R1, Hl, length_insert. done.
      + intros i g. rewrite R1. destruct (decide (i = other)) as [->|Hne].
        * intros Hi. destruct (decide (other < length (slots b))%nat).
          -- by rewrite list_lookup_insert_eq in Hi.
          -- apply lookup_lt_Some in Hi. rewrite length_insert in Hi. lia.
        * rewrite list_lookup_insert_ne by done. apply T3.
      + unfold tally. rewrite R1, R2. destruct (slots b !! other) as [s|] eqn:Es.
        * assert (is_Some (resources b !! other)) as [x Ex].
          { apply lookup_lt_is_Some. apply lookup_lt_Some in Es. lia. }
          rewrite (tally_insert m r _ _ _ _ _ x Es Ex). unfold weight. destruct (decide (x = r)); [|lia].
          destruct s as [h|]; [|lia]. assert (0 ≤ m h); [|lia]. apply add_nonneg. by eapply T3.
        * rewrite list_insert_ge; [lia|]. by apply lookup_ge_None. }
  destruct (b_merge rep other b) as [b' [[]|t|]]; cbn [fst snd silent].
  - destruct (merged_into_tally m r _ _ _ _ Hm Hb H) as [T Ht]. split; [done|]. unfold taken_out. cbn. lia.
  - destruct (Hbad b' H) as [T Ht]. split; [done|lia].
  - destruct (Hbad b' H) as [T Ht]. split; [done|lia].
Qed.

Lemma held_empty_zero m h : Additive m → held_ok h → held_is_empty h = true → m h = 0.
Proof.
  intros Hm Hh H%bool_decide_eq_true. destruct h as [a|ids]; cbn in H.
  - subst a. pose proof (add_amount (m := m) 0 0) as H2. change (0 + 0) with 0 in H2. lia.
  - assert (ids = ∅) as -> by (apply leibniz_equiv, size_empty_iff; lia).
    pose proof (add_instances (m := m) ∅ ∅ ltac:(set_solver)) as H2. rewrite union_empty_l_L in H2. lia.
Qed.

Lemma drop_effect m r b rep :
  Additive m → table_ok b → op_effect m r 0 b (b_drop rep b).1 (silent (b_drop rep b).2).
Proof.
  intros Hm Hb. unfold b_drop, mbind, M_bind, asks, mret, M_ret.
  destruct (b_get b rep) as [h|t|] eqn:E; [|by apply op_effect_idle..].
  destruct (held_is_empty h) eqn:He; [|by apply op_effect_idle].
  rewrite b_take_eq, E. cbn [fst snd silent]. apply b_get_done in E as [Es _].
  destruct (tally_clear m r b rep h Hm Hb Es) as (T & x & Ex & Ht). split; [done|].
  change (taken_out m r []) with 0.
  assert (m h = 0) by (apply held_empty_zero; [done|apply (ok_held b Hb rep h Es)|done]).
  unfold weight in Ht. destruct (decide (x = r)); lia.
Qed.

Lemma open_effect m r b held x origin :
  Additive m → table_ok b → held_ok held →
  op_effect m r (weight m r x (Some held)) b (b_open held x origin b).1 (silent (b_open held x origin b).2).
Proof.
  intros Hm Hb Hh. unfold b_open. destruct (decide _); cbn [fst snd silent].
  - destruct Hb as [T1 T2 T3]. split.
    + split; cbn; rewrite ?length_app; cbn; [lia..|]. intros i h [Hi|[_ Hi]]%lookup_app_Some; [by eapply T3|].
      by apply list_lookup_singleton_Some in Hi as [_ [= <-]].
    + unfold tally, taken_out. cbn. rewrite tally_snoc by done. lia.
  - split; [done|]. assert (0 ≤ weight m r x (Some held)); [|lia].
    unfold weight. destruct (decide _); [|lia]. by apply add_nonneg.
Qed.

Lemma run_op_effect m r op b :
  Additive m → table_ok b → op_ok op →
  op_effect m r (opened m r [op]) b (run_op op b).1 (run_op op b).2.
Proof.
  intros Hm Hb Hop.
  destruct op as [| |rep|held x origin|rep|rep amt|rep num den|rep other|rep]; cbn [run_op opened];
    rewrite ?silent_bind; cbn [fst snd].
  - split; [by destruct Hb|]. unfold taken_out, tally; cbn; lia.
  - split; [by destruct Hb|]. unfold taken_out, tally; cbn; lia.
  - split; [by destruct Hb|]. unfold taken_out, tally; cbn; lia.
  - rewrite Z.add_0_r. by apply open_effect.
  - unfold mbind, M_bind, gets. rewrite b_take_eq.
    destruct (b_get b rep) as [h|t|] eqn:E; [|by apply op_effect_idle..].
    apply b_get_done in E as [Es _]. destruct (tally_clear m r b rep h Hm Hb Es) as (T & x & Ex & Ht).
    cbn [fst snd]. split; [done|]. cbn [resources with_slots]. rewrite Ex.
    change (taken_out m r [(x, h)]) with (weight m r x (Some h) + 0). lia.
  - rewrite b_split_eq. destruct (b_amount b rep) as [held|t|] eqn:E; [|by apply op_effect_idle..].
    destruct (resource_of b rep) as [x|t|]; [|by apply op_effect_idle..]. apply b_amount_done in E as [Es Er].
    apply split_tail_effect; [done|done| |done|done]. by destruct Hop.
  - destruct Hop as [Hn Hd]. rewrite b_split_share_eq by done.
    destruct (b_amount b rep) as [held|t|] eqn:E; [|by apply op_effect_idle..].
    apply b_amount_done in E as [Es Er]. assert (Hh : in_width 128 held) by apply (ok_held b Hb _ _ Es).
    destruct (decide _); [by apply op_effect_idle|]. destruct (decide _); [by apply op_effect_idle|].
    pose proof (limbs_val_bound _ _ Hn). pose proof (limbs_val_bound _ _ Hd).
    apply split_tail_effect; [done|done| |done|done]. unfold in_width in Hh. apply Z.div_pos; nia.
  - by apply merge_effect.
  - by apply drop_effect.
Qed.

Lemma taken_out_app m r a b : taken_out m r (a ++ b) = taken_out m r a + taken_out m r b.
Proof. unfold taken_out. by rewrite fmap_app, sum_Z_app. Qed.

Lemma opened_cons m r op ops : opened m r (op :: ops) = opened m r [op] + opened m r ops.
Proof. destruct op; cbn; lia. Qed.

(** C19: the table neither makes nor loses value. Run any sequence of table
    operations (frames entered and left, buckets lent, opened, taken, split by an
    amount or by a share, merged, dropped) that answers: for every resource, by
    amount, by each single instance and by quantity, what the live buckets carry
    afterwards plus what the kernel took back is what they carried before plus
    what was opened. And an operation that traps or panics half way never leaves
    more in the table than it found. *)
Theorem bucket_table_conserves (m : Held → Z) (r : ResourceAddr) (b : Buckets) :
  Additive m → table_ok b →
  (∀ ops b' out, Forall op_ok ops → run_ops ops b = (b', Done out) →
     table_ok b' ∧ tally m r b' + taken_out m r out = tally m r b + opened m r ops) ∧
  (∀ op, op_ok op → match (run_op op b).2 with
                    | Done _ => True
                    | _ => tally m r (run_op op b).1 ≤ tally m r b + opened m r [op]
                    end).
Proof.
  intros Hm Hb. split.
  - intros ops b' out Hops. revert b Hb b' out. induction Hops as [|op ops Hop Hops IH]; intros b Hb b' out Hrun.
    { injection Hrun as <- <-. split; [done|]. unfold taken_out. cbn. lia. }
    cbn [run_ops] in Hrun. apply M_bind_done in Hrun as (b1 & out1 & H1 & Hrun).
    apply M_bind_done in Hrun as (b2 & out2 & H2 & [= <- <-]).
    destruct (run_op_effect m r op b Hm Hb Hop) as [T1 E1]. rewrite H1 in T1, E1. cbn [fst snd] in T1, E1.
    destruct (IH b1 T1 b2 out2 H2) as [T2 E2]. split; [done|].
    rewrite taken_out_app, (opened_cons m r op ops). lia.
  - intros op Hop. destruct (run_op_effect m r op b Hm Hb Hop) as [_ E].
    by destruct (run_op op b) as [b' [out|t|]].
Qed.

(** A table with a bucket of 100 of resource 7 and one of two instances of resource 9. *)
Definition sample_table : Buckets :=
  {| slots := [Some (HAmount 100); Some (HInstances {[1; 2]})]; resources := [7; 9];
     origins := [None; None]; b_reach := reach_default |}.

Lemma sample_table_ok : table_ok sample_table.
Proof.
  split; [done..|]. intros [|[|rep]] h; cbn; intros [= <-]; [|done]. cbn. unfold in_width. lia.
Qed.

Definition sample_ops : list BucketOp :=
  [OSplit 0 40; OShare 0 (from_u128 1) (from_u128 3); OMerge 2 3; OEnter; OLend 2;
   OOpen (HInstances {[3]}) 9 None; OLeave; OMerge 1 4; OTake 2; ODrop 0].

Lemma bucket_table_conserves_witness :
  ∃ b' out, run_ops sample_ops sample_table = (b', Done out) ∧
  tally quantity 7 b' + taken_out quantity 7 out = tally quantity 7 sample_table + opened quantity 7 sample_ops ∧
  taken_out quantity 7 out = 60.
Proof.
  destruct (run_ops sample_ops sample_table) as [b' [out|t|]] eqn:E;
    [|apply (f_equal snd) in E; vm_compute in E; done..].
  assert (Hops : Forall op_ok sample_ops).
  { unfold sample_ops. repeat constructor; cbn; try (unfold in_width; lia); try done;
      apply from_u128_spec; unfold in_width; lia. }
  destruct (bucket_table_conserves quantity 7 sample_table _ sample_table_ok) as [H _].
  destruct (H sample_ops b' out Hops E) as [_ Hsum].
  exists b', out. split; [done|]. split; [exact Hsum|]. apply (f_equal snd) in E. vm_compute in E.
  injection E as <-. vm_compute. done.
Defined.

(** The complete behaviour of a proportional split. A refusal (a dead or
    unreachable rep, an instance edge, a zero denominator, a share above one)
    changes nothing. Otherwise the new bucket carries exactly the floor of
    [held * num / den], the remainder keeps the rest of [held], dust included,
    and both keep the resource and the origin; past [u32] buckets it panics. *)
Theorem split_share_correct rep num den b :
  table_ok b → limbs_ok 4 num → limbs_ok 4 den →
  match b_amount b rep with
  | Done held =>
      let n := limbs_val num in let d := limbs_val den in
      (d = 0 → b_split_share rep num den b = (b, Trapped (Trap.Math DivideByZero))) ∧
      (0 < d < n → b_split_share rep num den b = (b, Trapped Trap.ShareAboveOne)) ∧
      (0 < d → n ≤ d → room b →
         ∃ b' new, b_split_share rep num den b = (b', Done new) ∧ split_off b rep held (held * n / d) b' new) ∧
      (0 < d → n ≤ d → ¬ room b → (b_split_share rep num den b).2 = Panicked)
  | Trapped t => b_split_share rep num den b = (b, Trapped t)
  | Panicked => False
  end.
Proof.
  intros Hb Hn Hd. pose proof (limbs_val_bound _ _ Hd) as Hdb. rewrite b_split_share_eq by done.
  destruct (b_amount b rep) as [held|t|] eqn:E.
  - apply b_amount_done in E as [Es Er]. assert (Hh : in_width 128 held) by apply (ok_held b Hb _ _ Es).
    cbv zeta. split_and!.
    + intros ->. by rewrite decide_True.
    + intros Hlt. rewrite decide_False, decide_True by lia. done.
    + intros H0 Hle Hroom. rewrite !decide_False by lia.
      destruct (share_fits held num den Hh Hn Hd ltac:(lia) Hle) as (_ & _ & _ & Hs).
      pose proof (split_tail_spec rep held (held * limbs_val num / limbs_val den) b Es Er (ok_resources b Hb)) as H.
      destruct (split_tail _ _ _ b) as [b' [new|t|]]; [|lia|tauto]. exists b', new. by destruct H.
    + intros H0 Hle Hroom. rewrite !decide_False by lia.
      destruct (share_fits held num den Hh Hn Hd ltac:(lia) Hle) as (_ & _ & _ & Hs).
      pose proof (split_tail_spec rep held (held * limbs_val num / limbs_val den) b Es Er (ok_resources b Hb)) as H.
      destruct (split_tail _ _ _ b) as [b' [new|t|]]; [tauto|lia|done].
  - done.
  - unfold b_amount, b_get, b_live in E. destruct (slots b !! rep) as [[h|]|] eqn:Es; try done.
    destruct (reach_holds _ _); [|done]. cbn in E. rewrite Es in E. cbn in E. by destruct h.
Qed.

Lemma split_share_correct_witness :
  ∃ b' new, b_split_share 0 (from_u128 1) (from_u128 3) sample_table = (b', Done new) ∧
    split_off sample_table 0 100 33 b' new.
Proof.
  assert (H1 : limbs_ok 4 (from_u128 1)) by solve_limbs. assert (H3 : limbs_ok 4 (from_u128 3)) by solve_limbs.
  pose proof (split_share_correct 0%nat (from_u128 1) (from_u128 3) sample_table sample_table_ok H1 H3) as H.
  assert (E1 : limbs_val (from_u128 1) = 1) by (vm_compute; reflexivity).
  assert (E3 : limbs_val (from_u128 3) = 3) by (vm_compute; reflexivity).
  change (b_amount sample_table 0) with (Done (A := Z) 100) in H. cbv zeta beta iota in H. rewrite E1, E3 in H.
  destruct H as (_ & _ & H & _). apply H; [lia|lia|]. apply (bool_decide_unpack _). vm_compute. exact I.
Defined.

(** ** Frames *)

(** What a frame that was lent [L] may have done to a table. *)
Record within (L : gset nat) (b b' : Buckets) : Prop := {
  wi_length : (length (slots b) ≤ length (slots b'))%nat;
  wi_table : ∀ rep, (rep < length (slots b))%nat → rep ∉ L →
    slots b' !! rep = slots b !! rep ∧ resources b' !! rep = resources b !! rep ∧
    origins b' !! rep = origins b !! rep;
  wi_reach : ∃ L', lent (b_reach b') = Some L' ∧
    ∀ rep, rep ∈ L' ↔ rep ∈ L ∨ (length (slots b) ≤ rep < length (slots b'))%nat;
}.

Definition guest_op (op : BucketOp) : Prop :=
  match op with OEnter | OLeave | OLend _ => False | _ => True end.

Lemma holds_lent b L rep : lent (b_reach b) = Some L → reach_holds (b_reach b) rep = true ↔ rep ∈ L.
Proof. unfold reach_holds. intros ->. apply bool_decide_eq_true. Qed.

Lemma within_refl L b : lent (b_reach b) = Some L → within L b b.
Proof. intros HL. split; [done|done|]. exists L. split; [done|]. intros rep. split; [by left|intros [?|?]; [done|lia]]. Qed.

Lemma within_trans L L' b1 b2 b3 :
  within L b1 b2 → lent (b_reach b2) = Some L' → within L' b2 b3 → within L b1 b3.
Proof.
  intros [A1 A2 (L2 & EL & A3)] HL' [B1 B2 (L3 & EL3 & B3)]. rewrite EL in HL'. injection HL' as ->.
  split; [lia| |].
  - intros rep Hlt Hr. destruct (A2 rep Hlt Hr) as (E1 & E2 & E3).
    destruct (B2 rep) as (F1 & F2 & F3); [lia|rewrite A3; intros [?|?]; [done|lia]|]. by rewrite F1, F2, F3.
  - exists L3. split; [done|]. intros rep. rewrite B3, A3. lia || (split; intros; naive_solver lia).
Qed.

(** A table whose changes are all at reps in [L], with the reach untouched. *)
Lemma within_edit L b b' :
  lent (b_reach b) = Some L → b_reach b' = b_reach b → length (slots b') = length (slots b) →
  (∀ rep, rep ∉ L → slots b' !! rep = slots b !! rep ∧ resources b' !! rep = resources b !! rep ∧
     origins b' !! rep = origins b !! rep) → within L b b'.
Proof.
  intros HL Hr Hlen Hedit. split; [lia|by intros; apply Hedit|]. exists L. rewrite Hr, Hlen. split; [done|].
  intros rep. split; [by left|intros [?|?]; [done|lia]].
Qed.

Lemma within_push L b b1 b' held r o :
  lent (b_reach b) = Some L → table_ok b → length (slots b1) = length (slots b) →
  (∀ rep, rep ∉ L → slots b1 !! rep = slots b !! rep) →
  slots b' = slots b1 ++ [Some held] → resources b' = resources b ++ [r] → origins b' = origins b ++ [o] →
  b_reach b' = reach_lend (length (slots b)) (b_reach b) → within L b b'.
Proof.
  intros HL [T1 T2 _] Hlen Hedit E1 E2 E3 E4. split.
  - rewrite E1, length_app. lia.
  - intros rep Hlt Hr. rewrite E1, E2, E3, !lookup_app_l by lia. by rewrite Hedit.
  - exists ({[length (slots b)]} ∪ L). rewrite E4. unfold reach_lend. rewrite HL. split; [done|].
    intros rep. rewrite E1, length_app, elem_of_union, elem_of_singleton. cbn [length]. lia || (split; intros; naive_solver lia).
Qed.

Lemma within_take L b rep h :
  lent (b_reach b) = Some L → b_get b rep = Done h → within L b (with_slots (<[rep := None]>) b).
Proof.
  intros HL [_ Hr]%b_get_done. apply within_edit; [done|done|cbn; by rewrite length_insert|].
  intros rep' Hr'. cbn. rewrite list_lookup_insert_ne; [done|]. intros <-. apply Hr'. by apply (holds_lent b).
Qed.

Lemma within_split L b rep held amt :
  lent (b_reach b) = Some L → table_ok b →
  slots b !! rep = Some (Some (HAmount held)) → reach_holds (b_reach b) rep = true →
  within L b (split_tail rep held amt b).1.
Proof.
  intros HL Hb Es Er. pose proof (split_tail_spec rep held amt b Es Er (ok_resources b Hb)) as H.
  assert (Hin : rep ∈ L) by (by apply (holds_lent b)).
  destruct (split_tail rep held amt b) as [b' [new|t|]]; cbn [fst].
  - destruct H as [[S1 S2 S3 S4 S5 (x & S6 & S7) S8 S9] _].
    apply (within_push L b (with_slots (<[rep := Some (HAmount (held - amt))]>) b) b' (HAmount amt) x (origin_of b rep));
      try done; [cbn; by rewrite length_insert| |by subst new].
    intros rep' Hr'. cbn. rewrite list_lookup_insert_ne; [done|]. by intros <-.
  - destruct H as [-> _]. by apply within_refl.
  - destruct H as [-> _]. apply within_edit; [done|done|cbn; by rewrite length_insert|].
    intros rep' Hr'. cbn. rewrite list_lookup_insert_ne; [done|]. by intros <-.
Qed.

Lemma within_merge L b rep other :
  lent (b_reach b) = Some L → within L b (b_merge rep other b).1.
Proof.
  intros HL. pose proof (b_merge_spec rep other b) as H.
  assert (Hbad : ∀ b', merge_refused b rep other b' → within L b b').
  { intros b' [R1 R2 R3 R4]. apply within_edit; [done|done| |].
    - destruct R1 as [->|[_ ->]]; by rewrite ?length_insert.
    - intros rep' Hr'. rewrite R2. split; [|split; [done|]].
      + destruct R1 as [->|[Hh ->]]; [done|]. rewrite list_lookup_insert_ne; [done|].
        intros <-. apply Hr'. by apply (holds_lent b).
      + destruct R3 as [->|[Hh ->]]; [done|]. rewrite list_lookup_insert_ne; [done|].
        intros <-. apply Hr'. by apply (holds_lent b). }
  destruct (b_merge rep other b) as [b' [[]|t|]]; cbn [fst]; [|by apply Hbad..].
  destruct H as [M1 M2 M3 _ (h & a & g & _ & _ & _ & M9) M10 M11 M12].
  apply (holds_lent b L) in M2, M3; [|done..].
  apply within_edit; [done|done|by rewrite M9, !length_insert|]. intros rep' Hr'.
  assert (rep' ≠ rep ∧ rep' ≠ other) as [N1 N2] by (split; by intros ->).
  rewrite M9, M10, M11. split; [by rewrite !list_lookup_insert_ne|]. split; [done|].
  destruct (decide _); [done|]. by rewrite list_lookup_insert_ne.
Qed.

Lemma run_op_within L op b :
  lent (b_reach b) = Some L → table_ok b → op_ok op → guest_op op → within L b (run_op op b).1.
Proof.
  intros HL Hb Hop Hg. pose proof (within_refl L b HL) as Hrefl.
  destruct op as [| |rep|held x origin|rep|rep amt|rep num den|rep other|rep]; try done;
    cbn [run_op]; rewrite ?silent_bind; cbn [fst snd].
  - unfold b_open. destruct (decide _); [|done]. cbn [fst].
    eapply (within_push L b b); try done.
  - unfold mbind, M_bind, gets. rewrite b_take_eq. destruct (b_get b rep) as [h|t|] eqn:E; [|done..].
    cbn [fst]. by eapply within_take.
  - rewrite b_split_eq. destruct (b_amount b rep) as [held|t|] eqn:E; [|done..].
    destruct (resource_of b rep) as [x|t|]; [|done..]. apply b_amount_done in E as [Es Er]. by apply within_split.
  - destruct Hop as [Hn Hd]. rewrite b_split_share_eq by done.
    destruct (b_amount b rep) as [held|t|] eqn:E; [|done..]. apply b_amount_done in E as [Es Er].
    destruct (decide _); [done|]. destruct (decide _); [done|]. by apply within_split.
  - by apply within_merge.
  - unfold b_drop, mbind, M_bind, asks, mret, M_ret. destruct (b_get b rep) as [h|t|] eqn:E; [|done..].
    destruct (held_is_empty h); [|done]. rewrite b_take_eq, E. cbn [fst]. by eapply within_take.
Qed.

(** C20: frame isolation. Inside a frame that was lent the buckets [L], whatever
    sequence of bucket operations the body performs, and however it ends (an
    answer, a trap or a panic), every bucket of the table that existed before and
    is not in [L] keeps its contents, resource and origin, and the frame ends up
    reaching exactly [L] and the buckets it opened itself. *)
Theorem frame_isolation (L : gset nat) (ops : list BucketOp) (b : Buckets) :
  lent (b_reach b) = Some L → table_ok b → Forall op_ok ops → Forall guest_op ops →
  within L b (run_ops ops b).1.
Proof.
  intros HL Hb Hops Hg. revert L b HL Hb Hg. induction Hops as [|op ops Hop Hops IH]; intros L b HL Hb Hg.
  { by apply within_refl. }
  apply Forall_cons in Hg as [Hg Hgs]. pose proof (run_op_within L op b HL Hb Hop Hg) as H1.
  destruct (run_op_effect quantity 0 op b _ Hb Hop) as [T1 _].
  cbn [run_ops]. unfold mbind, M_bind. destruct (run_op op b) as [b1 [o1|t|]]; cbn [fst] in *; [|done..].
  destruct (wi_reach _ _ _ H1) as (L1 & HL1 & _). specialize (IH L1 b1 HL1 T1 Hgs).
  eapply within_trans; [done|done|]. destruct (run_ops ops b1) as [b2 [o2|t|]]; done.
Qed.

Lemma frame_isolation_witness :
  let b := b_lend 0%nat (b_enter_frame sample_table) in
  within {[0%nat]} b (run_ops [OSplit 0 40; OMerge 0 2; OTake 1] b).1.
Proof.
  cbv zeta. apply (frame_isolation {[0%nat]}).
  - vm_compute. reflexivity.
  - destruct sample_table_ok. by split.
  - repeat constructor; cbn; unfold in_width; lia.
  - by repeat constructor.
Defined.
