(* ===== verification/Supply.v ===== *)
(** * Supply and escrow ([crates/kernel/src/{supply,escrow}.rs])

    What one execution brought into and out of existence, and what it escrowed out
    and claimed in. Both are accumulators a receipt carries and the conservation
    fold weighs; the lemmas say what each recording adds and that a refusal past
    [u128] adds nothing. *)

From S2P Require Import Prelude Types Effects Modes Capability.

(** [add]: skip a zero, otherwise [entry(resource).or_insert(0)] and a checked sum. *)
Definition delta_add (e : ModeError) (into : gmap ResourceAddr Z) (resource : ResourceAddr) (amt : Z) :
    gmap ResourceAddr Z * result ModeError () :=
  if decide (amt = 0) then (into, Ok ()) else
  let slot := default 0 (into !! resource) in
  match checked_add 128 slot amt with
  | Some total => (<[resource := total]> into, Ok ())
  | None => (<[resource := slot]> into, Err e)
  end.

(** ** Supply *)

Record SupplyDelta := { sd_minted : gmap ResourceAddr Z; sd_burned : gmap ResourceAddr Z }.
Definition supply_default : SupplyDelta := {| sd_minted := ∅; sd_burned := ∅ |}.

Definition supply_is_empty (d : SupplyDelta) : bool :=
  bool_decide (sd_minted d = ∅) && bool_decide (sd_burned d = ∅).
Definition minted (d : SupplyDelta) (r : ResourceAddr) : Z := default 0 (sd_minted d !! r).
Definition burned (d : SupplyDelta) (r : ResourceAddr) : Z := default 0 (sd_burned d !! r).
Definition supply_resources (d : SupplyDelta) : list ResourceAddr :=
  set_iter (dom (sd_minted d) ∪ dom (sd_burned d) : gset Z).

Definition supply_mint (d : SupplyDelta) (r : ResourceAddr) (amt : Z) : SupplyDelta * result ModeError () :=
  let '(m, o) := delta_add SupplyOutOfBounds (sd_minted d) r amt in
  ({| sd_minted := m; sd_burned := sd_burned d |}, o).
Definition supply_burn (d : SupplyDelta) (r : ResourceAddr) (amt : Z) : SupplyDelta * result ModeError () :=
  let '(m, o) := delta_add SupplyOutOfBounds (sd_burned d) r amt in
  ({| sd_minted := sd_minted d; sd_burned := m |}, o).

(** ** Escrow *)

Record Crossed := { crossed_resource : ResourceAddr; crossed_amount : Z }.
Record EscrowDelta := { issued_at : gmap (nat * nat) Crossed; sd_claimed : gmap ResourceAddr Z }.
Definition escrow_default : EscrowDelta := {| issued_at := ∅; sd_claimed := ∅ |}.

#[global] Instance edge_ord_key : OrdKey (nat * nat).
Proof. refine {| ord_key p := [Z.of_nat p.1; Z.of_nat p.2] |}. intros [] [] [=]. f_equal; lia. Defined.

Definition escrow_is_empty (d : EscrowDelta) : bool :=
  bool_decide (dom (issued_at d) = (∅ : gset _)) && bool_decide (sd_claimed d = ∅).
Definition escrow_issued (d : EscrowDelta) (r : ResourceAddr) : Z :=
  foldl (λ total c, saturating_add 128 total (crossed_amount c)) 0
    (filter (λ c, crossed_resource c = r) (map_iter (issued_at d)).*2).
Definition escrow_claimed (d : EscrowDelta) (r : ResourceAddr) : Z := default 0 (sd_claimed d !! r).
Definition escrow_resources (d : EscrowDelta) : list ResourceAddr :=
  set_iter (list_to_set (crossed_resource <$> filter (λ c, 0 < crossed_amount c) (map_iter (issued_at d)).*2)
            ∪ dom (sd_claimed d) : gset Z).

Definition escrow_issue (d : EscrowDelta) (node output : nat) (c : Crossed) : EscrowDelta * result ModeError () :=
  match checked_add 128 (escrow_issued d (crossed_resource c)) (crossed_amount c) with
  | None => (d, Err EscrowOverflow)
  | Some _ => ({| issued_at := <[(node, output) := c]> (issued_at d); sd_claimed := sd_claimed d |}, Ok ())
  end.
Definition escrow_claim (d : EscrowDelta) (c : Crossed) : EscrowDelta * result ModeError () :=
  let '(m, o) := delta_add EscrowOverflow (sd_claimed d) (crossed_resource c) (crossed_amount c) in
  ({| issued_at := issued_at d; sd_claimed := m |}, o).
