(* ===== verification/Session.v ===== *)
(** * The kernel session ([crates/kernel/src/session.rs], [session/{value,ranges}.rs])

    What a body may do: resolve a handle through its frame to a capability, and
    through the capability to one operation on the layered store, the bucket
    table, the supply record or the escrow record. Every operation of the value
    seam and of the interval machinery is here, each written in the order the
    source checks and acts. [Conservation.v] proves that value is conserved by any
    sequence of them. *)

From S2P Require Import Prelude WideMath Types Effects Conflict Modes Hbor Cells Ledger Store Overlay Capability Outcomes Rules Values Buckets Supply.

(** ** Data *)

Definition ABSENT_REP : Z := u32_max.
Definition MAX_EVENTS_PER_TX : nat := 256.
Definition MAX_EVENT_BYTES_PER_TX : Z := 64 * 1024.
Definition MAX_EVENT_TYPES : Z := 1024.
Definition SCAN_SEEK_ENTRIES : Z := 4.
Definition SCAN_SEEK_BYTES : Z := SCAN_SEEK_ENTRIES * Z.of_nat AMOUNT_CELL_BYTES.

Record NodeEvents := { ne_bound : Z; ne_carried : Z }.
Definition node_events_default : NodeEvents := {| ne_bound := 0; ne_carried := 0 |}.

Inductive ResourceKind := Fungible | NonFungible.
#[global] Instance ResourceKind_eq_dec : EqDecision ResourceKind.
Proof. solve_decision. Defined.
Inductive Issued := Minted | Burned | Either.
Definition issued_mints (d : Issued) : bool := match d with Minted | Either => true | Burned => false end.
Definition issued_burns (d : Issued) : bool := match d with Burned | Either => true | Minted => false end.
Record IssuanceGrant := { g_resource : ResourceAddr; g_kind : ResourceKind; g_direction : Issued }.

Definition distinct_ids (ids : list Z) : option (list Z) :=
  if decide (MAX_IDS_PER_EDGE < length ids)%nat then None
  else if decide (NoDup ids) then Some ids else None.

(** A materialized page. *)
Record Scan := { scan_entries_of : list (Z * bytes); scan_covered : option bool }.

Record Departure := { d_record : SubstateKey; d_crossing : Crossing; d_validity_end_ms : Z }.
Record Arrival := {
  a_crossed : Crossed; a_claim : SubstateKey; a_crossing : Crossing; a_never : option SubstateKey;
  a_validity_end_ms : Z;
}.

(** An admitted intent with the cells whose creation spends it, and the fee a
    session burns. *)
Record Nullifier := { n_account : Address; n_key : SubstateKey }.
Record IntentRecord := { i_intent : IntentHash; i_nullifiers : list Nullifier; i_expiry_ms : Z }.
Record FeeBurn := { f_vault : SubstateKey; f_resource : ResourceAddr; f_amount : Z }.

(** What materialization and the session's builders fix for its life: the
    declaration, the capability table, what each capability's cell holds, the
    transaction, the owners it judges and applies, the intents it spends, the fee
    it burns and whether its credits are withheld. [OwnerSet] is the question it
    answers. *)
Record Materialized := {
  declared : EffectSet;
  table : list Capability;
  cell_resources : list (option ResourceAddr);
  tx : TxHash;
  judges : Address → bool;
  applies : Address → bool;
  nullifiers : list IntentRecord;
  fee : option FeeBurn;
  credits_withheld : bool;
}.

(** The per-transaction session. [fixed] is what materialization decided and no
    operation changes. *)
Record KernelSession (B : Type) := {
  fixed : Materialized;
  store : OverlayStore B;
  scans : gmap (nat * nat) Scan;
  written : gmap nat (gset Z);
  lost_floor : option (SubstateKey * Z);
  invocation : option Address;
  events : list Event;
  node_events : NodeEvents;
  events_carried : Z;
  buckets : Buckets;
  supply : SupplyDelta;
  escrow : EscrowDelta;
  crossings : gmap SubstateKey bytes;
  issuance : list IssuanceGrant;
  s_entries : list (option Rep);
  sites : list (nat * nat);
  reach : Reach;
  taken : gset nat;
}.
Arguments fixed {B} _.
Arguments store {B} _.
Arguments scans {B} _.
Arguments written {B} _.
Arguments lost_floor {B} _.
Arguments invocation {B} _.
Arguments events {B} _.
Arguments node_events {B} _.
Arguments events_carried {B} _.
Arguments buckets {B} _.
Arguments supply {B} _.
Arguments escrow {B} _.
Arguments crossings {B} _.
Arguments issuance {B} _.
Arguments s_entries {B} _.
Arguments sites {B} _.
Arguments reach {B} _.
Arguments taken {B} _.

Section session.
Context {B : Type} `{Baseline B}.
Abbreviation Session := (KernelSession B).
Implicit Types (s : Session).

Definition set_store (x : OverlayStore B) s : Session := {|
    fixed := fixed s; store := x; scans := scans s; written := written s; lost_floor := lost_floor s;
    invocation := invocation s; events := events s; node_events := node_events s;
    events_carried := events_carried s; buckets := buckets s; supply := supply s; escrow := escrow s;
    crossings := crossings s; issuance := issuance s; s_entries := s_entries s; sites := sites s;
    reach := reach s; taken := taken s |}.
Definition set_scans (x : gmap (nat * nat) Scan) s : Session := {|
    fixed := fixed s; store := store s; scans := x; written := written s; lost_floor := lost_floor s;
    invocation := invocation s; events := events s; node_events := node_events s;
    events_carried := events_carried s; buckets := buckets s; supply := supply s; escrow := escrow s;
    crossings := crossings s; issuance := issuance s; s_entries := s_entries s; sites := sites s;
    reach := reach s; taken := taken s |}.
Definition set_written (x : gmap nat (gset Z)) s : Session := {|
    fixed := fixed s; store := store s; scans := scans s; written := x; lost_floor := lost_floor s;
    invocation := invocation s; events := events s; node_events := node_events s;
    events_carried := events_carried s; buckets := buckets s; supply := supply s; escrow := escrow s;
    crossings := crossings s; issuance := issuance s; s_entries := s_entries s; sites := sites s;
    reach := reach s; taken := taken s |}.
Definition set_lost_floor (x : option (SubstateKey * Z)) s : Session := {|
    fixed := fixed s; store := store s; scans := scans s; written := written s; lost_floor := x;
    invocation := invocation s; events := events s; node_events := node_events s;
    events_carried := events_carried s; buckets := buckets s; supply := supply s; escrow := escrow s;
    crossings := crossings s; issuance := issuance s; s_entries := s_entries s; sites := sites s;
    reach := reach s; taken := taken s |}.
Definition set_invocation (x : option Address) s : Session := {|
    fixed := fixed s; store := store s; scans := scans s; written := written s;
    lost_floor := lost_floor s; invocation := x; events := events s; node_events := node_events s;
    events_carried := events_carried s; buckets := buckets s; supply := supply s; escrow := escrow s;
    crossings := crossings s; issuance := issuance s; s_entries := s_entries s; sites := sites s;
    reach := reach s; taken := taken s |}.
Definition set_events (x : list Event) s : Session := {|
    fixed := fixed s; store := store s; scans := scans s; written := written s;
    lost_floor := lost_floor s; invocation := invocation s; events := x; node_events := node_events s;
    events_carried := events_carried s; buckets := buckets s; supply := supply s; escrow := escrow s;
    crossings := crossings s; issuance := issuance s; s_entries := s_entries s; sites := sites s;
    reach := reach s; taken := taken s |}.
Definition set_node_events (x : NodeEvents) s : Session := {|
    fixed := fixed s; store := store s; scans := scans s; written := written s;
    lost_floor := lost_floor s; invocation := invocation s; events := events s; node_events := x;
    events_carried := events_carried s; buckets := buckets s; supply := supply s; escrow := escrow s;
    crossings := crossings s; issuance := issuance s; s_entries := s_entries s; sites := sites s;
    reach := reach s; taken := taken s |}.
Definition set_events_carried (x : Z) s : Session := {|
    fixed := fixed s; store := store s; scans := scans s; written := written s;
    lost_floor := lost_floor s; invocation := invocation s; events := events s;
    node_events := node_events s; events_carried := x; buckets := buckets s; supply := supply s;
    escrow := escrow s; crossings := crossings s; issuance := issuance s; s_entries := s_entries s;
    sites := sites s; reach := reach s; taken := taken s |}.
Definition set_buckets (x : Buckets) s : Session := {|
    fixed := fixed s; store := store s; scans := scans s; written := written s;
    lost_floor := lost_floor s; invocation := invocation s; events := events s;
    node_events := node_events s; events_carried := events_carried s; buckets := x; supply := supply s;
    escrow := escrow s; crossings := crossings s; issuance := issuance s; s_entries := s_entries s;
    sites := sites s; reach := reach s; taken := taken s |}.
Definition set_supply (x : SupplyDelta) s : Session := {|
    fixed := fixed s; store := store s; scans := scans s; written := written s;
    lost_floor := lost_floor s; invocation := invocation s; events := events s;
    node_events := node_events s; events_carried := events_carried s; buckets := buckets s; supply := x;
    escrow := escrow s; crossings := crossings s; issuance := issuance s; s_entries := s_entries s;
    sites := sites s; reach := reach s; taken := taken s |}.
Definition set_escrow (x : EscrowDelta) s : Session := {|
    fixed := fixed s; store := store s; scans := scans s; written := written s;
    lost_floor := lost_floor s; invocation := invocation s; events := events s;
    node_events := node_events s; events_carried := events_carried s; buckets := buckets s;
    supply := supply s; escrow := x; crossings := crossings s; issuance := issuance s;
    s_entries := s_entries s; sites := sites s; reach := reach s; taken := taken s |}.
Definition set_crossings (x : gmap SubstateKey bytes) s : Session := {|
    fixed := fixed s; store := store s; scans := scans s; written := written s;
    lost_floor := lost_floor s; invocation := invocation s; events := events s;
    node_events := node_events s; events_carried := events_carried s; buckets := buckets s;
    supply := supply s; escrow := escrow s; crossings := x; issuance := issuance s;
    s_entries := s_entries s; sites := sites s; reach := reach s; taken := taken s |}.
Definition set_issuance (x : list IssuanceGrant) s : Session := {|
    fixed := fixed s; store := store s; scans := scans s; written := written s;
    lost_floor := lost_floor s; invocation := invocation s; events := events s;
    node_events := node_events s; events_carried := events_carried s; buckets := buckets s;
    supply := supply s; escrow := escrow s; crossings := crossings s; issuance := x;
    s_entries := s_entries s; sites := sites s; reach := reach s; taken := taken s |}.
Definition set_s_entries (x : list (option Rep)) s : Session := {|
    fixed := fixed s; store := store s; scans := scans s; written := written s;
    lost_floor := lost_floor s; invocation := invocation s; events := events s;
    node_events := node_events s; events_carried := events_carried s; buckets := buckets s;
    supply := supply s; escrow := escrow s; crossings := crossings s; issuance := issuance s;
    s_entries := x; sites := sites s; reach := reach s; taken := taken s |}.
Definition set_sites (x : list (nat * nat)) s : Session := {|
    fixed := fixed s; store := store s; scans := scans s; written := written s;
    lost_floor := lost_floor s; invocation := invocation s; events := events s;
    node_events := node_events s; events_carried := events_carried s; buckets := buckets s;
    supply := supply s; escrow := escrow s; crossings := crossings s; issuance := issuance s;
    s_entries := s_entries s; sites := x; reach := reach s; taken := taken s |}.
Definition set_reach (x : Reach) s : Session := {|
    fixed := fixed s; store := store s; scans := scans s; written := written s;
    lost_floor := lost_floor s; invocation := invocation s; events := events s;
    node_events := node_events s; events_carried := events_carried s; buckets := buckets s;
    supply := supply s; escrow := escrow s; crossings := crossings s; issuance := issuance s;
    s_entries := s_entries s; sites := sites s; reach := x; taken := taken s |}.
Definition set_taken (x : gset nat) s : Session := {|
    fixed := fixed s; store := store s; scans := scans s; written := written s;
    lost_floor := lost_floor s; invocation := invocation s; events := events s;
    node_events := node_events s; events_carried := events_carried s; buckets := buckets s;
    supply := supply s; escrow := escrow s; crossings := crossings s; issuance := issuance s;
    s_entries := s_entries s; sites := sites s; reach := reach s; taken := x |}.

(** ** Lifting *)

Definition on_store {A} (f : OverlayStore B → OverlayStore B * result StoreError A) : M Session A :=
  λ s, let '(o, r) := f (store s) in (set_store o s, lift Trap.Store r).
Definition on_buckets {A} (f : M Buckets A) : M Session A :=
  λ s, let '(b, r) := f (buckets s) in (set_buckets b s, r).
Definition on_supply {A} (f : SupplyDelta → SupplyDelta * result ModeError A) : M Session A :=
  λ s, let '(d, r) := f (supply s) in (set_supply d s, lift Trap.Supply r).
Definition on_escrow {A} (f : EscrowDelta → EscrowDelta * result ModeError A) : M Session A :=
  λ s, let '(d, r) := f (escrow s) in (set_escrow d s, lift Trap.Supply r).
(** A [for] loop whose body can leave with [?]. *)
Fixpoint for_each {A} (l : list A) (f : A → M Session ()) : M Session () :=
  match l with [] => mret () | a :: l => _ ← f a; for_each l f end.

(** ** Handles *)

(** [u32::try_from(n).unwrap_or(u32::MAX)]. *)
Definition u32_or_max (n : nat) : nat := if decide (Z.of_nat n ≤ u32_max) then n else Z.to_nat u32_max.

Definition site s (rep : Rep) : outcome (list (option Rep)) :=
  p ← some_or (sites s !! rep) (Trap.UnknownHandle rep);
  if negb (reach_holds (reach s) rep) then Trapped (Trap.OutsideFrame rep) else
  let '(start, len) := p in
  if decide (start + len ≤ length (s_entries s))%nat then Done (take len (drop start (s_entries s)))
  else Trapped (Trap.UnknownHandle rep).

Definition site_entry s (rep index : Rep) : outcome (option Rep) :=
  if decide (Z.of_nat rep = ABSENT_REP) then Trapped Trap.UndeclaredBranch else
  entries ← site s rep;
  some_or (entries !! index) (Trap.IndexOutOfBounds index (length entries)).

Definition site_len s (rep : Rep) : outcome nat := entries ← site s rep; Done (u32_or_max (length entries)).
Definition site_declared s (rep index : Rep) : outcome bool :=
  e ← site_entry s rep index; Done (bool_decide (is_Some e)).

Definition rep_at s (site element : Rep) : outcome Rep :=
  e ← site_entry s site element; some_or e Trap.UndeclaredBranch.
Definition capability_at s (site element : Rep) : outcome Capability :=
  rep ← rep_at s site element; some_or (table (fixed s) !! rep) (Trap.UnknownHandle rep).

Definition resource_at s (rep : Rep) : option ResourceAddr := default None (cell_resources (fixed s) !! rep).
Definition cell_resource s (site element : Rep) : option ResourceAddr :=
  match site_entry s site element with Done (Some rep) => resource_at s rep | _ => None end.
Definition value_of s (site element : Rep) : outcome ResourceAddr :=
  some_or (cell_resource s site element) (Trap.BytesAsValue site element).

Definition acting s (site element : Rep) (attempted : Op.Op) : outcome Capability :=
  held ← capability_at s site element;
  if negb (judges (fixed s) (cap_owner held)) then Trapped (Trap.OutsideScope site element held) else
  if grants held attempted then Done held else Trapped (Trap.Ungranted site element held attempted).
Definition acting_key s (site element : Rep) (attempted : Op.Op) : outcome SubstateKey :=
  held ← acting s site element attempted;
  some_or (cap_key held) (Trap.Ungranted site element held attempted).
Definition settling (site element : Rep) (held : Capability) (attempted : Op.Op) : outcome Settlement :=
  some_or (settlement held) (Trap.Ungranted site element held attempted).

Definition judge_credit s (site element funds : Rep) : outcome () :=
  cell ← value_of s site element;
  carried ← resource_of (buckets s) funds;
  if decide (cell = carried) then Done () else Trapped (Trap.WrongResource cell carried).

(** ** Frames *)

Definition bind_site (entries : list (option Rep)) : M Session Rep := λ s,
  let rep := u32_or_max (length (sites s)) in
  let start := u32_or_max (length (s_entries s)) in
  let len := u32_or_max (length entries) in
  (set_reach (reach_lend rep (reach s))
     (set_sites (sites s ++ [(start, len)]) (set_s_entries (s_entries s ++ entries) s)), Done rep).
Definition lend_bucket (rep : Rep) : M Session () := modify (λ s, set_buckets (b_lend rep (buckets s)) s).
Definition enter_invocation (e : Address) (event_bytes : Z) : M Session () := modify (λ s,
  set_buckets (b_enter_frame (buckets s)) (set_reach (reach_enter (reach s)) (set_issuance []
    (set_node_events {| ne_bound := event_bytes; ne_carried := 0 |} (set_invocation (Some e) s))))).
Definition leave_invocation : M Session () := modify (λ s,
  set_buckets (b_leave_frame (buckets s)) (set_reach (reach_leave (reach s)) (set_issuance []
    (set_invocation None s)))).
Definition grant_issuance (grants : list IssuanceGrant) : M Session () := modify (set_issuance grants).

Definition emit (ty : Z) (body : bytes) : M Session () :=
  who ← asks (λ s, some_or (invocation s) Trap.NoInvocation);
  if decide (MAX_EVENT_TYPES ≤ ty) then trap (Trap.EventTypeOutOfRange ty) else
  if decide (MAX_EVENT_PAYLOAD_BYTES < length body)%nat then trap (Trap.EventPayloadTooLarge (length body)) else
  count ← gets (λ s, length (events s));
  if decide (MAX_EVENTS_PER_TX ≤ count)%nat then trap Trap.TooManyEvents else
  let kept := saturating_add 64 EVENT_FRAME_BYTES (Z.of_nat (length body)) in
  node ← gets node_events;
  let carried := saturating_add 64 (ne_carried node) kept in
  if decide (ne_bound node < carried) then trap (Trap.EventBytesExceeded (ne_bound node)) else
  sofar ← gets events_carried;
  let total := saturating_add 64 sofar kept in
  if decide (MAX_EVENT_BYTES_PER_TX < total) then trap (Trap.EventBytesExceeded MAX_EVENT_BYTES_PER_TX) else
  modify (λ s, set_events (events s ++ [{| emitter := who; event_type := ty; payload := body |}])
    (set_events_carried total (set_node_events {| ne_bound := ne_bound node; ne_carried := carried |} s))).

(** ** Buckets as a body names them *)

Definition bucket_take (rep : Rep) (amt : Z) : M Session Rep := on_buckets (b_split rep amt).
Definition bucket_split (rep : Rep) (num den : U256) : M Session Rep := on_buckets (b_split_share rep num den).
Definition bucket_put (rep other : Rep) : M Session () := on_buckets (b_merge rep other).
Definition drop_bucket (rep : Rep) : M Session () := on_buckets (b_drop rep).

(** ** Byte cells *)

Definition cell_get (site element : Rep) : M Session bytes :=
  key ← asks (λ s, acting_key s site element Op.Read);
  held ← on_store (λ o, read o key);
  mret (default [] held).

Definition check_value_len (len : nat) (w : Z) : outcome () :=
  if decide (w < Z.of_nat len) then Trapped (Trap.CellValueTooLarge len w) else Done ().

Definition write_cell_set (site element : Rep) (value : bytes) : M Session () :=
  key ← asks (λ s, acting_key s site element Op.Write);
  w ← gets (λ s, width_of (declared (fixed s)) (Point key));
  _ ← asks (λ _, check_value_len (length value) w);
  on_store (λ o, write o key value).
Definition write_cell_clear (site element : Rep) : M Session () :=
  key ← asks (λ s, acting_key s site element Op.Clear);
  _ ← on_store (λ o, remove o key); mret ().

(** ** Value cells *)

(** A cell's contents as an amount, the transaction's own queued movements
    folded in. *)
Definition session_amount_cell (key : SubstateKey) : M Session Z :=
  held ← on_store (λ o, read o key);
  let cell := default [] held in
  committed ← asks (λ _, if decide (cell = []) then Done 0
                         else lift (λ _, Trap.BadAmountCell key) (decode_amount cell));
  asks (λ s, lift Trap.Store (with_queued (store s) key committed)).
Definition amount_cell_balance (site element : Rep) : M Session Z :=
  key ← asks (λ s, acting_key s site element Op.Balance);
  session_amount_cell key.

Definition cell_take (site element : Rep) (amt : Z) : M Session Rep :=
  held ← asks (λ s, acting s site element Op.Take);
  resource ← asks (λ s, value_of s site element);
  settles ← asks (λ _, settling site element held Op.Take);
  key ← match settles with
        | Immediate key =>
            a ← session_amount_cell key;
            _ ← asks (λ _, some_or (checked_sub a amt) Trap.CellUnderflow); mret key
        | Queued key => mret key
        end;
  _ ← on_store (λ o, queue_delta o key (Sub amt));
  on_buckets (b_open (HAmount amt) resource (Some key)).

Definition cell_put (site element funds : Rep) : M Session () :=
  held ← asks (λ s, acting s site element Op.Put);
  _ ← asks (λ s, judge_credit s site element funds);
  amt ← asks (λ s, b_amount (buckets s) funds);
  settles ← asks (λ _, settling site element held Op.Put);
  key ← match settles with
        | Immediate key =>
            a ← session_amount_cell key;
            match checked_add 128 a amt with
            | Some _ => mret key
            | None => _ ← modify (set_lost_floor (Some (key, amt))); trap (Trap.CellOverflow key amt)
            end
        | Queued key => mret key
        end;
  _ ← on_store (λ o, queue_delta o key (Add amt));
  _ ← on_buckets (b_take funds); mret ().

Definition take_lost_floor : M Session (option (SubstateKey * Z)) := λ s,
  (set_lost_floor None s, Done (lost_floor s)).

(** ** Reservations *)

Definition reserved s (site element : Rep) (attempted : Op.Op) : outcome Z :=
  held ← acting s site element attempted;
  match held with
  | Cap.Reserve key amt =>
      match held_reservation (store s) key (tx (fixed s)) with
      | Some _ => Done amt
      | None => Trapped Trap.ReservationMissing
      end
  | _ => Trapped Trap.ReservationMissing
  end.
Definition reserve_amount (site element : Rep) : M Session Z :=
  asks (λ s, reserved s site element Op.ReservedAmount).

(** The cell the capability at a rep moves value through. *)
Definition cell_at s (rep : Rep) : option SubstateKey :=
  match table (fixed s) !! rep with
  | Some (Cap.Amount key _) | Some (Cap.Delta key _) | Some (Cap.Reserve key _) => Some key
  | _ => None
  end.

Definition reserve_take (site element : Rep) : M Session Rep :=
  amt ← asks (λ s, reserved s site element Op.TakeReserved);
  resource ← asks (λ s, value_of s site element);
  rep ← asks (λ s, rep_at s site element);
  already ← gets taken;
  if decide (rep ∈ already) then trap Trap.ReservationTaken else
  _ ← modify (set_taken ({[rep]} ∪ already));
  origin ← gets (λ s, cell_at s rep);
  on_buckets (b_open (HAmount amt) resource origin).

(** ** Issuance *)

Definition issued s (grant : Rep) (kind : ResourceKind) : outcome ResourceAddr :=
  match issuance s !! grant with
  | Some held =>
      if issued_mints (g_direction held) then
        if decide (g_kind held ≠ kind) then Trapped Trap.WrongIssuanceKind else Done (g_resource held)
      else Trapped Trap.IssuanceUngranted
  | None => Trapped Trap.IssuanceUngranted
  end.

Definition mint (grant : Rep) (amt : Z) : M Session Rep :=
  resource ← asks (λ s, issued s grant Fungible);
  _ ← on_supply (λ d, supply_mint d resource amt);
  on_buckets (b_open (HAmount amt) resource None).

Definition mint_instances (grant : Rep) (ids : list Z) : M Session Rep :=
  resource ← asks (λ s, issued s grant NonFungible);
  named ← asks (λ _, some_or (distinct_ids ids) Trap.MalformedIdSet);
  let instances : gset Z := list_to_set named in
  _ ← on_supply (λ d, supply_mint d resource (Z.of_nat (size instances)));
  on_buckets (b_open (HInstances instances) resource None).

Definition burn (funds : Rep) : M Session () :=
  carried ← asks (λ s, resource_of (buckets s) funds);
  resource ← asks (λ s,
    some_or (g_resource <$> head (filter (λ g, g_resource g = carried ∧ issued_burns (g_direction g) = true)
                                    (issuance s))) Trap.IssuanceUngranted);
  held ← asks (λ s, b_get (buckets s) funds);
  _ ← on_supply (λ d, supply_burn d resource (quantity held));
  _ ← on_buckets (b_take funds); mret ().

(** ** Crossings *)

Definition record_crossing (key : SubstateKey) (value : bytes) : M Session () := λ s,
  let before := crossings s !! key in
  (set_crossings (<[key := value]> (crossings s)) s,
   match before with Some _ => Trapped (Trap.CrossingKeyRepeated key) | None => Done () end).

Definition escrow_out (node output funds : Rep) (departure : Departure) : M Session Crossed :=
  resource ← asks (λ s, resource_of (buckets s) funds);
  amt ← asks (λ s, b_amount (buckets s) funds);
  origin ← gets (λ s, origin_of (buckets s) funds);
  terms ← asks (λ _, match crossing_kind (d_crossing departure) with
                     | Owed => Done TermsOwed
                     | Escrowed => credit ← some_or origin (Trap.CrossingWithoutRecourse (d_record departure));
                                   Done (TermsEscrowed credit)
                     end);
  _ ← on_buckets (b_take funds);
  let crossed := {| crossed_resource := resource; crossed_amount := amt |} in
  _ ← on_escrow (λ d, escrow_issue d node output crossed);
  t ← gets (λ s, tx (fixed s));
  value ← asks (λ _, expect (cell_to_bytes crossing_cell_codec
    (crossing_cell (crossing_id (d_crossing departure)) t resource amt (d_validity_end_ms departure) terms)));
  _ ← record_crossing (d_record departure) value;
  mret crossed.

Definition escrow_in (arrival : Arrival) : M Session Rep :=
  if decide (crossing_kind (a_crossing arrival) = Owed) then trap (Trap.OwedArrival (a_claim arrival)) else
  _ ← on_escrow (λ d, escrow_claim d (a_crossed arrival));
  t ← gets (λ s, tx (fixed s));
  value ← asks (λ _, expect (cell_to_bytes crossing_answer_codec
    (crossing_answer (crossing_id (a_crossing arrival)) t Taken (a_validity_end_ms arrival))));
  _ ← record_crossing (a_claim arrival) value;
  on_buckets (b_open (HAmount (crossed_amount (a_crossed arrival))) (crossed_resource (a_crossed arrival)) None).

(** ** Intervals *)

Definition acting_interval s (site element : Rep) (attempted : Op.Op) : outcome Interval :=
  held ← acting s site element attempted;
  some_or (cap_interval held) (Trap.Ungranted site element held attempted).
Definition interval s (site element : Rep) : outcome Interval := acting_interval s site element Op.ReadEntries.
Definition write_interval s (site element : Rep) : outcome Interval := acting_interval s site element Op.WriteEntries.
Definition filing_interval s (site element : Rep) : outcome Interval := acting_interval s site element Op.FileInstances.
Definition taking_interval s (site element : Rep) : outcome Interval := acting_interval s site element Op.TakeInstances.

Definition walk_floor (lo hi cap w : Z) : Z :=
  if decide (cap = 0 ∨ hi < lo) then 0
  else saturating_add 64 SCAN_SEEK_BYTES (saturating_mul 64 (saturating_add 64 cap 1) (entry_leaf_bytes w)).
Definition probe_floor (keys w : Z) : Z := saturating_mul 64 keys (saturating_add 64 SCAN_SEEK_BYTES w).
Definition take_floor s (site element : Rep) (keys : Z) : outcome Z :=
  i ← taking_interval s site element; Done (probe_floor keys (iv_width i)).
Definition put_floor s (site element funds : Rep) : outcome Z :=
  i ← filing_interval s site element;
  let keys := match b_get (buckets s) funds with Done (HInstances ids) => Z.of_nat (size ids) | _ => 0 end in
  Done (probe_floor keys (iv_width i)).
Definition scan_floor s (site element : Rep) : outcome Z :=
  match scans s !! (site, element) with
  | Some _ => Done 0
  | None => i ← interval s site element; Done (walk_floor (iv_lo i) (iv_hi i) (iv_cap i) (iv_width i))
  end.

Definition lift_entries (ow : Address) (c : CollectionId) (lo hi cap : Z) : M Session (list (Z * bytes)) :=
  on_store (λ o, scan_entries o ow c lo hi cap).
Definition probe (ow : Address) (c : CollectionId) (order : Z) : M Session bool :=
  found ← lift_entries ow c order order 1; mret (negb (bool_decide (found = []))).

Definition scan (site element : Rep) : M Session () :=
  page ← gets (λ s, scans s !! (site, element));
  match page with
  | Some _ => mret ()
  | None =>
      i ← asks (λ s, interval s site element);
      found ← lift_entries (iv_owner i) (iv_collection i) (iv_lo i) (iv_hi i) (iv_cap i);
      modify (λ s, set_scans (<[(site, element) := {| scan_entries_of := found; scan_covered := None |}]> (scans s)) s)
  end.
(** [self.ranges.scans[&(site, element)]], which panics on a missing page. *)
Definition page s (site element : Rep) : outcome Scan :=
  match scans s !! (site, element) with Some p => Done p | None => Panicked end.

Definition charge_write (site element : Rep) (order cap : Z) : M Session () :=
  rep ← asks (λ s, rep_at s site element);
  w ← gets (λ s, default ∅ (written s !! rep));
  _ ← modify (λ s, set_written (<[rep := w]> (written s)) s);
  if decide (order ∉ w ∧ cap ≤ Z.of_nat (size w)) then trap (Trap.WriteCapExceeded cap order) else
  modify (λ s, set_written (<[rep := {[order]} ∪ w]> (written s)) s).

(** Whether a materialized page is of the collection a write touched. *)
Definition stale s (ow : Address) (c : CollectionId) (key : nat * nat) : bool :=
  match interval s key.1 key.2 with
  | Done i => bool_decide (iv_owner i = ow) && bool_decide (iv_collection i = c)
  | _ => false
  end.
Definition invalidate (ow : Address) (c : CollectionId) : M Session () :=
  modify (λ s, set_scans (filter (λ p, stale s ow c p.1 = false) (scans s)) s).

Definition indexed {A} (l : list A) (index : Rep) : outcome A :=
  some_or (l !! index) (Trap.IndexOutOfBounds index (length l)).

Definition range_count (site element : Rep) : M Session nat :=
  _ ← scan site element;
  p ← asks (λ s, page s site element); mret (u32_or_max (length (scan_entries_of p))).

Definition range_covered (site element : Rep) : M Session bool :=
  _ ← scan site element;
  i ← asks (λ s, interval s site element);
  p ← asks (λ s, page s site element);
  match scan_covered p with
  | Some covered => mret covered
  | None =>
      let short := bool_decide (Z.of_nat (length (scan_entries_of p)) < iv_cap i) in
      let resume := if short then None else
                    match last (scan_entries_of p) with
                    | Some (x, _) => if decide (x = iv_hi i) then None else Some (x + 1)
                    | None => Some (iv_lo i)
                    end in
      covered ← match resume with
                | None => mret true
                | Some from =>
                    if decide (iv_cap i = 0) then mret false else
                    found ← lift_entries (iv_owner i) (iv_collection i) from (iv_hi i) 1;
                    mret (bool_decide (found = []))
                end;
      _ ← modify (λ s, set_scans (alter (λ q, {| scan_entries_of := scan_entries_of q; scan_covered := Some covered |})
                                    (site, element) (scans s)) s);
      mret covered
  end.

Definition range_order (site element index : Rep) : M Session Z :=
  _ ← scan site element;
  p ← asks (λ s, page s site element);
  e ← asks (λ _, indexed (scan_entries_of p) index); mret e.1.
Definition range_entry (site element index : Rep) : M Session bytes :=
  _ ← scan site element;
  p ← asks (λ s, page s site element);
  e ← asks (λ _, indexed (scan_entries_of p) index); mret e.2.

Definition range_set (site element index : Rep) (value : bytes) : M Session () :=
  i ← asks (λ s, write_interval s site element);
  _ ← asks (λ _, check_value_len (length value) (iv_width i));
  order ← range_order site element index;
  _ ← charge_write site element order (iv_cap i);
  _ ← on_store (λ o, entry_write o (iv_owner i) (iv_collection i) order value);
  invalidate (iv_owner i) (iv_collection i).
Definition range_insert (site element : Rep) (order : Z) (value : bytes) : M Session () :=
  i ← asks (λ s, write_interval s site element);
  _ ← asks (λ _, check_value_len (length value) (iv_width i));
  if negb (interval_holds i order) then trap Trap.OrderOutsideInterval else
  _ ← charge_write site element order (iv_cap i);
  _ ← on_store (λ o, entry_write o (iv_owner i) (iv_collection i) order value);
  invalidate (iv_owner i) (iv_collection i).
Definition range_remove (site element index : Rep) : M Session () :=
  i ← asks (λ s, write_interval s site element);
  order ← range_order site element index;
  _ ← charge_write site element order (iv_cap i);
  _ ← on_store (λ o, entry_remove o (iv_owner i) (iv_collection i) order);
  invalidate (iv_owner i) (iv_collection i).

(** The checks [range_take] makes of one named instance. *)
Definition take_one (site element : Rep) (i : Interval) (order : Z) : M Session () :=
  if negb (interval_holds i order) then trap Trap.OrderOutsideInterval else
  held ← probe (iv_owner i) (iv_collection i) order;
  if negb held then trap (Trap.InstanceNotHeld order) else
  charge_write site element order (iv_cap i).
Definition range_take (site element : Rep) (ids : list Z) : M Session Rep :=
  i ← asks (λ s, taking_interval s site element);
  resource ← asks (λ s, value_of s site element);
  ids ← asks (λ _, some_or (distinct_ids ids) Trap.MalformedIdSet);
  _ ← for_each ids (take_one site element i);
  let out : gset Z := list_to_set ids in
  _ ← for_each (set_iter out)
        (λ order, _ ← on_store (λ o, entry_remove o (iv_owner i) (iv_collection i) order); mret ());
  _ ← invalidate (iv_owner i) (iv_collection i);
  on_buckets (b_open (HInstances out) resource None).

Definition range_put (site element funds : Rep) (value : bytes) : M Session () :=
  i ← asks (λ s, filing_interval s site element);
  _ ← asks (λ _, check_value_len (length value) (iv_width i));
  _ ← asks (λ s, judge_credit s site element funds);
  held ← asks (λ s, b_get (buckets s) funds);
  match held with
  | HAmount _ => trap Trap.WrongEdgeKind
  | HInstances ids =>
      _ ← for_each (set_iter ids)
            (λ order, if negb (interval_holds i order) then trap Trap.OrderOutsideInterval else mret ());
      _ ← for_each (set_iter ids) (λ order, charge_write site element order (iv_cap i));
      _ ← for_each (set_iter ids)
            (λ order, there ← probe (iv_owner i) (iv_collection i) order;
                      if there : bool then trap (Trap.InstanceHeldTwice order) else mret ());
      _ ← for_each (set_iter ids)
            (λ order, on_store (λ o, entry_write o (iv_owner i) (iv_collection i) order value));
      _ ← invalidate (iv_owner i) (iv_collection i);
      _ ← on_buckets (b_take funds); mret ()
  end.

End session.
