(* ===== verification/Grants.v ===== *)
(** * Resources and what they grant ([crates/effects/src/resource.rs])

    A resource's address commits to its issuer, its kind and the rules it grants.
    The granted set is written down over derivations and resolved against the
    instance that issues the resource; the file has both forms, the resolution, the
    derivations the address is made by, and the questions a granted entry asks. *)

From S2P Require Import Prelude WideMath Types Effects Conflict Modes Hbor Cells Ledger Store Overlay Capability Outcomes Rules Values Buckets Supply Session.

(** A refusal, or a panic. *)
Inductive halt (E : Type) := Refuses (e : E) | Panics.
#[global] Arguments Refuses {E} e.
#[global] Arguments Panics {E}.
Definition expects {E A} (o : option A) : result (halt E) A := ok_or o Panics.
Definition refuse {E A} (r : result E A) : result (halt E) A := match r with Ok a => Ok a | Err e => Err (Refuses e) end.

(** ** Behaviours *)

Definition kind_tag (k : ResourceKind) : byte := match k with Fungible => x00 | NonFungible => x01 end.
Inductive ReachedCell := HaltFlag | ValueCell.
Inductive GrantedBehaviour := Mint | Burn | Withdraw | Deposit | Halt | Recall.
#[global] Instance GrantedBehaviour_eq_dec : EqDecision GrantedBehaviour.
Proof. solve_decision. Defined.
Definition behaviour_all : list GrantedBehaviour := [Mint; Burn; Withdraw; Deposit; Halt; Recall].
Definition behaviour_rank (b : GrantedBehaviour) : Z :=
  match b with Mint => 0 | Burn => 1 | Withdraw => 2 | Deposit => 3 | Halt => 4 | Recall => 5 end.
Definition earned_by (m : Moves) : list GrantedBehaviour :=
  match m with In => [Deposit] | Out => [Withdraw] | Both => [Withdraw; Deposit] end.
Definition asks_about_the_actor (b : GrantedBehaviour) : bool :=
  match b with Mint | Burn | Halt | Recall => true | Withdraw | Deposit => false end.
Definition reaches (b : GrantedBehaviour) : option ReachedCell :=
  match b with Halt => Some HaltFlag | Recall => Some ValueCell | _ => None end.
Definition restricts_movement (b : GrantedBehaviour) : bool :=
  match b with Withdraw | Deposit | Halt => true | Mint | Burn | Recall => false end.

Module GrantsErr.
Inductive GrantsResolveError :=
  | NoSuchField (slot : Z)
  | NotAClaim (slot : Z)
  | PastTheCaps
  | BadgeChainTooDeep
  | WrongQuestion (b : GrantedBehaviour)
  | RestatesAbsence (b : GrantedBehaviour).
End GrantsErr.
Abbreviation GrantsResolveError := GrantsErr.GrantsResolveError.

#[global] Instance Holding_eq_dec : EqDecision Holding.
Proof. solve_decision. Defined.
#[global] Instance SealedLeaf_eq_dec : EqDecision SealedLeaf.
Proof. solve_decision. Defined.
Definition demanded (b : GrantedBehaviour) (entry : RuleBytes) (speaking_for : option Claim) : result DecodeError (option StoredRule) :=
  rule ← rule_decode entry;
  let discharged := match speaking_for, claims_only rule with
                    | Some own, Some claims => satisfied_by claims [own]
                    | _, _ => false
                    end in
  Ok (if asks_about_the_actor b && discharged then None else Some rule).
(** The algebra's two constants are told apart from every other rule by shape. *)
Definition is_always {L} (r : Rule L) : bool := match r with CountOf 0 [] => true | _ => false end.
Definition is_never {L} (r : Rule L) : bool := match r with CountOf 1 [] => true | _ => false end.
Definition behaviour_refuses (b : GrantedBehaviour) (rule : StoredRule) : option GrantsResolveError :=
  let actor := asks_about_the_actor b in
  if actor && existsb (λ leaf, match leaf with Sealed.Claimed _ => false | _ => true end) (leaves rule)
  then Some (GrantsErr.WrongQuestion b)
  else if (if actor then is_never rule else is_always rule) then Some (GrantsErr.RestatesAbsence b) else None.

(** ** The granted set *)

Definition ResourceGrants : Type := list (GrantedBehaviour * RuleBytes).
(** The list is kept ascending, where a binary search finds what a walk finds. *)
Fixpoint grants_get {R} (g : list (GrantedBehaviour * R)) (b : GrantedBehaviour) : option R :=
  match g with
  | [] => None
  | (b', r) :: g => if decide (b' = b) then Some r else grants_get g b
  end.
Fixpoint grants_set {R} (g : list (GrantedBehaviour * R)) (b : GrantedBehaviour) (r : R) : list (GrantedBehaviour * R) :=
  match g with
  | [] => [(b, r)]
  | (b', r') :: g =>
      if decide (b' = b) then (b, r) :: g
      else if decide (behaviour_rank b < behaviour_rank b') then (b, r) :: (b', r') :: g
      else (b', r') :: grants_set g b r
  end.
Definition grants_restrict (g : ResourceGrants) : bool := existsb (λ p, restricts_movement p.1) g.
Definition grants_class (g : ResourceGrants) : AddressClass := if grants_restrict g then Restricted else Resource.

Definition MAX_GRANTS : nat := length behaviour_all.
Fixpoint ascending (g : list GrantedBehaviour) : bool :=
  match g with
  | b :: (b' :: _) as g' => bool_decide (behaviour_rank b < behaviour_rank b') && ascending g'
  | _ => true
  end.
Definition behaviour : Codec GrantedBehaviour :=
  enum (unit_enum [(x00, Mint); (x01, Burn); (x02, Withdraw); (x03, Deposit); (x04, Halt); (x05, Recall)]).
Definition ascending_behaviours (g : ResourceGrants) : result DecodeError ResourceGrants :=
  if ascending g.*1 then Ok g else Err DecErr.FailedValidation.
Definition resource_grants : Codec ResourceGrants :=
  carried (λ g, g) ascending_behaviours (capped_vec MAX_GRANTS (both (nested behaviour) (nested rule_bytes))).

(** ** Declared grants *)

Inductive GrantSubject :=
  | SelfAddr
  | SelfBadge (mark : bytes) (kind : ResourceKind) (rules : list (GrantedBehaviour * Rule GrantSubject))
  | SelfInstance (mark : bytes) (id : Z) (rules : list (GrantedBehaviour * Rule GrantSubject))
  | ConfigField (slot : Z).
Definition GrantRuleExpr : Type := Rule GrantSubject.
Definition GrantsExpr : Type := list (GrantedBehaviour * GrantRuleExpr).

Definition DOMAIN_RESOURCE_GRANTS : bytes := (* hyperscale-vm/granted-rules *)
  [x68; x79; x70; x65; x72; x73; x63; x61; x6c; x65; x2d; x76; x6d; x2f; x67; x72; x61; x6e; x74; x65; x64; x2d; x72; x75; x6c; x65; x73].

Section grants.
Context (hash : bytes → list bytes → Z).

Definition commitment (g : ResourceGrants) : option Z :=
  match to_vec resource_grants g with Ok b => Some (hash DOMAIN_RESOURCE_GRANTS [b]) | Err _ => None end.
Definition granting_resource_address (namespace : Address) (kind : ResourceKind) (rules : ResourceGrants) (material : list bytes) :
    option ResourceAddr :=
  c ← commitment rules;
  Some (address_new (digest_body (hash DOMAIN_RESOURCE (address_to_bytes namespace :: [kind_tag kind] :: be_bytes 32 c :: material)))
          (grants_class rules)).
Definition resource_address (namespace : Address) (kind : ResourceKind) (material : list bytes) : option ResourceAddr :=
  granting_resource_address namespace kind [] material.
Definition granting_issued_resource (instance : Address) (kind : ResourceKind) (rules : ResourceGrants) (mark : bytes) : option ResourceAddr :=
  material ← canonical_bytes (Val.Bytes mark);
  granting_resource_address instance kind rules [material].
Definition issued_resource (instance : Address) (kind : ResourceKind) (mark : bytes) : option ResourceAddr :=
  granting_issued_resource instance kind [] mark.

(** ** Resolution *)

Definition config_claim (config : list Value) (slot : Z) : result (halt GrantsResolveError) Claim :=
  value ← refuse (ok_or (config !! Z.to_nat slot) (GrantsErr.NoSuchField slot));
  refuse (ok_or (claim_of_value value) (GrantsErr.NotAClaim slot)).

Section rules.
Context (instance : Address) (config : list Value).
(** The badge a leaf names, at the address its own rules derive. *)
Context (self_badge : ResourceKind → bytes → GrantsExpr → result (halt GrantsResolveError) ResourceAddr).

Definition resolve_claim (claim : GrantSubject) : result (halt GrantsResolveError) Claim :=
  match claim with
  | SelfAddr => expects (claim_of_address instance)
  | SelfBadge mark kind rules => badge ← self_badge kind mark rules; Ok (claim_of_subject badge)
  | SelfInstance mark id rules => badge ← self_badge NonFungible mark rules; Ok (claim_of_instance badge id)
  | ConfigField slot => config_claim config slot
  end.
Definition resolve_holding (claim : GrantSubject) : result (halt GrantsResolveError) StoredRule :=
  match claim with
  | SelfAddr => own ← expects (claim_of_address instance); Ok (stored_claim own)
  | SelfBadge mark kind rules =>
      badge ← self_badge kind mark rules;
      Ok (stored_held badge match kind with Fungible => Balance | NonFungible => AnyInstance end)
  | SelfInstance mark id rules => badge ← self_badge NonFungible mark rules; Ok (stored_held badge (Instance id))
  | ConfigField slot =>
      named ← config_claim config slot;
      match claim_badge named with
      | None => Ok (stored_claim named)
      | Some badge =>
          match Rules.instance named with
          | None => Ok (CountOf 1 [stored_held badge Balance; stored_held badge AnyInstance])
          | Some id => Ok (stored_held badge (Instance id))
          end
      end
  end.
Fixpoint resolve_rule (b : GrantedBehaviour) (rule : GrantRuleExpr) : result (halt GrantsResolveError) StoredRule :=
  match rule with
  | Require claim =>
      if asks_about_the_actor b then c ← resolve_claim claim; Ok (stored_claim c)
      else resolve_holding claim
  | CountOf count rules =>
      rules ← (fix each (rs : list GrantRuleExpr) : result (halt GrantsResolveError) (list StoredRule) :=
                 match rs with
                 | [] => Ok []
                 | r :: rs => r ← resolve_rule b r; rs ← each rs; Ok (r :: rs)
                 end) rules;
      Ok (CountOf count rules)
  end.
Definition resolve_entry (b : GrantedBehaviour) (entry : GrantRuleExpr) : result (halt GrantsResolveError) RuleBytes :=
  stored ← resolve_rule b entry;
  match behaviour_refuses b stored with
  | Some refusal => Err (Refuses refusal)
  | None =>
      if within_caps stored 0 then
        match rule_try_from stored with Ok b => Ok b | Err _ => Err (Refuses GrantsErr.PastTheCaps) end
      else Err (Refuses GrantsErr.PastTheCaps)
  end.
Fixpoint resolve_entries (entries : GrantsExpr) (resolved : ResourceGrants) : result (halt GrantsResolveError) ResourceGrants :=
  match entries with
  | [] => Ok resolved
  | (b, entry) :: entries =>
      sealed ← resolve_entry b entry;
      resolve_entries entries (grants_set resolved b sealed)
  end.
End rules.

(** The badge chain, [links] long: a resource's own rules are the first link and
    may name a badge, whose rules are the second and may not. *)
Fixpoint self_badge (links : nat) (instance : Address) (config : list Value) (kind : ResourceKind) (mark : bytes) (rules : GrantsExpr) :
    result (halt GrantsResolveError) ResourceAddr :=
  match links with
  | O => Err (Refuses GrantsErr.BadgeChainTooDeep)
  | S links =>
      resolved ← resolve_entries instance config (self_badge links instance config) rules [];
      expects (granting_issued_resource instance kind resolved mark)
  end.
Definition grants_resolve (g : GrantsExpr) (instance : Address) (config : list Value) : result (halt GrantsResolveError) ResourceGrants :=
  resolve_entries instance config (self_badge 1 instance config) g [].

(** ** Presented records and the cells a resource has *)

Record ResourceMeta := { rm_namespace : Address; rm_kind : ResourceKind; rm_material : list bytes; rm_rules : ResourceGrants }.
Definition meta_address (m : ResourceMeta) : option ResourceAddr :=
  granting_resource_address (rm_namespace m) (rm_kind m) (rm_rules m) (rm_material m).
Definition protocol_resource : option ResourceAddr := resource_address (genesis_publisher hash) Fungible [].
Definition VAULT : SlotId := 1.
Definition CONFIG : SlotId := 2.
Definition AUTH : SlotId := 3.
Definition RESOURCE : SlotId := 4.
Definition NF_VAULT : SlotId := 5.
Definition INSTANCE : SlotId := 6.
Definition HALT : SlotId := 7.
Definition vault_cell (holder : Address) (resource : ResourceAddr) : option SubstateKey :=
  m ← canonical_bytes (Val.Address resource); Some (child_key hash holder VAULT [m]).
Definition resource_record_key (issuer resource : Address) : option SubstateKey :=
  m ← canonical_bytes (Val.Address resource); Some (child_key hash issuer RESOURCE [m]).
Definition holdings_collection (holder resource : Address) : option CollectionId :=
  m ← canonical_bytes (Val.Address resource); Some (collection_id hash holder NF_VAULT [m]).
Definition instance_data_key (issuer resource : Address) (id : Z) : option SubstateKey :=
  m ← canonical_bytes (Val.Address resource);
  i ← canonical_bytes (Val.U64 id);
  Some (child_key hash issuer INSTANCE [m; i]).
End grants.

(** The record cell. *)
Module Record_.
Inductive ResourceRecord := Fungible (display_digits : Z) | NonFungible.
End Record_.
Abbreviation ResourceRecord := Record_.ResourceRecord.
Definition record_kind (r : ResourceRecord) : ResourceKind :=
  match r with Record_.Fungible _ => Fungible | Record_.NonFungible => NonFungible end.
Definition record_variants : list (Variant ResourceRecord) := [
  {| tag := x00; body := nested (uint 1); construct := Record_.Fungible;
     pattern r := match r with Record_.Fungible d => Some d | _ => None end |};
  {| tag := x01; body := unit_codec; construct _ := Record_.NonFungible;
     pattern r := match r with Record_.NonFungible => Some () | _ => None end |}].
Definition resource_record : Codec ResourceRecord := enum record_variants.
(** The one level its shape nests. *)
Definition RECORD_CELL_DEPTH : nat := 1.
Definition record_to_cell (r : ResourceRecord) : result EncodeError bytes := to_vec_with_depth resource_record r RECORD_CELL_DEPTH.
Definition record_from_cell (b : bytes) : result DecodeError ResourceRecord := from_slice_with_depth resource_record b RECORD_CELL_DEPTH.

(** ** What resolution yields *)

Lemma digest_body_bound d : in_width 256 d → in_width 248 (digest_body d).
Proof. unfold in_width, digest_body. intros Hd. split; [apply Z.div_pos; lia|apply Z.div_lt_upper_bound; lia]. Qed.
Lemma address_new_ok body c : in_width 248 body → address_ok (address_new body c) ∧ address_class (address_new body c) = Some c.
Proof.
  intros Hb. unfold address_ok, address_class, address_new, in_width in *.
  assert (Ht : 0 ≤ class_tag c < 256) by (destruct c; cbn; lia).
  rewrite Z.add_comm, Z.mod_add, Z.mod_small by lia. split; [split; [lia|]|]; by destruct c.
Qed.

(** *** The set *)

Definition sorted_grants {R} (g : list (GrantedBehaviour * R)) : Prop := StronglySorted Z.lt (behaviour_rank <$> g.*1).
#[global] Instance behaviour_rank_inj : Inj (=) (=) behaviour_rank.
Proof. by intros [] []. Qed.
Lemma sorted_ascending (l : list GrantedBehaviour) : StronglySorted Z.lt (behaviour_rank <$> l) → ascending l = true.
Proof.
  induction l as [|b [|b' l] IH]; [done..|]. intros [Hs Hb]%StronglySorted_inv. cbn [ascending].
  apply andb_true_iff. split; [|by apply IH]. apply bool_decide_eq_true. by apply Forall_cons in Hb as [? _].
Qed.
Lemma grants_set_ranks {R} (g : list (GrantedBehaviour * R)) b r x :
  x ∈ behaviour_rank <$> (grants_set g b r).*1 ↔ x = behaviour_rank b ∨ x ∈ behaviour_rank <$> g.*1.
Proof.
  induction g as [|[b' r'] g IH]; cbn [grants_set]; [cbn; set_solver|]. destruct (decide (b' = b)) as [->|Hne].
  - cbn. set_solver.
  - destruct (decide _); cbn in *; rewrite !elem_of_cons; [tauto|]. rewrite IH. tauto.
Qed.
Lemma grants_set_sorted {R} (g : list (GrantedBehaviour * R)) b r : sorted_grants g → sorted_grants (grants_set g b r).
Proof.
  unfold sorted_grants. induction g as [|[b' r'] g IH]; cbn [grants_set]; [intros _; repeat constructor|].
  intros Hg. pose proof Hg as [Hs Hb]%StronglySorted_inv. destruct (decide (b' = b)) as [->|Hne]; [done|].
  destruct (decide (behaviour_rank b < behaviour_rank b')) as [Hlt|Hge].
  - constructor; [done|]. constructor; [done|]. eapply Forall_impl; [exact Hb|]. cbn. lia.
  - cbn. constructor; [by apply IH|]. rewrite Forall_forall in *. intros x [->|Hx]%grants_set_ranks; [|by apply Hb].
    assert (behaviour_rank b' ≠ behaviour_rank b) by (by intros E%(inj _)). cbn. lia.
Qed.
Lemma grants_get_set {R} (g : list (GrantedBehaviour * R)) b r b' :
  sorted_grants g → grants_get (grants_set g b r) b' = if decide (b = b') then Some r else grants_get g b'.
Proof.
  unfold sorted_grants. induction g as [|[c s] g IH]; cbn [grants_set]; [done|]. intros [Hs Hc]%StronglySorted_inv.
  destruct (decide (c = b)) as [->|Hne]; [cbn; by destruct (decide (b = b'))|].
  destruct (decide (behaviour_rank b < behaviour_rank c)); [done|].
  cbn. rewrite IH by done. destruct (decide (c = b')) as [->|]; [by rewrite (decide_False (P := b = b')) by done|done].
Qed.
Lemma grants_get_elem {R} (g : list (GrantedBehaviour * R)) b : is_Some (grants_get g b) ↔ b ∈ g.*1.
Proof.
  induction g as [|[c s] g IH]; cbn; [split; [by intros []|by intros ?%not_elem_of_nil]|]. rewrite elem_of_cons.
  destruct (decide (c = b)) as [->|Hne]; [split; [by left|done]|]. rewrite IH. naive_solver.
Qed.
Lemma sorted_grants_length {R} (g : list (GrantedBehaviour * R)) : sorted_grants g → (length g ≤ MAX_GRANTS)%nat.
Proof.
  intros Hs. rewrite <- (length_fmap fst). apply submseteq_length, NoDup_submseteq.
  - apply (NoDup_fmap_1 behaviour_rank). unfold sorted_grants in Hs. induction Hs as [|x l Hs IH Hx]; constructor; [|done].
    intros Hin. rewrite Forall_forall in Hx. specialize (Hx x Hin). lia.
  - intros b _. destruct b; unfold behaviour_all; set_solver.
Qed.

Lemma grants_set_Forall {R} (P : GrantedBehaviour * R → Prop) g b r : P (b, r) → Forall P g → Forall P (grants_set g b r).
Proof.
  intros Hb. induction 1 as [|[b' r'] g Hp Hg IH]; cbn [grants_set]; [by constructor|].
  destruct (decide _); [by constructor|]. destruct (decide _); by repeat constructor.
Qed.
Lemma grants_set_domain {R} (g : list (GrantedBehaviour * R)) b r x : x ∈ (grants_set g b r).*1 ↔ x = b ∨ x ∈ g.*1.
Proof.
  induction g as [|[b' r'] g IH]; cbn [grants_set]; [cbn; set_solver|]. destruct (decide (b' = b)) as [->|Hne].
  - cbn. set_solver.
  - destruct (decide _); cbn in *; rewrite !elem_of_cons; [tauto|]. rewrite IH. tauto.
Qed.

(** *** Typed declarations *)

(** What a declared leaf's own type holds: an id of [u64], a mark a value can carry. *)
Definition subject_typed (rules_ok : GrantsExpr → Prop) (s : GrantSubject) : Prop :=
  match s with
  | SelfBadge mark _ rules => (length mark ≤ MAX_VALUE_BYTES)%nat ∧ rules_ok rules
  | SelfInstance mark id rules => (length mark ≤ MAX_VALUE_BYTES)%nat ∧ width_ok 8 id ∧ rules_ok rules
  | _ => True
  end.
Fixpoint grants_typed (links : nat) (g : GrantsExpr) : Prop :=
  match links with
  | O => True
  | S links => Forall (λ p, typed (subject_typed (grants_typed links)) p.2) g
  end.
(** A sealed entry: a rule of its own behaviour, within the caps, that reads back. *)
Definition sealed_entry (b : GrantedBehaviour) (e : RuleBytes) : Prop :=
  (length e ≤ MAX_VALUE_BYTES)%nat ∧ ∃ r, rule_decode e = Ok r ∧ within_caps r 0 = true ∧ behaviour_refuses b r = None.
Record resolved_ok (g : GrantsExpr) (rs : ResourceGrants) : Prop := {
  ro_sorted : sorted_grants rs;
  ro_entries : Forall (λ p, sealed_entry p.1 p.2) rs;
  ro_domain : ∀ b, b ∈ rs.*1 ↔ b ∈ g.*1;
}.


Lemma narrowed_ok admits a a' : narrowed admits a = Some a' → a' = a ∧ ∃ c, address_class a = Some c ∧ admits c = true.
Proof. unfold narrowed. destruct (address_class a) as [c|]; [|done]. destruct (admits c) eqn:E; [|done]. intros [= <-]. eauto. Qed.
Lemma claim_of_address_ok a c : address_ok a → claim_of_address a = Some c → claim_ok c.
Proof.
  intros Ha. unfold claim_of_address. destruct (narrowed resource_admits a); [by intros [= <-]|].
  destruct (narrowed call_admits a); [by intros [= <-]|done].
Qed.
Lemma claim_of_value_ok v c : value_typed v → claim_of_value v = Some c → claim_ok c.
Proof.
  intros Hv Hc. destruct v as [| | | | |a| |vs| |]; try done.
  - apply typed_children in Hv as [Ha _]. cbn in Ha, Hc.
    by apply claim_of_address_ok in Hc.
  - destruct vs as [|[| | | | |a| | | |] [|[|id| | | | | | | |] []]]; try done. apply typed_children in Hv as [_ Hv]. cbn in Hv.
    apply Forall_cons in Hv as [Ha Hv]. apply Forall_cons in Hv as [Hi _]. apply typed_children in Ha as [Ha _]. apply typed_children in Hi as [Hi _].
    cbn [claim_of_value] in Hc. apply bind_Some in Hc as (x & Hx & [= <-]). apply narrowed_ok in Hx as [-> _]. by split.
Qed.
Lemma claim_badge_ok c b : claim_ok c → claim_badge c = Some b → resource_ok b.
Proof. intros [Ha _] Hb. apply narrowed_ok in Hb as [-> Hc]. by split. Qed.

(** *** Addresses *)

Lemma built_behaviour : built behaviour any.
Proof. apply built_unit_enum; try (apply (bool_decide_unpack _); vm_compute; exact I); intros []; cbn; set_solver. Qed.
Lemma entries_writes : writes (both (nested behaviour) (nested rule_bytes))
  (λ p, any p.1 ∧ (length p.2 ≤ MAX_VALUE_BYTES)%nat) (λ _ d m, S d < m)%nat.
Proof.
  assert (Hb : writes behaviour any (λ _ _ _, True)).
  { apply writes_free; [apply built_canonical, built_behaviour|]. apply unit_enum_free; try (apply (bool_decide_unpack _); vm_compute; exact I); intros []; cbn; set_solver. }
  assert (Hr : writes rule_bytes (λ e, (length e ≤ MAX_VALUE_BYTES)%nat) (λ _ d m, d < m)%nat) by exact bytes_writes.
  eapply writes_ext; [exact (writes_both _ _ _ _ _ _ (writes_nested _ _ _ Hb) (writes_nested _ _ _ Hr))|]. intros p d m _ _. cbn. lia.
Qed.
Section resolution.
Context (hash : bytes → list bytes → Z) (Hhash : ∀ domain parts, in_width 256 (hash domain parts)).

Lemma commitment_some rs : sorted_grants rs → Forall (λ p, (length p.2 ≤ MAX_VALUE_BYTES)%nat) rs → is_Some (commitment hash rs).
Proof.
  intros Hs He. destruct (writes_vec _ _ _ MAX_GRANTS entries_writes ltac:(by vm_compute) rs) as [_ Hp].
  { split; [|by apply sorted_grants_length]. eapply Forall_impl; [exact He|]. done. }
  destruct (proj2 (Hp 0%nat DEFAULT_MAX_DEPTH (Nat.le_0_l _))) as [b P].
  { split; [unfold DEFAULT_MAX_DEPTH; lia|]. apply Forall_true. intros ?. cbn. unfold DEFAULT_MAX_DEPTH. lia. }
  unfold commitment, to_vec, to_vec_with_depth. change (encode resource_grants rs) with (encode (vec (both (nested behaviour) (nested rule_bytes))) rs).
  by rewrite P.
Qed.
Lemma issued_address instance kind rs mark :
  sorted_grants rs → Forall (λ p, sealed_entry p.1 p.2) rs → (length mark ≤ MAX_VALUE_BYTES)%nat →
  ∃ a, granting_issued_resource hash instance kind rs mark = Some a ∧ resource_ok a ∧ address_class a = Some (grants_class rs).
Proof using Hhash.
  intros Hs He Hm. unfold granting_issued_resource, granting_resource_address.
  destruct (admissible_encodes (Val.Bytes mark)) as [m ->]; [by repeat constructor|repeat constructor; cbn; by rewrite decide_False by lia|vm_compute; lia|].
  cbn [mbind option_bind]. destruct (commitment_some rs Hs) as [c ->]; [eapply Forall_impl; [exact He|]; by intros ? [? _]|].
  cbn [mbind option_bind]. eexists. split; [done|].
  match goal with |- context [hash DOMAIN_RESOURCE ?p] => destruct (address_new_ok (digest_body (hash DOMAIN_RESOURCE p)) (grants_class rs)) as [H1 H2] end.
  { apply digest_body_bound, Hhash. }
  split; [|done]. split; [done|]. exists (grants_class rs). split; [done|]. unfold grants_class. by destruct (grants_restrict rs).
Qed.

(** *** Rules *)

Context (instance : Address) (config : list Value).
Context (Hinst : address_ok instance) (Hcall : is_Some (claim_of_address instance)) (Hconf : Forall value_typed config).

(** A computation that never panics, and whose answers satisfy a predicate. *)
Definition answers {E A} (P : A → Prop) (r : result (halt E) A) : Prop :=
  match r with Ok a => P a | Err (Refuses _) => True | Err Panics => False end.
Lemma answers_bind {E A B} (P : A → Prop) (Q : B → Prop) (r : result (halt E) A) f :
  answers P r → (∀ a, P a → answers Q (f a)) → answers Q (r ≫= f).
Proof. destruct r as [a|[]]; cbn; auto. Qed.
Lemma answers_refuse {E A} (P : A → Prop) (r : result E A) : (∀ a, r = Ok a → P a) → answers P (refuse r).
Proof. destruct r; cbn; auto. Qed.

Context (badge : ResourceKind → bytes → GrantsExpr → result (halt GrantsResolveError) ResourceAddr) (rules_ok : GrantsExpr → Prop).
Context (Hbadge : ∀ kind mark rules, (length mark ≤ MAX_VALUE_BYTES)%nat → rules_ok rules → answers resource_ok (badge kind mark rules)).

Lemma config_claim_ok slot : answers claim_ok (config_claim config slot).
Proof using Hconf.
  unfold config_claim. eapply (answers_bind value_typed).
  - apply answers_refuse. intros v. destruct (config !! Z.to_nat slot) as [x|] eqn:E; [|done]. intros [= <-]. by eapply Forall_lookup_1.
  - intros v Hv. apply answers_refuse. intros c. destruct (claim_of_value v) eqn:E; [|done]. intros [= <-]. by eapply claim_of_value_ok.
Qed.
Lemma own_claim_ok : answers (E := GrantsResolveError) claim_ok (expects (claim_of_address instance)).
Proof using Hinst Hcall.
  destruct Hcall as [c E]. rewrite E. cbn. by eapply claim_of_address_ok.
Qed.
Lemma resolve_claim_ok s : subject_typed rules_ok s → answers claim_ok (resolve_claim instance config badge s).
Proof using Hbadge Hinst Hcall Hconf.
  destruct s as [|mark kind rules|mark id rules|slot]; cbn [subject_typed resolve_claim]; intros Hs.
  - apply own_claim_ok.
  - eapply answers_bind; [apply Hbadge; naive_solver|]. intros a [Ha _]. by split.
  - eapply answers_bind; [apply Hbadge; naive_solver|]. intros a [Ha _]. split; [done|]. naive_solver.
  - apply config_claim_ok.
Qed.
Lemma resolve_holding_ok s : subject_typed rules_ok s → answers (typed sealed_ok) (resolve_holding instance config badge s).
Proof using Hbadge Hinst Hcall Hconf.
  destruct s as [|mark kind rules|mark id rules|slot]; cbn [subject_typed resolve_holding]; intros Hs.
  - eapply answers_bind; [apply own_claim_ok|]. done.
  - eapply answers_bind; [apply Hbadge; naive_solver|]. intros a Ha. cbn. split; [done|]. by destruct kind.
  - eapply answers_bind; [apply Hbadge; naive_solver|]. intros a Ha. cbn. naive_solver.
  - eapply answers_bind; [apply config_claim_ok|]. intros c Hc. destruct (claim_badge c) as [a|] eqn:E; [|done].
    apply claim_badge_ok in E; [|done]. destruct (Rules.instance c) as [id|] eqn:Ei.
    + cbn. split; [done|]. destruct Hc as [_ Hc]. by rewrite Ei in Hc.
    + cbn. split_and!; try done; unfold MAX_RULE_BRANCHES; lia.
Qed.
Lemma resolve_rule_ok b r : typed (subject_typed rules_ok) r → answers (typed sealed_ok) (resolve_rule instance config badge b r).
Proof using Hbadge Hinst Hcall Hconf.
  induction r as [s|n rs IH] using rule_tree_ind; cbn [typed resolve_rule].
  - intros Hs. destruct (asks_about_the_actor b); [|by apply resolve_holding_ok].
    eapply answers_bind; [by apply resolve_claim_ok|]. done.
  - rewrite foldr_and. intros (Hn & Hl & Hrs).
    eapply (answers_bind (λ out, Forall (typed sealed_ok) out ∧ length out = length rs)).
    + clear Hl. induction rs as [|r rs IHrs]; [by split; constructor|]. apply Forall_cons in IH as [IHr IH]. apply Forall_cons in Hrs as [Hr Hrs].
      eapply answers_bind; [by apply IHr|]. intros r' Hr'. eapply answers_bind; [by apply IHrs|]. intros rs' [Hf Hlen]. cbn. split; [by constructor|lia].
    + intros out [Hf Hlen]. cbn. rewrite foldr_and. split_and!; [done|lia|done].
Qed.
Lemma resolve_entry_ok b r : typed (subject_typed rules_ok) r → answers (sealed_entry b) (resolve_entry instance config badge b r).
Proof using Hbadge Hinst Hcall Hconf.
  intros Ht. unfold resolve_entry. eapply answers_bind; [by apply resolve_rule_ok|]. intros stored Hst.
  destruct (behaviour_refuses b stored) eqn:Er; [done|]. destruct (within_caps stored 0) eqn:Ew; [|done].
  unfold rule_try_from. destruct (stored_to_bytes stored) as [e|] eqn:Ee; [|done]. cbn [mbind result_bind].
  destruct (decide _); [|done]. cbn. split; [done|]. exists stored. split_and!; [|done..].
  apply stored_decodes. split_and!; [done| |done]. by eapply within_caps_formed.
Qed.
Lemma resolve_entries_ok entries done_ acc :
  Forall (λ p, typed (subject_typed rules_ok) p.2) entries → resolved_ok done_ acc →
  answers (resolved_ok (done_ ++ entries)) (resolve_entries instance config badge entries acc).
Proof using Hbadge Hinst Hcall Hconf.
  intros He. revert done_ acc. induction He as [|[b r] entries Hr _ IH]; intros done_ acc Ha; [by rewrite app_nil_r|].
  cbn [resolve_entries]. eapply answers_bind; [by apply resolve_entry_ok|]. intros e Hsealed.
  change ((b, r) :: entries) with ([(b, r)] ++ entries). rewrite app_assoc. apply IH. destruct Ha as [H1 H2 H3]. split.
  - by apply grants_set_sorted.
  - by apply grants_set_Forall.
  - intros x. rewrite grants_set_domain, H3, fmap_app, elem_of_app. cbn. rewrite list_elem_of_singleton. tauto.
Qed.
End resolution.

(** The badge a leaf names is a resource whatever its rules are, and the chain ends. *)
Lemma self_badge_ok hash instance config links kind mark rules :
  (∀ domain parts, in_width 256 (hash domain parts)) → address_ok instance → is_Some (claim_of_address instance) →
  Forall value_typed config → (length mark ≤ MAX_VALUE_BYTES)%nat → grants_typed links rules →
  answers resource_ok (self_badge hash links instance config kind mark rules).
Proof.
  intros Hh Hi Hc Hf. revert kind mark rules. induction links as [|links IH]; intros kind mark rules Hm Ht; [done|]. cbn [self_badge].
  eapply answers_bind; [apply (resolve_entries_ok instance config Hi Hc Hf _ (grants_typed links)) with (done_ := []); [by intros; apply IH|exact Ht|]|].
  { split; [constructor|constructor|]. intros b. cbn. done. }
  intros rs [H1 H2 _]. destruct (issued_address hash Hh instance kind rs mark) as (a & -> & Ha & _); done.
Qed.

(** *** The set on the wire *)

Lemma ascending_sorted (l : list GrantedBehaviour) : ascending l = true → StronglySorted Z.lt (behaviour_rank <$> l).
Proof.
  intros Ha. apply Sorted_StronglySorted; [intros ???; lia|]. induction l as [|b [|b' l] IH]; [by repeat constructor..|].
  cbn [ascending] in Ha. apply andb_true_iff in Ha as [Hb%bool_decide_eq_true Ha]. constructor; [by apply IH|by constructor].
Qed.
Lemma built_resource_grants :
  built resource_grants (λ rs, sorted_grants rs ∧ Forall (λ p, (length p.2 ≤ MAX_VALUE_BYTES)%nat) rs).
Proof.
  eapply (built_carried _ _ _ _ _ _ (λ l, Forall (λ p, any p.1 ∧ (length p.2 ≤ MAX_VALUE_BYTES)%nat) l ∧ (length l ≤ MAX_GRANTS)%nat)).
  - apply built_capped_vec; [|cbn; lia]. apply (built_both _ _ _ _ any (λ b, length b ≤ MAX_VALUE_BYTES)%nat); apply built_nested;
      [apply built_behaviour|apply built_capped_bytes].
  - intros rs [Hs Hl]. split; [split; [|by apply sorted_grants_length]; eapply Forall_impl; [exact Hl|]; intros p Hp; by split|].
    unfold ascending_behaviours. by rewrite sorted_ascending.
  - intros l rs [Hl _]. unfold ascending_behaviours. case_match eqn:E; [|done]. intros [= <-].
    split; [|done]. split; [by apply ascending_sorted|]. eapply Forall_impl; [exact Hl|]. by intros ? [_ ?].
Qed.

(** C39: What a declared grant set resolves to is typed: for a callable instance and a
    configuration of typed values, resolution never panics, and a set it answers is
    kept ascending with the declared behaviours as its domain, every entry storable,
    decodable, within the caps and admitted by its own behaviour; the class of the
    resource is restricted exactly when a declared behaviour restricts movement; the
    address of every mark under it derives, as a resource of that class; and the set
    reads back from its canonical bytes. *)
Theorem grants_resolve_sound (hash : bytes → list bytes → Z) (instance : Address) (config : list Value) (g : GrantsExpr) :
  (∀ domain parts, in_width 256 (hash domain parts)) → address_ok instance → is_Some (claim_of_address instance) →
  Forall value_typed config → grants_typed 2 g →
  match grants_resolve hash g instance config with
  | Ok rs =>
      resolved_ok g rs ∧
      (grants_class rs = Restricted ↔ ∃ b, b ∈ g.*1 ∧ restricts_movement b = true) ∧
      (∀ kind mark, (length mark ≤ MAX_VALUE_BYTES)%nat →
         ∃ a, granting_issued_resource hash instance kind rs mark = Some a ∧ resource_ok a ∧ address_class a = Some (grants_class rs)) ∧
      ∃ b, to_vec resource_grants rs = Ok b ∧ from_slice resource_grants b = Ok rs
  | Err (Refuses _) => True
  | Err Panics => False
  end.
Proof.
  intros Hh Hi Hc Hf Ht.
  pose proof (resolve_entries_ok instance config Hi Hc Hf (self_badge hash 1 instance config) (grants_typed 1)
    (λ kind mark rules, self_badge_ok hash instance config 1 kind mark rules Hh Hi Hc Hf) g [] [] Ht) as Ha.
  unfold grants_resolve. destruct (resolve_entries _ _ _ g []) as [rs|[]]; cbn in Ha; [|done|].
  - assert (Hr : resolved_ok g rs) by (apply Ha; split; [constructor|constructor|done]). pose proof Hr as [H1 H2 H3].
    assert (Hl : Forall (λ p, (length p.2 ≤ MAX_VALUE_BYTES)%nat) rs) by (eapply Forall_impl; [exact H2|]; by intros ? [? _]).
    split_and!; [done| |intros; by apply issued_address|].
    + unfold grants_class, grants_restrict. split.
      * destruct (existsb _ rs) eqn:E; [intros _|done]. apply existsb_exists in E as ([b e] & Hin & Hb). exists b. split; [|done].
        apply H3, list_elem_of_fmap. exists (b, e). split; [done|by apply list_elem_of_In].
      * intros (b & Hb%H3 & Hm). apply list_elem_of_fmap in Hb as ([b' e] & -> & Hin).
        replace (existsb _ rs) with true; [done|]. symmetry. apply existsb_exists. exists (b', e). split; [by apply list_elem_of_In|done].
    + destruct (commitment_some hash rs H1 Hl) as [c Hcm]. unfold commitment in Hcm. destruct (to_vec resource_grants rs) as [b|] eqn:E; [|done].
      exists b. split; [done|]. by apply (canonical_iff _ _ _ _ _ (built_canonical _ _ built_resource_grants)).
  - apply Ha. split; [constructor|constructor|done].
Qed.

(** A token its issuer mints by its own badge, that only holders of the badge a
    configuration field names may withdraw; the badge is halted by its issuer. *)
Definition sample_grants : GrantsExpr := [
  (Withdraw, CountOf 1 [Require (ConfigField 0); Require SelfAddr]);
  (Mint, Require (SelfBadge [x6d] Fungible [(Halt, Require SelfAddr)]));
  (Recall, Require (SelfInstance [x6e] 7 []))].
Definition sample_issuer : Address := address_new 9 Component.
Definition sample_config : list Value := [Val.Address (address_new 5 Resource)].
Definition sample_hash (domain : bytes) (parts : list bytes) : Z := be_val (domain ++ concat parts) mod 2 ^ 256.
Definition grants_check (r : result (halt GrantsResolveError) ResourceGrants) : bool :=
  match r with
  | Ok rs => bool_decide (rs.*1 = [Mint; Withdraw; Recall]) && grants_restrict rs
  | _ => false
  end.
Lemma sample_grants_typed : grants_typed 2 sample_grants ∧ Forall value_typed sample_config.
Proof. split; [|repeat constructor]. all: repeat (constructor || split); cbn; try done; try lia. all: unfold MAX_VALUE_BYTES, width_ok, MAX_RULE_BRANCHES; cbn; lia. Qed.
Lemma sample_hash_width domain parts : in_width 256 (sample_hash domain parts).
Proof. apply Z.mod_pos_bound. lia. Qed.
Lemma sample_issuer_ok : address_ok sample_issuer ∧ is_Some (claim_of_address sample_issuer).
Proof. split; [apply address_new_ok; by vm_compute|by eexists]. Qed.
Lemma grants_resolve_sound_witness :
  grants_check (grants_resolve sample_hash sample_grants sample_issuer sample_config) = true ∧
  ∃ rs, grants_resolve sample_hash sample_grants sample_issuer sample_config = Ok rs ∧ resolved_ok sample_grants rs.
Proof.
  assert (E : grants_check (grants_resolve sample_hash sample_grants sample_issuer sample_config) = true) by (vm_compute; reflexivity).
  split; [exact E|].
  assert (H := grants_resolve_sound sample_hash sample_issuer sample_config sample_grants sample_hash_width
    (proj1 sample_issuer_ok) (proj2 sample_issuer_ok) (proj2 sample_grants_typed) (proj1 sample_grants_typed)).
  revert E H. destruct (grants_resolve sample_hash sample_grants sample_issuer sample_config) as [rs|]; intros E H.
  - exists rs. split; [reflexivity|exact (proj1 H)].
  - discriminate E.
Defined.
