(* ===== verification/Seals.v ===== *)
(** * Sealed draws ([crates/types/src/seeds.rs], [crates/kernel/src/session/seal.rs])

    The window of epoch seeds an execution can reach, the commitment a seal writes
    and the draw it opens onto. The environment inputs and the embedder's hash
    function are session constants only these operations read, so they are
    arguments here. *)

From S2P Require Import Prelude WideMath Types Effects Conflict Modes Hbor Cells Writes Ledger Store Overlay Groups Capability Outcomes Rules Buckets Supply Session.

(** ** Seeds *)

Definition SEED_BYTES : nat := 32.
Definition SEAL_MATURITY_EPOCHS : Z := 2.
Module Drawn.
Inductive Drawn := Pending | Ready (word : Z) | Expired.
#[global] Instance Drawn_eq_dec : EqDecision Drawn.
Proof. solve_decision. Defined.
End Drawn.
Abbreviation Drawn := Drawn.Drawn.
Record SeedWindow := { usable : option (gmap Z Z); newest : option Z }.
Definition seeds_new (held : gmap Z Z) (frontier : option Z) : SeedWindow := {| usable := Some held; newest := frontier |}.
Definition unfolded : SeedWindow := {| usable := None; newest := None |}.
Definition seed_at (w : SeedWindow) (epoch : Z) : Drawn :=
  match usable w ≫= (.!! epoch) with
  | Some seed => Drawn.Ready seed
  | None => match newest w with
            | Some frontier => if decide (epoch ≤ frontier) then Drawn.Expired else Drawn.Pending
            | None => Drawn.Pending
            end
  end.
Record EnvInputs := { clock_ms : Z; env_epoch : Z; seeds : SeedWindow }.
Definition unsealed (clock : Z) : EnvInputs := {| clock_ms := clock; env_epoch := 0; seeds := unfolded |}.

(** ** What a seal cell holds *)

(** The bytes of "hyperscale/vm/sealed-draw". *)
Definition DOMAIN_SEALED_DRAW : bytes :=
  [x68; x79; x70; x65; x72; x73; x63; x61; x6c; x65; x2f; x76; x6d; x2f; x73; x65; x61; x6c; x65; x64; x2d; x64; x72; x61; x77].
Definition SEAL_TAG : byte := x5e.
Definition sealed_epoch (site : Rep) (held : bytes) : outcome Z :=
  match held with
  | tag :: epoch =>
      if decide (tag = SEAL_TAG ∧ length epoch = 8%nat) then Done (le_val epoch) else Trapped (Trap.NotASeal site)
  | [] => Trapped (Trap.NotASeal site)
  end.
Definition seal_bytes (epoch : Z) : bytes := SEAL_TAG :: le_bytes 8 epoch.
Definition matured_seed (env : EnvInputs) (epoch : Z) : Drawn := seed_at (seeds env) (saturating_add 64 epoch SEAL_MATURITY_EPOCHS).

(** ** Sealing and opening *)

Section seals.
Context {B : Type} `{Baseline B} (hash_fn : bytes → Z) (env : EnvInputs).
Abbreviation Session := (KernelSession B).

Definition seal (site element : Rep) : M Session () :=
  key ← asks (λ s, acting_key s site element Op.Seal);
  held ← on_store (λ o, read o key);
  _ ← asks (λ _, match held with
                 | None => Done ()
                 | Some b => epoch ← sealed_epoch site b;
                             if decide (matured_seed env epoch = Drawn.Expired) then Done () else Trapped (Trap.SealStanding site)
                 end);
  on_store (λ o, write o key (seal_bytes (env_epoch env))).
Definition open_seal (site element : Rep) : M Session Drawn :=
  key ← asks (λ s, acting_key s site element Op.OpenSeal);
  held ← on_store (λ o, read o key);
  epoch ← asks (λ _, sealed_epoch site (default [] held));
  mret (match matured_seed env epoch with
        | Drawn.Ready seed => Drawn.Ready (hash_fn (DOMAIN_SEALED_DRAW ++ be_bytes SEED_BYTES seed ++ key_to_bytes key))
        | unopened => unopened
        end).
End seals.

(** ** What a seal commits to *)

Lemma sealed_epoch_bytes site epoch : in_width 64 epoch → sealed_epoch site (seal_bytes epoch) = Done epoch.
Proof.
  intros Hw. unfold sealed_epoch, seal_bytes. rewrite decide_True by (split; [done|apply length_le_bytes]).
  by rewrite le_val_bytes by (unfold in_width, width_max in Hw; cbn in *; lia).
Qed.
(** Only what the kernel itself writes reads as a seal. *)
Lemma sealed_epoch_done site held epoch : sealed_epoch site held = Done epoch → held = seal_bytes epoch ∧ in_width 64 epoch.
Proof.
  destruct held as [|tag l]; [done|]. cbn [sealed_epoch]. destruct (decide _) as [[-> Hl]|]; [|done]. intros [= <-].
  unfold seal_bytes. rewrite <- Hl, le_bytes_val. split; [done|]. pose proof (le_val_bound l) as Hb. rewrite Hl in Hb.
  unfold in_width, width_max. cbn in *. lia.
Qed.

Section commitment.
Context {B : Type} `{Baseline B} (hash_fn : bytes → Z).
Implicit Types (s t : KernelSession B) (env : EnvInputs).

Lemma acting_open s site element key : acting_key s site element Op.OpenSeal = Done key → acting_key s site element Op.Seal = Done key.
Proof.
  unfold acting_key, acting. destruct (capability_at s site element) as [held| |]; cbn; [|done..].
  destruct (judges _ _); cbn; [|done]. by destruct held.
Qed.

(** The answer of a seal written in [epoch] at [key]. *)
Definition draw env (key : SubstateKey) (epoch : Z) : Drawn :=
  match matured_seed env epoch with
  | Drawn.Ready seed => Drawn.Ready (hash_fn (DOMAIN_SEALED_DRAW ++ be_bytes SEED_BYTES seed ++ key_to_bytes key))
  | unopened => unopened
  end.

Lemma open_seal_answers env s site element key :
  acting_key s site element Op.OpenSeal = Done key →
  (open_seal hash_fn env site element s).2 =
    (epoch ← sealed_epoch site (default [] (cell_value (store s) key)); Done (draw env key epoch)).
Proof.
  intros Ek. unfold open_seal, asks, on_store, read, mbind, M_bind, mret, M_ret. rewrite Ek. cbn.
  by destruct (sealed_epoch site _).
Qed.
Lemma seal_answers env s site element key :
  acting_key s site element Op.Seal = Done key →
  let '(s', r) := seal env site element s in
  match cell_value (store s) key with
  | Some b => r = (epoch ← sealed_epoch site b;
                   if decide (matured_seed env epoch = Drawn.Expired) then Done () else Trapped (Trap.SealStanding site))
  | None => r = Done ()
  end ∧ cell_value (store s') key = match r with Done _ => Some (seal_bytes (env_epoch env)) | _ => cell_value (store s) key end.
Proof.
  intros Ek. unfold seal, asks, on_store, read, mbind, M_bind. rewrite Ek. cbn [lift].
  assert (Hw : ∀ o, cell_value (write o key (seal_bytes (env_epoch env))).1 key = Some (seal_bytes (env_epoch env))).
  { intros o. unfold write, cell_value. cbn. by rewrite lookup_insert_eq. }
  destruct (cell_value (store s) key) as [b|] eqn:Eb; cbn.
  - destruct (sealed_epoch site b) as [epoch| |]; cbn; [|by split..].
    destruct (decide _); cbn; [|by split]. split; [done|]. apply (Hw (record (store s) (Point key) KRead)).
  - split; [done|]. apply (Hw (record (store s) (Point key) KRead)).
Qed.

(** C17: a seal is a commitment. What a seal written in one epoch opens onto is fixed by that epoch, the cell's key and the
    seeds of the environment that opens it: whoever opens it, through whichever handle, in whichever transaction, gets
    the same answer, waiting before the maturity is folded and never where its seed is gone. And sealing the cell again is
    refused, leaving it as it is, exactly while the standing seal can still open: sealing never rolls again a draw
    somebody could have read. What a body writes into the cell by other means is its own. *)
Theorem sealed_draw env env' s s' t site element site' element' key :
  in_width 64 (env_epoch env) → acting_key s site element Op.Seal = Done key → seal env site element s = (s', Done ()) →
  acting_key t site' element' Op.OpenSeal = Done key → cell_value (store t) key = cell_value (store s') key →
  (open_seal hash_fn env' site' element' t).2 = Done (draw env' key (env_epoch env)) ∧
  let '(t', r) := seal env' site' element' t in
  if decide (matured_seed env' (env_epoch env) = Drawn.Expired)
  then r = Done () ∧ cell_value (store t') key = Some (seal_bytes (env_epoch env'))
  else r = Trapped (Trap.SealStanding site') ∧ cell_value (store t') key = cell_value (store t) key.
Proof.
  intros Hw Ek Es Et Ev. pose proof (seal_answers env s site element key Ek) as Hs. rewrite Es in Hs. destruct Hs as [_ Hs].
  rewrite Hs in Ev. split.
  - rewrite (open_seal_answers _ _ _ _ _ Et), Ev. cbn [default from_option id]. by rewrite sealed_epoch_bytes.
  - pose proof (seal_answers env' t site' element' key (acting_open _ _ _ _ Et)) as Ht. destruct (seal env' site' element' t) as [t' r].
    rewrite Ev, sealed_epoch_bytes in Ht by done. cbn [mbind outcome_bind] in Ht. rewrite Ev.
    by destruct (decide _), Ht as [-> ->].
Qed.
End commitment.

(** ** A seal written and opened *)

Definition seal_session : KernelSession MemoryStore := {|
  fixed := {| declared := ∅; table := [Cap.Write vault]; cell_resources := [None]; tx := 1; judges := λ _, true; applies := λ _, true;
              nullifiers := []; fee := None; credits_withheld := false |};
  store := overlay_new memory_new; scans := ∅; written := ∅; lost_floor := None; invocation := None; events := [];
  node_events := node_events_default; events_carried := 0; buckets := buckets_default; supply := supply_default; escrow := escrow_default;
  crossings := ∅; issuance := []; s_entries := [Some 0%nat]; sites := [(0, 1)%nat]; reach := reach_default; taken := ∅ |}.
Definition seal_env (epoch frontier : Z) : EnvInputs :=
  {| clock_ms := 0; env_epoch := epoch; seeds := seeds_new {[7 := 17]} (Some frontier) |}.
(** Sealed in epoch 5, the cell draws on the seed of epoch 7, in any transaction
    that opens it, and takes no other seal while it can. *)
Definition sealed_session : KernelSession MemoryStore := (seal (seal_env 5 6) 0 0 seal_session).1.
Lemma sealed_draw_witness :
  (open_seal le_val (seal_env 9 9) 0 0 sealed_session).2 =
    Done (Drawn.Ready (le_val (DOMAIN_SEALED_DRAW ++ be_bytes 32 17 ++ key_to_bytes vault))) ∧
  (seal (seal_env 9 9) 0 0 sealed_session).2 = Trapped (Trap.SealStanding 0).
Proof.
  destruct (sealed_draw le_val (seal_env 5 6) (seal_env 9 9) seal_session sealed_session sealed_session 0 0 0 0 vault) as [H1 H2].
  - by vm_compute.
  - reflexivity.
  - reflexivity.
  - reflexivity.
  - reflexivity.
  - split; [exact H1|]. destruct (seal (seal_env 9 9) 0 0 sealed_session) as [t r]. apply H2.
Defined.
