(* ===== verification/Conservation.v ===== *)
(** * Conservation of value ([crates/kernel/src/session/receipt.rs], [session/value.rs])

    The account a transaction is judged by: for every resource, what its cells,
    collections, burns and issued crossings gained against what its cells,
    collections, reservations, mints and claimed crossings lost. The theorem says
    that whatever sequence of session operations a manifest runs, the difference
    is exactly what the bucket table still carries. *)

From S2P Require Import Prelude WideMath Types Effects Conflict Modes Hbor Cells Ledger Store Overlay Capability Outcomes Buckets Supply Session Seals.

(** ** Denominations *)

Record Denominations := {
  d_cells : gmap SubstateKey ResourceAddr;
  d_entries : gmap (Address * CollectionId) ResourceAddr;
  d_reserved : gmap SubstateKey (list (Rep * Z));
}.
Definition denominations_default : Denominations := {| d_cells := ∅; d_entries := ∅; d_reserved := ∅ |}.

(** [entry(key).or_insert(resource)]: the first clause wins. *)
Definition or_insert {K V} `{Countable K} (m : gmap K V) (k : K) (v : V) : gmap K V :=
  match m !! k with Some _ => m | None => <[k := v]> m end.

Definition materialized_resource (m : Materialized) (rep : Rep) : option ResourceAddr :=
  default None (cell_resources m !! rep).

Definition denominate (m : Materialized) (out : Denominations) (p : Rep * Capability) : Denominations :=
  let '(rep, capability) := p in
  if decide (Z.of_nat rep ≤ u32_max) then
    let out := match capability with
               | Cap.Reserve key amt =>
                   {| d_cells := d_cells out; d_entries := d_entries out;
                      d_reserved := <[key := default [] (d_reserved out !! key) ++ [(rep, amt)]]> (d_reserved out) |}
               | _ => out
               end in
    match materialized_resource m rep with
    | None => out
    | Some resource =>
        match capability with
        | Cap.Amount key _ | Cap.AmountRead key | Cap.Delta key _ | Cap.Reserve key _ =>
            {| d_cells := or_insert (d_cells out) key resource; d_entries := d_entries out;
               d_reserved := d_reserved out |}
        | Cap.Instances i _ =>
            {| d_cells := d_cells out;
               d_entries := or_insert (d_entries out) (iv_owner i, iv_collection i) resource;
               d_reserved := d_reserved out |}
        | _ => out
        end
    end
  else out.
Definition denominations (m : Materialized) : Denominations :=
  foldl (denominate m) denominations_default (imap pair (table m)).

(** ** Sums over maps *)

Definition map_sum {K V} `{Countable K} (f : K → V → Z) (m : gmap K V) : Z :=
  sum_Z ((λ p, f p.1 p.2) <$> map_to_list m).

Lemma map_sum_empty {K V} `{Countable K} (f : K → V → Z) : map_sum f (∅ : gmap K V) = 0.
Proof. unfold map_sum. by rewrite map_to_list_empty. Qed.

Lemma map_sum_insert {K V} `{Countable K} (f : K → V → Z) (m : gmap K V) k v :
  map_sum f (<[k := v]> m) = map_sum f m - from_option (f k) 0 (m !! k) + f k v.
Proof.
  assert (Hnew : ∀ m' : gmap K V, m' !! k = None → map_sum f (<[k := v]> m') = map_sum f m' + f k v).
  { intros m' Hm. unfold map_sum. rewrite (sum_Z_perm _ ((λ p, f p.1 p.2) <$> (k, v) :: map_to_list m')).
    - rewrite fmap_cons, sum_Z_cons. cbn [fst snd]. lia.
    - apply Permutation_map. by apply map_to_list_insert. }
  destruct (m !! k) as [w|] eqn:E; [|rewrite Hnew by done; cbn; lia].
  rewrite <- insert_delete_eq, Hnew by apply lookup_delete_eq. cbn.
  assert (map_sum f m = map_sum f (delete k m) + f k w); [|lia].
  unfold map_sum. rewrite (sum_Z_perm _ ((λ p, f p.1 p.2) <$> (k, w) :: map_to_list (delete k m))).
  - rewrite fmap_cons, sum_Z_cons. cbn [fst snd]. lia.
  - apply Permutation_map. symmetry. by apply map_to_list_delete.
Qed.

Lemma map_sum_minus {K V} `{Countable K} (f g : K → V → Z) (m : gmap K V) :
  map_sum f m - map_sum g m = map_sum (λ k v, f k v - g k v) m.
Proof. unfold map_sum. induction (map_to_list m) as [|p l IH]; [done|].
  rewrite !fmap_cons, !sum_Z_cons. lia. Qed.

Lemma map_sum_ext {K V} `{Countable K} (f g : K → V → Z) (m : gmap K V) :
  (∀ k v, m !! k = Some v → f k v = g k v) → map_sum f m = map_sum g m.
Proof.
  intros Hfg. unfold map_sum. f_equal. apply list_fmap_ext. intros i [k v] Hi.
  apply Hfg. apply elem_of_map_to_list. by eapply list_elem_of_lookup_2.
Qed.

(** ** The account *)

Definition credit_of (op : DeltaOp) : Z := match op with Add a => a | Sub _ => 0 end.
Definition debit_of (op : DeltaOp) : Z := match op with Sub a => a | Add _ => 0 end.

(** What a changed entry is to a holding: filed, removed, or neither. *)
Definition flip (before after : option bytes) : Z * Z :=
  match before, after with None, Some _ => (1, 0) | Some _, None => (0, 1) | _, _ => (0, 0) end.

Section account.
Context {B : Type} `{Baseline B}.
Implicit Types (s : KernelSession B).

(** Queued movements on the cells of a resource. *)
Definition weigh_cells (f : DeltaOp → Z) s (r : ResourceAddr) : Z :=
  map_sum (λ key ops, if decide (d_cells (denominations (fixed s)) !! key = Some r) then sum_Z (f <$> ops) else 0)
    (pending_map (store s)).
(** Presence flips of the entries of a resource. *)
Definition weigh_entries (f : Z * Z → Z) s (r : ResourceAddr) : Z :=
  map_sum (λ p changes,
    if decide (d_entries (denominations (fixed s)) !! p = Some r)
    then map_sum (λ order change, f (flip (pre_active_entry (store s) p.1 p.2 order) change)) changes else 0)
    (l_entries (active (store s))).
(** Reservations taken against the cells of a resource. *)
Definition reserved_share (m : Materialized) (r : ResourceAddr) (rep : Rep) : Z :=
  match table m !! rep with
  | Some (Cap.Reserve _ amt) => if decide (materialized_resource m rep = Some r) then amt else 0
  | _ => 0
  end.
Definition settled s (r : ResourceAddr) : Z := sum_Z (reserved_share (fixed s) r <$> elements (taken s)).

Definition gained s (r : ResourceAddr) : Z :=
  weigh_cells credit_of s r + weigh_entries fst s r + burned (supply s) r + escrow_issued (escrow s) r.
Definition lost s (r : ResourceAddr) : Z :=
  weigh_cells debit_of s r + weigh_entries snd s r + settled s r + minted (supply s) r + escrow_claimed (escrow s) r.
(** What is in hand, and what the gains exceed the losses by. *)
Definition account s (r : ResourceAddr) : Z := tally quantity r (buckets s) + gained s r - lost s r.

End account.

(** ** What the account rests on *)

(** The cell a value capability is on. *)
Definition value_key (c : Capability) : option SubstateKey :=
  match c with
  | Cap.Amount key _ | Cap.AmountRead key | Cap.Delta key _ | Cap.Reserve key _ => Some key
  | _ => None
  end.

(** What materialization promises of the table it builds: clauses naming one leaf
    agree on what it holds, no collection is both bytes and instances, and
    reserved amounts are amounts. *)
Record contents_agree (m : Materialized) : Prop := {
  ca_cells : ∀ rep c key r, table m !! rep = Some c → value_key c = Some key →
    materialized_resource m rep = Some r → d_cells (denominations m) !! key = Some r;
  ca_entries : ∀ rep i moves r, table m !! rep = Some (Cap.Instances i moves) →
    materialized_resource m rep = Some r →
    d_entries (denominations m) !! (iv_owner i, iv_collection i) = Some r;
  ca_bytes : ∀ rep i, table m !! rep = Some (Cap.RangeWrite i) →
    d_entries (denominations m) !! (iv_owner i, iv_collection i) = None;
  ca_reserved : ∀ rep key amt, table m !! rep = Some (Cap.Reserve key amt) → in_width 128 amt;
}.

Definition escrow_ok (d : EscrowDelta) : Prop :=
  ∀ e c, issued_at d !! e = Some c → 0 ≤ crossed_amount c.

Section conserve.
Context {B : Type} `{Baseline B}.
Implicit Types (s : KernelSession B) (o : OverlayStore B).

(** The session's standing facts, over a base that presents [a]. *)
Record session_ok (a : AbstractStore) s : Prop := {
  so_contents : contents_agree (fixed s);
  so_buckets : table_ok (buckets s);
  so_escrow : escrow_ok (escrow s);
  so_base : base_agree (base (store s)) a;
  so_small : small_collections a;
}.

(** A step that keeps the standing facts and moves the account by [d]. *)
Record moves (a : AbstractStore) (d : ResourceAddr → Z) s s' : Prop := {
  mv_ok : session_ok a s';
  mv_fixed : fixed s' = fixed s;
  mv_account : ∀ r, account s' r = account s r + d r;
}.

Lemma moves_trans a d1 d2 s1 s2 s3 :
  moves a d1 s1 s2 → moves a d2 s2 s3 → moves a (λ r, d1 r + d2 r) s1 s3.
Proof. intros [A1 A2 A3] [B1 B2 B3]. split; [done|congruence|]. intros r. rewrite B3, A3. lia. Qed.

Lemma moves_ext a d d' s s' : (∀ r, d r = d' r) → moves a d s s' → moves a d' s s'.
Proof. intros E [A1 A2 A3]. split; [done..|]. intros r. by rewrite A3, E. Qed.

(** ** Steps the account does not see *)

(** The parts of the store the account reads. *)
Record same_account o o' : Prop := {
  sa_base : base o' = base o;
  sa_committed : committed o' = committed o;
  sa_entries : l_entries (active o') = l_entries (active o);
  sa_pending : l_pending (active o') = l_pending (active o);
}.

Record quiet s s' : Prop := {
  qu_fixed : fixed s' = fixed s;
  qu_buckets : buckets s' = buckets s;
  qu_supply : supply s' = supply s;
  qu_escrow : escrow s' = escrow s;
  qu_taken : taken s' = taken s;
  qu_entries : s_entries s' = s_entries s;
  qu_sites : sites s' = sites s;
  qu_reach : reach s' = reach s;
  qu_store : same_account (store s) (store s');
}.

#[local] Instance quiet_refl : Reflexive quiet.
Proof. intros s. split; try done. Qed.
#[local] Instance quiet_trans : Transitive quiet.
Proof.
  intros s1 s2 s3 [A1 A2 A3 A4 A5 A6 A7 A8 [S1 S2 S3 S4]] [B1 B2 B3 B4 B5 B6 B7 B8 [T1 T2 T3 T4]].
  split; try congruence. split; congruence.
Qed.

Lemma weigh_cells_store f s s' r :
  fixed s' = fixed s → pending_map (store s') = pending_map (store s) → weigh_cells f s' r = weigh_cells f s r.
Proof. intros E1 E2. unfold weigh_cells. by rewrite E1, E2. Qed.

Lemma weigh_entries_store f s s' r :
  fixed s' = fixed s → base (store s') = base (store s) → committed (store s') = committed (store s) →
  l_entries (active (store s')) = l_entries (active (store s)) → weigh_entries f s' r = weigh_entries f s r.
Proof.
  intros E1 E2 E3 E4. unfold weigh_entries. rewrite E1, E4. apply map_sum_ext. intros p ch _.
  destruct (decide _); [|done]. apply map_sum_ext. intros order c _. unfold pre_active_entry. by rewrite E2, E3.
Qed.

Lemma quiet_moves a s s' : session_ok a s → quiet s s' → moves a (λ _, 0) s s'.
Proof.
  intros [K1 K2 K3 K4 K5] [Q1 Q2 Q3 Q4 Q5 _ _ _ Q9].
  assert (Hp : pending_map (store s') = pending_map (store s))
    by (unfold pending_map; by rewrite (sa_committed _ _ Q9), (sa_pending _ _ Q9)).
  split.
  - split; [by rewrite Q1|by rewrite Q2|by rewrite Q4|by rewrite (sa_base _ _ Q9)|done].
  - done.
  - intros r. unfold account, gained, lost, settled.
    rewrite !(weigh_cells_store _ s s') by done. rewrite !(weigh_entries_store _ s s') by (done || apply Q9).
    rewrite Q1, Q2, Q3, Q4, Q5. lia.
Qed.

(** ** Quiet computations *)

Definition quietM {A} (m : M (KernelSession B) A) : Prop := ∀ s, quiet s (m s).1.

Lemma quietM_bind {A A'} (m : M (KernelSession B) A) (f : A → M (KernelSession B) A') :
  quietM m → (∀ x, quietM (f x)) → quietM (m ≫= f).
Proof.
  intros Hm Hf s. unfold mbind, M_bind. specialize (Hm s). destruct (m s) as [s1 [x|t|]]; [|done..].
  etrans; [exact Hm|apply Hf].
Qed.
Lemma quietM_asks {A} (f : KernelSession B → outcome A) : quietM (asks f).
Proof. intros s. reflexivity. Qed.
Lemma quietM_gets {A} (f : KernelSession B → A) : quietM (gets f).
Proof. intros s. reflexivity. Qed.
Lemma quietM_ret {A} (x : A) : quietM (mret x).
Proof. intros s. reflexivity. Qed.
Lemma quietM_trap {A} t : quietM (trap (A := A) t).
Proof. intros s. reflexivity. Qed.
Lemma quietM_modify f : (∀ s, quiet s (f s)) → quietM (modify f).
Proof. intros Hf s. apply Hf. Qed.
Lemma quietM_for_each {A} (l : list A) (f : A → M (KernelSession B) ()) : (∀ x, quietM (f x)) → quietM (for_each l f).
Proof.
  intros Hf. induction l as [|x l IH]; [apply quietM_ret|]. apply quietM_bind; [apply Hf|done].
Qed.
Lemma quietM_store {A} (f : OverlayStore B → OverlayStore B * result StoreError A) :
  (∀ o, same_account o (f o).1) → quietM (on_store f).
Proof.
  intros Hf s. unfold on_store. specialize (Hf (store s)). destruct (f (store s)) as [o' x].
  cbn [fst] in *. by split.
Qed.
Lemma quietM_if {A} (P : Prop) `{Decision P} (m1 m2 : M (KernelSession B) A) :
  quietM m1 → quietM m2 → quietM (if decide P then m1 else m2).
Proof. by destruct (decide P). Qed.
Lemma quietM_bool {A} (b : bool) (m1 m2 : M (KernelSession B) A) :
  quietM m1 → quietM m2 → quietM (if b then m1 else m2).
Proof. by destruct b. Qed.

Ltac quiet_step :=
  match goal with
  | |- quietM (_ ≫= _) => apply quietM_bind; [|intros ?]
  | |- quietM (asks _) => apply quietM_asks
  | |- quietM (gets _) => apply quietM_gets
  | |- quietM (mret _) => apply quietM_ret
  | |- quietM (trap _) => apply quietM_trap
  | |- quietM (modify _) => apply quietM_modify; intros ?; by split
  | |- quietM (for_each _ _) => apply quietM_for_each; intros ?
  | |- quietM (on_store _) => apply quietM_store; intros ?; by split
  | |- quietM (if decide _ then _ else _) => apply quietM_if
  | |- quietM (if _ then _ else _) => apply quietM_bool
  | |- quietM (match ?x with _ => _ end) => destruct x
  end.
Ltac solve_quiet := repeat quiet_step.

Lemma quiet_amount_cell key : quietM (session_amount_cell (B := B) key).
Proof. unfold session_amount_cell. solve_quiet. Qed.
Lemma quiet_scan site element : quietM (scan (B := B) site element).
Proof. unfold scan, lift_entries. solve_quiet. Qed.
Lemma quiet_charge site element order cap : quietM (charge_write (B := B) site element order cap).
Proof. unfold charge_write. solve_quiet. Qed.
Lemma quiet_probe ow c order : quietM (probe (B := B) ow c order).
Proof. unfold probe, lift_entries. solve_quiet. Qed.
Lemma quiet_invalidate ow c : quietM (invalidate (B := B) ow c).
Proof. unfold invalidate. solve_quiet. Qed.
Lemma quiet_range_order site element index : quietM (range_order (B := B) site element index).
Proof. unfold range_order. quiet_step; [apply quiet_scan|]. solve_quiet. Qed.
Lemma quiet_take_one site element i order : quietM (take_one (B := B) site element i order).
Proof. unfold take_one. quiet_step; [solve_quiet|]. quiet_step; [apply quiet_probe|]. quiet_step; [solve_quiet|apply quiet_charge]. Qed.

(** A quiet computation that answered. *)
Lemma quiet_run {A} (m : M (KernelSession B) A) s s' x : quietM m → m s = (s', Done x) → quiet s s'.
Proof. intros Hm E. specialize (Hm s). by rewrite E in Hm. Qed.

(** ** Steps the account sees *)

Lemma set_buckets_moves a d s b :
  session_ok a s → table_ok b →
  (∀ r, tally quantity r b = tally quantity r (buckets s) + d r) → moves a d s (set_buckets b s).
Proof.
  intros [K1 K2 K3 K4 K5] Hb Hd. split; [by split|done|]. intros r. unfold account.
  cbn [buckets set_buckets]. rewrite Hd.
  change (gained (set_buckets b s) r) with (gained s r). change (lost (set_buckets b s) r) with (lost s r). lia.
Qed.

Lemma open_moves a s s' h x org rep :
  session_ok a s → held_ok h → on_buckets (b_open h x org) s = (s', Done rep) →
  moves a (λ r, weight quantity r x (Some h)) s s'.
Proof.
  intros Hok Hh Hrun. unfold on_buckets in Hrun. pose proof (open_effect quantity) as He.
  destruct (b_open h x org (buckets s)) as [b o] eqn:E. injection Hrun as <- ->.
  assert (Hall : ∀ r, table_ok b ∧ tally quantity r b = tally quantity r (buckets s) + weight quantity r x (Some h)).
  { intros r. destruct (He r (buckets s) h x org _ (so_buckets _ _ Hok) Hh) as [T Hb].
    rewrite E in T, Hb. cbn [fst snd silent] in T, Hb. split; [done|].
    change (taken_out quantity r []) with 0 in Hb. lia. }
  apply set_buckets_moves; [done|apply (Hall 0)|]. intros r. apply Hall.
Qed.

Lemma take_moves a s s' rep h :
  session_ok a s → on_buckets (b_take rep) s = (s', Done h) →
  b_get (buckets s) rep = Done h ∧ ∃ x, resources (buckets s) !! rep = Some x ∧
  moves a (λ r, - weight quantity r x (Some h)) s s'.
Proof.
  intros Hok Hrun. unfold on_buckets in Hrun. rewrite b_take_eq in Hrun.
  destruct (b_get (buckets s) rep) as [h'|t|] eqn:E; [|done..]. injection Hrun as <- ->.
  split; [done|]. apply b_get_done in E as [Es _].
  destruct (tally_clear quantity 0 (buckets s) rep h _ (so_buckets _ _ Hok) Es) as (T & x & Ex & _).
  exists x. split; [done|]. apply set_buckets_moves; [done|done|]. intros r.
  destruct (tally_clear quantity r (buckets s) rep h _ (so_buckets _ _ Hok) Es) as (_ & x' & Ex' & Ht).
  rewrite Ex in Ex'. injection Ex' as <-. lia.
Qed.

Lemma bucket_op_moves a s s' op out :
  session_ok a s → op_ok op → guest_op op → on_buckets (run_op op) s = (s', Done out) →
  (∀ r, opened quantity r [op] = 0) → (∀ r, taken_out quantity r out = 0) → moves a (λ _, 0) s s'.
Proof.
  intros Hok Hop _ Hrun Hin Hout. unfold on_buckets in Hrun.
  destruct (run_op op (buckets s)) as [b o] eqn:E. injection Hrun as <- ->.
  assert (Hall : ∀ r, table_ok b ∧ tally quantity r b = tally quantity r (buckets s) + 0).
  { intros r. destruct (run_op_effect quantity r op (buckets s) _ (so_buckets _ _ Hok) Hop) as [T Hb].
    rewrite E in T, Hb. cbn [fst snd] in T, Hb. rewrite Hin, Hout in Hb. split; [done|lia]. }
  apply set_buckets_moves; [done|apply (Hall 0)|]. intros r. apply Hall.
Qed.

Lemma queue_pending o key op :
  pending_map (queue_delta o key op).1 = <[key := default [] (pending_map o !! key) ++ [op]]> (pending_map o).
Proof.
  apply map_eq. intros k. unfold pending_map, queue_delta. cbn. rewrite lookup_extend_entries.
  destruct (decide (key = k)) as [<-|Hne].
  - rewrite !lookup_insert_eq, lookup_extend_entries. unfold extend_list.
    destruct (l_pending (active o) !! key); cbn; [by rewrite app_assoc|done].
  - by rewrite !lookup_insert_ne, lookup_extend_entries by done.
Qed.

Lemma queue_moves a s s' key op u :
  session_ok a s → on_store (λ o, queue_delta o key op) s = (s', Done u) →
  buckets s' = buckets s ∧
  moves a (λ r, if decide (d_cells (denominations (fixed s)) !! key = Some r)
                then credit_of op - debit_of op else 0) s s'.
Proof.
  intros [K1 K2 K3 K4 K5] Hrun. unfold on_store in Hrun.
  pose proof (queue_pending (store s) key op) as Hp.
  set (o' := (queue_delta (store s) key op).1) in Hp.
  assert (E : (set_store o' s, Done ()) = (s', Done u)) by exact Hrun. injection E as <- _.
  split; [done|]. split; [by split|done|]. intros r.
  assert (Hcells : ∀ f, weigh_cells f (set_store o' s) r = weigh_cells f s r +
    if decide (d_cells (denominations (fixed s)) !! key = Some r) then f op else 0).
  { intros f. unfold weigh_cells. cbn [store set_store fixed]. rewrite Hp, map_sum_insert.
    destruct (pending_map (store s) !! key) as [ops|]; cbn [from_option id];
      destruct (decide (d_cells (denominations (fixed s)) !! key = Some r)); try lia.
    - rewrite fmap_app, sum_Z_app. cbn. lia.
    - cbn. lia. }
  assert (Hent : ∀ f, weigh_entries f (set_store o' s) r = weigh_entries f s r).
  { intros f. by apply weigh_entries_store. }
  unfold account, gained, lost. rewrite !Hcells, !Hent.
  change (settled (set_store o' s) r) with (settled s r). cbn [buckets supply escrow set_store].
  destruct (decide _); lia.
Qed.

Lemma delta_add_done e m x amt m' u r :
  delta_add e m x amt = (m', Ok u) → default 0 (m' !! r) = default 0 (m !! r) + if decide (x = r) then amt else 0.
Proof.
  unfold delta_add. destruct (decide (amt = 0)) as [->|Hne].
  { intros [= <- _]. destruct (decide _); lia. }
  destruct (checked_add 128 _ amt) as [total|] eqn:E; [|done]. apply checked_add_Some in E as [-> _].
  intros [= <- _]. destruct (decide (x = r)) as [<-|Hne'].
  - by rewrite lookup_insert_eq.
  - rewrite lookup_insert_ne by done. lia.
Qed.

(** A session that differs only in its supply or escrow record. *)
Lemma set_supply_moves a d s x :
  session_ok a s → (∀ r, burned x r - minted x r = burned (supply s) r - minted (supply s) r + d r) →
  moves a d s (set_supply x s).
Proof.
  intros [K1 K2 K3 K4 K5] Hd. split; [by split|done|]. intros r. specialize (Hd r). unfold account, gained, lost.
  cbn [supply set_supply buckets escrow]. rewrite !(weigh_cells_store _ s (set_supply x s)) by done.
  rewrite !(weigh_entries_store _ s (set_supply x s)) by done.
  change (settled (set_supply x s) r) with (settled s r). lia.
Qed.

Lemma mint_moves a s s' x amt u :
  session_ok a s → on_supply (λ d, supply_mint d x amt) s = (s', Done u) →
  s' = set_supply (supply s') s ∧ moves a (λ r, - if decide (x = r) then amt else 0) s s'.
Proof.
  intros Hok Hrun. unfold on_supply, supply_mint in Hrun.
  destruct (delta_add SupplyOutOfBounds (sd_minted (supply s)) x amt) as [m' o] eqn:E.
  injection Hrun as <- Ho. apply lift_done in Ho as ->. split; [done|].
  apply set_supply_moves; [done|]. intros r. pose proof (delta_add_done _ _ _ _ _ _ r E) as Hd.
  unfold minted, burned. cbn [sd_minted sd_burned]. lia.
Qed.

Lemma burn_moves a s s' x amt u :
  session_ok a s → on_supply (λ d, supply_burn d x amt) s = (s', Done u) →
  s' = set_supply (supply s') s ∧ moves a (λ r, if decide (x = r) then amt else 0) s s'.
Proof.
  intros Hok Hrun. unfold on_supply, supply_burn in Hrun.
  destruct (delta_add SupplyOutOfBounds (sd_burned (supply s)) x amt) as [m' o] eqn:E.
  injection Hrun as <- Ho. apply lift_done in Ho as ->. split; [done|].
  apply set_supply_moves; [done|]. intros r. pose proof (delta_add_done _ _ _ _ _ _ r E) as Hd.
  unfold minted, burned. cbn [sd_minted sd_burned]. lia.
Qed.

Lemma set_escrow_moves a d s x :
  session_ok a s → escrow_ok x →
  (∀ r, escrow_issued x r - escrow_claimed x r = escrow_issued (escrow s) r - escrow_claimed (escrow s) r + d r) →
  moves a d s (set_escrow x s).
Proof.
  intros [K1 K2 K3 K4 K5] Hx Hd. split; [by split|done|]. intros r. specialize (Hd r). unfold account, gained, lost.
  cbn [supply set_escrow buckets escrow]. rewrite !(weigh_cells_store _ s (set_escrow x s)) by done.
  rewrite !(weigh_entries_store _ s (set_escrow x s)) by done.
  change (settled (set_escrow x s) r) with (settled s r). lia.
Qed.

Lemma claim_moves a s s' c u :
  session_ok a s → on_escrow (λ d, escrow_claim d c) s = (s', Done u) →
  s' = set_escrow (escrow s') s ∧
  moves a (λ r, - if decide (crossed_resource c = r) then crossed_amount c else 0) s s'.
Proof.
  intros Hok Hrun. unfold on_escrow, escrow_claim in Hrun.
  destruct (delta_add EscrowOverflow (sd_claimed (escrow s)) _ _) as [m' o] eqn:E.
  injection Hrun as <- Ho. apply lift_done in Ho as ->. split; [done|].
  apply set_escrow_moves; [done|apply (so_escrow _ _ Hok)|]. intros r.
  pose proof (delta_add_done _ _ _ _ _ _ r E) as Hd. unfold escrow_claimed, escrow_issued.
  cbn [sd_claimed issued_at]. lia.
Qed.

(** The saturating fold of an execution's issues is its sum, cut at the width. *)
Definition issues_sum (d : EscrowDelta) (r : ResourceAddr) : Z :=
  map_sum (λ _ c, if decide (crossed_resource c = r) then crossed_amount c else 0) (issued_at d).

Lemma issues_fold l acc :
  0 ≤ acc ≤ u128_max → Forall (λ c, 0 ≤ crossed_amount c) l →
  foldl (λ total c, saturating_add 128 total (crossed_amount c)) acc l
    = Z.min (acc + sum_Z (crossed_amount <$> l)) u128_max.
Proof.
  intros Hacc Hl. revert acc Hacc. induction Hl as [|c l Hc Hl IH]; intros acc Hacc; cbn [foldl].
  - cbn. lia.
  - assert (0 ≤ sum_Z (crossed_amount <$> l)).
    { clear -Hl. induction Hl; cbn; [lia|]. unfold sum_Z in *. lia. }
    rewrite fmap_cons, sum_Z_cons, IH by (unfold saturating_add; lia). unfold saturating_add. lia.
Qed.

Lemma issued_sum d r : escrow_ok d → escrow_issued d r = Z.min (issues_sum d r) u128_max.
Proof.
  intros Hd. unfold escrow_issued. rewrite issues_fold.
  - rewrite Z.add_0_l. f_equal. unfold issues_sum, map_sum.
    rewrite (sum_Z_perm _ (crossed_amount <$> filter (λ c, crossed_resource c = r) (map_to_list (issued_at d)).*2)).
    + induction (map_to_list (issued_at d)) as [|[e c] l IH]; [done|].
      rewrite !fmap_cons, filter_cons. cbn [snd]. rewrite sum_Z_cons.
      destruct (decide (crossed_resource c = r)); [rewrite fmap_cons, sum_Z_cons|]; lia.
    + by rewrite map_iter_perm.
  - unfold width_max. lia.
  - apply Forall_forall. intros c [_ Hc]%list_elem_of_filter.
    apply list_elem_of_fmap in Hc as ([e c'] & -> & Hin). apply elem_of_map_iter in Hin. by eapply Hd.
Qed.

Lemma issue_moves a s s' node output c u :
  session_ok a s → 0 ≤ crossed_amount c → issued_at (escrow s) !! (node, output) = None →
  on_escrow (λ d, escrow_issue d node output c) s = (s', Done u) →
  s' = set_escrow (escrow s') s ∧
  moves a (λ r, if decide (crossed_resource c = r) then crossed_amount c else 0) s s'.
Proof.
  intros Hok Hc Hfresh Hrun. unfold on_escrow, escrow_issue in Hrun.
  destruct (checked_add 128 _ (crossed_amount c)) as [total|] eqn:E; [|done].
  apply checked_add_Some in E as [-> Hle]. injection Hrun as <- _. split; [done|].
  pose proof (so_escrow _ _ Hok) as He. set (d := {| issued_at := _; sd_claimed := _ |}).
  assert (Hd : escrow_ok d).
  { intros e c'. subst d. cbn. destruct (decide ((node, output) = e)) as [<-|Hne].
    - rewrite lookup_insert_eq. by intros [= <-].
    - rewrite lookup_insert_ne by done. apply He. }
  apply set_escrow_moves; [done|done|]. intros r. rewrite !issued_sum by done.
  rewrite issued_sum in Hle by done.
  assert (issues_sum d r = issues_sum (escrow s) r + if decide (crossed_resource c = r) then crossed_amount c else 0) as ->.
  { unfold issues_sum. subst d. cbn [issued_at]. rewrite map_sum_insert, Hfresh. cbn. lia. }
  change (escrow_claimed d r) with (escrow_claimed (escrow s) r).
  destruct (decide (crossed_resource c = r)) as [<-|Hne]; unfold width_max in *; lia.
Qed.

Lemma reserve_moves a s rep :
  session_ok a s → rep ∉ taken s →
  moves a (λ r, - reserved_share (fixed s) r rep) s (set_taken ({[rep]} ∪ taken s) s).
Proof.
  intros [K1 K2 K3 K4 K5] Hrep. split; [by split|done|]. intros r. unfold account, gained, lost.
  cbn [supply set_taken buckets escrow]. rewrite !(weigh_cells_store _ s (set_taken ({[rep]} ∪ taken s) s)) by done.
  rewrite !(weigh_entries_store _ s (set_taken ({[rep]} ∪ taken s) s)) by done.
  unfold settled. cbn [taken fixed set_taken].
  rewrite (sum_Z_perm _ (reserved_share (fixed s) r <$> rep :: elements (taken s))).
  - rewrite fmap_cons, sum_Z_cons. lia.
  - apply Permutation_map. by apply elements_union_singleton.
Qed.

(** One entry changed in the active layer. *)
Definition presence (x : option bytes) : Z := match x with Some _ => 1 | None => 0 end.

Lemma flip_presence before after : (flip before after).1 - (flip before after).2 = presence after - presence before.
Proof. by destruct before, after. Qed.

Lemma entries_net s r :
  weigh_entries fst s r - weigh_entries snd s r =
  map_sum (λ p changes,
    if decide (d_entries (denominations (fixed s)) !! p = Some r)
    then map_sum (λ order change, presence change - presence (pre_active_entry (store s) p.1 p.2 order)) changes else 0)
    (l_entries (active (store s))).
Proof.
  unfold weigh_entries. rewrite map_sum_minus. apply map_sum_ext. intros p ch _.
  destruct (decide _); [|lia]. rewrite map_sum_minus. apply map_sum_ext. intros order c _. apply flip_presence.
Qed.

Lemma entry_moves a s o' ow c order change :
  session_ok a s → base o' = base (store s) → committed o' = committed (store s) →
  l_pending (active o') = l_pending (active (store s)) →
  l_entries (active o') = nested_insert (l_entries (active (store s))) (ow, c) order change →
  moves a (λ r, if decide (d_entries (denominations (fixed s)) !! (ow, c) = Some r)
                then presence change - presence (entry_value (store s) ow c order) else 0) s (set_store o' s).
Proof.
  intros [K1 K2 K3 K4 K5] E1 E2 E3 E4.
  split; [split; cbn [store set_store]; rewrite ?E1; done|done|]. intros r.
  assert (Hp : pending_map o' = pending_map (store s)) by (unfold pending_map; by rewrite E2, E3).
  assert (Hnet : weigh_entries fst (set_store o' s) r - weigh_entries snd (set_store o' s) r =
    weigh_entries fst s r - weigh_entries snd s r +
    if decide (d_entries (denominations (fixed s)) !! (ow, c) = Some r)
    then presence change - presence (entry_value (store s) ow c order) else 0).
  { rewrite !entries_net. cbn [store set_store fixed].
    assert (pre_active_entry o' = pre_active_entry (store s)) as -> by (unfold pre_active_entry; by rewrite E1, E2).
    rewrite E4. unfold nested_insert. rewrite map_sum_insert. unfold entry_value. cbn [fst snd].
    destruct (decide (d_entries (denominations (fixed s)) !! (ow, c) = Some r)) as [Hd|Hd].
    2: { destruct (l_entries (active (store s)) !! (ow, c)); cbn [from_option]; rewrite ?decide_False by done; lia. }
    rewrite map_sum_insert.
    destruct (l_entries (active (store s)) !! (ow, c)) as [ch|]; cbn [from_option id mbind option_bind].
    - rewrite ?decide_True by done. cbn [fst snd].
      destruct (ch !! order) as [old|]; cbn [from_option]; lia.
    - rewrite map_sum_empty, lookup_empty. cbn [from_option]. lia. }
  unfold account, gained, lost. change (settled (set_store o' s) r) with (settled s r).
  rewrite !(weigh_cells_store _ s (set_store o' s)) by done.
  cbn [buckets supply escrow set_store]. lia.
Qed.

(** ** Operations *)

Ltac bind_done H := apply M_bind_done in H as (?s & ?x & ?E & H).
(** A question asked of the state leaves it alone. *)
Lemma asks_done {A} (f : KernelSession B → outcome A) s s' x : asks f s = (s', Done x) → s' = s ∧ f s = Done x.
Proof. unfold asks. naive_solver. Qed.
Lemma gets_done {A} (f : KernelSession B → A) s s' x : gets f s = (s', Done x) → s' = s ∧ f s = x.
Proof. unfold gets. naive_solver. Qed.
Ltac ask H E :=
  apply M_bind_done in H as (?s & ?x & E & H); first [apply asks_done in E as [-> E]|apply gets_done in E as [-> E]].

Lemma acting_done s site element op held :
  acting s site element op = Done held →
  grants held op = true ∧ ∃ rep, rep_at s site element = Done rep ∧ table (fixed s) !! rep = Some held.
Proof.
  unfold acting, capability_at. intros (held' & Hat & Hg)%outcome_bind_done.
  apply outcome_bind_done in Hat as (rep & Hrep & Ht). apply some_or_done in Ht.
  destruct (negb _); [done|]. destruct (grants held' op) eqn:E; [|done]. injection Hg as <-. eauto.
Qed.

Lemma value_of_done s site element r :
  value_of s site element = Done r →
  ∃ rep, rep_at s site element = Done rep ∧ materialized_resource (fixed s) rep = Some r.
Proof.
  unfold value_of, cell_resource, rep_at. intros Hv%some_or_done.
  destruct (site_entry s site element) as [[rep|]|t|]; [|done..]. by exists rep.
Qed.

(** The cell a value movement acts on holds the resource the movement is in. *)
Lemma movement_denominated a s site element op held r :
  session_ok a s → acting s site element op = Done held → value_of s site element = Done r →
  (∀ key, value_key held = Some key → d_cells (denominations (fixed s)) !! key = Some r) ∧
  (∀ i mv, held = Cap.Instances i mv → d_entries (denominations (fixed s)) !! (iv_owner i, iv_collection i) = Some r).
Proof.
  intros Hok (_ & rep & Hrep & Ht)%acting_done (rep' & Hrep' & Hr)%value_of_done.
  rewrite Hrep in Hrep'. injection Hrep' as <-. destruct (so_contents _ _ Hok) as [C1 C2 _ _]. split.
  - intros key Hk. by eapply C1.
  - intros i mv ->. by eapply C2.
Qed.

Lemma settling_key site element held op settles :
  settling site element held op = Done settles →
  match settles with Immediate key | Queued key => value_key held = Some key end.
Proof. unfold settling. intros Hs%some_or_done. destruct held; cbn in Hs; by simplify_eq. Qed.

Lemma judge_credit_done s site element funds :
  judge_credit s site element funds = Done () →
  ∃ r, value_of s site element = Done r ∧ resources (buckets s) !! funds = Some r.
Proof.
  unfold judge_credit. intros (r & Hv & H1)%outcome_bind_done. apply outcome_bind_done in H1 as (r' & Hr & H1).
  apply resource_of_done in Hr as [Hr _]. destruct (decide (r = r')) as [<-|]; [|done]. by exists r.
Qed.

(** The net of a movement and the bucket it made or consumed. *)
Lemma weight_some m r x h : weight m r x (Some h) = if decide (x = r) then m h else 0.
Proof. done. Qed.
Lemma decide_some (x r : Z) (u v : Z) :
  (if decide (Some x = Some r) then u else v) = if decide (x = r) then u else v.
Proof. destruct (decide (x = r)) as [->|]; [by rewrite decide_True|]. rewrite decide_False; [done|]. naive_solver. Qed.

Lemma cell_take_moves a s s' site element amt rep :
  session_ok a s → in_width 128 amt → cell_take site element amt s = (s', Done rep) → moves a (λ _, 0) s s'.
Proof.
  intros Hok Hamt Hrun. unfold cell_take in Hrun. ask Hrun Ea. ask Hrun Ev. ask Hrun Es.
  apply M_bind_done in Hrun as (s1 & key & Ek & Hrun). apply M_bind_done in Hrun as (s2 & u & Eq & Hopen).
  destruct (movement_denominated a s site element Op.Take x x0 Hok Ea Ev) as [Hden _].
  apply settling_key in Es.
  assert (Hq : quiet s s1 ∧ value_key x = Some key).
  { destruct x1 as [k|k].
    - apply M_bind_done in Ek as (s3 & v & E1 & Ek). ask Ek E2. injection Ek as <- <-.
      split; [|done]. by eapply quiet_run; [apply quiet_amount_cell|].
    - injection Ek as <- <-. by split. }
  destruct Hq as [Hq Hk]. pose proof (quiet_moves a s s1 Hok Hq) as M1.
  destruct (queue_moves a s1 s2 key (Sub amt) u (mv_ok _ _ _ _ M1) Eq) as [Hb M2].
  pose proof (open_moves a s2 s' (HAmount amt) x0 (Some key) rep (mv_ok _ _ _ _ M2) Hamt Hopen) as M3.
  eapply moves_ext; [|exact (moves_trans _ _ _ _ _ _ M1 (moves_trans _ _ _ _ _ _ M2 M3))].
  intros r. cbn beta. rewrite (qu_fixed _ _ Hq), (Hden key Hk), decide_some, weight_some. cbn [credit_of debit_of quantity].
  destruct (decide (x0 = r)); lia.
Qed.

Lemma cell_put_moves a s s' site element funds u :
  session_ok a s → cell_put site element funds s = (s', Done u) → moves a (λ _, 0) s s'.
Proof.
  intros Hok Hrun. unfold cell_put in Hrun. ask Hrun Ea. ask Hrun Ej. ask Hrun Eamt. ask Hrun Es.
  apply M_bind_done in Hrun as (s1 & key & Ek & Hrun). apply M_bind_done in Hrun as (s2 & u2 & Eq & Hrun).
  apply M_bind_done in Hrun as (s3 & h & Et & Hret). injection Hret as <- _.
  destruct x0. destruct (judge_credit_done _ _ _ _ Ej) as (r0 & Ev & Er).
  destruct (movement_denominated a s site element Op.Put x r0 Hok Ea Ev) as [Hden _]. apply settling_key in Es.
  assert (Hq : quiet s s1 ∧ value_key x = Some key).
  { destruct x2 as [k|k].
    - apply M_bind_done in Ek as (s4 & v & E1 & Ek). destruct (checked_add 128 v x1); [|done]. injection Ek as <- <-.
      split; [|done]. by eapply quiet_run; [apply quiet_amount_cell|].
    - injection Ek as <- <-. by split. }
  destruct Hq as [Hq Hk]. pose proof (quiet_moves a s s1 Hok Hq) as M1.
  destruct (queue_moves a s1 s2 key (Add x1) u2 (mv_ok _ _ _ _ M1) Eq) as [Hb M2].
  destruct (take_moves a s2 s3 funds h (mv_ok _ _ _ _ M2) Et) as (Hg & r1 & Er1 & M3).
  rewrite Hb, (qu_buckets _ _ Hq) in Hg, Er1. rewrite Er in Er1. injection Er1 as <-.
  apply b_amount_done in Eamt as [Eamt Hr]. apply b_get_done in Hg as [Hg _]. rewrite Eamt in Hg. injection Hg as <-.
  eapply moves_ext; [|exact (moves_trans _ _ _ _ _ _ M1 (moves_trans _ _ _ _ _ _ M2 M3))].
  intros r. cbn beta. rewrite (qu_fixed _ _ Hq), (Hden key Hk), decide_some, weight_some. cbn [credit_of debit_of quantity].
  destruct (decide (r0 = r)); lia.
Qed.

Lemma reserve_take_moves a s s' site element rep :
  session_ok a s → reserve_take site element s = (s', Done rep) → moves a (λ _, 0) s s'.
Proof.
  intros Hok Hrun. unfold reserve_take in Hrun. ask Hrun Ea. ask Hrun Ev. ask Hrun Er. ask Hrun Et. subst x2.
  destruct (decide (x1 ∈ taken s)) as [|Hnew]; [done|]. apply M_bind_done in Hrun as (s1 & u & Em & Hrun).
  injection Em as <- _. ask Hrun Eo.
  unfold reserved in Ea. apply outcome_bind_done in Ea as (held & Ea & Hamt).
  apply acting_done in Ea as (_ & rep0 & Hrep & Htab). rewrite Er in Hrep. injection Hrep as <-.
  destruct held; try done. destruct (held_reservation _ _ _); [|done]. injection Hamt as <-.
  apply value_of_done in Ev as (rep0 & Hrep & Hres). rewrite Er in Hrep. injection Hrep as <-.
  assert (Hw : in_width 128 amount) by (by eapply (ca_reserved _ (so_contents _ _ Hok))).
  pose proof (reserve_moves a s x1 Hok Hnew) as M1.
  pose proof (open_moves a _ s' (HAmount amount) x0 x2 rep (mv_ok _ _ _ _ M1) Hw Hrun) as M2.
  eapply moves_ext; [|exact (moves_trans _ _ _ _ _ _ M1 M2)].
  intros r. cbn beta. unfold reserved_share. rewrite Htab, Hres, decide_some, weight_some. cbn [quantity].
  destruct (decide (x0 = r)); lia.
Qed.

Lemma mint_op_moves a s s' grant amt rep :
  session_ok a s → in_width 128 amt → mint grant amt s = (s', Done rep) → moves a (λ _, 0) s s'.
Proof.
  intros Hok Hamt Hrun. unfold mint in Hrun. ask Hrun Ei. apply M_bind_done in Hrun as (s1 & u & Em & Hopen).
  destruct (mint_moves a s s1 x amt u Hok Em) as [_ M1].
  pose proof (open_moves a s1 s' (HAmount amt) x None rep (mv_ok _ _ _ _ M1) Hamt Hopen) as M2.
  eapply moves_ext; [|exact (moves_trans _ _ _ _ _ _ M1 M2)].
  intros r. cbn beta. rewrite weight_some. cbn [quantity]. destruct (decide (x = r)); lia.
Qed.

Lemma mint_instances_moves a s s' grant ids rep :
  session_ok a s → mint_instances grant ids s = (s', Done rep) → moves a (λ _, 0) s s'.
Proof.
  intros Hok Hrun. unfold mint_instances in Hrun. ask Hrun Ei. ask Hrun En. apply M_bind_done in Hrun as (s1 & u & Em & Hopen).
  destruct (mint_moves a s s1 _ _ u Hok Em) as [_ M1].
  pose proof (open_moves a s1 s' (HInstances (list_to_set x0)) x None rep (mv_ok _ _ _ _ M1) I Hopen) as M2.
  eapply moves_ext; [|exact (moves_trans _ _ _ _ _ _ M1 M2)].
  intros r. cbn beta. rewrite weight_some. cbn [quantity]. destruct (decide (x = r)); lia.
Qed.

Lemma burn_op_moves a s s' funds u :
  session_ok a s → burn funds s = (s', Done u) → moves a (λ _, 0) s s'.
Proof.
  intros Hok Hrun. unfold burn in Hrun. ask Hrun Ec. ask Hrun Er. ask Hrun Eg.
  apply M_bind_done in Hrun as (s1 & u1 & Em & Hrun). apply M_bind_done in Hrun as (s2 & h & Et & Hret).
  injection Hret as <- _. destruct (burn_moves a s s1 _ _ u1 Hok Em) as [Hs1 M1].
  destruct (take_moves a s1 s2 funds h (mv_ok _ _ _ _ M1) Et) as (Hg & r1 & Er1 & M2).
  rewrite Hs1 in Hg, Er1. cbn [buckets set_supply] in Hg, Er1. rewrite Eg in Hg. injection Hg as <-.
  apply resource_of_done in Ec as [Ec _]. rewrite Ec in Er1. injection Er1 as <-.
  assert (x0 = x) as ->.
  { apply some_or_done in Er. destruct (filter _ _) as [|g l] eqn:Ef; [done|]. injection Er as <-.
    assert (Hin : g ∈ g :: l) by constructor. rewrite <- Ef in Hin. by apply list_elem_of_filter in Hin as [[? _] _]. }
  eapply moves_ext; [|exact (moves_trans _ _ _ _ _ _ M1 M2)].
  intros r. cbn beta. rewrite weight_some. destruct (decide (x = r)); lia.
Qed.

Lemma record_crossing_quiet key v s s' u : record_crossing key v s = (s', Done u) → quiet s s'.
Proof. unfold record_crossing. intros E. injection E as <- _. by split. Qed.

Lemma escrow_out_moves a s s' node output funds dep c :
  session_ok a s → issued_at (escrow s) !! (node, output) = None →
  escrow_out node output funds dep s = (s', Done c) → moves a (λ _, 0) s s'.
Proof.
  intros Hok Hfresh Hrun. unfold escrow_out in Hrun. ask Hrun Er. ask Hrun Eamt. ask Hrun Eo. ask Hrun Et.
  apply M_bind_done in Hrun as (s1 & h & Etk & Hrun). apply M_bind_done in Hrun as (s2 & u2 & Ei & Hrun).
  ask Hrun Etx. ask Hrun Eb. apply M_bind_done in Hrun as (s3 & u3 & Ec & Hret). injection Hret as <- _.
  assert (Hs1 : escrow s1 = escrow s).
  { unfold on_buckets in Etk. destruct (b_take funds (buckets s)) as [b o]. by injection Etk as <- _. }
  destruct (take_moves a s s1 funds h Hok Etk) as (Hg & r1 & Er1 & M1).
  apply resource_of_done in Er as [Er _]. rewrite Er in Er1. injection Er1 as <-.
  apply b_amount_done in Eamt as [Eamt _]. apply b_get_done in Hg as [Hg _]. rewrite Eamt in Hg. injection Hg as <-.
  assert (Hw : in_width 128 x0) by apply (ok_held _ (so_buckets _ _ Hok) _ _ Eamt). unfold in_width in Hw.
  rewrite <- Hs1 in Hfresh.
  destruct (issue_moves a s1 s2 node output {| crossed_resource := x; crossed_amount := x0 |} u2 (mv_ok _ _ _ _ M1) (proj1 Hw) Hfresh Ei) as [_ M2].
  pose proof (quiet_moves a s2 s3 (mv_ok _ _ _ _ M2) (record_crossing_quiet _ _ _ _ _ Ec)) as M3.
  eapply moves_ext; [|exact (moves_trans _ _ _ _ _ _ M1 (moves_trans _ _ _ _ _ _ M2 M3))].
  intros r. cbn beta. rewrite weight_some. cbn [quantity crossed_resource crossed_amount]. destruct (decide (x = r)); lia.
Qed.

Lemma escrow_in_moves a s s' arrival rep :
  session_ok a s → in_width 128 (crossed_amount (a_crossed arrival)) →
  escrow_in arrival s = (s', Done rep) → moves a (λ _, 0) s s'.
Proof.
  intros Hok Hw Hrun. unfold escrow_in in Hrun. destruct (decide _); [done|].
  apply M_bind_done in Hrun as (s1 & u1 & Ec & Hrun). ask Hrun Etx. ask Hrun Eb.
  apply M_bind_done in Hrun as (s2 & u2 & Er & Hopen).
  destruct (claim_moves a s s1 _ u1 Hok Ec) as [_ M1].
  pose proof (quiet_moves a s1 s2 (mv_ok _ _ _ _ M1) (record_crossing_quiet _ _ _ _ _ Er)) as M2.
  pose proof (open_moves a s2 s' (HAmount (crossed_amount (a_crossed arrival))) _ None rep (mv_ok _ _ _ _ M2) Hw Hopen) as M3.
  eapply moves_ext; [|exact (moves_trans _ _ _ _ _ _ M1 (moves_trans _ _ _ _ _ _ M2 M3))].
  intros r. cbn beta. rewrite weight_some. cbn [quantity]. destruct (decide (_ = r)); lia.
Qed.

(** *** Entries *)

Lemma entry_value_same o o' ow c order : same_account o o' → entry_value o' ow c order = entry_value o ow c order.
Proof. intros [E1 E2 E3 _]. unfold entry_value, pre_active_entry. by rewrite E1, E2, E3. Qed.

Lemma entry_value_nested o o' ow c order change order' :
  base o' = base o → committed o' = committed o →
  l_entries (active o') = nested_insert (l_entries (active o)) (ow, c) order change →
  order' ≠ order → entry_value o' ow c order' = entry_value o ow c order'.
Proof.
  intros E1 E2 E3 Hne. unfold entry_value, pre_active_entry. rewrite E1, E2, E3. unfold nested_insert.
  rewrite lookup_insert_eq. cbn [mbind option_bind]. rewrite lookup_insert_ne by done.
  destruct (l_entries (active o) !! (ow, c)); done.
Qed.

(** A probe answers whether the entry is there. *)
Lemma probe_done a s s' ow c order found :
  session_ok a s → probe ow c order s = (s', Done found) →
  quiet s s' ∧ found = bool_decide (is_Some (entry_value (store s) ow c order)).
Proof.
  intros Hok Hrun. split; [by eapply quiet_run; [apply quiet_probe|]|].
  unfold probe, lift_entries in Hrun. apply M_bind_done in Hrun as (s1 & l & El & Hret).
  injection Hret as <- <-. unfold on_store in El. cbn in El. injection El as _ <-.
  rewrite (entry_value_spec (store s) a) by apply (so_base _ _ Hok).
  rewrite (overlay_scan (store s) a) by (apply (so_base _ _ Hok) || apply (so_small _ _ Hok) || (unfold width_max; lia)).
  set (m := a_entries (overlay_abs (store s) a) ow c). destruct (m !! order) as [v|] eqn:E.
  - rewrite (bool_decide_eq_true_2 (is_Some (Some v))) by done. destruct (takeZ 1 (range_list order order m)) as [|p l] eqn:El; [|done].
    assert (Hin : (order, v) ∈ range_list order order m) by (apply elem_of_range_list; split; [lia|done]).
    unfold takeZ in El. destruct (decide _); [rewrite El in Hin; by apply not_elem_of_nil in Hin|].
    destruct (range_list order order m); [by apply not_elem_of_nil in Hin|done].
  - rewrite (bool_decide_eq_false_2 (is_Some (None : option bytes))) by (by intros []). destruct (range_list order order m) as [|[k v] l] eqn:El; [done|].
    assert (Hin : (k, v) ∈ range_list order order m) by (rewrite El; constructor).
    apply elem_of_range_list in Hin as [Hk Hm]. assert (k = order) as -> by lia. by rewrite E in Hm.
Qed.

(** Changing the entries of a list of orders, one by one. *)
Definition edits (f : Z → OverlayStore B → OverlayStore B * result StoreError ()) (ow : Address) (c : CollectionId)
    (change : option bytes) : Prop :=
  ∀ order o, (f order o).2 = Ok () ∧ base (f order o).1 = base o ∧ committed (f order o).1 = committed o ∧
    l_pending (active (f order o).1) = l_pending (active o) ∧
    l_entries (active (f order o).1) = nested_insert (l_entries (active o)) (ow, c) order change.

Lemma edit_all a f ow c change before l s s' u :
  edits f ow c change → session_ok a s → NoDup l →
  (∀ x, x ∈ l → presence (entry_value (store s) ow c x) = before) →
  for_each l (λ order, on_store (f order)) s = (s', Done u) →
  buckets s' = buckets s ∧
  moves a (λ r, if decide (d_entries (denominations (fixed s)) !! (ow, c) = Some r)
                then Z.of_nat (length l) * (presence change - before) else 0) s s'.
Proof.
  intros Hf Hok Hnd. revert s Hok. induction Hnd as [|x l Hx Hnd IH]; intros s Hok Hl Hrun; cbn [for_each] in Hrun.
  { injection Hrun as <- _. split; [done|]. split; [done|done|]. intros r. cbn [length]. destruct (decide _); lia. }
  apply M_bind_done in Hrun as (s1 & u1 & E1 & Hrun). unfold on_store in E1.
  destruct (Hf x (store s)) as (F1 & F2 & F3 & F4 & F5). destruct (f x (store s)) as [o' res]. cbn [fst snd] in *.
  subst res. injection E1 as <- _.
  pose proof (entry_moves a s o' ow c x change Hok F2 F3 F4 F5) as M1.
  destruct (IH (set_store o' s) (mv_ok _ _ _ _ M1)) as [Hb M2].
  - intros y Hy. cbn [store set_store]. rewrite (entry_value_nested (store s) o' ow c x change y F2 F3 F5).
    + apply Hl. by constructor.
    + intros ->. done.
  - done.
  - split; [done|]. eapply moves_ext; [|exact (moves_trans _ _ _ _ _ _ M1 M2)]. intros r. cbn beta.
    cbn [fixed set_store length]. rewrite (Hl x) by constructor. destruct (decide _); lia.
Qed.

Lemma for_each_take_one a l site element i s s' u :
  session_ok a s → for_each l (take_one site element i) s = (s', Done u) →
  quiet s s' ∧ ∀ x, x ∈ l → is_Some (entry_value (store s) (iv_owner i) (iv_collection i) x).
Proof.
  revert s. induction l as [|x l IH]; intros s Hok Hrun; cbn [for_each] in Hrun.
  { injection Hrun as <- _. split; [done|]. by intros x ?%not_elem_of_nil. }
  apply M_bind_done in Hrun as (s1 & u1 & E1 & Hrun).
  assert (Hq : quiet s s1) by (eapply quiet_run; [apply quiet_take_one|done]).
  unfold take_one in E1. destruct (negb _); [done|]. apply M_bind_done in E1 as (s2 & held & Ep & E1).
  destruct (probe_done a _ _ _ _ _ _ Hok Ep) as [_ Hheld].
  destruct held; [|done]. symmetry in Hheld. apply bool_decide_eq_true in Hheld.
  destruct (IH s1 (mv_ok _ _ _ _ (quiet_moves a s s1 Hok Hq)) Hrun) as [Hq' Hl].
  split; [by transitivity s1|]. intros y [->|Hy]%elem_of_cons; [done|].
  rewrite <- (entry_value_same (store s) (store s1)) by apply (qu_store _ _ Hq). by apply Hl.
Qed.

Lemma distinct_ids_done ids out : distinct_ids ids = Some out → out = ids ∧ NoDup ids.
Proof. unfold distinct_ids. repeat case_decide; naive_solver. Qed.

Lemma acting_interval_done s site element op i :
  acting_interval s site element op = Done i →
  ∃ held, acting s site element op = Done held ∧ cap_interval held = Some i.
Proof.
  unfold acting_interval. intros (held & Ha & Hi)%outcome_bind_done. apply some_or_done in Hi. eauto.
Qed.

Lemma range_take_moves a s s' site element ids rep :
  session_ok a s → range_take site element ids s = (s', Done rep) → moves a (λ _, 0) s s'.
Proof.
  intros Hok Hrun. unfold range_take in Hrun. ask Hrun Ei. ask Hrun Ev. ask Hrun En.
  apply some_or_done, distinct_ids_done in En as [-> Hnd].
  apply M_bind_done in Hrun as (s1 & u1 & E1 & Hrun). apply M_bind_done in Hrun as (s2 & u2 & E2 & Hrun).
  apply M_bind_done in Hrun as (s3 & u3 & E3 & Hopen).
  apply acting_interval_done in Ei as (held & Ea & Hi).
  destruct (movement_denominated a s site element _ held x0 Hok Ea Ev) as [_ Hden].
  destruct (acting_done _ _ _ _ _ Ea) as (Hg & _).
  assert (Hd : d_entries (denominations (fixed s)) !! (iv_owner x, iv_collection x) = Some x0).
  { destruct held; try done. injection Hi as <-. by eapply Hden. }
  destruct (for_each_take_one a ids site element x s s1 u1 Hok E1) as [Hq Hpres].
  pose proof (quiet_moves a s s1 Hok Hq) as M1.
  destruct (edit_all a (λ order o, let '(o, _) := entry_remove o (iv_owner x) (iv_collection x) order in (o, Ok ()))
    (iv_owner x) (iv_collection x) None 1 (set_iter (list_to_set ids : gset Z)) s1 s2 u2) as [Hb M2].
  { by intros order o. }
  { apply M1. }
  { rewrite set_iter_perm. apply NoDup_elements. }
  { intros y Hy. rewrite elem_of_set_iter, elem_of_list_to_set in Hy.
    rewrite (entry_value_same (store s) (store s1)) by apply (qu_store _ _ Hq). by destruct (Hpres y Hy) as [v ->]. }
  { exact E2. }
  assert (Hq3 : quiet s2 s3) by (eapply quiet_run; [apply quiet_invalidate|done]).
  pose proof (quiet_moves a s2 s3 (mv_ok _ _ _ _ M2) Hq3) as M3.
  pose proof (open_moves a s3 s' (HInstances (list_to_set ids)) x0 None rep (mv_ok _ _ _ _ M3) I Hopen) as M4.
  eapply moves_ext; [|exact (moves_trans _ _ _ _ _ _ M1 (moves_trans _ _ _ _ _ _ M2 (moves_trans _ _ _ _ _ _ M3 M4)))].
  intros r. cbn beta. rewrite (qu_fixed _ _ Hq), Hd, decide_some, weight_some. cbn [quantity presence].
  rewrite (Permutation_length (set_iter_perm _)). unfold size, set_size, compose. destruct (decide (x0 = r)); lia.
Qed.

Lemma quiet_chain {A} a (m : M (KernelSession B) A) s s' x :
  session_ok a s → m s = (s', Done x) → quietM m → moves a (λ _, 0) s s' ∧ quiet s s'.
Proof. intros Hok E Hm. pose proof (quiet_run _ _ _ _ Hm E) as Hq. split; [by apply quiet_moves|done]. Qed.

Lemma for_each_probe a l ow c s s' u :
  session_ok a s →
  for_each l (λ order, there ← probe ow c order;
                       if there : bool then trap (Trap.InstanceHeldTwice order) else mret ()) s = (s', Done u) →
  quiet s s' ∧ ∀ x, x ∈ l → entry_value (store s) ow c x = None.
Proof.
  revert s. induction l as [|x l IH]; intros s Hok Hrun; cbn [for_each] in Hrun.
  { injection Hrun as <- _. split; [done|]. by intros x ?%not_elem_of_nil. }
  apply M_bind_done in Hrun as (s1 & u1 & E1 & Hrun). apply M_bind_done in E1 as (s2 & there & Ep & E1).
  destruct (probe_done a _ _ _ _ _ _ Hok Ep) as [Hq Hthere].
  destruct there; [done|]. injection E1 as <- _. symmetry in Hthere. apply bool_decide_eq_false in Hthere.
  destruct (IH s2 (mv_ok _ _ _ _ (quiet_moves a s s2 Hok Hq)) Hrun) as [Hq' Hl].
  split; [by transitivity s2|]. intros y [->|Hy]%elem_of_cons.
  - destruct (entry_value (store s) ow c x); [|done]. by destruct Hthere.
  - rewrite <- (entry_value_same (store s) (store s2)) by apply (qu_store _ _ Hq). by apply Hl.
Qed.

Lemma range_put_moves a s s' site element funds value u :
  session_ok a s → range_put site element funds value s = (s', Done u) → moves a (λ _, 0) s s'.
Proof.
  intros Hok Hrun. unfold range_put in Hrun. ask Hrun Ei. ask Hrun El. ask Hrun Ej. ask Hrun Eg.
  destruct x2 as [amt|ids]; [done|]. destruct x1.
  apply M_bind_done in Hrun as (s1 & u1 & E1 & Hrun). apply M_bind_done in Hrun as (s2 & u2 & E2 & Hrun).
  apply M_bind_done in Hrun as (s3 & u3 & E3 & Hrun). apply M_bind_done in Hrun as (s4 & u4 & E4 & Hrun).
  apply M_bind_done in Hrun as (s5 & u5 & E5 & Hrun). apply M_bind_done in Hrun as (s6 & h & E6 & Hret).
  injection Hret as <- _.
  destruct (judge_credit_done _ _ _ _ Ej) as (r0 & Ev & Er). apply acting_interval_done in Ei as (held & Ea & Hi).
  destruct (movement_denominated a s site element _ held r0 Hok Ea Ev) as [_ Hden].
  destruct (acting_done _ _ _ _ _ Ea) as (Hg & _).
  assert (Hd : d_entries (denominations (fixed s)) !! (iv_owner x, iv_collection x) = Some r0).
  { destruct held; try done. injection Hi as <-. by eapply Hden. }
  destruct (quiet_chain a _ s s1 u1 Hok E1) as [M1 Q1]; [solve_quiet|].
  destruct (quiet_chain a _ s1 s2 u2 (mv_ok _ _ _ _ M1) E2) as [M2 Q2];
    [apply quietM_for_each; intros; apply quiet_charge|].
  destruct (for_each_probe a _ _ _ s2 s3 u3 (mv_ok _ _ _ _ M2) E3) as [Q3 Habs].
  pose proof (quiet_moves a s2 s3 (mv_ok _ _ _ _ M2) Q3) as M3.
  destruct (edit_all a (λ order o, entry_write o (iv_owner x) (iv_collection x) order value)
    (iv_owner x) (iv_collection x) (Some value) 0 (set_iter ids) s3 s4 u4) as [Hb M4].
  { by intros order o. }
  { apply M3. }
  { rewrite set_iter_perm. apply NoDup_elements. }
  { intros y Hy. rewrite (entry_value_same (store s2) (store s3)) by apply (qu_store _ _ Q3). by rewrite (Habs y Hy). }
  { exact E4. }
  destruct (quiet_chain a _ s4 s5 u5 (mv_ok _ _ _ _ M4) E5 (quiet_invalidate _ _)) as [M5 Q5].
  destruct (take_moves a s5 s6 funds h (mv_ok _ _ _ _ M5) E6) as (Hget & r1 & Er1 & M6).
  assert (Hbk : buckets s5 = buckets s)
    by (rewrite (qu_buckets _ _ Q5), Hb, (qu_buckets _ _ Q3), (qu_buckets _ _ Q2); apply (qu_buckets _ _ Q1)).
  rewrite Hbk in Hget, Er1. rewrite Er in Er1. injection Er1 as <-. rewrite Eg in Hget. injection Hget as <-.
  eapply moves_ext; [|exact (moves_trans _ _ _ _ _ _ M1 (moves_trans _ _ _ _ _ _ M2 (moves_trans _ _ _ _ _ _ M3
    (moves_trans _ _ _ _ _ _ M4 (moves_trans _ _ _ _ _ _ M5 M6)))))].
  intros r. cbn beta. rewrite (qu_fixed _ _ Q3), (qu_fixed _ _ Q2), (qu_fixed _ _ Q1), Hd, decide_some, weight_some.
  cbn [quantity presence]. rewrite (Permutation_length (set_iter_perm _)). unfold size, set_size, compose.
  destruct (decide (r0 = r)); lia.
Qed.

(** A byte write reaches only collections the account does not weigh. *)
Lemma byte_edit_moves {A} a s s1 s' site element i order cap change (g : OverlayStore B → OverlayStore B * result StoreError A) u :
  session_ok a s → write_interval s site element = Done i → quiet s s1 →
  (∀ o, base (g o).1 = base o ∧ committed (g o).1 = committed o ∧ l_pending (active (g o).1) = l_pending (active o) ∧
     l_entries (active (g o).1) = nested_insert (l_entries (active o)) (iv_owner i, iv_collection i) order change) →
  (_ ← charge_write site element order cap; _ ← on_store g; invalidate (iv_owner i) (iv_collection i)) s1
    = (s', Done u) → moves a (λ _, 0) s s'.
Proof.
  intros Hok Hi Q1 Hg Hrun. pose proof (quiet_moves a s s1 Hok Q1) as M1.
  apply M_bind_done in Hrun as (s2 & u2 & E2 & Hrun). apply M_bind_done in Hrun as (s3 & u3 & E3 & E4).
  destruct (quiet_chain a _ s1 s2 u2 (mv_ok _ _ _ _ M1) E2 (quiet_charge _ _ _ _)) as [M2 Q2].
  unfold on_store in E3. destruct (Hg (store s2)) as (G1 & G2 & G3 & G4).
  destruct (g (store s2)) as [o' res]. cbn [fst snd] in *. injection E3 as <- _.
  pose proof (entry_moves a s2 o' _ _ order change (mv_ok _ _ _ _ M2) G1 G2 G3 G4) as M3.
  destruct (quiet_chain a _ _ s' u (mv_ok _ _ _ _ M3) E4 (quiet_invalidate _ _)) as [M4 _].
  apply acting_interval_done in Hi as (held & Ha & Hc). apply acting_done in Ha as (Hgr & rep & _ & Ht).
  assert (Hd : d_entries (denominations (fixed s)) !! (iv_owner i, iv_collection i) = None).
  { destruct held; try done. injection Hc as <-. by eapply (ca_bytes _ (so_contents _ _ Hok)). }
  eapply moves_ext; [|exact (moves_trans _ _ _ _ _ _ M1 (moves_trans _ _ _ _ _ _ M2 (moves_trans _ _ _ _ _ _ M3 M4)))].
  intros r. cbn beta. rewrite (qu_fixed _ _ Q2), (qu_fixed _ _ Q1), Hd. by destruct (decide (None = Some r)).
Qed.

Lemma range_set_moves a s s' site element index value u :
  session_ok a s → range_set site element index value s = (s', Done u) → moves a (λ _, 0) s s'.
Proof.
  intros Hok Hrun. unfold range_set in Hrun. ask Hrun Ei. ask Hrun El.
  apply M_bind_done in Hrun as (s1 & order & Eo & Hrun).
  eapply (byte_edit_moves a s s1); [done|done|by eapply quiet_run; [apply quiet_range_order|]| |exact Hrun]. by intros o.
Qed.

Lemma range_insert_moves a s s' site element order value u :
  session_ok a s → range_insert site element order value s = (s', Done u) → moves a (λ _, 0) s s'.
Proof.
  intros Hok Hrun. unfold range_insert in Hrun. ask Hrun Ei. ask Hrun El. destruct (negb _); [done|].
  eapply (byte_edit_moves a s s); [done|done|done| |exact Hrun]. by intros o.
Qed.

Lemma range_remove_moves a s s' site element index u :
  session_ok a s → range_remove site element index s = (s', Done u) → moves a (λ _, 0) s s'.
Proof.
  intros Hok Hrun. unfold range_remove in Hrun. ask Hrun Ei.
  apply M_bind_done in Hrun as (s1 & order & Eo & Hrun).
  eapply (byte_edit_moves a s s1); [done|done|by eapply quiet_run; [apply quiet_range_order|]| |exact Hrun]. by intros o.
Qed.

(** Frames, sites and grants touch no value. *)
Lemma frame_moves a s s' :
  session_ok a s → fixed s' = fixed s → supply s' = supply s → escrow s' = escrow s → taken s' = taken s →
  store s' = store s → slots (buckets s') = slots (buckets s) → resources (buckets s') = resources (buckets s) →
  origins (buckets s') = origins (buckets s) → moves a (λ _, 0) s s'.
Proof.
  intros [K1 [T1 T2 T3] K3 K4 K5] E1 E2 E3 E4 E5 E6 E7 E8. split.
  - split; [by rewrite E1| |by rewrite E3|by rewrite E5|done]. split; by rewrite ?E6, ?E7, ?E8.
  - done.
  - intros r. unfold account, gained, lost, settled, tally.
    rewrite !(weigh_cells_store _ s s') by (done || by rewrite E5).
    rewrite !(weigh_entries_store _ s s') by (done || by rewrite E5). rewrite E1, E2, E3, E4, E6, E7. lia.
Qed.

Lemma silent_op_moves {A} a s s' op (m : M Buckets A) x :
  session_ok a s → op_ok op → guest_op op → run_op op = (m ≫= λ _, mret []) →
  (∀ r, opened quantity r [op] = 0) → on_buckets m s = (s', Done x) → moves a (λ _, 0) s s'.
Proof.
  intros Hok Hop Hg Erun Hin Hrun. apply (bucket_op_moves a s s' op []); try done.
  unfold on_buckets in *. rewrite Erun, silent_bind. destruct (m (buckets s)) as [b o].
  injection Hrun as <- ->. done.
Qed.

(** ** Runs *)

(** What the walk and a body do to a session. *)
Inductive SessionOp :=
  | SEnter (who : Address) (event_bytes : Z) | SLeave | SGrant (grants : list IssuanceGrant)
  | SBind (entries : list (option Rep)) | SLend (rep : Rep) | SEmit (ty : Z) (body : bytes)
  | SCellGet (site element : Rep) | SCellSet (site element : Rep) (value : bytes) | SCellClear (site element : Rep)
  | SBalance (site element : Rep) | STake (site element : Rep) (amt : Z) | SPut (site element funds : Rep)
  | SReserved (site element : Rep) | SReserveTake (site element : Rep)
  | SMint (grant : Rep) (amt : Z) | SMintInstances (grant : Rep) (ids : list Z) | SBurn (funds : Rep)
  | SSplit (rep : Rep) (amt : Z) | SShare (rep : Rep) (num den : U256) | SMerge (rep other : Rep) | SDrop (rep : Rep)
  | SEscrowOut (node output funds : Rep) (departure : Departure) | SEscrowIn (arrival : Arrival)
  | SCount (site element : Rep) | SCovered (site element : Rep) | SOrder (site element index : Rep)
  | SEntry (site element index : Rep) | SSet (site element index : Rep) (value : bytes)
  | SInsert (site element : Rep) (order : Z) (value : bytes) | SRemove (site element index : Rep)
  | SRangeTake (site element : Rep) (ids : list Z) | SRangePut (site element funds : Rep) (value : bytes)
  | SSeal (env : EnvInputs) (site element : Rep) | SOpenSeal (hash_fn : bytes → Z) (env : EnvInputs) (site element : Rep).

Definition void {A} (m : M (KernelSession B) A) : M (KernelSession B) () := _ ← m; mret ().
Definition run_session_op (op : SessionOp) : M (KernelSession B) () :=
  match op with
  | SEnter who event_bytes => enter_invocation who event_bytes
  | SLeave => leave_invocation
  | SGrant grants => grant_issuance grants
  | SBind entries => void (bind_site entries)
  | SLend rep => lend_bucket rep
  | SEmit ty body => emit ty body
  | SCellGet site element => void (cell_get site element)
  | SCellSet site element value => write_cell_set site element value
  | SCellClear site element => write_cell_clear site element
  | SBalance site element => void (amount_cell_balance site element)
  | STake site element amt => void (cell_take site element amt)
  | SPut site element funds => cell_put site element funds
  | SReserved site element => void (reserve_amount site element)
  | SReserveTake site element => void (reserve_take site element)
  | SMint grant amt => void (mint grant amt)
  | SMintInstances grant ids => void (mint_instances grant ids)
  | SBurn funds => burn funds
  | SSplit rep amt => void (bucket_take rep amt)
  | SShare rep num den => void (bucket_split rep num den)
  | SMerge rep other => bucket_put rep other
  | SDrop rep => drop_bucket rep
  | SEscrowOut node output funds departure => void (escrow_out node output funds departure)
  | SEscrowIn arrival => void (escrow_in arrival)
  | SCount site element => void (range_count site element)
  | SCovered site element => void (range_covered site element)
  | SOrder site element index => void (range_order site element index)
  | SEntry site element index => void (range_entry site element index)
  | SSet site element index value => range_set site element index value
  | SInsert site element order value => range_insert site element order value
  | SRemove site element index => range_remove site element index
  | SRangeTake site element ids => void (range_take site element ids)
  | SRangePut site element funds value => range_put site element funds value
  | SSeal env site element => seal env site element
  | SOpenSeal hash_fn env site element => void (open_seal hash_fn env site element)
  end.

(** What a caller owes an operation: its numbers have the widths the signature
    says, and the plan issues each edge once. *)
Definition session_op_ok s (op : SessionOp) : Prop :=
  match op with
  | STake _ _ amt | SMint _ amt | SSplit _ amt => in_width 128 amt
  | SShare _ num den => limbs_ok 4 num ∧ limbs_ok 4 den
  | SEscrowOut node output _ _ => issued_at (escrow s) !! (node, output) = None
  | SEscrowIn arrival => in_width 128 (crossed_amount (a_crossed arrival))
  | _ => True
  end.

(** A run: every operation answers. *)
Inductive runs : KernelSession B → list SessionOp → KernelSession B → Prop :=
  | runs_nil s : runs s [] s
  | runs_cons s op s1 ops s' :
      session_op_ok s op → run_session_op op s = (s1, Done ()) → runs s1 ops s' → runs s (op :: ops) s'.

Lemma void_done {A} (m : M (KernelSession B) A) s s' u :
  void m s = (s', Done u) → ∃ x, m s = (s', Done x).
Proof. unfold void. intros (s1 & x & E & E')%M_bind_done. injection E' as <- _. by exists x. Qed.

Lemma quiet_emit ty body : quietM (emit (B := B) ty body).
Proof. unfold emit. cbv zeta. solve_quiet. Qed.
Lemma quiet_covered site element : quietM (range_covered (B := B) site element).
Proof.
  unfold range_covered, lift_entries. quiet_step; [apply quiet_scan|]. cbv zeta. solve_quiet.
Qed.

Lemma session_op_moves a op s s' :
  session_ok a s → session_op_ok s op → run_session_op op s = (s', Done ()) → moves a (λ _, 0) s s'.
Proof.
  intros Hok Hop Hrun. destruct op; cbn [run_session_op session_op_ok] in *;
    try (apply void_done in Hrun as (x & Hrun)).
  - injection Hrun as <-. by apply frame_moves.
  - injection Hrun as <-. by apply frame_moves.
  - injection Hrun as <-. by apply frame_moves.
  - unfold bind_site in Hrun. injection Hrun as <- _. by apply frame_moves.
  - injection Hrun as <-. by apply frame_moves.
  - by eapply quiet_chain; [|exact Hrun|apply quiet_emit].
  - eapply quiet_chain; [done|exact Hrun|]. unfold cell_get. solve_quiet.
  - eapply quiet_chain; [done|exact Hrun|]. unfold write_cell_set. solve_quiet.
  - eapply quiet_chain; [done|exact Hrun|]. unfold write_cell_clear. solve_quiet.
  - eapply quiet_chain; [done|exact Hrun|]. unfold amount_cell_balance. quiet_step; [solve_quiet|apply quiet_amount_cell].
  - by eapply cell_take_moves.
  - by eapply cell_put_moves.
  - eapply quiet_chain; [done|exact Hrun|]. unfold reserve_amount. solve_quiet.
  - by eapply reserve_take_moves.
  - by eapply mint_op_moves.
  - by eapply mint_instances_moves.
  - by eapply burn_op_moves.
  - by apply (silent_op_moves a s s' (OSplit rep amt) (b_split rep amt) x).
  - by apply (silent_op_moves a s s' (OShare rep num den) (b_split_share rep num den) x).
  - by apply (silent_op_moves a s s' (OMerge rep other) (b_merge rep other) ()).
  - by apply (silent_op_moves a s s' (ODrop rep) (b_drop rep) ()).
  - by eapply escrow_out_moves.
  - by eapply escrow_in_moves.
  - eapply quiet_chain; [done|exact Hrun|]. unfold range_count. quiet_step; [apply quiet_scan|solve_quiet].
  - by eapply quiet_chain; [|exact Hrun|apply quiet_covered].
  - by eapply quiet_chain; [|exact Hrun|apply quiet_range_order].
  - eapply quiet_chain; [done|exact Hrun|]. unfold range_entry. quiet_step; [apply quiet_scan|solve_quiet].
  - by eapply range_set_moves.
  - by eapply range_insert_moves.
  - by eapply range_remove_moves.
  - by eapply range_take_moves.
  - by eapply range_put_moves.
  - eapply quiet_chain; [done|exact Hrun|]. unfold seal. solve_quiet.
  - eapply quiet_chain; [done|exact Hrun|]. unfold open_seal. solve_quiet.
Qed.

(** C4: value is conserved by whatever a manifest does. Through any run of
    session operations (frames, movements on cells, reservations, mints and burns,
    splits and merges, crossings in and out, instances taken from and filed into
    intervals, and the byte and event operations between them), for every
    resource, what the account gained minus what it lost plus what the bucket
    table carries does not change. So a session that opened with nothing in hand
    and nothing moved balances exactly when its table is empty of that resource. *)
Theorem session_conserves a s ops s' r :
  session_ok a s → runs s ops s' →
  session_ok a s' ∧
  tally quantity r (buckets s') + gained s' r - lost s' r = tally quantity r (buckets s) + gained s r - lost s r.
Proof.
  intros Hok Hruns. induction Hruns as [s|s op s1 ops s' Hop Hrun _ IH]; [done|].
  pose proof (session_op_moves a op s s1 Hok Hop Hrun) as [K _ E]. destruct (IH K) as [K' E'].
  split; [done|]. specialize (E r). unfold account in E. lia.
Qed.

End conserve.

(** ** A run *)

(** The state a list of operations leaves, and that each of them answered. *)
Fixpoint after_ops {B} `{Baseline B} (ops : list SessionOp) (s : KernelSession B) : KernelSession B :=
  match ops with [] => s | op :: ops => after_ops ops (run_session_op op s).1 end.
Fixpoint answered {B} `{Baseline B} (ops : list SessionOp) (s : KernelSession B) : Prop :=
  match ops with
  | [] => True
  | op :: ops => session_op_ok s op ∧ (run_session_op op s).2 = Done () ∧ answered ops (run_session_op op s).1
  end.

Lemma answered_runs {B} `{Baseline B} ops (s : KernelSession B) : answered ops s → runs s ops (after_ops ops s).
Proof.
  revert s. induction ops as [|op ops IH]; intros s; [constructor|]. cbn [answered after_ops]. intros (H1 & H2 & H3).
  econstructor; [done| |by apply IH]. rewrite <- H2. by destruct (run_session_op op s).
Qed.

Definition purse : SubstateKey := {| owner := 514; local := 3 |}.
Definition gallery : Interval :=
  {| iv_width := 8; iv_owner := 258; iv_collection := 1; iv_lo := 0; iv_hi := 100; iv_cap := 10 |}.

(** What the session below declares: the vault's movements, the purse and the
    gallery to write. *)
Definition sample_declared : EffectSet :=
  foldl (λ s e, (insert_at_cap s e).1) effects_new
    [{| target := Point vault; mode := MDelta Both |}; {| target := Point purse; mode := MWrite Both |};
     {| target := Range 258 1 0 100 10; mode := MWrite Both |}].

(** A session over a vault and a purse of resource 7 and a collection of
    instances of resource 9, charged a fee of 3 from the vault. *)
Definition sample_session : KernelSession MemoryStore := {|
  fixed := {| declared := sample_declared;
              table := [Cap.Delta vault Both; Cap.Instances gallery Both; Cap.Amount purse Both];
              cell_resources := [Some 7; Some 9; Some 7]; tx := 1; judges := λ _, true; applies := λ _, true;
              nullifiers := []; fee := Some {| f_vault := vault; f_resource := 7; f_amount := 3 |}; credits_withheld := false |};
  store := overlay_new sample_base; scans := ∅; written := ∅; lost_floor := None; invocation := None;
  events := []; node_events := node_events_default; events_carried := 0; buckets := buckets_default;
  supply := supply_default; escrow := escrow_default; crossings := ∅; issuance := []; s_entries := [];
  sites := []; reach := reach_default; taken := ∅ |}.

Lemma sample_session_ok : session_ok (memory_abs sample_base) sample_session.
Proof.
  split.
  - split; intros [|[|[|rep]]]; try done; cbn [sample_session fixed table lookup list_lookup]; intros; simplify_eq;
      try done; (vm_compute; reflexivity) || (unfold materialized_resource in *; cbn in *; simplify_eq; vm_compute; reflexivity).
  - by split.
  - by intros e c.
  - apply memory_base_agree.
  - apply sample_small.
Qed.

Definition sample_run : list SessionOp :=
  [SEnter 1 0; SBind [Some 0%nat]; SBind [Some 1%nat]; SBind [Some 2%nat];
   SGrant [{| g_resource := 7; g_kind := Fungible; g_direction := Minted |}];
   STake 0 0 40; SSplit 0 15; SPut 2 0 1; SRangeTake 1 0 [5]; SMint 0 8; SMerge 0 3; SRangePut 1 0 2 [x09]].

Lemma session_conserves_witness :
  runs sample_session sample_run (after_ops sample_run sample_session) ∧
  (let s' := after_ops sample_run sample_session in
   tally quantity 7 (buckets s') + gained s' 7 - lost s' 7 =
   tally quantity 7 (buckets sample_session) + gained sample_session 7 - lost sample_session 7) ∧
  tally quantity 7 (buckets (after_ops sample_run sample_session)) = 33.
Proof.
  assert (Hruns : runs sample_session sample_run (after_ops sample_run sample_session)).
  { apply answered_runs. unfold sample_run. cbn [answered session_op_ok].
    repeat (split; [first [exact I|unfold in_width; lia|vm_compute; reflexivity]|]). exact I. }
  split; [exact Hruns|]. split; [|vm_compute; reflexivity].
  destruct (session_conserves (memory_abs sample_base) sample_session sample_run _ 7 sample_session_ok Hruns) as [_ E].
  exact E.
Defined.
