(* ===== verification/Receipt.v ===== *)
(** * The receipt ([crates/kernel/src/session/receipt.rs], [locality.rs])

    Finishing a session: the queued movements judged and folded, the reservations
    settled, the fee burned, the protocol's own cells written, the access log held
    against the declaration, the account weighed, and only then a receipt over a
    merged store. A refusal at any point is a receipt that carries nothing over a
    store with the transaction's layer discarded. *)

From S2P Require Import Prelude WideMath Types Effects Conflict Modes Hbor Cells Writes Ledger Store Overlay Capability Outcomes Buckets Supply Session Seals Conservation.

(** ** Data *)

Record StateDelta := {
  dl_cells : gmap SubstateKey (option bytes);
  dl_entries : gmap EntryKey (option bytes);
  dl_movements : gmap SubstateKey Movement;
  dl_settles : gmap SubstateKey Movement;
}.
Definition delta_default : StateDelta := {| dl_cells := ∅; dl_entries := ∅; dl_movements := ∅; dl_settles := ∅ |}.
Definition delta_is_empty (d : StateDelta) : bool :=
  bool_decide (dl_cells d = ∅) && bool_decide (dl_entries d = ∅) && bool_decide (dl_movements d = ∅)
  && bool_decide (dl_settles d = ∅).

Record Receipt := {
  r_outcome : Outcome;
  r_delta : StateDelta;
  r_events : list Event;
  r_supply : SupplyDelta;
  r_escrow : EscrowDelta;
  r_fuel_by_node : list Z;
  r_fuel : Z;
}.

Module FinErr.
Inductive FinishError :=
  | Undeclared (escaped : list Access)
  | Store (e : StoreError)
  | UndenominatedMovement (key : SubstateKey)
  | Composition (key : SubstateKey).
End FinErr.
Abbreviation FinishError := FinErr.FinishError.

(** How a step of finishing ends: with what it produced, with the outcome the
    transaction aborts with, with a kernel defect, or in a panic. *)
Inductive phase (A : Type) : Type :=
  | Produced (a : A)
  | Aborted (outcome : Outcome)
  | Failed (e : FinishError)
  | Crashed.
Arguments Produced {A} a.
Arguments Aborted {A} outcome.
Arguments Failed {A} e.
Arguments Crashed {A}.

(** A step over the session. *)
Definition F (B A : Type) : Type := KernelSession B → KernelSession B * phase A.
#[global] Instance F_ret {B} : MRet (F B) := λ A a s, (s, Produced a).
#[global] Instance F_bind {B} : MBind (F B) := λ A C f m s,
  match m s with
  | (s', Produced a) => f a s'
  | (s', Aborted o) => (s', Aborted o)
  | (s', Failed e) => (s', Failed e)
  | (s', Crashed) => (s', Crashed)
  end.
Definition fin {B A} (p : phase A) : F B A := λ s, (s, p).
Definition reads {B A} (f : KernelSession B → A) : F B A := λ s, (s, Produced (f s)).
(** [ok_or] into a failure, [expect] into a panic. *)
Definition or_fail {B A} (o : option A) (e : FinishError) : F B A :=
  fin match o with Some a => Produced a | None => Failed e end.
Definition or_panic {B A} (o : option A) : F B A := fin match o with Some a => Produced a | None => Crashed end.

(** ** Pieces that read *)

Definition fold_fuel (by_node : list Z) : Z := foldl (λ total node, saturating_add 64 total node) 0 by_node.

Definition taken_against (d : Denominations) (key : SubstateKey) (taken : gset nat) : option Z :=
  foldl (λ total p, t ← total; checked_add 128 t p.2) (Some 0)
    (filter (λ p, p.1 ∈ taken) (default [] (d_reserved d !! key))).

Abbreviation Sides := (gmap ResourceAddr (option (Z * Z))).
Definition weigh (sides : Sides) (w : ResourceAddr * (Z * Z)) : Sides :=
  let '(r, (gained, lost)) := w in
  <[r := '(had, spent) ← default (Some (0, 0)) (sides !! r);
         had ← checked_add 128 had gained; spent ← checked_add 128 spent lost; Some (had, spent)]> sides.
Definition unbalanced (p : ResourceAddr * option (Z * Z)) : Prop :=
  match p.2 with Some (gained, lost) => gained ≠ lost | None => True end.
#[global] Instance unbalanced_dec p : Decision (unbalanced p).
Proof. destruct p as [r [[g l]|]]; cbn; apply _. Defined.

Section receipt.
Context {B : Type} `{Baseline B}.
Implicit Types (s : KernelSession B) (o : OverlayStore B).

Definition active_entries o : list (EntryKey * option bytes) :=
  '(p, changes) ← map_iter (l_entries (active o));
  (λ c : Z * option bytes, ({| entry_owner := p.1; entry_collection := p.2; entry_order := c.1 |}, c.2)) <$> map_iter changes.
Definition diff o : StateDelta := {|
  dl_cells := filter (λ p, pre_active_cell o p.1 ≠ p.2) (l_cells (active o));
  dl_entries := foldl (λ m p, <[p.1 := p.2]> m) ∅
    (filter (λ p, pre_active_entry o (entry_owner p.1) (entry_collection p.1) (entry_order p.1) ≠ p.2) (active_entries o));
  dl_movements := ∅;
  dl_settles := ∅;
|}.

(** The terms of the conservation account, in the order they are weighed. *)
Definition moved_weight (p : SubstateKey * Movement) : ResourceAddr * (Z * Z) :=
  (m_resource p.2, (m_credit p.2, m_debit p.2)).
Definition entry_weight s (d : Denominations) (p : EntryKey * option bytes) : option (ResourceAddr * (Z * Z)) :=
  let '(key, change) := p in
  resource ← d_entries d !! (entry_owner key, entry_collection key);
  let held := pre_active_entry (store s) (entry_owner key) (entry_collection key) (entry_order key) in
  match held, change with
  | None, Some _ => Some (resource, (1, 0))
  | Some _, None => Some (resource, (0, 1))
  | _, _ => None
  end.
Definition weights s (delta : StateDelta) (d : Denominations) : list (ResourceAddr * (Z * Z)) :=
  (moved_weight <$> map_iter (dl_movements delta) ++ map_iter (dl_settles delta)) ++
  omap (entry_weight s d) (map_iter (dl_entries delta)) ++
  ((λ r, (r, (burned (supply s) r, minted (supply s) r))) <$> supply_resources (supply s)) ++
  ((λ r, (r, (escrow_issued (escrow s) r, escrow_claimed (escrow s) r))) <$> escrow_resources (escrow s)).
Definition unconserved s (delta : StateDelta) (d : Denominations) : option ResourceAddr :=
  fst <$> head (filter unbalanced (map_iter (foldl weigh ∅ (weights s delta d)))).

(** ** Phases *)

(** A store operation, its refusal left to the caller. *)
Definition on_ledger {A} (f : OverlayStore B → OverlayStore B * A) : F B A :=
  λ s, let '(o, a) := f (store s) in (set_store o s, Produced a).
Definition update (f : OverlayStore B → OverlayStore B) : F B () := λ s, (set_store (f (store s)) s, Produced ()).

Definition settle_one (d : Denominations) (key : SubstateKey) : F B (option Movement) :=
  m ← reads fixed; took ← reads taken;
  resource ← or_fail (d_cells d !! key) (FinErr.UndenominatedMovement key);
  match taken_against d key took with
  | None => fin (Aborted (Outcome.ProtocolError Abort.ValueNotConserved))
  | Some amt =>
      settled ←
        (if decide (amt = 0) then r ← on_ledger (λ o, release o key (tx m)); mret ((λ _, None) <$> r)
         else if applies m (owner key) then
           _ ← update (λ o, reduce_hold o key (tx m) amt);
           r ← on_ledger (λ o, settle o key (tx m)); mret (Some <$> r)
         else r ← on_ledger (λ o, release o key (tx m)); mret ((λ _, Some amt) <$> r));
      match settled with
      | Ok (Some amt) => mret (Some (movement_debit resource amt))
      | Ok None => mret None
      | Err defect =>
          match store_fault defect with
          | Floor => held ← reads (λ s, held_reservation (store s) key (tx m));
                     fin (Aborted (Outcome.Infeasible key (default 0 held)))
          | Declaration error => fin (Aborted (Outcome.UserError (mode_reason error)))
          | Defect => fin (Failed (FinErr.Store defect))
          end
      end
  end.
Fixpoint settle_loop (d : Denominations) (caps : list Capability) (seen : gset SubstateKey)
    (settles : gmap SubstateKey Movement) : F B (gmap SubstateKey Movement) :=
  match caps with
  | [] => mret settles
  | Cap.Reserve key _ :: caps =>
      if decide (key ∈ seen) then settle_loop d caps seen settles else
      let seen := {[key]} ∪ seen in
      m ← reads fixed;
      if negb (judges m (owner key)) then settle_loop d caps seen settles else
      r ← settle_one d key;
      settle_loop d caps seen (match r with Some mv => <[key := mv]> settles | None => settles end)
  | _ :: caps => settle_loop d caps seen settles
  end.
Definition settle_reservations (d : Denominations) : F B (gmap SubstateKey Movement) :=
  m ← reads fixed; settle_loop d (table m) ∅ ∅.

Fixpoint total_queued (d : Denominations) (queued : list (SubstateKey * list DeltaOp))
    (movements : gmap SubstateKey Movement) : phase (gmap SubstateKey Movement) :=
  match queued with
  | [] => Produced movements
  | (key, ops) :: queued =>
      match d_cells d !! key with
      | None => Failed (FinErr.UndenominatedMovement key)
      | Some resource =>
          match total_movement ops resource with
          | Ok movement => total_queued d queued (<[key := movement]> movements)
          | Err error => Aborted (Outcome.UserError (mode_reason error))
          end
      end
  end.
Fixpoint judge_queued s (movements : list (SubstateKey * Movement)) : phase () :=
  match movements with
  | [] => Produced ()
  | (key, movement) :: movements =>
      if negb (applies (fixed s) (owner key)) then judge_queued s movements else
      match judge_movement (store s) key (tx (fixed s)) (m_credit movement) (m_debit movement) with
      | Ok _ => judge_queued s movements
      | Err defect =>
          match store_fault defect with
          | Floor => Aborted (Outcome.Infeasible key (m_debit movement))
          | Declaration error => Aborted (Outcome.UserError (mode_reason error))
          | Defect => Failed (FinErr.Store defect)
          end
      end
  end.
Definition withhold (m : Materialized) o (p : SubstateKey * Movement) : OverlayStore B :=
  let raised := saturating_sub (m_credit p.2) (m_debit p.2) in
  if decide (0 < raised) then if applies m (owner p.1) then withhold_credit o p.1 (tx m) raised else o else o.
Definition judge_movements (d : Denominations) : F B (gmap SubstateKey Movement) :=
  m ← reads fixed;
  pending ← reads (λ s, map_iter (pending_map (store s)));
  movements ← fin (total_queued d pending ∅);
  _ ← (λ s, (s, judge_queued s (map_iter movements)));
  _ ← update (λ o, retain_pending_deltas o (λ key, applies m (owner key)));
  committed ← on_ledger commit_deltas;
  match committed with
  | Err defect =>
      match store_fault defect with
      | Declaration error => fin (Aborted (Outcome.UserError (mode_reason error)))
      | Floor | Defect => fin (Failed (FinErr.Store defect))
      end
  | Ok _ =>
      _ ← update (λ o, if credits_withheld m then foldl (withhold m) o (map_iter movements) else o);
      mret movements
  end.

Definition ends_hold (m : Materialized) (f : FeeBurn) : bool := applies m (owner (f_vault f)).
Definition burn_fee (movements : gmap SubstateKey Movement) : F B (gmap SubstateKey Movement) :=
  m ← reads fixed;
  match fee m with
  | None => mret movements
  | Some f =>
      if negb (ends_hold m f) then mret movements else
      _ ← update (λ o, set_fee_hold o (f_vault f) (tx m) None);
      if decide (f_amount f = 0) then mret movements else
      r ← on_ledger (λ o, apply_movement o (f_vault f) (tx m) 0 (f_amount f));
      match r with
      | Err defect =>
          match store_fault defect with
          | Floor => fin (Aborted (Outcome.Infeasible (f_vault f) (f_amount f)))
          | Declaration error => fin (Aborted (Outcome.UserError (mode_reason error)))
          | Defect => fin (Failed (FinErr.Store defect))
          end
      | Ok _ =>
          let burned := movement_debit (f_resource f) (f_amount f) in
          composed ← fin match movements !! f_vault f with
                         | Some standing => match movement_then standing burned with
                                            | Ok c => Produced c
                                            | Err _ => Failed (FinErr.Composition (f_vault f))
                                            end
                         | None => Produced burned
                         end;
          r ← (λ s, let '(sd, r) := supply_burn (supply s) (f_resource f) (f_amount f) in (set_supply sd s, Produced r));
          match r with
          | Err error => fin (Aborted (Outcome.UserError (mode_reason error)))
          | Ok _ => mret (<[f_vault f := composed]> movements)
          end
      end
  end.

Definition spend_record (m : Materialized) (r : IntentRecord) : option bytes :=
  cell_to_bytes marker {| m_tx := tx m; m_expiry_ms := i_expiry_ms r; m_marks := Spent (i_intent r) |}.
(** Every nullifier with the record it is written, a panic where one does not encode. *)
Fixpoint spends (m : Materialized) (records : list IntentRecord) : option (list (SubstateKey * bytes)) :=
  match records with
  | [] => Some []
  | r :: records =>
      rest ← spends m records;
      match i_nullifiers r with
      | [] => Some rest
      | ns => value ← spend_record m r; Some (((λ n, (n_key n, value)) <$> ns) ++ rest)
      end
  end.
(** Write the cells of what this shard applies. *)
Fixpoint write_cells (m : Materialized) (kvs : list (SubstateKey * bytes)) : F B () :=
  match kvs with
  | [] => mret ()
  | (key, value) :: kvs =>
      if applies m (owner key) then
        r ← on_ledger (λ o, write o key value);
        match r with Err e => fin (Failed (FinErr.Store e)) | Ok _ => write_cells m kvs end
      else write_cells m kvs
  end.
(** The kernel's cells into the delta, none of them a value cell. *)
Fixpoint kernel_cells (d : Denominations) (kvs : list (SubstateKey * bytes)) (delta : StateDelta) : phase StateDelta :=
  match kvs with
  | [] => Produced delta
  | (key, value) :: kvs =>
      match d_cells d !! key with
      | Some _ => Aborted (Outcome.ProtocolError Abort.MalformedAmountCell)
      | None => kernel_cells d kvs {|
          dl_cells := <[key := Some value]> (dl_cells delta); dl_entries := dl_entries delta;
          dl_movements := dl_movements delta; dl_settles := dl_settles delta |}
      end
  end.

Definition reported o (movements settles : gmap SubstateKey Movement) : StateDelta :=
  let delta := diff o in {|
  dl_cells := filter (λ p, movements !! p.1 = None ∧ settles !! p.1 = None) (dl_cells delta);
  dl_entries := dl_entries delta; dl_movements := movements; dl_settles := settles |}.

(** [finish] up to the merge: what a committed receipt reports. *)
Definition close : F B StateDelta :=
  s ← reads (λ s, s);
  if carries_value (buckets s) then fin (Aborted (Outcome.UserError Abort.ValueDropped)) else
  let m := fixed s in
  let d := denominations m in
  movements ← judge_movements d;
  settles ← settle_reservations d;
  movements ← burn_fee movements;
  spent ← or_panic (spends m (nullifiers m));
  _ ← write_cells m spent;
  _ ← write_cells m (map_iter (crossings s));
  o ← reads store;
  let escaped := undeclared_accesses (log o) (declared m) in
  if decide (escaped ≠ []) then fin (Failed (FinErr.Undeclared escaped)) else
  delta ← fin (kernel_cells d (spent ++ map_iter (crossings s)) (reported o movements settles));
  s ← reads (λ s, s);
  match unconserved s delta d with
  | Some _ => fin (Aborted (Outcome.ProtocolError Abort.ValueNotConserved))
  | None => mret delta
  end.

Definition abort_with o (outcome : Outcome) (fuel_by_node : list Z) : Receipt * OverlayStore B :=
  ({| r_outcome := outcome; r_delta := delta_default; r_events := []; r_supply := supply_default;
      r_escrow := escrow_default; r_fuel_by_node := fuel_by_node; r_fuel := fold_fuel fuel_by_node |},
   discard_active o).

(** What finishing gives back: a receipt and the threaded store, a defect, or a
    panic. *)
Inductive finished :=
  | Finished (receipt : Receipt) (store : OverlayStore B)
  | FinishFailed (e : FinishError)
  | FinishPanicked.
Definition finish s (answers : list Answer) (fuel_by_node : list Z) : finished :=
  match close s with
  | (s', Produced delta) =>
      if decide (length answers ≤ MAX_MANIFEST_NODES)%nat then
        Finished {| r_outcome := Outcome.Completed answers; r_delta := delta; r_events := events s';
                    r_supply := supply s'; r_escrow := escrow s'; r_fuel_by_node := fuel_by_node;
                    r_fuel := fold_fuel fuel_by_node |} (merge_active (store s'))
      else FinishPanicked
  | (s', Aborted outcome) => let '(r, o) := abort_with (store s') outcome fuel_by_node in Finished r o
  | (_, Failed e) => FinishFailed e
  | (_, Crashed) => FinishPanicked
  end.
(** [discard], for a body that did not complete. *)
Definition discard s : OverlayStore B := discard_active (store s).

End receipt.
Arguments finished : clear implicits.

(** ** What finishing leaves alone *)

Section closing.
Context {B : Type} `{Baseline B}.
Implicit Types (s : KernelSession B) (o : OverlayStore B).

(** Below the active layer nothing changes but the committed queue, which is only
    ever emptied, and no entry changes at all. *)
Record above_only o o' : Prop := {
  ab_base : base o' = base o;
  ab_committed : set_l_pending (committed o') ∅ = set_l_pending (committed o) ∅;
  ab_clean : l_pending (committed o) = ∅ → l_pending (committed o') = ∅;
  ab_entries : l_entries (active o') = l_entries (active o);
  ab_queued : l_pending (active o) = ∅ → l_pending (active o') = ∅;
}.
#[export] Instance above_only_refl : Reflexive above_only.
Proof. intros o. by split. Qed.
#[export] Instance above_only_trans : Transitive above_only.
Proof.
  intros o1 o2 o3 [A1 A2 A3 A4 A5] [B1 B2 B3 B4 B5].
  split; [by rewrite B1|by rewrite B2|intros E; by apply B3, A3|by rewrite B4|intros E; by apply B5, A5].
Qed.

Lemma above_committed o o' : above_only o o' → l_pending (committed o) = ∅ → committed o' = committed o.
Proof.
  intros [_ E Hc _ _] Hp. specialize (Hc Hp). destruct (committed o), (committed o'). cbn in *.
  unfold set_l_pending in E. cbn in E. injection E as -> -> -> -> ->. by rewrite Hp, Hc.
Qed.

Lemma above_release o key t : above_only o (release o key t).1.
Proof. unfold release. by destruct (ok_or _ _). Qed.
Lemma above_reduce o key t amt : above_only o (reduce_hold o key t amt).
Proof. done. Qed.
Lemma above_settle o key t : above_only o (settle o key t).1.
Proof. unfold settle. by destruct (_ ← ok_or _ _; _) as [[]|]. Qed.
Lemma above_movement o key t c d : above_only o (apply_movement o key t c d).1.
Proof. unfold apply_movement. by destruct (judge_movement o key t c d). Qed.
Lemma above_write o key v : above_only o (write o key v).1.
Proof. done. Qed.
Lemma above_fee o key t x : above_only o (set_fee_hold o key t x).
Proof. done. Qed.
Lemma above_withhold m o p : above_only o (withhold m o p).
Proof. unfold withhold. destruct (decide _); [|done]. by destruct (applies _ _). Qed.
Lemma above_retain o keep : above_only o (retain_pending_deltas o keep).
Proof. split; try done; cbn; intros ->; by rewrite map_filter_empty. Qed.
Lemma above_foldl {A} (f : OverlayStore B → A → OverlayStore B) l o :
  (∀ o x, above_only o (f o x)) → above_only o (foldl f o l).
Proof.
  intros Hf. revert o. induction l as [|x l IH]; intros o; [done|]. cbn [foldl]. etrans; [apply Hf|apply IH].
Qed.
Lemma above_commit o : above_only o (commit_deltas o).1.
Proof.
  unfold commit_deltas. destruct (fold_all _ _) as [ds|]; [|done]. cbn [fst].
  etrans; [apply (above_foldl (λ o d, set_amount o (applied_key d) (applied_after d)))|]; by split.
Qed.

(** An outcome a transaction aborts with. *)
Definition refusal (out : Outcome) : Prop := match out with Outcome.Completed _ => False | _ => True end.

(** What a step of finishing keeps of the session, and that it aborts with a refusal. *)
Record closing s s' : Prop := {
  cl_fixed : fixed s' = fixed s;
  cl_buckets : buckets s' = buckets s;
  cl_events : events s' = events s;
  cl_escrow : escrow s' = escrow s;
  cl_crossings : crossings s' = crossings s;
  cl_taken : taken s' = taken s;
  cl_store : above_only (store s) (store s');
}.
Definition refuses (P : Outcome → Prop) {A} (p : phase A) : Prop := match p with Aborted out => P out | _ => True end.
(** A step that keeps the session and aborts only with an outcome in [P]. *)
Definition closes (P : Outcome → Prop) {A} (m : F B A) : Prop := ∀ s, closing s (m s).1 ∧ refuses P (m s).2.
#[export] Instance closing_refl : Reflexive closing.
Proof. intros s. by split. Qed.
#[export] Instance closing_trans : Transitive closing.
Proof.
  intros s1 s2 s3 [A1 A2 A3 A4 A5 A6 A7] [B1 B2 B3 B4 B5 B6 B7]. split; try congruence. by etrans.
Qed.

Lemma closes_bind P {A A'} (m : F B A) (f : A → F B A') : closes P m → (∀ x, closes P (f x)) → closes P (m ≫= f).
Proof.
  intros Hm Hf s. unfold mbind, F_bind. specialize (Hm s) as [Hs Hr].
  destruct (m s) as [s1 [x|out|e|]]; [|done..]. destruct (Hf x s1) as [Hs' Hr']. split; [by etrans|done].
Qed.
Lemma closes_fin P {A} (p : phase A) : refuses P p → closes P (fin (B := B) p).
Proof. intros Hp s. by split. Qed.
Lemma closes_here P {A} (f : KernelSession B → phase A) : (∀ s, refuses P (f s)) → closes P (λ s, (s, f s)).
Proof. intros Hp s. by split; [|apply Hp]. Qed.
Lemma closes_ret P {A} (x : A) : closes P (mret (M := F B) x).
Proof. by apply closes_fin. Qed.
Lemma closes_reads P {A} (f : KernelSession B → A) : closes P (reads f).
Proof. intros s. by split. Qed.
Lemma closes_or_fail P {A} (x : option A) e : closes P (or_fail (B := B) x e).
Proof. apply closes_fin. by destruct x. Qed.
Lemma closes_or_panic P {A} (x : option A) : closes P (or_panic (B := B) x).
Proof. apply closes_fin. by destruct x. Qed.
Lemma closes_ledger P {A} (f : OverlayStore B → OverlayStore B * A) : (∀ o, above_only o (f o).1) → closes P (on_ledger f).
Proof. intros Hf s. unfold on_ledger. specialize (Hf (store s)). destruct (f (store s)) as [o x]. by split. Qed.
Lemma closes_update P (f : OverlayStore B → OverlayStore B) : (∀ o, above_only o (f o)) → closes P (update f).
Proof. intros Hf s. by split. Qed.
End closing.

#[export] Hint Resolve above_release above_reduce above_settle above_movement above_write above_fee above_retain
  above_commit : vm.
Ltac close_step :=
  match goal with
  | |- closes _ (_ ≫= _) => apply closes_bind; [|intros ?]
  | |- closes _ (fin _) => apply closes_fin; solve [cbn; auto]
  | |- closes _ (mret _) => apply closes_ret
  | |- closes _ (reads _) => apply closes_reads
  | |- closes _ (or_fail _ _) => apply closes_or_fail
  | |- closes _ (or_panic _) => apply closes_or_panic
  | |- closes _ (on_ledger _) => apply closes_ledger; intros ?; solve [auto with vm]
  | |- closes _ (update _) => apply closes_update; intros ?; solve [auto with vm]
  | |- closes _ (match ?x with _ => _ end) => destruct x
  end.
Ltac solve_closes := repeat close_step.

Section phases.
Context {B : Type} `{Baseline B}.
Implicit Types (s : KernelSession B) (o : OverlayStore B).
(** What a transaction is refused with in the course of finishing. *)
Context (P : Outcome → Prop).
Hypothesis P_user : ∀ r, P (Outcome.UserError r).
Hypothesis P_floor : ∀ key amt, P (Outcome.Infeasible key amt).

Lemma settle_one_closes d key :
  P (Outcome.ProtocolError Abort.ValueNotConserved) → closes P (settle_one (B := B) d key).
Proof using P_user P_floor. intros Hp. unfold settle_one. solve_closes. Qed.
Lemma settle_loop_closes d caps seen settles :
  P (Outcome.ProtocolError Abort.ValueNotConserved) → closes P (settle_loop (B := B) d caps seen settles).
Proof using P_user P_floor.
  intros Hp. revert seen settles. induction caps as [|c caps IH]; intros seen settles; cbn [settle_loop]; [solve_closes|].
  destruct c; try apply IH. destruct (decide _); [apply IH|]. close_step; [solve_closes|].
  destruct (negb _); [apply IH|]. close_step; [by apply settle_one_closes|apply IH].
Qed.
Lemma total_queued_refuses d l ms : refuses P (total_queued d l ms).
Proof using P_user P_floor.
  revert ms. induction l as [|[key ops] l IH]; intros ms; cbn [total_queued]; [done|].
  destruct (d_cells d !! key); [|done]. destruct (total_movement _ _); [apply IH|apply P_user].
Qed.
Lemma judge_queued_refuses s l : refuses P (judge_queued s l).
Proof using P_user P_floor.
  induction l as [|[key mv] l IH]; cbn [judge_queued]; [done|]. destruct (negb _); [apply IH|].
  destruct (judge_movement _ _ _ _ _) as [|e]; [apply IH|]. destruct (store_fault e); cbn; auto.
Qed.
Lemma judge_movements_closes d : closes P (judge_movements (B := B) d).
Proof using P_user P_floor.
  unfold judge_movements. close_step; [solve_closes|]. close_step; [solve_closes|].
  close_step; [apply closes_fin, total_queued_refuses|].
  close_step; [apply (closes_here P (λ s, judge_queued s _)); intros s; apply judge_queued_refuses|].
  close_step; [solve_closes|]. close_step; [solve_closes|]. close_step; [|solve_closes].
  close_step; [|solve_closes]. apply closes_update. intros o. destruct (credits_withheld _); [|done].
  apply above_foldl. intros. apply above_withhold.
Qed.
Lemma burn_fee_closes ms : closes P (burn_fee (B := B) ms).
Proof using P_user P_floor.
  unfold burn_fee. repeat first [close_step|progress cbv zeta].
  all: try (apply closes_fin; by repeat case_match).
  intros s. unfold supply_burn. by destruct (delta_add _ _ _ _).
Qed.
Lemma write_cells_closes m kvs : closes P (write_cells (B := B) m kvs).
Proof using P_user P_floor.
  induction kvs as [|[key v] kvs IH]; cbn [write_cells]; [solve_closes|]. destruct (applies _ _); [|done].
  close_step; [solve_closes|]. close_step; [done|solve_closes].
Qed.
Lemma kernel_cells_refuses d kvs delta :
  P (Outcome.ProtocolError Abort.MalformedAmountCell) → refuses P (kernel_cells d kvs delta).
Proof using P_user P_floor.
  intros Hp. revert delta. induction kvs as [|[key v] kvs IH]; intros delta; cbn [kernel_cells]; [done|].
  destruct (d_cells d !! key); [done|apply IH].
Qed.
Lemma settle_reservations_closes d :
  P (Outcome.ProtocolError Abort.ValueNotConserved) → closes P (settle_reservations (B := B) d).
Proof using P_user P_floor.
  intros Hp. unfold settle_reservations. close_step; [solve_closes|by apply settle_loop_closes].
Qed.
Lemma close_closes :
  P (Outcome.ProtocolError Abort.ValueNotConserved) → P (Outcome.ProtocolError Abort.MalformedAmountCell) →
  closes P (close (B := B)).
Proof using P_user P_floor.
  intros Hp Hm. unfold close. close_step; [solve_closes|]. close_step; [solve_closes|]. cbv zeta.
  close_step; [apply judge_movements_closes|]. close_step; [by apply settle_reservations_closes|].
  close_step; [apply burn_fee_closes|]. close_step; [solve_closes|].
  close_step; [apply write_cells_closes|]. close_step; [apply write_cells_closes|]. close_step; [solve_closes|].
  close_step; [solve_closes|]. close_step; [by apply closes_fin, kernel_cells_refuses|]. solve_closes.
Qed.
End phases.

Lemma close_refuses {B} `{Baseline B} : closes refusal (close (B := B)).
Proof. by apply close_closes. Qed.

(** ** The account, weighed *)

(** What the weights of a resource come to on one side. *)
Definition side_sum (f : Z * Z → Z) (r : ResourceAddr) (ws : list (ResourceAddr * (Z * Z))) : Z :=
  sum_Z ((λ w, if decide (w.1 = r) then f w.2 else 0) <$> ws).

Lemma side_sum_app f r a b : side_sum f r (a ++ b) = side_sum f r a + side_sum f r b.
Proof. unfold side_sum. by rewrite fmap_app, sum_Z_app. Qed.
Lemma side_sum_cons f r w ws : side_sum f r (w :: ws) = (if decide (w.1 = r) then f w.2 else 0) + side_sum f r ws.
Proof. unfold side_sum. by rewrite fmap_cons, sum_Z_cons. Qed.
Lemma side_sum_perm f r ws ws' : ws ≡ₚ ws' → side_sum f r ws = side_sum f r ws'.
Proof. intros Hp. unfold side_sum. apply sum_Z_perm. by rewrite Hp. Qed.
Lemma side_sum_nonneg f r ws : Forall (λ w, 0 ≤ f w.2) ws → 0 ≤ side_sum f r ws.
Proof.
  induction 1 as [|w ws Hw _ IH]; [done|]. rewrite side_sum_cons. destruct (decide _); lia.
Qed.

Lemma side_sum_none f r ws : r ∉ ws.*1 → side_sum f r ws = 0.
Proof.
  intros Hnin. induction ws as [|w ws IH]; [done|]. rewrite fmap_cons, not_elem_of_cons in Hnin.
  rewrite side_sum_cons, IH by tauto. by rewrite decide_False by naive_solver.
Qed.

(** The sides after weighing: exact sums, or nothing once one of them left [u128]. *)
Lemma weigh_all ws r :
  foldl weigh ∅ ws !! r =
    if decide (r ∈ ws.*1) then Some (match foldl weigh ∅ ws !! r with Some o => o | None => None end) else None.
Proof.
  induction ws as [|[x [g l]] ws IH] using rev_ind; [done|]. rewrite foldl_app, fmap_app. cbn [foldl weigh].
  destruct (decide (x = r)) as [->|Hx].
  - rewrite lookup_insert_eq, decide_True; [done|]. apply elem_of_app. right. apply list_elem_of_here.
  - rewrite lookup_insert_ne by done. rewrite IH at 1.
    destruct (decide (r ∈ ws.*1)) as [Hin|Hnin].
    + rewrite decide_True; [done|]. apply elem_of_app. by left.
    + rewrite decide_False; [done|]. rewrite elem_of_app. intros [?|[->|[]%not_elem_of_nil]%elem_of_cons]; done.
Qed.

Lemma weigh_exact ws r g l :
  foldl weigh ∅ ws !! r = Some (Some (g, l)) → g = side_sum fst r ws ∧ l = side_sum snd r ws ∧
    (ws ≠ [] → r ∈ ws.*1 → g ≤ width_max 128 ∧ l ≤ width_max 128).
Proof.
  revert g l. induction ws as [|[x [g' l']] ws IH] using rev_ind; intros g l; [done|].
  rewrite foldl_app. cbn [foldl weigh]. rewrite !side_sum_app, !side_sum_cons. cbn [fst snd].
  destruct (decide (x = r)) as [->|Hx].
  - rewrite lookup_insert_eq. intros [= E]. apply bind_Some in E as ([had spent] & E0 & E).
    apply bind_Some in E as (had' & Hh & E). apply bind_Some in E as (spent' & Hsp & E). injection E as -> ->.
    apply checked_add_Some in Hh as [-> Hh]. apply checked_add_Some in Hsp as [-> Hsp].
    destruct (foldl weigh ∅ ws !! r) as [o|] eqn:Eo.
    + cbn in E0. subst o. destruct (IH had spent eq_refl) as (-> & -> & _). cbn [side_sum sum_Z foldr fmap list_fmap].
      split_and!; [lia..|done].
    + injection E0 as <- <-. rewrite weigh_all in Eo. destruct (decide _) as [|Hnin]; [done|].
      rewrite (side_sum_none fst r ws), (side_sum_none snd r ws) by done. cbn. split_and!; [lia..|done].
  - rewrite lookup_insert_ne by done. intros E. destruct (IH g l E) as (-> & -> & Hb). cbn. split_and!; [lia..|].
    intros _. rewrite fmap_app, elem_of_app. intros [Hin|[?|[]%not_elem_of_nil]%elem_of_cons]; [|done].
    apply Hb; [|done]. by destruct ws.
Qed.

(** Nothing unweighed and nothing uneven: every resource balances. *)
Lemma balanced_sides ws r :
  filter unbalanced (map_iter (foldl weigh ∅ ws)) = [] → side_sum fst r ws = side_sum snd r ws.
Proof.
  intros Hnil. destruct (decide (r ∈ ws.*1)) as [Hin|Hnin].
  - pose proof (weigh_all ws r) as E. rewrite decide_True in E by done.
    destruct (foldl weigh ∅ ws !! r) as [o|] eqn:Eo; [|done]. clear E.
    assert (Hb : ¬ unbalanced (r, o)).
    { intros Hu. assert ((r, o) ∈ filter unbalanced (map_iter (foldl weigh ∅ ws))) as Hf.
      { apply list_elem_of_filter. split; [done|]. by apply elem_of_map_iter. }
      rewrite Hnil in Hf. by apply not_elem_of_nil in Hf. }
    destruct o as [[g l]|]; cbn in Hb; [|by destruct Hb]. apply dec_stable in Hb as ->.
    destruct (weigh_exact ws r l l Eo) as (<- & <- & _). done.
  - by rewrite (side_sum_none fst r ws), (side_sum_none snd r ws).
Qed.

(** A side that could not be kept is past the width. *)
Lemma weigh_overflow ws r :
  Forall (λ w, 0 ≤ w.2.1 ∧ 0 ≤ w.2.2) ws → foldl weigh ∅ ws !! r = Some None →
  width_max 128 < side_sum fst r ws ∨ width_max 128 < side_sum snd r ws.
Proof.
  induction ws as [|[x [g l]] ws IH] using rev_ind; [done|]. rewrite Forall_app, Forall_singleton. intros [Hws [Hg Hl]].
  rewrite foldl_app. cbn [foldl weigh fst snd] in *. rewrite !side_sum_app, !side_sum_cons. cbn [fst snd].
  change (side_sum fst r []) with 0. change (side_sum snd r []) with 0.
  destruct (decide (x = r)) as [->|Hx].
  2: { rewrite lookup_insert_ne by done. intros E. specialize (IH Hws E). lia. }
  rewrite lookup_insert_eq. intros [= E]. destruct (foldl weigh ∅ ws !! r) as [[[had spent]|]|] eqn:Eo.
  - destruct (weigh_exact ws r had spent Eo) as (-> & -> & _). cbn in E. unfold checked_add in E.
    repeat case_decide; cbn in E; try done; lia.
  - destruct (IH Hws eq_refl); lia.
  - assert (Hn : r ∉ ws.*1) by (rewrite weigh_all in Eo; by destruct (decide _)).
    rewrite (side_sum_none fst r ws), (side_sum_none snd r ws) by done. cbn in E. unfold checked_add in E. repeat case_decide; cbn in E; try done; lia.
Qed.
Lemma unbalanced_sides ws r :
  Forall (λ w, 0 ≤ w.2.1 ∧ 0 ≤ w.2.2) ws → fst <$> head (filter unbalanced (map_iter (foldl weigh ∅ ws))) = Some r →
  side_sum fst r ws ≠ side_sum snd r ws ∨ width_max 128 < side_sum fst r ws ∨ width_max 128 < side_sum snd r ws.
Proof.
  intros Hws Hh. apply fmap_Some in Hh as ([r' o] & Hh & ->). cbn.
  assert (Hin : (r', o) ∈ filter unbalanced (map_iter (foldl weigh ∅ ws))).
  { destruct (filter _ _); [done|]. injection Hh as ->. apply list_elem_of_here. }
  apply list_elem_of_filter in Hin as [Hu Hin%elem_of_map_iter]. destruct o as [[g l]|].
  - destruct (weigh_exact ws r' g l Hin) as (-> & -> & _). by left.
  - right. by apply weigh_overflow.
Qed.

(** ** The account of a receipt *)

Lemma side_sum_omap {A} f r (g : A → option (ResourceAddr * (Z * Z))) (l : list A) :
  side_sum f r (omap g l) = sum_Z ((λ x, match g x with Some w => if decide (w.1 = r) then f w.2 else 0 | None => 0 end) <$> l).
Proof.
  induction l as [|x l IH]; [done|]. cbn [omap list_omap]. rewrite fmap_cons, sum_Z_cons.
  destruct (g x) as [w|]; [rewrite side_sum_cons|]; by rewrite IH.
Qed.
Lemma side_sum_fmap {A} f r (g : A → ResourceAddr * (Z * Z)) (l : list A) :
  side_sum f r (g <$> l) = sum_Z ((λ x, if decide ((g x).1 = r) then f (g x).2 else 0) <$> l).
Proof. unfold side_sum. by rewrite <- list_fmap_compose. Qed.
Lemma sum_map_iter {K V} `{Countable K, OrdKey K} (g : K → V → Z) (m : gmap K V) :
  sum_Z ((λ p, g p.1 p.2) <$> map_iter m) = map_sum g m.
Proof. unfold map_sum. apply sum_Z_perm. by rewrite map_iter_perm. Qed.
Lemma side_sum_keyed f r (g : ResourceAddr → Z * Z) (l : list ResourceAddr) :
  NoDup l → f (g r) = 0 ∨ r ∈ l → side_sum f r ((λ x, (x, g x)) <$> l) = f (g r).
Proof.
  intros Hnd Hr. destruct (decide (r ∈ l)) as [Hin|Hnin].
  - clear Hr. induction Hnd as [|x l Hx Hnd IH]; [by apply not_elem_of_nil in Hin|].
    rewrite fmap_cons, side_sum_cons. cbn [fst snd]. destruct (decide (x = r)) as [->|Hne].
    + rewrite side_sum_none; [lia|]. rewrite <- list_fmap_compose. intros (y & -> & Hy)%list_elem_of_fmap. done.
    + apply elem_of_cons in Hin as [->|Hin]; [done|]. rewrite IH by done. lia.
  - destruct Hr as [Hr|]; [|done]. rewrite side_sum_none; [done|].
    rewrite <- list_fmap_compose. intros (y & -> & Hy)%list_elem_of_fmap. done.
Qed.

(** What the movements of a resource come to, and its entry flips. *)
Definition moved (f : Z * Z → Z) (ms : gmap SubstateKey Movement) (r : ResourceAddr) : Z :=
  map_sum (λ _ m, if decide (m_resource m = r) then f (m_credit m, m_debit m) else 0) ms.
Definition filed {B} `{Baseline B} (f : Z * Z → Z) (o : OverlayStore B) (d : Denominations)
    (es : gmap EntryKey (option bytes)) (r : ResourceAddr) : Z :=
  map_sum (λ key change,
    if decide (d_entries d !! (entry_owner key, entry_collection key) = Some r)
    then f (flip (pre_active_entry o (entry_owner key) (entry_collection key) (entry_order key)) change) else 0) es.
(** One side of what a receipt reports of a resource, over the state the
    transaction started from. *)
Definition reported_side {B} `{Baseline B} (f : Z * Z → Z) (o : OverlayStore B) (d : Denominations)
    (delta : StateDelta) (sup : SupplyDelta) (esc : EscrowDelta) (r : ResourceAddr) : Z :=
  moved f (dl_movements delta) r + moved f (dl_settles delta) r + filed f o d (dl_entries delta) r +
  f (burned sup r, minted sup r) + f (escrow_issued esc r, escrow_claimed esc r).

Lemma set_iter_NoDup {A} `{Countable A, OrdKey A} (x : gset A) : NoDup (set_iter x).
Proof. rewrite set_iter_perm. apply NoDup_elements. Qed.

Lemma supply_absent sup r : r ∉ supply_resources sup → burned sup r = 0 ∧ minted sup r = 0.
Proof.
  unfold supply_resources, burned, minted. rewrite elem_of_set_iter, not_elem_of_union, !not_elem_of_dom.
  by intros [-> ->].
Qed.
Lemma escrow_absent esc r : escrow_ok esc → r ∉ escrow_resources esc → escrow_issued esc r = 0 ∧ escrow_claimed esc r = 0.
Proof.
  intros Hok. unfold escrow_resources, escrow_claimed.
  rewrite elem_of_set_iter, not_elem_of_union, not_elem_of_dom, elem_of_list_to_set. intros [Hi ->]. split; [|done].
  unfold escrow_issued.
  assert (Hz : ∀ l, (∀ c, c ∈ l → c ∈ (map_iter (issued_at esc)).*2) →
    foldl (λ total c, saturating_add 128 total (crossed_amount c)) 0 (filter (λ c, crossed_resource c = r) l) = 0).
  { induction l as [|c l IH]; intros Hl; [done|]. rewrite filter_cons. destruct (decide (crossed_resource c = r)) as [Hc|].
    2: { apply IH. intros c' Hc'. apply Hl. by right. }
    cbn [foldl]. replace (saturating_add 128 0 (crossed_amount c)) with 0; [apply IH; intros c' Hc'; apply Hl; by right|].
    assert (Hin : c ∈ (map_iter (issued_at esc)).*2) by (apply Hl; left).
    assert (crossed_amount c = 0) as ->; [|done].
    pose proof Hin as Hin'. apply list_elem_of_fmap in Hin' as ([e c'] & -> & He%elem_of_map_iter). cbn in *.
    pose proof (Hok e c' He). destruct (decide (0 < crossed_amount c')); [|lia].
    destruct Hi. apply list_elem_of_fmap. exists c'. split; [done|]. by apply list_elem_of_filter. }
  by apply Hz.
Qed.

Section weights.
Context {B : Type} `{Baseline B}.
Implicit Types (s : KernelSession B) (o : OverlayStore B).

Lemma side_sum_moved f r ms : side_sum f r (moved_weight <$> map_iter ms) = moved f ms r.
Proof.
  rewrite side_sum_fmap. unfold moved_weight. cbn [fst snd].
  exact (sum_map_iter (λ _ m, if decide (m_resource m = r) then f (m_credit m, m_debit m) else 0) ms).
Qed.
Lemma side_sum_filed f r s d es :
  f (0, 0) = 0 → side_sum f r (omap (entry_weight s d) (map_iter es)) = filed f (store s) d es r.
Proof.
  intros Hf. rewrite side_sum_omap. unfold filed. rewrite <- sum_map_iter. f_equal. apply list_fmap_ext.
  intros _ [key change] _. cbn [fst snd entry_weight].
  destruct (d_entries d !! _) as [x|]; cbn [mbind option_bind]; [|by rewrite decide_False].
  destruct (pre_active_entry _ _ _ _), change; cbn [fst snd flip]; destruct (decide (x = r)) as [->|];
    rewrite ?decide_True, ?decide_False by congruence; done.
Qed.

(** The weights add up to the two sides of the report. *)
Lemma weights_side f r s d delta :
  escrow_ok (escrow s) → f (0, 0) = 0 →
  side_sum f r (weights s delta d) = reported_side f (store s) d delta (supply s) (escrow s) r.
Proof.
  intros Hesc Hf. unfold weights, reported_side. rewrite fmap_app, !side_sum_app, !side_sum_moved, side_sum_filed by done.
  rewrite (side_sum_keyed f r (λ x, (burned (supply s) x, minted (supply s) x))).
  2: apply set_iter_NoDup.
  2: { destruct (decide (r ∈ supply_resources (supply s))); [by right|left].
       destruct (supply_absent (supply s) r) as [-> ->]; done. }
  rewrite (side_sum_keyed f r (λ x, (escrow_issued (escrow s) x, escrow_claimed (escrow s) x))).
  2: apply set_iter_NoDup.
  2: { destruct (decide (r ∈ escrow_resources (escrow s))); [by right|left].
       destruct (escrow_absent (escrow s) r) as [-> ->]; done. }
  lia.
Qed.
End weights.

(** ** All or nothing *)

Section finishing.
Context {B : Type} `{Baseline B}.
Implicit Types (s : KernelSession B) (o : OverlayStore B).

Lemma F_produced {A A'} (m : F B A) (f : A → F B A') s s' b :
  (m ≫= f) s = (s', Produced b) ↔ ∃ s1 a, m s = (s1, Produced a) ∧ f a s1 = (s', Produced b).
Proof. unfold mbind, F_bind. destruct (m s) as [s1 [a| | |]]; naive_solver. Qed.
Lemma F_aborted {A A'} (m : F B A) (f : A → F B A') s s' out :
  (m ≫= f) s = (s', Aborted out) →
  m s = (s', Aborted out) ∨ ∃ s1 a, m s = (s1, Produced a) ∧ f a s1 = (s', Aborted out).
Proof. unfold mbind, F_bind. destruct (m s) as [s1 [a| | |]]; naive_solver. Qed.

Lemma filed_above f o o' d es r : above_only o o' → filed f o' d es r = filed f o d es r.
Proof.
  intros [Eb Ec _ _]. unfold filed. apply map_sum_ext. intros key change _. destruct (decide _); [|done].
  unfold pre_active_entry. rewrite Eb. replace (l_entries (committed o')) with (l_entries (committed o)); [done|].
  exact (f_equal l_entries (eq_sym Ec)).
Qed.

(** What stands when a session closes with something to report. *)
Record closed s s' (delta : StateDelta) : Prop := {
  cd_empty : carries_value (buckets s) = false;
  cd_closing : closing s s';
  cd_declared : undeclared_accesses (log (store s')) (declared (fixed s)) = [];
  cd_conserved : unconserved s' delta (denominations (fixed s)) = None;
  cd_drained : l_pending (active (store s')) = ∅;
}.
(** Folding the queue empties it. *)
Lemma judge_movements_drain d s s' ms : judge_movements d s = (s', Produced ms) → l_pending (active (store s')) = ∅.
Proof.
  unfold judge_movements. do 5 (intros (? & ? & _ & E)%F_produced; revert E).
  intros (s1 & committed & E1 & E)%F_produced. unfold on_ledger in E1. destruct committed as [ds|e]; [|by destruct (store_fault e)].
  assert (Hd : l_pending (active (store s1)) = ∅).
  { revert E1. match goal with |- context [commit_deltas ?o] => generalize o end. intros o. unfold commit_deltas.
    destruct (fold_all _ _); [|done]. by intros [= <- _]. }
  apply F_produced in E as (s2 & [] & E2 & E). injection E as <- _. unfold update in E2. injection E2 as <-. cbn.
  destruct (credits_withheld _); [|done]. by apply (above_foldl (withhold _)); [intros; apply above_withhold|].
Qed.
Lemma close_produced s s' delta : close s = (s', Produced delta) → closed s s' delta.
Proof.
  intros E. pose proof (close_refuses s) as [Hc _]. rewrite E in Hc. cbn [fst] in Hc. revert E. unfold close.
  intros (s1 & s2 & E1 & E)%F_produced. injection E1 as <- <-.
  destruct (carries_value (buckets s)) eqn:Hb; [done|]. cbv zeta in E.
  apply F_produced in E as (s2 & movements & E1 & E). apply judge_movements_drain in E1 as D1.
  assert (Hstep : ∀ {A} (m : F B A) t t' x, closes (λ _, True) m → m t = (t', Produced x) → l_pending (active (store t)) = ∅ →
    l_pending (active (store t')) = ∅).
  { intros A m t t' x Hm Em. destruct (Hm t) as [[_ _ _ _ _ _ Hs] _]. rewrite Em in Hs. apply Hs. }
  apply F_produced in E as (s3 & settles & E3 & E). apply F_produced in E as (s4 & movements' & E4 & E).
  apply F_produced in E as (s5 & spent & E5 & E). apply F_produced in E as (s6 & [] & E6 & E).
  apply F_produced in E as (s7 & [] & E7 & E).
  assert (D7 : l_pending (active (store s7)) = ∅).
  { eapply Hstep; [by apply write_cells_closes|exact E7|]. eapply Hstep; [by apply write_cells_closes|exact E6|].
    eapply Hstep; [|exact E5|]; [apply closes_fin; by destruct (spends _ _)|]. eapply Hstep; [by apply burn_fee_closes|exact E4|].
    by eapply Hstep; [apply settle_reservations_closes|exact E3|]. }
  apply F_produced in E as (s8 & o & E1' & E). injection E1' as <- <-.
  destruct (decide _) as [|Hnil]; [done|]. apply F_produced in E as (s9 & delta' & E2 & E).
  unfold fin in E2. injection E2 as <- _. apply F_produced in E as (s10 & s11 & E2 & E). injection E2 as <- <-.
  destruct (unconserved _ _ _) eqn:Hu; [done|]. injection E as <- <-. apply dec_stable in Hnil. by split.
Qed.

(** The store a finished session threads on: nothing queued, nothing pending. *)
Lemma finish_threads s answers fuel receipt o :
  l_pending (committed (store s)) = ∅ → finish s answers fuel = Finished receipt o →
  base o = base (store s) ∧ active o = layer_default ∧ l_pending (committed o) = ∅.
Proof.
  intros Hq. unfold finish. pose proof (close_refuses s) as [[_ _ _ _ _ _ C7] _].
  destruct (close s) as [s' [delta|out|e|]] eqn:E; cbn [fst snd] in *; [| |done..].
  - destruct (decide _); [|done]. intros [= <- <-]. apply close_produced in E as [_ _ _ _ Hd]. cbn. rewrite Hd, (ab_clean _ _ C7 Hq).
    split_and!; [apply C7|done|]. by apply map_eq; intros k; rewrite lookup_extend_entries.
  - intros [= <- <-]. cbn. split_and!; [apply C7|done|]. by apply C7.
Qed.

(** A session finishes whole or not at all. Whatever the session did, a receipt
    either completes, reporting the session's events and crossings over the store
    with its layer merged, or refuses, reporting nothing, and the store is the one
    the transaction started from with its layer gone; the fuel is reported either
    way, and no movement is left queued for the next transaction. *)
Theorem finish_all_or_nothing s answers fuel receipt o :
  l_pending (committed (store s)) = ∅ → finish s answers fuel = Finished receipt o →
  base o = base (store s) ∧ active o = layer_default ∧ l_pending (committed o) = ∅ ∧
  r_fuel_by_node receipt = fuel ∧ r_fuel receipt = fold_fuel fuel ∧
  ((r_outcome receipt = Outcome.Completed answers ∧ (length answers ≤ MAX_MANIFEST_NODES)%nat ∧
    r_events receipt = events s ∧ r_escrow receipt = escrow s ∧
    ∃ o', above_only (store s) o' ∧ undeclared_accesses (log o') (declared (fixed s)) = [] ∧ o = merge_active o') ∨
   (refusal (r_outcome receipt) ∧ r_delta receipt = delta_default ∧ r_events receipt = [] ∧
    r_supply receipt = supply_default ∧ r_escrow receipt = escrow_default ∧ committed o = committed (store s))).
Proof.
  intros Hq Hfin. destruct (finish_threads _ _ _ _ _ Hq Hfin) as (T1 & T2 & T3). split_and!; [done..| | |]; revert Hfin;
    unfold finish; pose proof (close_refuses s) as [[C1 C2 C3 C4 C5 C6 C7] Hr];
    destruct (close s) as [s' [delta|out|e|]] eqn:E; cbn [fst snd] in *; try done; try (by destruct (decide _) as [Hl|]; [intros [= <- <-]|]);
    try (by intros [= <- <-]).
  - destruct (decide _) as [Hl|]; [|done]. intros [= <- <-]. cbn. left. split_and!; [done..|].
    exists (store s'). split; [done|]. split; [|done]. by apply close_produced in E as [_ _ Hd _ _].
  - intros [= <- <-]. cbn. right. split_and!; [done..|]. by apply above_committed.
Qed.

(** C3: a committed receipt balances. For every resource, what the receipt's
    movements credited, its instances filed, its burns and the crossings it issued
    come to exactly what its movements and settled reservations debited, its
    instances removed, its mints and the crossings it claimed; nothing is left in
    the bucket table, and every access the session made is one it declared. *)
Theorem receipt_balances s answers fuel receipt o r :
  escrow_ok (escrow s) → finish s answers fuel = Finished receipt o → r_outcome receipt = Outcome.Completed answers →
  let side f := reported_side f (store s) (denominations (fixed s)) (r_delta receipt) (r_supply receipt) (r_escrow receipt) r in
  side fst = side snd ∧ carries_value (buckets s) = false ∧
  (∀ a, a ∈ log o → covered a (declared (fixed s)) = true).
Proof.
  intros Hesc Hfin Hout side. unfold finish in Hfin. pose proof (close_refuses s) as [_ Hr].
  destruct (close s) as [s' [delta|out|e|]] eqn:E; [| |done..].
  2: { injection Hfin as <- <-. cbn in *. by rewrite Hout in Hr. }
  destruct (decide _) as [Hl|]; [|done]. injection Hfin as <- <-. clear Hout Hr.
  destruct (close_produced s s' delta E) as [Hb [C1 C2 C3 C4 C5 C6 C7] Hd Hu].
  assert (Hside : ∀ f, f (0, 0) = 0 → side f = side_sum f r (weights s' delta (denominations (fixed s)))).
  { intros f Hf. rewrite weights_side by (done || by rewrite C4). subst side. unfold reported_side. cbn.
    by rewrite (filed_above f (store s) (store s')). }
  split; [|split; [done|]].
  - rewrite !Hside by done. apply balanced_sides. unfold unconserved in Hu. by destruct (filter unbalanced _).
  - intros a Ha. apply undeclared_nil in Hd. rewrite Forall_forall in Hd. by apply Hd.
Qed.
End finishing.

(** ** A finished run *)

(** The sample run with what is left in hand put back, so that the table is
    empty when the session finishes. *)
Definition closing_run : list SessionOp := sample_run ++ [SPut 0 0 0].
Definition closing_session : KernelSession MemoryStore := after_ops closing_run sample_session.

(** Both sides of resource 7: 33 back in the vault, 15 in the purse and a fee of 3
    burned, against 40 taken, 8 minted and the fee. *)
Lemma closing_finishes :
  ∃ receipt o, finish closing_session [] [7; 5] = Finished receipt o ∧ r_outcome receipt = Outcome.Completed [] ∧
    reported_side fst (store closing_session) (denominations (fixed closing_session))
      (r_delta receipt) (r_supply receipt) (r_escrow receipt) 7 = 51.
Proof.
  pose (check := λ f : finished MemoryStore, match f with
    | Finished r _ => match r_outcome r with Outcome.Completed [] =>
        reported_side fst (store closing_session) (denominations (fixed closing_session)) (r_delta r) (r_supply r) (r_escrow r) 7 =? 51
      | _ => false end
    | _ => false end).
  assert (Hc : check (finish closing_session [] [7; 5]) = true) by (vm_compute; reflexivity).
  subst check. cbv beta in Hc. destruct (finish closing_session [] [7; 5]) as [r o|e|]; [|discriminate Hc..].
  destruct (r_outcome r) as [[|]| | | | | | | | | |] eqn:Hout; try discriminate Hc. apply Z.eqb_eq in Hc.
  exists r, o. exact (conj eq_refl (conj Hout Hc)).
Qed.

Lemma finish_all_or_nothing_witness :
  ∃ receipt o, finish closing_session [] [7; 5] = Finished receipt o ∧ r_outcome receipt = Outcome.Completed [] ∧
    active o = layer_default ∧ r_fuel receipt = 12.
Proof.
  destruct closing_finishes as (receipt & o & E & Hout & _). exists receipt, o. split; [exact E|]. split; [exact Hout|].
  destruct (finish_all_or_nothing closing_session [] [7; 5] receipt o) as (_ & E1 & _ & _ & E2 & _).
  - vm_compute; reflexivity.
  - exact E.
  - exact (conj E1 E2).
Defined.

Lemma receipt_balances_witness :
  ∃ receipt o, finish closing_session [] [7; 5] = Finished receipt o ∧
    let side f := reported_side f (store closing_session) (denominations (fixed closing_session))
                    (r_delta receipt) (r_supply receipt) (r_escrow receipt) 7 in
    side fst = side snd ∧ side fst = 51.
Proof.
  destruct closing_finishes as (receipt & o & E & Hout & Hside). exists receipt, o. split; [exact E|].
  destruct (receipt_balances closing_session [] [7; 5] receipt o 7) as (Eq & _).
  - replace (escrow closing_session) with escrow_default by (vm_compute; reflexivity). by intros e c.
  - exact E.
  - exact Hout.
  - exact (conj Eq Hside).
Defined.
