(* ===== verification/Closing.v ===== *)
(** * A run session closes balanced ([crates/kernel/src/session/{receipt,value}.rs])

    The conservation account of [Conservation.v] and the account [finish] weighs
    are the same account: the folded movements are the queue's totals, a settled
    reservation is what was taken against it, the reported entries are the ones
    that changed. So a session that ran to an empty table is never refused as
    unconserved, except where a side leaves [u128] and cannot be weighed at all. *)

From S2P Require Import Prelude WideMath Types Effects Conflict Modes Hbor Cells Writes Ledger Store Overlay Capability Outcomes Buckets Supply Session Seals Conservation Receipt.

(** ** Sums over maps, by their keys *)

Lemma map_sum_over {K V} `{Countable K} (f : K → V → Z) (m : gmap K V) (X : gset K) :
  dom m ⊆ X → map_sum f m = sum_Z ((λ k, from_option (f k) 0 (m !! k)) <$> elements X).
Proof.
  revert X. induction m as [|k v m Hk IH] using map_ind; intros X Hsub.
  { rewrite map_sum_empty. induction (elements X) as [|x l IHl]; [done|]. rewrite fmap_cons, sum_Z_cons, <- IHl.
    by rewrite lookup_empty. }
  rewrite map_sum_insert, Hk. cbn [from_option]. rewrite dom_insert_L in Hsub.
  rewrite (IH (X ∖ {[k]})) by (apply not_elem_of_dom in Hk; set_solver).
  assert (Hx : X = {[k]} ∪ X ∖ {[k]}) by (apply union_difference_L; set_solver).
  rewrite (sum_Z_perm ((λ k0, from_option (f k0) 0 (<[k:=v]> m !! k0)) <$> elements X)
    ((λ k0, from_option (f k0) 0 (<[k:=v]> m !! k0)) <$> k :: elements (X ∖ {[k]}))).
  - rewrite fmap_cons, sum_Z_cons, lookup_insert_eq. cbn [from_option].
    replace ((λ k0, from_option (f k0) 0 (<[k:=v]> m !! k0)) <$> elements (X ∖ {[k]}))
      with ((λ k0, from_option (f k0) 0 (m !! k0)) <$> elements (X ∖ {[k]})); [lia|].
    apply list_fmap_ext. intros i x Hi. apply list_elem_of_lookup_2, elem_of_elements in Hi.
    rewrite lookup_insert_ne; [done|]. set_solver.
  - apply Permutation_map. rewrite Hx at 1. apply elements_union_singleton. set_solver.
Qed.
(** Two maps with the same term at every key have the same sum. *)
Lemma map_sum_pointwise {K V W} `{Countable K} (f : K → V → Z) (g : K → W → Z) (m : gmap K V) (n : gmap K W) :
  (∀ k, from_option (f k) 0 (m !! k) = from_option (g k) 0 (n !! k)) → map_sum f m = map_sum g n.
Proof.
  intros E. rewrite (map_sum_over f m (dom m ∪ dom n)), (map_sum_over g n (dom m ∪ dom n)) by set_solver.
  f_equal. apply list_fmap_ext. intros i k _. apply E.
Qed.

(** ** Movements *)

Lemma total_movement_exact ops r mv :
  Forall Modes.op_ok ops → total_movement ops r = Ok mv →
  mv = {| m_resource := r; m_credit := credits ops; m_debit := debits ops; m_unjudged_debit := 0 |} ∧
  0 ≤ credits ops ∧ 0 ≤ debits ops.
Proof.
  intros Hops. unfold total_movement. destruct (delta_totals_spec ops Hops) as (Hc & Hd & ->).
  destruct (decide _); [|done]. by intros [= <-].
Qed.

(** Every queued cell reports its queue's totals in the cell's resource. *)
Lemma total_queued_spec d l acc ms :
  NoDup l.*1 → Forall (λ p, Forall Modes.op_ok p.2) l → total_queued d l acc = Produced ms →
  ∀ key, ms !! key = match (list_to_map l : gmap SubstateKey (list DeltaOp)) !! key with
    | Some ops => (λ r, {| m_resource := r; m_credit := credits ops; m_debit := debits ops; m_unjudged_debit := 0 |})
                    <$> d_cells d !! key
    | None => acc !! key
    end.
Proof.
  revert acc. induction l as [|[k ops] l IH]; intros acc Hnd Hops; cbn [total_queued]; [by intros [= ->]|].
  rewrite fmap_cons in Hnd. apply NoDup_cons in Hnd as [Hk Hnd]. apply Forall_cons in Hops as [Ho Hops]. cbn in Hk, Ho.
  destruct (d_cells d !! k) as [r|] eqn:Hr; [|done]. destruct (total_movement ops r) as [mv|] eqn:Hm; [|done].
  apply total_movement_exact in Hm as [-> _]; [|done]. intros E key. rewrite (IH _ Hnd Hops E key). cbn [list_to_map foldr].
  destruct (decide (key = k)) as [->|Hne].
  - cbn [fst snd]. rewrite (not_elem_of_list_to_map_1 l) by done. rewrite !lookup_insert_eq. by rewrite Hr.
  - cbn [fst snd]. rewrite !(lookup_insert_ne _ k key) by done. done.
Qed.

Section closing_account.
Context {B : Type} `{Baseline B}.
Implicit Types (s : KernelSession B) (o : OverlayStore B).

Lemma op_sums f (ops : list DeltaOp) :
  (f = credit_of → sum_Z (f <$> ops) = credits ops) ∧ (f = debit_of → sum_Z (f <$> ops) = debits ops).
Proof. split; intros ->; unfold credits, debits; f_equal; apply list_fmap_ext; by intros _ []. Qed.

(** The folded movements are the queue as the account weighs it. *)
Lemma moved_queue s ms r :
  map_Forall (λ _, Forall Modes.op_ok) (pending_map (store s)) →
  total_queued (denominations (fixed s)) (map_iter (pending_map (store s))) ∅ = Produced ms →
  moved fst ms r = weigh_cells credit_of s r ∧ moved snd ms r = weigh_cells debit_of s r.
Proof.
  intros Hops E.
  assert (Hl : ∀ key, ms !! key = match pending_map (store s) !! key with
    | Some ops => (λ x, {| m_resource := x; m_credit := credits ops; m_debit := debits ops; m_unjudged_debit := 0 |})
                    <$> d_cells (denominations (fixed s)) !! key
    | None => None
    end).
  { assert (Hf : Forall (λ p, Forall Modes.op_ok p.2) (map_iter (pending_map (store s)))).
    { apply Forall_forall. intros [k ops] Hin%elem_of_map_iter. by apply (Hops k). }
    intros key. rewrite (total_queued_spec _ _ _ _ (NoDup_map_iter (pending_map (store s))) Hf E key).
    by rewrite list_to_map_iter. }
  split; (apply map_sum_pointwise; intros key; rewrite Hl; destruct (pending_map (store s) !! key) as [ops|]; [|done];
    cbn [from_option]; destruct (d_cells _ !! key) as [x|]; cbn [fmap option_fmap option_map from_option m_resource m_credit m_debit fst snd];
    [destruct (decide (x = r)) as [->|]|by rewrite decide_False];
    [rewrite decide_True by done; symmetry; by apply op_sums|by rewrite decide_False by congruence]).
Qed.

(** ** Entries *)

Lemma inserted_none {K V} `{Countable K} (l : list (K * V)) k :
  k ∉ l.*1 → foldl (λ m p, <[p.1 := p.2]> m) (∅ : gmap K V) l !! k = None.
Proof.
  induction l as [|p l IH] using rev_ind; [done|]. rewrite foldl_app, fmap_app, not_elem_of_app.
  cbn [foldl fmap list_fmap]. rewrite not_elem_of_cons. intros [Hk [Hp _]].
  rewrite lookup_insert_ne by done. by apply IH.
Qed.
Lemma map_sum_inserted {K V} `{Countable K} (g : K → V → Z) (l : list (K * V)) :
  NoDup l.*1 → map_sum g (foldl (λ m p, <[p.1 := p.2]> m) ∅ l) = sum_Z ((λ p, g p.1 p.2) <$> l).
Proof.
  induction l as [|p l IH] using rev_ind; [done|]. rewrite fmap_app, NoDup_app. intros (Hnd & Hdis & _).
  rewrite foldl_app, fmap_app, sum_Z_app. cbn [foldl fmap list_fmap]. rewrite map_sum_insert.
  rewrite inserted_none by (intros Hin; apply (Hdis _ Hin), list_elem_of_here).
  cbn [from_option]. rewrite IH by done. cbn. lia.
Qed.
Lemma sum_bind {A A'} (g : A' → Z) (f : A → list A') (l : list A) :
  sum_Z (g <$> (l ≫= f)) = sum_Z ((λ x, sum_Z (g <$> f x)) <$> l).
Proof.
  induction l as [|x l IH]; [done|]. rewrite bind_cons, fmap_app, sum_Z_app, IH, fmap_cons, sum_Z_cons. done.
Qed.
Lemma sum_filter {A} (g : A → Z) (P : A → Prop) `{∀ x, Decision (P x)} (l : list A) :
  (∀ x, ¬ P x → g x = 0) → sum_Z (g <$> filter P l) = sum_Z (g <$> l).
Proof.
  intros Hz. induction l as [|x l IH]; [done|]. rewrite filter_cons. destruct (decide (P x)) as [|Hx].
  - by rewrite !fmap_cons, !sum_Z_cons, IH.
  - rewrite fmap_cons, sum_Z_cons, IH, (Hz x Hx). lia.
Qed.

Lemma NoDup_filter_keys {K V} (P : K * V → Prop) `{∀ x, Decision (P x)} (l : list (K * V)) :
  NoDup l.*1 → NoDup (filter P l).*1.
Proof.
  induction l as [|p l IH]; [done|]. rewrite fmap_cons, NoDup_cons, filter_cons. intros [Hp Hl].
  destruct (decide (P p)); [|by apply IH]. rewrite fmap_cons, NoDup_cons. split; [|by apply IH].
  intros (q & Eq & [_ Hin]%list_elem_of_filter)%list_elem_of_fmap. apply Hp. rewrite Eq. by apply list_elem_of_fmap_2.
Qed.
Lemma active_entries_NoDup o : NoDup (active_entries o).*1.
Proof.
  unfold active_entries.
  assert (E : ∀ l : list (Address * CollectionId * EntryChanges),
    ('(p, changes) ← l; (λ c : Z * option bytes, ({| entry_owner := p.1; entry_collection := p.2; entry_order := c.1 |}, c.2)) <$> map_iter changes).*1
    = ('(p, changes) ← l; (λ x, {| entry_owner := p.1; entry_collection := p.2; entry_order := x |}) <$> (map_iter changes).*1)).
  { induction l as [|[p ch] l IH]; [done|]. rewrite !bind_cons, fmap_app, IH. f_equal. by rewrite <- !list_fmap_compose. }
  rewrite E. clear E. apply NoDup_bind.
  - intros [p ch] [p' ch'] k Hp Hp' (x & -> & _)%list_elem_of_fmap (x' & E & _)%list_elem_of_fmap.
    injection E as E1 E2 _. assert (p = p') as <- by (destruct p, p'; cbn in *; congruence).
    apply elem_of_map_iter in Hp, Hp'. by rewrite Hp in Hp'; injection Hp' as <-.
  - intros [p ch] _. apply NoDup_fmap_2_strong; [|apply NoDup_map_iter]. intros x y _ _ [= E]. done.
  - apply (NoDup_fmap_1 fst), NoDup_map_iter.
Qed.

(** The reported entries flip presence as the account weighs them. *)
Lemma filed_diff f s o r :
  f (0, 0) = 0 → base o = base (store s) → l_entries (committed o) = l_entries (committed (store s)) →
  l_entries (active o) = l_entries (active (store s)) →
  filed f o (denominations (fixed s)) (dl_entries (diff o)) r = weigh_entries f s r.
Proof.
  intros Hf Eb Ec Ea. unfold filed, diff. cbn [dl_entries].
  set (d := denominations (fixed s)).
  set (g := λ (key : EntryKey) (change : option bytes),
    if decide (d_entries d !! (entry_owner key, entry_collection key) = Some r)
    then f (flip (pre_active_entry o (entry_owner key) (entry_collection key) (entry_order key)) change) else 0).
  rewrite (map_sum_inserted g).
  2: { apply NoDup_filter_keys, active_entries_NoDup. }
  rewrite (sum_filter (λ p, g p.1 p.2)).
  2: { intros [key ch] Hn. apply dec_stable in Hn. cbn in *. unfold g. destruct (decide _); [|done].
       rewrite Hn. by destruct ch. }
  unfold active_entries. rewrite sum_bind. unfold weigh_entries.
  rewrite <- sum_map_iter, Ea. f_equal. apply list_fmap_ext. intros _ [p ch] _. cbn [fst snd].
  rewrite <- list_fmap_compose. unfold compose, g. cbn [fst snd entry_owner entry_collection entry_order].
  replace (p.1, p.2) with p by (by destruct p). destruct (decide _).
  - rewrite <- sum_map_iter. f_equal. apply list_fmap_ext. intros _ [x c] _. cbn [fst snd].
    unfold pre_active_entry. by rewrite Eb, Ec.
  - induction (map_iter ch) as [|c l IH]; [done|]. by rewrite fmap_cons, sum_Z_cons, IH.
Qed.
End closing_account.

(** ** Reservations *)

(** The clauses that reserve a cell, in table order. *)
Definition reserves (key : SubstateKey) (p : Rep * Capability) : option (Rep * Z) :=
  match p.2 with Cap.Reserve k amt => if decide (k = key) then Some (p.1, amt) else None | _ => None end.
Definition clauses (m : Materialized) (key : SubstateKey) : list (Rep * Z) := omap (reserves key) (imap pair (table m)).
(** What was taken against a cell, and what its clauses reserve altogether. *)
Definition taken_sum (m : Materialized) (tk : gset nat) (key : SubstateKey) : Z :=
  sum_Z (snd <$> filter (λ p, p.1 ∈ tk) (clauses m key)).
Definition reserved_sum (m : Materialized) (key : SubstateKey) : Z := sum_Z (snd <$> clauses m key).

Definition table_fits (m : Materialized) : Prop := Z.of_nat (length (table m)) ≤ u32_max.

Lemma elem_of_clauses m key rep amt : (rep, amt) ∈ clauses m key ↔ table m !! rep = Some (Cap.Reserve key amt).
Proof.
  unfold clauses. rewrite list_elem_of_omap. split.
  - intros ([i c] & Hin & E). apply elem_of_lookup_imap in Hin as (j & c' & [= -> ->] & Hj). unfold reserves in E. cbn in E.
    destruct c'; try done. destruct (decide _) as [->|]; [|done]. by injection E as -> ->.
  - intros Hl. exists (rep, Cap.Reserve key amt). split; [apply elem_of_lookup_imap; by eexists _, _|].
    unfold reserves. cbn. by rewrite decide_True.
Qed.

Lemma denominate_reserved m out p key :
  Z.of_nat p.1 ≤ u32_max →
  default [] (d_reserved (denominate m out p) !! key) =
    default [] (d_reserved out !! key) ++ match reserves key p with Some c => [c] | None => [] end.
Proof.
  destruct p as [rep c]. cbn [fst]. intros Hr. unfold denominate, reserves. cbn [snd]. rewrite decide_True by done.
  assert (Hsame : ∀ out', d_reserved
    match materialized_resource m rep with
    | None => out'
    | Some resource => match c with
      | Cap.Amount k _ | Cap.AmountRead k | Cap.Delta k _ | Cap.Reserve k _ =>
          {| d_cells := or_insert (d_cells out') k resource; d_entries := d_entries out'; d_reserved := d_reserved out' |}
      | Cap.Instances i _ => {| d_cells := d_cells out';
          d_entries := or_insert (d_entries out') (iv_owner i, iv_collection i) resource; d_reserved := d_reserved out' |}
      | _ => out'
      end
    end = d_reserved out') by (intros out'; destruct (materialized_resource m rep), c; done).
  cbv zeta. rewrite Hsame. destruct c; try (by rewrite app_nil_r). cbn [d_reserved].
  destruct (decide (key0 = key)) as [->|Hne].
  - by rewrite lookup_insert_eq.
  - rewrite lookup_insert_ne by done. by rewrite app_nil_r.
Qed.

Lemma denominations_reserved m key :
  table_fits m → default [] (d_reserved (denominations m) !! key) = clauses m key.
Proof.
  intros Hfit. unfold denominations, clauses.
  assert (Hl : ∀ l out, Forall (λ p : Rep * Capability, Z.of_nat p.1 ≤ u32_max) l →
    default [] (d_reserved (foldl (denominate m) out l) !! key) = default [] (d_reserved out !! key) ++ omap (reserves key) l).
  { induction l as [|p l IH]; intros out Hp; [by rewrite app_nil_r|]. apply Forall_cons in Hp as [Hp Hl].
    cbn [foldl]. rewrite IH, denominate_reserved by done. rewrite <- app_assoc. f_equal. cbn [omap list_omap].
    by destruct (reserves key p). }
  rewrite Hl; [done|]. apply Forall_forall. intros [i c] (j & c' & [= -> ->] & Hj)%elem_of_lookup_imap. cbn.
  apply lookup_lt_Some in Hj. unfold table_fits in Hfit. lia.
Qed.

Lemma checked_sum (l : list (Rep * Z)) :
  Forall (λ p, 0 ≤ p.2) l →
  foldl (λ total p, t ← total; checked_add 128 t p.2) (Some 0) l =
    (if decide (sum_Z (snd <$> l) ≤ width_max 128) then Some (sum_Z (snd <$> l)) else None) ∧ 0 ≤ sum_Z (snd <$> l).
Proof.
  induction l as [|p l IH] using rev_ind; intros Hl; [by cbn|]. apply Forall_app in Hl as [Hl [Hp _]%Forall_cons].
  destruct (IH Hl) as [E Hn]. rewrite foldl_app, E, fmap_app, sum_Z_app. cbn [foldl fmap list_fmap].
  replace (sum_Z [p.2]) with p.2 by (cbn; lia). split; [|lia].
  destruct (decide (sum_Z (snd <$> l) ≤ _)); cbn [mbind option_bind].
  - unfold checked_add. by destruct (decide _).
  - by rewrite decide_False by lia.
Qed.

Definition reserves_ok (m : Materialized) : Prop :=
  ∀ rep key amt, table m !! rep = Some (Cap.Reserve key amt) → in_width 128 amt.

Lemma taken_against_spec m tk key :
  table_fits m → reserves_ok m →
  taken_against (denominations m) key tk =
    (if decide (taken_sum m tk key ≤ width_max 128) then Some (taken_sum m tk key) else None) ∧ 0 ≤ taken_sum m tk key.
Proof.
  intros Hfit Hok. unfold taken_against. rewrite denominations_reserved by done. apply checked_sum.
  apply Forall_forall. intros [rep amt] [_ Hin%elem_of_clauses]%list_elem_of_filter. cbn.
  apply Hok in Hin. unfold in_width in Hin. lia.
Qed.

Lemma taken_le_reserved m tk key : reserves_ok m → taken_sum m tk key ≤ reserved_sum m key.
Proof.
  intros Hok. unfold taken_sum, reserved_sum.
  assert (Hn : Forall (λ p, 0 ≤ p.2) (clauses m key)).
  { apply Forall_forall. intros [rep amt] Hin%elem_of_clauses. apply Hok in Hin. unfold in_width in Hin. cbn. lia. }
  induction Hn as [|p l Hp _ IH]; [done|]. rewrite filter_cons. destruct (decide _); rewrite !fmap_cons, !sum_Z_cons; lia.
Qed.

Section settling.
Context {B : Type} `{Baseline B}.
Implicit Types (s : KernelSession B) (o : OverlayStore B).

Lemma held_after_set o key t x k t' :
  held_reservation (set_hold o key t x) k t' = if decide (key = k ∧ t = t') then x else held_reservation o k t'.
Proof.
  cbn. unfold overlay_held_reservation, set_active, set_l_held, nested_insert. cbn.
  destruct (decide (key = k)) as [->|Hk].
  - rewrite lookup_insert_eq. cbn. destruct (decide (t = t')) as [->|Ht].
    + by rewrite lookup_insert_eq, decide_True.
    + rewrite lookup_insert_ne, decide_False by naive_solver. by destruct (l_held (active o) !! k).
  - rewrite lookup_insert_ne, decide_False by naive_solver. done.
Qed.

Lemma release_spec o key t h :
  held_reservation o key t = Some h →
  (release o key t).2 = Ok h ∧ ∀ k t', k ≠ key → held_reservation (release o key t).1 k t' = held_reservation o k t'.
Proof.
  intros Hh. unfold release. rewrite Hh. cbn [ok_or snd fst]. split; [done|]. intros k t' Hk.
  rewrite held_after_set. rewrite decide_False by naive_solver. done.
Qed.
Lemma settle_spec o key t h r :
  held_reservation o key t = Some h → (settle o key t).2 = Ok r →
  r = h ∧ ∀ k t', k ≠ key → held_reservation (settle o key t).1 k t' = held_reservation o k t'.
Proof.
  intros Hh. unfold settle. rewrite Hh. cbn [ok_or mbind result_bind].
  destruct (amount o key) as [a|]; [|done]. cbn [mbind result_bind]. destruct (checked_sub a h) as [x|]; [|done].
  cbn [ok_or mbind result_bind fst snd]. intros [= <-]. split; [done|]. intros k t' Hk.
  change (held_reservation (set_hold o key t None) k t' = held_reservation o k t').
  rewrite held_after_set. rewrite decide_False by naive_solver. done.
Qed.
(** One reserved cell: a grant that was taken settles for exactly what was taken,
    an untouched one leaves no debit, and no other hold is touched. *)
Lemma settle_one_spec d key s s' res h amt :
  held_reservation (store s) key (tx (fixed s)) = Some h → taken_against d key (taken s) = Some amt → amt ≤ h →
  settle_one d key s = (s', Produced res) →
  ∃ r, d_cells d !! key = Some r ∧ res = (if decide (amt = 0) then None else Some (movement_debit r amt)) ∧
    ∀ k t, k ≠ key → held_reservation (store s') k t = held_reservation (store s) k t.
Proof.
  intros Hh Ht Hle. unfold settle_one.
  intros (s1 & m & E1 & E)%F_produced. injection E1 as <- <-.
  apply F_produced in E as (s1 & tk & E1 & E). injection E1 as <- <-.
  apply F_produced in E as (s1 & r & E1 & E). unfold or_fail, fin in E1.
  destruct (d_cells d !! key) as [r'|]; [|done]. injection E1 as <- <-. exists r'. split; [done|].
  rewrite Ht in E. apply F_produced in E as (s1 & settled & E1 & E).
  assert (Hset : settled = Ok (if decide (amt = 0) then None else Some amt) ∧
      ∀ k t, k ≠ key → held_reservation (store s1) k t = held_reservation (store s) k t).
  { destruct (decide (amt = 0)) as [Hz|Hnz].
    - apply F_produced in E1 as (s2 & x & E2 & E1). injection E1 as <- <-. unfold on_ledger in E2.
      destruct (release_spec (store s) key (tx (fixed s)) h Hh) as [Hr Ho].
      destruct (release (store s) key (tx (fixed s))) as [o x']. injection E2 as <- <-. cbn [fst snd store set_store] in *.
      by rewrite Hr.
    - destruct (applies (fixed s) (owner key)).
      + apply F_produced in E1 as (s2 & [] & E2 & E1).
        assert (s2 = set_store (reduce_hold (store s) key (tx (fixed s)) amt) s) as -> by (by injection E2). clear E2.
        apply F_produced in E1 as (s3 & x & E2 & E1). injection E1 as <- <-. unfold on_ledger in E2. cbn [store set_store] in E2.
        set (o1 := reduce_hold (store s) key (tx (fixed s)) amt) in *.
        assert (Hh1 : held_reservation o1 key (tx (fixed s)) = Some amt).
        { unfold o1, reduce_hold. rewrite Hh, held_after_set, decide_True by done. cbn. f_equal. lia. }
        destruct (settle o1 key (tx (fixed s))) as [o x'] eqn:Es. injection E2 as <- <-. cbn [store set_store].
        destruct x' as [x'|e]; cbn in E.
        * pose proof (settle_spec o1 key (tx (fixed s)) amt x' Hh1) as Hs. rewrite Es in Hs. cbn [fst snd] in Hs. destruct (Hs eq_refl) as [-> Ho].
          split; [done|]. intros k t Hk. rewrite (Ho k t Hk). unfold o1, reduce_hold. rewrite held_after_set.
          rewrite decide_False by naive_solver. done.
        * by destruct (store_fault e).
      + apply F_produced in E1 as (s2 & x & E2 & E1). injection E1 as <- <-. unfold on_ledger in E2.
        destruct (release_spec (store s) key (tx (fixed s)) h Hh) as [Hr Ho].
        destruct (release (store s) key (tx (fixed s))) as [o x']. injection E2 as <- <-. cbn [fst snd store set_store] in *.
        by rewrite Hr. }
  destruct Hset as [-> Ho]. destruct (decide (amt = 0)) as [Hz|Hnz]; unfold mret, F_ret in E;
    injection E as <- <-; done.
Qed.

(** What the report carries of a reserved cell. *)
Definition settled_at (m : Materialized) (tk : gset nat) (key : SubstateKey) : option Movement :=
  if decide (taken_sum m tk key = 0) then None
  else (λ r, movement_debit r (taken_sum m tk key)) <$> d_cells (denominations m) !! key.
Definition on_cell (key : SubstateKey) (c : Capability) : bool :=
  match c with Cap.Reserve k _ => bool_decide (k = key) | _ => false end.
Definition reserved_in (caps : list Capability) (key : SubstateKey) : bool := existsb (on_cell key) caps.
(** The hold the store promises covers what was taken. *)
Definition covers_taken s (key : SubstateKey) : Prop :=
  ∃ h, held_reservation (store s) key (tx (fixed s)) = Some h ∧ taken_sum (fixed s) (taken s) key ≤ h.

Lemma settle_one_ready m key s s' res :
  fixed s = m → table_fits m → reserves_ok m → covers_taken s key →
  settle_one (denominations m) key s = (s', Produced res) →
  res = settled_at m (taken s) key ∧ (∀ k t, k ≠ key → held_reservation (store s') k t = held_reservation (store s) k t).
Proof.
  intros <- Hfit Hres (h & Hh & Hle) E. destruct (taken_against_spec (fixed s) (taken s) key Hfit Hres) as [Ht Hn].
  destruct (decide (taken_sum (fixed s) (taken s) key ≤ width_max 128)) as [Hw|Hw].
  - destruct (settle_one_spec _ key s s' res h _ Hh Ht Hle E) as (r & Hr & -> & Ho). split; [|done].
    unfold settled_at. rewrite Hr. by destruct (decide _).
  - exfalso. clear -Ht E. unfold settle_one in E.
    apply F_produced in E as (s1 & m & E1 & E). injection E1 as <- <-.
    apply F_produced in E as (s1 & tk & E1 & E). injection E1 as <- <-.
    apply F_produced in E as (s1 & r & E1 & E). unfold or_fail, fin in E1.
    destruct (d_cells _ !! key) as [r'|]; [|done]. injection E1 as <- <-. by rewrite Ht in E.
Qed.

Lemma reserved_later c caps key : reserved_in caps key = true → reserved_in (c :: caps) key = true.
Proof. unfold reserved_in. cbn. intros ->. apply orb_true_r. Qed.

Lemma settle_loop_spec m caps seen acc s s' settles :
  fixed s = m → table_fits m → reserves_ok m →
  (∀ key, key ∉ seen → judges m (owner key) = true → reserved_in caps key = true → covers_taken s key) →
  (∀ key, key ∉ seen → acc !! key = None) →
  settle_loop (denominations m) caps seen acc s = (s', Produced settles) →
  ∀ key, settles !! key =
    if decide (key ∈ seen) then acc !! key
    else if judges m (owner key) && reserved_in caps key then settled_at m (taken s) key else None.
Proof.
  intros Hm Hfit Hres. revert seen acc s Hm. induction caps as [|c caps IH]; intros seen acc s Hm Hcov Hacc E key.
  { injection E as _ ->. cbn. rewrite andb_false_r. destruct (decide _); [done|by apply Hacc]. }
  assert (Hskip : ∀ seen', (∀ k, on_cell k c = true → judges m (owner k) = true → k ∈ seen') → seen ⊆ seen' →
      (∀ k, k ∈ seen' → k ∈ seen ∨ judges m (owner k) = false) →
      settle_loop (denominations m) caps seen' acc s = (s', Produced settles) →
      settles !! key = if decide (key ∈ seen) then acc !! key
        else if judges m (owner key) && reserved_in (c :: caps) key then settled_at m (taken s) key else None).
  { intros seen' Hon Hsub Hnew E'. 
    assert (H1 : ∀ k, k ∉ seen' → judges m (owner k) = true → reserved_in caps k = true → covers_taken s k)
      by (intros k Hk Hj Hr; apply Hcov; [set_solver|done|by apply reserved_later]).
    assert (H2 : ∀ k, k ∉ seen' → acc !! k = None) by (intros k Hk; apply Hacc; set_solver).
    rewrite (IH seen' acc s Hm H1 H2 E' key).
    destruct (decide (key ∈ seen')) as [Hin|Hnin].
    - destruct (Hnew key Hin) as [Hs|Hj]; [by rewrite decide_True|]. rewrite Hj. cbn.
      destruct (decide (key ∈ seen)); [done|by apply Hacc].
    - rewrite (decide_False (P := key ∈ seen)) by set_solver. cbn [reserved_in existsb].
      destruct (judges m (owner key)) eqn:Hj; [|done]. cbn [andb].
      destruct (on_cell key c) eqn:Hc; [by destruct Hnin; apply Hon|]. done. }
  destruct c as [k|k|k mv|k|k mv|k amt|i|i|i mv]; cbn [settle_loop] in E;
    try (by apply (Hskip seen); [intros ? [=]|set_solver|auto|]).
  destruct (decide (k ∈ seen)) as [Hk|Hk].
  { apply (Hskip seen); [|done|auto|done]. intros k' E'%bool_decide_eq_true. by subst. }
  apply F_produced in E as (s1 & m' & E1 & E). injection E1 as <- <-. rewrite Hm in E.
  destruct (judges m (owner k)) eqn:Hj; cbn [negb] in E.
  2: { apply (Hskip ({[k]} ∪ seen)); [|set_solver| |done].
       - intros k' E'%bool_decide_eq_true. subst. by rewrite Hj.
       - intros k' [->%elem_of_singleton|]%elem_of_union; auto. }
  apply F_produced in E as (s1 & res & E1 & E).
  pose proof (settle_one_closes (λ _, True) (λ _, I) (λ _ _, I) (denominations m) k I s) as [[F1 _ _ _ _ F6 _] _].
  rewrite E1 in F1, F6. cbn [fst] in F1, F6.
  destruct (settle_one_ready m k s s1 res Hm Hfit Hres) as [-> Ho]; [|done|].
  { apply Hcov; [done..|]. cbn. by rewrite bool_decide_eq_true_2. }
  assert (H1 : ∀ k', k' ∉ {[k]} ∪ seen → judges m (owner k') = true → reserved_in caps k' = true → covers_taken s1 k').
  { intros k' Hk' Hj' Hr'. assert (k' ≠ k) by set_solver.
    destruct (Hcov k') as (h & Hh & Hle); [set_solver|done|by apply reserved_later|].
    exists h. rewrite F1, F6. split; [|done]. rewrite Ho by done. done. }
  assert (H2 : ∀ k', k' ∉ {[k]} ∪ seen →
      match settled_at m (taken s) k with Some mv => <[k := mv]> acc | None => acc end !! k' = None).
  { intros k' Hk'. destruct (settled_at m (taken s) k); [rewrite lookup_insert_ne by set_solver|]; apply Hacc; set_solver. }
  rewrite (IH ({[k]} ∪ seen) _ s1 ltac:(congruence) H1 H2 E key), F6. clear H1 H2 IH Hskip.
  cbn [reserved_in existsb on_cell]. destruct (decide (k = key)) as [->|Hne].
  - rewrite decide_True by set_solver. rewrite (decide_False (P := key ∈ seen)) by done.
    rewrite Hj, bool_decide_eq_true_2 by done. cbn [andb orb].
    destruct (settled_at m (taken s) key) as [x|]; [apply lookup_insert_eq|by apply Hacc].
  - rewrite bool_decide_eq_false_2 by done. cbn [orb].
    replace (match settled_at m (taken s) k with Some mv => <[k := mv]> acc | None => acc end !! key) with (acc !! key)
      by (destruct (settled_at m (taken s) k); [by rewrite lookup_insert_ne|done]).
    destruct (decide (key ∈ seen)); [by rewrite decide_True by set_solver|].
    rewrite decide_False by set_solver. done.
Qed.
End settling.

(** ** What was taken is what settles *)

(** Every exercised grant is a judged, denominated reservation of the table. *)
Definition taken_ok (m : Materialized) (tk : gset nat) : Prop :=
  ∀ rep, rep ∈ tk → ∃ key amt r,
    table m !! rep = Some (Cap.Reserve key amt) ∧ judges m (owner key) = true ∧ materialized_resource m rep = Some r.

Lemma sum_plus {A} (f g : A → Z) (l : list A) : sum_Z ((λ x, f x + g x) <$> l) = sum_Z (f <$> l) + sum_Z (g <$> l).
Proof. induction l as [|x l IH]; [done|]. rewrite !fmap_cons, !sum_Z_cons, IH. lia. Qed.
Lemma sum_zero {A} (f : A → Z) (l : list A) : (∀ x, x ∈ l → f x = 0) → sum_Z (f <$> l) = 0.
Proof.
  induction l as [|x l IH]; intros Hz; [done|]. rewrite fmap_cons, sum_Z_cons, (Hz x) by left. rewrite IH; [done|].
  intros y Hy. apply Hz. by right.
Qed.
Lemma sum_one {A} `{EqDecision A} (l : list A) (k : A) (v : Z) :
  NoDup l → k ∈ l → sum_Z ((λ x, if decide (k = x) then v else 0) <$> l) = v.
Proof.
  intros Hnd. induction Hnd as [|x l Hx Hnd IH]; [by intros ?%not_elem_of_nil|].
  rewrite fmap_cons, sum_Z_cons. destruct (decide (k = x)) as [->|Hne].
  - intros _. rewrite sum_zero; [lia|]. intros y Hy. rewrite decide_False; [done|]. by intros <-.
  - intros [->|Hin]%elem_of_cons; [done|]. rewrite IH by done. lia.
Qed.

Section taken.
Context (m : Materialized) (tk : gset nat) (r : ResourceAddr).
Hypothesis Hag : contents_agree m.
Hypothesis Htk : taken_ok m tk.

Definition share_of (rep : Rep) : Z := if decide (rep ∈ tk) then reserved_share m r rep else 0.
Definition cell_term (key : SubstateKey) : Z :=
  if decide (d_cells (denominations m) !! key = Some r) then taken_sum m tk key else 0.

Lemma cell_term_shares key :
  cell_term key = sum_Z ((λ p : Rep * Capability, if on_cell key p.2 then share_of p.1 else 0) <$> imap pair (table m)).
Proof using Hag Htk.
  unfold cell_term, taken_sum, clauses.
  assert (Hl : ∀ l : list (Rep * Capability), (∀ p, p ∈ l → table m !! p.1 = Some p.2) →
    (if decide (d_cells (denominations m) !! key = Some r) then sum_Z (snd <$> filter (λ p, p.1 ∈ tk) (omap (reserves key) l)) else 0)
    = sum_Z ((λ p : Rep * Capability, if on_cell key p.2 then share_of p.1 else 0) <$> l)).
  { induction l as [|[rep c] l IH]; intros Hp; [by destruct (decide _)|].
    rewrite fmap_cons, sum_Z_cons, <- IH by (intros p Hin; apply Hp; by right). clear IH.
    assert (Hrep : table m !! rep = Some c) by (apply (Hp (rep, c)); left). cbn [omap list_omap fst snd].
    destruct c as [k|k|k mv|k|k mv|k amt|i|i|i mv]; cbn [on_cell reserves fst snd]; try done.
    unfold reserves. cbn [fst snd]. destruct (decide (k = key)) as [->|Hne].
    2: { by rewrite bool_decide_eq_false_2. }
    rewrite bool_decide_eq_true_2 by done. rewrite filter_cons. cbn [fst]. unfold share_of.
    destruct (decide (rep ∈ tk)) as [Hin|]; [|by destruct (decide _)]. unfold reserved_share. rewrite Hrep.
    destruct (Htk rep Hin) as (key' & amt' & x & Ht & _ & Hx). rewrite Hrep in Ht. injection Ht as <- <-.
    pose proof (ca_cells m Hag rep (Cap.Reserve key amt) key x Hrep eq_refl Hx) as Hd.
    rewrite Hx, Hd. destruct (decide (Some x = Some r)); [by rewrite fmap_cons, sum_Z_cons|done]. }
  apply Hl. intros [rep c] (i & c' & [= -> ->] & Hi)%elem_of_lookup_imap. done.
Qed.

(** The cells some clause reserves. *)
Definition reserved_cells : gset SubstateKey :=
  list_to_set (omap (λ c, match c with Cap.Reserve k _ => Some k | _ => None end) (table m)).
Lemma reserved_cells_spec key : key ∈ reserved_cells ↔ reserved_in (table m) key = true.
Proof.
  unfold reserved_cells, reserved_in. rewrite elem_of_list_to_set, list_elem_of_omap, existsb_exists. split.
  - intros (c & Hc & E). exists c. split; [by apply list_elem_of_In|]. destruct c; try done. injection E as ->.
    cbn. by apply bool_decide_eq_true_2.
  - intros (c & Hc%list_elem_of_In & E). exists c. split; [done|]. destruct c; try done. cbn in E.
    apply bool_decide_eq_true in E. by subst.
Qed.

Lemma sum_shares :
  sum_Z (cell_term <$> elements reserved_cells) = sum_Z (reserved_share m r <$> elements tk).
Proof using Hag Htk.
  transitivity (sum_Z ((λ p : Rep * Capability, share_of p.1) <$> imap pair (table m))).
  - assert (Hl : ∀ l : list (Rep * Capability), (∀ p, p ∈ l → table m !! p.1 = Some p.2) →
      sum_Z ((λ key, sum_Z ((λ p : Rep * Capability, if on_cell key p.2 then share_of p.1 else 0) <$> l)) <$> elements reserved_cells)
      = sum_Z ((λ p : Rep * Capability, share_of p.1) <$> l)).
    { induction l as [|[rep c] l IH]; intros Hp; [by apply sum_zero|].
      rewrite fmap_cons, sum_Z_cons, <- IH by (intros p Hin; apply Hp; by right). clear IH.
      assert (Hrep : table m !! rep = Some c) by (apply (Hp (rep, c)); left). cbn [fst snd].
      etransitivity; [exact (sum_plus (λ key, if on_cell key c then share_of rep else 0) _ _)|]. f_equal. destruct c as [k|k|k mv|k|k mv|k amt|i|i|i mv]; cbn [on_cell];
        try (rewrite sum_zero by done; unfold share_of, reserved_share; rewrite Hrep; by destruct (decide _)).
      etransitivity; [|apply (sum_one (elements reserved_cells) k (share_of rep)); [apply NoDup_elements|]].
      + f_equal. apply list_fmap_ext. intros _ x _. by destruct (decide (k = x)); [rewrite bool_decide_eq_true_2|rewrite bool_decide_eq_false_2].
      + apply elem_of_elements, elem_of_list_to_set, list_elem_of_omap. exists (Cap.Reserve k amt).
        split; [by eapply list_elem_of_lookup_2|done]. }
    rewrite <- Hl.
    + f_equal. apply list_fmap_ext. intros _ key _. apply cell_term_shares.
    + intros [rep c] (i & c' & [= -> ->] & Hi)%elem_of_lookup_imap. done.
  - assert (E : (λ p : Rep * Capability, share_of p.1) <$> imap pair (table m) = share_of <$> seq 0 (length (table m))).
    { etransitivity; [apply (list_fmap_compose fst share_of)|]. f_equal. rewrite fmap_imap.
      etransitivity; [apply (imap_seq_0 (table m) (λ i, i))|]. apply list_fmap_id. }
    rewrite E. unfold share_of.
    rewrite (sum_Z_perm (reserved_share m r <$> elements tk) (reserved_share m r <$> filter (λ x, x ∈ tk) (seq 0 (length (table m))))).
    + clear E. induction (seq 0 (length (table m))) as [|x l IH]; [done|]. rewrite filter_cons, fmap_cons, sum_Z_cons, IH.
      destruct (decide (x ∈ tk)); [by rewrite fmap_cons, sum_Z_cons|done].
    + apply Permutation_map. apply NoDup_Permutation; [apply NoDup_elements|apply NoDup_filter, NoDup_seq|].
      intros x. rewrite elem_of_elements, list_elem_of_filter, elem_of_seq. split; [|tauto]. intros Hx. split; [done|].
      destruct (Htk x Hx) as (key & amt & y & Ht & _). apply lookup_lt_Some in Ht. lia.
Qed.
End taken.

(** ** The whole account *)

Section account.
Context {B : Type} `{Baseline B}.
Implicit Types (s : KernelSession B) (o : OverlayStore B).

(** The settled reservations are the account's. *)
Lemma moved_settles s settles r :
  contents_agree (fixed s) → taken_ok (fixed s) (taken s) →
  (∀ key, settles !! key =
     if judges (fixed s) (owner key) && reserved_in (table (fixed s)) key then settled_at (fixed s) (taken s) key else None) →
  moved fst settles r = 0 ∧ moved snd settles r = settled s r.
Proof.
  intros Hag Htk Hl. set (m := fixed s) in *.
  assert (Hsub : dom settles ⊆ reserved_cells m).
  { intros key Hin. apply elem_of_dom in Hin as [mv Hmv]. rewrite Hl in Hmv. apply reserved_cells_spec.
    by destruct (reserved_in _ key); [|rewrite andb_false_r in Hmv]. }
  unfold moved. split.
  - rewrite (map_sum_over _ _ _ Hsub). apply sum_zero. intros key _. rewrite Hl. unfold settled_at.
    destruct (_ && _), (decide (taken_sum m (taken s) key = 0)), (d_cells (denominations m) !! key); cbn; try done;
      by destruct (decide _).
  - rewrite (map_sum_over _ _ _ Hsub). unfold settled. fold m. rewrite <- (sum_shares m (taken s) r Hag Htk).
    f_equal. apply list_fmap_ext. intros i key Hin.
    assert (Hres : reserved_in (table m) key = true)
      by (apply reserved_cells_spec; apply list_elem_of_lookup_2, elem_of_elements in Hin; exact Hin).
    rewrite Hl, Hres, andb_true_r. unfold cell_term.
    assert (Hj : judges m (owner key) = false → taken_sum m (taken s) key = 0).
    { intros Hj. unfold taken_sum. rewrite list_filter_nil; [done|]. apply Forall_forall. intros [rep amt] Hc Htaken.
      apply elem_of_clauses in Hc. destruct (Htk rep Htaken) as (k & a & x & Ht & Hj' & _). rewrite Hc in Ht.
      injection Ht as <- <-. by rewrite Hj in Hj'. }
    unfold settled_at. destruct (judges m (owner key)).
    + destruct (decide (taken_sum m (taken s) key = 0)) as [->|]; [by destruct (decide _)|].
      destruct (d_cells (denominations m) !! key) as [x|]; cbn; [by rewrite decide_some|done].
    + rewrite Hj by done. by destruct (decide _).
Qed.

(** What a session burns for its fee, of a resource. *)
Definition fee_share (m : Materialized) (r : ResourceAddr) : Z :=
  match fee m with
  | Some f => if ends_hold m f then if decide (f_resource f = r) then f_amount f else 0 else 0
  | None => 0
  end.

Lemma burn_fee_spec ms s s' ms' r :
  burn_fee ms s = (s', Produced ms') →
  moved fst ms' r = moved fst ms r ∧ moved snd ms' r = moved snd ms r + fee_share (fixed s) r ∧
  burned (supply s') r = burned (supply s) r + fee_share (fixed s) r ∧ minted (supply s') r = minted (supply s) r.
Proof.
  unfold burn_fee, fee_share. intros (s1 & m & E1 & E)%F_produced. injection E1 as <- <-.
  destruct (fee (fixed s)) as [f|]; [|injection E as <- <-; lia].
  destruct (ends_hold (fixed s) f); cbn [negb] in E; [|injection E as <- <-; lia].
  apply F_produced in E as (s1 & [] & E1 & E). assert (Hs1 : supply s1 = supply s) by (by injection E1 as <-). clear E1.
  destruct (decide (f_amount f = 0)) as [Hz|Hnz].
  { injection E as <- <-. rewrite Hs1, Hz. destruct (decide _); lia. }
  apply F_produced in E as (s2 & res & E1 & E). unfold on_ledger in E1.
  destruct (apply_movement _ _ _ _ _) as [o x]. injection E1 as <- <-. cbn [supply set_store] in E.
  destruct x as [x|e]; [|by destruct (store_fault e)]. cbv zeta in E.
  apply F_produced in E as (s3 & composed & E1 & E). unfold fin in E1. injection E1 as <- Hc.
  apply F_produced in E as (s4 & rb & E1 & E). unfold supply_burn, delta_add in E1. cbn [supply set_store] in E1.
  rewrite Hs1, decide_False in E1 by done.
  destruct (checked_add _ _ _) as [total|] eqn:Ht; injection E1 as <- <-; [|done]. injection E as <- <-.
  apply checked_add_Some in Ht as [-> _]. unfold burned, minted. cbn [supply set_supply sd_burned sd_minted].
  assert (Hm : ∀ g : Z * Z → Z, moved g (<[f_vault f := composed]> ms) r =
      moved g ms r - from_option (λ mv, if decide (m_resource mv = r) then g (m_credit mv, m_debit mv) else 0) 0 (ms !! f_vault f)
        + (if decide (m_resource composed = r) then g (m_credit composed, m_debit composed) else 0))
    by (intros g; unfold moved; by rewrite map_sum_insert).
  rewrite !Hm. clear Hm. destruct (ms !! f_vault f) as [standing|].
  - destruct (movement_then standing _) as [c|] eqn:Hthen; [|done]. injection Hc as ->.
    apply then_ok in Hthen as (Hr & _ & _ & _ & ->). cbn [m_resource m_credit m_debit movement_debit fst snd from_option] in *.
    rewrite Hr. destruct (decide (f_resource f = r)) as [->|Hne].
    + rewrite lookup_insert_eq. cbn. lia.
    + rewrite lookup_insert_ne by done. lia.
  - injection Hc as <-. cbn [m_resource m_credit m_debit movement_debit fst snd from_option].
    destruct (decide (f_resource f = r)) as [->|Hne].
    + rewrite lookup_insert_eq. cbn. lia.
    + rewrite lookup_insert_ne by done. lia.
Qed.
End account.

(** ** What a run keeps of a session *)

Section ready.
Context {B : Type} `{Baseline B}.
Implicit Types (s : KernelSession B) (o : OverlayStore B).

(** What materialization hands over and every operation keeps: no queue below the
    active layer, queued movements and records that are amounts, takes that are
    grants, and under every judged reservation a hold of what its clauses reserve. *)
Record ready s : Prop := {
  rd_fits : table_fits (fixed s);
  rd_clean : l_pending (committed (store s)) = ∅;
  rd_ops : map_Forall (λ _, Forall Modes.op_ok) (l_pending (active (store s)));
  rd_taken : taken_ok (fixed s) (taken s);
  rd_holds : ∀ key, judges (fixed s) (owner key) = true → reserved_in (table (fixed s)) key = true →
    ∃ h, held_reservation (store s) key (tx (fixed s)) = Some h ∧ reserved_sum (fixed s) key ≤ h;
  rd_minted : map_Forall (λ _ x, 0 ≤ x) (sd_minted (supply s));
  rd_burned : map_Forall (λ _ x, 0 ≤ x) (sd_burned (supply s));
  rd_claimed : map_Forall (λ _ x, 0 ≤ x) (sd_claimed (escrow s));
  rd_fee : ∀ f, fee (fixed s) = Some f → 0 ≤ f_amount f;
}.

(** A step that touches none of it. *)
Record steady s s' : Prop := {
  st_fixed : fixed s' = fixed s;
  st_base : base (store s') = base (store s);
  st_committed : committed (store s') = committed (store s);
  st_held : l_held (active (store s')) = l_held (active (store s));
  st_pending : l_pending (active (store s')) = l_pending (active (store s));
  st_taken : taken s' = taken s;
  st_supply : supply s' = supply s;
  st_claimed : sd_claimed (escrow s') = sd_claimed (escrow s);
}.
#[export] Instance steady_refl : Reflexive steady.
Proof. intros s. by split. Qed.
#[export] Instance steady_trans : Transitive steady.
Proof. intros s1 s2 s3 [] []. split; congruence. Qed.

Lemma steady_held s s' key t : steady s s' → held_reservation (store s') key t = held_reservation (store s) key t.
Proof. intros [_ E2 E3 E4 _ _ _ _]. cbn. unfold overlay_held_reservation. by rewrite E2, E3, E4. Qed.
Lemma steady_ready s s' : steady s s' → ready s → ready s'.
Proof.
  intros Hst [R1 R2 R3 R4 R5 R6 R7 R8 R9]. pose proof (λ key, steady_held s s' key (tx (fixed s)) Hst) as Hh.
  destruct Hst as [E1 E2 E3 E4 E5 E6 E7 E8].
  split; try (by rewrite ?E1, ?E3, ?E5, ?E6, ?E7, ?E8). rewrite E1. intros key Hj Hr. rewrite Hh. by apply R5.
Qed.

Definition steadyM {A} (m : M (KernelSession B) A) : Prop := ∀ s, steady s (m s).1.
Lemma steadyM_bind {A A'} (m : M (KernelSession B) A) (f : A → M (KernelSession B) A') :
  steadyM m → (∀ x, steadyM (f x)) → steadyM (m ≫= f).
Proof.
  intros Hm Hf s. unfold mbind, M_bind. specialize (Hm s). destruct (m s) as [s1 [x|t|]]; [|done..].
  etrans; [exact Hm|apply Hf].
Qed.
Lemma steadyM_asks {A} (f : KernelSession B → outcome A) : steadyM (asks f).
Proof. intros s. reflexivity. Qed.
Lemma steadyM_gets {A} (f : KernelSession B → A) : steadyM (gets f).
Proof. intros s. reflexivity. Qed.
Lemma steadyM_ret {A} (x : A) : steadyM (mret x).
Proof. intros s. reflexivity. Qed.
Lemma steadyM_trap {A} t : steadyM (trap (A := A) t).
Proof. intros s. reflexivity. Qed.
Lemma steadyM_modify f : (∀ s, steady s (f s)) → steadyM (modify f).
Proof. intros Hf s. apply Hf. Qed.
Lemma steadyM_for_each {A} (l : list A) (f : A → M (KernelSession B) ()) : (∀ x, steadyM (f x)) → steadyM (for_each l f).
Proof. intros Hf. induction l as [|x l IH]; [apply steadyM_ret|]. apply steadyM_bind; [apply Hf|done]. Qed.
Lemma steadyM_store {A} (f : OverlayStore B → OverlayStore B * result StoreError A) :
  (∀ o, base (f o).1 = base o ∧ committed (f o).1 = committed o ∧ l_held (active (f o).1) = l_held (active o) ∧
     l_pending (active (f o).1) = l_pending (active o)) → steadyM (on_store f).
Proof.
  intros Hf s. unfold on_store. specialize (Hf (store s)). destruct (f (store s)) as [o' x]. destruct Hf as (? & ? & ? & ?).
  by split.
Qed.
Lemma steadyM_buckets {A} (f : M Buckets A) : steadyM (on_buckets f).
Proof. intros s. unfold on_buckets. by destruct (f (buckets s)). Qed.
Lemma steadyM_void {A} (m : M (KernelSession B) A) : steadyM m → steadyM (void m).
Proof. intros Hm. apply steadyM_bind; [done|]. intros x. apply steadyM_ret. Qed.
Lemma steadyM_crossing key v : steadyM (record_crossing key v).
Proof. intros s. by split. Qed.
Lemma steadyM_bind_site entries : steadyM (bind_site entries).
Proof. intros s. by split. Qed.
End ready.

Ltac steady_step :=
  match goal with
  | |- steadyM (_ ≫= _) => apply steadyM_bind; [|intros ?]
  | |- steadyM (asks _) => apply steadyM_asks
  | |- steadyM (gets _) => apply steadyM_gets
  | |- steadyM (mret _) => apply steadyM_ret
  | |- steadyM (trap _) => apply steadyM_trap
  | |- steadyM (modify _) => apply steadyM_modify; intros ?; by split
  | |- steadyM (for_each _ _) => apply steadyM_for_each; intros ?
  | |- steadyM (on_store _) => apply steadyM_store; by intros ?
  | |- steadyM (on_buckets _) => apply steadyM_buckets
  | |- steadyM (void _) => apply steadyM_void
  | |- steadyM (record_crossing _ _) => apply steadyM_crossing
  | |- steadyM (bind_site _) => apply steadyM_bind_site
  | |- steadyM (if decide _ then _ else _) => destruct (decide _)
  | |- steadyM (match ?x with _ => _ end) => destruct x
  | |- steadyM _ => progress cbv zeta
  end.
Ltac solve_steady := repeat steady_step.

Section running.
Context {B : Type} `{Baseline B}.
Implicit Types (s : KernelSession B) (o : OverlayStore B).

Lemma steady_amount_cell key : steadyM (session_amount_cell (B := B) key).
Proof. unfold session_amount_cell. solve_steady. Qed.
Lemma steady_scan site element : steadyM (scan (B := B) site element).
Proof. unfold scan, lift_entries. solve_steady. Qed.
Lemma steady_charge site element order cap : steadyM (charge_write (B := B) site element order cap).
Proof. unfold charge_write. solve_steady. Qed.
Lemma steady_probe ow c order : steadyM (probe (B := B) ow c order).
Proof. unfold probe, lift_entries. solve_steady. Qed.
Lemma steady_order site element index : steadyM (range_order (B := B) site element index).
Proof. unfold range_order. steady_step; [apply steady_scan|solve_steady]. Qed.
Lemma steady_take_one site element i order : steadyM (take_one (B := B) site element i order).
Proof.
  unfold take_one. steady_step; [solve_steady|]. steady_step; [apply steady_probe|]. steady_step; [solve_steady|apply steady_charge].
Qed.
Lemma steady_invalidate ow c : steadyM (invalidate (B := B) ow c).
Proof. unfold invalidate. solve_steady. Qed.

(** The operations the account's records do not see. *)
Definition plain_op (op : SessionOp) : bool :=
  match op with
  | STake _ _ _ | SPut _ _ _ | SReserveTake _ _ | SMint _ _ | SMintInstances _ _ | SBurn _ | SEscrowOut _ _ _ _
  | SEscrowIn _ => false
  | _ => true
  end.
Lemma plain_op_steady op : plain_op op = true → steadyM (run_session_op (B := B) op).
Proof.
  destruct op; cbn [plain_op]; intros [=]; cbn [run_session_op];
    unfold enter_invocation, leave_invocation, grant_issuance, lend_bucket, emit, cell_get, write_cell_set, write_cell_clear,
      amount_cell_balance, reserve_amount, bucket_take, bucket_split, bucket_put, drop_bucket, range_count, range_covered,
      range_entry, range_set, range_insert, range_remove, range_take, range_put, lift_entries, seal, open_seal;
    repeat first [apply steady_amount_cell|apply steady_scan|apply steady_charge|apply steady_probe|apply steady_order
                 |apply steady_take_one|apply steady_invalidate|steady_step].
Qed.

Ltac ask H E :=
  apply M_bind_done in H as (?s & ?x & E & H); first [apply asks_done in E as [-> E]|apply gets_done in E as [-> E]].
Ltac steadily H E := apply M_bind_done in H as (?s & ?x & E & H).

Lemma steady_run {A} (m : M (KernelSession B) A) s s' x : steadyM m → m s = (s', Done x) → ready s → ready s'.
Proof. intros Hm E. apply steady_ready. specialize (Hm s). by rewrite E in Hm. Qed.

Lemma queue_ready key op s s' x :
  Modes.op_ok op → on_store (λ o, queue_delta o key op) s = (s', Done x) → ready s → ready s'.
Proof.
  intros Hop E [R1 R2 R3 R4 R5 R6 R7 R8 R9]. unfold on_store, queue_delta in E. injection E as <- _. split; try done.
  cbn. apply map_Forall_insert_2; [|done]. apply Forall_app. split; [|by constructor].
  destruct (l_pending (active (store s)) !! key) as [ops|] eqn:Ek; [by apply (R3 key)|done].
Qed.

Lemma cell_take_ready site element amt s s' x :
  in_width 128 amt → cell_take site element amt s = (s', Done x) → ready s → ready s'.
Proof.
  intros Hw Hrun Hr. unfold cell_take in Hrun. ask Hrun E1. ask Hrun E2. ask Hrun E3.
  apply M_bind_done in Hrun as (s1 & key & Ek & Hrun). apply M_bind_done in Hrun as (s2 & u & Eq & Hrun).
  eapply steady_run; [apply steadyM_buckets|exact Hrun|]. eapply (queue_ready key (Sub amt)); [done|exact Eq|].
  eapply steady_run; [|exact Ek|done]. destruct x2; [|solve_steady]. steady_step; [apply steady_amount_cell|solve_steady].
Qed.
Lemma cell_put_ready site element funds s s' x :
  table_ok (buckets s) → cell_put site element funds s = (s', Done x) → ready s → ready s'.
Proof.
  intros Ht Hrun Hr. unfold cell_put in Hrun. ask Hrun E1. ask Hrun E2. ask Hrun E3. ask Hrun E4.
  apply M_bind_done in Hrun as (s1 & key & Ek & Hrun). apply M_bind_done in Hrun as (s2 & u & Eq & Hrun).
  eapply steady_run; [|exact Hrun|]; [steady_step; [apply steadyM_buckets|solve_steady]|].
  apply b_amount_done in E3 as [E3 _]. eapply (queue_ready key (Add x2)); [exact (ok_held _ Ht _ _ E3)|exact Eq|].
  eapply steady_run; [|exact Ek|done]. destruct x3; [|solve_steady]. steady_step; [apply steady_amount_cell|solve_steady].
Qed.
Lemma reserve_take_ready site element s s' x :
  reserve_take site element s = (s', Done x) → ready s → ready s'.
Proof.
  intros Hrun Hr. unfold reserve_take in Hrun. ask Hrun Ea. ask Hrun Ev. ask Hrun Er. ask Hrun Et. subst x3.
  destruct (decide (x2 ∈ taken s)) as [|Hnew]; [done|]. apply M_bind_done in Hrun as (s1 & u & Em & Hrun).
  injection Em as <- _. ask Hrun Eo. eapply steady_run; [apply steadyM_buckets|exact Hrun|].
  unfold reserved in Ea. apply outcome_bind_done in Ea as (held & Ea & Hamt).
  assert (Hj : judges (fixed s) (cap_owner held) = true).
  { unfold acting in Ea. apply outcome_bind_done in Ea as (held' & _ & Ea). destruct (judges _ _) eqn:Hj; [|done].
    cbn [negb] in Ea. destruct (grants held' Op.TakeReserved); [|done]. by injection Ea as <-. }
  apply acting_done in Ea as (_ & rep0 & Hrep & Htab). rewrite Er in Hrep. injection Hrep as <-.
  destruct held; try done. apply value_of_done in Ev as (rep0 & Hrep & Hres). rewrite Er in Hrep. injection Hrep as <-.
  destruct Hr as [R1 R2 R3 R4 R5 R6 R7 R8 R9]. split; try done. cbn.
  intros rep [->%elem_of_singleton|Hin]%elem_of_union; [|by apply R4]. by eexists _, _, _.
Qed.

Lemma delta_add_nonneg e m r amt m' u :
  0 ≤ amt → map_Forall (λ _ x, 0 ≤ x) m → delta_add e m r amt = (m', Ok u) → map_Forall (λ _ x, 0 ≤ x) m'.
Proof.
  intros Ha Hm. unfold delta_add. destruct (decide _); [by intros [= <- _]|].
  destruct (checked_add _ _ _) as [t|] eqn:E; [|done]. intros [= <- _]. apply checked_add_Some in E as [-> _].
  apply map_Forall_insert_2; [|done]. destruct (m !! r) as [y|] eqn:Ey; cbn; [|lia]. specialize (Hm r y Ey). cbn in Hm. lia.
Qed.
Lemma supply_mint_ready r amt s s' x :
  0 ≤ amt → on_supply (λ d, supply_mint d r amt) s = (s', Done x) → ready s → ready s'.
Proof.
  intros Ha E [R1 R2 R3 R4 R5 R6 R7 R8 R9]. unfold on_supply, supply_mint in E.
  destruct (delta_add SupplyOutOfBounds (sd_minted (supply s)) r amt) as [m [u|e]] eqn:Ed; injection E as <- E; [|done].
  split; try done. exact (delta_add_nonneg _ _ _ _ _ _ Ha R6 Ed).
Qed.
Lemma supply_burn_ready r amt s s' x :
  0 ≤ amt → on_supply (λ d, supply_burn d r amt) s = (s', Done x) → ready s → ready s'.
Proof.
  intros Ha E [R1 R2 R3 R4 R5 R6 R7 R8 R9]. unfold on_supply, supply_burn in E.
  destruct (delta_add SupplyOutOfBounds (sd_burned (supply s)) r amt) as [m [u|e]] eqn:Ed; injection E as <- E; [|done].
  split; try done. exact (delta_add_nonneg _ _ _ _ _ _ Ha R7 Ed).
Qed.
Lemma escrow_claim_ready c s s' x :
  0 ≤ crossed_amount c → on_escrow (λ d, escrow_claim d c) s = (s', Done x) → ready s → ready s'.
Proof.
  intros Ha E [R1 R2 R3 R4 R5 R6 R7 R8 R9]. unfold on_escrow, escrow_claim in E.
  destruct (delta_add EscrowOverflow (sd_claimed (escrow s)) _ _) as [m [u|e]] eqn:Ed; injection E as <- E; [|done].
  split; try done. exact (delta_add_nonneg _ _ _ _ _ _ Ha R8 Ed).
Qed.

Lemma quantity_nonneg h : held_ok h → 0 ≤ quantity h.
Proof. destruct h; cbn; unfold in_width; lia. Qed.

Lemma session_op_ready a op s s' :
  session_ok a s → session_op_ok s op → run_session_op op s = (s', Done ()) → ready s → ready s'.
Proof.
  intros Hok Hop Hrun Hr. destruct (plain_op op) eqn:Hp; [by eapply steady_run; [apply plain_op_steady|exact Hrun|]|].
  destruct op; cbn [plain_op] in Hp; try done; clear Hp; cbn [run_session_op session_op_ok] in *;
    try (apply void_done in Hrun as (x & Hrun)).
  - by eapply cell_take_ready.
  - eapply cell_put_ready; [apply Hok|exact Hrun|done].
  - by eapply reserve_take_ready.
  - unfold mint in Hrun. ask Hrun E1. steadily Hrun E2. eapply steady_run; [apply steadyM_buckets|exact Hrun|].
    unfold in_width in Hop. eapply supply_mint_ready; [|exact E2|done]. lia.
  - unfold mint_instances in Hrun. ask Hrun E1. ask Hrun E2. cbv zeta in Hrun. steadily Hrun E3.
    eapply steady_run; [apply steadyM_buckets|exact Hrun|]. eapply supply_mint_ready; [|exact E3|done]. lia.
  - unfold burn in Hrun. ask Hrun E1. ask Hrun E2. ask Hrun E3. steadily Hrun E4.
    eapply steady_run; [|exact Hrun|]; [steady_step; [apply steadyM_buckets|solve_steady]|].
    eapply supply_burn_ready; [|exact E4|done]. apply b_get_done in E3 as [E3 _].
    apply quantity_nonneg. exact (ok_held _ (so_buckets _ _ Hok) _ _ E3).
  - unfold escrow_out in Hrun. ask Hrun E1. ask Hrun E2. ask Hrun E3. ask Hrun E4. steadily Hrun E5. steadily Hrun E6.
    eapply steady_run; [|exact Hrun|]; [solve_steady|]. assert (Hs : steady s s0).
    { pose proof (steadyM_buckets (B := B) (b_take funds) s) as H1. by rewrite E5 in H1. }
    eapply steady_ready; [|done]. etrans; [exact Hs|]. unfold on_escrow, escrow_issue in E6.
    destruct (checked_add _ _ _); injection E6 as <- _; by split.
  - unfold escrow_in in Hrun. destruct (decide _); [done|]. steadily Hrun E1.
    eapply steady_run; [|exact Hrun|]; [solve_steady|]. unfold in_width in Hop.
    eapply escrow_claim_ready; [|exact E1|done]. lia.
Qed.

Lemma runs_ready a s ops s' : session_ok a s → runs s ops s' → ready s → ready s' ∧ fixed s' = fixed s.
Proof.
  intros Hok Hruns. induction Hruns as [s|s op s1 ops s' Hop Hrun _ IH]; [done|]. intros Hr.
  pose proof (session_op_moves a op s s1 Hok Hop Hrun) as [K Ef _].
  pose proof (session_op_ready a op s s1 Hok Hop Hrun Hr) as Hr1. destruct (IH K Hr1) as [Hr2 Ef2]. split; [done|congruence].
Qed.
End running.

(** ** Closing a run session *)

Section closing_run.
Context {B : Type} `{Baseline B}.
Implicit Types (s : KernelSession B) (o : OverlayStore B).

(** The holds a store presents, and what they are read from. *)
Record same_holds o o' : Prop := {
  sh_base : base o' = base o;
  sh_committed : l_held (committed o') = l_held (committed o);
  sh_active : l_held (active o') = l_held (active o);
}.
#[local] Instance same_holds_refl : Reflexive same_holds.
Proof. intros o. by split. Qed.
#[local] Instance same_holds_trans : Transitive same_holds.
Proof. intros o1 o2 o3 [] []. split; congruence. Qed.
Lemma same_holds_held o o' key t : same_holds o o' → held_reservation o' key t = held_reservation o key t.
Proof. intros [E1 E2 E3]. cbn. unfold overlay_held_reservation. by rewrite E1, E2, E3. Qed.
Lemma same_holds_foldl {A} (f : OverlayStore B → A → OverlayStore B) l o :
  (∀ o x, same_holds o (f o x)) → same_holds o (foldl f o l).
Proof. intros Hf. revert o. induction l as [|x l IH]; intros o; [done|]. cbn [foldl]. etrans; [apply Hf|apply IH]. Qed.
Lemma same_holds_commit o : same_holds o (commit_deltas o).1.
Proof.
  unfold commit_deltas. destruct (fold_all _ _) as [ds|]; [|done]. cbn [fst].
  etrans; [apply (same_holds_foldl (λ o d, set_amount o (applied_key d) (applied_after d)))|]; by split.
Qed.

Lemma judge_movements_spec d s s' ms :
  judge_movements d s = (s', Produced ms) →
  total_queued d (map_iter (pending_map (store s))) ∅ = Produced ms ∧ supply s' = supply s ∧
  same_holds (store s) (store s').
Proof.
  unfold judge_movements. intros (s1 & m & E1 & E)%F_produced. injection E1 as <- <-.
  apply F_produced in E as (s1 & pending & E1 & E). injection E1 as <- <-.
  apply F_produced in E as (s1 & ms' & E1 & E). unfold fin in E1. injection E1 as <- Ht.
  apply F_produced in E as (s1 & [] & E1 & E). injection E1 as <- _.
  apply F_produced in E as (s1 & [] & E1 & E).
  assert (s1 = set_store (retain_pending_deltas (store s) (λ key, applies (fixed s) (owner key))) s) as -> by (by injection E1).
  clear E1. apply F_produced in E as (s2 & res & E1 & E). unfold on_ledger in E1. cbn [store set_store] in E1.
  pose proof (same_holds_commit (retain_pending_deltas (store s) (λ key, applies (fixed s) (owner key)))) as Hc.
  destruct (commit_deltas _) as [o1 res'] eqn:Eo. injection E1 as <- <-. cbn [fst] in Hc.
  destruct res' as [ds|e]; [|by destruct (store_fault e)].
  apply F_produced in E as (s3 & [] & E1 & E). injection E as <- <-. injection E1 as <-. cbn [store set_store supply].
  split; [done|]. split; [done|]. etrans; [|etrans; [exact Hc|]]; [by split|].
  destruct (credits_withheld _); [|done]. apply same_holds_foldl. intros o p. unfold withhold.
  destruct (decide _); [|done]. by destruct (applies _ _).
Qed.

Lemma ready_queue s : ready s → map_Forall (λ _, Forall Modes.op_ok) (pending_map (store s)).
Proof.
  intros Hr key ops. unfold pending_map. rewrite (rd_clean _ Hr).
  rewrite lookup_extend_entries.
  destruct (l_pending (active (store s)) !! key) as [x|] eqn:Ek; [|done]. intros [= <-]. unfold extend_list. cbn.
  exact (rd_ops _ Hr key x Ek).
Qed.

Lemma empty_table b r : carries_value b = false → tally quantity r b = 0.
Proof.
  unfold carries_value, tally. generalize (resources b). induction (slots b) as [|x l IH]; intros rs Hc; [by destruct rs|].
  cbn [existsb] in Hc. apply orb_false_iff in Hc as [Hx Hl]. destruct rs as [|y rs]; cbn [tally_slots]; [done|].
  rewrite IH by done. destruct x as [h|]; [|unfold weight; by destruct (decide _)]. unfold held_is_empty in Hx. apply negb_false_iff, bool_decide_eq_true in Hx.
  unfold weight. rewrite Hx. by destruct (decide _).
Qed.

(** Steps that leave the supply record alone. *)
Definition keeps_supply {A} (m : F B A) : Prop := ∀ s, supply (m s).1 = supply s.
Lemma keeps_bind {A A'} (m : F B A) (f : A → F B A') : keeps_supply m → (∀ x, keeps_supply (f x)) → keeps_supply (m ≫= f).
Proof.
  intros Hm Hf s. unfold mbind, F_bind. specialize (Hm s). destruct (m s) as [s1 [x|out|e|]]; [|done..].
  by rewrite Hf.
Qed.
Lemma keeps_ledger {A} (f : OverlayStore B → OverlayStore B * A) : keeps_supply (on_ledger f).
Proof. intros s. unfold on_ledger. by destruct (f (store s)). Qed.
Ltac keep :=
  repeat match goal with
  | |- keeps_supply (_ ≫= _) => apply keeps_bind; [|intros ?]
  | |- keeps_supply (on_ledger _) => apply keeps_ledger
  | |- keeps_supply (match ?x with _ => _ end) => destruct x
  | |- keeps_supply _ => by intros ?
  end.
Lemma settle_one_supply d key : keeps_supply (settle_one (B := B) d key).
Proof. unfold settle_one. keep. Qed.
Lemma settle_loop_supply d caps seen settles : keeps_supply (settle_loop (B := B) d caps seen settles).
Proof.
  revert seen settles. induction caps as [|c caps IH]; intros seen settles; cbn [settle_loop]; [by intros s|].
  destruct c; try apply IH. destruct (decide _); [apply IH|]. apply keeps_bind; [by intros s|]. intros m.
  destruct (negb _); [apply IH|]. apply keeps_bind; [apply settle_one_supply|]. intros x. apply IH.
Qed.

Lemma settle_supply d s s' settles : settle_reservations d s = (s', Produced settles) → supply s' = supply s.
Proof.
  intros (s1 & m & E1 & E)%F_produced. injection E1 as <- <-.
  pose proof (settle_loop_supply d (table (fixed s)) ∅ ∅ s) as Hk. by rewrite E in Hk.
Qed.

(** What each phase of closing keeps, over the run it produced. *)
Lemma closes_closing {A} P (m : F B A) s s' x : closes P m → m s = (s', Produced x) → closing s s'.
Proof. intros Hm E. destruct (Hm s) as [C _]. by rewrite E in C. Qed.
Lemma judge_closing d s s' ms : judge_movements d s = (s', Produced ms) → closing s s'.
Proof. eapply closes_closing, (judge_movements_closes (λ _, True)); done. Qed.
Lemma settle_closing d s s' settles : settle_reservations d s = (s', Produced settles) → closing s s'.
Proof. eapply closes_closing, (settle_reservations_closes (λ _, True)); done. Qed.
Lemma burn_closing ms s s' ms' : burn_fee ms s = (s', Produced ms') → closing s s'.
Proof. eapply closes_closing, (burn_fee_closes (λ _, True)); done. Qed.
Lemma write_closing m kvs s s' : write_cells m kvs s = (s', Produced ()) → closing s s'.
Proof. eapply closes_closing, (write_cells_closes (λ _, True)); done. Qed.

(** Every judged reservation settles for what was taken of it. *)
Lemma settles_spec s s1 s2 ms settles :
  ready s → contents_agree (fixed s) →
  judge_movements (denominations (fixed s)) s = (s1, Produced ms) →
  settle_reservations (denominations (fixed s)) s1 = (s2, Produced settles) →
  ∀ key, settles !! key =
    if judges (fixed s) (owner key) && reserved_in (table (fixed s)) key then settled_at (fixed s) (taken s) key else None.
Proof.
  intros Hr Hag Ej Es key. set (d := denominations (fixed s)) in *.
  pose proof (judge_closing _ _ _ _ Ej) as C1.
  destruct (judge_movements_spec d s s1 ms Ej) as (_ & _ & Hh1). unfold settle_reservations in Es.
  apply F_produced in Es as (s1' & m & E1 & Es). injection E1 as <- <-. rewrite (cl_fixed _ _ C1) in Es.
  rewrite (settle_loop_spec (fixed s) (table (fixed s)) ∅ ∅ s1 s2 settles) with (key := key).
  - rewrite decide_False by set_solver. by rewrite (cl_taken _ _ C1).
  - apply C1.
  - apply Hr.
  - exact (ca_reserved _ Hag).
  - intros k _ Hj Hres. destruct (rd_holds _ Hr k Hj Hres) as (h & Hh & Hle). exists h.
    rewrite (cl_fixed _ _ C1), (cl_taken _ _ C1), (same_holds_held _ _ _ _ Hh1). split; [done|].
    etrans; [apply taken_le_reserved; exact (ca_reserved _ Hag)|done].
  - intros k _. apply lookup_empty.
  - exact Es.
Qed.

(** Both sides of what closing weighs are the account's, the fee on both. *)
Lemma closing_sides s s1 s2 s3 o ms settles ms' delta r :
  let d := denominations (fixed s) in
  ready s → contents_agree (fixed s) →
  judge_movements d s = (s1, Produced ms) → settle_reservations d s1 = (s2, Produced settles) →
  burn_fee ms s2 = (s3, Produced ms') → above_only (store s3) o →
  dl_movements delta = ms' → dl_settles delta = settles → dl_entries delta = dl_entries (diff o) →
  reported_side fst o d delta (supply s3) (escrow s) r = gained s r + fee_share (fixed s) r ∧
  reported_side snd o d delta (supply s3) (escrow s) r = lost s r + fee_share (fixed s) r.
Proof.
  intros d Hr Hag Ej Es Ef Ho Hdm Hds Hde.
  pose proof (judge_closing _ _ _ _ Ej) as C1. pose proof (settle_closing _ _ _ _ Es) as C2. pose proof (burn_closing _ _ _ _ Ef) as C3.
  destruct (judge_movements_spec d s s1 ms Ej) as (Ht & Hsup1 & Hh1).
  destruct (moved_queue s ms r (ready_queue s Hr) Ht) as [Hm1 Hm2].
  pose proof (settle_supply _ _ _ _ Es) as Hsup2.
  pose proof (moved_settles s settles r Hag (rd_taken _ Hr) (settles_spec s s1 s2 ms settles Hr Hag Ej Es)) as Hset.
  destruct Hset as [Hs1 Hs2]. destruct (burn_fee_spec ms s2 s3 ms' r Ef) as (Hf1 & Hf2 & Hf3 & Hf4).
  assert (Ef2 : fixed s2 = fixed s) by (by rewrite (cl_fixed _ _ C2), (cl_fixed _ _ C1)). rewrite Ef2 in Hf2, Hf3.
  assert (Hab : above_only (store s) o).
  { etrans; [apply C1|]. etrans; [apply C2|]. etrans; [apply C3|done]. }
  assert (Hfiled : ∀ f, f (0, 0) = 0 → filed f o d (dl_entries (diff o)) r = weigh_entries f s r).
  { intros f Hz. apply filed_diff; [done|apply Hab| |apply Hab]. exact (f_equal l_entries (ab_committed _ _ Hab)). }
  unfold reported_side, gained, lost. rewrite Hdm, Hds, Hde, !Hfiled by done. cbn [fst snd]. rewrite Hf1, Hf2, Hf3, Hf4, Hsup2, Hsup1. lia.
Qed.
End closing_run.

(** ** The verdict *)

Section verdict.
Context {B : Type} `{Baseline B}.
Implicit Types (s : KernelSession B) (o : OverlayStore B).

Definition unconserved_outcome : Outcome := Outcome.ProtocolError Abort.ValueNotConserved.
Definition other (out : Outcome) : Prop := out ≠ unconserved_outcome.

Lemma closes_not {A} (m : F B A) s s' : closes other m → m s ≠ (s', Aborted unconserved_outcome).
Proof. intros Hm E. specialize (Hm s) as [_ Hr]. rewrite E in Hr. by apply Hr. Qed.
Lemma other_user r : other (Outcome.UserError r).
Proof. done. Qed.
Lemma other_floor key amt : other (Outcome.Infeasible key amt).
Proof. done. Qed.
Hint Resolve other_user other_floor : core.

Lemma settle_one_unconserved d key s s' :
  settle_one d key s = (s', Aborted unconserved_outcome) →
  taken_against d key (taken s) = None ∧ is_Some (d_cells d !! key).
Proof.
  unfold settle_one. intros [E|(s1 & m & E1 & E)]%F_aborted; [done|]. injection E1 as <- <-.
  apply F_aborted in E as [E|(s1 & tk & E1 & E)]; [done|]. injection E1 as <- <-.
  apply F_aborted in E as [E|(s1 & r & E1 & E)]; [unfold or_fail, fin in E; by destruct (d_cells d !! key)|].
  unfold or_fail, fin in E1. destruct (d_cells d !! key) as [r'|]; [|done]. injection E1 as <- <-.
  destruct (taken_against d key (taken s)) as [amt|]; [|done]. exfalso. revert E. apply closes_not. solve_closes.
Qed.
Lemma settle_loop_unconserved d caps seen acc s s' :
  settle_loop d caps seen acc s = (s', Aborted unconserved_outcome) →
  ∃ key, reserved_in caps key = true ∧ taken_against d key (taken s) = None ∧ is_Some (d_cells d !! key).
Proof.
  revert seen acc s. induction caps as [|c caps IH]; intros seen acc s; cbn [settle_loop]; [done|].
  assert (Hskip : ∀ seen acc s0, taken s0 = taken s → settle_loop d caps seen acc s0 = (s', Aborted unconserved_outcome) →
    ∃ key, reserved_in (c :: caps) key = true ∧ taken_against d key (taken s) = None ∧ is_Some (d_cells d !! key)).
  { intros seen' acc' s0 Et E. destruct (IH _ _ _ E) as (key & H1 & H2 & H3). rewrite Et in H2. exists key.
    split; [by apply reserved_later|done]. }
  destruct c as [k|k|k mv|k|k mv|k amt|i|i|i mv]; try by apply Hskip.
  destruct (decide (k ∈ seen)); [by apply Hskip|]. cbv zeta. intros [E|(s1 & m & E1 & E)]%F_aborted; [done|].
  injection E1 as <- <-. destruct (negb _); [by eapply Hskip|].
  apply F_aborted in E as [E|(s1 & x & E1 & E)].
  - apply settle_one_unconserved in E as [H1 H2]. exists k. split; [|done]. cbn. by rewrite bool_decide_eq_true_2.
  - eapply Hskip; [|exact E]. pose proof (settle_one_closes (λ _, True) (λ _, I) (λ _ _, I) d k I s) as [C _].
    rewrite E1 in C. apply C.
Qed.

(** Both sides of the account are sums of amounts. *)
Lemma sum_nonneg {A} (f : A → Z) (l : list A) : (∀ x, x ∈ l → 0 ≤ f x) → 0 ≤ sum_Z (f <$> l).
Proof.
  induction l as [|x l IH]; intros Hf; [done|]. rewrite fmap_cons, sum_Z_cons.
  pose proof (Hf x ltac:(left)). specialize (IH (λ y Hy, Hf y (list_elem_of_further y x l Hy))). lia.
Qed.
Lemma map_sum_nonneg {K V} `{Countable K} (f : K → V → Z) (m : gmap K V) :
  (∀ k v, m !! k = Some v → 0 ≤ f k v) → 0 ≤ map_sum f m.
Proof. intros Hf. apply sum_nonneg. intros [k v] Hin%elem_of_map_to_list. by apply Hf. Qed.
Lemma default_nonneg (m : gmap Z Z) r : map_Forall (λ _ x, 0 ≤ x) m → 0 ≤ default 0 (m !! r).
Proof. intros Hm. destruct (m !! r) as [x|] eqn:E; cbn; [exact (Hm r x E)|done]. Qed.
Lemma weigh_cells_nonneg f s r : ready s → f = credit_of ∨ f = debit_of → 0 ≤ weigh_cells f s r.
Proof.
  intros Hr Hf. apply map_sum_nonneg. intros key ops Hk. destruct (decide _); [|done]. apply sum_nonneg. intros op Hop.
  pose proof (ready_queue s Hr key ops Hk) as Hall. rewrite Forall_forall in Hall. specialize (Hall op Hop).
  destruct Hf as [->| ->], op; cbn in *; unfold in_width in Hall; lia.
Qed.
Lemma weigh_entries_nonneg f s r : f = fst ∨ f = snd → 0 ≤ weigh_entries f s r.
Proof.
  intros Hf. apply map_sum_nonneg. intros p ch _. destruct (decide _); [|done]. apply map_sum_nonneg. intros x c _.
  destruct Hf as [->| ->]; by destruct (pre_active_entry _ _ _ _), c.
Qed.
Lemma settled_ge s r key :
  contents_agree (fixed s) → ready s → reserved_in (table (fixed s)) key = true →
  d_cells (denominations (fixed s)) !! key = Some r → taken_sum (fixed s) (taken s) key ≤ settled s r.
Proof.
  intros Hag Hr Hres Hd. unfold settled. rewrite <- (sum_shares (fixed s) (taken s) r Hag (rd_taken _ Hr)).
  assert (Hn : ∀ k, 0 ≤ cell_term (fixed s) (taken s) r k).
  { intros k. unfold cell_term. destruct (decide _); [|done].
    apply (taken_against_spec (fixed s) (taken s) k (rd_fits _ Hr) (ca_reserved _ Hag)). }
  assert (Hk : cell_term (fixed s) (taken s) r key = taken_sum (fixed s) (taken s) key)
    by (unfold cell_term; by rewrite decide_True).
  rewrite <- Hk. apply reserved_cells_spec, elem_of_elements in Hres. revert Hres.
  generalize (elements (reserved_cells (fixed s))). intros l Hin. induction l as [|x l IH]; [by apply not_elem_of_nil in Hin|].
  rewrite fmap_cons, sum_Z_cons. apply elem_of_cons in Hin as [->|Hin].
  - pose proof (sum_nonneg (cell_term (fixed s) (taken s) r) l (λ y _, Hn y)). lia.
  - pose proof (Hn x). specialize (IH Hin). lia.
Qed.

Lemma issued_nonneg d r : escrow_ok d → 0 ≤ escrow_issued d r.
Proof.
  intros Hd. rewrite issued_sum by done. unfold issues_sum.
  assert (0 ≤ map_sum (λ _ c, if decide (crossed_resource c = r) then crossed_amount c else 0) (issued_at d)).
  { apply map_sum_nonneg. intros e c Hc. destruct (decide _); [exact (Hd e c Hc)|done]. }
  unfold issues_sum in *. unfold width_max in *. lia.
Qed.

Definition movement_nonneg (mv : Movement) : Prop := 0 ≤ m_credit mv ∧ 0 ≤ m_debit mv.
Lemma queued_nonneg s ms :
  ready s → total_queued (denominations (fixed s)) (map_iter (pending_map (store s))) ∅ = Produced ms →
  map_Forall (λ _, movement_nonneg) ms.
Proof.
  intros Hr E key mv Hk. pose proof (ready_queue s Hr) as Hops.
  assert (Hf : Forall (λ p, Forall Modes.op_ok p.2) (map_iter (pending_map (store s)))).
  { apply Forall_forall. intros [k ops] Hin%elem_of_map_iter. by apply (Hops k). }
  rewrite (total_queued_spec _ _ _ _ (NoDup_map_iter (pending_map (store s))) Hf E key), list_to_map_iter in Hk.
  destruct (pending_map (store s) !! key) as [ops|] eqn:Ek; [|done]. apply fmap_Some in Hk as (x & _ & ->).
  destruct (delta_totals_spec ops (Hops key ops Ek)) as (? & ? & _). done.
Qed.
Lemma burn_fee_nonneg ms s s' ms' :
  map_Forall (λ _, movement_nonneg) ms → (∀ f, fee (fixed s) = Some f → 0 ≤ f_amount f) →
  burn_fee ms s = (s', Produced ms') → map_Forall (λ _, movement_nonneg) ms'.
Proof.
  intros Hms Hfee. unfold burn_fee. intros (s1 & m & E1 & E)%F_produced. injection E1 as <- <-.
  destruct (fee (fixed s)) as [f|]; [|by injection E as <- <-]. specialize (Hfee f eq_refl).
  destruct (ends_hold (fixed s) f); cbn [negb] in E; [|by injection E as <- <-].
  apply F_produced in E as (s1 & [] & _ & E). destruct (decide (f_amount f = 0)); [by injection E as <- <-|].
  apply F_produced in E as (s2 & res & _ & E). destruct res as [x|e]; [|by destruct (store_fault e)]. cbv zeta in E.
  apply F_produced in E as (s3 & composed & E1 & E). unfold fin in E1. injection E1 as <- Hc.
  apply F_produced in E as (s4 & rb & _ & E). destruct rb; [|done]. injection E as <- <-.
  apply map_Forall_insert_2; [|done]. destruct (ms !! f_vault f) as [standing|] eqn:Hv.
  - specialize (Hms _ _ Hv). destruct (movement_then standing _) as [c|] eqn:Hthen; [|done]. injection Hc as ->.
    apply then_ok in Hthen as (_ & _ & _ & _ & ->). unfold movement_nonneg in *. cbn in *. lia.
  - injection Hc as <-. unfold movement_nonneg. cbn. lia.
Qed.

Lemma runs_account a s ops s' r : session_ok a s → runs s ops s' → session_ok a s' ∧ account s' r = account s r.
Proof.
  intros Hok Hruns. induction Hruns as [s|s op s1 ops s' Hop Hrun _ IH]; [done|].
  pose proof (session_op_moves a op s s1 Hok Hop Hrun) as [K _ E]. destruct (IH K) as [K' E'].
  split; [done|]. rewrite E', E. lia.
Qed.

Lemma weights_nonneg s d delta :
  map_Forall (λ _, movement_nonneg) (dl_movements delta) → map_Forall (λ _, movement_nonneg) (dl_settles delta) →
  map_Forall (λ _ x, 0 ≤ x) (sd_burned (supply s)) → map_Forall (λ _ x, 0 ≤ x) (sd_minted (supply s)) →
  escrow_ok (escrow s) → map_Forall (λ _ x, 0 ≤ x) (sd_claimed (escrow s)) →
  Forall (λ w, 0 ≤ w.2.1 ∧ 0 ≤ w.2.2) (weights s delta d).
Proof.
  intros Hm Hs Hb Hmt He Hc. unfold weights. rewrite !Forall_app, !Forall_fmap, !Forall_app, !Forall_forall. split_and!.
  - intros [k mv] Hin%elem_of_map_iter. exact (Hm k mv Hin).
  - intros [k mv] Hin%elem_of_map_iter. exact (Hs k mv Hin).
  - intros w ([key ch] & _ & E)%list_elem_of_omap. cbn in E. destruct (d_entries d !! _) as [x|]; [|done]. cbn in E.
    destruct (pre_active_entry _ _ _ _), ch; try done; injection E as <-; cbn; lia.
  - intros x _. cbn. split; by apply default_nonneg.
  - intros x _. cbn. split; [by apply issued_nonneg|by apply default_nonneg].
Qed.

Lemma kernel_cells_same d kvs delta delta' :
  kernel_cells d kvs delta = Produced delta' →
  dl_movements delta' = dl_movements delta ∧ dl_settles delta' = dl_settles delta ∧ dl_entries delta' = dl_entries delta.
Proof.
  revert delta. induction kvs as [|[k v] kvs IH]; intros delta; cbn [kernel_cells]; [by intros [= ->]|].
  destruct (d_cells d !! k); [done|]. intros E. by apply IH in E.
Qed.

Lemma fee_share_nonneg s r : ready s → 0 ≤ fee_share (fixed s) r.
Proof.
  intros Hr. unfold fee_share. destruct (fee (fixed s)) as [f|] eqn:Ef; [|done]. pose proof (rd_fee _ Hr f Ef).
  destruct (ends_hold _ _); [|done]. by destruct (decide _).
Qed.
Lemma write_cells_supply m kvs : keeps_supply (write_cells (B := B) m kvs).
Proof.
  induction kvs as [|[k v] kvs IH]; cbn [write_cells]; [by intros s|]. destruct (applies m (owner k)); [|done].
  apply keeps_bind; [apply keeps_ledger|]. intros []; [by apply IH|by intros s].
Qed.

(** An uneven weighing of a balanced session is one that could not be kept. *)
Lemma weighed_past_width s s1 s2 s3 s5 ms settles ms' delta r :
  let d := denominations (fixed s) in
  ready s → contents_agree (fixed s) → escrow_ok (escrow s) → gained s r = lost s r →
  judge_movements d s = (s1, Produced ms) → settle_reservations d s1 = (s2, Produced settles) →
  burn_fee ms s2 = (s3, Produced ms') → closing s3 s5 → supply s5 = supply s3 →
  dl_movements delta = ms' → dl_settles delta = settles → dl_entries delta = dl_entries (diff (store s5)) →
  unconserved s5 delta d = Some r →
  width_max 128 < gained s r + fee_share (fixed s) r ∨ width_max 128 < lost s r + fee_share (fixed s) r.
Proof.
  intros d Hr Hag Hesc Hbal Ej Es Ef Hc Hsup Hdm Hds Hde Hu.
  destruct (closing_sides s s1 s2 s3 (store s5) ms settles ms' delta r Hr Hag Ej Es Ef (cl_store _ _ Hc) Hdm Hds Hde) as [Hg Hl].
  pose proof (judge_closing _ _ _ _ Ej) as C1. pose proof (settle_closing _ _ _ _ Es) as C2. pose proof (burn_closing _ _ _ _ Ef) as C3.
  assert (Hall : closing s s5) by (etrans; [exact C1|]; etrans; [exact C2|]; etrans; [exact C3|exact Hc]).
  assert (Hf2 : fixed s2 = fixed s) by (by rewrite (cl_fixed _ _ C2), (cl_fixed _ _ C1)).
  destruct (judge_movements_spec d s s1 ms Ej) as (Ht & Hsup1 & _).
  assert (Hsup2 : supply s2 = supply s) by (rewrite <- Hsup1; exact (settle_supply _ _ _ _ Es)).
  assert (Hw : Forall (λ w, 0 ≤ w.2.1 ∧ 0 ≤ w.2.2) (weights s5 delta d)).
  { apply weights_nonneg.
    - rewrite Hdm. eapply burn_fee_nonneg; [by eapply queued_nonneg| |exact Ef]. rewrite Hf2. apply Hr.
    - rewrite Hds. intros key mv Hk. rewrite (settles_spec s s1 s2 ms settles Hr Hag Ej Es key) in Hk.
      destruct (_ && _); [|done]. unfold settled_at in Hk. destruct (decide _); [done|]. apply fmap_Some in Hk as (x & _ & ->).
      split; [done|]. apply (taken_against_spec (fixed s) (taken s) key (rd_fits _ Hr) (ca_reserved _ Hag)).
    - rewrite Hsup. intros x v Hx. destruct (burn_fee_spec ms s2 s3 ms' x Ef) as (_ & _ & Hb & _). unfold burned in Hb.
      rewrite Hx, Hsup2, Hf2 in Hb. cbn in Hb. rewrite Hb. pose proof (default_nonneg _ x (rd_burned _ Hr)).
      pose proof (fee_share_nonneg s x Hr). lia.
    - rewrite Hsup. intros x v Hx. destruct (burn_fee_spec ms s2 s3 ms' x Ef) as (_ & _ & _ & Hb). unfold minted in Hb.
      rewrite Hx, Hsup2 in Hb. cbn in Hb. rewrite Hb. exact (default_nonneg _ x (rd_minted _ Hr)).
    - by rewrite (cl_escrow _ _ Hall).
    - rewrite (cl_escrow _ _ Hall). apply Hr. }
  pose proof (unbalanced_sides (weights s5 delta d) r Hw Hu) as Hside.
  rewrite !weights_side in Hside by (done || by rewrite (cl_escrow _ _ Hall)).
  rewrite Hsup, (cl_escrow _ _ Hall) in Hside. fold d in Hg, Hl. rewrite Hg, Hl in Hside. destruct Hside as [Hne|[?|?]]; [lia|by left|by right].
Qed.

(** A reservation that cannot be settled is one whose takes pass [u128]. *)
Lemma settling_past_width s s1 s2 :
  ready s → contents_agree (fixed s) → closing s s1 →
  settle_reservations (denominations (fixed s)) s1 = (s2, Aborted unconserved_outcome) →
  ∃ r, width_max 128 < lost s r + fee_share (fixed s) r.
Proof.
  intros Hr Hag C1 [E|(s1' & m & E1 & E)]%F_aborted; [done|]. injection E1 as <- <-.
  rewrite (cl_fixed _ _ C1) in E. apply settle_loop_unconserved in E as (key & Hres & Ht & [r Hd]). exists r.
  rewrite (cl_taken _ _ C1) in Ht. pose proof (taken_against_spec (fixed s) (taken s) key (rd_fits _ Hr) (ca_reserved _ Hag)) as [Hspec _].
  rewrite Ht in Hspec. destruct (decide _) as [|Hgt]; [done|].
  pose proof (settled_ge s r key Hag Hr Hres Hd). pose proof (weigh_cells_nonneg debit_of s r Hr (or_intror eq_refl)).
  pose proof (weigh_entries_nonneg snd s r (or_intror eq_refl)). pose proof (default_nonneg _ r (rd_minted _ Hr)).
  pose proof (default_nonneg _ r (rd_claimed _ Hr)). pose proof (fee_share_nonneg s r Hr). unfold lost, minted, escrow_claimed. lia.
Qed.

(** A session that stands ready and closes as unconserved has a side past [u128]. *)
Lemma close_unconserved s s' :
  ready s → contents_agree (fixed s) → escrow_ok (escrow s) →
  (∀ r, carries_value (buckets s) = false → gained s r = lost s r) →
  close s = (s', Aborted unconserved_outcome) →
  ∃ r, width_max 128 < gained s r + fee_share (fixed s) r ∨ width_max 128 < lost s r + fee_share (fixed s) r.
Proof.
  intros Hr Hag Hesc Hbal. unfold close. intros [E|(s1 & s2 & E1 & E)]%F_aborted; [done|]. injection E1 as <- <-.
  destruct (carries_value (buckets s)) eqn:Hb; [done|]. cbv zeta in E. set (d := denominations (fixed s)) in *.
  apply F_aborted in E as [E|(s1 & ms & Ej & E)]; [by destruct (closes_not _ _ _ (judge_movements_closes other other_user other_floor d) E)|].
  pose proof (judge_closing _ _ _ _ Ej) as C1.
  apply F_aborted in E as [E|(s2 & settles & Es & E)].
  { destruct (settling_past_width s s1 _ Hr Hag C1 E) as [r Hpast]. exists r. by right. }
  pose proof (settle_closing _ _ _ _ Es) as C2.
  apply F_aborted in E as [E|(s3 & ms' & Ef & E)]; [by destruct (closes_not _ _ _ (burn_fee_closes other other_user other_floor ms) E)|].
  pose proof (burn_closing _ _ _ _ Ef) as C3.
  apply F_aborted in E as [E|(s4 & spent & E1 & E)]; [unfold or_panic, fin in E; by destruct (spends _ _)|].
  unfold or_panic, fin in E1. destruct (spends _ _) as [spent'|]; [|done]. injection E1 as <- <-.
  apply F_aborted in E as [E|(s4 & [] & E4 & E)]; [by destruct (closes_not _ _ _ (write_cells_closes other other_user other_floor _ _) E)|].
  apply F_aborted in E as [E|(s5 & [] & E5 & E)]; [by destruct (closes_not _ _ _ (write_cells_closes other other_user other_floor _ _) E)|].
  assert (Hc : closing s3 s5 ∧ supply s5 = supply s3).
  { pose proof (write_cells_supply (fixed s) spent' s3) as U4. pose proof (write_cells_supply (fixed s) (map_iter (crossings s)) s4) as U5.
    rewrite E4 in U4. rewrite E5 in U5. cbn [fst] in *. split; [|congruence]. etrans; eapply write_closing; eassumption. }
  destruct Hc as [Hc Hsup]. apply F_aborted in E as [E|(s6 & o & E1 & E)]; [done|]. injection E1 as <- <-.
  destruct (decide _); [done|]. apply F_aborted in E as [E|(s6 & delta & E1 & E)].
  { exfalso. revert E. by apply closes_not, closes_fin, kernel_cells_refuses. }
  unfold fin in E1. injection E1 as <- Hk. apply kernel_cells_same in Hk as (Hdm & Hds & Hde).
  apply F_aborted in E as [E|(s6 & s7 & E1 & E)]; [done|]. injection E1 as <- <-.
  destruct (unconserved s5 delta d) as [r|] eqn:Hu; [|done]. exists r.
  eapply (weighed_past_width s s1 s2 s3 s5 ms settles ms' delta r); eauto.
Qed.

(** The closing account and the running account are one. A session that holds the
    standing facts and whose account is zero is refused as unconserved only where one
    side of a resource's account, the fee counted on both sides, does not fit
    [u128]. *)
Lemma zero_account_overflows a s answers fuel receipt o :
  session_ok a s → ready s → (∀ r, account s r = 0) →
  finish s answers fuel = Finished receipt o → r_outcome receipt = Outcome.ProtocolError Abort.ValueNotConserved →
  ∃ r, width_max 128 < gained s r + fee_share (fixed s) r ∨ width_max 128 < lost s r + fee_share (fixed s) r.
Proof.
  intros Hok Hr Hz Hfin Hout. unfold finish in Hfin. destruct (close s) as [s' [delta|out|e|]] eqn:E; [| |done..].
  { destruct (decide _); [|done]. by injection Hfin as <- <-. }
  cbn in Hfin. injection Hfin as <- <-. cbn in Hout. subst out.
  apply (close_unconserved s s' Hr); [apply Hok|apply Hok| |exact E].
  intros r Hb. specialize (Hz r). unfold account in Hz. rewrite empty_table in Hz by done. lia.
Qed.
(** So whatever operations it answered on the way, a session that opened with nothing
    in hand and nothing moved is not. *)
Lemma runs_close_balanced a s0 ops s answers fuel receipt o :
  session_ok a s0 → ready s0 → (∀ r, account s0 r = 0) → runs s0 ops s →
  (∀ r, gained s r + fee_share (fixed s) r ≤ width_max 128 ∧ lost s r + fee_share (fixed s) r ≤ width_max 128) →
  finish s answers fuel = Finished receipt o → r_outcome receipt ≠ Outcome.ProtocolError Abort.ValueNotConserved.
Proof.
  intros Hok Hr Hz Hruns Hfit Hfin Hout. destruct (runs_ready a s0 ops s Hok Hruns Hr) as [Hrs _].
  destruct (runs_account a s0 ops s 0 Hok Hruns) as [Hoks _].
  destruct (zero_account_overflows a s answers fuel receipt o Hoks Hrs) as [r Hpast]; [|done..|specialize (Hfit r); lia].
  intros r. destruct (runs_account a s0 ops s r Hok Hruns) as [_ ->]. apply Hz.
Qed.

End verdict.

(** ** A run that closes *)

Lemma sample_session_ready : ready sample_session.
Proof. split; try done. by intros f [= <-]. Qed.

(** A resource no capability, issuance or crossing names has nothing on either side. *)
Lemma idle_sides {B} `{Baseline B} (s : KernelSession B) (r : ResourceAddr) :
  map_Forall (λ _ x, x ≠ r) (d_cells (denominations (fixed s))) →
  map_Forall (λ _ x, x ≠ r) (d_entries (denominations (fixed s))) →
  map_Forall (λ x _, x ≠ r) (sd_minted (supply s)) → map_Forall (λ x _, x ≠ r) (sd_burned (supply s)) →
  settled s r = 0 → escrow s = escrow_default → gained s r = 0 ∧ lost s r = 0.
Proof.
  intros Hc He Hm Hb Ht Hesc.
  assert (Hcells : ∀ f, weigh_cells f s r = 0).
  { intros f. unfold weigh_cells, map_sum. apply sum_zero. intros [k ops] _. cbn. rewrite decide_False; [done|].
    intros E. by apply (Hc k r E). }
  assert (Hentries : ∀ f, weigh_entries f s r = 0).
  { intros f. unfold weigh_entries, map_sum at 1. apply sum_zero. intros [k ops] _. cbn. rewrite decide_False; [done|].
    intros E. by apply (He k r E). }
  assert (Hnone : ∀ m : gmap ResourceAddr Z, map_Forall (λ x _, x ≠ r) m → m !! r = None).
  { intros m Hall. destruct (m !! r) eqn:E; [|done]. by destruct (Hall r _ E). }
  unfold gained, lost, minted, burned. rewrite !Hcells, !Hentries, (Hnone _ Hm), (Hnone _ Hb), Ht, Hesc.
  done.
Qed.

