(* ===== verification/Legs.v ===== *)
(** * Leg plans ([crates/kernel/src/escrow.rs], [LegPlan])

    Which of a manifest's nodes one execution runs and what happens at each value
    edge between them. A plan is built by skipping nodes and filing one action per
    edge; the theorem is the invariant every plan so built keeps. *)

From S2P Require Import Prelude WideMath Types Effects Conflict Modes Hbor Cells Ledger Store Overlay Capability Outcomes Buckets Supply Session.

Definition MAX_CROSSINGS_PER_TX : nat := 128.

Inductive NodeAction := Run | Elsewhere.
#[global] Instance NodeAction_eq_dec : EqDecision NodeAction.
Proof. solve_decision. Defined.
Inductive EdgeAction := Departs (d : Departure) | Arrives (a : Arrival).
Record LegPlan := { lp_nodes : list NodeAction; lp_edges : gmap (nat * nat) EdgeAction }.

Module PlanFault.
Inductive PlanFault :=
  | NoSuchNode (node : nat)
  | EdgeTwice (node output : nat)
  | ArrivesHere (node output : nat)
  | DepartsElsewhere (node output : nat)
  | TooWide.
End PlanFault.
Abbreviation PlanFault := PlanFault.PlanFault.

Definition plan_whole (nodes : nat) : LegPlan := {| lp_nodes := replicate nodes Run; lp_edges := ∅ |}.
Definition plan_action (p : LegPlan) (node : nat) : NodeAction := default Run (lp_nodes p !! node).
Definition plan_runs (p : LegPlan) (node : nat) : bool := bool_decide (plan_action p node = Run).
Definition plan_is_whole (p : LegPlan) : bool := forallb (λ a, bool_decide (a = Run)) (lp_nodes p).
Definition plan_arrival (p : LegPlan) (node output : nat) : option Arrival :=
  match lp_edges p !! (node, output) with Some (Arrives a) => Some a | _ => None end.
Definition plan_departure (p : LegPlan) (node output : nat) : option Departure :=
  match lp_edges p !! (node, output) with Some (Departs d) => Some d | _ => None end.

(** The walks over the edges, in edge order. *)
Definition plan_records (p : LegPlan) : list SubstateKey :=
  omap (λ a, match a with Departs d => Some (d_record d) | Arrives _ => None end) (map_iter (lp_edges p)).*2.
Definition plan_arrivals (p : LegPlan) : list Arrival :=
  omap (λ a, match a with Arrives x => Some x | Departs _ => None end) (map_iter (lp_edges p)).*2.
Definition plan_claims (p : LegPlan) : list SubstateKey :=
  omap (λ a, match a with Arrives x => Some (a_claim x) | Departs _ => None end) (map_iter (lp_edges p)).*2.
Definition plan_nevers (p : LegPlan) : list SubstateKey :=
  omap (λ a, match a with Arrives x => a_never x | Departs _ => None end) (map_iter (lp_edges p)).*2.

Definition plan_skip (p : LegPlan) (node : nat) : LegPlan * result PlanFault () :=
  match lp_nodes p !! node with
  | None => (p, Err (PlanFault.NoSuchNode node))
  | Some _ => ({| lp_nodes := <[node := Elsewhere]> (lp_nodes p); lp_edges := lp_edges p |}, Ok ())
  end.
Definition plan_act (p : LegPlan) (node output : nat) (action : EdgeAction) : LegPlan * result PlanFault () :=
  if decide (lp_nodes p !! node = None) then (p, Err (PlanFault.NoSuchNode node)) else
  match lp_edges p !! (node, output) with
  | Some _ => (p, Err (PlanFault.EdgeTwice node output))
  | None =>
      if decide (MAX_CROSSINGS_PER_TX ≤ size (lp_edges p))%nat then (p, Err PlanFault.TooWide) else
      ({| lp_nodes := lp_nodes p; lp_edges := <[(node, output) := action]> (lp_edges p) |}, Ok ())
  end.
Definition plan_arrives (p : LegPlan) (node output : nat) (a : Arrival) : LegPlan * result PlanFault () :=
  if decide (plan_action p node = Run) then (p, Err (PlanFault.ArrivesHere node output))
  else plan_act p node output (Arrives a).
Definition plan_departs (p : LegPlan) (node output : nat) (d : Departure) : LegPlan * result PlanFault () :=
  if decide (plan_action p node = Elsewhere) then (p, Err (PlanFault.DepartsElsewhere node output))
  else plan_act p node output (Departs d).

(** ** What a built plan says *)

(** The steps a plan is built by; [skips_first] is the order the builder keeps. *)
Inductive PlanStep := Skip (node : nat) | FileArrival (node output : nat) (a : Arrival) | FileDeparture (node output : nat) (d : Departure).
Definition plan_step (p : LegPlan) (s : PlanStep) : LegPlan :=
  match s with
  | Skip node => (plan_skip p node).1
  | FileArrival node output a => (plan_arrives p node output a).1
  | FileDeparture node output d => (plan_departs p node output d).1
  end.
Definition is_skip (s : PlanStep) : bool := match s with Skip _ => true | _ => false end.
Definition skips_first (steps : list PlanStep) : Prop := ∃ skips files,
  steps = skips ++ files ∧ Forall (λ s, is_skip s = true) skips ∧ Forall (λ s, is_skip s = false) files.

(** Each edge's action sits at a node of the manifest and on the side of it that
    can act. *)
Record plan_ok (nodes : nat) (p : LegPlan) : Prop := {
  po_arity : length (lp_nodes p) = nodes;
  po_width : (size (lp_edges p) ≤ MAX_CROSSINGS_PER_TX)%nat;
  po_node : ∀ node output action, lp_edges p !! (node, output) = Some action → (node < nodes)%nat;
  po_arrives : ∀ node output a, lp_edges p !! (node, output) = Some (Arrives a) → plan_runs p node = false;
}.
Definition departs_here (p : LegPlan) : Prop :=
  ∀ node output d, lp_edges p !! (node, output) = Some (Departs d) → plan_runs p node = true.

Lemma plan_act_spec nodes p node output action :
  plan_ok nodes p → (∀ a, action = Arrives a → plan_runs p node = false) →
  plan_ok nodes (plan_act p node output action).1 ∧
  ((∀ d, action = Departs d → plan_runs p node = true) → departs_here p → departs_here (plan_act p node output action).1).
Proof.
  intros Hok Ha. unfold plan_act. destruct (decide _) as [|Hn]; [done|]. destruct (lp_edges p !! (node, output)) eqn:Ee; [done|].
  destruct (decide _) as [|Hw]; [done|]. cbn [fst]. destruct Hok as [H1 H2 H3 H4].
  assert (Hlt : (node < nodes)%nat) by (rewrite <- H1; apply lookup_lt_is_Some; by destruct (lp_nodes p !! node)).
  split; [split|]; cbn.
  - done.
  - rewrite map_size_insert, Ee. lia.
  - intros n out x [[[= <- <-] _]|[_ Hx]]%lookup_insert_Some; [done|by eapply H3].
  - intros n out x [[[= <- <-] ->]|[_ Hx]]%lookup_insert_Some; [by eapply Ha|by eapply H4].
  - intros Hd Hall n out d. cbn [lp_edges]. intros [[[= <- <-] ->]|[_ Hx]]%lookup_insert_Some; [by eapply Hd|by eapply Hall].
Qed.
Lemma plan_step_ok nodes p s : plan_ok nodes p → plan_ok nodes (plan_step p s) ∧ (is_skip s = false → departs_here p → departs_here (plan_step p s)).
Proof.
  intros Hok. destruct s as [node|node output a|node output d]; cbn.
  - split; [|done]. unfold plan_skip. destruct (lp_nodes p !! node) as [act|] eqn:En; [|done]. destruct Hok as [H1 H2 H3 H4].
    split; cbn; [by rewrite length_insert|done|done|]. intros n out x Hx. specialize (H4 _ _ _ Hx).
    unfold plan_runs, plan_action in *. cbn. destruct (decide (node = n)) as [<-|Hne].
    + rewrite list_lookup_insert_eq by (by eapply lookup_lt_Some). done.
    + by rewrite list_lookup_insert_ne.
  - unfold plan_arrives. destruct (decide _) as [|Hr]; [done|].
    destruct (plan_act_spec nodes p node output (Arrives a) Hok) as [H1 H2].
    { intros x _. unfold plan_runs. by apply bool_decide_eq_false. }
    split; [done|]. intros _. by apply H2.
  - unfold plan_departs. destruct (decide _) as [|Hr]; [done|].
    destruct (plan_act_spec nodes p node output (Departs d) Hok) as [H1 H2]; [done|].
    split; [done|]. intros _. apply H2. intros x _. unfold plan_runs. apply bool_decide_eq_true. by destruct (plan_action p node).
Qed.

(** A leg plan says one thing per edge. Through any sequence of steps, refused ones changing nothing, a plan has
    the manifest's arity, at most [MAX_CROSSINGS_PER_TX] crossings, each at a node of the manifest, and arrivals only for
    nodes run elsewhere; and where nodes are skipped before edges are filed, departures only from nodes run here. *)
Theorem leg_plan_invariant nodes steps :
  let p := foldl plan_step (plan_whole nodes) steps in plan_ok nodes p ∧ (skips_first steps → departs_here p).
Proof.
  assert (Hfold : ∀ l p, plan_ok nodes p → plan_ok nodes (foldl plan_step p l) ∧
    (Forall (λ s, is_skip s = false) l → departs_here p → departs_here (foldl plan_step p l))).
  { induction l as [|s l IH]; intros p Hok; [done|]. cbn [foldl]. destruct (plan_step_ok nodes p s Hok) as [H1 H2].
    destruct (IH _ H1) as [H3 H4]. split; [done|]. intros [Hs Hl]%Forall_cons Hd. apply H4; [done|]. by apply H2. }
  assert (Hwhole : plan_ok nodes (plan_whole nodes)) by (split; [apply length_replicate|cbn; rewrite map_size_empty; lia|done|done]).
  cbv zeta. split; [by apply Hfold|]. intros (skips & files & -> & Hs & Hf). rewrite foldl_app.
  destruct (Hfold skips _ Hwhole) as [Hok _]. apply Hfold; [done..|].
  assert (Hedges : lp_edges (foldl plan_step (plan_whole nodes) skips) = ∅).
  { change (∅ : gmap (nat * nat) EdgeAction) with (lp_edges (plan_whole nodes)). generalize (plan_whole nodes). clear -Hs.
    induction Hs as [|s l Hs _ IH]; intros p; [done|]. cbn [foldl]. rewrite IH. destruct s; try done. cbn. unfold plan_skip.
    by destruct (lp_nodes p !! node). }
  intros n out d. by rewrite Hedges.
Qed.

(** A departure filed before its node is skipped stands: [skip] does not look at
    the edges already filed. *)
Definition sample_departure : Departure := {|
  d_record := {| owner := 1; local := 2 |}; d_crossing := {| crossing_id := {| x_producer := 1; x_consumer := 2; x_intent := 3;
    x_local := 0; x_output := 0 |}; crossing_kind := Escrowed |}; d_validity_end_ms := 5 |}.
Lemma skip_after_departure :
  let p := foldl plan_step (plan_whole 2) [FileDeparture 0 0 sample_departure; Skip 0] in
  plan_runs p 0 = false ∧ is_Some (plan_departure p 0 0).
Proof. vm_compute. split; [done|by eexists]. Qed.
