(* ===== verification/Locality.v ===== *)
(** * Shares of an execution ([crates/kernel/src/locality.rs],
    [crates/effects/src/footprint.rs])

    A set of owners bounds what an execution applies and judges. The file has the
    owner set, the price of the part of a declaration it covers, the walks of a
    delta it owns and the projection of that part into the writes a receipt
    carries. The theorems say that shares lose and repeat nothing: prices of a
    partition add up to the price of the whole, and shards that settle their own
    shares over their own state reach together what one settlement would. *)

From S2P Require Import Prelude WideMath Types Effects Conflict Modes Hbor Cells Writes Ledger Store Overlay Capability Outcomes Rules Buckets Supply Session Seals Conservation Receipt.

(** ** The declared footprint *)

Definition TARGET_UNITS : Z := 1.
Definition SPAN_UNITS : Z := 1.
Definition DEPTH_UNITS : Z := 1.
Definition EXCLUSIVITY_FLOOR : Z := 1.

Definition kind_all : list ModeKind := [KRead; KDelta; KReserve; KWrite].
(** The counting loop over [ModeKind::ALL]. *)
Definition mode_weight (k : ModeKind) : Z :=
  EXCLUSIVITY_FLOOR + foldl (λ excluded other, if compatible k other then excluded else excluded + 1) 0 kind_all.
Definition order_bits (lo hi : Z) : Z :=
  match checked_sub hi lo with
  | None => 0
  | Some span => if decide (span = 0) then 0 else Z.log2 span + 1
  end.
Definition span_units (t : EffectTarget) : Z :=
  match t with
  | Point _ | Entry _ _ _ => TARGET_UNITS
  | Range _ _ lo hi _ => saturating_add 64 TARGET_UNITS (saturating_mul 64 SPAN_UNITS (order_bits lo hi))
  end.
Definition depth_units (t : EffectTarget) : Z :=
  match t with
  | Point _ | Entry _ _ _ => DEPTH_UNITS
  | Range _ _ _ _ cap => saturating_mul 64 DEPTH_UNITS (saturating_add 64 SCAN_SEEK_ENTRIES cap)
  end.
Definition effect_units (e : Effect) : Z :=
  saturating_add 64 (saturating_mul 64 (span_units (target e)) (mode_weight (kind (mode e)))) (depth_units (target e)).
Definition footprint (declared : EffectSet) : Z :=
  foldl (λ total e, saturating_add 64 total (effect_units e)) 0 (effects_iter declared).

(** ** Owner sets *)

Inductive Span := Whole | Spanning (covers : Address → bool).
Record OwnerSet := { os_span : Span }.
Definition owners_whole : OwnerSet := {| os_span := Whole |}.
Definition owners_of (covers : Address → bool) : OwnerSet := {| os_span := Spanning covers |}.
Definition covers (s : OwnerSet) (w : Address) : bool :=
  match os_span s with Whole => true | Spanning f => f w end.
Definition is_whole (s : OwnerSet) : bool := match os_span s with Whole => true | Spanning _ => false end.
Definition share_footprint (s : OwnerSet) (declared : EffectSet) : Z :=
  foldl (λ total e, saturating_add 64 total (effect_units e)) 0
    (List.filter (λ e, covers s (target_owner (target e))) (effects_iter declared)).

(** ** The owned walks and the projection *)

Section walks.
Context (d : StateDelta) (applies : OwnerSet).
Definition owned_cells : list (SubstateKey * option bytes) := List.filter (λ p, covers applies (owner p.1)) (map_iter (dl_cells d)).
Definition owned_entries : list (EntryKey * option bytes) :=
  List.filter (λ p, covers applies (entry_owner p.1)) (map_iter (dl_entries d)).
Definition owned_movements : list (SubstateKey * Movement) := List.filter (λ p, covers applies (owner p.1)) (map_iter (dl_movements d)).
Definition owned_settles : list (SubstateKey * Movement) := List.filter (λ p, covers applies (owner p.1)) (map_iter (dl_settles d)).
End walks.

(** [for (key, value) in walk { map.insert(key, value) }]. *)
Definition insert_each {K A} `{Countable K} (l : list (K * A)) : gmap K A := foldl (λ m p, <[p.1 := p.2]> m) ∅ l.
(** The movement loop: a key met twice composes, or the projection is refused. *)
Fixpoint project_movements (l : list (SubstateKey * Movement)) (acc : gmap SubstateKey Movement) :
    option (gmap SubstateKey Movement) :=
  match l with
  | [] => Some acc
  | (key, movement) :: l =>
      standing ← match acc !! key with
                 | Some standing => match movement_then standing movement with Ok m => Some m | Err _ => None end
                 | None => Some movement
                 end;
      project_movements l (<[key := standing]> (delete key acc))
  end.
Definition project (d : StateDelta) (applies : OwnerSet) : option StateWrites :=
  movements ← project_movements (owned_movements d applies ++ owned_settles d applies) ∅;
  Some {| sw_cells := insert_each (owned_cells d applies); sw_movements := movements;
          sw_entries := insert_each (owned_entries d applies) |}.

(** ** Prices of shares *)

Definition units_ok (x : Z) : Prop := 0 ≤ x.
Lemma sum_units (l : list Z) : Forall units_ok l → 0 ≤ sum_Z l.
Proof. induction 1 as [|x l Hx _ IH]; [done|]. rewrite sum_Z_cons. unfold units_ok in Hx. lia. Qed.
Lemma saturating_sum (l : list Z) x :
  0 ≤ x ≤ u64_max → Forall units_ok l → foldl (λ t y, saturating_add 64 t y) x l = Z.min (x + sum_Z l) u64_max.
Proof.
  revert x. induction l as [|y l IH]; intros x Hx Hl; [cbn; lia|]. apply Forall_cons in Hl as [Hy Hl]. unfold units_ok in Hy.
  cbn [foldl]. rewrite sum_Z_cons. unfold saturating_add at 2.
  rewrite IH by (done || lia). pose proof (sum_units l Hl). lia.
Qed.
Lemma foldl_map {A} (f : A → Z) (l : list A) x :
  foldl (λ t a, saturating_add 64 t (f a)) x l = foldl (λ t y, saturating_add 64 t y) x (f <$> l).
Proof. revert x. induction l as [|a l IH]; intros x; [done|]. cbn. apply IH. Qed.

(** A range's cap is a [u32], as its type holds it. *)
Definition cap_ok (t : EffectTarget) : Prop := match t with Range _ _ _ _ cap => in_width 32 cap | _ => True end.
#[global] Instance cap_ok_dec t : Decision (cap_ok t).
Proof. destruct t; cbn; apply _. Defined.
Lemma order_bits_nonneg lo hi : 0 ≤ order_bits lo hi.
Proof.
  unfold order_bits. destruct (checked_sub hi lo) as [z|]; [|done]. destruct (decide (z = 0)); [done|]. pose proof (Z.log2_nonneg z). lia.
Qed.
Lemma effect_units_ok e : cap_ok (target e) → units_ok (effect_units e).
Proof.
  intros Hc. unfold effect_units, units_ok. assert (Hm : 0 ≤ mode_weight (kind (mode e))) by (by destruct (mode e)).
  assert (Hs : 0 ≤ span_units (target e)).
  { destruct (target e) as [| |w c lo hi cap]; [done..|]. cbn. pose proof (order_bits_nonneg lo hi).
    unfold saturating_add, saturating_mul, TARGET_UNITS, SPAN_UNITS, width_max. lia. }
  assert (Hd : 0 ≤ depth_units (target e)).
  { destruct (target e) as [| |w c lo hi cap]; [done..|]. cbn in Hc |- *. unfold in_width in Hc.
    unfold saturating_add, saturating_mul, DEPTH_UNITS, SCAN_SEEK_ENTRIES, width_max. lia. }
  unfold saturating_add, saturating_mul, width_max. nia.
Qed.

Section shares.
Context (declared : EffectSet) (Hcaps : map_Forall (λ t _, cap_ok t) declared).

Definition units_of (p : Effect → bool) : Z := sum_Z (effect_units <$> List.filter p (effects_iter declared)).
Lemma declared_units e : e ∈ effects_iter declared → units_ok (effect_units e).
Proof.
  unfold effects_iter. intros ([t dd] & Hin & Ht)%list_elem_of_bind. apply list_elem_of_fmap in Hin as (m & -> & _).
  apply elem_of_map_iter in Ht. apply effect_units_ok. exact (Hcaps t dd Ht).
Qed.
Lemma units_filtered p : Forall units_ok (effect_units <$> List.filter p (effects_iter declared)).
Proof.
  apply Forall_fmap, Forall_forall. intros e He. apply declared_units.
  apply list_elem_of_In, filter_In in He as [He _]. by apply list_elem_of_In.
Qed.
Lemma share_closed s : share_footprint s declared = Z.min (units_of (λ e, covers s (target_owner (target e)))) u64_max.
Proof.
  unfold share_footprint. rewrite foldl_map, saturating_sum; [by rewrite Z.add_0_l|unfold width_max; lia|]. apply units_filtered.
Qed.
Lemma whole_share : share_footprint owners_whole declared = footprint declared.
Proof. unfold share_footprint, footprint. by rewrite filter_whole. Qed.

(** Saturating at each share and again at the sum saturates once. *)
Lemma saturating_shares (xs : list Z) :
  Forall units_ok xs → foldl (λ t y, saturating_add 64 t y) 0 ((λ x, Z.min x u64_max) <$> xs) = Z.min (sum_Z xs) u64_max.
Proof.
  intros Hx. rewrite saturating_sum; [|unfold width_max; lia|].
  - rewrite Z.add_0_l. induction Hx as [|x l Hx Hl IH]; [done|]. rewrite fmap_cons, !sum_Z_cons.
    pose proof (sum_units l Hl). unfold units_ok in Hx.
    assert (0 ≤ sum_Z ((λ x0, Z.min x0 u64_max) <$> l)).
    { apply sum_units, Forall_fmap. refine (Forall_impl _ _ _ Hl _). intros z. unfold units_ok, width_max. cbn. lia. }
    lia.
  - apply Forall_fmap. refine (Forall_impl _ _ _ Hx _). intros z. unfold units_ok, width_max. cbn. lia.
Qed.
Lemma units_split (ss : list OwnerSet) :
  (∀ e, e ∈ effects_iter declared → length (List.filter (λ s, covers s (target_owner (target e))) ss) = 1%nat) →
  sum_Z ((λ s, units_of (λ e, covers s (target_owner (target e)))) <$> ss) = units_of (λ _, true).
Proof.
  unfold units_of. generalize (effects_iter declared). intros es. induction es as [|e es IH]; intros Hone.
  { cbn. induction ss as [|s ss IHs]; [done|]. rewrite fmap_cons, sum_Z_cons, IHs; [done|]. by intros ? ?%not_elem_of_nil. }
  specialize (IH (λ x Hx, Hone x (list_elem_of_further _ _ _ Hx))). specialize (Hone e (list_elem_of_here _ _)).
  cbn [List.filter]. rewrite fmap_cons, sum_Z_cons, <- IH. clear IH.
  assert (Hs : ∀ l, sum_Z ((λ s, sum_Z (effect_units <$> (if covers s (target_owner (target e))
      then e :: List.filter (λ e0, covers s (target_owner (target e0))) es
      else List.filter (λ e0, covers s (target_owner (target e0))) es))) <$> l)
    = effect_units e * Z.of_nat (length (List.filter (λ s, covers s (target_owner (target e))) l))
      + sum_Z ((λ s, sum_Z (effect_units <$> List.filter (λ e0, covers s (target_owner (target e0))) es)) <$> l)).
  { induction l as [|s l IHl]; [cbn; lia|]. rewrite !fmap_cons, !sum_Z_cons, IHl. cbn [List.filter].
    destruct (covers s _); [rewrite fmap_cons, sum_Z_cons; cbn [length]|]; lia. }
  rewrite Hs, Hone. lia.
Qed.
End shares.

(** Shares of a price. Where every declared target is under exactly one of a family of owner sets, the family's
    footprints, each saturated, add up to the footprint of the whole declaration; the whole set's share is all of it. *)
Theorem footprint_shares (declared : EffectSet) (ss : list OwnerSet) :
  map_Forall (λ t _, cap_ok t) declared →
  (∀ e, e ∈ effects_iter declared → length (List.filter (λ s, covers s (target_owner (target e))) ss) = 1%nat) →
  foldl (λ total share, saturating_add 64 total share) 0 ((λ s, share_footprint s declared) <$> ss) = footprint declared ∧
  share_footprint owners_whole declared = footprint declared.
Proof.
  intros Hcaps Hone. split; [|apply whole_share]. rewrite <- whole_share, (share_closed _ Hcaps).
  rewrite (list_fmap_ext _ (λ s, Z.min (units_of declared (λ e, covers s (target_owner (target e)))) u64_max) ss)
    by (intros; by apply share_closed).
  rewrite (list_fmap_compose (λ s, units_of declared (λ e, covers s (target_owner (target e)))) (λ x, Z.min x u64_max)).
  rewrite saturating_shares.
  - by rewrite units_split.
  - apply Forall_fmap, Forall_forall. intros s _. apply sum_units. by apply units_filtered.
Qed.

(** ** The projection of a share *)

Lemma insert_each_map {K A} `{Countable K} (l : list (K * A)) : NoDup l.*1 → insert_each l = list_to_map l.
Proof.
  unfold insert_each. intros Hnd. assert (Hg : ∀ m : gmap K A, foldl (λ m p, <[p.1 := p.2]> m) m l = list_to_map l ∪ m).
  { induction l as [|[k v] l IH]; intros m; [symmetry; apply (left_id_L ∅ (∪))|]. apply NoDup_cons in Hnd as [Hk Hnd]. cbn [foldl fst snd].
    rewrite IH by done. cbn. rewrite <- insert_union_l, insert_union_r; [done|]. by apply not_elem_of_list_to_map_1. }
  rewrite Hg. apply (right_id_L ∅ (∪)).
Qed.
Lemma owned_map {K A} `{Countable K, OrdKey K} (f : K → bool) (m : gmap K A) k :
  let l := List.filter (λ p, f p.1) (map_iter m) in
  NoDup l.*1 ∧ (list_to_map l : gmap K A) !! k = if f k then m !! k else None.
Proof.
  set (l := List.filter (λ p, f p.1) (map_iter m)). assert (Hin : ∀ k v, (k, v) ∈ l ↔ m !! k = Some v ∧ f k = true).
  { intros k' v. subst l. rewrite list_elem_of_In, filter_In, <- list_elem_of_In, elem_of_map_iter. done. }
  assert (Hnd : NoDup l.*1).
  { subst l. pose proof (NoDup_map_iter m) as Hm. revert Hm. generalize (map_iter m). intros l Hm.
    induction l as [|[k' v] l IH]; [done|]. apply NoDup_cons in Hm as [Hk Hm]. cbn [List.filter fst].
    destruct (f k'); [|auto]. rewrite fmap_cons. constructor; [|auto]. intros Hk'. apply Hk.
    apply list_elem_of_fmap in Hk' as (p & -> & Hp). apply list_elem_of_fmap. exists p. split; [done|].
    apply list_elem_of_In, filter_In in Hp as [Hp _]. by apply list_elem_of_In. }
  split; [done|]. destruct (list_to_map l !! k) as [v|] eqn:E.
  - apply elem_of_list_to_map_2, Hin in E as [-> ->]. done.
  - apply not_elem_of_list_to_map_2 in E. destruct (f k) eqn:Ef; [|done]. destruct (m !! k) as [v|] eqn:Em; [|done].
    destruct E. apply list_elem_of_fmap. exists (k, v). split; [done|]. by apply Hin.
Qed.

(** What two movements on one cell come to. *)
Definition join (x y : option Movement) : option (option Movement) :=
  match x, y with
  | Some m, Some n => match movement_then m n with Ok c => Some (Some c) | Err _ => None end
  | Some m, None | None, Some m => Some (Some m)
  | None, None => Some None
  end.
Lemma project_movements_spec l acc :
  NoDup l.*1 →
  match project_movements l acc with
  | Some m => ∀ k, join (acc !! k) ((list_to_map l : gmap SubstateKey Movement) !! k) = Some (m !! k)
  | None => ∃ k, join (acc !! k) ((list_to_map l : gmap SubstateKey Movement) !! k) = None
  end.
Proof.
  revert acc. induction l as [|[key mv] l IH]; intros acc Hnd.
  { cbn. intros k. rewrite lookup_empty. by destruct (acc !! k). }
  apply NoDup_cons in Hnd as [Hk Hnd]. cbn [project_movements list_to_map foldr].
  assert (Hkey : (list_to_map l : gmap SubstateKey Movement) !! key = None) by (by apply not_elem_of_list_to_map_1).
  destruct (match acc !! key with Some standing => _ | None => _ end) as [st|] eqn:Est; cbn [mbind option_bind].
  - specialize (IH (<[key := st]> (delete key acc)) Hnd).
    assert (Hj : ∀ k, join (<[key:=st]> (delete key acc) !! k) ((list_to_map l : gmap SubstateKey Movement) !! k)
      = join (acc !! k) ((<[key:=mv]> (list_to_map l) : gmap SubstateKey Movement) !! k)).
    { intros k. destruct (decide (key = k)) as [<-|Hne].
      - rewrite !lookup_insert_eq, Hkey. destruct (acc !! key) as [x|]; cbn; [|by injection Est as <-].
        destruct (movement_then x mv); [by injection Est as <-|done].
      - by rewrite !lookup_insert_ne, lookup_delete_ne by done. }
    destruct (project_movements l _) as [m|]; [intros k; by rewrite <- Hj|]. destruct IH as [k Hk']. exists k. by rewrite <- Hj.
  - exists key. rewrite lookup_insert_eq. destruct (acc !! key) as [x|]; [|done]. cbn. by destruct (movement_then x mv).
Qed.

(** The share of a delta, key by key. *)
Definition moved_at (d : StateDelta) (k : SubstateKey) : option (option Movement) := join (dl_movements d !! k) (dl_settles d !! k).
Definition if_owned {A} (b : bool) (x : option A) : option A := if b then x else None.
Lemma project_spec d s :
  match project d s with
  | Some w =>
      (∀ k, sw_cells w !! k = if_owned (covers s (owner k)) (dl_cells d !! k)) ∧
      (∀ k, sw_entries w !! k = if_owned (covers s (entry_owner k)) (dl_entries d !! k)) ∧
      ∀ k, if covers s (owner k) then moved_at d k = Some (sw_movements w !! k) else sw_movements w !! k = None
  | None => ∃ k, covers s (owner k) = true ∧ moved_at d k = None
  end.
Proof.
  unfold project. assert (Happ : ∀ l1 l2 acc, project_movements (l1 ++ l2) acc = project_movements l1 acc ≫= project_movements l2).
  { induction l1 as [|[k m] l1 IH]; intros l2 acc; [done|]. cbn [app project_movements].
    destruct (match acc !! k with Some standing => _ | None => _ end); [apply IH|done]. }
  rewrite Happ. clear Happ.
  assert (Hmv : ∀ k, NoDup (owned_movements d s).*1 ∧ (list_to_map (owned_movements d s) : gmap SubstateKey Movement) !! k =
    if covers s (owner k) then dl_movements d !! k else None) by (intros k; exact (owned_map (λ k, covers s (owner k)) (dl_movements d) k)).
  assert (Hst : ∀ k, NoDup (owned_settles d s).*1 ∧ (list_to_map (owned_settles d s) : gmap SubstateKey Movement) !! k =
    if covers s (owner k) then dl_settles d !! k else None) by (intros k; exact (owned_map (λ k, covers s (owner k)) (dl_settles d) k)).
  pose proof (project_movements_spec (owned_movements d s) ∅ (proj1 (Hmv {| owner := 0; local := 0 |}))) as H1.
  destruct (project_movements (owned_movements d s) ∅) as [m1|]; cbn [mbind option_bind].
  2: { destruct H1 as [k Hk]. rewrite lookup_empty in Hk. by destruct (list_to_map _ !! k). }
  assert (Em1 : ∀ k, m1 !! k = if covers s (owner k) then dl_movements d !! k else None).
  { intros k. specialize (H1 k). rewrite lookup_empty, (proj2 (Hmv k)) in H1.
    destruct (if covers s (owner k) then dl_movements d !! k else None); cbn in H1; congruence. }
  pose proof (project_movements_spec (owned_settles d s) m1 (proj1 (Hst {| owner := 0; local := 0 |}))) as H2.
  destruct (project_movements (owned_settles d s) m1) as [m2|]; cbn [mbind option_bind].
  - cbn [sw_cells sw_entries sw_movements]. split_and!; intros k.
    + unfold owned_cells. destruct (owned_map (λ k, covers s (owner k)) (dl_cells d) k) as [Hnd El]. by rewrite insert_each_map.
    + unfold owned_entries. destruct (owned_map (λ k, covers s (entry_owner k)) (dl_entries d) k) as [Hnd El]. by rewrite insert_each_map.
    + specialize (H2 k). rewrite Em1, (proj2 (Hst k)) in H2. destruct (covers s (owner k)); [done|]. cbn in H2. congruence.
  - destruct H2 as [k Hk]. rewrite Em1, (proj2 (Hst k)) in Hk. exists k. by destruct (covers s (owner k)).
Qed.

(** ** Settling by shares *)

(** Movements of a delta are [u128]s, as the type holds them. *)
Definition delta_ok (d : StateDelta) : Prop :=
  map_Forall (λ _ m, movement_ok m) (dl_movements d) ∧ map_Forall (λ _ m, movement_ok m) (dl_settles d).
Lemma moved_ok d k m : delta_ok d → moved_at d k = Some (Some m) → movement_ok m.
Proof.
  intros [H1 H2]. unfold moved_at, join. destruct (dl_movements d !! k) as [x|] eqn:E1, (dl_settles d !! k) as [y|] eqn:E2.
  - destruct (movement_then x y) as [c|] eqn:Et; [|done]. intros [= <-].
    apply then_ok in Et as (_ & Hc & Hd & Hu & ->). specialize (H1 _ _ E1). specialize (H2 _ _ E2).
    unfold movement_ok, in_width, width_max in *. cbn. lia.
  - intros [= <-]. by apply (H1 k).
  - intros [= <-]. by apply (H2 k).
  - done.
Qed.

(** What a shard does with a receipt: project its share, resolve it over its own
    state. *)
Definition settled_by (prior : SubstateKey → option bytes) (d : StateDelta) (s : OwnerSet) : option SettledWrites :=
  w ← project d s; match resolve prior w with Ok settled => Some settled | Err _ => None end.
(** What becomes of one cell, [None] where it cannot settle. *)
Definition fate (prior : SubstateKey → option bytes) (d : StateDelta) (k : SubstateKey) : option (option (option bytes)) :=
  moved ← moved_at d k;
  match moved with
  | None => Some (dl_cells d !! k)
  | Some m => if decide (0 ≤ settles_over prior (dl_cells d) k + net m) then Some (Some (landed prior (dl_cells d) k m)) else None
  end.
Lemma settles_over_same prior prior' cells cells' k :
  prior k = prior' k → cells !! k = cells' !! k → settles_over prior cells k = settles_over prior' cells' k.
Proof. unfold settles_over. by intros -> ->. Qed.
Lemma fate_local prior prior' d k : prior k = prior' k → fate prior d k = fate prior' d k.
Proof.
  intros E. unfold fate, landed. destruct (moved_at d k) as [[m|]|]; [|done..]. cbn.
  by rewrite (settles_over_same prior prior' (dl_cells d) (dl_cells d) k).
Qed.

Lemma settled_by_spec prior d s :
  delta_ok d →
  match settled_by prior d s with
  | Some settled =>
      (∀ k, if covers s (owner k) then fate prior d k = Some (settled_cells settled !! k) else settled_cells settled !! k = None) ∧
      ∀ k, settled_entries settled !! k = if_owned (covers s (entry_owner k)) (dl_entries d !! k)
  | None => ∃ k, covers s (owner k) = true ∧ fate prior d k = None
  end.
Proof.
  intros Hd. unfold settled_by. pose proof (project_spec d s) as Hp. destruct (project d s) as [w|]; cbn [mbind option_bind].
  2: { destruct Hp as (k & Hc & Hk). exists k. split; [done|]. unfold fate. by rewrite Hk. }
  destruct Hp as (Hc & He & Hm).
  assert (Hok : writes_ok w).
  { intros k m Hk. specialize (Hm k). destruct (covers s (owner k)); [|congruence]. rewrite Hk in Hm. by eapply moved_ok. }
  assert (Hover : ∀ k, covers s (owner k) = true → settles_over prior (sw_cells w) k = settles_over prior (dl_cells d) k).
  { intros k Hk. apply settles_over_same; [done|]. by rewrite Hc, Hk. }
  destruct (resolve_closed prior w Hok) as [Hr Hiff]. destruct (resolve prior w) as [st|e].
  - destruct Hr as [Hent Hcell]. split; [|intros k; by rewrite Hent]. intros k. rewrite Hcell. specialize (Hm k).
    destruct (covers s (owner k)) eqn:Ek; [|by rewrite Hm, Hc, Ek]. unfold fate. rewrite Hm. cbn.
    destruct (sw_movements w !! k) as [m|] eqn:Emk; [|by rewrite Hc, Ek].
    assert (Hl : lands prior (sw_cells w) (k, m)) by (by apply (proj1 Hiff eq_refl k m)). unfold lands in Hl. cbn in Hl.
    rewrite decide_True by (by rewrite <- Hover). unfold landed. by rewrite Hover.
  - destruct Hr as (m & Hkey & Hheld & Hdeb & Hlt & _). specialize (Hm (od_key e)). exists (od_key e). rewrite Hkey in Hm.
    destruct (covers s (owner (od_key e))) eqn:Ek; [|done]. split; [done|]. unfold fate. rewrite Hm. cbn.
    rewrite decide_False; [done|]. rewrite <- Hover by done. rewrite <- Hheld. unfold net. lia.
Qed.

(** C18: settlement by shares. Shards whose owner sets cover every owner, each projecting its own share of one receipt
    and resolving it over its own part of the state, settle exactly when one settlement of the whole receipt over the
    whole state would; and then every shard's cells and entries are exactly its part of that settlement, none lost,
    none settled where it is not owned. *)
Theorem shares_settle d prior (shards : list (OwnerSet * (SubstateKey → option bytes))) :
  delta_ok d → (∀ w, ∃ p, p ∈ shards ∧ covers p.1 w = true) →
  (∀ p k, p ∈ shards → covers p.1 (owner k) = true → p.2 k = prior k) →
  (is_Some (settled_by prior d owners_whole) ↔ Forall (λ p, is_Some (settled_by p.2 d p.1)) shards) ∧
  ∀ settled, settled_by prior d owners_whole = Some settled → Forall (λ p, ∃ mine, settled_by p.2 d p.1 = Some mine ∧
    (∀ k, settled_cells mine !! k = if_owned (covers p.1 (owner k)) (settled_cells settled !! k)) ∧
    ∀ k, settled_entries mine !! k = if_owned (covers p.1 (entry_owner k)) (settled_entries settled !! k)) shards.
Proof.
  intros Hd Hcov Hprior. pose proof (settled_by_spec prior d owners_whole Hd) as Hw.
  assert (Hfate : ∀ p k, p ∈ shards → covers p.1 (owner k) = true → fate p.2 d k = fate prior d k) by (intros; by apply fate_local, Hprior).
  assert (Hshare : ∀ settled, settled_by prior d owners_whole = Some settled → Forall (λ p, ∃ mine, settled_by p.2 d p.1 = Some mine ∧
    (∀ k, settled_cells mine !! k = if_owned (covers p.1 (owner k)) (settled_cells settled !! k)) ∧
    ∀ k, settled_entries mine !! k = if_owned (covers p.1 (entry_owner k)) (settled_entries settled !! k)) shards).
  { intros settled E. rewrite E in Hw. destruct Hw as [Hwc Hwe]. apply Forall_forall. intros p Hp.
    pose proof (settled_by_spec p.2 d p.1 Hd) as Hs. destruct (settled_by p.2 d p.1) as [mine|].
    - destruct Hs as [Hsc Hse]. exists mine. split; [done|]. split; intros k.
      + specialize (Hsc k). specialize (Hwc k). cbn in Hwc. destruct (covers p.1 (owner k)) eqn:Ek; [|done].
        rewrite (Hfate p k Hp Ek), Hwc in Hsc. cbn. congruence.
      + rewrite Hse, Hwe. done.
    - destruct Hs as (k & Hk & Hn). specialize (Hwc k). cbn in Hwc. rewrite (Hfate p k Hp Hk) in Hn. congruence. }
  split; [|done]. split.
  - intros [settled E]. specialize (Hshare _ E). refine (Forall_impl _ _ _ Hshare _). intros p (mine & -> & _). by exists mine.
  - intros Hall. destruct (settled_by prior d owners_whole) as [st|]; [by exists st|]. destruct Hw as (k & _ & Hk).
    destruct (Hcov (owner k)) as (p & Hp & Hc). rewrite Forall_forall in Hall. destruct (Hall p Hp) as [mine E].
    pose proof (settled_by_spec p.2 d p.1 Hd) as Hs. rewrite E in Hs. destruct Hs as [Hs _]. specialize (Hs k).
    rewrite Hc, (Hfate p k Hp Hc) in Hs. congruence.
Qed.

(** ** Two shards *)

Definition near : OwnerSet := owners_of (λ w, bool_decide (w = 258)).
Definition far : OwnerSet := owners_of (λ w, negb (bool_decide (w = 258))).

Lemma footprint_shares_witness :
  saturating_add 64 (saturating_add 64 0 (share_footprint near sample_declared)) (share_footprint far sample_declared)
    = footprint sample_declared ∧ share_footprint near sample_declared = 58 ∧ footprint sample_declared = 64.
Proof.
  split; [|vm_compute; split; reflexivity].
  apply (footprint_shares sample_declared [near; far]).
  - apply (bool_decide_unpack _). vm_compute. exact I.
  - intros e _. cbn. by destruct (bool_decide _).
Defined.

(** A receipt writing one cell, moving another and settling a reservation on it. *)
Definition sample_delta : StateDelta := {|
  dl_cells := {[ purse := Some [x01] ]};
  dl_entries := {[ {| entry_owner := 258; entry_collection := 1; entry_order := 5 |} := None ]};
  dl_movements := {[ vault := {| m_resource := 7; m_credit := 5; m_debit := 20; m_unjudged_debit := 0 |} ]};
  dl_settles := {[ vault := movement_debit 7 10 ]};
|}.
Definition sample_prior (k : SubstateKey) : option bytes := cell sample_base k.
Lemma sample_delta_ok : delta_ok sample_delta.
Proof. split; apply (bool_decide_unpack _); vm_compute; exact I. Qed.

Lemma sample_settles : ∃ settled, settled_by sample_prior sample_delta owners_whole = Some settled ∧
  settled_cells settled !! vault = Some (Some (encode_amount 35)).
Proof.
  assert (Hx : ∀ x : option SettledWrites,
    match x with Some st => bool_decide (settled_cells st !! vault = Some (Some (encode_amount 35))) | None => false end = true →
    ∃ st, x = Some st ∧ settled_cells st !! vault = Some (Some (encode_amount 35))).
  { intros [st|]; [|done]. intros Hv%bool_decide_eq_true. by exists st. }
  apply Hx. vm_compute. reflexivity.
Qed.

Lemma shares_settle_witness :
  ∃ settled, settled_by sample_prior sample_delta owners_whole = Some settled ∧
    settled_cells settled !! vault = Some (Some (encode_amount 35)) ∧
    Forall (λ p, is_Some (settled_by p.2 sample_delta p.1)) [(near, sample_prior); (far, sample_prior)].
Proof.
  destruct (shares_settle sample_delta sample_prior [(near, sample_prior); (far, sample_prior)]) as [Hiff _].
  - exact sample_delta_ok.
  - intros w. destruct (decide (w = 258)) as [E|E].
    + exists (near, sample_prior). split; [apply list_elem_of_here|]. cbn. by apply bool_decide_eq_true.
    + exists (far, sample_prior). split; [apply list_elem_of_further, list_elem_of_here|]. cbn. by rewrite bool_decide_eq_false_2.
  - intros p k Hp _. apply elem_of_cons in Hp as [->|Hp]; [done|]. apply list_elem_of_singleton in Hp as ->. done.
  - destruct sample_settles as (st & E & Hv). exists st. split; [exact E|]. split; [exact Hv|]. apply Hiff. by exists st.
Defined.
