(* ===== verification/Materialize.v ===== *)
(** * Materialization ([crates/kernel/src/session/materialize.rs])

    The judging that turns a declaration into the session a body runs in: the
    reservations read off the folded set and judged or adopted, the capability
    table read off the clause list, the conditions answered from committed state,
    and the session every part of which starts empty. The declaration's own data
    is [crates/effects/src/dsl.rs]'s. *)

From S2P Require Import Prelude WideMath Types Effects Conflict Modes Hbor Cells Writes Ledger Store Overlay Capability Outcomes Rules Buckets Supply Session Seals Conservation Receipt Closing.

(** ** Data *)

Record DeclaredAccess := { da_effect : Effect; da_holds : option ResourceAddr }.
Record Condition := { c_rule : Rule JudgedLeaf.JudgedLeaf; c_node : option Z }.
Record Declaration := {
  dc_set : EffectSet;
  dc_ordered : list DeclaredAccess;
  dc_conditions : list Condition;
}.

Module MatErr.
Inductive MaterializeError :=
  | Unsupported (e : Effect)
  | ConditionUnmet (target : EffectTarget) (required : Presence) (node : option Z)
  | NotSignedIn (account : Address)
  | ConditionUnanswerable (node : option Z)
  | Infeasible (key : SubstateKey) (amount : Z)
  | SelfConflicting (key : SubstateKey)
  | UndenominatedMovement (key : SubstateKey)
  | MixedContents (target : EffectTarget)
  | HeldMismatch (key : SubstateKey)
  | ConditionStraddlesScope (node : option Z)
  | Store (e : StoreError).
End MatErr.
Abbreviation MaterializeError := MatErr.MaterializeError.

(** What a target names as the thing whose contents are one fact. *)
Inductive Contents := ContentsLeaf (key : SubstateKey) | ContentsEntries (owner : Address) (collection : CollectionId).
#[global] Instance Contents_eq_dec : EqDecision Contents.
Proof. solve_decision. Defined.
#[global] Instance Contents_countable : Countable Contents.
Proof.
  refine (inj_countable'
    (λ c, match c with ContentsLeaf k => inl k | ContentsEntries o c => inr (o, c) end)
    (λ s, match s with inl k => ContentsLeaf k | inr p => ContentsEntries p.1 p.2 end) _).
  by intros [].
Defined.

Definition contents_of (t : EffectTarget) : Contents :=
  match t with
  | Point key => ContentsLeaf key
  | Entry o c _ | Range o c _ _ _ => ContentsEntries o c
  end.
Definition interval_of (t : EffectTarget) (width : Z) : option Interval :=
  match t with
  | Point _ => None
  | Entry o c order =>
      Some {| iv_width := width; iv_owner := o; iv_collection := c; iv_lo := order; iv_hi := order; iv_cap := 1 |}
  | Range o c lo hi cap =>
      Some {| iv_width := width; iv_owner := o; iv_collection := c; iv_lo := lo; iv_hi := hi; iv_cap := cap |}
  end.

Definition capability_for (e : Effect) (denominated : bool) (width : Z) : result MaterializeError Capability :=
  match target e, mode e with
  | Point key, MRead => Ok (if denominated then Cap.AmountRead key else Cap.Read key)
  | Point key, MWrite moves => Ok (if denominated then Cap.Amount key moves else Cap.Write key)
  | Point key, MDelta moves => if denominated then Ok (Cap.Delta key moves) else Err (MatErr.UndenominatedMovement key)
  | Point key, MReserve amount => if denominated then Ok (Cap.Reserve key amount) else Err (MatErr.UndenominatedMovement key)
  | t, MRead => interval ← ok_or (interval_of t width) (MatErr.Unsupported e); Ok (Cap.RangeRead interval)
  | t, MWrite moves =>
      interval ← ok_or (interval_of t width) (MatErr.Unsupported e);
      Ok (if denominated then Cap.Instances interval moves else Cap.RangeWrite interval)
  | _, _ => Err (MatErr.Unsupported e)
  end.

(** ** Conditions *)

Fixpoint judged_owners (r : Rule JudgedLeaf.JudgedLeaf) : list Address :=
  match r with
  | Require (JudgedLeaf.IfPresence target _) => [target_owner target]
  | Require (JudgedLeaf.Signed cell _) => [owner cell]
  | Require _ => []
  | CountOf _ rules => rules ≫= judged_owners
  end.

Inductive Judgement :=
  | JMet
  | JUnmet (target : EffectTarget) (required : Presence)
  | JUnanswerable
  | JNotSignedIn (account : Address).
Definition met_by (expect : Presence) (held : bool) : bool :=
  match expect with Types.Either => true | Absent => negb held | Present => held end.

Section judging.
Context {B : Type} `{Baseline B}.
Implicit Types (o : OverlayStore B).

Definition occupied o (t : EffectTarget) : OverlayStore B * result StoreError bool :=
  match t with
  | Point key =>
      let '(o, r) := read o key in
      (o, value ← r;
          match queued o !! key with
          | None => Ok (bool_decide (is_Some value))
          | Some _ =>
              standing ← match value with
                         | Some (x :: b) => map_err StoreMode (decode_amount (x :: b))
                         | _ => Ok 0
                         end;
              after ← with_queued o key standing; Ok (bool_decide (0 < after))
          end)
  | Entry ow c order =>
      let '(o, r) := scan_entries o ow c order order 1 in (o, l ← r; Ok (bool_decide (l ≠ [])))
  | Range ow c lo hi cap =>
      if decide (cap = 0) then (o, Ok false) else
      let '(o, r) := scan_entries o ow c lo hi 1 in (o, l ← r; Ok (bool_decide (l ≠ [])))
  end.

(** The rule, walked once: the verdict and the first leaf that says why. *)
Fixpoint judge_rule (r : Rule JudgedLeaf.JudgedLeaf) o : OverlayStore B * result StoreError Judgement :=
  match r with
  | Require (JudgedLeaf.IfPresence t expect) =>
      let '(o, held) := occupied o t in
      (o, held ← held; Ok (if met_by expect held then JMet else JUnmet t expect))
  | Require (JudgedLeaf.Signed cell keys) =>
      let '(o, r) := read o cell in
      (o, value ← r; Ok (if auth_cell_admits (owner cell) value keys then JMet else JNotSignedIn (owner cell)))
  | Require _ => (o, Ok JUnanswerable)
  | CountOf count rules =>
      (fix branches (rs : list (Rule JudgedLeaf.JudgedLeaf)) (got : Z) (first_unmet : option Judgement) o :
           OverlayStore B * result StoreError Judgement :=
         match rs with
         | [] => (o, Ok (if decide (count ≤ got) then JMet else default JUnanswerable first_unmet))
         | r :: rs =>
             match judge_rule r o with
             | (o, Err e) => (o, Err e)
             | (o, Ok JMet) => branches rs (got + 1) first_unmet o
             | (o, Ok JUnanswerable) => (o, Ok JUnanswerable)
             | (o, Ok unmet) => branches rs got (match first_unmet with Some u => Some u | None => Some unmet end) o
             end
         end) rules 0 None o
  end.

Fixpoint judge_conditions (judges : Address → bool) (conditions : list Condition) o : OverlayStore B * result MaterializeError () :=
  match conditions with
  | [] => (o, Ok ())
  | condition :: conditions =>
      let owners := judged_owners (c_rule condition) in
      let inside := length (List.filter judges owners) in
      if decide (inside = 0%nat ∧ owners ≠ []) then judge_conditions judges conditions o
      else if decide (inside ≠ length owners) then (o, Err (MatErr.ConditionStraddlesScope (c_node condition)))
      else match judge_rule (c_rule condition) o with
           | (o, Err e) => (o, Err (MatErr.Store e))
           | (o, Ok JMet) => judge_conditions judges conditions o
           | (o, Ok (JUnmet t required)) => (o, Err (MatErr.ConditionUnmet t required (c_node condition)))
           | (o, Ok JUnanswerable) => (o, Err (MatErr.ConditionUnanswerable (c_node condition)))
           | (o, Ok (JNotSignedIn account)) => (o, Err (MatErr.NotSignedIn account))
           end
  end.

(** ** The session *)

(** The reservations to judge: what the folded set reserves inside the scope and
    no batch judge holds already. *)
Fixpoint reservations_of (judges : Address → bool) (tx : TxHash) (effects : list Effect) o :
    result MaterializeError (list (TxHash * SubstateKey * Z)) :=
  match effects with
  | [] => Ok []
  | e :: effects =>
      match target e, mode e with
      | Point key, MReserve amount =>
          if judges (owner key) then
            match held_reservation o key tx with
            | Some held => if decide (held = amount) then reservations_of judges tx effects o
                           else Err (MatErr.HeldMismatch key)
            | None => rest ← reservations_of judges tx effects o; Ok ((tx, key, amount) :: rest)
            end
          else reservations_of judges tx effects o
      | _, _ => reservations_of judges tx effects o
      end
  end.

Fixpoint build_table (set : EffectSet) (ordered : list DeclaredAccess) (contents : gmap Contents (option ResourceAddr)) :
    result MaterializeError (list Capability) :=
  match ordered with
  | [] => Ok []
  | access :: ordered =>
      let t := target (da_effect access) in
      let mixed := match contents !! contents_of t with Some held => bool_decide (held ≠ da_holds access) | None => false end in
      if mixed then Err (MatErr.MixedContents t) else
      c ← capability_for (da_effect access) (bool_decide (is_Some (da_holds access))) (width_of set t);
      rest ← build_table set ordered (<[contents_of t := da_holds access]> contents);
      Ok (c :: rest)
  end.

#[global] Instance verdict_ord_key : OrdKey (TxHash * SubstateKey).
Proof. refine {| ord_key p := [p.1; owner p.2; local p.2] |}. intros [? []] [? []] [=]. by subst. Defined.
Definition first_infeasible (vs : list ((TxHash * SubstateKey) * Feasibility)) : option (TxHash * SubstateKey) :=
  head (omap (λ v, if is_feasible v.2 then None else Some v.1) vs).
Definition requested_amount (reservations : list (TxHash * SubstateKey * Z)) (p : TxHash * SubstateKey) : Z :=
  match list_find (λ r, r.1 = p) reservations with Some (_, r) => r.2 | None => 0 end.

Definition opened o (declared : EffectSet) (table : list Capability) (resources : list (option ResourceAddr)) (tx : TxHash)
    (judges : Address → bool) : KernelSession B :=
  let width := Z.to_nat (Z.min (Z.of_nat (length table)) u32_max) in {|
  fixed := {| declared := declared; table := table; cell_resources := resources; tx := tx; judges := judges;
              applies := λ _, true; nullifiers := []; fee := None; credits_withheld := false |};
  store := o; scans := ∅; written := ∅; lost_floor := None; invocation := None; events := [];
  node_events := node_events_default; events_carried := 0; buckets := buckets_default; supply := supply_default;
  escrow := escrow_default; crossings := ∅; issuance := []; s_entries := Some <$> seq 0 width;
  sites := (λ i, (i, 1%nat)) <$> seq 0 width; reach := reach_default; taken := ∅ |}.

Definition materialize_within o (decl : Declaration) (tx : TxHash) (judges : Address → bool) :
    result MaterializeError (KernelSession B) :=
  let o := clear_log o in
  reservations ← reservations_of judges tx (effects_iter (dc_set decl)) o;
  table ← build_table (dc_set decl) (dc_ordered decl) ∅;
  _ ← match self_conflicting (dc_set decl) with Some key => Err (MatErr.SelfConflicting key) | None => Ok () end;
  let '(o, answered) := judge_conditions judges (dc_conditions decl) o in
  _ ← answered;
  let '(o, judged) := judge_and_hold o reservations in
  verdicts ← map_err MatErr.Store judged;
  match first_infeasible (map_iter verdicts) with
  | Some p => Err (MatErr.Infeasible p.2 (requested_amount reservations p))
  | None => Ok (opened o (dc_set decl) table (da_holds <$> dc_ordered decl) tx judges)
  end.
Definition materialize o (decl : Declaration) (tx : TxHash) : result MaterializeError (KernelSession B) :=
  materialize_within o decl tx (λ _, true).

(** [with_applies], [with_nullifiers], [with_fee] and [with_credits_withheld]. *)
Definition set_fixed (m : Materialized) (s : KernelSession B) : KernelSession B := {|
  fixed := m; store := store s; scans := scans s; written := written s; lost_floor := lost_floor s;
  invocation := invocation s; events := events s; node_events := node_events s; events_carried := events_carried s;
  buckets := buckets s; supply := supply s; escrow := escrow s; crossings := crossings s; issuance := issuance s;
  s_entries := s_entries s; sites := sites s; reach := reach s; taken := taken s |}.
Definition with_applies (f : Address → bool) (s : KernelSession B) : KernelSession B :=
  let m := fixed s in set_fixed {|
  declared := declared m; table := table m; cell_resources := cell_resources m; tx := tx m; judges := judges m;
  applies := f; nullifiers := nullifiers m; fee := fee m; credits_withheld := credits_withheld m |} s.
Definition with_nullifiers (ns : list IntentRecord) (s : KernelSession B) : KernelSession B :=
  let m := fixed s in set_fixed {|
  declared := declared m; table := table m; cell_resources := cell_resources m; tx := tx m; judges := judges m;
  applies := applies m; nullifiers := ns; fee := fee m; credits_withheld := credits_withheld m |} s.
Definition with_fee (f : option FeeBurn) (s : KernelSession B) : KernelSession B :=
  let m := fixed s in set_fixed {|
  declared := declared m; table := table m; cell_resources := cell_resources m; tx := tx m; judges := judges m;
  applies := applies m; nullifiers := nullifiers m; fee := f; credits_withheld := credits_withheld m |} s.
Definition with_credits_withheld (w : bool) (s : KernelSession B) : KernelSession B :=
  let m := fixed s in set_fixed {|
  declared := declared m; table := table m; cell_resources := cell_resources m; tx := tx m; judges := judges m;
  applies := applies m; nullifiers := nullifiers m; fee := fee m; credits_withheld := w |} s.
End judging.

(** ** What a condition's judgement says *)

(** A rule over leaves that are true or false: the plain reading of a tree of
    thresholds. *)
Fixpoint holds_under {L} (truth : L → bool) (r : Rule L) : bool :=
  match r with
  | Require l => truth l
  | CountOf n rs => bool_decide (n ≤ Z.of_nat (length (List.filter (holds_under truth) rs)))
  end.
Definition state_leaf (l : JudgedLeaf.JudgedLeaf) : bool :=
  match l with JudgedLeaf.IfPresence _ _ | JudgedLeaf.Signed _ _ => true | _ => false end.
(** Committed state can answer the rule: every leaf is a question about state and
    no threshold is past its branches. *)
Fixpoint answerable (r : Rule JudgedLeaf.JudgedLeaf) : bool :=
  match r with
  | Require l => state_leaf l
  | CountOf n rs => bool_decide (n ≤ Z.of_nat (length rs)) && forallb answerable rs
  end.

Section conditions.
Context {B : Type} `{Baseline B}.
Implicit Types (o : OverlayStore B).

Definition same_state o o' : Prop := clear_log o' = clear_log o.
#[export] Instance same_state_equiv : Equivalence same_state.
Proof. unfold same_state. split; [done|by intros ?? ->|by intros ??? -> ->]. Qed.

(** What a leaf's target holds, and whether the leaf is met. *)
Definition found o (t : EffectTarget) : result StoreError bool := (occupied o t).2.
Definition leaf_met o (l : JudgedLeaf.JudgedLeaf) : bool :=
  match l with
  | JudgedLeaf.IfPresence t expect => match found o t with Ok held => met_by expect held | Err _ => false end
  | JudgedLeaf.Signed cell keys => auth_cell_admits (owner cell) (cell_value o cell) keys
  | _ => false
  end.

Lemma occupied_quiet o t : same_state o (occupied o t).1.
Proof. destruct t; cbn; [done|done|]. by destruct (decide _). Qed.
Lemma found_log o t : found (clear_log o) t = found o t.
Proof. unfold found. destruct t; cbn; [done|done|]. by destruct (decide _). Qed.
Lemma leaf_met_log o l : leaf_met (clear_log o) l = leaf_met o l.
Proof. destruct l; try done. unfold leaf_met. by rewrite found_log. Qed.
Lemma leaf_met_state o o' l : same_state o o' → leaf_met o' l = leaf_met o l.
Proof. intros Hs. by rewrite <- leaf_met_log, Hs, leaf_met_log. Qed.
Lemma found_state o o' t : same_state o o' → found o' t = found o t.
Proof. intros Hs. by rewrite <- found_log, Hs, found_log. Qed.

Lemma holds_under_ext {L} (f g : L → bool) r : (∀ l, f l = g l) → holds_under f r = holds_under g r.
Proof.
  intros E. induction r as [l|n rs IH] using rule_tree_ind; [apply E|]. cbn. apply bool_decide_ext.
  enough (List.filter (holds_under f) rs = List.filter (holds_under g) rs) as -> by done.
  induction IH as [|r rs Hr _ IHrs]; [done|]. cbn. by rewrite Hr, IHrs.
Qed.

(** The walk over the branches of one threshold. *)
Definition judge_branches (count : Z) :=
  fix branches (rs : list (Rule JudgedLeaf.JudgedLeaf)) (got : Z) (first_unmet : option Judgement) o :
      OverlayStore B * result StoreError Judgement :=
    match rs with
    | [] => (o, Ok (if decide (count ≤ got) then JMet else default JUnanswerable first_unmet))
    | r :: rs =>
        match judge_rule r o with
        | (o, Err e) => (o, Err e)
        | (o, Ok JMet) => branches rs (got + 1) first_unmet o
        | (o, Ok JUnanswerable) => (o, Ok JUnanswerable)
        | (o, Ok unmet) => branches rs got (match first_unmet with Some u => Some u | None => Some unmet end) o
        end
    end.
Lemma judge_count n rs o : judge_rule (CountOf n rs) o = judge_branches n rs 0 None o.
Proof. done. Qed.

(** What a judgement says of the rule it was reached on: a met rule holds, an unmet
    one does not and names a leaf of it that is not met, and only a rule committed
    state cannot answer is left unanswered. *)
Definition names_unmet o (ls : list JudgedLeaf.JudgedLeaf) (j : Judgement) : Prop :=
  match j with
  | JUnmet t expect => JudgedLeaf.IfPresence t expect ∈ ls ∧ leaf_met o (JudgedLeaf.IfPresence t expect) = false
  | JNotSignedIn account => ∃ cell keys, owner cell = account ∧ JudgedLeaf.Signed cell keys ∈ ls ∧
      leaf_met o (JudgedLeaf.Signed cell keys) = false
  | _ => False
  end.
Definition judges_right o (r : Rule JudgedLeaf.JudgedLeaf) (j : Judgement) : Prop :=
  match j with
  | JUnanswerable => answerable r = false
  | JMet => holds_under (leaf_met o) r = true ∧ Forall (λ l, state_leaf l = true) (leaves r)
  | _ => holds_under (leaf_met o) r = false ∧ Forall (λ l, state_leaf l = true) (leaves r) ∧ names_unmet o (leaves r) j
  end.

Lemma names_unmet_mono o ls ls' j : ls ⊆ ls' → names_unmet o ls j → names_unmet o ls' j.
Proof. intros Hs. destruct j; cbn; try done; [naive_solver|]. intros (c & k & ? & ? & ?). exists c, k. auto. Qed.
Lemma names_unmet_state o o' ls j : same_state o o' → names_unmet o' ls j → names_unmet o ls j.
Proof.
  intros Hs. unfold names_unmet. destruct j; try done; [by rewrite (leaf_met_state o o')|].
  intros (c & k & ? & ? & E). exists c, k. by rewrite (leaf_met_state o o') in E.
Qed.
Lemma judges_right_state o o' r j : same_state o o' → judges_right o' r j → judges_right o r j.
Proof.
  intros Hs. pose proof (holds_under_ext _ _ r (λ l, leaf_met_state o o' l Hs)) as Eh.
  unfold judges_right. destruct j; rewrite ?Eh; try done; intros (? & ? & ?%(names_unmet_state o o')); auto.
Qed.

Definition right_at (r : Rule JudgedLeaf.JudgedLeaf) : Prop :=
  ∀ o o' j, judge_rule r o = (o', Ok j) → same_state o o' ∧ judges_right o r j.

(** The walk so far: [got] branches met, and the first one not. *)
Lemma judge_branches_right n rs got first o o' j :
  Forall right_at rs → judge_branches n rs got first o = (o', Ok j) →
  (∀ u, first = Some u → match u with JMet | JUnanswerable => False | _ => True end) →
  let count := got + Z.of_nat (length (List.filter (holds_under (leaf_met o)) rs)) in
  same_state o o' ∧
  match j with
  | JUnanswerable => forallb answerable rs = false ∨ first = None ∧ got + Z.of_nat (length rs) < n
  | JMet => n ≤ count ∧ Forall (λ l, state_leaf l = true) (rs ≫= leaves)
  | _ => count < n ∧ Forall (λ l, state_leaf l = true) (rs ≫= leaves) ∧ (first = Some j ∨ names_unmet o (rs ≫= leaves) j)
  end.
Proof.
  intros Hall. revert got first o. induction Hall as [|r rs Hr Hrs IH]; intros got first o.
  { cbn. intros [= <- <-] Hf. split; [done|]. rewrite Z.add_0_r. destruct (decide (n ≤ got)); [by split|].
    destruct first as [u|]; cbn; [|right; split; [done|lia]].
    specialize (Hf u eq_refl). destruct u; try done; (split; [lia|split; [done|by left]]). }
  cbn [judge_branches]. destruct (judge_rule r o) as [o1 [j1|e]] eqn:Ej; [|done]. destruct (Hr _ _ _ Ej) as [Hs1 Hj1].
  intros E Hf. cbn [mbind list_bind List.filter forallb].
  assert (Hcount : List.filter (holds_under (leaf_met o1)) rs = List.filter (holds_under (leaf_met o)) rs).
  { apply filter_ext. intros x. apply holds_under_ext. intros l. by apply leaf_met_state. }
  assert (Hstep : ∀ first', (∀ u, first' = Some u → match u with JMet | JUnanswerable => False | _ => True end) →
            (first' = Some j → first = Some j ∨ names_unmet o (leaves r) j) → (first' = None → first = None ∧ holds_under (leaf_met o) r = true) →
            let got' := if holds_under (leaf_met o) r then got + 1 else got in
            judge_branches n rs got' first' o1 = (o', Ok j) → Forall (λ l, state_leaf l = true) (leaves r) →
            same_state o o' ∧
            match j with
            | JUnanswerable => answerable r && forallb answerable rs = false ∨ first = None ∧ got + Z.of_nat (length (r :: rs)) < n
            | JMet => n ≤ got' + Z.of_nat (length (List.filter (holds_under (leaf_met o)) rs)) ∧
                Forall (λ l, state_leaf l = true) (leaves r ++ (rs ≫= leaves))
            | _ => got' + Z.of_nat (length (List.filter (holds_under (leaf_met o)) rs)) < n ∧
                Forall (λ l, state_leaf l = true) (leaves r ++ (rs ≫= leaves)) ∧
                (first = Some j ∨ names_unmet o (leaves r ++ (rs ≫= leaves)) j)
            end).
  { intros first' Hf' Hnamed Hnone got' E' Hst. destruct (IH _ _ _ E' Hf') as [Hs2 Hj]. rewrite Hcount in Hj.
    split; [by transitivity o1|].
    assert (Hout : first' = Some j ∨ names_unmet o1 (rs ≫= leaves) j →
              first = Some j ∨ names_unmet o (leaves r ++ (rs ≫= leaves)) j).
    { intros [Hj1'|Hj1']; [destruct (Hnamed Hj1') as [|Hr']; [by left|right]|right].
      - revert Hr'. apply names_unmet_mono. set_solver.
      - revert Hj1'. intros Hn%(names_unmet_state o o1); [|done]. revert Hn. apply names_unmet_mono. set_solver. }
    destruct j; rewrite ?Forall_app; [by destruct Hj|by destruct Hj as (? & ? & ?); auto| |by destruct Hj as (? & ? & ?); auto].
    destruct Hj as [Hj|[Hj Hlt]]; [left; by rewrite Hj, andb_false_r|right].
    destruct (Hnone Hj) as [? Hh]. split; [done|]. subst got'. rewrite Hh in Hlt. cbn [length]. lia. }
  cbn [judges_right] in Hj1. destruct j1; cbn in Hj1, E.
  - destruct Hj1 as [Hh Hst]. rewrite Hh in Hstep |- *. cbn [length]. replace (got + Z.of_nat (S _)) with (got + 1 + Z.of_nat (length (List.filter (holds_under (leaf_met o)) rs))) by lia.
    apply (Hstep first); auto.
  - destruct Hj1 as (Hh & Hst & Hn). rewrite Hh in Hstep |- *.
    refine (Hstep _ _ _ _ E Hst); destruct first; naive_solver.
  - injection E as <- <-. split; [done|]. left. by rewrite Hj1.
  - destruct Hj1 as (Hh & Hst & Hn). rewrite Hh in Hstep |- *.
    refine (Hstep _ _ _ _ E Hst); destruct first; naive_solver.
Qed.

Lemma leaves_count {L} n (rs : list (Rule L)) : leaves (CountOf n rs) = rs ≫= leaves.
Proof.
  rewrite leaves_preorder. cbn. induction rs as [|r rs IH]; [done|]. cbn. by rewrite leaves_preorder, IH.
Qed.
Lemma judge_rule_right r : right_at r.
Proof.
  induction r as [l|n rs IH] using rule_tree_ind; intros o o' j.
  - cbn. destruct l as [c|s|t expect|cell keys]; try (by intros [= <- <-]).
    + pose proof (occupied_quiet o t) as Hq. destruct (occupied o t) as [o1 held] eqn:Eo. intros [= <- E].
      split; [exact Hq|]. assert (Ef : found o t = held) by (unfold found; by rewrite Eo).
      destruct held as [held|e]; [|done]. injection E as <-. destruct (met_by expect held) eqn:Em; cbn; rewrite Ef, Em.
      * split; [done|by repeat constructor].
      * split; [done|]. split; [by repeat constructor|]. split; [apply list_elem_of_here|done].
    + intros [= <- <-]. split; [done|]. destruct (auth_cell_admits _ _ _) eqn:Ea; cbn; rewrite Ea.
      * split; [done|by repeat constructor].
      * split; [done|]. split; [by repeat constructor|]. exists cell, keys. split; [done|]. split; [apply list_elem_of_here|done].
  - rewrite judge_count. intros E. apply judge_branches_right in E as [Hs Hj]; [|done..]. split; [done|].
    unfold judges_right. rewrite leaves_count. cbn [holds_under answerable]. destruct j.
    + destruct Hj as [Hn Hst]. split; [|done]. by apply bool_decide_eq_true.
    + destruct Hj as (Hn & Hst & [|]); [done|]. split; [apply bool_decide_eq_false; lia|done].
    + destruct Hj as [->|[_ Hlt]]; [apply andb_false_r|]. rewrite bool_decide_eq_false_2 by lia. done.
    + destruct Hj as (Hn & Hst & [|]); [done|]. split; [apply bool_decide_eq_false; lia|done].
Qed.

(** The one fault a judgement has is a leaf's own: a queue on the cell it asks
    about that no amount takes. *)
Lemma judge_rule_faults r o o' e :
  judge_rule r o = (o', Err e) → same_state o o' ∧ ∃ t expect, JudgedLeaf.IfPresence t expect ∈ leaves r ∧ found o t = Err e.
Proof.
  revert o o'. induction r as [l|n rs IH] using rule_tree_ind; intros o o'.
  - cbn. destruct l as [c|s|t expect|cell keys]; try done. pose proof (occupied_quiet o t) as Hq.
    destruct (occupied o t) as [o1 held] eqn:Eo. intros [= <- E]. split; [exact Hq|]. exists t, expect.
    split; [apply list_elem_of_here|]. unfold found. rewrite Eo. cbn. destruct held; [done|]. by injection E as <-.
  - rewrite judge_count, leaves_count. generalize 0, (@None Judgement). intros got first. revert got first o.
    induction IH as [|r rs Hr _ IHrs]; intros got first o; [done|]. cbn [judge_branches].
    assert (Hgo : ∀ got first o1, same_state o o1 → judge_branches n rs got first o1 = (o', Err e) →
      same_state o o' ∧ ∃ t expect, JudgedLeaf.IfPresence t expect ∈ (r :: rs) ≫= leaves ∧ found o t = Err e).
    { intros g f o1 Hs E. destruct (IHrs _ _ _ E) as [Hs' (t & x & Hin & Hf)]. split; [by transitivity o1|].
      exists t, x. rewrite <- (found_state o o1) by done. split; [|done]. cbn. apply elem_of_app. by right. }
    destruct (judge_rule r o) as [o1 [j|e']] eqn:Ej.
    + destruct (judge_rule_right r _ _ _ Ej) as [Hs _]. destruct j; eauto. done.
    + intros [= -> ->]. destruct (Hr _ _ Ej) as [Hs (t & x & Hin & Hf)]. split; [done|]. exists t, x. split; [|done].
      cbn. apply elem_of_app. by left.
Qed.

(** What a target is found to hold, in the state the store presents. *)
Definition stands (a : AbstractStore) (t : EffectTarget) : result StoreError bool :=
  match t with
  | Point key =>
      match a_queued a !! key with
      | None => Ok (bool_decide (is_Some (a_cell a key)))
      | Some _ =>
          standing ← match a_cell a key with Some (x :: b) => map_err StoreMode (decode_amount (x :: b)) | _ => Ok 0 end;
          after ← with_queued a key standing; Ok (bool_decide (0 < after))
      end
  | Entry ow c order => Ok (bool_decide (is_Some (a_entries a ow c !! order)))
  | Range ow c lo hi cap =>
      Ok (bool_decide (cap ≠ 0) && bool_decide (range_list lo hi (a_entries a ow c) ≠ []))
  end.
Lemma first_found {A} (l : list A) : takeZ 1 l ≠ [] ↔ l ≠ [].
Proof. rewrite takeZ_take by lia. by destruct l. Qed.
Lemma range_single {A} k (m : gmap Z A) : range_list k k m ≠ [] ↔ is_Some (m !! k).
Proof.
  split.
  - destruct (range_list k k m) as [|[x v] l] eqn:E; [done|]. intros _. exists v.
    assert ((x, v) ∈ range_list k k m) as [Hx Hm]%elem_of_range_list by (rewrite E; apply list_elem_of_here).
    by replace k with x by lia.
  - intros [v Hv] E. assert ((k, v) ∈ range_list k k m) as Hin by (apply elem_of_range_list; split; [lia|done]).
    rewrite E in Hin. by apply not_elem_of_nil in Hin.
Qed.
Lemma found_spec o a t : agree o a → found o t = stands a t.
Proof.
  intros Ha. unfold found, stands. destruct t as [key|ow c order|ow c lo hi cap].
  - pose proof (agree_queued _ _ Ha) as Eq. pose proof (agree_cell _ _ Ha key) as Ec.
    change (queued a) with (a_queued a) in Eq. cbn in Ec. cbv beta iota zeta delta [occupied read snd].
    change (queued (record o (Point key) KRead)) with (queued o). rewrite Ec, Eq. cbn [mbind result_bind].
    destruct (a_queued a !! key); [|done]. pose proof (λ z, sim_with_queued o a key z Ha) as Hw.
    change (∀ z, with_queued (record o (Point key) KRead) key z = with_queued a key z) in Hw.
    destruct (a_cell a key) as [[|x b]|]; [exact (f_equal (λ r, after ← r; Ok (bool_decide (0 < after))) (Hw 0))| |
      exact (f_equal (λ r, after ← r; Ok (bool_decide (0 < after))) (Hw 0))].
    destruct (map_err _ _) as [z|]; [|done]. exact (f_equal (λ r, after ← r; Ok (bool_decide (0 < after))) (Hw z)).
  - cbn. f_equal. pose proof (agree_entries _ _ Ha ow c order order 1) as E. cbn in E. rewrite E by (unfold width_max; lia).
    apply bool_decide_ext. by rewrite first_found, range_single.
  - cbn. destruct (decide (cap = 0)) as [->|Hc]; [by rewrite bool_decide_eq_false_2 by tauto|]. cbn. f_equal. rewrite (bool_decide_eq_true_2 (cap ≠ 0)) by done. cbn.
    pose proof (agree_entries _ _ Ha ow c lo hi 1) as E. cbn in E. rewrite E by (unfold width_max; lia).
    apply bool_decide_ext, first_found.
Qed.

(** Where a condition is judged: at no member that holds none of its leaves, and
    at one that holds them all. *)
Definition skipped (judges : Address → bool) (c : Condition) : Prop :=
  judged_owners (c_rule c) ≠ [] ∧ Forall (λ w, judges w = false) (judged_owners (c_rule c)).
Definition in_scope (judges : Address → bool) (c : Condition) : Prop :=
  Forall (λ w, judges w = true) (judged_owners (c_rule c)).

Lemma filter_all_or_none {A} (f : A → bool) l :
  (length (List.filter f l) = 0%nat ↔ Forall (λ x, f x = false) l) ∧
  (length (List.filter f l) = length l ↔ Forall (λ x, f x = true) l).
Proof.
  induction l as [|x l [IH0 IH1]]; [by split; split|]. cbn. rewrite !Forall_cons, <- IH0, <- IH1.
  pose proof (List.filter_length_le f l). destruct (f x); cbn; naive_solver lia.
Qed.

(** What judging a declaration's conditions answers. *)
Definition conditions_say o (judges : Address → bool) (cs : list Condition) (x : result MaterializeError ()) : Prop :=
  let stopped node (why : Condition → Prop) := ∃ c, c ∈ cs ∧ c_node c = node ∧ why c in
  let unmet j c := in_scope judges c ∧ judges_right o (c_rule c) j in
  match x with
  | Ok _ => Forall (λ c, skipped judges c ∨ in_scope judges c ∧ judges_right o (c_rule c) JMet) cs
  | Err (MatErr.ConditionUnmet t required node) => stopped node (unmet (JUnmet t required))
  | Err (MatErr.NotSignedIn account) => ∃ node, stopped node (unmet (JNotSignedIn account))
  | Err (MatErr.ConditionUnanswerable node) => stopped node (unmet JUnanswerable)
  | Err (MatErr.ConditionStraddlesScope node) => stopped node (λ c, ¬ skipped judges c ∧ ¬ in_scope judges c)
  | Err (MatErr.Store e) => ∃ node, stopped node (λ c, in_scope judges c ∧
      ∃ t expect, JudgedLeaf.IfPresence t expect ∈ leaves (c_rule c) ∧ found o t = Err e)
  | Err _ => False
  end.

Lemma conditions_say_later o judges c cs x :
  (skipped judges c ∨ in_scope judges c ∧ judges_right o (c_rule c) JMet) →
  conditions_say o judges cs x → conditions_say o judges (c :: cs) x.
Proof.
  intros Hc. assert (Hlater : ∀ node (why : Condition → Prop), (∃ c, c ∈ cs ∧ c_node c = node ∧ why c) →
    ∃ c', c' ∈ c :: cs ∧ c_node c' = node ∧ why c').
  { intros node why (c' & Hin & Hw). exists c'. split; [by apply list_elem_of_further|done]. }
  destruct x as [[]|[]]; cbn; try done; [by rewrite Forall_cons|auto..|]; intros [n Hs]; exists n; auto.
Qed.
Lemma conditions_say_state o o' judges cs x :
  same_state o o' → conditions_say o' judges cs x → conditions_say o judges cs x.
Proof.
  intros Hs. assert (Hgo : ∀ node j, (∃ c, c ∈ cs ∧ c_node c = node ∧ in_scope judges c ∧ judges_right o' (c_rule c) j) →
    ∃ c, c ∈ cs ∧ c_node c = node ∧ in_scope judges c ∧ judges_right o (c_rule c) j).
  { intros node j (c & ? & ? & ? & ?). exists c. eauto using judges_right_state. }
  destruct x as [[]|[]]; cbn -[judges_right]; try done; auto.
  - intros Hc. refine (Forall_impl _ _ _ Hc _). intros c [|[? ?]]; [by left|right]. eauto using judges_right_state.
  - intros [node Hn]. exists node. auto.
  - intros (node & c & ? & ? & ? & t & x & ? & Hf). exists node, c. rewrite (found_state o o') in Hf by done. naive_solver.
Qed.

Lemma judge_conditions_right o judges cs o' x :
  judge_conditions judges cs o = (o', x) → same_state o o' ∧ conditions_say o judges cs x.
Proof.
  revert o. induction cs as [|c cs IH]; intros o; [intros [= <- <-]; split; [done|constructor]|]. cbn [judge_conditions].
  pose proof (filter_all_or_none judges (judged_owners (c_rule c))) as [Hnone Hall].
  destruct (decide _) as [[Hno Hne]|Hsk].
  { intros [Hs Hx]%IH. split; [done|]. apply conditions_say_later; [|done]. left. split; [done|]. by apply Hnone. }
  destruct (decide _) as [Hst|Hin].
  { intros [= <- <-]. split; [done|]. exists c. split; [apply list_elem_of_here|]. split; [done|].
    unfold skipped, in_scope. rewrite <- Hnone, <- Hall. tauto. }
  assert (Hscope : in_scope judges c) by (apply Hall; lia).
  destruct (judge_rule (c_rule c) o) as [o1 [j|e]] eqn:Ej.
  - destruct (judge_rule_right _ _ _ _ Ej) as [Hs Hj].
    assert (Hstop : ∀ node, c_node c = node → ∃ c', c' ∈ c :: cs ∧ c_node c' = node ∧ in_scope judges c' ∧ judges_right o (c_rule c') j).
    { intros node Hn. exists c. split; [apply list_elem_of_here|done]. }
    destruct j; [|intros [= <- <-]; split; [done|]; cbn; eauto..].
    intros [Hs' Hx]%IH. split; [by transitivity o1|]. apply conditions_say_later; [by right|].
    by apply (conditions_say_state o o1).
  - intros [= <- <-]. destruct (judge_rule_faults _ _ _ _ Ej) as [Hs Hf]. split; [done|]. exists (c_node c), c.
    split; [apply list_elem_of_here|done].
Qed.

(** Judging conditions: the store is only read; a declaration passes exactly when every condition either lies
    wholly with other members or lies wholly here and holds, threshold by threshold, in the state the store presents;
    a refusal names the node that asked and a leaf of its rule that is not met (or the account whose rule refused
    the keys), a condition is unanswerable only if some leaf is not about state or some threshold exceeds its
    branches, and one that straddles the scope is refused unjudged. *)
Theorem conditions_judged o judges cs :
  let '(o', x) := judge_conditions judges cs o in
  same_state o o' ∧ conditions_say o judges cs x ∧ ∀ a t, agree o a → found o t = stands a t.
Proof.
  destruct (judge_conditions judges cs o) as [o' x] eqn:E. destruct (judge_conditions_right _ _ _ _ _ E). auto using found_spec.
Qed.
End conditions.

(** ** Building a declaration *)

(** The empty declaration and the step every evaluator and the admission fold
    take: an access folded into the set at its width and appended to the clause
    order. *)
Definition declaration_default : Declaration := {| dc_set := effects_new; dc_ordered := []; dc_conditions := [] |}.
Definition push_access (d : Declaration) (access : DeclaredAccess) (w : Z) : result EffectConflict Declaration :=
  match insert_bounded (dc_set d) (da_effect access) w with
  | (s, Ok _) => Ok {| dc_set := s; dc_ordered := dc_ordered d ++ [access]; dc_conditions := dc_conditions d |}
  | (_, Err e) => Err e
  end.
Definition push_frame_access (d frame : Declaration) (access : DeclaredAccess) : result EffectConflict Declaration :=
  push_access d access (width_of (dc_set frame) (target (da_effect access))).
Definition push_condition (d : Declaration) (c : Condition) : Declaration :=
  {| dc_set := dc_set d; dc_ordered := dc_ordered d; dc_conditions := dc_conditions d ++ [c] |}.

(** The declarations those steps reach, reserve amounts being [u128]s. *)
Inductive assembled : Declaration → Prop :=
  | assembled_empty : assembled declaration_default
  | assembled_access d access w d' :
      assembled d → clause_ok (da_effect access, w) → push_access d access w = Ok d' → assembled d'
  | assembled_condition d c : assembled d → assembled (push_condition d c).

(** One folded clause per access, in order. *)
Lemma assembled_folds d :
  assembled d → ∃ cs, cs.*1 = da_effect <$> dc_ordered d ∧ Forall clause_ok cs ∧ folds (dc_set d) cs.
Proof.
  induction 1 as [|d access w d' Hd (cs & E & Hok & Hf) Hc Hp|d c Hd IH].
  - exists []. split; [done|]. split; [constructor|]. intros t. done.
  - exists (cs ++ [(da_effect access, w)]). unfold push_access in Hp.
    pose proof (insert_bounded_folds (dc_set d) cs (da_effect access, w) Hf) as Hi. cbn [fst snd] in Hi.
    destruct (insert_bounded _ _ _) as [s [b|e]]; [|done]. injection Hp as <-. cbn [dc_set dc_ordered].
    rewrite !fmap_app, E. split; [done|]. split; [|by apply Hi]. apply Forall_app. split; [done|by repeat constructor].
  - exact IH.
Qed.

(** ** What the table holds *)

Definition cap_contents (c : Capability) : Contents :=
  match c with
  | Cap.Read key | Cap.Write key | Cap.Amount key _ | Cap.AmountRead key | Cap.Delta key _ | Cap.Reserve key _ => ContentsLeaf key
  | Cap.RangeRead i | Cap.RangeWrite i | Cap.Instances i _ => ContentsEntries (iv_owner i) (iv_collection i)
  end.
(** What a capability says of the denomination of its cell. *)
Definition cap_denominated (c : Capability) : option bool :=
  match c with
  | Cap.Amount _ _ | Cap.AmountRead _ | Cap.Delta _ _ | Cap.Reserve _ _ | Cap.Instances _ _ => Some true
  | Cap.Read _ | Cap.Write _ | Cap.RangeWrite _ => Some false
  | Cap.RangeRead _ => None
  end.
Lemma capability_for_spec e d w c :
  capability_for e d w = Ok c →
  cap_contents c = contents_of (target e) ∧ (∀ b, cap_denominated c = Some b → d = b) ∧
  (∀ key amt, c = Cap.Reserve key amt ↔ e = {| target := Point key; mode := MReserve amt |}).
Proof.
  destruct e as [t m]. unfold capability_for. cbn [target mode].
  destruct t, m, d; cbn; intros [= <-]; (split; [done|split; [naive_solver|]]); intros; split; try done; by intros [= -> ->].
Qed.

Definition holds_bool (a : DeclaredAccess) : bool := bool_decide (is_Some (da_holds a)).
Lemma build_table_spec set l contents tb :
  build_table set l contents = Ok tb →
  Forall2 (λ a c, capability_for (da_effect a) (holds_bool a) (width_of set (target (da_effect a))) = Ok c) l tb ∧
  (∀ a h, a ∈ l → contents !! contents_of (target (da_effect a)) = Some h → da_holds a = h) ∧
  (∀ a b, a ∈ l → b ∈ l → contents_of (target (da_effect a)) = contents_of (target (da_effect b)) → da_holds a = da_holds b).
Proof.
  revert contents tb. induction l as [|x l IH]; intros contents tb.
  { intros [= <-]. split; [constructor|]. split; [by intros ?? ?%not_elem_of_nil|by intros ?? ?%not_elem_of_nil]. }
  cbn [build_table]. set (t := contents_of _).
  set (mixed := match contents !! t with Some held => bool_decide (held ≠ da_holds x) | None => false end).
  destruct mixed eqn:Em; [done|]. subst mixed.
  destruct (capability_for _ _ _) as [c|e] eqn:Ec; [|done]. cbn [mbind result_bind].
  destruct (build_table set l _) as [rest|e] eqn:Eb; [|done]. intros [= <-].
  destruct (IH _ _ Eb) as (H1 & H2 & H3).
  assert (Hx : ∀ a, a ∈ l → contents_of (target (da_effect a)) = t → da_holds a = da_holds x).
  { intros a Ha Ht. apply H2; [done|]. by rewrite Ht, lookup_insert_eq. }
  assert (Hc : ∀ h, contents !! t = Some h → da_holds x = h).
  { intros h Hh. rewrite Hh in Em. apply bool_decide_eq_false in Em. by apply dec_stable in Em as ->. }
  split; [by constructor|]. split.
  - intros a h [->|Ha]%elem_of_cons Hh; [by apply Hc|].
    destruct (decide (contents_of (target (da_effect a)) = t)) as [E|Hne].
    + rewrite (Hx a Ha E). apply Hc. by rewrite <- E.
    + apply H2; [done|]. by rewrite lookup_insert_ne.
  - intros a b [->|Ha]%elem_of_cons [->|Hb]%elem_of_cons E; [done|symmetry; by apply Hx|by apply Hx|by apply H3].
Qed.

(** The first clause denominating a cell, or a collection, is the one the fold
    keeps. *)
Definition cell_at (m : Materialized) (key : SubstateKey) (p : Rep * Capability) : option ResourceAddr :=
  if decide (value_key p.2 = Some key) then materialized_resource m p.1 else None.
Definition entries_at (m : Materialized) (q : Address * CollectionId) (p : Rep * Capability) : option ResourceAddr :=
  match p.2 with
  | Cap.Instances i _ => if decide ((iv_owner i, iv_collection i) = q) then materialized_resource m p.1 else None
  | _ => None
  end.
Definition or_else {A} (x y : option A) : option A := match x with Some _ => x | None => y end.
Lemma lookup_or_insert {K V} `{Countable K} (m : gmap K V) k v k' :
  or_insert m k v !! k' = or_else (m !! k') (if decide (k = k') then Some v else None).
Proof.
  unfold or_insert, or_else. destruct (m !! k) as [w|] eqn:E.
  - destruct (m !! k') eqn:E'; [done|]. rewrite decide_False; [done|congruence].
  - destruct (decide (k = k')) as [<-|]; [by rewrite lookup_insert_eq, E|]. rewrite lookup_insert_ne by done. by destruct (m !! k').
Qed.
Lemma denominate_spec m out p key q :
  Z.of_nat p.1 ≤ u32_max →
  d_cells (denominate m out p) !! key = or_else (d_cells out !! key) (cell_at m key p) ∧
  d_entries (denominate m out p) !! q = or_else (d_entries out !! q) (entries_at m q p).
Proof.
  destruct p as [rep c]. cbn [fst]. intros Hr. unfold denominate, cell_at, entries_at. cbn [fst snd].
  rewrite (decide_True (P := _ ≤ _)) by done.
  assert (Hn : ∀ {A} (x : option A), or_else x None = x) by (by intros A []).
  destruct (materialized_resource m rep) as [r|]; cbn [d_cells d_entries];
    destruct c; cbn [value_key d_cells d_entries]; rewrite ?lookup_or_insert, ?Hn;
    split; try done; repeat case_decide; try done; congruence.
Qed.
Lemma denominations_spec m key q :
  table_fits m →
  d_cells (denominations m) !! key = head (omap (cell_at m key) (imap pair (table m))) ∧
  d_entries (denominations m) !! q = head (omap (entries_at m q) (imap pair (table m))).
Proof.
  intros Hfit. unfold denominations.
  assert (Hl : ∀ l out, Forall (λ p : Rep * Capability, Z.of_nat p.1 ≤ u32_max) l →
    d_cells (foldl (denominate m) out l) !! key = or_else (d_cells out !! key) (head (omap (cell_at m key) l)) ∧
    d_entries (foldl (denominate m) out l) !! q = or_else (d_entries out !! q) (head (omap (entries_at m q) l))).
  { induction l as [|p l IH]; intros out Hp; [cbn; by destruct (d_cells out !! key), (d_entries out !! q)|].
    apply Forall_cons in Hp as [Hp Hl]. cbn [foldl]. destruct (IH (denominate m out p) Hl) as [-> ->].
    destruct (denominate_spec m out p key q Hp) as [-> ->]. cbn [omap list_omap].
    split.
    - destruct (d_cells out !! key), (cell_at m key p); done.
    - destruct (d_entries out !! q), (entries_at m q p); done. }
  apply Hl. apply Forall_forall. intros [i c] (j & c' & [= -> ->] & Hj)%elem_of_lookup_imap. cbn.
  apply lookup_lt_Some in Hj. unfold table_fits in Hfit. lia.
Qed.

(** What materialization fixes: the table and the resources of the same clauses. *)
Record table_of (d : Declaration) (m : Materialized) : Prop := {
  to_built : build_table (dc_set d) (dc_ordered d) ∅ = Ok (table m);
  to_resources : cell_resources m = da_holds <$> dc_ordered d;
}.

Section tables.
Context (d : Declaration) (m : Materialized) (Hm : table_of d m) (Hfit : table_fits m).

Lemma table_access rep c :
  table m !! rep = Some c → ∃ a, dc_ordered d !! rep = Some a ∧ a ∈ dc_ordered d ∧ materialized_resource m rep = da_holds a ∧
    capability_for (da_effect a) (holds_bool a) (width_of (dc_set d) (target (da_effect a))) = Ok c.
Proof.
  intros Hc. destruct (build_table_spec _ _ _ _ (to_built _ _ Hm)) as [H1 _].
  destruct (Forall2_lookup_r _ _ _ _ _ H1 Hc) as (a & Ha & Hcap). exists a. split; [done|].
  split; [by apply list_elem_of_lookup_2 in Ha|]. split; [|done]. unfold materialized_resource. rewrite (to_resources _ _ Hm).
  by rewrite list_lookup_fmap, Ha.
Qed.
(** Two clauses on one leaf or collection, agreeing on what it holds. *)
Lemma table_agrees rep c rep' c' :
  table m !! rep = Some c → table m !! rep' = Some c' → cap_contents c = cap_contents c' →
  materialized_resource m rep = materialized_resource m rep'.
Proof.
  intros (a & _ & Ha & -> & Hc)%table_access (b & _ & Hb & -> & Hc')%table_access E.
  destruct (build_table_spec _ _ _ _ (to_built _ _ Hm)) as (_ & _ & H3).
  apply capability_for_spec in Hc as [Ec _], Hc' as [Ec' _]. apply H3; congruence.
Qed.
Lemma value_contents c key : value_key c = Some key → cap_contents c = ContentsLeaf key.
Proof. by destruct c; intros [= ->]. Qed.

Lemma first_clause {A} (f : Rep * Capability → option A) rep c x :
  table m !! rep = Some c → f (rep, c) = Some x →
  ∃ rep' c' x', table m !! rep' = Some c' ∧ f (rep', c') = Some x' ∧ head (omap f (imap pair (table m))) = Some x'.
Proof.
  intros Hc Hf. assert (Hin : (rep, c) ∈ imap pair (table m)) by (apply elem_of_lookup_imap; by eexists _, _).
  destruct (head (omap f (imap pair (table m)))) as [x'|] eqn:Eh.
  - apply head_omap_Some in Eh as Eh'. destruct Eh' as ([i c'] & Hi & Hx).
    apply elem_of_lookup_imap in Hi as (j & c'' & [= -> ->] & Hj). by exists j, c'', x'.
  - apply (head_omap_None _ _ Eh) in Hin. congruence.
Qed.

Lemma table_contents_agree (Hok : reserves_ok m) : contents_agree m.
Proof.
  split; [| | |exact Hok].
  - intros rep c key r Hc Hk Hr. rewrite (proj1 (denominations_spec m key (0, 0) Hfit)).
    destruct (first_clause (cell_at m key) rep c r Hc) as (rep' & c' & r' & Hc' & Hf & ->).
    { unfold cell_at. cbn. by rewrite decide_True. }
    unfold cell_at in Hf. cbn in Hf. destruct (decide _) as [Hk'|]; [|done].
    rewrite <- Hf, <- Hr. apply (table_agrees rep' c' rep c); [done..|]. by rewrite (value_contents _ _ Hk), (value_contents _ _ Hk').
  - intros rep i mv r Hc Hr. rewrite (proj2 (denominations_spec m {| owner := 0; local := 0 |} _ Hfit)).
    destruct (first_clause (entries_at m (iv_owner i, iv_collection i)) rep _ r Hc) as (rep' & c' & r' & Hc' & Hf & ->).
    { unfold entries_at. cbn. by rewrite decide_True. }
    unfold entries_at in Hf. cbn in Hf. destruct c' as [| | | | | | | |i' mv']; try done. destruct (decide _) as [[= E1 E2]|]; [|done].
    rewrite <- Hf, <- Hr. apply (table_agrees _ _ _ _ Hc' Hc). cbn. by rewrite E1, E2.
  - intros rep i Hc. rewrite (proj2 (denominations_spec m {| owner := 0; local := 0 |} _ Hfit)).
    destruct (head _) as [r|] eqn:Eh; [|done]. apply head_omap_Some in Eh as ([rep' c'] & Hi & Hf).
    apply elem_of_lookup_imap in Hi as (j & c'' & [= -> ->] & Hj).
    unfold entries_at in Hf. cbn in Hf. destruct c'' as [| | | | | | | |i' mv']; try done. destruct (decide _) as [[= E1 E2]|]; [|done].
    destruct (table_access _ _ Hc) as (a & _ & _ & Ea & Hcap). apply capability_for_spec in Hcap as (_ & Hd & _).
    specialize (Hd false eq_refl). unfold holds_bool in Hd. apply bool_decide_eq_false in Hd.
    assert (Hsame : materialized_resource m rep = materialized_resource m j).
    { apply (table_agrees _ _ _ _ Hc Hj). cbn. by rewrite E1, E2. }
    destruct Hd. rewrite <- Ea, Hsame, Hf. done.
Qed.

(** What the table reserves on a cell is what the set holds reserved there. *)
Definition reserve_on (key : SubstateKey) (e : Effect) : option Z :=
  if decide (target e = Point key) then Effects.reserve_amount (mode e) else None.
Lemma reserves_on cs key : Effects.reserves (clauses_on (Point key) cs) = omap (reserve_on key) cs.*1.
Proof.
  unfold Effects.reserves, clauses_on. induction cs as [|[e w] cs IH]; [done|]. rewrite filter_cons. cbn.
  unfold reserve_on at 1. destruct (decide _); cbn; [destruct (Effects.reserve_amount _)|]; by rewrite IH.
Qed.
Lemma reserve_on_cap key e b w c : capability_for e b w = Ok c → snd <$> Closing.reserves key (0%nat, c) = reserve_on key e.
Proof.
  intros (_ & _ & Hres)%capability_for_spec. unfold reserve_on.
  assert (Hno : (∀ k x, c ≠ Cap.Reserve k x) → (if decide (target e = Point key) then Effects.reserve_amount (mode e) else None) = None).
  { intros Hc. destruct e as [t md]. cbn. destruct (decide _) as [->|]; [|done]. destruct md as [|mv|x|mv]; try done.
    destruct (Hc key x). by apply Hres. }
  destruct c as [| | | | |k x| | |]; try (rewrite Hno; done). pose proof (proj1 (Hres k x) eq_refl) as ->. cbn.
  unfold Closing.reserves. cbn. destruct (decide (k = key)) as [->|Hne]; [by rewrite decide_True|]. by rewrite decide_False by congruence.
Qed.
Lemma clauses_table key : snd <$> Closing.clauses m key = omap (λ c, snd <$> Closing.reserves key (0%nat, c)) (table m).
Proof.
  unfold Closing.clauses. generalize (table m). intros l.
  enough (Hg : ∀ f : nat → nat, snd <$> omap (Closing.reserves key) (imap (λ i c, (f i, c)) l)
    = omap (λ c, snd <$> Closing.reserves key (0%nat, c)) l) by exact (Hg (λ i, i)).
  induction l as [|c l IH]; intros f; [done|]. cbn [imap omap list_omap]. rewrite <- (IH (f ∘ S)).
  assert (E : snd <$> Closing.reserves key (f 0%nat, c) = snd <$> Closing.reserves key (0%nat, c))
    by (destruct c; try done; unfold Closing.reserves; cbn; by destruct (decide _)).
  rewrite <- E. by destruct (Closing.reserves key (f 0%nat, c)).
Qed.
Lemma table_reserves cs key :
  cs.*1 = da_effect <$> dc_ordered d → snd <$> Closing.clauses m key = Effects.reserves (clauses_on (Point key) cs).
Proof.
  intros E. rewrite clauses_table, reserves_on, E.
  destruct (build_table_spec _ _ _ _ (to_built _ _ Hm)) as [H1 _]. clear E.
  induction H1 as [|a c l tb Hc _ IH]; [done|]. cbn [omap list_omap fmap list_fmap].
  by rewrite (reserve_on_cap key _ _ _ _ Hc), IH.
Qed.
Lemma reserved_clauses key : reserved_in (table m) key = true → Closing.clauses m key ≠ [].
Proof.
  unfold reserved_in. intros (c & Hin & Hc)%existsb_exists E. apply list_elem_of_In, list_elem_of_lookup_1 in Hin as [i Hi].
  destruct c as [| | | | |k x| | |]; try done. apply bool_decide_eq_true in Hc as ->.
  apply elem_of_clauses in Hi. rewrite E in Hi. by apply not_elem_of_nil in Hi.
Qed.
End tables.

(** ** What judging the reservations leaves *)

(** A step that changes nothing of the store but its log and its own holds. *)
Record held_only {B} (o o' : OverlayStore B) : Prop := {
  ho_base : base o' = base o;
  ho_committed : committed o' = committed o;
  ho_active : set_l_held (active o') ∅ = set_l_held (active o) ∅;
}.
#[export] Instance held_only_refl {B} : Reflexive (held_only (B := B)).
Proof. intros o. by split. Qed.
#[export] Instance held_only_trans {B} : Transitive (held_only (B := B)).
Proof. intros o1 o2 o3 [] []. split; congruence. Qed.

Section judged.
Context {B : Type} `{Baseline B}.
Implicit Types (o : OverlayStore B).

Lemma gather_held_only o reqs seen by_key : held_only o (gather o reqs seen by_key).1.
Proof.
  revert o seen by_key. induction reqs as [|[[tx k] x] reqs IH]; intros o seen by_key; [done|]. cbn [gather].
  destruct (decide _); [done|]. etrans; [|apply IH]. by split.
Qed.
Lemma hold_verdicts_held_only k b l o vs : held_only o (foldl (hold_verdict k b) (o, vs) l).1.
Proof.
  revert o vs. induction l as [|[tx v] l IH]; intros o vs; [done|]. cbn [foldl]. unfold hold_verdict at 2. cbn [fst snd].
  etrans; [|apply IH]. destruct (is_feasible v); [by split|done].
Qed.
Lemma judge_held_only o reqs : held_only o (judge_and_hold o reqs).1.
Proof.
  unfold judge_and_hold. pose proof (gather_held_only o reqs ∅ ∅) as Hg.
  destruct (gather o reqs ∅ ∅) as [o1 [m|e]]; [|done]. cbn [fst] in Hg. etrans; [exact Hg|]. clear Hg.
  generalize (map_iter m), (∅ : gmap (TxHash * SubstateKey) Feasibility). intros l. revert o1.
  induction l as [|[k b] l IH]; intros o1 vs; [done|]. cbn [judge_batches]. destruct (_ ≫= _) as [av|e]; [|done].
  etrans; [|apply IH]. apply hold_verdicts_held_only.
Qed.
End judged.

Section feasible.
Implicit Types a : AbstractStore.
(** Batches judged feasible throughout hold what was asked, and touch no other
    cell. *)
Lemma judge_batches_feasible l a vs a' vs' :
  judge_batches a vs l = (a', Ok vs') → NoDup l.*1 → Forall (λ p, NoDup p.2.*1) l →
  (∀ p f, vs' !! p = Some f → f = Feasible) →
  (∀ k, k ∉ l.*1 → holds a' k = holds a k ∧ ∀ tx, vs' !! (tx, k) = vs !! (tx, k)) ∧
  ∀ k b tx x, (k, b) ∈ l → (tx, x) ∈ b → holds a' k !! tx = Some x.
Proof.
  revert a vs. induction l as [|[k b] l IH]; intros a vs.
  { intros [= <- <-] _ _ _. split; [done|]. by intros ???? ?%not_elem_of_nil. }
  cbn [judge_batches]. destruct (_ ≫= _) as [av|e]; [|done]. intros E Hnd Hb Hf.
  rewrite fmap_cons in Hnd. apply NoDup_cons in Hnd as [Hnin Hnd]. apply Forall_cons in Hb as [Hbn Hb]. cbn [fst snd] in *.
  assert (Hndv : NoDup (judge av b).*1) by (by rewrite judge_fst).
  destruct (hold_verdicts_done a k b (judge av b) vs Hndv) as [_ _ _ D4 D5 D6].
  set (st := foldl (hold_verdict k b) (a, vs) (judge av b)) in *.
  destruct (IH _ _ E Hnd Hb Hf) as [I1 I2]. split.
  - intros k' [Hne Hk']%not_elem_of_cons. destruct (I1 k' Hk') as [-> Hv]. split; [by rewrite D4|].
    intros tx. by rewrite Hv, D6, decide_False.
  - intros k' b' tx x [[= -> ->]|Hin]%elem_of_cons Hx; [|by apply (I2 k' b')].
    destruct (I1 k Hnin) as [-> Hv]. rewrite D5. specialize (Hv tx). rewrite D6, decide_True in Hv by done.
    destruct (verdict_of (judge av b) tx) as [v|] eqn:Ev.
    + apply Hf in Hv as ->. by rewrite (requested_in b tx x).
    + unfold verdict_of in Ev. apply not_elem_of_list_to_map_2 in Ev. destruct Ev. rewrite judge_fst. apply list_elem_of_fmap. by exists (tx, x).
Qed.
Lemma judge_feasible a reqs a' vs :
  judge_and_hold a reqs = (a', Ok vs) → (∀ p f, vs !! p = Some f → f = Feasible) →
  (∀ tx k x, (tx, k, x) ∈ reqs → holds a' k !! tx = Some x) ∧
  ∀ k, (∀ tx x, (tx, k, x) ∉ reqs) → holds a' k = holds a k.
Proof.
  unfold judge_and_hold. intros E Hf. pose proof (gather_store a reqs ∅ ∅) as Hs.
  destruct (gather a reqs ∅ ∅) as [a1 [m|e]] eqn:Hg; cbn [fst] in Hs; subst a1; [|done].
  assert (Hg2 : (gather a reqs ∅ ∅).2 = Ok m) by (by rewrite Hg).
  apply gather_ok_NoDup in Hg2 as [Hnd Hdis].
  destruct (gather_spec a reqs ∅ ∅ Hnd Hdis) as (m' & Hg' & Hm). rewrite Hg in Hg'. injection Hg' as <-.
  assert (Hin : ∀ k b, (k, b) ∈ map_iter m ↔ b = requests_on k reqs ∧ b ≠ []).
  { intros k b. rewrite elem_of_map_iter, Hm, lookup_empty. destruct (decide (requests_on k reqs = [])); naive_solver. }
  destruct (judge_batches_feasible _ _ _ _ _ E (NoDup_map_iter _)) as [I1 I2]; [|done|].
  { apply Forall_forall. intros [k b] [-> _]%Hin. by apply NoDup_requests_on. }
  split.
  - intros tx k x Hx%elem_of_requests_on. apply (I2 k (requests_on k reqs)); [|done]. apply Hin. split; [done|].
    intros Ee. rewrite Ee in Hx. by apply not_elem_of_nil in Hx.
  - intros k Hk. apply I1. intros ([k' b] & -> & [-> Hne]%Hin)%list_elem_of_fmap. cbn in *.
    destruct (requests_on k' reqs) as [|[tx x] l] eqn:Er; [done|]. apply (Hk tx x), elem_of_requests_on. rewrite Er. left.
Qed.
End feasible.

(** ** The session handed over *)

Lemma elem_of_effects (s : EffectSet) t dd m : s !! t = Some dd → m ∈ modes dd → {| target := t; mode := m |} ∈ effects_iter s.
Proof.
  intros Hs Hm. unfold effects_iter. apply list_elem_of_bind. exists (t, dd). split; [|by apply elem_of_map_iter].
  apply list_elem_of_fmap. exists m. split; [done|]. by apply elem_of_set_iter.
Qed.

Section handed.
Context {B : Type} `{Baseline B}.
Implicit Types (o : OverlayStore B).

Lemma reservations_of_spec judges t es o rs :
  reservations_of judges t es o = Ok rs →
  (∀ key amt, {| target := Point key; mode := MReserve amt |} ∈ es → judges (owner key) = true →
     held_reservation o key t = Some amt ∨ (t, key, amt) ∈ rs) ∧
  ∀ t' key amt, (t', key, amt) ∈ rs → t' = t ∧ held_reservation o key t = None.
Proof.
  revert rs. induction es as [|[tg m] es IH]; intros rs.
  { intros [= <-]. split; [by intros ?? ?%not_elem_of_nil|by intros ??? ?%not_elem_of_nil]. }
  cbn [reservations_of target mode].
  assert (Hskip : (∀ key amt, tg = Point key → m = MReserve amt → judges (owner key) = true → held_reservation o key t = Some amt) →
    reservations_of judges t es o = Ok rs →
    (∀ key amt, {| target := Point key; mode := MReserve amt |} ∈ {| target := tg; mode := m |} :: es → judges (owner key) = true →
      held_reservation o key t = Some amt ∨ (t, key, amt) ∈ rs) ∧
    ∀ t' key amt, (t', key, amt) ∈ rs → t' = t ∧ held_reservation o key t = None).
  { intros Hhd Hrs. destruct (IH rs Hrs) as [I1 I2]. split; [|done]. intros key amt [[= E1 E2]|Hin]%elem_of_cons Hj; [|auto].
    left. by apply Hhd. }
  destruct tg as [key|ow c x|ow c lo hi cap]; [|apply Hskip; naive_solver..].
  destruct m as [|mv|amt|mv]; try (apply Hskip; naive_solver).
  destruct (judges (owner key)) eqn:Ej; [|apply Hskip; intros k x [= ->] [= ->]; congruence].
  destruct (held_reservation o key t) as [h|] eqn:Eh.
  - destruct (decide (h = amt)) as [->|]; [|done]. apply Hskip. by intros k x [= <-] [= <-].
  - destruct (reservations_of judges t es o) as [rest|e] eqn:Er; [|done]. intros [= <-]. destruct (IH rest eq_refl) as [I1 I2].
    split.
    + intros k x [[= -> ->]|Hin]%elem_of_cons Hj; [right; left|]. destruct (I1 k x Hin Hj); [by left|right; by right].
    + intros t' k x [[= -> -> ->]|Hin]%elem_of_cons; [done|by eapply I2].
Qed.

Lemma first_infeasible_none vs : first_infeasible (map_iter vs) = None → ∀ p f, vs !! p = Some f → f = Feasible.
Proof.
  unfold first_infeasible. intros E p f Hp. apply elem_of_map_iter in Hp. apply (head_omap_None _ _ E (p, f)) in Hp. cbn in Hp. by destruct f.
Qed.

(** What materialization reads and judges, step by step. *)
Lemma materialize_inv o d t judges s :
  materialize_within o d t judges = Ok s →
  ∃ rs tb o1 o2 vs, reservations_of judges t (effects_iter (dc_set d)) (clear_log o) = Ok rs ∧
    build_table (dc_set d) (dc_ordered d) ∅ = Ok tb ∧ self_conflicting (dc_set d) = None ∧
    judge_conditions judges (dc_conditions d) (clear_log o) = (o1, Ok ()) ∧
    judge_and_hold o1 rs = (o2, Ok vs) ∧ (∀ p f, vs !! p = Some f → f = Feasible) ∧
    s = opened o2 (dc_set d) tb (da_holds <$> dc_ordered d) t judges.
Proof.
  unfold materialize_within. destruct (reservations_of _ _ _ _) as [rs|] eqn:E1; [|done]. cbn [mbind result_bind].
  destruct (build_table _ _ _) as [tb|] eqn:E2; [|done]. cbn [mbind result_bind].
  destruct (self_conflicting _) eqn:E3; [done|]. cbn [mbind result_bind].
  destruct (judge_conditions _ _ _) as [o1 [[]|]] eqn:E4; [|done]. cbn [mbind result_bind].
  destruct (judge_and_hold _ _) as [o2 [vs|]] eqn:E5; [|done]. cbn [mbind result_bind map_err].
  destruct (first_infeasible _) eqn:E6; [done|]. intros [= <-]. eauto 15 using first_infeasible_none.
Qed.

(** A store between transactions: nothing queued, no entry changed. *)
Definition fresh o : Prop :=
  l_pending (committed o) = ∅ ∧ l_pending (active o) = ∅ ∧ l_entries (active o) = ∅.

Lemma same_state_held o o' : same_state o o' → held_only o o'.
Proof. unfold same_state, clear_log. intros [= E1 E2 E3]. split; congruence. Qed.
Lemma held_only_fresh o o' : held_only o o' → fresh o → fresh o'.
Proof.
  intros [_ Ec Ea] (F1 & F2 & F3). unfold set_l_held in Ea. injection Ea as ? ? ? ? ?. unfold fresh. repeat split; congruence.
Qed.
Lemma opened_account o d tb rs t judges r : fresh o → account (opened o d tb rs t judges) r = 0.
Proof.
  intros (F1 & F2 & F3). unfold account, gained, lost, weigh_cells, weigh_entries. cbn [store opened fixed]. rewrite F3.
  assert (pending_map o = ∅) as -> by (unfold pending_map; by rewrite F1, F2). rewrite !map_sum_empty. done.
Qed.

(** A reservation the set makes inside the scope is held when the session opens. *)
Lemma reservation_held o a d t judges rs o1 o2 vs key amt :
  base_agree (base o) a → small_collections a →
  reservations_of judges t (effects_iter (dc_set d)) (clear_log o) = Ok rs →
  same_state (clear_log o) o1 → judge_and_hold o1 rs = (o2, Ok vs) → (∀ p f, vs !! p = Some f → f = Feasible) →
  {| target := Point key; mode := MReserve amt |} ∈ effects_iter (dc_set d) → judges (owner key) = true →
  held_reservation o2 key t = Some amt.
Proof.
  intros Hb Hsm Hrs Hs Ej Hf Hin Hj. destruct (reservations_of_spec _ _ _ _ _ Hrs) as [R1 R2].
  destruct (same_state_held _ _ Hs) as [Hb1 _ _]. cbn [base clear_log] in Hb1.
  assert (Hag : agree o1 (overlay_abs o1 a)) by (apply overlay_agree; [by rewrite Hb1|done]).
  destruct (sim_judge_and_hold o1 (overlay_abs o1 a) rs Hag) as [Hag2 Hres]. rewrite Ej in Hag2, Hres. cbn [fst snd] in Hag2, Hres.
  destruct (judge_and_hold (overlay_abs o1 a) rs) as [a2 x] eqn:Ea. cbn [fst snd] in Hag2, Hres. subst x.
  destruct (judge_feasible _ _ _ _ Ea Hf) as [J1 J2]. rewrite (agree_reservation _ _ Hag2). change (holds a2 key !! t = Some amt).
  destruct (R1 key amt Hin Hj) as [Hheld|Hreq]; [|by apply J1]. rewrite J2.
  - assert (E : held_reservation (clear_log o) key t = held_reservation o1 key t).
    { unfold same_state in Hs. cbn. change (overlay_held_reservation (clear_log (clear_log o)) key t = overlay_held_reservation (clear_log o1) key t).
      by rewrite Hs. }
    rewrite E, (agree_reservation _ _ Hag) in Hheld. exact Hheld.
  - intros t' x Hx. destruct (R2 _ _ _ Hx) as [_ Hn]. congruence.
Qed.

(** The declaration's reserves are the table's. *)
Lemma assembled_reserves d m key :
  assembled d → table_of d m →
  reserves_ok m ∧ (reserved_in (table m) key = true →
    {| target := Point key; mode := MReserve (reserved_sum m key) |} ∈ effects_iter (dc_set d)).
Proof.
  intros Hd Hm. destruct (assembled_folds d Hd) as (cs & Ecs & Hok & Hf). split.
  - intros rep k amt Hc. destruct (table_access d m Hm rep _ Hc) as (x & _ & Hx & _ & Hcap).
    apply capability_for_spec in Hcap as (_ & _ & Hres). pose proof (proj1 (Hres k amt) eq_refl) as Ee.
    assert (Hin : da_effect x ∈ cs.*1) by (rewrite Ecs; apply list_elem_of_fmap; by exists x).
    apply list_elem_of_fmap in Hin as ([e w] & E & Hin). cbn in E. rewrite Forall_forall in Hok.
    specialize (Hok _ Hin). unfold clause_ok in Hok. cbn in Hok. rewrite <- E, Ee in Hok. exact Hok.
  - intros Hr. pose proof (table_reserves d m Hm cs key Ecs) as Et. pose proof (reserved_clauses m key Hr) as Hne.
    assert (Hne' : Effects.reserves (clauses_on (Point key) cs) ≠ []).
    { rewrite <- Et. intros E. apply fmap_nil_inv in E. done. }
    eapply elem_of_effects.
    + rewrite Hf. unfold fold_declared. rewrite decide_False; [done|]. intros E. by rewrite E in Hne'.
    + cbn. apply fold_modes_reserve. split; [done|]. unfold reserved_sum. by rewrite Et.
Qed.

(** Materialization holds reservations and touches nothing else. *)
Lemma materialized_held_only o d t scope s : materialize_within o d t scope = Ok s → held_only o (store s).
Proof.
  intros (rs & tb & o1 & o2 & vs & _ & _ & _ & Hc & Ej & _ & ->)%materialize_inv.
  destruct (judge_conditions_right _ _ _ _ _ Hc) as [Hs1 _]. pose proof (judge_held_only o1 rs) as Hho. rewrite Ej in Hho.
  etrans; [|exact Hho]. etrans; [|exact (same_state_held _ _ Hs1)]. by split.
Qed.
(** What is held for a cell in scope is exactly what the table's clauses on it reserve together. *)
Lemma materialized_holds a o d t scope s :
  assembled d → base_agree (base o) a → small_collections a → materialize_within o d t scope = Ok s →
  ∀ key, scope (owner key) = true → reserved_in (table (fixed s)) key = true →
    held_reservation (store s) key t = Some (reserved_sum (fixed s) key).
Proof.
  intros Hd Hb Hsm Em key Hj Hr. destruct (materialize_inv _ _ _ _ _ Em) as (rs & tb & o1 & o2 & vs & Hrs & Htb & Hsc & Hc & Ej & Hf & ->).
  destruct (judge_conditions_right _ _ _ _ _ Hc) as [Hs1 _].
  assert (Hto : table_of d (fixed (opened o2 (dc_set d) tb (da_holds <$> dc_ordered d) t scope))) by (by split).
  eapply (reservation_held o a); eauto. by apply (assembled_reserves d _ key Hd Hto).
Qed.
Lemma materialized_session a o d t scope s :
  assembled d → Z.of_nat (length (dc_ordered d)) ≤ u32_max →
  base_agree (base o) a → small_collections a → fresh o → materialize_within o d t scope = Ok s →
  session_ok a s ∧ ready s ∧ (∀ r, account s r = 0) ∧ table_of d (fixed s) ∧
  tx (fixed s) = t ∧ judges (fixed s) = scope ∧ fee (fixed s) = None.
Proof.
  intros Hd Hlen Hb Hsm Hfr Em. destruct (materialize_inv _ _ _ _ _ Em) as (rs & tb & o1 & o2 & vs & Hrs & Htb & Hsc & Hc & Ej & Hf & ->).
  destruct (judge_conditions_right _ _ _ _ _ Hc) as [Hs1 _].
  assert (Hho2 : held_only o o2) by exact (materialized_held_only _ _ _ _ _ Em).
  assert (Hto : table_of d (fixed (opened o2 (dc_set d) tb (da_holds <$> dc_ordered d) t scope))) by (by split).
  assert (Hfit : table_fits (fixed (opened o2 (dc_set d) tb (da_holds <$> dc_ordered d) t scope))).
  { unfold table_fits. cbn. destruct (build_table_spec _ _ _ _ Htb) as [H1 _]. by rewrite <- (Forall2_length _ _ _ H1). }
  pose proof (λ key, assembled_reserves d _ key Hd Hto) as Hres. pose proof (held_only_fresh _ _ Hho2 Hfr) as Hfr2.
  split_and!; try done.
  - split; [apply (table_contents_agree d); [done..|]; apply (Hres {| owner := 0; local := 0 |})|by split|by intros e c| |done].
    cbn. by rewrite (ho_base _ _ Hho2).
  - destruct Hfr2 as (F1 & F2 & F3). split; try done.
    + cbn. rewrite F2. apply map_Forall_empty.
    + intros key Hj Hr. eexists. split; [|reflexivity]. exact (materialized_holds a o d t scope _ Hd Hb Hsm Em key Hj Hr).
  - intros r. by apply opened_account.
Qed.
End handed.

Section transaction.
Context {B : Type} `{Baseline B}.
Implicit Types (o : OverlayStore B) (s : KernelSession B).

(** C2: what materialization hands over. From a declaration the evaluators assemble, over a store between
    transactions, a session that materializes is one every later guarantee starts from: the table has one capability per
    clause, at the clause's own position, clauses on one leaf agree on what it holds, every reservation in scope is
    held at the amount its clauses reserve together, and the conservation account is zero for every resource. *)
Theorem materialized_ready a o d t scope s :
  assembled d → Z.of_nat (length (dc_ordered d)) ≤ u32_max →
  base_agree (base o) a → small_collections a → fresh o → materialize_within o d t scope = Ok s →
  session_ok a s ∧ ready s ∧ (∀ r, account s r = 0) ∧
  (∀ key, scope (owner key) = true → reserved_in (table (fixed s)) key = true →
    held_reservation (store s) key t = Some (reserved_sum (fixed s) key)) ∧
  Forall2 (λ access c, capability_for (da_effect access) (holds_bool access)
    (width_of (dc_set d) (target (da_effect access))) = Ok c) (dc_ordered d) (table (fixed s)) ∧
  cell_resources (fixed s) = da_holds <$> dc_ordered d.
Proof.
  intros Hd Hl Hb Hsm Hf Em. destruct (materialized_session a o d t scope s) as (H1 & H2 & H3 & [H4 H5] & _); try done.
  split_and!; try done; [by eapply materialized_holds|]. by apply build_table_spec in H4 as [? _].
Qed.

(** The builders a caller closes the session's configuration with. *)
Definition configured (f : Address → bool) (ns : list IntentRecord) (fee : option FeeBurn) (withheld : bool) s : KernelSession B :=
  with_credits_withheld withheld (with_fee fee (with_nullifiers ns (with_applies f s))).

Lemma configured_ok a f ns fb w s :
  session_ok a s → ready s → (∀ x, fb = Some x → 0 ≤ f_amount x) →
  let s' := configured f ns fb w s in session_ok a s' ∧ ready s' ∧ ∀ r, account s' r = account s r.
Proof.
  intros [[C1 C2 C3 C4] S2 S3 S4 S5] [R1 R2 R3 R4 R5 R6 R7 R8 R9] Hfee. cbv zeta. split_and!; [|by split|done].
  split; [by split|done..].
Qed.

(** A transaction conserves, end to end. Whatever declaration was assembled and materialized, whatever the
    caller configured, and whatever operations the bodies then ran, the session's finish is never refused as
    unconserved, as long as each side of every resource's account fits [u128]. *)
Theorem transaction_conserves a o d t scope s0 f ns fb w ops s answers fuel receipt o' :
  assembled d → Z.of_nat (length (dc_ordered d)) ≤ u32_max →
  base_agree (base o) a → small_collections a → fresh o → materialize_within o d t scope = Ok s0 →
  (∀ x, fb = Some x → 0 ≤ f_amount x) → runs (configured f ns fb w s0) ops s →
  (∀ r, gained s r + fee_share (fixed s) r ≤ width_max 128 ∧ lost s r + fee_share (fixed s) r ≤ width_max 128) →
  finish s answers fuel = Finished receipt o' → r_outcome receipt ≠ Outcome.ProtocolError Abort.ValueNotConserved.
Proof.
  intros Hd Hl Hb Hsm Hf Em Hfee Hruns Hfit Hfin. destruct (materialized_session a o d t scope s0) as (H1 & H2 & H3 & _); try done.
  destruct (configured_ok a f ns fb w s0 H1 H2 Hfee) as (K1 & K2 & K3).
  apply (runs_close_balanced a (configured f ns fb w s0) ops s answers fuel receipt o' K1 K2); [|done..].
  intros r. by rewrite K3.
Qed.
End transaction.

(** ** A transaction over the sample store *)

(** The condition's two targets are declared reads as well, as admission declares them. *)
Definition opening_accesses : list (DeclaredAccess * Z) := [
  ({| da_effect := {| target := Point vault; mode := MDelta Both |}; da_holds := Some 7 |}, MAX_SLOT_WIDTH);
  ({| da_effect := {| target := Range 258 1 0 100 10; mode := MWrite Both |}; da_holds := Some 9 |}, 8);
  ({| da_effect := {| target := Point purse; mode := MWrite Both |}; da_holds := Some 7 |}, MAX_SLOT_WIDTH);
  ({| da_effect := {| target := Point vault; mode := MReserve 10 |}; da_holds := Some 7 |}, MAX_SLOT_WIDTH);
  ({| da_effect := {| target := Point vault; mode := MReserve 5 |}; da_holds := Some 7 |}, MAX_SLOT_WIDTH);
  ({| da_effect := {| target := Point vault; mode := MRead |}; da_holds := Some 7 |}, MAX_SLOT_WIDTH);
  ({| da_effect := {| target := Point purse; mode := MRead |}; da_holds := Some 7 |}, MAX_SLOT_WIDTH)].
Definition opening_condition : Condition := {|
  c_rule := CountOf 1 [Require (JudgedLeaf.IfPresence (Point purse) Present);
                       Require (JudgedLeaf.IfPresence (Point vault) Present)]; c_node := Some 0 |}.
Definition opening_declaration : Declaration :=
  push_condition (foldl (λ d p, match push_access d p.1 p.2 with Ok d => d | Err _ => d end) declaration_default opening_accesses)
    opening_condition.
Definition opening_fee : option FeeBurn := Some {| f_vault := vault; f_resource := 7; f_amount := 3 |}.
Definition opening_session : result MaterializeError (KernelSession MemoryStore) :=
  materialize (overlay_new sample_base) opening_declaration 1.
(** The body's own handles are sites 7 to 11, over the seven of the table. *)
Definition opening_run : list SessionOp :=
  [SEnter 1 0; SBind [Some 0%nat]; SBind [Some 1%nat]; SBind [Some 2%nat]; SBind [Some 3%nat]; SBind [Some 4%nat];
   STake 7 0 4; SReserveTake 10 0; SPut 9 0 0; SReserveTake 11 0; SPut 7 0 1; SPut 9 0 2].

Definition opened_sample : KernelSession MemoryStore := match opening_session with Ok s => s | Err _ => sample_session end.
Lemma opening_opens : materialize_within (overlay_new sample_base) opening_declaration 1 (λ _, true) = Ok opened_sample.
Proof. vm_compute. reflexivity. Qed.
Lemma opening_assembled : assembled opening_declaration.
Proof.
  apply assembled_condition.
  assert (Hall : ∀ l d, Forall (λ p : DeclaredAccess * Z, clause_ok (da_effect p.1, p.2)) l → assembled d →
    assembled (foldl (λ d p, match push_access d p.1 p.2 with Ok d => d | Err _ => d end) d l)).
  { induction l as [|[x w] l IH]; intros d Hl Hd; [done|]. apply Forall_cons in Hl as [Hx Hl]. cbn [foldl fst snd] in *.
    destruct (push_access d x w) as [d'|e] eqn:Ep; [|by apply IH]. apply IH; [done|]. by eapply assembled_access. }
  apply Hall; [|constructor]. apply (bool_decide_unpack _). vm_compute. exact I.
Qed.
Definition configured_sample : KernelSession MemoryStore := configured (λ _, true) [] opening_fee false opened_sample.
Definition opening_closes : KernelSession MemoryStore := after_ops opening_run configured_sample.
Lemma opening_runs : runs configured_sample opening_run opening_closes.
Proof.
  apply answered_runs. unfold opening_run. cbn [answered session_op_ok].
  repeat (split; [first [exact I|unfold in_width; lia|vm_compute; reflexivity]|]). exact I.
Qed.
Lemma opening_finishes : ∃ receipt o, finish opening_closes [] [] = Finished receipt o ∧ r_outcome receipt = Outcome.Completed [].
Proof.
  pose (check := λ f : finished MemoryStore, match f with
    | Finished r _ => match r_outcome r with Outcome.Completed [] => true | _ => false end | _ => false end).
  assert (Hc : check (finish opening_closes [] []) = true) by (vm_compute; reflexivity).
  subst check. cbv beta in Hc. destruct (finish opening_closes [] []) as [r o|e|]; [|discriminate Hc..].
  exists r, o. split; [done|]. by destruct (r_outcome r) as [[|]| | | | | | | | | |].
Qed.
Lemma opening_fits r :
  gained opening_closes r + fee_share (fixed opening_closes) r ≤ width_max 128 ∧
  lost opening_closes r + fee_share (fixed opening_closes) r ≤ width_max 128.
Proof.
  destruct (decide (r = 7)) as [->|H7]; [by vm_compute|]. destruct (decide (r = 9)) as [->|H9]; [by vm_compute|].
  assert (Hnamed : ∀ {K} `{Countable K} (m : gmap K ResourceAddr), map_Forall (λ _ x, x = 7 ∨ x = 9) m → map_Forall (λ _ x, x ≠ r) m).
  { intros K ? ? m Hall k x E. destruct (Hall k x E); congruence. }
  assert (Hnone : ∀ m : gmap ResourceAddr Z, m = ∅ → map_Forall (λ x _, x ≠ r) m) by (intros m ->; apply map_Forall_empty).
  assert (Htaken : Forall (λ rep, materialized_resource (fixed opening_closes) rep = Some 7) (elements (taken opening_closes)))
    by (apply (bool_decide_unpack _); vm_compute; exact I).
  destruct (idle_sides opening_closes r) as [-> ->].
  - apply Hnamed, (bool_decide_unpack _). vm_compute. exact I.
  - apply Hnamed, (bool_decide_unpack _). vm_compute. exact I.
  - apply Hnone. vm_compute. reflexivity.
  - apply Hnone. vm_compute. reflexivity.
  - unfold settled. apply sum_zero. intros rep Hrep. rewrite Forall_forall in Htaken. unfold reserved_share.
    destruct (table _ !! rep) as [[]|]; try done. rewrite decide_False; [done|]. rewrite (Htaken rep Hrep). congruence.
  - vm_compute; reflexivity.
  - replace (fee_share (fixed opening_closes) r) with 0; [by vm_compute|].
    unfold fee_share. replace (fee (fixed opening_closes)) with opening_fee by (vm_compute; reflexivity). cbn. rewrite decide_False by done.
    by destruct (ends_hold _ _).
Qed.

Lemma materialized_ready_witness :
  materialize (overlay_new sample_base) opening_declaration 1 = Ok opened_sample ∧ ready opened_sample ∧
  held_reservation (store opened_sample) vault 1 = Some 15.
Proof.
  split; [exact opening_opens|]. split; [|vm_compute; reflexivity].
  apply (materialized_ready (memory_abs sample_base) (overlay_new sample_base) opening_declaration 1 (λ _, true)).
  - exact opening_assembled.
  - vm_compute; discriminate.
  - apply memory_base_agree.
  - exact sample_small.
  - split; [|split]; reflexivity.
  - exact opening_opens.
Defined.

Lemma transaction_conserves_witness :
  runs configured_sample opening_run opening_closes ∧
  ∃ receipt o, finish opening_closes [] [] = Finished receipt o ∧ r_outcome receipt = Outcome.Completed [] ∧
    r_outcome receipt ≠ Outcome.ProtocolError Abort.ValueNotConserved.
Proof.
  split; [exact opening_runs|]. destruct opening_finishes as (receipt & o & E & Hout). exists receipt, o.
  split; [exact E|]. split; [exact Hout|].
  apply (transaction_conserves (memory_abs sample_base) (overlay_new sample_base) opening_declaration 1 (λ _, true)
    opened_sample (λ _, true) [] opening_fee false opening_run opening_closes [] [] receipt o).
  - exact opening_assembled.
  - vm_compute; discriminate.
  - apply memory_base_agree.
  - exact sample_small.
  - split; [|split]; reflexivity.
  - exact opening_opens.
  - by intros x [= <-].
  - exact opening_runs.
  - exact opening_fits.
  - exact E.
Defined.
