(* ===== verification/Dsl.v ===== *)
(** * The declaration language ([crates/effects/src/dsl.rs])

    A method declares what it may touch in a language of expressions over its call's
    arguments, its target's creation-fixed record and a hash. The file has the
    language, the metered evaluator that turns a signature's clauses into a
    declaration, and what the evaluator promises: typed answers, bounded work, a
    declaration the kernel can materialize, and answers that do not depend on the
    caller where the expression reads no call input. *)

From S2P Require Import Prelude WideMath Types Effects Conflict Modes Hbor Cells Writes Ledger Store Overlay Capability Outcomes Rules Values Buckets Supply Session Grants Seals Conservation Receipt Closing Materialize.

(** ** The language *)

Inductive SlotRef (E : Type) := Fixed (slot : SlotId) | Reached (e : E).
#[global] Arguments Fixed {E} slot.
#[global] Arguments Reached {E} e.
Definition slot_fixed {E} (s : SlotRef E) : option SlotId := match s with Fixed slot => Some slot | Reached _ => None end.
Definition slot_reached {E} (s : SlotRef E) : option E := match s with Fixed _ => None | Reached e => Some e end.

Module Ex.
Inductive Expr :=
  | Literal (v : Value)
  | Arg (index : Z)
  | Config (index : Z)
  | Binding (index : Z)
  | SelfAddr
  | SelfRecord
  | Field (tuple : Expr) (index : Z)
  | ResourceOf (bucket : Expr)
  | IdsOf (bucket : Expr)
  | Len (list : Expr)
  | Only (list : Expr)
  | List (elements : list Expr)
  | Tuple (fields : list Expr)
  | NfBucket (resource ids : Expr)
  | Lookup (map key : Expr)
  | SelfResource (kind : ResourceKind) (material : list Expr) (grants : GrantsExpr)
  | ChildKey (owner : Expr) (slot : SlotRef Expr) (material : list Expr)
  | FreshId (slot : Z)
  | FreshKey (slot : Z)
  | Pack (hi lo : Expr)
  | OrderKey (owner : Expr) (slot : SlotId) (material : list Expr)
  | Add (left right : Expr)
  | Not (inner : Expr)
  | And (left right : Expr)
  | Or (left right : Expr)
  | Eq (left right : Expr)
  | Lt (left right : Expr)
  | Contains (map key : Expr)
  | If (cond thn otherwise : Expr).
End Ex.
Abbreviation Expr := Ex.Expr.

Definition expr_children (e : Expr) : list Expr :=
  match e with
  | Ex.Literal _ | Ex.Arg _ | Ex.Config _ | Ex.Binding _ | Ex.SelfAddr | Ex.SelfRecord | Ex.FreshId _ | Ex.FreshKey _ => []
  | Ex.Field inner _ | Ex.ResourceOf inner | Ex.IdsOf inner | Ex.Len inner | Ex.Only inner | Ex.Not inner => [inner]
  | Ex.Lookup first second | Ex.Contains first second | Ex.Pack first second | Ex.NfBucket first second
  | Ex.Add first second | Ex.And first second | Ex.Or first second | Ex.Eq first second | Ex.Lt first second => [first; second]
  | Ex.If cond thn otherwise => [cond; thn; otherwise]
  | Ex.List elements | Ex.Tuple elements | Ex.SelfResource _ elements _ => elements
  | Ex.ChildKey owner slot material => owner :: option_list (slot_reached slot) ++ material
  | Ex.OrderKey owner _ material => owner :: material
  end.
Definition is_input_leaf (e : Expr) : bool := match e with Ex.Arg _ | Ex.Binding _ => true | _ => false end.
(** The walk over the children, written where the recursion on them is seen. *)
Fixpoint reads_call_inputs (e : Expr) : bool :=
  is_input_leaf e ||
  match e with
  | Ex.Literal _ | Ex.Arg _ | Ex.Config _ | Ex.Binding _ | Ex.SelfAddr | Ex.SelfRecord | Ex.FreshId _ | Ex.FreshKey _ => false
  | Ex.Field inner _ | Ex.ResourceOf inner | Ex.IdsOf inner | Ex.Len inner | Ex.Only inner | Ex.Not inner => reads_call_inputs inner
  | Ex.Lookup first second | Ex.Contains first second | Ex.Pack first second | Ex.NfBucket first second
  | Ex.Add first second | Ex.And first second | Ex.Or first second | Ex.Eq first second | Ex.Lt first second =>
      reads_call_inputs first || reads_call_inputs second
  | Ex.If cond thn otherwise => reads_call_inputs cond || reads_call_inputs thn || reads_call_inputs otherwise
  | Ex.List elements | Ex.Tuple elements | Ex.SelfResource _ elements _ => existsb reads_call_inputs elements
  | Ex.ChildKey owner slot material =>
      reads_call_inputs owner || match slot with Fixed _ => false | Reached s => reads_call_inputs s end || existsb reads_call_inputs material
  | Ex.OrderKey owner _ material => reads_call_inputs owner || existsb reads_call_inputs material
  end.

Module Me.
Inductive ModeExpr := Read | Delta (moves : Moves) | Reserve (amount : Expr) | Write (moves : Moves).
End Me.
Abbreviation ModeExpr := Me.ModeExpr.
Definition mode_expr_moves (m : ModeExpr) : option Moves :=
  match m with Me.Read => None | Me.Delta moves | Me.Write moves => Some moves | Me.Reserve _ => Some Out end.

Module Te.
Inductive TargetExpr :=
  | Point (key : Expr)
  | Entry (owner : Expr) (collection : SlotRef Expr) (material : list Expr) (order : Expr)
  | Range (owner : Expr) (collection : SlotRef Expr) (material : list Expr) (lo hi cap : Expr).
End Te.
Abbreviation TargetExpr := Te.TargetExpr.
Definition target_parts (t : TargetExpr) : list Expr :=
  match t with
  | Te.Point key => [key]
  | Te.Entry owner collection material order => owner :: option_list (slot_reached collection) ++ material ++ [order]
  | Te.Range owner collection material lo hi cap => owner :: option_list (slot_reached collection) ++ material ++ [lo; hi; cap]
  end.
Definition target_reads_call_inputs (t : TargetExpr) : bool := existsb reads_call_inputs (target_parts t).

Module Leaf_.
Inductive RuleLeaf := Claimed (claim : Expr) | Stored (cell : Expr) | IfPresence (target : TargetExpr) (expect : Presence).
End Leaf_.
Abbreviation RuleLeaf := Leaf_.RuleLeaf.
Definition RuleExpr : Type := Rule RuleLeaf.

Module Cl.
Inductive Clause :=
  | Effect (guard : option Expr) (target : TargetExpr) (mode : ModeExpr) (denomination : option Expr) (reach : option GrantedBehaviour)
  | ForEach (guard : option Expr) (items : Expr) (body : list Clause)
  | Requires (guard : option Expr) (rule : RuleExpr)
  | Proves (guard : option Expr) (claim : Expr).
End Cl.
Abbreviation Clause := Cl.Clause.
Definition clause_guard (c : Clause) : option Expr :=
  match c with Cl.Effect guard _ _ _ _ | Cl.ForEach guard _ _ | Cl.Requires guard _ | Cl.Proves guard _ => guard end.
(** The preorder walk, from an explicit stack. *)
Fixpoint clause_size (c : Clause) : nat :=
  match c with Cl.ForEach _ _ body => S (sum_list_with clause_size body) | _ => 1 end.
Fixpoint effects_walk (fuel : nat) (stack : list Clause) : list Clause :=
  match fuel, stack with
  | S fuel, c :: stack => c :: effects_walk fuel (match c with Cl.ForEach _ _ body => body | _ => [] end ++ stack)
  | _, _ => []
  end.
Definition clause_effects (c : Clause) : list Clause := effects_walk (clause_size c) [c].
Definition supports (c : Clause) : bool :=
  match c with
  | Cl.Effect _ (Te.Point _) (Me.Read | Me.Write _ | Me.Delta _ | Me.Reserve _) _ _ => true
  | Cl.Effect _ (Te.Entry _ _ _ _ | Te.Range _ _ _ _ _ _) (Me.Read | Me.Write _) _ _ => true
  | _ => false
  end.
Definition self_child (slot : SlotId) (material : list Expr) : Expr := Ex.ChildKey Ex.SelfAddr (Fixed slot) material.

(** ** Refusals *)

(** The kind names a mismatch is spoken in. *)
Inductive Wanted := WKind (k : ValueKind) | WResource | WClaim | WBadge | WNonFungibleBucket | WComparable | WInteger.
Inductive Found := FKind (k : ValueKind) | FIdentity.
Module EvalErr.
Inductive EvalError :=
  | ArgOutOfRange (index : Z)
  | UnkeyedReach
  | UnreachableSlot (named : Z)
  | ConfigOutOfRange (index : Z)
  | BindingOutOfRange (index : Z)
  | TypeMismatch (expected : Wanted) (found : Found)
  | NotAResource (a : Address)
  | GrantsUnresolvable (e : GrantsResolveError)
  | RecordMalformed
  | FieldOutOfRange (index : Z) (arity : nat)
  | CapTooWide (cap : Z)
  | AddOverflow
  | NotSingleton (len : nat)
  | LookupMiss
  | LookupNotPairs
  | ForEachTooLong (len : nat)
  | ProvesPastCap
  | ExpressionTooDeep
  | ClausesTooDeep
  | TooManyEffects
  | TooMuchWork
  | EnvelopeTooMuchWork
  | InvalidRange
  | TooManyIds (len : nat)
  | DuplicateId (id : Z)
  | Conflict (e : EffectConflict).
End EvalErr.
Abbreviation EvalError := EvalErr.EvalError.

Definition MAX_FOREACH_ELEMENTS : nat := MAX_VALUE_ITEMS.
Definition MAX_EXPR_DEPTH : nat := 32.
Definition MAX_EVALUATION_WORK : Z := 65536.
Definition BYTES_PER_WORK_UNIT : nat := 8.
Definition WORK_PER_DERIVATION : Z := 8.
Definition MAX_ENVELOPE_EVALUATION_WORK : Z := 2097152.
Definition MAX_CLAUSE_DEPTH : nat := 4.
Definition MAX_EFFECTS_PER_SIGNATURE : Z := 4096.
Definition MAX_PROVEN_PER_SIGNATURE : nat := 8.

(** ** Inputs *)

(** [crates/effects/src/instance.rs]: the creation-fixed record. *)
Record InstanceMeta := { im_package : Z; im_config : list Value; im_salt : Z }.
Definition MAX_CONFIG_FIELDS : nat := 64.
Definition MAX_CONFIG_BYTES : nat := Z.to_nat (MAX_SLOT_WIDTH - 2 * 32).
Definition config_codec : Codec (list Value) := capped_vec MAX_CONFIG_FIELDS dsl_value.
Definition config_bytes (m : InstanceMeta) : result EncodeError bytes :=
  b ← to_vec config_codec (im_config m);
  if decide (MAX_CONFIG_BYTES < length b)%nat then Err (EncErr.BoundExceeded (length b) MAX_CONFIG_BYTES) else Ok b.
Definition configuration_within_cap (m : InstanceMeta) : result DecodeError InstanceMeta :=
  match config_bytes m with Ok _ => Ok m | Err _ => Err DecErr.FailedValidation end.
Definition instance_meta : Codec InstanceMeta :=
  carried (λ m, (im_package m, (im_config m, im_salt m)))
    (λ p, configuration_within_cap {| im_package := p.1; im_config := p.2.1; im_salt := p.2.2 |})
    (both (nested (uint_be 32)) (both (nested config_codec) (nested (uint_be 32)))).
Definition meta_leaf_bytes (m : InstanceMeta) : result EncodeError bytes :=
  _ ← config_bytes m; to_vec instance_meta m.

(** [crates/effects/src/metadata.rs]: how wide a leaf under a slot may be. *)
Definition NULLIFIER_SLOT : SlotId := 0xFFFF.
Definition ESCROW_RECORD_SLOT : SlotId := 0xFFFD.
Definition COMMITTED_TX_SLOT : SlotId := 0xFFFC.
Definition CROSSING_CLAIM_SLOT : SlotId := 0xFFFB.
Definition CROSSING_DECLINE_SLOT : SlotId := 0xFFFA.
Definition FEE_HOLD_SLOT : SlotId := 0xFFF6.
Definition FEE_HOLD_TOTAL_SLOT : SlotId := 0xFFF5.
Definition MARKER_CELL_BYTES : Z := 96.
Definition CROSSING_CELL_BYTES : Z := 256.
Definition CROSSING_ANSWER_CELL_BYTES : Z := 160.
Definition FEE_HOLD_CELL_BYTES : Z := MARKER_CELL_BYTES.
Definition AMOUNT_WIDTH : Z := 16.
(** The widest governing record: two byte strings at the argument cap, each behind
    a length of two bytes ([authority_width_exact]). *)
Definition authority_width : Z := 2 * (2 + Z.of_nat MAX_VALUE_BYTES).
Definition protocol_width (slot : SlotId) : Z :=
  if decide (slot = VAULT ∨ slot = FEE_HOLD_TOTAL_SLOT) then AMOUNT_WIDTH
  else if decide (slot = NF_VAULT) then 0
  else if decide (slot = HALT) then 1
  else if decide (slot = RESOURCE) then 2
  else if decide (slot = AUTH) then authority_width
  else if decide (slot = NULLIFIER_SLOT ∨ slot = COMMITTED_TX_SLOT) then MARKER_CELL_BYTES
  else if decide (slot = CROSSING_CLAIM_SLOT ∨ slot = CROSSING_DECLINE_SLOT) then CROSSING_ANSWER_CELL_BYTES
  else if decide (slot = ESCROW_RECORD_SLOT) then CROSSING_CELL_BYTES
  else if decide (slot = FEE_HOLD_SLOT) then FEE_HOLD_CELL_BYTES
  else MAX_SLOT_WIDTH.
Definition SlotWidths : Type := gmap Z Z.
Definition slot_width (w : SlotWidths) (slot : SlotId) : Z := default (protocol_width slot) (w !! slot).

Definition PresentedGrants : Type := gmap Z ResourceGrants.
Record EvalInputs := {
  ei_self : Address;
  ei_args : list Value;
  ei_record : InstanceMeta;
  ei_node : Z;
  ei_identity : Z;
  ei_grants : PresentedGrants;
  ei_widths : SlotWidths;
}.

(** ** The meter

    One signature's allowance and the envelope's beside it. The counters are cells
    every part of the evaluation shares, so they are threaded, and kept where a
    charge refuses. *)

Record Budget := {
  bg_depth : nat;
  bg_work : Z;
  bg_spent : Z;
  bg_clause : Z;
  bg_preorder : Z;
  bg_envelope : Z;
}.
Definition budget_new (envelope : Z) : Budget :=
  {| bg_depth := 0; bg_work := 0; bg_spent := 0; bg_clause := 0; bg_preorder := 0; bg_envelope := envelope |}.
Definition EM (A : Type) : Type := Budget → Budget * result (halt EvalError) A.
#[global] Instance em_ret : MRet EM := λ A a b, (b, Ok a).
#[global] Instance em_bind : MBind EM := λ A B f m b,
  match m b with (b, Ok a) => f a b | (b, Err e) => (b, Err e) end.
Definition em_lift {A} (r : result EvalError A) : EM A := λ b, (b, refuse r).
Definition em_expects {A} (o : option A) : EM A := λ b, (b, expects o).
Definition em_get {A} (f : Budget → A) : EM A := λ b, (b, Ok (f b)).
Definition set_depth (f : nat → nat) : EM () := λ b,
  ({| bg_depth := f (bg_depth b); bg_work := bg_work b; bg_spent := bg_spent b; bg_clause := bg_clause b;
      bg_preorder := bg_preorder b; bg_envelope := bg_envelope b |}, Ok ()).
Definition set_clause (index : Z) : EM () := λ b,
  ({| bg_depth := bg_depth b; bg_work := bg_work b; bg_spent := bg_spent b; bg_clause := index;
      bg_preorder := bg_preorder b; bg_envelope := bg_envelope b |}, Ok ()).
Definition set_preorder (number : Z) : EM () := λ b,
  ({| bg_depth := bg_depth b; bg_work := bg_work b; bg_spent := bg_spent b; bg_clause := bg_clause b;
      bg_preorder := number; bg_envelope := bg_envelope b |}, Ok ()).
Definition charge : EM () := λ b,
  let b := {| bg_depth := bg_depth b; bg_work := bg_work b + 1; bg_spent := bg_spent b; bg_clause := bg_clause b;
              bg_preorder := bg_preorder b; bg_envelope := bg_envelope b |} in
  (b, if decide (MAX_EFFECTS_PER_SIGNATURE < bg_work b) then Err (Refuses EvalErr.TooManyEffects) else Ok ()).
Definition envelope_spend (spent units : Z) : Z * result (halt EvalError) () :=
  let spent := saturating_add 64 spent units in
  (spent, if decide (MAX_ENVELOPE_EVALUATION_WORK < spent) then Err (Refuses EvalErr.EnvelopeTooMuchWork) else Ok ()).
Definition spend (units : Z) : EM () := λ b,
  let spent := saturating_add 64 (bg_spent b) units in
  let b := {| bg_depth := bg_depth b; bg_work := bg_work b; bg_spent := spent; bg_clause := bg_clause b;
              bg_preorder := bg_preorder b; bg_envelope := bg_envelope b |} in
  if decide (MAX_EVALUATION_WORK < spent) then (b, Err (Refuses EvalErr.TooMuchWork))
  else
    let '(envelope, r) := envelope_spend (bg_envelope b) units in
    ({| bg_depth := bg_depth b; bg_work := bg_work b; bg_spent := spent; bg_clause := bg_clause b;
        bg_preorder := bg_preorder b; bg_envelope := envelope |}, r).
(** What a walk over a value visits. *)
Definition walked (v : Value) : Z :=
  foldr (λ v total, 1 + match v with Val.Bytes b => Z.of_nat (length b / BYTES_PER_WORK_UNIT) | _ => 0 end + total) 0 (visited v).

(** A value borrowed from the inputs, or built by the term that answered it. *)
Inductive Cow := Borrowed (v : Value) | Owned (v : Value).
Definition cow_value (c : Cow) : Value := match c with Borrowed v | Owned v => v end.
Definition forced (c : Cow) : EM Value :=
  match c with
  | Borrowed v => _ ← spend (walked v); mret v
  | Owned v => mret v
  end.

(** ** Reading values *)

Definition mismatch {A} (w : Wanted) (v : Value) : result EvalError A := Err (EvalErr.TypeMismatch w (FKind (value_kind v))).
Definition as_u64 (v : Value) : result EvalError Z := match v with Val.U64 x => Ok x | _ => mismatch (WKind KU64) v end.
Definition as_u128 (v : Value) : result EvalError Z :=
  match v with Val.U64 x | Val.U128 x => Ok x | _ => mismatch (WKind KU128) v end.
Definition as_cap (v : Value) : result EvalError Z :=
  cap ← as_u128 v; if decide (cap ≤ width_max 32) then Ok cap else Err (EvalErr.CapTooWide cap).
Definition as_address (v : Value) : result EvalError Address := match v with Val.Address a => Ok a | _ => mismatch (WKind KAddress) v end.
Definition as_key (v : Value) : result EvalError SubstateKey := match v with Val.Key k => Ok k | _ => mismatch (WKind KKey) v end.
Definition as_bool (v : Value) : result EvalError bool := match v with Val.Bool b => Ok b | _ => mismatch (WKind KBool) v end.
Definition fields_of (v : Value) : result EvalError (list Value) := match v with Val.Tuple vs => Ok vs | _ => mismatch (WKind KTuple) v end.
Definition elements (v : Value) : result EvalError (list Value) := match v with Val.List vs => Ok vs | _ => mismatch (WKind KList) v end.
Definition as_list (v : Value) : result EvalError (list Value) := match v with Val.List vs => Ok vs | _ => mismatch (WKind KList) v end.
Definition slice_get {A} (l : list A) (index : Z) : option A := l !! Z.to_nat index.
Definition field (fields : list Value) (index : Z) : result EvalError Value :=
  ok_or (slice_get fields index) (EvalErr.FieldOutOfRange index (length fields)).
Definition resource_of_address (a : Address) : result EvalError ResourceAddr := ok_or (narrowed resource_admits a) (EvalErr.NotAResource a).
Definition bucket_parts (v : Value) : result EvalError (ResourceAddr * EdgeContent) :=
  match v with Val.Bucket r c => Ok (r, c) | _ => mismatch (WKind KBucket) v end.
Definition edge_ids (c : EdgeContent) : result EvalError Value :=
  match c with
  | EdgeContent.NonFungible ids => Ok (Val.List (Val.U64 <$> ids))
  | EdgeContent.Fungible => Err (EvalErr.TypeMismatch WNonFungibleBucket (FKind KBucket))
  end.
(** A list in memory is shorter than [u64] counts. *)
Definition count (elements : list Value) : Value := Val.U64 (Z.min (Z.of_nat (length elements)) (width_max 64)).
Definition sole (elements : list Value) : result EvalError Value :=
  match elements with [only] => Ok only | _ => Err (EvalErr.NotSingleton (length elements)) end.
Definition add (left right : Value) : result EvalError Value :=
  match left, right with
  | Val.U64 l, Val.U64 r => match checked_add 64 l r with Some x => Ok (Val.U64 x) | None => Err EvalErr.AddOverflow end
  | Val.U128 l, Val.U128 r => match checked_add 128 l r with Some x => Ok (Val.U128 x) | None => Err EvalErr.AddOverflow end
  | Val.U64 _, other => mismatch (WKind KU64) other
  | Val.U128 _, other => mismatch (WKind KU128) other
  | other, _ => mismatch WInteger other
  end.
Definition less_than (left right : Value) : result EvalError Value :=
  match left, right with
  | Val.U64 l, Val.U64 r | Val.U128 l, Val.U128 r => Ok (Val.Bool (bool_decide (l < r)))
  | Val.U64 _, other => mismatch (WKind KU64) other
  | Val.U128 _, other => mismatch (WKind KU128) other
  | other, _ => mismatch WInteger other
  end.
Definition reject_bucket (v : Value) : result EvalError () :=
  if existsb (λ v, match v with Val.Bucket _ _ => true | _ => false end) (visited v)
  then Err (EvalErr.TypeMismatch WComparable (FKind KBucket)) else Ok ().
Definition equals (left right : Value) : result EvalError Value :=
  _ ← reject_bucket left;
  _ ← reject_bucket right;
  if decide (value_kind left = value_kind right) then Ok (Val.Bool (value_eqb left right))
  else mismatch (WKind (value_kind left)) right.
Fixpoint id_set_walk (values : list Value) (ids : list Z) : result EvalError (list Z) :=
  match values with
  | [] => Ok ids
  | v :: values =>
      id ← as_u64 v;
      if decide (id ∈ ids) then Err (EvalErr.DuplicateId id) else id_set_walk values (ids ++ [id])
  end.
Definition id_set (values : list Value) : result EvalError (list Z) :=
  ids ← id_set_walk values [];
  if decide (length ids ≤ MAX_IDS_PER_EDGE)%nat then Ok ids else Err (EvalErr.TooManyIds (length ids)).
Definition binding (bindings : list Value) (index : Z) : result EvalError Value :=
  ok_or (position ← (if decide (Z.to_nat index < length bindings)%nat then Some (length bindings - S (Z.to_nat index))%nat else None);
         bindings !! position) (EvalErr.BindingOutOfRange index).
Definition find_pair (pairs : list Value) (key : Value) : EM (option Value) :=
  let probe := walked key in
  (fix go (pairs : list Value) : EM (option Value) :=
     match pairs with
     | [] => mret None
     | p :: pairs =>
         _ ← spend probe;
         match p with
         | Val.Tuple [pair_key; pair_value] => if value_eqb pair_key key then mret (Some pair_value) else go pairs
         | _ => em_lift (Err EvalErr.LookupNotPairs)
         end
     end) pairs.
Definition derivations (e : Expr) : Z :=
  match e with
  | Ex.SelfResource _ _ _ => 2
  | Ex.ChildKey _ _ _ | Ex.OrderKey _ _ _ | Ex.FreshId _ | Ex.FreshKey _ => 1
  | _ => 0
  end.

(** ** Evaluation *)

Definition DOMAIN_FRESH : bytes := (* hyperscale-vm/fresh-id *)
  [x68; x79; x70; x65; x72; x73; x63; x61; x6c; x65; x2d; x76; x6d; x2f; x66; x72; x65; x73; x68; x2d; x69; x64].

Section evaluation.
Context (hash : bytes → list bytes → Z).

Definition fresh_digest (identity node slot : Z) : Z := hash DOMAIN_FRESH [be_bytes 32 identity; le_bytes 4 node; le_bytes 4 slot].
Definition fresh_id (identity node slot : Z) : Z := le_val (take 8 (be_bytes 32 (fresh_digest identity node slot))).
Definition fresh_local (identity node slot : Z) : Z := digest_half (fresh_digest identity node slot).

Definition from_presented (records : list ResourceMeta) : option PresentedGrants :=
  foldl (λ granted record, granted ← granted; a ← meta_address hash record;
           Some match granted !! a with Some _ => granted | None => <[a := rm_rules record]> granted end) (Some ∅) records.
Definition presented_rules (g : PresentedGrants) (resource : ResourceAddr) : option ResourceGrants := g !! resource.

Section inputs.
Context (inputs : EvalInputs).

Definition inputs_fresh_id (slot : Z) : Z := fresh_id (ei_identity inputs) (ei_node inputs) slot.
Definition inputs_fresh_key (slot : Z) : SubstateKey :=
  {| owner := ei_self inputs; local := fresh_local (ei_identity inputs) (ei_node inputs) slot |}.
Definition arg (index : Z) : result EvalError Value := ok_or (slice_get (ei_args inputs) index) (EvalErr.ArgOutOfRange index).
Definition config (index : Z) : result EvalError Value :=
  ok_or (slice_get (im_config (ei_record inputs)) index) (EvalErr.ConfigOutOfRange index).
Definition self_resource (kind : ResourceKind) (material : list bytes) (grants : GrantsExpr) : EM Value :=
  rules ← (λ b, (b, match grants_resolve hash grants (ei_self inputs) (im_config (ei_record inputs)) with
                    | Ok rules => Ok rules
                    | Err (Refuses e) => Err (Refuses (EvalErr.GrantsUnresolvable e))
                    | Err Panics => Err Panics
                    end)) : EM ResourceGrants;
  a ← em_expects (granting_resource_address hash (ei_self inputs) kind rules material);
  mret (Val.Address a).

(** The walks over a term's parts, over the evaluation of one. *)
Section parts.
Context (eval : Expr → EM Cow).
Definition eval_material : list Expr → EM (list bytes) :=
  fix go (material : list Expr) : EM (list bytes) :=
    match material with
    | [] => mret []
    | e :: material =>
        value ← eval e;
        _ ← spend (walked (cow_value value));
        bytes ← em_expects (canonical_bytes (cow_value value));
        rest ← go material;
        mret (bytes :: rest)
    end.
Definition eval_all : list Expr → EM (list Value) :=
  fix go (elements : list Expr) : EM (list Value) :=
    match elements with
    | [] => mret []
    | e :: elements => c ← eval e; v ← forced c; rest ← go elements; mret (v :: rest)
    end.
Definition eval_slot (slot : SlotRef Expr) (point : bool) : EM SlotId :=
  match slot with
  | Fixed slot => mret slot
  | Reached e =>
      value ← eval e;
      named ← em_lift (as_u64 (cow_value value));
      if decide (width_max 16 < named) then em_lift (Err (EvalErr.UnreachableSlot named))
      else
        let holds_value :=
          if decide (PACKAGE_SLOT_BASE ≤ named) then bool_decide (named < KERNEL_SLOT_BASE)
          else if point then bool_decide (named = VAULT) else bool_decide (named = NF_VAULT) in
        if holds_value then mret named else em_lift (Err (EvalErr.UnreachableSlot named))
  end.
End parts.

Fixpoint eval_expr (e : Expr) (bindings : list Value) (depth : nat) : EM Cow :=
  if decide (MAX_EXPR_DEPTH < depth)%nat then em_lift (Err EvalErr.ExpressionTooDeep)
  else
    _ ← spend (1 + derivations e * WORK_PER_DERIVATION);
    let sub (e : Expr) := eval_expr e bindings (S depth) in
    let built (m : EM Value) : EM Cow := v ← m; _ ← spend (walked v); mret (Owned v) in
    match e with
    | Ex.Literal v => mret (Borrowed v)
    | Ex.Arg index => v ← em_lift (arg index); mret (Borrowed v)
    | Ex.Config index => v ← em_lift (config index); mret (Borrowed v)
    | Ex.Binding index => v ← em_lift (binding bindings index); mret (Borrowed v)
    | Ex.If cond thn otherwise =>
        c ← sub cond;
        flag ← em_lift (as_bool (cow_value c));
        if flag : bool then sub thn else sub otherwise
    | Ex.SelfAddr => built (mret (Val.Address (ei_self inputs)))
    | Ex.SelfRecord =>
        built (em_lift match meta_leaf_bytes (ei_record inputs) with Ok b => Ok (Val.Bytes b) | Err _ => Err EvalErr.RecordMalformed end)
    | Ex.Field tuple index =>
        built (t ← sub tuple; fs ← em_lift (fields_of (cow_value t)); f ← em_lift (field fs index); _ ← spend (walked f); mret f)
    | Ex.ResourceOf bucket => built (b ← sub bucket; p ← em_lift (bucket_parts (cow_value b)); mret (Val.Address p.1))
    | Ex.IdsOf bucket => built (b ← sub bucket; p ← em_lift (bucket_parts (cow_value b)); em_lift (edge_ids p.2))
    | Ex.Len items => built (l ← sub items; vs ← em_lift (elements (cow_value l)); mret (count vs))
    | Ex.Only items =>
        built (l ← sub items; vs ← em_lift (elements (cow_value l)); only ← em_lift (sole vs); _ ← spend (walked only); mret only)
    | Ex.Lookup map key =>
        built (m ← sub map; pairs ← em_lift (elements (cow_value m)); k ← sub key;
               hit ← find_pair pairs (cow_value k); hit ← em_lift (ok_or hit EvalErr.LookupMiss);
               _ ← spend (walked hit); mret hit)
    | Ex.SelfResource kind parts grants => built (material ← eval_material sub parts; self_resource kind material grants)
    | Ex.ChildKey owner slot parts =>
        built (o ← sub owner; o ← em_lift (as_address (cow_value o)); s ← eval_slot sub slot true; material ← eval_material sub parts;
               mret (Val.Key (child_key hash o s material)))
    | Ex.OrderKey owner slot parts =>
        built (o ← sub owner; o ← em_lift (as_address (cow_value o)); material ← eval_material sub parts;
               mret (Val.U128 (order_key hash o slot material)))
    | Ex.FreshId slot => built (mret (Val.U64 (inputs_fresh_id slot)))
    | Ex.FreshKey slot => built (mret (Val.Key (inputs_fresh_key slot)))
    | Ex.Pack hi lo =>
        built (h ← sub hi; h ← em_lift (as_u64 (cow_value h)); l ← sub lo; l ← em_lift (as_u64 (cow_value l));
               mret (Val.U128 (Z.lor (Z.shiftl h 64) l)))
    | Ex.List elements => built (vs ← eval_all sub elements; mret (Val.List vs))
    | Ex.Tuple fields => built (vs ← eval_all sub fields; mret (Val.Tuple vs))
    | Ex.NfBucket resource ids =>
        built (r ← sub resource; a ← em_lift (as_address (cow_value r)); r ← em_lift (resource_of_address a);
               i ← sub ids; vs ← em_lift (elements (cow_value i)); ids ← em_lift (id_set vs);
               mret (Val.Bucket r (EdgeContent.NonFungible ids)))
    | Ex.Not inner => built (v ← sub inner; flag ← em_lift (as_bool (cow_value v)); mret (Val.Bool (negb flag)))
    | Ex.And lhs rhs | Ex.Or lhs rhs =>
        let short := match e with Ex.Or _ _ => true | _ => false end in
        built (l ← sub lhs; flag ← em_lift (as_bool (cow_value l));
               if bool_decide (flag = short) then mret (Val.Bool short)
               else r ← sub rhs; flag ← em_lift (as_bool (cow_value r)); mret (Val.Bool flag))
    | Ex.Add lhs rhs => built (l ← sub lhs; r ← sub rhs; em_lift (add (cow_value l) (cow_value r)))
    | Ex.Eq lhs rhs =>
        built (l ← sub lhs; r ← sub rhs; _ ← spend (walked (cow_value l) + walked (cow_value r));
               em_lift (equals (cow_value l) (cow_value r)))
    | Ex.Lt lhs rhs => built (l ← sub lhs; r ← sub rhs; em_lift (less_than (cow_value l) (cow_value r)))
    | Ex.Contains map key =>
        built (m ← sub map; pairs ← em_lift (elements (cow_value m)); k ← sub key;
               hit ← find_pair pairs (cow_value k); mret (Val.Bool match hit with Some _ => true | None => false end))
    end.
Definition evaluate_expr (e : Expr) (envelope : Z) : Z * result (halt EvalError) Value :=
  let '(b, r) := (c ← eval_expr e [] 0; forced c) (budget_new envelope) in (bg_envelope b, r).

(** ** Targets, modes, rules *)

Definition eval_at (e : Expr) (bindings : list Value) : EM Value := c ← eval_expr e bindings 0; mret (cow_value c).
Definition eval_denomination (e : Expr) (bindings : list Value) : EM ResourceAddr :=
  v ← eval_at e bindings;
  match v with
  | Val.Address a => em_lift (resource_of_address a)
  | _ => em_lift (mismatch WResource v)
  end.
Definition slot_of (t : TargetExpr) : option (SlotRef Expr * list Expr) :=
  match t with
  | Te.Point (Ex.ChildKey _ slot material) => Some (slot, material)
  | Te.Point _ => None
  | Te.Entry _ collection material _ | Te.Range _ collection material _ _ _ => Some (collection, material)
  end.
Definition keying_resource (t : TargetExpr) : option Expr :=
  match t with
  | Te.Point (Ex.ChildKey _ _ material) | Te.Entry _ _ material _ | Te.Range _ _ material _ _ _ => head material
  | Te.Point _ => None
  end.
Record Reach_ := { reach_behaviour : GrantedBehaviour; reach_resource : ResourceAddr }.
Definition eval_reach (reach : option GrantedBehaviour) (t : TargetExpr) (bindings : list Value) : EM (option Reach_) :=
  match reach with
  | None => mret None
  | Some b =>
      keyed ← em_lift (ok_or (keying_resource t) EvalErr.UnkeyedReach);
      resource ← eval_denomination keyed bindings;
      mret (Some {| reach_behaviour := b; reach_resource := resource |})
  end.
Definition target_width (t : TargetExpr) : Z :=
  match t with
  | Te.Point (Ex.ChildKey _ slot _) | Te.Entry _ slot _ _ | Te.Range _ slot _ _ _ _ =>
      match slot with Fixed slot => slot_width (ei_widths inputs) slot | Reached _ => MAX_SLOT_WIDTH end
  | Te.Point _ => MAX_SLOT_WIDTH
  end.
Definition eval_collection (owner : Address) (slot : SlotRef Expr) (material : list Expr) (bindings : list Value) : EM CollectionId :=
  slot ← eval_slot (λ e, eval_expr e bindings 0) slot false;
  encoded ← eval_material (λ e, eval_expr e bindings 0) material;
  _ ← spend WORK_PER_DERIVATION;
  mret (collection_id hash owner slot encoded).
Definition eval_target (t : TargetExpr) (bindings : list Value) : EM (EffectTarget * Z) :=
  let width := target_width t in
  match t with
  | Te.Point e => v ← eval_at e bindings; key ← em_lift (as_key v); mret (Point key, width)
  | Te.Entry owner collection material order =>
      v ← eval_at owner bindings; owner ← em_lift (as_address v);
      collection ← eval_collection owner collection material bindings;
      v ← eval_at order bindings; order ← em_lift (as_u128 v);
      mret (Entry owner collection order, width)
  | Te.Range owner collection material lo hi cap =>
      v ← eval_at owner bindings; owner ← em_lift (as_address v);
      collection ← eval_collection owner collection material bindings;
      v ← eval_at lo bindings; lo ← em_lift (as_u128 v);
      v ← eval_at hi bindings; hi ← em_lift (as_u128 v);
      if decide (hi < lo) then em_lift (Err EvalErr.InvalidRange)
      else v ← eval_at cap bindings; cap ← em_lift (as_cap v); mret (Range owner collection lo hi cap, width)
  end.
Definition eval_mode (m : ModeExpr) (bindings : list Value) : EM Mode :=
  match m with
  | Me.Read => mret MRead
  | Me.Delta moves => mret (MDelta moves)
  | Me.Reserve e => v ← eval_at e bindings; amount ← em_lift (as_u128 v); mret (MReserve amount)
  | Me.Write moves => mret (MWrite moves)
  end.
Definition eval_leaf (l : RuleLeaf) (bindings : list Value) : EM JudgedLeaf.JudgedLeaf :=
  match l with
  | Leaf_.IfPresence target expect => t ← eval_target target bindings; mret (JudgedLeaf.IfPresence t.1 expect)
  | Leaf_.Claimed e =>
      v ← eval_at e bindings;
      match claim_of_value v with
      | Some c => mret (JudgedLeaf.Claimed c)
      | None => em_lift (mismatch WClaim v)
      end
  | Leaf_.Stored cell => v ← eval_at cell bindings; key ← em_lift (as_key v); mret (JudgedLeaf.Stored key)
  end.
Definition eval_branches (eval : RuleExpr → EM (Rule JudgedLeaf.JudgedLeaf)) : list RuleExpr → EM (list (Rule JudgedLeaf.JudgedLeaf)) :=
  fix go (rules : list RuleExpr) : EM (list (Rule JudgedLeaf.JudgedLeaf)) :=
    match rules with [] => mret [] | r :: rules => r ← eval r; rules ← go rules; mret (r :: rules) end.
Fixpoint eval_condition (r : RuleExpr) (bindings : list Value) : EM (Rule JudgedLeaf.JudgedLeaf) :=
  match r with
  | Require leaf => l ← eval_leaf leaf bindings; mret (Require l)
  | CountOf count rules => rules ← eval_branches (λ r, eval_condition r bindings) rules; mret (CountOf count rules)
  end.

(** ** Clauses *)

Record EvalAccess := { ea_effect : Effect; ea_holds : option ResourceAddr; ea_reach : option Reach_; ea_clause : option Z }.
Record EvalDeclaration := {
  ed_set : EffectSet;
  ed_ordered : list EvalAccess;
  ed_spans : list (Z * Z);
  ed_conditions : list Condition;
  ed_proves : list Claim;
  ed_taken : list bool;
  ed_expansions : gmap Z (list (list (option Z)));
}.
Definition declaration_empty : EvalDeclaration :=
  {| ed_set := effects_new; ed_ordered := []; ed_spans := []; ed_conditions := []; ed_proves := []; ed_taken := []; ed_expansions := ∅ |}.
Definition with_access (d : EvalDeclaration) (set : EffectSet) (a : EvalAccess) : EvalDeclaration :=
  {| ed_set := set; ed_ordered := ed_ordered d ++ [a]; ed_spans := ed_spans d; ed_conditions := ed_conditions d;
     ed_proves := ed_proves d; ed_taken := ed_taken d; ed_expansions := ed_expansions d |}.
Definition with_span (d : EvalDeclaration) (s : Z * Z) : EvalDeclaration :=
  {| ed_set := ed_set d; ed_ordered := ed_ordered d; ed_spans := ed_spans d ++ [s]; ed_conditions := ed_conditions d;
     ed_proves := ed_proves d; ed_taken := ed_taken d; ed_expansions := ed_expansions d |}.
Definition with_condition (d : EvalDeclaration) (c : Condition) : EvalDeclaration :=
  {| ed_set := ed_set d; ed_ordered := ed_ordered d; ed_spans := ed_spans d; ed_conditions := ed_conditions d ++ [c];
     ed_proves := ed_proves d; ed_taken := ed_taken d; ed_expansions := ed_expansions d |}.
Definition with_proves (d : EvalDeclaration) (cs : list Claim) : EvalDeclaration :=
  {| ed_set := ed_set d; ed_ordered := ed_ordered d; ed_spans := ed_spans d; ed_conditions := ed_conditions d;
     ed_proves := ed_proves d ++ cs; ed_taken := ed_taken d; ed_expansions := ed_expansions d |}.
Definition with_taken (d : EvalDeclaration) (t : bool) : EvalDeclaration :=
  {| ed_set := ed_set d; ed_ordered := ed_ordered d; ed_spans := ed_spans d; ed_conditions := ed_conditions d;
     ed_proves := ed_proves d; ed_taken := ed_taken d ++ [t]; ed_expansions := ed_expansions d |}.
Definition with_expansion (d : EvalDeclaration) (clause : Z) (rows : list (list (option Z))) : EvalDeclaration :=
  {| ed_set := ed_set d; ed_ordered := ed_ordered d; ed_spans := ed_spans d; ed_conditions := ed_conditions d;
     ed_proves := ed_proves d; ed_taken := ed_taken d; ed_expansions := <[clause := rows]> (ed_expansions d) |}.
(** [Declaration::elements]. *)
Definition declared_elements (d : EvalDeclaration) (clause site : Z) : option (list (option Z)) :=
  rows ← ed_expansions d !! clause; rows !! Z.to_nat site.

Fixpoint preorder_len_of (c : Clause) : Z :=
  match c with
  | Cl.ForEach _ _ body => saturating_add 32 1 (foldl (λ n c, saturating_add 32 n (preorder_len_of c)) 0 body)
  | _ => 1
  end.
Definition preorder_len (clauses : list Clause) : Z := foldl (λ n c, saturating_add 32 n (preorder_len_of c)) 0 clauses.

Definition eval_effect (t : TargetExpr) (m : ModeExpr) (denomination : option Expr) (reach : option GrantedBehaviour) (number : Z)
    (bindings : list Value) (out : EvalDeclaration) : EM EvalDeclaration :=
  tw ← eval_target t bindings;
  m ← eval_mode m bindings;
  _ ← charge;
  held ← match denomination with None => mret None | Some e => r ← eval_denomination e bindings; mret (Some r) end : EM (option ResourceAddr);
  reached ← eval_reach reach t bindings;
  let effect := {| target := tw.1; mode := m |} in
  match insert_bounded (ed_set out) effect tw.2 with
  | (set, Ok _) => mret (with_access out set {| ea_effect := effect; ea_holds := held; ea_reach := reached; ea_clause := Some number |})
  | (_, Err e) => em_lift (Err (EvalErr.Conflict e))
  end.
Definition eval_proves (claim : Expr) (bindings : list Value) (out : EvalDeclaration) : EM EvalDeclaration :=
  _ ← charge;
  v ← eval_at claim bindings;
  proven ← em_lift (match claim_of_value v with Some c => Ok c | None => mismatch WClaim v end);
  if match claim_badge proven with None => true | Some _ => false end && match claim with Ex.SelfAddr => false | _ => true end
  then em_lift (Err (EvalErr.TypeMismatch WBadge FIdentity))
  else
    let out := with_proves out (proven :: option_list (widened proven)) in
    if decide (MAX_PROVEN_PER_SIGNATURE < length (ed_proves out))%nat then em_lift (Err EvalErr.ProvesPastCap) else mret out.

(** One element's pass over a body, and the loop over the elements, over the
    evaluation of one clause. *)
Section bodies.
Context (eval : Clause → list Value → EvalDeclaration → EM EvalDeclaration).
Definition landed (c : Clause) (before : nat) (out : EvalDeclaration) : option Z :=
  match c with
  | Cl.Effect _ _ _ _ _ =>
      if decide (length (ed_ordered out) = S before ∧ Z.of_nat before ≤ width_max 32) then Some (Z.of_nat before) else None
  | _ => None
  end.
Definition eval_expansion : list Clause → list Value → EvalDeclaration → option (list (list (option Z))) →
    EM (EvalDeclaration * option (list (list (option Z)))) :=
  fix go (body : list Clause) (bindings : list Value) (out : EvalDeclaration) (rows : option (list (list (option Z)))) :=
    match body with
    | [] => mret (out, match rows with Some _ => Some [] | None => None end)
    | c :: body =>
        out' ← eval c bindings out;
        rest ← go body bindings out' match rows with Some rows => Some (tail rows) | None => None end;
        mret (rest.1, match rows, rest.2 with
                      | Some (row :: _), Some rows => Some ((row ++ [landed c (length (ed_ordered out)) out']) :: rows)
                      | _, rows => rows
                      end)
    end.
Definition eval_items (body : list Clause) (body_lines : Z) : list Value → list Value → EvalDeclaration → option (list (list (option Z))) →
    EM (EvalDeclaration * option (list (list (option Z)))) :=
  fix go (items : list Value) (bindings : list Value) (out : EvalDeclaration) (rows : option (list (list (option Z)))) :=
    match items with
    | [] => mret (out, rows)
    | item :: items =>
        _ ← charge;
        _ ← set_preorder body_lines;
        p ← eval_expansion body (bindings ++ [item]) out rows;
        go items bindings p.1 p.2
    end.
Definition eval_foreach (items : Expr) (body : list Clause) (bindings : list Value) (out : EvalDeclaration) : EM EvalDeclaration :=
  c ← eval_expr items bindings 0;
  v ← forced c;
  items ← em_lift (as_list v);
  if decide (MAX_FOREACH_ELEMENTS < length items)%nat then em_lift (Err (EvalErr.ForEachTooLong (length items)))
  else
    depth ← em_get bg_depth;
    let rows := if decide (depth = 0%nat) then Some (replicate (length body) []) else None in
    clause ← em_get bg_clause;
    body_lines ← em_get bg_preorder;
    _ ← set_depth S;
    p ← eval_items body body_lines items bindings out rows;
    _ ← set_depth pred;
    _ ← set_preorder (saturating_add 32 body_lines (preorder_len body));
    mret match p.2 with Some rows => with_expansion p.1 clause rows | None => p.1 end.
End bodies.

(** [eval_clauses], which both its callers hand one clause. *)
Fixpoint eval_clause (c : Clause) (bindings : list Value) (out : EvalDeclaration) : EM EvalDeclaration :=
  depth ← em_get bg_depth;
  if decide (MAX_CLAUSE_DEPTH < depth)%nat then em_lift (Err EvalErr.ClausesTooDeep)
  else
    number ← em_get bg_preorder;
    _ ← set_preorder (saturating_add 32 number 1);
    taken ← match clause_guard c with
            | Some cond => v ← eval_at cond bindings; em_lift (as_bool v)
            | None => mret true
            end : EM bool;
    let out := if decide (depth = 0%nat) then with_taken out taken else out in
    if negb taken then
      match c with
      | Cl.ForEach _ _ body =>
          line ← em_get bg_preorder;
          _ ← set_preorder (saturating_add 32 line (preorder_len body));
          clause ← em_get bg_clause;
          mret (if decide (depth = 0%nat) then with_expansion out clause (replicate (length body) []) else out)
      | _ => mret out
      end
    else
      match c with
      | Cl.Effect _ target mode denomination reach => eval_effect target mode denomination reach number bindings out
      | Cl.Requires _ rule => _ ← charge; r ← eval_condition rule bindings; mret (with_condition out {| c_rule := r; c_node := None |})
      | Cl.Proves _ claim => eval_proves claim bindings out
      | Cl.ForEach _ items body => eval_foreach eval_clause items body bindings out
      end.
Fixpoint eval_top (clauses : list Clause) (index : Z) (out : EvalDeclaration) : EM EvalDeclaration :=
  match clauses with
  | [] => mret out
  | c :: clauses =>
      let start := length (ed_ordered out) in
      if decide (width_max 32 < index) then em_lift (Err EvalErr.TooManyEffects)
      else
        _ ← set_clause index;
        out ← eval_clause c [] out;
        let len := (length (ed_ordered out) - start)%nat in
        if decide (width_max 32 < Z.of_nat start ∨ width_max 32 < Z.of_nat len) then em_lift (Err EvalErr.TooManyEffects)
        else eval_top clauses (index + 1) (with_span out (Z.of_nat start, Z.of_nat len))
  end.
Definition evaluate_declaration (clauses : list Clause) (envelope : Z) : Z * result (halt EvalError) EvalDeclaration :=
  let '(b, r) := eval_top clauses 0 declaration_empty (budget_new envelope) in (bg_envelope b, r).
Definition evaluate_effects (clauses : list Clause) (envelope : Z) : Z * result (halt EvalError) EffectSet :=
  let '(spent, r) := evaluate_declaration clauses envelope in (spent, d ← r; Ok (ed_set d)).
End inputs.
End evaluation.

(** ** Terms *)

Lemma expr_children_ind (P : Expr → Prop) : (∀ e, Forall P (expr_children e) → P e) → ∀ e, P e.
Proof.
  intros H. fix IH 1. intros e.
  apply H. destruct e; cbn [expr_children]; repeat (apply Forall_cons; split; [apply IH|]); try solve [constructor].
  4: apply Forall_app; split; [destruct slot; cbn; repeat constructor; apply IH|].
  all: match goal with |- Forall _ ?l => induction l as [|x l IHl]; constructor; [apply IH|exact IHl] end.
Qed.
Lemma reads_children e : reads_call_inputs e = is_input_leaf e || existsb reads_call_inputs (expr_children e).
Proof.
  destruct e; cbn; rewrite ?orb_false_r, ?orb_assoc; try done. rewrite existsb_app. destruct slot; cbn; by rewrite ?orb_false_r, ?orb_assoc.
Qed.
(** The literals a term is written with. *)
Fixpoint literals (e : Expr) : list Value :=
  match e with
  | Ex.Literal v => [v]
  | Ex.Arg _ | Ex.Config _ | Ex.Binding _ | Ex.SelfAddr | Ex.SelfRecord | Ex.FreshId _ | Ex.FreshKey _ => []
  | Ex.Field inner _ | Ex.ResourceOf inner | Ex.IdsOf inner | Ex.Len inner | Ex.Only inner | Ex.Not inner => literals inner
  | Ex.Lookup first second | Ex.Contains first second | Ex.Pack first second | Ex.NfBucket first second
  | Ex.Add first second | Ex.And first second | Ex.Or first second | Ex.Eq first second | Ex.Lt first second => literals first ++ literals second
  | Ex.If cond thn otherwise => literals cond ++ literals thn ++ literals otherwise
  | Ex.List elements | Ex.Tuple elements | Ex.SelfResource _ elements _ => concat (literals <$> elements)
  | Ex.ChildKey owner slot material =>
      literals owner ++ match slot with Fixed _ => [] | Reached s => literals s end ++ concat (literals <$> material)
  | Ex.OrderKey owner _ material => literals owner ++ concat (literals <$> material)
  end.
Definition expr_typed (e : Expr) : Prop := Forall value_typed (literals e).
Lemma expr_typed_children e : expr_typed e → Forall expr_typed (expr_children e).
Proof.
  unfold expr_typed. destruct e; cbn [literals expr_children]; rewrite ?Forall_app, ?Forall_cons; intros; destruct_and?;
    rewrite ?Forall_nil; try tauto; try (apply Forall_fmap, Forall_concat; done).
  - split; [done|]. destruct slot; cbn; rewrite ?Forall_cons; try split; try done; by apply Forall_fmap, Forall_concat.
  - split; [done|]. by apply Forall_fmap, Forall_concat.
Qed.

(** ** What a run of the meter leaves *)

Definition hoare {A} (P : Budget → Prop) (m : EM A) (Q : A → Budget → Prop) : Prop :=
  ∀ b, P b → match m b with (b', Ok a) => Q a b' | _ => True end.
Lemma hoare_bind {A B} P (m : EM A) Q (f : A → EM B) R : hoare P m Q → (∀ a, hoare (Q a) (f a) R) → hoare P (m ≫= f) R.
Proof. intros Hm Hf b Hb. specialize (Hm b Hb). unfold mbind, em_bind. destruct (m b) as [b' [a|e]]; [by apply Hf|done]. Qed.
Lemma hoare_ret {A} (P : Budget → Prop) (a : A) Q : (∀ b, P b → Q a b) → hoare P (mret a) Q.
Proof. intros H b Hb. by apply H. Qed.
Lemma hoare_conseq {A} (P P' : Budget → Prop) (m : EM A) (Q Q' : A → Budget → Prop) :
  hoare P m Q → (∀ b, P' b → P b) → (∀ a b, Q a b → Q' a b) → hoare P' m Q'.
Proof. intros H HP HQ b Hb%HP. specialize (H b Hb). destruct (m b) as [b' [a|e]]; [by apply HQ|done]. Qed.
Lemma hoare_lift {A} P (r : result EvalError A) : hoare P (em_lift r) (λ a b, P b ∧ r = Ok a).
Proof. intros b Hb. unfold em_lift, refuse. by destruct r. Qed.
Lemma hoare_expects {A} P (o : option A) : hoare P (em_expects o) (λ a b, P b ∧ o = Some a).
Proof. intros b Hb. unfold em_expects, expects, ok_or. by destruct o. Qed.

(** Expression work moves the two meters together and nothing else. *)
Definition in_meter (b : Budget) : Prop := 0 ≤ bg_spent b ≤ MAX_EVALUATION_WORK ∧ 0 ≤ bg_envelope b ≤ MAX_ENVELOPE_EVALUATION_WORK.
Record metered (b b' : Budget) : Prop := {
  mt_depth : bg_depth b' = bg_depth b;
  mt_work : bg_work b' = bg_work b;
  mt_clause : bg_clause b' = bg_clause b;
  mt_preorder : bg_preorder b' = bg_preorder b;
  mt_spent : bg_spent b ≤ bg_spent b';
  mt_both : bg_envelope b' - bg_envelope b = bg_spent b' - bg_spent b;
  mt_meter : in_meter b';
}.
Lemma metered_refl b : in_meter b → metered b b.
Proof. split; done || lia. Qed.
Lemma metered_trans b1 b2 b3 : metered b1 b2 → metered b2 b3 → metered b1 b3.
Proof. intros [] []. split; congruence || lia || done. Qed.
(** An expression's run: it answers with what [P] says, having only spent. *)
Definition answers_with {A} (P : A → Prop) (m : EM A) : Prop := ∀ b0, in_meter b0 → hoare (metered b0) m (λ a b, metered b0 b ∧ P a).
Lemma answers_bind_with {A B} (P : A → Prop) (Q : B → Prop) m (f : A → EM B) :
  answers_with P m → (∀ a, P a → answers_with Q (f a)) → answers_with Q (m ≫= f).
Proof.
  intros Hm Hf b0 Hb0. eapply hoare_bind; [by apply Hm|]. intros a b [Hb Ha]. by apply (Hf a Ha b0 Hb0 b).
Qed.
Lemma answers_ret {A} (P : A → Prop) a : P a → answers_with P (mret a).
Proof. intros Ha b0 Hb0. by apply hoare_ret. Qed.
Lemma answers_lift {A} (P : A → Prop) r : (∀ a, r = Ok a → P a) → answers_with P (em_lift r).
Proof. intros Hr b0 Hb0. eapply hoare_conseq; [apply hoare_lift|done|]. intros a b [? ?]. naive_solver. Qed.
Lemma answers_expects {A} (P : A → Prop) o : (∀ a, o = Some a → P a) → answers_with P (em_expects o).
Proof. intros Hr b0 Hb0. eapply hoare_conseq; [apply hoare_expects|done|]. intros a b [? ?]. naive_solver. Qed.
Lemma answers_weaken {A} (P Q : A → Prop) m : answers_with P m → (∀ a, P a → Q a) → answers_with Q m.
Proof. intros H HQ b0 Hb0. eapply hoare_conseq; [by apply H|done|]. naive_solver. Qed.
Lemma saturating_add_small x y : 0 ≤ x → 0 ≤ y → x + y ≤ 2 ^ 64 - 1 → saturating_add 64 x y = x + y.
Proof. intros. unfold saturating_add, width_max. lia. Qed.
Lemma saturating_add_cases x y : 0 ≤ x → 0 ≤ y → saturating_add 64 x y = x + y ∨ saturating_add 64 x y = 2 ^ 64 - 1.
Proof. unfold saturating_add, width_max. lia. Qed.
Lemma spend_answers units : 0 ≤ units → answers_with (λ _, True) (spend units).
Proof.
  intros Hu b0 Hb0 b Hb. unfold spend. destruct Hb as [H1 H2 H3 H4 H5 H6 [[S1 S2] [E1 E2]]].
  unfold MAX_EVALUATION_WORK, MAX_ENVELOPE_EVALUATION_WORK in *. destruct (decide _) as [|Hs]; [done|]. unfold envelope_spend.
  destruct (decide _) as [|He]; [done|]. cbn in *.
  destruct (saturating_add_cases (bg_spent b) units) as [Es|Es]; [lia..| |lia].
  destruct (saturating_add_cases (bg_envelope b) units) as [Ee|Ee]; [lia..| |unfold MAX_ENVELOPE_EVALUATION_WORK in He; lia].
  split; [|done]. unfold MAX_ENVELOPE_EVALUATION_WORK in He.
  split; cbn; try done; try lia. unfold in_meter, MAX_EVALUATION_WORK, MAX_ENVELOPE_EVALUATION_WORK. cbn. lia.
Qed.
Lemma walked_pos v : 0 ≤ walked v.
Proof. unfold walked. induction (visited v) as [|x l IH]; cbn [foldr]; [lia|]. destruct x; lia. Qed.
#[export] Hint Resolve walked_pos : core.

(** ** Typed answers *)

Record inputs_typed (hash : bytes → list bytes → Z) (i : EvalInputs) : Prop := {
  it_hash : ∀ domain parts, in_width 256 (hash domain parts);
  it_self : address_ok (ei_self i);
  it_args : Forall value_typed (ei_args i);
  it_config : Forall value_typed (im_config (ei_record i));
}.
Lemma digest_half_bound d : in_width 256 d → width_ok 16 (digest_half d).
Proof. unfold in_width, width_ok, digest_half. intros Hd. split; [apply Z.div_pos; lia|apply Z.div_lt_upper_bound; lia]. Qed.
Lemma typed_scalar v : children v = [] → node_typed v → value_typed v.
Proof. intros Hc Hv. apply typed_children. by rewrite Hc. Qed.
Lemma typed_list vs : value_typed (Val.List vs) ↔ Forall value_typed vs.
Proof. rewrite typed_children. cbn. naive_solver. Qed.
Lemma typed_tuple vs : value_typed (Val.Tuple vs) ↔ Forall value_typed vs.
Proof. rewrite typed_children. cbn. naive_solver. Qed.
Lemma typed_node v : value_typed v → node_typed v.
Proof. by intros [? _]%typed_children. Qed.

Lemma as_u64_typed v x : value_typed v → as_u64 v = Ok x → width_ok 8 x.
Proof. intros Hv%typed_node. destruct v; try done. by intros [= <-]. Qed.
Lemma as_u128_typed v x : value_typed v → as_u128 v = Ok x → width_ok 16 x.
Proof. intros Hv%typed_node. destruct v; try done; intros [= <-]; unfold node_typed, width_ok in *; lia. Qed.
Lemma as_address_typed v a : value_typed v → as_address v = Ok a → address_ok a.
Proof. intros Hv%typed_node. destruct v; try done. by intros [= <-]. Qed.
Lemma as_key_typed v k : value_typed v → as_key v = Ok k → key_ok k.
Proof. intros Hv%typed_node. destruct v; try done. by intros [= <-]. Qed.
Lemma fields_typed v vs : value_typed v → fields_of v = Ok vs → Forall value_typed vs.
Proof. intros Hv. destruct v; try done. intros [= <-]. by apply typed_tuple. Qed.
Lemma elements_typed v vs : value_typed v → elements v = Ok vs → Forall value_typed vs.
Proof. intros Hv. destruct v; try done. intros [= <-]. by apply typed_list. Qed.
Lemma indexed_typed vs index v : Forall value_typed vs → slice_get vs index = Some v → value_typed v.
Proof. intros Hv Hi. by eapply Forall_lookup_1. Qed.
Lemma ok_or_inv {E A} (o : option A) (e : E) a : ok_or o e = Ok a → o = Some a.
Proof. destruct o; naive_solver. Qed.
Lemma resource_typed a r : address_ok a → resource_of_address a = Ok r → resource_ok r.
Proof. intros Ha [-> Hc]%ok_or_inv%narrowed_ok. by split. Qed.
Lemma bucket_typed v r c : value_typed v → bucket_parts v = Ok (r, c) → resource_ok r ∧ content_ok c.
Proof. intros Hv%typed_node. destruct v; try done. by intros [= <- <-]. Qed.
Lemma edge_ids_typed c v : content_ok c → edge_ids c = Ok v → value_typed v.
Proof.
  intros Hc. destruct c; [done|]. intros [= <-]. apply typed_list, Forall_fmap. destruct Hc as [Hc _].
  eapply Forall_impl; [exact Hc|]. intros x Hx. by apply typed_scalar.
Qed.
Lemma sole_typed vs v : Forall value_typed vs → sole vs = Ok v → value_typed v.
Proof. destruct vs as [|? []]; try done. intros Hv [= <-]. by apply Forall_cons in Hv as [? _]. Qed.
Lemma add_typed l r v : value_typed l → value_typed r → add l r = Ok v → value_typed v.
Proof.
  intros Hl%typed_node Hr%typed_node. destruct l, r; try done; cbn; unfold checked_add; destruct (decide _) as [Hd|]; try done;
    intros [= <-]; (apply typed_scalar; [done|]); unfold node_typed, width_ok, width_max in *; lia.
Qed.
Lemma bool_typed f : value_typed (Val.Bool f).
Proof. by apply typed_scalar. Qed.
Lemma less_than_typed l r v : less_than l r = Ok v → value_typed v.
Proof. destruct l, r; try done; intros [= <-]; apply bool_typed. Qed.
Lemma equals_typed l r v : equals l r = Ok v → value_typed v.
Proof. unfold equals. intros (_ & _ & (_ & _ & H)%result_bind_ok)%result_bind_ok. destruct (decide _); [|done]. injection H as <-. apply bool_typed. Qed.
Lemma id_set_walk_typed vs ids out : Forall value_typed vs → Forall (width_ok 8) ids → id_set_walk vs ids = Ok out → Forall (width_ok 8) out.
Proof.
  intros Hv. revert ids. induction Hv as [|v vs Hv _ IH]; intros ids Hi; [by intros [= <-]|]. cbn. intros (id & Hid & Hw)%result_bind_ok.
  destruct (decide _); [done|]. eapply IH; [|exact Hw]. apply Forall_app. split; [done|]. constructor; [by eapply as_u64_typed|done].
Qed.
Lemma id_set_typed vs ids : Forall value_typed vs → id_set vs = Ok ids → content_ok (EdgeContent.NonFungible ids).
Proof.
  intros Hv (out & Hw & H)%result_bind_ok. destruct (decide _); [|done]. injection H as <-. split; [|done]. by eapply id_set_walk_typed.
Qed.
Lemma find_pair_answers pairs key : Forall value_typed pairs → answers_with (λ hit, ∀ v, hit = Some v → value_typed v) (find_pair pairs key).
Proof.
  unfold find_pair. induction 1 as [|p pairs Hp _ IH]; [by apply answers_ret|]. eapply answers_bind_with; [by apply spend_answers|]. intros _ _.
  destruct p; try (by apply answers_lift). destruct fields as [|k [|v []]]; try (by apply answers_lift).
  destruct (value_eqb k key); [|exact IH]. apply answers_ret. intros w [= <-]. apply typed_tuple in Hp. by do 2 apply Forall_cons in Hp as [? Hp].
Qed.
Lemma forced_answers c (P : Value → Prop) : P (cow_value c) → answers_with P (forced c).
Proof.
  intros Hp. destruct c; cbn; [|by apply answers_ret]. eapply answers_bind_with; [by apply spend_answers|]. intros _ _. by apply answers_ret.
Qed.
Lemma pack_typed h l : width_ok 8 h → width_ok 8 l → width_ok 16 (Z.lor (Z.shiftl h 64) l).
Proof.
  unfold width_ok. intros Hh Hl. cbn in *. rewrite Z.shiftl_mul_pow2 by lia.
  assert (E : Z.lor (h * 2 ^ 64) l = h * 2 ^ 64 + l); [|rewrite E; lia].
  rewrite <- Z.lxor_lor, <- Z.add_nocarry_lxor; try done; apply Z.bits_inj'; intros n Hn; rewrite Z.land_spec, Z.bits_0, <- Z.shiftl_mul_pow2 by lia;
  (destruct (decide (n < 64)); [rewrite Z.shiftl_spec_low by lia; done|]);
  rewrite (Z.bits_above_log2 l n); [by rewrite andb_false_r| lia | destruct (decide (l = 0)) as [->|]; [cbn; lia|]; apply Z.log2_lt_pow2; [lia|]; apply Z.lt_le_trans with (2 ^ 64); [lia|]; apply Z.pow_le_mono_r; lia| by rewrite andb_false_r| lia| destruct (decide (l = 0)) as [->|]; [cbn; lia|]; apply Z.log2_lt_pow2; [lia|]; apply Z.lt_le_trans with (2 ^ 64); [lia|]; apply Z.pow_le_mono_r; lia].
Qed.

Section typed.
Context (hash : bytes → list bytes → Z) (inputs : EvalInputs) (bindings : list Value).
Context (Hin : inputs_typed hash inputs) (Hbind : Forall value_typed bindings).
Abbreviation typed_cow := (λ c, value_typed (cow_value c)).

Lemma built_answers (m : EM Value) : answers_with value_typed m → answers_with typed_cow (v ← m; _ ← spend (walked v); mret (Owned v)).
Proof.
  intros Hm. eapply answers_bind_with; [exact Hm|]. intros v Hv. eapply answers_bind_with; [by apply spend_answers|]. intros _ _. by apply answers_ret.
Qed.
Lemma eval_all_answers ev es : Forall (λ e, answers_with typed_cow (ev e)) es → answers_with (Forall value_typed) (eval_all ev es).
Proof.
  induction 1 as [|e es He _ IH]; [by apply answers_ret|]. eapply answers_bind_with; [exact He|]. intros c Hc.
  eapply answers_bind_with; [by apply (forced_answers _ value_typed)|]. intros v Hv. eapply answers_bind_with; [exact IH|]. intros vs Hvs.
  apply answers_ret. by constructor.
Qed.
Lemma eval_material_answers ev es : Forall (λ e, answers_with typed_cow (ev e)) es → answers_with (λ _, True) (eval_material ev es).
Proof.
  induction 1 as [|e es He _ IH]; [by apply answers_ret|]. eapply answers_bind_with; [exact He|]. intros c Hc.
  eapply answers_bind_with; [by apply spend_answers|]. intros _ _. eapply answers_bind_with; [by apply (answers_expects (λ _, True))|]. intros m _.
  eapply answers_bind_with; [exact IH|]. intros vs _. by apply answers_ret.
Qed.
Lemma eval_slot_answers ev slot point :
  Forall (λ e, answers_with typed_cow (ev e)) (option_list (slot_reached slot)) → answers_with (λ _, True) (eval_slot ev slot point).
Proof.
  destruct slot as [slot|e]; cbn; [intros _; by apply answers_ret|]. intros [He _]%Forall_cons. eapply answers_bind_with; [exact He|]. intros c Hc.
  eapply answers_bind_with; [by apply (answers_lift (λ _, True))|]. intros x _. destruct (decide _); [by apply answers_lift|].
  case_match; [by apply answers_ret|by apply answers_lift].
Qed.
Lemma self_resource_answers kind material grants : answers_with value_typed (self_resource hash inputs kind material grants).
Proof using Hin.
  unfold self_resource. eapply (answers_bind_with (λ _, True)).
  - intros b0 Hb0 b Hb. destruct (grants_resolve _ _ _ _) as [|[]]; done.
  - intros rules _. eapply (answers_bind_with address_ok).
    + apply answers_expects. intros a. unfold granting_resource_address. intros (c & _ & [= <-])%bind_Some.
      apply address_new_ok, digest_body_bound, (it_hash _ _ Hin).
    + intros a Ha. apply answers_ret. by apply typed_scalar.
Qed.

(** A subterm read as a part of it, and a part of it paid for and handed out. *)
Lemma answers_read {A B} (P : A → Prop) (Q : B → Prop) (m : EM Cow) (r : Value → result EvalError A) (f : A → EM B) :
  answers_with typed_cow m → (∀ v a, value_typed v → r v = Ok a → P a) → (∀ a, P a → answers_with Q (f a)) →
  answers_with Q (c ← m; a ← em_lift (r (cow_value c)); f a).
Proof.
  intros Hm Hr Hf. eapply answers_bind_with; [exact Hm|]. intros c Hc. eapply answers_bind_with; [|exact Hf].
  apply answers_lift. intros a. by apply Hr.
Qed.
Lemma answers_flag (Q : Value → Prop) (m : EM Cow) (f : bool → EM Value) :
  answers_with typed_cow m → (∀ a, answers_with Q (f a)) → answers_with Q (c ← m; a ← em_lift (as_bool (cow_value c)); f a).
Proof. intros Hm Hf. by eapply (answers_read (λ _, True)). Qed.
Lemma answers_paid v : value_typed v → answers_with value_typed (_ ← spend (walked v); mret v).
Proof. intros Hv. eapply answers_bind_with; [by apply spend_answers|]. intros _ _. by apply answers_ret. Qed.
Lemma answers_borrowed r : (∀ v, r = Ok v → value_typed v) → answers_with typed_cow (v ← em_lift r; mret (Borrowed v)).
Proof. intros Hr. eapply answers_bind_with; [by apply (answers_lift value_typed)|]. intros v Hv. by apply answers_ret. Qed.
Lemma answers_two (Q : Value → Prop) m1 m2 (f : Value → Value → EM Value) :
  answers_with typed_cow m1 → answers_with typed_cow m2 → (∀ l r, value_typed l → value_typed r → answers_with Q (f l r)) →
  answers_with Q (l ← m1; r ← m2; f (cow_value l) (cow_value r)).
Proof. intros H1 H2 Hf. eapply answers_bind_with; [exact H1|]. intros l Hl. eapply answers_bind_with; [exact H2|]. intros r Hr. by apply Hf. Qed.
(** A table and a key, searched. *)
Lemma answers_search m k (f : option Value → EM Value) :
  answers_with typed_cow m → answers_with typed_cow k → (∀ hit, (∀ v, hit = Some v → value_typed v) → answers_with value_typed (f hit)) →
  answers_with value_typed (m ← m; pairs ← em_lift (elements (cow_value m)); k ← k; hit ← find_pair pairs (cow_value k); f hit).
Proof.
  intros Hm Hk Hf. eapply answers_read; [exact Hm|exact elements_typed|]. intros vs Hvs. eapply answers_bind_with; [exact Hk|]. intros c Hc.
  eapply answers_bind_with; [by apply find_pair_answers|]. exact Hf.
Qed.
Lemma answers_derived m slot parts (f : Address → SlotId → list bytes → Value) ev point :
  answers_with typed_cow m → Forall (λ e, answers_with typed_cow (ev e)) (option_list (slot_reached slot)) →
  Forall (λ e, answers_with typed_cow (ev e)) parts → (∀ o s ms, address_ok o → value_typed (f o s ms)) →
  answers_with value_typed (o ← m; o ← em_lift (as_address (cow_value o)); s ← eval_slot ev slot point; ms ← eval_material ev parts; mret (f o s ms)).
Proof.
  intros Hm Hs Hp Hf. eapply answers_read; [exact Hm|exact as_address_typed|]. intros o Ho.
  eapply answers_bind_with; [by apply eval_slot_answers|]. intros s _. eapply answers_bind_with; [by apply eval_material_answers|]. intros ms _.
  apply answers_ret. by apply Hf.
Qed.

Lemma eval_answers e : expr_typed e → ∀ depth, answers_with typed_cow (eval_expr hash inputs e bindings depth).
Proof using Hin Hbind.
  induction e as [e IH] using expr_children_ind. intros He depth.
  assert (Hsub : Forall (λ e, answers_with typed_cow (eval_expr hash inputs e bindings (S depth))) (expr_children e)).
  { pose proof (expr_typed_children e He) as Hc. rewrite Forall_forall in *. intros x Hx. apply IH; [done|by apply Hc]. }
  pose proof Hin as [Hh Hself Hargs Hconf]. clear IH. destruct e; cbn [eval_expr]; (destruct (decide _); [by apply answers_lift|]);
    (eapply answers_bind_with; [by apply spend_answers; cbn; unfold WORK_PER_DERIVATION; lia|]; intros _ _); cbn [expr_children] in Hsub;
    repeat (match type of Hsub with Forall _ (_ :: _) => apply Forall_cons in Hsub as [? Hsub] end); try (apply built_answers).
  - apply answers_ret. by apply Forall_cons in He as [? _].
  - apply answers_borrowed. intros v Hv%ok_or_inv. exact (indexed_typed _ _ _ Hargs Hv).
  - apply answers_borrowed. intros v Hv%ok_or_inv. exact (indexed_typed _ _ _ Hconf Hv).
  - apply answers_borrowed. intros v (p & _ & Hv)%ok_or_inv%bind_Some. exact (Forall_lookup_1 _ _ _ _ Hbind Hv).
  - by apply answers_ret, typed_scalar.
  - apply answers_lift. intros v. destruct (meta_leaf_bytes _); [|done]. intros [= <-]. by apply typed_scalar.
  - eapply answers_read; [done|exact fields_typed|]. intros fs Hfs.
    eapply answers_bind_with; [apply (answers_lift value_typed); intros v Hv%ok_or_inv; exact (indexed_typed _ _ _ Hfs Hv)|]. apply answers_paid.
  - eapply (answers_read (λ p, resource_ok p.1 ∧ content_ok p.2)); [done|intros v [r c] Hv Hb; exact (bucket_typed v r c Hv Hb)|]. intros [r c] [[Hr _] _]. by apply answers_ret, typed_scalar.
  - eapply (answers_read (λ p, resource_ok p.1 ∧ content_ok p.2)); [done|intros v [r c] Hv Hb; exact (bucket_typed v r c Hv Hb)|]. intros [r c] [_ Hp].
    apply answers_lift. intros v. by apply edge_ids_typed.
  - eapply answers_read; [done|exact elements_typed|]. intros vs _. apply answers_ret, typed_scalar; [done|].
    unfold count, node_typed, width_ok, width_max. lia.
  - eapply answers_read; [done|exact elements_typed|]. intros vs Hvs.
    eapply answers_bind_with; [apply (answers_lift value_typed); intros v Hv; by eapply sole_typed|]. apply answers_paid.
  - eapply answers_bind_with; [by apply eval_all_answers|]. intros vs Hvs. apply answers_ret. by apply typed_list.
  - eapply answers_bind_with; [by apply eval_all_answers|]. intros vs Hvs. apply answers_ret. by apply typed_tuple.
  - eapply answers_read; [done|exact as_address_typed|]. intros a Ha.
    eapply answers_bind_with; [apply (answers_lift resource_ok); intros; by eapply resource_typed|]. intros r Hr.
    eapply answers_read; [done|exact elements_typed|]. intros vs Hvs.
    eapply answers_bind_with; [apply (answers_lift (λ ids, content_ok (EdgeContent.NonFungible ids))); intros; by eapply id_set_typed|]. intros ids Hids.
    by apply answers_ret, typed_scalar.
  - apply answers_search; [done..|]. intros hit Hhit.
    eapply answers_bind_with; [apply (answers_lift value_typed); intros v Hv%ok_or_inv; by apply Hhit|]. apply answers_paid.
  - eapply answers_bind_with; [by apply eval_material_answers|]. intros ms _. apply self_resource_answers.
  - apply Forall_app in Hsub as [Hs Hm]. apply answers_derived; [done..|]. intros o s ms Ho. apply typed_scalar; [done|].
    split; [done|]. apply digest_half_bound, Hh.
  - apply answers_ret, typed_scalar; [done|]. unfold inputs_fresh_id, fresh_id, node_typed, width_ok.
    match goal with |- 0 ≤ le_val ?l < _ => pose proof (le_val_bound l) as Hl end. rewrite length_take, length_be_bytes in Hl. exact Hl.
  - apply answers_ret, typed_scalar; [done|]. split; [done|]. apply digest_half_bound, Hh.
  - eapply answers_read; [done|exact as_u64_typed|]. intros x Hx. eapply answers_read; [done|exact as_u64_typed|]. intros y Hy.
    apply answers_ret, typed_scalar; [done|]. by apply pack_typed.
  - eapply answers_read; [done|exact as_address_typed|]. intros o _. eapply answers_bind_with; [by apply eval_material_answers|]. intros ms _.
    apply answers_ret, typed_scalar; [done|]. apply digest_half_bound, Hh.
  - apply (answers_two _ _ _ (λ l r, em_lift (add l r))); [done..|]. intros l r Hl Hr. apply answers_lift. intros v. by apply add_typed.
  - apply answers_flag; [done|]. intros f. apply answers_ret, bool_typed.
  - apply answers_flag; [done|]. intros f. case_match; [apply answers_ret, bool_typed|]. apply answers_flag; [done|]. intros g. apply answers_ret, bool_typed.
  - apply answers_flag; [done|]. intros f. case_match; [apply answers_ret, bool_typed|]. apply answers_flag; [done|]. intros g. apply answers_ret, bool_typed.
  - apply (answers_two _ _ _ (λ l r, _ ← spend (walked l + walked r); em_lift (equals l r))); [done..|]. intros l r _ _.
    eapply answers_bind_with; [apply spend_answers; pose proof (walked_pos l); pose proof (walked_pos r); lia|]. intros _ _.
    apply answers_lift. intros v. apply equals_typed.
  - apply (answers_two _ _ _ (λ l r, em_lift (less_than l r))); [done..|]. intros l r _ _. apply answers_lift. intros v. apply less_than_typed.
  - apply answers_search; [done..|]. intros hit _. apply answers_ret, bool_typed.
  - eapply (answers_read (λ _, True)); [done..|]. intros [] _; done.
Qed.
End typed.

(** ** What a call cannot reach *)

(** The fresh slots a term draws: the ids and keys that hang on the intent and
    the node the call is made from. *)
Fixpoint draws (e : Expr) : list Z :=
  match e with
  | Ex.FreshId slot | Ex.FreshKey slot => [slot]
  | Ex.Literal _ | Ex.Arg _ | Ex.Config _ | Ex.Binding _ | Ex.SelfAddr | Ex.SelfRecord => []
  | Ex.Field inner _ | Ex.ResourceOf inner | Ex.IdsOf inner | Ex.Len inner | Ex.Only inner | Ex.Not inner => draws inner
  | Ex.Lookup first second | Ex.Contains first second | Ex.Pack first second | Ex.NfBucket first second
  | Ex.Add first second | Ex.And first second | Ex.Or first second | Ex.Eq first second | Ex.Lt first second => draws first ++ draws second
  | Ex.If cond thn otherwise => draws cond ++ draws thn ++ draws otherwise
  | Ex.List elements | Ex.Tuple elements | Ex.SelfResource _ elements _ => concat (draws <$> elements)
  | Ex.ChildKey owner slot material =>
      draws owner ++ match slot with Fixed _ => [] | Reached s => draws s end ++ concat (draws <$> material)
  | Ex.OrderKey owner _ material => draws owner ++ concat (draws <$> material)
  end.
Definition leaf_draws (l : RuleLeaf) : list Z :=
  match l with Leaf_.Claimed e | Leaf_.Stored e => draws e | Leaf_.IfPresence _ _ => [] end.
(** The slots the evidence of a rule draws. *)
Definition rule_draws (r : RuleExpr) : list Z := concat (leaf_draws <$> preorder r).

(** Two calls on one instance: the arguments, the intent, the node, the records
    presented and the widths are each call's own. *)
Record same_instance (i j : EvalInputs) : Prop := {
  si_self : ei_self j = ei_self i;
  si_record : ei_record j = ei_record i;
}.
(** The two calls draw the same ids and keys at these slots, as they do where
    there are none, or where the node and the intent are the same. *)
Definition draw_alike (hash : bytes → list bytes → Z) (i j : EvalInputs) (slots : list Z) : Prop :=
  Forall (λ slot, inputs_fresh_id hash j slot = inputs_fresh_id hash i slot ∧
                  inputs_fresh_key hash j slot = inputs_fresh_key hash i slot) slots.

Lemma draw_alike_node hash i j slots :
  same_instance i j → ei_node j = ei_node i → ei_identity j = ei_identity i → draw_alike hash i j slots.
Proof.
  intros [Hs _] Hn Hi. apply Forall_forall. intros slot _. unfold inputs_fresh_id, inputs_fresh_key. by rewrite Hs, Hn, Hi.
Qed.
Lemma draw_alike_app hash i j l1 l2 : draw_alike hash i j (l1 ++ l2) ↔ draw_alike hash i j l1 ∧ draw_alike hash i j l2.
Proof. apply Forall_app. Qed.
Lemma draw_alike_concat {A} hash i j (f : A → list Z) l :
  draw_alike hash i j (concat (f <$> l)) ↔ Forall (λ x, draw_alike hash i j (f x)) l.
Proof.
  induction l as [|x l IH]; cbn; [by split; constructor|]. by rewrite draw_alike_app, IH, Forall_cons.
Qed.
Lemma draws_children hash i j e : draw_alike hash i j (draws e) → Forall (λ x, draw_alike hash i j (draws x)) (expr_children e).
Proof.
  destruct e; cbn [draws expr_children]; rewrite ?draw_alike_app, ?draw_alike_concat, ?Forall_cons, ?Forall_nil, ?Forall_app; try tauto.
  destruct slot; cbn; rewrite ?Forall_cons, ?Forall_nil; tauto.
Qed.

(** The same call with other arguments. *)
Definition with_args (i : EvalInputs) (args : list Value) : EvalInputs := {|
  ei_self := ei_self i; ei_args := args; ei_record := ei_record i; ei_node := ei_node i; ei_identity := ei_identity i;
  ei_grants := ei_grants i; ei_widths := ei_widths i |}.

Section inputs_unread.
Context (hash : bytes → list bytes → Z) (i j : EvalInputs) (bindings bindings' : list Value).
Context (Hij : same_instance i j).

Lemma eval_all_ext ev ev' es : Forall (λ e, ev e = ev' e) es → eval_all ev es = eval_all ev' es.
Proof. induction 1 as [|e es He _ IH]; [done|]. cbn. by rewrite He, IH. Qed.
Lemma eval_material_ext ev ev' es : Forall (λ e, ev e = ev' e) es → eval_material ev es = eval_material ev' es.
Proof. induction 1 as [|e es He _ IH]; [done|]. cbn. by rewrite He, IH. Qed.
Lemma eval_slot_ext ev ev' slot point : Forall (λ e, ev e = ev' e) (option_list (slot_reached slot)) → eval_slot ev slot point = eval_slot ev' slot point.
Proof. destruct slot; [done|]. intros [He _]%Forall_cons. cbn. by rewrite He. Qed.
Lemma existsb_false_Forall {A} (f : A → bool) l : existsb f l = false ↔ Forall (λ x, f x = false) l.
Proof. induction l as [|x l IH]; cbn; [done|]. by rewrite orb_false_iff, IH, Forall_cons. Qed.

Lemma self_resource_same : self_resource hash j = self_resource hash i.
Proof. destruct Hij as [Hs Hr]. unfold self_resource. by rewrite Hs, Hr. Qed.
Lemma config_same index : config j index = config i index.
Proof. destruct Hij as [_ Hr]. unfold config. by rewrite Hr. Qed.

Lemma eval_unread e : reads_call_inputs e = false → draw_alike hash i j (draws e) → ∀ depth,
  eval_expr hash j e bindings' depth = eval_expr hash i e bindings depth.
Proof.
  induction e as [e IH] using expr_children_ind. rewrite reads_children, orb_false_iff, existsb_false_Forall. intros [Hl Hr] Hd depth.
  assert (Hsub : Forall (λ e, eval_expr hash j e bindings' (S depth) = eval_expr hash i e bindings (S depth)) (expr_children e)).
  { apply draws_children in Hd. rewrite Forall_forall in *. intros x Hx. apply IH; [done|by apply Hr|by apply Hd]. }
  clear IH Hr. destruct Hij as [Hself Hrec]. destruct e; try done; cbn [eval_expr]; cbn [expr_children] in Hsub;
    rewrite ?config_same, ?self_resource_same, ?Hself, ?Hrec;
    try (cbn [draws] in Hd; apply Forall_cons in Hd as [[Hd1 Hd2] _]; rewrite ?Hd1, ?Hd2);
    repeat (match type of Hsub with Forall _ (_ :: _) => apply Forall_cons in Hsub as [? Hsub] end);
    repeat (match goal with H : eval_expr _ _ _ _ _ = _ |- _ => rewrite H; clear H end); try done;
    try (apply Forall_app in Hsub as [Hs Hsub]; rewrite (eval_slot_ext _ _ _ _ Hs));
    by rewrite ?(eval_material_ext _ _ _ Hsub), ?(eval_all_ext _ _ _ Hsub).
Qed.
End inputs_unread.

(** ** The meter never changes an answer *)

Definition steady {A} (m : EM A) : Prop := ∀ b1 b2 b1' b2' a1 a2, m b1 = (b1', Ok a1) → m b2 = (b2', Ok a2) → a1 = a2.
Lemma steady_bind {A B} (m : EM A) (f : A → EM B) : steady m → (∀ a, steady (f a)) → steady (m ≫= f).
Proof.
  intros Hm Hf b1 b2 b1' b2' a1 a2. unfold mbind, em_bind. destruct (m b1) as [c1 [x1|]] eqn:E1; [|done].
  destruct (m b2) as [c2 [x2|]] eqn:E2; [|done]. rewrite (Hm _ _ _ _ _ _ E1 E2). apply Hf.
Qed.
Lemma steady_pure {A} (r : result (halt EvalError) A) : steady (λ b, (b, r)).
Proof. intros b1 b2 b1' b2' a1 a2 [= _ ->] [= _ E]. congruence. Qed.
Lemma steady_ret {A} (a : A) : steady (mret a).
Proof. exact (steady_pure (Ok a)). Qed.
Lemma steady_lift {A} (r : result EvalError A) : steady (em_lift r).
Proof. exact (steady_pure (refuse r)). Qed.
Lemma steady_expects {A} (o : option A) : steady (em_expects o).
Proof. exact (steady_pure (expects o)). Qed.
Lemma steady_unit (m : EM ()) : steady m.
Proof. by intros b1 b2 b1' b2' [] []. Qed.
Create HintDb steady.
#[export] Hint Resolve steady_ret steady_lift steady_expects steady_unit : steady.
#[export] Hint Extern 1 (steady (_ ≫= _)) => (apply steady_bind; [|intros ?]) : steady.
#[export] Hint Extern 2 (steady (if ?c then _ else _)) => (destruct c) : steady.
#[export] Hint Extern 2 (steady (match ?c with _ => _ end)) => (destruct c) : steady.
Lemma forced_steady c : steady (forced c).
Proof. destruct c; cbn; auto with steady. Qed.
Lemma find_pair_steady pairs key : steady (find_pair pairs key).
Proof.
  unfold find_pair. induction pairs as [|p pairs IH]; [apply steady_ret|]. apply steady_bind; [apply steady_unit|]. intros _.
  destruct p as [| | | | | | |fields| |]; try apply steady_lift. destruct fields as [|k [|v []]]; try apply steady_lift.
  destruct (value_eqb k key); [apply steady_ret|exact IH].
Qed.
Lemma eval_all_steady ev es : Forall (λ e, steady (ev e)) es → steady (eval_all ev es).
Proof. induction 1; cbn; auto 10 using forced_steady with steady. Qed.
Lemma eval_material_steady ev es : Forall (λ e, steady (ev e)) es → steady (eval_material ev es).
Proof. induction 1; cbn; auto 10 with steady. Qed.
Lemma eval_slot_steady ev slot point : Forall (λ e, steady (ev e)) (option_list (slot_reached slot)) → steady (eval_slot ev slot point).
Proof. destruct slot; cbn; [auto with steady|]. intros [He _]%Forall_cons. auto 10 with steady. Qed.
#[export] Hint Resolve forced_steady find_pair_steady eval_all_steady eval_material_steady eval_slot_steady : steady.
Lemma self_resource_steady hash i kind material grants : steady (self_resource hash i kind material grants).
Proof. unfold self_resource. apply steady_bind; [apply steady_pure|]. auto with steady. Qed.
#[export] Hint Resolve self_resource_steady : steady.
Lemma eval_steady hash i e bindings : ∀ depth, steady (eval_expr hash i e bindings depth).
Proof.
  induction e as [e IH] using expr_children_ind. intros depth.
  assert (Hsub : Forall (λ e, steady (eval_expr hash i e bindings (S depth))) (expr_children e)) by (eapply Forall_impl; [exact IH|]; auto).
  clear IH. destruct e; cbn [eval_expr]; (destruct (decide _); [apply steady_lift|]); cbn [expr_children] in Hsub;
    repeat (match type of Hsub with Forall _ (_ :: _) => apply Forall_cons in Hsub as [? Hsub] | Forall _ (_ ++ _) => apply Forall_app in Hsub as [? Hsub] end);
    (apply steady_bind; [apply steady_unit|]; intros _); auto 20 with steady.
Qed.
#[export] Hint Resolve eval_steady : steady.

(** ** Work is counted up *)

Definition rises {A} (n : Z) (m : EM A) : Prop := ∀ b b' a, 0 ≤ bg_spent b → m b = (b', Ok a) → bg_spent b + n ≤ bg_spent b'.
Lemma rises_bind {A B} n (m : EM A) (f : A → EM B) : 0 ≤ n → rises n m → (∀ a, rises 0 (f a)) → rises n (m ≫= f).
Proof.
  intros Hn Hm Hf b b' a Hb. unfold mbind, em_bind. destruct (m b) as [c [x|]] eqn:E1; [|done]. intros E2.
  specialize (Hm _ _ _ Hb E1). ospecialize (Hf x c b' a _ E2); lia.
Qed.
Lemma rises_pure {A} (r : result (halt EvalError) A) : rises 0 (λ b, (b, r)).
Proof. intros b b' a _ [= <- _]. lia. Qed.
Lemma rises_ret {A} (a : A) : rises 0 (mret a).
Proof. exact (rises_pure (Ok a)). Qed.
Lemma rises_lift {A} (r : result EvalError A) : rises 0 (em_lift r).
Proof. exact (rises_pure (refuse r)). Qed.
Lemma rises_expects {A} (o : option A) : rises 0 (em_expects o).
Proof. exact (rises_pure (expects o)). Qed.
Lemma spend_counts units b b' u : 0 ≤ units → 0 ≤ bg_spent b → spend units b = (b', Ok u) → bg_spent b' = bg_spent b + units.
Proof.
  intros Hu Hb. unfold spend, envelope_spend. destruct (decide _) as [|Hs]; [done|]. destruct (decide _); [done|]. intros [= <- _]. cbn.
  destruct (saturating_add_cases (bg_spent b) units) as [E|E]; [done..|unfold MAX_EVALUATION_WORK in Hs; lia].
Qed.
Lemma rises_spend units : 0 ≤ units → rises 0 (spend units).
Proof. intros Hu b b' a Hb E. rewrite (spend_counts units b b' a Hu Hb E). lia. Qed.
Lemma walked_two l r : 0 ≤ walked l + walked r.
Proof. pose proof (walked_pos l). pose proof (walked_pos r). lia. Qed.
Create HintDb rises.
#[export] Hint Resolve rises_ret rises_lift rises_expects : rises.
#[export] Hint Extern 1 (rises 0 (spend _)) => (apply rises_spend; first [apply walked_pos | apply walked_two | done]) : rises.
#[export] Hint Extern 1 (rises 0 (_ ≫= _)) => (apply rises_bind; [done| |intros ?]) : rises.
#[export] Hint Extern 2 (rises 0 (if ?c then _ else _)) => (destruct c) : rises.
#[export] Hint Extern 2 (rises 0 (match ?c with _ => _ end)) => (destruct c) : rises.
Lemma forced_rises c : rises 0 (forced c).
Proof. destruct c; cbn; auto with rises. Qed.
Lemma find_pair_rises pairs key : rises 0 (find_pair pairs key).
Proof.
  unfold find_pair. induction pairs as [|p pairs IH]; [apply rises_ret|]. apply rises_bind; [done|auto with rises|]. intros _.
  destruct p as [| | | | | | |fields| |]; try apply rises_lift. destruct fields as [|k [|v []]]; try apply rises_lift.
  destruct (value_eqb k key); [apply rises_ret|exact IH].
Qed.
Lemma eval_all_rises ev es : Forall (λ e, rises 0 (ev e)) es → rises 0 (eval_all ev es).
Proof. induction 1; cbn; auto 10 using forced_rises with rises. Qed.
Lemma eval_material_rises ev es : Forall (λ e, rises 0 (ev e)) es → rises 0 (eval_material ev es).
Proof. induction 1; cbn; auto 10 with rises. Qed.
Lemma eval_slot_rises ev slot point : Forall (λ e, rises 0 (ev e)) (option_list (slot_reached slot)) → rises 0 (eval_slot ev slot point).
Proof. destruct slot; cbn; [auto with rises|]. intros [He _]%Forall_cons. auto 10 with rises. Qed.
#[export] Hint Resolve forced_rises find_pair_rises eval_all_rises eval_material_rises eval_slot_rises : rises.
Lemma self_resource_rises hash i kind material grants : rises 0 (self_resource hash i kind material grants).
Proof. unfold self_resource. apply rises_bind; [done|apply rises_pure|]. auto with rises. Qed.
#[export] Hint Resolve self_resource_rises : rises.
(** Every term costs at least the visit to it. *)
Lemma eval_rises hash i e bindings : ∀ depth, rises 1 (eval_expr hash i e bindings depth).
Proof.
  induction e as [e IH] using expr_children_ind. intros depth.
  assert (Hsub : Forall (λ e, rises 0 (eval_expr hash i e bindings (S depth))) (expr_children e)).
  { eapply Forall_impl; [exact IH|]. intros x Hx b b' a Hb E. specialize (Hx (S depth) b b' a Hb E). lia. }
  clear IH. destruct e; cbn [eval_expr]; (destruct (decide _); [by intros ???? [= _ ?]|]); cbn [expr_children] in Hsub;
    repeat (match type of Hsub with Forall _ (_ :: _) => apply Forall_cons in Hsub as [? Hsub] | Forall _ (_ ++ _) => apply Forall_app in Hsub as [? Hsub] end);
    (apply rises_bind; [done|intros b b' u Hb E; apply spend_counts in E; [|by vm_compute|exact Hb]; rewrite E; vm_compute (derivations _ * _); lia|]);
    intros _; auto 20 with rises.
Qed.
Lemma eval_visits hash i e bindings depth : rises 0 (eval_expr hash i e bindings depth).
Proof. intros b b' a Hb E. pose proof (eval_rises hash i e bindings depth b b' a Hb E). lia. Qed.
Lemma eval_at_rises hash i e bindings : rises 1 (eval_at hash i e bindings).
Proof. apply rises_bind; [done|apply eval_rises|auto with rises]. Qed.
Lemma eval_at_visits hash i e bindings : rises 0 (eval_at hash i e bindings).
Proof. intros b b' a Hb E. pose proof (eval_at_rises hash i e bindings b b' a Hb E). lia. Qed.
#[export] Hint Resolve eval_visits eval_at_visits : rises.
Lemma eval_collection_rises hash i o slot material bindings : rises 0 (eval_collection hash i o slot material bindings).
Proof.
  unfold eval_collection. apply rises_bind; [done| |intros s; apply rises_bind; [done| |auto with rises]].
  - apply eval_slot_rises, Forall_forall. auto with rises.
  - apply eval_material_rises, Forall_forall. auto with rises.
Qed.
#[export] Hint Resolve eval_collection_rises : rises.
Lemma eval_target_rises hash i t bindings : rises 1 (eval_target hash i t bindings).
Proof. destruct t; cbn; (apply rises_bind; [done|apply eval_at_rises|]); auto 20 with rises. Qed.

(** ** Authority the caller cannot name *)

#[global] Instance rule_leaf_judged : Leaf RuleLeaf := λ l,
  match l with Leaf_.Claimed _ => AtAdmission | Leaf_.Stored _ => InTheLeg | Leaf_.IfPresence _ _ => AtMaterialization end.
Definition leaf_reads_call_inputs (l : RuleLeaf) : bool :=
  match l with
  | Leaf_.Claimed e => reads_call_inputs e
  | Leaf_.Stored cell => reads_call_inputs cell
  | Leaf_.IfPresence target _ => target_reads_call_inputs target
  end.
Definition names_caller_authority (r : RuleExpr) : bool :=
  existsb (λ l, negb (leaf_reads_state_only l) && leaf_reads_call_inputs l) (leaves r).

(** A judged rule with each presence leaf reduced to what it expects: the shape of
    the rule and the evidence it asks for. *)
Fixpoint evidence (r : Rule JudgedLeaf.JudgedLeaf) : Rule (JudgedLeaf.JudgedLeaf + Presence) :=
  match r with
  | Require (JudgedLeaf.IfPresence _ expect) => Require (inr expect)
  | Require l => Require (inl l)
  | CountOf n rs => CountOf n (evidence <$> rs)
  end.
Definition agree_on {A B C} (f : A → C) (g : B → C) (m : EM A) (n : EM B) : Prop :=
  ∀ b1 b2 b1' b2' x y, m b1 = (b1', Ok x) → n b2 = (b2', Ok y) → f x = g y.
Lemma em_bind_inv {A B} (m : EM A) (f : A → EM B) b b' y :
  (m ≫= f) b = (b', Ok y) → ∃ c x, m b = (c, Ok x) ∧ f x c = (b', Ok y).
Proof. unfold mbind, em_bind. destruct (m b) as [c [x|]]; naive_solver. Qed.
Lemma agree_bind {A B C} (m n : EM A) (f g : A → EM B) (p : B → C) :
  agree_on id id m n → (∀ a, agree_on p p (f a) (g a)) → agree_on p p (m ≫= f) (n ≫= g).
Proof.
  intros Hm Hf b1 b2 b1' b2' x y (c1 & x1 & E1 & F1)%em_bind_inv (c2 & x2 & E2 & F2)%em_bind_inv.
  pose proof (Hm _ _ _ _ _ _ E1 E2) as E. cbn in E. subst. by eapply Hf.
Qed.
Lemma agree_steady {A} (m : EM A) : steady m → agree_on id id m m.
Proof. intros Hm b1 b2 b1' b2' x y Hx Hy. exact (Hm _ _ _ _ _ _ Hx Hy). Qed.

Lemma agree_map {A B C} (m n : EM A) (k : A → B) (f : A → C) {D} (p : B → D) :
  agree_on f f m n → (∀ x y, f x = f y → p (k x) = p (k y)) → agree_on p p (x ← m; mret (k x)) (x ← n; mret (k x)).
Proof.
  intros Hm Hk b1 b2 b1' b2' x y (c1 & x1 & E1 & [= _ <-])%em_bind_inv (c2 & x2 & E2 & [= _ <-])%em_bind_inv.
  apply Hk. exact (Hm _ _ _ _ _ _ E1 E2).
Qed.
Lemma branches_agree ev ev' rs :
  Forall (λ r, agree_on evidence evidence (ev r) (ev' r)) rs → agree_on (fmap evidence) (fmap (M := list) evidence) (eval_branches ev rs) (eval_branches ev' rs).
Proof.
  induction 1 as [|r rs Hr _ IH]; [intros ?????? [= _ <-] [= _ <-]; done|]. intros b1 b2 b1' b2' x y. cbn [eval_branches].
  intros (c1 & x1 & E1 & (d1 & y1 & F1 & [= _ <-])%em_bind_inv)%em_bind_inv (c2 & x2 & E2 & (d2 & y2 & F2 & [= _ <-])%em_bind_inv)%em_bind_inv.
  cbn. f_equal; [exact (Hr _ _ _ _ _ _ E1 E2)|exact (IH _ _ _ _ _ _ F1 F2)].
Qed.

Section authority.
Context (hash : bytes → list bytes → Z) (i j : EvalInputs) (bindings bindings' : list Value).
Context (Hij : same_instance i j).

Lemma at_unread e : reads_call_inputs e = false → draw_alike hash i j (draws e) → agree_on id id (eval_at hash i e bindings) (eval_at hash j e bindings').
Proof.
  intros He Hd. unfold eval_at. rewrite (eval_unread hash i j bindings bindings' Hij e He Hd). apply agree_steady. auto with steady.
Qed.
Lemma leaf_unread l : negb (leaf_reads_state_only l) && leaf_reads_call_inputs l = false → draw_alike hash i j (leaf_draws l) →
  agree_on (λ x, evidence (Require x)) (λ x, evidence (Require x)) (eval_leaf hash i l bindings) (eval_leaf hash j l bindings').
Proof.
  destruct l as [e|e|t expect]; cbn; intros Hl Hd.
  - apply agree_bind; [by apply at_unread|]. intros v b1 b2 b1' b2' x y. by destruct (claim_of_value v); [intros [= _ <-] [= _ <-]|].
  - apply agree_bind; [by apply at_unread|]. intros v. apply (agree_map _ _ _ id); [|by intros x y E; cbn in E; rewrite E]. apply agree_steady. auto with steady.
  - by intros b1 b2 b1' b2' x y (c1 & x1 & _ & [= _ <-])%em_bind_inv (c2 & x2 & _ & [= _ <-])%em_bind_inv.
Qed.
Lemma condition_unread r : names_caller_authority r = false → draw_alike hash i j (rule_draws r) →
  agree_on evidence evidence (eval_condition hash i r bindings) (eval_condition hash j r bindings').
Proof.
  unfold names_caller_authority, rule_draws. rewrite leaves_preorder. induction r as [l|n rs IH] using rule_tree_ind.
  - cbn [preorder existsb fmap list_fmap concat]. rewrite orb_false_r, app_nil_r. intros Hl Hd. apply (agree_map _ _ Require (λ x, evidence (Require x))); [|done]. by apply leaf_unread.
  - intros Hr Hd. cbn [eval_condition]. apply (agree_map _ _ (CountOf n) (fmap evidence)); [|by intros x y E; cbn; rewrite E].
    apply branches_agree. cbn [preorder] in Hr, Hd. clear n. induction IH as [|r rs IHr _ IHrs]; [constructor|]. cbn in Hr, Hd.
    rewrite existsb_app, orb_false_iff in Hr. rewrite fmap_app, concat_app, draw_alike_app in Hd. destruct Hr, Hd. constructor; auto.
Qed.
End authority.

(** C36: authority is never the caller's to name. Where a declared rule names no caller authority, two calls on one
    instance, whatever arguments, intent, node and records they come with, whatever elements a loop is at and whatever
    their meters have left, evaluate it to rules of one shape that ask for the same evidence: the same claims and the
    same stored cells at the same thresholds. The one thing of a call the evidence can hang on is a fresh id or key it
    draws, so the two calls are to draw alike at the slots the rule's evidence draws: every two calls do where it draws
    none, and two calls from one node of one intent always do. *)
Theorem authority_not_the_callers hash i j bindings bindings' r b1 b2 b1' b2' r1 r2 :
  same_instance i j →
  names_caller_authority r = false →
  draw_alike hash i j (rule_draws r) ∨ (ei_node j = ei_node i ∧ ei_identity j = ei_identity i) →
  eval_condition hash i r bindings b1 = (b1', Ok r1) →
  eval_condition hash j r bindings' b2 = (b2', Ok r2) →
  evidence r1 = evidence r2.
Proof.
  intros Hij Hr Hd H1 H2. assert (Hd' : draw_alike hash i j (rule_draws r)) by (destruct Hd as [|[]]; [done|by apply draw_alike_node]).
  exact (condition_unread hash i j bindings bindings' Hij r Hr Hd' _ _ _ _ _ _ H1 H2).
Qed.

(** ** From clauses to a declaration *)

Definition access_view (a : EvalAccess) : DeclaredAccess := {| da_effect := ea_effect a; da_holds := ea_holds a |}.
(** What the kernel reads of an evaluated declaration. *)
Definition kernel_view (d : EvalDeclaration) : Declaration :=
  {| dc_set := ed_set d; dc_ordered := access_view <$> ed_ordered d; dc_conditions := ed_conditions d |}.

Definition target_typed (t : TargetExpr) : Prop := Forall expr_typed (target_parts t).
Definition mode_typed (m : ModeExpr) : Prop := match m with Me.Reserve e => expr_typed e | _ => True end.
Definition leaf_typed (l : RuleLeaf) : Prop :=
  match l with Leaf_.Claimed e | Leaf_.Stored e => expr_typed e | Leaf_.IfPresence t _ => target_typed t end.
Definition clause_body (c : Clause) : list Clause := match c with Cl.ForEach _ _ body => body | _ => [] end.
Definition clause_typed_here (c : Clause) : Prop :=
  from_option expr_typed True (clause_guard c) ∧
  match c with
  | Cl.Effect _ t m denomination _ => target_typed t ∧ mode_typed m ∧ from_option expr_typed True denomination
  | Cl.ForEach _ items _ => expr_typed items
  | Cl.Requires _ rule => Forall leaf_typed (preorder rule)
  | Cl.Proves _ claim => expr_typed claim
  end.
Fixpoint clause_typed (c : Clause) : Prop :=
  clause_typed_here c ∧ match c with Cl.ForEach _ _ body => foldr (λ c, and (clause_typed c)) True body | _ => True end.
Lemma clause_typed_body c : clause_typed c ↔ clause_typed_here c ∧ Forall clause_typed (clause_body c).
Proof.
  destruct c; cbn [clause_typed clause_body]; try (rewrite Forall_nil; tauto).
  assert (∀ l, foldr (λ c, and (clause_typed c)) True l ↔ Forall clause_typed l) as ->; [|done].
  intros l. induction l as [|x l IH]; cbn; [by rewrite Forall_nil|]. by rewrite IH, Forall_cons.
Qed.
Lemma clause_children_ind (P : Clause → Prop) : (∀ c, Forall P (clause_body c) → P c) → ∀ c, P c.
Proof.
  intros H. fix IH 1. intros c. apply H. destruct c; cbn; try constructor. induction body as [|x l IHl]; constructor; [apply IH|exact IHl].
Qed.

Lemma answers_run {A} (P : A → Prop) m b b' a : answers_with P m → in_meter b → m b = (b', Ok a) → metered b b' ∧ P a.
Proof. intros Hm Hb E. specialize (Hm b Hb b (metered_refl b Hb)). by rewrite E in Hm. Qed.

Section parts_typed.
Context (hash : bytes → list bytes → Z) (inputs : EvalInputs) (bindings : list Value).
Context (Hin : inputs_typed hash inputs) (Hbind : Forall value_typed bindings).

Lemma eval_at_answers e : expr_typed e → answers_with value_typed (eval_at hash inputs e bindings).
Proof using Hin Hbind. intros He. eapply answers_bind_with; [by apply eval_answers|]. intros c Hc. by apply answers_ret. Qed.
Lemma eval_at_read {A B} (P : A → Prop) (Q : B → Prop) e (r : Value → result EvalError A) (f : A → EM B) :
  expr_typed e → (∀ v a, value_typed v → r v = Ok a → P a) → (∀ a, P a → answers_with Q (f a)) →
  answers_with Q (v ← eval_at hash inputs e bindings; a ← em_lift (r v); f a).
Proof using Hin Hbind.
  intros He Hr Hf. eapply answers_bind_with; [by apply eval_at_answers|]. intros v Hv. eapply answers_bind_with; [|exact Hf].
  apply answers_lift. intros a. by apply Hr.
Qed.
Lemma eval_denomination_answers e : expr_typed e → answers_with resource_ok (eval_denomination hash inputs e bindings).
Proof using Hin Hbind.
  intros He. eapply answers_bind_with; [by apply eval_at_answers|]. intros v Hv. destruct v; try (by apply answers_lift).
  apply answers_lift. intros r. apply resource_typed. by apply typed_node in Hv.
Qed.
Lemma keying_typed t e : target_typed t → keying_resource t = Some e → expr_typed e.
Proof.
  unfold target_typed. destruct t as [k|o c m x|o c m lo hi cap]; cbn [target_parts keying_resource].
  - intros [Hk _]%Forall_cons. destruct k; try done. intros Hh. apply expr_typed_children in Hk. cbn in Hk.
    apply Forall_cons in Hk as [_ Hk]. apply Forall_app in Hk as [_ Hk]. destruct material; [done|]. injection Hh as <-. by apply Forall_cons in Hk as [? _].
  - intros [_ Hk]%Forall_cons. apply Forall_app in Hk as [_ Hk]. apply Forall_app in Hk as [Hk _]. destruct m; [done|]. intros [= <-]. by apply Forall_cons in Hk as [? _].
  - intros [_ Hk]%Forall_cons. apply Forall_app in Hk as [_ Hk]. apply Forall_app in Hk as [Hk _]. destruct m; [done|]. intros [= <-]. by apply Forall_cons in Hk as [? _].
Qed.
Lemma eval_reach_answers reach t : target_typed t → answers_with (λ _, True) (eval_reach hash inputs reach t bindings).
Proof using Hin Hbind.
  intros Ht. destruct reach as [b|]; [|by apply answers_ret]. cbn.
  eapply (answers_bind_with expr_typed); [apply answers_lift; intros e He%ok_or_inv; by eapply keying_typed|]. intros e He.
  eapply answers_bind_with; [by apply eval_denomination_answers|]. intros r _. by apply answers_ret.
Qed.
Lemma eval_collection_answers o slot material :
  Forall expr_typed (option_list (slot_reached slot)) → Forall expr_typed material →
  answers_with (width_ok 16) (eval_collection hash inputs o slot material bindings).
Proof using Hin Hbind.
  intros Hs Hm. assert (Hev : ∀ es, Forall expr_typed es → Forall (λ e, answers_with (λ c, value_typed (cow_value c)) (eval_expr hash inputs e bindings 0)) es).
  { intros es He. eapply Forall_impl; [exact He|]. intros e H. by apply eval_answers. }
  eapply answers_bind_with; [apply eval_slot_answers; by apply Hev|]. intros s _.
  eapply answers_bind_with; [apply eval_material_answers; by apply Hev|]. intros ms _.
  eapply answers_bind_with; [by apply spend_answers|]. intros _ _. apply answers_ret. apply digest_half_bound, (it_hash _ _ Hin).
Qed.
Lemma as_cap_typed v c : value_typed v → as_cap v = Ok c → width_ok 4 c.
Proof.
  intros Hv (x & Hx%as_u128_typed & H)%result_bind_ok; [|done]. destruct (decide _); [|done]. injection H as <-. unfold width_ok, width_max in *. lia.
Qed.
Lemma eval_target_answers t : target_typed t → answers_with (λ tw, target_ok tw.1) (eval_target hash inputs t bindings).
Proof using Hin Hbind.
  unfold target_typed. destruct t as [k|o c m x|o c m lo hi cap]; cbn [target_parts eval_target].
  - intros [Hk _]%Forall_cons. eapply eval_at_read; [done|exact as_key_typed|]. intros key Hkey. by apply answers_ret.
  - intros [Ho Hk]%Forall_cons. apply Forall_app in Hk as [Hs Hk]. apply Forall_app in Hk as [Hm Hx]. apply Forall_cons in Hx as [Hx _].
    eapply eval_at_read; [done|exact as_address_typed|]. intros a Ha. eapply answers_bind_with; [by apply eval_collection_answers|]. intros id Hid.
    eapply eval_at_read; [done|exact as_u128_typed|]. intros n Hn. by apply answers_ret.
  - intros [Ho Hk]%Forall_cons. apply Forall_app in Hk as [Hs Hk]. apply Forall_app in Hk as [Hm Hx].
    apply Forall_cons in Hx as [Hlo Hx]. apply Forall_cons in Hx as [Hhi Hx]. apply Forall_cons in Hx as [Hcap _].
    eapply eval_at_read; [done|exact as_address_typed|]. intros a Ha. eapply answers_bind_with; [by apply eval_collection_answers|]. intros id Hid.
    eapply eval_at_read; [done|exact as_u128_typed|]. intros l Hl. eapply eval_at_read; [done|exact as_u128_typed|]. intros h Hh.
    destruct (decide _); [by apply answers_lift|]. eapply eval_at_read; [done|exact as_cap_typed|]. intros w Hw. by apply answers_ret.
Qed.
Lemma eval_mode_answers m : mode_typed m → answers_with (λ m, match m with MReserve a => in_width 128 a | _ => True end) (eval_mode hash inputs m bindings).
Proof using Hin Hbind.
  destruct m; cbn; intros He; try (by apply answers_ret). eapply eval_at_read; [done|exact as_u128_typed|]. intros n Hn. apply answers_ret. exact Hn.
Qed.
Lemma eval_leaf_answers l : leaf_typed l → answers_with (λ _, True) (eval_leaf hash inputs l bindings).
Proof using Hin Hbind.
  destruct l; cbn; intros Hl.
  - eapply answers_bind_with; [by apply eval_at_answers|]. intros v _. case_match; [by apply answers_ret|by apply answers_lift].
  - eapply eval_at_read; [done|exact as_key_typed|]. intros key _. by apply answers_ret.
  - eapply answers_bind_with; [by apply eval_target_answers|]. intros t _. by apply answers_ret.
Qed.
Lemma eval_condition_answers r : Forall leaf_typed (preorder r) → answers_with (λ _, True) (eval_condition hash inputs r bindings).
Proof using Hin Hbind.
  induction r as [l|n rs IH] using rule_tree_ind; cbn [preorder eval_condition]; intros Hr.
  - apply Forall_cons in Hr as [Hl _]. eapply answers_bind_with; [by apply eval_leaf_answers|]. intros x _. by apply answers_ret.
  - eapply (answers_bind_with (λ _, True)); [|intros x _; by apply answers_ret]. induction IH as [|r rs IHr _ IHrs]; [by apply answers_ret|].
    cbn in Hr. apply Forall_app in Hr as [Hr Hrs]. eapply answers_bind_with; [by apply IHr|]. intros x _.
    eapply answers_bind_with; [by apply IHrs|]. intros xs _. by apply answers_ret.
Qed.
End parts_typed.

(** *** What every clause keeps *)

(** A declaration in the making under its meter: [skew] is what the envelope had
    spent before the signature, [cl] the top-level clause being evaluated. *)
Record sound (skew : Z) (k : nat) (cl : Z) (b : Budget) (out : EvalDeclaration) : Prop := {
  sd_meter : in_meter b;
  sd_depth : bg_depth b = k;
  sd_clause : bg_clause b = cl;
  sd_skew : bg_envelope b - bg_spent b = skew;
  sd_work : Z.of_nat (length (ed_ordered out) + length (ed_conditions out)) ≤ bg_work b ≤ MAX_EFFECTS_PER_SIGNATURE;
  sd_assembled : assembled (kernel_view out);
  sd_proves : (length (ed_proves out) ≤ MAX_PROVEN_PER_SIGNATURE)%nat;
  sd_spent : Z.of_nat (length (ed_ordered out)) ≤ bg_spent b;
}.
(** A row of an expanded loop: one entry for each of [n] elements, and what it
    names landed between two lengths of the clause order. *)
Definition row_ok (lo hi : nat) (n : nat) (row : list (option Z)) : Prop :=
  length row = n ∧ ∀ p, Some p ∈ row → Z.of_nat lo ≤ p < Z.of_nat hi.
(** What a term evaluates to, whatever the meter has left. *)
Definition evaluates (hash : bytes → list bytes → Z) (inputs : EvalInputs) (bindings : list Value) (e : Expr) (v : Value) : Prop :=
  ∃ b b' c, eval_expr hash inputs e bindings 0 b = (b', Ok c) ∧ cow_value c = v.
(** The verdict on a clause: its guard's answer. *)
Definition verdict (hash : bytes → list bytes → Z) (inputs : EvalInputs) (bindings : list Value) (c : Clause) (taken : bool) : Prop :=
  match clause_guard c with Some guard => evaluates hash inputs bindings guard (Val.Bool taken) | None => taken = true end.
(** What a top-level clause files under its number: a loop a row for each clause of
    its body, with one entry for each element of the list its items evaluate to,
    and none where the guard refused it; any other clause nothing. *)
Definition filed (hash : bytes → list bytes → Z) (inputs : EvalInputs) (bindings : list Value) (c : Clause) (taken : bool) (lo hi : nat)
    (o : option (list (list (option Z)))) : Prop :=
  match c with
  | Cl.ForEach _ items body => ∃ rows, o = Some rows ∧ length rows = length body ∧
      if taken then ∃ vs, evaluates hash inputs bindings items (Val.List vs) ∧ Forall (row_ok lo hi (length vs)) rows
      else Forall (λ row, row = []) rows
  | _ => o = None
  end.
(** What a clause of a body leaves. *)
Record grows (out out' : EvalDeclaration) : Prop := {
  gr_ordered : ed_ordered out `prefix_of` ed_ordered out';
  gr_spans : ed_spans out' = ed_spans out;
  gr_taken : ed_taken out' = ed_taken out;
  gr_expansions : ed_expansions out' = ed_expansions out;
}.
Lemma sound_metered skew k cl b b' out : sound skew k cl b out → metered b b' → sound skew k cl b' out.
Proof. intros [] []. split; try congruence; try done; lia. Qed.
Lemma charge_inv b b' u : charge b = (b', Ok u) →
  bg_work b' = bg_work b + 1 ∧ bg_work b' ≤ MAX_EFFECTS_PER_SIGNATURE ∧ bg_depth b' = bg_depth b ∧ bg_clause b' = bg_clause b ∧
  bg_spent b' = bg_spent b ∧ bg_envelope b' = bg_envelope b ∧ bg_preorder b' = bg_preorder b.
Proof. unfold charge. destruct (decide _) as [|Hn]; [done|]. intros [= <- _]. cbn in *. split_and!; try done. lia. Qed.
(** A charge leaves room for one more of whatever it was charged for. *)
Lemma sound_charged skew k cl b b' u out :
  sound skew k cl b out → charge b = (b', Ok u) →
  sound skew k cl b' out ∧ Z.of_nat (length (ed_ordered out) + length (ed_conditions out)) + 1 ≤ bg_work b'.
Proof.
  intros [Hm H1 H2 H3 H4 H5 H6 H7] (W1 & W2 & W3 & W4 & W5 & W6 & W7)%charge_inv. split; [|lia].
  split; try congruence; try done; try lia. destruct Hm. split; lia.
Qed.
Lemma sound_out skew k cl b out out' :
  sound skew k cl b out → ed_ordered out' = ed_ordered out → ed_conditions out' = ed_conditions out → ed_set out' = ed_set out →
  (length (ed_proves out') ≤ MAX_PROVEN_PER_SIGNATURE)%nat → sound skew k cl b out'.
Proof. intros [] E1 E2 E3 Hp. split; rewrite ?E1, ?E2; try done. unfold kernel_view in *. by rewrite E1, E2, E3. Qed.
Lemma declaration_grows_refl out : grows out out.
Proof. by split. Qed.
Lemma declaration_grows_trans out1 out2 out3 : grows out1 out2 → grows out2 out3 → grows out1 out3.
Proof. intros [A1 A2 A3 A4] [B1 B2 B3 B4]. split; [by etrans|congruence..]. Qed.
#[local] Hint Resolve declaration_grows_refl : core.

Section clauses.
Context (hash : bytes → list bytes → Z) (inputs : EvalInputs) (Hin : inputs_typed hash inputs).
Context (skew : Z) (cl : Z).

(** What a clause leaves past the verdict on its guard, and with it. *)
Record adds (k : nat) (bindings : list Value) (c : Clause) (taken : bool) (out out' : EvalDeclaration) : Prop := {
  ad_ordered : ed_ordered out `prefix_of` ed_ordered out';
  ad_refused : taken = false → ed_ordered out' = ed_ordered out;
  ad_spans : ed_spans out' = ed_spans out;
  ad_taken : ed_taken out' = ed_taken out;
  ad_expansions : if decide (k = 0%nat) then
      ∃ o, filed hash inputs bindings c taken (length (ed_ordered out)) (length (ed_ordered out')) o ∧
        ed_expansions out' = from_option (λ rows, <[cl := rows]> (ed_expansions out)) (ed_expansions out) o
    else ed_expansions out' = ed_expansions out;
}.
Definition leaves_behind (k : nat) (bindings : list Value) (c : Clause) (out out' : EvalDeclaration) : Prop :=
  ∃ taken, verdict hash inputs bindings c taken ∧
    adds k bindings c taken (if decide (k = 0%nat) then with_taken out taken else out) out'.
Lemma leaves_grows k bindings c out out' : k ≠ 0%nat → leaves_behind k bindings c out out' → grows out out'.
Proof. intros Hk (taken & _ & [H1 _ H3 H4 H5]). by rewrite !decide_False in * by done. Qed.

(** What one clause's evaluation keeps, at depth [k]. *)
Definition keeps (k : nat) (ev : Clause → list Value → EvalDeclaration → EM EvalDeclaration) (c : Clause) : Prop :=
  ∀ bindings out b b' out', Forall value_typed bindings → sound skew k cl b out → ev c bindings out b = (b', Ok out') →
    sound skew k cl b' out' ∧ leaves_behind k bindings c out out'.

Lemma effect_keeps t m denomination reach number bindings out b b' out' k :
  target_typed t → mode_typed m → from_option expr_typed True denomination → Forall value_typed bindings → sound skew k cl b out →
  eval_effect hash inputs t m denomination reach number bindings out b = (b', Ok out') →
  sound skew k cl b' out' ∧ ∃ a, ed_ordered out' = ed_ordered out ++ [a] ∧ ed_spans out' = ed_spans out ∧ ed_taken out' = ed_taken out ∧
    ed_expansions out' = ed_expansions out.
Proof using Hin.
  intros Ht Hm Hd Hb Hs (b1 & tw & E1 & (b2 & md & E2 & (b3 & u & E3 & (b4 & held & E4 & (b5 & rch & E5 & E6)%em_bind_inv)%em_bind_inv)%em_bind_inv)%em_bind_inv)%em_bind_inv.
  pose proof (eval_target_rises _ _ _ _ _ _ _ (proj1 (proj1 (sd_meter _ _ _ _ _ Hs))) E1) as Hrise.
  apply (answers_run (λ tw, target_ok tw.1)) in E1 as [M1 _]; [|by apply eval_target_answers|apply Hs]. pose proof (sound_metered _ _ _ _ _ _ Hs M1) as S1.
  eapply answers_run in E2 as [M2 Hamt]; [|by apply eval_mode_answers|apply S1]. pose proof (sound_metered _ _ _ _ _ _ S1 M2) as S2.
  destruct (sound_charged _ _ _ _ _ _ _ S2 E3) as [S3 Hroom].
  assert (M4 : metered b3 b4).
  { eapply (answers_run (λ _, True)) in E4 as [M4 _]; [done| |apply S3]. destruct denomination as [e|]; [|by apply answers_ret].
    eapply answers_bind_with; [by apply eval_denomination_answers|]. intros r _. by apply answers_ret. }
  eapply (answers_run (λ _, True)) in E5 as [M5 _]; [|by apply eval_reach_answers|apply (sound_metered _ _ _ _ _ _ S3 M4)].
  pose proof (metered_trans _ _ _ M4 M5) as M45. pose proof (sound_metered _ _ _ _ _ _ S3 M45) as [X1 X2 X3 X4 X5 X6 X7 X8].
  assert (Hc : bg_spent b3 = bg_spent b2) by (by apply charge_inv in E3 as (_ & _ & _ & _ & ? & _)).
  cbn zeta in E6. destruct (insert_bounded _ _ _) as [set [f|e]] eqn:Ei; [|done]. injection E6 as <- <-.
  split; [|eexists; split_and!; done]. split; try done.
  - cbn. rewrite length_app. cbn. destruct M45 as [_ Hw _ _ _ _ _]. lia.
  - eapply (assembled_access (kernel_view out) {| da_effect := {| target := tw.1; mode := md |}; da_holds := held |} tw.2); [done| |]; cycle 1.
    + unfold push_access, kernel_view at 1. cbn [dc_set da_effect]. rewrite Ei.
      unfold kernel_view, with_access. cbn [ed_set ed_ordered ed_conditions]. by rewrite fmap_app.
    + unfold clause_ok. cbn. exact Hamt.
  - pose proof (sd_spent _ _ _ _ _ Hs). pose proof (mt_spent _ _ M2). pose proof (mt_spent _ _ M45). cbn. rewrite length_app. cbn. lia.
Qed.
Lemma proves_keeps claim bindings out b b' out' k :
  expr_typed claim → Forall value_typed bindings → sound skew k cl b out → eval_proves hash inputs claim bindings out b = (b', Ok out') →
  sound skew k cl b' out' ∧ ed_ordered out' = ed_ordered out ∧ ed_spans out' = ed_spans out ∧ ed_taken out' = ed_taken out ∧
    ed_expansions out' = ed_expansions out.
Proof using Hin.
  intros He Hb Hs (b1 & u & E1 & (b2 & v & E2 & (b3 & c & E3 & E4)%em_bind_inv)%em_bind_inv)%em_bind_inv.
  destruct (sound_charged _ _ _ _ _ _ _ Hs E1) as [S1 _].
  eapply answers_run in E2 as [M2 _]; [|by apply eval_at_answers|apply S1].
  eapply (answers_run (λ _, True)) in E3 as [M3 _]; [|by apply answers_lift|apply M2].
  pose proof (sound_metered _ _ _ _ _ _ S1 (metered_trans _ _ _ M2 M3)) as S3. destruct (_ && _); [done|]. cbn zeta in E4.
  destruct (decide _) as [|Hp]; [done|]. injection E4 as <- <-. split; [|done]. by eapply sound_out; [exact S3|..|lia].
Qed.
Lemma landed_ok c before out p : landed c before out = Some p → Z.of_nat before ≤ p < Z.of_nat (length (ed_ordered out)).
Proof. unfold landed. destruct c; try done. destruct (decide _) as [[H _]|]; [|done]. intros [= <-]. lia. Qed.
Lemma row_ok_grow lo hi hi' n row : (hi ≤ hi')%nat → row_ok lo hi n row → row_ok lo hi' n row.
Proof. intros Hh [H1 H2]. split; [done|]. intros p Hp. specialize (H2 p Hp). lia. Qed.

(** One element's pass: the rows it is handed each gain what their site landed. *)
Lemma expansion_keeps k ev body : k ≠ 0%nat → Forall (keeps k ev) body → ∀ bindings out rows b b' out' rows' lo n,
  Forall value_typed bindings → sound skew k cl b out → (lo ≤ length (ed_ordered out))%nat →
  from_option (λ rows, length rows = length body ∧ Forall (row_ok lo (length (ed_ordered out)) n) rows) True rows →
  eval_expansion ev body bindings out rows b = (b', Ok (out', rows')) →
  sound skew k cl b' out' ∧ grows out out' ∧
  match rows, rows' with
  | Some _, Some rows' => length rows' = length body ∧ Forall (row_ok lo (length (ed_ordered out')) (S n)) rows'
  | None, None => True
  | _, _ => False
  end.
Proof.
  intros Hk. induction 1 as [|c body Hc _ IH]; intros bindings out rows b b' out' rows' lo n Hb Hs Hlo Hrows E.
  - injection E as <- <- <-. split; [done|]. split; [by apply declaration_grows_refl|]. destruct rows; [by split|done].
  - apply em_bind_inv in E as (b1 & out1 & E1 & (b2 & [out2 rest] & E2 & E3)%em_bind_inv). destruct (Hc _ _ _ _ _ Hb Hs E1) as [S1 X1]. apply leaves_grows in X1; [|done].
    pose proof (prefix_length _ _ (gr_ordered _ _ X1)) as Hlen.
    eapply (IH _ _ _ _ _ _ _ lo n) in E2 as (S2 & X2 & Hrest); [|done|done|lia|].
    2: { destruct rows as [[|row rows]|]; cbn in Hrows |- *; [destruct Hrows; done| |done]. destruct Hrows as [Hl Hr]. split; [lia|].
         apply Forall_cons in Hr as [_ Hr]. eapply Forall_impl; [exact Hr|]. intros r. by apply row_ok_grow. }
    injection E3 as <- <- <-. cbn [fst snd]. split; [done|]. split; [by eapply declaration_grows_trans|].
    pose proof (prefix_length _ _ (gr_ordered _ _ X2)) as Hlen2.
    destruct rows as [[|row rows]|]; [by destruct Hrows| |by destruct rest]. cbn in Hrest. destruct rest as [rest|]; [|done].
    destruct Hrest as [Hl Hr]. destruct Hrows as [_ Hrows]. apply Forall_cons in Hrows as [[R1 R2] _]. split; [cbn; lia|].
    constructor; [|exact Hr]. split; [rewrite length_app; cbn; lia|]. intros p [Hp|Hp]%elem_of_app; [specialize (R2 p Hp); lia|].
    apply list_elem_of_singleton in Hp. symmetry in Hp. apply landed_ok in Hp. lia.
Qed.
Lemma items_keeps k ev body lines : k ≠ 0%nat → Forall (keeps k ev) body → ∀ items bindings out rows b b' out' rows' lo n,
  Forall value_typed items → Forall value_typed bindings → sound skew k cl b out → (lo ≤ length (ed_ordered out))%nat →
  from_option (λ rows, length rows = length body ∧ Forall (row_ok lo (length (ed_ordered out)) n) rows) True rows →
  eval_items ev body lines items bindings out rows b = (b', Ok (out', rows')) →
  sound skew k cl b' out' ∧ grows out out' ∧
  match rows, rows' with
  | Some _, Some rows' => length rows' = length body ∧ Forall (row_ok lo (length (ed_ordered out')) (n + length items)) rows'
  | None, None => True
  | _, _ => False
  end.
Proof.
  intros Hk Hbody items. induction items as [|item items IH]; intros bindings out rows b b' out' rows' lo n Hi Hb Hs Hlo Hrows E.
  - injection E as <- <- <-. split; [done|]. split; [by apply declaration_grows_refl|]. destruct rows; [|done]. cbn. by rewrite Nat.add_0_r.
  - apply Forall_cons in Hi as [Hv Hi].
    apply em_bind_inv in E as (b1 & u & E1 & (b2 & u2 & E2 & (b3 & [out1 rows1] & E3 & E4)%em_bind_inv)%em_bind_inv).
    destruct (sound_charged _ _ _ _ _ _ _ Hs E1) as [S1 _].
    assert (S2 : sound skew k cl b2 out) by (injection E2 as <-; destruct S1; split; done).
    eapply (expansion_keeps k ev body Hk Hbody _ _ _ _ _ _ _ lo n) in E3 as (S3 & X3 & R3); [|by apply Forall_app; split; [|constructor]|done|done|done].
    pose proof (prefix_length _ _ (gr_ordered _ _ X3)) as Hlen.
    eapply (IH _ _ _ _ _ _ _ lo (S n)) in E4 as (S4 & X4 & R4); [|done|done|exact S3|cbn; lia|cbn; by destruct rows, rows1].
    split; [done|]. split; [by eapply declaration_grows_trans|]. cbn. rewrite <- Nat.add_succ_comm. by destruct rows, rows1, rows'.
Qed.

Lemma adds_same k bindings c taken out out' :
  ed_ordered out `prefix_of` ed_ordered out' → (taken = false → ed_ordered out' = ed_ordered out) → ed_spans out' = ed_spans out →
  ed_taken out' = ed_taken out → ed_expansions out' = ed_expansions out →
  match c with Cl.ForEach _ _ _ => False | _ => True end → adds k bindings c taken out out'.
Proof. intros H1 H2 H3 H4 H5 Hc. split; try done. destruct (decide _); [|done]. exists None. split; [by destruct c|done]. Qed.
Lemma forced_value c b b' v : forced c b = (b', Ok v) → cow_value c = v.
Proof. destruct c; cbn; [|by intros [= _ <-]]. by intros (b1 & u & _ & [= _ <-])%em_bind_inv. Qed.
Lemma foreach_keeps k ev items body bindings out b b' out' :
  Forall (keeps (S k) ev) body → expr_typed items → Forall value_typed bindings → sound skew k cl b out →
  eval_foreach hash inputs ev items body bindings out b = (b', Ok out') → sound skew k cl b' out' ∧ ∀ guard, adds k bindings (Cl.ForEach guard items body) true out out'.
Proof using Hin.
  intros Hbody He Hb Hs (b1 & c & E1 & (b2 & v & E2 & (b3 & vs & E3 & E4)%em_bind_inv)%em_bind_inv)%em_bind_inv.
  assert (Hev : evaluates hash inputs bindings items (Val.List vs)).
  { exists b, b1, c. split; [done|]. apply forced_value in E2 as <-. unfold em_lift, refuse in E3. destruct (cow_value c); try done. by injection E3 as _ ->. }
  eapply answers_run in E1 as [M1 Hc]; [|by apply eval_answers|apply Hs]. cbn beta in Hc.
  eapply answers_run in E2 as [M2 Hv]; [|by apply (forced_answers _ value_typed)|apply M1].
  eapply (answers_run (Forall value_typed)) in E3 as [M3 Hvs]; [|apply answers_lift; intros; by eapply elements_typed|apply M2].
  pose proof (sound_metered _ _ _ _ _ _ Hs (metered_trans _ _ _ M1 (metered_trans _ _ _ M2 M3))) as S3.
  destruct (decide _); [done|]. apply em_bind_inv in E4 as (? & d & [= <- <-] & (? & ? & [= <- <-] & (? & ? & [= <- <-] & E4)%em_bind_inv)%em_bind_inv).
  apply em_bind_inv in E4 as (b4 & u & E4 & (b5 & [out5 rows5] & E5 & (b6 & u6 & E6 & (b7 & u7 & E7 & E8)%em_bind_inv)%em_bind_inv)%em_bind_inv).
  assert (S4 : sound skew (S k) cl b4 out) by (injection E4 as <-; destruct S3; split; cbn; congruence || done).
  eapply (items_keeps (S k) ev body _ (Nat.neq_succ_0 k) Hbody _ _ _ _ _ _ _ _ (length (ed_ordered out)) 0) in E5 as (S5 & X5 & R5); [|done|done|done|done|].
  2: { rewrite (sd_depth _ _ _ _ _ S3). destruct (decide (k = 0%nat)); [|done]. cbn. rewrite length_replicate. split; [done|].
       apply Forall_replicate. split; [done|]. intros p Hp. by apply not_elem_of_nil in Hp. }
  assert (S7 : sound skew k cl b7 out5) by (injection E6 as <-; injection E7 as <-; destruct S5; split; cbn in *; try done; lia).
  injection E8 as <- <-. cbn [fst snd]. rewrite (sd_depth _ _ _ _ _ S3) in R5. destruct X5 as [X1 X2 X3 X4].
  destruct (decide (k = 0%nat)) as [Hk|Hk]; destruct rows5 as [rows|]; try done.
  - split; [eapply sound_out; [exact S7|done..|apply S7]|]. intros guard. split; try done. rewrite decide_True by done. destruct R5 as [R5 R6].
    exists (Some rows). split; [exists rows; split; [done|]; split; [done|]; by exists vs|]. cbn. rewrite X4, (sd_clause _ _ _ _ _ S3). done.
  - split; [done|]. intros guard. split; try done. by rewrite decide_False by done.
Qed.

Lemma guard_answers bindings guard : Forall value_typed bindings → from_option expr_typed True guard →
  answers_with (λ _, True) (match guard with Some cond => v ← eval_at hash inputs cond bindings; em_lift (as_bool v) | None => mret true end).
Proof using Hin.
  intros Hb Hg. destruct guard as [e|]; [|by apply answers_ret]. eapply answers_bind_with; [by apply eval_at_answers|]. intros v _. by apply answers_lift.
Qed.
Lemma guard_verdict bindings c b b' taken :
  (match clause_guard c with Some cond => v ← eval_at hash inputs cond bindings; em_lift (as_bool v) | None => mret true end : EM bool) b = (b', Ok taken) →
  verdict hash inputs bindings c taken.
Proof.
  unfold verdict. destruct (clause_guard c) as [guard|]; [|by intros [= _ <-]].
  intros (b1 & v & (b2 & x & E & [= <- <-])%em_bind_inv & E2)%em_bind_inv. exists b, b2, x. split; [done|].
  unfold em_lift, refuse in E2. destruct (cow_value x); try done. by injection E2 as _ ->.
Qed.
Lemma requires_keeps rule bindings out b b' out' k :
  Forall leaf_typed (preorder rule) → Forall value_typed bindings → sound skew k cl b out →
  (_ ← charge; r ← eval_condition hash inputs rule bindings; mret (with_condition out {| c_rule := r; c_node := None |})) b = (b', Ok out') →
  sound skew k cl b' out' ∧ ∀ guard, adds k bindings (Cl.Requires guard rule) true out out'.
Proof using Hin.
  intros Hr Hb Hs (b1 & u & E1 & (b2 & r & E2 & [= <- <-])%em_bind_inv)%em_bind_inv. destruct (sound_charged _ _ _ _ _ _ _ Hs E1) as [S1 Hroom].
  eapply (answers_run (λ _, True)) in E2 as [M2 _]; [|by apply eval_condition_answers|apply S1].
  destruct (sound_metered _ _ _ _ _ _ S1 M2) as [X1 X2 X3 X4 X5 X6 X7 X8]. split; [|intros guard; by apply adds_same].
  split; try done; [|exact (assembled_condition _ _ X6)]. cbn. rewrite length_app. cbn. destruct M2 as [_ Hw _ _ _ _ _]. lia.
Qed.
Lemma clause_keeps c : clause_typed c → ∀ k, keeps k (eval_clause hash inputs) c.
Proof using Hin.
  induction c as [c IH] using clause_children_ind. intros [[Hg Hc] Hbody]%clause_typed_body k bindings out b b' out' Hb Hs E.
  assert (Hin' : Forall (keeps (S k) (eval_clause hash inputs)) (clause_body c)).
  { rewrite Forall_forall in *. intros x Hx. apply IH; [done|by apply Hbody]. }
  assert (Hu : ∀ out b b' u n, sound skew k cl b out → set_preorder n b = (b', Ok u) → sound skew k cl b' out).
  { intros ????? [] [= <-]. by split. }
  clear IH Hbody.
  destruct c as [guard t m den reach|guard items body|guard rule|guard claim]; cbn [eval_clause clause_guard clause_body] in E, Hg, Hin';
    apply em_bind_inv in E as (? & depth & [= <- <-] & E); (destruct (decide _) in E; [done|]);
    apply em_bind_inv in E as (? & number & [= <- <-] & (b1 & u & E1 & (b2 & taken & E2 & E)%em_bind_inv)%em_bind_inv);
    pose proof (Hu _ _ _ _ _ Hs E1) as S1; (match goal with |- _ ∧ leaves_behind _ _ ?c _ _ => pose proof (guard_verdict bindings c b1 b2 taken E2) as Hv end);
    eapply (answers_run (λ _, True)) in E2 as [M2 _]; try apply S1; try (by apply guard_answers);
    rewrite (sd_depth _ _ _ _ _ Hs) in E; pose proof (sound_metered _ _ _ _ _ _ S1 M2) as S2;
    (assert (S3 : sound skew k cl b2 (if decide (k = 0%nat) then with_taken out taken else out))
       by (destruct (decide (k = 0%nat)); [eapply sound_out; [exact S2|done..|apply S2]|exact S2]));
    (match goal with |- _ ∧ leaves_behind _ _ ?c _ _ =>
       cut (sound skew k cl b' out' ∧ adds k bindings c taken (if decide (k = 0%nat) then with_taken out taken else out) out') end);
    try (intros [? ?]; split; [done|]; by exists taken); destruct taken; cbn [negb] in E.
  - destruct Hc as (Ht & Hm & Hd). destruct (effect_keeps _ _ _ _ _ _ _ _ _ _ _ Ht Hm Hd Hb S3 E) as (S4 & a & H1 & H2 & H3 & H4).
    split; [done|]. apply adds_same; try done. rewrite H1. by apply prefix_app_r.
  - injection E as <- <-. split; [done|]. by apply adds_same.
  - destruct (foreach_keeps k (eval_clause hash inputs) items body bindings _ b2 b' out' Hin' Hc Hb S3 E) as [S4 A4]. split; [done|apply A4].
  - apply em_bind_inv in E as (? & line & [= <- <-] & (b4 & u4 & E4 & (? & ? & [= <- <-] & [= <- <-])%em_bind_inv)%em_bind_inv).
    pose proof (Hu _ _ _ _ _ S3 E4) as S4. destruct (decide (k = 0%nat)) as [->|Hk].
    + split; [eapply sound_out; [exact S4|done..|apply S4]|]. split; try done. rewrite decide_True by done.
      exists (Some (replicate (length body) [])). split; [|cbn; by rewrite (sd_clause _ _ _ _ _ S4)].
      exists (replicate (length body) []). split; [done|]. split; [by rewrite length_replicate|]. by apply Forall_replicate.
    + split; [done|]. split; try done. by rewrite decide_False by done.
  - destruct (requires_keeps rule bindings _ b2 b' out' k Hc Hb S3 E) as [S4 A4]. split; [done|apply A4].
  - injection E as <- <-. split; [done|]. by apply adds_same.
  - destruct (proves_keeps _ _ _ _ _ _ _ Hc Hb S3 E) as (S4 & H1 & H2 & H3 & H4). split; [done|]. apply adds_same; try done. by rewrite H1.
  - injection E as <- <-. split; [done|]. by apply adds_same.
Qed.
End clauses.

(** *** The whole signature *)

(** Spans end to end, from one position to another. *)
Fixpoint tiles (start : Z) (spans : list (Z * Z)) (stop : Z) : Prop :=
  match spans with
  | [] => start = stop
  | (s, len) :: spans => s = start ∧ 0 ≤ len ∧ tiles (start + len) spans stop
  end.
Lemma tiles_snoc start spans stop len : tiles start spans stop → 0 ≤ len → tiles start (spans ++ [(stop, len)]) (stop + len).
Proof. revert start. induction spans as [|[s l] spans IH]; intros start; cbn; [intros ->; by repeat split|]. intros (-> & Hl & Ht) Hlen. auto. Qed.
(** What a clause leaves at its number: its verdict, its span, which a refused
    clause leaves empty, and what it files. *)
Definition clause_spanned (hash : bytes → list bytes → Z) (inputs : EvalInputs) (d : EvalDeclaration) (i : nat) (c : Clause) : Prop :=
  ∃ taken start len,
    ed_taken d !! i = Some taken ∧ verdict hash inputs [] c taken ∧
    ed_spans d !! i = Some (Z.of_nat start, Z.of_nat len) ∧ (taken = false → len = 0%nat) ∧
    filed hash inputs [] c taken start (start + len) (ed_expansions d !! Z.of_nat i).
(** What the clauses evaluated so far leave. *)
Record spanned (hash : bytes → list bytes → Z) (inputs : EvalInputs) (clauses : list Clause) (d : EvalDeclaration) : Prop := {
  sp_taken : length (ed_taken d) = length clauses;
  sp_spans : length (ed_spans d) = length clauses;
  sp_tiles : tiles 0 (ed_spans d) (Z.of_nat (length (ed_ordered d)));
  sp_clauses : ∀ i c, clauses !! i = Some c → clause_spanned hash inputs d i c;
  sp_filed : ∀ clause, is_Some (ed_expansions d !! clause) → 0 ≤ clause < Z.of_nat (length clauses);
}.
(** One more clause. *)
Lemma spanned_snoc hash inputs clauses c out out1 :
  spanned hash inputs clauses out → leaves_behind hash inputs (Z.of_nat (length clauses)) 0 [] c out out1 →
  let start := length (ed_ordered out) in let len := (length (ed_ordered out1) - start)%nat in
  spanned hash inputs (clauses ++ [c]) (with_span out1 (Z.of_nat start, Z.of_nat len)).
Proof.
  intros [P1 P2 P3 P4 P5] (taken & Hv & [X1 X2 X3 X4 X5]) start len. rewrite decide_True in X1, X2, X3, X4, X5 by done.
  cbn [with_taken ed_ordered ed_spans ed_taken ed_expansions] in *. destruct X5 as (o & Hf & Ho). pose proof (prefix_length _ _ X1) as Hlen.
  assert (Hend : length (ed_ordered out1) = (start + len)%nat) by lia. rewrite Hend in Hf.
  assert (Hnone : ed_expansions out !! Z.of_nat (length clauses) = None).
  { destruct (ed_expansions out !! _) eqn:E; [|done]. specialize (P5 _ (ex_intro _ _ E)). lia. }
  split; cbn [with_span ed_ordered ed_spans ed_taken ed_expansions].
  - rewrite X4, !length_app. cbn. lia.
  - rewrite X3, !length_app. cbn. lia.
  - rewrite X3, Hend, Nat2Z.inj_add. apply tiles_snoc; [done|lia].
  - intros i x [Hi|[Hi [H0 Hx]%list_lookup_singleton_Some]]%lookup_app_Some.
    + destruct (P4 i x Hi) as (tk & s & l & A1 & A2 & A3 & A4 & A5). exists tk, s, l. cbn [with_span ed_ordered ed_spans ed_taken ed_expansions].
      rewrite X3, X4. split_and!; [by apply lookup_app_l_Some|done|by apply lookup_app_l_Some|done|].
      apply lookup_lt_Some in Hi. assert (Z.of_nat (length clauses) ≠ Z.of_nat i) by lia. rewrite Ho. destruct o; cbn; [by rewrite lookup_insert_ne|done].
    + subst x. assert (i = length clauses) as -> by lia. exists taken, start, len. cbn [with_span ed_ordered ed_spans ed_taken ed_expansions].
      rewrite X3, X4. split_and!; [by rewrite <- P1, lookup_app_r, Nat.sub_diag by done|done|by rewrite <- P2, lookup_app_r, Nat.sub_diag by done| |].
      * intros Hr. specialize (X2 Hr). subst len start. rewrite X2. lia.
      * rewrite Ho. destruct o; cbn; [by rewrite lookup_insert_eq|by rewrite Hnone].
  - intros clause Hs. rewrite length_app. cbn. destruct (decide (clause = Z.of_nat (length clauses))) as [->|Hne]; [lia|].
    enough (0 ≤ clause < Z.of_nat (length clauses)) by lia. apply P5. rewrite Ho in Hs. destruct o; cbn in Hs; [by rewrite lookup_insert_ne in Hs|done].
Qed.
Lemma top_keeps hash inputs skew : inputs_typed hash inputs → ∀ clauses before out b b' out',
  Forall clause_typed clauses → (∃ cl, sound skew 0 cl b out) → spanned hash inputs before out →
  eval_top hash inputs clauses (Z.of_nat (length before)) out b = (b', Ok out') →
  (∃ cl, sound skew 0 cl b' out') ∧ spanned hash inputs (before ++ clauses) out'.
Proof.
  intros Hin clauses. induction clauses as [|c clauses IH]; intros before out b b' out' Hc [cl Hs] Hsp E.
  { injection E as <- <-. split; [by exists cl|]. by rewrite app_nil_r. }
  apply Forall_cons in Hc as [Hc Hcs]. cbn [eval_top] in E. destruct (decide _); [done|].
  apply em_bind_inv in E as (b1 & u & E1 & (b2 & out1 & E2 & E)%em_bind_inv).
  assert (S1 : sound skew 0 (Z.of_nat (length before)) b1 out) by (injection E1 as <-; destruct Hs; by split).
  destruct (clause_keeps hash inputs Hin skew (Z.of_nat (length before)) c Hc 0 [] out b1 b2 out1) as [S2 X]; [constructor|done|done|].
  destruct (decide _); [done|]. pose proof (spanned_snoc hash inputs before c out out1 Hsp X) as Hsp1.
  rewrite cons_middle, app_assoc. eapply (IH (before ++ [c])); [done| |exact Hsp1|].
  - exists (Z.of_nat (length before)). eapply sound_out; [exact S2|done..|apply S2].
  - rewrite length_app. cbn. by replace (Z.of_nat (length before + 1)) with (Z.of_nat (length before) + 1) by lia.
Qed.

(** The signature's meter, read back from its run. *)
Definition work_spent (hash : bytes → list bytes → Z) (inputs : EvalInputs) (clauses : list Clause) (envelope : Z) : Z :=
  bg_spent (eval_top hash inputs clauses 0 declaration_empty (budget_new envelope)).1.
Lemma declaration_sound hash inputs clauses envelope envelope' d :
  inputs_typed hash inputs → Forall clause_typed clauses → 0 ≤ envelope ≤ MAX_ENVELOPE_EVALUATION_WORK →
  evaluate_declaration hash inputs clauses envelope = (envelope', Ok d) →
  assembled (kernel_view d) ∧
  Z.of_nat (length (ed_ordered d) + length (ed_conditions d)) ≤ MAX_EFFECTS_PER_SIGNATURE ∧
  (length (ed_proves d) ≤ MAX_PROVEN_PER_SIGNATURE)%nat ∧
  spanned hash inputs clauses d ∧
  (envelope' = envelope + work_spent hash inputs clauses envelope ∧
   Z.of_nat (length (ed_ordered d)) ≤ work_spent hash inputs clauses envelope ≤ MAX_EVALUATION_WORK ∧
   envelope' ≤ MAX_ENVELOPE_EVALUATION_WORK).
Proof.
  intros Hin Hc He E. unfold evaluate_declaration in E. unfold work_spent. destruct (eval_top _ _ _ _ _ _) as [b r] eqn:Et. injection E as <- ->.
  destruct (top_keeps hash inputs envelope Hin clauses [] declaration_empty (budget_new envelope) b d) as ((cl & S) & Hsp); try done.
  - exists 0. split; cbn; try done; try lia; try constructor; unfold in_meter, MAX_EVALUATION_WORK; cbn; lia.
  - split; try done. intros clause [? ?]. done.
  - destruct S as [[Hm1 Hm2] _ _ Hk Hw Ha Hp Hsp']. cbn [fst]. split_and!; try done; lia.
Qed.
(** Evaluation feeds materialization: over a store between transactions, the session a
    signature's declaration materializes into is one every guarantee of a session
    starts from. *)
Lemma evaluated_materializes {B} `{Baseline B} hash inputs clauses envelope envelope' d a (o : OverlayStore B) t scope s :
  inputs_typed hash inputs → Forall clause_typed clauses → 0 ≤ envelope ≤ MAX_ENVELOPE_EVALUATION_WORK →
  evaluate_declaration hash inputs clauses envelope = (envelope', Ok d) →
  base_agree (base o) a → small_collections a → fresh o → materialize_within o (kernel_view d) t scope = Ok s →
  session_ok a s ∧ ready s ∧ (∀ r, account s r = 0) ∧ length (cell_resources (fixed s)) = length (ed_ordered d).
Proof.
  intros Hin Hc He E Hb Hsm Hf Em. destruct (declaration_sound _ _ _ _ _ _ Hin Hc He E) as (Ha & Hw & _).
  destruct (materialized_session a o (kernel_view d) t scope s) as (H1 & H2 & H3 & [H4 H5] & _); try done.
  { cbn. rewrite length_fmap. unfold MAX_EFFECTS_PER_SIGNATURE in Hw. unfold width_max. lia. }
  split_and!; try done. rewrite H5. cbn. by rewrite !length_fmap.
Qed.

(** C37: what evaluating a signature yields. A signature written with typed literals, over typed inputs, that evaluates at
    all, evaluates to a declaration the kernel can be handed: the set is the fold of the accesses, reserve amounts are
    u128s; it declares at most [MAX_EFFECTS_PER_SIGNATURE] accesses and conditions and proves at most
    [MAX_PROVEN_PER_SIGNATURE] claims. Every clause has its guard's verdict and its span, the spans lie end to end over
    the clause order and a refused clause's is empty; a loop, and nothing else, files a row for each clause of its body,
    with one entry for each element of the list its items evaluate to, none where it was refused, and every position an
    entry names lies in the span of the loop. The envelope is charged exactly what the signature's own meter counted,
    which is at least one unit for every access declared and within both ceilings. *)
Theorem evaluated_declaration hash inputs clauses envelope envelope' d :
  inputs_typed hash inputs → Forall clause_typed clauses → 0 ≤ envelope ≤ MAX_ENVELOPE_EVALUATION_WORK →
  evaluate_declaration hash inputs clauses envelope = (envelope', Ok d) →
  assembled (kernel_view d) ∧
  Z.of_nat (length (ed_ordered d) + length (ed_conditions d)) ≤ MAX_EFFECTS_PER_SIGNATURE ∧
  (length (ed_proves d) ≤ MAX_PROVEN_PER_SIGNATURE)%nat ∧
  spanned hash inputs clauses d ∧
  (envelope' = envelope + work_spent hash inputs clauses envelope ∧
   Z.of_nat (length (ed_ordered d)) ≤ work_spent hash inputs clauses envelope ≤ MAX_EVALUATION_WORK ∧
   envelope' ≤ MAX_ENVELOPE_EVALUATION_WORK).
Proof. apply declaration_sound. Qed.

(** A transfer to every account an argument lists, and a claim proven: two reserves
    on the caller's vault folded into one, an account's own badge. *)
Definition sample_resource : Address := address_new 5 Resource.
Definition sample_vault : Expr := self_child VAULT [Ex.Literal (Val.Address sample_resource)].
Definition sample_clauses : list Clause := [
  Cl.Effect None (Te.Point sample_vault) (Me.Reserve (Ex.Arg 1)) (Some (Ex.Literal (Val.Address sample_resource))) None;
  Cl.ForEach (Some (Ex.Lt (Ex.Literal (Val.U64 0)) (Ex.Len (Ex.Arg 0)))) (Ex.Arg 0) [
    Cl.Effect None (Te.Point (Ex.ChildKey (Ex.Binding 0) (Fixed 16) [Ex.Tuple [Ex.Binding 0; Ex.FreshId 1]])) (Me.Delta In) None None;
    Cl.Requires None (Require (Leaf_.Claimed Ex.SelfAddr))];
  Cl.Effect None (Te.Range Ex.SelfAddr (Fixed 17) [] (Ex.Literal (Val.U64 1)) (Ex.Pack (Ex.Literal (Val.U64 1)) (Ex.Literal (Val.U64 2))) (Ex.Len (Ex.Arg 0)))
    (Me.Write Both) None None;
  Cl.Proves None Ex.SelfAddr].
Definition sample_inputs : EvalInputs := {|
  ei_self := address_new 9 Component;
  ei_args := [Val.List [Val.Address (address_new 1 Principal); Val.Address (address_new 2 Principal)]; Val.U128 250];
  ei_record := {| im_package := 7; im_config := []; im_salt := 3 |};
  ei_node := 0; ei_identity := 77; ei_grants := ∅; ei_widths := ∅ |}.
Definition declaration_check (r : Z * result (halt EvalError) EvalDeclaration) : bool :=
  match r with
  | (spent, Ok d) =>
      bool_decide (length (ed_ordered d) = 4%nat ∧ length (ed_conditions d) = 2%nat ∧ ed_spans d = [(0, 1); (1, 2); (3, 1); (4, 0)] ∧
        ed_expansions d !! 1 = Some [[Some 1; Some 2]; [None; None]] ∧ length (ed_proves d) = 1%nat ∧ spent < 1000)
  | _ => false
  end.
Lemma sample_inputs_typed : inputs_typed sample_hash sample_inputs.
Proof.
  split; [exact sample_hash_width|apply address_new_ok; by vm_compute| |constructor].
  assert (Ha : ∀ n, in_width 248 n → value_typed (Val.Address (address_new n Principal))) by (intros n Hn; apply typed_scalar; [done|by apply address_new_ok]).
  apply Forall_cons; split; [|apply Forall_singleton, typed_scalar; [done|]; cbn; unfold width_ok; lia].
  apply typed_list, Forall_cons; split; [|apply Forall_singleton]; apply Ha; by vm_compute.
Qed.
Lemma sample_clauses_typed : Forall clause_typed sample_clauses.
Proof.
  assert (Hr : value_typed (Val.Address sample_resource)) by (apply typed_scalar; [done|by apply address_new_ok; vm_compute]).
  assert (Hn : ∀ n, 0 ≤ n < 10 → value_typed (Val.U64 n)) by (intros n Hn; apply typed_scalar; [done|]; cbn; unfold width_ok; lia).
  repeat (apply Forall_cons; split); try apply Forall_nil; try done;
    do 2 (try apply clause_typed_body; unfold clause_typed_here; cbn; repeat split; repeat (apply Forall_cons; split); try apply Forall_nil; try done;
          try (apply Hn; lia)).
Qed.
Lemma sample_envelope : 0 ≤ 0 ≤ MAX_ENVELOPE_EVALUATION_WORK.
Proof. by vm_compute. Qed.
Lemma evaluated_declaration_witness :
  declaration_check (evaluate_declaration sample_hash sample_inputs sample_clauses 0) = true ∧
  ∃ envelope d, evaluate_declaration sample_hash sample_inputs sample_clauses 0 = (envelope, Ok d) ∧ assembled (kernel_view d) ∧
    spanned sample_hash sample_inputs sample_clauses d.
Proof.
  assert (E : declaration_check (evaluate_declaration sample_hash sample_inputs sample_clauses 0) = true) by (vm_compute; reflexivity).
  split; [exact E|].
  assert (H := λ envelope d, evaluated_declaration sample_hash sample_inputs sample_clauses 0 envelope d sample_inputs_typed sample_clauses_typed sample_envelope).
  revert E H. destruct (evaluate_declaration sample_hash sample_inputs sample_clauses 0) as [envelope [d|]]; intros E H; [|discriminate E].
  exists envelope, d. destruct (H envelope d eq_refl) as (Ha & _ & _ & Hs & _). split; [reflexivity|]. split; [exact Ha|exact Hs].
Defined.

(** One of: the instance itself, a stored rule, a cell the caller names being there. *)
Definition sample_gate : RuleExpr := CountOf 1 [
  Require (Leaf_.Claimed Ex.SelfAddr);
  Require (Leaf_.Stored (self_child 16 [Ex.Literal (Val.U64 4)]));
  Require (Leaf_.IfPresence (Te.Point (self_child 17 [Ex.Arg 0; Ex.FreshId 2])) Present)].
(** A call on the same instance from another node of another intent. *)
Definition other_call : EvalInputs := {|
  ei_self := ei_self sample_inputs; ei_args := [Val.U64 8]; ei_record := ei_record sample_inputs;
  ei_node := 3; ei_identity := 78; ei_grants := ∅; ei_widths := {[16 := 40]} |}.
Definition presence_local (r : Rule JudgedLeaf.JudgedLeaf) : Z :=
  match r with CountOf _ [_; _; Require (JudgedLeaf.IfPresence (Point k) _)] => local k | _ => -1 end.
Lemma authority_not_the_callers_witness :
  names_caller_authority sample_gate = false ∧
  ∃ b1 r1 b2 r2, eval_condition sample_hash sample_inputs sample_gate [] (budget_new 0) = (b1, Ok r1) ∧
    eval_condition sample_hash other_call sample_gate [Val.Bool true] (budget_new 5) = (b2, Ok r2) ∧
    r1 ≠ r2 ∧ evidence r1 = evidence r2.
Proof.
  assert (Hn : names_caller_authority sample_gate = false) by (vm_compute; reflexivity). split; [exact Hn|].
  assert (H := authority_not_the_callers sample_hash sample_inputs other_call [] [Val.Bool true] sample_gate (budget_new 0) (budget_new 5)).
  assert (E : match eval_condition sample_hash sample_inputs sample_gate [] (budget_new 0), eval_condition sample_hash other_call sample_gate [Val.Bool true] (budget_new 5) with
              | (_, Ok r1), (_, Ok r2) => negb (presence_local r1 =? presence_local r2) | _, _ => false end = true)
    by (vm_compute; reflexivity).
  revert E H.
  destruct (eval_condition sample_hash sample_inputs sample_gate [] (budget_new 0)) as [b1 [r1|]]; intros E; [|discriminate E].
  destruct (eval_condition sample_hash other_call sample_gate [Val.Bool true] (budget_new 5)) as [b2 [r2|]]; intros H; [|discriminate E].
  exists b1, r1, b2, r2. split; [reflexivity|]. split; [reflexivity|]. split; [intros ->; by rewrite Z.eqb_refl in E|].
  apply (H b1 b2 r1 r2); [split; reflexivity|exact Hn|left; constructor|reflexivity|reflexivity].
Defined.
Lemma authority_width_exact :
  option_map length (authority_in_cell {| primary := replicate MAX_VALUE_BYTES x00; confirmation := replicate MAX_VALUE_BYTES x00 |}) = Some (Z.to_nat authority_width).
Proof. vm_compute. reflexivity. Qed.
