(* ===== verification/Bounds.v ===== *)
(** * The publish bounds ([crates/effects/src/publish/bounds.rs])

    The caps one signature is held to when its package is published: expression and
    clause nesting, literal depth and width, declared and proven counts, the caps of
    declared rules and of granted sets. The walk mirrors the evaluator's recursion,
    so a signature it accepts is not refused for its structure; what it does not
    bound is the depth of a value the evaluator builds. *)

From S2P Require Import Prelude WideMath Types Effects Conflict Modes Hbor Cells Writes Ledger Store Overlay Capability Outcomes Rules Values Buckets Supply Session Grants Seals Conservation Receipt Closing Materialize Dsl.

(** ** Refusals, and where *)

Inductive SignatureSite :=
  | SiteOutput (index : Z) | SiteDenomination (param : Z) | SiteAbi (index : Z) | SiteIssuance (index : Z) | SiteClause (number : Z).
Module BoundErr.
Inductive SignatureBoundsError :=
  | UnadmittedGrant | TooManyIssuances | TooManyProves | BadgeChainTooDeep | RuleCaps | ExprDepth | LiteralDepth | ClauseDepth
  | TooManyEffects | ValueWidth.
End BoundErr.
Abbreviation SignatureBoundsError := BoundErr.SignatureBoundsError.
Record PlacedBounds := { site : SignatureSite; cause : SignatureBoundsError }.
Definition at_site {A} (s : SignatureSite) (r : result SignatureBoundsError A) : result PlacedBounds A :=
  match r with Ok a => Ok a | Err e => Err {| site := s; cause := e |} end.

(** The parts of a signature the bounds and the classifier read ([crates/effects/src/signature.rs]); an issuance is
    its granted rules. *)
Definition MAX_ISSUANCES_PER_SIGNATURE : nat := 16.
Inductive AbiParam := AbiHandle (clause site : Z) | AbiBucket (param : Z) | AbiGuard (clause : Z) | AbiDerived (e : Expr).
Module ParamType.
Inductive ParamType :=
  | U64 | U128 | U256 | Bytes | BytesExact (width : Z) | Address | CallTarget | Principal | Component | Package | Resource
  | Rule | Ids | Bucket | NfBucket | PrincipalRule.
End ParamType.
Abbreviation ParamType := ParamType.ParamType.
Record MethodSignature := {
  ms_declines : bool;
  ms_issues : list GrantsExpr;
  ms_destroys : list Z;
  ms_params : list ParamType;
  ms_answers : bool;
  ms_outputs : list Expr;
  ms_denominations : list (option Expr);
  ms_effects : list Clause;
  ms_abi : list AbiParam;
}.

(** ** Grants *)

Definition check_all {E A} (f : A → result E ()) : list A → result E () :=
  fix go (l : list A) : result E () := match l with [] => Ok () | x :: l => _ ← f x; go l end.
Definition is_config (s : GrantSubject) : bool := match s with ConfigField _ => true | _ => false end.
Definition is_badge (s : GrantSubject) : bool := match s with SelfBadge _ _ _ | SelfInstance _ _ _ => true | _ => false end.
Definition check_grant_leaf (s : GrantSubject) : result SignatureBoundsError () :=
  match s with
  | SelfAddr | ConfigField _ => Ok ()
  | SelfBadge _ _ rules | SelfInstance _ _ rules =>
      check_all (λ p, if within_caps p.2 0
                      then check_all (λ l, if is_badge l then Err BoundErr.BadgeChainTooDeep else Ok ()) (leaves p.2)
                      else Err BoundErr.RuleCaps) rules
  end.
Definition check_grants_bounds (g : GrantsExpr) : result SignatureBoundsError () :=
  check_all (λ p : GrantedBehaviour * GrantRuleExpr,
    let '(behaviour, rule) := p in
    if (if asks_about_the_actor behaviour then is_never rule else is_always rule) then Err BoundErr.UnadmittedGrant
    else
      let widening := if asks_about_the_actor behaviour then 0%nat else length (List.filter is_config (leaves rule)) in
      if negb (within_caps rule (if decide (0 < widening)%nat then 1 else 0)) then Err BoundErr.RuleCaps
      else if decide (MAX_RULE_LEAVES < length (leaves rule) + widening)%nat then Err BoundErr.RuleCaps
      else check_all check_grant_leaf (leaves rule)) g.

(** ** Expressions *)

(** A term's own bounds, before its subterms are walked. *)
Definition check_term_bounds (e : Expr) : result SignatureBoundsError () :=
  match e with
  | Ex.Literal v =>
      if decide (MAX_VALUE_DEPTH < value_depth v)%nat then Err BoundErr.LiteralDepth
      else match value_within_width v with Ok _ => Ok () | Err _ => Err BoundErr.ValueWidth end
  | Ex.List es | Ex.Tuple es => if decide (MAX_VALUE_ITEMS < length es)%nat then Err BoundErr.ValueWidth else Ok ()
  | Ex.SelfResource _ _ grants => check_grants_bounds grants
  | _ => Ok ()
  end.
Fixpoint check_expr_bounds (e : Expr) (depth : nat) : result SignatureBoundsError () :=
  if decide (MAX_EXPR_DEPTH < depth)%nat then Err BoundErr.ExprDepth
  else
    _ ← check_term_bounds e;
    let sub e := check_expr_bounds e (S depth) in
    match e with
    | Ex.Literal _ | Ex.Arg _ | Ex.Config _ | Ex.Binding _ | Ex.SelfAddr | Ex.SelfRecord | Ex.FreshId _ | Ex.FreshKey _ => Ok ()
    | Ex.Field inner _ | Ex.ResourceOf inner | Ex.IdsOf inner | Ex.Len inner | Ex.Only inner | Ex.Not inner => sub inner
    | Ex.Lookup first second | Ex.Contains first second | Ex.Pack first second | Ex.NfBucket first second
    | Ex.Add first second | Ex.And first second | Ex.Or first second | Ex.Eq first second | Ex.Lt first second => _ ← sub first; sub second
    | Ex.If cond thn otherwise => _ ← sub cond; _ ← sub thn; sub otherwise
    | Ex.List es | Ex.Tuple es | Ex.SelfResource _ es _ => check_all sub es
    | Ex.ChildKey owner slot material =>
        _ ← sub owner;
        _ ← match slot with Fixed _ => Ok () | Reached s => sub s end;
        check_all sub material
    | Ex.OrderKey owner _ material => _ ← sub owner; check_all sub material
    end.
Definition check_target_bounds (t : TargetExpr) : result SignatureBoundsError () := check_all (λ e, check_expr_bounds e 0) (target_parts t).
Definition check_mode_bounds (m : ModeExpr) : result SignatureBoundsError () :=
  match m with Me.Reserve amount => check_expr_bounds amount 0 | _ => Ok () end.
Definition check_leaf_bounds (l : RuleLeaf) : result SignatureBoundsError () :=
  match l with
  | Leaf_.Claimed e | Leaf_.Stored e => check_expr_bounds e 0
  | Leaf_.IfPresence t _ => check_target_bounds t
  end.
Fixpoint check_rule_bounds (r : RuleExpr) : result SignatureBoundsError () :=
  if negb (within_caps r 0) then Err BoundErr.RuleCaps
  else match r with
       | Require l => check_leaf_bounds l
       | CountOf _ rules => check_all check_rule_bounds rules
       end.
Definition check_option_bounds (o : option Expr) : result SignatureBoundsError () :=
  match o with Some e => check_expr_bounds e 0 | None => Ok () end.

(** ** Clauses *)

(** The counts of the walk: clauses declared, claims proven, the next line. *)
Record Counts := { declared : Z; proven : nat; number : Z }.
Definition count_declared (s : SignatureSite) (n : Counts) : result PlacedBounds Counts :=
  let declared := declared n + 1 in
  if decide (MAX_EFFECTS_PER_SIGNATURE < declared) then Err {| site := s; cause := BoundErr.TooManyEffects |}
  else Ok {| declared := declared; proven := proven n; number := number n |}.
Definition count_proven (s : SignatureSite) (claim : Expr) (n : Counts) : result PlacedBounds Counts :=
  let proven := (proven n + match claim with Ex.Tuple _ => 2 | _ => 1 end)%nat in
  if decide (MAX_PROVEN_PER_SIGNATURE < proven)%nat then Err {| site := s; cause := BoundErr.TooManyProves |}
  else Ok {| declared := declared n; proven := proven; number := number n |}.
Definition check_clauses (check : Clause → nat → Counts → result PlacedBounds Counts) (depth : nat) (clauses : list Clause) (n : Counts) :
    result PlacedBounds Counts :=
  if decide (MAX_CLAUSE_DEPTH < depth)%nat then Err {| site := SiteClause (number n); cause := BoundErr.ClauseDepth |}
  else (fix go (clauses : list Clause) (n : Counts) : result PlacedBounds Counts :=
          match clauses with [] => Ok n | c :: clauses => n ← check c depth n; go clauses n end) clauses n.
Fixpoint check_clause (c : Clause) (depth : nat) (n : Counts) : result PlacedBounds Counts :=
  let here := SiteClause (number n) in
  let n := {| declared := declared n; proven := proven n; number := saturating_add 32 (number n) 1 |} in
  match c with
  | Cl.Effect guard target mode denomination _ =>
      _ ← at_site here (check_option_bounds guard);
      n ← count_declared here n;
      _ ← at_site here (check_target_bounds target);
      _ ← at_site here (check_mode_bounds mode);
      _ ← at_site here (check_option_bounds denomination);
      Ok n
  | Cl.ForEach guard items body =>
      _ ← at_site here (check_option_bounds guard);
      _ ← at_site here (check_expr_bounds items 0);
      check_clauses check_clause (S depth) body n
  | Cl.Requires guard rule =>
      _ ← at_site here (check_option_bounds guard);
      n ← count_declared here n;
      _ ← at_site here (check_rule_bounds rule);
      Ok n
  | Cl.Proves guard claim =>
      _ ← at_site here (check_option_bounds guard);
      n ← count_declared here n;
      n ← count_proven here claim n;
      _ ← at_site here (check_expr_bounds claim 0);
      Ok n
  end.
Definition check_clause_bounds (clauses : list Clause) (depth : nat) (n : Counts) : result PlacedBounds Counts :=
  check_clauses check_clause depth clauses n.

(** Each element of a list at its position, saturating as the source counts it. *)
Fixpoint check_each {A} (place : Z → SignatureSite) (f : A → result SignatureBoundsError ()) (index : Z) (l : list A) : result PlacedBounds () :=
  match l with
  | [] => Ok ()
  | x :: l => _ ← at_site (place (Z.min index (width_max 32))) (f x); check_each place f (index + 1) l
  end.
Definition check_signature_bounds (s : MethodSignature) : result PlacedBounds () :=
  _ ← check_each SiteOutput (λ e, check_expr_bounds e 0) 0 (ms_outputs s);
  _ ← check_each SiteDenomination check_option_bounds 0 (ms_denominations s);
  _ ← check_each SiteAbi (λ p, match p with AbiDerived e => check_expr_bounds e 0 | _ => Ok () end) 0 (ms_abi s);
  if decide (MAX_ISSUANCES_PER_SIGNATURE < length (ms_issues s))%nat
  then Err {| site := SiteIssuance (Z.of_nat MAX_ISSUANCES_PER_SIGNATURE); cause := BoundErr.TooManyIssuances |}
  else
    _ ← check_each SiteIssuance check_grants_bounds 0 (ms_issues s);
    _ ← check_clause_bounds (ms_effects s) 0 {| declared := 0; proven := 0; number := 0 |};
    Ok ().

(** ** What the bounds rule out *)

Lemma check_all_ok {E A} (f : A → result E ()) l : check_all f l = Ok () ↔ Forall (λ x, f x = Ok ()) l.
Proof.
  induction l as [|x l IH]; cbn; [by rewrite Forall_nil|]. rewrite Forall_cons, <- IH. destruct (f x) as [[]|]; cbn; naive_solver.
Qed.
Lemma check_expr_children e depth : check_expr_bounds e depth = Ok () →
  (depth ≤ MAX_EXPR_DEPTH)%nat ∧ check_term_bounds e = Ok () ∧ Forall (λ c, check_expr_bounds c (S depth) = Ok ()) (expr_children e).
Proof.
  destruct e; cbn [check_expr_bounds expr_children]; (destruct (decide _) as [|Hd]; [done|]); intros (u & Ht & H)%result_bind_ok; destruct u;
    (split; [lia|]); (split; [done|]); repeat (match goal with H : (_ ≫= _) = Ok _ |- _ => apply result_bind_ok in H as ([] & ? & H) end);
    rewrite ?Forall_app, ?Forall_cons, ?Forall_nil; rewrite <- ?check_all_ok; try tauto.
  destruct slot; cbn; [tauto|]. split; [done|]. by rewrite H1.
Qed.

(** The refusals of structure alone. *)
Definition structural (e : EvalError) : bool :=
  match e with EvalErr.ExpressionTooDeep | EvalErr.ClausesTooDeep | EvalErr.GrantsUnresolvable GrantsErr.BadgeChainTooDeep => true | _ => false end.
Definition plain {A} (r : result EvalError A) : Prop := ∀ e, r = Err e → structural e = false.
Definition avoids {A} (m : EM A) : Prop := ∀ b b' e, m b = (b', Err (Refuses e)) → structural e = false.
Lemma avoids_bind {A B} (m : EM A) (f : A → EM B) : avoids m → (∀ a, avoids (f a)) → avoids (m ≫= f).
Proof. intros Hm Hf b b' e. unfold mbind, em_bind. destruct (m b) as [c [a|h]] eqn:E; [apply Hf|]. intros [= <- ->]. by eapply Hm. Qed.
Lemma avoids_ret {A} (a : A) : avoids (mret a).
Proof. by intros b b' e [=]. Qed.
Lemma avoids_lift {A} (r : result EvalError A) : plain r → avoids (em_lift r).
Proof. intros Hr b b' e. unfold em_lift, refuse. destruct r; [done|]. intros [= <- ->]. by apply Hr. Qed.
Lemma avoids_expects {A} (o : option A) : avoids (em_expects o).
Proof. intros b b' e. by destruct o. Qed.
Lemma avoids_spend units : avoids (spend units).
Proof. intros b b' e. unfold spend, envelope_spend. repeat (destruct (decide _); [by intros [= <- <-]|]). done. Qed.
Lemma avoids_charge : avoids charge.
Proof. intros b b' e. unfold charge. destruct (decide _); [by intros [= <- <-]|done]. Qed.
Lemma plain_err {A} e : structural e = false → plain (A := A) (Err e).
Proof. by intros He e' [= <-]. Qed.
Lemma plain_ok {A} (a : A) : plain (Ok a).
Proof. by intros e [=]. Qed.
Lemma plain_ok_or {A} (o : option A) e : structural e = false → plain (ok_or o e).
Proof. intros He e'. destruct o; [done|]. by intros [= <-]. Qed.
Lemma plain_bind {A B} (r : result EvalError A) (f : A → result EvalError B) : plain r → (∀ a, plain (f a)) → plain (r ≫= f).
Proof. intros Hr Hf e. destruct r; [apply Hf|]. intros [= <-]. by apply Hr. Qed.
Create HintDb avoids.
#[export] Hint Resolve avoids_bind avoids_ret avoids_lift avoids_expects avoids_spend avoids_charge plain_ok plain_bind : avoids.
#[export] Hint Extern 1 (plain (Err _)) => (apply plain_err; reflexivity) : avoids.
#[export] Hint Extern 1 (plain (ok_or _ _)) => (apply plain_ok_or; reflexivity) : avoids.
#[export] Hint Extern 2 (avoids (if ?c then _ else _)) => (destruct c) : avoids.
#[export] Hint Extern 2 (avoids (match ?c with _ => _ end)) => (destruct c) : avoids.
#[export] Hint Extern 2 (plain (if ?c then _ else _)) => (destruct c) : avoids.
#[export] Hint Extern 2 (plain (match ?c with _ => _ end)) => (destruct c) : avoids.
Ltac plainly := intros; auto 10 with avoids.
Lemma plain_as_u64 v : plain (as_u64 v).
Proof. unfold as_u64, mismatch. plainly. Qed.
Lemma plain_as_u128 v : plain (as_u128 v).
Proof. unfold as_u128, mismatch. plainly. Qed.
Lemma plain_as_address v : plain (as_address v).
Proof. unfold as_address, mismatch. plainly. Qed.
Lemma plain_as_key v : plain (as_key v).
Proof. unfold as_key, mismatch. plainly. Qed.
Lemma plain_as_bool v : plain (as_bool v).
Proof. unfold as_bool, mismatch. plainly. Qed.
Lemma plain_fields v : plain (fields_of v).
Proof. unfold fields_of, mismatch. plainly. Qed.
Lemma plain_elements v : plain (elements v).
Proof. unfold elements, mismatch. plainly. Qed.
Lemma plain_as_list v : plain (as_list v).
Proof. unfold as_list, mismatch. plainly. Qed.
Lemma plain_bucket v : plain (bucket_parts v).
Proof. unfold bucket_parts, mismatch. plainly. Qed.
Lemma plain_edge_ids c : plain (edge_ids c).
Proof. unfold edge_ids. plainly. Qed.
Lemma plain_add l r : plain (add l r).
Proof. destruct l, r; unfold add, mismatch; plainly. Qed.
Lemma plain_less_than l r : plain (less_than l r).
Proof. destruct l, r; unfold less_than, mismatch; plainly. Qed.
Lemma plain_reject v : plain (reject_bucket v).
Proof. unfold reject_bucket. plainly. Qed.
#[export] Hint Resolve plain_as_u64 plain_as_u128 plain_as_address plain_as_key plain_as_bool plain_fields plain_elements plain_as_list plain_bucket
  plain_edge_ids plain_add plain_less_than plain_reject : avoids.
Lemma plain_equals l r : plain (equals l r).
Proof. unfold equals, mismatch. plainly. Qed.
Lemma plain_as_cap v : plain (as_cap v).
Proof. unfold as_cap. plainly. Qed.
Lemma plain_sole vs : plain (sole vs).
Proof. unfold sole. plainly. Qed.
Lemma plain_id_set vs : plain (id_set vs).
Proof.
  unfold id_set. assert (H : ∀ ids, plain (id_set_walk vs ids)); [|plainly].
  induction vs as [|v vs IH]; intros ids; cbn; plainly.
Qed.
#[export] Hint Resolve plain_equals plain_as_cap plain_sole plain_id_set : avoids.
#[export] Hint Unfold field arg config binding resource_of_address mismatch : avoids.

(** *** Badge chains *)

Definition chainless {A} (r : result (halt GrantsResolveError) A) : Prop := r ≠ Err (Refuses GrantsErr.BadgeChainTooDeep).
Lemma chainless_bind {A B} (r : result (halt GrantsResolveError) A) (f : A → result (halt GrantsResolveError) B) :
  chainless r → (∀ a, chainless (f a)) → chainless (r ≫= f).
Proof. intros Hr Hf. unfold chainless. destruct r as [a|e]; [apply Hf|]. intros [= ->]. by apply Hr. Qed.
Section chains.
Context (hash : bytes → list bytes → Z) (instance : Address) (config : list Value).
Context (badge : ResourceKind → bytes → GrantsExpr → result (halt GrantsResolveError) ResourceAddr).
(** A leaf whose badge, if it names one, is at the end of its chain. *)
Definition ends_at (s : GrantSubject) : Prop :=
  match s with SelfBadge _ _ rules | SelfInstance _ _ rules => ∀ kind mark, chainless (badge kind mark rules) | _ => True end.
Lemma config_claim_chainless slot : chainless (config_claim config slot).
Proof. unfold config_claim, chainless. destruct (config !! _) as [v|]; cbn; [|done]. by destruct (claim_of_value v). Qed.
Lemma resolve_leaf_chainless b s : ends_at s →
  chainless (if asks_about_the_actor b then c ← resolve_claim instance config badge s; Ok (stored_claim c) else resolve_holding instance config badge s).
Proof.
  intros Hs. assert (Ho : chainless (expects (A := Claim) (claim_of_address instance))) by (unfold chainless; by destruct (claim_of_address instance)).
  destruct (asks_about_the_actor b); destruct s; cbn [resolve_claim resolve_holding ends_at] in *;
    repeat (apply chainless_bind; [first [done|apply Hs|apply config_claim_chainless|apply chainless_bind; [apply Hs|done]]|intros ?]); try done.
  repeat case_match; done.
Qed.
Lemma resolve_rule_chainless b r : Forall ends_at (preorder r) → chainless (resolve_rule instance config badge b r).
Proof.
  induction r as [s|n rs IH] using rule_tree_ind; cbn [preorder resolve_rule]; intros Hr.
  - apply Forall_cons in Hr as [Hs _]. exact (resolve_leaf_chainless b s Hs).
  - apply chainless_bind; [|done]. induction IH as [|r rs IHr _ IHrs]; [done|]. cbn in Hr. apply Forall_app in Hr as [Hr Hrs].
    apply chainless_bind; [by apply IHr|]. intros r'. apply chainless_bind; [by apply IHrs|]. done.
Qed.
Lemma resolve_entries_chainless entries acc :
  Forall (λ p, Forall ends_at (preorder p.2)) entries → chainless (resolve_entries instance config badge entries acc).
Proof.
  intros He. revert acc. induction He as [|[b r] entries Hr _ IH]; intros acc; [done|]. cbn [resolve_entries].
  apply chainless_bind; [|intros; apply IH]. unfold resolve_entry. apply chainless_bind; [by apply resolve_rule_chainless|]. intros stored.
  unfold behaviour_refuses. repeat case_match; done || congruence.
Qed.
End chains.
Lemma grants_bounds_leaves g : check_grants_bounds g = Ok () → Forall (λ p, Forall (λ l, check_grant_leaf l = Ok ()) (preorder p.2)) g.
Proof.
  unfold check_grants_bounds. rewrite check_all_ok. intros Hg. eapply Forall_impl; [exact Hg|]. intros [b r].
  destruct (if asks_about_the_actor b then _ else _); [done|]. destruct (negb _); [done|]. destruct (decide _); [done|].
  rewrite check_all_ok. cbn [snd]. by rewrite leaves_preorder.
Qed.
Lemma grants_chainless hash g instance config : check_grants_bounds g = Ok () → chainless (grants_resolve hash g instance config).
Proof.
  intros Hg%grants_bounds_leaves. apply resolve_entries_chainless. eapply Forall_impl; [exact Hg|]. intros p Hp. eapply Forall_impl; [exact Hp|].
  assert (Hbadge : ∀ rules kind mark, check_all (λ p, if within_caps p.2 0
      then check_all (λ l, if is_badge l then Err BoundErr.BadgeChainTooDeep else Ok ()) (leaves p.2) else Err BoundErr.RuleCaps) rules = Ok () →
    chainless (self_badge hash 1 instance config kind mark rules)).
  { intros rules kind mark. rewrite check_all_ok. intros Hr. cbn [self_badge]. apply chainless_bind; [|intros; by destruct (granting_issued_resource _ _ _ _ _)].
    apply resolve_entries_chainless. eapply Forall_impl; [exact Hr|]. intros q Hq. cbn beta in Hq. destruct (within_caps q.2 0); [|done].
    rewrite check_all_ok, leaves_preorder in Hq. rename Hq into Hl. eapply Forall_impl; [exact Hl|]. by intros []. }
  intros [] Hs; cbn in *; try done; intros; by apply Hbadge.
Qed.

(** *** The evaluator *)

Section evaluator.
Context (hash : bytes → list bytes → Z) (i : EvalInputs) (bindings : list Value).

Lemma forced_avoids c : avoids (forced c).
Proof. destruct c; cbn; auto with avoids. Qed.
Lemma find_pair_avoids pairs key : avoids (find_pair pairs key).
Proof.
  unfold find_pair. induction pairs as [|p pairs IH]; [apply avoids_ret|]. apply avoids_bind; [apply avoids_spend|]. intros _.
  destruct p as [| | | | | | |fields| |]; try (apply avoids_lift, plain_err; done). destruct fields as [|k [|v []]]; try (apply avoids_lift, plain_err; done).
  destruct (value_eqb k key); [apply avoids_ret|exact IH].
Qed.
Lemma eval_all_avoids ev es : Forall (λ e, avoids (ev e)) es → avoids (eval_all ev es).
Proof. induction 1; cbn; auto 10 using forced_avoids with avoids. Qed.
Lemma eval_material_avoids ev es : Forall (λ e, avoids (ev e)) es → avoids (eval_material ev es).
Proof. induction 1; cbn; auto 10 with avoids. Qed.
Lemma eval_slot_avoids ev slot point : Forall (λ e, avoids (ev e)) (option_list (slot_reached slot)) → avoids (eval_slot ev slot point).
Proof. destruct slot; cbn; [auto with avoids|]. intros [He _]%Forall_cons. auto 10 with avoids. Qed.
Lemma self_resource_avoids kind material grants : check_grants_bounds grants = Ok () → avoids (self_resource hash i kind material grants).
Proof.
  intros Hg. unfold self_resource. apply avoids_bind; [|auto with avoids]. intros b b' e.
  pose proof (grants_chainless hash grants (ei_self i) (im_config (ei_record i)) Hg) as Hc. unfold chainless in Hc.
  destruct (grants_resolve _ _ _ _) as [|[g|]]; [done| |done]. intros [= _ <-]. by destruct g.
Qed.
Hint Resolve forced_avoids find_pair_avoids eval_all_avoids eval_material_avoids eval_slot_avoids self_resource_avoids : avoids.
Lemma eval_avoids e : ∀ n depth, check_expr_bounds e n = Ok () → (depth ≤ n)%nat → avoids (eval_expr hash i e bindings depth).
Proof.
  induction e as [e IH] using expr_children_ind. intros n depth (Hd & Ht & Hc)%check_expr_children Hn.
  assert (Hsub : Forall (λ e, avoids (eval_expr hash i e bindings (S depth))) (expr_children e)).
  { rewrite Forall_forall in *. intros x Hx. apply (IH x Hx (S n)); [by apply Hc|lia]. }
  clear IH Hc. destruct e; cbn [eval_expr]; rewrite decide_False by lia; cbn [expr_children] in Hsub;
    repeat (match type of Hsub with Forall _ (_ :: _) => apply Forall_cons in Hsub as [? Hsub] | Forall _ (_ ++ _) => apply Forall_app in Hsub as [? Hsub] end);
    (apply avoids_bind; [apply avoids_spend|]; intros _); unfold arg, config, binding, field, resource_of_address; auto 30 with avoids.
Qed.
End evaluator.

(** *** Clauses *)

Lemma em_bind_err {A B} (m : EM A) (f : A → EM B) b b' e :
  (m ≫= f) b = (b', Err e) → m b = (b', Err e) ∨ ∃ c x, m b = (c, Ok x) ∧ f x c = (b', Err e).
Proof. unfold mbind, em_bind. destruct (m b) as [c [x|]]; naive_solver. Qed.

Section steering.
Context (hash : bytes → list bytes → Z) (inputs : EvalInputs) (Hin : inputs_typed hash inputs) (skew cl : Z).

(** A clause whose refusals at depth [k] are not for its structure. *)
Definition steers (k : nat) (c : Clause) : Prop := ∀ bindings out b b' e,
  Forall value_typed bindings → sound skew k cl b out → eval_clause hash inputs c bindings out b = (b', Err (Refuses e)) → structural e = false.
Lemma expansion_steers k body : k ≠ 0%nat → Forall (λ c, keeps hash inputs skew cl k (eval_clause hash inputs) c ∧ steers k c) body → ∀ bindings out rows b b' e,
  Forall value_typed bindings → sound skew k cl b out →
  eval_expansion (eval_clause hash inputs) body bindings out rows b = (b', Err (Refuses e)) → structural e = false.
Proof.
  intros Hk. induction 1 as [|c body [Hkeep Hst] _ IH]; intros bindings out rows b b' e Hb Hs E; [done|].
  apply em_bind_err in E as [E|(b1 & out1 & E1 & E)]; [by eapply Hst|]. destruct (Hkeep _ _ _ _ _ Hb Hs E1) as [S1 _].
  apply em_bind_err in E as [E|(b2 & p & _ & E)]; [by eapply IH|done].
Qed.
Lemma expansion_sound k body : Forall (λ c, keeps hash inputs skew cl k (eval_clause hash inputs) c ∧ steers k c) body → ∀ bindings out rows b b' p,
  Forall value_typed bindings → sound skew k cl b out → eval_expansion (eval_clause hash inputs) body bindings out rows b = (b', Ok p) →
  sound skew k cl b' p.1.
Proof.
  induction 1 as [|c body [Hkeep _] _ IH]; intros bindings out rows b b' p Hb Hs E; [by injection E as <- <-|].
  apply em_bind_inv in E as (b1 & o1 & E1 & (b2 & q & E2 & [= <- <-])%em_bind_inv). destruct (Hkeep _ _ _ _ _ Hb Hs E1) as [S1 _]. exact (IH _ _ _ _ _ _ Hb S1 E2).
Qed.
Lemma items_steers k body lines : k ≠ 0%nat → Forall (λ c, keeps hash inputs skew cl k (eval_clause hash inputs) c ∧ steers k c) body → ∀ items bindings out rows b b' e,
  Forall value_typed items → Forall value_typed bindings → sound skew k cl b out →
  eval_items (eval_clause hash inputs) body lines items bindings out rows b = (b', Err (Refuses e)) → structural e = false.
Proof.
  intros Hk Hbody items. induction items as [|item items IH]; intros bindings out rows b b' e Hi Hb Hs E; [done|].
  apply Forall_cons in Hi as [Hv Hi]. apply em_bind_err in E as [E|(b1 & u & E1 & E)]; [by eapply avoids_charge|].
  destruct (sound_charged _ _ _ _ _ _ _ Hs E1) as [S1 _]. apply em_bind_err in E as [E|(b2 & u2 & E2 & E)]; [done|].
  assert (S2 : sound skew k cl b2 out) by (injection E2 as <-; destruct S1; by split).
  assert (Hb' : Forall value_typed (bindings ++ [item])) by (apply Forall_app; split; [|constructor]; done).
  apply em_bind_err in E as [E|(b3 & p & E3 & E)]; [exact (expansion_steers k body Hk Hbody _ _ _ _ _ _ Hb' S2 E)|]. eapply IH; [done|exact Hb| |exact E]. by eapply expansion_sound.
Qed.
Lemma option_avoids o {A} (f : Expr → EM A) (a : EM A) :
  check_option_bounds o = Ok () → (∀ e, check_expr_bounds e 0 = Ok () → avoids (f e)) → avoids a →
  avoids (match o with Some e => f e | None => a end).
Proof. destruct o; cbn; auto. Qed.
Lemma at_avoids n e bindings : check_expr_bounds e n = Ok () → avoids (eval_at hash inputs e bindings).
Proof. intros He. unfold eval_at. apply avoids_bind; [eapply eval_avoids; [done|lia]|]. auto with avoids. Qed.
Lemma denomination_avoids n e bindings : check_expr_bounds e n = Ok () → avoids (eval_denomination hash inputs e bindings).
Proof. intros He. unfold eval_denomination. apply avoids_bind; [by eapply at_avoids|]. unfold resource_of_address, mismatch. auto 10 with avoids. Qed.
Lemma collection_avoids o slot material bindings :
  Forall (λ e, check_expr_bounds e 0 = Ok ()) (option_list (slot_reached slot)) → Forall (λ e, check_expr_bounds e 0 = Ok ()) material →
  avoids (eval_collection hash inputs o slot material bindings).
Proof.
  assert (Hl : ∀ es, Forall (λ e, check_expr_bounds e 0 = Ok ()) es → Forall (λ e, avoids (eval_expr hash inputs e bindings 0)) es).
  { intros es He. eapply Forall_impl; [exact He|]. intros e H. by apply (eval_avoids _ _ _ e 0). }
  intros Hs Hm. apply avoids_bind; [apply eval_slot_avoids; auto|]. intros s. apply avoids_bind; [apply eval_material_avoids; auto|]. auto with avoids.
Qed.
Ltac at_step := apply avoids_bind; [first [by eapply at_avoids|by apply collection_avoids|by auto with avoids]|intros ?].
Lemma target_avoids t bindings : check_target_bounds t = Ok () → avoids (eval_target hash inputs t bindings).
Proof.
  unfold check_target_bounds. rewrite check_all_ok.
  destruct t; cbn [target_parts eval_target]; rewrite ?Forall_cons, ?Forall_app, ?Forall_cons; intros; destruct_and?;
    repeat at_step; try (destruct (decide _)); repeat at_step; auto with avoids.
Qed.
Lemma keying_bounds t e : check_target_bounds t = Ok () → keying_resource t = Some e → ∃ depth, check_expr_bounds e depth = Ok ().
Proof.
  unfold check_target_bounds. rewrite check_all_ok. destruct t as [k|o c m x|o c m lo hi cap]; cbn [target_parts keying_resource].
  - intros [Hk _]%Forall_cons. destruct k; try done. intros Hh. apply check_expr_children in Hk as (_ & _ & Hk). cbn in Hk.
    apply Forall_cons in Hk as [_ Hk]. apply Forall_app in Hk as [_ Hk]. destruct material; [done|]. injection Hh as <-. apply Forall_cons in Hk as [? _]. eauto.
  - intros [_ Hk]%Forall_cons. apply Forall_app in Hk as [_ Hk]. apply Forall_app in Hk as [Hk _]. destruct m; [done|]. intros [= <-]. apply Forall_cons in Hk as [? _]. eauto.
  - intros [_ Hk]%Forall_cons. apply Forall_app in Hk as [_ Hk]. apply Forall_app in Hk as [Hk _]. destruct m; [done|]. intros [= <-]. apply Forall_cons in Hk as [? _]. eauto.
Qed.
Lemma reach_avoids reach t bindings : check_target_bounds t = Ok () → avoids (eval_reach hash inputs reach t bindings).
Proof.
  intros Ht. destruct reach as [b|]; cbn; [|auto with avoids]. destruct (keying_resource t) as [e|] eqn:E; cbn.
  - destruct (keying_bounds t e Ht E) as [n Hn].
    assert (H : avoids (r ← eval_denomination hash inputs e bindings; mret (Some {| reach_behaviour := b; reach_resource := r |}))); [|exact H].
    apply avoids_bind; [by eapply denomination_avoids|]. auto with avoids.
  - by intros b1 b1' err [= <- <-].
Qed.
Lemma leaf_avoids l bindings : check_leaf_bounds l = Ok () → avoids (eval_leaf hash inputs l bindings).
Proof. destruct l; cbn; intros Hl; unfold mismatch; (apply avoids_bind; [first [by eapply at_avoids|by apply target_avoids]|]); auto 10 with avoids. Qed.
Lemma condition_avoids r bindings : check_rule_bounds r = Ok () → avoids (eval_condition hash inputs r bindings).
Proof.
  induction r as [l|n rs IH] using rule_tree_ind; cbn [check_rule_bounds eval_condition]; (destruct (negb _); [done|]); intros Hr.
  - apply avoids_bind; [by apply leaf_avoids|]. auto with avoids.
  - apply avoids_bind; [|auto with avoids]. rewrite check_all_ok in Hr. induction IH as [|r rs IHr _ IHrs]; [apply avoids_ret|].
    apply Forall_cons in Hr as [Hr Hrs]. apply avoids_bind; [by apply IHr|]. intros x. apply avoids_bind; [by apply IHrs|]. auto with avoids.
Qed.
Lemma effect_avoids t m denomination reach number bindings out :
  check_target_bounds t = Ok () → check_mode_bounds m = Ok () → check_option_bounds denomination = Ok () →
  avoids (eval_effect hash inputs t m denomination reach number bindings out).
Proof.
  intros Ht Hm Hd. unfold eval_effect. apply avoids_bind; [by apply target_avoids|]. intros tw. apply avoids_bind.
  { destruct m; cbn in *; repeat at_step; auto with avoids. }
  intros md. apply avoids_bind; [apply avoids_charge|]. intros _. apply avoids_bind.
  { apply option_avoids; [done| |auto with avoids]. intros e He. apply avoids_bind; [by eapply denomination_avoids|]. auto with avoids. }
  intros held. apply avoids_bind; [by apply reach_avoids|]. intros rch. cbn zeta. destruct (insert_bounded _ _ _) as [set [|]]; auto with avoids.
Qed.
Lemma proves_avoids claim bindings out : check_expr_bounds claim 0 = Ok () → avoids (eval_proves hash inputs claim bindings out).
Proof.
  intros Hc. unfold eval_proves, mismatch. apply avoids_bind; [apply avoids_charge|]. intros _. apply avoids_bind; [by eapply at_avoids|]. intros v.
  apply avoids_bind; [auto with avoids|]. intros c. cbn zeta. destruct (_ && _); auto with avoids.
Qed.
Lemma check_clauses_inv depth clauses n n' : check_clauses check_clause depth clauses n = Ok n' →
  (depth ≤ MAX_CLAUSE_DEPTH)%nat ∧ Forall (λ c, ∃ n n', check_clause c depth n = Ok n') clauses.
Proof.
  unfold check_clauses. destruct (decide _) as [|Hd]; [done|]. intros H. split; [lia|]. clear Hd. revert n H.
  induction clauses as [|c clauses IH]; intros n; [constructor|]. intros (n1 & H1 & H)%result_bind_ok. constructor; eauto.
Qed.
Lemma at_site_ok s (r : result SignatureBoundsError ()) u : at_site s r = Ok u → r = Ok ().
Proof. destruct r as [[]|]; [by destruct u|done]. Qed.
Lemma foreach_steers k items body bindings out b b' e :
  check_expr_bounds items 0 = Ok () → expr_typed items → Forall (λ c, keeps hash inputs skew cl (S k) (eval_clause hash inputs) c ∧ steers (S k) c) body →
  Forall value_typed bindings → sound skew k cl b out →
  eval_foreach hash inputs (eval_clause hash inputs) items body bindings out b = (b', Err (Refuses e)) → structural e = false.
Proof using Hin.
  intros Hc Ht Hbody Hb Hs E. apply em_bind_err in E as [E|(b1 & c & E1 & E)]; [by eapply (eval_avoids _ _ _ items 0 0)|].
  eapply answers_run in E1 as [M1 Hv]; [|by apply eval_answers|apply Hs]. cbn beta in Hv.
  apply em_bind_err in E as [E|(b2 & v & E2 & E)]; [by eapply forced_avoids|].
  eapply answers_run in E2 as [M2 Hv2]; [|by apply (forced_answers _ value_typed)|apply M1].
  apply em_bind_err in E as [E|(b3 & vs & E3 & E)]; [by eapply avoids_lift, E; auto with avoids|].
  eapply (answers_run (Forall value_typed)) in E3 as [M3 Hvs]; [|apply answers_lift; intros; by eapply elements_typed|apply M2].
  pose proof (sound_metered _ _ _ _ _ _ Hs (metered_trans _ _ _ M1 (metered_trans _ _ _ M2 M3))) as S3.
  destruct (decide _); [by injection E as <- <-|]. apply em_bind_err in E as [E|(? & ? & [= <- <-] & E)]; [done|].
  apply em_bind_err in E as [E|(? & ? & [= <- <-] & E)]; [done|]. apply em_bind_err in E as [E|(? & ? & [= <- <-] & E)]; [done|].
  apply em_bind_err in E as [E|(b4 & u & E4 & E)]; [done|].
  assert (S4 : sound skew (S k) cl b4 out) by (injection E4 as <-; destruct S3; split; cbn; congruence || done).
  apply em_bind_err in E as [E|(b5 & p & E5 & E)]; [exact (items_steers (S k) body _ (Nat.neq_succ_0 k) Hbody _ _ _ _ _ _ _ Hvs Hb S4 E)|].
  apply em_bind_err in E as [E|(? & ? & [= <- <-] & E)]; [done|]. by apply em_bind_err in E as [E|(? & ? & [= <- <-] & E)].
Qed.
Lemma clause_steers c : clause_typed c → ∀ k n n', (k ≤ MAX_CLAUSE_DEPTH)%nat → check_clause c k n = Ok n' → steers k c.
Proof using Hin.
  induction c as [c IH] using clause_children_ind. intros [[Hg Hc] Hbody]%clause_typed_body k n n' Hk Hn bindings out b b' e Hb Hs E.
  assert (Hguard : check_option_bounds (clause_guard c) = Ok ())
    by (destruct c; cbn in Hn; apply result_bind_ok in Hn as (? & Hn%at_site_ok & _); exact Hn).
  assert (Hav : avoids (match clause_guard c with Some cond => v ← eval_at hash inputs cond bindings; em_lift (as_bool v) | None => mret true end)).
  { apply option_avoids; [done| |auto with avoids]. intros x Hx. apply avoids_bind; [by eapply at_avoids|]. auto with avoids. }
  destruct c as [guard t m den reach|guard items body|guard rule|guard claim]; cbn [eval_clause clause_guard clause_body check_clause] in *;
    (apply em_bind_err in E as [E|(? & depth & [= <- <-] & E)]; [done|]); rewrite (sd_depth _ _ _ _ _ Hs) in E; rewrite decide_False in E by lia;
    (apply em_bind_err in E as [E|(? & num & [= <- <-] & E)]; [done|]); (apply em_bind_err in E as [E|(b1 & u & E1 & E)]; [done|]);
    (assert (S1 : sound skew k cl b1 out) by (injection E1 as <-; destruct Hs; by split));
    (apply em_bind_err in E as [E|(b2 & taken & E2 & E)]; [by eapply Hav, E|]);
    eapply (answers_run (λ _, True)) in E2 as [M2 _]; try apply S1; try (by apply guard_answers); pose proof (sound_metered _ _ _ _ _ _ S1 M2) as S2;
    (assert (S3 : sound skew k cl b2 (if decide (k = 0%nat) then with_taken out taken else out))
       by (destruct (decide (k = 0%nat)); [eapply sound_out; [exact S2|done..|apply S2]|exact S2]));
    destruct taken; cbn [negb] in E; try done; repeat (apply result_bind_ok in Hn as (? & ?%at_site_ok & Hn) || apply result_bind_ok in Hn as (? & ? & Hn)).
  - by eapply effect_avoids, E.
  - apply check_clauses_inv in Hn as [Hd Hn]. eapply (foreach_steers k items body); [done|done| |done|exact S3|exact E].
    rewrite Forall_forall in *. intros x' Hx. destruct (Hn x' Hx) as (? & ? & ?).
    split; [apply clause_keeps; [done|by apply Hbody]|]. by eapply (IH x' Hx (Hbody x' Hx)).
  - match type of E with ?m b2 = _ => assert (Hm : avoids m); [|by eapply Hm] end.
    apply avoids_bind; [apply avoids_charge|]. intros _. apply avoids_bind; [by apply condition_avoids|]. auto with avoids.
  - by eapply proves_avoids, E.
Qed.
End steering.

Lemma top_steers hash inputs skew : inputs_typed hash inputs → ∀ clauses index out b b' e,
  Forall clause_typed clauses → Forall (λ c, ∃ n n', check_clause c 0 n = Ok n') clauses → (∃ cl, sound skew 0 cl b out) →
  eval_top hash inputs clauses index out b = (b', Err (Refuses e)) → structural e = false.
Proof.
  intros Hin clauses. induction clauses as [|c clauses IH]; intros index out b b' e Ht Hc [cl Hs] E; [done|].
  apply Forall_cons in Ht as [Ht Hts]. apply Forall_cons in Hc as [(n & n' & Hc) Hcs]. cbn [eval_top] in E.
  destruct (decide _); [by injection E as <- <-|]. apply em_bind_err in E as [E|(b1 & u & E1 & E)]; [done|].
  assert (S1 : sound skew 0 index b1 out) by (injection E1 as <-; destruct Hs; by split).
  apply em_bind_err in E as [E|(b2 & out1 & E2 & E)].
  { eapply (clause_steers hash inputs Hin skew index c Ht 0 n n'); [lia|exact Hc|constructor|exact S1|exact E]. }
  destruct (clause_keeps hash inputs Hin skew index c Ht 0 [] out b1 b2 out1) as [S2 _]; [constructor|done|done|].
  cbn zeta in E. destruct (decide _); [by injection E as <- <-|]. eapply IH; [done|done| |exact E]. exists index. eapply sound_out; [exact S2|done..|apply S2].
Qed.
Lemma check_each_ok {A} place (f : A → result SignatureBoundsError ()) index l u : check_each place f index l = Ok u → Forall (λ x, f x = Ok ()) l.
Proof.
  revert index. induction l as [|x l IH]; intros index; [constructor|]. intros (v & Hv%at_site_ok & H)%result_bind_ok. constructor; eauto.
Qed.
Lemma evaluated_expr_steers hash inputs x envelope envelope' e :
  check_expr_bounds x 0 = Ok () → evaluate_expr hash inputs x envelope = (envelope', Err (Refuses e)) → structural e = false.
Proof.
  intros Hx E. unfold evaluate_expr in E. 
  assert (Hm : avoids (c ← eval_expr hash inputs x [] 0; forced c)) by (apply avoids_bind; [by apply (eval_avoids _ _ _ x 0)|apply forced_avoids]).
  specialize (Hm (budget_new envelope)). match type of E with (let '(_, _) := ?m in _) = _ => destruct m as [b r] eqn:Eb end.
  injection E as <- ->. by eapply Hm.
Qed.

(** C38: publishing decides structure. A signature the publish bounds accept is never refused for its structure when it is
    evaluated, whatever call is made to it: no expression of it is too deep, no loop nests too far and no granted badge
    chain is too long, in its clauses, its outputs, its denominations and its derived arguments. *)
Theorem bounds_decide_structure hash inputs s :
  check_signature_bounds s = Ok () → inputs_typed hash inputs → Forall clause_typed (ms_effects s) →
  (∀ envelope envelope' e, 0 ≤ envelope ≤ MAX_ENVELOPE_EVALUATION_WORK →
    evaluate_declaration hash inputs (ms_effects s) envelope = (envelope', Err (Refuses e)) → structural e = false) ∧
  (∀ x envelope envelope' e, x ∈ ms_outputs s ∨ Some x ∈ ms_denominations s ∨ AbiDerived x ∈ ms_abi s →
    evaluate_expr hash inputs x envelope = (envelope', Err (Refuses e)) → structural e = false).
Proof.
  unfold check_signature_bounds. intros (u1 & H1%check_each_ok & (u2 & H2%check_each_ok & (u3 & H3%check_each_ok & H)%result_bind_ok)%result_bind_ok)%result_bind_ok Hin Ht.
  destruct (decide _) as [|_]; [done|]. apply result_bind_ok in H as (u4 & _ & (n & Hn & _)%result_bind_ok). split.
  - intros envelope envelope' e He E. unfold evaluate_declaration in E. destruct (eval_top _ _ _ _ _ _) as [b r] eqn:Eb. injection E as <- ->.
    apply check_clauses_inv in Hn as [_ Hn]. eapply (top_steers hash inputs envelope Hin); [exact Ht|exact Hn| |exact Eb].
    exists 0. split; cbn; try done; try lia; try constructor; unfold in_meter, MAX_EVALUATION_WORK; cbn; lia.
  - intros x envelope envelope' e Hx. apply evaluated_expr_steers. destruct Hx as [Hx|[Hx|Hx]]; [exact (proj1 (Forall_forall _ _) H1 _ Hx)|exact (proj1 (Forall_forall _ _) H2 _ Hx)|exact (proj1 (Forall_forall _ _) H3 _ Hx)].
Qed.

Definition sample_signature : MethodSignature := {|
  ms_declines := false; ms_issues := [sample_grants]; ms_destroys := []; ms_params := []; ms_answers := false; ms_outputs := [Ex.ResourceOf (Ex.Arg 0)]; ms_denominations := [None; Some (Ex.Literal (Val.Address sample_resource))];
  ms_effects := sample_clauses; ms_abi := [AbiHandle 0 0; AbiDerived (Ex.Arg 1)] |}.
(** The same call with an argument that is no list: the loop's guard refuses it. *)
Definition refused_inputs : EvalInputs := with_args sample_inputs [Val.U128 1; Val.U128 250].
Lemma refused_inputs_typed : inputs_typed sample_hash refused_inputs.
Proof.
  destruct sample_inputs_typed as [H1 H2 _ H4]. split; [done|done| |done].
  apply Forall_cons; split; [|apply Forall_singleton]; (apply typed_scalar; [done|]); cbn; unfold width_ok; lia.
Qed.
Lemma bounds_decide_structure_witness :
  check_signature_bounds sample_signature = Ok () ∧
  ∃ spent e, evaluate_declaration sample_hash refused_inputs (ms_effects sample_signature) 0 = (spent, Err (Refuses e)) ∧ structural e = false.
Proof.
  assert (Hc : check_signature_bounds sample_signature = Ok ()) by (vm_compute; reflexivity). split; [exact Hc|].
  assert (H := proj1 (bounds_decide_structure sample_hash refused_inputs sample_signature Hc refused_inputs_typed sample_clauses_typed) 0).
  assert (E : match evaluate_declaration sample_hash refused_inputs sample_clauses 0 with (_, Err (Refuses (EvalErr.TypeMismatch _ _))) => true | _ => false end = true)
    by (vm_compute; reflexivity).
  revert E H. cbn [ms_effects sample_signature]. destruct (evaluate_declaration sample_hash refused_inputs sample_clauses 0) as [spent [d|[e|]]]; intros E H; try discriminate E.
  exists spent, e. split; [reflexivity|exact (H spent e sample_envelope eq_refl)].
Defined.

(** *** What they do not bound

    The value depth a literal is held to and the nesting a term is held to are two
    bounds; a term nesting tuples around a literal builds a value as deep as both
    together, and deriving a key over it is past the encoder's cap. *)
Fixpoint tupled (n : nat) (e : Expr) : Expr := match n with O => e | S n => Ex.Tuple [tupled n e] end.
Definition deep_literal : Value := wrapped 15 (Val.U64 0).
Definition deep_clause : Clause := Cl.Effect None (Te.Point (self_child PACKAGE_SLOT_BASE [tupled 17 (Ex.Literal deep_literal)])) (Me.Write Both) None None.
Definition deep_signature : MethodSignature :=
  {| ms_declines := false; ms_issues := []; ms_destroys := []; ms_params := []; ms_answers := false; ms_outputs := []; ms_denominations := []; ms_effects := [deep_clause]; ms_abi := [] |}.
(** An accepted signature whose evaluation panics. *)
Lemma accepted_signature_panics :
  check_signature_bounds deep_signature = Ok () ∧ value_depth deep_literal = MAX_VALUE_DEPTH ∧
  (evaluate_declaration sample_hash sample_inputs (ms_effects deep_signature) 0).2 = Err Panics.
Proof. vm_compute. repeat split. Qed.
