(* ===== verification/Executor.v ===== *)
(** * The batch executor ([crates/kernel/src/executor.rs])

    A batch over committed state: screened whole, its reservations judged in
    canonical order, its transactions grouped by conflict, each group run over its
    own layer of the judged store, and every completed receipt applied in canonical
    order, flipping to infeasible where an earlier one took what it stood on and
    taking along the group-mates that ran on what it never committed. The guest
    work is a parameter, as the source's [GuestRunner] seam has it; a [None] of it is
    a panic. Both execution
    modes evaluate one pure function of the shared judged store per group and read
    the answers in group order, so the mode is not a parameter of the model. *)

From S2P Require Import Prelude WideMath Types Effects Conflict Modes Hbor Cells Writes Ledger Store Overlay Groups Capability Outcomes Rules Buckets Supply Session Seals Conservation Receipt Closing Legs Locality Materialize.

(** ** Data *)

Record Job (Call : Type) := { job_calls : list Call; job_legs : LegPlan }.
Arguments job_calls {Call} _.
Arguments job_legs {Call} _.
(** A batch entry; the environment and the lowered calls are the runner's to read. *)
Record BatchTx (Call Env : Type) := {
  bt_tx : TxHash;
  bt_declaration : Declaration;
  bt_job : Job Call;
  bt_nullifiers : list IntentRecord;
  bt_fee : option FeeBurn;
  bt_credits_withheld : bool;
  bt_applies : OwnerSet;
  bt_judges : OwnerSet;
  bt_env : Env;
  bt_gas_limits : list Z;
  bt_event_bytes : list Z;
}.
Arguments bt_tx {Call Env} _.
Arguments bt_declaration {Call Env} _.
Arguments bt_job {Call Env} _.
Arguments bt_nullifiers {Call Env} _.
Arguments bt_fee {Call Env} _.
Arguments bt_credits_withheld {Call Env} _.
Arguments bt_applies {Call Env} _.
Arguments bt_judges {Call Env} _.
Arguments bt_env {Call Env} _.
Arguments bt_gas_limits {Call Env} _.
Arguments bt_event_bytes {Call Env} _.

Record Unavailable (Package : Type) := { un_package : Package; un_reason : AbortReason }.
Arguments un_package {Package} _.
Arguments un_reason {Package} _.
Module RunResult.
Inductive RunResult (B : Type) `{Baseline B} :=
  | Completed (session : KernelSession B) (answers : list Answer) (spent : list Z)
  | Aborted (session : KernelSession B) (outcome : Outcome) (spent : list Z).
Arguments Completed {B _ _} _ _ _.
Arguments Aborted {B _ _} _ _ _.
End RunResult.
Abbreviation RunResult := RunResult.RunResult.

Module BatchErr.
Inductive BatchError (Package : Type) :=
  | DuplicateTx (tx : TxHash)
  | Unavailable (tx : TxHash) (package : Package) (reason : AbortReason)
  | UndeclaredNullifier (tx : TxHash) (key : SubstateKey)
  | InconsistentDeclaration (tx : TxHash)
  | UndeclaredCrossingCell (tx : TxHash) (key : SubstateKey)
  | Finish (tx : TxHash) (source : FinishError)
  | Apply (e : StoreError).
Arguments DuplicateTx {Package} _.
Arguments Unavailable {Package} _ _ _.
Arguments UndeclaredNullifier {Package} _ _.
Arguments InconsistentDeclaration {Package} _.
Arguments UndeclaredCrossingCell {Package} _ _.
Arguments Finish {Package} _ _.
Arguments Apply {Package} _.
End BatchErr.
Abbreviation BatchError := BatchErr.BatchError.
(** How a batch stops: refused with an error, or a panic. *)
Inductive Stop (Package : Type) := Refused (e : BatchError Package) | Panicked.
Arguments Refused {Package} _.
Arguments Panicked {Package}.

(** ** Declarations *)

Definition effects_conflict (a b : Effect) : bool :=
  if negb (class_conflicts_with (conflict_class (kind (mode a))) (conflict_class (kind (mode b)))) then false else
  match target a, target b with
  | Point k, Point k' => bool_decide (k = k')
  | Point _, _ | _, Point _ => false
  | (Entry o c _ | Range o c _ _ _), (Entry o' c' _ | Range o' c' _ _ _) =>
      if decide ((o, c) ≠ (o', c')) then false else
      match claim_interval (target a), claim_interval (target b) with
      | Some (alo, ahi), Some (blo, bhi) => bool_decide (alo ≤ bhi) && bool_decide (blo ≤ ahi)
      | _, _ => false
      end
  end.
Definition sets_conflict (a b : EffectSet) : bool :=
  existsb (λ x, existsb (λ y, effects_conflict x y) (effects_iter b)) (effects_iter a).

Definition materialize_outcome (defect : MaterializeError) : Outcome :=
  match defect with
  | MatErr.Infeasible key amt => Outcome.Infeasible key amt
  | MatErr.HeldMismatch _ => Outcome.ProtocolError Abort.ReservationMismatch
  | MatErr.Store store => Outcome.ProtocolError (store_reason store)
  | MatErr.Unsupported _ => Outcome.UserError Abort.EffectUnsupported
  | MatErr.SelfConflicting _ => Outcome.UserError Abort.SelfConflictingModes
  | MatErr.UndenominatedMovement _ => Outcome.UserError Abort.UndenominatedMovement
  | MatErr.MixedContents _ => Outcome.UserError Abort.MixedContents
  | MatErr.ConditionUnmet target required node => Outcome.ConditionUnmet (Unmet.Holds target required node)
  | MatErr.ConditionUnanswerable node => Outcome.ConditionUnmet (Unmet.Unanswerable node)
  | MatErr.NotSignedIn account => Outcome.ConditionUnmet (Unmet.SignedIn account)
  | MatErr.ConditionStraddlesScope _ => Outcome.ProtocolError Abort.ConditionStraddlesScope
  end.

Definition abort_receipt (outcome : Outcome) (fuel_by_node : list Z) : Receipt := {|
  r_outcome := outcome; r_delta := delta_default; r_events := []; r_supply := supply_default; r_escrow := escrow_default;
  r_fuel_by_node := fuel_by_node; r_fuel := fold_fuel fuel_by_node |}.

(** [find] with a test that may panic: a [None]. *)
Fixpoint find_first {A} (test : A → option bool) (l : list A) : option (option A) :=
  match l with
  | [] => Some None
  | x :: l => match test x with
              | Some true => Some (Some x)
              | Some false => find_first test l
              | None => None
              end
  end.
(** The outcome the first hit names. *)
Definition find_outcome {A} (test : A → option bool) (l : list A) (f : A → Outcome) : option (option Outcome) :=
  match find_first test l with Some hit => Some (f <$> hit) | None => None end.
(** [a.or_else(|| b)]. *)
Definition or_else_stop (a : option (option Outcome)) (b : option (option Outcome)) : option (option Outcome) :=
  match a with Some None => b | _ => a end.

Section executor.
Context {B : Type} `{Baseline B} {Call Env Package : Type}.
Abbreviation TxEntry := (BatchTx Call Env).
Abbreviation Group := (OverlayStore (OverlayStore B)).
Implicit Types entry : TxEntry.

Definition event_bound entry (node : nat) : option Z :=
  if decide (bt_event_bytes entry = []) then Some MAX_EVENT_BYTES_PER_TX else bt_event_bytes entry !! node.
Definition ceiling entry (node : nat) : option Z :=
  if decide (bt_gas_limits entry = []) then Some u64_max else bt_gas_limits entry !! node.

(** ** Markers *)

Definition nullifier_keys entry : list SubstateKey := n_key <$> (bt_nullifiers entry ≫= i_nullifiers).
Definition record_cells entry : list SubstateKey := plan_records (job_legs (bt_job entry)).
Definition claim_cells entry : list SubstateKey := plan_claims (job_legs (bt_job entry)).
Definition never_cells entry : list SubstateKey := plan_nevers (job_legs (bt_job entry)).
Definition entry_arrivals entry : list Arrival := plan_arrivals (job_legs (bt_job entry)).
Definition created_cells entry : list (SubstateKey * Outcome) :=
  ((λ key, (key, Outcome.NullifierSpent key)) <$> nullifier_keys entry) ++
  ((λ key, (key, Outcome.EscrowAlreadyClaimed key)) <$> claim_cells entry) ++
  ((λ key, (key, Outcome.EscrowAlreadyIssued key)) <$> record_cells entry).
Definition marker_writes entry : list (SubstateKey * Outcome) :=
  created_cells entry ++ ((λ key, (key, Outcome.EscrowAlreadyClaimed key)) <$> never_cells entry).

(** [answered_by] panics where an answer does not encode. *)
Definition answered_at entry (store : Group) (key : SubstateKey) (arrival : Arrival) (answered : Answered) : option bool :=
  if covers (bt_applies entry) (owner key) then
    match cell store key with
    | Some value => answered_by (crossing_id (a_crossing arrival)) (bt_tx entry) (a_validity_end_ms arrival) answered value
    | None => Some false
    end
  else Some false.
Definition standing_marker entry (store : Group) : option (option Outcome) :=
  let stands key := Some (covers (bt_applies entry) (owner key) && bool_decide (is_Some (cell store key))) in
  let taken_in_group claim := covers (bt_applies entry) (owner claim) && layered_cell store claim in
  let arrivals := entry_arrivals entry in
  or_else_stop (find_outcome stands (nullifier_keys entry) Outcome.NullifierSpent)
  (or_else_stop
    (find_outcome (λ arrival, match answered_at entry store (a_claim arrival) arrival Taken with
                              | Some a => Some (a || taken_in_group (a_claim arrival))
                              | None => None
                              end) arrivals (λ arrival, Outcome.EscrowAlreadyClaimed (a_claim arrival)))
  (or_else_stop (find_outcome stands (record_cells entry) Outcome.EscrowAlreadyIssued)
    (find_outcome (λ p, answered_at entry store p.1 p.2 Never)
      (omap (λ arrival, (λ never, (never, arrival)) <$> a_never arrival) arrivals) (λ p, Outcome.EscrowAlreadyClaimed p.1)))).

(** ** Groups *)

Context (run : TxEntry → KernelSession (OverlayStore B) → option (result (Unavailable Package) (RunResult (OverlayStore B)))).

(** What one member's turn gives: its receipt and the store the next one threads. *)
Definition run_member entry (store : Group) : result (Stop Package) (Receipt * Group) :=
  match standing_marker entry store with
  | None => Err Panicked
  | Some (Some outcome) => Ok (abort_receipt outcome [], store)
  | Some None =>
      match materialize_within store (bt_declaration entry) (bt_tx entry) (covers (bt_judges entry)) with
      | Err defect => Ok (abort_receipt (materialize_outcome defect) [], store)
      | Ok session =>
          match run entry (with_credits_withheld (bt_credits_withheld entry) (with_fee (bt_fee entry)
                  (with_nullifiers (bt_nullifiers entry) (with_applies (covers (bt_applies entry)) session)))) with
          | None => Err Panicked
          | Some (Err u) => Err (Refused (BatchErr.Unavailable (bt_tx entry) (un_package u) (un_reason u)))
          | Some (Ok (RunResult.Completed session answers spent)) =>
              match finish session answers spent with
              | Finished receipt threaded => Ok (receipt, threaded)
              | FinishFailed source => Err (Refused (BatchErr.Finish (bt_tx entry) source))
              | FinishPanicked => Err Panicked
              end
          | Some (Ok (RunResult.Aborted session outcome spent)) => Ok (abort_receipt outcome spent, discard session)
          end
      end
  end.
Fixpoint run_members (batch : list TxEntry) (group : list nat) (store : Group) : result (Stop Package) (list (TxHash * Receipt)) :=
  match group with
  | [] => Ok []
  | index :: group =>
      entry ← ok_or (batch !! index) Panicked;
      turn ← run_member entry store;
      rest ← run_members batch group turn.2;
      Ok ((bt_tx entry, turn.1) :: rest)
  end.
Definition run_group (judged : OverlayStore B) (batch : list TxEntry) (group : list nat) : result (Stop Package) (list (TxHash * Receipt)) :=
  run_members batch group (overlay_new judged).

(** ** Screens *)

Fixpoint screen_reserve_targets (judged : OverlayStore B) (ordered : list TxEntry) (receipts : gmap TxHash Receipt) :
    gmap TxHash Receipt * list TxEntry :=
  match ordered with
  | [] => (receipts, [])
  | entry :: ordered =>
      let owned := List.filter (λ p, covers (bt_applies entry) (owner p.1)) (declared_reservations (dc_set (bt_declaration entry))) in
      match head (omap (λ p, match check_reserve_target judged p.1 with Err e => Some e | Ok _ => None end) owned) with
      | Some error =>
          screen_reserve_targets judged ordered
            (<[bt_tx entry := abort_receipt (Outcome.UserError (store_reason error)) []]> receipts)
      | None => let '(receipts, sound) := screen_reserve_targets judged ordered receipts in (receipts, entry :: sound)
      end
  end.

Definition declares_exclusively entry (key : SubstateKey) : bool :=
  effects_contains (dc_set (bt_declaration entry)) {| target := Point key; mode := MWrite Both |}.
(** The clause list folded at the set's own widths. *)
Definition refolded (d : Declaration) : result EffectConflict EffectSet :=
  insert_all ((λ access, (da_effect access, width_of (dc_set d) (target (da_effect access)))) <$> dc_ordered d).
Definition screen_entry entry : result (BatchError Package) () :=
  match refolded (bt_declaration entry) with
  | Err _ => Err (BatchErr.InconsistentDeclaration (bt_tx entry))
  | Ok folded =>
      if decide (folded ≠ dc_set (bt_declaration entry)) then Err (BatchErr.InconsistentDeclaration (bt_tx entry)) else
      match head (List.filter (λ p, negb (declares_exclusively entry p.1)) (marker_writes entry)) with
      | None => Ok ()
      | Some (key, Outcome.NullifierSpent _) => Err (BatchErr.UndeclaredNullifier (bt_tx entry) key)
      | Some (key, _) => Err (BatchErr.UndeclaredCrossingCell (bt_tx entry) key)
      end
  end.
Fixpoint screen_batch_from (seen : gset TxHash) (batch : list TxEntry) : result (BatchError Package) () :=
  match batch with
  | [] => Ok ()
  | entry :: batch =>
      if decide (bt_tx entry ∈ seen) then Err (BatchErr.DuplicateTx (bt_tx entry)) else
      _ ← screen_entry entry; screen_batch_from ({[bt_tx entry]} ∪ seen) batch
  end.
Definition screen_batch (batch : list TxEntry) : result (BatchError Package) () := screen_batch_from ∅ batch.

(** ** Application *)

(** One step of an application: the store, and a deterministic refusal if there is
    one; a [Stop] ends the batch. *)
Abbreviation Refusal := (result (Stop Package) (option (SubstateKey * Z))).
Definition and_then (r : OverlayStore B * Refusal) (next : OverlayStore B → OverlayStore B * Refusal) : OverlayStore B * Refusal :=
  match r with (o, Ok None) => next o | _ => r end.
Fixpoint each {X} (step : X → OverlayStore B → OverlayStore B * Refusal) (l : list X) (o : OverlayStore B) : OverlayStore B * Refusal :=
  match l with [] => (o, Ok None) | x :: l => and_then (step x o) (each step l) end.
(** [store.op()?]. *)
Definition tried {X} (r : OverlayStore B * result StoreError X) : OverlayStore B * Refusal :=
  match r with (o, Ok _) => (o, Ok None) | (o, Err e) => (o, Err (Refused (BatchErr.Apply e))) end.

Section application.
Context (tx : TxHash) (burn : option FeeBurn) (withheld : bool).

Definition apply_cell (p : SubstateKey * option bytes) (o : OverlayStore B) : OverlayStore B * Refusal :=
  match p.2 with Some value => tried (write o p.1 value) | None => tried (remove o p.1) end.
Definition apply_entry (p : EntryKey * option bytes) (o : OverlayStore B) : OverlayStore B * Refusal :=
  let '{| entry_owner := ow; entry_collection := c; entry_order := x |} := p.1 in
  match p.2 with Some value => tried (entry_write o ow c x value) | None => tried (entry_remove o ow c x) end.
Definition refusal_of (defect : StoreError) (key : SubstateKey) (amt : Z) : Refusal :=
  match store_fault defect with Floor => Ok (Some (key, amt)) | _ => Err (Refused (BatchErr.Apply defect)) end.
Definition apply_moved (p : SubstateKey * Movement) (o : OverlayStore B) : OverlayStore B * Refusal :=
  let '(key, movement) := p in
  let burned := match burn with Some f => if decide (f_vault f = key) then f_amount f else 0 | None => 0 end in
  match checked_sub (m_debit movement) burned with
  | None => (o, Err Panicked)
  | Some debit =>
      if decide (0 < burned ∧ m_credit movement = 0 ∧ debit = 0) then (o, Ok None) else
      match apply_movement o key tx (m_credit movement) debit with
      | (o, Ok _) =>
          let raised := saturating_sub (m_credit movement) debit in
          (if withheld && bool_decide (0 < raised) then withhold_credit o key tx raised else o, Ok None)
      | (o, Err defect) => (o, refusal_of defect key debit)
      end
  end.
Definition apply_settle (p : SubstateKey * Movement) (o : OverlayStore B) : OverlayStore B * Refusal :=
  let '(key, movement) := p in
  match settle (reduce_hold o key tx (m_debit movement)) key tx with
  | (o, Ok _) => (o, Ok None)
  | (o, Err defect) => (o, refusal_of defect key (default 0 (held_reservation o key tx)))
  end.
Definition apply_burn (o : OverlayStore B) : OverlayStore B * Refusal :=
  match burn with
  | None => (o, Ok None)
  | Some f =>
      let o := set_fee_hold o (f_vault f) tx None in
      if decide (0 < f_amount f) then
        match apply_movement o (f_vault f) tx 0 (f_amount f) with
        | (o, Ok _) => (o, Ok None)
        | (o, Err defect) => (o, refusal_of defect (f_vault f) (f_amount f))
        end
      else (o, Ok None)
  end.
End application.

Definition apply_completed (o : OverlayStore B) (receipt : Receipt) (tx : TxHash) (applies : OwnerSet) (fee : option FeeBurn)
    (withheld : bool) : OverlayStore B * Refusal :=
  let burn := match fee with Some f => if covers applies (owner (f_vault f)) then Some f else None | None => None end in
  let d := r_delta receipt in
  and_then (each apply_cell (owned_cells d applies) o) (λ o,
  and_then (each apply_entry (owned_entries d applies) o) (λ o,
  and_then (each (apply_moved tx burn withheld) (owned_movements d applies) o) (λ o,
  and_then (each (apply_settle tx) (owned_settles d applies) o) (apply_burn tx burn)))).

(** The loop of [apply_receipts] over the transactions, canonically. *)
Record Applying := {
  ap_store : OverlayStore B;
  ap_receipts : gmap TxHash Receipt;
  ap_discarded : gmap nat (list (TxHash * EffectSet));
}.
Definition is_completed (o : Outcome) : bool := match o with Outcome.Completed _ => true | _ => false end.
Definition observed_flip (entries : gmap TxHash TxEntry) (group_of : gmap TxHash nat) (discarded : gmap nat (list (TxHash * EffectSet)))
    (tx : TxHash) : option TxHash :=
  id ← group_of !! tx; flipped ← discarded !! id; entry ← entries !! tx;
  fst <$> head (List.filter (λ p : TxHash * EffectSet, sets_conflict p.2 (dc_set (bt_declaration entry))) flipped).
Definition flip_of (entries : gmap TxHash TxEntry) (group_of : gmap TxHash nat) (a : Applying) (tx : TxHash) (receipt : Receipt) :
    OverlayStore B * result (Stop Package) (option Outcome) :=
  if negb (is_completed (r_outcome receipt)) then (ap_store a, Ok None) else
  match observed_flip entries group_of (ap_discarded a) tx with
  | Some flipped => (ap_store a, Ok (Some (Outcome.BaselineDiscarded flipped)))
  | None =>
      let entry := entries !! tx in
      match apply_completed (ap_store a) receipt tx (from_option bt_applies owners_whole entry) (entry ≫= bt_fee)
              (from_option bt_credits_withheld false entry) with
      | (o, Err e) => (o, Err e)
      | (o, Ok None) => (o, Ok None)
      | (o, Ok (Some (key, amt))) => (discard_active o, Ok (Some (Outcome.Infeasible key amt)))
      end
  end.
(** Every hold of the transaction that still stands goes. *)
Fixpoint release_all (tx : TxHash) (reservations : list (SubstateKey * Z)) (o : OverlayStore B) :
    OverlayStore B * result (Stop Package) () :=
  match reservations with
  | [] => (o, Ok ())
  | (key, _) :: reservations =>
      match held_reservation o key tx with
      | None => release_all tx reservations o
      | Some _ =>
          match release o key tx with
          | (o, Ok _) => release_all tx reservations o
          | (o, Err e) => (o, Err (Refused (BatchErr.Apply e)))
          end
      end
  end.
Definition apply_one (entries : gmap TxHash TxEntry) (group_of : gmap TxHash nat) (a : Applying) (tx : TxHash) :
    result (Stop Package) Applying :=
  receipt ← ok_or (ap_receipts a !! tx) Panicked;
  let '(o, flip) := flip_of entries group_of a tx receipt in
  flip ← flip;
  let '(receipts, discarded) :=
    match flip with
    | None => (ap_receipts a, ap_discarded a)
    | Some outcome =>
        (<[tx := abort_receipt outcome (r_fuel_by_node receipt)]> (ap_receipts a),
         match group_of !! tx, entries !! tx with
         | Some id, Some entry =>
             <[id := default [] (ap_discarded a !! id) ++ [(tx, dc_set (bt_declaration entry))]]> (ap_discarded a)
         | _, _ => ap_discarded a
         end)
    end in
  let '(o, released) :=
    match entries !! tx with
    | Some entry => release_all tx (declared_reservations (dc_set (bt_declaration entry))) o
    | None => (o, Ok ())
    end in
  _ ← released;
  Ok {| ap_store := merge_active o; ap_receipts := receipts; ap_discarded := discarded |}.
Fixpoint apply_each (entries : gmap TxHash TxEntry) (group_of : gmap TxHash nat) (order : list TxHash) (a : Applying) :
    result (Stop Package) Applying :=
  match order with
  | [] => Ok a
  | tx :: order => a ← apply_one entries group_of a tx; apply_each entries group_of order a
  end.
Definition entry_map (batch : list TxEntry) : gmap TxHash TxEntry := insert_each ((λ e, (bt_tx e, e)) <$> batch).
Definition group_map (groups : list (list nat)) (runnable : list TxEntry) : gmap TxHash nat :=
  insert_each (imap pair groups ≫= λ p, omap (λ index, (λ e, (bt_tx e, p.1)) <$> runnable !! index) p.2).
Definition apply_receipts (o : OverlayStore B) (batch : list TxEntry) (groups : list (list nat)) (runnable : list TxEntry)
    (receipts : gmap TxHash Receipt) : result (Stop Package) (OverlayStore B * gmap TxHash Receipt) :=
  a ← apply_each (entry_map batch) (group_map groups runnable) (map_iter receipts).*1
        {| ap_store := o; ap_receipts := receipts; ap_discarded := ∅ |};
  Ok (clear_log (ap_store a), ap_receipts a).

(** ** A batch *)

Definition tx_le (a b : TxEntry) : Prop := bt_tx a ≤ bt_tx b.
#[global] Instance tx_le_dec a b : Decision (tx_le a b).
Proof. unfold tx_le. apply _. Defined.

(** The reservations inside a scope: the owned ones are requested, the others held
    as declared. *)
Definition request_one entry (st : OverlayStore B * list (TxHash * SubstateKey * Z)) (p : SubstateKey * Z) :
    OverlayStore B * list (TxHash * SubstateKey * Z) :=
  let '(o, requests) := st in let '(key, amt) := p in
  if negb (covers (bt_judges entry) (owner key)) then (o, requests)
  else if covers (bt_applies entry) (owner key) then (o, requests ++ [(bt_tx entry, key, amt)])
  else (hold_unjudged o key (bt_tx entry) amt, requests).
Definition request_all (sound : list TxEntry) (o : OverlayStore B) : OverlayStore B * list (TxHash * SubstateKey * Z) :=
  foldl (λ st entry, foldl (request_one entry) st (declared_reservations (dc_set (bt_declaration entry)))) (o, []) sound.
Definition refused_reservation (verdicts : gmap (TxHash * SubstateKey) Feasibility) entry : option (SubstateKey * Z) :=
  head (List.filter (λ p, match verdicts !! (bt_tx entry, p.1) with Some v => negb (is_feasible v) | None => false end)
    (declared_reservations (dc_set (bt_declaration entry)))).
Fixpoint sort_runnable (verdicts : gmap (TxHash * SubstateKey) Feasibility) (sound : list TxEntry) (receipts : gmap TxHash Receipt) :
    gmap TxHash Receipt * list TxEntry :=
  match sound with
  | [] => (receipts, [])
  | entry :: sound =>
      match refused_reservation verdicts entry with
      | Some (key, amt) => sort_runnable verdicts sound (<[bt_tx entry := abort_receipt (Outcome.Infeasible key amt) []]> receipts)
      | None => let '(receipts, runnable) := sort_runnable verdicts sound receipts in (receipts, entry :: runnable)
      end
  end.
(** Every group has run before the first answer is read, so a panic anywhere comes
    before any error. *)
Definition is_panic {X} (r : result (Stop Package) X) : bool := match r with Err Panicked => true | _ => false end.
Fixpoint gather_receipts (executed : list (result (Stop Package) (list (TxHash * Receipt)))) (receipts : gmap TxHash Receipt) :
    result (Stop Package) (gmap TxHash Receipt) :=
  match executed with
  | [] => Ok receipts
  | group :: executed => rs ← group; gather_receipts executed (foldl (λ m p, <[p.1 := p.2]> m) receipts rs)
  end.

Record BatchOutcome := { bo_receipts : gmap TxHash Receipt; bo_store : OverlayStore B }.
Definition execute_batch (b : B) (batch : list TxEntry) : result (Stop Package) BatchOutcome :=
  _ ← map_err Refused (screen_batch batch);
  let ordered := merge_sort tx_le batch in
  let judged := overlay_new b in
  let '(receipts, sound) := screen_reserve_targets judged ordered ∅ in
  let '(judged, requests) := request_all sound judged in
  let '(judged, verdicts) := judge_and_hold judged requests in
  verdicts ← map_err (λ e, Refused (BatchErr.Apply e)) verdicts;
  let '(receipts, runnable) := sort_runnable verdicts sound receipts in
  let judged := merge_active (clear_log judged) in
  if has_layered_cells judged then Err Panicked else
  let groups := conflict_groups ((λ e, dc_set (bt_declaration e)) <$> runnable) in
  let executed := (λ group, run_group judged runnable group) <$> groups in
  if existsb is_panic executed then Err Panicked else
  receipts ← gather_receipts executed receipts;
  applied ← apply_receipts judged batch groups runnable receipts;
  Ok {| bo_receipts := applied.2; bo_store := merge_active applied.1 |}.
End executor.

(** ** The conflict relation, twice *)

Lemma effects_conflict_spec a b : effects_conflict a b = conflicts a b.
Proof.
  assert (Hk : ∀ k k', class_conflicts_with (conflict_class k) (conflict_class k') = negb (compatible k k')) by (by intros [] []).
  unfold effects_conflict, conflicts. rewrite Hk. destruct (compatible _ _); cbn; [by rewrite andb_false_r|]. rewrite andb_true_r.
  destruct (target a) as [k|o c x|o c lo hi cap], (target b) as [k'|o' c' x'|o' c' lo' hi' cap']; try done; cbn;
    (destruct (decide ((o, c) ≠ (o', c'))) as [Hne|Heq%dec_stable];
     [symmetry; apply not_true_iff_false; rewrite !andb_true_iff, !bool_decide_eq_true; intuition congruence
     |injection Heq as <- <-; apply eq_true_iff_eq; repeat destruct (decide (_ ≤ _));
      rewrite ?andb_true_iff, ?bool_decide_eq_true; intuition (congruence || lia)]).
Qed.

(** ** What one application touches *)

Section applying.
Context {B : Type} `{Baseline B} {Call Env Package : Type}.
Abbreviation TxEntry := (BatchTx Call Env).
Implicit Types (o : OverlayStore B).

(** Only the active layer, and of the holds only those of some transactions. *)
Record touches (T : TxHash → Prop) o o' : Prop := {
  tc_base : base o' = base o;
  tc_committed : committed o' = committed o;
  tc_held : ∀ k u, ¬ T u → l_held (active o') !! k ≫= (.!! u) = l_held (active o) !! k ≫= (.!! u);
}.
#[export] Instance touches_refl T : Reflexive (touches T).
Proof. intros o. by split. Qed.
#[export] Instance touches_trans T : Transitive (touches T).
Proof. intros o1 o2 o3 [A1 A2 A3] [B1 B2 B3]. split; [congruence..|]. intros k u Hu. by rewrite B3, A3. Qed.
Lemma touches_same T o o' : base o' = base o → committed o' = committed o → l_held (active o') = l_held (active o) → touches T o o'.
Proof. intros E1 E2 E3. split; [done..|]. by rewrite E3. Qed.
Lemma touches_mono (T T' : TxHash → Prop) o o' : (∀ u, T u → T' u) → touches T o o' → touches T' o o'.
Proof. intros HT [E1 E2 E3]. split; [done..|]. intros k u Hu. apply E3. auto. Qed.
Lemma touches_hold t o k x : touches (eq t) o (set_hold o k t x).
Proof.
  split; [done..|]. intros k' u Hu. cbn. rewrite !bind_lookup_default, nested_lookup.
  destruct (decide (k = k')) as [<-|]; [|done]. by rewrite lookup_insert_ne.
Qed.
Lemma touches_elsewhere T o o' k u : touches T o o' → ¬ T u → held_reservation o' k u = held_reservation o k u.
Proof. intros [E1 E2 E3] Hu. cbn. unfold overlay_held_reservation. by rewrite E1, E2, E3. Qed.
#[local] Hint Resolve touches_refl touches_hold touches_same : core.

Lemma touches_movement t o k c d : touches (eq t) o (apply_movement o k t c d).1.
Proof. unfold apply_movement. destruct (judge_movement _ _ _ _ _); [by apply touches_same|done]. Qed.
Lemma touches_settle t o k : touches (eq t) o (settle o k t).1.
Proof.
  unfold settle. destruct (ok_or _ _ ≫= _) as [[amt after]|]; [|done]. cbn [fst].
  etrans; [apply (touches_hold t o k None)|by apply touches_same].
Qed.
Lemma touches_release t o k : touches (eq t) o (release o k t).1.
Proof. unfold release. destruct (ok_or _ _); [apply touches_hold|done]. Qed.

Definition steps_touch {X} (t : TxHash) (step : X → OverlayStore B → OverlayStore B * result (Stop Package) (option (SubstateKey * Z))) : Prop :=
  ∀ x o, touches (eq t) o (step x o).1.
Lemma and_then_touches t r next o :
  touches (eq t) o r.1 → (∀ o, touches (eq t) o (next o).1) → touches (eq t) o (and_then (Package := Package) r next).1.
Proof.
  intros H1 H2. unfold and_then. destruct r as [o1 [[p|]|e]]; [done| |done]. cbn [fst] in H1. by etrans.
Qed.
Lemma each_touches {X} t (step : X → _) l o : steps_touch t step → touches (eq t) o (each step l o).1.
Proof.
  intros Hs. revert o. induction l as [|x l IH]; intros o; [done|]. cbn [each]. apply and_then_touches; [apply Hs|apply IH].
Qed.
Lemma tried_fst {X} (r : OverlayStore B * result StoreError X) : (tried (Package := Package) r).1 = r.1.
Proof. by destruct r as [o [x|e]]. Qed.

Lemma apply_cell_touches t : steps_touch t apply_cell.
Proof. intros [k [v|]] o; unfold apply_cell; cbn [fst snd]; rewrite tried_fst; by apply touches_same. Qed.
Lemma apply_entry_touches t : steps_touch t apply_entry.
Proof. intros [[ow c x] [v|]] o; unfold apply_entry; cbn [fst snd]; rewrite tried_fst; by apply touches_same. Qed.
Lemma apply_moved_touches t burn withheld : steps_touch t (apply_moved t burn withheld).
Proof.
  intros [k m] o. unfold apply_moved. destruct (checked_sub _ _) as [debit|]; [|done]. destruct (decide _); [done|].
  pose proof (touches_movement t o k (m_credit m) debit) as Ht. destruct (apply_movement o k t (m_credit m) debit) as [o1 [x|e]]; [|done].
  cbn [fst] in *. etrans; [exact Ht|]. destruct (_ && _); [by apply touches_same|done].
Qed.
Lemma apply_settle_touches t : steps_touch t (apply_settle t).
Proof.
  intros [k m] o. unfold apply_settle. pose proof (touches_settle t (reduce_hold o k t (m_debit m)) k) as Ht.
  destruct (settle _ k t) as [o1 [x|e]]; cbn [fst] in *; (etrans; [apply touches_hold|exact Ht]).
Qed.
Lemma apply_burn_touches t burn o : touches (eq t) o (apply_burn (Package := Package) t burn o).1.
Proof.
  unfold apply_burn. destruct burn as [f|]; [|done]. destruct (decide _); [|by apply touches_same].
  pose proof (touches_movement t (set_fee_hold o (f_vault f) t None) (f_vault f) 0 (f_amount f)) as Ht.
  destruct (apply_movement _ _ _ _ _) as [o1 [x|e]]; cbn [fst] in *; (etrans; [|exact Ht]; by apply touches_same).
Qed.
Lemma apply_completed_touches o receipt t applies fee withheld :
  touches (eq t) o (apply_completed (Package := Package) o receipt t applies fee withheld).1.
Proof.
  unfold apply_completed.
  apply and_then_touches; [apply each_touches, apply_cell_touches|intros o1].
  apply and_then_touches; [apply each_touches, apply_entry_touches|intros o2].
  apply and_then_touches; [apply each_touches, apply_moved_touches|intros o3].
  apply and_then_touches; [apply each_touches, apply_settle_touches|intros o4]. apply apply_burn_touches.
Qed.

(** Releasing leaves no hold of the transaction on the cells released, and nothing
    but holds changed. *)
Lemma set_hold_none o k t u j : held_reservation (set_hold o k t None) j u = if decide (k = j ∧ t = u) then None else held_reservation o j u.
Proof.
  cbn. unfold overlay_held_reservation. rewrite !bind_lookup_default. cbn. rewrite nested_lookup.
  destruct (decide (k = j)) as [<-|Hk].
  - destruct (decide (t = u)) as [<-|Hu].
    + rewrite lookup_insert_eq. by rewrite decide_True.
    + rewrite lookup_insert_ne by done. by rewrite decide_False by tauto.
  - by rewrite decide_False by tauto.
Qed.
Lemma release_all_spec t l o o' :
  release_all (Package := Package) t l o = (o', Ok ()) →
  touches (eq t) o o' ∧ held_only o o' ∧ (∀ k x, (k, x) ∈ l → held_reservation o' k t = None) ∧
  ∀ k, held_reservation o k t = None → held_reservation o' k t = None.
Proof.
  revert o. induction l as [|[k x] l IH]; intros o; [intros [= ->]; split_and!; try done; by intros ?? ?%not_elem_of_nil|].
  cbn [release_all]. destruct (held_reservation o k t) as [h|] eqn:Eh.
  - unfold release. rewrite Eh. cbn [ok_or]. intros E. destruct (IH _ E) as (I1 & I2 & I3 & I4). split_and!.
    + etrans; [apply touches_hold|exact I1].
    + etrans; [|exact I2]. by split.
    + intros k' x' [[= -> ->]|Hin]%elem_of_cons; [|by eapply I3]. apply I4. by rewrite set_hold_none, decide_True.
    + intros k' Hk'. apply I4. rewrite set_hold_none, Hk'. by destruct (decide _).
  - intros E. destruct (IH _ E) as (I1 & I2 & I3 & I4). split_and!; try done.
    intros k' x' [[= -> ->]|Hin]%elem_of_cons; [by apply I4|by eapply I3].
Qed.

Lemma held_merge o k t : held_reservation (merge_active o) k t = held_reservation o k t.
Proof.
  cbn. unfold overlay_held_reservation. cbn. rewrite lookup_empty. cbn. rewrite lookup_extend_entries. unfold extend_map.
  destruct (l_held (active o) !! k) as [m|]; cbn; [|done]. rewrite lookup_union.
  destruct (m !! t) as [c|]; cbn; [by destruct (default ∅ _ !! t)|]. rewrite (left_id_L None _), bind_lookup_default. done.
Qed.
Lemma held_discard T o o' k u : touches T o o' → active o = layer_default → held_reservation (discard_active o') k u = held_reservation o k u.
Proof. intros [E1 E2 _] Ea. cbn. unfold overlay_held_reservation. cbn. by rewrite E1, E2, Ea. Qed.
End applying.

Section judging_holds.
Context {B : Type} `{Baseline B} {Call Env : Type}.
Abbreviation TxEntry := (BatchTx Call Env).
Abbreviation txs := (λ batch : list TxEntry, bt_tx <$> batch).
Implicit Types (o : OverlayStore B).

(** ** Judging and holds *)

Lemma judge_touches o reqs (T : TxHash → Prop) : (∀ t k x, (t, k, x) ∈ reqs → T t) → touches T o (judge_and_hold o reqs).1.
Proof.
  intros HT. unfold judge_and_hold.
  assert (Hg : ∀ l o seen by_key, touches T o (gather o l seen by_key).1 ∧
    ∀ m k b t, (gather o l seen by_key).2 = Ok m → m !! k = Some b → t ∈ b.*1 →
      (∃ k x, (t, k, x) ∈ l) ∨ ∃ b', by_key !! k = Some b' ∧ t ∈ b'.*1).
  { induction l as [|[[t k] x] l IH]; intros o' seen by_key.
    { split; [done|]. intros m k b t [= ->] Hk Ht. right. by exists b. }
    cbn [gather]. destruct (decide _); [done|]. destruct (IH (note o' (Point k) KReserve) ({[(t, k)]} ∪ seen)
      (<[k := default [] (by_key !! k) ++ [(t, x)]]> by_key)) as [I1 I2]. split; [etrans; [|exact I1]; by apply touches_same|].
    intros m k' b t' Em Hk' Ht'. destruct (I2 m k' b t' Em Hk' Ht') as [(k2 & x2 & Hin)|(b' & Hb' & Hin)].
    - left. exists k2, x2. by right.
    - destruct (decide (k = k')) as [<-|Hne]; [|rewrite lookup_insert_ne in Hb' by done; right; by exists b'].
      rewrite lookup_insert_eq in Hb'. injection Hb' as <-. rewrite fmap_app, elem_of_app in Hin. destruct Hin as [Hin|Hin].
      + right. destruct (by_key !! k) as [b0|]; [by exists b0|by apply not_elem_of_nil in Hin].
      + apply list_elem_of_singleton in Hin as ->. left. exists k, x. left. }
  destruct (Hg reqs o ∅ ∅) as [G1 G2]. destruct (gather o reqs ∅ ∅) as [o1 [m|e]]; [|done]. cbn [fst snd] in *.
  etrans; [exact G1|]. assert (Hm : Forall (λ p, Forall T p.2.*1) (map_iter m)).
  { apply Forall_forall. intros [k b] Hk%elem_of_map_iter. apply Forall_forall. intros t Ht.
    destruct (G2 m k b t eq_refl Hk Ht) as [(k2 & x & Hin)|(b' & Hb' & _)]; [by eapply HT|]. by rewrite lookup_empty in Hb'. }
  clear G1 G2 Hg. generalize (∅ : gmap (TxHash * SubstateKey) Feasibility). revert o1.
  induction Hm as [|[k b] l Hb _ IH]; intros o1 vs; [done|]. cbn [judge_batches]. destruct (_ ≫= _) as [av|e]; [|done].
  etrans; [|apply IH]. cbn [snd] in Hb.
  assert (Hv : Forall T (judge av b).*1) by (by rewrite judge_fst). revert Hv. generalize (judge av b). intros vl. clear -vl.
  revert o1 vs. induction vl as [|[t v] vl IHv]; intros o1 vs Hv; [done|]. apply Forall_cons in Hv as [Ht Hv]. cbn [foldl].
  etrans; [|by apply IHv]. unfold hold_verdict. cbn [fst snd]. destruct (is_feasible v); [|done].
  eapply touches_mono; [|apply touches_hold]. by intros u <-.
Qed.
Lemma request_touches (sound : list TxEntry) o :
  touches (λ t, t ∈ txs sound) o (request_all sound o).1 ∧ ∀ t k x, (t, k, x) ∈ (request_all sound o).2 → t ∈ txs sound.
Proof.
  unfold request_all. set (T := λ t, t ∈ txs sound).
  assert (Hone : ∀ (e : TxEntry) l (st : OverlayStore B * list (TxHash * SubstateKey * Z)), T (bt_tx e) →
    touches T st.1 (foldl (request_one e) st l).1 ∧
    ((∀ t k x, (t, k, x) ∈ st.2 → T t) → ∀ t k x, (t, k, x) ∈ (foldl (request_one e) st l).2 → T t)).
  { intros e l. induction l as [|[k x] l IH]; intros [o' rs] He; [done|]. cbn [foldl].
    destruct (IH (request_one e (o', rs) (k, x)) He) as [I1 I2]. split.
    - etrans; [|exact I1]. cbn [fst]. unfold request_one. destruct (negb _); [done|]. destruct (covers _ _); [done|]. cbn [fst].
      etrans; [|eapply touches_mono; [|apply (touches_hold (bt_tx e) (record o' (Point k) KReserve) k (Some x))]]; [by apply touches_same|].
      by intros u <-.
    - intros Hrs. apply I2. cbn [snd] in Hrs. unfold request_one. destruct (negb _); [done|]. destruct (covers _ _); [|done].
      cbn [snd]. intros t k' x' [Hin|Hin]%elem_of_app; [by eapply Hrs|]. by apply list_elem_of_singleton in Hin as [= -> _ _]. }
  assert (Hall : ∀ (l : list TxEntry) (st : OverlayStore B * list (TxHash * SubstateKey * Z)), Forall (λ e, T (bt_tx e)) l →
    let st' := foldl (λ st entry, foldl (request_one entry) st (declared_reservations (dc_set (bt_declaration entry)))) st l in
    touches T st.1 st'.1 ∧ ((∀ t k x, (t, k, x) ∈ st.2 → T t) → ∀ t k x, (t, k, x) ∈ st'.2 → T t)).
  { induction l as [|e l IH]; intros st Hl; [done|]. apply Forall_cons in Hl as [He Hl]. cbn [foldl].
    destruct (Hone e (declared_reservations (dc_set (bt_declaration e))) st He) as [A1 A2]. destruct (IH (foldl (request_one e) st (declared_reservations (dc_set (bt_declaration e)))) Hl) as [B1 B2].
    split; [by etrans|]. intros Hst. apply B2, A2, Hst. }
  destruct (Hall sound (o, [])) as [R1 R2].
  { apply Forall_forall. intros e He. apply list_elem_of_fmap. by exists e. }
  split; [done|]. apply R2. by intros t k x ?%not_elem_of_nil.
Qed.

End judging_holds.

Section screens.
Context {Call Env Package : Type}.
Abbreviation TxEntry := (BatchTx Call Env).
Abbreviation txs := (λ batch : list TxEntry, bt_tx <$> batch).

(** ** What the screens keep *)

Lemma screen_batch_spec (batch : list TxEntry) :
  screen_batch (Package := Package) batch = Ok () ↔ NoDup (txs batch) ∧ Forall (λ e, screen_entry (Package := Package) e = Ok ()) batch.
Proof.
  unfold screen_batch. assert (Hg : ∀ l seen, screen_batch_from (Package := Package) seen l = Ok () ↔
    NoDup (txs l) ∧ Forall (λ t, t ∉ seen) (txs l) ∧ Forall (λ e, screen_entry (Package := Package) e = Ok ()) l).
  { induction l as [|e l IH]; intros seen; [cbn; split; [intros _; repeat constructor|done]|]. cbn [screen_batch_from].
    rewrite fmap_cons, NoDup_cons, !Forall_cons. destruct (decide (bt_tx e ∈ seen)) as [Hin|Hout]; [naive_solver|].
    destruct (screen_entry e) as [[]|err]; cbn [mbind result_bind]; [|naive_solver]. rewrite IH, !Forall_forall. set_solver. }
  rewrite Hg, !Forall_forall. set_solver.
Qed.
End screens.

Section batches.
Context {B : Type} `{Baseline B} {Call Env Package : Type}.
Context (run : BatchTx Call Env → KernelSession (OverlayStore B) → option (result (Unavailable Package) (RunResult (OverlayStore B)))).
Abbreviation TxEntry := (BatchTx Call Env).
Abbreviation txs := (λ batch : list TxEntry, bt_tx <$> batch).
Implicit Types (entry : TxEntry) (o : OverlayStore B).

Lemma sublist_fmap_elem (l l' : list TxEntry) t : l `sublist_of` l' → t ∈ txs l → t ∈ txs l'.
Proof. intros Hs (e & -> & He)%list_elem_of_fmap. apply list_elem_of_fmap. exists e. split; [done|]. by eapply elem_of_sublist. Qed.


(** Every transaction of a list either has a receipt or is passed on. *)
Definition splits (receipts : gmap TxHash Receipt) (l : list TxEntry) (receipts' : gmap TxHash Receipt) (l' : list TxEntry) : Prop :=
  l' `sublist_of` l ∧ ∀ t, is_Some (receipts' !! t) ∨ t ∈ txs l' ↔ is_Some (receipts !! t) ∨ t ∈ txs l.
Lemma splits_abort receipts l e r receipts' l' :
  splits (<[bt_tx e := r]> receipts) l receipts' l' → splits receipts (e :: l) receipts' l'.
Proof.
  intros [H1 H2]. split; [by apply sublist_cons|]. intros t. rewrite H2, fmap_cons, elem_of_cons, lookup_insert_is_Some. 
  destruct (decide (bt_tx e = t)); naive_solver.
Qed.
Lemma splits_keep receipts l e receipts' l' : splits receipts l receipts' l' → splits receipts (e :: l) receipts' (e :: l').
Proof. intros [H1 H2]. split; [by apply sublist_skip|]. intros t. rewrite !fmap_cons, !elem_of_cons. specialize (H2 t). tauto. Qed.
Lemma screen_reserve_splits o l receipts :
  splits receipts l (screen_reserve_targets o l receipts).1 (screen_reserve_targets o l receipts).2.
Proof.
  revert receipts. induction l as [|e l IH]; intros receipts; [by split|]. cbn [screen_reserve_targets].
  destruct (head _); [by eapply splits_abort|]. specialize (IH receipts). destruct (screen_reserve_targets o l receipts).
  by apply splits_keep.
Qed.
Lemma sort_runnable_splits vs l receipts : splits receipts l (sort_runnable vs l receipts).1 (sort_runnable vs l receipts).2.
Proof.
  revert receipts. induction l as [|e l IH]; intros receipts; [by split|]. cbn [sort_runnable].
  destruct (refused_reservation vs e) as [[k x]|]; [by eapply splits_abort|]. specialize (IH receipts).
  destruct (sort_runnable vs l receipts). by apply splits_keep.
Qed.

(** ** Judging writes no cell *)

Lemma request_held_only (sound : list TxEntry) o : held_only o (request_all sound o).1.
Proof.
  unfold request_all. assert (Hone : ∀ (e : TxEntry) l (st : OverlayStore B * list (TxHash * SubstateKey * Z)), held_only st.1 (foldl (request_one e) st l).1).
  { intros e l. induction l as [|[k x] l IH]; intros [o' rs]; [done|]. cbn [foldl]. etrans; [|apply IH]. cbn [fst]. unfold request_one.
    destruct (negb _); [done|]. destruct (covers _ _); [done|]. by split. }
  assert (Hall : ∀ (l : list TxEntry) (st : OverlayStore B * list (TxHash * SubstateKey * Z)), held_only st.1 (foldl (λ st entry, foldl (request_one entry) st
    (declared_reservations (dc_set (bt_declaration entry)))) st l).1).
  { induction l as [|e l IH]; intros st; [done|]. cbn [foldl]. etrans; [|apply IH]. apply Hone. }
  apply (Hall sound (o, [])).
Qed.
Lemma judged_no_cells (b : B) o : held_only (overlay_new b) o → has_layered_cells (merge_active (clear_log o)) = false.
Proof.
  intros [_ Hc Ha]. unfold has_layered_cells, merge_active, clear_log. cbn. rewrite Hc. unfold set_l_held in Ha.
  injection Ha as -> _ _ _ _. cbn. done.
Qed.

(** ** Receipts of the groups *)

Lemma run_members_txs (batch : list TxEntry) group store rs :
  run_members run batch group store = Ok rs → rs.*1 = txs (omap (λ i, batch !! i) group).
Proof.
  revert store rs. induction group as [|i group IH]; intros store rs; [by intros [= <-]|]. cbn [run_members omap list_omap].
  destruct (batch !! i) as [e|]; [|done]. cbn [ok_or mbind result_bind]. destruct (run_member run e store) as [turn|]; [|done].
  cbn [mbind result_bind]. destruct (run_members run batch group turn.2) as [rest|] eqn:Er; [|done]. intros [= <-].
  rewrite fmap_cons. cbn. f_equal. by eapply IH.
Qed.
Lemma gather_receipts_dom executed receipts receipts' t :
  gather_receipts (Package := Package) executed receipts = Ok receipts' →
  is_Some (receipts' !! t) ↔ is_Some (receipts !! t) ∨ ∃ rs, Ok rs ∈ executed ∧ t ∈ rs.*1.
Proof.
  revert receipts. induction executed as [|[rs|e] executed IH]; intros receipts; [intros [= ->]; set_solver| |done].
  cbn [gather_receipts mbind result_bind]. intros E. rewrite (IH _ E).
  assert (Hf : ∀ l m, is_Some ((foldl (λ m p, <[p.1 := p.2]> m) m l : gmap TxHash Receipt) !! t) ↔ is_Some (m !! t) ∨ t ∈ l.*1).
  { induction l as [|[t' r] l IHl]; intros m; [set_solver|]. cbn [foldl fst snd]. rewrite IHl, lookup_insert_is_Some, fmap_cons, elem_of_cons.
    cbn. destruct (decide (t' = t)); naive_solver. }
  rewrite Hf. setoid_rewrite elem_of_cons. naive_solver.
Qed.
Lemma gather_receipts_ok executed receipts receipts' x :
  gather_receipts (Package := Package) executed receipts = Ok receipts' → x ∈ executed → ∃ rs, x = Ok rs.
Proof.
  revert receipts. induction executed as [|[rs|e] executed IH]; intros receipts; [by intros _ ?%not_elem_of_nil| |done].
  cbn [gather_receipts mbind result_bind]. intros E [->|Hx]%elem_of_cons; [by exists rs|by eapply IH].
Qed.

(** Applying changes receipts, never who has one. *)
Lemma apply_one_dom entries group_of (a a' : Applying) t u :
  apply_one (Package := Package) (Call := Call) (Env := Env) entries group_of a t = Ok a' →
  is_Some (ap_receipts a' !! u) ↔ is_Some (ap_receipts a !! u).
Proof.
  unfold apply_one. destruct (ap_receipts a !! t) as [receipt|] eqn:Er; [|done]. cbn [ok_or mbind result_bind].
  destruct (flip_of _ _ _ _ _) as [o [flip|]]; [|done]. cbn [mbind result_bind].
  assert (Hin : ∀ r, is_Some (<[t := r]> (ap_receipts a) !! u) ↔ is_Some (ap_receipts a !! u)).
  { intros r. rewrite lookup_insert_is_Some. destruct (decide (t = u)) as [<-|]; [rewrite Er|]; naive_solver. }
  destruct flip as [outcome|]; cbv iota zeta beta;
    (destruct (match entries !! t with Some _ => _ | None => _ end) as [o' [[]|]]; [|done]);
    intros [= <-]; cbn [ap_receipts]; [apply Hin|done].
Qed.
Lemma apply_each_dom entries group_of order (a a' : Applying) u :
  apply_each (Package := Package) (Call := Call) (Env := Env) entries group_of order a = Ok a' →
  is_Some (ap_receipts a' !! u) ↔ is_Some (ap_receipts a !! u).
Proof.
  revert a. induction order as [|t order IH]; intros a; [by intros [= ->]|]. cbn [apply_each].
  destruct (apply_one _ _ a t) as [a1|] eqn:E1; [|done]. cbn [mbind result_bind]. intros E. by rewrite (IH _ E), (apply_one_dom _ _ _ _ _ _ E1).
Qed.

(** ** Where receipts come from *)

(** A transaction refused before anything ran. *)
Definition refused_early (r : Receipt) : Prop :=
  ∃ outcome, r = abort_receipt outcome [] ∧ match outcome with Outcome.UserError _ | Outcome.Infeasible _ _ => True | _ => False end.
Section origin.
Context (P : TxHash → Receipt → Prop) (Hearly : ∀ t r, refused_early r → P t r).
Lemma screen_reserve_origin o (l : list TxEntry) receipts : map_Forall P receipts → map_Forall P (screen_reserve_targets o l receipts).1.
Proof.
  revert receipts. induction l as [|e l IH]; intros receipts Hr; [done|]. cbn [screen_reserve_targets].
  destruct (head _) as [error|].
  - apply IH, map_Forall_insert_2; [|done]. apply Hearly. by eexists.
  - specialize (IH receipts Hr). by destruct (screen_reserve_targets o l receipts).
Qed.
Lemma sort_runnable_origin verdicts (l : list TxEntry) receipts : map_Forall P receipts → map_Forall P (sort_runnable verdicts l receipts).1.
Proof.
  revert receipts. induction l as [|e l IH]; intros receipts Hr; [done|]. cbn [sort_runnable].
  destruct (refused_reservation verdicts e) as [[key amt]|].
  - apply IH, map_Forall_insert_2; [|done]. apply Hearly. by eexists.
  - specialize (IH receipts Hr). by destruct (sort_runnable verdicts l receipts).
Qed.
Lemma gather_receipts_origin executed receipts receipts' :
  (∀ rs t r, Ok rs ∈ executed → (t, r) ∈ rs → P t r) → map_Forall P receipts →
  gather_receipts (Package := Package) executed receipts = Ok receipts' → map_Forall P receipts'.
Proof.
  revert receipts. induction executed as [|[rs|e] executed IH]; intros receipts Hg Hr; [by intros [= <-]| |done].
  cbn [gather_receipts mbind result_bind]. apply IH; [intros rs' t r Hrs; apply (Hg rs'); by right|].
  assert (Hl : ∀ t r, (t, r) ∈ rs → P t r) by (intros; by eapply Hg; [left|]). clear -Hl Hr.
  revert receipts Hr. induction rs as [|[t r] rs IH]; intros receipts Hr; [done|]. cbn [foldl]. apply IH.
  - intros; apply Hl; by right.
  - apply map_Forall_insert_2; [|done]. apply Hl. left.
Qed.
End origin.

(** ** A batch, step by step *)

Record executes (b : B) (batch : list TxEntry) (out : BatchOutcome) (judged : OverlayStore B) (runnable : list TxEntry)
    (receipts : gmap TxHash Receipt) (a : Applying) : Prop := {
  ex_screen : screen_batch (Package := Package) batch = Ok ();
  ex_judged : held_only (overlay_new b) judged;
  ex_holds : touches (λ t, t ∈ txs batch) (overlay_new b) judged;
  ex_runnable : runnable `sublist_of` merge_sort tx_le batch;
  ex_receipts : ∀ t, is_Some (receipts !! t) ↔ t ∈ txs batch;
  ex_origin : map_Forall (λ t r, refused_early r ∨
    ∃ group rs, run_group run (merge_active (clear_log judged)) runnable group = Ok rs ∧ (t, r) ∈ rs) receipts;
  ex_applied : apply_each (Package := Package) (entry_map batch)
    (group_map (conflict_groups ((λ e, dc_set (bt_declaration e)) <$> runnable)) runnable) (map_iter receipts).*1
    {| ap_store := merge_active (clear_log judged); ap_receipts := receipts; ap_discarded := ∅ |} = Ok a;
  ex_out : out = {| bo_receipts := ap_receipts a; bo_store := merge_active (clear_log (ap_store a)) |};
}.
Lemma execute_inv b batch out :
  execute_batch run b batch = Ok out → ∃ judged runnable receipts a, executes b batch out judged runnable receipts a.
Proof.
  unfold execute_batch. destruct (screen_batch batch) as [[]|] eqn:Es; [|done]. cbn [map_err mbind result_bind].
  pose proof (screen_reserve_splits (overlay_new b) (merge_sort tx_le batch) ∅) as [S1 S2].
  pose proof (λ P He, screen_reserve_origin P He (overlay_new b) (merge_sort tx_le batch) ∅ (map_Forall_empty _)) as S3.
  destruct (screen_reserve_targets (overlay_new b) (merge_sort tx_le batch) ∅) as [receipts1 sound]. cbn [fst snd] in *.
  pose proof (request_held_only sound (overlay_new b)) as Hr. pose proof (request_touches sound (overlay_new b)) as [Hrt Hrq].
  destruct (request_all sound (overlay_new b)) as [judged1 requests].
  pose proof (judge_held_only judged1 requests) as Hj. cbn [fst snd] in Hrt, Hrq. pose proof (judge_touches judged1 requests _ Hrq) as Hjt.
  destruct (judge_and_hold judged1 requests) as [judged2 [verdicts|]]; [|done].
  cbn [map_err mbind result_bind fst] in *. pose proof (sort_runnable_splits verdicts sound receipts1) as [R1 R2].
  pose proof (λ P He, sort_runnable_origin P He verdicts sound receipts1 (S3 P He)) as R3.
  destruct (sort_runnable verdicts sound receipts1) as [receipts2 runnable]. cbn [fst snd] in *.
  destruct (has_layered_cells _); [done|]. set (groups := conflict_groups _). destruct (existsb is_panic _); [done|].
  destruct (gather_receipts _ _) as [receipts3|] eqn:Eg; [|done]. cbn [mbind result_bind]. unfold apply_receipts.
  destruct (apply_each _ _ _ _) as [a|] eqn:Ea; [|done]. cbn [mbind result_bind]. intros [= <-].
  exists judged2, runnable, receipts3, a. split; try done; [by transitivity judged1| |by transitivity sound| |].
  { eapply touches_mono; [|etrans; [exact Hrt|exact Hjt]]. intros t Ht. rewrite <- (merge_sort_Permutation tx_le batch).
    by apply (sublist_fmap_elem _ _ _ S1). }
  2: { eapply gather_receipts_origin; [| |exact Eg]; [|apply R3; by left].
    intros rs t r (group & Hrs & _)%list_elem_of_fmap Hin. right. by exists group, rs. }
  intros t. rewrite (gather_receipts_dom _ _ _ t Eg).
  assert (Hgroups : (∃ rs, Ok rs ∈ (λ group, run_group run (merge_active (clear_log judged2)) runnable group) <$> groups ∧ t ∈ rs.*1)
    ↔ t ∈ txs runnable).
  { split.
    - intros (rs & (g & Hg & _)%list_elem_of_fmap & Ht). symmetry in Hg. apply run_members_txs in Hg. rewrite Hg in Ht.
      apply list_elem_of_fmap in Ht as (e & -> & He). apply list_elem_of_omap in He as (i & _ & Hi).
      apply list_elem_of_fmap. exists e. split; [done|]. by eapply list_elem_of_lookup_2.
    - intros (e & -> & He)%list_elem_of_fmap. apply list_elem_of_lookup_1 in He as [i Hi].
      destruct (conflict_groups_partition ((λ e, dc_set (bt_declaration e)) <$> runnable)) as [Hall _].
      destruct (Hall i) as (g & Hg & Hig); [rewrite length_fmap; by eapply lookup_lt_Some|].
      assert (Hx : run_group run (merge_active (clear_log judged2)) runnable g ∈
        (λ group, run_group run (merge_active (clear_log judged2)) runnable group) <$> groups)
        by (apply list_elem_of_fmap; by exists g).
      destruct (gather_receipts_ok _ _ _ _ Eg Hx) as [rs Ers]. exists rs. split; [by rewrite <- Ers|].
      apply run_members_txs in Ers. rewrite Ers. apply list_elem_of_fmap. exists e. split; [done|].
      apply list_elem_of_omap. by exists i. }
  rewrite Hgroups, R2, S2, lookup_empty. rewrite (merge_sort_Permutation tx_le batch). split; [intros [[]|]; done|by right].
Qed.
End batches.

Section outcome.
Context {B : Type} `{Baseline B} {Call Env Package : Type}.
Abbreviation TxEntry := (BatchTx Call Env).
Abbreviation txs := (λ batch : list TxEntry, bt_tx <$> batch).
Implicit Types (o : OverlayStore B).

(** ** One transaction applied *)

(** What a flip leaves: nothing but the transaction's own holds, where it flips or
    never completed; the applied receipt, where it stands. *)
Lemma flip_of_spec entries group_of (a : Applying) t receipt o flip :
  flip_of (Package := Package) (Call := Call) (Env := Env) entries group_of a t receipt = (o, Ok flip) → active (ap_store a) = layer_default →
  (∀ k u, u ≠ t → held_reservation o k u = held_reservation (ap_store a) k u) ∧
  match flip with
  | Some outcome => is_completed outcome = false ∧ is_completed (r_outcome receipt) = true ∧ held_only (ap_store a) o
  | None =>
      is_completed (r_outcome receipt) = false ∧ o = ap_store a ∨
      is_completed (r_outcome receipt) = true ∧ observed_flip entries group_of (ap_discarded a) t = None ∧
      apply_completed (Package := Package) (ap_store a) receipt t (from_option bt_applies owners_whole (entries !! t)) (entries !! t ≫= bt_fee)
        (from_option bt_credits_withheld false (entries !! t)) = (o, Ok None)
  end.
Proof.
  unfold flip_of. intros E Ha. destruct (is_completed (r_outcome receipt)) eqn:Ec; cbn [negb] in E; [|by injection E as <- <-; auto].
  destruct (observed_flip entries group_of (ap_discarded a) t) as [flipped|] eqn:Eo.
  { injection E as <- <-. split; [done|]. by split_and!. }
  pose proof (apply_completed_touches (Package := Package) (ap_store a) receipt t (from_option bt_applies owners_whole (entries !! t))
    (entries !! t ≫= bt_fee) (from_option bt_credits_withheld false (entries !! t))) as Ht.
  destruct (apply_completed _ _ _ _ _ _) as [o1 [[[key amt]|]|e]]; [| |done]; cbn [fst] in Ht; injection E as <- <-.
  - split; [intros k u _; by apply (held_discard _ _ _ _ _ Ht)|]. split; [done|]. split; [done|]. destruct Ht as [E1 E2 _]. split; [done..|].
    cbn. by rewrite Ha.
  - split; [|auto]. intros k u Hu. apply (touches_elsewhere _ _ _ _ _ Ht). congruence.
Qed.
Lemma apply_one_inv entries group_of (a a' : Applying) t :
  apply_one (Package := Package) (Call := Call) (Env := Env) entries group_of a t = Ok a' →
  ∃ r o flip o2, ap_receipts a !! t = Some r ∧ flip_of (Package := Package) entries group_of a t r = (o, Ok flip) ∧
    held_only o o2 ∧ touches (eq t) o o2 ∧ ap_store a' = merge_active o2 ∧
    ap_receipts a' = match flip with Some outcome => <[t := abort_receipt outcome (r_fuel_by_node r)]> (ap_receipts a) | None => ap_receipts a end ∧
    ∀ entry k x, entries !! t = Some entry → (k, x) ∈ declared_reservations (dc_set (bt_declaration entry)) → held_reservation o2 k t = None.
Proof.
  unfold apply_one. destruct (ap_receipts a !! t) as [r|] eqn:Er; [|done]. cbn [ok_or mbind result_bind].
  destruct (flip_of entries group_of a t r) as [o [flip|]] eqn:Ef; [|done]. cbn [mbind result_bind].
  assert (Hrel : ∀ o2, (match entries !! t with
      | Some entry => release_all t (declared_reservations (dc_set (bt_declaration entry))) o
      | None => (o, Ok ()) end) = (o2, Ok () : result (Stop Package) ()) →
    held_only o o2 ∧ touches (eq t) o o2 ∧
    ∀ entry k x, entries !! t = Some entry → (k, x) ∈ declared_reservations (dc_set (bt_declaration entry)) → held_reservation o2 k t = None).
  { intros o2 E2. destruct (entries !! t) as [entry|]; [|by injection E2 as <-].
    destruct (release_all_spec _ _ _ _ E2) as (R1 & R2 & R3 & _). split_and!; try done. intros e k x [= <-]. apply R3. }
  intros E. exists r, o, flip.
  destruct flip as [outcome|]; cbv iota zeta beta in E;
    (destruct (match entries !! t with Some _ => _ | None => _ end) as [o2 [[]|]]; [|done]);
    injection E as <-; destruct (Hrel o2 eq_refl) as (H1 & H2 & H3); exists o2; by split_and!.
Qed.

Lemma apply_one_holds entries group_of (a a' : Applying) t :
  apply_one (Package := Package) (Call := Call) (Env := Env) entries group_of a t = Ok a' → active (ap_store a) = layer_default →
  active (ap_store a') = layer_default ∧
  (∀ k u, u ≠ t → held_reservation (ap_store a') k u = held_reservation (ap_store a) k u) ∧
  (∀ entry k x, entries !! t = Some entry → (k, x) ∈ declared_reservations (dc_set (bt_declaration entry)) →
     held_reservation (ap_store a') k t = None).
Proof.
  intros (r & o & flip & o2 & _ & Ef & _ & Ht & -> & _ & Hnone)%apply_one_inv Ha.
  destruct (flip_of_spec _ _ _ _ _ _ _ Ef Ha) as [Ho _]. split_and!; [done| |].
  - intros k u Hu. rewrite held_merge, <- Ho by done. apply (touches_elsewhere _ _ _ _ _ Ht). congruence.
  - intros entry k x He Hin. rewrite held_merge. by eapply Hnone.
Qed.
Lemma apply_each_holds entries group_of order (a a' : Applying) :
  apply_each (Package := Package) (Call := Call) (Env := Env) entries group_of order a = Ok a' → active (ap_store a) = layer_default → NoDup order →
  (∀ k u, u ∉ order → held_reservation (ap_store a') k u = held_reservation (ap_store a) k u) ∧
  (∀ t entry k x, t ∈ order → entries !! t = Some entry → (k, x) ∈ declared_reservations (dc_set (bt_declaration entry)) →
     held_reservation (ap_store a') k t = None).
Proof.
  revert a. induction order as [|t order IH]; intros a; [intros [= ->]; split; [done|by intros ???? ?%not_elem_of_nil]|].
  cbn [apply_each]. destruct (apply_one entries group_of a t) as [a1|] eqn:E1; [|done]. cbn [mbind result_bind]. intros E Ha [Ht Hnd]%NoDup_cons.
  destruct (apply_one_holds _ _ _ _ _ E1 Ha) as (A1 & A2 & A3). destruct (IH a1 E A1 Hnd) as [I1 I2]. split.
  - intros k u [Hne Hu]%not_elem_of_cons. by rewrite I1, A2.
  - intros t' entry k x [->|Hin]%elem_of_cons He Hk; [rewrite I1 by done; by eapply A3|by eapply I2].
Qed.

Lemma merge_held_only s o : held_only s o → active s = layer_default →
  base (merge_active o) = base s ∧ set_l_held (committed (merge_active o)) ∅ = set_l_held (committed s) ∅.
Proof.
  intros [E1 E2 E3] Ha. rewrite Ha in E3. unfold set_l_held in E3. injection E3 as F1 F2 F3 F4 F5.
  split; [done|]. unfold merge_active, set_l_held. cbn. rewrite F1, F2, F3, F4, F5, E2. f_equal. apply (left_id_L ∅ (∪)).
Qed.
Lemma entry_map_lookup (batch : list TxEntry) e : NoDup (txs batch) → e ∈ batch → entry_map batch !! bt_tx e = Some e.
Proof.
  intros Hnd He. unfold entry_map. assert (Ek : ((λ e, (bt_tx e, e)) <$> batch).*1 = txs batch) by (rewrite <- list_fmap_compose; done).
  rewrite insert_each_map by (by rewrite Ek). apply elem_of_list_to_map_1; [by rewrite Ek|]. apply list_elem_of_fmap. by exists e.
Qed.

#[local] Instance tx_le_total : Total (tx_le (Call := Call) (Env := Env)).
Proof. intros x y. unfold tx_le. lia. Qed.
#[local] Instance tx_le_trans : Transitive (tx_le (Call := Call) (Env := Env)).
Proof. intros x y z. unfold tx_le. lia. Qed.
(** Transactions with different hashes sort one way. *)
Lemma sorted_once (batch batch' : list TxEntry) : NoDup (txs batch) → batch ≡ₚ batch' → merge_sort tx_le batch' = merge_sort tx_le batch.
Proof.
  intros Hnd Hp. apply (StronglySorted_unique_strong tx_le).
  - intros x y Hx Hy Hxy Hyx. rewrite merge_sort_Permutation in Hx, Hy. rewrite <- Hp in Hx.
    apply list_elem_of_lookup_1 in Hx as [i Hi], Hy as [j Hj]. assert (E : bt_tx x = bt_tx y) by (unfold tx_le in *; lia).
    assert (i = j) as ->; [|congruence]. apply (NoDup_lookup (txs batch) i j (bt_tx x)); [done| |]; rewrite list_lookup_fmap, ?Hi, ?Hj; cbn; congruence.
  - apply StronglySorted_merge_sort; apply _.
  - apply StronglySorted_merge_sort; apply _.
  - by rewrite !merge_sort_Permutation.
Qed.

(** ** The theorems *)

Context (run : BatchTx Call Env → KernelSession (OverlayStore B) → option (result (Unavailable Package) (RunResult (OverlayStore B)))).

(** A receipt that does not stand completed reports its outcome and its fuel, and nothing else. *)
Definition bare_refusal (r : Receipt) : Prop := is_completed (r_outcome r) = true ∨ r = abort_receipt (r_outcome r) (r_fuel_by_node r).
Lemma finish_bare (s : KernelSession (OverlayStore B)) answers fuel receipt (o : OverlayStore (OverlayStore B)) : finish s answers fuel = Finished receipt o → bare_refusal receipt.
Proof.
  unfold finish. destruct (close s) as [s' [delta|outcome|e|]]; [|intros [= <- _]; by right|done|done].
  destruct (decide _); [|done]. intros [= <- _]. by left.
Qed.
Lemma run_member_bare entry store receipt store' : run_member run entry store = Ok (receipt, store') → bare_refusal receipt.
Proof.
  unfold run_member. destruct (standing_marker entry store) as [[outcome|]|]; [intros [= <- _]; by right| |done].
  destruct (materialize_within _ _ _ _) as [s|defect]; [|intros [= <- _]; by right].
  destruct (run _ _) as [[[s' answers spent|s' outcome spent]|u]|]; [|intros [= <- _]; by right|done|done].
  destruct (finish _ _ _) as [receipt' o|e|] eqn:Ef; [|done|done]. intros [= -> _]. by eapply finish_bare.
Qed.
Lemma run_members_bare batch group store rs : run_members run batch group store = Ok rs → ∀ t r, (t, r) ∈ rs → bare_refusal r.
Proof.
  revert store rs. induction group as [|index group IH]; intros store rs; cbn [run_members]; [intros [= <-] t r Hr; by apply not_elem_of_nil in Hr|].
  intros (entry & _ & ([receipt store'] & E & (rest & Er & [= <-])%result_bind_ok)%result_bind_ok)%result_bind_ok t r [[= -> ->]|Hr]%elem_of_cons.
  - by eapply run_member_bare.
  - by eapply IH.
Qed.
Lemma apply_each_bare entries group_of order (a a' : Applying) :
  apply_each (Package := Package) (Call := Call) (Env := Env) entries group_of order a = Ok a' →
  map_Forall (λ _, bare_refusal) (ap_receipts a) → map_Forall (λ _, bare_refusal) (ap_receipts a').
Proof.
  revert a. induction order as [|t order IH]; intros a; [by intros [= ->]|]. cbn [apply_each].
  destruct (apply_one _ _ a t) as [a1|] eqn:E1; [|done]. cbn [mbind result_bind]. intros E Ha. apply (IH _ E).
  apply apply_one_inv in E1 as (r & o & flip & o2 & _ & _ & _ & _ & _ & -> & _). destruct flip as [outcome|]; [|done].
  apply map_Forall_insert_2; [by right|done].
Qed.

(** C7: application is all or nothing. Whatever a batch runs, every receipt of it that does not stand completed reports
    its outcome and its fuel and nothing else. And one transaction at a time: a receipt that stands completed is the one
    its run reported, no discarded group-mate it conflicts with came before it, and its whole application landed; any
    other leaves the cells, entries, queues, fee holds and withheld credits as they were, its own holds aside, and is the
    one its run refused with, or a completion flipped into a refusal of its own fuel. *)
Theorem apply_all_or_nothing b (batch : list TxEntry) out :
  execute_batch run b batch = Ok out →
  (∀ t r, bo_receipts out !! t = Some r → is_completed (r_outcome r) = true ∨ r = abort_receipt (r_outcome r) (r_fuel_by_node r)) ∧
  ∀ entries group_of (a a' : Applying) t,
  apply_one (Package := Package) (Call := Call) (Env := Env) entries group_of a t = Ok a' → active (ap_store a) = layer_default →
  ∃ r r', ap_receipts a !! t = Some r ∧ ap_receipts a' = <[t := r']> (ap_receipts a) ∧ active (ap_store a') = layer_default ∧
    if is_completed (r_outcome r') then
      r' = r ∧ observed_flip entries group_of (ap_discarded a) t = None ∧
      ∃ o1 o2, apply_completed (Package := Package) (ap_store a) r t (from_option bt_applies owners_whole (entries !! t))
          (entries !! t ≫= bt_fee) (from_option bt_credits_withheld false (entries !! t)) = (o1, Ok None) ∧
        held_only o1 o2 ∧ ap_store a' = merge_active o2
    else
      (if is_completed (r_outcome r) then ∃ outcome, r' = abort_receipt outcome (r_fuel_by_node r) else r' = r) ∧
      base (ap_store a') = base (ap_store a) ∧ set_l_held (committed (ap_store a')) ∅ = set_l_held (committed (ap_store a)) ∅.
Proof.
  intros E. split.
  - destruct (execute_inv run b batch out E) as (judged & runnable & receipts & a & X). rewrite (ex_out _ _ _ _ _ _ _ _ X). cbn [bo_receipts].
    apply (apply_each_bare _ _ _ _ _ (ex_applied _ _ _ _ _ _ _ _ X)). cbn [ap_receipts]. eapply map_Forall_impl; [exact (ex_origin _ _ _ _ _ _ _ _ X)|].
    intros t r [(outcome & -> & _)|(group & rs & Hrs & Hr)]; [by right|]. by eapply run_members_bare.
  - clear E. intros entries group_of a a' t (r & o & flip & o2 & Er & Ef & Hh & Ht & -> & Hr & _)%apply_one_inv Ha. exists r.
    destruct (flip_of_spec _ _ _ _ _ _ _ Ef Ha) as [_ Hf]. destruct flip as [outcome|].
    + destruct Hf as (Hc & Hrc & Ho). eexists. split; [done|]. split; [exact Hr|]. split; [done|]. cbn [abort_receipt r_outcome]. rewrite Hc, Hrc.
      split; [by exists outcome|]. apply merge_held_only; [by transitivity o|done].
    + exists r. split; [done|]. split; [by rewrite Hr, insert_id|]. split; [done|]. destruct Hf as [[Hc ->]|(Hc & Hob & Happ)]; rewrite Hc.
      * split; [done|]. by apply merge_held_only.
      * split; [done|]. split; [done|]. by exists o, o2.
Qed.

(** C5: a batch answers everyone. Every transaction of an executed batch has a receipt and nobody else has one; and the
    judging before the groups run, whatever it holds, writes no cell, so every group reads the batch's own baseline. *)
Theorem batch_answers_everyone b (batch : list TxEntry) out :
  execute_batch run b batch = Ok out →
  (∀ t, is_Some (bo_receipts out !! t) ↔ t ∈ txs batch) ∧
  ∀ sound : list TxEntry, let '(judged, requests) := request_all sound (overlay_new b) in
    has_layered_cells (merge_active (clear_log (judge_and_hold judged requests).1)) = false.
Proof.
  intros E. split.
  - destruct (execute_inv run b batch out E) as (judged & runnable & receipts & a & X). intros t. rewrite (ex_out _ _ _ _ _ _ _ _ X). cbn.
    rewrite (apply_each_dom _ _ _ _ _ t (ex_applied _ _ _ _ _ _ _ _ X)). cbn. apply (ex_receipts _ _ _ _ _ _ _ _ X).
  - intros sound. pose proof (request_held_only sound (overlay_new b)) as Hr. destruct (request_all sound (overlay_new b)) as [judged requests].
    apply (judged_no_cells b). etrans; [exact Hr|apply judge_held_only].
Qed.

(** C6: no hold outlives its batch. After a batch, no reservation its transactions declared is still held for them,
    however each of them ended: settled, released unspent, refused or flipped; and no other transaction's hold moved. *)
Theorem no_hold_outlives_batch b (batch : list TxEntry) out :
  execute_batch run b batch = Ok out →
  (∀ entry k x, entry ∈ batch → (k, x) ∈ declared_reservations (dc_set (bt_declaration entry)) →
     held_reservation (bo_store out) k (bt_tx entry) = None) ∧
  ∀ k u, u ∉ txs batch → held_reservation (bo_store out) k u = held_reservation (overlay_new b) k u.
Proof.
  intros E. destruct (execute_inv run b batch out E) as (judged & runnable & receipts & a & [X1 X2 X3 X4 X5 _ X6 ->]).
  apply screen_batch_spec in X1 as [Hnd _].
  destruct (apply_each_holds _ _ _ _ _ X6 eq_refl (NoDup_map_iter receipts)) as [H1 H2].
  assert (Hin : ∀ t, t ∈ (map_iter receipts).*1 ↔ t ∈ txs batch).
  { intros t. rewrite <- X5. split.
    - intros ([t' r] & -> & Hr%elem_of_map_iter)%list_elem_of_fmap. by exists r.
    - intros [r Hr%elem_of_map_iter]. apply list_elem_of_fmap. by exists (t, r). }
  assert (Hend : ∀ k u, held_reservation (merge_active (clear_log (ap_store a))) k u = held_reservation (ap_store a) k u)
    by (intros k u; by rewrite held_merge).
  cbn [bo_store].
  split.
  - intros entry k x He Hk. rewrite Hend.
    eapply H2; [|by apply entry_map_lookup|exact Hk]. apply Hin, list_elem_of_fmap. by exists entry.
  - intros k u Hu. rewrite Hend, H1 by (by rewrite Hin). cbn [ap_store]. rewrite held_merge. by apply (touches_elsewhere _ _ _ _ _ X3).
Qed.

(** C8: the order a batch is handed over in does not matter. *)
Theorem batch_order_free b (batch batch' : list TxEntry) :
  screen_batch (Package := Package) batch = Ok () → batch ≡ₚ batch' → execute_batch run b batch' = execute_batch run b batch.
Proof.
  intros Hs Hp. pose proof Hs as [Hnd Hok]%screen_batch_spec.
  assert (Hs' : screen_batch (Package := Package) batch' = Ok ()) by (apply screen_batch_spec; by rewrite <- Hp).
  assert (Hsort : merge_sort tx_le batch' = merge_sort tx_le batch) by (by apply sorted_once).
  assert (Hmap : entry_map batch' = entry_map batch).
  { unfold entry_map. assert (Ek : ∀ l : list TxEntry, ((λ e, (bt_tx e, e)) <$> l).*1 = txs l) by (intros l; by rewrite <- list_fmap_compose).
    rewrite !insert_each_map by (rewrite Ek; by rewrite <- ?Hp). apply list_to_map_proper; [|by rewrite Hp].
    rewrite Ek. by rewrite <- Hp. }
  unfold execute_batch, apply_receipts. by rewrite Hs, Hs', Hsort, Hmap.
Qed.
End outcome.

(** ** A batch over the sample store *)

Definition opening_tx (t : TxHash) : BatchTx () () := {|
  bt_tx := t; bt_declaration := opening_declaration; bt_job := {| job_calls := []; job_legs := plan_whole 1 |}; bt_nullifiers := [];
  bt_fee := opening_fee; bt_credits_withheld := false; bt_applies := owners_whole; bt_judges := owners_whole; bt_env := ();
  bt_gas_limits := []; bt_event_bytes := [] |}.
Definition opening_runner (entry : BatchTx () ()) (s : KernelSession (OverlayStore MemoryStore)) :
    option (result (Unavailable ()) (RunResult (OverlayStore MemoryStore))) :=
  Some (Ok (RunResult.Completed (after_ops opening_run s) [] [])).
(** The vault holds 60 and each member reserves 15 of it. *)
Definition opening_batch : list (BatchTx () ()) := opening_tx <$> [5; 2; 1; 4; 3].
Definition batch_check (r : result (Stop ()) (BatchOutcome (B := MemoryStore))) : bool :=
  match r with
  | Ok out => bool_decide ((λ p : TxHash * Receipt, (p.1, is_completed (r_outcome p.2))) <$> map_iter (bo_receipts out) =
      [(1, true); (2, true); (3, true); (4, true); (5, false)])
  | Err _ => false
  end.
Lemma opening_batch_runs : ∃ out, execute_batch opening_runner sample_base opening_batch = Ok out.
Proof.
  assert (Hc : batch_check (execute_batch opening_runner sample_base opening_batch) = true) by (vm_compute; reflexivity).
  destruct (execute_batch opening_runner sample_base opening_batch) as [out|]; [by exists out|discriminate Hc].
Qed.
Lemma opening_batch_screened : screen_batch (Package := ()) opening_batch = Ok ().
Proof. vm_compute. reflexivity. Qed.

Lemma batch_answers_everyone_witness :
  ∃ out, execute_batch opening_runner sample_base opening_batch = Ok out ∧ is_Some (bo_receipts out !! 5).
Proof.
  destruct opening_batch_runs as [out E]. exists out. split; [exact E|].
  apply (batch_answers_everyone opening_runner sample_base opening_batch out E). left.
Defined.
Lemma no_hold_outlives_batch_witness :
  ∃ out, execute_batch opening_runner sample_base opening_batch = Ok out ∧ held_reservation (bo_store out) vault 1 = None.
Proof.
  destruct opening_batch_runs as [out E]. exists out. split; [exact E|].
  apply (proj1 (no_hold_outlives_batch opening_runner sample_base opening_batch out E) (opening_tx 1) vault 15).
  - apply list_elem_of_fmap. exists 1. split; [reflexivity|]. do 2 right. left.
  - vm_compute. left.
Defined.
Lemma batch_order_free_witness :
  execute_batch opening_runner sample_base (opening_tx <$> [1; 2; 3; 4; 5]) = execute_batch opening_runner sample_base opening_batch.
Proof.
  apply (batch_order_free opening_runner sample_base opening_batch).
  - exact opening_batch_screened.
  - apply fmap_Permutation. apply (bool_decide_unpack _). vm_compute. exact I.
Defined.

(** One transaction of the sample, its receipt, and the store it is applied to. *)
Definition opening_applying : Applying (B := MemoryStore) :=
  let judged := merge_active (clear_log (judge_and_hold (overlay_new sample_base) [(1, vault, 15)]).1) in
  {| ap_store := judged; ap_discarded := ∅;
     ap_receipts := match run_group (Package := ()) opening_runner judged [opening_tx 1] [0%nat] with
                    | Ok rs => list_to_map rs | Err _ => ∅ end |}.
Definition applied_check (r : result (Stop ()) (Applying (B := MemoryStore))) : bool :=
  match r with
  | Ok a => bool_decide ((λ p : TxHash * Receipt, (p.1, is_completed (r_outcome p.2))) <$> map_iter (ap_receipts a) = [(1, true)])
  | Err _ => false
  end.
Lemma opening_applies :
  ∃ a r, apply_one (Package := ()) (entry_map [opening_tx 1]) {[1 := 0%nat]} opening_applying 1 = Ok a ∧ ap_receipts a !! 1 = Some r ∧ is_completed (r_outcome r) = true.
Proof.
  assert (Hc : applied_check (apply_one (entry_map [opening_tx 1]) {[1 := 0%nat]} opening_applying 1) = true) by (vm_compute; reflexivity).
  destruct (apply_one (entry_map [opening_tx 1]) {[1 := 0%nat]} opening_applying 1) as [a|]; [|discriminate Hc].
  apply bool_decide_eq_true in Hc. destruct (ap_receipts a !! 1) as [r|] eqn:Er.
  - exists a, r. split; [done|]. split; [done|]. apply elem_of_map_iter in Er. apply (list_elem_of_fmap_2 (λ p : TxHash * Receipt, (p.1, is_completed (r_outcome p.2)))) in Er.
    rewrite Hc in Er. apply list_elem_of_singleton in Er. by injection Er.
  - exfalso. assert (H1 : (1, true) ∈ (λ p : TxHash * Receipt, (p.1, is_completed (r_outcome p.2))) <$> map_iter (ap_receipts a)) by (rewrite Hc; by left).
    apply list_elem_of_fmap in H1 as ([t r] & [= <- _] & H1%elem_of_map_iter). congruence.
Qed.
(** The fifth member of the batch could not be held for and reports nothing but that; the first, applied alone, stands
    with all it did. *)
Lemma apply_all_or_nothing_witness :
  (∃ out r, execute_batch opening_runner sample_base opening_batch = Ok out ∧ bo_receipts out !! 5 = Some r ∧ r = abort_receipt (r_outcome r) (r_fuel_by_node r)) ∧
  ∃ a r o1 o2, apply_one (Package := ()) (entry_map [opening_tx 1]) {[1 := 0%nat]} opening_applying 1 = Ok a ∧ ap_receipts opening_applying !! 1 = Some r ∧
    apply_completed (Package := ()) (ap_store opening_applying) r 1 owners_whole opening_fee false = (o1, Ok None) ∧ ap_store a = merge_active o2.
Proof.
  assert (Hc : batch_check (execute_batch opening_runner sample_base opening_batch) = true) by (vm_compute; reflexivity).
  destruct (execute_batch opening_runner sample_base opening_batch) as [out|] eqn:E; [|discriminate Hc].
  destruct (apply_all_or_nothing opening_runner sample_base opening_batch out E) as [H1 H2]. split.
  - apply bool_decide_eq_true in Hc. assert (H5 : (5, false) ∈ (λ p : TxHash * Receipt, (p.1, is_completed (r_outcome p.2))) <$> map_iter (bo_receipts out)).
    { rewrite Hc. do 4 right. left. }
    apply list_elem_of_fmap in H5 as ([t r] & [= <- Hf] & H5%elem_of_map_iter). exists out, r. split; [reflexivity|]. split; [exact H5|].
    destruct (H1 5 r H5) as [Ht|Hr]; [congruence|exact Hr].
  - destruct opening_applies as (a & r0 & Ea & Er0 & Hr0). destruct (H2 _ _ _ _ _ Ea) as (r & r' & Hr & Hr' & _ & Hif); [vm_compute; reflexivity|].
    rewrite Hr', lookup_insert_eq in Er0. injection Er0 as ->. rewrite Hr0 in Hif. destruct Hif as (_ & _ & o1 & o2 & Happ & _ & Hs).
    exists a, r, o1, o2. split; [exact Ea|]. split; [exact Hr|]. split; [exact Happ|exact Hs].
Defined.
