(* ===== verification/Walk.v ===== *)
(** * The manifest walk ([crates/kernel/src/walk.rs])

    The lowered form of a manifest's nodes ([crates/effects/src/invoke.rs],
    [crates/effects/src/manifest.rs]) and the walk over them: each node's gate and
    signed edge bounds judged, its frame entered, its arguments bound and lent, its
    code or the kernel's own deposit run, what came back settled against the
    declaration, and what leaves this execution issued. The engine is a parameter,
    as the source's [GuestBackend] seam has it; a [None] or [WPanicked] is a panic. *)

From S2P Require Import Prelude WideMath Types Effects Conflict Modes Hbor Cells Writes Ledger Store Overlay Groups Capability Outcomes Rules Values Buckets Supply Session Seals Conservation Receipt Closing Legs Locality Materialize Executor.

(** ** Lowered nodes *)

Definition PackageHash : Type := Z.
Record Bounds := { bound_min : option Z; bound_max : option Z }.
Definition admit_anything (b : Bounds) : bool := bool_decide (bound_min b = None) && bool_decide (bound_max b = None).
Definition bounds_admit (b : Bounds) (amt : Z) : bool :=
  let over_min := match bound_min b with Some min => bool_decide (min ≤ amt) | None => true end in
  let under_max := match bound_max b with Some max => bool_decide (amt ≤ max) | None => true end in
  over_min && under_max.

Definition content_kind (c : EdgeContent) : ResourceKind :=
  match c with EdgeContent.Fungible => Fungible | EdgeContent.NonFungible _ => NonFungible end.

Module CallArg.
Inductive CallArg :=
  | Site (entries : list (option Rep))
  | Bucket (source output : nat)
  | Bool (taken : bool)
  | U64 (scalar : Z)
  | Address (address : Types.Address)
  | Bytes (value : bytes)
  | Ids (ids : list Z).
End CallArg.
Abbreviation CallArg := CallArg.CallArg.
Record EdgeBound := { eb_source : nat; eb_output : nat; eb_param : Z; eb_bounds : Bounds }.
Inductive Body := Guest | Deposit.
#[global] Instance Body_eq_dec : EqDecision Body.
Proof. solve_decision. Defined.
Record NodeCall := {
  nc_package : PackageHash;
  nc_target : Address;
  nc_export : bytes;
  nc_args : list CallArg;
  nc_edges : list EdgeBound;
  nc_outputs : list EdgeContent;
  nc_answers : bool;
  nc_issues : list IssuanceGrant;
  nc_evidence : list Claim;
  nc_requires : list (Rule JudgedLeaf.JudgedLeaf);
  nc_body : Body;
}.

(** ** One invocation *)

Module GuestArg.
Inductive GuestArg :=
  | Site (site : Rep)
  | Bool (taken : bool)
  | U64 (scalar : Z)
  | Address (address : Types.Address)
  | Bytes (value : bytes)
  | Ids (ids : list Z)
  | Bucket (rep : Rep).
End GuestArg.
Abbreviation GuestArg := GuestArg.GuestArg.
Record GuestCall := {
  gc_package : PackageHash;
  gc_target : Address;
  gc_export : bytes;
  gc_args : list GuestArg;
  gc_fuel_budget : Z;
}.
Module Invoked.
Inductive Invoked :=
  | Produced (edges : list Rep) (answer : option bytes)
  | Declined (code : Z)
  | Aborted (reason : AbortReason)
  | Unavailable (reason : AbortReason).
End Invoked.
Abbreviation Invoked := Invoked.Invoked.
Definition MAX_ERROR_CODES : Z := 1024.

Section walk.
Context {B : Type} `{Baseline B}.
Abbreviation Session := (KernelSession B).

Record InvokeResult := { ir_session : Session; ir_fuel : Z; ir_result : Invoked }.
(** The engine. *)
Definition GuestBackend : Type := Session → GuestCall → InvokeResult.

Inductive NodeFailure :=
  | NodeAbort (session : Session) (outcome : Outcome) (fuel : Z)
  | NodeUnavailable (package : PackageHash) (reason : AbortReason).
Inductive walked (A : Type) := WDone (a : A) | WFailed (f : NodeFailure) | WPanicked.
#[global] Arguments WDone {A} _.
#[global] Arguments WFailed {A} _.
#[global] Arguments WPanicked {A}.
#[global] Instance walked_bind : MBind walked := λ A C f m,
  match m with WDone a => f a | WFailed x => WFailed x | WPanicked => WPanicked end.
Record NodeSuccess := { ns_session : Session; ns_edges : list Rep; ns_answer : option bytes; ns_fuel : Z }.

Definition into_result (f : NodeFailure) (spent : list Z) : result (Unavailable PackageHash) (RunResult B) :=
  match f with
  | NodeAbort session outcome consumed => Ok (RunResult.Aborted session outcome (spent ++ [consumed]))
  | NodeUnavailable package reason => Err {| un_package := package; un_reason := reason |}
  end.
Definition composition_defect {A} (session : Session) (reason : AbortReason) : walked A :=
  WFailed (NodeAbort session (Outcome.ProtocolError reason) 0).

(** ** The gate *)

Definition declared_cell (key : SubstateKey) : M Session bytes := held ← on_store (λ o, read o key); mret (default [] held).
Definition declared_present (target : EffectTarget) : M Session bool := on_store (λ o, occupied o target).

(** The session with the verdicts reached so far in the node's judgment. *)
Abbreviation Judging := (Session * gmap SubstateKey bool)%type.
Definition on_session {A} (m : M Session A) : M Judging A := λ '(s, judged), let '(s, r) := m s in ((s, judged), r).
Definition stored_verdict (evidence : list Claim) (b : bytes) : bool :=
  negb (bool_decide (b = [])) &&
  match rule_in_cell b with
  | Ok rule => match claims_only rule with Some claims => satisfied_by claims evidence | None => false end
  | Err _ => false
  end.
Fixpoint satisfies (evidence : list Claim) (r : Rule JudgedLeaf.JudgedLeaf) : M Judging bool :=
  match r with
  | Require (JudgedLeaf.Claimed claim) => mret (bool_decide (claim ∈ evidence))
  | Require (JudgedLeaf.Signed _ _) => mret false
  | Require (JudgedLeaf.IfPresence target expect) =>
      match expect with
      | Types.Either => mret true
      | Absent => present ← on_session (declared_present target); mret (negb present)
      | Present => on_session (declared_present target)
      end
  | Require (JudgedLeaf.Stored cell) =>
      standing ← gets (λ st : Judging, st.2 !! cell);
      match standing with
      | Some verdict => mret verdict
      | None =>
          b ← on_session (declared_cell cell);
          let verdict := stored_verdict evidence b in
          _ ← modify (λ st : Judging, (st.1, <[cell := verdict]> st.2));
          mret verdict
      end
  | CountOf count rules =>
      (fix branches (rs : list (Rule JudgedLeaf.JudgedLeaf)) (met : Z) : M Judging bool :=
         match rs with
         | [] => mret (bool_decide (count ≤ met))
         | r :: rs => satisfies evidence r ≫= λ holds : bool, branches rs (if holds then met + 1 else met)
         end) rules 0
  end.
Fixpoint judge_requires (evidence : list Claim) (node : Z) (rules : list (Rule JudgedLeaf.JudgedLeaf)) (st : Judging) : walked Session :=
  match rules with
  | [] => WDone st.1
  | rule :: rules =>
      match satisfies evidence rule st with
      | (st, Done true) => judge_requires evidence node rules st
      | (st, Done false) => WFailed (NodeAbort st.1 (Outcome.ConditionUnmet (Unmet.Satisfies node)) 0)
      | (st, Trapped _) => composition_defect st.1 Abort.AuthorityCellUnreadable
      | (_, Capability.Panicked) => WPanicked
      end
  end.
Definition gated (call : NodeCall) (node : Z) (session : Session) : walked Session :=
  judge_requires (nc_evidence call) node (nc_requires call) (session, ∅).

(** ** Edges *)

Definition edge_at (outputs : list (list (option Rep))) (source output : nat) : option Rep :=
  produced ← outputs !! source; default None (produced !! output).
Fixpoint edge_bounds (node : Z) (outputs : list (list (option Rep))) (edges : list EdgeBound) (session : Session) : walked Session :=
  match edges with
  | [] => WDone session
  | edge :: edges =>
      match edge_at outputs (eb_source edge) (eb_output edge) with
      | None => composition_defect session Abort.MissingProducerEdge
      | Some carried =>
          match b_get (buckets session) carried with
          | Trapped _ => composition_defect session Abort.MissingProducerEdge
          | Capability.Panicked => WPanicked
          | Done held =>
              if bounds_admit (eb_bounds edge) (quantity held) then edge_bounds node outputs edges session
              else WFailed (NodeAbort session (Outcome.ConstraintUnmet node (eb_param edge) (quantity held)) 0)
          end
      end
  end.
Definition edge_bounds_hold (call : NodeCall) (node : Z) (outputs : list (list (option Rep))) (session : Session) : walked Session :=
  edge_bounds node outputs (nc_edges call) session.

Fixpoint claimed_from (node : nat) (legs : LegPlan) (outputs : list EdgeContent) (slot : nat) (session : Session) :
    walked (Session * list (option Rep)) :=
  match outputs with
  | [] => WDone (session, [])
  | _ :: outputs =>
      match plan_arrival legs node (u32_or_max slot) with
      | None => rest ← claimed_from node legs outputs (S slot) session; WDone (rest.1, None :: rest.2)
      | Some arrival =>
          match escrow_in arrival session with
          | (session, Done rep) => rest ← claimed_from node legs outputs (S slot) session; WDone (rest.1, Some rep :: rest.2)
          | (session, Trapped t) => WFailed (NodeAbort session (Outcome.UserError (trap_reason t)) 0)
          | (_, Capability.Panicked) => WPanicked
          end
      end
  end.
Definition claimed_outputs (node : nat) (call : NodeCall) (legs : LegPlan) (session : Session) : walked (Session * list (option Rep)) :=
  claimed_from node legs (nc_outputs call) 0 session.

Definition departure_outcome (t : SessionTrap) : Outcome :=
  match t with Trap.CrossingKeyRepeated _ => Outcome.ProtocolError (trap_reason t) | _ => Outcome.UserError (trap_reason t) end.
Fixpoint departing_from (node : nat) (legs : LegPlan) (produced : list Rep) (slot : nat) (consumed : Z) (session : Session) :
    walked (Session * list (option Rep)) :=
  match produced with
  | [] => WDone (session, [])
  | rep :: produced =>
      match plan_departure legs node (u32_or_max slot) with
      | None => rest ← departing_from node legs produced (S slot) consumed session; WDone (rest.1, Some rep :: rest.2)
      | Some departure =>
          match escrow_out node (u32_or_max slot) rep departure session with
          | (session, Done _) => rest ← departing_from node legs produced (S slot) consumed session; WDone (rest.1, None :: rest.2)
          | (session, Trapped t) => WFailed (NodeAbort session (departure_outcome t) consumed)
          | (_, Capability.Panicked) => WPanicked
          end
      end
  end.
Definition departing (node : nat) (legs : LegPlan) (produced : list Rep) (session : Session) (consumed : Z) :
    walked (Session * list (option Rep)) :=
  departing_from node legs produced 0 consumed session.

(** ** Settling what came back *)

Definition deposit (session : Session) (site funds : Rep) : option InvokeResult :=
  match cell_put site 0 funds session with
  | (session, Done _) => Some {| ir_session := session; ir_fuel := 0; ir_result := Invoked.Produced [] None |}
  | (session, Trapped t) => Some {| ir_session := session; ir_fuel := 0; ir_result := Invoked.Aborted (trap_reason t) |}
  | (_, Capability.Panicked) => None
  end.
(** The first produced edge that is not what its output declares, if any. *)
Fixpoint edges_disagree (session : Session) (reps : list Rep) (outputs : list EdgeContent) : outcome (option AbortReason) :=
  match reps, outputs with
  | rep :: reps, expected :: outputs =>
      match expected, b_get (buckets session) rep with
      | _, Capability.Panicked => Capability.Panicked
      | EdgeContent.Fungible, Done (HAmount _) => edges_disagree session reps outputs
      | EdgeContent.NonFungible ids, Done (HInstances carried) =>
          if decide (carried = list_to_set ids) then edges_disagree session reps outputs else Done (Some Abort.WrongMintedIds)
      | _, _ => Done (Some Abort.BadReturnShape)
      end
  | _, _ => Done None
  end.
Definition user_abort {A} (session : Session) (reason : AbortReason) (fuel : Z) : walked A :=
  WFailed (NodeAbort session (Outcome.UserError reason) fuel).
Definition settled_node (node : Z) (call : NodeCall) (invoked : InvokeResult) : walked NodeSuccess :=
  let session := ir_session invoked in
  let fuel := ir_fuel invoked in
  match ir_result invoked with
  | Invoked.Produced reps answer =>
      if decide (length reps = length (nc_outputs call)) then
        match edges_disagree session reps (nc_outputs call) with
        | Capability.Panicked | Trapped _ => WPanicked
        | Done (Some reason) => user_abort session reason fuel
        | Done None =>
            if decide (bool_decide (is_Some answer) ≠ nc_answers call) then user_abort session Abort.BadReturnShape fuel else
            match answer with
            | Some value =>
                if decide (length value ≤ MAX_ANSWER_BYTES)%nat
                then WDone {| ns_session := session; ns_edges := reps; ns_answer := Some value; ns_fuel := fuel |}
                else user_abort session Abort.AnswerTooLarge fuel
            | None => WDone {| ns_session := session; ns_edges := reps; ns_answer := None; ns_fuel := fuel |}
            end
        end
      else user_abort session Abort.BadReturnShape fuel
  | Invoked.Declined code =>
      if decide (code < MAX_ERROR_CODES) then WFailed (NodeAbort session (Outcome.Declined node code) fuel)
      else user_abort session Abort.ErrorCodeOutOfRange fuel
  | Invoked.Aborted Abort.OutsideScope => WFailed (NodeAbort session (Outcome.ProtocolError Abort.OutsideScope) fuel)
  | Invoked.Aborted Abort.CellOverflow =>
      WFailed (NodeAbort (take_lost_floor session).1
        (match lost_floor session with
         | Some (key, amt) => Outcome.Infeasible key amt
         | None => Outcome.UserError Abort.CellOverflow
         end) fuel)
  | Invoked.Aborted reason => user_abort session reason fuel
  | Invoked.Unavailable reason => WFailed (NodeUnavailable (nc_package call) reason)
  end.

(** ** A node *)

(** The arguments, bound and lent one by one. *)
Fixpoint assemble (outputs : list (list (option Rep))) (args : list CallArg) (session : Session) (acc : list GuestArg) :
    walked (Session * list GuestArg) :=
  match args with
  | [] => WDone (session, acc)
  | CallArg.Site entries :: args =>
      if existsb (λ rep : Rep, bool_decide (table (fixed session) !! rep = None)) (omap id entries)
      then composition_defect session Abort.CapabilityOutOfRange
      else match bind_site entries session with
           | (session, Done site) => assemble outputs args session (acc ++ [GuestArg.Site site])
           | _ => WPanicked
           end
  | CallArg.Bucket source output :: args =>
      match edge_at outputs source output with
      | None => composition_defect session Abort.MissingProducerEdge
      | Some produced => assemble outputs args (lend_bucket produced session).1 (acc ++ [GuestArg.Bucket produced])
      end
  | CallArg.Bool taken :: args => assemble outputs args session (acc ++ [GuestArg.Bool taken])
  | CallArg.U64 scalar :: args => assemble outputs args session (acc ++ [GuestArg.U64 scalar])
  | CallArg.Address address :: args => assemble outputs args session (acc ++ [GuestArg.Address address])
  | CallArg.Bytes value :: args => assemble outputs args session (acc ++ [GuestArg.Bytes value])
  | CallArg.Ids ids :: args => assemble outputs args session (acc ++ [GuestArg.Ids ids])
  end.

Context (backend : GuestBackend).

Definition invoke_node (node : nat) (call : NodeCall) (outputs : list (list (option Rep))) (fuel_budget event_bytes : Z)
    (session : Session) : walked NodeSuccess :=
  session ← gated call (Z.of_nat node) session;
  session ← edge_bounds_hold call (Z.of_nat node) outputs session;
  let session := (enter_invocation (nc_target call) event_bytes session).1 in
  assembled ← assemble outputs (nc_args call) session [];
  let '(session, args) := assembled in
  let session := (grant_issuance (nc_issues call) session).1 in
  if decide (nc_body call = Deposit) then
    match args with
    | [GuestArg.Site site; GuestArg.Bucket funds] =>
        match deposit session site funds with
        | Some invoked => settled_node (Z.of_nat node) call invoked
        | None => WPanicked
        end
    | _ => composition_defect session Abort.DepositUnbound
    end
  else
    settled_node (Z.of_nat node) call (backend session {|
      gc_package := nc_package call; gc_target := nc_target call; gc_export := nc_export call; gc_args := args;
      gc_fuel_budget := fuel_budget |}).

(** ** The walk *)

Context {Env : Type}.
Implicit Types (entry : BatchTx NodeCall Env).

(** What a walk carries from node to node. *)
Record WalkState := {
  ws_session : Session;
  ws_outputs : list (list (option Rep));
  ws_answers : list Answer;
  ws_spent : list Z;
}.
Definition walk_node entry (index : nat) (call : NodeCall) (w : WalkState) : walked WalkState :=
  let legs := job_legs (bt_job entry) in
  let node := u32_or_max index in
  if negb (plan_runs legs node) then
    claimed ← claimed_outputs node call legs (ws_session w);
    WDone {| ws_session := claimed.1; ws_outputs := ws_outputs w ++ [claimed.2]; ws_answers := ws_answers w; ws_spent := ws_spent w ++ [0] |}
  else match ceiling entry index, event_bound entry index with
  | Some fuel, Some emits =>
      ran ← invoke_node node call (ws_outputs w) fuel emits (ws_session w);
      left_ ← departing node legs (ns_edges ran) (leave_invocation (ns_session ran)).1 (ns_fuel ran);
      WDone {| ws_session := left_.1; ws_outputs := ws_outputs w ++ [left_.2];
               ws_answers := ws_answers w ++ match ns_answer ran with Some value => [{| a_node := Z.of_nat node; a_value := value |}] | None => [] end;
               ws_spent := ws_spent w ++ [ns_fuel ran] |}
  | _, _ => composition_defect (ws_session w) Abort.MissingCeiling
  end.
Fixpoint walk_from entry (index : nat) (calls : list NodeCall) (w : WalkState) : option (result (Unavailable PackageHash) (RunResult B)) :=
  match calls with
  | [] => Some (Ok (RunResult.Completed (ws_session w) (ws_answers w) (ws_spent w)))
  | call :: calls =>
      match walk_node entry index call w with
      | WDone w => walk_from entry (S index) calls w
      | WFailed f => Some (into_result f (ws_spent w))
      | WPanicked => None
      end
  end.
Definition walk_run entry (session : Session) : option (result (Unavailable PackageHash) (RunResult B)) :=
  walk_from entry 0 (job_calls (bt_job entry)) {| ws_session := session; ws_outputs := []; ws_answers := []; ws_spent := [] |}.
End walk.

(** ** What the gate decides *)

(** Whether the store answers a leaf at all, and what a node presenting [evidence]
    gets from it. *)
Section gate.
Context {B : Type} `{Baseline B}.
Implicit Types (s : KernelSession B) (o : OverlayStore B).

Definition gate_reads o (l : JudgedLeaf.JudgedLeaf) : bool :=
  match l with
  | JudgedLeaf.IfPresence target (Absent | Present) => match found o target with Ok _ => true | Err _ => false end
  | _ => true
  end.
(** The rule over claims a cell holds, if it holds one. *)
Definition rule_held o (cell : SubstateKey) : option (Rule Claim) :=
  match cell_value o cell with
  | None | Some [] => None
  | Some b => match rule_in_cell b with Ok rule => claims_only rule | Err _ => None end
  end.
Definition gate_leaf o (evidence : list Claim) (l : JudgedLeaf.JudgedLeaf) : bool :=
  match l with
  | JudgedLeaf.Claimed claim => bool_decide (claim ∈ evidence)
  | JudgedLeaf.Signed _ _ => false
  | JudgedLeaf.IfPresence target expect => match found o target with Ok held => met_by expect held | Err _ => met_by expect false end
  | JudgedLeaf.Stored cell => match rule_held o cell with Some claims => satisfied_by claims evidence | None => false end
  end.
(** A rule over committed state and evidence: unreadable, or its verdict. *)
Definition gate_rule o (evidence : list Claim) (r : Rule JudgedLeaf.JudgedLeaf) : option bool :=
  if forallb (gate_reads o) (preorder r) then Some (holds_under (gate_leaf o evidence) r) else None.

Lemma stored_verdict_held o evidence cell :
  stored_verdict evidence (default [] (cell_value o cell)) = gate_leaf o evidence (JudgedLeaf.Stored cell).
Proof.
  cbn [gate_leaf]. unfold rule_held, stored_verdict. destruct (cell_value o cell) as [[|x b]|]; [done| |done]. cbn [default from_option].
  rewrite bool_decide_eq_false_2 by done. unfold id. by destruct (rule_in_cell (x :: b)).
Qed.
Lemma cell_value_state o o' k : same_state o o' → cell_value o' k = cell_value o k.
Proof. intros Hs. change (cell_value (clear_log o') k = cell_value (clear_log o) k). by rewrite Hs. Qed.
Lemma gate_reads_state o o' l : same_state o o' → gate_reads o' l = gate_reads o l.
Proof. intros Hs. destruct l as [| |t []|]; cbn; try done; by rewrite (found_state o o' t Hs). Qed.
Lemma forallb_reads_state o o' ls : same_state o o' → forallb (gate_reads o') ls = forallb (gate_reads o) ls.
Proof. intros Hs. induction ls as [|l ls IH]; [done|]. cbn. by rewrite IH, (gate_reads_state o o'). Qed.
Lemma gate_leaf_state o o' ev l : same_state o o' → gate_leaf o' ev l = gate_leaf o ev l.
Proof. intros Hs. destruct l; cbn; [done|unfold rule_held; by rewrite (cell_value_state o o')|by rewrite (found_state o o')|done]. Qed.
Lemma gate_rule_state o o' ev r : same_state o o' → gate_rule o' ev r = gate_rule o ev r.
Proof.
  intros Hs. unfold gate_rule. rewrite (holds_under_ext _ (gate_leaf o ev)) by (intros; by apply gate_leaf_state).
  by rewrite (forallb_reads_state o o').
Qed.

(** The verdicts kept are the ones a fresh reading gives. *)
Definition memo_right o (evidence : list Claim) (judged : gmap SubstateKey bool) : Prop :=
  map_Forall (λ cell v, v = gate_leaf o evidence (JudgedLeaf.Stored cell)) judged.
(** A judging step reads and remembers, and changes nothing else. *)
Definition reads_only (evidence : list Claim) (st st' : KernelSession B * gmap SubstateKey bool) : Prop :=
  (∃ o, same_state (store st.1) o ∧ st'.1 = set_store o st.1) ∧ (memo_right (store st.1) evidence st.2 → memo_right (store st.1) evidence st'.2).

Lemma set_store_store o o' s : set_store o' (set_store o s) = set_store o' s.
Proof. done. Qed.
Lemma set_store_id s : set_store (store s) s = s.
Proof. by destruct s. Qed.
Lemma memo_right_state o o' ev judged : same_state o o' → memo_right o ev judged ↔ memo_right o' ev judged.
Proof. intros Hs. unfold memo_right, map_Forall. split; intros Hm k v Hk; specialize (Hm k v Hk); by rewrite (gate_leaf_state o o') in *. Qed.
#[local] Instance reads_only_refl ev : Reflexive (reads_only ev).
Proof. intros [s j]. split; [|done]. exists (store s). split; [done|]. by rewrite set_store_id. Qed.
#[local] Instance reads_only_trans ev : Transitive (reads_only ev).
Proof.
  intros [s1 j1] [s2 j2] [s3 j3] [(o1 & S1 & E1) M1] [(o2 & S2 & E2) M2]. cbn [fst snd] in *. subst s2 s3. cbn [store set_store] in *.
  split; cbn [fst snd].
  - exists o2. split; [by transitivity o1|done].
  - intros Hm. apply (memo_right_state _ o1 ev j3 S1), M2, (memo_right_state _ o1 ev j2 S1), M1, Hm.
Qed.

(** What judging a rule answers, whatever was judged before it. *)
Definition judges_rule (evidence : list Claim) (r : Rule JudgedLeaf.JudgedLeaf) : Prop := ∀ st,
  memo_right (store st.1) evidence st.2 → reads_only evidence st (satisfies evidence r st).1 ∧
  match gate_rule (store st.1) evidence r with
  | Some verdict => (satisfies evidence r st).2 = Done verdict
  | None => ∃ t, (satisfies evidence r st).2 = Trapped t
  end.
Lemma judges_leaf evidence l : judges_rule evidence (Require l).
Proof.
  intros [s judged] Hm. unfold gate_rule. cbn [fst snd preorder forallb] in *. rewrite andb_true_r. cbn [holds_under].
  assert (Hp : ∀ t, let '(st, r) := on_session (declared_present t) (s, judged) in reads_only evidence (s, judged) st ∧
    match found (store s) t with Ok v => r = Done v | Err e => r = Trapped (Trap.Store e) end).
  { intros t. unfold on_session, declared_present, on_store, found. pose proof (occupied_quiet (store s) t) as Hq.
    destruct (occupied (store s) t) as [o r]. cbn [fst snd] in *. split; [split; [by exists o|done]|]. by destruct r. }
  destruct l as [c|cell|t expect|cell keys].
  - split; [reflexivity|done].
  - cbn [gate_reads gate_leaf satisfies]. unfold gets, mbind, M_bind. cbn [snd].
    destruct (judged !! cell) as [v|] eqn:Ej; [split; [reflexivity|]; cbn; by rewrite (Hm cell v Ej)|].
    unfold on_session, declared_cell, on_store, read, mbind, M_bind, modify, mret, M_ret. cbn [lift fst snd].
    pose proof (stored_verdict_held (store s) evidence cell) as Hv. cbn [gate_leaf] in Hv. unfold cell_value in Hv.
    split; [|by rewrite <- Hv]. split; cbn [fst snd]; [by exists (record (store s) (Point cell) KRead)|].
    intros _. by apply map_Forall_insert_2.
  - specialize (Hp t). destruct expect; cbn [gate_reads gate_leaf satisfies].
    + split; [reflexivity|]. cbn [fst]. destruct (found (store s) t); reflexivity.
    + unfold mbind, M_bind. destruct (on_session (declared_present t) (s, judged)) as [st r], Hp as [H1 H2].
      destruct (found (store s) t) as [v|e]; rewrite H2; [by split|]. split; [done|by exists (Trap.Store e)].
    + destruct (on_session (declared_present t) (s, judged)) as [st r], Hp as [H1 H2].
      destruct (found (store s) t) as [v|e]; cbn [fst snd]; rewrite H2; [by split|]. split; [done|by exists (Trap.Store e)].
  - split; [reflexivity|done].
Qed.

Lemma M_bind_run {S A C} (m : M S A) (f : A → M S C) st :
  (m ≫= f) st = match m st with (st', Done x) => f x st' | (st', Trapped t) => (st', Trapped t) | (st', Capability.Panicked) => (st', Capability.Panicked) end.
Proof. done. Qed.

(** The walk over the branches of one threshold. *)
Definition satisfy_branches (evidence : list Claim) (count : Z) :=
  fix branches (rs : list (Rule JudgedLeaf.JudgedLeaf)) (met : Z) : M (KernelSession B * gmap SubstateKey bool) bool :=
    match rs with
    | [] => mret (bool_decide (count ≤ met))
    | r :: rs => satisfies evidence r ≫= λ holds : bool, branches rs (if holds then met + 1 else met)
    end.
Lemma satisfies_count evidence n rs : satisfies (B := B) evidence (CountOf n rs) = satisfy_branches evidence n rs 0.
Proof. done. Qed.

Lemma satisfy_branches_spec evidence n rs met st :
  Forall (judges_rule evidence) rs → memo_right (store st.1) evidence st.2 →
  reads_only evidence st (satisfy_branches evidence n rs met st).1 ∧
  if forallb (gate_reads (store st.1)) (rs ≫= preorder)
  then (satisfy_branches evidence n rs met st).2 =
    Done (bool_decide (n ≤ met + Z.of_nat (length (List.filter (holds_under (gate_leaf (store st.1) evidence)) rs))))
  else ∃ t, (satisfy_branches evidence n rs met st).2 = Trapped t.
Proof.
  intros Hrs. revert met st. induction Hrs as [|r rs Hr _ IH]; intros met st Hm.
  { split; [reflexivity|]. cbn. by rewrite Z.add_0_r. }
  cbn [satisfy_branches]. destruct (Hr st Hm) as [R1 A1]. rewrite !M_bind_run.
  change ((r :: rs) ≫= preorder) with (preorder r ++ (rs ≫= preorder)). rewrite forallb_app. unfold gate_rule in A1.
  destruct (satisfies evidence r st) as [st1 v1] eqn:E1. cbn [fst snd] in *.
  destruct (forallb (gate_reads (store st.1)) (preorder r)).
  2: { destruct A1 as [t ->]. split; [done|]. by exists t. }
  subst v1. destruct R1 as [(o & So & Eo) Rm].
  assert (Hst1 : same_state (store st.1) (store st1.1)) by (by rewrite Eo).
  assert (Hm1 : memo_right (store st1.1) evidence st1.2) by (apply (memo_right_state _ _ _ _ Hst1), Rm, Hm).
  destruct (IH (if holds_under (gate_leaf (store st.1) evidence) r then met + 1 else met) st1 Hm1) as [R2 A2].
  split; [etrans; [split; [by exists o|exact Rm]|exact R2]|]. cbn [andb].
  rewrite (forallb_reads_state (store st.1) (store st1.1)) in A2 by done. destruct (forallb _ _); [|exact A2].
  assert (Hf : List.filter (holds_under (gate_leaf (store st1.1) evidence)) rs = List.filter (holds_under (gate_leaf (store st.1) evidence)) rs).
  { clear -Hst1. induction rs as [|r rs IH]; [done|]. cbn. rewrite IH.
    by rewrite (holds_under_ext _ (gate_leaf (store st.1) evidence) r) by (intros; by apply gate_leaf_state). }
  rewrite Hf in A2. rewrite A2. f_equal. apply bool_decide_ext. cbn [List.filter].
  destruct (holds_under _ r); cbn [length]; lia.
Qed.
Lemma judges_every evidence r : judges_rule evidence r.
Proof.
  induction r as [l|n rs IH] using rule_tree_ind; [apply judges_leaf|]. intros st Hm. rewrite satisfies_count.
  destruct (satisfy_branches_spec evidence n rs 0 st IH Hm) as [R A]. split; [exact R|]. unfold gate_rule.
  cbn [preorder holds_under]. rewrite Z.add_0_l in A. by destruct (forallb _ _).
Qed.

(** The first rule a gate does not pass, if any. *)
Definition gate_refusal o (call : NodeCall) : option (Rule JudgedLeaf.JudgedLeaf) :=
  head (List.filter (λ r, negb (bool_decide (gate_rule o (nc_evidence call) r = Some true))) (nc_requires call)).

Lemma judge_requires_spec evidence node rules st :
  memo_right (store st.1) evidence st.2 →
  ∃ o, same_state (store st.1) o ∧ judge_requires evidence node rules st =
    match head (List.filter (λ r, negb (bool_decide (gate_rule (store st.1) evidence r = Some true))) rules) with
    | None => WDone (set_store o st.1)
    | Some r => match gate_rule (store st.1) evidence r with
                | Some _ => WFailed (NodeAbort (set_store o st.1) (Outcome.ConditionUnmet (Unmet.Satisfies node)) 0)
                | None => composition_defect (set_store o st.1) Abort.AuthorityCellUnreadable
                end
    end.
Proof.
  revert st. induction rules as [|r rules IH]; intros st Hm.
  { exists (store st.1). split; [done|]. cbn. by rewrite set_store_id. }
  cbn [judge_requires List.filter]. destruct (judges_every evidence r st Hm) as [[(o & So & Eo) Rm] A].
  destruct (satisfies evidence r st) as [st1 v1]. cbn [fst snd] in *.
  destruct (gate_rule (store st.1) evidence r) as [[]|] eqn:Eg.
  - subst v1. rewrite bool_decide_eq_true_2 by done. cbn [negb].
    assert (Hst1 : same_state (store st.1) (store st1.1)) by (by rewrite Eo).
    destruct (IH st1) as (o2 & S2 & E2); [apply (memo_right_state _ _ _ _ Hst1), Rm, Hm|].
    exists o2. split; [by transitivity (store st1.1)|]. rewrite E2, Eo, set_store_store.
    assert (Hx : ∀ r, gate_rule (store (set_store o st.1)) evidence r = gate_rule (store st.1) evidence r) by (intros; by apply gate_rule_state).
    assert (Hf : List.filter (λ r, negb (bool_decide (gate_rule (store (set_store o st.1)) evidence r = Some true))) rules =
      List.filter (λ r, negb (bool_decide (gate_rule (store st.1) evidence r = Some true))) rules).
    { clear -Hx. induction rules as [|r rules IH]; [done|]. cbn [List.filter]. by rewrite IH, Hx. }
    rewrite Hf. clear E2. destruct (head _) as [r'|]; [|done]. by rewrite Hx.
  - subst v1. rewrite bool_decide_eq_false_2 by done. cbn [negb head]. exists o. split; [done|]. by rewrite Eg, Eo.
  - destruct A as [t ->]. rewrite bool_decide_eq_false_2 by done. cbn [negb head]. exists o. split; [done|]. by rewrite Eg, Eo.
Qed.

(** C16: the gate decides by the declaration, the evidence and committed state. Judging a node's authority reads the store
    and changes nothing, however often one stored rule is asked for; it passes exactly when every required rule holds
    over the claims presented and the rules stored in the cells it names, and refuses at the first that does not, before
    anything is spent; and behind a gate that does not pass no code runs, whatever the engine. *)
Theorem gate_correct call node outputs budget events backend s :
  ∃ o, same_state (store s) o ∧
    gated call (Z.of_nat node) s =
      match gate_refusal (store s) call with
      | None => WDone (set_store o s)
      | Some r => WFailed (NodeAbort (set_store o s)
          match gate_rule (store s) (nc_evidence call) r with
          | Some _ => Outcome.ConditionUnmet (Unmet.Satisfies (Z.of_nat node))
          | None => Outcome.ProtocolError Abort.AuthorityCellUnreadable
          end 0)
      end ∧
    (gate_refusal (store s) call = None ↔ Forall (λ r, gate_rule (store s) (nc_evidence call) r = Some true) (nc_requires call)) ∧
    ∀ r, gate_refusal (store s) call = Some r →
      ∃ outcome, invoke_node backend node call outputs budget events s = WFailed (NodeAbort (set_store o s) outcome 0).
Proof.
  destruct (judge_requires_spec (nc_evidence call) (Z.of_nat node) (nc_requires call) (s, ∅)) as (o & So & E); [apply map_Forall_empty|].
  cbn [fst] in *. exists o. split; [exact So|].
  assert (Hg : gated call (Z.of_nat node) s =
      match gate_refusal (store s) call with
      | None => WDone (set_store o s)
      | Some r => WFailed (NodeAbort (set_store o s)
          match gate_rule (store s) (nc_evidence call) r with
          | Some _ => Outcome.ConditionUnmet (Unmet.Satisfies (Z.of_nat node))
          | None => Outcome.ProtocolError Abort.AuthorityCellUnreadable
          end 0)
      end).
  { unfold gated. rewrite E. fold (gate_refusal (store s) call). clear E. destruct (gate_refusal (store s) call) as [r|]; [|done].
    by destruct (gate_rule _ _ r). }
  split; [exact Hg|]. split.
  - unfold gate_refusal. clear. induction (nc_requires call) as [|r rs IH]; [done|]. cbn [List.filter]. rewrite Forall_cons, <- IH.
    case_bool_decide; cbn [negb head]; naive_solver.
  - intros r Hr. eexists. unfold invoke_node. rewrite Hg, Hr. done.
Qed.
End gate.

(** ** What a walk does to the account *)

(** The operations an engine reaches the session through
    ([crates/kernel/src/host.rs]); the rest are the walk's own. *)
Definition guest_op (op : SessionOp) : bool :=
  match op with
  | SEnter _ _ | SLeave | SGrant _ | SBind _ | SLend _ | SEscrowOut _ _ _ _ | SEscrowIn _ => false
  | _ => true
  end.

(** A computation that leaves one view of the session alone, however it ends. *)
Definition keepsM {B X A} (view : KernelSession B → X) (m : M (KernelSession B) A) : Prop := ∀ s, view (m s).1 = view s.
Lemma keepsM_bind {B X A C} (view : KernelSession B → X) (m : M (KernelSession B) A) (f : A → M (KernelSession B) C) :
  keepsM view m → (∀ x, keepsM view (f x)) → keepsM view (m ≫= f).
Proof.
  intros Hm Hf s. rewrite M_bind_run. specialize (Hm s). destruct (m s) as [s1 [x|t|]]; [|done..]. cbn [fst] in Hm.
  by rewrite (Hf x s1).
Qed.
Lemma keepsM_for_each {B X A} (view : KernelSession B → X) (l : list A) (f : A → M (KernelSession B) ()) :
  (∀ x, keepsM view (f x)) → keepsM view (for_each l f).
Proof. intros Hf. induction l as [|x l IH]; [done|]. apply keepsM_bind; [apply Hf|done]. Qed.

Ltac keep_leaf :=
  intros ?; unfold on_store, on_buckets, on_supply, on_escrow, record_crossing, bind_site;
  first [reflexivity | match goal with |- context [let '(_, _) := ?x in _] => destruct x end; reflexivity].
Ltac keep_step :=
  match goal with
  | |- keepsM _ (_ ≫= _) => apply keepsM_bind; [|intros ?]
  | |- keepsM _ (for_each _ _) => apply keepsM_for_each; intros ?
  | |- keepsM _ (match ?x with _ => _ end) => destruct x
  | |- keepsM _ _ => keep_leaf
  | |- keepsM _ _ => progress cbv zeta
  end.
Ltac session_ops :=
  unfold void, enter_invocation, leave_invocation, grant_issuance, lend_bucket, emit, cell_get, write_cell_set, write_cell_clear,
    amount_cell_balance, reserve_amount, reserve_take, cell_take, cell_put, mint, mint_instances, burn, escrow_out, escrow_in,
    bucket_take, bucket_split, bucket_put, drop_bucket, range_count, range_covered, range_entry, range_set, range_insert,
    range_remove, range_take, range_put, range_order, session_amount_cell, take_one, probe, scan, charge_write, invalidate,
    lift_entries, seal, open_seal.

(** The layers a transaction runs over, which no operation reaches. *)
Definition beneath {B} (s : KernelSession B) : B * Layer := (base (store s), committed (store s)).
Lemma op_beneath {B} `{Baseline B} op : keepsM beneath (run_session_op (B := B) op).
Proof. destruct op; cbn [run_session_op]; session_ops; repeat keep_step. Qed.
Definition edge_op (op : SessionOp) : bool := match op with SEscrowOut _ _ _ _ | SEscrowIn _ => true | _ => false end.
Lemma guest_op_edge op : guest_op op = true → edge_op op = false.
Proof. by destruct op. Qed.
Lemma plain_op_escrow {B} `{Baseline B} op : edge_op op = false → keepsM escrow (run_session_op (B := B) op).
Proof. destruct op; cbn [edge_op]; intros [=]; cbn [run_session_op]; session_ops; repeat keep_step. Qed.
Lemma buckets_escrow {B} `{Baseline B} {A} (f : M Buckets A) : keepsM escrow (on_buckets (B := B) f).
Proof. keep_leaf. Qed.

Lemma on_escrow_done {B} `{Baseline B} {A} f (s s' : KernelSession B) (x : A) :
  on_escrow f s = (s', Done x) → ∃ d, f (escrow s) = (d, Ok x) ∧ s' = set_escrow d s.
Proof. unfold on_escrow. destruct (f (escrow s)) as [d [y|e]]; [|done]. intros [= <- <-]. by exists d. Qed.
Lemma escrow_issue_ok d n k c d' u : escrow_issue d n k c = (d', Ok u) → issued_at d' = <[(n, k) := c]> (issued_at d).
Proof. unfold escrow_issue. destruct (checked_add _ _ _); [|done]. by intros [= <-]. Qed.
Lemma escrow_out_issues {B} `{Baseline B} n k funds d (s s' : KernelSession B) x :
  escrow_out n k funds d s = (s', Done x) → ∃ c, issued_at (escrow s') = <[(n, k) := c]> (issued_at (escrow s)).
Proof.
  unfold escrow_out. intros Hr. repeat (apply M_bind_done in Hr as (? & ? & ? & Hr)). injection Hr as <- _.
  repeat match goal with
    | E : asks _ _ = _ |- _ => apply asks_done in E as [-> E]
    | E : gets _ _ = _ |- _ => apply gets_done in E as [-> E]
    | E : on_buckets ?f ?t = _ |- _ => pose proof (buckets_escrow f t) as Hb; rewrite E in Hb; cbn in Hb; clear E
    | E : record_crossing _ _ _ = _ |- _ => unfold record_crossing in E; injection E as <- _
    end.
  match goal with E : on_escrow _ _ = _ |- _ => apply on_escrow_done in E as (d' & Ed & ->); apply escrow_issue_ok in Ed end.
  cbn. eexists. by rewrite <- Hb.
Qed.
Lemma escrow_in_issues {B} `{Baseline B} arrival (s s' : KernelSession B) x :
  escrow_in arrival s = (s', Done x) → issued_at (escrow s') = issued_at (escrow s).
Proof.
  unfold escrow_in. destruct (decide _); [done|]. intros Hr. repeat (apply M_bind_done in Hr as (? & ? & ? & Hr)).
  repeat match goal with
    | E : asks _ _ = _ |- _ => apply asks_done in E as [-> E]
    | E : gets _ _ = _ |- _ => apply gets_done in E as [-> E]
    | E : on_buckets ?f ?t = _ |- _ => pose proof (buckets_escrow f t) as Hb; rewrite E in Hb; cbn in Hb; clear E
    | E : record_crossing _ _ _ = _ |- _ => unfold record_crossing in E; injection E as <- _
    end.
  rewrite Hb. match goal with E : on_escrow _ _ = _ |- _ => apply on_escrow_done in E as (d' & Ed & ->) end.
  unfold escrow_claim in Ed. destruct (delta_add _ _ _ _) as [m r]. by injection Ed as <- _.
Qed.

Section accounting.
Context {B : Type} `{Baseline B} (a : AbstractStore) (s0 : KernelSession B).
Implicit Types (s : KernelSession B).

(** A session every guarantee of the closing account holds of. *)
Record sound_session s : Prop := {
  sn_ok : session_ok a s;
  sn_ready : ready s;
  sn_account : ∀ r, account s r = 0;
  sn_fixed : fixed s = fixed s0;
}.
Lemma sound_runs s ops s' : sound_session s → runs s ops s' → sound_session s'.
Proof.
  intros [H1 H2 H3 H4] Hr. destruct (runs_ready a s ops s' H1 Hr H2) as [R1 R2]. split; [|done| |congruence].
  - by destruct (runs_account a s ops s' 0 H1 Hr).
  - intros r. destruct (runs_account a s ops s' r H1 Hr) as [_ ->]. apply H3.
Qed.
Lemma sound_op op s s' : sound_session s → session_op_ok s op → run_session_op op s = (s', Done ()) → sound_session s'.
Proof. intros Hs Ho Hr. eapply sound_runs; [done|]. econstructor; [done|exact Hr|constructor]. Qed.
Lemma sound_reads s o : sound_session s → same_state (store s) o → sound_session (set_store o s).
Proof.
  intros [H1 H2 H3 H4] Hs. unfold same_state, clear_log in Hs. injection Hs as E1 E2 E3.
  destruct (quiet_moves a s (set_store o s) H1) as [M1 M2 M3]; [split; try done; split; cbn; congruence|].
  split; [done| |intros r; rewrite M3, H3; lia|by rewrite M2].
  eapply steady_ready; [|exact H2]. split; cbn; congruence.
Qed.

(** Edges issued so far: all of the nodes before [n], and the first [k] of node [n]. *)
Definition issued_within (n k : nat) s : Prop :=
  map_Forall (λ p _, (p.1 < n)%nat ∨ p.1 = n ∧ (p.2 < k)%nat) (issued_at (escrow s)).
Record on_course (n k : nat) s : Prop := { oc_sound : sound_session s; oc_issued : issued_within n k s }.

Lemma course_op n k op s s' :
  on_course n k s → edge_op op = false → session_op_ok s op → run_session_op op s = (s', Done ()) → on_course n k s'.
Proof.
  intros [H1 H2] He Ho Hr. split; [by eapply sound_op|]. pose proof (plain_op_escrow op He s) as Hk. rewrite Hr in Hk. cbn in Hk.
  unfold issued_within. by rewrite Hk.
Qed.
Lemma course_runs n k s ops s' : on_course n k s → Forall (λ op, guest_op op = true) ops → runs s ops s' → on_course n k s'.
Proof.
  intros Hc Hg Hr. induction Hr as [|s op s1 ops s' Hop Hrun _ IH]; [done|]. apply Forall_cons in Hg as [Hg1 Hg2].
  apply IH; [|done]. eapply course_op; [done|by apply guest_op_edge|done|done].
Qed.
Lemma course_reads n k s o : on_course n k s → same_state (store s) o → on_course n k (set_store o s).
Proof. intros [H1 H2] Hs. split; [by apply sound_reads|done]. Qed.
Lemma course_next n k s : on_course n k s → on_course (S n) 0 s.
Proof. intros [H1 H2]. split; [done|]. intros p c Hp. destruct (H2 p c Hp); left; lia. Qed.
Lemma course_departs n k funds d s s' x :
  on_course n k s → escrow_out n k funds d s = (s', Done x) → on_course n (S k) s'.
Proof.
  intros [H1 H2] Hr.
  assert (Hrun : run_session_op (SEscrowOut n k funds d) s = (s', Done ())) by (cbn; unfold void; by rewrite M_bind_run, Hr).
  assert (Hnone : issued_at (escrow s) !! (n, k) = None).
  { apply eq_None_not_Some. intros [c Hc]. destruct (H2 _ _ Hc); cbn in *; lia. }
  split; [by eapply (sound_op (SEscrowOut n k funds d))|].
  unfold issued_within. destruct (escrow_out_issues n k funds d s s' x Hr) as [c ->].
  apply map_Forall_insert_2; [right; cbn; lia|]. intros p c' Hp. destruct (H2 p c' Hp); lia.
Qed.
Lemma course_arrives n k arrival s s' x :
  on_course n k s → in_width 128 (crossed_amount (a_crossed arrival)) → escrow_in arrival s = (s', Done x) → on_course n k s'.
Proof.
  intros [H1 H2] Hw Hr.
  assert (Hrun : run_session_op (SEscrowIn arrival) s = (s', Done ())) by (cbn; unfold void; by rewrite M_bind_run, Hr).
  split; [by eapply (sound_op (SEscrowIn arrival))|]. unfold issued_within. by rewrite (escrow_in_issues arrival s s' x Hr).
Qed.
End accounting.

(** ** The walk, node by node *)

(** What an engine owes the session: everything an invocation did to it was done
    through the operations the host offers, and where the export returned, every one
    of them had answered. *)
Class Engine {B} `{Baseline B} (backend : GuestBackend (B := B)) : Prop := engine_ran : ∀ s call, ∃ ops,
  Forall (λ op, guest_op op = true) ops ∧ ir_session (backend s call) = after_ops ops s ∧
  ∀ edges answer, ir_result (backend s call) = Invoked.Produced edges answer → answered ops s.

(** The numbers of a job within their widths: [u32] positions, [u128] amounts. *)
Record job_fits (job : Job NodeCall) : Prop := {
  jf_nodes : Z.of_nat (length (job_calls job)) ≤ u32_max;
  jf_outputs : Forall (λ call, Z.of_nat (length (nc_outputs call)) ≤ u32_max) (job_calls job);
  jf_arrivals : ∀ node output arrival, plan_arrival (job_legs job) node output = Some arrival →
    in_width 128 (crossed_amount (a_crossed arrival));
}.

Section stages.
Context {B : Type} `{Baseline B} (a : AbstractStore) (s0 : KernelSession B).
Implicit Types (s : KernelSession B).
Abbreviation on_course := (on_course a s0).

Lemma gated_done call node s s' : gated call node s = WDone s' → ∃ o, same_state (store s) o ∧ s' = set_store o s.
Proof.
  unfold gated. destruct (judge_requires_spec (nc_evidence call) node (nc_requires call) (s, ∅)) as (o & So & ->); [apply map_Forall_empty|].
  destruct (head _) as [r|]; [by destruct (gate_rule _ _ r)|]. intros [= <-]. by exists o.
Qed.
Lemma edge_bounds_done node outputs edges s s' : edge_bounds node outputs edges s = WDone s' → s' = s.
Proof.
  induction edges as [|e edges IH]; [by intros [= ->]|]. cbn [edge_bounds].
  destruct (edge_at _ _ _); [|done]. destruct (b_get _ _); [|done..]. by destruct (bounds_admit _ _).
Qed.
Lemma assemble_course n k outputs args s acc s' args' :
  on_course n k s → assemble outputs args s acc = WDone (s', args') → on_course n k s'.
Proof.
  revert s acc. induction args as [|arg args IH]; intros s acc Hc; [by intros [= -> _]|].
  destruct arg; cbn [assemble]; try (by apply IH).
  - destruct (existsb _ _); [done|]. destruct (bind_site entries s) as [s1 [site|t|]] eqn:Eb; [|done..]. apply IH.
    eapply (course_op _ _ n k (SBind entries)); [done..|]. cbn. unfold void. by rewrite M_bind_run, Eb.
  - destruct (edge_at _ _ _) as [rep|]; [|done]. apply IH. by eapply (course_op _ _ n k (SLend rep)).
Qed.
Lemma settled_node_done node call invoked (r : NodeSuccess (B := B)) :
  settled_node node call invoked = WDone r → ns_session r = ir_session invoked ∧ ns_fuel r = ir_fuel invoked ∧
    ir_result invoked = Invoked.Produced (ns_edges r) (ns_answer r) ∧ length (ns_edges r) = length (nc_outputs call) ∧
    edges_disagree (ir_session invoked) (ns_edges r) (nc_outputs call) = Done None ∧
    bool_decide (is_Some (ns_answer r)) = nc_answers call ∧ (∀ v, ns_answer r = Some v → (length v ≤ MAX_ANSWER_BYTES)%nat).
Proof.
  unfold settled_node, user_abort. destruct (ir_result invoked) as [reps answer|code|reason|reason];
    [|by destruct (decide _)|by destruct reason|done].
  destruct (decide _) as [Hl|]; [|done]. destruct (edges_disagree _ _ _) as [[|]| |] eqn:Ee; [done| |done..].
  destruct (decide _) as [|Ha%dec_stable]; [done|]. destruct answer as [v|]; [destruct (decide _) as [Hv|]; [|done]|]; intros [= <-]; cbn.
  - split_and!; try done. by intros ? [= <-].
  - by split_and!.
Qed.
Lemma course_mono n k k' s : (k ≤ k')%nat → on_course n k s → on_course n k' s.
Proof. intros Hk [H1 H2]. split; [done|]. intros p c Hp. destruct (H2 p c Hp); lia. Qed.
Lemma departing_course n legs produced k consumed s s' kept :
  Z.of_nat (k + length produced) ≤ u32_max → on_course n k s → departing_from n legs produced k consumed s = WDone (s', kept) →
  on_course n (k + length produced) s'.
Proof.
  revert k s kept. induction produced as [|rep produced IH]; intros k s kept Hk Hc; cbn [departing_from length].
  { intros [= <- _]. by rewrite Nat.add_0_r. }
  cbn [length] in Hk. assert (Hslot : u32_or_max k = k) by (unfold u32_or_max; by rewrite decide_True by lia). rewrite Hslot.
  rewrite <- Nat.add_succ_comm in *.
  destruct (plan_departure legs n k) as [d|].
  - destruct (escrow_out n k rep d s) as [s1 [x|t|]] eqn:Eo; [|done..]. destruct (departing_from _ _ _ _ _ s1) as [[s2 rest]| |] eqn:E; [|done..].
    intros [= <- _]. eapply IH; [done| |exact E]. by eapply course_departs.
  - destruct (departing_from _ _ _ _ _ s) as [[s2 rest]| |] eqn:E; [|done..]. intros [= <- _]. eapply IH; [done| |exact E].
    by eapply course_mono; [|exact Hc]; lia.
Qed.
Lemma claimed_course n k legs outputs slot s s' taken :
  (∀ node output arrival, plan_arrival legs node output = Some arrival → in_width 128 (crossed_amount (a_crossed arrival))) →
  on_course n k s → claimed_from n legs outputs slot s = WDone (s', taken) → on_course n k s'.
Proof.
  intros Ha. revert slot s taken. induction outputs as [|x outputs IH]; intros slot s taken Hc; cbn [claimed_from].
  { by intros [= <- _]. }
  destruct (plan_arrival legs n (u32_or_max slot)) as [arrival|] eqn:Ea.
  - destruct (escrow_in arrival s) as [s1 [rep|t|]] eqn:Eo; [|done..]. destruct (claimed_from _ _ _ _ s1) as [[s2 rest]| |] eqn:E; [|done..].
    intros [= <- _]. eapply IH; [|exact E]. eapply course_arrives; [done| |exact Eo]. by eapply Ha.
  - destruct (claimed_from _ _ _ _ s) as [[s2 rest]| |] eqn:E; [|done..]. intros [= <- _]. by eapply IH; [|exact E].
Qed.

Context (backend : GuestBackend (B := B)) `{!Engine backend}.

Lemma invoke_node_course n k node call outputs budget events s (r : NodeSuccess (B := B)) :
  on_course n k s → invoke_node backend node call outputs budget events s = WDone r → on_course n k (ns_session r).
Proof.
  intros Hc. unfold invoke_node. destruct (gated _ _ s) as [s1| |] eqn:Eg; [|done..]. apply gated_done in Eg as (o & So & ->).
  apply (course_reads _ _ _ _ _ _ Hc) in So. revert So. generalize (set_store o s). clear Hc. intros s1 Hc. cbn [mbind walked_bind].
  destruct (edge_bounds_hold _ _ _ s1) as [s2| |] eqn:Eb; [|done..]. apply edge_bounds_done in Eb as ->. cbn [mbind walked_bind].
  assert (Hc2 : on_course n k (enter_invocation (nc_target call) events s1).1)
    by (by eapply (course_op _ _ n k (SEnter (nc_target call) events))).
  destruct (assemble _ _ _ _) as [[s3 args]| |] eqn:Ea; [|done..]. apply (assemble_course _ _ _ _ _ _ _ _ Hc2) in Ea. cbn [mbind walked_bind].
  assert (Hc3 : on_course n k (grant_issuance (nc_issues call) s3).1) by (by eapply (course_op _ _ n k (SGrant (nc_issues call)))).
  set (s4 := (grant_issuance (nc_issues call) s3).1) in *. destruct (decide _).
  - destruct args as [|[] [|[] []]]; try done. destruct (deposit s4 site rep) as [inv|] eqn:Ed; [|done].
    intros (E1 & _ & E2 & _)%settled_node_done. unfold deposit in Ed. rewrite E1.
    destruct (cell_put site 0 rep s4) as [s5 [[]|t|]] eqn:Ep; [| |done]; injection Ed as <-; cbn in *; [|done].
    by eapply (course_op _ _ n k (SPut site 0 rep)).
  - intros (E1 & _ & E2 & _)%settled_node_done. rewrite E1.
    match type of E2 with ir_result (?f ?s ?c) = _ => destruct (engine_ran (backend := f) s c) as (ops & Hg & Hs & Hr) end.
    rewrite Hs. eapply course_runs; [done|exact Hg|]. apply answered_runs. by eapply Hr.
Qed.

Context {Env : Type} (entry : BatchTx NodeCall Env) (Hfits : job_fits (bt_job entry)).

Lemma walk_node_course index call w w' :
  Z.of_nat index ≤ u32_max → Z.of_nat (length (nc_outputs call)) ≤ u32_max → on_course index 0 (ws_session w) →
  walk_node backend entry index call w = WDone w' → on_course (S index) 0 (ws_session w').
Proof.
  intros Hi Ho Hc. unfold walk_node. assert (Hnode : u32_or_max index = index) by (unfold u32_or_max; by rewrite decide_True by lia).
  rewrite Hnode. destruct (plan_runs _ _); cbn [negb].
  - destruct (ceiling entry index), (event_bound entry index); try done.
    destruct (invoke_node _ _ _ _ _ _ _) as [ran| |] eqn:Er; [|done..]. cbn [mbind walked_bind].
    destruct (departing _ _ _ _ _) as [[s2 kept]| |] eqn:Ed; [|done..]. cbn [mbind walked_bind]. intros [= <-]. cbn.
    pose proof (invoke_node_course _ _ _ _ _ _ _ _ _ Hc Er) as Hc1.
    assert (Hlen : length (ns_edges ran) = length (nc_outputs call)).
    { unfold invoke_node in Er. destruct (gated _ _ _); [|done..]. cbn [mbind walked_bind] in Er.
      destruct (edge_bounds_hold _ _ _ _); [|done..]. cbn [mbind walked_bind] in Er.
      destruct (assemble _ _ _ _) as [[s3 args]| |]; [|done..]. cbn [mbind walked_bind] in Er. destruct (decide _).
      - destruct args as [|[] [|[] []]]; try done. destruct (deposit _ _ _); [|done]. by apply settled_node_done in Er as (_ & _ & _ & ? & _).
      - by apply settled_node_done in Er as (_ & _ & _ & ? & _). }
    apply (course_next _ _ _ (0 + length (ns_edges ran))). eapply departing_course; [rewrite Hlen; cbn; lia| |exact Ed].
    by eapply (course_op _ _ index 0 SLeave).
  - destruct (claimed_outputs _ _ _ _) as [[s2 taken]| |] eqn:Ec; [|done..]. cbn [mbind walked_bind]. intros [= <-]. cbn.
    apply (course_next _ _ _ 0). eapply claimed_course; [apply Hfits|exact Hc|exact Ec].
Qed.
Lemma walk_from_course index calls w s answers spent :
  Z.of_nat (index + length calls) ≤ u32_max → Forall (λ call, Z.of_nat (length (nc_outputs call)) ≤ u32_max) calls →
  on_course index 0 (ws_session w) → walk_from backend entry index calls w = Some (Ok (RunResult.Completed s answers spent)) →
  on_course (index + length calls) 0 s.
Proof.
  revert index w. induction calls as [|call calls IH]; intros index w Hl Ho Hc; cbn [walk_from length].
  { intros [= <- <- <-]. by rewrite Nat.add_0_r. }
  apply Forall_cons in Ho as [Ho1 Ho2]. cbn [length] in Hl.
  destruct (walk_node _ _ _ _ _) as [w'|f|] eqn:Ew; [|by destruct f|done]. rewrite <- Nat.add_succ_comm in *.
  apply IH; [done..|]. eapply walk_node_course; [lia|done|exact Hc|exact Ew].
Qed.
End stages.

(** ** What a walk reports *)

(** The nodes that answer: the ones run here whose method promises an answer. *)
Fixpoint answering (legs : LegPlan) (index : nat) (calls : list NodeCall) : list Z :=
  match calls with
  | [] => []
  | call :: calls => (if plan_runs legs index && nc_answers call then [Z.of_nat index] else []) ++ answering legs (S index) calls
  end.

Section reports.
Context {B : Type} `{Baseline B} (backend : GuestBackend (B := B)) {Env : Type} (entry : BatchTx NodeCall Env).
Abbreviation legs := (job_legs (bt_job entry)).

(** How a failed node ends: never as a completion, and never as value unconserved,
    which only closing the account decides. *)
Definition fails_as {A} (P : Outcome → Prop) (m : walked (B := B) A) : Prop :=
  match m with WFailed (NodeAbort _ outcome _) => P outcome | _ => True end.
Definition failing (outcome : Outcome) : Prop := is_completed outcome = false ∧ outcome ≠ Outcome.ProtocolError Abort.ValueNotConserved.
Lemma fails_bind {A C} P (m : walked (B := B) A) (f : A → walked (B := B) C) :
  fails_as P m → (∀ x, m = WDone x → fails_as P (f x)) → fails_as P (m ≫= f).
Proof. destruct m as [x|[]|]; cbn; auto. Qed.

Lemma judge_requires_fails evidence node rules st : fails_as failing (judge_requires (B := B) evidence node rules st).
Proof.
  revert st. induction rules as [|r rules IH]; intros st; [done|]. cbn [judge_requires].
  destruct (satisfies evidence r st) as [st' [[]|t|]]; done || apply IH.
Qed.
Lemma edge_bounds_fails node outputs edges s : fails_as failing (edge_bounds (B := B) node outputs edges s).
Proof.
  induction edges as [|e edges IH]; [done|]. cbn [edge_bounds]. destruct (edge_at _ _ _); [|done].
  destruct (b_get _ _); try done. by destruct (bounds_admit _ _).
Qed.
Lemma claimed_fails n ls outputs slot s : fails_as failing (claimed_from (B := B) n ls outputs slot s).
Proof.
  revert slot s. induction outputs as [|x outputs IH]; intros slot s; [done|]. cbn [claimed_from].
  destruct (plan_arrival _ _ _) as [arrival|]; [destruct (escrow_in arrival s) as [s1 [rep|t|]]; try done|];
    (apply fails_bind; [apply IH|done]).
Qed.
Lemma departing_fails n ls produced slot consumed s : fails_as failing (departing_from (B := B) n ls produced slot consumed s).
Proof.
  revert slot s. induction produced as [|x produced IH]; intros slot s; [done|]. cbn [departing_from].
  destruct (plan_departure _ _ _) as [d|]; [destruct (escrow_out _ _ _ d s) as [s1 [c|t|]]; try done|].
  - apply fails_bind; [apply IH|done].
  - by destruct t.
  - apply fails_bind; [apply IH|done].
Qed.
Lemma assemble_fails outputs args s acc : fails_as failing (assemble (B := B) outputs args s acc).
Proof.
  revert s acc. induction args as [|arg args IH]; intros s acc; [done|]. destruct arg; cbn [assemble]; try apply IH.
  - destruct (existsb _ _); [done|]. destruct (bind_site entries s) as [s1 [site|t|]]; done || apply IH.
  - destruct (edge_at _ _ _); [apply IH|done].
Qed.
Lemma settled_node_fails node call invoked : fails_as failing (settled_node (B := B) node call invoked).
Proof.
  unfold settled_node, user_abort. destruct (ir_result invoked) as [reps answer|code|reason|reason].
  - destruct (decide _); [|done]. destruct (edges_disagree _ _ _) as [[]| |]; try done. destruct (decide _); [done|].
    destruct answer; [|done]. by destruct (decide _).
  - by destruct (decide _).
  - destruct reason; try done. by destruct (lost_floor _) as [[]|].
  - done.
Qed.
Lemma invoke_node_fails node call outputs budget events s : fails_as failing (invoke_node backend node call outputs budget events s).
Proof.
  unfold invoke_node. apply fails_bind; [apply judge_requires_fails|]. intros s1 _. apply fails_bind; [apply edge_bounds_fails|].
  intros s2 _. cbv zeta. apply fails_bind; [apply assemble_fails|]. intros [s3 args] _. destruct (decide _); [|apply settled_node_fails].
  destruct args as [|[] [|[] []]]; try done. destruct (deposit _ _ _); [apply settled_node_fails|done].
Qed.
Lemma walk_node_fails index call w : fails_as failing (walk_node backend entry index call w).
Proof.
  unfold walk_node. destruct (negb _); [apply fails_bind; [apply claimed_fails|done]|].
  destruct (ceiling entry index), (event_bound entry index); try done.
  apply fails_bind; [apply invoke_node_fails|]. intros r _. apply fails_bind; [apply departing_fails|done].
Qed.

Lemma invoke_node_settles node call outputs budget events s r :
  invoke_node backend node call outputs budget events s = WDone r → ∃ invoked, settled_node (Z.of_nat node) call invoked = WDone r.
Proof.
  unfold invoke_node. destruct (gated _ _ _); [|done..]. cbn [mbind walked_bind].
  destruct (edge_bounds_hold _ _ _ _); [|done..]. cbn [mbind walked_bind].
  destruct (assemble _ _ _ _) as [[s3 args]| |]; [|done..]. cbn [mbind walked_bind]. destruct (decide _); [|by eexists].
  destruct args as [|[] [|[] []]]; try done. destruct (deposit _ _ _); [by eexists|done].
Qed.
(** What one node adds to the report. *)
Lemma walk_node_reports index call w w' :
  Z.of_nat index ≤ u32_max → walk_node backend entry index call w = WDone w' →
  ∃ fuel answers, ws_spent w' = ws_spent w ++ [fuel] ∧ ws_answers w' = ws_answers w ++ answers ∧
    (plan_runs legs index = false → fuel = 0) ∧
    a_node <$> answers = (if plan_runs legs index && nc_answers call then [Z.of_nat index] else []) ∧
    Forall (λ an, (length (a_value an) ≤ MAX_ANSWER_BYTES)%nat) answers.
Proof.
  intros Hi. unfold walk_node. assert (Hnode : u32_or_max index = index) by (unfold u32_or_max; by rewrite decide_True by lia).
  rewrite Hnode. destruct (plan_runs legs index); cbn [negb].
  - destruct (ceiling entry index), (event_bound entry index); try done.
    destruct (invoke_node _ _ _ _ _ _ _) as [ran| |] eqn:Er; [|done..]. cbn [mbind walked_bind].
    destruct (departing _ _ _ _ _) as [[s2 kept]| |]; [|done..]. cbn [mbind walked_bind]. intros [= <-]. cbn.
    apply invoke_node_settles in Er as (inv & (_ & _ & _ & _ & _ & Ha & Hv)%settled_node_done).
    do 2 eexists. split; [done|]. split; [done|]. split; [done|]. rewrite <- Ha. destruct (ns_answer ran) as [v|]; cbn.
    + split; [done|]. constructor; [by apply Hv|done].
    + done.
  - destruct (claimed_outputs _ _ _ _) as [[s2 taken]| |]; [|done..]. cbn [mbind walked_bind]. intros [= <-]. cbn.
    exists 0, []. by rewrite app_nil_r.
Qed.
(** What is attempted is reported: one figure per node. *)
Definition reports (index : nat) (calls : list NodeCall) (w : WalkState (B := B)) (r : RunResult B) : Prop :=
  match r with
  | RunResult.Completed _ answers spent => ∃ fuels more,
      spent = ws_spent w ++ fuels ∧ answers = ws_answers w ++ more ∧ length fuels = length calls ∧
      (∀ i fuel, fuels !! i = Some fuel → plan_runs legs (index + i) = false → fuel = 0) ∧
      a_node <$> more = answering legs index calls ∧ Forall (λ an, (length (a_value an) ≤ MAX_ANSWER_BYTES)%nat) more
  | RunResult.Aborted _ outcome spent => ∃ fuels, spent = ws_spent w ++ fuels ∧ (0 < length fuels ≤ length calls)%nat ∧ failing outcome
  end.
Lemma walk_from_reports index calls w r :
  Z.of_nat (index + length calls) ≤ u32_max → walk_from backend entry index calls w = Some (Ok r) → reports index calls w r.
Proof.
  revert index w. induction calls as [|call calls IH]; intros index w Hl; cbn [walk_from length].
  { intros [= <-]. exists [], []. rewrite !app_nil_r. by split_and!. }
  cbn [length] in Hl. pose proof (walk_node_fails index call w) as Hf.
  destruct (walk_node _ _ _ _ _) as [w'|f|] eqn:Ew; [| |done].
  - intros E. apply IH in E; [|lia]. destruct (walk_node_reports index call w w') as (fuel & an & E1 & E2 & E3 & E4 & E5); [lia|done|].
    destruct r as [s answers spent|s outcome spent]; cbn in *.
    + destruct E as (fuels & more & -> & -> & Hn & H0f & Hm & Hv). exists (fuel :: fuels), (an ++ more).
      rewrite E1, E2, <- !app_assoc. cbn [length]. split_and!; [done..|congruence| | |by apply Forall_app].
      * intros [|i] x; cbn; [intros [= ->]; by rewrite Nat.add_0_r|]. intros Hx. rewrite <- Nat.add_succ_comm. by eapply H0f.
      * rewrite fmap_app. congruence.
    + destruct E as (fuels & -> & Hn & Ho). exists (fuel :: fuels). rewrite E1, <- app_assoc. cbn [length]. split_and!; [done|lia|lia|apply Ho..].
  - destruct f as [s outcome fuel|package reason]; [|done]. intros [= <-]. exists [fuel]. cbn. split_and!; [done|lia|lia|apply Hf..].
Qed.

(** A walk reports every node it attempted. A completed walk reports one fuel figure per node of the manifest, zero
    for a node another shard runs, and an answer from exactly the nodes run here whose declaration promises one, in node
    order and each within the cap; an aborted one reports the nodes up to the one that ended it, which it counts once,
    and ends neither as a completion nor as value unconserved. *)
Theorem walk_reports s r :
  Z.of_nat (length (job_calls (bt_job entry))) ≤ u32_max → walk_run backend entry s = Some (Ok r) →
  match r with
  | RunResult.Completed _ answers spent =>
      length spent = length (job_calls (bt_job entry)) ∧
      (∀ i fuel, spent !! i = Some fuel → plan_runs legs i = false → fuel = 0) ∧
      a_node <$> answers = answering legs 0 (job_calls (bt_job entry)) ∧
      Forall (λ an, (length (a_value an) ≤ MAX_ANSWER_BYTES)%nat) answers
  | RunResult.Aborted _ outcome spent => (0 < length spent ≤ length (job_calls (bt_job entry)))%nat ∧
      is_completed outcome = false ∧ outcome ≠ Outcome.ProtocolError Abort.ValueNotConserved
  end.
Proof.
  intros Hl E. apply walk_from_reports in E; [|done]. destruct r; cbn in E.
  - destruct E as (fuels & more & -> & -> & H1 & H2 & H3 & H4). by split_and!.
  - destruct E as (fuels & -> & H1 & H2). by split.
Qed.
End reports.

(** ** What a walk leaves beneath it *)

Section beneath.
Context {B : Type} `{Baseline B} (backend : GuestBackend (B := B)) `{!Engine backend} {Env : Type} (entry : BatchTx NodeCall Env).
Implicit Types (s : KernelSession B).

(** However a step of the walk ends, the layers beneath its transaction are [v]. *)
Definition lands {A} (session_of : A → KernelSession B) (v : B * Layer) (m : walked A) : Prop :=
  match m with
  | WDone x => beneath (session_of x) = v
  | WFailed (NodeAbort s _ _) => beneath s = v
  | _ => True
  end.
Lemma lands_bind {A C} (g : A → KernelSession B) (h : C → KernelSession B) v (m : walked A) (f : A → walked C) :
  lands g v m → (∀ x, beneath (g x) = v → lands h v (f x)) → lands h v (m ≫= f).
Proof. destruct m as [x|[]|]; cbn; auto. Qed.
Lemma run_beneath op s : beneath (run_session_op op s).1 = beneath s.
Proof. apply op_beneath. Qed.
Lemma done_beneath {A} op (m : M (KernelSession B) A) s s' x : run_session_op op = void m → m s = (s', x) → beneath s' = beneath s.
Proof.
  intros Hop E. rewrite <- (run_beneath op s), Hop. unfold void. rewrite M_bind_run, E. by destruct x.
Qed.

Lemma gated_lands call node s : lands id (beneath s) (gated call node s).
Proof.
  unfold gated. destruct (judge_requires_spec (nc_evidence call) node (nc_requires call) (s, ∅)) as (o & So & ->); [apply map_Forall_empty|].
  assert (Hb : beneath (set_store o s) = beneath s).
  { unfold same_state, clear_log in So. injection So as E1 E2 E3. unfold beneath. cbn. congruence. }
  destruct (head _) as [r|]; [by destruct (gate_rule _ _ r)|done].
Qed.
Lemma edge_bounds_lands node outputs edges s : lands id (beneath s) (edge_bounds node outputs edges s).
Proof.
  induction edges as [|e edges IH]; [done|]. cbn [edge_bounds]. destruct (edge_at _ _ _); [|done].
  destruct (b_get _ _); try done. by destruct (bounds_admit _ _).
Qed.
Lemma claimed_lands n legs outputs slot s : lands fst (beneath s) (claimed_from n legs outputs slot s).
Proof.
  revert slot s. induction outputs as [|x outputs IH]; intros slot s; [done|]. cbn [claimed_from].
  destruct (plan_arrival _ _ _) as [arrival|]; [|by eapply lands_bind; [apply IH|]].
  destruct (escrow_in arrival s) as [s1 r] eqn:E. apply (done_beneath (SEscrowIn arrival) _ _ _ _ eq_refl) in E.
  rewrite <- E. destruct r; try done. by eapply lands_bind; [apply IH|].
Qed.
Lemma departing_lands n legs produced slot consumed s : lands fst (beneath s) (departing_from n legs produced slot consumed s).
Proof.
  revert slot s. induction produced as [|rep produced IH]; intros slot s; [done|]. cbn [departing_from].
  destruct (plan_departure _ _ _) as [d|]; [|by eapply lands_bind; [apply IH|]].
  destruct (escrow_out _ _ _ d s) as [s1 r] eqn:E. apply (done_beneath (SEscrowOut n (u32_or_max slot) rep d) _ _ _ _ eq_refl) in E.
  rewrite <- E. destruct r; try done. by eapply lands_bind; [apply IH|].
Qed.
Lemma assemble_lands outputs args s acc : lands fst (beneath s) (assemble outputs args s acc).
Proof.
  revert s acc. induction args as [|arg args IH]; intros s acc; [done|]. destruct arg; cbn [assemble]; try apply IH.
  - destruct (existsb _ _); [done|]. destruct (bind_site entries s) as [s1 r] eqn:E.
    apply (done_beneath (SBind entries) _ _ _ _ eq_refl) in E. rewrite <- E. destruct r; done || apply IH.
  - destruct (edge_at _ _ _) as [rep|]; [|done]. apply (IH (lend_bucket rep s).1).
Qed.
Lemma settled_node_lands node call (invoked : InvokeResult (B := B)) : lands ns_session (beneath (ir_session invoked)) (settled_node node call invoked).
Proof.
  unfold settled_node, user_abort. destruct (ir_result invoked) as [reps answer|code|reason|reason].
  - destruct (decide _); [|done]. destruct (edges_disagree _ _ _) as [[]| |]; try done. destruct (decide _); [done|].
    destruct answer; [|done]. by destruct (decide _).
  - by destruct (decide _).
  - by destruct reason.
  - done.
Qed.
Lemma after_beneath ops s : beneath (after_ops ops s) = beneath s.
Proof. revert s. induction ops as [|op ops IH]; intros s; [done|]. cbn [after_ops]. by rewrite IH, run_beneath. Qed.
Lemma invoke_node_lands node call outputs budget events s :
  lands ns_session (beneath s) (invoke_node backend node call outputs budget events s).
Proof.
  unfold invoke_node. eapply lands_bind; [apply gated_lands|]. intros s1 <-. eapply lands_bind; [apply edge_bounds_lands|].
  intros s2 <-. cbv zeta. eapply lands_bind; [apply (assemble_lands _ _ (enter_invocation (nc_target call) events s2).1)|].
  intros [s3 args]. cbn [fst id]. intros E3. change (beneath s3 = beneath s2) in E3. rewrite <- E3. clear E3.
  change (beneath s3) with (beneath (grant_issuance (nc_issues call) s3).1). destruct (decide _).
  - destruct args as [|[] [|[] []]]; try done. destruct (deposit _ _ _) as [inv|] eqn:Ed; [|done].
    replace (beneath (grant_issuance (nc_issues call) s3).1) with (beneath (ir_session inv)); [apply settled_node_lands|].
    unfold deposit in Ed. destruct (cell_put site 0 rep _) as [s5 r] eqn:Ep.
    rewrite <- (run_beneath (SPut site 0 rep) (grant_issuance (nc_issues call) s3).1). cbn [run_session_op]. rewrite Ep. destruct r; [by injection Ed as <-..|done].
  - match goal with |- context [backend ?t ?c] => destruct (engine_ran (backend := backend) t c) as (ops & _ & Hs & _) end.
    apply (f_equal beneath) in Hs. rewrite after_beneath in Hs. rewrite <- Hs. apply settled_node_lands.
Qed.
Lemma walk_node_lands index call w : lands ws_session (beneath (ws_session w)) (walk_node backend entry index call w).
Proof.
  unfold walk_node. destruct (negb _); [eapply lands_bind; [apply claimed_lands|done]|].
  destruct (ceiling entry index), (event_bound entry index); try done.
  eapply lands_bind; [apply invoke_node_lands|]. intros r <-. change (beneath (ns_session r)) with (beneath (leave_invocation (ns_session r)).1).
  eapply lands_bind; [apply departing_lands|done].
Qed.
Lemma walk_from_lands index calls w r : walk_from backend entry index calls w = Some (Ok r) →
  beneath match r with RunResult.Completed s _ _ | RunResult.Aborted s _ _ => s end = beneath (ws_session w).
Proof.
  revert index w. induction calls as [|call calls IH]; intros index w; cbn [walk_from]; [by intros [= <-]|].
  pose proof (walk_node_lands index call w) as Hw. destruct (walk_node _ _ _ _ _) as [w'|[s o f|]|]; [|by intros [= <-]|done..].
  cbn in Hw. rewrite <- Hw. apply IH.
Qed.
End beneath.

(** ** A walk over the sample store *)

(** An engine whose every export takes four from its first site and returns it. *)
Definition taking_engine {B} `{Baseline B} : GuestBackend (B := B) := λ s call,
  match gc_args call with
  | GuestArg.Site site :: _ =>
      match cell_take site 0 4 s with
      | (s, Done rep) => {| ir_session := s; ir_fuel := 5; ir_result := Invoked.Produced [rep] None |}
      | (s, Trapped t) => {| ir_session := s; ir_fuel := 5; ir_result := Invoked.Aborted (trap_reason t) |}
      | (s, Capability.Panicked) => {| ir_session := s; ir_fuel := 5; ir_result := Invoked.Aborted Abort.Unreachable |}
      end
  | _ => {| ir_session := s; ir_fuel := 0; ir_result := Invoked.Declined 0 |}
  end.
#[global] Instance taking_engine_ok {B} `{Baseline B} : Engine (taking_engine (B := B)).
Proof.
  intros s call. unfold taking_engine. destruct (gc_args call) as [|[] args]; try (exists []; done).
  exists [STake site 0 4]. split; [by constructor|]. cbn [after_ops answered run_session_op]. unfold void. rewrite M_bind_run.
  destruct (cell_take site 0 4 s) as [s' [rep|t|]]; cbn; [|done..]. split; [done|]. intros _ _ _. split_and!; [unfold in_width, width_max; lia|done..].
Qed.

(** Two nodes: four out of the vault, and the kernel's deposit of it into the purse. *)
Definition withdraw_node : NodeCall := {|
  nc_package := 1; nc_target := 258; nc_export := []; nc_args := [CallArg.Site [Some 0%nat]]; nc_edges := [];
  nc_outputs := [EdgeContent.Fungible]; nc_answers := false; nc_issues := []; nc_evidence := [sample_claim 3];
  nc_requires := [Require (JudgedLeaf.Claimed (sample_claim 3))]; nc_body := Guest |}.
Definition deposit_node : NodeCall := {|
  nc_package := 1; nc_target := 258; nc_export := []; nc_args := [CallArg.Site [Some 2%nat]; CallArg.Bucket 0 0];
  nc_edges := [{| eb_source := 0; eb_output := 0; eb_param := 1; eb_bounds := {| bound_min := Some 4; bound_max := Some 4 |} |}];
  nc_outputs := []; nc_answers := false; nc_issues := []; nc_evidence := []; nc_requires := []; nc_body := Deposit |}.
Definition walking_tx (t : TxHash) : BatchTx NodeCall () := {|
  bt_tx := t; bt_declaration := opening_declaration;
  bt_job := {| job_calls := [withdraw_node; deposit_node]; job_legs := plan_whole 2 |}; bt_nullifiers := [];
  bt_fee := opening_fee; bt_credits_withheld := false; bt_applies := owners_whole; bt_judges := owners_whole; bt_env := ();
  bt_gas_limits := []; bt_event_bytes := [] |}.
Definition spent_by {B} `{Baseline B} (r : option (result (Unavailable PackageHash) (RunResult B))) : option (list Z) :=
  match r with Some (Ok (RunResult.Completed _ _ spent)) => Some spent | _ => None end.

Lemma spent_by_completed {B} `{Baseline B} (r : option (result (Unavailable PackageHash) (RunResult B))) fuels :
  spent_by r = Some fuels → ∃ s answers, r = Some (Ok (RunResult.Completed s answers fuels)).
Proof. destruct r as [[[s answers spent|s out spent]|u]|]; [|discriminate..]. intros [= ->]. by exists s, answers. Qed.
Lemma walking_completes : ∃ s answers,
  walk_run taking_engine (walking_tx 1) configured_sample = Some (Ok (RunResult.Completed s answers [5; 0])).
Proof. apply spent_by_completed. vm_compute. reflexivity. Qed.
Lemma walking_short t : Z.of_nat (length (job_calls (bt_job (walking_tx t)))) ≤ u32_max.
Proof. vm_compute. discriminate. Qed.

Lemma walk_reports_witness : ∃ s answers,
  walk_run taking_engine (walking_tx 1) configured_sample = Some (Ok (RunResult.Completed s answers [5; 0])) ∧
  a_node <$> answers = [].
Proof.
  destruct walking_completes as (s & answers & E). exists s, answers. split; [exact E|].
  exact (proj1 (proj2 (proj2 (walk_reports taking_engine (walking_tx 1) configured_sample
    (RunResult.Completed s answers [5; 0]) (walking_short 1) E)))).
Defined.
