(* ===== verification/Pipeline.v ===== *)
(** * A batch, end to end

    The executor with the manifest walk as its runner: a batch of transactions over
    a baseline, each materialized, walked over any engine that reaches sessions only
    through the host's operations, finished and applied. What the parts promise each
    other is composed here into what a batch promises its caller. *)

From S2P Require Import Prelude WideMath Types Effects Conflict Modes Hbor Cells Writes Ledger Store Overlay Groups Capability Outcomes Rules Values Buckets Supply Session Seals Conservation Receipt Closing Legs Locality Materialize Executor Walk.

Section members.
Context {B : Type} `{Baseline B} (backend : GuestBackend (B := OverlayStore B)) `{!Engine backend} {Env : Type}.
Abbreviation TxEntry := (BatchTx NodeCall Env).
Abbreviation Group := (OverlayStore (OverlayStore B)).
Implicit Types (entry : TxEntry) (o : Group).

(** What a batch entry's own builders establish: an assembled declaration, a fee of
    a [u128] amount, and a job of [u32] positions. *)
Record entry_ok entry : Prop := {
  eo_assembled : assembled (bt_declaration entry);
  eo_ordered : Z.of_nat (length (dc_ordered (bt_declaration entry))) ≤ u32_max;
  eo_fee : ∀ f, bt_fee entry = Some f → 0 ≤ f_amount f;
  eo_job : job_fits (bt_job entry);
}.

(** The session the walk of an entry starts from. *)
Definition opened_for entry (s : KernelSession (OverlayStore B)) : KernelSession (OverlayStore B) :=
  configured (covers (bt_applies entry)) (bt_nullifiers entry) (bt_fee entry) (bt_credits_withheld entry) s.
(** Some walk of the entry over some store closes with more of a resource on one
    side of its account than [u128] holds. *)
Definition overflows entry : Prop := ∃ o m s answers spent r,
  materialize_within o (bt_declaration entry) (bt_tx entry) (covers (bt_judges entry)) = Ok m ∧
  walk_run backend entry (opened_for entry m) = Some (Ok (RunResult.Completed s answers spent)) ∧
  (width_max 128 < gained s r + fee_share (fixed s) r ∨ width_max 128 < lost s r + fee_share (fixed s) r).

Definition unconserved_receipt (r : Receipt) : Prop := r_outcome r = Outcome.ProtocolError Abort.ValueNotConserved.
#[global] Instance unconserved_receipt_dec r : Decision (unconserved_receipt r).
Proof.
  unfold unconserved_receipt. destruct (r_outcome r) as [| | | |reason| | | | | |]; try (right; discriminate).
  destruct (decide (reason = Abort.ValueNotConserved)) as [->|Hn]; [by left|right; congruence].
Defined.

Lemma find_outcome_of {A} (test : A → option bool) l f out : find_outcome test l f = Some (Some out) → ∃ x, out = f x.
Proof. unfold find_outcome. destruct (find_first test l) as [[x|]|]; [|done..]. intros [= <-]. by exists x. Qed.
Lemma standing_marker_outcome entry o out :
  standing_marker entry o = Some (Some out) → out ≠ Outcome.ProtocolError Abort.ValueNotConserved.
Proof.
  unfold standing_marker, or_else_stop. intros E.
  repeat match type of E with
    | match ?x with _ => _ end = _ => destruct x as [[]|] eqn:?
    end; simplify_eq; repeat match goal with F : find_outcome _ _ _ = Some (Some _) |- _ => apply find_outcome_of in F as [? ->] end; done.
Qed.
Lemma materialize_outcome_not defect : materialize_outcome defect ≠ Outcome.ProtocolError Abort.ValueNotConserved.
Proof. destruct defect as [| |e| | | | | | | |]; try done. destruct e as [| | |m]; try done. by destruct m. Qed.
Lemma discard_fresh (s s1 : KernelSession (OverlayStore B)) :
  beneath s1 = beneath s → l_pending (committed (store s)) = ∅ → base (discard s1) = base (store s) ∧ fresh (discard s1).
Proof. unfold beneath, fresh. intros [= E1 E2] Hp. cbn. by rewrite E1, E2. Qed.

(** One member's turn: the group's store is handed on as a transaction finds it, and
    value is reported unconserved only where it does not fit. *)
Lemma run_member_ok a entry o receipt o' :
  entry_ok entry → base_agree (base o) a → small_collections a → fresh o →
  run_member (walk_run backend) entry o = Ok (receipt, o') →
  base o' = base o ∧ fresh o' ∧ (unconserved_receipt receipt → overflows entry).
Proof.
  intros [Ha Hl Hf Hj] Hb Hs Hfr. unfold run_member. destruct (standing_marker entry o) as [[out|]|] eqn:Em; [|clear Em|done].
  { intros [= <- <-]. split_and!; [done..|]. intros Hu. by apply standing_marker_outcome in Em. }
  destruct (materialize_within _ _ _ _) as [m|defect] eqn:Emat.
  2: { intros [= <- <-]. split_and!; [done..|]. intros Hu. by apply materialize_outcome_not in Hu. }
  destruct (materialized_session a o (bt_declaration entry) (bt_tx entry) (covers (bt_judges entry)) m) as (H1 & H2 & H3 & _); try done.
  pose proof (ho_base _ _ (materialized_held_only _ _ _ _ _ Emat)) as Hbase.
  assert (Hesc : issued_at (escrow m) = ∅) by (by apply materialize_inv in Emat as (? & ? & ? & ? & ? & _ & _ & _ & _ & _ & _ & ->)).
  destruct (configured_ok a (covers (bt_applies entry)) (bt_nullifiers entry) (bt_fee entry) (bt_credits_withheld entry) m H1 H2 Hf) as (K1 & K2 & K3).
  fold (opened_for entry m) in *. set (s0 := opened_for entry m) in *.
  change (match walk_run backend entry s0 with
    | None => Err Executor.Panicked
    | Some (Err u) => Err (Refused (BatchErr.Unavailable (bt_tx entry) (un_package u) (un_reason u)))
    | Some (Ok (RunResult.Completed session answers spent)) =>
        match finish session answers spent with
        | Finished receipt threaded => Ok (receipt, threaded)
        | FinishFailed source => Err (Refused (BatchErr.Finish (bt_tx entry) source))
        | FinishPanicked => Err Executor.Panicked
        end
    | Some (Ok (RunResult.Aborted session outcome spent)) => Ok (abort_receipt outcome spent, discard session)
    end = Ok (receipt, o') → base o' = base o ∧ fresh o' ∧ (unconserved_receipt receipt → overflows entry)).
  destruct (walk_run backend entry s0) as [[[s answers spent|s outcome spent]|u]|] eqn:Ew; [| |done..].
  - destruct (finish s answers spent) as [rc th| |] eqn:Efin; [|done..]. intros [= <- <-].
    pose proof (walk_from_lands backend entry _ _ _ _ Ew) as Hland. cbn in Hland. unfold beneath in Hland. injection Hland as L1 L2.
    assert (Hcourse : on_course a s0 (0 + length (job_calls (bt_job entry))) 0 s).
    { eapply walk_from_course; [done|apply Hj|apply Hj|apply Hj| |exact Ew]. split; [|unfold issued_within; cbn; rewrite Hesc; apply map_Forall_empty].
      split; [done|done|intros r; cbn; rewrite K3; apply H3|done]. }
    destruct Hcourse as [[S1 S2 S3 S4] _].
    destruct (finish_threads s answers spent rc th (rd_clean _ S2) Efin) as (T1 & T2 & T3).
    split_and!; [by rewrite T1, L1|split_and!; [done|by rewrite T2..]|]. intros Hu.
    destruct (zero_account_overflows a s answers spent rc th S1 S2 S3 Efin Hu) as [r Hr]. by exists o, m, s, answers, spent, r.
  - intros [= <- <-]. pose proof (walk_from_lands backend entry _ _ _ _ Ew) as Hland. cbn [ws_session] in Hland.
    destruct (discard_fresh s0 s Hland) as [D1 D2]; [apply K2|]. split_and!; [by rewrite D1|done|].
    intros Hu. destruct (walk_from_reports backend entry 0 _ _ _ (jf_nodes _ Hj) Ew) as (_ & _ & _ & _ & Hne). by destruct Hne.
Qed.

(** ** Groups *)

Definition accounted (batch : list TxEntry) (t : TxHash) (r : Receipt) : Prop :=
  unconserved_receipt r → ∃ entry, entry ∈ batch ∧ bt_tx entry = t ∧ overflows entry.
Lemma run_members_ok a batch group o rs :
  Forall entry_ok batch → base_agree (base o) a → small_collections a → fresh o →
  run_members (walk_run backend) batch group o = Ok rs → Forall (λ p, accounted batch p.1 p.2) rs.
Proof.
  intros Hok. revert o rs. induction group as [|index group IH]; intros o rs Hb Hs Hf; [by intros [= <-]|]. cbn [run_members].
  destruct (batch !! index) as [entry|] eqn:Ei; [|done]. cbn [ok_or mbind result_bind].
  destruct (run_member _ entry o) as [[receipt o1]|] eqn:Em; [|done]. cbn [mbind result_bind snd].
  destruct (run_members _ batch group o1) as [rest|] eqn:Er; [|done]. cbn [mbind result_bind]. intros [= <-].
  apply list_elem_of_lookup_2 in Ei. destruct (run_member_ok a entry o receipt o1) as (H1 & H2 & H3); try done.
  { rewrite Forall_forall in Hok. by apply Hok. }
  constructor; [intros Hu; exists entry; cbn; auto|]. by eapply IH; [rewrite H1|..].
Qed.

End members.

(** ** The store a batch's groups share *)

Section batch.
Context {B : Type} `{Baseline B} (backend : GuestBackend (B := OverlayStore B)) `{!Engine backend} {Env : Type}.
Abbreviation TxEntry := (BatchTx NodeCall Env).

Lemma agree_base (o : OverlayStore B) a : agree o a → base_agree o a.
Proof. intros [A1 A2 A3 A4 A5 A6 _]. by split. Qed.
Lemma judged_view b a (judged : OverlayStore B) :
  base_agree b a → small_collections a → held_only (overlay_new b) judged →
  ∃ a', base_agree (merge_active (clear_log judged)) a' ∧ small_collections a'.
Proof.
  intros Hb Hs [H1 H2 H3]. set (o := merge_active (clear_log judged)). exists (overlay_abs o a). split.
  - apply agree_base, overlay_agree; [|done]. by cbn; rewrite H1.
  - intros ow c. unfold set_l_held in H3. injection H3 as F1 F2 F3 F4 F5. specialize (Hs ow c).
    replace (a_entries (overlay_abs o a) ow c) with (a_entries a ow c); [done|].
    unfold overlay_abs, o. cbn. unfold layer_changes. cbn. rewrite F2, H2. cbn. done.
Qed.

Lemma flip_of_fair entries group_of (x : Applying (B := B)) t receipt o out :
  flip_of (Package := PackageHash) (Call := NodeCall) (Env := Env) entries group_of x t receipt = (o, Ok (Some out)) →
  out ≠ Outcome.ProtocolError Abort.ValueNotConserved.
Proof.
  unfold flip_of. destruct (negb _); [done|]. destruct (observed_flip _ _ _ _); [by intros [= _ <-]|].
  destruct (apply_completed _ _ _ _ _ _) as [o1 [[[k x1]|]|e]]; [by intros [= _ <-]|done..].
Qed.
Lemma apply_each_accounted (batch : list TxEntry) entries group_of order (x x' : Applying (B := B)) :
  map_Forall (accounted backend batch) (ap_receipts x) →
  apply_each (Package := PackageHash) (Call := NodeCall) (Env := Env) entries group_of order x = Ok x' →
  map_Forall (accounted backend batch) (ap_receipts x').
Proof.
  revert x. induction order as [|t order IH]; intros x Hx; [by intros [= <-]|]. cbn [apply_each].
  destruct (apply_one entries group_of x t) as [x1|] eqn:E1; [|done]. cbn [mbind result_bind]. apply IH.
  apply apply_one_inv in E1 as (r & o & flip & o2 & _ & Ef & _ & _ & _ & -> & _). destruct flip as [out|]; [|done].
  apply map_Forall_insert_2; [|done]. intros Hu. by apply flip_of_fair in Ef.
Qed.

(** C1: a batch conserves value, end to end. Whatever baseline it runs over and whatever the engine, as long as the
    engine reaches sessions only through the host's operations, no transaction of an executed batch is reported as not
    conserving value, whatever conflict group it ran in and whoever ran before it there, unless some walk of it moves more
    of one resource on one side of its account than [u128] holds. *)
Theorem batch_conserves b a (batch : list TxEntry) out :
  base_agree b a → small_collections a → Forall entry_ok batch → execute_batch (walk_run backend) b batch = Ok out →
  ∀ t r, bo_receipts out !! t = Some r →
  r_outcome r ≠ Outcome.ProtocolError Abort.ValueNotConserved ∨ ∃ entry, entry ∈ batch ∧ bt_tx entry = t ∧ overflows backend entry.
Proof.
  intros Hb Hs Hok E. destruct (execute_inv _ b batch out E) as (judged & runnable & receipts & x & [_ Hj _ Hrun _ Horig Happ ->]).
  destruct (judged_view b a judged Hb Hs Hj) as (a' & Hb' & Hs').
  assert (Hsub : ∀ e, e ∈ runnable → e ∈ batch).
  { intros e He. rewrite <- (merge_sort_Permutation tx_le batch). by eapply elem_of_sublist. }
  enough (Hall : map_Forall (accounted backend batch) (ap_receipts x)).
  { intros t r Hr. destruct (decide (unconserved_receipt r)) as [Hu|Hu]; [right; by apply (Hall t r)|by left]. }
  eapply apply_each_accounted; [|exact Happ]. intros t r Hr.
  destruct (Horig t r Hr) as [(outcome & -> & Ho)|(group & rs & Hg & Hin)]; [intros Hu; cbv in Hu; by subst outcome|].
  eapply (run_members_ok backend a') in Hg; try done.
  - rewrite Forall_forall in Hg. specialize (Hg _ Hin). cbn in Hg. intros Hu. destruct (Hg Hu) as (e & He & Et & Ho). exists e. auto.
  - rewrite Forall_forall in *. auto.
Qed.
End batch.

(** ** A walked batch over the sample store *)

Definition walked_batch : list (BatchTx NodeCall ()) := walking_tx <$> [2; 1].
Definition completed_at (t : TxHash) (r : result (Stop PackageHash) (BatchOutcome (B := MemoryStore))) : bool :=
  match r with
  | Ok out => match bo_receipts out !! t with Some receipt => is_completed (r_outcome receipt) | None => false end
  | Err _ => false
  end.
Lemma completed_at_receipt t r : completed_at t r = true →
  ∃ out receipt, r = Ok out ∧ bo_receipts out !! t = Some receipt ∧ is_completed (r_outcome receipt) = true.
Proof.
  destruct r as [out|]; [|discriminate]. cbn [completed_at]. destruct (bo_receipts out !! t) as [receipt|] eqn:E; [|discriminate].
  intros Hc. by exists out, receipt.
Qed.
Lemma walked_batch_runs : ∃ out receipt, execute_batch (walk_run taking_engine) sample_base walked_batch = Ok out ∧
  bo_receipts out !! 1 = Some receipt ∧ is_completed (r_outcome receipt) = true.
Proof. apply completed_at_receipt. vm_compute. reflexivity. Qed.
Lemma walking_tx_ok t : entry_ok (walking_tx t).
Proof.
  split.
  - exact opening_assembled.
  - vm_compute. discriminate.
  - by intros f [= <-].
  - split; [exact (walking_short t)|apply (bool_decide_unpack _); vm_compute; exact I|done].
Qed.

Lemma batch_conserves_witness : ∃ out r, execute_batch (walk_run taking_engine) sample_base walked_batch = Ok out ∧
  bo_receipts out !! 1 = Some r ∧ is_completed (r_outcome r) = true ∧
  (r_outcome r ≠ Outcome.ProtocolError Abort.ValueNotConserved ∨
   ∃ entry, entry ∈ walked_batch ∧ bt_tx entry = 1 ∧ overflows taking_engine entry).
Proof.
  destruct walked_batch_runs as (out & r & E & Hr & Hc). exists out, r. split; [exact E|]. split; [exact Hr|]. split; [exact Hc|].
  apply (batch_conserves taking_engine sample_base (memory_abs sample_base) walked_batch out).
  - apply memory_base_agree.
  - exact sample_small.
  - apply Forall_fmap, Forall_true. exact walking_tx_ok.
  - exact E.
  - exact Hr.
Defined.
