(* ===== verification/Contracts.v ===== *)
(** * What a contract body is written in ([crates/sdk/src/state.rs])

    The value surface of the SDK as a package's author reads it: a [Bucket] is an amount of one resource in hand, a vault is
    a balance denominated in one resource, an issued resource is a count of what stands minted. A body is a function of
    the package's own state that returns a value with the state it leaves, refuses with one of the package's declared
    errors, or traps; a refusal and a trap commit nothing, so neither carries a state.

    A body that reads a balance declares its vault exclusively, so a movement on it settles at once: taking more than the
    vault holds and crediting past the amount width trap in the call that asks ([Session.cell_take], [Session.cell_put] of
    this development, at an immediate cell). The arithmetic panics of [Numbers] are traps too. *)

From S2P Require Import Prelude Types WideMath Numbers.

(** ** Replies *)

(** Why a body stopped short: a panic of its own arithmetic, or the kernel's refusal of a movement. *)
Inductive Fault :=
  | Panicked (p : Panic)
  | PackagePanic       (* an [expect] of the package's own *)
  | WrongResource      (* a credit in another resource than the vault's, a burn of another than the grant's *)
  | CellUnderflow | CellOverflow
  | BucketUnderflow | BucketOverflow
  | BucketShareAboveOne.
#[global] Instance Fault_eq_dec : EqDecision Fault.
Proof. solve_decision. Defined.

Inductive reply (E A : Type) :=
  | Returned (a : A)
  | Refused (e : E)
  | Trapped (f : Fault).
Arguments Returned {E A} a.
Arguments Refused {E A} e.
Arguments Trapped {E A} f.

Definition Body (S E A : Type) : Type := S → reply E (A * S).
#[global] Instance body_ret {S E} : MRet (Body S E) := λ A a s, Returned (a, s).
#[global] Instance body_bind {S E} : MBind (Body S E) := λ A B f m s,
  match m s with Returned (a, s') => f a s' | Refused e => Refused e | Trapped x => Trapped x end.

Section bodies.
Context {S E : Type}.
Definition reads {A} (f : S → A) : Body S E A := λ s, Returned (f s, s).
Definition writes (f : S → S) : Body S E () := λ s, Returned ((), f s).
Definition refuse {A} (e : E) : Body S E A := λ _, Refused e.
Definition fallible {A} (r : result Fault A) : Body S E A := λ s, match r with Ok a => Returned (a, s) | Err f => Trapped f end.
(** A panic of the arithmetic. *)
Definition computed {A} (r : result Panic A) : Body S E A := fallible (map_err Panicked r).
(** [let Ok(x) = .. else { return Err(e) }]. *)
Definition or_refuse {X A} (r : result X A) (e : E) : Body S E A := match r with Ok a => mret a | Err _ => refuse e end.
Definition some_or_refuse {A} (o : option A) (e : E) : Body S E A := match o with Some a => mret a | None => refuse e end.
Definition refuse_if (b : bool) (e : E) : Body S E () := if b then refuse e else mret ().

Lemma bind_returned {A B} (m : Body S E A) (f : A → Body S E B) s b s' :
  (m ≫= f) s = Returned (b, s') ↔ ∃ a s1, m s = Returned (a, s1) ∧ f a s1 = Returned (b, s').
Proof. unfold mbind, body_bind. destruct (m s) as [[a s1]|e|x]; naive_solver. Qed.
Lemma bind_refused {A B} (m : Body S E A) (f : A → Body S E B) s e :
  (m ≫= f) s = Refused e ↔ m s = Refused e ∨ ∃ a s1, m s = Returned (a, s1) ∧ f a s1 = Refused e.
Proof. unfold mbind, body_bind. destruct (m s) as [[a s1]|e'|x]; naive_solver. Qed.
End bodies.

(** ** Value in hand *)

Record Bucket := { bucket_resource : Address; bucket_quantity : Quantity }.

(** [Bucket::take]: what comes off, and what is left. *)
Definition bucket_take (b : Bucket) (q : Quantity) : result Fault (Bucket * Bucket) :=
  match checked_sub (subunits (bucket_quantity b)) (subunits q) with
  | Some rest => Ok ({| bucket_resource := bucket_resource b; bucket_quantity := q |},
                     {| bucket_resource := bucket_resource b; bucket_quantity := from_subunits rest |})
  | None => Err BucketUnderflow
  end.
(** [Bucket::split]: the kernel refuses a share above one, floors the part and leaves the rest. *)
Definition bucket_split (b : Bucket) (share : Ratio) : result Fault (Bucket * Bucket) :=
  match wide_cmp (num share) (den share) with
  | Gt => Err BucketShareAboveOne
  | _ => part ← map_err Panicked (quantity_scale (bucket_quantity b) share Down); bucket_take b part
  end.
(** [Bucket::split_n]: every share of the whole, in turn; what no share claimed is left. *)
Fixpoint split_each (whole : Quantity) (shares : list Ratio) (b : Bucket) : result Fault (list Bucket * Bucket) :=
  match shares with
  | [] => Ok ([], b)
  | share :: rest =>
      part ← map_err Panicked (quantity_scale whole share Down);
      '(taken, b) ← bucket_take b part;
      '(parts, b) ← split_each whole rest b;
      Ok (taken :: parts, b)
  end.
Definition bucket_split_n (b : Bucket) (shares : list Ratio) : result Fault (list Bucket * Bucket) :=
  split_each (bucket_quantity b) shares b.
(** [Bucket::put]. *)
Definition bucket_put (b other : Bucket) : result Fault Bucket :=
  if decide (bucket_resource b = bucket_resource other)
  then match checked_add 128 (subunits (bucket_quantity b)) (subunits (bucket_quantity other)) with
       | Some total => Ok {| bucket_resource := bucket_resource b; bucket_quantity := from_subunits total |}
       | None => Err BucketOverflow
       end
  else Err WrongResource.

(** ** Vaults, and what an instance issues *)

(** [Slot<Vault>::put] on a vault of [resource] holding [held]. *)
Definition vault_put (resource : Address) (held : Quantity) (funds : Bucket) : result Fault Quantity :=
  if decide (bucket_resource funds = resource)
  then match checked_add 128 (subunits held) (subunits (bucket_quantity funds)) with
       | Some total => Ok (from_subunits total)
       | None => Err CellOverflow
       end
  else Err WrongResource.
(** [Slot<Vault>::take]. *)
Definition vault_take (resource : Address) (held q : Quantity) : result Fault (Bucket * Quantity) :=
  match checked_sub (subunits held) (subunits q) with
  | Some rest => Ok ({| bucket_resource := resource; bucket_quantity := q |}, from_subunits rest)
  | None => Err CellUnderflow
  end.
(** [Name::mint] and [Name::burn] of a resource the instance issues, beside the count of it that stands minted. A body
    here mints at most once, so the per-execution account of minted value cannot overflow and minting does not fail. *)
Definition issue_mint (resource : Address) (issued : Z) (q : Quantity) : Bucket * Z :=
  ({| bucket_resource := resource; bucket_quantity := q |}, issued + subunits q).
Definition issue_burn (resource : Address) (issued : Z) (funds : Bucket) : result Fault Z :=
  if decide (bucket_resource funds = resource) then Ok (issued - subunits (bucket_quantity funds)) else Err WrongResource.

(** ** Running a body *)

Section runs.
Context {S E : Type}.
Implicit Types s : S.
Lemma run_reads {A B} (f : S → A) (k : A → Body S E B) s : (reads f ≫= k) s = k (f s) s.
Proof. done. Qed.
Lemma run_writes {B} (f : S → S) (k : () → Body S E B) s : (writes f ≫= k) s = k () (f s).
Proof. done. Qed.
Lemma run_fallible {A B} (r : result Fault A) (k : A → Body S E B) s :
  (fallible r ≫= k) s = match r with Ok a => k a s | Err f => Trapped f end.
Proof. by destruct r. Qed.
Lemma run_computed {A B} (r : result Panic A) (k : A → Body S E B) s :
  (computed r ≫= k) s = match r with Ok a => k a s | Err p => Trapped (Panicked p) end.
Proof. by destruct r. Qed.
Lemma run_or_refuse {X A B} (r : result X A) e (k : A → Body S E B) s :
  (or_refuse r e ≫= k) s = match r with Ok a => k a s | Err _ => Refused e end.
Proof. by destruct r. Qed.
Lemma run_some_or_refuse {A B} (o : option A) e (k : A → Body S E B) s :
  (some_or_refuse o e ≫= k) s = match o with Some a => k a s | None => Refused e end.
Proof. by destruct o. Qed.
Lemma run_refuse_if {B} b e (k : () → Body S E B) s : (refuse_if b e ≫= k) s = if b then Refused e else k () s.
Proof. by destruct b. Qed.
Lemma run_bind {A B C} (m : Body S E A) (f : A → Body S E B) (k : B → Body S E C) s :
  ((m ≫= f) ≫= k) s = (m ≫= λ a, f a ≫= k) s.
Proof. unfold mbind, body_bind. by destruct (m s) as [[]| |]. Qed.
Lemma run_ret {A B} (a : A) (k : A → Body S E B) s : ((mret a : Body S E A) ≫= k) s = k a s.
Proof. done. Qed.
End runs.

(** Run a body to the first step whose answer is not yet known. *)
Ltac run_body :=
  repeat (rewrite run_bind || rewrite run_reads || rewrite run_writes || rewrite run_fallible || rewrite run_computed
          || rewrite run_or_refuse || rewrite run_some_or_refuse || rewrite run_refuse_if || rewrite run_ret).

Tactic Notation "run_body" "in" hyp(H) :=
  repeat (rewrite run_bind in H || rewrite run_reads in H || rewrite run_writes in H || rewrite run_fallible in H || rewrite run_computed in H
          || rewrite run_or_refuse in H || rewrite run_some_or_refuse in H || rewrite run_refuse_if in H || rewrite run_ret in H).

(** ** What a movement does *)

Definition bucket_ok (b : Bucket) : Prop := quantity_ok (bucket_quantity b).
Definition held (b : Bucket) : Z := subunits (bucket_quantity b).
Definition held_by (parts : list Bucket) : Z := foldr (λ b total, held b + total) 0 parts.

Lemma held_made r x : held {| bucket_resource := r; bucket_quantity := from_subunits x |} = x.
Proof. done. Qed.
Lemma bucket_take_spec b q : bucket_ok b → quantity_ok q →
  match bucket_take b q with
  | Ok (taken, rest) => subunits q ≤ held b ∧ taken = {| bucket_resource := bucket_resource b; bucket_quantity := q |} ∧
      rest = {| bucket_resource := bucket_resource b; bucket_quantity := from_subunits (held b - subunits q) |} ∧ bucket_ok rest
  | Err f => f = BucketUnderflow ∧ held b < subunits q
  end.
Proof.
  intros Hb Hq. unfold bucket_take, held. unfold bucket_ok, quantity_ok, in_width in *.
  destruct (checked_sub _ _) eqn:E; inv_result; subst; cbn [bucket_quantity subunits]; split_and!; (done || lia).
Qed.
(** A division of a bucket by a share of at most one: the floored part and the rest, and never a trap. *)
Lemma bucket_split_spec b s : bucket_ok b → ratio_ok s → wide_val (num s) ≤ wide_val (den s) →
  let part := held b * wide_val (num s) / wide_val (den s) in
  bucket_split b s = Ok ({| bucket_resource := bucket_resource b; bucket_quantity := from_subunits part |},
                         {| bucket_resource := bucket_resource b; bucket_quantity := from_subunits (held b - part) |}) ∧
  0 ≤ part ≤ held b.
Proof.
  intros Hb Hs Hle part. destruct (ratio_bounds s Hs) as [Hn Hd]. unfold bucket_ok, quantity_ok, in_width in Hb. fold (held b) in Hb.
  assert (Hp : 0 ≤ part ≤ held b).
  { subst part. split; [apply Z.div_pos; nia|]. apply Z.div_le_upper_bound; nia. }
  split; [|done]. unfold bucket_split. destruct Hs as (H1 & H2 & H3). rewrite wide_cmp_spec by done.
  assert (Hsc : quantity_scale (bucket_quantity b) s Down = Ok (from_subunits part)) by by apply quantity_scale_share.
  rewrite Hsc. destruct (Z.compare_spec (wide_val (num s)) (wide_val (den s))); [| |lia];
    cbn [map_err mbind result_bind]; unfold bucket_take; cbn [subunits]; fold (held b); unfold checked_sub; rewrite decide_True by lia; done.
Qed.
Lemma vault_put_spec r h b : quantity_ok h → bucket_ok b →
  match vault_put r h b with
  | Ok t => bucket_resource b = r ∧ quantity_ok t ∧ subunits t = subunits h + held b
  | Err f => f = WrongResource ∧ bucket_resource b ≠ r ∨ f = CellOverflow ∧ u128_max < subunits h + held b
  end.
Proof.
  intros Hh Hb. unfold vault_put, held. unfold bucket_ok, quantity_ok, in_width in *. case_decide; [|by left].
  destruct (checked_add _ _ _) eqn:E; inv_result; [|by right]. subst. cbn [subunits]. unfold width_max in *. split_and!; (done || lia).
Qed.
Lemma vault_take_spec r h q : quantity_ok h → quantity_ok q →
  match vault_take r h q with
  | Ok (b, t) => b = {| bucket_resource := r; bucket_quantity := q |} ∧ quantity_ok t ∧ subunits t = subunits h - subunits q
  | Err f => f = CellUnderflow ∧ subunits h < subunits q
  end.
Proof.
  intros Hh Hq. unfold vault_take. unfold quantity_ok, in_width in *.
  destruct (checked_sub _ _) eqn:E; inv_result; [|done]. subst. cbn [subunits]. split_and!; (done || lia).
Qed.

(** Splitting by several shares of the whole conserves: each part is the floor of its own share, whatever the order, and
    what is left is what no share claimed. *)
Lemma split_each_spec whole shares : ∀ b parts rest, quantity_ok whole → Forall ratio_ok shares → bucket_ok b →
  split_each whole shares b = Ok (parts, rest) →
  held b = held_by parts + held rest ∧ bucket_ok rest ∧ bucket_resource rest = bucket_resource b ∧
  Forall2 (λ s p, held p = subunits whole * wide_val (num s) / wide_val (den s) ∧ bucket_resource p = bucket_resource b) shares parts.
Proof.
  induction shares as [|s shares IH]; intros b parts rest Hw Hs Hb; cbn [split_each].
  { intros [= <- <-]. cbn. split; [lia|]. by split_and!. }
  apply Forall_cons in Hs as [Hs Hss]. destruct (quantity_scale whole s Down) as [part|] eqn:Ep; [|done]. cbn [map_err mbind result_bind].
  destruct (quantity_scale_ok _ _ _ _ Hw Hs Ep) as [Hp Vp].
  pose proof (bucket_take_spec b part Hb Hp) as Ht. destruct (bucket_take b part) as [[taken b1]|]; [|done].
  destruct Ht as (Hle & -> & Er & Hb1). cbn [mbind result_bind].
  destruct (split_each whole shares b1) as [[parts1 rest1]|] eqn:E; [|done]. cbn. intros [= <- <-].
  destruct (IH b1 parts1 rest1 Hw Hss Hb1 E) as (Hc & Hr & Hres & Hf). subst b1. cbn [bucket_resource] in Hf, Hres.
  split; [unfold held_by, held in *; cbn [foldr bucket_quantity subunits] in *; lia|]. split; [done|]. split; [done|]. constructor; [|done]. split; [exact Vp|done].
Qed.

(** *** Applying the quotient of two amounts *)

Lemma scale_claim s q o r : quantity_ok s → quantity_ok q → quantity_ok o → quantity_ratio_to q o = Ok r →
  ratio_ok r ∧ 0 < subunits o ∧
  ∀ rounding c, quantity_scale s r rounding = Ok c → quantity_ok c ∧ subunits c = div_round rounding (subunits s * subunits q) (subunits o).
Proof.
  intros Hs Hq Ho E. pose proof (ratio_of_spec _ _ Hq Ho) as H. unfold quantity_ratio_to in E. rewrite E in H.
  destruct H as (Hr & En & Ed). destruct (ratio_bounds r Hr) as [_ Hd]. split; [done|]. split; [lia|].
  intros rounding c Hc. destruct (quantity_scale_ok _ _ _ _ Hs Hr Hc) as [Hok Hv]. rewrite En, Ed in Hv. done.
Qed.
Lemma ratio_refused q o e : quantity_ok q → quantity_ok o → quantity_ratio_to q o = Err e → subunits o = 0.
Proof. intros Hq Ho E. pose proof (ratio_of_spec _ _ Hq Ho) as H. unfold quantity_ratio_to in E. rewrite E in H. by destruct H. Qed.
