(* ===== verification/Pool.v ===== *)
(** * The constant-product pool ([guests/amm/src/lib.rs])

    The pool as its bodies are written: two reserves keyed by the configured pair, the count of claims outstanding, and the
    four entry points. The claim resource is the instance's own; [amm_issued] is the count of it that stands minted, which
    no body reads. The theorems are the ones the comments of the bodies argue from: the product of the reserves never falls
    in a swap, a claim is never worth less because somebody joined or left, and against an outstanding supply neither
    reserve is ever empty. *)

From S2P Require Import Prelude Types WideMath Numbers Contracts.

(** ** Configuration, state, refusals *)

Record Settings := { set_x : Address; set_y : Address; set_fee : UnitFixed }.
Inductive AmmError := SlippageExceeded | EmptyPool | NothingMinted | SelfPaired.
#[global] Instance AmmError_eq_dec : EqDecision AmmError.
Proof. solve_decision. Defined.
Record Amm := { amm_reserves : gmap Address Quantity; amm_supply : Quantity; amm_issued : Z }.

Definition amm_new : Amm := {| amm_reserves := ∅; amm_supply := quantity_ZERO; amm_issued := 0 |}.
Definition reserve_at (a : Amm) (r : Address) : Quantity := default quantity_ZERO (amm_reserves a !! r).
Definition set_reserve (r : Address) (q : Quantity) (a : Amm) : Amm :=
  {| amm_reserves := <[r := q]> (amm_reserves a); amm_supply := amm_supply a; amm_issued := amm_issued a |}.
Definition set_supply (q : Quantity) (a : Amm) : Amm :=
  {| amm_reserves := amm_reserves a; amm_supply := q; amm_issued := amm_issued a |}.
Definition set_issued (n : Z) (a : Amm) : Amm :=
  {| amm_reserves := amm_reserves a; amm_supply := amm_supply a; amm_issued := n |}.

Section pool.
Context (settings : Settings) (share : Address).
Abbreviation Pool := (Body Amm AmmError) (only parsing).

(** [self.reserves.at(r)], and what a body does through it. *)
Definition balance_at (r : Address) : Pool Quantity := reads (λ a, reserve_at a r).
Definition put_at (r : Address) (funds : Bucket) : Pool () :=
  now ← balance_at r; total ← fallible (vault_put r now funds); writes (set_reserve r total).
Definition take_at (r : Address) (q : Quantity) : Pool Bucket :=
  now ← balance_at r; '(b, rest) ← fallible (vault_take r now q); _ ← writes (set_reserve r rest); mret b.
(** [Share::mint] and [Share::burn]. *)
Definition share_mint (q : Quantity) : Pool Bucket :=
  issued ← reads amm_issued; let '(b, total) := issue_mint share issued q in _ ← writes (set_issued total); mret b.
Definition share_burn (funds : Bucket) : Pool () :=
  issued ← reads amm_issued; rest ← fallible (issue_burn share issued funds); writes (set_issued rest).

(** ** Entry points *)

Definition instantiate : Pool () := if decide (set_x settings = set_y settings) then refuse SelfPaired else mret ().

Definition swap (input : Bucket) (min_out : Quantity) : Pool Bucket :=
  let paid := bucket_resource input in
  let sells_x := bool_decide (paid = set_x settings) in
  let sold_side := if sells_x then set_x settings else set_y settings in
  let bought_side := if sells_x then set_y settings else set_x settings in
  x ← balance_at sold_side;
  y ← balance_at bought_side;
  '(traded, fee) ← fallible (bucket_split input (unit_ratio (unit_complement (set_fee settings))));
  let dx := bucket_quantity traded in
  total ← computed (quantity_add x dx);
  portion ← or_refuse (quantity_ratio_to dx total) EmptyPool;
  out ← computed (quantity_scale y portion Down);
  _ ← refuse_if (bool_decide (subunits out < subunits min_out)) SlippageExceeded;
  _ ← put_at sold_side traded;
  _ ← put_at sold_side fee;
  take_at bought_side out.

(** What a deposit mints: the first provider prices the pool, every later one is priced against it. *)
Definition claim_body (x y dx dy supply : Quantity) : Pool Quantity :=
  if quantity_is_zero supply then computed (quantity_geometric_mean dx dy)
  else
    share_x ← or_refuse (quantity_ratio_to dx x) EmptyPool;
    share_y ← or_refuse (quantity_ratio_to dy y) EmptyPool;
    claim_x ← computed (quantity_scale supply share_x Down);
    claim_y ← computed (quantity_scale supply share_y Down);
    mret (quantity_min claim_x claim_y).
Definition add_liquidity (x_side y_side : Bucket) : Pool Bucket :=
  x ← balance_at (set_x settings);
  y ← balance_at (set_y settings);
  let dx := bucket_quantity x_side in
  let dy := bucket_quantity y_side in
  supply ← reads amm_supply;
  minted ← claim_body x y dx dy supply;
  _ ← refuse_if (quantity_is_zero minted) NothingMinted;
  _ ← put_at (set_x settings) x_side;
  _ ← put_at (set_y settings) y_side;
  total ← computed (quantity_add supply minted);
  _ ← writes (set_supply total);
  share_mint minted.

Definition remove_liquidity (shares : Bucket) : Pool (Bucket * Bucket) :=
  x ← balance_at (set_x settings);
  y ← balance_at (set_y settings);
  supply ← reads amm_supply;
  let returned := bucket_quantity shares in
  part ← or_refuse (quantity_ratio_to returned supply) EmptyPool;
  out_x ← computed (quantity_scale x part Down);
  out_y ← computed (quantity_scale y part Down);
  _ ← share_burn shares;
  rest ← computed (quantity_sub supply returned);
  _ ← writes (set_supply rest);
  bx ← take_at (set_x settings) out_x;
  by_ ← take_at (set_y settings) out_y;
  mret (bx, by_).

Definition trades (resource : Address) : bool :=
  bool_decide (resource = set_x settings) || bool_decide (resource = set_y settings).

(** ** The pool's figures *)

Definition fig_x (a : Amm) : Z := subunits (reserve_at a (set_x settings)).
Definition fig_y (a : Amm) : Z := subunits (reserve_at a (set_y settings)).
Definition fig_s (a : Amm) : Z := subunits (amm_supply a).
Definition settings_ok : Prop := set_x settings ≠ set_y settings ∧ unit_ok (set_fee settings).

(** What the state always is: every figure an amount, the supply cell the count that stands minted, and against an
    outstanding supply neither reserve empty. *)
Record pool_ok (a : Amm) : Prop := {
  ok_reserve r : quantity_ok (reserve_at a r);
  ok_supply : quantity_ok (amm_supply a);
  ok_issued : fig_s a = amm_issued a;
  ok_funded : 0 < fig_s a → 0 < fig_x a ∧ 0 < fig_y a;
}.

Lemma reserve_set a r q r' : reserve_at (set_reserve r q a) r' = if decide (r' = r) then q else reserve_at a r'.
Proof.
  unfold reserve_at, set_reserve. cbn [amm_reserves]. case_decide as E; [subst; by rewrite lookup_insert_eq|by rewrite lookup_insert_ne].
Qed.

Lemma set_reserve_twice r q q' a : set_reserve r q (set_reserve r q' a) = set_reserve r q a.
Proof. unfold set_reserve. cbn [amm_reserves amm_supply amm_issued]. by rewrite insert_insert_eq. Qed.

(** *** Vault steps *)

Lemma run_put {B} r funds (k : () → Pool B) a : quantity_ok (reserve_at a r) → bucket_ok funds → bucket_resource funds = r →
  (put_at r funds ≫= k) a =
    if decide (subunits (reserve_at a r) + held funds ≤ u128_max)
    then k () (set_reserve r (from_subunits (subunits (reserve_at a r) + held funds)) a) else Trapped CellOverflow.
Proof.
  intros Hr Hf E. unfold put_at, balance_at. run_body. pose proof (vault_put_spec r (reserve_at a r) funds Hr Hf) as H.
  destruct (vault_put _ _ _) as [t|f].
  - destruct H as (_ & Ht & Hv). run_body. unfold quantity_ok, in_width in Ht. rewrite decide_True by (unfold width_max; lia).
    rewrite <- Hv. by destruct t.
  - destruct H as [[_ H]|[-> H]]; [done|]. by rewrite decide_False by lia.
Qed.
Lemma run_take {B} r q (k : Bucket → Pool B) a : quantity_ok (reserve_at a r) → quantity_ok q →
  (take_at r q ≫= k) a =
    if decide (subunits q ≤ subunits (reserve_at a r))
    then k {| bucket_resource := r; bucket_quantity := q |} (set_reserve r (from_subunits (subunits (reserve_at a r) - subunits q)) a)
    else Trapped CellUnderflow.
Proof.
  intros Hr Hq. unfold take_at, balance_at. run_body. pose proof (vault_take_spec r (reserve_at a r) q Hr Hq) as H.
  destruct (vault_take _ _ _) as [[b t]|f].
  - destruct H as (-> & Ht & Hv). run_body. unfold quantity_ok, in_width in Ht. rewrite decide_True by lia. rewrite <- Hv. by destruct t.
  - destruct H as [-> H]. by rewrite decide_False by lia.
Qed.
Lemma run_last {A} (m : Pool A) a : m a = (m ≫= mret) a.
Proof. unfold mbind, body_bind. by destruct (m a) as [[]| |]. Qed.

(** *** The swap, whole *)

Definition other_side (r : Address) : Address := if bool_decide (r = set_x settings) then set_y settings else set_x settings.
(** What the curve sees of a payment: all but the fee. *)
Definition curve_part (p : Z) : Z := p * (UNIT_SCALE - unit_scaled (set_fee settings)) / UNIT_SCALE.

Lemma curve_split input : settings_ok → bucket_ok input →
  bucket_split input (unit_ratio (unit_complement (set_fee settings))) =
    Ok ({| bucket_resource := bucket_resource input; bucket_quantity := from_subunits (curve_part (held input)) |},
        {| bucket_resource := bucket_resource input; bucket_quantity := from_subunits (held input - curve_part (held input)) |}) ∧
  0 ≤ curve_part (held input) ≤ held input.
Proof.
  intros [_ Hu] Hb. destruct (unit_complement_ok _ Hu) as [Hc _]. destruct (unit_ratio_ok _ Hc) as (Hr & En & Ed).
  destruct (bucket_split_spec input _ Hb Hr) as [E H].
  - rewrite En, Ed. unfold unit_ok in Hc. lia.
  - rewrite En, Ed in E, H. cbn [unit_complement unit_scaled] in E, H. exact (conj E H).
Qed.

Definition swap_answer (a : Amm) (input : Bucket) (min_out : Quantity) : reply AmmError (Bucket * Amm) :=
  let sold := bucket_resource input in
  let bought := other_side sold in
  let x := subunits (reserve_at a sold) in
  let y := subunits (reserve_at a bought) in
  let dx := curve_part (held input) in
  let out := y * dx / (x + dx) in
  if decide (u128_max < x + dx) then Trapped (Panicked TotalPastWidth)
  else if decide (x + dx = 0) then Refused EmptyPool
  else if decide (out < subunits min_out) then Refused SlippageExceeded
  else if decide (u128_max < x + held input) then Trapped CellOverflow
  else Returned ({| bucket_resource := bought; bucket_quantity := from_subunits out |},
                 set_reserve bought (from_subunits (y - out)) (set_reserve sold (from_subunits (x + held input)) a)).
Lemma swap_runs a input min_out : settings_ok → pool_ok a → bucket_ok input → trades (bucket_resource input) = true →
  swap input min_out a = swap_answer a input min_out.
Proof.
  intros Hset Ha Hin Ht. unfold swap_answer. set (sold := bucket_resource input) in *. set (bought := other_side sold).
  assert (Hs : (if bool_decide (sold = set_x settings) then set_x settings else set_y settings) = sold).
  { unfold trades in Ht. repeat case_bool_decide; congruence || done. }
  assert (Hne : bought ≠ sold).
  { destruct Hset as [Hne _]. subst bought. unfold other_side. unfold trades in Ht. repeat case_bool_decide; congruence || done. }
  destruct (curve_split input Hset Hin) as [Hsp Hdx]. set (dx := curve_part (held input)) in *.
  pose proof (ok_reserve a Ha sold) as Hx. pose proof (ok_reserve a Ha bought) as Hy.
  unfold swap, balance_at. fold sold. rewrite Hs. change (if bool_decide (sold = set_x settings) then set_y settings else set_x settings) with bought.
  run_body. rewrite Hsp. cbv beta iota. cbn [bucket_quantity]. run_body.
  unfold bucket_ok, quantity_ok, in_width in *. fold (held input) in Hin.
  assert (Hqx : quantity_ok (from_subunits dx)) by (split; cbn; lia).
  pose proof (quantity_add_spec (reserve_at a sold) (from_subunits dx) Hx Hqx) as Hadd. cbn [subunits] in Hadd.
  destruct (quantity_add _ _) as [total|p].
  2: { destruct Hadd as [-> Hgt]. by rewrite decide_True. }
  destruct Hadd as [Htot Etot]. unfold quantity_ok, in_width in Htot. rewrite (decide_False (P := u128_max < _)) by (unfold width_max; lia).
  run_body. unfold quantity_ratio_to. cbn [subunits]. pose proof (ratio_of_spec dx (subunits total) Hqx Htot) as Hr.
  destruct (ratio_of _ _) as [portion|e].
  2: { destruct Hr as [_ H0]. by rewrite decide_True by lia. }
  destruct Hr as (Hrok & En & Ed). destruct (ratio_bounds portion Hrok) as [_ Hd]. rewrite Ed in Hd.
  rewrite (decide_False (P := _ + _ = 0)) by lia. run_body.
  rewrite (quantity_scale_share (reserve_at a bought) portion Down Hy Hrok) by lia. cbn [div_round]. rewrite En, Ed, Etot.
  set (x := subunits (reserve_at a sold)) in *. set (y := subunits (reserve_at a bought)) in *. set (out := y * dx / (x + dx)).
  run_body. cbn [subunits]. destruct (decide (out < subunits min_out)) as [Hlt|Hge].
  { by rewrite bool_decide_true. }
  rewrite bool_decide_false by done. cbv beta iota.
  assert (Hout : 0 ≤ out ≤ y).
  { subst out. split; [apply Z.div_pos; nia|]. apply Z.div_le_upper_bound; nia. }
  rewrite run_put; [|done|exact Hqx|done]. fold x. cbn [held bucket_quantity subunits]. unfold held at 1. cbn [bucket_quantity subunits].
  rewrite decide_True by (unfold width_max; lia).
  rewrite run_put; [|rewrite reserve_set, decide_True by done; split; unfold held; cbn [bucket_quantity subunits]; lia|unfold bucket_ok, quantity_ok, in_width; unfold held in *; cbn [bucket_quantity subunits]; lia|done].
  rewrite reserve_set, (decide_True (P := sold = sold)), set_reserve_twice by done. unfold held. cbn [bucket_quantity subunits]. fold (held input).
  replace (x + dx + (held input - dx)) with (x + held input) by lia.
  destruct (decide (u128_max < x + held input)) as [Hov|Hov]; [by rewrite decide_False by lia|]. rewrite decide_True by lia. cbv beta.
  rewrite run_last, run_take; [|rewrite reserve_set, decide_False by done; exact Hy|unfold quantity_ok, in_width; cbn [subunits]; lia].
  rewrite reserve_set, (decide_False (P := bought = sold)) by done. cbn [subunits]. fold y. rewrite decide_True by lia. done.
Qed.

(** *** Joining and leaving, whole *)

(** The claim a deposit is worth: the root of the product for the first provider, and the lesser of the two claims after. *)
Definition claim_of (a : Amm) (dx dy : Z) : Z :=
  if decide (fig_s a = 0) then Z.sqrt (dx * dy) else Z.min (fig_s a * dx / fig_x a) (fig_s a * dy / fig_y a).

Lemma claim_runs a dx dy : pool_ok a → quantity_ok dx → quantity_ok dy →
  match claim_body (reserve_at a (set_x settings)) (reserve_at a (set_y settings)) dx dy (amm_supply a) a with
  | Returned (m, a') => a' = a ∧ quantity_ok m ∧ subunits m = claim_of a (subunits dx) (subunits dy)
  | Refused _ => False
  | Trapped _ => True
  end.
Proof.
  intros Ha Hdx Hdy. unfold claim_body, claim_of. pose proof (ok_supply a Ha) as Hs. pose proof (ok_reserve a Ha (set_x settings)) as Hx.
  pose proof (ok_reserve a Ha (set_y settings)) as Hy. unfold quantity_is_zero. fold (fig_s a). case_bool_decide as H0.
  - rewrite decide_True by done. destruct (quantity_geometric_mean_spec dx dy Hdx Hdy) as [E Hok]. rewrite E. done.
  - rewrite decide_False by done. destruct (ok_funded a Ha) as [Hpx Hpy].
    { unfold quantity_ok, in_width in Hs. fold (fig_s a) in Hs. lia. }
    run_body. destruct (quantity_ratio_to dx (reserve_at a (set_x settings))) as [sx|e] eqn:Ex.
    2: { apply ratio_refused in Ex; [|done..]. unfold fig_x in Hpx. lia. }
    destruct (scale_claim _ _ _ _ Hs Hdx Hx Ex) as (_ & _ & Hcx). run_body.
    destruct (quantity_ratio_to dy (reserve_at a (set_y settings))) as [sy|e] eqn:Ey.
    2: { apply ratio_refused in Ey; [|done..]. unfold fig_y in Hpy. lia. }
    destruct (scale_claim _ _ _ _ Hs Hdy Hy Ey) as (_ & _ & Hcy). run_body.
    destruct (quantity_scale (amm_supply a) sx Down) as [cx|] eqn:Ecx; [|done]. run_body.
    destruct (quantity_scale (amm_supply a) sy Down) as [cy|] eqn:Ecy; [|done].
    destruct (Hcx Down cx Ecx) as [Hox Vx]. destruct (Hcy Down cy Ecy) as [Hoy Vy].
    destruct (quantity_min_spec cx cy Hox Hoy) as [Hm Vm]. cbn. split; [done|]. split; [done|]. by rewrite Vm, Vx, Vy.
Qed.

Definition with_supply (s i : Z) (a : Amm) : Amm := set_issued i (set_supply (from_subunits s) a).

Lemma add_runs a bx by_ : settings_ok → pool_ok a → bucket_ok bx → bucket_ok by_ →
  match add_liquidity bx by_ a with
  | Returned (b, a') =>
      let m := claim_of a (held bx) (held by_) in
      0 < m ∧ b = {| bucket_resource := share; bucket_quantity := from_subunits m |} ∧ quantity_ok (from_subunits m) ∧
      a' = with_supply (fig_s a + m) (amm_issued a + m)
             (set_reserve (set_y settings) (from_subunits (fig_y a + held by_)) (set_reserve (set_x settings) (from_subunits (fig_x a + held bx)) a)) ∧
      fig_x a + held bx ≤ u128_max ∧ fig_y a + held by_ ≤ u128_max ∧ fig_s a + m ≤ u128_max
  | Refused e => e = NothingMinted ∧ claim_of a (held bx) (held by_) = 0
  | Trapped _ => True
  end.
Proof.
  intros [Hne _] Ha Hbx Hby. unfold add_liquidity, balance_at. run_body.
  pose proof (claim_runs a (bucket_quantity bx) (bucket_quantity by_) Ha Hbx Hby) as Hc. fold (held bx) (held by_) in Hc.
  unfold mbind at 1. unfold body_bind at 1. destruct (claim_body _ _ _ _ _ a) as [[m a1]|e|f]; [|done..].
  destruct Hc as (-> & Hm & Vm). run_body. unfold quantity_is_zero. rewrite Vm. set (mv := claim_of a (held bx) (held by_)) in *.
  case_bool_decide as H0; [done|].
  pose proof (ok_reserve a Ha (set_x settings)) as Hx. pose proof (ok_reserve a Ha (set_y settings)) as Hy.
  unfold bucket_ok, quantity_ok, in_width in Hbx, Hby. fold (held bx) (held by_) in Hbx, Hby.
  destruct (decide (bucket_resource bx = set_x settings)) as [Ebx|Ebx].
  2: { unfold put_at, balance_at. run_body. unfold vault_put. by rewrite decide_False. }
  rewrite run_put by done. fold (fig_x a). destruct (decide (fig_x a + held bx ≤ u128_max)) as [Lx|]; [|done]. cbv beta.
  destruct (decide (bucket_resource by_ = set_y settings)) as [Eby|Eby].
  2: { unfold put_at, balance_at. run_body. unfold vault_put. by rewrite decide_False. }
  rewrite run_put; [|rewrite reserve_set, decide_False by done; done|done|done]. rewrite reserve_set, (decide_False (P := _ = set_x settings)) by done.
  fold (fig_y a). destruct (decide (fig_y a + held by_ ≤ u128_max)) as [Ly|]; [|done]. cbv beta.
  run_body. pose proof (quantity_add_spec (amm_supply a) m (ok_supply a Ha) Hm) as Hadd. destruct (quantity_add _ _) as [t|]; [|done].
  destruct Hadd as [Ht Et]. fold (fig_s a) in Et. rewrite Vm in Et. unfold share_mint. run_body. cbn -[u128_max set_reserve].
  unfold quantity_ok, in_width in Hm, Ht. rewrite Vm in Hm. split; [lia|]. split; [by rewrite <- Vm; destruct m|].
  split; [by unfold quantity_ok; cbn|]. rewrite <- Et, Vm. split; [by destruct t|]. unfold width_max in *. lia.
Qed.

Lemma remove_runs a b : settings_ok → pool_ok a → bucket_ok b →
  match remove_liquidity b a with
  | Returned (bx, by_, a') =>
      let r := held b in let ox := fig_x a * r / fig_s a in let oy := fig_y a * r / fig_s a in
      bucket_resource b = share ∧ 0 < fig_s a ∧ 0 ≤ r ≤ fig_s a ∧ 0 ≤ ox ≤ fig_x a ∧ 0 ≤ oy ≤ fig_y a ∧
      bx = {| bucket_resource := set_x settings; bucket_quantity := from_subunits ox |} ∧
      by_ = {| bucket_resource := set_y settings; bucket_quantity := from_subunits oy |} ∧
      a' = set_reserve (set_y settings) (from_subunits (fig_y a - oy)) (set_reserve (set_x settings) (from_subunits (fig_x a - ox))
             (with_supply (fig_s a - r) (amm_issued a - r) a))
  | Refused e => e = EmptyPool ∧ fig_s a = 0
  | Trapped _ => fig_s a ≠ 0 ∧ (bucket_resource b ≠ share ∨ fig_s a < held b)
  end.
Proof.
  intros [Hne _] Ha Hb. unfold remove_liquidity, balance_at. run_body.
  pose proof (ok_reserve a Ha (set_x settings)) as Hx. pose proof (ok_reserve a Ha (set_y settings)) as Hy. pose proof (ok_supply a Ha) as Hs.
  destruct (quantity_ratio_to (bucket_quantity b) (amm_supply a)) as [part|e] eqn:Er; cycle 1.
  { by apply ratio_refused in Er. }
  destruct (scale_claim _ _ _ _ Hx Hb Hs Er) as (Hr & Hpos & Hcx). destruct (scale_claim _ _ _ _ Hy Hb Hs Er) as (_ & _ & Hcy). run_body.
  fold (held b) (fig_x a) (fig_y a) (fig_s a) in *. pose proof (ratio_of_spec _ _ Hb Hs) as Hrt. unfold quantity_ratio_to in Er. rewrite Er in Hrt.
  destruct Hrt as (_ & En & Ed). fold (held b) (fig_s a) in *.
  assert (Hbq : 0 ≤ held b < 2 ^ 128) by exact Hb. assert (Hxq : 0 ≤ fig_x a < 2 ^ 128) by exact Hx. assert (Hyq : 0 ≤ fig_y a < 2 ^ 128) by exact Hy.
  destruct (decide (held b ≤ fig_s a)) as [Hle|Hgt].
  - assert (Hsx := quantity_scale_share _ part Down Hx Hr ltac:(lia)). assert (Hsy := quantity_scale_share _ part Down Hy Hr ltac:(lia)).
    rewrite Hsx. cbn [div_round] in *. rewrite En, Ed in *. fold (fig_x a) (fig_y a) in *. run_body. rewrite Hsy. run_body.
    set (ox := fig_x a * held b / fig_s a) in *. set (oy := fig_y a * held b / fig_s a) in *.
    assert (Hox : 0 ≤ ox ≤ fig_x a) by (subst ox; split; [apply Z.div_pos; nia|apply Z.div_le_upper_bound; nia]).
    assert (Hoy : 0 ≤ oy ≤ fig_y a) by (subst oy; split; [apply Z.div_pos; nia|apply Z.div_le_upper_bound; nia]).
    unfold share_burn. run_body. unfold issue_burn. destruct (decide (bucket_resource b = share)) as [Eb|Eb]; [|split; [lia|by left]]. run_body.
    cbn [amm_supply set_issued]. pose proof (quantity_sub_spec (amm_supply a) (bucket_quantity b) Hs Hb) as Hsub.
    destruct (quantity_sub _ _) as [t|]; [|destruct Hsub as [_ Hsub]; unfold held, fig_s in Hle; lia]. destruct Hsub as [Ht Vt].
    fold (held b) (fig_s a) in Vt. run_body. set (a1 := set_supply t _).
    rewrite run_take; [|exact Hx|unfold quantity_ok, in_width; cbn [subunits]; lia]. change (subunits (reserve_at a1 (set_x settings))) with (fig_x a).
    cbn [subunits]. rewrite decide_True by lia. cbv beta.
    rewrite run_take; [|rewrite reserve_set, decide_False by done; exact Hy|unfold quantity_ok, in_width; cbn [subunits]; lia].
    rewrite reserve_set, (decide_False (P := _ = set_x settings)) by done. change (subunits (reserve_at a1 (set_y settings))) with (fig_y a).
    cbn [subunits]. rewrite decide_True by lia. cbn -[set_reserve]. split_and!; try (done || lia).
    unfold a1, with_supply. rewrite <- Vt. by destruct t.
  - destruct (quantity_scale _ _ _) as [qx|]; [|split; [lia|right; lia]]. run_body.
    destruct (quantity_scale _ _ _) as [qy|]; [|split; [lia|right; lia]]. run_body.
    unfold share_burn. run_body. destruct (issue_burn _ _ _); [|split; [lia|right; lia]]. run_body.
    cbn [amm_supply set_issued]. pose proof (quantity_sub_spec (amm_supply a) (bucket_quantity b) Hs Hb) as Hsub.
    destruct (quantity_sub _ _) as [t|]; [|split; [lia|right; lia]]. destruct Hsub as [Ht Vt]. unfold quantity_ok, in_width in Ht.
    unfold held, fig_s in Hgt. lia.
Qed.

(** ** What a step does to the figures *)

(** The curve, in integers: whatever the fee keeps back and the rounding drops stays in the pool. *)
Lemma curve_product x y p dx : 0 ≤ x → 0 ≤ y → 0 ≤ dx ≤ p → 0 < x + dx → x * y ≤ (x + p) * (y - y * dx / (x + dx)).
Proof.
  intros Hx Hy Hdx Hpos. pose proof (Z.mul_div_le (y * dx) (x + dx) Hpos) as H.
  assert (y * dx / (x + dx) ≤ y) by (apply Z.div_le_upper_bound; nia). set (out := y * dx / (x + dx)) in *. nia.
Qed.
Lemma curve_leaves_some x y dx : 0 < x → 0 < y → 0 ≤ dx → y * dx / (x + dx) < y.
Proof. intros. apply Z.div_lt_upper_bound; nia. Qed.

Lemma swap_needs_side a input min_out b a' : settings_ok → bucket_ok input → swap input min_out a = Returned (b, a') → trades (bucket_resource input) = true.
Proof.
  intros Hset Hin H. destruct (curve_split input Hset Hin) as [Hsp _]. unfold swap, balance_at in H. run_body in H. rewrite Hsp in H. cbv beta iota in H.
  run_body in H. destruct (quantity_add _ _); [|done]. run_body in H. destruct (quantity_ratio_to _ _); [|done]. run_body in H.
  destruct (quantity_scale _ _ _); [|done]. run_body in H. destruct (bool_decide (_ < _)); [done|].
  unfold put_at, balance_at in H. run_body in H. unfold vault_put at 1 in H. cbn [bucket_resource] in H. unfold trades.
  repeat case_bool_decide; try done. rewrite decide_False in H by done. done.
Qed.
Lemma sides_of r : settings_ok → trades r = true → (r = set_x settings ∧ other_side r = set_y settings) ∨ (r = set_y settings ∧ other_side r = set_x settings).
Proof.
  intros [Hne _] Ht. unfold trades, other_side in *. repeat case_bool_decide; try done; [by left|by left|by right].
Qed.

Lemma figs_set_x q a : settings_ok → fig_x (set_reserve (set_x settings) q a) = subunits q ∧ fig_y (set_reserve (set_x settings) q a) = fig_y a.
Proof. intros [Hne _]. unfold fig_x, fig_y. rewrite !reserve_set, decide_True, decide_False by done. done. Qed.
Lemma figs_set_y q a : settings_ok → fig_y (set_reserve (set_y settings) q a) = subunits q ∧ fig_x (set_reserve (set_y settings) q a) = fig_x a.
Proof. intros [Hne _]. unfold fig_x, fig_y. rewrite !reserve_set, decide_True, decide_False by done. done. Qed.
Lemma reserve_ok_set r q a : (∀ r, quantity_ok (reserve_at a r)) → quantity_ok q → ∀ r', quantity_ok (reserve_at (set_reserve r q a) r').
Proof. intros Ha Hq r'. rewrite reserve_set. by case_decide. Qed.

(** The figures after a call, from the figures before it. *)
Inductive moved (a a' : Amm) : Prop :=
  | moved_swap_x p dx : 0 ≤ dx ≤ p → 0 < fig_x a + dx → fig_x a' = fig_x a + p → fig_y a' = fig_y a - fig_y a * dx / (fig_x a + dx) →
      fig_s a' = fig_s a → amm_issued a' = amm_issued a → moved a a'
  | moved_swap_y p dx : 0 ≤ dx ≤ p → 0 < fig_y a + dx → fig_y a' = fig_y a + p → fig_x a' = fig_x a - fig_x a * dx / (fig_y a + dx) →
      fig_s a' = fig_s a → amm_issued a' = amm_issued a → moved a a'
  | moved_in dx dy m : 0 ≤ dx → 0 ≤ dy → 0 < m → m = claim_of a dx dy → fig_x a' = fig_x a + dx → fig_y a' = fig_y a + dy →
      fig_s a' = fig_s a + m → amm_issued a' = amm_issued a + m → moved a a'
  | moved_out r : 0 ≤ r ≤ fig_s a → 0 < fig_s a → fig_x a' = fig_x a - fig_x a * r / fig_s a → fig_y a' = fig_y a - fig_y a * r / fig_s a →
      fig_s a' = fig_s a - r → amm_issued a' = amm_issued a - r → moved a a'.

Inductive pool_step (a a' : Amm) : Prop :=
  | step_swap input min_out b : bucket_ok input → swap input min_out a = Returned (b, a') → pool_step a a'
  | step_add bx by_ b : bucket_ok bx → bucket_ok by_ → add_liquidity bx by_ a = Returned (b, a') → pool_step a a'
  | step_remove b outs : bucket_ok b → remove_liquidity b a = Returned (outs, a') → pool_step a a'.

Lemma figs_ok a : pool_ok a → 0 ≤ fig_x a < 2 ^ 128 ∧ 0 ≤ fig_y a < 2 ^ 128 ∧ 0 ≤ fig_s a < 2 ^ 128.
Proof. intros Ha. split; [apply (ok_reserve a Ha)|]. split; [apply (ok_reserve a Ha)|apply (ok_supply a Ha)]. Qed.
Lemma amounts_ok x : 0 ≤ x ≤ u128_max → quantity_ok (from_subunits x).
Proof. unfold quantity_ok, in_width, width_max. cbn [subunits]. lia. Qed.

Lemma swap_moved a input min_out b a' : settings_ok → pool_ok a → bucket_ok input → swap input min_out a = Returned (b, a') →
  (moved a a' ∧ (∀ r, quantity_ok (reserve_at a' r)) ∧ quantity_ok (amm_supply a')) ∧ fig_x a * fig_y a ≤ fig_x a' * fig_y a'.
Proof.
  intros Hset Ha Hin H. pose proof (swap_needs_side _ _ _ _ _ Hset Hin H) as Ht. rewrite swap_runs in H by done.
  destruct (curve_split input Hset Hin) as [_ Hdx]. destruct (figs_ok a Ha) as (Hx & Hy & _). unfold swap_answer in H.
  destruct (decide (u128_max < _ + curve_part _)); [done|]. destruct (decide (_ = 0)) as [|H0]; [done|]. destruct (decide (_ < subunits min_out)); [done|].
  destruct (decide (_ < _)) as [|Hw]; [done|]. injection H as _ <-.
  destruct (sides_of _ Hset Ht) as [[Es Eb]|[Es Eb]]; rewrite Es, Eb in *.
  - fold (fig_x a) (fig_y a) in *. assert (Hout : 0 ≤ fig_y a * curve_part (held input) / (fig_x a + curve_part (held input)) ≤ fig_y a).
    { split; [apply Z.div_pos; nia|apply Z.div_le_upper_bound; nia]. }
    split; [split; [|split; [|apply (ok_supply a Ha)]]|].
    + eapply (moved_swap_x _ _ (held input) (curve_part (held input))); [done|lia| | |done|done].
      * rewrite (proj2 (figs_set_y _ _ Hset)), (proj1 (figs_set_x _ _ Hset)). done.
      * by rewrite (proj1 (figs_set_y _ _ Hset)).
    + repeat apply reserve_ok_set; [apply (ok_reserve a Ha)|apply amounts_ok; lia|apply amounts_ok; unfold width_max in *; lia].
    + rewrite (proj1 (figs_set_y _ _ Hset)), (proj2 (figs_set_y _ _ Hset)), (proj1 (figs_set_x _ _ Hset)). apply curve_product; lia.
  - fold (fig_x a) (fig_y a) in *. assert (Hout : 0 ≤ fig_x a * curve_part (held input) / (fig_y a + curve_part (held input)) ≤ fig_x a).
    { split; [apply Z.div_pos; nia|apply Z.div_le_upper_bound; nia]. }
    split; [split; [|split; [|apply (ok_supply a Ha)]]|].
    + eapply (moved_swap_y _ _ (held input) (curve_part (held input))); [done|lia| | |done|done].
      * rewrite (proj2 (figs_set_x _ _ Hset)), (proj1 (figs_set_y _ _ Hset)). done.
      * by rewrite (proj1 (figs_set_x _ _ Hset)).
    + repeat apply reserve_ok_set; [apply (ok_reserve a Ha)|apply amounts_ok; lia|apply amounts_ok; unfold width_max in *; lia].
    + rewrite (proj1 (figs_set_x _ _ Hset)), (proj2 (figs_set_x _ _ Hset)), (proj1 (figs_set_y _ _ Hset)).
      rewrite (Z.mul_comm (fig_x a)), (Z.mul_comm (subunits _)). apply curve_product; lia.
Qed.

Lemma figs_with_supply s i a : fig_x (with_supply s i a) = fig_x a ∧ fig_y (with_supply s i a) = fig_y a ∧ fig_s (with_supply s i a) = s ∧
  amm_issued (with_supply s i a) = i.
Proof. done. Qed.
Lemma add_moved a bx by_ b a' : settings_ok → pool_ok a → bucket_ok bx → bucket_ok by_ → add_liquidity bx by_ a = Returned (b, a') →
  moved a a' ∧ (∀ r, quantity_ok (reserve_at a' r)) ∧ quantity_ok (amm_supply a').
Proof.
  intros Hset Ha Hbx Hby H. pose proof (add_runs a bx by_ Hset Ha Hbx Hby) as Hr. rewrite H in Hr. cbv zeta in Hr.
  destruct Hr as (Hm & _ & Hq & -> & Lx & Ly & Ls). destruct (figs_ok a Ha) as (Hx & Hy & Hs).
  assert (Hbxq : 0 ≤ held bx < 2 ^ 128) by exact Hbx. assert (Hbyq : 0 ≤ held by_ < 2 ^ 128) by exact Hby. split.
  - eapply (moved_in _ _ (held bx) (held by_) (claim_of a (held bx) (held by_))); [lia|lia|done|done| | |done|done].
    + change (fig_x (set_reserve (set_y settings) (from_subunits (fig_y a + held by_)) (set_reserve (set_x settings) (from_subunits (fig_x a + held bx)) a)) = fig_x a + held bx).
      by rewrite (proj2 (figs_set_y _ _ Hset)), (proj1 (figs_set_x _ _ Hset)).
    + change (fig_y (set_reserve (set_y settings) (from_subunits (fig_y a + held by_)) (set_reserve (set_x settings) (from_subunits (fig_x a + held bx)) a)) = fig_y a + held by_).
      by rewrite (proj1 (figs_set_y _ _ Hset)).
  - split; [|apply amounts_ok; lia].
    apply (reserve_ok_set _ _ (set_reserve (set_x settings) (from_subunits (fig_x a + held bx)) a)); [|apply amounts_ok; lia].
    apply reserve_ok_set; [apply (ok_reserve a Ha)|apply amounts_ok; lia].
Qed.
Lemma remove_moved a b outs a' : settings_ok → pool_ok a → bucket_ok b → remove_liquidity b a = Returned (outs, a') →
  moved a a' ∧ (∀ r, quantity_ok (reserve_at a' r)) ∧ quantity_ok (amm_supply a').
Proof.
  intros Hset Ha Hb H. pose proof (remove_runs a b Hset Ha Hb) as Hr. rewrite H in Hr. destruct outs as [bx by_]. cbv zeta in Hr.
  destruct Hr as (_ & Hs0 & Hr & Hox & Hoy & _ & _ & ->). destruct (figs_ok a Ha) as (Hx & Hy & Hs). split.
  - eapply (moved_out _ _ (held b)); [done|done| | |done|done].
    + by rewrite (proj2 (figs_set_y _ _ Hset)), (proj1 (figs_set_x _ _ Hset)).
    + by rewrite (proj1 (figs_set_y _ _ Hset)).
  - split; [|apply amounts_ok; cbn; unfold width_max; lia].
    repeat apply reserve_ok_set; [apply (ok_reserve a Ha)|apply amounts_ok; unfold width_max; lia..].
Qed.
Lemma step_moved a a' : settings_ok → pool_ok a → pool_step a a' → moved a a' ∧ (∀ r, quantity_ok (reserve_at a' r)) ∧ quantity_ok (amm_supply a').
Proof.
  intros Hset Ha [input m b Hb H|bx by_ b Hbx Hby H|b outs Hb H];
    [exact (proj1 (swap_moved _ _ _ _ _ Hset Ha Hb H))|exact (add_moved _ _ _ _ _ Hset Ha Hbx Hby H)|exact (remove_moved _ _ _ _ Hset Ha Hb H)].
Qed.

(** A claim on part of a side leaves some of it, and a whole claim is what it is worth rounded down. *)
Lemma part_left x r s : 0 < x → 0 ≤ r < s → 0 < x - x * r / s.
Proof. intros Hx Hr. assert (x * r / s < x) by (apply Z.div_lt_upper_bound; nia). lia. Qed.
Lemma claim_bounds a dx dy : 0 < fig_s a → 0 < fig_x a → 0 < fig_y a → 0 ≤ dx → 0 ≤ dy →
  claim_of a dx dy * fig_x a ≤ fig_s a * dx ∧ claim_of a dx dy * fig_y a ≤ fig_s a * dy.
Proof.
  intros Hs Hx Hy Hdx Hdy. unfold claim_of. rewrite decide_False by lia.
  pose proof (Z.mul_div_le (fig_s a * dx) (fig_x a) Hx). pose proof (Z.mul_div_le (fig_s a * dy) (fig_y a) Hy). nia.
Qed.
Lemma moved_funded a a' : pool_ok a → moved a a' → fig_s a' = amm_issued a' ∧ (0 < fig_s a' → 0 < fig_x a' ∧ 0 < fig_y a').
Proof.
  intros Ha Hm. destruct (figs_ok a Ha) as (Hx & Hy & Hs). pose proof (ok_issued a Ha) as Hi. pose proof (ok_funded a Ha) as Hf.
  destruct Hm as [p dx Hdx H0 -> -> -> ->|p dx Hdx H0 -> -> -> ->|dx dy m Hdx Hdy Hm0 Em -> -> -> ->|r Hr H0 -> -> -> ->]; (split; [lia|]); intros Hp.
  - destruct (Hf Hp). pose proof (curve_leaves_some (fig_x a) (fig_y a) dx). lia.
  - destruct (Hf Hp). pose proof (curve_leaves_some (fig_y a) (fig_x a) dx). lia.
  - unfold claim_of in Em. case_decide as E0; [|destruct (Hf ltac:(lia)); lia].
    assert (0 < dx * dy); [|nia]. apply Z.sqrt_pos. lia.
  - destruct (Hf ltac:(lia)). split; apply part_left; lia.
Qed.
Lemma step_keeps_ok a a' : settings_ok → pool_ok a → pool_step a a' → pool_ok a'.
Proof.
  intros Hset Ha H. destruct (step_moved a a' Hset Ha H) as (Hm & Hr & Hs). destruct (moved_funded a a' Ha Hm) as [Hi Hf]. by split.
Qed.

(** What one claim is worth, squared: the product of the reserves over the square of the supply. *)
Definition no_less_per_share (a a' : Amm) : Prop := fig_x a * fig_y a * (fig_s a' * fig_s a') ≤ fig_x a' * fig_y a' * (fig_s a * fig_s a).
Lemma sides_give_product a a' : 0 ≤ fig_x a → 0 ≤ fig_y a → 0 ≤ fig_s a' →
  fig_x a * fig_s a' ≤ fig_x a' * fig_s a → fig_y a * fig_s a' ≤ fig_y a' * fig_s a → no_less_per_share a a'.
Proof.
  intros Hx Hy Hs H1 H2. unfold no_less_per_share. transitivity ((fig_x a * fig_s a') * (fig_y a * fig_s a')); [lia|].
  transitivity ((fig_x a' * fig_s a) * (fig_y a' * fig_s a)); [|lia]. apply Z.mul_le_mono_nonneg; nia.
Qed.
Lemma step_per_share a a' : settings_ok → pool_ok a → 0 < fig_s a → pool_step a a' → no_less_per_share a a'.
Proof.
  intros Hset Ha Hp H. destruct (step_moved a a' Hset Ha H) as (Hm & _ & _). destruct (figs_ok a Ha) as (Hx & Hy & Hs). destruct (ok_funded a Ha Hp) as [Hx0 Hy0].
  destruct Hm as [p dx Hdx H0 Ex Ey Es _|p dx Hdx H0 Ey Ex Es _|dx dy m Hdx Hdy Hm0 Em Ex Ey Es _|r Hr H0 Ex Ey Es _].
  - unfold no_less_per_share. rewrite Ex, Ey, Es. pose proof (curve_product (fig_x a) (fig_y a) p dx). apply Z.mul_le_mono_nonneg_r; nia.
  - unfold no_less_per_share. rewrite Ex, Ey, Es. pose proof (curve_product (fig_y a) (fig_x a) p dx). apply Z.mul_le_mono_nonneg_r; nia.
  - destruct (claim_bounds a dx dy Hp Hx0 Hy0 Hdx Hdy) as [H1 H2]. rewrite <- Em in *. apply sides_give_product; rewrite ?Ex, ?Ey, ?Es; nia.
  - pose proof (Z.mul_div_le (fig_x a * r) (fig_s a) H0). pose proof (Z.mul_div_le (fig_y a * r) (fig_s a) H0).
    apply sides_give_product; rewrite ?Ex, ?Ey, ?Es; [lia|lia|lia| |]; [set (o := fig_x a * r / fig_s a) in *|set (o := fig_y a * r / fig_s a) in *]; nia.
Qed.
Lemma per_share_trans a b c : 0 ≤ fig_x a → 0 ≤ fig_y a → 0 < fig_s b → 0 ≤ fig_s a → 0 ≤ fig_s c →
  no_less_per_share a b → no_less_per_share b c → no_less_per_share a c.
Proof.
  unfold no_less_per_share. intros Hx Hy Hb Ha Hc H1 H2. set (A := fig_x a * fig_y a) in *. set (B := fig_x b * fig_y b) in *. set (C := fig_x c * fig_y c) in *.
  set (sa := fig_s a * fig_s a) in *. set (sb := fig_s b * fig_s b) in *. set (sc := fig_s c * fig_s c) in *.
  assert (0 < sb) by (subst sb; nia). assert (0 ≤ sa) by (subst sa; nia). assert (0 ≤ sc) by (subst sc; nia).
  apply (Z.mul_le_mono_pos_r _ _ sb); [done|]. transitivity (B * sa * sc); nia.
Qed.

Lemma new_ok : pool_ok amm_new.
Proof.
  split; [|by split|done|done]. intros r. unfold reserve_at. cbn [amm_reserves amm_new]. rewrite lookup_empty. by split.
Qed.
Definition funded_step (a a' : Amm) : Prop := pool_step a a' ∧ 0 < fig_s a'.
Lemma reachable_ok a a' : settings_ok → pool_ok a → rtc pool_step a a' → pool_ok a'.
Proof. intros Hset Ha H. induction H as [|a b c Hab _ IH]; [done|]. apply IH. by eapply step_keeps_ok. Qed.
Lemma funded_run a a' : settings_ok → pool_ok a → 0 < fig_s a → rtc funded_step a a' → no_less_per_share a a'.
Proof.
  intros Hset Ha Hp H. revert Ha Hp. induction H as [a|a b c [Hab Hb] Hbc IH]; intros Ha Hp; [by unfold no_less_per_share|].
  assert (Hbo := step_keeps_ok _ _ Hset Ha Hab). destruct (figs_ok a Ha) as (? & ? & ?).
  assert (Hco : pool_ok c).
  { apply (reachable_ok b c Hset Hbo). revert Hbc. clear. induction 1 as [|x y z [Hxy _] _ IH]; [constructor|]. by eapply rtc_l. }
  destruct (figs_ok c Hco) as (? & ? & ?). apply (per_share_trans a b c); [lia..| |by apply IH]. by apply step_per_share.
Qed.
Lemma add_never_empty a bx by_ : settings_ok → pool_ok a → bucket_ok bx → bucket_ok by_ → add_liquidity bx by_ a ≠ Refused EmptyPool.
Proof. intros Hset Ha Hbx Hby E. pose proof (add_runs a bx by_ Hset Ha Hbx Hby) as H. rewrite E in H. by destruct H. Qed.

Lemma swap_refusals a input min_out e : settings_ok → bucket_ok input → swap input min_out a = Refused e → e = EmptyPool ∨ e = SlippageExceeded.
Proof.
  intros Hset Hin H. destruct (curve_split input Hset Hin) as [Hsp _]. unfold swap, balance_at in H. run_body in H. rewrite Hsp in H. cbv beta iota in H.
  run_body in H. destruct (quantity_add _ _); [|done]. run_body in H. destruct (quantity_ratio_to _ _); [|left; congruence]. run_body in H.
  destruct (quantity_scale _ _ _); [|done]. run_body in H. destruct (bool_decide (_ < _)); [right; congruence|].
  unfold put_at, take_at, balance_at in H. run_body in H. destruct (vault_put _ _ _); [|done]. run_body in H. destruct (vault_put _ _ _); [|done]. run_body in H.
  destruct (vault_take _ _ _) as [[]|]; [|done]. run_body in H. done.
Qed.
End pool.

(** ** What the pool promises *)

(** C31: a swap does what the curve says and nothing else. The payment lands whole on the side it was paid in, what leaves is
    the other side's, at least the floor asked for and the curve's output rounded down; nothing else of the pool changes,
    and the product of the reserves never falls. It refuses an empty pool and a missed floor, exactly, and traps only on a
    payment in neither side or one the reserve cannot hold. *)
Theorem swap_exact settings a input min_out : settings_ok settings → pool_ok settings a → bucket_ok input →
  let sold := bucket_resource input in let bought := other_side settings sold in
  (trades settings sold = true → swap settings input min_out a = swap_answer settings a input min_out) ∧
  match swap settings input min_out a with
  | Returned (b, a') =>
      trades settings sold = true ∧ bucket_resource b = bought ∧ subunits min_out ≤ held b ∧
      subunits (reserve_at a' sold) = subunits (reserve_at a sold) + held input ∧
      subunits (reserve_at a' bought) = subunits (reserve_at a bought) - held b ∧
      (∀ r, r ≠ sold → r ≠ bought → reserve_at a' r = reserve_at a r) ∧
      amm_supply a' = amm_supply a ∧ amm_issued a' = amm_issued a ∧
      fig_x settings a * fig_y settings a ≤ fig_x settings a' * fig_y settings a'
  | Refused e => e = EmptyPool ∨ e = SlippageExceeded
  | Trapped _ => trades settings sold = false ∨ u128_max < subunits (reserve_at a sold) + held input
  end.
Proof.
  intros Hset Ha Hin sold bought. split; [by apply swap_runs|].
  destruct (swap settings input min_out a) as [[b a']|e|f] eqn:H; [| |].
  - pose proof (swap_needs_side _ _ _ _ _ _ Hset Hin H) as Ht. split; [done|].
    destruct (swap_moved settings _ _ _ _ _ Hset Ha Hin H) as [_ Hk].
    rewrite (swap_runs settings) in H by done. unfold swap_answer in H. fold sold bought in H.
    assert (Hne : bought ≠ sold). { destruct (sides_of settings _ Hset Ht) as [[Es Eb]|[Es Eb]]; unfold bought; fold sold in Es, Eb; destruct Hset; congruence. }
    repeat (destruct (decide _) as [?|?] in H; [done|]). injection H as <- <-.
    split; [done|]. split; [unfold held at 1; cbn [bucket_quantity subunits]; lia|].
    split; [by rewrite !reserve_set, (decide_False (P := sold = bought)), (decide_True (P := sold = sold)) by done|].
    split; [by rewrite reserve_set, (decide_True (P := bought = bought)) by done|]. split; [|done]. intros r Hr Hr'. by rewrite !reserve_set, !decide_False by done.
  - by eapply swap_refusals.
  - destruct (trades settings sold) eqn:Ht; [|by left]. right. rewrite (swap_runs settings) in H by done. unfold swap_answer in H. fold sold in H.
    destruct (curve_split settings input Hset Hin) as [_ Hdx]. destruct (decide (u128_max < _)) in H; [fold sold; lia|].
    destruct (decide _) in H; [done|]. destruct (decide _) in H; [done|]. destruct (decide _) in H; [done|done].
Qed.

(** C30: a claim on the pool is never worth less. In every state a pool can reach from its bring-up, the supply cell is the
    count of claims that stands minted and against an outstanding supply both reserves hold something, so joining never
    meets the empty pool its body refuses; and along any calls between which a claim stays outstanding, swaps, joins and
    leaves by anyone at all, the product of the reserves over the square of the supply never falls. *)
Theorem pool_worth_never_falls settings share a a' :
  settings_ok settings → rtc (pool_step settings share) amm_new a →
  0 < fig_s a → rtc (funded_step settings share) a a' →
  pool_ok settings a ∧ no_less_per_share settings a a' ∧
  (∀ bx by_, bucket_ok bx → bucket_ok by_ → add_liquidity settings share bx by_ a ≠ Refused EmptyPool).
Proof.
  intros Hset Hr Hp Hf. assert (Ha : pool_ok settings a) by (eapply reachable_ok; [done|apply new_ok|done]).
  split; [done|]. split; [by eapply funded_run|]. intros bx by_ Hbx Hby. by apply add_never_empty.
Qed.

(** A pool of resources 3 and 4 at thirty basis points, claims in resource 9: funded, swapped against, partly left. *)
Definition demo_settings : Settings := {| set_x := 3; set_y := 4; set_fee := {| unit_scaled := 3 * 10 ^ 15 |} |}.
Definition demo_bucket (r q : Z) : Bucket := {| bucket_resource := r; bucket_quantity := from_subunits q |}.
Definition demo_funded : Amm :=
  match add_liquidity demo_settings 9 (demo_bucket 3 1000000) (demo_bucket 4 4000000) amm_new with Returned (_, a) => a | _ => amm_new end.
Definition demo_swapped : Amm :=
  match swap demo_settings (demo_bucket 4 70001) (from_subunits 17000) demo_funded with Returned (_, a) => a | _ => amm_new end.
Definition demo_left : Amm :=
  match remove_liquidity demo_settings 9 (demo_bucket 9 333333) demo_swapped with Returned (_, a) => a | _ => amm_new end.
Lemma demo_settings_ok : settings_ok demo_settings.
Proof. split; [done|]. unfold unit_ok, UNIT_SCALE. cbn [set_fee demo_settings unit_scaled]. lia. Qed.
Lemma demo_bucket_ok r q : 0 ≤ q < 2 ^ 128 → bucket_ok (demo_bucket r q).
Proof. done. Qed.
Lemma demo_joined : pool_step demo_settings 9 amm_new demo_funded.
Proof.
  apply (step_add _ _ _ _ (demo_bucket 3 1000000) (demo_bucket 4 4000000) (demo_bucket 9 2000000));
    [apply demo_bucket_ok; lia|apply demo_bucket_ok; lia|vm_compute; reflexivity].
Qed.
Lemma demo_traded : pool_step demo_settings 9 demo_funded demo_swapped.
Proof.
  apply (step_swap _ _ _ _ (demo_bucket 4 70001) (from_subunits 17000) (demo_bucket 3 17148)); [apply demo_bucket_ok; lia|vm_compute; reflexivity].
Qed.
Lemma demo_departed : pool_step demo_settings 9 demo_swapped demo_left.
Proof.
  eapply (step_remove _ _ _ _ (demo_bucket 9 333333) (demo_bucket 3 _, demo_bucket 4 _)); [apply demo_bucket_ok; lia|vm_compute; reflexivity].
Qed.
Lemma swap_exact_witness :
  settings_ok demo_settings ∧ swap demo_settings (demo_bucket 4 70001) (from_subunits 17000) demo_funded = Returned (demo_bucket 3 17148, demo_swapped) ∧
  fig_x demo_settings demo_funded * fig_y demo_settings demo_funded ≤ fig_x demo_settings demo_swapped * fig_y demo_settings demo_swapped.
Proof.
  assert (E : swap demo_settings (demo_bucket 4 70001) (from_subunits 17000) demo_funded = Returned (demo_bucket 3 17148, demo_swapped)) by (vm_compute; reflexivity).
  split; [exact demo_settings_ok|]. split; [exact E|].
  destruct (swap_exact demo_settings demo_funded (demo_bucket 4 70001) (from_subunits 17000) demo_settings_ok
    (step_keeps_ok _ _ _ _ demo_settings_ok (new_ok _) demo_joined) (demo_bucket_ok 4 70001 ltac:(lia))) as [_ H].
  rewrite E in H. apply H.
Defined.
Lemma pool_worth_never_falls_witness :
  0 < fig_s demo_funded ∧ fig_s demo_left = 1666667 ∧ no_less_per_share demo_settings demo_funded demo_left.
Proof.
  assert (Hp : 0 < fig_s demo_funded) by (vm_compute; reflexivity). split; [exact Hp|]. split; [vm_compute; reflexivity|].
  apply (pool_worth_never_falls demo_settings 9 demo_funded demo_left demo_settings_ok (rtc_once _ _ demo_joined) Hp).
  apply (rtc_l _ _ demo_swapped); [split; [exact demo_traded|vm_compute; reflexivity]|].
  apply rtc_once. split; [exact demo_departed|vm_compute; reflexivity].
Defined.
(** An empty pool, a floor the swap misses and a payment in neither side. *)
Example demo_refusals :
  swap demo_settings (demo_bucket 3 0) quantity_ZERO amm_new = Refused EmptyPool ∧
  swap demo_settings (demo_bucket 4 70001) (from_subunits 17149) demo_funded = Refused SlippageExceeded ∧
  swap demo_settings (demo_bucket 5 70001) quantity_ZERO demo_funded = Trapped WrongResource ∧
  add_liquidity demo_settings 9 (demo_bucket 3 0) (demo_bucket 4 5) amm_new = Refused NothingMinted.
Proof. vm_compute. done. Qed.
