(* ===== verification/Vaults.v ===== *)
(** * The share vault, the flash lender and the splitter ([guests/shares], [guests/flashloan], [guests/payouts])

    Three packages over one vault each. The share vault prices a claim at what the pool is worth, with every entry point
    rounding the subunit to the pool; the flash lender lends against an obligation it mints; the splitter divides a payment
    by a configured table. The theorems: assets per share never fall whatever is called, and a vault that starts empty stays
    at par, so nobody's deposit rounds away; what the lender holds and what it is owed never fall together; the parts of a
    payment and what is kept are the payment. *)

From S2P Require Import Prelude Types WideMath Numbers Contracts.

(** ** The share vault *)

Inductive SharesError := EmptyVault | Insufficient.
Record Shares := { sh_pool : Quantity; sh_supply : Quantity; sh_issued : Z }.
Definition shares_new : Shares := {| sh_pool := quantity_ZERO; sh_supply := quantity_ZERO; sh_issued := 0 |}.
Definition with_pool (q : Quantity) (v : Shares) : Shares := {| sh_pool := q; sh_supply := sh_supply v; sh_issued := sh_issued v |}.
Definition with_units (q : Quantity) (v : Shares) : Shares := {| sh_pool := sh_pool v; sh_supply := q; sh_issued := sh_issued v |}.
Definition with_issued (n : Z) (v : Shares) : Shares := {| sh_pool := sh_pool v; sh_supply := sh_supply v; sh_issued := n |}.

Section shares.
Context (asset unit_ : Address).
Abbreviation Vault := (Body Shares SharesError) (only parsing).

Definition pool_put (funds : Bucket) : Vault () :=
  now ← reads sh_pool; total ← fallible (vault_put asset now funds); writes (with_pool total).
Definition pool_take (q : Quantity) : Vault Bucket :=
  now ← reads sh_pool; '(b, rest) ← fallible (vault_take asset now q); _ ← writes (with_pool rest); mret b.
Definition unit_mint (q : Quantity) : Vault Bucket :=
  issued ← reads sh_issued; let '(b, total) := issue_mint unit_ issued q in _ ← writes (with_issued total); mret b.
Definition unit_burn (funds : Bucket) : Vault () :=
  issued ← reads sh_issued; rest ← fallible (issue_burn unit_ issued funds); writes (with_issued rest).

Definition vault_deposit (funds : Bucket) : Vault Bucket :=
  assets ← reads sh_pool;
  supply ← reads sh_supply;
  let paid := bucket_quantity funds in
  _ ← pool_put funds;
  minted ← (if quantity_is_zero supply || quantity_is_zero assets then mret paid
            else per_asset ← or_refuse (quantity_ratio_to supply assets) EmptyVault; computed (quantity_scale paid per_asset Down));
  total ← computed (quantity_add supply minted);
  _ ← writes (with_units total);
  unit_mint minted.

Definition vault_mint (want : Quantity) (funds : Bucket) : Vault (Bucket * Bucket) :=
  assets ← reads sh_pool;
  supply ← reads sh_supply;
  needed ← (if quantity_is_zero supply || quantity_is_zero assets then mret want
            else per_share ← or_refuse (quantity_ratio_to assets supply) EmptyVault; computed (quantity_scale want per_share Up));
  spare ← some_or_refuse (quantity_try_sub (bucket_quantity funds) needed) Insufficient;
  '(change, funds) ← fallible (bucket_take funds spare);
  _ ← pool_put funds;
  total ← computed (quantity_add supply want);
  _ ← writes (with_units total);
  minted ← unit_mint want;
  mret (minted, change).

Definition vault_withdraw (want : Quantity) (units : Bucket) : Vault (Bucket * Bucket) :=
  assets ← reads sh_pool;
  supply ← reads sh_supply;
  per_asset ← or_refuse (quantity_ratio_to supply assets) EmptyVault;
  needed ← computed (quantity_scale want per_asset Up);
  spare ← some_or_refuse (quantity_try_sub (bucket_quantity units) needed) Insufficient;
  '(back, units) ← fallible (bucket_take units spare);
  _ ← unit_burn units;
  rest ← computed (quantity_sub supply needed);
  _ ← writes (with_units rest);
  out ← pool_take want;
  mret (out, back).

Definition vault_redeem (units : Bucket) : Vault Bucket :=
  assets ← reads sh_pool;
  supply ← reads sh_supply;
  let returned := bucket_quantity units in
  per_share ← or_refuse (quantity_ratio_to assets supply) EmptyVault;
  out ← computed (quantity_scale returned per_share Down);
  _ ← unit_burn units;
  rest ← computed (quantity_sub supply returned);
  _ ← writes (with_units rest);
  pool_take out.

(** *** What the entry points do to the figures *)

Definition fig_a (v : Shares) : Z := subunits (sh_pool v).
Definition fig_u (v : Shares) : Z := subunits (sh_supply v).
Record vault_ok (v : Shares) : Prop := {
  ok_pool : quantity_ok (sh_pool v);
  ok_units : quantity_ok (sh_supply v);
  ok_minted : fig_u v = sh_issued v;
}.

Inductive vault_step (v v' : Shares) : Prop :=
  | step_deposit funds b : bucket_ok funds → vault_deposit funds v = Returned (b, v') → vault_step v v'
  | step_mint want funds outs : quantity_ok want → bucket_ok funds → vault_mint want funds v = Returned (outs, v') → vault_step v v'
  | step_withdraw want units outs : quantity_ok want → bucket_ok units → vault_withdraw want units v = Returned (outs, v') → vault_step v v'
  | step_redeem units b : bucket_ok units → vault_redeem units v = Returned (b, v') → vault_step v v'.

(** The figures after a call: value in against claims out, or claims in against value out. *)
Inductive vault_moved (v v' : Shares) : Prop :=
  | moved_joined paid minted : 0 ≤ paid → 0 ≤ minted → fig_a v' = fig_a v + paid → fig_u v' = fig_u v + minted → sh_issued v' = sh_issued v + minted →
      (fig_u v ≠ 0 → fig_a v ≠ 0 → minted * fig_a v ≤ paid * fig_u v) → (fig_a v = fig_u v → minted = paid) → vault_moved v v'
  | moved_left out retired : 0 ≤ out → 0 ≤ retired → fig_a v' = fig_a v - out → fig_u v' = fig_u v - retired → sh_issued v' = sh_issued v - retired →
      out * fig_u v ≤ retired * fig_a v → (fig_a v = fig_u v → out = retired) → vault_moved v v'.

Lemma run_pool_put {B} funds (k : () → Vault B) v :
  (pool_put funds ≫= k) v = match vault_put asset (sh_pool v) funds with Ok t => k () (with_pool t v) | Err f => Trapped f end.
Proof. unfold pool_put. run_body. by destruct (vault_put _ _ _). Qed.
Lemma run_pool_take {B} q (k : Bucket → Vault B) v :
  (pool_take q ≫= k) v = match vault_take asset (sh_pool v) q with Ok (b, t) => k b (with_pool t v) | Err f => Trapped f end.
Proof. unfold pool_take. run_body. by destruct (vault_take _ _ _) as [[]|]. Qed.
Lemma run_unit_burn {B} funds (k : () → Vault B) v :
  (unit_burn funds ≫= k) v =
    if decide (bucket_resource funds = unit_) then k () (with_issued (sh_issued v - held funds) v) else Trapped WrongResource.
Proof. unfold unit_burn. run_body. unfold issue_burn. by case_decide. Qed.
Lemma run_last_take q v : pool_take q v = (pool_take q ≫= mret) v.
Proof. unfold mbind, body_bind. by destruct (pool_take q v) as [[]| |]. Qed.

Lemma zero_amount q : quantity_ok q → quantity_is_zero q = false → 0 < subunits q.
Proof. unfold quantity_ok, in_width, quantity_is_zero. case_bool_decide; [done|]. intros; lia. Qed.
Lemma is_zero_val q : quantity_is_zero q = true → subunits q = 0.
Proof. unfold quantity_is_zero. by case_bool_decide. Qed.

(** What a body computes against the pool as it stands, at par where the pool has no rate. *)
Lemma priced_runs q n d rounding v c v' : quantity_ok q → quantity_ok n → quantity_ok d →
  (if quantity_is_zero n || quantity_is_zero d then mret q : Vault Quantity
   else rate ← or_refuse (quantity_ratio_to n d) EmptyVault; computed (quantity_scale q rate rounding)) v = Returned (c, v') →
  v' = v ∧ quantity_ok c ∧
  (subunits n ≠ 0 → subunits d ≠ 0 → subunits c = div_round rounding (subunits q * subunits n) (subunits d)) ∧
  (subunits n = 0 ∨ subunits d = 0 → c = q).
Proof.
  intros Hq Hn Hd H. destruct (quantity_is_zero n || quantity_is_zero d) eqn:Ez.
  - injection H as <- <-. split; [done|]. split; [done|]. split; [|done]. apply orb_true_iff in Ez as [Ez|Ez]; apply is_zero_val in Ez; done.
  - apply orb_false_iff in Ez as [En Ed]. apply zero_amount in En, Ed; [|done..]. run_body in H.
    destruct (quantity_ratio_to n d) as [r|] eqn:Er; [|done]. destruct (scale_claim _ _ _ _ Hq Hn Hd Er) as (_ & _ & Hc).
    unfold computed, fallible in H. destruct (quantity_scale q r rounding) as [c'|] eqn:Es; [|done]. injection H as -> ->.
    destruct (Hc _ _ Es) as [Hok Hv]. split; [done|]. split; [done|]. split; [done|]. lia.
Qed.

Lemma deposit_moved v funds b v' : vault_ok v → bucket_ok funds → vault_deposit funds v = Returned (b, v') →
  (vault_moved v v' ∧ quantity_ok (sh_pool v') ∧ quantity_ok (sh_supply v')) ∧ held b = fig_u v' - fig_u v.
Proof.
  intros Hv Hf H. unfold vault_deposit in H. run_body in H. rewrite run_pool_put in H. pose proof (vault_put_spec asset _ funds (ok_pool v Hv) Hf) as Hp.
  destruct (vault_put _ _ _) as [t|]; [|done]. destruct Hp as (_ & Ht & Vt). apply bind_returned in H as (m & v1 & Hm & H).
  destruct (priced_runs _ _ _ _ _ _ _ Hf (ok_units v Hv) (ok_pool v Hv) Hm) as (-> & Hmo & Hm1 & Hm2). run_body in H.
  pose proof (quantity_add_spec _ m (ok_units v Hv) Hmo) as Ha. destruct (quantity_add _ _) as [s|]; [|done]. destruct Ha as [Hs Vs].
  unfold unit_mint in H. run_body in H. injection H as <- <-. split; [|unfold held, fig_u; cbn; lia]. split; [|done]. unfold bucket_ok, quantity_ok, in_width in Hf, Hmo. fold (held funds) in *.
  eapply (moved_joined _ _ (held funds) (subunits m)); cbn; [lia|lia|done|done|done| |].
  - intros Hu Ha. rewrite (Hm1 Hu Ha). cbn. pose proof (Z.mul_div_le (held funds * subunits (sh_supply v)) (subunits (sh_pool v))).
    destruct (ok_pool v Hv). unfold fig_a, fig_u in *. lia.
  - intros Epar. unfold fig_a, fig_u in Epar. destruct (decide (subunits (sh_pool v) = 0)) as [E0|E0].
    + by rewrite (Hm2 (or_intror E0)).
    + rewrite (Hm1 ltac:(lia) E0). cbn. rewrite <- Epar, Z.div_mul by done. done.
Qed.

(** Rounding up covers what it prices, and is exact at par. *)
Lemma up_covers x y : 0 < y → x ≤ div_round Up x y * y.
Proof. intros Hy. apply (div_round_bounds Up x y Hy). Qed.

Lemma mint_moved v want funds outs v' : vault_ok v → quantity_ok want → bucket_ok funds → vault_mint want funds v = Returned (outs, v') →
  vault_moved v v' ∧ quantity_ok (sh_pool v') ∧ quantity_ok (sh_supply v').
Proof.
  intros Hv Hw Hf H. unfold vault_mint in H. run_body in H. apply bind_returned in H as (needed & v1 & Hn & H). rewrite orb_comm in Hn.
  destruct (priced_runs _ _ _ _ _ _ _ Hw (ok_pool v Hv) (ok_units v Hv) Hn) as (-> & Hno & Hn1 & Hn2). run_body in H.
  pose proof (quantity_try_sub_spec _ _ Hf Hno) as Hsp. destruct (quantity_try_sub _ _) as [spare|]; [|done]. destruct Hsp as [Hspo Vsp]. run_body in H.
  pose proof (bucket_take_spec funds spare Hf Hspo) as Ht. destruct (bucket_take _ _) as [[change rest]|]; [|done]. destruct Ht as (_ & _ & -> & Hro).
  rewrite run_pool_put in H. pose proof (vault_put_spec asset _ _ (ok_pool v Hv) Hro) as Hp.
  destruct (vault_put _ _ _) as [t|]; [|done]. destruct Hp as (_ & Hto & Vt). run_body in H.
  pose proof (quantity_add_spec _ want (ok_units v Hv) Hw) as Ha. destruct (quantity_add _ _) as [s|]; [|done]. destruct Ha as [Hs Vs].
  unfold unit_mint in H. run_body in H. injection H as _ <-. split; [|done].
  assert (Et : subunits t = fig_a v + subunits needed) by (unfold held, fig_a in *; cbn [bucket_quantity subunits] in Vt; lia).
  destruct Hw, Hno. destruct (ok_pool v Hv), (ok_units v Hv).
  eapply (moved_joined _ _ (subunits needed) (subunits want)); cbn; [lia|lia|done|done|done| |].
  - unfold fig_a, fig_u. intros Hu Ha. rewrite (Hn1 Ha Hu). apply up_covers. lia.
  - unfold fig_a, fig_u. intros Epar. destruct (decide (subunits (sh_pool v) = 0)) as [E0|E0].
    + by rewrite (Hn2 (or_introl E0)).
    + rewrite (Hn1 E0 ltac:(lia)), Epar. by rewrite div_round_exact by lia.
Qed.
Lemma withdraw_moved v want units outs v' : vault_ok v → quantity_ok want → bucket_ok units → vault_withdraw want units v = Returned (outs, v') →
  vault_moved v v' ∧ quantity_ok (sh_pool v') ∧ quantity_ok (sh_supply v').
Proof.
  intros Hv Hw Hf H. unfold vault_withdraw in H. run_body in H. destruct (quantity_ratio_to _ _) as [rate|] eqn:Er; [|done].
  destruct (scale_claim _ _ _ _ Hw (ok_units v Hv) (ok_pool v Hv) Er) as (_ & Hpos & Hsc). run_body in H.
  destruct (quantity_scale want rate Up) as [needed|] eqn:En; [|done]. destruct (Hsc _ _ En) as [Hno Vn]. run_body in H.
  pose proof (quantity_try_sub_spec _ _ Hf Hno) as Hsp. destruct (quantity_try_sub _ _) as [spare|]; [|done]. destruct Hsp as [Hspo Vsp]. run_body in H.
  pose proof (bucket_take_spec units spare Hf Hspo) as Ht. destruct (bucket_take _ _) as [[back rest]|]; [|done]. destruct Ht as (_ & _ & -> & Hro).
  rewrite run_unit_burn in H. cbn [bucket_resource] in H. destruct (decide _); [|done]. run_body in H. cbn [sh_supply with_issued] in H.
  pose proof (quantity_sub_spec _ needed (ok_units v Hv) Hno) as Hs. destruct (quantity_sub _ _) as [s|]; [|done]. destruct Hs as [Hso Vs]. run_body in H.
  rewrite run_pool_take in H. cbn [sh_pool with_units with_issued] in H. pose proof (vault_take_spec asset _ want (ok_pool v Hv) Hw) as Hp.
  destruct (vault_take _ _ _) as [[b t]|]; [|done]. destruct Hp as (_ & Hto & Vt). injection H as _ <-. split; [|done].
  destruct Hw, Hno. destruct (ok_units v Hv).
  eapply (moved_left _ _ (subunits want) (subunits needed)); [lia|lia|exact Vt|exact Vs| | |].
  - cbn. unfold held. cbn [bucket_quantity subunits]. unfold held. lia.
  - unfold fig_a, fig_u in *. rewrite Vn. by apply up_covers.
  - unfold fig_a, fig_u. intros Epar. rewrite Vn, <- Epar, div_round_exact by lia. done.
Qed.
Lemma redeem_moved v units b v' : vault_ok v → bucket_ok units → vault_redeem units v = Returned (b, v') →
  vault_moved v v' ∧ quantity_ok (sh_pool v') ∧ quantity_ok (sh_supply v').
Proof.
  intros Hv Hf H. unfold vault_redeem in H. run_body in H. destruct (quantity_ratio_to _ _) as [rate|] eqn:Er; [|done].
  destruct (scale_claim _ _ _ _ Hf (ok_pool v Hv) (ok_units v Hv) Er) as (_ & Hpos & Hsc). run_body in H.
  destruct (quantity_scale _ rate Down) as [out|] eqn:En; [|done]. destruct (Hsc _ _ En) as [Hoo Vo]. run_body in H.
  rewrite run_unit_burn in H. destruct (decide _); [|done]. run_body in H. cbn [sh_supply with_issued] in H.
  pose proof (quantity_sub_spec _ _ (ok_units v Hv) Hf) as Hs. destruct (quantity_sub _ _) as [s|]; [|done]. destruct Hs as [Hso Vs]. run_body in H.
  rewrite run_last_take, run_pool_take in H. cbn [sh_pool with_units with_issued] in H. pose proof (vault_take_spec asset _ out (ok_pool v Hv) Hoo) as Hp.
  destruct (vault_take _ _ _) as [[b' t]|]; [|done]. destruct Hp as (_ & Hto & Vt). injection H as _ <-. split; [|done].
  unfold bucket_ok, quantity_ok, in_width in Hf, Hoo. fold (held units) in *. cbn [div_round] in Vo.
  eapply (moved_left _ _ (subunits out) (held units)); [lia|lia|exact Vt|exact Vs|done| |].
  - unfold fig_a, fig_u in *. rewrite Vo. pose proof (Z.mul_div_le (held units * subunits (sh_pool v)) _ Hpos). lia.
  - unfold fig_a, fig_u. intros Epar. rewrite Vo, Epar, Z.div_mul by lia. done.
Qed.
Lemma vault_step_moved v v' : vault_ok v → vault_step v v' → vault_moved v v' ∧ vault_ok v'.
Proof.
  intros Hv H. assert (Hm : vault_moved v v' ∧ quantity_ok (sh_pool v') ∧ quantity_ok (sh_supply v')).
  { destruct H as [f b Hf H|w f o Hw Hf H|w f o Hw Hf H|f b Hf H];
      [exact (proj1 (deposit_moved _ _ _ _ Hv Hf H))|exact (mint_moved _ _ _ _ _ Hv Hw Hf H)|exact (withdraw_moved _ _ _ _ _ Hv Hw Hf H)|exact (redeem_moved _ _ _ _ Hv Hf H)]. }
  destruct Hm as (Hm & Hp & Hu). split; [done|]. split; [done|done|]. pose proof (ok_minted v Hv). destruct Hm; lia.
Qed.

(** *** Along any calls *)

Definition price_no_less (v v' : Shares) : Prop := fig_a v * fig_u v' ≤ fig_a v' * fig_u v.
Lemma vault_figs v : vault_ok v → 0 ≤ fig_a v ∧ 0 ≤ fig_u v.
Proof. intros Hv. split; [apply (ok_pool v Hv)|apply (ok_units v Hv)]. Qed.
Lemma step_price v v' : vault_ok v → 0 < fig_u v → vault_step v v' → price_no_less v v'.
Proof.
  intros Hv Hu H. destruct (vault_step_moved v v' Hv H) as [Hm _]. destruct (vault_figs v Hv). unfold price_no_less.
  destruct Hm as [p m Hp Hm Ea Eu _ Hle _|o r Ho Hr Ea Eu _ Hle _]; rewrite Ea, Eu; [|lia].
  destruct (decide (fig_a v = 0)) as [E0|E0]; [rewrite E0; nia|]. pose proof (Hle ltac:(lia) E0). lia.
Qed.
Definition held_step (v v' : Shares) : Prop := vault_step v v' ∧ 0 < fig_u v'.
Lemma run_price v v' : vault_ok v → 0 < fig_u v → rtc held_step v v' → 0 < fig_u v' ∧ price_no_less v v'.
Proof.
  intros Hv Hu H. revert Hv Hu. induction H as [v|v w x [Hvw Hw] _ IH]; intros Hv Hu; [by unfold price_no_less|].
  pose proof (step_price v w Hv Hu Hvw) as H1. destruct (vault_step_moved v w Hv Hvw) as [_ Hwo]. destruct (IH Hwo Hw) as [Hx H2]. split; [done|].
  destruct (vault_figs v Hv). unfold price_no_less in *. apply (Z.mul_le_mono_pos_r _ _ (fig_u w)); [done|].
  transitivity (fig_a w * fig_u v * fig_u x); nia.
Qed.
Lemma vault_new_ok : vault_ok shares_new.
Proof. split; [by split..|done]. Qed.
Lemma step_par v v' : vault_ok v → fig_a v = fig_u v → vault_step v v' → vault_ok v' ∧ fig_a v' = fig_u v'.
Proof.
  intros Hv Ev H. destruct (vault_step_moved v v' Hv H) as [Hm Hv']. split; [done|].
  destruct Hm as [p m _ _ Ea Eu _ _ Hpar|o r _ _ Ea Eu _ _ Hpar]; specialize (Hpar Ev); lia.
Qed.
Lemma run_par v : rtc vault_step shares_new v → vault_ok v ∧ fig_a v = fig_u v.
Proof.
  assert (H0 : vault_ok shares_new ∧ fig_a shares_new = fig_u shares_new) by (split; [apply vault_new_ok|done]). revert H0. generalize shares_new as u.
  intros u H0 H. revert H0. induction H as [|u w x Huw _ IH]; [done|]. intros [Hu Eu]. apply IH. by apply (step_par u).
Qed.
End shares.

(** C32: assets per share never fall. Whatever is called in whatever order, while a share stays outstanding the pool's assets
    over its shares do not fall; and a vault brought up empty is at par in every state it can reach, with exactly as many
    shares minted as assets held, so a deposit always mints what it paid and no sequence of calls inflates the price a
    later depositor would round away against. *)
Theorem share_price_never_falls asset unit_ v v' w :
  vault_ok v → 0 < fig_u v → rtc (held_step asset unit_) v v' → rtc (vault_step asset unit_) shares_new w →
  fig_a v * fig_u v' ≤ fig_a v' * fig_u v ∧
  fig_a w = fig_u w ∧ fig_u w = sh_issued w ∧
  (∀ funds b w', bucket_ok funds → vault_deposit asset unit_ funds w = Returned (b, w') → held b = held funds).
Proof.
  intros Hv Hu Hr Hw. destruct (run_par asset unit_ w Hw) as [Hwo Ew]. split; [by destruct (run_price asset unit_ v v' Hv Hu Hr)|]. split; [done|]. split; [apply (ok_minted w Hwo)|].
  intros funds b w' Hf H. destruct (deposit_moved asset unit_ _ _ _ _ Hwo Hf H) as [[Hm _] Eb].
  assert (Hs : vault_step asset unit_ w w') by (by eapply step_deposit).
  destruct (run_par asset unit_ w' (rtc_r _ _ _ Hw Hs)) as [_ Ew']. unfold vault_deposit in H. run_body in H. rewrite run_pool_put in H.
  pose proof (vault_put_spec asset _ funds (ok_pool w Hwo) Hf) as Hp. destruct (vault_put _ _ _) as [t|]; [|done]. destruct Hp as (_ & _ & Vt).
  apply bind_returned in H as (m & w1 & Hm' & H). assert (Ew1 : w1 = with_pool t w).
  { destruct (priced_runs _ _ _ _ _ _ _ Hf (ok_units w Hwo) (ok_pool w Hwo) Hm') as [-> _]. done. }
  subst w1. run_body in H. destruct (quantity_add _ _); [|done]. unfold unit_mint in H. run_body in H. injection H as _ <-.
  unfold fig_a, fig_u in *. cbn in *. lia.
Qed.

(** Two depositors, a change-giving mint, a withdrawal and a redemption, in resource 3 with shares in resource 8. *)
Definition demo_edge (r q : Z) : Bucket := {| bucket_resource := r; bucket_quantity := from_subunits q |}.
Definition demo_state (a u : Z) : Shares := {| sh_pool := from_subunits a; sh_supply := from_subunits u; sh_issued := u |}.
Lemma demo_edge_ok r q : 0 ≤ q < 2 ^ 128 → bucket_ok (demo_edge r q).
Proof. done. Qed.
(** A vault that does hold more assets than shares: three of the ten assets round to the pool. *)
Lemma share_price_never_falls_witness :
  vault_mint 3 8 (from_subunits 5) (demo_edge 3 20) (demo_state 10 7) = Returned ((demo_edge 8 5, demo_edge 3 12), demo_state 18 12) ∧
  fig_a (demo_state 10 7) * fig_u (demo_state 18 12) ≤ fig_a (demo_state 18 12) * fig_u (demo_state 10 7) ∧
  (∀ funds b w', bucket_ok funds → vault_deposit 3 8 funds (demo_state 100 100) = Returned (b, w') → held b = held funds).
Proof.
  assert (E : vault_mint 3 8 (from_subunits 5) (demo_edge 3 20) (demo_state 10 7) = Returned ((demo_edge 8 5, demo_edge 3 12), demo_state 18 12))
    by (vm_compute; reflexivity).
  assert (D : vault_deposit 3 8 (demo_edge 3 100) shares_new = Returned (demo_edge 8 100, demo_state 100 100)) by (vm_compute; reflexivity).
  assert (Hv : vault_ok (demo_state 10 7)) by (split; [by split..|done]). split; [exact E|].
  destruct (share_price_never_falls 3 8 (demo_state 10 7) (demo_state 18 12) (demo_state 100 100)) as (H1 & _ & _ & H2).
  - exact Hv.
  - vm_compute. reflexivity.
  - apply rtc_once. split; [|vm_compute; reflexivity]. refine (step_mint _ _ _ _ (from_subunits 5) (demo_edge 3 20) _ _ _ E); [by split|apply demo_edge_ok; lia].
  - apply rtc_once. refine (step_deposit _ _ _ _ (demo_edge 3 100) _ _ D). apply demo_edge_ok. lia.
  - split; [exact H1|exact H2].
Defined.

(** ** The flash lender *)

Inductive FlashError := Short.
Record Flashloan := { fl_till : Quantity; fl_debt : Z }.

Section flashloan.
Context (asset debt_ : Address).
Definition flash_draw (amt : Quantity) : Body Flashloan FlashError (Bucket * Bucket) :=
  now ← reads fl_till;
  '(funds, rest) ← fallible (vault_take asset now amt);
  owed ← reads fl_debt;
  let '(debt, total) := issue_mint debt_ owed amt in
  _ ← writes (λ _, {| fl_till := rest; fl_debt := total |});
  mret (funds, debt).
Definition flash_repay (funds debt : Bucket) : Body Flashloan FlashError () :=
  let returned := bucket_quantity funds in
  let owed := bucket_quantity debt in
  _ ← some_or_refuse (quantity_try_sub returned owed) Short;
  now ← reads fl_till;
  total ← fallible (vault_put asset now funds);
  outstanding ← reads fl_debt;
  rest ← fallible (issue_burn debt_ outstanding debt);
  writes (λ _, {| fl_till := total; fl_debt := rest |}).
Inductive flash_step (s s' : Flashloan) : Prop :=
  | step_draw amt outs : quantity_ok amt → flash_draw amt s = Returned (outs, s') → flash_step s s'
  | step_repay funds debt : bucket_ok funds → bucket_ok debt → flash_repay funds debt s = Returned ((), s') → flash_step s s'.

Lemma flash_step_whole s s' : quantity_ok (fl_till s) → flash_step s s' →
  quantity_ok (fl_till s') ∧ subunits (fl_till s) + fl_debt s ≤ subunits (fl_till s') + fl_debt s'.
Proof.
  intros Ht [amt outs Ha H|funds debt Hf Hd H].
  - unfold flash_draw in H. run_body in H. pose proof (vault_take_spec asset _ amt Ht Ha) as Hp. destruct (vault_take _ _ _) as [[b r]|]; [|done].
    run_body in H. injection H as _ <-. destruct Hp as (_ & Hr & Vr). split; [done|]. cbn. lia.
  - unfold flash_repay in H. run_body in H. pose proof (quantity_try_sub_spec _ _ Hf Hd) as Hs. destruct (quantity_try_sub _ _) as [x|]; [|done].
    destruct Hs as [[Hx0 _] Hx]. run_body in H. pose proof (vault_put_spec asset _ funds Ht Hf) as Hp. destruct (vault_put _ _ _) as [t|]; [|done].
    destruct Hp as (_ & Hto & Vt). run_body in H. unfold issue_burn in H. destruct (decide _); [|done]. unfold writes in H. injection H as <-.
    split; [done|]. cbn. unfold held in Vt. lia.
Qed.
(** What the till holds and what it is owed never fall together, so where every obligation is retired the till is whole. *)
Theorem flash_till_whole s s' : quantity_ok (fl_till s) → rtc flash_step s s' → fl_debt s = fl_debt s' →
  subunits (fl_till s) ≤ subunits (fl_till s').
Proof.
  intros Ht H E. assert (Hs : quantity_ok (fl_till s') ∧ subunits (fl_till s) + fl_debt s ≤ subunits (fl_till s') + fl_debt s'); [|lia].
  clear E. induction H as [s|s t u Hst _ IH]; [split; [done|lia]|]. destruct (flash_step_whole s t Ht Hst) as [Hto H1]. destruct (IH Hto). split; [done|lia].
Qed.
End flashloan.

(** ** The splitter *)

Inductive PayoutsError := ShareUnclaimed | BelowOneLot | OverClaimed.
Record PayoutTerms := { pt_asset : Address; pt_protocol : UnitFixed; pt_treasury : UnitFixed; pt_referrer : UnitFixed }.

Section payouts.
Context (terms : PayoutTerms).
Abbreviation Splitter := (Body Quantity PayoutsError) (only parsing).
Definition payouts_instantiate : Splitter () :=
  let claimed := unit_scaled (pt_protocol terms) + unit_scaled (pt_treasury terms) + unit_scaled (pt_referrer terms) in
  refuse_if (bool_decide (unit_scaled unit_ONE < claimed)) OverClaimed.
Definition payout_table : list Ratio := [unit_ratio (pt_protocol terms); unit_ratio (pt_treasury terms); unit_ratio (pt_referrer terms)].
Definition keep (dust : Bucket) : Splitter () :=
  now ← reads (λ kept, kept); total ← fallible (vault_put (pt_asset terms) now dust); writes (λ _, total).
Definition disburse (pot : Bucket) : Splitter (list Bucket) :=
  '(parts, dust) ← fallible (bucket_split_n pot payout_table);
  _ ← keep dust;
  mret parts.
Definition payouts_settle (pot : Bucket) : Splitter (list Bucket) :=
  '(parts, dust) ← fallible (bucket_split_n pot payout_table);
  _ ← refuse_if (negb (quantity_is_zero (bucket_quantity dust))) ShareUnclaimed;
  _ ← keep dust;
  mret parts.
Definition in_lots (pot : Bucket) (lot : Quantity) : Splitter (Bucket * Bucket) :=
  let paid := bucket_quantity pot in
  whole ← computed (quantity_round_to_multiple paid lot Down);
  _ ← refuse_if (quantity_is_zero lot || quantity_is_zero whole) BelowOneLot;
  let portion := match quantity_ratio_to whole paid with Ok r => r | Err _ => ratio_ONE end in
  fallible (bucket_split pot portion).
Definition divides (paid lot : Quantity) : bool := quantity_is_multiple_of paid lot.
Definition terms_ok : Prop :=
  unit_ok (pt_protocol terms) ∧ unit_ok (pt_treasury terms) ∧ unit_ok (pt_referrer terms) ∧ payouts_instantiate quantity_ZERO = Returned ((), quantity_ZERO).

(** *** A table of at most the whole always divides *)

Definition claimed_by (us : list UnitFixed) : Z := foldr (λ u total, unit_scaled u + total) 0 us.
Lemma claimed_nonneg us : Forall unit_ok us → 0 ≤ claimed_by us.
Proof. induction 1 as [|x l Hx _ IH]; [done|]. change (0 ≤ unit_scaled x + claimed_by l). unfold unit_ok in Hx. lia. Qed.
Lemma split_units whole us : ∀ b, quantity_ok whole → Forall unit_ok us → bucket_ok b →
  subunits whole * claimed_by us ≤ held b * UNIT_SCALE → ∃ parts rest, split_each whole (unit_ratio <$> us) b = Ok (parts, rest).
Proof.
  induction us as [|u us IH]; intros b Hw Hu Hb Hle; [by eexists _, _|]. apply Forall_cons in Hu as [Hu Hus]. cbn [fmap list_fmap split_each].
  destruct (unit_ratio_ok u Hu) as (Hr & En & Ed). assert (Hs : quantity_scale whole (unit_ratio u) Down = Ok (from_subunits (subunits whole * unit_scaled u / UNIT_SCALE))).
  { rewrite (quantity_scale_share whole _ Down Hw Hr) by (rewrite En, Ed; unfold unit_ok in Hu; lia). cbn [div_round]. rewrite En, Ed. done. }
  rewrite Hs. cbn [map_err mbind result_bind]. set (part := subunits whole * unit_scaled u / UNIT_SCALE).
  assert (HD : 0 < UNIT_SCALE) by done. assert (Hwq : 0 ≤ subunits whole < 2 ^ 128) by exact Hw. unfold unit_ok in Hu.
  assert (Hp : 0 ≤ part ≤ subunits whole) by (subst part; split; [apply Z.div_pos; nia|apply Z.div_le_upper_bound; nia]).
  pose proof (Z.mul_div_le (subunits whole * unit_scaled u) UNIT_SCALE HD) as Hfl. fold part in Hfl.
  pose proof (claimed_nonneg us Hus) as Hcl.
  cbn [claimed_by foldr] in Hle. fold (claimed_by us) in Hle.
  assert (Hq : quantity_ok (from_subunits part)) by (unfold quantity_ok, in_width; cbn [subunits]; lia).
  pose proof (bucket_take_spec b (from_subunits part) Hb Hq) as Ht. destruct (bucket_take b (from_subunits part)) as [[taken b1]|f]; cbn [subunits] in Ht.
  - destruct Ht as (_ & _ & Eb1 & Hb1). cbn [mbind result_bind]. destruct (IH b1 Hw Hus Hb1) as (parts & rest & E).
    + subst b1. unfold held at 1. cbn [bucket_quantity subunits]. nia.
    + rewrite E. by eexists _, _.
  - destruct Ht as [_ Ht]. nia.
Qed.
Lemma unit_parts q us r : ∀ parts, Forall unit_ok us →
  Forall2 (λ s p, held p = q * wide_val (num s) / wide_val (den s) ∧ bucket_resource p = r) (unit_ratio <$> us) parts →
  Forall2 (λ u p, held p = q * unit_scaled u / UNIT_SCALE) us parts.
Proof.
  induction us as [|u us IH]; intros parts Hu H; [by apply Forall2_nil_inv_l in H as ->|]. apply Forall_cons in Hu as [Hu Hus].
  apply Forall2_cons_inv_l in H as (p & ps & [Ep _] & H & ->). constructor; [|by apply IH].
  destruct (unit_ratio_ok u Hu) as (_ & En & Ed). rewrite En, Ed in Ep. exact Ep.
Qed.
Lemma parts_nonneg q us parts : 0 ≤ q → Forall unit_ok us → Forall2 (λ u p, held p = q * unit_scaled u / UNIT_SCALE) us parts → 0 ≤ held_by parts.
Proof.
  intros Hq Hu H. revert Hu. induction H as [|u p us ps Ep _ IH]; intros Hu; [done|]. apply Forall_cons in Hu as [Hu Hus].
  change (0 ≤ held p + held_by ps). rewrite Ep. unfold unit_ok in Hu. assert (0 < UNIT_SCALE) by (unfold UNIT_SCALE; lia).
  apply Z.add_nonneg_nonneg; [apply Z.div_pos; nia|by apply IH].
Qed.
Lemma table_ok_ratios : terms_ok → Forall ratio_ok payout_table ∧ Forall unit_ok [pt_protocol terms; pt_treasury terms; pt_referrer terms] ∧
  claimed_by [pt_protocol terms; pt_treasury terms; pt_referrer terms] ≤ UNIT_SCALE.
Proof.
  intros (H1 & H2 & H3 & H). split; [|split].
  { unfold payout_table. rewrite !Forall_cons. split; [by apply unit_ratio_ok|]. split; [by apply unit_ratio_ok|]. split; [by apply unit_ratio_ok|apply Forall_nil_2]. }
  { rewrite !Forall_cons. split; [done|]. split; [done|]. split; [done|apply Forall_nil_2]. }
  unfold payouts_instantiate, refuse_if in H. cbn [unit_scaled unit_ONE] in H. case_bool_decide; [done|]. cbn. lia.
Qed.

(** A payment is divided whole: the floored share of each party and the dust, which joins what the splitter keeps. *)
Lemma disburse_runs pot kept : terms_ok → bucket_ok pot → quantity_ok kept → bucket_resource pot = pt_asset terms →
  subunits kept + held pot ≤ u128_max →
  ∃ parts kept', disburse pot kept = Returned (parts, kept') ∧ quantity_ok kept' ∧
    held_by parts + subunits kept' = held pot + subunits kept ∧
    Forall2 (λ u p, held p = held pot * unit_scaled u / UNIT_SCALE) [pt_protocol terms; pt_treasury terms; pt_referrer terms] parts.
Proof.
  intros Ht Hp Hk Er Hfit. destruct (table_ok_ratios Ht) as (Hr & Hu & Hc). assert (Hpq : 0 ≤ held pot < 2 ^ 128) by exact Hp.
  destruct (split_units (bucket_quantity pot) _ pot Hp Hu Hp) as (parts & rest & E).
  { fold (held pot). nia. }
  change (unit_ratio <$> [pt_protocol terms; pt_treasury terms; pt_referrer terms]) with payout_table in E.
  unfold disburse, bucket_split_n. run_body. rewrite E. cbv beta iota.
  destruct (split_each_spec _ _ _ _ _ Hp Hr Hp E) as (Hsum & Hrest & Hres & Hparts). unfold keep. run_body.
  apply (unit_parts (held pot) [pt_protocol terms; pt_treasury terms; pt_referrer terms] _ _ Hu) in Hparts. pose proof (parts_nonneg _ _ _ (proj1 Hpq) Hu Hparts) as Hpos.
  pose proof (vault_put_spec (pt_asset terms) kept rest Hk Hrest) as Hv. destruct (vault_put _ _ _) as [t|f].
  2: { destruct Hv as [[_ Hv]|[_ Hv]]; [congruence|]. lia. }
  destruct Hv as (_ & Hto & Vt). exists parts, t. split; [done|]. split; [done|]. split; [lia|done].
Qed.

(** In lots: the payable part is the whole lots of the payment and the change is short of one. *)
Lemma in_lots_runs pot lot kept : bucket_ok pot → quantity_ok lot →
  in_lots pot lot kept =
    if decide (subunits lot = 0 ∨ held pot < subunits lot) then Refused BelowOneLot
    else Returned (({| bucket_resource := bucket_resource pot; bucket_quantity := from_subunits (subunits lot * (held pot / subunits lot)) |},
                    {| bucket_resource := bucket_resource pot; bucket_quantity := from_subunits (held pot mod subunits lot) |}), kept).
Proof.
  intros Hp Hl. assert (Hpq : 0 ≤ held pot < 2 ^ 128) by exact Hp. assert (Hlq : 0 ≤ subunits lot < 2 ^ 128) by exact Hl.
  unfold in_lots. run_body. destruct (decide (subunits lot = 0)) as [E0|E0].
  { unfold quantity_round_to_multiple. rewrite E0, decide_True by done. run_body. unfold quantity_is_zero. rewrite E0. cbn [orb bool_decide decide_rel].
    rewrite (decide_True (P := _ ∨ _)) by (by left). done. }
  pose proof (quantity_round_spec (bucket_quantity pot) lot Down Hp Hl E0) as Hr. cbv zeta in Hr. cbn [div_round] in Hr. fold (held pot) in Hr.
  destruct (quantity_round_to_multiple _ _ _) as [w|]; [|by destruct Hr as (_ & ? & _)]. destruct Hr as (Hwo & Vw & _). run_body.
  pose proof (Z.div_mod (held pot) (subunits lot) E0) as Edm. pose proof (Z.mod_pos_bound (held pot) (subunits lot) ltac:(lia)) as Hm.
  unfold quantity_is_zero at 1. rewrite (bool_decide_false (subunits lot = 0)) by done. cbn [orb]. unfold quantity_is_zero. rewrite Vw.
  destruct (decide (held pot < subunits lot)) as [Hlt|Hge].
  { rewrite (decide_True (P := _ ∨ _)) by (by right). rewrite Z.div_small, Z.mul_0_r by lia. rewrite bool_decide_true by done. done. }
  assert (0 < held pot / subunits lot) by (apply Z.div_str_pos; lia). rewrite (decide_False (P := _ ∨ _)) by lia. rewrite bool_decide_false by nia.
  unfold quantity_ratio_to. pose proof (ratio_of_spec (subunits w) (held pot) Hwo Hp) as Hq. change (subunits (bucket_quantity pot)) with (held pot).
  destruct (ratio_of _ _) as [r|]; [|lia]. destruct Hq as (Hro & En & Ed).
  destruct (bucket_split_spec pot r Hp Hro) as [Es _]; [rewrite En, Ed; nia|]. rewrite En, Ed, Vw in Es.
  unfold fallible. rewrite Es. rewrite (Z.mul_comm (held pot)), Z.div_mul by lia.
  replace (held pot - subunits lot * (held pot / subunits lot)) with (held pot mod subunits lot) by lia. done.
Qed.
End payouts.

(** A payment is divided whole. A splitter whose table its bring-up accepted divides every payment it can hold, never
    trapping: each party gets the floor of its share, the dust joins what the splitter keeps, and parts and keeping are the
    payment and what was kept before; paid in lots, the payer gets the whole lots paid and a change short of one back,
    and is refused exactly below one lot. *)
Theorem payments_divide_whole terms pot lot kept : terms_ok terms → bucket_ok pot → quantity_ok lot → quantity_ok kept →
  bucket_resource pot = pt_asset terms → subunits kept + held pot ≤ u128_max →
  (∃ parts kept', disburse terms pot kept = Returned (parts, kept') ∧ held_by parts + subunits kept' = held pot + subunits kept ∧
    Forall2 (λ u p, held p = held pot * unit_scaled u / UNIT_SCALE) [pt_protocol terms; pt_treasury terms; pt_referrer terms] parts) ∧
  match in_lots pot lot kept with
  | Returned ((payable, change), kept') => kept' = kept ∧ held payable + held change = held pot ∧ held change < subunits lot ∧
      (subunits lot | held payable) ∧ 0 < held payable
  | Refused e => e = BelowOneLot ∧ (subunits lot = 0 ∨ held pot < subunits lot)
  | Trapped _ => False
  end.
Proof.
  intros Ht Hp Hl Hk Er Hfit. split.
  { destruct (disburse_runs terms pot kept Ht Hp Hk Er Hfit) as (parts & kept' & H1 & _ & H2 & H3). exists parts, kept'. split; [exact H1|]. split; [exact H2|exact H3]. }
  rewrite (in_lots_runs pot lot kept Hp Hl). assert (Hpq : 0 ≤ held pot < 2 ^ 128) by exact Hp. assert (Hlq : 0 ≤ subunits lot < 2 ^ 128) by exact Hl.
  case_decide as Hd; [done|]. assert (E0 : subunits lot ≠ 0) by lia. pose proof (Z.div_mod (held pot) (subunits lot) E0).
  pose proof (Z.mod_pos_bound (held pot) (subunits lot) ltac:(lia)). assert (0 < held pot / subunits lot) by (apply Z.div_str_pos; lia).
  split; [done|]. rewrite !held_made. split; [lia|]. split; [lia|]. split; [apply Z.divide_factor_l|nia].
Qed.
Definition demo_terms : PayoutTerms :=
  {| pt_asset := 3; pt_protocol := {| unit_scaled := 5 * 10 ^ 17 |}; pt_treasury := {| unit_scaled := 3 * 10 ^ 17 |}; pt_referrer := {| unit_scaled := 2 * 10 ^ 17 |} |}.
Lemma payments_divide_whole_witness :
  disburse demo_terms (demo_edge 3 17) (from_subunits 4) = Returned ([demo_edge 3 8; demo_edge 3 5; demo_edge 3 3], from_subunits 5) ∧
  match in_lots (demo_edge 3 17) (from_subunits 5) (from_subunits 4) with Returned ((p, c), _) => held p + held c = 17 ∧ held c < 5 | _ => False end.
Proof.
  assert (Ht : terms_ok demo_terms) by (unfold terms_ok, unit_ok, UNIT_SCALE; cbn [pt_protocol pt_treasury pt_referrer demo_terms unit_scaled];
    split; [lia|]; split; [lia|]; split; [lia|vm_compute; reflexivity]).
  assert (H := payments_divide_whole demo_terms (demo_edge 3 17) (from_subunits 5) (from_subunits 4) Ht (demo_edge_ok 3 17 ltac:(lia))
    ltac:(by split) ltac:(by split) eq_refl ltac:(vm_compute; discriminate)).
  split; [vm_compute; reflexivity|]. destruct H as [_ H]. revert H. vm_compute. intros (_ & H1 & H2 & _). split; [exact H1|exact H2].
Defined.

