(* ===== verification/Lending.v ===== *)
(** * The lending market and the redemption window ([guests/lending], [guests/peg])

    The two packages that compute in stored rates. The market keeps one position: collateral in one resource, debt in
    shares of an index that compounds, judged across a numeraire. The window redeems a stable at parity plus a signed
    deviation. The dimensions of the rates are the phantom types of [Numbers], so the compositions below typecheck only
    where their middle terms cancel. *)

From S2P Require Import Prelude Types WideMath Numbers Contracts.

(** ** The market *)

(** The dimensions: names, with no values. *)
Inductive Collateral : Type := .
Inductive Debt : Type := .
Inductive Share : Type := .
Inductive Numeraire : Type := .

Record LendingTerms := {
  lt_collateral : Address; lt_debt : Address; lt_oracle : Address;
  lt_ltv : UnitFixed; lt_threshold : UnitFixed; lt_growth : Fixed Share Share }.
Inductive LendingError := PriceUnset | IndexStale | OverLtv | StillCovered | NothingOwed | SameAsset | LiquidatesAtOpen.
#[global] Instance LendingError_eq_dec : EqDecision LendingError.
Proof. solve_decision. Defined.
Record Lending := {
  ln_posted : Quantity; ln_reserves : Quantity; ln_index : Fixed Debt Share;
  ln_collateral_price : Fixed Numeraire Collateral; ln_debt_price : Fixed Numeraire Debt;
  ln_shares : Quantity; ln_accrued : option Z }.
Definition with_posted q m := {| ln_posted := q; ln_reserves := ln_reserves m; ln_index := ln_index m; ln_collateral_price := ln_collateral_price m;
  ln_debt_price := ln_debt_price m; ln_shares := ln_shares m; ln_accrued := ln_accrued m |}.
Definition with_reserves q m := {| ln_posted := ln_posted m; ln_reserves := q; ln_index := ln_index m; ln_collateral_price := ln_collateral_price m;
  ln_debt_price := ln_debt_price m; ln_shares := ln_shares m; ln_accrued := ln_accrued m |}.
Definition with_index i m := {| ln_posted := ln_posted m; ln_reserves := ln_reserves m; ln_index := i; ln_collateral_price := ln_collateral_price m;
  ln_debt_price := ln_debt_price m; ln_shares := ln_shares m; ln_accrued := ln_accrued m |}.
Definition with_prices c d m := {| ln_posted := ln_posted m; ln_reserves := ln_reserves m; ln_index := ln_index m; ln_collateral_price := c;
  ln_debt_price := d; ln_shares := ln_shares m; ln_accrued := ln_accrued m |}.
Definition with_shares q m := {| ln_posted := ln_posted m; ln_reserves := ln_reserves m; ln_index := ln_index m; ln_collateral_price := ln_collateral_price m;
  ln_debt_price := ln_debt_price m; ln_shares := q; ln_accrued := ln_accrued m |}.
Definition with_accrued t m := {| ln_posted := ln_posted m; ln_reserves := ln_reserves m; ln_index := ln_index m; ln_collateral_price := ln_collateral_price m;
  ln_debt_price := ln_debt_price m; ln_shares := ln_shares m; ln_accrued := t |}.

Definition stale (accrued : option Z) (now : Z) : bool := match accrued with None => true | Some last => bool_decide (last ≠ now) end.
Definition started (h : Fixed Debt Share) : Fixed Debt Share := if fixed_is_zero h then fixed_ONE else h.
Definition index_of (h : Fixed Debt Share) : result Fault (Rate Debt Share * Rate Share Debt) :=
  let index := started h in
  per_debt ← map_err (λ _, PackagePanic) (fixed_recip_rate index);
  Ok (fixed_rate index, per_debt).

Section lending.
Context (terms : LendingTerms).
Abbreviation Market := (Body Lending LendingError) (only parsing).

Definition lending_instantiate : Market () :=
  _ ← refuse_if (bool_decide (lt_collateral terms = lt_debt terms)) SameAsset;
  refuse_if (bool_decide (unit_scaled (lt_threshold terms) ≤ unit_scaled (lt_ltv terms))) LiquidatesAtOpen.
(** [post_price]: the oracle's, by the rule the kernel judges before the body runs. *)
Definition post_price (c : Fixed Numeraire Collateral) (d : Fixed Numeraire Debt) : Market () := writes (with_prices c d).
Definition accrue (now : Z) : Market () :=
  last ← reads ln_accrued;
  _ ← match last with
      | Some last =>
          let periods := let span := saturating_sub now last in if decide (span ≤ u32_max) then span else u32_max in
          growth ← computed (fixed_pow_int (lt_growth terms) periods Down);
          h ← reads ln_index;
          '(index, _) ← fallible (index_of h);
          carried ← computed (rate_compose index (fixed_rate growth));
          next ← computed (rate_quantize carried Down);
          writes (with_index next)
      | None => mret ()
      end;
  writes (with_accrued (Some now)).
Definition lending_deposit (funds : Bucket) : Market Quantity :=
  posted ← reads ln_posted;
  after ← computed (quantity_add posted (bucket_quantity funds));
  total ← fallible (vault_put (lt_collateral terms) posted funds);
  _ ← writes (with_posted total);
  mret after.
Definition carried_to (now : Z) : Market () := accrued ← reads ln_accrued; refuse_if (stale accrued now) IndexStale.
Definition draw (want : Quantity) (now : Z) : Market Bucket :=
  _ ← carried_to now;
  collateral_price ← reads ln_collateral_price;
  debt_price ← reads ln_debt_price;
  _ ← refuse_if (fixed_is_zero collateral_price || fixed_is_zero debt_price) PriceUnset;
  h ← reads ln_index;
  '(index, per_debt) ← fallible (index_of h);
  drawn ← computed (quantity_convert want per_debt Up);
  shares ← reads ln_shares;
  after ← computed (quantity_add shares drawn);
  owed ← computed (quantity_convert after index Up);
  posted ← reads ln_posted;
  backing ← computed (quantity_convert posted (fixed_rate collateral_price) Down);
  exposure ← computed (quantity_convert owed (fixed_rate debt_price) Up);
  limit ← computed (quantity_scale backing (unit_ratio (lt_ltv terms)) Down);
  _ ← refuse_if (bool_decide (subunits limit < subunits exposure)) OverLtv;
  total ← computed (quantity_add shares drawn);
  _ ← writes (with_shares total);
  reserves ← reads ln_reserves;
  '(b, rest) ← fallible (vault_take (lt_debt terms) reserves want);
  _ ← writes (with_reserves rest);
  mret b.
Definition repay (funds : Bucket) (now : Z) : Market () :=
  let paid := bucket_quantity funds in
  _ ← carried_to now;
  reserves ← reads ln_reserves;
  total ← fallible (vault_put (lt_debt terms) reserves funds);
  _ ← writes (with_reserves total);
  h ← reads ln_index;
  '(_, per_debt) ← fallible (index_of h);
  retired ← computed (quantity_convert paid per_debt Down);
  shares ← reads ln_shares;
  writes (with_shares (quantity_saturating_sub shares retired)).
Definition liquidate (now : Z) : Market Bucket :=
  _ ← carried_to now;
  collateral_price ← reads ln_collateral_price;
  debt_price ← reads ln_debt_price;
  _ ← refuse_if (fixed_is_zero collateral_price || fixed_is_zero debt_price) PriceUnset;
  h ← reads ln_index;
  '(index, _) ← fallible (index_of h);
  shares ← reads ln_shares;
  owed ← computed (quantity_convert shares index Up);
  _ ← refuse_if (quantity_is_zero owed) NothingOwed;
  posted ← reads ln_posted;
  backing ← computed (quantity_convert posted (fixed_rate collateral_price) Down);
  exposure ← computed (quantity_convert owed (fixed_rate debt_price) Up);
  exceeded ← computed (quantity_exceeds exposure backing (unit_ratio (lt_threshold terms)));
  _ ← refuse_if (negb exceeded) StillCovered;
  _ ← writes (with_shares quantity_ZERO);
  seized ← reads ln_posted;
  '(b, rest) ← fallible (vault_take (lt_collateral terms) seized seized);
  _ ← writes (with_posted rest);
  mret b.
Definition index_scaled : Market (option Z) := h ← reads ln_index; mret (wide_try_to_u128 (scaled (started h))).

(** *** What the market's figures are *)

Record market_ok (m : Lending) : Prop := {
  ok_posted : quantity_ok (ln_posted m);
  ok_reserves : quantity_ok (ln_reserves m);
  ok_shares : quantity_ok (ln_shares m);
  ok_index : fixed_ok (ln_index m);
  ok_prices : fixed_ok (ln_collateral_price m) ∧ fixed_ok (ln_debt_price m);
}.
Definition lending_terms_ok : Prop :=
  unit_ok (lt_ltv terms) ∧ unit_ok (lt_threshold terms) ∧ fixed_ok (lt_growth terms) ∧
  lt_collateral terms ≠ lt_debt terms ∧ unit_scaled (lt_ltv terms) < unit_scaled (lt_threshold terms).

(** Debt subunits per share, at the scale: never nothing, so its reciprocal is always there. *)
Definition index_val (m : Lending) : Z := wide_val (scaled (started (ln_index m))).
Lemma started_ok h : fixed_ok h → fixed_ok (started h) ∧ 0 < wide_val (scaled (started h)).
Proof.
  intros Hh. unfold started, fixed_is_zero. rewrite wide_is_zero_spec by done. pose proof (wide_val_bound _ Hh). destruct scale_ok as [Hs Hv]. case_bool_decide.
  - split; [exact Hs|]. change (0 < wide_val (wide_from_u128 FIXED_SCALE)). rewrite Hv. lia.
  - split; [exact Hh|lia].
Qed.
Lemma index_of_spec h : fixed_ok h →
  ∃ per_debt, index_of h = Ok (fixed_rate (started h), per_debt) ∧ rate_ok (fixed_rate (started h)) ∧ rate_ok per_debt ∧
    wide_val (num (rate_ratio (fixed_rate (started h)))) = wide_val (scaled (started h)) ∧ wide_val (den (rate_ratio (fixed_rate (started h)))) = 10 ^ 36 ∧
    wide_val (num (rate_ratio per_debt)) = 10 ^ 36 ∧ wide_val (den (rate_ratio per_debt)) = wide_val (scaled (started h)).
Proof.
  intros Hh. destruct (started_ok h Hh) as [Hs Hp]. pose proof (fixed_rate_ok (started h) Hs) as Hr. pose proof (ratio_recip_spec _ Hr) as Hb.
  destruct scale_ok as [_ Hv]. unfold index_of, fixed_recip_rate, rate_recip. destruct (ratio_recip _) as [s|] eqn:E.
  - destruct Hb as (Hok & En & Ed). exists (Build_Rate s). cbn [map_err mbind result_bind]. unfold rate_ok. cbn [rate_ratio].
    rewrite En, Ed. unfold fixed_rate in *. cbn [rate_ratio num den] in *. split; [reflexivity|].
    split; [exact Hr|]. split; [exact Hok|]. split; [reflexivity|]. split; [exact Hv|]. split; [exact Hv|reflexivity].
  - destruct Hb as [_ Hb]. unfold fixed_rate in Hb. cbn [rate_ratio num] in Hb. lia.
Qed.
Lemma convert_spec {A B} q (r : Rate A B) rounding c : quantity_ok q → rate_ok r → quantity_convert q r rounding = Ok c →
  quantity_ok c ∧ subunits c = div_round rounding (subunits q * wide_val (num (rate_ratio r))) (wide_val (den (rate_ratio r))).
Proof. intros Hq Hr H. exact (quantity_scale_ok _ _ _ _ Hq Hr H). Qed.

(** A draw, from what it answered. *)
Lemma draw_inv want now m b m' : market_ok m → quantity_ok want → unit_ok (lt_ltv terms) → draw want now m = Returned (b, m') →
  ∃ per_debt drawn after owed backing exposure rest,
    stale (ln_accrued m) now = false ∧ fixed_is_zero (ln_collateral_price m) || fixed_is_zero (ln_debt_price m) = false ∧
    index_of (ln_index m) = Ok (fixed_rate (started (ln_index m)), per_debt) ∧
    quantity_convert want per_debt Up = Ok drawn ∧ quantity_add (ln_shares m) drawn = Ok after ∧
    quantity_convert after (fixed_rate (started (ln_index m))) Up = Ok owed ∧
    quantity_convert (ln_posted m) (fixed_rate (ln_collateral_price m)) Down = Ok backing ∧
    quantity_convert owed (fixed_rate (ln_debt_price m)) Up = Ok exposure ∧
    subunits exposure * UNIT_SCALE ≤ subunits backing * unit_scaled (lt_ltv terms) ∧
    vault_take (lt_debt terms) (ln_reserves m) want = Ok (b, rest) ∧ m' = with_reserves rest (with_shares after m) ∧
    quantity_ok drawn ∧ quantity_ok after ∧ quantity_ok owed ∧ quantity_ok backing ∧ quantity_ok exposure.
Proof.
  intros Hm Hw Hu H. unfold draw, carried_to in H. run_body in H. destruct (stale _ _) eqn:Est; [done|]. run_body in H.
  destruct (fixed_is_zero _ || _) eqn:Ez; [done|]. run_body in H. destruct (index_of_spec _ (ok_index m Hm)) as (per_debt & Ei & Hi & Hpd & _).
  rewrite Ei in H. cbv beta iota in H. run_body in H. destruct (quantity_convert want per_debt Up) as [drawn|] eqn:Ed; [|done]. run_body in H.
  destruct (convert_spec _ _ _ _ Hw Hpd Ed) as [Hdo _]. pose proof (quantity_add_spec _ _ (ok_shares m Hm) Hdo) as Ha.
  destruct (quantity_add _ _) as [after|] eqn:Ea; [|done]. destruct Ha as [Hao _]. run_body in H.
  destruct (quantity_convert after _ Up) as [owed|] eqn:Eo; [|done]. destruct (convert_spec _ _ _ _ Hao Hi Eo) as [Hoo _]. run_body in H.
  destruct (ok_prices m Hm) as [Hcp Hdp]. destruct (quantity_convert (ln_posted m) _ Down) as [backing|] eqn:Eb; [|done].
  destruct (convert_spec _ _ _ _ (ok_posted m Hm) (fixed_rate_ok _ Hcp) Eb) as [Hbo _]. run_body in H.
  destruct (quantity_convert owed _ Up) as [exposure|] eqn:Ee; [|done]. destruct (convert_spec _ _ _ _ Hoo (fixed_rate_ok _ Hdp) Ee) as [Heo _]. run_body in H.
  destruct (quantity_scale backing (unit_ratio (lt_ltv terms)) Down) as [limit|] eqn:El; [|done]. destruct (unit_ratio_ok _ Hu) as (Hr & En & Edn).
  destruct (quantity_scale_ok _ _ _ _ Hbo Hr El) as [_ Vl]. cbn [div_round] in Vl. rewrite En, Edn in Vl. run_body in H.
  clear En Edn Hr. case_bool_decide as Hlim; [done|]. run_body in H. destruct (vault_take _ _ _) as [[b' rest]|] eqn:Ev; [|done]. run_body in H. injection H as <- <-.
  exists per_debt, drawn, after, owed, backing, exposure, rest. pose proof (Z.mul_div_le (subunits backing * unit_scaled (lt_ltv terms)) UNIT_SCALE ltac:(done)) as Hfl.
  rewrite <- Vl in Hfl. assert (Hs : 0 < UNIT_SCALE) by (unfold UNIT_SCALE; lia). split_and!; try assumption; try reflexivity. nia.
Qed.

(** What is owed, what backs it and the exposure, in subunits: the figures a draw and a seizure weigh. *)
Definition owed_val (m : Lending) : Z := div_round Up (subunits (ln_shares m) * index_val m) (10 ^ 36).
Definition backing_val (m : Lending) : Z := div_round Down (subunits (ln_posted m) * wide_val (scaled (ln_collateral_price m))) (10 ^ 36).
Definition exposure_val (m : Lending) : Z := div_round Up (owed_val m * wide_val (scaled (ln_debt_price m))) (10 ^ 36).
Definition within_ltv (m : Lending) : Prop := exposure_val m * UNIT_SCALE ≤ backing_val m * unit_scaled (lt_ltv terms).
Lemma rate_parts {A B} (f : Fixed A B) : wide_val (num (rate_ratio (fixed_rate f))) = wide_val (scaled f) ∧ wide_val (den (rate_ratio (fixed_rate f))) = 10 ^ 36.
Proof. split; [reflexivity|]. exact (proj2 scale_ok). Qed.
(** The three conversions, where they answer. *)
Lemma weighed m owed backing exposure : market_ok m →
  quantity_convert (ln_shares m) (fixed_rate (started (ln_index m))) Up = Ok owed →
  quantity_convert (ln_posted m) (fixed_rate (ln_collateral_price m)) Down = Ok backing →
  quantity_convert owed (fixed_rate (ln_debt_price m)) Up = Ok exposure →
  subunits backing = backing_val m ∧ subunits exposure = exposure_val m ∧ quantity_ok backing ∧ quantity_ok exposure.
Proof.
  intros Hm Eo Eb Ee. destruct (ok_prices m Hm) as [Hcp Hdp]. destruct (started_ok _ (ok_index m Hm)) as [Hs _].
  destruct (convert_spec _ _ _ _ (ok_shares m Hm) (fixed_rate_ok _ Hs) Eo) as [Hoo Vo]. destruct (convert_spec _ _ _ _ (ok_posted m Hm) (fixed_rate_ok _ Hcp) Eb) as [Hbo Vb].
  destruct (convert_spec _ _ _ _ Hoo (fixed_rate_ok _ Hdp) Ee) as [Heo Ve]. split; [|split; [|by split]].
  - rewrite Vb. unfold backing_val. by rewrite (proj2 (rate_parts _)).
  - rewrite Ve, Vo. unfold exposure_val, owed_val, index_val. by rewrite !(proj2 (rate_parts _)).
Qed.
Lemma draw_within want now m b m' : market_ok m → quantity_ok want → unit_ok (lt_ltv terms) → draw want now m = Returned (b, m') →
  within_ltv m' ∧ ln_accrued m' = ln_accrued m ∧ market_ok m'.
Proof.
  intros Hm Hw Hu H.
  destruct (draw_inv want now m b m' Hm Hw Hu H) as (per_debt & drawn & after & owed & backing & exposure & rest & _ & _ & _ & _ & _ & Eo & Eb & Ee & Hle & Ev & -> & _ & Hao & _).
  pose proof (vault_take_spec (lt_debt terms) _ want (ok_reserves m Hm) Hw) as Hv. rewrite Ev in Hv. destruct Hv as (_ & Hro & _).
  assert (Hm' : market_ok (with_reserves rest (with_shares after m))) by (split; try apply Hm; [exact Hro|exact Hao]).
  destruct (weighed (with_reserves rest (with_shares after m)) owed backing exposure Hm' Eo Eb Ee) as (Vb & Ve & _). split; [unfold within_ltv; rewrite <- Vb, <- Ve; exact Hle|]. split; [reflexivity|exact Hm'].
Qed.
(** A position within the limit is never seized. *)
Lemma within_not_seized now m b m' : market_ok m → lending_terms_ok → within_ltv m → liquidate now m = Returned (b, m') → False.
Proof.
  intros Hm (Hu & Ht & _ & _ & Hlt) Hin H. unfold liquidate, carried_to in H. run_body in H. destruct (stale _ _); [done|]. run_body in H.
  destruct (fixed_is_zero _ || _); [done|]. run_body in H. destruct (index_of_spec _ (ok_index m Hm)) as (per_debt & Ei & _). rewrite Ei in H. cbv beta iota in H. run_body in H.
  destruct (quantity_convert (ln_shares m) _ Up) as [owed|] eqn:Eo; [|done]. run_body in H. destruct (quantity_is_zero owed); [done|]. run_body in H.
  destruct (quantity_convert (ln_posted m) _ Down) as [backing|] eqn:Eb; [|done]. run_body in H. destruct (quantity_convert owed _ Up) as [exposure|] eqn:Ee; [|done]. run_body in H.
  destruct (weighed m owed backing exposure Hm Eo Eb Ee) as (Vb & Ve & Hbo & Heo). destruct (unit_ratio_ok _ Ht) as (Hr & En & Ed).
  rewrite (quantity_exceeds_spec _ _ _ Heo Hbo Hr), En, Ed in H. run_body in H. unfold within_ltv in Hin. rewrite <- Vb, <- Ve in Hin. clear Vb Ve En Ed Hr.
  rewrite bool_decide_false in H; [done|]. destruct Hbo as [Hb0 _]. unfold unit_ok in *. nia.
Qed.
(** What a draw adds to the position is worth at least what was drawn. *)
Lemma drawn_is_owed want now m b m' : market_ok m → quantity_ok want → lending_terms_ok → draw want now m = Returned (b, m') →
  held b = subunits want ∧ subunits (ln_reserves m') = subunits (ln_reserves m) - subunits want ∧ market_ok m' ∧ index_val m' = index_val m ∧
  subunits want * 10 ^ 36 ≤ (subunits (ln_shares m') - subunits (ln_shares m)) * index_val m.
Proof.
  intros Hm Hw (Hu & _) H.
  destruct (draw_inv want now m b m' Hm Hw Hu H) as (per_debt & drawn & after & owed & backing & exposure & rest & _ & _ & Ei & Ed & Ea & _ & _ & _ & _ & Ev & -> & Hdo & Hao & _).
  destruct (index_of_spec _ (ok_index m Hm)) as (per_debt' & Ei' & _ & Hpd & _ & _ & Nn & Nd). assert (per_debt' = per_debt) by congruence. subst per_debt'.
  destruct (convert_spec _ _ _ _ Hw Hpd Ed) as [_ Vd]. rewrite Nn, Nd in Vd. fold (index_val m) in Vd, Nd. destruct (started_ok _ (ok_index m Hm)) as [_ Hip]. fold (index_val m) in Hip.
  pose proof (vault_take_spec (lt_debt terms) _ want (ok_reserves m Hm) Hw) as Hv. rewrite Ev in Hv. destruct Hv as (-> & Hro & Vr).
  pose proof (quantity_add_spec _ _ (ok_shares m Hm) Hdo) as Hadd. rewrite Ea in Hadd. destruct Hadd as [_ Vs].
  split; [reflexivity|]. split; [exact Vr|]. split; [split; try apply Hm; [exact Hro|exact Hao]|]. split; [reflexivity|].
  change (ln_shares (with_reserves rest (with_shares after m))) with after. rewrite Vs. pose proof (div_round_bounds Up (subunits want * 10 ^ 36) (index_val m) Hip) as Hb.
  cbv beta iota in Hb. rewrite <- Vd in Hb. lia.
Qed.
(** A payment retires at most what it covers, and one of all that is owed retires the position. *)
Lemma repaid_clears funds now m m' owed : market_ok m → bucket_ok funds → repay funds now m = Returned ((), m') →
  quantity_convert (ln_shares m) (fixed_rate (started (ln_index m))) Up = Ok owed →
  market_ok m' ∧ subunits (ln_reserves m') = subunits (ln_reserves m) + held funds ∧
  (subunits (ln_shares m) - subunits (ln_shares m')) * index_val m ≤ held funds * 10 ^ 36 ∧
  (subunits owed ≤ held funds → subunits (ln_shares m') = 0).
Proof.
  intros Hm Hf H Eo. unfold repay, carried_to in H. run_body in H. destruct (stale _ _); [discriminate H|]. run_body in H.
  pose proof (vault_put_spec (lt_debt terms) _ funds (ok_reserves m Hm) Hf) as Hv. destruct (vault_put _ _ _) as [total|]; [|discriminate H]. destruct Hv as (_ & Hto & Vt).
  run_body in H. cbn [ln_index with_reserves] in H. destruct (index_of_spec _ (ok_index m Hm)) as (per_debt & Ei & Hi & Hpd & In & Id & Nn & Nd). rewrite Ei in H. cbv beta iota in H.
  run_body in H. destruct (quantity_convert (bucket_quantity funds) per_debt Down) as [retired|] eqn:Er; [|discriminate H]. run_body in H.
  cbn [ln_shares with_reserves] in H. unfold writes in H. injection H as <-.
  destruct (convert_spec _ _ _ _ Hf Hpd Er) as [Hro Vr]. rewrite Nn, Nd in Vr. destruct (convert_spec _ _ _ _ (ok_shares m Hm) Hi Eo) as [_ Vo]. rewrite In, Id in Vo.
  fold (index_val m) (held funds) in *. destruct (started_ok _ (ok_index m Hm)) as [_ Hip]. fold (index_val m) in Hip.
  pose proof (div_round_bounds Down (held funds * 10 ^ 36) (index_val m) Hip) as Hb1. pose proof (div_round_bounds Up (subunits (ln_shares m) * index_val m) (10 ^ 36) ltac:(lia)) as Hb2.
  cbv beta iota in Hb1, Hb2. rewrite <- Vr in Hb1. rewrite <- Vo in Hb2. destruct (ok_shares m Hm) as [Hs0 Hs1]. destruct Hro as [Hr0 _]. clear Nn Nd In Id Vr Vo.
  assert (Esub : subunits (quantity_saturating_sub (ln_shares m) retired) = Z.max (subunits (ln_shares m) - subunits retired) 0) by reflexivity.
  split; [split; try apply Hm; [exact Hto|]|].
  { split; cbn [ln_shares with_shares]; rewrite Esub; lia. }
  split; [exact Vt|]. cbn [ln_shares with_shares]. rewrite Esub. split; [|intros Hp]; nia.
Qed.
Lemma div_round_mono rounding x y d : 0 < d → x ≤ y → div_round rounding x d ≤ div_round rounding y d.
Proof.
  intros Hd Hxy. pose proof (div_round_bounds rounding x d Hd) as Hx. pose proof (div_round_bounds rounding y d Hd) as Hy. destruct rounding; cbv beta iota in Hx, Hy; nia.
Qed.
(** Fewer shares and more collateral at the same index and prices keep a position within the limit. *)
Lemma within_mono m m' : market_ok m → market_ok m' → unit_ok (lt_ltv terms) → ln_index m' = ln_index m → ln_collateral_price m' = ln_collateral_price m → ln_debt_price m' = ln_debt_price m →
  subunits (ln_shares m') ≤ subunits (ln_shares m) → subunits (ln_posted m) ≤ subunits (ln_posted m') → within_ltv m → within_ltv m'.
Proof.
  intros Hm Hm' Hu Ei Ec Ed Hs Hp. destruct (started_ok _ (ok_index m Hm)) as [_ Hip]. fold (index_val m) in Hip. destruct (ok_prices m Hm) as [Hcp Hdp].
  pose proof (wide_val_bound _ Hcp) as Hc0. pose proof (wide_val_bound _ Hdp) as Hd0.
  assert (Ho : owed_val m' ≤ owed_val m) by (unfold owed_val; replace (index_val m') with (index_val m) by (unfold index_val; by rewrite Ei); apply div_round_mono; [lia|nia]).
  assert (He : exposure_val m' ≤ exposure_val m) by (unfold exposure_val; rewrite Ed; apply div_round_mono; [lia|nia]).
  assert (Hb : backing_val m ≤ backing_val m') by (unfold backing_val; rewrite Ec; apply div_round_mono; [lia|nia]).
  unfold within_ltv, unit_ok, UNIT_SCALE in *. nia.
Qed.
(** The calls a market serves in one period, no price posted and the index where it stands; a call that refuses or traps
    leaves it as it was. *)
Inductive served (now : Z) : Lending → Lending → Prop :=
  | served_deposit funds m q m' : bucket_ok funds → lending_deposit funds m = Returned (q, m') → served now m m'
  | served_draw want m b m' : quantity_ok want → draw want now m = Returned (b, m') → served now m m'
  | served_repay funds m m' : bucket_ok funds → repay funds now m = Returned ((), m') → served now m m'
  | served_liquidate m b m' : liquidate now m = Returned (b, m') → served now m m'.
Lemma served_within now m m' : lending_terms_ok → served now m m' → market_ok m → within_ltv m → market_ok m' ∧ within_ltv m'.
Proof.
  intros Ht Hs Hm Hin. pose proof (proj1 Ht) as Hu. destruct Hs as [funds m q m' Hf H|want m b m' Hw H|funds m m' Hf H|m b m' H].
  - unfold lending_deposit in H. run_body in H. destruct (quantity_add _ _); [|done]. run_body in H.
    pose proof (vault_put_spec (lt_collateral terms) _ funds (ok_posted m Hm) Hf) as Hv. destruct (vault_put _ _ _) as [total|]; [|done]. destruct Hv as (_ & Hto & Vt).
    run_body in H. injection H as _ <-. assert (Hm' : market_ok (with_posted total m)) by (split; try apply Hm; exact Hto). split; [exact Hm'|].
    apply (within_mono m (with_posted total m) Hm Hm' Hu eq_refl eq_refl eq_refl); [apply Z.le_refl| |exact Hin]. change (subunits (ln_posted m) ≤ subunits total). rewrite Vt. destruct Hf. unfold held. lia.
  - destruct (draw_within want now m b m' Hm Hw Hu H) as (H1 & _ & H2). by split.
  - unfold repay, carried_to in H. run_body in H. destruct (stale _ _); [discriminate H|]. run_body in H.
    pose proof (vault_put_spec (lt_debt terms) _ funds (ok_reserves m Hm) Hf) as Hv. destruct (vault_put _ _ _) as [total|]; [|discriminate H]. destruct Hv as (_ & Hto & _).
    run_body in H. cbn [ln_index with_reserves] in H. destruct (index_of_spec _ (ok_index m Hm)) as (per_debt & Ei & _ & Hpd & _). rewrite Ei in H. cbv beta iota in H.
    run_body in H. destruct (quantity_convert (bucket_quantity funds) per_debt Down) as [retired|] eqn:Er; [|discriminate H]. run_body in H.
    cbn [ln_shares with_reserves] in H. unfold writes in H. injection H as <-. destruct (convert_spec _ _ _ _ Hf Hpd Er) as [[Hr0 _] _].
    assert (Esub : subunits (quantity_saturating_sub (ln_shares m) retired) = Z.max (subunits (ln_shares m) - subunits retired) 0) by reflexivity.
    pose proof (ok_shares m Hm) as [Hs0 Hs1]. set (m' := with_shares _ _).
    assert (Hm' : market_ok m') by (split; try apply Hm; [exact Hto|]; split; cbn [ln_shares with_shares m']; rewrite Esub; lia). split; [exact Hm'|].
    apply (within_mono m m' Hm Hm' Hu eq_refl eq_refl eq_refl); [|apply Z.le_refl|exact Hin].
    change (subunits (quantity_saturating_sub (ln_shares m) retired) ≤ subunits (ln_shares m)). rewrite Esub. lia.
  - exfalso. by eapply within_not_seized.
Qed.
Lemma drawn_is_safe want now m b m' m2 : market_ok m → quantity_ok want → lending_terms_ok → draw want now m = Returned (b, m') → rtc (served now) m' m2 →
  ∀ b2 m3, liquidate now m2 ≠ Returned (b2, m3).
Proof.
  intros Hm Hw Ht H Hs b2 m3 H3. destruct (draw_within want now m b m' Hm Hw (proj1 Ht) H) as (Hin & _ & Hm'). clear H.
  induction Hs as [m'|m' m1 m2 Hstep _ IH]; [by eapply within_not_seized|]. destruct (served_within now m' m1 Ht Hstep Hm' Hin) as [H1 H2]. by apply IH.
Qed.
End lending.

(** C33: the market is never worse off for a draw or a repayment, and never seizes what it has just lent against. What a
    draw adds to the position is worth at least what left the reserves, at the index it was judged by. After a draw, through
    any deposits, draws, repayments and seizures that follow in that period, as long as no price is posted and the index
    is not carried on, no seizure goes through. And in any state, a payment retires no more than it covers, lands whole in
    the reserves, and retires the whole position where it pays all that is owed. *)
Theorem market_rounds_its_way terms : lending_terms_ok terms →
  (∀ want now m b m', market_ok m → quantity_ok want → draw terms want now m = Returned (b, m') →
    market_ok m' ∧ held b = subunits want ∧ subunits (ln_reserves m') = subunits (ln_reserves m) - held b ∧
    held b * 10 ^ 36 ≤ (subunits (ln_shares m') - subunits (ln_shares m)) * index_val m ∧
    ∀ m2, rtc (served terms now) m' m2 → ∀ b2 m3, liquidate terms now m2 ≠ Returned (b2, m3)) ∧
  (∀ funds now m m' owed, market_ok m → bucket_ok funds → repay terms funds now m = Returned ((), m') →
    quantity_convert (ln_shares m) (fixed_rate (started (ln_index m))) Up = Ok owed →
    market_ok m' ∧ subunits (ln_reserves m') = subunits (ln_reserves m) + held funds ∧
    (subunits (ln_shares m) - subunits (ln_shares m')) * index_val m ≤ held funds * 10 ^ 36 ∧
    (subunits owed ≤ held funds → subunits (ln_shares m') = 0)).
Proof.
  intros Ht. split.
  - intros want now m b m' Hm Hw H. destruct (drawn_is_owed terms want now m b m' Hm Hw Ht H) as (Eb & Er & Hm' & _ & Ho). rewrite Eb.
    split; [exact Hm'|]. split; [reflexivity|]. split; [exact Er|]. split; [exact Ho|]. intros m2 Hs. exact (drawn_is_safe terms want now m b m' m2 Hm Hw Ht H Hs).
  - intros funds now m m' owed Hm Hf H Eo. exact (repaid_clears terms funds now m m' owed Hm Hf H Eo).
Qed.

(** A market in resources 3 and 4, three quarters lent against four fifths, at twice a subunit per period. *)
Definition rate_of {A B} (n : Z) : Fixed A B := from_scaled (wide_from_u128 n).
Definition sample_terms : LendingTerms := {| lt_collateral := 3; lt_debt := 4; lt_oracle := 5; lt_ltv := {| unit_scaled := 75 * 10 ^ 16 |};
  lt_threshold := {| unit_scaled := 80 * 10 ^ 16 |}; lt_growth := rate_of (2 * 10 ^ 36) |}.
Definition sample_market (posted reserves shares : Z) (index : Fixed Debt Share) (accrued : option Z) : Lending :=
  {| ln_posted := from_subunits posted; ln_reserves := from_subunits reserves; ln_index := index; ln_collateral_price := rate_of (2 * 10 ^ 36);
     ln_debt_price := rate_of (10 ^ 36); ln_shares := from_subunits shares; ln_accrued := accrued |}.
Definition sample_funds (q : Z) : Bucket := {| bucket_resource := 4; bucket_quantity := from_subunits q |}.
(** The index stands at three halves, so a draw of ten is seven shares and owes eleven. *)
Definition three_halves : Fixed Debt Share := rate_of (15 * 10 ^ 35).
Lemma sample_terms_ok : lending_terms_ok sample_terms.
Proof.
  unfold lending_terms_ok, unit_ok, UNIT_SCALE. cbn [sample_terms lt_ltv lt_threshold lt_growth lt_collateral lt_debt unit_scaled].
  split; [lia|]. split; [lia|]. split; [solve_limbs|]. lia.
Qed.
Lemma sample_market_ok p r s i t : 0 ≤ p < 2 ^ 128 → 0 ≤ r < 2 ^ 128 → 0 ≤ s < 2 ^ 128 → fixed_ok i → market_ok (sample_market p r s i t).
Proof. intros. split; [done|done|done|done|]. split; solve_limbs. Qed.
Lemma market_rounds_its_way_witness :
  let drawn := sample_market 100 40 7 three_halves (Some 1) in let repaid := sample_market 100 51 0 three_halves (Some 1) in
  draw sample_terms (from_subunits 10) 1 (sample_market 100 50 0 three_halves (Some 1)) = Returned (sample_funds 10, drawn) ∧
  repay sample_terms (sample_funds 11) 1 drawn = Returned ((), repaid) ∧
  (∀ b2 m3, liquidate sample_terms 1 repaid ≠ Returned (b2, m3)) ∧ subunits (ln_shares repaid) = 0.
Proof.
  intros drawn repaid. destruct (market_rounds_its_way sample_terms sample_terms_ok) as [Hdraw Hrepay].
  assert (Hm : market_ok (sample_market 100 50 0 three_halves (Some 1))) by (apply sample_market_ok; [lia|lia|lia|solve_limbs]).
  assert (Hd : draw sample_terms (from_subunits 10) 1 (sample_market 100 50 0 three_halves (Some 1)) = Returned (sample_funds 10, drawn)) by (vm_compute; reflexivity).
  assert (Hr : repay sample_terms (sample_funds 11) 1 drawn = Returned ((), repaid)) by (vm_compute; reflexivity).
  assert (Hf : bucket_ok (sample_funds 11)) by (split; [discriminate|reflexivity]).
  destruct (Hdraw (from_subunits 10) 1 _ _ _ Hm ltac:(split; [discriminate|reflexivity]) Hd) as (Hm' & _ & _ & _ & Hsafe).
  destruct (Hrepay (sample_funds 11) 1 drawn repaid (from_subunits 11) Hm' Hf Hr ltac:(vm_compute; reflexivity)) as (_ & _ & _ & Hclear).
  split; [exact Hd|]. split; [exact Hr|]. split; [|apply Hclear; vm_compute; discriminate].
  apply (Hsafe repaid). apply rtc_once. exact (served_repay sample_terms 1 (sample_funds 11) drawn repaid Hf Hr).
Defined.

(** The period an accrual carries to is the caller's to name, and it may lie before the one the index stands at: carried back
    and forward again, the index compounds a second time over a span it had already been carried across, and ends at the
    same period. *)
Theorem accrual_compounds_twice :
  accrue sample_terms 8 (sample_market 100 50 7 fixed_ONE (Some 8)) = Returned ((), sample_market 100 50 7 fixed_ONE (Some 8)) ∧
  accrue sample_terms 0 (sample_market 100 50 7 fixed_ONE (Some 8)) = Returned ((), sample_market 100 50 7 fixed_ONE (Some 0)) ∧
  accrue sample_terms 8 (sample_market 100 50 7 fixed_ONE (Some 0)) = Returned ((), sample_market 100 50 7 (rate_of (256 * 10 ^ 36)) (Some 8)).
Proof. vm_compute. done. Qed.
(** A written index that has come to nothing reads as one that was never written. *)
Theorem index_of_nothing_is_one :
  let shrinking := {| lt_collateral := 3; lt_debt := 4; lt_oracle := 5; lt_ltv := lt_ltv sample_terms; lt_threshold := lt_threshold sample_terms; lt_growth := rate_of 1 |} in
  accrue shrinking 1 (sample_market 100 50 7 (rate_of (10 ^ 35)) (Some 0)) = Returned ((), sample_market 100 50 7 fixed_ZERO (Some 1)) ∧
  started (fixed_ZERO : Fixed Debt Share) = fixed_ONE.
Proof. vm_compute. done. Qed.

(** ** The redemption window *)

Inductive Stable : Type := .
Inductive Reserve : Type := .
Record PegTerms := { pg_stable : Address; pg_reserve : Address; pg_oracle : Address; pg_band : UnitFixed }.
Inductive PegError := OutsideBand | NothingRedeemed | PegSameAsset.
Record Peg := { pg_retired : Quantity; pg_backing : Quantity; pg_deviation : SignedFixed Reserve Stable }.

Definition payout (handed_in : Quantity) (distance : Fixed Reserve Stable) (way : Sign) : result Panic Quantity :=
  match way with
  | Positive => over ← quantity_convert handed_in (fixed_rate distance) Down; quantity_add handed_in over
  | Negative => under ← quantity_convert handed_in (fixed_rate distance) Up; Ok (default quantity_ZERO (quantity_try_sub handed_in under))
  end.
Definition band (bound : UnitFixed) : result Panic (Fixed Reserve Stable) := ratio_quantize_as (unit_ratio bound) Down.

Section peg.
Context (terms : PegTerms).
Abbreviation Window := (Body Peg PegError) (only parsing).
Definition peg_instantiate : Window () := refuse_if (bool_decide (pg_stable terms = pg_reserve terms)) PegSameAsset.
Definition post_deviation (d : SignedFixed Reserve Stable) : Window () :=
  writes (λ p, {| pg_retired := pg_retired p; pg_backing := pg_backing p; pg_deviation := d |}).
Definition quoted (handed_in : Quantity) : Window Quantity :=
  deviation ← reads pg_deviation;
  let '(distance, way) := signed_split deviation in
  bound ← computed (band (pg_band terms));
  _ ← refuse_if (match fixed_cmp distance bound with Gt => true | _ => false end) OutsideBand;
  out ← computed (payout handed_in distance way);
  _ ← refuse_if (quantity_is_zero out) NothingRedeemed;
  mret out.
Definition peg_redeem (funds : Bucket) : Window Bucket :=
  out ← quoted (bucket_quantity funds);
  retired ← reads pg_retired;
  total ← fallible (vault_put (pg_stable terms) retired funds);
  _ ← writes (λ p, {| pg_retired := total; pg_backing := pg_backing p; pg_deviation := pg_deviation p |});
  backing ← reads pg_backing;
  '(b, rest) ← fallible (vault_take (pg_reserve terms) backing out);
  _ ← writes (λ p, {| pg_retired := pg_retired p; pg_backing := rest; pg_deviation := pg_deviation p |});
  mret b.
Definition quote (amt : Quantity) : Window Quantity := quoted amt.

Lemma band_spec u : unit_ok u → ∃ f, band u = Ok f ∧ fixed_ok f ∧ wide_val (scaled f) = unit_scaled u * 10 ^ 18.
Proof.
  intros Hu. destruct (unit_ratio_ok u Hu) as ((Hn & Hd & H0) & En & Ed). destruct scale_ok as [Hs Hv]. unfold band, ratio_quantize_as.
  pose proof (host_mul_div_spec _ _ _ Down Hn Hs Hd H0) as H. rewrite En, Ed, Hv in H. clear En Ed Hv H0. cbv zeta in H. cbn [div_round] in H.
  assert (E : unit_scaled u * 10 ^ 36 / UNIT_SCALE = unit_scaled u * 10 ^ 18).
  { replace (unit_scaled u * 10 ^ 36) with (unit_scaled u * 10 ^ 18 * UNIT_SCALE) by (unfold UNIT_SCALE; lia). apply Z.div_mul. unfold UNIT_SCALE. lia. }
  rewrite E in H. unfold unit_ok, UNIT_SCALE in Hu. destruct (host_mul_div _ _ _ _) as [w|p]; [|lia].
  exists (from_scaled w). destruct H as [Hw Ew]. split; [reflexivity|]. split; [exact Hw|exact Ew].
Qed.

(** The floor of parity plus the deviation, one formula for both ways it may point. *)
Definition parity (h dev : Z) : Z := h * (10 ^ 36 + dev) / 10 ^ 36.
Lemma payout_spec h s out : quantity_ok h → signed_ok s → Z.abs (signed_val s) ≤ 10 ^ 36 →
  payout h (signed_split s).1 (signed_split s).2 = Ok out → quantity_ok out ∧ subunits out = parity (subunits h) (signed_val s).
Proof.
  intros Hh Hs Hle. destruct (signed_split_spec s Hs) as (Hf & Ev & Ew & _). set (f := (signed_split s).1) in *. set (w := (signed_split s).2) in *. clearbody f w.
  destruct scale_ok as [_ Hv]. pose proof (fixed_rate_ok f Hf) as Hr. assert (Hh' := Hh). destruct Hh' as [Hh0 Hh1]. unfold parity. set (S := 10 ^ 36) in *. assert (HS : 0 < S) by (subst S; lia).
  assert (Hnum : wide_val (num (rate_ratio (fixed_rate f))) = Z.abs (signed_val s)) by exact Ev. assert (Hden : wide_val (den (rate_ratio (fixed_rate f))) = S) by exact Hv.
  clear Hv Ev. clearbody S. revert Ew. case_decide as Hneg; intros ->; cbn [payout].
  - intros H. apply result_bind_ok in H as (under & Hu & [= <-]). destruct (convert_spec _ _ _ _ Hh Hr Hu) as [Huo Vu]. rewrite Hnum, Hden in Vu.
    pose proof (quantity_try_sub_spec h under Hh Huo) as Ht. pose proof (div_round_share Up (subunits h) (Z.abs (signed_val s)) S ltac:(lia) ltac:(lia) HS) as Hsh. rewrite <- Vu in Hsh.
    destruct (quantity_try_sub h under) as [o|]; [|lia]. destruct Ht as [Ho Vo]. cbn [default from_option id]. split; [exact Ho|]. rewrite Vo, Vu. cbn [div_round].
    rewrite Z.sub_opp_r. replace (subunits h * (S + signed_val s)) with (- (subunits h * Z.abs (signed_val s)) + subunits h * S) by nia. rewrite Z.div_add by lia. lia.
  - intros H. apply result_bind_ok in H as (over & Hu & Ha). destruct (convert_spec _ _ _ _ Hh Hr Hu) as [Huo Vu]. rewrite Hnum, Hden in Vu. cbn [div_round] in Vu.
    pose proof (quantity_add_spec h over Hh Huo) as Hadd. rewrite Ha in Hadd. destruct Hadd as [Ho Vo]. split; [exact Ho|]. rewrite Vo, Vu.
    replace (subunits h * (S + signed_val s)) with (subunits h * Z.abs (signed_val s) + subunits h * S) by nia. rewrite Z.div_add by lia. lia.
Qed.
Definition peg_ok (p : Peg) : Prop := quantity_ok (pg_retired p) ∧ quantity_ok (pg_backing p) ∧ signed_ok (pg_deviation p).
Lemma quoted_runs h p : unit_ok (pg_band terms) → peg_ok p → quantity_ok h →
  match quoted h p with
  | Returned (out, p') => p' = p ∧ quantity_ok out ∧ subunits out = parity (subunits h) (signed_val (pg_deviation p)) ∧ 0 < subunits out ∧
      Z.abs (signed_val (pg_deviation p)) ≤ unit_scaled (pg_band terms) * 10 ^ 18
  | Refused OutsideBand => unit_scaled (pg_band terms) * 10 ^ 18 < Z.abs (signed_val (pg_deviation p))
  | Refused NothingRedeemed => parity (subunits h) (signed_val (pg_deviation p)) = 0
  | Refused PegSameAsset => False
  | Trapped _ => True
  end.
Proof.
  intros Hu (_ & _ & Hd) Hh. unfold quoted. run_body. destruct (signed_split_spec _ Hd) as (Hf & Ev & _). assert (Hp := λ out, payout_spec h (pg_deviation p) out Hh Hd).
  destruct (signed_split (pg_deviation p)) as [f w]. cbn [fst snd] in *. run_body. destruct (band_spec _ Hu) as (bound & Eb & Hb & Vb). rewrite Eb. run_body.
  unfold fixed_cmp. rewrite (wide_cmp_spec _ _ Hf Hb), Ev, Vb. unfold unit_ok, UNIT_SCALE in Hu.
  destruct (Z.compare_spec (Z.abs (signed_val (pg_deviation p))) (unit_scaled (pg_band terms) * 10 ^ 18)) as [Hc|Hc|Hc]; [| |exact Hc];
    run_body; (destruct (payout h f w) as [out|]; [|exact I]); destruct (Hp out ltac:(lia) eq_refl) as [Ho Vo]; run_body;
    (destruct (quantity_is_zero out) eqn:Ez; unfold quantity_is_zero in Ez; [apply bool_decide_eq_true in Ez; cbn; congruence|]; apply bool_decide_eq_false in Ez);
    cbn -[Z.mul Z.pow parity]; (split; [reflexivity|]); (split; [exact Ho|]); (split; [exact Vo|]); destruct Ho; lia.
Qed.
End peg.

(** A redemption pays the floor of parity plus the posted deviation, whichever way it points, and nothing else: the
    stable handed in is retired, what leaves the backing is exactly what a quote of the same amount answers, and the
    deviation is untouched. It is refused exactly where the deviation is outside the band or the payout is nothing. *)
Theorem redemption_pays_parity terms funds p : unit_ok (pg_band terms) → peg_ok p → bucket_ok funds →
  match peg_redeem terms funds p with
  | Returned (b, p') =>
      held b = parity (held funds) (signed_val (pg_deviation p)) ∧ bucket_resource b = pg_reserve terms ∧ bucket_resource funds = pg_stable terms ∧
      subunits (pg_retired p') = subunits (pg_retired p) + held funds ∧ subunits (pg_backing p') = subunits (pg_backing p) - held b ∧
      pg_deviation p' = pg_deviation p ∧ Z.abs (signed_val (pg_deviation p)) ≤ unit_scaled (pg_band terms) * 10 ^ 18 ∧
      quote terms (bucket_quantity funds) p = Returned (bucket_quantity b, p)
  | Refused OutsideBand => unit_scaled (pg_band terms) * 10 ^ 18 < Z.abs (signed_val (pg_deviation p))
  | Refused NothingRedeemed => parity (held funds) (signed_val (pg_deviation p)) = 0
  | Refused PegSameAsset => False
  | Trapped _ => True
  end.
Proof.
  intros Hu Hp Hf. pose proof (quoted_runs terms (bucket_quantity funds) p Hu Hp Hf) as Hq. fold (held funds) in Hq. destruct Hp as (Hr & Hb & _).
  unfold peg_redeem, quote. unfold mbind at 1, body_bind at 1. destruct (quoted terms (bucket_quantity funds) p) as [[out p1]|e|f] eqn:Eq; [|exact Hq|exact I].
  destruct Hq as (-> & Ho & Vo & _ & Hband). run_body. pose proof (vault_put_spec (pg_stable terms) _ funds Hr Hf) as Hv.
  destruct (vault_put _ _ _) as [t|]; [|exact I]. destruct Hv as (Er & _ & Vt). run_body. cbn [pg_backing].
  pose proof (vault_take_spec (pg_reserve terms) _ out Hb Ho) as Hk. destruct (vault_take _ _ _) as [[b rest]|]; [|exact I]. destruct Hk as (-> & _ & Vk).
  cbn -[parity Z.mul Z.pow]. unfold held at 1 4. cbn [bucket_quantity]. split_and!; first [reflexivity|assumption].
Qed.
(** One and a half percent under parity: a hundred and one of stable fetches ninety-nine of reserve. *)
Definition demo_peg : PegTerms := {| pg_stable := 3; pg_reserve := 4; pg_oracle := 5; pg_band := {| unit_scaled := 5 * 10 ^ 16 |} |}.
Definition demo_window (r b : Z) : Peg :=
  {| pg_retired := from_subunits r; pg_backing := from_subunits b; pg_deviation := from_bits (wide_wrapping_neg (wide_from_u128 (15 * 10 ^ 33))) |}.
Lemma redemption_pays_parity_witness :
  let funds := {| bucket_resource := 3; bucket_quantity := from_subunits 101 |} in
  match peg_redeem demo_peg funds (demo_window 0 500) with Returned (b, p') => b = {| bucket_resource := 4; bucket_quantity := from_subunits 99 |} ∧ p' = demo_window 101 401 | _ => False end ∧
  match quote demo_peg (from_subunits 101) (demo_window 0 500) with Returned (q, _) => q = from_subunits 99 | _ => False end.
Proof.
  intros funds. assert (Hu : unit_ok (pg_band demo_peg)) by (unfold unit_ok, UNIT_SCALE; cbn [pg_band demo_peg unit_scaled]; lia).
  assert (Hp : peg_ok (demo_window 0 500)) by (split; [by split|]; split; [by split|solve_limbs]).
  assert (Hf : bucket_ok funds) by (split; [discriminate|reflexivity]).
  assert (E : peg_redeem demo_peg funds (demo_window 0 500) = Returned ({| bucket_resource := 4; bucket_quantity := from_subunits 99 |}, demo_window 101 401)) by (vm_compute; reflexivity).
  assert (H := redemption_pays_parity demo_peg funds (demo_window 0 500) Hu Hp Hf). rewrite E in H |- *. split; [by split|].
  destruct H as (_ & _ & _ & _ & _ & _ & _ & H). change (from_subunits 101) with (bucket_quantity funds). rewrite H. reflexivity.
Defined.
