(* ===== verification/Merkle.v ===== *)
(** * Merkle roots ([crates/hbor/src/merkle.rs])

    The root over a value's fields, each a leaf, and the proof of one field to a
    holder of the root alone. The hash is the source's [Hasher] seam, a parameter:
    a digest of a domain and framed parts. No hardness is assumed of it: what a
    broken proof would need is a collision between the inputs hashed to make the
    root and to check the proof, and the theorems list those inputs. *)

From Stdlib Require Import String Ascii ZifyNat.
From S2P Require Import Prelude WideMath Types Hbor.

Definition ascii_bytes (s : string) : bytes := (λ a, u8_of (Z.of_N (N_of_ascii a))) <$> list_ascii_of_string s.
Definition DOMAIN_LEAF : bytes := ascii_bytes "hbor-merkle-leaf-v1".
Definition DOMAIN_NODE : bytes := ascii_bytes "hbor-merkle-node-v1".
Definition DOMAIN_PAD : bytes := ascii_bytes "hbor-merkle-pad-v1".
Definition DOMAIN_ROOT : bytes := ascii_bytes "hbor-merkle-root-v1".

(** A digest is the integer its 32 bytes spell. *)
Abbreviation Hash32 := Z (only parsing).
Definition digest_bytes (h : Hash32) : bytes := be_bytes 32 h.
Record MerkleProof := { pf_index : nat; pf_leaf_count : nat; pf_siblings : list Hash32 }.

Abbreviation HashInput := (bytes * list bytes)%type.
Definition leaf_input (b : bytes) : HashInput := (DOMAIN_LEAF, [b]).
Definition node_input (l r : Hash32) : HashInput := (DOMAIN_NODE, [digest_bytes l; digest_bytes r]).
Definition finish_input (domain : bytes) (tree : Hash32) (leaf_count : nat) : HashInput :=
  (DOMAIN_ROOT, [domain; digest_bytes tree; le_bytes 8 (Z.of_nat leaf_count)]).

Section merkle.
Context (hash : bytes → list bytes → Hash32).

Definition leaf (b : bytes) : Hash32 := hash DOMAIN_LEAF [b].
Definition node (l r : Hash32) : Hash32 := hash DOMAIN_NODE [digest_bytes l; digest_bytes r].
Definition pad : Hash32 := hash DOMAIN_PAD [].
Definition merkle_finish (domain : bytes) (tree : Hash32) (leaf_count : nat) : Hash32 :=
  hash DOMAIN_ROOT [domain; digest_bytes tree; le_bytes 8 (Z.of_nat leaf_count)].

(** One level up: an odd level padded, then its pairs joined. *)
Definition padded (level : list Hash32) : list Hash32 := if Nat.odd (length level) then level ++ [pad] else level.
Fixpoint pairs (level : list Hash32) : list Hash32 :=
  match level with l :: r :: level => node l r :: pairs level | _ => [] end.
Definition climb (level : list Hash32) : list Hash32 := pairs (padded level).
(** [while level.len() > 1]; a level of [n] is climbed fewer than [n] times. *)
Fixpoint merkle_loop (fuel : nat) (level : list Hash32) : list Hash32 :=
  match fuel with
  | O => level
  | S fuel => if decide (1 < length level)%nat then merkle_loop fuel (climb level) else level
  end.
(** [level[0]], which the loop leaves there. *)
Definition top_of (level : list Hash32) : Hash32 := default pad (merkle_loop (length level) level !! 0%nat).
Definition root_of (domain : bytes) (chunks : list bytes) : Hash32 :=
  let level := leaf <$> chunks in
  if decide (level = []) then merkle_finish domain pad 0 else merkle_finish domain (top_of level) (length chunks).

(** [None] is the index out of range. *)
Fixpoint prove_loop (fuel : nat) (level : list Hash32) (position : nat) : option (list Hash32) :=
  match fuel with
  | O => Some []
  | S fuel =>
      if decide (1 < length level)%nat
      then
        sibling ← padded level !! Nat.lxor position 1;
        siblings ← prove_loop fuel (climb level) (position / 2);
        Some (sibling :: siblings)
      else Some []
  end.
(** The outer [None] is a panic, the inner one an index that names no leaf. *)
Definition prove (chunks : list bytes) (index : nat) : option (option MerkleProof) :=
  if decide (length chunks ≤ index)%nat then Some None
  else
    siblings ← prove_loop (length chunks) (leaf <$> chunks) index;
    Some (Some {| pf_index := index; pf_leaf_count := length chunks; pf_siblings := siblings |}).

(** The walk consumes a sibling per level; [None] is one missing. Beside the top it leaves the siblings not used. *)
Fixpoint verify_loop (fuel : nat) (current : Hash32) (position width : nat) (siblings : list Hash32) : option (Hash32 * list Hash32) :=
  match fuel with
  | O => Some (current, siblings)
  | S fuel =>
      if decide (1 < width)%nat
      then
        match siblings with
        | [] => None
        | sibling :: siblings =>
            let current := if Nat.even position then node current sibling else node sibling current in
            verify_loop fuel current (position / 2) ((width + 1) / 2) siblings
        end
      else Some (current, siblings)
  end.
Definition verify (domain : bytes) (root : Hash32) (leaf_bytes : bytes) (proof : MerkleProof) : bool :=
  if decide (pf_leaf_count proof ≤ pf_index proof)%nat then false
  else
    match verify_loop (pf_leaf_count proof) (leaf leaf_bytes) (pf_index proof) (pf_leaf_count proof) (pf_siblings proof) with
    | Some (current, unused) => bool_decide (unused = []) && bool_decide (merkle_finish domain current (pf_leaf_count proof) = root)
    | None => false
    end.

(** What [root_of] finishes. *)
Definition tree_of (chunks : list bytes) : Hash32 := if decide (chunks = []) then pad else top_of (leaf <$> chunks).

(** The leaves of a bare sequence; a type whose identity is the root over its fields. *)
Fixpoint sequence_chunks {A} (c : Codec A) (elements : list A) : result EncodeError (list bytes) :=
  match elements with
  | [] => Ok []
  | x :: elements => b ← to_vec c x; bs ← sequence_chunks c elements; Ok (b :: bs)
  end.
Class Chunked (T : Type) := { MERKLE_DOMAIN : bytes; chunks : T → result EncodeError (list bytes) }.
Definition merkle_root {T} `{Chunked T} (x : T) : result EncodeError Hash32 := c ← chunks x; Ok (root_of MERKLE_DOMAIN c).
Definition chunked_prove {T} `{Chunked T} (x : T) (index : nat) : result EncodeError (option (option MerkleProof)) := c ← chunks x; Ok (prove c index).
End merkle.

(** ** Levels *)

#[local] Ltac Zify.zify_post_hook ::= Z.to_euclidean_division_equations.
Section levels.
Context (hash : bytes → list bytes → Hash32).

Lemma pair_ind {A} (P : list A → Prop) : P [] → (∀ x, P [x]) → (∀ x y l, P l → P (x :: y :: l)) → ∀ l, P l.
Proof. intros H0 H1 H2. enough (∀ l, P l ∧ ∀ x, P (x :: l)) by firstorder. induction l as [|x l [IH1 IH2]]; [done|]. split; [apply IH2|]. intros y. by apply H2. Qed.
Lemma length_padded l : length (padded hash l) = (2 * ((length l + 1) / 2))%nat.
Proof.
  unfold padded. destruct (Nat.odd (length l)) eqn:E.
  - rewrite length_app. cbn [length]. apply Nat.odd_spec in E as [k Hk]. lia.
  - unfold Nat.odd in E. apply negb_false_iff, Nat.even_spec in E as [k Hk]. lia.
Qed.
Lemma length_pairs l : length (pairs hash l) = (length l / 2)%nat.
Proof.
  induction l as [|x|x y l IH] using pair_ind; [done|done|]. cbn [pairs length]. rewrite IH. lia.
Qed.
Lemma length_climb l : length (climb hash l) = ((length l + 1) / 2)%nat.
Proof. unfold climb. rewrite length_pairs, length_padded. lia. Qed.
Lemma padded_lookup l i : (i < length l)%nat → padded hash l !! i = l !! i.
Proof. intros Hi. unfold padded. destruct (Nat.odd _); [by rewrite lookup_app_l|done]. Qed.
Lemma pairs_lookup l i : pairs hash l !! i = (a ← l !! (2 * i)%nat; b ← l !! (2 * i + 1)%nat; Some (node hash a b)).
Proof.
  revert i. induction l as [|x|x y l IH] using pair_ind; intros i; cbn [pairs].
  - by rewrite !lookup_nil.
  - destruct i; [done|]. by rewrite lookup_nil, (lookup_ge_None_2 [x]) by (cbn; lia).
  - destruct i as [|i]; [done|]. rewrite !lookup_cons. replace (2 * S i)%nat with (S (S (2 * i)))%nat by lia.
    replace (S (S (2 * i)) + 1)%nat with (S (S (2 * i + 1)))%nat by lia. cbn [lookup list_lookup]. apply IH.
Qed.
Lemma lxor_one p : Nat.lxor p 1 = if Nat.even p then (p + 1)%nat else (p - 1)%nat.
Proof.
  assert (He : ∀ k, Nat.lxor (2 * k) 1 = (2 * k + 1)%nat).
  { intros k. symmetry. apply Nat.add_nocarry_lxor. change 1%nat with (Nat.ones 1). rewrite Nat.land_ones, Nat.mul_comm. apply Nat.Div0.mod_mul. }
  destruct (Nat.even p) eqn:E.
  - apply Nat.even_spec in E as [k ->]. apply He.
  - assert (Ho : Nat.odd p = true) by (unfold Nat.odd; by rewrite E). apply Nat.odd_spec in Ho as [k ->].
    rewrite <- He, Nat.lxor_assoc. change (Nat.lxor 1 1) with 0%nat. rewrite Nat.lxor_0_r, He. lia.
Qed.
(** The node a position climbs to, with its sibling in the padded level. *)
Lemma climb_lookup l p : (p < length l)%nat → ∃ a b, l !! p = Some a ∧ padded hash l !! Nat.lxor p 1 = Some b ∧
  climb hash l !! (p / 2)%nat = Some (if Nat.even p then node hash a b else node hash b a).
Proof.
  intros Hp. pose proof (length_padded l) as Hl. rewrite lxor_one. destruct (lookup_lt_is_Some_2 l p Hp) as [a Ha]. exists a.
  pose proof (padded_lookup l p Hp) as Hpa. rewrite Ha in Hpa. unfold climb. rewrite pairs_lookup. destruct (Nat.even p) eqn:E.
  - apply Nat.even_spec in E as [k ->]. replace (2 * (2 * k / 2))%nat with (2 * k)%nat by lia. rewrite Hpa.
    destruct (lookup_lt_is_Some_2 (padded hash l) (2 * k + 1)) as [b Hb]; [lia|]. exists b. by rewrite Hb.
  - assert (Ho : Nat.odd p = true) by (unfold Nat.odd; by rewrite E). apply Nat.odd_spec in Ho as [k ->].
    replace (2 * ((2 * k + 1) / 2))%nat with (2 * k)%nat by lia. rewrite Hpa. replace (2 * k + 1 - 1)%nat with (2 * k)%nat by lia.
    destruct (lookup_lt_is_Some_2 (padded hash l) (2 * k)) as [b Hb]; [lia|]. exists b. by rewrite Hb.
Qed.
(** The loop's fuel is enough: more changes nothing, and what is left is one digest. *)
Lemma root_loop_fuel n m l : (length l ≤ n)%nat → (length l ≤ m)%nat → merkle_loop hash n l = merkle_loop hash m l.
Proof.
  revert m l. induction n as [|n IH]; intros m l Hn Hm.
  { destruct l; [|cbn in Hn; lia]. by destruct m. }
  destruct m as [|m]; [destruct l; [done|cbn in Hm; lia]|]. cbn. destruct (decide _); [|done]. apply IH; rewrite length_climb; lia.
Qed.
Lemma top_climb l : (1 < length l)%nat → top_of hash l = top_of hash (climb hash l).
Proof.
  intros Hl. unfold top_of. destruct (length l) as [|n] eqn:E; [lia|]. cbn [merkle_loop]. rewrite decide_True by lia.
  by rewrite (root_loop_fuel n (length (climb hash l))) by (rewrite ?length_climb; lia).
Qed.
Lemma top_single h : top_of hash [h] = h.
Proof. done. Qed.
Lemma level_ind (P : list Hash32 → Prop) : (∀ h, P [h]) → (∀ l, (1 < length l)%nat → P (climb hash l) → P l) → ∀ l, l ≠ [] → P l.
Proof.
  intros H1 H2 l. induction l as [l IH] using (induction_ltof1 _ (@length Hash32)). unfold ltof in IH. intros Hne.
  destruct l as [|h [|h' l]]; [done|apply H1|]. apply H2; [cbn; lia|]. apply IH; [rewrite length_climb; cbn [length]; lia|].
  intros E. apply (f_equal length) in E. rewrite length_climb in E. cbn [length] in E. lia.
Qed.
End levels.

(** ** Proofs verify, and only true ones do *)

Section sound.
Context (hash : bytes → list bytes → Hash32).

(** What is hashed, input by input: a domain and the parts. Two inputs of a list collide where they differ and share a
    digest; over a given list that is a finite question, not one the size of the digest answers. *)
Definition hash_input (x : HashInput) : Hash32 := hash x.1 x.2.
Definition collides (inputs : list HashInput) : Prop := ∃ x y, x ∈ inputs ∧ y ∈ inputs ∧ x ≠ y ∧ hash_input x = hash_input y.
(** The inputs hashed to climb from a level to its top, and to walk up from a leaf. *)
Fixpoint pair_inputs (level : list Hash32) : list HashInput :=
  match level with l :: r :: level => node_input l r :: pair_inputs level | _ => [] end.
Fixpoint level_inputs (fuel : nat) (level : list Hash32) : list HashInput :=
  match fuel with
  | O => []
  | S fuel => if decide (1 < length level)%nat then pair_inputs (padded hash level) ++ level_inputs fuel (climb hash level) else []
  end.
Fixpoint walk_inputs (fuel : nat) (current : Hash32) (position width : nat) (siblings : list Hash32) : list HashInput :=
  match fuel, siblings with
  | S fuel, sibling :: siblings =>
      if decide (1 < width)%nat
      then
        let '(l, r) := if Nat.even position then (current, sibling) else (sibling, current) in
        node_input l r :: walk_inputs fuel (node hash l r) (position / 2) ((width + 1) / 2) siblings
      else []
  | _, _ => []
  end.
Definition root_inputs (domain : bytes) (chunks : list bytes) : list HashInput :=
  (leaf_input <$> chunks) ++ level_inputs (length chunks) (leaf hash <$> chunks) ++ [finish_input domain (tree_of hash chunks) (length chunks)].
Definition verify_inputs (domain : bytes) (b : bytes) (pf : MerkleProof) : list HashInput :=
  let n := pf_leaf_count pf in
  leaf_input b :: walk_inputs n (leaf hash b) (pf_index pf) n (pf_siblings pf) ++
  match verify_loop hash n (leaf hash b) (pf_index pf) n (pf_siblings pf) with Some (top, _) => [finish_input domain top n] | None => [] end.

Lemma subseteq_cons (x : HashInput) l inputs : x :: l ⊆ inputs → x ∈ inputs ∧ l ⊆ inputs.
Proof. intros H. split; [apply H; by left|]. intros y Hy. apply H. by right. Qed.
Section among.
Context (inputs : list HashInput).
Lemma hash_splits x y : x ∈ inputs → y ∈ inputs → hash_input x = hash_input y → x = y ∨ collides inputs.
Proof. intros Hx Hy E. destruct (decide (x = y)) as [|Hn]; [by left|]. right. by exists x, y. Qed.
End among.
Lemma pair_inputs_lookup l i a b : l !! (2 * i)%nat = Some a → l !! (2 * i + 1)%nat = Some b → node_input a b ∈ pair_inputs l.
Proof.
  revert i. induction l as [|x|x y l IH] using pair_ind; intros i Ha Hb; [done|destruct i; [done|]; rewrite lookup_ge_None_2 in Ha by (cbn; lia); done|].
  cbn [pair_inputs]. destruct i as [|i]; [injection Ha as <-; injection Hb as <-; by left|right]. apply (IH i).
  - rewrite <- Ha. replace (2 * S i)%nat with (S (S (2 * i)))%nat by lia. done.
  - rewrite <- Hb. replace (2 * S i + 1)%nat with (S (S (2 * i + 1)))%nat by lia. done.
Qed.
Lemma level_inputs_fuel n m l : (length l ≤ n)%nat → (length l ≤ m)%nat → level_inputs n l = level_inputs m l.
Proof.
  revert m l. induction n as [|n IH]; intros m l Hn Hm.
  { destruct l; [|cbn in Hn; lia]. by destruct m. }
  destruct m as [|m]; [destruct l; [done|cbn in Hm; lia]|]. cbn. destruct (decide _); [|done]. f_equal. apply IH; rewrite length_climb; lia.
Qed.
Lemma level_inputs_climb l : (1 < length l)%nat →
  level_inputs (length l) l = pair_inputs (padded hash l) ++ level_inputs (length (climb hash l)) (climb hash l).
Proof.
  intros Hl. destruct (length l) as [|n] eqn:E; [lia|]. cbn [level_inputs]. rewrite decide_True by lia. f_equal.
  apply level_inputs_fuel; rewrite ?length_climb; lia.
Qed.
Lemma walk_inputs_fuel n m current position width siblings : (width ≤ n)%nat → (width ≤ m)%nat →
  walk_inputs n current position width siblings = walk_inputs m current position width siblings.
Proof.
  revert m current position width siblings. induction n as [|n IH]; intros m current position width siblings Hn Hm.
  { destruct m, siblings; [done|done|done|]. cbn. by rewrite decide_False by lia. }
  destruct m as [|m], siblings as [|s siblings]; [done|cbn; by rewrite decide_False by lia|done|]. cbn [walk_inputs]. destruct (decide _); [|done].
  destruct (if Nat.even position then _ else _). f_equal. apply IH; lia.
Qed.

Lemma verify_loop_fuel n m current position width siblings : (width ≤ n)%nat → (width ≤ m)%nat →
  verify_loop hash n current position width siblings = verify_loop hash m current position width siblings.
Proof.
  revert m current position width siblings. induction n as [|n IH]; intros m current position width siblings Hn Hm.
  { destruct m; [done|]. cbn. by rewrite decide_False by lia. }
  destruct m as [|m]; [cbn; by rewrite decide_False by lia|]. cbn [verify_loop]. destruct (decide _); [|done]. destruct siblings; [done|]. apply IH; lia.
Qed.
Lemma prove_loop_fuel n m l p : (length l ≤ n)%nat → (length l ≤ m)%nat → prove_loop hash n l p = prove_loop hash m l p.
Proof.
  revert m l p. induction n as [|n IH]; intros m l p Hn Hm.
  { destruct m; [done|]. cbn. by rewrite decide_False by lia. }
  destruct m as [|m]; [cbn; by rewrite decide_False by lia|]. cbn [prove_loop]. destruct (decide _); [|done]. destruct (padded hash l !! _); [|done].
  cbn. by rewrite (IH m) by (rewrite length_climb; lia).
Qed.
Definition walk_up (current : Hash32) (position width : nat) (siblings : list Hash32) := verify_loop hash width current position width siblings.
Lemma walk_step current position width sibling siblings : (1 < width)%nat →
  walk_up current position width (sibling :: siblings) =
  walk_up (if Nat.even position then node hash current sibling else node hash sibling current) (position / 2) ((width + 1) / 2) siblings.
Proof.
  intros Hw. unfold walk_up at 1. destruct width as [|n]; [lia|]. cbn [verify_loop]. rewrite decide_True by lia. apply verify_loop_fuel; lia.
Qed.
Lemma walk_inputs_step current position width sibling siblings : (1 < width)%nat →
  walk_inputs width current position width (sibling :: siblings) =
  let '(l, r) := if Nat.even position then (current, sibling) else (sibling, current) in
  node_input l r :: walk_inputs ((width + 1) / 2) (node hash l r) (position / 2) ((width + 1) / 2) siblings.
Proof.
  intros Hw. destruct width as [|n]; [lia|]. cbn [walk_inputs]. rewrite decide_True by lia. destruct (if Nat.even position then _ else _).
  f_equal. apply walk_inputs_fuel; lia.
Qed.
Lemma walk_missing current position width : (1 < width)%nat → walk_up current position width [] = None.
Proof. intros Hw. unfold walk_up. destruct width as [|n]; [lia|]. cbn [verify_loop]. by rewrite decide_True by lia. Qed.

Lemma proof_complete l : l ≠ [] → ∀ p current, l !! p = Some current →
  ∃ siblings, prove_loop hash (length l) l p = Some siblings ∧ walk_up current p (length l) siblings = Some (top_of hash l, []).
Proof.
  revert l. refine (level_ind hash _ _ _).
  - intros h [|p] current E; [|done]. injection E as <-. exists []. done.
  - intros l Hl IH p current Hp. pose proof (lookup_lt_Some _ _ _ Hp) as Hlt. destruct (climb_lookup hash l p Hlt) as (a & b & Ha & Hb & Hc).
    rewrite Hp in Ha. injection Ha as <-. 
    destruct (IH _ _ Hc) as (siblings & Hs & Hw). exists (b :: siblings). split.
    + destruct (length l) as [|n] eqn:El; [lia|]. cbn [prove_loop]. rewrite decide_True by lia. rewrite Hb. cbn [mbind option_bind].
      rewrite (prove_loop_fuel n (length (climb hash l))), Hs by (rewrite ?length_climb; lia). done.
    + rewrite walk_step by done. rewrite length_climb in Hw. rewrite Hw. by rewrite <- top_climb.
Qed.

Context (Hhash : ∀ domain parts, in_width 256 (hash domain parts)).
Lemma digest_inj h h' : in_width 256 h → in_width 256 h' → digest_bytes h = digest_bytes h' → h = h'.
Proof. intros Hh Hh' E. apply (f_equal be_val) in E. unfold digest_bytes in E. rewrite !be_val_bytes in E by (rewrite pow256_32; done). done. Qed.
Lemma node_splits inputs a b c d : in_width 256 a → in_width 256 b → in_width 256 c → in_width 256 d →
  node_input a b ∈ inputs → node_input c d ∈ inputs → node hash a b = node hash c d → (a = c ∧ b = d) ∨ collides inputs.
Proof.
  intros Ha Hb Hc Hd Hx Hy [E|Hcol]%(hash_splits inputs _ _ Hx Hy); [left|by right]. apply (f_equal snd) in E.
  split; [exact (digest_inj a c Ha Hc (f_equal (λ l, nth 0 l []) E))|exact (digest_inj b d Hb Hd (f_equal (λ l, nth 1 l []) E))].
Qed.
Lemma padded_width l : Forall (in_width 256) l → Forall (in_width 256) (padded hash l).
Proof. intros Hl. unfold padded. destruct (Nat.odd _); [|done]. apply Forall_app. split; [done|]. by repeat constructor; apply Hhash. Qed.
Lemma climb_width l : Forall (in_width 256) (climb hash l).
Proof. unfold climb. induction (padded hash l) as [|x|x y l' IH] using pair_ind; [done|done|]. cbn. constructor; [apply Hhash|done]. Qed.
(** The node a position climbs to is hashed from the position and its sibling. *)
Lemma climb_input l p a b : (p < length l)%nat → l !! p = Some a → padded hash l !! Nat.lxor p 1 = Some b →
  (if Nat.even p then node_input a b else node_input b a) ∈ pair_inputs (padded hash l).
Proof.
  intros Hp Ha Hb. rewrite <- (padded_lookup hash l p Hp) in Ha. rewrite lxor_one in Hb. destruct (Nat.even p) eqn:E.
  - apply Nat.even_spec in E as [k ->]. by apply (pair_inputs_lookup _ k).
  - assert (Ho : Nat.odd p = true) by (unfold Nat.odd; by rewrite E). apply Nat.odd_spec in Ho as [k ->].
    replace (2 * k + 1 - 1)%nat with (2 * k)%nat in Hb by lia. by apply (pair_inputs_lookup _ k).
Qed.

Section checked.
Context (inputs : list HashInput).
(** A walk that ends at the top of a level started at the digest it has there, beside the siblings it has. *)
Lemma proof_sound l : l ≠ [] → Forall (in_width 256) l → level_inputs (length l) l ⊆ inputs →
  ∀ p current siblings, (p < length l)%nat → in_width 256 current → Forall (in_width 256) siblings →
  walk_inputs (length l) current p (length l) siblings ⊆ inputs →
  walk_up current p (length l) siblings = Some (top_of hash l, []) →
  (l !! p = Some current ∧ prove_loop hash (length l) l p = Some siblings) ∨ collides inputs.
Proof.
  revert l. refine (level_ind hash _ _ _).
  - intros h _ _ p current siblings Hp _ _ _. cbn in Hp. destruct p; [|lia]. intros E. change (Some (current, siblings) = Some (h, [])) in E. left. by injection E as -> ->.
  - intros l Hl IH Hw Hin p current siblings Hp Hcur Hs Hwin. destruct siblings as [|s siblings]; [by rewrite walk_missing|]. rewrite walk_step by done.
    rewrite level_inputs_climb in Hin by done. apply list_subseteq_app_iff_l in Hin as [Hpin Hcin]. rewrite walk_inputs_step in Hwin by done.
    apply Forall_cons in Hs as [Hsw Hs]. rewrite top_climb, <- (length_climb hash) by done. intros E.
    destruct (climb_lookup hash l p Hp) as (a & b & Ha & Hb & Hc). pose proof (climb_input l p a b Hp Ha Hb) as Hab.
    set (up := if Nat.even p then node hash current s else node hash s current) in *.
    assert (Hup : in_width 256 up) by (unfold up; destruct (Nat.even p); apply Hhash).
    assert (Hcons : (if Nat.even p then node_input current s else node_input s current) ∈ inputs ∧
      walk_inputs (length (climb hash l)) up (p / 2) (length (climb hash l)) siblings ⊆ inputs).
    { rewrite length_climb. unfold up. destruct (Nat.even p); apply subseteq_cons in Hwin; exact Hwin. }
    destruct Hcons as [Hcin' Hrest].
    destruct (IH (climb_width l) Hcin (p / 2)%nat up siblings ltac:(rewrite length_climb; lia) Hup Hs Hrest E) as [[Hcur' Hpl]|]; [|by right].
    rewrite Hc in Hcur'. injection Hcur' as En. unfold up in En. pose proof (proj1 (Forall_lookup _ _) Hw p a Ha) as Haw.
    pose proof (proj1 (Forall_lookup _ _) (padded_width l Hw) _ b Hb) as Hbw.
    assert (Heq : (a = current ∧ b = s) ∨ collides inputs).
    { destruct (Nat.even p); apply (node_splits inputs) in En as [[? ?]|]; auto. }
    destruct Heq as [[-> ->]|]; [left|by right]. split; [done|]. destruct (length l) as [|n] eqn:El; [lia|]. cbn [prove_loop].
    rewrite decide_True, Hb by lia. cbn [mbind option_bind]. rewrite (prove_loop_fuel n (length (climb hash l))), Hpl by (rewrite ?length_climb; lia). done.
Qed.
Lemma top_width l : l ≠ [] → Forall (in_width 256) l → in_width 256 (top_of hash l).
Proof.
  revert l. refine (level_ind hash _ _ _).
  - intros h [Hh _]%Forall_cons. exact Hh.
  - intros l Hl IH _. rewrite top_climb by done. apply IH, climb_width.
Qed.
Lemma first_difference (l l' : list Hash32) : length l' = length l → l ≠ l' → ∃ p a a', l !! p = Some a ∧ l' !! p = Some a' ∧ a ≠ a'.
Proof.
  revert l'. induction l as [|x l IH]; intros [|y l'] Hlen Hn; try done. destruct (decide (x = y)) as [<-|Hxy].
  - destruct (IH l') as (p & a & a' & H1 & H2 & H3); [by injection Hlen|congruence|]. by exists (S p), a, a'.
  - by exists 0%nat, x, y.
Qed.
Lemma levels_bound l : l ≠ [] → Forall (in_width 256) l → level_inputs (length l) l ⊆ inputs →
  ∀ l', length l' = length l → Forall (in_width 256) l' → level_inputs (length l') l' ⊆ inputs → top_of hash l = top_of hash l' → l = l' ∨ collides inputs.
Proof.
  revert l. refine (level_ind hash _ _ _).
  - intros h _ _ l' Hlen _ _ E. destruct l' as [|h' [|]]; try done. left. change (h = h') in E. by rewrite E.
  - intros l Hl IH Hw Hin l' Hlen Hw' Hin' E. rewrite (top_climb hash l), (top_climb hash l') in E by lia.
    rewrite level_inputs_climb in Hin, Hin' by lia. apply list_subseteq_app_iff_l in Hin as [Hpin Hcin]. apply list_subseteq_app_iff_l in Hin' as [Hpin' Hcin'].
    destruct (IH (climb_width l) Hcin (climb hash l') ltac:(by rewrite !length_climb, Hlen) (climb_width l') Hcin' E) as [Ec|]; [|by right].
    destruct (decide (l = l')) as [|Hn]; [by left|right]. destruct (first_difference l l' Hlen Hn) as (p & a & a' & H1 & H2 & H3).
    assert (Hp : (p < length l)%nat) by (by eapply lookup_lt_Some). assert (Hp' : (p < length l')%nat) by (by eapply lookup_lt_Some).
    destruct (climb_lookup hash l p Hp) as (b & c & Hb & Hc & Hcl). destruct (climb_lookup hash l' p Hp') as (b' & c' & Hb' & Hc' & Hcl').
    rewrite Ec, Hcl' in Hcl. injection Hcl as En. pose proof (climb_input l p b c Hp Hb Hc) as Hx. pose proof (climb_input l' p b' c' Hp' Hb' Hc') as Hy.
    pose proof (proj1 (Forall_lookup _ _) Hw _ _ Hb). pose proof (proj1 (Forall_lookup _ _) Hw' _ _ Hb').
    pose proof (proj1 (Forall_lookup _ _) (padded_width l Hw) _ _ Hc). pose proof (proj1 (Forall_lookup _ _) (padded_width l' Hw') _ _ Hc').
    destruct (Nat.even p); apply (node_splits inputs) in En as [[Ea Eb]|]; auto; congruence.
Qed.
End checked.

(** Counts are [usize]s, digests 32 bytes. *)
Definition count_ok (n : nat) : Prop := in_width 64 (Z.of_nat n).
Definition proof_ok (pf : MerkleProof) : Prop := count_ok (pf_leaf_count pf) ∧ Forall (in_width 256) (pf_siblings pf).
Lemma finish_splits inputs domain tree n domain' tree' n' : in_width 256 tree → in_width 256 tree' → count_ok n → count_ok n' →
  finish_input domain tree n ∈ inputs → finish_input domain' tree' n' ∈ inputs →
  merkle_finish hash domain tree n = merkle_finish hash domain' tree' n' → (domain = domain' ∧ tree = tree' ∧ n = n') ∨ collides inputs.
Proof.
  intros Ht Ht' Hn Hn' Hx Hy [E|Hcol]%(hash_splits inputs _ _ Hx Hy); [left|by right]. apply (f_equal snd) in E. unfold finish_input in E. cbn [snd] in E.
  split; [exact (f_equal (λ l, nth 0 l []) E)|].
  split; [exact (digest_inj tree tree' Ht Ht' (f_equal (λ l, nth 1 l []) E))|].
  assert (Hw : ∀ k, count_ok k → 0 ≤ Z.of_nat k < 256 ^ Z.of_nat 8) by (intros k Hk; exact Hk).
  pose proof (f_equal (λ l, le_val (nth 2 l [])) E) as En. cbn [nth snd] in En. rewrite (le_val_bytes 8 _ (Hw n Hn)), (le_val_bytes 8 _ (Hw n' Hn')) in En. lia.
Qed.
Lemma leaves_width chunks : Forall (in_width 256) (leaf hash <$> chunks).
Proof. apply Forall_fmap, Forall_true. intros b. apply Hhash. Qed.
Lemma leaf_splits inputs b b' : leaf_input b ∈ inputs → leaf_input b' ∈ inputs → leaf hash b = leaf hash b' → b = b' ∨ collides inputs.
Proof. intros Hx Hy [[= E]|Hcol]%(hash_splits inputs _ _ Hx Hy); [by left|by right]. Qed.
Lemma leaves_split inputs chunks chunks' : leaf_input <$> chunks ⊆ inputs → leaf_input <$> chunks' ⊆ inputs →
  leaf hash <$> chunks = leaf hash <$> chunks' → chunks = chunks' ∨ collides inputs.
Proof.
  revert chunks'. induction chunks as [|x l IH]; intros [|y l'] Hin Hin' El; try done; [by left|]. injection El as E1 E2.
  apply subseteq_cons in Hin as [Hx Hin]. apply subseteq_cons in Hin' as [Hy Hin'].
  destruct (leaf_splits inputs x y Hx Hy E1) as [->|]; [|by right]. destruct (IH l' Hin Hin' E2) as [->|]; [by left|by right].
Qed.
Lemma root_of_tree domain chunks : root_of hash domain chunks = merkle_finish hash domain (tree_of hash chunks) (length chunks).
Proof. unfold root_of, tree_of. by destruct chunks. Qed.
Lemma tree_width chunks : in_width 256 (tree_of hash chunks).
Proof.
  unfold tree_of. destruct (decide _) as [|Hne]; [apply Hhash|]. apply top_width; [by destruct chunks|apply leaves_width].
Qed.
Lemma walk_width n current p w siblings top rest : in_width 256 current → verify_loop hash n current p w siblings = Some (top, rest) → in_width 256 top.
Proof.
  revert current p w siblings. induction n as [|n IH]; intros current p w siblings Hc; cbn [verify_loop]; [by intros [= <- _]|].
  destruct (decide _); [|by intros [= <- _]]. destruct siblings; [done|]. apply IH. destruct (Nat.even p); apply Hhash.
Qed.
Lemma proof_verifies domain chunks index b : chunks !! index = Some b →
  ∃ pf, prove hash chunks index = Some (Some pf) ∧ pf_index pf = index ∧ verify hash domain (root_of hash domain chunks) b pf = true.
Proof.
  intros E. pose proof (lookup_lt_Some _ _ _ E) as Hlt. assert (Hl : (leaf hash <$> chunks) !! index = Some (leaf hash b)) by (by rewrite list_lookup_fmap, E).
  destruct (proof_complete (leaf hash <$> chunks) ltac:(by destruct chunks) index _ Hl) as (siblings & Hp & Hw). rewrite length_fmap in Hp, Hw.
  exists {| pf_index := index; pf_leaf_count := length chunks; pf_siblings := siblings |}. unfold prove. rewrite decide_False, Hp by lia.
  split; [done|]. split; [done|]. unfold verify. cbn [pf_index pf_leaf_count pf_siblings]. rewrite decide_False by lia. unfold walk_up in Hw. rewrite Hw.
  rewrite root_of_tree. unfold tree_of. rewrite decide_False by (by destruct chunks). by rewrite !bool_decide_eq_true_2.
Qed.
Lemma verified_proof domain domain' chunks b pf : count_ok (length chunks) → proof_ok pf → verify hash domain' (root_of hash domain chunks) b pf = true →
  (domain' = domain ∧ chunks !! pf_index pf = Some b ∧ prove hash chunks (pf_index pf) = Some (Some pf)) ∨
  collides (root_inputs domain chunks ++ verify_inputs domain' b pf).
Proof.
  intros Hn [Hc Hs]. set (inputs := root_inputs domain chunks ++ verify_inputs domain' b pf). unfold verify. destruct (decide _) as [|Hi]; [done|].
  destruct (verify_loop _ _ _ _ _ _) as [[top unused]|] eqn:Ew; [|done]. rewrite andb_true_iff, !bool_decide_eq_true. intros [-> E].
  assert (Hsub : leaf_input <$> chunks ⊆ inputs ∧ level_inputs (length chunks) (leaf hash <$> chunks) ⊆ inputs ∧
    finish_input domain (tree_of hash chunks) (length chunks) ∈ inputs ∧ leaf_input b ∈ inputs ∧
    walk_inputs (pf_leaf_count pf) (leaf hash b) (pf_index pf) (pf_leaf_count pf) (pf_siblings pf) ⊆ inputs ∧ finish_input domain' top (pf_leaf_count pf) ∈ inputs).
  { unfold inputs, root_inputs, verify_inputs. rewrite Ew. split_and!; set_solver. }
  destruct Hsub as (Hl & Hv & Hf & Hb & Hwk & Hf'). clearbody inputs.
  rewrite root_of_tree in E. pose proof (walk_width _ _ _ _ _ _ _ (Hhash _ _) Ew) as Htop.
  destruct (finish_splits inputs _ _ _ _ _ _ Htop (tree_width chunks) Hc Hn Hf' Hf E) as [(-> & Et & En)|]; [|by right].
  assert (Hne : chunks ≠ []) by (intros ->; cbn in En; lia). unfold tree_of in Et. rewrite decide_False in Et by done. subst top. rewrite En in Ew, Hi, Hwk.
  destruct (proof_sound inputs (leaf hash <$> chunks) ltac:(by destruct chunks) (leaves_width chunks) ltac:(by rewrite length_fmap)
    (pf_index pf) (leaf hash b) (pf_siblings pf)) as [[Hlk Hpl]|];
    [rewrite length_fmap; lia|apply Hhash|done|by rewrite length_fmap|unfold walk_up; by rewrite length_fmap| |by right].
  rewrite list_lookup_fmap in Hlk. destruct (chunks !! pf_index pf) as [b'|] eqn:Eb; [|done]. cbn in Hlk. injection Hlk as Hlk.
  destruct (leaf_splits inputs b' b) as [->|]; [apply Hl, list_elem_of_fmap; exists b'; split; [done|by eapply list_elem_of_lookup_2]|done|done|left|by right].
  split; [done|]. split; [done|]. unfold prove. rewrite decide_False by lia. rewrite length_fmap in Hpl. rewrite Hpl. cbn. destruct pf as [ix n sib]. cbn in *. by subst n.
Qed.
Lemma roots_differ domain domain' chunks chunks' : count_ok (length chunks) → count_ok (length chunks') → root_of hash domain chunks = root_of hash domain' chunks' →
  (domain = domain' ∧ chunks = chunks') ∨ collides (root_inputs domain chunks ++ root_inputs domain' chunks').
Proof.
  intros Hn Hn'. set (inputs := root_inputs domain chunks ++ root_inputs domain' chunks'). rewrite !root_of_tree. intros E.
  assert (Hsub : leaf_input <$> chunks ⊆ inputs ∧ level_inputs (length chunks) (leaf hash <$> chunks) ⊆ inputs ∧ finish_input domain (tree_of hash chunks) (length chunks) ∈ inputs ∧
    leaf_input <$> chunks' ⊆ inputs ∧ level_inputs (length chunks') (leaf hash <$> chunks') ⊆ inputs ∧ finish_input domain' (tree_of hash chunks') (length chunks') ∈ inputs).
  { unfold inputs, root_inputs. split_and!; set_solver. }
  destruct Hsub as (Hl & Hv & Hf & Hl' & Hv' & Hf'). clearbody inputs.
  destruct (finish_splits inputs _ _ _ _ _ _ (tree_width chunks) (tree_width chunks') Hn Hn' Hf Hf' E) as [(-> & Et & En)|]; [|by right].
  assert (Hcs : chunks = chunks' ∨ collides inputs); [|destruct Hcs as [->|]; [by left|by right]].
  unfold tree_of in Et. destruct chunks as [|c chunks], chunks' as [|c' chunks']; try done; [by left|]. rewrite !decide_False in Et by done.
  assert (Hne : leaf hash <$> c :: chunks ≠ []) by (cbn; discriminate).
  destruct (levels_bound inputs (leaf hash <$> c :: chunks) Hne (leaves_width _) ltac:(by rewrite length_fmap) (leaf hash <$> c' :: chunks')) as [El|];
    [by rewrite !length_fmap|apply leaves_width|by rewrite length_fmap|done| |by right].
  by apply (leaves_split inputs).
Qed.

(** C13: Proofs against a merkle root. A leaf of the tree has a proof, which verifies under the root's domain; an index past
    the leaves has none. A proof that verifies, whatever produced it and under whatever domain, is the one the tree has
    for the leaf at its place, sibling for sibling, under the tree's own domain; and two roots agree only for one domain
    and one list of leaves. The alternative in each case is a collision between two of the inputs hashed to make the
    roots and to check the proof, all of them listed. *)
Theorem merkle_proofs :
  (∀ domain chunks index, match chunks !! index with
    | Some b => ∃ pf, prove hash chunks index = Some (Some pf) ∧ pf_index pf = index ∧ verify hash domain (root_of hash domain chunks) b pf = true
    | None => prove hash chunks index = Some None
    end) ∧
  (∀ domain domain' chunks b pf, count_ok (length chunks) → proof_ok pf → verify hash domain' (root_of hash domain chunks) b pf = true →
    (domain' = domain ∧ chunks !! pf_index pf = Some b ∧ prove hash chunks (pf_index pf) = Some (Some pf)) ∨
    collides (root_inputs domain chunks ++ verify_inputs domain' b pf)) ∧
  (∀ domain domain' chunks chunks', count_ok (length chunks) → count_ok (length chunks') → root_of hash domain chunks = root_of hash domain' chunks' →
    (domain = domain' ∧ chunks = chunks') ∨ collides (root_inputs domain chunks ++ root_inputs domain' chunks')).
Proof.
  split; [|split; [apply verified_proof|apply roots_differ]].
  intros domain chunks index. destruct (chunks !! index) as [b|] eqn:E; [by apply proof_verifies|].
  apply lookup_ge_None in E. unfold prove. by rewrite decide_True.
Qed.
End sound.

(** A field proved to a holder of the root, under a hash that reads its input as a number. *)
Definition sample_hash (domain : bytes) (parts : list bytes) : Hash32 := le_val (domain ++ concat parts) mod 2 ^ 256.
Lemma merkle_sample_width domain parts : in_width 256 (sample_hash domain parts).
Proof. apply Z.mod_pos_bound. done. Qed.
Definition sample_chunks : list bytes := [[u8_of 1]; [u8_of 2; u8_of 3]; []].
(** Nothing hashed there collides, so the proof is the tree's own. *)
Definition collides_check (hash : bytes → list bytes → Hash32) (l : list HashInput) : bool :=
  existsb (λ x, existsb (λ y, bool_decide (x ≠ y ∧ hash_input hash x = hash_input hash y)) l) l.
Lemma collides_check_spec hash l : collides_check hash l = false → ¬ collides hash l.
Proof.
  intros H (x & y & Hx & Hy & Hn & E). apply Bool.not_true_iff_false in H. apply H. unfold collides_check. apply existsb_exists. exists x. split; [by apply list_elem_of_In|].
  apply existsb_exists. exists y. split; [by apply list_elem_of_In|]. by apply bool_decide_eq_true.
Qed.
Definition sample_proof : MerkleProof := default {| pf_index := 0; pf_leaf_count := 0; pf_siblings := [] |} (prove sample_hash sample_chunks 1 ≫= id).
Lemma sample_proved : prove sample_hash sample_chunks 1 = Some (Some sample_proof).
Proof. vm_compute. reflexivity. Qed.
Lemma sample_no_collision : collides_check sample_hash (root_inputs sample_hash [] sample_chunks ++ verify_inputs sample_hash [] [u8_of 2; u8_of 3] sample_proof) = false.
Proof. vm_compute. reflexivity. Qed.
Lemma sample_count_ok : count_ok (length sample_chunks).
Proof. split; [discriminate|reflexivity]. Qed.
Lemma sample_proof_ok : proof_ok sample_proof.
Proof.
  assert (E : bool_decide (Z.of_nat (pf_leaf_count sample_proof) < 2 ^ 64) && forallb (λ x, bool_decide (0 ≤ x) && bool_decide (x < 2 ^ 256)) (pf_siblings sample_proof) = true)
    by (vm_compute; reflexivity).
  apply andb_true_iff in E as [E1%bool_decide_eq_true E2]. split; [split; [apply Nat2Z.is_nonneg|exact E1]|].
  apply Forall_forall. intros x Hx%list_elem_of_In. pose proof (proj1 (forallb_forall _ _) E2 x Hx) as Hb. rewrite andb_true_iff, !bool_decide_eq_true in Hb. exact Hb.
Qed.
Lemma merkle_proofs_witness : verify sample_hash [] (root_of sample_hash [] sample_chunks) [u8_of 2; u8_of 3] sample_proof = true ∧ length (pf_siblings sample_proof) = 2%nat ∧
  sample_chunks !! pf_index sample_proof = Some [u8_of 2; u8_of 3].
Proof.
  destruct (merkle_proofs sample_hash merkle_sample_width) as (H1 & H2 & _). destruct (H1 [] sample_chunks 1%nat) as (pf & Hp & _ & Hv).
  pose proof (eq_trans (eq_sym Hp) sample_proved) as E. apply Some_inj, Some_inj in E. rewrite E in Hv. split; [exact Hv|]. split; [vm_compute; reflexivity|].
  destruct (H2 [] [] sample_chunks [u8_of 2; u8_of 3] sample_proof) as [(_ & Hb & _)|Hcol]; [exact sample_count_ok|exact sample_proof_ok|exact Hv|exact Hb|].
  exfalso. exact (collides_check_spec _ _ sample_no_collision Hcol).
Defined.
