(* ===== verification/Text.v ===== *)
(** * Addresses as text ([crates/types/src/address/text.rs])

    The human-readable form of an address: bech32m over a prefix that words the
    class and the network. A string is its list of characters, each the code point
    it is; a data word is a [u8] below 32. Reading back what was written gives the
    address, writing back what was read gives the string, and a string with one
    character replaced is never read as an address. *)

From Stdlib Require Import String Ascii.
From S2P Require Import Prelude WideMath Types.

Abbreviation char := Z (only parsing).
Definition chars (s : string) : list char := (λ a, Z.of_N (N_of_ascii a)) <$> list_ascii_of_string s.

(** ** Constants, and refusals *)

Definition CHARSET : list char := chars "qpzry9x8gf2tvdw0s3jn54khce6mua7l".
Definition GENERATORS : list Z := [0x3b6a57b2; 0x26508e6d; 0x1ea119fa; 0x3d4233dd; 0x2a1462b3].
Definition BECH32M_CONST : Z := 0x2bc830a3.
Definition MAX_ENCODED_LEN : nat := 90.
Definition SEPARATOR : char := 49.
Definition UNDERSCORE : char := 95.

Module TextErr.
Inductive TextError :=
  | MissingSeparator
  | IncompletePrefix
  | InvalidCharacter (c : char)
  | MixedCase
  | BadChecksum
  | TooLong (len : nat)
  | WrongLength (len : nat)
  | BadPadding
  | UnknownClass (word : list char)
  | ClassMismatch (worded tagged : AddressClass)
  | NotAnAddress (e : InvalidAddress).
End TextErr.
Abbreviation TextError := TextErr.TextError.

Definition class_word (c : AddressClass) : list char :=
  match c with
  | Principal => chars "account" | Component => chars "component" | Package => chars "package"
  | Resource => chars "resource" | Native => chars "native" | Restricted => chars "restricted"
  end.
Definition address_classes : list AddressClass := [Principal; Component; Package; Resource; Native; Restricted].
Definition from_word (word : list char) : option AddressClass := List.find (λ c, bool_decide (class_word c = word)) address_classes.

(** ** Characters and strings *)

Definition len_utf8 (c : char) : nat := if decide (c < 0x80) then 1 else if decide (c < 0x800) then 2 else if decide (c < 0x10000) then 3 else 4.
Definition str_len (t : list char) : nat := sum_list_with len_utf8 t.
Definition is_upper (c : char) : bool := bool_decide (65 ≤ c ≤ 90).
Definition is_lower (c : char) : bool := bool_decide (97 ≤ c ≤ 122).
Definition is_digit (c : char) : bool := bool_decide (48 ≤ c ≤ 57).
Definition is_graphic (c : char) : bool := bool_decide (33 ≤ c ≤ 126).
Definition to_lower (c : char) : char := if is_upper c then c + 32 else c.
(** [split_once], and the split at [rfind]. *)
Fixpoint split_once (c : char) (t : list char) : option (list char * list char) :=
  match t with
  | [] => None
  | x :: t => if decide (x = c) then Some ([], t) else '(l, r) ← split_once c t; Some (x :: l, r)
  end.
Fixpoint rsplit_once (c : char) (t : list char) : option (list char * list char) :=
  match t with
  | [] => None
  | x :: t =>
      match rsplit_once c t with
      | Some (l, r) => Some (x :: l, r)
      | None => if decide (x = c) then Some ([], t) else None
      end
  end.

(** [<<] on a [u32] drops what leaves the word. *)
Definition u32_shl (x n : Z) : Z := Z.shiftl x n mod 2 ^ 32.

(** ** The checksum *)

Definition prefix_words (prefix : list char) : list Z :=
  ((λ b, Z.shiftr b 5) <$> prefix) ++ [0] ++ ((λ b, Z.land b 31) <$> prefix).
(** The five conditional exclusive ors, generator by generator. *)
Fixpoint mix_generators (top : Z) (bit : Z) (generators : list Z) (residue : Z) : Z :=
  match generators with
  | [] => residue
  | g :: gs => mix_generators top (bit + 1) gs (if decide (Z.land (Z.shiftr top bit) 1 = 1) then Z.lxor residue g else residue)
  end.
Definition polymod_step (residue word : Z) : Z :=
  let top := Z.shiftr residue 25 in
  mix_generators top 0 GENERATORS (Z.lxor (u32_shl (Z.land residue 0x1ffffff) 5) word).
Definition polymod (words : list Z) : Z := foldl polymod_step 1 words.
Definition checksum_words (residue : Z) : list Z := (λ index, Z.land (Z.shiftr residue (5 * (5 - index))) 31) <$> [0; 1; 2; 3; 4; 5].
Definition checksum (prefix : list char) (words : list Z) : list Z :=
  checksum_words (Z.lxor (polymod (prefix_words prefix ++ words ++ replicate 6 0)) BECH32M_CONST).

(** ** Words *)

(** [while bits >= width]: one word per [width] bits in hand, high ones first. *)
Fixpoint drain (fuel : nat) (width : Z) (acc bits : Z) (out : list Z) : Z * list Z :=
  match fuel with
  | O => (bits, out)
  | S fuel =>
      if decide (width ≤ bits)
      then drain fuel width acc (bits - width) (out ++ [Z.land (Z.shiftr acc (bits - width)) (2 ^ width - 1)])
      else (bits, out)
  end.
(** One pass of the regrouping loop: [from] bits in, words of [to] bits out; it can run at most as often as bits are
    held. *)
Definition regroup_step (from to : Z) (st : Z * Z * list Z) (unit : Z) : Z * Z * list Z :=
  let '(acc, bits, out) := st in
  let acc := Z.lor (u32_shl acc from) unit in
  let '(bits, out) := drain (Z.to_nat (bits + from)) to acc (bits + from) out in
  (acc, bits, out).
Definition regroup (from to : Z) (units : list Z) : Z * Z * list Z := foldl (regroup_step from to) (0, 0, []) units.
Definition to_words (b : bytes) : list Z :=
  let '(acc, bits, words) := regroup 8 5 (u8_val <$> b) in
  if decide (0 < bits) then words ++ [Z.land (u32_shl acc (5 - bits)) 31] else words.
Definition from_words (words : list Z) : result TextError bytes :=
  let '(acc, bits, out) := regroup 5 8 words in
  if decide (5 ≤ bits ∨ Z.land (u32_shl acc (8 - bits)) 0xff ≠ 0) then Err TextErr.BadPadding else Ok (u8_of <$> out).

(** ** Encoding and decoding *)

Definition charset_at (word : Z) : char := default 0 (CHARSET !! Z.to_nat word).
Definition charset_value (c : char) : option Z := (λ p, Z.of_nat p.1) <$> list_find (λ x, x = c) CHARSET.
Definition encode_text (prefix : list char) (words : list Z) : result TextError (list char) :=
  let len := (length prefix + 1 + length words + 6)%nat in
  if decide (MAX_ENCODED_LEN < len)%nat then Err (TextErr.TooLong len)
  else Ok (prefix ++ [SEPARATOR] ++ (charset_at <$> words ++ checksum prefix words)).
Fixpoint data_words (data : list char) : result TextError (list Z) :=
  match data with
  | [] => Ok []
  | c :: data => value ← ok_or (charset_value c) (TextErr.InvalidCharacter c); words ← data_words data; Ok (value :: words)
  end.
Definition decode_text (text : list char) : result TextError (list char * list Z) :=
  if decide (MAX_ENCODED_LEN < str_len text)%nat then Err (TextErr.TooLong (str_len text)) else
  match List.find (λ c, negb (is_graphic c)) text with
  | Some bad => Err (TextErr.InvalidCharacter bad)
  | None =>
      if existsb is_upper text && existsb is_lower text then Err TextErr.MixedCase else
      let text := to_lower <$> text in
      '(prefix, data) ← ok_or (rsplit_once SEPARATOR text) TextErr.MissingSeparator;
      if decide (prefix = []) then Err TextErr.IncompletePrefix else
      if decide (length data < 6)%nat then Err TextErr.BadChecksum else
      words ← data_words data;
      if decide (polymod (prefix_words prefix ++ words) ≠ BECH32M_CONST) then Err TextErr.BadChecksum
      else Ok (prefix, take (length words - 6) words)
  end.

(** [None] is the panic of an address with no class, which none is. *)
Definition to_text (a : Address) (network : list char) : option (result TextError (list char)) :=
  if decide (network = []) then Some (Err TextErr.IncompletePrefix) else
  match List.find (λ c, negb (is_lower c) && negb (is_digit c)) network with
  | Some bad => Some (Err (TextErr.InvalidCharacter bad))
  | None =>
      class ← address_class a;
      Some (encode_text (class_word class ++ [UNDERSCORE] ++ network) (to_words (address_to_bytes a)))
  end.
Definition from_text (text : list char) : option (result TextError (Address * list char)) :=
  match decode_text text with
  | Err e => Some (Err e)
  | Ok (prefix, words) =>
      match from_words words with
      | Err e => Some (Err e)
      | Ok b =>
          if decide (length b ≠ 32%nat) then Some (Err (TextErr.WrongLength (length b))) else
          match address_from_bytes b with
          | Err e => Some (Err (TextErr.NotAnAddress e))
          | Ok a =>
              match split_once UNDERSCORE prefix with
              | None => Some (Err TextErr.IncompletePrefix)
              | Some (class, network) =>
                  if decide (network = []) then Some (Err TextErr.IncompletePrefix) else
                  if decide (UNDERSCORE ∈ network) then Some (Err (TextErr.InvalidCharacter UNDERSCORE)) else
                  match from_word class with
                  | None => Some (Err (TextErr.UnknownClass class))
                  | Some worded =>
                      tagged ← address_class a;
                      Some (if decide (worded ≠ tagged) then Err (TextErr.ClassMismatch worded tagged) else Ok (a, network))
                  end
              end
          end
      end
  end.

(** ** Groups of bits *)

(** The [w] low bits of a number, the highest first. *)
Fixpoint bits_of (w : nat) (x : Z) : list bool := match w with O => [] | S w => Z.testbit x (Z.of_nat w) :: bits_of w x end.
Definition units_bits (w : nat) (us : list Z) : list bool := us ≫= bits_of w.
Definition below (w : nat) (x : Z) : Prop := 0 ≤ x < 2 ^ Z.of_nat w.

Lemma testbit_below w x i : below w x → Z.of_nat w ≤ i → Z.testbit x i = false.
Proof. intros Hx Hi. rewrite <- (Z.mod_small x (2 ^ Z.of_nat w)) by exact Hx. apply Z.mod_pow2_bits_high. lia. Qed.
Lemma below_testbit w x : 0 ≤ x → (∀ i, Z.of_nat w ≤ i → Z.testbit x i = false) → below w x.
Proof.
  intros H0 Hb. split; [done|]. replace x with (x mod 2 ^ Z.of_nat w); [apply Z.mod_pos_bound; lia|].
  apply Z.bits_inj'. intros i Hi. destruct (decide (i < Z.of_nat w)).
  - by rewrite Z.mod_pow2_bits_low.
  - rewrite Z.mod_pow2_bits_high, Hb by lia. done.
Qed.
Lemma length_bits_of w x : length (bits_of w x) = w.
Proof. induction w; cbn; congruence. Qed.
Lemma bits_of_ext w x y : (∀ i, 0 ≤ i < Z.of_nat w → Z.testbit x i = Z.testbit y i) → bits_of w x = bits_of w y.
Proof. induction w as [|w IH]; intros Hi; [done|]. cbn. rewrite (Hi (Z.of_nat w)) by lia. f_equal. apply IH. intros. apply Hi. lia. Qed.
Lemma bits_of_app m n x : bits_of (m + n) x = bits_of m (Z.shiftr x (Z.of_nat n)) ++ bits_of n x.
Proof. induction m as [|m IH]; [done|]. cbn. rewrite IH, Z.shiftr_spec by lia. do 2 f_equal. lia. Qed.
Lemma bits_of_nth w x y i : bits_of w x = bits_of w y → 0 ≤ i < Z.of_nat w → Z.testbit x i = Z.testbit y i.
Proof.
  intros E Hi. replace w with ((w - S (Z.to_nat i)) + S (Z.to_nat i))%nat in E by lia. rewrite !bits_of_app in E.
  apply app_inj_2 in E as [_ E]; [|by rewrite !length_bits_of]. cbn in E. injection E as E _. by rewrite Z2Nat.id in E by lia.
Qed.
Lemma bits_of_inj w x y : below w x → below w y → bits_of w x = bits_of w y → x = y.
Proof.
  intros Hx Hy E. apply Z.bits_inj'. intros i Hi. destruct (decide (i < Z.of_nat w)) as [Hw|Hw].
  - by apply (bits_of_nth w).
  - by rewrite !(testbit_below w) by (done || lia).
Qed.
Lemma length_units_bits w us : length (units_bits w us) = (w * length us)%nat.
Proof. unfold units_bits. induction us as [|u us IH]; cbn; [lia|]. rewrite length_app, length_bits_of, IH. lia. Qed.
Lemma units_bits_inj w us vs : (0 < w)%nat → Forall (below w) us → Forall (below w) vs → units_bits w us = units_bits w vs → us = vs.
Proof.
  intros Hw Hu. revert vs. induction Hu as [|u us Hu _ IH]; intros vs Hv E.
  { apply (f_equal length) in E. rewrite !length_units_bits in E. destruct vs; [done|]. cbn in E. lia. }
  destruct Hv as [|v vs Hv Hvs]; [apply (f_equal length) in E; rewrite !length_units_bits in E; cbn in E; lia|].
  cbn in E. apply app_inj_1 in E as [E1 E2]; [|by rewrite !length_bits_of]. f_equal; [by eapply bits_of_inj|by apply IH].
Qed.

(** ** Regrouping *)

Lemma bits_of_masked w x : bits_of w (Z.land x (2 ^ Z.of_nat w - 1)) = bits_of w x.
Proof.
  apply bits_of_ext. intros i Hi.
  replace (2 ^ Z.of_nat w - 1) with (Z.ones (Z.of_nat w)) by (rewrite Z.ones_equiv; lia).
  rewrite Z.land_spec, Z.ones_spec_low by lia. by rewrite andb_true_r.
Qed.
Lemma masked_below w x : below w (Z.land x (2 ^ Z.of_nat w - 1)).
Proof.
  replace (2 ^ Z.of_nat w - 1) with (Z.ones (Z.of_nat w)) by (rewrite Z.ones_equiv; lia).
  rewrite Z.land_ones by lia. apply Z.mod_pos_bound. lia.
Qed.
Lemma drain_spec w acc : (0 < w)%nat → ∀ fuel bits out, (Z.to_nat bits ≤ fuel)%nat → 0 ≤ bits →
  ∃ ws rest, drain fuel (Z.of_nat w) acc bits out = (Z.of_nat rest, out ++ ws) ∧ (rest < w)%nat ∧ Forall (below w) ws ∧
    bits_of (Z.to_nat bits) acc = units_bits w ws ++ bits_of rest acc.
Proof.
  intros Hw. induction fuel as [|fuel IH]; intros bits out Hf Hb; cbn [drain].
  { exists [], 0%nat. rewrite app_nil_r. replace bits with 0 by lia. split; [done|]. split; [done|]. by split; [constructor|]. }
  destruct (decide _) as [Hle|Hgt].
  - destruct (IH (bits - Z.of_nat w) (out ++ [Z.land (Z.shiftr acc (bits - Z.of_nat w)) (2 ^ Z.of_nat w - 1)])) as (ws & rest & E & Hr & Hws & Hbits); [lia..|].
    exists (Z.land (Z.shiftr acc (bits - Z.of_nat w)) (2 ^ Z.of_nat w - 1) :: ws), rest. rewrite E, <- app_assoc. split; [done|]. split; [done|].
    split; [constructor; [apply masked_below|done]|]. cbn [units_bits mbind list_bind]. rewrite bits_of_masked.
    replace (Z.to_nat bits) with (w + Z.to_nat (bits - Z.of_nat w))%nat by lia. rewrite bits_of_app, Hbits, Z2Nat.id by lia. by rewrite app_assoc.
  - exists [], (Z.to_nat bits). rewrite app_nil_r, Z2Nat.id by lia. split; [done|]. split; [lia|]. by split; [constructor|].
Qed.
Lemma shifted_in from k acc u : (k + from ≤ 32)%nat → below from u →
  bits_of (k + from) (Z.lor (u32_shl acc (Z.of_nat from)) u) = bits_of k acc ++ bits_of from u.
Proof.
  intros Hk Hu. rewrite bits_of_app. f_equal; apply bits_of_ext; intros i Hi; unfold u32_shl.
  - rewrite Z.shiftr_spec, Z.lor_spec, (testbit_below from u) by (done || lia). rewrite orb_false_r, Z.mod_pow2_bits_low by lia.
    rewrite Z.shiftl_spec by lia. f_equal. lia.
  - rewrite Z.lor_spec, Z.mod_pow2_bits_low, Z.shiftl_spec_low by lia. done.
Qed.
(** What the loop holds is what it read: the words out, then the bits in hand. *)
Lemma regroup_spec from to us : (0 < to)%nat → (to + from ≤ 33)%nat → Forall (below from) us →
  ∃ acc rest out, regroup (Z.of_nat from) (Z.of_nat to) us = (acc, Z.of_nat rest, out) ∧ (rest < to)%nat ∧ Forall (below to) out ∧
    units_bits from us = units_bits to out ++ bits_of rest acc.
Proof.
  intros Ht Hft. induction us as [|u us IH] using rev_ind; intros Hus.
  { exists 0, 0%nat, []. split; [done|]. split; [done|]. by split; [constructor|]. }
  apply Forall_app in Hus as [Hus Hu]. apply Forall_cons in Hu as [Hu _]. destruct (IH Hus) as (acc & rest & out & E & Hr & Hout & Hbits).
  unfold regroup in *. rewrite foldl_app, E. cbn [foldl regroup_step].
  set (acc' := Z.lor (u32_shl acc (Z.of_nat from)) u).
  destruct (drain_spec to acc' Ht (Z.to_nat (Z.of_nat rest + Z.of_nat from)) (Z.of_nat rest + Z.of_nat from) out) as (ws & rest' & -> & Hr' & Hws & Hb); [lia..|].
  exists acc', rest', (out ++ ws). split; [done|]. split; [done|]. split; [by apply Forall_app|].
  replace (Z.to_nat (Z.of_nat rest + Z.of_nat from)) with (rest + from)%nat in Hb by lia. unfold acc' in Hb at 1. rewrite shifted_in in Hb by (done || lia).
  unfold units_bits in *. rewrite !bind_app, Hbits. cbn. rewrite app_nil_r, <- !app_assoc. f_equal. exact Hb.
Qed.

(** ** Words and bytes *)

Definition word_ok (w : Z) : Prop := below 5 w.
Definition byte_bits (b : bytes) : list bool := units_bits 8 (u8_val <$> b).
(** The words carry the bytes, then fewer than a word of padding. *)
Definition carries (ws : list Z) (b : bytes) : Prop := ∃ pad, (pad < 5)%nat ∧ units_bits 5 ws = byte_bits b ++ replicate pad false.

Lemma u8_vals_below (b : bytes) : Forall (below 8) (u8_val <$> b).
Proof. apply Forall_fmap, Forall_true. intros x. apply u8_val_bound. Qed.
Lemma u8_round (l : list Z) : Forall (below 8) l → u8_val <$> (u8_of <$> l) = l.
Proof. induction 1 as [|x l Hx _ IH]; [done|]. cbn. rewrite IH, u8_val_of. f_equal. by apply Z.mod_small. Qed.
Lemma bits_of_zero w x : (∀ i, 0 ≤ i < Z.of_nat w → Z.testbit x i = false) ↔ bits_of w x = replicate w false.
Proof.
  assert (Hz : bits_of w 0 = replicate w false) by (induction w as [|w IH]; [done|]; cbn; by rewrite Z.testbit_0_l, IH).
  rewrite <- Hz. split.
  - intros Hx. apply bits_of_ext. intros i Hi. by rewrite Hx, Z.testbit_0_l.
  - intros E i Hi. by rewrite (bits_of_nth w x 0 i E Hi), Z.testbit_0_l.
Qed.
Lemma padded k acc : (k ≤ 5)%nat → bits_of 5 (Z.land (u32_shl acc (5 - Z.of_nat k)) 31) = bits_of k acc ++ replicate (5 - k) false.
Proof.
  intros Hk. rewrite (bits_of_masked 5). replace 5%nat with (k + (5 - k))%nat at 1 by lia. rewrite bits_of_app. unfold u32_shl. f_equal.
  - apply bits_of_ext. intros i Hi. rewrite Z.shiftr_spec, Z.mod_pow2_bits_low, Z.shiftl_spec by lia. f_equal. lia.
  - apply bits_of_zero. intros i Hi. by rewrite Z.mod_pow2_bits_low, Z.shiftl_spec_low by lia.
Qed.
Lemma to_words_spec b : Forall word_ok (to_words b) ∧ carries (to_words b) b.
Proof.
  unfold to_words. destruct (regroup_spec 8 5 (u8_val <$> b)) as (acc & rest & out & E & Hr & Hout & Hb); [lia..|apply u8_vals_below|].
  change (Z.of_nat 8) with 8 in E. change (Z.of_nat 5) with 5 in E. rewrite E. destruct (decide _) as [Hpos|Hpos].
  - split; [apply Forall_app; split; [done|]; constructor; [apply (masked_below 5)|constructor]|].
    exists (5 - rest)%nat. split; [lia|]. unfold units_bits in *. rewrite bind_app. cbn [mbind list_bind]. rewrite padded, app_nil_r by lia.
    unfold byte_bits, units_bits. by rewrite Hb, app_assoc.
  - split; [done|]. exists 0%nat. split; [lia|]. unfold byte_bits. rewrite Hb. replace rest with 0%nat by lia. cbn [bits_of replicate]. by rewrite !app_nil_r.
Qed.
Lemma from_words_spec ws b : Forall word_ok ws → from_words ws = Ok b ↔ carries ws b.
Proof.
  intros Hws. unfold from_words. destruct (regroup_spec 5 8 ws) as (acc & rest & out & E & Hr & Hout & Hb); [lia..|done|].
  change (Z.of_nat 8) with 8 in E. change (Z.of_nat 5) with 5 in E. rewrite E.
  assert (Hmask : Z.land (u32_shl acc (8 - Z.of_nat rest)) 0xff = 0 ↔ bits_of rest acc = replicate rest false).
  { rewrite <- bits_of_zero. split.
    - intros Hz i Hi. assert (Ht : Z.testbit (Z.land (u32_shl acc (8 - Z.of_nat rest)) 0xff) (i + (8 - Z.of_nat rest)) = false) by (by rewrite Hz, Z.testbit_0_l).
      change 0xff with (Z.ones 8) in Ht. unfold u32_shl in Ht. rewrite Z.land_spec, Z.ones_spec_low, Z.mod_pow2_bits_low, Z.shiftl_spec in Ht by lia.
      rewrite andb_true_r in Ht. by replace (i + (8 - Z.of_nat rest) - (8 - Z.of_nat rest)) with i in Ht by lia.
    - intros Hz. apply Z.bits_inj'. intros i Hi. change 0xff with (Z.ones 8). rewrite Z.testbit_0_l, Z.land_spec. destruct (decide (i < 8)).
      + unfold u32_shl. rewrite Z.mod_pow2_bits_low by lia. destruct (decide (i < 8 - Z.of_nat rest)); [by rewrite Z.shiftl_spec_low by lia|].
        rewrite Z.shiftl_spec, Hz by lia. done.
      + rewrite Z.ones_spec_high by lia. apply andb_false_r. }
  destruct (decide _) as [Hbad|Hgood].
  - split; [done|]. intros (pad & Hpad & Hc). exfalso. rewrite Hb in Hc. unfold byte_bits in Hc.
    assert (Hl : (8 * length out + rest = 8 * length b + pad)%nat).
    { apply (f_equal length) in Hc. rewrite !length_app, !length_units_bits, length_bits_of, length_fmap, length_replicate in Hc. lia. }
    assert (rest = pad) as -> by lia. apply app_inj_2 in Hc as [_ Hc]; [|by rewrite length_bits_of, length_replicate].
    apply Hmask in Hc. destruct Hbad; [lia|done].
  - apply Decidable.not_or in Hgood as [H1 H2].
    assert (Hz : bits_of rest acc = replicate rest false) by (apply Hmask; destruct (decide (Z.land (u32_shl acc (8 - Z.of_nat rest)) 0xff = 0)); [done|by destruct H2]).
    split.
    + intros [= <-]. exists rest. split; [lia|]. unfold byte_bits. by rewrite u8_round, Hb, Hz.
    + intros (pad & Hpad & Hc). rewrite Hb in Hc. unfold byte_bits in Hc.
      assert (Hl : (8 * length out + rest = 8 * length b + pad)%nat).
      { apply (f_equal length) in Hc. rewrite !length_app, !length_units_bits, length_bits_of, length_fmap, length_replicate in Hc. lia. }
      apply app_inj_1 in Hc as [Hc _]; [|rewrite !length_units_bits, length_fmap; lia].
      apply units_bits_inj in Hc; [|lia|done|apply u8_vals_below]. subst out. f_equal.
      rewrite <- list_fmap_compose. rewrite <- (list_fmap_id b) at 2. apply list_fmap_ext. intros i x _. apply u8_of_val.
Qed.
Lemma carries_words ws ws' b : Forall word_ok ws → Forall word_ok ws' → carries ws b → carries ws' b → ws = ws'.
Proof.
  intros Hw Hw' (p & Hp & E) (p' & Hp' & E'). apply (units_bits_inj 5); [lia|done|done|].
  assert (p = p') as ->; [|by rewrite E, E'].
  apply (f_equal length) in E, E'. rewrite length_app, length_units_bits, length_replicate in E, E'. lia.
Qed.
Lemma carries_length ws b : carries ws b → (5 * length ws = 8 * length b + (5 * length ws) mod 8)%nat.
Proof.
  intros (p & Hp & E). apply (f_equal length) in E. unfold byte_bits in E. rewrite length_app, !length_units_bits, length_fmap, length_replicate in E.
  rewrite E at 2. replace (8 * length b + p)%nat with (p + length b * 8)%nat by lia. rewrite Nat.Div0.mod_add, Nat.mod_small by lia. lia.
Qed.

(** ** The checksum is linear *)

Lemma lxor_below w x y : below w x → below w y → below w (Z.lxor x y).
Proof.
  intros Hx Hy. apply below_testbit; [apply Z.lxor_nonneg; unfold below in *; lia|].
  intros i Hi. by rewrite Z.lxor_spec, !(testbit_below w) by done.
Qed.
Lemma land_lxor_l a b m : Z.land (Z.lxor a b) m = Z.lxor (Z.land a m) (Z.land b m).
Proof. apply Z.bits_inj'. intros i Hi. rewrite !Z.land_spec, !Z.lxor_spec, !Z.land_spec. by destruct (Z.testbit a i), (Z.testbit b i), (Z.testbit m i). Qed.
Lemma u32_shl_lxor a b n : 0 ≤ n → u32_shl (Z.lxor a b) n = Z.lxor (u32_shl a n) (u32_shl b n).
Proof.
  intros Hn. unfold u32_shl. rewrite Z.shiftl_lxor, <- !Z.land_ones by lia. apply land_lxor_l.
Qed.
Lemma mix_bit (top bit : Z) : 0 ≤ bit → Z.land (Z.shiftr top bit) 1 = 1 ↔ Z.testbit top bit = true.
Proof.
  intros Hb. rewrite (Z.land_ones _ 1), Z.testbit_odd by lia. change (2 ^ 1) with 2. rewrite Zmod_odd. by destruct (Z.odd _).
Qed.
Lemma mix_linear gs : ∀ bit a b r s, 0 ≤ bit →
  mix_generators (Z.lxor a b) bit gs (Z.lxor r s) = Z.lxor (mix_generators a bit gs r) (mix_generators b bit gs s).
Proof.
  induction gs as [|g gs IH]; intros bit a b r s Hb; [done|]. cbn [mix_generators]. rewrite <- IH by lia. f_equal.
  assert (Hd : ∀ t x y : Z, (if decide (Z.land (Z.shiftr t bit) 1 = 1) then x else y) = if Z.testbit t bit then x else y).
  { intros t x y. pose proof (mix_bit t bit Hb). destruct (decide _), (Z.testbit t bit); naive_solver. }
  rewrite !Hd, Z.lxor_spec. destruct (Z.testbit a bit), (Z.testbit b bit); cbn.
  - by rewrite !(Z.lxor_comm _ g), Z.lxor_assoc, <- (Z.lxor_assoc r g), (Z.lxor_comm r g), !Z.lxor_assoc, <- (Z.lxor_assoc g g), Z.lxor_nilpotent, Z.lxor_0_l.
  - by rewrite !Z.lxor_assoc, (Z.lxor_comm s g).
  - by rewrite Z.lxor_assoc.
  - done.
Qed.
Lemma step_linear r d w e : polymod_step (Z.lxor r d) (Z.lxor w e) = Z.lxor (polymod_step r w) (polymod_step d e).
Proof.
  unfold polymod_step. rewrite Z.shiftr_lxor, land_lxor_l, u32_shl_lxor by lia. rewrite <- mix_linear by lia. f_equal.
  rewrite !Z.lxor_assoc. f_equal. rewrite <- !Z.lxor_assoc. f_equal. apply Z.lxor_comm.
Qed.
Lemma fold_linear ws : ∀ es r d, length ws = length es →
  foldl polymod_step (Z.lxor r d) (zip_with Z.lxor ws es) = Z.lxor (foldl polymod_step r ws) (foldl polymod_step d es).
Proof.
  induction ws as [|w ws IH]; intros [|e es] r d Hl; try done. cbn [zip_with foldl]. rewrite step_linear. apply IH. by injection Hl.
Qed.

(** The residue stays in thirty bits. *)
Lemma mix_below gs : Forall (below 30) gs → ∀ top bit r, below 30 r → below 30 (mix_generators top bit gs r).
Proof. induction 1 as [|g gs Hg _ IH]; intros top bit r Hr; [done|]. cbn. apply IH. destruct (decide _); [by apply lxor_below|done]. Qed.
Lemma generators_below : Forall (below 30) GENERATORS.
Proof. apply (bool_decide_unpack _). vm_compute. exact I. Qed.
Lemma below_mono m n x : (m ≤ n)%nat → below m x → below n x.
Proof. intros Hmn [H0 H1]. split; [done|]. eapply Z.lt_le_trans; [exact H1|]. apply Z.pow_le_mono_r; lia. Qed.
Lemma shifted_below r : below 30 (u32_shl (Z.land r 0x1ffffff) 5).
Proof.
  change 0x1ffffff with (Z.ones 25). rewrite Z.land_ones by lia. pose proof (Z.mod_pos_bound r (2 ^ 25) ltac:(lia)). unfold u32_shl, below.
  rewrite Z.shiftl_mul_pow2, Z.mod_small by lia. lia.
Qed.
Lemma step_below r w : word_ok w → below 30 (polymod_step r w).
Proof. intros Hw. apply mix_below; [apply generators_below|]. apply lxor_below; [apply shifted_below|]. by eapply below_mono, Hw; lia. Qed.
Lemma fold_below ws r : below 30 r → Forall word_ok ws → below 30 (foldl polymod_step r ws).
Proof. revert r. induction ws as [|w ws IH]; intros r Hr Hws; [done|]. apply Forall_cons in Hws as [Hw Hws]. cbn. apply IH; [by apply step_below|done]. Qed.
Lemma mix_zero gs : ∀ bit r, mix_generators 0 bit gs r = r.
Proof. induction gs as [|g gs IH]; intros bit r; [done|]. cbn. by rewrite Z.shiftr_0_l, decide_False, IH. Qed.
Lemma step_small v w : below 25 v → word_ok w → polymod_step v w = v * 32 + w.
Proof.
  intros Hv Hw. unfold polymod_step. replace (Z.shiftr v 25) with 0 by (rewrite Z.shiftr_div_pow2 by lia; symmetry; apply Z.div_small; exact Hv).
  rewrite mix_zero. change 0x1ffffff with (Z.ones 25). rewrite Z.land_ones, (Z.mod_small v) by (lia || exact Hv).
  assert (Hs : u32_shl v 5 = v * 2 ^ 5).
  { unfold u32_shl. rewrite Z.shiftl_mul_pow2 by lia. apply Z.mod_small. unfold below in Hv. cbn in *. lia. }
  rewrite Hs, <- Z.add_nocarry_lxor; [change (2 ^ 5) with 32; lia|]. apply Z.bits_inj'. intros i Hi. rewrite Z.land_spec, Z.testbit_0_l. destruct (decide (i < 5)).
  - by rewrite Z.mul_pow2_bits_low by lia.
  - rewrite (testbit_below 5 w) by (done || lia). apply andb_false_r.
Qed.
Lemma step_split d : polymod_step d 0 = Z.lxor (u32_shl (Z.land d 0x1ffffff) 5) (mix_generators (Z.shiftr d 25) 0 GENERATORS 0).
Proof.
  unfold polymod_step. rewrite Z.lxor_0_r. rewrite <- (Z.lxor_0_l (Z.shiftr d 25)) at 1. rewrite <- (Z.lxor_0_r (u32_shl _ _)) at 1.
  rewrite mix_linear by lia. by rewrite mix_zero.
Qed.
(** The generators are independent in their low word, so a zero word in loses nothing. *)
Lemma generators_independent t : below 5 t → Z.land (mix_generators t 0 GENERATORS 0) 31 = 0 → t = 0.
Proof.
  intros Ht E. assert (Hall : forallb (λ n, bool_decide (Z.of_nat n = 0) || negb (bool_decide (Z.land (mix_generators (Z.of_nat n) 0 GENERATORS 0) 31 = 0))) (seq 0 32) = true)
    by (vm_compute; reflexivity).
  rewrite forallb_forall in Hall. specialize (Hall (Z.to_nat t)). rewrite Z2Nat.id in Hall by (destruct Ht; lia). rewrite E in Hall.
  rewrite (bool_decide_eq_true_2 (0 = 0)) in Hall by done. cbn [negb] in Hall. rewrite orb_false_r, bool_decide_eq_true in Hall. apply Hall.
  apply in_seq. unfold below in Ht. cbn in *. lia.
Qed.
Lemma step_nonzero d : below 30 d → d ≠ 0 → polymod_step d 0 ≠ 0.
Proof.
  intros Hd Hn Hz. assert (Ht : Z.shiftr d 25 = 0).
  { apply generators_independent.
    - unfold below in *. rewrite Z.shiftr_div_pow2 by lia. split; [apply Z.div_pos; lia|]. apply Z.div_lt_upper_bound; [lia|]. cbn in *. lia.
    - rewrite step_split in Hz. apply Z.lxor_eq in Hz. rewrite <- Hz. unfold u32_shl. change 31 with (Z.ones 5).
      apply Z.bits_inj'. intros i Hi. rewrite Z.land_spec, Z.testbit_0_l. destruct (decide (i < 5)).
      + by rewrite Z.mod_pow2_bits_low, Z.shiftl_spec_low by lia.
      + rewrite Z.ones_spec_high by lia. apply andb_false_r. }
  assert (Hs : below 25 d).
  { unfold below in *. rewrite Z.shiftr_div_pow2 in Ht by lia. cbn in *. apply Z.div_small_iff in Ht; lia. }
  rewrite (step_small d 0 Hs) in Hz by (unfold word_ok, below; cbn; lia). lia.
Qed.
Lemma zeros_ok n : Forall word_ok (replicate n 0).
Proof. apply Forall_replicate. unfold word_ok, below. cbn. lia. Qed.
Lemma zeros_nonzero n d : below 30 d → d ≠ 0 → foldl polymod_step d (replicate n 0) ≠ 0.
Proof.
  revert d. induction n as [|n IH]; intros d Hd Hn; [done|]. cbn. apply IH; [apply step_below; unfold word_ok, below; cbn; lia|by apply step_nonzero].
Qed.

(** ** Checksums close, and only one does *)

Lemma zip_zeros n es : length es = n → zip_with Z.lxor (replicate n 0) es = es.
Proof. revert n. induction es as [|e es IH]; intros n <-; [done|]. cbn. by rewrite IH. Qed.
Lemma zip_same ws : zip_with Z.lxor ws ws = replicate (length ws) 0.
Proof. induction ws as [|w ws IH]; [done|]. cbn. by rewrite Z.lxor_nilpotent, IH. Qed.
(** Words enter a residue as they enter zero; equal words leave the difference of two residues to zero words. *)
Lemma fold_enters r cs : foldl polymod_step r cs = Z.lxor (foldl polymod_step r (replicate (length cs) 0)) (foldl polymod_step 0 cs).
Proof. rewrite <- fold_linear by apply length_replicate. by rewrite Z.lxor_0_r, zip_zeros. Qed.
Lemma fold_same a b ws : Z.lxor (foldl polymod_step a ws) (foldl polymod_step b ws) = foldl polymod_step (Z.lxor a b) (replicate (length ws) 0).
Proof. rewrite <- fold_linear by done. by rewrite zip_same. Qed.
Lemma step_differs s w w' : word_ok w → word_ok w' → Z.lxor (polymod_step s w) (polymod_step s w') = Z.lxor w w'.
Proof.
  intros Hw Hw'. rewrite <- step_linear, Z.lxor_nilpotent. rewrite step_small; [lia|unfold below; cbn; lia|by apply lxor_below].
Qed.
Lemma fold_six c0 c1 c2 c3 c4 c5 : Forall word_ok [c0; c1; c2; c3; c4; c5] →
  foldl polymod_step 0 [c0; c1; c2; c3; c4; c5] = ((((c0 * 32 + c1) * 32 + c2) * 32 + c3) * 32 + c4) * 32 + c5.
Proof.
  intros Hc. rewrite !Forall_cons in Hc. destruct Hc as (H0 & H1 & H2 & H3 & H4 & H5 & _). cbn [foldl].
  assert (Hb : ∀ v w n : Z, 0 ≤ v < n → word_ok w → 0 ≤ v * 32 + w < 32 * n) by (intros v w n Hv [Hw1 Hw2]; cbn in Hw2; lia).
  assert (Hs : ∀ v w, 0 ≤ v < 2 ^ 25 → word_ok w → polymod_step v w = v * 32 + w) by (intros; by apply step_small).
  assert (E0 : 0 ≤ c0 < 32) by exact H0. rewrite (Hs 0 c0) by (lia || done). change (0 * 32 + c0) with c0.
  pose proof (Hb _ _ _ E0 H1) as E1. pose proof (Hb _ _ _ E1 H2) as E2. pose proof (Hb _ _ _ E2 H3) as E3. pose proof (Hb _ _ _ E3 H4) as E4.
  rewrite (Hs c0 c1), (Hs (c0 * 32 + c1) c2), (Hs _ c3), (Hs _ c4), (Hs _ c5) by (done || lia). done.
Qed.
Lemma word_at_ok r n : word_ok (Z.land (Z.shiftr r n) 31).
Proof. apply (masked_below 5). Qed.
Lemma checksum_words_ok x : Forall word_ok (checksum_words x) ∧ length (checksum_words x) = 6%nat.
Proof. split; [|done]. apply Forall_fmap, Forall_true. intros i. apply word_at_ok. Qed.
Lemma checksum_words_fold x : below 30 x → foldl polymod_step 0 (checksum_words x) = x.
Proof.
  intros Hx. pose proof (proj1 (checksum_words_ok x)) as Hok. unfold checksum_words in *. cbn [fmap list_fmap] in *. rewrite fold_six by exact Hok.
  change 31 with (Z.ones 5). rewrite !Z.land_ones, !Z.shiftr_div_pow2 by lia. unfold below in Hx. cbn in Hx |- *. Z.to_euclidean_division_equations. lia.
Qed.
Lemma fold_six_inj cs cs' : length cs = 6%nat → length cs' = 6%nat → Forall word_ok cs → Forall word_ok cs' →
  foldl polymod_step 0 cs = foldl polymod_step 0 cs' → cs = cs'.
Proof.
  intros Hl Hl' Hc Hc'. destruct cs as [|c0 [|c1 [|c2 [|c3 [|c4 [|c5 [|]]]]]]]; try done. destruct cs' as [|d0 [|d1 [|d2 [|d3 [|d4 [|d5 [|]]]]]]]; try done.
  rewrite !fold_six by done. rewrite !Forall_cons in Hc, Hc'. unfold word_ok, below in *. cbn in Hc, Hc'. intros E.
  repeat (f_equal; try lia).
Qed.

Definition prefix_ok (p : list char) : Prop := Forall (below 7) p.
Lemma prefix_words_ok p : prefix_ok p → Forall word_ok (prefix_words p).
Proof.
  intros Hp. unfold prefix_words. apply Forall_app. split; [|apply Forall_app; split].
  - apply Forall_fmap. eapply Forall_impl; [exact Hp|]. intros c [H0 H1]. unfold word_ok, below. cbn in *. rewrite Z.shiftr_div_pow2 by lia.
    split; [apply Z.div_pos; lia|]. apply Z.div_lt_upper_bound; lia.
  - apply (zeros_ok 1).
  - apply Forall_fmap, Forall_true. intros c. apply (masked_below 5).
Qed.
Lemma residue_below p ws : prefix_ok p → Forall word_ok ws → below 30 (polymod (prefix_words p ++ ws)).
Proof. intros Hp Hw. apply fold_below; [unfold below; cbn; lia|]. apply Forall_app. split; [by apply prefix_words_ok|done]. Qed.
Lemma const_below : below 30 BECH32M_CONST.
Proof. unfold below. cbn. done. Qed.
Lemma checksum_spec p ws cs : prefix_ok p → Forall word_ok ws → Forall word_ok cs → length cs = 6%nat →
  polymod (prefix_words p ++ ws ++ cs) = BECH32M_CONST ↔ cs = checksum p ws.
Proof.
  intros Hp Hw Hc Hl. unfold checksum. set (R := polymod (prefix_words p ++ ws ++ replicate 6 0)).
  assert (Hsplit : polymod (prefix_words p ++ ws ++ cs) = Z.lxor R (foldl polymod_step 0 cs)).
  { unfold R, polymod. rewrite !foldl_app. rewrite (fold_enters _ cs), Hl. done. }
  assert (HR : below 30 R) by (apply residue_below; [done|]; apply Forall_app; split; [done|apply zeros_ok]).
  assert (Hx : below 30 (Z.lxor R BECH32M_CONST)) by (apply lxor_below; [done|apply const_below]).
  destruct (checksum_words_ok (Z.lxor R BECH32M_CONST)) as [Hk Hlk]. rewrite Hsplit. split.
  - intros E. apply fold_six_inj; [done..|]. rewrite checksum_words_fold by done.
    rewrite <- E, <- Z.lxor_assoc, Z.lxor_nilpotent, Z.lxor_0_l. done.
  - intros ->. rewrite checksum_words_fold by done. by rewrite <- Z.lxor_assoc, Z.lxor_nilpotent, Z.lxor_0_l.
Qed.
Lemma checksum_ok p ws : Forall word_ok (checksum p ws) ∧ length (checksum p ws) = 6%nat.
Proof. apply checksum_words_ok. Qed.

(** ** A replaced character changes the residue *)

Lemma lxor_nonzero a b : a ≠ b → Z.lxor a b ≠ 0.
Proof. intros Hn E. by apply Hn, Z.lxor_eq. Qed.
Lemma residues_differ a b : Z.lxor a b ≠ 0 → a ≠ b.
Proof. intros Hn ->. by rewrite Z.lxor_nilpotent in Hn. Qed.
Lemma data_replaced p l w w' r : word_ok w → word_ok w' → w ≠ w' → polymod (p ++ l ++ w :: r) ≠ polymod (p ++ l ++ w' :: r).
Proof.
  intros Hw Hw' Hn. apply residues_differ. unfold polymod. rewrite !foldl_app. cbn [foldl]. rewrite fold_same, step_differs by done.
  apply zeros_nonzero; [|by apply lxor_nonzero]. by eapply below_mono, (lxor_below 5); [lia|..].
Qed.
Lemma step_word d e : word_ok e → polymod_step d e = Z.lxor (polymod_step d 0) e.
Proof.
  intros He. rewrite <- (Z.lxor_0_r d) at 1. rewrite <- (Z.lxor_0_l e) at 1. rewrite step_linear, (step_small 0 e) by (done || (unfold below; cbn; lia)). done.
Qed.
(** Within the length of a string, what the high bits of one character differ by never shrinks to one word. *)
Lemma high_bits_persist eh n : 1 ≤ eh ≤ 3 → (n ≤ MAX_ENCODED_LEN)%nat → 32 ≤ foldl polymod_step eh (replicate (S n) 0).
Proof.
  intros He Hn. assert (Hall : forallb (λ n, forallb (λ e, 32 <=? foldl polymod_step e (replicate (S n) 0)) [1; 2; 3]) (seq 0 91) = true) by (vm_compute; reflexivity).
  rewrite forallb_forall in Hall. specialize (Hall n ltac:(apply in_seq; unfold MAX_ENCODED_LEN in Hn; lia)). rewrite forallb_forall in Hall.
  apply Z.leb_le, Hall. assert (eh = 1 ∨ eh = 2 ∨ eh = 3) as [->|[->| ->]] by lia; cbn; tauto.
Qed.
Lemma hi_lo c c' : below 7 c → below 7 c' → Z.shiftr c 5 = Z.shiftr c' 5 → Z.land c 31 = Z.land c' 31 → c = c'.
Proof.
  intros Hc Hc'. change 31 with (Z.ones 5). rewrite !Z.land_ones, !Z.shiftr_div_pow2 by lia. unfold below in *. cbn in *. intros E1 E2.
  Z.to_euclidean_division_equations. lia.
Qed.
Lemma hi_ok c : below 7 c → below 2 (Z.shiftr c 5).
Proof. intros [H0 H1]. unfold below. cbn in *. rewrite Z.shiftr_div_pow2 by lia. split; [apply Z.div_pos; lia|]. apply Z.div_lt_upper_bound; lia. Qed.
Lemma two_replaced s h h' m lo lo' t : word_ok h → word_ok h' → word_ok lo → word_ok lo' →
  Z.lxor (foldl polymod_step s (h :: m ++ lo :: t)) (foldl polymod_step s (h' :: m ++ lo' :: t)) =
  foldl polymod_step (Z.lxor (foldl polymod_step (Z.lxor h h') (replicate (S (length m)) 0)) (Z.lxor lo lo')) (replicate (length t) 0).
Proof.
  intros Hh Hh' Hl Hl'. cbn [foldl]. rewrite !foldl_app. cbn [foldl]. rewrite fold_same. f_equal.
  rewrite <- step_linear, fold_same, step_differs, step_word by (done || by apply lxor_below). by rewrite replicate_S_end, foldl_app.
Qed.
Lemma prefix_replaced l c c' r ws : below 7 c → below 7 c' → c ≠ c' → (length (l ++ c :: r) ≤ MAX_ENCODED_LEN)%nat →
  polymod (prefix_words (l ++ c :: r) ++ ws) ≠ polymod (prefix_words (l ++ c' :: r) ++ ws).
Proof.
  intros Hc Hc' Hn Hlen. apply residues_differ. set (hi := λ b, Z.shiftr b 5). set (lo := λ b, Z.land b 31).
  assert (Hform : ∀ x, prefix_words (l ++ x :: r) ++ ws = (hi <$> l) ++ hi x :: ((hi <$> r) ++ 0 :: (lo <$> l)) ++ lo x :: ((lo <$> r) ++ ws)).
  { intros x. unfold prefix_words. rewrite !fmap_app, !fmap_cons. cbn [app]. rewrite <- !app_assoc. cbn [app]. by rewrite <- !app_assoc. }
  rewrite !Hform. unfold polymod. rewrite !(foldl_app _ (hi <$> l)).
  assert (Hh : ∀ x, below 7 x → word_ok (hi x)) by (intros x Hx; eapply below_mono, hi_ok, Hx; lia).
  assert (Hl : ∀ x, word_ok (lo x)) by (intros x; apply (masked_below 5)).
  rewrite two_replaced by auto. set (d := foldl polymod_step (Z.lxor (hi c) (hi c')) _).
  assert (Heh : below 2 (Z.lxor (hi c) (hi c'))) by (apply lxor_below; by apply hi_ok).
  assert (Hel : word_ok (Z.lxor (lo c) (lo c'))) by (apply lxor_below; apply Hl).
  assert (Hd : below 30 d) by (apply fold_below; [by eapply below_mono, Heh; lia|apply zeros_ok]).
  apply zeros_nonzero; [apply lxor_below; [done|]; by eapply below_mono, Hel; lia|]. apply lxor_nonzero.
  destruct (decide (Z.lxor (hi c) (hi c') = 0)) as [E|E].
  - assert (d = 0) as ->.
    { unfold d. rewrite E. clear. induction (S _) as [|n IH]; [done|]. cbn [replicate foldl]. rewrite step_small by (unfold word_ok, below; cbn; lia). exact IH. }
    apply not_eq_sym, lxor_nonzero. intros El. apply Hn, hi_lo; [done|done|by apply Z.lxor_eq|done].
  - assert (32 ≤ d).
    { unfold d. apply high_bits_persist; [unfold below in Heh; cbn in Heh; lia|]. rewrite length_app in *. cbn in *. rewrite !length_fmap. lia. }
    unfold word_ok, below in Hel. cbn in Hel. lia.
Qed.

(** ** Characters of the encoding *)

Definition charset_char (c : char) : bool := is_graphic c && negb (is_upper c) && bool_decide (c ≠ SEPARATOR).
Lemma charset_chars : forallb charset_char CHARSET = true ∧ length CHARSET = 32%nat ∧ NoDup CHARSET.
Proof. split; [vm_compute; reflexivity|]. split; [vm_compute; reflexivity|]. apply (bool_decide_unpack _). vm_compute. exact I. Qed.
Lemma charset_lookup w : word_ok w → CHARSET !! Z.to_nat w = Some (charset_at w).
Proof.
  intros Hw. unfold charset_at. destruct (CHARSET !! Z.to_nat w) as [c|] eqn:E; [done|]. apply lookup_ge_None in E.
  destruct charset_chars as (_ & Hl & _). rewrite Hl in E. unfold word_ok, below in Hw. cbn in Hw. lia.
Qed.
Lemma charset_value_spec c w : charset_value c = Some w ↔ word_ok w ∧ charset_at w = c.
Proof.
  destruct charset_chars as (_ & Hl & Hnd). unfold charset_value. split.
  - destruct (list_find _ CHARSET) as [[i x]|] eqn:E; [|done]. cbn. intros [= <-]. apply list_find_Some in E as (Hi & -> & _).
    pose proof (lookup_lt_Some _ _ _ Hi) as Hlt. rewrite Hl in Hlt. split; [unfold word_ok, below; cbn; lia|]. unfold charset_at. by rewrite Nat2Z.id, Hi.
  - intros [Hw Hc]. pose proof (charset_lookup w Hw) as E. rewrite Hc in E. destruct (list_find _ CHARSET) as [[i x]|] eqn:Ef.
    + apply list_find_Some in Ef as (Hi & -> & _). cbn. f_equal. pose proof (NoDup_lookup _ _ _ _ Hnd Hi E). unfold word_ok, below in Hw. lia.
    + exfalso. apply (proj1 (list_find_None _ _)) in Ef. rewrite Forall_forall in Ef. by apply (Ef c); [eapply list_elem_of_lookup_2|].
Qed.
Lemma charset_at_char w : word_ok w → charset_char (charset_at w) = true.
Proof.
  intros Hw. destruct charset_chars as (Hall & _). rewrite forallb_forall in Hall. apply Hall, list_elem_of_In.
  eapply list_elem_of_lookup_2. by apply charset_lookup.
Qed.
Lemma charset_at_inj w w' : word_ok w → word_ok w' → charset_at w = charset_at w' → w = w'.
Proof.
  intros Hw Hw' E. pose proof (proj2 (charset_value_spec (charset_at w) w) (conj Hw eq_refl)) as H1.
  pose proof (proj2 (charset_value_spec (charset_at w) w') (conj Hw' (eq_sym E))) as H2. rewrite H1 in H2. by injection H2.
Qed.
Lemma charset_words_inj ws ws' : Forall word_ok ws → Forall word_ok ws' → charset_at <$> ws = charset_at <$> ws' → ws = ws'.
Proof.
  intros Hw. revert ws'. induction Hw as [|w ws Hw _ IH]; intros [|w' ws'] Hw' E; try done. apply Forall_cons in Hw' as [Hw' Hws'].
  cbn in E. injection E as E1 E2. f_equal; [by apply charset_at_inj|by apply IH].
Qed.
Lemma data_words_spec d ws : data_words d = Ok ws ↔ Forall word_ok ws ∧ d = charset_at <$> ws.
Proof.
  revert ws. induction d as [|c d IH]; intros ws; cbn [data_words].
  { split; [by intros [= <-]|]. intros [_ E]. by destruct ws. }
  split.
  - destruct (charset_value c) as [v|] eqn:Ev; [|done]. cbn. destruct (data_words d) as [vs|]; [|done]. cbn. intros [= <-].
    apply charset_value_spec in Ev as [Hv <-]. destruct (proj1 (IH vs) eq_refl) as [Hvs ->]. by split; [constructor|].
  - intros [Hws E]. destruct ws as [|w ws]; [done|]. apply Forall_cons in Hws as [Hw Hws]. cbn in E. injection E as -> ->.
    rewrite (proj2 (charset_value_spec _ w) (conj Hw eq_refl)). cbn. rewrite (proj2 (IH ws) (conj Hws eq_refl)). done.
Qed.

Lemma rsplit_once_none c t : rsplit_once c t = None ↔ c ∉ t.
Proof.
  induction t as [|x t IH]; cbn; [set_solver|]. rewrite not_elem_of_cons, <- IH. destruct (rsplit_once c t) as [[]|]; [naive_solver|].
  destruct (decide (x = c)); naive_solver.
Qed.
Lemma rsplit_once_some c t l r : rsplit_once c t = Some (l, r) → t = l ++ c :: r ∧ c ∉ r.
Proof.
  revert l. induction t as [|x t IH]; intros l; [done|]. cbn. pose proof (rsplit_once_none c t) as Hn. destruct (rsplit_once c t) as [[l0 r0]|].
  - intros [= <- <-]. by destruct (IH l0 eq_refl) as [-> ?].
  - destruct (decide _) as [->|]; [|done]. intros [= <- <-]. split; [done|]. by apply Hn.
Qed.
Lemma rsplit_once_app c l r : c ∉ r → rsplit_once c (l ++ c :: r) = Some (l, r).
Proof.
  intros Hr. induction l as [|x l IH]; cbn; [|by rewrite IH]. by rewrite (proj2 (rsplit_once_none c r) Hr), decide_True.
Qed.
Lemma split_once_some c t l r : split_once c t = Some (l, r) → t = l ++ c :: r.
Proof.
  revert l. induction t as [|x t IH]; intros l; [done|]. cbn. destruct (decide _) as [->|]; [by intros [= <- <-]|].
  destruct (split_once c t) as [[l0 r0]|]; [|done]. cbn. intros [= <- <-]. by rewrite (IH l0 eq_refl).
Qed.
Lemma split_once_app c l r : c ∉ l → split_once c (l ++ c :: r) = Some (l, r).
Proof.
  induction l as [|x l IH]; cbn; intros Hl; [by rewrite decide_True|]. apply not_elem_of_cons in Hl as [Hx Hl].
  rewrite decide_False by done. by rewrite (IH Hl).
Qed.
Lemma class_words c : UNDERSCORE ∉ class_word c ∧ from_word (class_word c) = Some c ∧ (∃ x y l, class_word c = x :: y :: l) ∧ Forall (λ x, is_lower x = true) (class_word c).
Proof.
  destruct c; (split; [apply (bool_decide_unpack _); vm_compute; exact I|]); (split; [vm_compute; reflexivity|]);
    (split; [do 3 eexists; vm_compute; reflexivity|]); apply (bool_decide_unpack _); vm_compute; exact I.
Qed.
Lemma from_word_some w c : from_word w = Some c → w = class_word c.
Proof. unfold from_word. intros [_ E]%find_some. by apply bool_decide_eq_true in E. Qed.

(** ** What a string must be to read *)

Definition readable (t : list char) : Prop :=
  (length t ≤ MAX_ENCODED_LEN)%nat ∧ Forall (λ c, is_graphic c = true) t ∧ existsb is_upper t && existsb is_lower t = false.
Definition spelled (p : list char) (ws : list Z) : list char := p ++ SEPARATOR :: (charset_at <$> ws ++ checksum p ws).
Lemma graphic_below c : is_graphic c = true → below 7 c.
Proof. unfold is_graphic. rewrite bool_decide_eq_true. unfold below. cbn. lia. Qed.
Lemma lower_below c : is_graphic c = true → below 7 (to_lower c).
Proof. unfold is_graphic, to_lower, is_upper. rewrite bool_decide_eq_true. unfold below. cbn. case_bool_decide; lia. Qed.
Lemma str_len_graphic t : Forall (λ c, is_graphic c = true) t → str_len t = length t.
Proof.
  induction 1 as [|c t Hc _ IH]; [done|]. unfold str_len in *. cbn. rewrite IH. unfold len_utf8. rewrite decide_True; [done|].
  apply graphic_below in Hc. unfold below in Hc. cbn in Hc. lia.
Qed.
Lemma length_str_len t : (length t ≤ str_len t)%nat.
Proof. induction t as [|c t IH]; [done|]. unfold str_len in *. cbn. unfold len_utf8 at 1. repeat case_decide; lia. Qed.
Lemma find_graphic t : List.find (λ c, negb (is_graphic c)) t = None ↔ Forall (λ c, is_graphic c = true) t.
Proof.
  rewrite Forall_forall. split.
  - intros E c Hc. pose proof (find_none _ _ E c (proj1 (list_elem_of_In _ _) Hc)) as Hg. by apply negb_false_iff in Hg.
  - intros Hall. destruct (List.find _ t) as [c|] eqn:E; [|done]. apply find_some in E as [Hc%list_elem_of_In Hg]. by rewrite (Hall c Hc) in Hg.
Qed.
Lemma decode_spec t p ws : decode_text t = Ok (p, ws) ↔
  readable t ∧ p ≠ [] ∧ Forall word_ok ws ∧ to_lower <$> t = spelled p ws.
Proof.
  unfold decode_text, readable, spelled. pose proof (length_str_len t) as Hlen. split.
  - destruct (decide _) as [|Hl]; [done|]. destruct (List.find _ t) as [c|] eqn:Ef; [done|]. apply find_graphic in Ef.
    destruct (existsb is_upper t && existsb is_lower t); [done|].
    destruct (rsplit_once _ _) as [[p0 data]|] eqn:Er; [|done]. cbn [ok_or mbind result_bind]. apply rsplit_once_some in Er as [Et Hsep].
    destruct (decide _) as [|Hp]; [done|]. destruct (decide _) as [|Hd]; [done|]. destruct (data_words data) as [words|] eqn:Ed; [|done]. cbn [mbind result_bind].
    destruct (decide _) as [|Hc]; [done|]. intros [= <- <-]. apply data_words_spec in Ed as [Hok ->]. rewrite length_fmap in Hd.
    assert (Hpok : prefix_ok p0).
    { assert (Hlow : Forall (below 7) (to_lower <$> t)) by (apply Forall_fmap; eapply Forall_impl; [exact Ef|]; intros; by apply lower_below).
      rewrite Et in Hlow. by apply Forall_app in Hlow as [Hlow _]. }
    rewrite <- (take_drop (length words - 6) words) in Hok, Hc, Et. apply Forall_app in Hok as [Hok1 Hok2].
    assert (Hcs : drop (length words - 6) words = checksum p0 (take (length words - 6) words)).
    { apply checksum_spec; [done..|rewrite length_drop; lia|]. by destruct (decide (polymod (prefix_words p0 ++ take (length words - 6) words ++ drop (length words - 6) words) = BECH32M_CONST)). }
    split; [split; [lia|done]|]. split; [done|]. split; [done|]. by rewrite Et, Hcs.
  - intros ((Hl & Hg & Hm) & Hp & Hws & Et). rewrite str_len_graphic in * by done. rewrite decide_False by lia.
    rewrite (proj2 (find_graphic t) Hg), Hm, Et. destruct (checksum_ok p ws) as [Hco Hcl].
    assert (Hall : Forall word_ok (ws ++ checksum p ws)) by (by apply Forall_app).
    rewrite rsplit_once_app.
    2:{ intros (w & E & Hw)%list_elem_of_fmap. rewrite Forall_forall in Hall. pose proof (charset_at_char w (Hall w Hw)) as Hc.
        unfold charset_char in Hc. rewrite <- E in Hc. done. }
    cbn [ok_or mbind result_bind]. rewrite decide_False by done. rewrite decide_False by (rewrite length_fmap, length_app; lia).
    rewrite (proj2 (data_words_spec _ (ws ++ checksum p ws)) (conj Hall eq_refl)). cbn [mbind result_bind].
    assert (Hpok : prefix_ok p).
    { assert (Hlow : Forall (below 7) (to_lower <$> t)) by (apply Forall_fmap; eapply Forall_impl; [exact Hg|]; intros; by apply lower_below).
      rewrite Et in Hlow. by apply Forall_app in Hlow as [Hlow _]. }
    rewrite decide_False by (intros Hn; apply Hn; by apply checksum_spec).
    rewrite length_app, Hcl. replace (length ws + 6 - 6)%nat with (length ws) by lia. by rewrite take_app_length.
Qed.

(** The one string, up to case, an address has on a network. *)
Definition address_text (a : Address) (class : AddressClass) (network : list char) : list char :=
  spelled (class_word class ++ UNDERSCORE :: network) (to_words (address_to_bytes a)).
Lemma from_text_spec t a network : from_text t = Some (Ok (a, network)) ↔
  readable t ∧ address_ok a ∧ network ≠ [] ∧ UNDERSCORE ∉ network ∧
  ∃ class, address_class a = Some class ∧ to_lower <$> t = address_text a class network.
Proof.
  unfold from_text, address_text. split.
  - destruct (decode_text t) as [[p ws]|] eqn:Ed; [|done]. apply decode_spec in Ed as (Hr & Hp & Hws & Et).
    destruct (from_words ws) as [b|] eqn:Ew; [|done]. apply from_words_spec in Ew; [|done]. destruct (decide _) as [|Hl]; [done|].
    assert (length b = 32%nat) as Hlen by (by destruct (decide (length b = 32%nat))). clear Hl.
    unfold address_from_bytes. destruct (from_tag _) as [tag|] eqn:Etag; [|done].
    destruct (split_once _ p) as [[cl nt]|] eqn:Es; [|done]. apply split_once_some in Es. destruct (decide _) as [|Hn]; [done|].
    destruct (decide _) as [|Hu]; [done|]. destruct (from_word cl) as [worded|] eqn:Ef; [|done]. apply from_word_some in Ef. cbn [mbind option_bind].
    unfold address_class. rewrite Etag. cbn [mbind option_bind]. destruct (decide _) as [|Hc]; [done|]. intros [= <- <-].
    assert (worded = tag) as -> by (by destruct (decide (worded = tag))).
    assert (Hb : address_to_bytes (be_val b) = b) by (unfold address_to_bytes; rewrite <- Hlen; apply be_bytes_val).
    split; [done|]. split; [split; [|by exists tag]|].
    { pose proof (be_val_bound b) as Hbb. rewrite Hlen, pow256_32 in Hbb. exact Hbb. }
    split; [done|]. split; [done|]. exists tag. split; [exact Etag|]. rewrite Et, Es, Ef, Hb. f_equal. destruct (to_words_spec b) as [Hto Hcar].
    by eapply carries_words.
  - intros (Hr & Ha & Hn & Hu & class & Hc & Et). destruct (class_words class) as (Hcu & Hcw & _). destruct (to_words_spec (address_to_bytes a)) as [Hto Hcar].
    assert (Hd : decode_text t = Ok (class_word class ++ UNDERSCORE :: network, to_words (address_to_bytes a))).
    { apply decode_spec. split; [done|]. split; [by destruct (class_word class)|]. by split. }
    rewrite Hd, (proj2 (from_words_spec _ (address_to_bytes a) Hto) Hcar). rewrite decide_False by (unfold address_to_bytes; rewrite length_be_bytes; lia).
    unfold address_from_bytes. rewrite (address_bytes_val a Ha). unfold address_class in Hc. rewrite Hc, split_once_app by done.
    rewrite decide_False, decide_False, Hcw by done. unfold address_class. rewrite Hc. cbn. by rewrite decide_False by (by intros []).
Qed.
(** Reading always answers: no string panics. *)
Lemma from_text_answers t : from_text t ≠ None.
Proof.
  unfold from_text, address_from_bytes, address_class. destruct (decode_text t) as [[p ws]|]; [|done]. destruct (from_words ws) as [b|]; [|done].
  destruct (decide _); [done|]. destruct (from_tag _) as [tag|] eqn:Etag; [|done]. destruct (split_once _ p) as [[cl nt]|]; [|done].
  destruct (decide _); [done|]. destruct (decide _); [done|]. destruct (from_word cl); [|done]. by rewrite Etag.
Qed.

Definition network_ok (network : list char) : Prop := network ≠ [] ∧ Forall (λ c, is_lower c || is_digit c = true) network.
Lemma find_network network : List.find (λ c, negb (is_lower c) && negb (is_digit c)) network = None ↔ Forall (λ c, is_lower c || is_digit c = true) network.
Proof.
  rewrite Forall_forall. split.
  - intros E c Hc. pose proof (find_none _ _ E c (proj1 (list_elem_of_In _ _) Hc)) as Hg. cbn in Hg. by destruct (is_lower c), (is_digit c).
  - intros Hall. destruct (List.find _ network) as [c|] eqn:E; [|done]. apply find_some in E as [Hc%list_elem_of_In Hg]. specialize (Hall c Hc).
    by destruct (is_lower c), (is_digit c).
Qed.
Lemma length_spelled p ws : length (spelled p ws) = (length p + 1 + length ws + 6)%nat.
Proof. unfold spelled. rewrite length_app. cbn [length]. rewrite length_fmap, length_app, (proj2 (checksum_ok _ _)). lia. Qed.
Lemma to_text_spec a network t : address_ok a → to_text a network = Some (Ok t) ↔
  network_ok network ∧ (length t ≤ MAX_ENCODED_LEN)%nat ∧ ∃ class, address_class a = Some class ∧ t = address_text a class network.
Proof.
  intros Ha. unfold to_text, network_ok, address_text, encode_text. split.
  - destruct (decide _) as [|Hn]; [done|]. destruct (List.find _ network) as [c|] eqn:Ef; [done|]. apply find_network in Ef.
    destruct (address_class a) as [class|]; [|done]. cbn [mbind option_bind]. destruct (decide _) as [|Hl]; [done|]. intros [= E].
    change (spelled (class_word class ++ UNDERSCORE :: network) (to_words (address_to_bytes a)) = t) in E. subst t.
    split; [by split|]. split; [|by exists class]. rewrite length_spelled. cbn [app] in Hl. lia.
  - intros ([Hn Hall] & Hl & class & -> & ->). rewrite decide_False by done. rewrite (proj2 (find_network network) Hall). cbn [mbind option_bind].
    rewrite length_spelled in Hl. rewrite decide_False by (cbn [app]; lia). done.
Qed.

(** ** Round trips *)

Definition plain (c : char) : bool := is_graphic c && negb (is_upper c).
Lemma plain_readable t : (length t ≤ MAX_ENCODED_LEN)%nat → Forall (λ c, plain c = true) t → readable t ∧ to_lower <$> t = t.
Proof.
  intros Hl Ht. assert (Hup : existsb is_upper t = false).
  { apply Bool.not_true_iff_false. intros (c & Hc%list_elem_of_In & Hu)%existsb_exists. rewrite Forall_forall in Ht. specialize (Ht c Hc).
    unfold plain in Ht. rewrite Hu, andb_false_r in Ht. done. }
  split; [split; [done|]; split; [|by rewrite Hup]|].
  - eapply Forall_impl; [exact Ht|]. intros c Hc. by apply andb_true_iff in Hc as [Hc _].
  - clear Hl Hup. induction Ht as [|c t Hc _ IH]; [done|]. cbn. rewrite IH. f_equal. unfold to_lower. apply andb_true_iff in Hc as [_ Hc%negb_true_iff]. by rewrite Hc.
Qed.
Lemma lower_plain c : is_lower c || is_digit c = true → plain c = true ∧ c ≠ UNDERSCORE.
Proof.
  unfold is_lower, is_digit, plain, is_graphic, is_upper, UNDERSCORE. rewrite orb_true_iff, !bool_decide_eq_true. intros Hc.
  rewrite bool_decide_eq_true_2, bool_decide_eq_false_2 by lia. split; [done|lia].
Qed.
Lemma spelled_plain p ws : Forall word_ok ws → Forall (λ c, plain c = true) p → Forall (λ c, plain c = true) (spelled p ws).
Proof.
  intros Hws Hp. unfold spelled. apply Forall_app. split; [done|]. constructor; [done|]. apply Forall_fmap, Forall_forall. intros w Hw.
  assert (Hok : word_ok w).
  { apply elem_of_app in Hw as [Hw|Hw]; [exact (proj1 (Forall_forall _ _) Hws w Hw)|exact (proj1 (Forall_forall _ _) (proj1 (checksum_ok p ws)) w Hw)]. }
  pose proof (charset_at_char w Hok) as Hc. unfold charset_char in Hc. by apply andb_true_iff in Hc as [Hc _].
Qed.
Lemma address_text_plain a class network : network_ok network → Forall (λ c, plain c = true) (address_text a class network).
Proof.
  intros [_ Hn]. apply spelled_plain; [apply to_words_spec|]. apply Forall_app. split; [|constructor; [done|]].
  - eapply Forall_impl; [apply class_words|]. intros c Hc. apply lower_plain. by rewrite Hc.
  - eapply Forall_impl; [exact Hn|]. intros c Hc. by apply lower_plain.
Qed.

(** C14: An address and its text name each other. What is written for an address and a network reads back as that address
    on that network; a string that reads names an address, reads as nothing another string reads as except in the other
    case, and where its network word is one an address can be written for, writing the address back gives the string
    in lower case. No string panics. *)
Theorem text_roundtrip :
  (∀ a network t, address_ok a → to_text a network = Some (Ok t) → from_text t = Some (Ok (a, network))) ∧
  (∀ t a network, from_text t = Some (Ok (a, network)) → address_ok a ∧
    (∀ t', from_text t' = Some (Ok (a, network)) → to_lower <$> t' = to_lower <$> t) ∧
    (network_ok network → to_text a network = Some (Ok (to_lower <$> t)))) ∧
  (∀ t, from_text t ≠ None).
Proof.
  split; [|split; [|exact from_text_answers]].
  - intros a network t Ha (Hn & Hl & class & Hc & ->)%to_text_spec; [|done].
    destruct (plain_readable _ Hl (address_text_plain a class network Hn)) as [Hr Elow]. apply from_text_spec.
    split; [done|]. split; [done|]. destruct Hn as [Hne Hn]. split; [done|]. split; [|by exists class].
    intros Hu. rewrite Forall_forall in Hn. specialize (Hn _ Hu). by apply lower_plain in Hn as [_ []].
  - intros t a network (Hr & Ha & Hn & Hu & class & Hc & Et)%from_text_spec. split; [done|]. split.
    + intros t' (_ & _ & _ & _ & class' & Hc' & Et')%from_text_spec. rewrite Hc in Hc'. injection Hc' as <-. by rewrite Et, Et'.
    + intros Hok. apply to_text_spec; [done|]. split; [done|]. split; [rewrite length_fmap; apply Hr|]. by exists class.
Qed.

(** ** One replaced character *)

Lemma same_letter c c' : c ≠ c' → to_lower c = to_lower c' → is_upper c = true ∧ is_lower c' = true ∨ is_lower c = true ∧ is_upper c' = true.
Proof.
  intros Hn. unfold to_lower, is_upper, is_lower. destruct (bool_decide (65 ≤ c ≤ 90)) eqn:E1, (bool_decide (65 ≤ c' ≤ 90)) eqn:E2; intros E;
    rewrite ?bool_decide_eq_true, ?bool_decide_eq_false in *; lia.
Qed.
Lemma lower_letter x : is_lower (to_lower x) = true → is_upper x = true ∨ is_lower x = true.
Proof. unfold to_lower. destruct (is_upper x); [by left|by right]. Qed.
Lemma existsb_lookup {A} (f : A → bool) l i x : l !! i = Some x → f x = true → existsb f l = true.
Proof. intros E Hf. apply existsb_exists. exists x. split; [|done]. by eapply list_elem_of_In, list_elem_of_lookup_2. Qed.
Lemma case_caught t i c c' x y l : readable t → readable (<[i := c']> t) → t !! i = Some c → c ≠ c' →
  to_lower <$> t = x :: y :: l → is_lower x = true → is_lower y = true → to_lower c ≠ to_lower c'.
Proof.
  intros (_ & _ & H1) (_ & _ & H2) Hi Hn Et Hx Hy E. destruct (same_letter c c' Hn E) as [Hcase|Hcase].
  all: assert (Hj : ∃ j z, j ≠ i ∧ t !! j = Some z ∧ is_lower (to_lower z) = true) by
    (assert (E0 : (to_lower <$> t) !! 0%nat = Some x) by (by rewrite Et); assert (E1 : (to_lower <$> t) !! 1%nat = Some y) by (by rewrite Et);
     rewrite list_lookup_fmap in E0, E1; destruct (t !! 0%nat) as [z0|] eqn:Z0; [|done]; destruct (t !! 1%nat) as [z1|] eqn:Z1; [|done];
     injection E0 as <-; injection E1 as <-; destruct i; [by exists 1%nat, z1|by exists 0%nat, z0]).
  all: destruct Hj as (j & z & Hji & Hz & Hl); assert (Hz' : <[i := c']> t !! j = Some z) by (by rewrite list_lookup_insert_ne).
  all: assert (Hi' : <[i := c']> t !! i = Some c') by (apply list_lookup_insert_eq; by eapply lookup_lt_Some).
  all: destruct Hcase as [Hu Hlo], (lower_letter z Hl) as [Hzu|Hzl]; apply andb_false_iff in H1, H2; destruct H1 as [H1|H1], H2 as [H2|H2];
    repeat match goal with
    | H : existsb ?f ?l = false, E : ?l !! _ = Some ?x, F : ?f ?x = true |- _ => rewrite (existsb_lookup f l _ x E F) in H; discriminate H
    end.
Qed.

Lemma words_of_address a : length (to_words (address_to_bytes a)) = 52%nat.
Proof.
  destruct (to_words_spec (address_to_bytes a)) as [_ (pad & Hp & E)]. apply (f_equal length) in E. unfold byte_bits in E.
  rewrite length_app, !length_units_bits, length_fmap, length_replicate in E. unfold address_to_bytes in E at 2. rewrite length_be_bytes in E. lia.
Qed.
(** Two spelled strings with as many words differ in at least two places. *)
Lemma spelled_apart p p' ws ws' i c : Forall word_ok ws → Forall word_ok ws' → length ws = length ws' →
  prefix_ok p → prefix_ok p' → (length p ≤ MAX_ENCODED_LEN)%nat → (i < length (spelled p ws))%nat →
  spelled p' ws' = <[i := c]> (spelled p ws) → spelled p ws !! i = Some c.
Proof.
  intros Hw Hw' Hlen Hp Hp' Hpl Hi E. destruct (checksum_ok p ws) as [Hc Hcl]. destruct (checksum_ok p' ws') as [Hc' Hcl'].
  assert (Hpp : length p = length p').
  { apply (f_equal length) in E. rewrite length_insert, !length_spelled in E. lia. }
  pose proof (proj2 (checksum_spec p ws _ Hp Hw Hc Hcl) eq_refl) as K. pose proof (proj2 (checksum_spec p' ws' _ Hp' Hw' Hc' Hcl') eq_refl) as K'.
  assert (HW : Forall word_ok (ws ++ checksum p ws)) by (by apply Forall_app). assert (HW' : Forall word_ok (ws' ++ checksum p' ws')) by (by apply Forall_app).
  unfold spelled in *. set (W := ws ++ checksum p ws) in *. set (W' := ws' ++ checksum p' ws') in *.
  destruct (decide (i < length p)%nat) as [H1|H1].
  - rewrite insert_app_l in E by done. apply app_inj_1 in E as [Ep [= Ed]]; [|by rewrite length_insert]. apply charset_words_inj in Ed; [|done..]. rewrite Ed in K'.
    destruct (lookup_lt_is_Some_2 p i H1) as [x Hx]. rewrite lookup_app_l, Hx by done. destruct (decide (x = c)) as [->|Hn]; [done|]. exfalso.
    rewrite insert_take_drop in Ep by done. rewrite <- (take_drop_middle p i x Hx) in K, Hp, Hpl. rewrite Ep in K', Hp'.
    apply Forall_app in Hp as [_ [Hx7 _]%Forall_cons]. apply Forall_app in Hp' as [_ [Hc7 _]%Forall_cons].
    apply (prefix_replaced _ x c _ W Hx7 Hc7 Hn Hpl). by rewrite K, K'.
  - rewrite (insert_app_r_alt _ _ i) in E by lia. apply app_inj_1 in E as [Ep E]; [|done]. rewrite lookup_app_r by lia. subst p'.
    destruct (i - length p)%nat as [|k] eqn:Ek; [injection E as <- _; done|]. change (<[S k := c]> (SEPARATOR :: (charset_at <$> W))) with (SEPARATOR :: <[k := c]> (charset_at <$> W)) in E. injection E as E. change ((SEPARATOR :: (charset_at <$> W)) !! S k) with ((charset_at <$> W) !! k).
    assert (Hk : (k < length W)%nat) by (rewrite length_app in Hi; cbn [length] in Hi; rewrite length_fmap in Hi; lia).
    destruct (lookup_lt_is_Some_2 W k Hk) as [w Hwk]. rewrite list_lookup_fmap, Hwk. cbn. f_equal.
    assert (Hkc : W' !! k = Some (default 0 (W' !! k))).
    { destruct (lookup_lt_is_Some_2 W' k) as [w' ->]; [|done]. apply (f_equal length) in E. rewrite length_insert, !length_fmap in E. by rewrite E. }
    set (w' := default 0 (W' !! k)) in *.
    assert (Ec : c = charset_at w').
    { apply (f_equal (λ l, l !! k)) in E. rewrite list_lookup_insert_eq, list_lookup_fmap, Hkc in E by (by rewrite length_fmap). by injection E. }
    rewrite Ec, <- list_fmap_insert in E. pose proof (proj1 (Forall_lookup _ _) HW k w Hwk) as Hwok. pose proof (proj1 (Forall_lookup _ _) HW' k w' Hkc) as Hwok'.
    apply charset_words_inj in E; [|done|by apply Forall_insert]. rewrite Ec. f_equal. destruct (decide (w = w')) as [|Hn]; [done|]. exfalso.
    rewrite insert_take_drop in E by done. rewrite <- (take_drop_middle W k w Hwk) in K. rewrite E in K'.
    apply (data_replaced (prefix_words p) (take k W) w w' (drop (S k) W) Hwok Hwok' Hn). by rewrite K, K'.
Qed.
Lemma readable_prefix t p ws : readable t → to_lower <$> t = spelled p ws → prefix_ok p ∧ (length p ≤ MAX_ENCODED_LEN)%nat.
Proof.
  intros (Hl & Hg & _) E. split.
  - assert (Hlow : Forall (below 7) (to_lower <$> t)) by (apply Forall_fmap; eapply Forall_impl; [exact Hg|]; intros; by apply lower_below).
    rewrite E in Hlow. by apply Forall_app in Hlow as [Hlow _].
  - apply (f_equal length) in E. rewrite length_fmap, length_spelled in E. lia.
Qed.
Lemma class_word_letters class rest : ∃ x y l, class_word class ++ rest = x :: y :: l ∧ is_lower x = true ∧ is_lower y = true.
Proof.
  destruct (class_words class) as (_ & _ & (x & y & l & E) & Hl). rewrite E in *. apply Forall_cons in Hl as [Hx [Hy _]%Forall_cons]. by exists x, y, (l ++ rest).
Qed.

(** C15: A mistyped address is refused. Replacing any one character of a string that reads as an address, in its prefix,
    its separator or its data and in either case, gives a string that reads as no address at all. *)
Theorem replaced_character_caught t a network i c c' :
  from_text t = Some (Ok (a, network)) → t !! i = Some c → c' ≠ c → ∃ e, from_text (<[i := c']> t) = Some (Err e).
Proof.
  intros Ht Hi Hn. destruct (from_text (<[i := c']> t)) as [[[a' network']|e]|] eqn:Ht'; [exfalso|by exists e|by apply from_text_answers in Ht'].
  apply from_text_spec in Ht as (Hr & _ & _ & _ & class & _ & Et). apply from_text_spec in Ht' as (Hr' & _ & _ & _ & class' & _ & Et').
  unfold address_text in *. destruct (readable_prefix _ _ _ Hr Et) as [Hp Hpl]. destruct (readable_prefix _ _ _ Hr' Et') as [Hp' _].
  assert (Hlow : (to_lower <$> t) !! i = Some (to_lower c)) by (by rewrite list_lookup_fmap, Hi).
  rewrite list_fmap_insert, Et in Et'. assert (Happ : spelled (class_word class ++ UNDERSCORE :: network) (to_words (address_to_bytes a)) !! i = Some (to_lower c')).
  { eapply spelled_apart; [apply to_words_spec|apply to_words_spec|by rewrite !words_of_address|exact Hp|exact Hp'|exact Hpl| |exact (eq_sym Et')].
    rewrite <- Et, length_fmap. by eapply lookup_lt_Some. }
  rewrite <- Et, Hlow in Happ. injection Happ as Happ.
  destruct (class_word_letters class (UNDERSCORE :: network ++ SEPARATOR :: (charset_at <$> to_words (address_to_bytes a) ++
    checksum (class_word class ++ UNDERSCORE :: network) (to_words (address_to_bytes a))))) as (x & y & l & E & Hx & Hy).
  eapply case_caught; [exact Hr|exact Hr'|exact Hi|by apply not_eq_sym| |exact Hx|exact Hy|exact Happ].
  rewrite Et. unfold spelled. by rewrite <- E, <- !app_assoc.
Qed.

(** ** On concrete strings *)

Example bip350_vector : polymod (prefix_words (chars "a") ++ match data_words (chars "lqfn3a") with Ok ws => ws | Err _ => [] end) = BECH32M_CONST.
Proof. vm_compute. reflexivity. Qed.
Definition sample_address : Address := 0x0102030405060708090a0b0c0d0e0f101112131415161718191a1b1c1d1e1f01.
Definition sample_text : list char := match to_text sample_address (chars "sim") with Some (Ok t) => t | _ => [] end.
Example sample_reads_back : from_text sample_text = Some (Ok (sample_address, chars "sim")).
Proof. vm_compute. reflexivity. Qed.
Lemma sample_address_ok : address_ok sample_address.
Proof. split; [unfold in_width; cbn; done|]. vm_compute. by eexists. Qed.
Lemma text_roundtrip_witness : to_text sample_address (chars "sim") = Some (Ok sample_text) ∧ from_text sample_text = Some (Ok (sample_address, chars "sim")).
Proof.
  assert (E : to_text sample_address (chars "sim") = Some (Ok sample_text)) by (vm_compute; reflexivity).
  split; [exact E|]. exact (proj1 text_roundtrip sample_address (chars "sim") sample_text sample_address_ok E).
Defined.
Lemma replaced_character_caught_witness : ∃ e, from_text (<[20%nat := 99]> sample_text) = Some (Err e).
Proof.
  assert (E : from_text sample_text = Some (Ok (sample_address, chars "sim"))) by (vm_compute; reflexivity).
  assert (Ei : sample_text !! 20%nat = Some 113) by (vm_compute; reflexivity).
  exact (replaced_character_caught sample_text sample_address (chars "sim") 20 113 99 E Ei ltac:(discriminate)).
Defined.

(** A network word of other printable characters reads, though no address is written for it: only an underscore is
    refused on the way in. *)
Definition dashed_text : list char :=
  match encode_text (chars "account_a-b") (to_words (address_to_bytes sample_address)) with Ok t => t | Err _ => [] end.
Theorem unwritable_network_reads :
  from_text dashed_text = Some (Ok (sample_address, chars "a-b")) ∧
  to_text sample_address (chars "a-b") = Some (Err (TextErr.InvalidCharacter 45)).
Proof. split; vm_compute; reflexivity. Qed.
