(* ===== verification/Tree.v ===== *)
(** * Intent trees ([crates/effects/src/{graph,intent}.rs], [crates/effects/src/admission/{tree,fill,order}.rs])

    A transaction is a tree of signed intents. Admission walks it in preorder, holds
    it to its shape, follows every socket and every give to the node or the account
    behind it, and interleaves the intents' nodes into one order. What a composer
    grants a member is what it holds itself, so authority only flows down; what an
    intent waits on is emitted before it. *)

From S2P Require Import Prelude WideMath Types Effects Conflict Modes Hbor Cells Writes Ledger Store Overlay Capability Outcomes Rules Values Grants.

(** ** The signed graph *)

Record EdgeRef := { er_producer : nat; er_output : nat }.
Record GiveRef := { gv_member : nat; gv_give : nat }.
Inductive Constraint := MinAmount (a : Z) | MaxAmount (a : Z) | ResourceIs (r : ResourceAddr).
Module ValueRef.
Inductive ValueRef := Edge (e : EdgeRef) | Give (g : GiveRef) | Socket (s : nat).
End ValueRef.
Abbreviation ValueRef := ValueRef.ValueRef.
Definition ref_socket (v : ValueRef) : option nat := match v with ValueRef.Socket s => Some s | _ => None end.
Definition ref_give (v : ValueRef) : option GiveRef := match v with ValueRef.Give g => Some g | _ => None end.
Module GraphArg.
Inductive GraphArg := Literal (v : Value) | Value (source : ValueRef) (constraints : list Constraint).
End GraphArg.
Abbreviation GraphArg := GraphArg.GraphArg.
Definition arg_source (a : GraphArg) : option ValueRef := match a with GraphArg.Value source _ => Some source | GraphArg.Literal _ => None end.
Module ClaimRef.
Inductive ClaimRef := Account (a : Address) | Node (n : nat) | Socket (s : nat).
End ClaimRef.
Abbreviation ClaimRef := ClaimRef.ClaimRef.
Definition claim_ref_socket (c : ClaimRef) : option nat := match c with ClaimRef.Socket s => Some s | _ => None end.
Record GraphNode := { gn_target : Address; gn_method : bytes; gn_args : list GraphArg; gn_evidence : list ClaimRef }.
Definition arg_sockets (n : GraphNode) : list nat := omap (λ a, arg_source a ≫= ref_socket) (gn_args n).
Definition node_sockets (n : GraphNode) : list nat := arg_sockets n ++ omap claim_ref_socket (gn_evidence n).
Definition node_gives (n : GraphNode) : list GiveRef := omap (λ a, arg_source a ≫= ref_give) (gn_args n).

(** ** Intents *)

Definition MAX_INTENTS : nat := 33.
Definition MAX_TREE_DEPTH : nat := 8.
Module Socket.
Inductive Socket := Value (resource : ResourceAddr) (constraints : list Constraint) | Authority (claim : Claim).
End Socket.
Abbreviation Socket := Socket.Socket.
Module Binding.
Inductive Binding := Value (source : ValueRef) | Authority (source : ClaimRef).
End Binding.
Abbreviation Binding := Binding.Binding.
Record IntentHeader := { ih_network : Z; ih_validity_start_ms : Z; ih_validity_end_ms : Z; ih_discriminator : Z }.
(** A member: the composed intent and the wiring of its sockets. Its attestations are transport and are not read here. *)
Record MemberOf (I : Type) := { mb_intent : I; mb_wiring : list Binding }.
Arguments mb_intent {I}.
Arguments mb_wiring {I}.
Inductive Intent := MkIntent (header : IntentHeader) (accounts attested_by : list Address) (graph : list GraphNode)
  (sockets : list Socket) (gives : list ValueRef) (members : list (MemberOf Intent)).
Abbreviation Member := (MemberOf Intent).
Definition in_accounts (i : Intent) : list Address := let '(MkIntent _ a _ _ _ _ _) := i in a.
Definition in_attested_by (i : Intent) : list Address := let '(MkIntent _ _ a _ _ _ _) := i in a.
Definition in_graph (i : Intent) : list GraphNode := let '(MkIntent _ _ _ g _ _ _) := i in g.
Definition in_sockets (i : Intent) : list Socket := let '(MkIntent _ _ _ _ s _ _) := i in s.
Definition in_gives (i : Intent) : list ValueRef := let '(MkIntent _ _ _ _ _ g _) := i in g.
Definition in_members (i : Intent) : list Member := let '(MkIntent _ _ _ _ _ _ m) := i in m.
(** How many intents a tree carries. *)
Fixpoint intent_size (i : Intent) : nat :=
  let '(MkIntent _ _ _ _ _ _ members) := i in S (sum_list_with (λ m, let '(Build_MemberOf _ inner _) := m in intent_size inner) members).

Module AdmErr.
Inductive Channel := AsValue | AsAuthority.
Inductive AdmissionError :=
  | TooManyIntents | TooManyNodes
  | TreeTooDeep (intent : nat) | NoAccount (intent : nat) | DuplicateAccount (intent : nat) | NoAttester (intent : nat) | DuplicateAttester (intent : nat)
  | BindingArity (intent expected found : nat)
  | RootSockets (socket : nat) | RootGives (give : nat)
  | UnknownSocket (intent node socket : nat)
  | SocketKindMismatch (intent socket : nat) (declared offered : Channel)
  | UnconsumedSocket (intent socket : nat) | SocketReused (intent socket : nat)
  | UnknownGive (intent give : nat) | UnconsumedGive (intent member give : nat) | GiveReused (intent member give : nat)
  | UnknownBinding (intent socket : nat) | SocketResourceMismatch (intent socket : nat)
  | GrantNotHeld (intent socket : nat) (account : Address) | GrantClaimMismatch (intent socket : nat)
  | CyclicSockets.
End AdmErr.
Abbreviation AdmissionError := AdmErr.AdmissionError.
Abbreviation judged A := (result (halt AdmissionError) A) (only parsing).
Definition refuses {A} (e : AdmissionError) : result (halt AdmissionError) A := Err (Refuses e).

(** ** The preorder walk *)

Record Flattened := {
  fl_intents : list Intent;
  fl_parent : list (option (nat * nat));
  fl_children : list (list nat);
  fl_depth : list nat;
}.
Record Visit := { vs_intent : Intent; vs_composer : option (nat * nat); vs_level : nat }.
Definition flattened_empty : Flattened := {| fl_intents := []; fl_parent := []; fl_children := []; fl_depth := [] |}.
Definition visit_members (at_ level : nat) (i : Intent) : list Visit :=
  imap (λ position m, {| vs_intent := mb_intent m; vs_composer := Some (at_, position); vs_level := S level |}) (in_members i).
Definition visit_step (v : Visit) (flat : Flattened) : Flattened :=
  let at_ := length (fl_intents flat) in {|
  fl_intents := fl_intents flat ++ [vs_intent v];
  fl_parent := fl_parent flat ++ [vs_composer v];
  fl_children := match vs_composer v with Some (c, _) => alter (λ l, l ++ [at_]) c (fl_children flat) | None => fl_children flat end ++ [[]];
  fl_depth := fl_depth flat ++ [vs_level v] |}.
(** [while let Some(..) = stack.pop()], the stack's top first; one round per intent. *)
Fixpoint walk_loop (fuel : nat) (stack : list Visit) (flat : Flattened) : Flattened :=
  match fuel, stack with
  | S fuel, v :: stack => walk_loop fuel (visit_members (length (fl_intents flat)) (vs_level v) (vs_intent v) ++ stack) (visit_step v flat)
  | _, _ => flat
  end.
Definition walk_tree (root : Intent) : Flattened :=
  walk_loop (intent_size root) [{| vs_intent := root; vs_composer := None; vs_level := 1 |}] flattened_empty.
(** [self.children[composer][position]]; [None] is out of range. *)
Definition member_at (flat : Flattened) (composer position : nat) : option nat := l ← fl_children flat !! composer; l !! position.

(** ** The shape of one intent *)

Section structure.
Context (intent : Intent) (at_ : nat).

Definition channel_of (s : Socket) : AdmErr.Channel := match s with Socket.Value _ _ => AdmErr.AsValue | Socket.Authority _ => AdmErr.AsAuthority end.
#[global] Instance channel_eq_dec : EqDecision AdmErr.Channel.
Proof. solve_decision. Defined.
(** The closure [reach]. *)
Definition reach_socket (socket : nat) (as_ : AdmErr.Channel) (node : option nat) (uses : list nat) : result AdmissionError (list nat) :=
  match in_sockets intent !! socket with
  | None => match node with Some node => Err (AdmErr.UnknownSocket at_ node socket) | None => Ok uses end
  | Some declared =>
      if decide (channel_of declared ≠ as_) then Err (AdmErr.SocketKindMismatch at_ socket (channel_of declared) as_)
      else Ok (alter S socket uses)
  end.
Fixpoint reach_all (l : list (nat * AdmErr.Channel * option nat)) (uses : list nat) : result AdmissionError (list nat) :=
  match l with [] => Ok uses | (socket, as_, node) :: l => uses ← reach_socket socket as_ node uses; reach_all l uses end.
Definition binding_socket (b : Binding) : option (nat * AdmErr.Channel * option nat) :=
  match b with
  | Binding.Value (ValueRef.Socket s) => Some (s, AdmErr.AsValue, None)
  | Binding.Authority (ClaimRef.Socket s) => Some (s, AdmErr.AsAuthority, None)
  | _ => None
  end.
(** Everything that reaches a socket, in the order it is read. *)
Definition node_reaches (index : nat) (n : GraphNode) : list (nat * AdmErr.Channel * option nat) :=
  ((λ s, (s, AdmErr.AsValue, Some index)) <$> arg_sockets n) ++ ((λ s, (s, AdmErr.AsAuthority, Some index)) <$> omap claim_ref_socket (gn_evidence n)).
Definition socket_reaches : list (nat * AdmErr.Channel * option nat) :=
  concat (imap node_reaches (in_graph intent)) ++ (in_members intent ≫= λ m, omap binding_socket (mb_wiring m)).
Fixpoint check_counts (socket : nat) (declared : list Socket) (uses : list nat) : result AdmissionError () :=
  match declared, uses with
  | d :: declared, count :: uses =>
      if decide (count = 0%nat) then Err (AdmErr.UnconsumedSocket at_ socket)
      else if decide (channel_of d = AdmErr.AsValue ∧ 1 < count)%nat then Err (AdmErr.SocketReused at_ socket)
      else check_counts (S socket) declared uses
  | _, _ => Ok ()
  end.
Definition check_socket_uses : result AdmissionError () :=
  uses ← reach_all socket_reaches (replicate (length (in_sockets intent)) 0%nat);
  check_counts 0 (in_sockets intent) uses.

Definition give_held (v : ValueRef) : bool :=
  match v with
  | ValueRef.Edge e => bool_decide (er_producer e < length (in_graph intent))%nat
  | ValueRef.Give g => match in_members intent !! gv_member g with Some m => bool_decide (gv_give g < length (in_gives (mb_intent m)))%nat | None => false end
  | ValueRef.Socket _ => false
  end.
Fixpoint check_gives_held (position : nat) (gives : list ValueRef) : result AdmissionError () :=
  match gives with
  | [] => Ok ()
  | g :: gives => if give_held g then check_gives_held (S position) gives else Err (AdmErr.UnknownGive at_ position)
  end.

Definition binding_give (b : Binding) : option GiveRef := match b with Binding.Value source => ref_give source | Binding.Authority _ => None end.
Definition give_consumptions : list GiveRef :=
  (in_graph intent ≫= node_gives) ++ (in_members intent ≫= λ m, omap binding_give (mb_wiring m)) ++ omap ref_give (in_gives intent).
Definition count_give (counts : list (list nat)) (g : GiveRef) : list (list nat) := alter (alter S (gv_give g)) (gv_member g) counts.
Fixpoint check_taken (member give : nat) (counts : list nat) : result AdmissionError () :=
  match counts with
  | [] => Ok ()
  | 1%nat :: counts => check_taken member (S give) counts
  | O :: _ => Err (AdmErr.UnconsumedGive at_ member give)
  | _ :: _ => Err (AdmErr.GiveReused at_ member give)
  end.
Fixpoint check_taken_all (member : nat) (counts : list (list nat)) : result AdmissionError () :=
  match counts with [] => Ok () | c :: counts => _ ← check_taken member 0 c; check_taken_all (S member) counts end.
Definition check_member_gives_taken : result AdmissionError () :=
  check_taken_all 0 (foldl count_give ((λ m, replicate (length (in_gives (mb_intent m))) 0%nat) <$> in_members intent) give_consumptions).

Definition check_structure : result AdmissionError () :=
  _ ← check_socket_uses; _ ← check_gives_held 0 (in_gives intent); check_member_gives_taken.
End structure.

(** ** The shape of the tree *)

Fixpoint check_arity (flat : Flattened) (at_ position : nat) (members : list Member) : result (halt AdmissionError) () :=
  match members with
  | [] => Ok ()
  | m :: members =>
      let declared := length (in_sockets (mb_intent m)) in
      if decide (length (mb_wiring m) ≠ declared)
      then named ← expects (member_at flat at_ position); refuses (AdmErr.BindingArity named declared (length (mb_wiring m)))
      else check_arity flat at_ (S position) members
  end.
Definition check_intent (flat : Flattened) (at_ : nat) (i : Intent) : result (halt AdmissionError) () :=
  depth ← expects (fl_depth flat !! at_);
  if decide (MAX_TREE_DEPTH < depth)%nat then refuses (AdmErr.TreeTooDeep at_) else
  if decide (in_accounts i = []) then refuses (AdmErr.NoAccount at_) else
  if decide (¬ NoDup (in_accounts i)) then refuses (AdmErr.DuplicateAccount at_) else
  if decide (in_attested_by i = []) then refuses (AdmErr.NoAttester at_) else
  if decide (¬ NoDup (in_attested_by i)) then refuses (AdmErr.DuplicateAttester at_) else
  _ ← check_arity flat at_ 0 (in_members i);
  refuse (check_structure i at_).
Fixpoint check_each_intent (flat : Flattened) (at_ : nat) (l : list Intent) : result (halt AdmissionError) () :=
  match l with [] => Ok () | i :: l => _ ← check_intent flat at_ i; check_each_intent flat (S at_) l end.
Definition flatten (root : Intent) : result (halt AdmissionError) Flattened :=
  let flat := walk_tree root in
  if decide (MAX_INTENTS < length (fl_intents flat))%nat then refuses AdmErr.TooManyIntents else
  if decide (MAX_MANIFEST_NODES < sum_list_with (λ i, length (in_graph i)) (fl_intents flat))%nat then refuses AdmErr.TooManyNodes else
  _ ← check_each_intent flat 0 (fl_intents flat);
  if decide (in_sockets root ≠ []) then refuses (AdmErr.RootSockets 0) else
  if decide (in_gives root ≠ []) then refuses (AdmErr.RootGives 0) else
  Ok flat.

(** ** What stands behind a socket *)

Record Produced := { pr_intent : nat; pr_edge : EdgeRef }.
Module Fill.
Inductive Fill := Value (produced : Produced) (through : list Constraint) | Claim (intent node : nat) | Account (a : Address).
End Fill.
Abbreviation Fill := Fill.Fill.
Definition waits_on (f : Fill) : option (nat * nat) :=
  match f with
  | Fill.Value p _ => Some (pr_intent p, er_producer (pr_edge p))
  | Fill.Claim intent node => Some (intent, node)
  | Fill.Account _ => None
  end.
Record Resolution := { rs_fills : list Fill; rs_member_gives : list (list Produced) }.
Definition resolution_give (r : Resolution) (g : GiveRef) : option Produced := l ← rs_member_gives r !! gv_member g; l !! gv_give g.
Definition fill_channel (f : Fill) : AdmErr.Channel := match f with Fill.Value _ _ => AdmErr.AsValue | _ => AdmErr.AsAuthority end.

Section resolver.
Context (flat : Flattened).
Let intents : list Intent := fl_intents flat.

Definition check_claim (wanted granted : Claim) (at_ socket : nat) : result (halt AdmissionError) () :=
  if decide (wanted = granted) then Ok () else refuses (AdmErr.GrantClaimMismatch at_ socket).
(** The recursion of [yielded] goes from an intent to a member, that of [fill] from an intent to its composer; the fuel
    is the number of intents. *)
Fixpoint yielded (fuel : nat) (intent give : nat) : result (halt AdmissionError) Produced :=
  match fuel with
  | O => Err Panics
  | S fuel =>
      i ← expects (intents !! intent);
      v ← expects (in_gives i !! give);
      match v with
      | ValueRef.Edge edge =>
          if decide (length (in_graph i) ≤ er_producer edge)%nat then refuses (AdmErr.UnknownGive intent give)
          else Ok {| pr_intent := intent; pr_edge := edge |}
      | ValueRef.Give g =>
          if decide (length (in_members i) ≤ gv_member g)%nat then refuses (AdmErr.UnknownGive intent give) else
          child ← expects (member_at flat intent (gv_member g));
          inner ← expects (intents !! child);
          if decide (length (in_gives inner) ≤ gv_give g)%nat then refuses (AdmErr.UnknownGive intent give)
          else yielded fuel child (gv_give g)
      | ValueRef.Socket _ => refuses (AdmErr.UnknownGive intent give)
      end
  end.
Definition yield_of (intent give : nat) : result (halt AdmissionError) Produced := yielded (length intents) intent give.

Section fills.
Context (fill : nat → nat → result (halt AdmissionError) Fill).

Definition fill_value (composer : nat) (resource : ResourceAddr) (source : ValueRef) (at_ socket : nat) : result (halt AdmissionError) Fill :=
  above ← expects (intents !! composer);
  match source with
  | ValueRef.Edge edge =>
      if decide (length (in_graph above) ≤ er_producer edge)%nat then refuses (AdmErr.UnknownBinding at_ socket)
      else Ok (Fill.Value {| pr_intent := composer; pr_edge := edge |} [])
  | ValueRef.Give g =>
      if decide (length (in_members above) ≤ gv_member g)%nat then refuses (AdmErr.UnknownBinding at_ socket) else
      child ← expects (member_at flat composer (gv_member g));
      inner ← expects (intents !! child);
      if decide (length (in_gives inner) ≤ gv_give g)%nat then refuses (AdmErr.UnknownBinding at_ socket)
      else p ← yield_of child (gv_give g); Ok (Fill.Value p [])
  | ValueRef.Socket passed =>
      match in_sockets above !! passed with
      | Some (Socket.Value carried constraints) =>
          if decide (carried ≠ resource) then refuses (AdmErr.SocketResourceMismatch at_ socket) else
          f ← fill composer passed;
          match f with
          | Fill.Value p through => Ok (Fill.Value p (through ++ constraints))
          | _ => Err Panics
          end
      | _ => refuses (AdmErr.UnknownBinding at_ socket)
      end
  end.
Definition fill_authority (composer : nat) (wanted : Claim) (source : ClaimRef) (at_ socket : nat) : result (halt AdmissionError) Fill :=
  above ← expects (intents !! composer);
  match source with
  | ClaimRef.Node producer =>
      if decide (length (in_graph above) ≤ producer)%nat then refuses (AdmErr.UnknownBinding at_ socket) else Ok (Fill.Claim composer producer)
  | ClaimRef.Account account =>
      if decide (account ∉ in_accounts above) then refuses (AdmErr.GrantNotHeld at_ socket account) else
      _ ← check_claim wanted (claim_of_subject account) at_ socket;
      Ok (Fill.Account account)
  | ClaimRef.Socket passed =>
      match in_sockets above !! passed with
      | Some (Socket.Authority carried) => _ ← check_claim wanted carried at_ socket; fill composer passed
      | _ => refuses (AdmErr.UnknownBinding at_ socket)
      end
  end.
Definition fill_body (intent socket : nat) : result (halt AdmissionError) Fill :=
  parent ← expects (fl_parent flat !! intent);
  match parent with
  | None => refuses (AdmErr.UnknownBinding intent socket)
  | Some (composer, position) =>
      above ← expects (intents !! composer);
      m ← expects (in_members above !! position);
      i ← expects (intents !! intent);
      declared ← expects (in_sockets i !! socket);
      wired ← expects (mb_wiring m !! socket);
      match declared, wired with
      | Socket.Value resource _, Binding.Value source => fill_value composer resource source intent socket
      | Socket.Authority wanted, Binding.Authority source => fill_authority composer wanted source intent socket
      | Socket.Value _ _, Binding.Authority _ => refuses (AdmErr.SocketKindMismatch intent socket AdmErr.AsValue AdmErr.AsAuthority)
      | Socket.Authority _, Binding.Value _ => refuses (AdmErr.SocketKindMismatch intent socket AdmErr.AsAuthority AdmErr.AsValue)
      end
  end.
End fills.
Fixpoint fill (fuel : nat) (intent socket : nat) : result (halt AdmissionError) Fill :=
  match fuel with O => Err Panics | S fuel => fill_body (fill fuel) intent socket end.
Definition fill_of (intent socket : nat) : result (halt AdmissionError) Fill := fill (length intents) intent socket.

(** A loop that collects, stopping at the first refusal. *)
Fixpoint collect {A B} (f : A → result (halt AdmissionError) B) (l : list A) : result (halt AdmissionError) (list B) :=
  match l with [] => Ok [] | x :: l => y ← f x; ys ← collect f l; Ok (y :: ys) end.
Definition member_gives_of (at_ : nat) (i : Intent) : result (halt AdmissionError) (list (list Produced)) :=
  collect (λ position,
    m ← expects (member_at flat at_ position);
    inner ← expects (intents !! m);
    collect (yield_of m) (seq 0 (length (in_gives inner)))) (seq 0 (length (in_members i))).
Definition fills_of (at_ : nat) (i : Intent) : result (halt AdmissionError) (list Fill) := collect (fill_of at_) (seq 0 (length (in_sockets i))).
(** Gives first, every intent's; then the sockets. *)
Definition resolve_tree : result (halt AdmissionError) (list Resolution) :=
  gives ← collect (λ '(at_, i), member_gives_of at_ i) (imap pair intents);
  fills ← collect (λ '(at_, i), fills_of at_ i) (imap pair intents);
  Ok (zip_with Build_Resolution fills gives).
End resolver.

(** ** The fill check, and the interleave *)

Record Wired := { wr_graph : list GraphNode; wr_sockets : list Socket; wr_resolution : Resolution }.
Definition wired_fill (w : Wired) (socket : nat) : option Fill := rs_fills (wr_resolution w) !! socket.
Definition check_fill (intents : list Wired) (index : nat) (socket : nat) (declared : Socket) (f : Fill) : result AdmissionError () :=
  let named := match waits_on f with
    | Some (source, producer) => match intents !! source with Some w => bool_decide (producer < length (wr_graph w))%nat | None => false end
    | None => true
    end in
  if negb named then Err (AdmErr.UnknownBinding index socket)
  else if decide (channel_of declared ≠ fill_channel f) then Err (AdmErr.SocketKindMismatch index socket (channel_of declared) (fill_channel f))
  else Ok ().
Fixpoint check_fills (intents : list Wired) (index socket : nat) (declared : list Socket) (fills : list Fill) : result AdmissionError () :=
  match declared, fills with
  | d :: declared, f :: fills => _ ← check_fill intents index socket d f; check_fills intents index (S socket) declared fills
  | _, _ => Ok ()
  end.
Definition check_binding (intents : list Wired) (index : nat) (w : Wired) : result AdmissionError () :=
  let fills := rs_fills (wr_resolution w) in
  if decide (length fills ≠ length (wr_sockets w)) then Err (AdmErr.BindingArity index (length (wr_sockets w)) (length fills))
  else check_fills intents index 0 (wr_sockets w) fills.
Fixpoint check_bindings_from (intents : list Wired) (index : nat) (l : list Wired) : result AdmissionError () :=
  match l with [] => Ok () | w :: l => _ ← check_binding intents index w; check_bindings_from intents (S index) l end.
Definition check_bindings (intents : list Wired) : result AdmissionError () := check_bindings_from intents 0 intents.

Record Interleaved := { il_flat_of : list (list nat); il_order : list (nat * nat) }.
(** What a node of an intent waits on, an intent and a node in it. *)
Definition node_waits (w : Wired) (n : GraphNode) : list (nat * nat) :=
  omap (λ s, wired_fill w s ≫= waits_on) (node_sockets n) ++
  omap (λ g, p ← resolution_give (wr_resolution w) g; Some (pr_intent p, er_producer (pr_edge p))) (node_gives n).
Definition emitted (cursor : list nat) (d : nat * nat) : bool :=
  match cursor !! d.1 with Some e => bool_decide (d.2 < e)%nat | None => false end.
Definition is_ready (cursor : list nat) (w : Wired) (next : nat) : bool :=
  match wr_graph w !! next with Some n => forallb (emitted cursor) (node_waits w n) | None => false end.
(** The first candidate, with its next node. *)
Fixpoint candidate (cursor : list nat) (index : nat) (l : list Wired) : option (nat * nat) :=
  match l with
  | [] => None
  | w :: l =>
      match cursor !! index with
      | Some next => if is_ready cursor w next then Some (index, next) else candidate cursor (S index) l
      | None => candidate cursor (S index) l
      end
  end.
Fixpoint interleave_loop (fuel : nat) (intents : list Wired) (cursor : list nat) (flat_of : list (list nat)) (order : list (nat * nat)) :
    result AdmissionError Interleaved :=
  match fuel with
  | O => Ok {| il_flat_of := flat_of; il_order := order |}
  | S fuel =>
      match candidate cursor 0 intents with
      | None => Err AdmErr.CyclicSockets
      | Some (index, next) =>
          if decide (2 ^ 32 ≤ Z.of_nat (length order)) then Err AdmErr.TooManyNodes else
          interleave_loop fuel intents (alter S index cursor) (alter (insert next (length order)) index flat_of) (order ++ [(index, next)])
      end
  end.
(** [while order.len() < total]: every round emits one node or stops, so the rounds left are the nodes left. *)
Definition interleave (intents : list Wired) (total : nat) : result AdmissionError Interleaved :=
  interleave_loop total intents (replicate (length intents) 0%nat) ((λ w, replicate (length (wr_graph w)) 0%nat) <$> intents) [].

(** ** The interleave finds an order exactly when there is one *)

Section interleaving.
Context (ws : list Wired).

Definition node_of (d : nat * nat) : Prop := ∃ w n, ws !! d.1 = Some w ∧ wr_graph w !! d.2 = Some n.
(** Every node once, after the nodes its author put before it and after everything it waits on. *)
Definition settled_before (o : list (nat * nat)) (p : nat) (d : nat * nat) : Prop :=
  (∀ k, (k < d.2)%nat → (d.1, k) ∈ take p o) ∧
  ∀ w n x, ws !! d.1 = Some w → wr_graph w !! d.2 = Some n → x ∈ node_waits w n → x ∈ take p o.
Record valid_order (o : list (nat * nat)) : Prop := {
  vo_once : NoDup o;
  vo_nodes : ∀ d, d ∈ o ↔ node_of d;
  vo_after : ∀ p d, o !! p = Some d → settled_before o p d;
}.
Definition total_nodes : nat := sum_list_with (λ w, length (wr_graph w)) ws.

(** What the loop holds: the emitted nodes are those below the cursors, in an order valid so far, each where it was
    noted. *)
Record looping (cursor : list nat) (flat_of : list (list nat)) (order : list (nat * nat)) : Prop := {
  lp_cursors : length cursor = length ws;
  lp_bounded : ∀ i w c, ws !! i = Some w → cursor !! i = Some c → (c ≤ length (wr_graph w))%nat;
  lp_once : NoDup order;
  lp_emitted : ∀ i k, (i, k) ∈ order ↔ ∃ c, cursor !! i = Some c ∧ (k < c)%nat;
  lp_after : ∀ p d, order !! p = Some d → settled_before order p d;
  lp_shape : ∀ i w, ws !! i = Some w → ∃ l, flat_of !! i = Some l ∧ length l = length (wr_graph w);
  lp_noted : ∀ p i k, order !! p = Some (i, k) → ∃ l, flat_of !! i = Some l ∧ l !! k = Some p;
}.
Lemma emitted_spec cursor flat_of order d : looping cursor flat_of order → emitted cursor d = true ↔ d ∈ order.
Proof.
  intros L. destruct d as [i k]. rewrite (lp_emitted _ _ _ L). unfold emitted. cbn. destruct (cursor !! i) as [c|].
  - rewrite bool_decide_eq_true. naive_solver.
  - naive_solver.
Qed.
Lemma candidate_spec cursor : length cursor = length ws → ∀ l index, drop index ws = l →
  match candidate cursor index l with
  | Some (i, k) => ∃ w, ws !! i = Some w ∧ cursor !! i = Some k ∧ is_ready cursor w k = true
  | None => ∀ i w c, (index ≤ i)%nat → ws !! i = Some w → cursor !! i = Some c → is_ready cursor w c = false
  end.
Proof.
  intros Hlen. induction l as [|w l IH]; intros index Hd.
  { cbn. intros i w c Hi Hw. apply (f_equal length) in Hd. rewrite length_drop in Hd. cbn in Hd. apply lookup_lt_Some in Hw. lia. }
  assert (Hw : ws !! index = Some w) by (rewrite <- (Nat.add_0_r index), <- lookup_drop, Hd; done).
  assert (Hl : drop (S index) ws = l) by (rewrite <- Nat.add_1_r, <- drop_drop, Hd; done).
  cbn [candidate]. specialize (IH (S index) Hl). destruct (cursor !! index) as [c|] eqn:Ec.
  - destruct (is_ready cursor w c) eqn:Er; [by exists w|]. destruct (candidate cursor (S index) l) as [[i k]|]; [done|].
    intros i w' c' Hi Hw' Hc'. destruct (decide (i = index)) as [->|Hne]; [|apply (IH i w' c'); [lia|done|done]]. rewrite Hw in Hw'. rewrite Ec in Hc'. by simplify_eq.
  - exfalso. apply lookup_ge_None in Ec. apply lookup_lt_Some in Hw. lia.
Qed.
Lemma settled_app o d p x : settled_before o p x → (p ≤ length o)%nat → settled_before (o ++ [d]) p x.
Proof. intros [H1 H2] Hp. unfold settled_before. rewrite take_app_le by done. by split. Qed.
Lemma looping_step cursor flat_of order i k w : looping cursor flat_of order → ws !! i = Some w → cursor !! i = Some k → is_ready cursor w k = true →
  looping (alter S i cursor) (alter (insert k (length order)) i flat_of) (order ++ [(i, k)]).
Proof.
  intros L Hw Hk Hr. unfold is_ready in Hr. destruct (wr_graph w !! k) as [n|] eqn:En; [|done].
  assert (Hnew : (i, k) ∉ order) by (rewrite (lp_emitted _ _ _ L); intros (c & Hc & Hlt); rewrite Hk in Hc; injection Hc as <-; lia).
  assert (Hset : settled_before (order ++ [(i, k)]) (length order) (i, k)).
  { unfold settled_before. rewrite take_app_length. cbn [fst snd]. split.
    - intros k' Hk'. apply (lp_emitted _ _ _ L). by exists k.
    - intros w' n' x Hw' Hn' Hx. rewrite Hw in Hw'. injection Hw' as <-. rewrite En in Hn'. injection Hn' as <-.
      apply (emitted_spec cursor flat_of); [done|]. eapply forallb_forall; [exact Hr|]. by apply list_elem_of_In. }
  split.
  - rewrite length_alter. apply L.
  - intros j w' c Hw' Hc. destruct (decide (i = j)) as [<-|Hne].
    + rewrite list_lookup_alter_eq, Hk in Hc. injection Hc as <-. rewrite Hw in Hw'. injection Hw' as <-. apply lookup_lt_Some in En. lia.
    + rewrite list_lookup_alter_ne in Hc by done. by eapply lp_bounded.
  - apply NoDup_app. split; [apply L|]. split; [set_solver|apply NoDup_singleton].
  - intros j k'. rewrite elem_of_app, list_elem_of_singleton, (lp_emitted _ _ _ L). destruct (decide (i = j)) as [<-|Hne].
    + rewrite list_lookup_alter_eq, Hk. cbn. split.
      * intros [(c & [= <-] & Hlt)|[= ->]]; eexists; (split; [done|lia]).
      * intros (c & [= <-] & Hlt). destruct (decide (k' = k)) as [->|]; [by right|]. left. exists k. split; [done|lia].
    + rewrite list_lookup_alter_ne by done. split; [intros [?|[= -> _]]; done|by left].
  - intros p d Hp. destruct (decide (p < length order)%nat) as [Hlt|Hge].
    + rewrite lookup_app_l in Hp by done. apply settled_app; [by apply (lp_after _ _ _ L)|lia].
    + pose proof (lookup_lt_Some _ _ _ Hp) as Hb. rewrite length_app in Hb. cbn in Hb. assert (p = length order) as -> by lia.
      rewrite list_lookup_middle in Hp by done. by injection Hp as <-.
  - intros j w' Hw'. destruct (lp_shape _ _ _ L j w' Hw') as (l & Hl & Hlen). destruct (decide (i = j)) as [<-|Hne].
    + rewrite list_lookup_alter_eq, Hl. eexists. split; [done|]. by rewrite length_insert.
    + rewrite list_lookup_alter_ne by done. by exists l.
  - intros p j k' Hp. destruct (decide (p < length order)%nat) as [Hlt|Hge].
    + rewrite lookup_app_l in Hp by done. destruct (lp_noted _ _ _ L p j k' Hp) as (l & Hl & Hlk). destruct (decide (i = j)) as [<-|Hne].
      * rewrite list_lookup_alter_eq, Hl. eexists. split; [done|]. rewrite list_lookup_insert_ne; [done|]. intros <-.
        apply Hnew. by eapply list_elem_of_lookup_2.
      * rewrite list_lookup_alter_ne by done. by exists l.
    + pose proof (lookup_lt_Some _ _ _ Hp) as Hb. rewrite length_app in Hb. cbn in Hb. assert (p = length order) as -> by lia.
      rewrite list_lookup_middle in Hp by done. injection Hp as <- <-. destruct (lp_shape _ _ _ L i w Hw) as (l & Hl & Hlen).
      rewrite list_lookup_alter_eq, Hl. eexists. split; [done|]. apply list_lookup_insert_eq. rewrite Hlen. by eapply lookup_lt_Some.
Qed.

Definition all_nodes : list (nat * nat) := concat (imap (λ i w, pair i <$> seq 0 (length (wr_graph w))) ws).
Lemma all_nodes_spec d : d ∈ all_nodes ↔ node_of d.
Proof.
  unfold all_nodes, node_of. rewrite list_elem_of_In, in_concat. split.
  - intros (l & Hl & Hd). apply list_elem_of_In, list_elem_of_lookup in Hl as (i & Hi). rewrite list_lookup_imap in Hi.
    destruct (ws !! i) as [w|] eqn:Ew; [|done]. injection Hi as <-. apply list_elem_of_In, list_elem_of_fmap in Hd as (k & -> & Hk%elem_of_seq).
    destruct (lookup_lt_is_Some_2 (wr_graph w) k) as [n Hn]; [lia|]. by exists w, n.
  - intros (w & n & Hw & Hn). destruct d as [i k]. cbn in *. exists (pair i <$> seq 0 (length (wr_graph w))). split.
    + apply list_elem_of_In, list_elem_of_lookup. exists i. by rewrite list_lookup_imap, Hw.
    + apply list_elem_of_In, list_elem_of_fmap. exists k. split; [done|]. apply elem_of_seq. apply lookup_lt_Some in Hn. lia.
Qed.
Lemma all_nodes_length : length all_nodes = total_nodes.
Proof.
  assert (Hg : ∀ l (f : nat → nat), length (concat (imap (λ i w, pair (f i) <$> seq 0 (length (wr_graph w))) l)) = sum_list_with (λ w, length (wr_graph w)) l).
  { induction l as [|w l IH]; intros f; [done|]. rewrite imap_cons. cbn [concat sum_list_with]. rewrite length_app, length_fmap, length_seq. f_equal. apply (IH (f ∘ S)). }
  apply (Hg ws id).
Qed.
Lemma fills_up o : NoDup o → (∀ d, d ∈ o → node_of d) → (total_nodes ≤ length o)%nat → ∀ d, node_of d → d ∈ o.
Proof.
  intros Hnd Hsub Hlen d Hd. assert (Hs : o ⊆+ all_nodes) by (apply NoDup_submseteq; [done|]; intros x Hx; by apply all_nodes_spec, Hsub).
  rewrite (submseteq_length_Permutation _ _ Hs) by (by rewrite all_nodes_length). by apply all_nodes_spec.
Qed.
Lemma valid_length o : valid_order o → (total_nodes ≤ length o)%nat.
Proof.
  intros [Hnd Hin _]. rewrite <- all_nodes_length. apply submseteq_length, NoDup_submseteq.
  - unfold all_nodes. clear Hnd Hin. assert (Hg : ∀ (f : nat → nat) l, Inj (=) (=) f → NoDup (concat (imap (λ i w, pair (f i) <$> seq 0 (length (wr_graph w))) l))).
    { intros f l. revert f. induction l as [|w l IH]; intros f Hf; [constructor|]. rewrite imap_cons. cbn [concat]. apply NoDup_app. split; [|split].
      - apply NoDup_fmap_2; [by intros x y [= ->]|apply NoDup_seq].
      - intros x (k & -> & _)%list_elem_of_fmap Hx. rewrite list_elem_of_In, in_concat in Hx. destruct Hx as (l' & Hl' & Hx).
        apply list_elem_of_In, list_elem_of_lookup in Hl' as (j & Hj). rewrite list_lookup_imap in Hj. destruct (l !! j); [|done]. injection Hj as <-.
        apply list_elem_of_In, list_elem_of_fmap in Hx as (k' & [= E _] & _). apply Hf in E. done.
      - apply (IH (f ∘ S)). apply _. }
    apply (Hg id ws). apply _.
  - intros d Hd. by apply Hin, all_nodes_spec.
Qed.
Lemma emitted_nodes cursor flat_of order d : looping cursor flat_of order → d ∈ order → node_of d.
Proof.
  intros L Hd. destruct d as [i k]. apply (lp_emitted _ _ _ L) in Hd as (c & Hc & Hk). pose proof (lookup_lt_Some _ _ _ Hc) as Hi. rewrite (lp_cursors _ _ _ L) in Hi.
  destruct (lookup_lt_is_Some_2 ws i Hi) as [w Hw]. pose proof (lp_bounded _ _ _ L i w c Hw Hc). destruct (lookup_lt_is_Some_2 (wr_graph w) k) as [n Hn]; [lia|].
  by exists w, n.
Qed.
Lemma first_missing (o order : list (nat * nat)) : (∃ d, d ∈ o ∧ d ∉ order) → ∃ p d, o !! p = Some d ∧ d ∉ order ∧ ∀ x, x ∈ take p o → x ∈ order.
Proof.
  induction o as [|x o IH]; intros (d & Hd & Hn); [set_solver|]. destruct (decide (x ∈ order)) as [Hx|Hx].
  - destruct IH as (p & d' & Hp & Hn' & Hall); [exists d; set_solver|]. exists (S p), d'. split; [done|]. split; [done|]. cbn. intros y [->|Hy]%elem_of_cons; [done|by apply Hall].
  - exists 0%nat, x. split; [done|]. split; [done|]. cbn. set_solver.
Qed.
(** A stall with nodes left to emit is a cycle: no order is valid. *)
Lemma stall_cyclic cursor flat_of order o : looping cursor flat_of order → (length order < total_nodes)%nat → valid_order o → candidate cursor 0 ws ≠ None.
Proof.
  intros L Hlt Ho Hc. pose proof (candidate_spec cursor (lp_cursors _ _ _ L) ws 0 eq_refl) as Hcand. rewrite Hc in Hcand.
  assert (Hex : ∃ d, d ∈ o ∧ d ∉ order).
  { destruct (decide (Exists (λ d, d ∉ order) o)) as [He|He]; [apply Exists_exists in He as (d & ? & ?); by exists d|]. exfalso.
    rewrite <- Forall_Exists_neg in He. rewrite Forall_forall in He. pose proof (valid_length o Ho).
    assert (o ⊆+ order) as Hs%submseteq_length by (apply NoDup_submseteq; [apply Ho|]; intros d Hd; destruct (decide (d ∈ order)) as [|Hn]; [done|]; by destruct (He d Hd)). lia. }
  destruct (first_missing o order Hex) as (p & [i k] & Hp & Hn & Hall). destruct (vo_after _ Ho p (i, k) Hp) as [Hauthor Hwaits].
  assert (node_of (i, k)) as (w & n & Hw & Hk) by (apply (vo_nodes _ Ho); by eapply list_elem_of_lookup_2). cbn in Hw, Hk.
  pose proof (lookup_lt_Some _ _ _ Hw) as Hi. rewrite <- (lp_cursors _ _ _ L) in Hi. destruct (lookup_lt_is_Some_2 cursor i Hi) as [c Hcur].
  assert (c = k) as ->.
  { destruct (decide (k < c)%nat) as [Hkc|Hkc]; [exfalso; apply Hn, (lp_emitted _ _ _ L); by exists c|].
    destruct (decide (c < k)%nat) as [Hck|]; [|lia]. specialize (Hauthor c Hck). cbn in Hauthor. apply Hall, (lp_emitted _ _ _ L) in Hauthor as (c' & E & Hlt').
    rewrite Hcur in E. injection E as <-. lia. }
  specialize (Hcand i w k (Nat.le_0_l i) Hw Hcur). apply Bool.not_true_iff_false in Hcand. apply Hcand. unfold is_ready. rewrite Hk.
  apply forallb_forall. intros x Hx%list_elem_of_In. apply (emitted_spec _ _ _ x L). apply Hall. by eapply (Hwaits w n).
Qed.
Lemma loop_spec fuel : ∀ cursor flat_of order, looping cursor flat_of order → (length order + fuel = total_nodes)%nat →
  match interleave_loop fuel ws cursor flat_of order with
  | Ok il => ∃ cursor', looping cursor' (il_flat_of il) (il_order il) ∧ length (il_order il) = total_nodes
  | Err e => e = AdmErr.CyclicSockets ∧ (∀ o, ¬ valid_order o) ∨ e = AdmErr.TooManyNodes ∧ 2 ^ 32 < Z.of_nat total_nodes
  end.
Proof.
  induction fuel as [|fuel IH]; intros cursor flat_of order L Hf; cbn [interleave_loop].
  { exists cursor. split; [done|]. cbn. lia. }
  pose proof (candidate_spec cursor (lp_cursors _ _ _ L) ws 0 eq_refl) as Hc. pose proof (λ o, stall_cyclic cursor flat_of order o L ltac:(lia)) as Hst.
  destruct (candidate cursor 0 ws) as [[i k]|].
  - destruct Hc as (w & Hw & Hk & Hr). case_decide; [right; split; [done|lia]|]. apply IH; [by eapply looping_step|]. rewrite length_app. cbn. lia.
  - left. split; [done|]. intros o Ho. by apply (Hst o Ho).
Qed.
Lemma looping_start : looping (replicate (length ws) 0%nat) ((λ w, replicate (length (wr_graph w)) 0%nat) <$> ws) [].
Proof.
  split.
  - apply length_replicate.
  - intros i w c Hw [-> _]%lookup_replicate. lia.
  - constructor.
  - intros i k. split; [set_solver|]. intros (c & [-> _]%lookup_replicate & Hlt). lia.
  - done.
  - intros i w Hw. rewrite list_lookup_fmap, Hw. eexists. split; [done|]. apply length_replicate.
  - done.
Qed.

Lemma interleave_spec :
  match interleave ws total_nodes with
  | Ok il => valid_order (il_order il) ∧
      ∀ p i k, il_order il !! p = Some (i, k) ↔ ∃ l, il_flat_of il !! i = Some l ∧ l !! k = Some p ∧ node_of (i, k)
  | Err e => e = AdmErr.CyclicSockets ∧ (∀ o, ¬ valid_order o) ∨ e = AdmErr.TooManyNodes ∧ 2 ^ 32 < Z.of_nat total_nodes
  end.
Proof.
  unfold interleave. pose proof (loop_spec total_nodes _ _ _ looping_start eq_refl) as Hs.
  destruct (interleave_loop _ _ _ _ _) as [il|e]; [|exact Hs]. destruct Hs as (cursor & L & Hlen).
  assert (Hall : ∀ d, d ∈ il_order il ↔ node_of d).
  { intros d. split; [by apply (emitted_nodes cursor (il_flat_of il))|]. apply fills_up; [apply L| |lia]. intros x. by apply (emitted_nodes cursor (il_flat_of il)). }
  split; [split; [apply L|exact Hall|apply L]|]. intros p i k. split.
  - intros Hp. destruct (lp_noted _ _ _ L p i k Hp) as (l & Hl & Hlk). exists l. split; [done|]. split; [done|]. apply Hall. by eapply list_elem_of_lookup_2.
  - intros (l & Hl & Hlk & Hn). apply Hall, list_elem_of_lookup in Hn as (q & Hq). destruct (lp_noted _ _ _ L q i k Hq) as (l' & Hl' & Hlk').
    rewrite Hl in Hl'. injection Hl' as <-. rewrite Hlk in Hlk'. by injection Hlk' as ->.
Qed.
(** C10: The interleave finds an order exactly when there is one. Where it answers, every node of every intent is emitted
    once, after the nodes its author put before it and after every node that fills a socket or a give it reaches, and
    each node's place is noted as where it is; it refuses only where no order of the nodes does that, or there are
    more nodes than a place can name. *)
Theorem interleave_correct :
  match interleave ws total_nodes with
  | Ok il => valid_order (il_order il) ∧
      ∀ p i k, il_order il !! p = Some (i, k) ↔ ∃ l, il_flat_of il !! i = Some l ∧ l !! k = Some p ∧ node_of (i, k)
  | Err e => e = AdmErr.CyclicSockets ∧ (∀ o, ¬ valid_order o) ∨ e = AdmErr.TooManyNodes ∧ 2 ^ 32 < Z.of_nat total_nodes
  end.
Proof. exact interleave_spec. Qed.
End interleaving.

(** ** The walk numbers a tree *)

Definition composed_by (c : nat) (v : Visit) : Prop := ∃ position, vs_composer v = Some (c, position).
#[global] Instance composed_by_dec c v : Decision (composed_by c v).
Proof.
  unfold composed_by. destruct (vs_composer v) as [[c' p]|]; [|right; by intros []]. destruct (decide (c' = c)) as [->|Hn]; [left; by exists p|right; intros (q & [= -> _]); done].
Defined.
(** What the loop holds: each intent's pending members are those it has not numbered yet, in order; a numbered member is
    linked to its composer both ways, and sits deeper and later. *)
Record walking (flat : Flattened) (stack : list Visit) : Prop := {
  wk_parent : length (fl_parent flat) = length (fl_intents flat);
  wk_children : length (fl_children flat) = length (fl_intents flat);
  wk_depth : length (fl_depth flat) = length (fl_intents flat);
  wk_stack : ∀ v c p, v ∈ stack → vs_composer v = Some (c, p) → (c < length (fl_intents flat))%nat;
  wk_pending : ∀ c i l d, fl_intents flat !! c = Some i → fl_children flat !! c = Some l → fl_depth flat !! c = Some d →
    (length l ≤ length (in_members i))%nat ∧ filter (composed_by c) stack = drop (length l) (visit_members c d i);
  wk_up : ∀ k c p, fl_parent flat !! k = Some (Some (c, p)) → (c < k)%nat ∧ ∃ l, fl_children flat !! c = Some l ∧ l !! p = Some k;
  wk_down : ∀ c l p k, fl_children flat !! c = Some l → l !! p = Some k → (c < k)%nat ∧
    ∃ i m, fl_intents flat !! c = Some i ∧ in_members i !! p = Some m ∧ fl_intents flat !! k = Some (mb_intent m);
}.
Lemma visit_members_lookup c d i p v : visit_members c d i !! p = Some v →
  ∃ m, in_members i !! p = Some m ∧ v = {| vs_intent := mb_intent m; vs_composer := Some (c, p); vs_level := S d |}.
Proof. unfold visit_members. rewrite list_lookup_imap. destruct (in_members i !! p) as [m|]; [|done]. cbn. intros [= <-]. by exists m. Qed.
Lemma visit_members_composer c d i v : v ∈ visit_members c d i → ∃ p, vs_composer v = Some (c, p).
Proof. intros (p & (m & _ & ->)%visit_members_lookup)%list_elem_of_lookup. by exists p. Qed.
Lemma filter_members_same c d i : filter (composed_by c) (visit_members c d i) = visit_members c d i.
Proof. apply list_filter_all, Forall_forall. intros v. apply visit_members_composer. Qed.
Lemma filter_members_other c c' d i : c ≠ c' → filter (composed_by c') (visit_members c d i) = [].
Proof. intros Hn. apply list_filter_nil, Forall_forall. intros v (p & E)%visit_members_composer (q & E'). rewrite E in E'. by simplify_eq. Qed.
Lemma filter_stack_new flat stack : walking flat stack → filter (composed_by (length (fl_intents flat))) stack = [].
Proof. intros W. apply list_filter_nil, Forall_forall. intros v Hv (p & E). pose proof (wk_stack _ _ W v _ p Hv E). lia. Qed.
Lemma lookup_snoc {A} (l : list A) x i y : (l ++ [x]) !! i = Some y ↔ l !! i = Some y ∨ i = length l ∧ x = y.
Proof.
  rewrite lookup_app_Some. split.
  - intros [?|[Hi Hy]]; [by left|]. right. destruct (i - length l)%nat eqn:E; [|done]. cbn in Hy. simplify_eq. split; [lia|done].
  - intros [?|[-> ->]]; [by left|]. right. split; [lia|]. by rewrite Nat.sub_diag.
Qed.
Lemma children_spec v flat c l : length (fl_children flat) = length (fl_intents flat) →
  fl_children (visit_step v flat) !! c = Some l ↔
  c = length (fl_intents flat) ∧ l = [] ∨
  ∃ l0, fl_children flat !! c = Some l0 ∧ l = if decide (composed_by c v) then l0 ++ [length (fl_intents flat)] else l0.
Proof.
  intros Hlen. unfold visit_step. cbn [fl_children]. destruct (vs_composer v) as [[c' p]|] eqn:Ev.
  - rewrite lookup_snoc, length_alter, Hlen. split.
    + intros [Hl|[-> <-]]; [right|by left]. destruct (decide (c' = c)) as [->|Hn].
      * rewrite list_lookup_alter_eq in Hl. destruct (fl_children flat !! c) as [l0|]; [|done]. injection Hl as <-. exists l0. split; [done|].
        rewrite decide_True; [done|]. by exists p.
      * rewrite list_lookup_alter_ne in Hl by done. exists l. split; [done|]. rewrite decide_False; [done|]. intros (q & E). rewrite Ev in E. by simplify_eq.
    + intros [[-> ->]|(l0 & Hl0 & ->)]; [by right|left]. destruct (decide (c' = c)) as [->|Hn].
      * rewrite list_lookup_alter_eq, Hl0. cbn. rewrite decide_True; [done|]. by exists p.
      * rewrite list_lookup_alter_ne by done. rewrite decide_False; [done|]. intros (q & E). rewrite Ev in E. by simplify_eq.
  - rewrite lookup_snoc, Hlen. assert (Hn : ∀ c, ¬ composed_by c v) by (intros c0 (q & E); by rewrite Ev in E). split.
    + intros [Hl|[-> <-]]; [right|by left]. exists l. by rewrite decide_False.
    + intros [[-> ->]|(l0 & Hl0 & ->)]; [by right|left]. by rewrite decide_False.
Qed.
Lemma walking_step v flat stack : walking flat (v :: stack) →
  walking (visit_step v flat) (visit_members (length (fl_intents flat)) (vs_level v) (vs_intent v) ++ stack).
Proof.
  intros W. pose proof (wk_children _ _ W) as Hch. pose proof (wk_depth _ _ W) as Hde. pose proof (wk_parent _ _ W) as Hpa.
  set (at_ := length (fl_intents flat)) in *.
  (* the composer of the popped visit has numbered exactly the members before it *)
  assert (Hpop : ∀ c p, vs_composer v = Some (c, p) → ∃ i l m d, fl_intents flat !! c = Some i ∧ fl_children flat !! c = Some l ∧ fl_depth flat !! c = Some d ∧
    length l = p ∧ in_members i !! p = Some m ∧ vs_intent v = mb_intent m ∧ filter (composed_by c) stack = drop (S p) (visit_members c d i)).
  { intros c p Ev. assert (Hc : (c < at_)%nat) by (eapply (wk_stack _ _ W); [by left|exact Ev]).
    destruct (lookup_lt_is_Some_2 (fl_intents flat) c Hc) as [i Hi]. destruct (lookup_lt_is_Some_2 (fl_children flat) c) as [l Hl]; [lia|].
    destruct (lookup_lt_is_Some_2 (fl_depth flat) c) as [d Hd]; [lia|]. destruct (wk_pending _ _ W c i l d Hi Hl Hd) as [_ Hf].
    rewrite filter_cons, decide_True in Hf by (by exists p). assert (Hv : visit_members c d i !! length l = Some v).
    { rewrite <- (Nat.add_0_r (length l)), <- lookup_drop, <- Hf. done. }
    destruct (visit_members_lookup _ _ _ _ _ Hv) as (m & Hm & E). rewrite E in Ev. cbn in Ev. injection Ev as <-. exists i, l, m, d.
    split_and!; [done|done|done|done|done|by rewrite E|]. rewrite <- Nat.add_1_r, <- drop_drop, <- Hf. done. }
  split.
  - unfold visit_step. cbn. rewrite !length_app. cbn. lia.
  - unfold visit_step. cbn. destruct (vs_composer v) as [[c p]|]; rewrite !length_app, ?length_alter; cbn; lia.
  - unfold visit_step. cbn. rewrite !length_app. cbn. lia.
  - intros u c p [Hu|Hu]%elem_of_app Eu; unfold visit_step; cbn; rewrite length_app; cbn.
    + apply visit_members_composer in Hu as (q & Eq). rewrite Eu in Eq. injection Eq as -> _. lia.
    + pose proof (wk_stack _ _ W u c p ltac:(by right) Eu). lia.
  - intros c i l d Hi Hl Hd. apply children_spec in Hl; [|done]. unfold visit_step in Hi, Hd. cbn in Hi, Hd. rewrite lookup_snoc in Hi. rewrite lookup_snoc in Hd.
    rewrite filter_app. destruct Hl as [[-> ->]|(l0 & Hl0 & ->)].
    + fold at_ in Hi, Hd |- *. destruct Hi as [Hi|[_ <-]]; [apply lookup_lt_Some in Hi; lia|]. destruct Hd as [Hd|[_ <-]]; [apply lookup_lt_Some in Hd; lia|].
      split; [cbn; lia|]. rewrite filter_members_same. assert (Hn : filter (composed_by at_) stack = []).
      { pose proof (filter_stack_new _ _ W) as Hf. fold at_ in Hf. rewrite filter_cons in Hf. by destruct (decide _). }
      by rewrite Hn, app_nil_r, drop_0.
    + pose proof (lookup_lt_Some _ _ _ Hl0) as Hc. rewrite filter_members_other by lia. cbn [app].
      destruct Hi as [Hi|[-> _]]; [|lia]. destruct Hd as [Hd|[-> _]]; [|lia]. destruct (wk_pending _ _ W c i l0 d Hi Hl0 Hd) as [Hle Hf].
      destruct (decide (composed_by c v)) as [(p & Ev)|Hn].
      * destruct (Hpop c p Ev) as (i' & l' & m & d' & Hi' & Hl' & Hd' & Hlen & Hm & _ & Hfl). simplify_eq. rewrite length_app. cbn.
        split; [apply lookup_lt_Some in Hm; lia|]. rewrite Nat.add_1_r. exact Hfl.
      * split; [done|]. by rewrite filter_cons, decide_False in Hf.
  - intros k c p Hk. unfold visit_step in Hk. cbn in Hk. rewrite lookup_snoc in Hk. destruct Hk as [Hk|[-> Ev]].
    + destruct (wk_up _ _ W k c p Hk) as (Hck & l & Hl & Hlk). split; [done|]. eexists. split; [apply children_spec; [done|right; by exists l]|].
      destruct (decide _); [by apply lookup_app_l_Some|done].
    + destruct (Hpop c p Ev) as (i & l & m & d & Hi & Hl & _ & Hlen & _). split; [apply lookup_lt_Some in Hi; rewrite Hpa; exact Hi|].
      eexists. split; [apply children_spec; [done|right; by exists l]|]. rewrite decide_True by (by exists p). rewrite Hpa.
      apply lookup_snoc. right. by split.
  - intros c l p k Hl Hk. apply children_spec in Hl; [|done]. destruct Hl as [[-> ->]|(l0 & Hl0 & ->)]; [done|].
    assert (Hkeep : l0 !! p = Some k → (c < k)%nat ∧ ∃ i m, fl_intents (visit_step v flat) !! c = Some i ∧ in_members i !! p = Some m ∧
      fl_intents (visit_step v flat) !! k = Some (mb_intent m)).
    { intros H0. destruct (wk_down _ _ W c l0 p k Hl0 H0) as (Hck & i & m & Hi & Hm & Hk'). split; [done|]. exists i, m. unfold visit_step. cbn.
      rewrite !lookup_snoc. tauto. }
    destruct (decide (composed_by c v)) as [(q & Ev)|Hn]; [|by apply Hkeep]. apply lookup_snoc in Hk as [Hk|[-> <-]]; [by apply Hkeep|].
    destruct (Hpop c q Ev) as (i & l & m & d & Hi & Hl & _ & Hlen & Hm & Ei & _). rewrite Hl in Hl0. injection Hl0 as <-. rewrite Hlen.
    split; [by eapply lookup_lt_Some|]. exists i, m. unfold visit_step. cbn. rewrite !lookup_snoc. split; [by left|]. split; [done|]. right. by rewrite Ei.
Qed.
Definition visits_size (stack : list Visit) : nat := sum_list_with (λ v, intent_size (vs_intent v)) stack.
Lemma intent_size_members c d i : intent_size i = S (visits_size (visit_members c d i)).
Proof.
  destruct i as [h a b g s gv ms]. cbn. f_equal. unfold visits_size, visit_members. cbn [in_members].
  assert (Hg : ∀ l (f : nat → nat), sum_list_with (λ m, let '(Build_MemberOf _ inner _) := m in intent_size inner) l =
    sum_list_with (λ v, intent_size (vs_intent v)) (imap (λ p m, {| vs_intent := mb_intent m; vs_composer := Some (c, f p); vs_level := S d |}) l)).
  { induction l as [|[inner w] l IH]; intros f; [done|]. rewrite imap_cons. cbn [sum_list_with vs_intent mb_intent]. f_equal. apply (IH (f ∘ S)). }
  apply (Hg ms id).
Qed.
Lemma walk_loop_done fuel : ∀ stack flat, walking flat stack → (visits_size stack ≤ fuel)%nat → walking (walk_loop fuel stack flat) [].
Proof.
  induction fuel as [|fuel IH]; intros stack flat W Hs.
  { destruct stack as [|v stack]; [done|]. unfold visits_size in Hs. cbn in Hs. rewrite (intent_size_members 0 0) in Hs. lia. }
  destruct stack as [|v stack]; [done|]. cbn [walk_loop]. apply IH; [by apply walking_step|].
  unfold visits_size in *. cbn in Hs. rewrite (intent_size_members (length (fl_intents flat)) (vs_level v)) in Hs. unfold visits_size in Hs. rewrite sum_list_with_app. lia.
Qed.

(** ** A flattened tree *)

(** What [flatten] leaves to rely on. *)
Record well_composed (flat : Flattened) : Prop := {
  wc_walked : walking flat [];
  wc_arity : ∀ k i p m, fl_intents flat !! k = Some i → in_members i !! p = Some m → length (mb_wiring m) = length (in_sockets (mb_intent m));
  wc_gives : ∀ k i g v, fl_intents flat !! k = Some i → in_gives i !! g = Some v → give_held i v = true;
}.
Lemma walk_tree_walked root : walking (walk_tree root) [].
Proof.
  apply walk_loop_done; [|unfold visits_size; cbn; lia]. split; try done.
  intros v c p ->%list_elem_of_singleton. done.
Qed.
Lemma check_arity_ok flat at_ members : ∀ position, check_arity flat at_ position members = Ok () →
  ∀ p m, members !! p = Some m → length (mb_wiring m) = length (in_sockets (mb_intent m)).
Proof.
  induction members as [|m members IH]; intros position H p m' Hm; [done|]. cbn [check_arity] in H. destruct (decide _) as [Hn|Hn].
  - by destruct (member_at flat at_ position).
  - destruct p as [|p]; [|by eapply (IH (S position))]. injection Hm as <-. by apply dec_stable.
Qed.
Lemma check_gives_held_ok i at_ gives : ∀ position, check_gives_held i at_ position gives = Ok () → ∀ g v, gives !! g = Some v → give_held i v = true.
Proof.
  induction gives as [|x gives IH]; intros position H g v Hg; [done|]. cbn [check_gives_held] in H. destruct (give_held i x) eqn:Ex; [|done].
  destruct g as [|g]; [by injection Hg as <-|by eapply (IH (S position))].
Qed.
Lemma check_intent_ok flat at_ i : check_intent flat at_ i = Ok () → check_arity flat at_ 0 (in_members i) = Ok () ∧ check_gives_held i at_ 0 (in_gives i) = Ok ().
Proof.
  unfold check_intent. destruct (fl_depth flat !! at_); [|done]. cbn. repeat (case_decide; [done|]).
  destruct (check_arity _ _ _ _) as [[]|]; [|done]. cbn. unfold check_structure. destruct (check_socket_uses i at_) as [[]|]; [|done]. cbn.
  by destruct (check_gives_held _ _ _ _) as [[]|].
Qed.
Lemma check_each_intent_ok flat l : ∀ at_, check_each_intent flat at_ l = Ok () → ∀ k i, l !! k = Some i → check_intent flat (at_ + k) i = Ok ().
Proof.
  induction l as [|x l IH]; intros at_ H k i Hk; [done|]. cbn [check_each_intent] in H. destruct (check_intent flat at_ x) as [[]|] eqn:E; [|done]. cbn in H.
  destruct k as [|k]; [injection Hk as <-; by rewrite Nat.add_0_r|]. rewrite Nat.add_succ_r, <- Nat.add_succ_l. by apply IH.
Qed.
Lemma flatten_composed root flat : flatten root = Ok flat → flat = walk_tree root ∧ well_composed flat.
Proof.
  unfold flatten. case_decide; [done|]. case_decide; [done|]. destruct (check_each_intent _ _ _) as [[]|] eqn:E; [|done]. cbn.
  case_decide; [done|]. case_decide; [done|]. intros [= <-]. split; [done|]. pose proof (check_each_intent_ok _ _ _ E) as Hc. split.
  - apply walk_tree_walked.
  - intros k i p m Hi Hm. eapply check_arity_ok; [eapply (check_intent_ok _ _ _ (Hc k i Hi))|exact Hm].
  - intros k i g v Hi Hv. eapply check_gives_held_ok; [eapply (check_intent_ok _ _ _ (Hc k i Hi))|exact Hv].
Qed.

Section composed.
Context (flat : Flattened) (W : well_composed flat).
Let intents : list Intent := fl_intents flat.

Lemma member_at_composed c i p m : intents !! c = Some i → in_members i !! p = Some m →
  ∃ k, member_at flat c p = Some k ∧ (c < k)%nat ∧ intents !! k = Some (mb_intent m).
Proof.
  intros Hi Hm. pose proof (wc_walked _ W) as K. pose proof (lookup_lt_Some _ _ _ Hi) as Hc.
  destruct (lookup_lt_is_Some_2 (fl_children flat) c) as [l Hl]; [rewrite (wk_children _ _ K); exact Hc|].
  destruct (lookup_lt_is_Some_2 (fl_depth flat) c) as [d Hd]; [rewrite (wk_depth _ _ K); exact Hc|].
  destruct (wk_pending _ _ K c i l d Hi Hl Hd) as [Hle Hf]. symmetry in Hf. apply (f_equal length) in Hf. rewrite length_drop in Hf. unfold visit_members in Hf. rewrite length_imap in Hf. cbn in Hf.
  pose proof (lookup_lt_Some _ _ _ Hm) as Hp. destruct (lookup_lt_is_Some_2 l p) as [k Hk]; [lia|]. exists k. unfold member_at. rewrite Hl. cbn.
  destruct (wk_down _ _ K c l p k Hl Hk) as (Hck & i' & m' & Hi' & Hm' & Hk'). split; [done|]. split; [done|].
  unfold intents in *. rewrite Hi in Hi'. injection Hi' as <-. rewrite Hm in Hm'. by injection Hm' as <-.
Qed.
Lemma parent_composed k c p : fl_parent flat !! k = Some (Some (c, p)) →
  (c < k)%nat ∧ ∃ above m, intents !! c = Some above ∧ in_members above !! p = Some m ∧ intents !! k = Some (mb_intent m).
Proof.
  intros H. pose proof (wc_walked _ W) as K. destruct (wk_up _ _ K k c p H) as (_ & l & Hl & Hk). destruct (wk_down _ _ K c l p k Hl Hk) as (Hck & i & m & ?). split; [done|]. by exists i, m.
Qed.

(** *** Gives *)

(** The node a give ends at: an edge of the intent's own, or what a member gives. *)
Inductive yields : nat → nat → Produced → Prop :=
  | yields_edge k i g e : intents !! k = Some i → in_gives i !! g = Some (ValueRef.Edge e) → yields k g {| pr_intent := k; pr_edge := e |}
  | yields_member k i g r c p : intents !! k = Some i → in_gives i !! g = Some (ValueRef.Give r) → member_at flat k (gv_member r) = Some c →
      yields c (gv_give r) p → yields k g p.
Definition produced_here (p : Produced) : Prop := ∃ i, intents !! pr_intent p = Some i ∧ (er_producer (pr_edge p) < length (in_graph i))%nat.
Lemma yielded_ok fuel : ∀ k i g, intents !! k = Some i → (g < length (in_gives i))%nat → (length intents - k ≤ fuel)%nat →
  ∃ p, yielded flat fuel k g = Ok p ∧ yields k g p ∧ produced_here p.
Proof.
  induction fuel as [|fuel IH]; intros k i g Hi Hg Hf; [apply lookup_lt_Some in Hi; lia|].
  destruct (lookup_lt_is_Some_2 _ _ Hg) as [v Hv]. pose proof (wc_gives _ W k i g v Hi Hv) as Hh. cbn [yielded]. fold intents. rewrite Hi. cbn. rewrite Hv. cbn.
  destruct v as [e|r|s]; [| |done].
  - cbn in Hh. apply bool_decide_eq_true in Hh. rewrite decide_False by lia. eexists. split; [done|]. split; [by eapply yields_edge|]. by exists i.
  - cbn in Hh. destruct (in_members i !! gv_member r) as [m|] eqn:Em; [|done]. apply bool_decide_eq_true in Hh. pose proof (lookup_lt_Some _ _ _ Em).
    rewrite decide_False by lia. destruct (member_at_composed k i _ m Hi Em) as (c & Hc & Hkc & Hci). rewrite Hc. cbn. rewrite Hci. cbn. rewrite decide_False by lia.
    destruct (IH c _ (gv_give r) Hci Hh) as (p & Hp & Hy & Hin); [lia|]. exists p. split; [done|]. split; [by eapply yields_member|done].
Qed.
Lemma yield_of_ok k i g : intents !! k = Some i → (g < length (in_gives i))%nat → ∃ p, yield_of flat k g = Ok p ∧ yields k g p ∧ produced_here p.
Proof. intros Hi Hg. apply (yielded_ok _ k i g Hi Hg). unfold intents. lia. Qed.

(** *** Sockets *)

(** The composer's wiring of a socket: the composer, and what it wires there. *)
Definition wiring_of (k s : nat) (c : nat) (above : Intent) (b : Binding) : Prop :=
  ∃ p m, fl_parent flat !! k = Some (Some (c, p)) ∧ intents !! c = Some above ∧ in_members above !! p = Some m ∧ mb_wiring m !! s = Some b.
(** Where authority at a socket comes from: an account the composer acts for, a node of the composer's graph, or a
    socket of the composer's own that was handed the same. *)
Inductive handed : nat → nat → Fill → Prop :=
  | handed_account k s c above a : wiring_of k s c above (Binding.Authority (ClaimRef.Account a)) → a ∈ in_accounts above → handed k s (Fill.Account a)
  | handed_node k s c above n : wiring_of k s c above (Binding.Authority (ClaimRef.Node n)) → (n < length (in_graph above))%nat → handed k s (Fill.Claim c n)
  | handed_passed k s c above s' i w f : wiring_of k s c above (Binding.Authority (ClaimRef.Socket s')) → in_sockets above !! s' = Some (Socket.Authority w) →
      intents !! k = Some i → in_sockets i !! s = Some (Socket.Authority w) → handed c s' f → handed k s f.
Definition fill_right (k s : nat) (declared : Socket) (f : Fill) : Prop :=
  match declared, f with
  | Socket.Value _ _, Fill.Value p _ => produced_here p
  | Socket.Authority wanted, Fill.Account a => wanted = claim_of_subject a ∧ handed k s f
  | Socket.Authority _, Fill.Claim _ _ => handed k s f
  | _, _ => False
  end.
Definition fill_fits (k s : nat) (declared : Socket) (r : result (halt AdmissionError) Fill) : Prop :=
  match r with Ok f => fill_right k s declared f | Err Panics => False | Err (Refuses _) => True end.
Lemma handed_node_above k s f : handed k s f → ∀ j n, f = Fill.Claim j n → (j < k)%nat ∧ ∃ i, intents !! j = Some i ∧ (n < length (in_graph i))%nat.
Proof.
  induction 1 as [k s c above a (p & m & Hp & Ha & _)|k s c above n (p & m & Hp & Ha & _)|k s c above s' i w f (p & m & Hp & _) _ _ _ _ IH]; intros j n' E; [done| |].
  - injection E as <- <-. split; [by eapply parent_composed|by exists above].
  - destruct (IH j n' E) as [Hj Hi]. split; [|done]. apply parent_composed in Hp as [Hc _]. lia.
Qed.

Section one.
Context (fill : nat → nat → result (halt AdmissionError) Fill) (k s c p : nat) (above i : Intent) (m : Member).
Hypothesis Hfill : ∀ s' d, in_sockets above !! s' = Some d → fill_fits c s' d (fill c s').
Hypothesis Hparent : fl_parent flat !! k = Some (Some (c, p)).
Hypothesis Habove : intents !! c = Some above.
Hypothesis Hmember : in_members above !! p = Some m.
Hypothesis Hi : intents !! k = Some i.

Lemma fill_value_fits resource constraints source : fill_fits k s (Socket.Value resource constraints) (fill_value flat fill c resource source k s).
Proof.
  unfold fill_value. fold intents. rewrite Habove. cbn. destruct source as [e|g|s'].
  - case_decide; [done|]. cbn. exists above. split; [done|]. cbn. lia.
  - case_decide as Hlt; [done|]. destruct (lookup_lt_is_Some_2 (in_members above) (gv_member g)) as [m' Hm']; [lia|].
    destruct (member_at_composed c above _ m' Habove Hm') as (child & Hc & _ & Hci). rewrite Hc. cbn. rewrite Hci. cbn. case_decide; [done|].
    destruct (yield_of_ok child _ (gv_give g) Hci) as (q & Hq & _ & Hin); [lia|]. rewrite Hq. cbn. exact Hin.
  - destruct (in_sockets above !! s') as [[carried constraints'|w]|] eqn:Es; [|done|done]. case_decide; [done|].
    specialize (Hfill s' _ Es). unfold fill_fits in Hfill |- *. destruct (fill c s') as [f|[e|]]; cbn in *; [|done|done]. by destruct f.
Qed.
Lemma fill_authority_fits wanted source : in_sockets i !! s = Some (Socket.Authority wanted) → mb_wiring m !! s = Some (Binding.Authority source) →
  fill_fits k s (Socket.Authority wanted) (fill_authority flat fill c wanted source k s).
Proof.
  intros Hs Hw. assert (Hwire : wiring_of k s c above (Binding.Authority source)) by (exists p, m; done).
  unfold fill_authority. fold intents. rewrite Habove. cbn. destruct source as [a|n|s'].
  - case_decide as Ha; [done|]. unfold check_claim. case_decide as Hc; [|done]. cbn. split; [done|]. by eapply handed_account.
  - case_decide; [done|]. cbn. eapply handed_node; [done|lia].
  - destruct (in_sockets above !! s') as [[r' cs|w]|] eqn:Es; [done| |done]. unfold check_claim. case_decide as Hc; [|done]. cbn. subst w.
    specialize (Hfill s' _ Es). unfold fill_fits in *. destruct (fill c s') as [f|[e|]]; [|done|done]. cbn in *.
    destruct f as [q th|j n|a]; [done| |destruct Hfill as [-> Hh]; split; [done|]]; by eapply handed_passed.
Qed.
End one.
Lemma fill_ok fuel : ∀ k s i d, intents !! k = Some i → in_sockets i !! s = Some d → (k < fuel)%nat → fill_fits k s d (fill flat fuel k s).
Proof.
  induction fuel as [|fuel IH]; intros k s i d Hi Hd Hf; [lia|]. cbn [fill]. unfold fill_body. fold intents.
  destruct (fl_parent flat !! k) as [[[c p]|]|] eqn:Ep; cbn; [|done|].
  2: { apply lookup_ge_None in Ep. rewrite (wk_parent _ _ (wc_walked _ W)) in Ep. apply lookup_lt_Some in Hi. unfold intents in Hi. lia. }
  destruct (parent_composed k c p Ep) as (Hck & above & m & Ha & Hm & Hk). rewrite Ha. cbn. rewrite Hm. cbn. rewrite Hi. cbn. rewrite Hd. cbn.
  rewrite Hi in Hk. injection Hk as ->. pose proof (wc_arity _ W c above p m Ha Hm) as Har. pose proof (lookup_lt_Some _ _ _ Hd) as Hs.
  destruct (lookup_lt_is_Some_2 (mb_wiring m) s) as [b Hb]; [lia|]. rewrite Hb. cbn.
  assert (Hup : ∀ s' d', in_sockets above !! s' = Some d' → fill_fits c s' d' (fill flat fuel c s')) by (intros s' d' Hs'; eapply IH; [done|done|lia]).
  destruct d as [r cs|w], b as [source|source]; [|done|done|].
  - by eapply fill_value_fits.
  - by eapply fill_authority_fits.
Qed.

(** *** The whole resolution *)

Lemma collect_fits {A B} (f : A → result (halt AdmissionError) B) (P : A → B → Prop) l :
  (∀ x, x ∈ l → match f x with Ok y => P x y | Err Panics => False | Err (Refuses _) => True end) →
  match collect f l with Ok ys => Forall2 P l ys | Err Panics => False | Err (Refuses _) => True end.
Proof.
  induction l as [|x l IH]; intros H; [constructor|]. cbn [collect]. pose proof (H x ltac:(by left)) as Hx. destruct (f x) as [y|[e|]]; [|done|done]. cbn.
  specialize (IH (λ x' Hx', H x' ltac:(by right))). destruct (collect f l) as [ys|[e|]]; [|done|done]. cbn. by constructor.
Qed.
Lemma collect_ok {A B} (f : A → result (halt AdmissionError) B) (P : A → B → Prop) l : (∀ x, x ∈ l → ∃ y, f x = Ok y ∧ P x y) → ∃ ys, collect f l = Ok ys ∧ Forall2 P l ys.
Proof.
  induction l as [|x l IH]; intros H; [by exists []|]. cbn [collect]. destruct (H x) as (y & Hy & Hp); [by left|]. rewrite Hy. cbn.
  destruct IH as (ys & Hys & Hf); [intros x' Hx'; apply H; by right|]. rewrite Hys. exists (y :: ys). split; [done|]. by constructor.
Qed.
Definition member_right (k position : nat) (l : list Produced) : Prop :=
  ∀ c inner, member_at flat k position = Some c → intents !! c = Some inner →
    length l = length (in_gives inner) ∧ ∀ g p, l !! g = Some p → yields c g p ∧ produced_here p.
Definition gives_right (k : nat) (i : Intent) (gives : list (list Produced)) : Prop :=
  length gives = length (in_members i) ∧ ∀ position l, gives !! position = Some l → member_right k position l.
Definition fills_right (k : nat) (i : Intent) (fills : list Fill) : Prop :=
  length fills = length (in_sockets i) ∧ ∀ s d f, in_sockets i !! s = Some d → fills !! s = Some f → fill_right k s d f.
Lemma collected {B} (P : nat → B → Prop) n ys : Forall2 P (seq 0 n) ys → length ys = n ∧ ∀ x y, ys !! x = Some y → P x y.
Proof.
  intros H. split; [rewrite <- (Forall2_length _ _ _ H); apply length_seq|]. intros x y Hy.
  destruct (Forall2_lookup_r _ _ _ _ _ H Hy) as (q & Hq & Hp). by apply lookup_seq in Hq as [-> _].
Qed.
Lemma member_gives_ok k i : intents !! k = Some i → ∃ gives, member_gives_of flat k i = Ok gives ∧ gives_right k i gives.
Proof.
  intros Hi. unfold member_gives_of. match goal with |- context [collect ?f ?l] => destruct (collect_ok f (member_right k) l) as (gives & Hg & Hf) end.
  { intros position Hp%elem_of_seq. destruct (lookup_lt_is_Some_2 (in_members i) position) as [m Hm]; [lia|].
    destruct (member_at_composed k i position m Hi Hm) as (c & Hc & _ & Hci). rewrite Hc. cbn. fold intents. rewrite Hci. cbn.
    destruct (collect_ok (yield_of flat c) (λ g p, yields c g p ∧ produced_here p) (seq 0 (length (in_gives (mb_intent m))))) as (ys & Hys & Hall).
    { intros g Hg%elem_of_seq. eapply yield_of_ok; [exact Hci|lia]. }
    exists ys. split; [done|]. intros c' inner Hc' Hin. rewrite Hc in Hc'. injection Hc' as <-. rewrite Hci in Hin. injection Hin as <-. by apply collected. }
  exists gives. split; [exact Hg|]. by apply collected.
Qed.
Lemma fills_of_fits k i : intents !! k = Some i →
  match fills_of flat k i with Ok fills => fills_right k i fills | Err Panics => False | Err (Refuses _) => True end.
Proof.
  intros Hi. unfold fills_of. epose proof (collect_fits (fill_of flat k) (λ s f, ∀ d, in_sockets i !! s = Some d → fill_right k s d f) (seq 0 (length (in_sockets i)))) as Hc.
  ospecialize (Hc _).
  { intros s Hs%elem_of_seq. destruct (lookup_lt_is_Some_2 (in_sockets i) s) as [d Hd]; [lia|].
    pose proof (fill_ok (length intents) k s i d Hi Hd (lookup_lt_Some _ _ _ Hi)) as Ho. unfold fill_of. fold intents. unfold fill_fits in Ho.
    destruct (fill _ _ _ _) as [f|[e|]]; [|done|done]. intros d' Hd'. rewrite Hd in Hd'. by injection Hd' as <-. }
  destruct (collect _ _) as [fills|[e|]]; [|done|done]. apply collected in Hc as [Hl Hc]. split; [done|]. intros s d f Hd Hs. by apply (Hc s f).
Qed.
Definition wired_of (i : Intent) (r : Resolution) : Wired := {| wr_graph := in_graph i; wr_sockets := in_sockets i; wr_resolution := r |}.
Record resolved_right (rs : list Resolution) : Prop := {
  rr_each : length rs = length intents;
  rr_gives : ∀ k i r, intents !! k = Some i → rs !! k = Some r → gives_right k i (rs_member_gives r);
  rr_fills : ∀ k i r, intents !! k = Some i → rs !! k = Some r → fills_right k i (rs_fills r);
}.
Lemma imap_pair_lookup {A} (l : list A) k y : imap pair l !! k = Some y ↔ ∃ x, l !! k = Some x ∧ y = (k, x).
Proof. rewrite list_lookup_imap. destruct (l !! k) as [x|]; cbn; naive_solver. Qed.
Lemma resolve_tree_fits :
  match resolve_tree flat with Ok rs => resolved_right rs | Err Panics => False | Err (Refuses _) => True end.
Proof.
  unfold resolve_tree. fold intents.
  destruct (collect_ok (λ '(at_, i), member_gives_of flat at_ i) (λ '(k, i) gives, gives_right k i gives) (imap pair intents)) as (gives & Hg & Hgf).
  { intros [k i] (q & (x & Hq & [= -> ->])%imap_pair_lookup)%list_elem_of_lookup. by apply member_gives_ok. }
  rewrite Hg. cbn. pose proof (collect_fits (λ '(at_, i), fills_of flat at_ i) (λ '(k, i) fills, fills_right k i fills) (imap pair intents)) as Hf.
  ospecialize (Hf _). { intros [k i] (q & (x & Hq & [= -> ->])%imap_pair_lookup)%list_elem_of_lookup. by apply fills_of_fits. }
  destruct (collect (λ '(at_, i), fills_of flat at_ i) _) as [fills|[e|]]; [|done|done]. cbn.
  assert (Hlen : length fills = length intents ∧ length gives = length intents).
  { rewrite <- (Forall2_length _ _ _ Hf), <- (Forall2_length _ _ _ Hgf), length_imap. done. }
  split.
  - rewrite length_zip_with. lia.
  - intros k i r Hi (f & g & -> & Hfk & Hgk)%lookup_zip_with_Some. cbn. destruct (Forall2_lookup_r _ _ _ _ _ Hgf Hgk) as (y & (x & Hx & ->)%imap_pair_lookup & Hy).
    rewrite Hi in Hx. by injection Hx as <-.
  - intros k i r Hi (f & g & -> & Hfk & Hgk)%lookup_zip_with_Some. cbn. destruct (Forall2_lookup_r _ _ _ _ _ Hf Hfk) as (y & (x & Hx & ->)%imap_pair_lookup & Hy).
    rewrite Hi in Hx. by injection Hx as <-.
Qed.
Lemma check_fill_right ws k s d f : (∀ j w, ws !! j = Some w → ∃ i, intents !! j = Some i ∧ wr_graph w = in_graph i) → length ws = length intents →
  fill_right k s d f → check_fill ws k s d f = Ok ().
Proof.
  intros Hws Hlen Hr. assert (Hnamed : ∀ j n i, intents !! j = Some i → (n < length (in_graph i))%nat →
    match ws !! j with Some w => bool_decide (n < length (wr_graph w))%nat | None => false end = true).
  { intros j n i Hj Hn. destruct (lookup_lt_is_Some_2 ws j) as [w Hw]; [rewrite Hlen; by eapply lookup_lt_Some|]. rewrite Hw. apply bool_decide_eq_true.
    destruct (Hws j w Hw) as (i' & Hi' & ->). rewrite Hj in Hi'. by injection Hi' as <-. }
  unfold check_fill. destruct d as [r cs|w], f as [p th|j n|a]; cbn in Hr; try done; cbn [waits_on fill_channel channel_of].
  - destruct Hr as (i & Hi & Hn). rewrite (Hnamed _ _ i Hi Hn). done.
  - destruct (handed_node_above _ _ _ Hr j n eq_refl) as (_ & i & Hi & Hn). rewrite (Hnamed _ _ i Hi Hn). done.
Qed.
Lemma check_fills_right ws k declared fills : ∀ s, (∀ q d f, declared !! q = Some d → fills !! q = Some f → check_fill ws k (s + q) d f = Ok ()) →
  check_fills ws k s declared fills = Ok ().
Proof.
  revert fills. induction declared as [|d declared IH]; intros [|f fills] s H; [done|done|done|]. cbn [check_fills].
  pose proof (H 0%nat d f eq_refl eq_refl) as H0. rewrite Nat.add_0_r in H0. rewrite H0. cbn. apply IH. intros q d' f' Hd Hf. rewrite Nat.add_succ_l, <- Nat.add_succ_r. by apply H.
Qed.
Lemma check_bindings_right ws l : ∀ k, (∀ q w, l !! q = Some w → check_binding ws (k + q) w = Ok ()) → check_bindings_from ws k l = Ok ().
Proof.
  induction l as [|w l IH]; intros k H; [done|]. cbn [check_bindings_from]. pose proof (H 0%nat w eq_refl) as H0. rewrite Nat.add_0_r in H0. rewrite H0. cbn.
  apply IH. intros q w' Hq. rewrite Nat.add_succ_l, <- Nat.add_succ_r. by apply H.
Qed.
Lemma resolved_binds rs : resolved_right rs → check_bindings (zip_with wired_of intents rs) = Ok ().
Proof.
  intros R. apply check_bindings_right. intros k w (i & r & -> & Hi & Hr)%lookup_zip_with_Some. unfold check_binding. cbn.
  destruct (rr_fills _ R k i r Hi Hr) as [Hlen Hf]. rewrite decide_False by lia. apply check_fills_right. intros s d f Hd Hfl. apply check_fill_right; [| |by apply Hf].
  - intros j w (i' & r' & -> & Hi' & _)%lookup_zip_with_Some. by exists i'.
  - rewrite length_zip_with, (rr_each _ R). lia.
Qed.
End composed.

(** C9: A tree held to its shape is resolved without a fault of its own, and nothing is granted that was not held: the
    resolution of every intent names, for each give of a member, the node the give leads to, and for each socket either
    a node that exists or an account. An account fills a socket only where the socket declares that account's own claim,
    and was handed down composer by composer from an intent that acts as it; a proof fills one only from a node of an
    intent above, handed down the same way, and what that node proves is held against the socket where it is presented
    ([Evidence.v]). Every fill so resolved passes the check made of fills before the interleave. *)
Theorem tree_resolves root flat : flatten root = Ok flat →
  resolve_tree flat ≠ Err Panics ∧
  ∀ rs, resolve_tree flat = Ok rs →
    check_bindings (zip_with wired_of (fl_intents flat) rs) = Ok () ∧
    length rs = length (fl_intents flat) ∧
    ∀ k i r, fl_intents flat !! k = Some i → rs !! k = Some r →
      gives_right flat k i (rs_member_gives r) ∧
      (∀ s d f, in_sockets i !! s = Some d → rs_fills r !! s = Some f →
        match d, f with
        | Socket.Value _ _, Fill.Value p _ => produced_here flat p
        | Socket.Authority wanted, Fill.Account a => wanted = claim_of_subject a ∧ handed flat k s f
        | Socket.Authority _, Fill.Claim j n => handed flat k s f ∧ (j < k)%nat
        | _, _ => False
        end).
Proof.
  intros [_ W]%flatten_composed. pose proof (resolve_tree_fits flat W) as Hr. split; [by destruct (resolve_tree flat) as [|[]]|].
  intros rs E. rewrite E in Hr. split; [by apply resolved_binds|]. split; [apply Hr|]. intros k i r Hi Hk. split; [by eapply rr_gives|].
  intros s d f Hd Hf. destruct (rr_fills _ _ Hr k i r Hi Hk) as [_ Hall]. specialize (Hall s d f Hd Hf).
  destruct d, f; try done. split; [done|]. by eapply handed_node_above in Hall as [? _].
Qed.

(** A composer hands its account and a bucket to a member, which hands both on to a member of its own; what the inner
    member makes of them comes back up through two gives. *)
Definition sample_header : IntentHeader := {| ih_network := 1; ih_validity_start_ms := 0; ih_validity_end_ms := 1000; ih_discriminator := 0 |}.
Definition sample_subject (n : Z) : Address := address_new n Principal.
Definition sample_node (args : list GraphArg) (evidence : list ClaimRef) : GraphNode :=
  {| gn_target := address_new 7 Component; gn_method := []; gn_args := args; gn_evidence := evidence |}.
Definition sample_value (v : ValueRef) : GraphArg := GraphArg.Value v [].
Definition sample_leaf : Intent := MkIntent sample_header [sample_subject 3] [sample_subject 3]
  [sample_node [sample_value (ValueRef.Socket 1)] [ClaimRef.Socket 0]]
  [Socket.Authority (claim_of_subject (sample_subject 1)); Socket.Value (address_new 5 Resource) []] [ValueRef.Edge {| er_producer := 0; er_output := 0 |}] [].
Definition sample_middle : Intent := MkIntent sample_header [sample_subject 2] [sample_subject 2] []
  [Socket.Authority (claim_of_subject (sample_subject 1)); Socket.Value (address_new 5 Resource) []] [ValueRef.Give {| gv_member := 0; gv_give := 0 |}]
  [{| mb_intent := sample_leaf; mb_wiring := [Binding.Authority (ClaimRef.Socket 0); Binding.Value (ValueRef.Socket 1)] |}].
Definition sample_root : Intent := MkIntent sample_header [sample_subject 1] [sample_subject 1]
  [sample_node [] []; sample_node [sample_value (ValueRef.Give {| gv_member := 0; gv_give := 0 |})] []] [] []
  [{| mb_intent := sample_middle; mb_wiring := [Binding.Authority (ClaimRef.Account (sample_subject 1)); Binding.Value (ValueRef.Edge {| er_producer := 0; er_output := 0 |})] |}].
Lemma tree_resolves_witness : ∃ flat rs, flatten sample_root = Ok flat ∧ resolve_tree flat = Ok rs ∧ handed flat 2 0 (Fill.Account (sample_subject 1)).
Proof.
  assert (∃ flat, flatten sample_root = Ok flat ∧ flat = walk_tree sample_root) as (flat & Hf & Ef) by (eexists; split; [vm_compute; reflexivity|vm_compute; reflexivity]).
  destruct (tree_resolves sample_root flat Hf) as [_ H].
  assert (∃ rs, resolve_tree flat = Ok rs ∧ option_map rs_fills (rs !! 2%nat) = Some [Fill.Account (sample_subject 1); Fill.Value {| pr_intent := 0; pr_edge := {| er_producer := 0; er_output := 0 |} |} []])
    as (rs & Hrs & Er) by (rewrite Ef; eexists; split; [vm_compute; reflexivity|vm_compute; reflexivity]).
  exists flat, rs. split; [exact Hf|]. split; [exact Hrs|]. destruct (H rs Hrs) as (_ & _ & Hk). destruct (rs !! 2%nat) as [r|] eqn:E; [|discriminate Er].
  assert (Hl : fl_intents flat !! 2%nat = Some sample_leaf) by (rewrite Ef; vm_compute; reflexivity).
  injection Er as Er. destruct (Hk 2%nat sample_leaf r Hl E) as [_ Hs]. specialize (Hs 0%nat _ (Fill.Account (sample_subject 1)) eq_refl). rewrite Er in Hs. apply Hs. reflexivity.
Defined.
Example sample_interleaves : ∃ rs, resolve_tree (walk_tree sample_root) = Ok rs ∧
  (λ r, match r with Ok il => il_order il | Err _ => [] end) (interleave (zip_with wired_of (fl_intents (walk_tree sample_root)) rs) 3) = [(0, 0); (2, 0); (0, 1)]%nat.
Proof. eexists. split; [vm_compute; reflexivity|vm_compute; reflexivity]. Qed.
