(* ===== verification/Evidence.v ===== *)
(** * Presented evidence ([crates/effects/src/admission/node.rs])

    The claims a node presents, resolved against its own intent: the accounts the
    intent acts as, what earlier nodes of it proved, and the sockets a composer
    filled, each held to the claim the socket declares; and the rules admission
    judges against them. *)

From S2P Require Import Prelude WideMath Types Effects Conflict Modes Hbor Cells Writes Ledger Store Overlay Capability Outcomes Rules Values Grants Materialize Dsl Tree.

Module EvidenceErr.
(** The refusals of [AdmissionError] evidence can meet. *)
Inductive AdmissionError :=
  | MissingEvidence (node : Z) | UnexpectedEvidence (node : Z)
  | ForeignAccount (intent node : nat) (account : Address)
  | ForwardProof (intent node producer : nat) | ProvesNothing (intent node producer : nat)
  | UnknownSocket (intent node socket : nat) | SocketClaimMismatch (intent node socket : nat)
  | EvidenceUnsatisfied (node : Z) (rule : option (Rule Claim)) (presented : list Claim)
  | Eval (node : Z) (source : EvalError)
  | TooManyNodes.
End EvidenceErr.
Abbreviation EvidenceError := EvidenceErr.AdmissionError.

Definition judged_here (conditions : list Condition) : list (Rule JudgedLeaf.JudgedLeaf) :=
  filter (λ r, rule_judged r ≠ AtMaterialization) (c_rule <$> conditions).
Definition check_evidence_presence (required : list (Rule JudgedLeaf.JudgedLeaf)) (node : GraphNode) (node_index : Z) : result EvidenceError () :=
  match bool_decide (required = []), bool_decide (gn_evidence node = []) with
  | false, true => Err (EvidenceErr.MissingEvidence node_index)
  | true, false => Err (EvidenceErr.UnexpectedEvidence node_index)
  | _, _ => Ok ()
  end.
(** The closure a rule's leaves are mapped by. *)
Definition claim_leaf (evidence : list Claim) (node_index : Z) (l : JudgedLeaf.JudgedLeaf) : result EvidenceError Claim :=
  match l with JudgedLeaf.Claimed c => Ok c | _ => Err (EvidenceErr.EvidenceUnsatisfied node_index None evidence) end.
Fixpoint judge_rules (rules : list (Rule JudgedLeaf.JudgedLeaf)) (evidence : list Claim) (node_index : Z) : result EvidenceError () :=
  match rules with
  | [] => Ok ()
  | rule :: rules =>
      judged ← map_leaves (claim_leaf evidence node_index) rule;
      if satisfied_by judged evidence then judge_rules rules evidence node_index
      else Err (EvidenceErr.EvidenceUnsatisfied node_index (Some judged) evidence)
  end.
Definition judge_presented (required : list (Rule JudgedLeaf.JudgedLeaf)) (evidence : list Claim) (node_index : Z) : result EvidenceError () :=
  judge_rules (filter (λ r, rule_judged r = AtAdmission) required) evidence node_index.

Section resolve.
(** What the walk of nodes has at hand: where each node is emitted, and what the nodes lowered so far prove. *)
Context (flat_of : list (list nat)) (proven : list (list Claim)).
(** The node: its intent, the intent as wired, its place there and in the order. *)
Context (intent_index local : nat) (i : Intent) (w : Wired) (node_index : Z).

Definition flat_at (intent node : nat) : option nat := l ← flat_of !! intent; l !! node.
(** The meter is the envelope's, charged by what a proof carries. *)
Definition present_one (spent : Z) (reference : ClaimRef) : Z * result (halt EvidenceError) (list Claim) :=
  match reference with
  | ClaimRef.Account account =>
      (spent, if decide (account ∉ in_accounts i) then Err (Refuses (EvidenceErr.ForeignAccount intent_index local account))
              else Ok [claim_of_subject account])
  | ClaimRef.Node producer =>
      if decide (local ≤ producer)%nat then (spent, Err (Refuses (EvidenceErr.ForwardProof intent_index local producer))) else
      match flat_at intent_index producer with
      | None => (spent, Err Panics)
      | Some flat =>
          match proven !! flat with
          | None | Some [] => (spent, Err (Refuses (EvidenceErr.ProvesNothing intent_index local producer)))
          | Some claims =>
              match envelope_spend spent (Z.of_nat (length claims)) with
              | (spent, Ok _) => (spent, Ok claims)
              | (spent, Err (Refuses e)) => (spent, Err (Refuses (EvidenceErr.Eval node_index e)))
              | (spent, Err Panics) => (spent, Err Panics)
              end
          end
      end
  | ClaimRef.Socket socket =>
      let unknown := Err (Refuses (EvidenceErr.UnknownSocket intent_index local socket)) in
      (spent,
       match wr_sockets w !! socket, wired_fill w socket with
       | Some (Socket.Authority wanted), Some (Fill.Account _) => Ok [wanted]
       | Some (Socket.Authority wanted), Some (Fill.Claim filled_from producer) =>
           match flat_at filled_from producer with
           | None => unknown
           | Some source =>
               claims ← expects (proven !! source);
               if decide (wanted ∈ claims) then Ok [wanted]
               else Err (Refuses (EvidenceErr.SocketClaimMismatch intent_index local socket))
           end
       | _, _ => unknown
       end)
  end.
Fixpoint present_all (spent : Z) (references : list ClaimRef) : Z * result (halt EvidenceError) (list Claim) :=
  match references with
  | [] => (spent, Ok [])
  | reference :: references =>
      match present_one spent reference with
      | (spent, Err e) => (spent, Err e)
      | (spent, Ok claims) =>
          match present_all spent references with (spent, Ok evidence) => (spent, Ok (claims ++ evidence)) | (spent, Err e) => (spent, Err e) end
      end
  end.
Definition resolve_evidence (node : GraphNode) (conditions : list Condition) (spent : Z) : Z * result (halt EvidenceError) (list Claim) :=
  if decide (width_max 32 < Z.of_nat local) then (spent, Err (Refuses EvidenceErr.TooManyNodes)) else
  let required := judged_here conditions in
  match check_evidence_presence required node node_index with
  | Err e => (spent, Err (Refuses e))
  | Ok _ =>
      match present_all spent (gn_evidence node) with
      | (spent, Ok evidence) => (spent, _ ← refuse (judge_presented required evidence node_index); Ok evidence)
      | (spent, Err e) => (spent, Err e)
      end
  end.
End resolve.

(** ** What may be presented *)

Section held.
Context (flat : Flattened) (flat_of : list (list nat)) (proven : list (list Claim)).

Definition proven_by (intent node : nat) (c : Claim) : Prop := ∃ q cs, flat_at flat_of intent node = Some q ∧ proven !! q = Some cs ∧ c ∈ cs.
(** A claim a node may present: of an account its intent acts as, proven by an earlier node of its intent, or the very
    claim one of its intent's sockets declares, handed down to it as an account or by a node that proved it. *)
Definition may_present (k local : nat) (i : Intent) (c : Claim) : Prop :=
  (∃ a, a ∈ in_accounts i ∧ c = claim_of_subject a) ∨
  (∃ m, (m < local)%nat ∧ proven_by k m c) ∨
  (∃ s, in_sockets i !! s = Some (Socket.Authority c) ∧
    ((∃ a, handed flat k s (Fill.Account a) ∧ c = claim_of_subject a) ∨ ∃ j m, handed flat k s (Fill.Claim j m) ∧ proven_by j m c)).
End held.

Lemma judge_rules_ok rules evidence node_index : judge_rules rules evidence node_index = Ok () →
  ∀ r, r ∈ rules → ∃ c, map_leaves (claim_leaf evidence node_index) r = Ok c ∧ satisfied_by c evidence = true.
Proof.
  induction rules as [|r rules IH]; intros H r' Hr; [by apply not_elem_of_nil in Hr|]. cbn [judge_rules] in H.
  apply result_bind_ok in H as (c & Hc & H). destruct (satisfied_by c evidence) eqn:E; [|done].
  apply elem_of_cons in Hr as [->|Hr]; [by exists c|by apply IH].
Qed.
Lemma judge_presented_ok conditions evidence node_index : judge_presented (judged_here conditions) evidence node_index = Ok () →
  ∀ x, x ∈ conditions → rule_judged (c_rule x) = AtAdmission →
  ∃ c, map_leaves (claim_leaf evidence node_index) (c_rule x) = Ok c ∧ satisfied_by c evidence = true.
Proof.
  intros H x Hx Hj. eapply judge_rules_ok; [exact H|]. unfold judged_here. rewrite !list_elem_of_filter. split; [done|]. rewrite Hj. split; [done|].
  apply list_elem_of_fmap. by exists x.
Qed.

Section presented.
Context (flat : Flattened) (W : well_composed flat) (rs : list Resolution) (R : resolved_right flat rs).
Abbreviation ws := (zip_with wired_of (fl_intents flat) rs).
Context (il : Interleaved) (Hil : interleave ws (total_nodes ws) = Ok il).
Context (p k local : nat) (Hp : il_order il !! p = Some (k, local)).
Context (proven : list (list Claim)) (Hproven : length proven = p).
Context (i : Intent) (r : Resolution) (n : GraphNode).
Context (Hi : fl_intents flat !! k = Some i) (Hr : rs !! k = Some r) (Hn : in_graph i !! local = Some n).

Lemma wired_lookup : ws !! k = Some (wired_of i r).
Proof. apply lookup_zip_with_Some. by exists i, r. Qed.
(** A node emitted before this one is where it was noted, and has been lowered. *)
Lemma emitted_earlier x : x ∈ take p (il_order il) → ∃ q cs, flat_at (il_flat_of il) x.1 x.2 = Some q ∧ proven !! q = Some cs.
Proof.
  intros (q & Hq)%list_elem_of_lookup. apply lookup_take_Some in Hq as [Hq Hlt]. destruct x as [j m].
  pose proof (interleave_spec ws) as Hs. rewrite Hil in Hs. destruct Hs as [_ Hs]. apply Hs in Hq as (l & Hl & Hlm & _).
  destruct (lookup_lt_is_Some_2 proven q) as [cs Hcs]; [lia|]. exists q, cs. split; [|done]. unfold flat_at. cbn. by rewrite Hl.
Qed.
Lemma settled_here : settled_before ws (il_order il) p (k, local).
Proof. pose proof (interleave_spec ws) as Hs. rewrite Hil in Hs. destruct Hs as [V _]. by apply (vo_after _ _ V). Qed.
Lemma present_one_held node_index spent reference : reference ∈ gn_evidence n →
  match (present_one (il_flat_of il) proven k local i (wired_of i r) node_index spent reference).2 with
  | Ok claims => ∀ c, c ∈ claims → may_present flat (il_flat_of il) proven k local i c
  | Err Panics => False
  | Err (Refuses _) => True
  end.
Proof.
  intros Href. destruct settled_here as [Hauthor Hwaits]. destruct reference as [a|m|s]; cbn [present_one].
  - cbn [snd]. case_decide as Ha; [done|]. intros c ->%list_elem_of_singleton. left. by exists a.
  - case_decide as Hm; [done|]. destruct (emitted_earlier (k, m)) as (q & cs & Hq & Hcs); [apply Hauthor; cbn; lia|]. cbn in Hq. rewrite Hq, Hcs.
    destruct cs as [|c0 cs]; [done|]. unfold envelope_spend. case_decide; cbn; [done|]. intros c Hc. right. left. exists m. split; [lia|]. by exists q, (c0 :: cs).
  - cbn [snd wr_sockets wired_of]. destruct (in_sockets i !! s) as [[res cs|wanted]|] eqn:Es; [done| |done]. unfold wired_fill. cbn [wr_resolution wired_of].
    destruct (rs_fills r !! s) as [f|] eqn:Ef; [|done]. destruct (rr_fills _ _ R k i r Hi Hr) as [_ Hf]. specialize (Hf s _ f Es Ef).
    destruct f as [pr th|j m|a]; [done| |].
    + destruct (emitted_earlier (j, m)) as (q & cs & Hq & Hcs).
      { apply (Hwaits (wired_of i r) n); [apply wired_lookup|done|]. unfold node_waits. apply elem_of_app. left. apply list_elem_of_omap.
        exists s. split; [|unfold wired_fill; cbn; by rewrite Ef]. unfold node_sockets. apply elem_of_app. right. apply list_elem_of_omap. by exists (ClaimRef.Socket s). }
      cbn in Hq. rewrite Hq, Hcs. cbn. case_decide as Hw; [|done]. intros c ->%list_elem_of_singleton. right. right. exists s. split; [done|]. right.
      exists j, m. split; [exact Hf|]. by exists q, cs.
    + destruct Hf as [-> Hh]. intros c ->%list_elem_of_singleton. right. right. exists s. split; [done|]. left. by exists a.
Qed.
Lemma present_all_held node_index references : ∀ spent, references ⊆ gn_evidence n →
  match (present_all (il_flat_of il) proven k local i (wired_of i r) node_index spent references).2 with
  | Ok claims => ∀ c, c ∈ claims → may_present flat (il_flat_of il) proven k local i c
  | Err Panics => False
  | Err (Refuses _) => True
  end.
Proof.
  induction references as [|x references IH]; intros spent Hsub; [intros c Hc; by apply not_elem_of_nil in Hc|]. cbn [present_all].
  pose proof (present_one_held node_index spent x ltac:(apply Hsub; by left)) as Hx. destruct (present_one _ _ _ _ _ _ _ _ _) as [spent1 [claims|[e|]]]; [|done|done].
  specialize (IH spent1 ltac:(intros y Hy; apply Hsub; by right)). destruct (present_all _ _ _ _ _ _ _ _ _) as [spent2 [evidence|[e|]]]; [|done|done].
  cbn in *. intros c [Hc|Hc]%elem_of_app; [by apply Hx|by apply IH].
Qed.
End presented.

(** C25: Nobody presents authority they were not given. At any node of an admitted order, the evidence a node presents
    resolves without a panic, and where it resolves every claim in it is one the node's intent may present: of an account
    the intent acts as, proven by an earlier node of the same intent, or the very claim one of its sockets declares,
    handed down from an intent above that acts as the account or by a node above that proved it, lowered by then. Every
    rule admission judges is satisfied by what was presented. *)
Theorem evidence_held root flat rs il p k local proven i r n node_index conditions spent :
  flatten root = Ok flat → resolve_tree flat = Ok rs →
  interleave (zip_with wired_of (fl_intents flat) rs) (total_nodes (zip_with wired_of (fl_intents flat) rs)) = Ok il →
  il_order il !! p = Some (k, local) → length proven = p →
  fl_intents flat !! k = Some i → rs !! k = Some r → in_graph i !! local = Some n →
  match (resolve_evidence (il_flat_of il) proven k local i (wired_of i r) node_index n conditions spent).2 with
  | Ok evidence => (∀ c, c ∈ evidence → may_present flat (il_flat_of il) proven k local i c) ∧
      ∀ x, x ∈ conditions → rule_judged (c_rule x) = AtAdmission →
        ∃ rule, map_leaves (claim_leaf evidence node_index) (c_rule x) = Ok rule ∧ satisfied_by rule evidence = true
  | Err Panics => False
  | Err (Refuses _) => True
  end.
Proof.
  intros [_ W]%flatten_composed Hres Hil Hp Hproven Hi Hr Hn. pose proof (resolve_tree_fits flat W) as R. rewrite Hres in R.
  unfold resolve_evidence. destruct (decide _); [done|]. cbn zeta. destruct (check_evidence_presence _ _ _); [|done].
  pose proof (present_all_held flat rs R il Hil p k local Hp proven Hproven i r n Hi Hr Hn node_index (gn_evidence n) spent ltac:(done)) as Ha.
  destruct (present_all _ _ _ _ _ _ _ _ _) as [spent' [evidence|[e|]]]; [|done|done]. cbn [snd] in *.
  destruct (judge_presented _ _ _) as [[]|e] eqn:Ej; [|done]. cbn. split; [exact Ha|]. by apply judge_presented_ok.
Qed.

(** The inner member of the sample tree presents its composer's account, once the first node of the root is lowered. *)
Definition sample_resolutions : list Resolution := match resolve_tree (walk_tree sample_root) with Ok rs => rs | Err _ => [] end.
Definition sample_wired : list Wired := zip_with wired_of (fl_intents (walk_tree sample_root)) sample_resolutions.
Definition sample_order : Interleaved := match interleave sample_wired (total_nodes sample_wired) with Ok il => il | Err _ => {| il_flat_of := []; il_order := [] |} end.
Definition sample_condition : Condition := {| c_rule := Require (JudgedLeaf.Claimed (claim_of_subject (sample_subject 1))); c_node := None |}.
Lemma evidence_held_witness : ∃ r n,
  (resolve_evidence (il_flat_of sample_order) [[]] 2 0 sample_leaf (wired_of sample_leaf r) 1 n [sample_condition] 0).2 = Ok [claim_of_subject (sample_subject 1)] ∧
  may_present (walk_tree sample_root) (il_flat_of sample_order) [[]] 2 0 sample_leaf (claim_of_subject (sample_subject 1)).
Proof.
  destruct (sample_resolutions !! 2%nat) as [r|] eqn:Er; [|vm_compute in Er; discriminate]. destruct (in_graph sample_leaf !! 0%nat) as [n|] eqn:En; [|discriminate].
  exists r, n. assert (Hx : (resolve_evidence (il_flat_of sample_order) [[]] 2 0 sample_leaf (wired_of sample_leaf r) 1 n [sample_condition] 0).2 = Ok [claim_of_subject (sample_subject 1)]).
  { injection En as <-. vm_compute in Er. injection Er as <-. vm_compute. reflexivity. }
  split; [exact Hx|]. assert (E1 : flatten sample_root = Ok (walk_tree sample_root)) by (vm_compute; reflexivity).
  assert (E2 : resolve_tree (walk_tree sample_root) = Ok sample_resolutions) by (vm_compute; reflexivity).
  assert (E3 : interleave sample_wired (total_nodes sample_wired) = Ok sample_order) by (vm_compute; reflexivity).
  assert (E4 : il_order sample_order !! 1%nat = Some (2, 0)%nat) by (vm_compute; reflexivity).
  assert (E5 : fl_intents (walk_tree sample_root) !! 2%nat = Some sample_leaf) by (vm_compute; reflexivity).
  pose proof (evidence_held sample_root (walk_tree sample_root) sample_resolutions sample_order 1 2 0 [[]] sample_leaf r n 1 [sample_condition] 0 E1 E2 E3 E4 eq_refl E5 Er En) as H.
  rewrite Hx in H. destruct H as [H _]. apply H. by left.
Defined.
