(* ===== verification/Star.v ===== *)
(** * The star classifier ([crates/effects/src/star.rs], [crates/types/src/legs.rs])

    How the shards of a routed transaction divide its execution. The shape of every
    node is read off the admitted manifest; a placement settles the roles, names
    the core's shards and every value edge that crosses, and decides whether the
    transaction runs divided or whole. The placement is the source's
    [ShardResolver] seam ([crates/effects/src/route.rs]), a parameter here. *)

From S2P Require Import Prelude WideMath Types Effects Conflict Modes Hbor Cells Writes Ledger Store Overlay Groups Capability Outcomes Rules Values Buckets Supply Session Grants Seals Conservation Receipt Closing Legs Locality Materialize Dsl Bounds Executor Walk.

(** ** The routing manifest, and what admission records of it *)

Module NodeInput.
Inductive NodeInput :=
  | Literal (v : Value)
  | Edge (source output : nat) (resource : ResourceAddr) (content : EdgeContent) (bounds : Walk.Bounds).
End NodeInput.
Abbreviation NodeInput := NodeInput.NodeInput.
Record Node := { nd_target : Address; nd_method : bytes; nd_inputs : list NodeInput; nd_evidence : list Claim }.
Abbreviation Manifest := (list Node).

Section signature.
Context (s : MethodSignature).

Definition declared_clauses : list Clause := ms_effects s ≫= clause_effects.
(** The walk of [is_reservation_shaped]: [None] is its early return. *)
Fixpoint reserves_of (clauses : list Clause) (reserves : nat) : option nat :=
  match clauses with
  | [] => Some reserves
  | Cl.Effect _ _ mode _ reach :: clauses =>
      match mode_expr_moves mode with
      | None => reserves_of clauses reserves
      | Some _ =>
          match mode, reach with
          | Me.Reserve _, None => reserves_of clauses (S reserves)
          | _, _ => None
          end
      end
  | _ :: clauses => reserves_of clauses reserves
  end.
Definition is_reservation_shaped : bool :=
  if negb (bool_decide (ms_issues s = [])) || negb (bool_decide (ms_destroys s = [])) || negb (bool_decide (length (ms_outputs s) = 1%nat))
  then false
  else bool_decide (reserves_of declared_clauses 0 = Some 1%nat).
Definition clause_reads (c : Clause) : bool :=
  match c with Cl.Effect _ _ mode _ _ => bool_decide (mode_expr_moves mode = None) | _ => true end.
Definition commits_nothing : bool :=
  bool_decide (length (ms_outputs s) = 0%nat) && bool_decide (length (ms_issues s) = 0%nat) && bool_decide (ms_destroys s = []) &&
  forallb clause_reads declared_clauses.
(** The one shape the kernel deposits itself, matched in place of the source's [==] on it. *)
Definition is_vault_deposit : bool :=
  negb (ms_declines s) && negb (ms_answers s) &&
  match ms_params s, ms_abi s, ms_effects s, ms_outputs s, ms_issues s, ms_destroys s with
  | [ParamType.Bucket], [AbiHandle 0 0; AbiBucket 0],
    [Cl.Effect None (Te.Point (Ex.ChildKey Ex.SelfAddr (Fixed slot) [Ex.ResourceOf (Ex.Arg 0)])) (Me.Delta In) (Some (Ex.ResourceOf (Ex.Arg 0))) None],
    [], [], [] => bool_decide (slot = VAULT)
  | _, _, _, _, _, _ => false
  end.
End signature.

Record NodeOrigin := {
  no_intent : IntentHash;
  no_local : Z;
  no_reservation_shaped : bool;
  no_commits_nothing : bool;
  no_vault_deposit : bool;
}.
Definition origin_of_node (intent : IntentHash) (local : Z) (s : MethodSignature) : NodeOrigin := {|
  no_intent := intent; no_local := local; no_reservation_shaped := is_reservation_shaped s;
  no_commits_nothing := commits_nothing s; no_vault_deposit := is_vault_deposit s |}.
Definition origin_unsigned (local : Z) : NodeOrigin := {|
  no_intent := 0; no_local := local; no_reservation_shaped := false; no_commits_nothing := false; no_vault_deposit := false |}.

Record FrameDeclaration := { fr_node : Z; fr_ordered : list DeclaredAccess }.
(** The parts of an admitted transaction routing reads. *)
Record AdmittedTx := {
  ad_manifest : Manifest;
  ad_frames : list FrameDeclaration;
  ad_calls : list NodeCall;
  ad_declaration : Declaration;
  ad_origins : list NodeOrigin;
}.
Definition declares (a : AdmittedTx) : list (list Address) :=
  (λ frame, (λ access, target_owner (target (da_effect access))) <$> fr_ordered frame) <$> ad_frames a.
Definition answered_at_admission (a : AdmittedTx) : list bool :=
  foldl (λ answered c, match c_node c with Some node => <[Z.to_nat node := false]> answered | None => answered end)
    ((λ call, forallb (λ rule, bool_decide (rule_judged rule = AtAdmission)) (nc_requires call)) <$> ad_calls a)
    (dc_conditions (ad_declaration a)).

(** ** Shapes *)

Inductive LegRole := Inbound | Core | Outbound | Attesting.
#[global] Instance LegRole_eq_dec : EqDecision LegRole.
Proof. solve_decision. Defined.
Record ValueEdge := { ve_source : nat; ve_output : nat; ve_non_fungible : bool }.
Record LegShape := {
  lg_target : Address;
  lg_role : LegRole;
  lg_edges : list ValueEdge;
  lg_presents : list Address;
  lg_declares : list Address;
  lg_intent : IntentHash;
  lg_local : Z;
}.
Definition of_edge (producer : LegShape) (consumer : Address) (output : nat) : CrossingId := {|
  x_producer := lg_target producer; x_consumer := consumer; x_intent := lg_intent producer; x_local := lg_local producer;
  x_output := Z.of_nat output |}.

Definition input_source (i : NodeInput) : option nat :=
  match i with NodeInput.Edge source _ _ _ _ => Some source | NodeInput.Literal _ => None end.
Definition origin_at (origins : list NodeOrigin) (index : nat) : NodeOrigin :=
  default (origin_unsigned (Z.of_nat index)) (origins !! index).
Definition takes_no_edge (n : Node) : bool := forallb (λ i, bool_decide (input_source i = None)) (nd_inputs n).
Definition unrefusable (origin : NodeOrigin) (answered : bool) (n : Node) : bool :=
  no_vault_deposit origin && answered &&
  forallb (λ i, match i with NodeInput.Edge _ _ _ _ bounds => admit_anything bounds | NodeInput.Literal _ => true end) (nd_inputs n).
Definition classify_role (consumed : gset nat) (origins : list NodeOrigin) (answered : list bool) (index : nat) (n : Node) : LegRole :=
  let origin := origin_at origins index in
  if takes_no_edge n && no_reservation_shaped origin then Inbound
  else if takes_no_edge n && no_commits_nothing origin then Attesting
  else if bool_decide (index ∉ consumed) && unrefusable origin (default false (answered !! index)) n then Outbound
  else Core.
Definition consumed_nodes (m : Manifest) : gset nat := list_to_set (m ≫= λ n, omap input_source (nd_inputs n)).
Definition classify_roles (m : Manifest) (origins : list NodeOrigin) (answered : list bool) : list LegRole :=
  imap (classify_role (consumed_nodes m) origins answered) m.

Definition value_edge (i : NodeInput) : option ValueEdge :=
  match i with
  | NodeInput.Edge source output _ content _ => Some {| ve_source := source; ve_output := output;
      ve_non_fungible := match content with EdgeContent.NonFungible _ => true | EdgeContent.Fungible => false end |}
  | NodeInput.Literal _ => None
  end.
Definition assemble_leg (roles : list LegRole) (origins : list NodeOrigin) (declared : list (list Address)) (index : nat) (n : Node) : LegShape :=
  let origin := origin_at origins index in {|
  lg_target := nd_target n;
  lg_role := default Core (roles !! index);
  lg_edges := omap value_edge (nd_inputs n);
  lg_presents := subject <$> nd_evidence n;
  lg_declares := default [nd_target n] (declared !! index);
  lg_intent := no_intent origin;
  lg_local := no_local origin |}.
Definition assemble_legs (m : Manifest) (roles : list LegRole) (origins : list NodeOrigin) (declared : list (list Address)) : list LegShape :=
  imap (assemble_leg roles origins declared) m.
Definition legs_of (a : AdmittedTx) : list LegShape :=
  let roles := classify_roles (ad_manifest a) (ad_origins a) (answered_at_admission a) in
  assemble_legs (ad_manifest a) roles (ad_origins a) (declares a).

(** ** A star at a placement *)

Section star.
Context {S : Type} `{Countable S}.

Record CrossingEdge := {
  ce_producer : nat;
  ce_output : nat;
  ce_consumer : nat;
  ce_from : S;
  ce_to : gset S;
  ce_crossing : Crossing;
}.
Record Star := {
  st_roles : list LegRole;
  st_homes : list S;
  st_core : gset S;
  st_edges : list CrossingEdge;
  st_decomposes : bool;
}.

Definition role_at (roles : list LegRole) (node : nat) : LegRole := default Core (roles !! node).
Definition running_at (roles : list LegRole) (homes : list S) (core : gset S) (node : nat) : gset S :=
  match role_at roles node with
  | Core => core
  | Inbound | Outbound | Attesting => match homes !! node with Some home => {[home]} | None => ∅ end
  end.
Definition delivered_at (edges : list CrossingEdge) (node : nat) (shard : S) : bool :=
  existsb (λ e, bool_decide (crossing_kind (ce_crossing e) = Owed) && bool_decide (ce_consumer e = node) && bool_decide (shard ∈ ce_to e)) edges.
Definition committing_at (roles : list LegRole) (homes : list S) (core : gset S) (edges : list CrossingEdge) : gset S :=
  ⋃ ((λ node, filter (λ shard, delivered_at edges node shard = false) (running_at roles homes core node)) <$> seq 0 (length homes)).

Definition star_role (s : Star) (node : nat) : LegRole := role_at (st_roles s) node.
Definition star_running (s : Star) (node : nat) : gset S := running_at (st_roles s) (st_homes s) (st_core s) node.
Definition delivers_at (s : Star) (node : nat) (shard : S) : bool := delivered_at (st_edges s) node shard.
Definition star_committing (s : Star) : gset S := committing_at (st_roles s) (st_homes s) (st_core s) (st_edges s).
Definition star_whole : Star := {| st_roles := []; st_homes := []; st_core := ∅; st_edges := []; st_decomposes := false |}.
End star.
Arguments CrossingEdge S {_ _}.
Arguments Star S {_ _}.

Definition edge_map_shards {S T} `{Countable S, Countable T} (f : S → T) (e : CrossingEdge S) : CrossingEdge T := {|
  ce_producer := ce_producer e; ce_output := ce_output e; ce_consumer := ce_consumer e; ce_from := f (ce_from e);
  ce_to := set_map f (ce_to e); ce_crossing := ce_crossing e |}.
Definition map_shards {S T} `{Countable S, Countable T} (f : S → T) (s : Star S) : Star T := {|
  st_roles := st_roles s; st_homes := f <$> st_homes s; st_core := set_map f (st_core s);
  st_edges := edge_map_shards f <$> st_edges s; st_decomposes := st_decomposes s |}.

(** ** Placement *)

Abbreviation ShardId := Z (only parsing).

Section placement.
Context (shard_of : Address → ShardId).

Definition is_principal (a : Address) : bool := bool_decide (address_class a = Some Principal).
Definition acts_as_a_stranger (here : ShardId) (node : LegShape) : bool :=
  existsb (λ s, is_principal s && bool_decide (shard_of s ≠ here)) (lg_presents node).
Definition names_me (legs : list LegShape) (node : LegShape) (s : Address) : bool :=
  negb (is_principal s) && (bool_decide (s = lg_target node) || negb (existsb (λ other, bool_decide (lg_target other = s)) legs)).
Definition stays_home (legs : list LegShape) (homes : list ShardId) (here : ShardId) (node : LegShape) : bool :=
  forallb (λ '(other, home), bool_decide (home = here) || negb (existsb (names_me legs node) (lg_presents other))) (zip legs homes).
(** The two passes over the nodes; each reads the role it replaces and no other. *)
Definition settle_presented (here : ShardId) (node : LegShape) : LegRole :=
  if acts_as_a_stranger here node then Core else lg_role node.
Definition settle_attesting (legs : list LegShape) (homes : list ShardId) (here : ShardId) (node : LegShape) (role : LegRole) : LegRole :=
  if decide (role = Attesting) then if stays_home legs homes here node then role else Core else role.
Definition core_homes (roles : list LegRole) (homes : list ShardId) : gset ShardId :=
  list_to_set (omap (λ '(role, home), if decide (role = Core) then Some home else None) (zip roles homes)).
Definition settle_legs (legs : list LegShape) (homes : list ShardId) (payer_home : ShardId) : list LegRole :=
  let settled := zip_with (λ node here, settle_attesting legs homes here node (settle_presented here node)) legs homes in
  let core := core_homes settled homes in
  let core := if decide (core = ∅ ∧ payer_home ∈ homes) then core ∪ {[payer_home]} else core in
  zip_with (λ role home, if decide (home ∈ core) then Core else role) settled homes.

Section placed.
Context (legs : list LegShape) (roles : list LegRole) (homes : list ShardId) (core : gset ShardId).
Let role (node : nat) : LegRole := role_at roles node.
Let running (node : nat) : gset ShardId := running_at roles homes core node.

(** One consumed edge: [None] where it names no node or crosses nothing. The home of a producer in range is there;
    [0] is the index out of range the source would panic on. *)
Definition crossing_of (consumer : nat) (node : LegShape) (edge : ValueEdge) : option (CrossingEdge ShardId) :=
  producer ← legs !! ve_source edge;
  let to := running consumer ∖ running (ve_source edge) in
  if decide (to = ∅) then None
  else
    let kind := if decide (role consumer = Outbound) then Owed else Escrowed in
    Some {| ce_producer := ve_source edge; ce_output := ve_output edge; ce_consumer := consumer;
            ce_from := default 0 (homes !! ve_source edge); ce_to := to;
            ce_crossing := {| crossing_id := of_edge producer (lg_target node) (ve_output edge); crossing_kind := kind |} |}.
Definition edge_le (a b : CrossingEdge ShardId) : Prop :=
  (ce_producer a < ce_producer b ∨ ce_producer a = ce_producer b ∧ ce_output a ≤ ce_output b)%nat.
#[global] Instance edge_le_dec : RelDecision edge_le.
Proof. intros a b. unfold edge_le. apply _. Defined.
Definition crossing_edges : list (CrossingEdge ShardId) :=
  merge_sort edge_le (concat (imap (λ consumer node, omap (crossing_of consumer node) (lg_edges node)) legs)).

Definition core_bears_a_verdict : bool := bool_decide (core ≠ ∅).
Definition a_leg_sits_off_the_core : bool :=
  existsb (λ '(r, home), bool_decide (r ≠ Core) && bool_decide (home ∉ core)) (zip roles homes).
Definition crossings_fit (edges : list (CrossingEdge ShardId)) : bool := bool_decide (length edges ≤ MAX_CROSSINGS_PER_TX)%nat.
Definition every_route_owner_commits (committing : gset ShardId) (payer : Address) (accounts : list Address) : bool :=
  forallb (λ owner, bool_decide (shard_of owner ∈ committing)) (payer :: accounts).
Definition awaited_by_core (edges : list (CrossingEdge ShardId)) : gset ShardId :=
  core ∪ list_to_set (ce_from <$> List.filter (λ e, bool_decide (role (ce_consumer e) = Core)) edges).
Definition every_account_is_awaited (accounts : list Address) (edges : list (CrossingEdge ShardId)) : bool :=
  forallb (λ account, bool_decide (shard_of account ∈ awaited_by_core edges)) accounts.
Definition every_node_declares_inside_its_scope : bool :=
  forallb (λ '(r, node, home), forallb (λ owner,
    match r with
    | Core => bool_decide (shard_of owner ∈ core)
    | Inbound | Outbound | Attesting => bool_decide (shard_of owner = home)
    end) (lg_declares node)) (zip (zip roles legs) homes).
Definition consumer_counts : gmap (nat * nat) nat :=
  foldl (λ counts e, let key := (ve_source e, ve_output e) in <[key := (default 0 (counts !! key) + 1)%nat]> counts) ∅ (legs ≫= lg_edges).
Definition every_edge_has_one_consumer : bool := bool_decide (map_Forall (λ _ count, count ≤ 1)%nat consumer_counts).
Definition is_leg (node : nat) : bool := bool_decide (role node ≠ Core).
Definition no_named_instance_touches_a_leg : bool :=
  forallb id (imap (λ index node, forallb (λ e, negb (ve_non_fungible e) || negb (is_leg index || is_leg (ve_source e))) (lg_edges node)) legs).
Definition beside (home : ShardId) (leg : LegShape) : gset bool :=
  list_to_set ((λ e, bool_decide (home ∈ running (ve_source e))) <$> lg_edges leg).
Definition no_sink_is_fed_from_both_sides : bool :=
  forallb id (imap (λ node leg,
    if decide (role node ≠ Outbound) then true else bool_decide (size (beside (default 0%Z (homes !! node)) leg) ≤ 1)%nat) legs).
Definition decomposes (payer : Address) (accounts : list Address) (edges : list (CrossingEdge ShardId)) : bool :=
  let committing := committing_at roles homes core edges in
  core_bears_a_verdict && a_leg_sits_off_the_core && crossings_fit edges && every_route_owner_commits committing payer accounts &&
  every_account_is_awaited accounts edges && every_node_declares_inside_its_scope && every_edge_has_one_consumer &&
  no_named_instance_touches_a_leg && no_sink_is_fed_from_both_sides.
End placed.

Definition star_at (legs : list LegShape) (payer : Address) (accounts : list Address) : Star ShardId :=
  let homes := (λ node, shard_of (lg_target node)) <$> legs in
  let roles := settle_legs legs homes (shard_of payer) in
  let core := core_homes roles homes in
  let edges := crossing_edges legs roles homes core in
  {| st_roles := roles; st_homes := homes; st_core := core; st_edges := edges;
     st_decomposes := decomposes legs roles homes core payer accounts edges |}.
End placement.

(** The uniform trie of [PrefixShardResolver], and the projection of a declaration onto a topology; [None] is the
    [expect] on the fold. *)
Definition prefix_shard_of (bits : Z) (o : Address) : ShardId :=
  let depth := Z.min bits 63 in
  let head := be_val (take 8 (address_to_bytes o)) in
  let path := if decide (64 - depth < 64) then Z.shiftr head (64 - depth) else 0 in
  Z.lor (Z.shiftl 1 depth) path.
Fixpoint per_shard_fold (shard_of : Address → ShardId) (set : EffectSet) (ordered : list DeclaredAccess) (out : gmap ShardId EffectSet) :
    option (gmap ShardId EffectSet) :=
  match ordered with
  | [] => Some out
  | access :: ordered =>
      let shard := shard_of (target_owner (target (da_effect access))) in
      match insert_from (default effects_new (out !! shard)) (da_effect access) set with
      | (s, Ok _) => per_shard_fold shard_of set ordered (<[shard := s]> out)
      | (_, Err _) => None
      end
  end.
Definition per_shard (a : AdmittedTx) (shard_of : Address → ShardId) : option (gmap ShardId EffectSet) :=
  per_shard_fold shard_of (dc_set (ad_declaration a)) (dc_ordered (ad_declaration a)) ∅.

(** ** What placement settles *)

Section settled.
Context (shard_of : Address → ShardId) (legs : list LegShape) (payer : Address) (accounts : list Address).
Abbreviation the_star := (star_at shard_of legs payer accounts).
Abbreviation home_of := (λ node, shard_of (lg_target node)).

Lemma core_homes_spec (roles : list LegRole) homes s :
  s ∈ core_homes roles homes ↔ ∃ i : nat, roles !! i = Some Core ∧ homes !! i = Some s.
Proof.
  unfold core_homes. rewrite elem_of_list_to_set, list_elem_of_omap. split.
  - intros ([r h] & (i & Hi)%list_elem_of_lookup & E). apply lookup_zip_with_Some in Hi as (x & y & [= -> ->] & Hr & Hh).
    destruct (decide _) as [->|]; [|done]. injection E as ->. by exists i.
  - intros (i & Hr & Hh). exists (Core, s). split; [|by rewrite decide_True].
    apply list_elem_of_lookup. exists i. apply lookup_zip_with_Some. by exists Core, s.
Qed.
Lemma homes_lookup i : st_homes the_star !! i = home_of <$> legs !! i.
Proof. cbn. apply list_lookup_fmap. Qed.
Lemma homes_some i n : legs !! i = Some n → st_homes the_star !! i = Some (home_of n).
Proof. intros E. by rewrite homes_lookup, E. Qed.

(** A node's role after the two passes, before the core takes the legs beside it. *)
Definition presettled (n : LegShape) : LegRole :=
  settle_attesting legs (home_of <$> legs) (home_of n) n (settle_presented shard_of (home_of n) n).
Definition presettled_core : gset ShardId :=
  let core := list_to_set (omap (λ n, if decide (presettled n = Core) then Some (home_of n) else None) legs) in
  if decide (core = ∅ ∧ shard_of payer ∈ home_of <$> legs) then core ∪ {[shard_of payer]} else core.
Lemma presettled_homes :
  core_homes (presettled <$> legs) (home_of <$> legs) =
  list_to_set (omap (λ n, if decide (presettled n = Core) then Some (home_of n) else None) legs).
Proof. unfold core_homes. f_equal. induction legs as [|n l IH] in |- *; [done|]. cbn. by rewrite IH. Qed.
Lemma zip_with_fmap_same {A B C} (f : A → B → C) (g : A → B) (l : list A) : zip_with f l (g <$> l) = (λ x, f x (g x)) <$> l.
Proof. induction l as [|x l IH]; [done|]. cbn. by rewrite IH. Qed.
Lemma roles_settled :
  st_roles the_star = (λ n, if decide (home_of n ∈ presettled_core) then Core else presettled n) <$> legs.
Proof.
  cbn [st_roles star_at]. unfold settle_legs.
  assert (zip_with (λ n here, settle_attesting legs (home_of <$> legs) here n (settle_presented shard_of here n)) legs (home_of <$> legs) = presettled <$> legs) as ->
    by exact (zip_with_fmap_same (λ n here, settle_attesting legs (home_of <$> legs) here n (settle_presented shard_of here n)) home_of legs).
  rewrite presettled_homes. cbv zeta. fold presettled_core.
  rewrite zip_with_fmap_l. exact (zip_with_fmap_same (λ n h, if decide (h ∈ presettled_core) then Core else presettled n) home_of legs).
Qed.
Lemma role_some i n : legs !! i = Some n →
  st_roles the_star !! i = Some (if decide (home_of n ∈ presettled_core) then Core else presettled n).
Proof. intros E. by rewrite roles_settled, list_lookup_fmap, E. Qed.
Lemma role_settled i n : legs !! i = Some n →
  star_role the_star i = if decide (home_of n ∈ presettled_core) then Core else presettled n.
Proof. intros E. unfold star_role, role_at. by rewrite (role_some i n E). Qed.
Lemma role_lookup i n : legs !! i = Some n → st_roles the_star !! i = Some (star_role the_star i).
Proof. intros E. unfold star_role, role_at. by rewrite (role_some i n E). Qed.
Lemma role_past i : legs !! i = None → star_role the_star i = Core.
Proof. intros E. unfold star_role, role_at. by rewrite roles_settled, list_lookup_fmap, E. Qed.

(** The core's shards are those it had before its neighbours joined it. *)
Lemma core_presettled s : s ∈ st_core the_star → s ∈ presettled_core.
Proof.
  cbn [st_core star_at]. intros (i & Hr & Hh)%core_homes_spec. change (settle_legs _ _ _ _) with (st_roles the_star) in Hr.
  rewrite list_lookup_fmap in Hh. destruct (legs !! i) as [n|] eqn:En; [|done]. injection Hh as <-.
  rewrite (role_some i n En) in Hr. injection Hr as Hr. destruct (decide _) as [|Hn]; [done|].
  exfalso. apply Hn. unfold presettled_core. assert (Hin : home_of n ∈ list_to_set (C := gset ShardId)
    (omap (λ n, if decide (presettled n = Core) then Some (home_of n) else None) legs)).
  { apply elem_of_list_to_set, list_elem_of_omap. exists n. split; [by eapply list_elem_of_lookup_2|by rewrite decide_True]. }
  cbv zeta. destruct (decide _); set_solver.
Qed.
Lemma leg_off_core i n : legs !! i = Some n → star_role the_star i ≠ Core →
  home_of n ∉ st_core the_star ∧ star_running the_star i = {[home_of n]} ∧ star_role the_star i = presettled n.
Proof.
  intros E Hr. rewrite (role_settled i n E) in Hr. destruct (decide _) as [|Hn] eqn:Ed; [done|]. split; [|split].
  - intros Hc%core_presettled. done.
  - unfold star_running, running_at. change (role_at _ i) with (star_role the_star i). rewrite (role_settled i n E), Ed, (homes_some i n E).
    by destruct (presettled n).
  - by rewrite (role_settled i n E), Ed.
Qed.
Lemma core_running i : star_role the_star i = Core → star_running the_star i = st_core the_star.
Proof. intros E. unfold star_running, running_at. change (role_at _ i) with (star_role the_star i). by rewrite E. Qed.
Lemma home_runs i n : legs !! i = Some n → home_of n ∈ star_running the_star i.
Proof.
  intros E. destruct (decide (star_role the_star i = Core)) as [Hr|Hr].
  - rewrite (core_running i Hr). cbn [st_core star_at]. apply core_homes_spec. exists i. split.
    + change (settle_legs _ _ _ _) with (st_roles the_star). by rewrite (role_lookup i n E), Hr.
    + apply (homes_some i n E).
  - destruct (leg_off_core i n E Hr) as (_ & -> & _). set_solver.
Qed.
Lemma presettled_kept n : presettled n ≠ Core →
  presettled n = lg_role n ∧ acts_as_a_stranger shard_of (home_of n) n = false ∧
  (presettled n = Attesting → stays_home legs (home_of <$> legs) (home_of n) n = true).
Proof.
  unfold presettled, settle_attesting, settle_presented. destruct (acts_as_a_stranger _ _ n).
  { by rewrite decide_False. }
  destruct (decide _) as [E|E]; [|by intros]. by destruct (stays_home _ _ _ n).
Qed.
Lemma presettled_role n : presettled n = lg_role n ∨ presettled n = Core.
Proof. destruct (decide (presettled n = Core)) as [|Hn]; [by right|]. left. by apply presettled_kept. Qed.
End settled.

(** ** Crossings *)

Section crossings.
Context (shard_of : Address → ShardId) (legs : list LegShape) (payer : Address) (accounts : list Address).
Abbreviation the_star := (star_at shard_of legs payer accounts).
Abbreviation home_of := (λ node, shard_of (lg_target node)).

(** A value edge of the manifest: consumed by node [c], produced by a node of it. *)
Definition wired (c : nat) (n : LegShape) (e : ValueEdge) (p : LegShape) : Prop :=
  legs !! c = Some n ∧ e ∈ lg_edges n ∧ legs !! ve_source e = Some p.
Definition crosses (c : nat) (n : LegShape) (e : ValueEdge) (p : LegShape) (x : CrossingEdge ShardId) : Prop :=
  ce_producer x = ve_source e ∧ ce_output x = ve_output e ∧ ce_consumer x = c ∧ ce_from x = home_of p ∧
  ce_to x = star_running the_star c ∖ star_running the_star (ve_source e) ∧ ce_to x ≠ ∅ ∧
  ce_crossing x = {| crossing_id := of_edge p (lg_target n) (ve_output e);
                     crossing_kind := if decide (star_role the_star c = Outbound) then Owed else Escrowed |}.

Lemma elem_of_concat_imap {A B} (f : nat → A → list B) (l : list A) y :
  y ∈ concat (imap f l) ↔ ∃ i x, l !! i = Some x ∧ y ∈ f i x.
Proof.
  rewrite list_elem_of_In, in_concat. split.
  - intros (ys & (i & Hi)%list_elem_of_In%list_elem_of_lookup & Hy%list_elem_of_In).
    rewrite list_lookup_imap in Hi. destruct (l !! i) as [x|] eqn:E; [|done]. injection Hi as <-. by exists i, x.
  - intros (i & x & E & Hy). exists (f i x). split; [|by apply list_elem_of_In]. apply list_elem_of_In, list_elem_of_lookup. exists i.
    by rewrite list_lookup_imap, E.
Qed.
Lemma crossing_of_spec c n e x : legs !! c = Some n → e ∈ lg_edges n →
  crossing_of legs (st_roles the_star) (st_homes the_star) (st_core the_star) c n e = Some x ↔
  ∃ p, wired c n e p ∧ crosses c n e p x.
Proof.
  intros Ec He. unfold crossing_of, crosses. change (running_at _ _ _ ?i) with (star_running the_star i).
  change (role_at _ c) with (star_role the_star c). destruct (legs !! ve_source e) as [p|] eqn:Ep.
  - rewrite (homes_some shard_of legs payer accounts _ p Ep). cbn. destruct (decide _) as [Hz|Hz].
    + split; [done|]. intros (q & _ & _ & _ & _ & _ & Et & Hne & _). by rewrite Et, Hz in Hne.
    + split.
      * intros [= <-]. exists p. split; [by repeat split|]. by repeat split.
      * intros (q & (_ & _ & [= ->]%(eq_trans (eq_sym Ep))) & E1 & E2 & E3 & E4 & E5 & E6 & E7). destruct x. cbn in *. by subst.
  - cbn. split; [done|]. intros (q & (_ & _ & Eq) & _). by rewrite Ep in Eq.
Qed.
Lemma edges_spec x : x ∈ st_edges the_star ↔ ∃ c n e p, wired c n e p ∧ crosses c n e p x.
Proof.
  change (st_edges the_star) with (crossing_edges legs (st_roles the_star) (st_homes the_star) (st_core the_star)).
  unfold crossing_edges. rewrite merge_sort_Permutation, elem_of_concat_imap. split.
  - intros (c & n & Ec & (e & He & Ex)%list_elem_of_omap). apply (crossing_of_spec c n e x Ec He) in Ex as (p & Hw & Hx). by exists c, n, e, p.
  - intros (c & n & e & p & Hw & Hx). exists c, n. destruct Hw as (Ec & He & Ep). split; [done|].
    apply list_elem_of_omap. exists e. split; [done|]. apply (crossing_of_spec c n e x Ec He). by exists p.
Qed.
Lemma crosses_exists c n e p : wired c n e p → star_running the_star c ∖ star_running the_star (ve_source e) ≠ ∅ →
  ∃ x, x ∈ st_edges the_star ∧ crosses c n e p x.
Proof.
  intros Hw Hne. exists {| ce_producer := ve_source e; ce_output := ve_output e; ce_consumer := c; ce_from := home_of p;
    ce_to := star_running the_star c ∖ star_running the_star (ve_source e);
    ce_crossing := {| crossing_id := of_edge p (lg_target n) (ve_output e);
                      crossing_kind := if decide (star_role the_star c = Outbound) then Owed else Escrowed |} |}.
  split; [|by repeat split]. apply edges_spec. exists c, n, e, p. split; [done|]. by repeat split.
Qed.
Lemma kind_outbound c n e p x : crosses c n e p x → crossing_kind (ce_crossing x) = Owed ↔ star_role the_star c = Outbound.
Proof. intros (_ & _ & _ & _ & _ & _ & ->). cbn. by destruct (decide _). Qed.

Lemma stranger_spec n a : acts_as_a_stranger shard_of (home_of n) n = false → a ∈ lg_presents n → is_principal a = true →
  shard_of a = home_of n.
Proof.
  intros Hs Ha Hp. destruct (decide (shard_of a = home_of n)) as [|Hne]; [done|]. exfalso.
  apply Bool.not_true_iff_false in Hs. apply Hs. apply existsb_exists. exists a. split; [by apply list_elem_of_In|].
  rewrite Hp. by apply bool_decide_eq_true.
Qed.
Lemma stays_home_spec n m a : stays_home legs (home_of <$> legs) (home_of n) n = true → m ∈ legs → a ∈ lg_presents m →
  names_me legs n a = true → home_of m = home_of n.
Proof.
  intros Hs (j & Hj)%list_elem_of_lookup Ha Hn. unfold stays_home in Hs. rewrite forallb_forall in Hs.
  assert (Hin : List.In (m, home_of m) (zip legs (home_of <$> legs))).
  { apply list_elem_of_In, list_elem_of_lookup. exists j. apply lookup_zip_with_Some. exists m, (home_of m).
    split; [done|]. split; [done|]. by rewrite list_lookup_fmap, Hj. }
  specialize (Hs _ Hin). cbn in Hs. apply orb_true_iff in Hs as [E|E]; [by apply bool_decide_eq_true in E|].
  apply negb_true_iff, Bool.not_true_iff_false in E. exfalso. apply E. apply existsb_exists. exists a. split; [by apply list_elem_of_In|done].
Qed.

Lemma leg_role_kept i n : legs !! i = Some n → star_role the_star i ≠ Core →
  star_role the_star i = lg_role n ∧ acts_as_a_stranger shard_of (home_of n) n = false ∧
  (star_role the_star i = Attesting → stays_home legs (home_of <$> legs) (home_of n) n = true).
Proof.
  intros E Hr. destruct (leg_off_core shard_of legs payer accounts i n E Hr) as (_ & _ & Ep). rewrite Ep in *.
  by apply presettled_kept.
Qed.

(** C11: A placement settles a star. A node keeps the role its shape gave it or joins the core; a leg runs on its own
    shard alone and that is no core shard, so no shard is both. A leg presenting an account's claim runs on that
    account's shard; a node presenting what an attesting leg proved runs exactly where the prover does. A value edge
    crosses to precisely the shards that run its consumer without its producer, from a shard that runs the producer,
    and is owed exactly where its consumer is an outbound leg. *)
Theorem star_shape :
  (∀ i n, legs !! i = Some n → star_role the_star i ≠ Core →
    star_role the_star i = lg_role n ∧ star_running the_star i = {[shard_of (lg_target n)]} ∧ shard_of (lg_target n) ∉ st_core the_star ∧
    (∀ a, a ∈ lg_presents n → is_principal a = true → shard_of a = shard_of (lg_target n)) ∧
    (star_role the_star i = Attesting → ∀ j m a, legs !! j = Some m → a ∈ lg_presents m → names_me legs n a = true →
      star_running the_star j = star_running the_star i)) ∧
  (∀ c n e p s, wired c n e p → s ∈ star_running the_star c →
    (∃ x, x ∈ st_edges the_star ∧ crosses c n e p x ∧ s ∈ ce_to x) ↔ s ∉ star_running the_star (ve_source e)) ∧
  (∀ x, x ∈ st_edges the_star → ce_from x ∈ star_running the_star (ce_producer x) ∧ ce_to x ≠ ∅ ∧
    (crossing_kind (ce_crossing x) = Owed ↔ star_role the_star (ce_consumer x) = Outbound)).
Proof.
  split; [|split].
  - intros i n E Hr. destruct (leg_off_core shard_of legs payer accounts i n E Hr) as (Hc & Hrun & _).
    destruct (leg_role_kept i n E Hr) as (Hk & Hs & Hh). split; [done|]. split; [done|]. split; [done|]. split.
    { intros a. by apply stranger_spec. }
    intros Ha j m a Ej Hp Hn. assert (Hhome : home_of m = home_of n).
    { eapply stays_home_spec; [by apply Hh|by eapply list_elem_of_lookup_2|done|done]. }
    destruct (decide (star_role the_star j = Core)) as [Hj|Hj].
    + exfalso. apply Hc. cbv beta in Hhome. rewrite <- Hhome, <- (core_running shard_of legs payer accounts j Hj). by apply home_runs.
    + destruct (leg_off_core shard_of legs payer accounts j m Ej Hj) as (_ & -> & _). by rewrite Hrun, Hhome.
  - intros c n e p s Hw Hs. split.
    + intros (x & _ & (_ & _ & _ & _ & -> & _) & Hx). set_solver.
    + intros Hns. destruct (crosses_exists c n e p Hw) as (x & Hx & Hc); [set_solver|]. exists x. split; [done|]. split; [done|].
      destruct Hc as (_ & _ & _ & _ & -> & _). set_solver.
  - intros x (c & n & e & p & (Ec & He & Ep) & Hx)%edges_spec. pose proof (kind_outbound _ _ _ _ _ Hx) as Hk.
    destruct Hx as (-> & _ & E3 & -> & _ & Hne & _). rewrite E3. split; [by apply home_runs|]. by split.
Qed.
End crossings.

(** ** What the classification fixes *)

Section classified.
Context (a : AdmittedTx).

Lemma legs_lookup i n : legs_of a !! i = Some n → ∃ node, ad_manifest a !! i = Some node ∧
  lg_role n = classify_role (consumed_nodes (ad_manifest a)) (ad_origins a) (answered_at_admission a) i node ∧
  lg_edges n = omap value_edge (nd_inputs node).
Proof.
  unfold legs_of, assemble_legs. rewrite list_lookup_imap. destruct (ad_manifest a !! i) as [node|] eqn:E; [|done]. cbn.
  intros [= <-]. exists node. split; [done|]. cbn. unfold classify_roles. rewrite list_lookup_imap, E. done.
Qed.
Lemma source_leg_takes_nothing i n : legs_of a !! i = Some n → lg_role n = Inbound ∨ lg_role n = Attesting → lg_edges n = [].
Proof.
  intros (node & _ & Er & ->)%legs_lookup Hr. rewrite Er in Hr.
  assert (Ht : takes_no_edge node = true).
  { unfold classify_role in Hr. destruct (takes_no_edge node); [done|]. cbn in Hr. destruct (bool_decide _ && _) in Hr; by destruct Hr. }
  unfold takes_no_edge in Ht. induction (nd_inputs node) as [|x l IH]; [done|]. cbn in Ht. apply andb_true_iff in Ht as [Hx Hl].
  apply bool_decide_eq_true in Hx. cbn. destruct x; [by apply IH|done].
Qed.
Lemma outbound_feeds_nothing c n e i m : legs_of a !! c = Some n → e ∈ lg_edges n → ve_source e = i → legs_of a !! i = Some m →
  lg_role m ≠ Outbound.
Proof.
  intros (node & Hnode & _ & ->)%legs_lookup (inp & Hin & Hv)%list_elem_of_omap <- (mode & _ & -> & _)%legs_lookup.
  assert (Hc : ve_source e ∈ consumed_nodes (ad_manifest a)).
  { unfold consumed_nodes. apply elem_of_list_to_set, list_elem_of_bind. exists node. split; [|by eapply list_elem_of_lookup_2].
    apply list_elem_of_omap. exists inp. split; [done|]. destruct inp; [done|]. by injection Hv as <-. }
  unfold classify_role. rewrite (bool_decide_eq_false_2 (ve_source e ∉ _)) by (intros Hn; by apply Hn). cbn [andb].
  destruct (takes_no_edge mode && no_reservation_shaped _); [discriminate|]. by destruct (takes_no_edge mode && no_commits_nothing _).
Qed.
End classified.

(** ** What dividing relies on *)

Section divided.
Context (shard_of : Address → ShardId) (a : AdmittedTx) (payer : Address) (accounts : list Address).
Abbreviation legs := (legs_of a).
Abbreviation the_star := (star_at shard_of legs payer accounts).
Abbreviation home_of := (λ node, shard_of (lg_target node)).

(** A crossing lands in the core, from off it, or on one outbound leg. *)
Lemma crossing_lands x : x ∈ st_edges the_star →
  crossing_kind (ce_crossing x) = Escrowed ∧ star_role the_star (ce_consumer x) = Core ∧
    star_role the_star (ce_producer x) ≠ Core ∧ ce_to x = st_core the_star ∧ ce_from x ∉ st_core the_star ∨
  crossing_kind (ce_crossing x) = Owed ∧ star_role the_star (ce_consumer x) = Outbound ∧
    ce_to x = star_running the_star (ce_consumer x) ∧ ce_from x ∉ ce_to x.
Proof.
  intros (c & n & e & p & (Ec & He & Ep) & Hx)%edges_spec. pose proof (kind_outbound _ _ _ _ _ _ _ _ _ Hx) as Hk.
  destruct Hx as (-> & _ & -> & -> & Et & Hne & _). destruct (star_role the_star c) eqn:Er; cbn in Hk.
  - destruct (leg_role_kept _ _ _ accounts c n Ec ltac:(by rewrite Er)) as (Hr & _). rewrite Er in Hr.
    rewrite (source_leg_takes_nothing a c n Ec) in He by (by left). set_solver.
  - left. split; [destruct (crossing_kind _); [done|discriminate (proj1 Hk eq_refl)]|]. split; [done|].
    rewrite Et, (core_running _ _ _ _ c Er) in *. destruct (decide (star_role the_star (ve_source e) = Core)) as [Hp|Hp].
    { exfalso. apply Hne. rewrite (core_running _ _ _ _ _ Hp). set_solver. }
    destruct (leg_off_core _ _ _ accounts _ p Ep Hp) as (Hc & Hrun & _). rewrite Hrun. split; [done|]. split; [set_solver|done].
  - right. split; [by apply Hk|]. split; [done|].
    destruct (leg_off_core _ _ _ accounts c n Ec ltac:(by rewrite Er)) as (_ & Hrun & _).
    rewrite Et, Hrun in *. pose proof (home_runs shard_of legs payer accounts _ p Ep). cbv beta in *. split; set_solver.
  - destruct (leg_role_kept _ _ _ accounts c n Ec ltac:(by rewrite Er)) as (Hr & _). rewrite Er in Hr.
    rewrite (source_leg_takes_nothing a c n Ec) in He by (by right). set_solver.
Qed.
Lemma delivered_spec i s : delivered_at (st_edges the_star) i s = true ↔
  ∃ x, x ∈ st_edges the_star ∧ crossing_kind (ce_crossing x) = Owed ∧ ce_consumer x = i ∧ s ∈ ce_to x.
Proof.
  unfold delivered_at. rewrite existsb_exists. split.
  - intros (x & Hx & H). rewrite !andb_true_iff, !bool_decide_eq_true in H. exists x. rewrite list_elem_of_In. tauto.
  - intros (x & Hx & H). exists x. rewrite <- list_elem_of_In, !andb_true_iff, !bool_decide_eq_true. tauto.
Qed.
Lemma committing_spec s : s ∈ star_committing the_star ↔
  ∃ i, (i < length legs)%nat ∧ s ∈ star_running the_star i ∧ delivers_at the_star i s = false.
Proof.
  unfold star_committing, committing_at. rewrite elem_of_union_list. split.
  - intros (X & (i & -> & Hi)%list_elem_of_fmap & Hs). rewrite elem_of_filter in Hs. apply elem_of_seq in Hi. cbn [st_homes star_at] in Hi.
    rewrite length_fmap in Hi. exists i. split; [lia|]. tauto.
  - intros (i & Hi & Hs & Hd). eexists. split; [apply list_elem_of_fmap_2, elem_of_seq; cbn [st_homes star_at]; rewrite length_fmap|].
    { split; [apply Nat.le_0_l|exact Hi]. } rewrite elem_of_filter. done.
Qed.
Lemma undelivered_commits i s : (i < length legs)%nat → s ∈ star_running the_star i → star_role the_star i ≠ Outbound → s ∈ star_committing the_star.
Proof.
  intros Hi Hs Hr. apply committing_spec. exists i. split; [done|]. split; [done|]. apply Bool.not_true_iff_false.
  intros (x & Hx & Hk & Ec & _)%delivered_spec. apply Hr. destruct (crossing_lands x Hx) as [(Hk' & _)|(_ & Hr' & _)]; [by rewrite Hk in Hk'|].
  by rewrite <- Ec.
Qed.

Definition edge_key (e : ValueEdge) : nat * nat := (ve_source e, ve_output e).
Definition crossing_key (x : CrossingEdge ShardId) : nat * nat := (ce_producer x, ce_output x).
Lemma counted_once {K} `{Countable K} (ks : list K) (m : gmap K nat) :
  map_Forall (λ _ n, n ≤ 1)%nat (foldl (λ m k, <[k := (default 0 (m !! k) + 1)%nat]> m) m ks) →
  NoDup ks ∧ ∀ k, k ∈ ks → (default 0 (m !! k) = 0)%nat.
Proof.
  assert (Hge : ∀ l (n : gmap K nat) k, (default 0 (n !! k) ≤ default 0 (foldl (λ m k, <[k := (default 0 (m !! k) + 1)%nat]> m) n l !! k))%nat).
  { induction l as [|y l IH]; intros n k; [done|]. cbn. etrans; [|apply IH]. destruct (decide (y = k)) as [<-|Hne].
    - rewrite lookup_insert_eq. cbn. lia.
    - by rewrite lookup_insert_ne. }
  revert m. induction ks as [|x ks IH]; intros m Hm; [split; [constructor|set_solver]|]. cbn in Hm.
  assert (Hx : (default 0 (m !! x) = 0)%nat).
  { pose proof (Hge ks (<[x := (default 0 (m !! x) + 1)%nat]> m) x) as Hl. rewrite lookup_insert_eq in Hl. cbn in Hl.
    destruct (foldl _ _ ks !! x) as [n|] eqn:E; [specialize (Hm x n E); cbn in *|cbn in *]; lia. }
  destruct (IH _ Hm) as [Hnd H0]. split.
  - constructor; [|done]. intros Hin. specialize (H0 x Hin). rewrite lookup_insert_eq in H0. cbn in H0. lia.
  - intros k [->|Hk]%elem_of_cons; [done|]. specialize (H0 k Hk). destruct (decide (x = k)) as [<-|Hne]; [done|]. by rewrite lookup_insert_ne in H0.
Qed.
Lemma counts_fold (l : list ValueEdge) (m : gmap (nat * nat) nat) :
  foldl (λ counts e, let key := (ve_source e, ve_output e) in <[key := (default 0 (counts !! key) + 1)%nat]> counts) m l =
  foldl (λ m k, <[k := (default 0 (m !! k) + 1)%nat]> m) m (edge_key <$> l).
Proof. revert m. induction l as [|e l IH]; intros m; [done|]. cbn. apply IH. Qed.
Lemma crossings_sublist (f : nat → LegShape → ValueEdge → option (CrossingEdge ShardId)) l :
  (∀ c n e x, f c n e = Some x → crossing_key x = edge_key e) →
  crossing_key <$> concat (imap (λ c n, omap (f c n) (lg_edges n)) l) `sublist_of` edge_key <$> (l ≫= lg_edges).
Proof.
  revert f. induction l as [|n l IH]; intros f Hf; [done|]. rewrite imap_cons. cbn [concat mbind list_bind]. rewrite !fmap_app.
  apply sublist_app; [|apply (IH (λ c, f (S c))); eauto].
  induction (lg_edges n) as [|e es IHe]; [done|]. cbn. destruct (f 0%nat n e) as [x|] eqn:E.
  - cbn. rewrite (Hf _ _ _ _ E). by apply sublist_skip.
  - by apply sublist_cons.
Qed.
Lemma one_claim_per_output : every_edge_has_one_consumer legs = true → NoDup (crossing_key <$> st_edges the_star).
Proof.
  unfold every_edge_has_one_consumer, consumer_counts. rewrite bool_decide_eq_true, counts_fold. intros [Hnd _]%counted_once.
  change (st_edges the_star) with (crossing_edges legs (st_roles the_star) (st_homes the_star) (st_core the_star)).
  unfold crossing_edges. rewrite merge_sort_Permutation. eapply sublist_NoDup; [exact Hnd|]. apply crossings_sublist.
  intros c n e x. unfold crossing_of. destruct (legs !! ve_source e); [|done]. cbn. destruct (decide _); [done|]. by intros [= <-].
Qed.

Lemma forallb_elem {A} (f : A → bool) l x : forallb f l = true → x ∈ l → f x = true.
Proof. intros Hf Hx. eapply forallb_forall; [exact Hf|]. by apply list_elem_of_In. Qed.
Lemma forallb_imap {A} (f : nat → A → bool) l i x : forallb id (imap f l) = true → l !! i = Some x → f i x = true.
Proof. intros Hf Hx. apply (forallb_elem id _ _ Hf). apply list_elem_of_lookup. exists i. by rewrite list_lookup_imap, Hx. Qed.
Lemma declares_in_scope i n o : every_node_declares_inside_its_scope shard_of legs (st_roles the_star) (st_homes the_star) (st_core the_star) = true →
  legs !! i = Some n → o ∈ lg_declares n → shard_of o ∈ star_running the_star i.
Proof.
  intros Hs En Ho. pose proof (role_lookup shard_of legs payer accounts i n En) as Er.
  pose proof (homes_some shard_of legs payer accounts i n En) as Eh.
  assert (Hin : (star_role the_star i, n, home_of n) ∈ zip (zip (st_roles the_star) legs) (st_homes the_star)).
  { apply list_elem_of_lookup. exists i. apply lookup_zip_with_Some. eexists _, _. split; [done|]. split; [|exact Eh].
    apply lookup_zip_with_Some. by eexists _, _. }
  pose proof (forallb_elem _ _ _ (forallb_elem _ _ _ Hs Hin) Ho) as Hd. cbn beta iota in Hd.
  destruct (decide (star_role the_star i = Core)) as [Hc|Hc].
  - rewrite Hc in Hd. rewrite (core_running shard_of legs payer accounts i Hc). by apply bool_decide_eq_true in Hd.
  - destruct (leg_off_core shard_of legs payer accounts i n En Hc) as (_ & -> & _). destruct (star_role the_star i); [|done|..];
      apply bool_decide_eq_true in Hd; rewrite Hd; set_solver.
Qed.
Lemma sink_fed_from_away i n e s : no_sink_is_fed_from_both_sides legs (st_roles the_star) (st_homes the_star) (st_core the_star) = true →
  legs !! i = Some n → delivers_at the_star i s = true → e ∈ lg_edges n → s ∉ star_running the_star (ve_source e).
Proof.
  intros Hs En (x & Hx & Hk & Hc & Hto)%delivered_spec He.
  destruct (crossing_lands x Hx) as [(Hk' & _)|(_ & Hr & Et & _)]; [by rewrite Hk in Hk'|]. rewrite Hc in Hr, Et.
  destruct (leg_off_core shard_of legs payer accounts i n En ltac:(by rewrite Hr)) as (_ & Hrun & _).
  assert (s = home_of n) as -> by (rewrite Et, Hrun in Hto; set_solver).
  pose proof (forallb_imap _ _ i n Hs En) as Hb. cbv beta in Hb. change (role_at (st_roles the_star) i) with (star_role the_star i) in Hb.
  rewrite Hr, (homes_some shard_of legs payer accounts i n En), decide_False in Hb by (by intros []). apply bool_decide_eq_true in Hb. cbn [default from_option id] in Hb.
  intros Hin. apply edges_spec in Hx as (c & n' & e' & p & (Ec & He' & Ep) & (_ & _ & E3 & _ & Eto & _ & _)).
  rewrite Hc in E3. subst c. rewrite En in Ec. injection Ec as <-.
  assert (Hf : home_of n ∉ star_running the_star (ve_source e')) by set_solver.
  set (B := beside (st_roles the_star) (st_homes the_star) (st_core the_star) (home_of n) n) in Hb.
  assert (Hm : ∀ e1, e1 ∈ lg_edges n → bool_decide (home_of n ∈ star_running the_star (ve_source e1)) ∈ B).
  { intros e1 H1. unfold B, beside. apply elem_of_list_to_set, list_elem_of_fmap. by exists e1. }
  pose proof (Hm e He) as M1. pose proof (Hm e' He') as M2. rewrite bool_decide_eq_true_2 in M1 by done. rewrite bool_decide_eq_false_2 in M2 by done.
  assert (size ({[true; false]} : gset bool) ≤ size B)%nat by (apply subseteq_size; set_solver).
  assert (size ({[true; false]} : gset bool) = 2%nat) by done. lia.
Qed.

(** C12: A transaction that divides is covered. Every node is run somewhere and the core has a shard; a crossing lands
    escrowed on the whole core, from off it, or owed on the one shard of an outbound leg; it is issued by a shard that
    commits the transaction, every core shard commits, and each output crosses at most once, within the cap. The fee
    payer's shard and every account's commit, and the core waits on the account's. What a node declares lies on shards
    that run it, a delivered node needs nothing produced where it is delivered, and an edge naming instances stays
    inside the core. *)
Theorem divided_star : st_decomposes the_star = true →
  st_core the_star ≠ ∅ ∧ (∀ i n, legs !! i = Some n → star_running the_star i ≠ ∅) ∧
  (∀ x, x ∈ st_edges the_star → ce_from x ∈ star_committing the_star ∧
    (crossing_kind (ce_crossing x) = Escrowed ∧ star_role the_star (ce_consumer x) = Core ∧ ce_to x = st_core the_star ∧ ce_from x ∉ st_core the_star ∨
     crossing_kind (ce_crossing x) = Owed ∧ star_role the_star (ce_consumer x) = Outbound ∧
       ce_to x = star_running the_star (ce_consumer x) ∧ ce_from x ∉ ce_to x)) ∧
  st_core the_star ⊆ star_committing the_star ∧
  NoDup (crossing_key <$> st_edges the_star) ∧ (length (st_edges the_star) ≤ MAX_CROSSINGS_PER_TX)%nat ∧
  shard_of payer ∈ star_committing the_star ∧
  (∀ account, account ∈ accounts → shard_of account ∈ star_committing the_star ∧
    (shard_of account ∈ st_core the_star ∨
     ∃ x, x ∈ st_edges the_star ∧ star_role the_star (ce_consumer x) = Core ∧ ce_from x = shard_of account)) ∧
  (∀ i n o, legs !! i = Some n → o ∈ lg_declares n → shard_of o ∈ star_running the_star i) ∧
  (∀ i n e s, legs !! i = Some n → delivers_at the_star i s = true → e ∈ lg_edges n → s ∉ star_running the_star (ve_source e)) ∧
  (∀ i n e, legs !! i = Some n → e ∈ lg_edges n → ve_non_fungible e = true →
    star_role the_star i = Core ∧ star_role the_star (ve_source e) = Core).
Proof.
  cbn [st_decomposes star_at]. change (settle_legs shard_of legs _ _) with (st_roles the_star).
  change (core_homes _ _) with (st_core the_star). change (crossing_edges _ _ _ _) with (st_edges the_star).
  change (_ <$> legs) with (st_homes the_star). unfold decomposes. rewrite !andb_true_iff.
  change (committing_at _ _ _ _) with (star_committing the_star).
  intros ((((((((H1 & _) & H3) & H4) & H5) & H6) & H7) & H8) & H9).
  split; [by apply bool_decide_eq_true in H1|]. split; [intros i n En; pose proof (home_runs shard_of legs payer accounts i n En); set_solver|].
  split; [|split]; [| |split; [|split]; [| |split; [|split]]].
  - intros x Hx. split.
    + apply edges_spec in Hx as (c & n & e & p & (Ec & He & Ep) & (_ & _ & _ & -> & _)).
      apply (undelivered_commits (ve_source e)); [by eapply lookup_lt_Some|by apply home_runs|].
      intros Hr. destruct (leg_role_kept shard_of legs payer accounts _ p Ep ltac:(by rewrite Hr)) as (Hk & _). rewrite Hr in Hk.
      by destruct (outbound_feeds_nothing a c n e (ve_source e) p Ec He eq_refl Ep).
    + destruct (crossing_lands x Hx) as [(E1 & E2 & _ & E3)|E]; [left; tauto|by right].
  - intros s Hs. pose proof Hs as (i & Hr & Hh)%core_homes_spec. change (settle_legs shard_of legs _ _) with (st_roles the_star) in Hr.
    apply (undelivered_commits i); [apply lookup_lt_Some in Hh; by rewrite length_fmap in Hh| |].
    + rewrite (core_running shard_of legs payer accounts i); [done|]. unfold star_role, role_at. by rewrite Hr.
    + unfold star_role, role_at. by rewrite Hr.
  - by apply one_claim_per_output.
  - by apply bool_decide_eq_true in H3.
  - pose proof (forallb_elem _ _ payer H4) as Hp. apply bool_decide_eq_true in Hp; [done|by left].
  - intros acc Hacc. split; [pose proof (forallb_elem _ _ acc H4) as Hp; apply bool_decide_eq_true in Hp; [done|by right]|].
    pose proof (forallb_elem _ _ acc H5 Hacc) as Hp. apply bool_decide_eq_true in Hp. unfold awaited_by_core in Hp.
    apply elem_of_union in Hp as [|(x & E & (Hx & Hr)%list_elem_of_In%filter_In)%elem_of_list_to_set%list_elem_of_fmap]; [by left|].
    right. exists x. apply bool_decide_eq_true in Hr. split; [by apply list_elem_of_In|]. by split.
  - split; [intros i n o; by apply declares_in_scope|]. split; [intros i n e s; by apply sink_fed_from_away|].
    intros i n e En He Hf. pose proof (forallb_imap _ _ i n H8 En) as Hn. cbv beta in Hn. apply (forallb_elem _ _ e) in Hn; [|done]. cbv beta in Hn. rewrite Hf in Hn. cbn in Hn.
    apply negb_true_iff, orb_false_iff in Hn as [Hi Hs]. unfold is_leg in Hi, Hs. apply bool_decide_eq_false in Hi, Hs.
    split; [by destruct (decide (star_role the_star i = Core))|by destruct (decide (star_role the_star (ve_source e) = Core))].
Qed.
End divided.

(** ** A swap across three shards *)

(** An account pays into a pool and another account is paid out of it; addresses sit on the shard of their body. *)
Definition sample_account : Address := 1 * 256 + 1.
Definition sample_pool : Address := 2 * 256 + 2.
Definition sample_payee : Address := 3 * 256 + 1.
Definition body_shard (o : Address) : ShardId := o / 256.
Definition sample_input (source : nat) : NodeInput :=
  NodeInput.Edge source 0 7 EdgeContent.Fungible {| bound_min := None; bound_max := None |}.
Definition sample_node (t : Address) (inputs : list NodeInput) (evidence : list Claim) : Node :=
  {| nd_target := t; nd_method := []; nd_inputs := inputs; nd_evidence := evidence |}.
Definition sample_call (t : Address) : NodeCall := {|
  nc_package := 0; nc_target := t; nc_export := []; nc_args := []; nc_edges := []; nc_outputs := []; nc_answers := false;
  nc_issues := []; nc_evidence := []; nc_requires := []; nc_body := Guest |}.
Definition sample_origin (local : Z) (reserves deposits : bool) : NodeOrigin := {|
  no_intent := 9; no_local := local; no_reservation_shaped := reserves; no_commits_nothing := false; no_vault_deposit := deposits |}.
Definition sample_admitted : AdmittedTx := {|
  ad_manifest := [sample_node sample_account [NodeInput.Literal (Val.U128 10)] [claim_of_subject sample_account];
                  sample_node sample_pool [sample_input 0] []; sample_node sample_payee [sample_input 1] []];
  ad_frames := []; ad_calls := sample_call <$> [sample_account; sample_pool; sample_payee]; ad_declaration := declaration_default;
  ad_origins := [sample_origin 0 true false; sample_origin 1 false false; sample_origin 2 false true] |}.
Lemma sample_star : star_at body_shard (legs_of sample_admitted) sample_account [sample_account] = {|
  st_roles := [Inbound; Core; Outbound]; st_homes := [1; 2; 3]; st_core := {[2]};
  st_edges := [
    {| ce_producer := 0; ce_output := 0; ce_consumer := 1; ce_from := 1; ce_to := {[2]};
       ce_crossing := {| crossing_id := {| x_producer := sample_account; x_consumer := sample_pool; x_intent := 9; x_local := 0; x_output := 0 |};
                         crossing_kind := Escrowed |} |};
    {| ce_producer := 1; ce_output := 0; ce_consumer := 2; ce_from := 2; ce_to := {[3]};
       ce_crossing := {| crossing_id := {| x_producer := sample_pool; x_consumer := sample_payee; x_intent := 9; x_local := 1; x_output := 0 |};
                         crossing_kind := Owed |} |}];
  st_decomposes := true |}.
Proof. vm_compute. reflexivity. Qed.
Lemma divided_star_witness :
  let star := star_at body_shard (legs_of sample_admitted) sample_account [sample_account] in
  st_decomposes star = true ∧ st_core star ⊆ star_committing star.
Proof.
  cbv zeta. assert (E : st_decomposes (star_at body_shard (legs_of sample_admitted) sample_account [sample_account]) = true) by (rewrite sample_star; done).
  split; [exact E|]. exact (proj1 (proj2 (proj2 (proj2 (divided_star body_shard sample_admitted sample_account [sample_account] E))))).
Defined.
Lemma star_shape_witness :
  let star := star_at body_shard (legs_of sample_admitted) sample_account [sample_account] in
  ce_from <$> st_edges star = [1; 2] ∧ ∀ x, x ∈ st_edges star → ce_from x ∈ star_running star (ce_producer x).
Proof.
  cbv zeta. split; [rewrite sample_star; done|].
  intros x Hx. exact (proj1 (proj2 (proj2 (star_shape body_shard (legs_of sample_admitted) sample_account [sample_account])) x Hx)).
Defined.

(** ** The shard projection *)

Section projection.
Context (shard_of : Address → ShardId).

Definition clause_shard (c : clause) : ShardId := shard_of (target_owner (target c.1)).
Definition shard_clauses (s : ShardId) (l : list clause) : list clause := filter (λ c, clause_shard c = s) l.
Lemma totals_fit_prefix l r : Forall clause_ok (l ++ r) → Effects.totals_fit (l ++ r) → Effects.totals_fit l.
Proof.
  revert l. induction r as [|c r IH]; intros l; [by rewrite app_nil_r|]. rewrite (cons_middle c l r), app_assoc. intros Hok Hf.
  pose proof (proj1 (proj1 (Forall_app _ _ _) Hok)) as Hok'. by apply (totals_fit_app l c Hok'), (IH (l ++ [c])).
Qed.
(** The clauses on a target are all on its owner's shard. *)
Lemma shard_clauses_on s t l : clauses_on t (shard_clauses s l) = if decide (shard_of (target_owner t) = s) then clauses_on t l else [].
Proof.
  unfold clauses_on, shard_clauses. rewrite list_filter_filter. destruct (decide _) as [E|E].
  - apply list_filter_iff. intros c. unfold clause_shard. split; [tauto|]. by intros <-.
  - induction l as [|c l IH]; [done|]. rewrite filter_cons, IH. destruct (decide _) as [[E1 E2]|]; [|done].
    exfalso. apply E. by rewrite <- E1.
Qed.
Lemma reserve_fits_shard l c : reserve_fits (shard_clauses (clause_shard c) l) c ↔ reserve_fits l c.
Proof. unfold reserve_fits. by rewrite (shard_clauses_on _ (target c.1)), decide_True. Qed.

Definition projects (out : gmap ShardId EffectSet) (l : list clause) : Prop :=
  ∀ s, folds (default effects_new (out !! s)) (shard_clauses s l).
Lemma per_shard_fold_total set rest l out :
  let ds := (λ access, (da_effect access, width_of set (target (da_effect access)))) <$> rest in
  Forall clause_ok (l ++ ds) → Effects.totals_fit (l ++ ds) → projects out l →
  ∃ out', per_shard_fold shard_of set rest out = Some out' ∧ projects out' (l ++ ds).
Proof.
  revert l out. induction rest as [|access rest IH]; intros l out; cbv zeta; cbn [fmap list_fmap].
  { rewrite app_nil_r. intros _ _ Ho. by exists out. }
  set (c := (da_effect access, width_of set (target (da_effect access)))). rewrite (cons_middle c), app_assoc. intros Hok Hf Ho.
  assert (Hfit : reserve_fits l c).
  { pose proof (proj1 (proj1 (Forall_app _ _ _) Hok)) as Hok'. apply (totals_fit_app l c Hok'). by eapply totals_fit_prefix. }
  cbn [per_shard_fold]. change (shard_of (target_owner (target (da_effect access)))) with (clause_shard c).
  pose proof (insert_bounded_folds _ _ c (Ho (clause_shard c))) as Hi. unfold insert_from.
  change (da_effect access) with c.1 at 1. change (width_of set (target (da_effect access))) with c.2.
  destruct (insert_bounded _ c.1 c.2) as [s' [b|err]]; [|by rewrite reserve_fits_shard in Hi; destruct Hi].
  destruct Hi as [_ Hi]. apply (IH (l ++ [c])); [done..|]. intros s. unfold shard_clauses. rewrite filter_app.
  destruct (decide (s = clause_shard c)) as [->|Hne].
  - rewrite lookup_insert_eq, filter_cons, decide_True by done. exact Hi.
  - rewrite lookup_insert_ne by done. rewrite filter_cons, decide_False by done. cbn. rewrite app_nil_r. apply Ho.
Qed.

Lemma assembled_fits d : assembled d → ∃ cs, cs.*1 = da_effect <$> dc_ordered d ∧ Forall clause_ok cs ∧ folds (dc_set d) cs ∧ Effects.totals_fit cs.
Proof.
  induction 1 as [|d access w d' Hd (cs & E & Hok & Hf & Ht) Hc Hp|d c Hd IH].
  - exists []. split; [done|]. split; [constructor|]. split; [intros t; done|]. intros t. by vm_compute.
  - exists (cs ++ [(da_effect access, w)]). unfold push_access in Hp.
    pose proof (insert_bounded_folds (dc_set d) cs (da_effect access, w) Hf) as Hi. cbn [fst snd] in Hi.
    destruct (insert_bounded _ _ _) as [s [b|e]]; [|done]. injection Hp as <-. cbn [dc_set dc_ordered].
    assert (Hok' : Forall clause_ok (cs ++ [(da_effect access, w)])) by (apply Forall_app; split; [done|by repeat constructor]).
    rewrite !fmap_app, E. split; [done|]. split; [done|]. split; [by apply Hi|]. apply (totals_fit_app cs _ Hok'). split; [exact Ht|apply Hi].
  - exact IH.
Qed.
(** What a fold reads of the effects alone. *)
Lemma clauses_on_effects t (cs ds : list clause) : cs.*1 = ds.*1 → (clauses_on t cs).*1 = (clauses_on t ds).*1.
Proof.
  revert ds. induction cs as [|c cs IH]; intros [|d ds] E; try done. cbn in E. injection E as E1 E2. unfold clauses_on in *.
  rewrite !filter_cons, E1. destruct (decide _); cbn; [f_equal; [done|]|]; by apply IH.
Qed.
Lemma fold_effects (cs ds : list clause) : cs.*1 = ds.*1 → plain_modes cs = plain_modes ds ∧ Effects.reserves cs = Effects.reserves ds.
Proof.
  revert ds. induction cs as [|c cs IH]; intros [|d ds] E; try done. cbn in E. injection E as E1 E2. destruct (IH ds E2) as [H1 H2].
  unfold plain_modes, Effects.reserves in *. cbn. by rewrite E1, H1, H2.
Qed.
(** The narrowed widths fold back to themselves. *)
Lemma refolded set t cs ds : cs.*1 = ds.*1 → set !! t = fold_declared (clauses_on t cs) →
  Forall (λ c, c.2 = width_of set (target c.1)) ds → fold_declared (clauses_on t ds) = set !! t.
Proof.
  intros E Hs Hw. rewrite Hs. unfold width_of in Hw.
  pose proof (clauses_on_effects t cs ds E) as Hkeep. destruct (fold_effects _ _ Hkeep) as [Hm1 Hm2].
  assert (Hmin : ∀ l : list Z, foldr Z.min MAX_SLOT_WIDTH l ≤ MAX_SLOT_WIDTH) by (induction l; cbn; lia).
  unfold fold_declared in *. destruct (decide (clauses_on t cs = [])) as [Ec|Ec], (decide (clauses_on t ds = [])) as [Ed|Ed].
  - done.
  - rewrite Ec in Hkeep. by destruct (clauses_on t ds).
  - rewrite Ed in Hkeep. by destruct (clauses_on t cs).
  - f_equal. f_equal; [by unfold fold_modes; rewrite Hm1, Hm2|].
    assert (Hall : Forall (λ c, c.2 = fold_width (clauses_on t cs)) (clauses_on t ds)).
    { apply Forall_forall. intros c [Ht Hc]%list_elem_of_filter. rewrite (proj1 (Forall_forall _ _) Hw c Hc), Ht, Hs. done. }
    unfold fold_width at 1. destruct (clauses_on t ds) as [|d l]; [done|]. apply Forall_cons in Hall as [Hd Hl]. cbn. rewrite Hd.
    assert (Hge : fold_width (clauses_on t cs) ≤ foldr Z.min MAX_SLOT_WIDTH l.*2).
    { clear -Hl Hmin. induction Hl as [|c l Hc _ IH]; cbn; [apply Hmin|]. rewrite Hc. lia. }
    lia.
Qed.

(** Projecting an assembled declaration onto shards never fails, and the parts partition it: each shard has exactly the
    targets whose owner it holds, declared as the whole declares them. *)
Theorem per_shard_partitions (a : AdmittedTx) : assembled (ad_declaration a) →
  ∃ out, per_shard a shard_of = Some out ∧
    ∀ s t, default effects_new (out !! s) !! t = if decide (shard_of (target_owner t) = s) then dc_set (ad_declaration a) !! t else None.
Proof.
  intros (cs & E & Hok & Hf & Ht)%assembled_fits. set (set := dc_set (ad_declaration a)) in *.
  pose (ds := (λ access, (da_effect access, width_of set (target (da_effect access)))) <$> dc_ordered (ad_declaration a)).
  assert (Ed : cs.*1 = ds.*1) by (unfold ds; rewrite E, <- list_fmap_compose; done).
  assert (Hokd : Forall clause_ok ds).
  { unfold ds. clear -E Hok. revert cs E Hok. induction (dc_ordered _) as [|x l IH]; intros [|c cs] E Hok; try done.
    cbn in E. injection E as E1 E2. apply Forall_cons in Hok as [H1 H2]. cbn. constructor; [|by eapply IH]. unfold clause_ok in *. cbn. by rewrite <- E1. }
  assert (Htd : Effects.totals_fit ds).
  { intros t. specialize (Ht t). by destruct (fold_effects _ _ (clauses_on_effects t cs ds Ed)) as [_ <-]. }
  destruct (per_shard_fold_total set (dc_ordered (ad_declaration a)) [] ∅ Hokd Htd) as (out & Eo & Ho).
  { intros s t. done. }
  exists out. split; [exact Eo|]. intros s t. rewrite (Ho s t). cbn [app]. rewrite shard_clauses_on. destruct (decide _); [|done].
  eapply refolded; [exact Ed|apply Hf|]. apply Forall_fmap, Forall_true. done.
Qed.
End projection.

(** Under another shard identifier every node runs where its shards map to. *)
Lemma map_shards_running {S T} `{Countable S, Countable T} (f : S → T) (s : Star S) i :
  star_running (map_shards f s) i = set_map f (star_running s i).
Proof.
  unfold star_running, running_at, map_shards. cbn. destruct (role_at (st_roles s) i); [|done|..];
    rewrite list_lookup_fmap; destruct (st_homes s !! i); cbn; by rewrite ?set_map_singleton_L, ?set_map_empty.
Qed.
